(* ===== verification/_CoqProject ===== *)
-Q . S2P
Prelude.v
Float64.v
Cancellation.v
Progress.v
CastProto.v
UsbFraming.v
Coalescer.v
RateLimiter.v
LinkCodec.v
LinkStore.v
Pairing.v
DeezerCache.v
DeezerFlights.v
UsbDescriptors.v
UsbVolume.v
RustText.v
TransferPolicy.v
Monads.v
Download.v
DownloadSingle.v
DownloadChunked.v
SegmentStore.v
Segments.v
SegmentsInvariant.v
SegmentsSpec.v
SegmentsLiveness.v
UnicodeText.v
Matching.v
TagIo.v
VorbisComments.v
FlacTags.v
FlacHeader.v
FlacTagsSpec.v
FloatText.v
Ogg.v
OggPages.v
OggSpec.v
CharText.v
FileNames.v
ExtensionStore.v
ExtensionStoreSpec.v
IpAddress.v
Url.v
NetworkPolicy.v
Cookies.v
TagFields.v
ApeTags.v
ApeSpec.v
Id3Text.v
Id3Tags.v
Id3Spec.v
Cue.v
CueSpec.v
Paths.v
ExtensionFiles.v
OutputLocks.v
Mp4Atoms.v
Mp4Tags.v
Mp4Shape.v
Mp4Items.v
Mp4Spec.v
TagComments.v
FlacReader.v
TagCommentsSpec.v
FlacReaderSpec.v
OggReader.v
ApeReader.v
Id3Reader.v
Id3ReaderSpec.v
RiffReader.v
RiffTags.v
RiffReaderSpec.v
RiffSpec.v
RiffReadSpec.v
Mp4Reader.v
TagDispatch.v
IsrcCache.v
IsrcCacheSpec.v
Lrc.v
LrcSpec.v
