(* ===== verification/Prelude.v ===== *)
(** * Verification library of the Lossless Music engine (Rust backend)

    The engine is the Rust workspace under [src/rust_backend/crates]: [core] (request cancellation,
    progress of items, tags, file names, lyrics, the index of ISRCs), [providers] (metadata services behind caches, coalesced
    requests and rate limits), [extensions] (the extension host and the download engine), [link]
    (the local server other devices pair with), [cast] (sending audio to speakers), [mobile] (USB
    audio output) and [network].  The application is Flutter code around it.  This library models
    the parts of the engine that keep state or read and write formats of their own, and proves what
    makes them correct.

    ** Files, and the code they model

    Paths are relative to [src/rust_backend/crates].

    - this file: results and the [?] operator, fixed-width integers, ordered maps ([BTreeMap]) over
      [gmap], bytes and text, tactics ([split_conj], [case_bool]) shared by all files;
    - [Float64]: [f64] as the Standard Library's executable IEEE binary64;
    - [Cancellation]: [core/src/cancellation.rs].  A [Registry] holds the entries of a domain by id;
      the [Arc<AtomicBool>] of an entry is a cell of the registry's heap, so that an entry and the
      leases of its request share it.  One definition per method; [step] is the relation of all calls
      that change a registry, and the theorems hold in every state it reaches;
    - [Progress]: [core/src/progress.rs], [progress/subscription.rs],
      [progress/reporter.rs] and [extensions/src/download/progress.rs].  The registry of items with
      revisions and tombstones, the delta a listener receives, the throttled reporter and the writer
      that checks the cancellation registry before every write;
    - [CastProto]: [cast/src/proto.rs];
    - [UsbFraming], [UsbDescriptors], [UsbVolume]: [mobile/src/usb_audio/framing.rs],
      [descriptors.rs] and [volume.rs].  An index out of range panics in the code and is [None] here;
      the device of [UsbVolume] is the class [Control], which may answer anything at any time;
    - [Coalescer]: [providers/src/coalescer.rs].  Lookups, leaves and finishes of any callers
      interleave as the steps of a relation;
    - [RateLimiter]: [providers/src/resolver/rate.rs];
    - [DeezerCache]: [providers/src/deezer/cache.rs], the cache; [DeezerFlights] the callers that share
      requests, as state machines under any interleaving;
    - [LinkCodec], [LinkStore], [Pairing]: [link/src/auth.rs], [store.rs] and [pairing.rs];
    - [RustText], [TransferPolicy]: the parts of [str] the engine uses, and
      [extensions/src/transfer_policy.rs];
    - [Download], [DownloadSingle]: [extensions/src/download.rs] and [download/store.rs].  The engine
      is a state and error monad over the class [World], which answers every call to the network,
      the file system, the clock, the waits, the caller's check and the random source by the number
      of the call, so no two answers need agree.  [Download] has the staged file and its rules of
      weakest preconditions; [DownloadSingle] the loop of attempts;
    - [Monads]: the state and error monad and its weakest preconditions;
    - [DownloadChunked]: [extensions/src/download/chunked.rs], the probe and the loop over the chunks;
    - [SegmentStore], [Segments] and [SegmentsInvariant], [SegmentsSpec], [SegmentsLiveness]:
      [extensions/src/download/segment_store.rs] and [segments.rs].  The workers and
      the coordinating thread are state machines over the shared output, the two channels and the
      atomics; a schedule picks the thread of each step;
    - [UnicodeText], [Matching]: [core/src/matching.rs], over the class [Unicode] of case tables;
    - [TagIo]: the source an editor of tags reads and the sections it replaces ([core/src/tags.rs],
      [tags/write.rs]).  The class [Source] says what each read, seek, write and check answers; any
      read may be short;
    - [VorbisComments]: the edits of comments ([tags/write.rs], [write/artists.rs], [separators.rs]);
    - [FlacTags]: the FLAC header and the three editors of FLAC files ([tags/write.rs]);
      [FlacHeader] and [FlacTagsSpec] specify the header as a function of the bytes and prove what an
      edit keeps;
    - [FloatText]: Rust's [parse::<f64>];
    - [Ogg]: Ogg pages, their checksum and the editor of Opus and Vorbis files ([tags/write/ogg.rs],
      [tags/containers.rs]); [OggPages] and [OggSpec] specify pages, packets and the whole
      edit as functions of the bytes and prove what is written;
    - [TagFields], [ApeTags], [ApeSpec]: the metadata of a file as fields ([tags.rs], [tags/write.rs]) and
      the editor of APE tags ([tags/write/ape.rs], the footers of [tags/containers.rs]);
    - [Id3Text], [Id3Tags], [Id3Spec]: texts in the encodings of ID3, reading frames of any version and
      the editor of ID3v2 tags ([tags/id3.rs], [tags/write/id3.rs]);
    - [Mp4Atoms], [Mp4Tags]: atoms read from the source ([media/mp4.rs]), the items of an MP4 file, the
      replacement of a range of nested atoms and the chunk offsets ([tags/write/mp4.rs]); [Mp4Shape]
      says what trees of atoms the reader accepts, [Mp4Items] and [Mp4Spec] what the edit writes;
    - [TagComments], [TagCommentsSpec], [FlacReader], [FlacReaderSpec], [OggReader], [ApeReader],
      [Id3Reader], [Id3ReaderSpec], [Mp4Reader]: the readers of metadata ([tags/comments.rs],
      [tags/containers.rs], [tags/id3.rs], [tags/mp4.rs]);
    - [RiffReader], [RiffTags]: reading and editing the tags of WAVE and AIFF files
      ([tags/containers.rs], [tags/write/riff.rs]); [RiffReaderSpec], [RiffSpec] and [RiffReadSpec] specify
      the walk over the chunks, the edit, and what is read of an edited file;
    - [TagDispatch]: which reader or editor a file gets ([tags.rs], [tags/write.rs]);
    - [CharText], [FileNames]: text by characters, and [core/src/filename.rs] with the paths of
      [extensions/src/backend/downloads/paths.rs];
    - [ExtensionStore], [ExtensionStoreSpec]: [extensions/src/storage.rs] over the class [Os] of the
      calls of the operating system, any of which may fail;
    - [IpAddress], [Url], [NetworkPolicy], [Cookies]: [network/src/policy.rs], [url.rs] and [cookies.rs];
    - [Cue], [CueSpec]: [core/src/cue.rs];
    - [Paths], [ExtensionFiles], [OutputLocks]: Unix paths as the Standard Library takes them apart, and
      [extensions/src/files.rs]: the directories granted to a script, opening below them without
      following links, and the locks of output paths;
    - [IsrcCache], [IsrcCacheSpec]: [core/src/isrc/cache.rs].  Callers are state machines that interleave
      at every lock and at every call of the file system;
    - [Lrc], [LrcSpec]: [core/src/lyrics/lrc.rs] and [LyricsResponse] of [core/src/lyrics.rs].

    A file named [XSpec] has the specifications and the theorems of [X]; where there is none, the theorems
    follow the definitions in the file.

    ** How the parts interact

    A download ([DownloadSingle.transfer]) takes its limits from [TransferPolicy.from_capabilities]
    and writes through the staged file of [Download]; its bytes are reported by
    the reporter of [Progress], which updates its registry and asks the registry of
    [Cancellation] before each write.  [LinkStore] keeps the devices that [Pairing] admits, both over
    [LinkCodec].  [UsbVolume] and [UsbFraming] drive the alternate settings chosen by
    [UsbDescriptors].  Chunked and segmented transfers are chosen by the policy in front of
    [DownloadSingle.transfer]; both publish through the files of [Download] and [SegmentStore].  The
    editors of FLAC and Ogg files read through [TagIo] and edit comments by [VorbisComments], whose keys
    compare by [Matching.uppercase]; FLAC, APE, MP3, MP4 and RIFF files are written by
    [TagIo.write_sections], Ogg files page by page.  A RIFF file has its tag as an ID3 chunk,
    which [RiffTags] reads and writes with the code of [Id3Tags] on a cursor, that is, with another
    instance of the class [Source]; what an edit does not name it takes from [RiffReader].  [TagDispatch]
    picks the reader and the editor.  [NetworkPolicy] takes URLs apart by [Url] and addresses by
    [IpAddress]; [Cookies] keys its jar by the hosts of [Url].  [ExtensionFiles] resolves paths by [Paths].
    [IsrcCache] compares keys by [Matching.uppercase].  [Coalescer], [RateLimiter] and [DeezerCache] with [DeezerFlights] stand in front of the
    providers' requests.

    ** What the theorems show

    - downloads: a successful transfer publishes one whole representation of the size it reports,
      whatever broke or was resumed, in one stream, in chunks or in segments of concurrent workers, if the
      server answers ranges as RFC 9110 has it; the two ways in which it can still publish something else
      are shown as well ([stale_validator_splices], [unnamed_total_truncates]); what segmented transfers have in flight stays in a window, and they end under every schedule that
      keeps running their threads; policies read from any manifest are within their bounds;
    - tags: whatever is read in whatever pieces, the output is the source with its sections replaced; a
      FLAC edit keeps the audio and all other blocks, and a second one changes nothing; an Ogg edit keeps
      the audio and the other packets and writes well-formed pages; an edit of comments replaces exactly
      the keys it names; edits of APE, ID3, MP4 and RIFF tags write the kept and the new items around the
      unchanged audio, and after an MP4 edit every chunk offset leads to the bytes it led to; what an edit
      of a FLAC, APE, MP3 or RIFF file sets is what the reader finds in the file it wrote (in a RIFF file if it has a
      title, artist or album); the similarity of titles is the edit distance;
    - names, sheets and lyrics: a file name is a single component of bounded length for any texts; a CUE
      sheet is read as the lines of the file whatever the stream returns, and a printed one as what it
      says; saved lyrics are read back with their times, words and source;
    - extensions: the store of an extension is a map to all its handles, whatever fails, as long as no
      other program changes its files, and a file that cannot be read is never overwritten; a request
      passes only to a granted public host; a cookie goes only where the line that set it says; a script reaches only files below its directories, and one writer at a
      time has an output path;
    - the ISRC index: its limits and sums hold under every interleaving, no index is served past an
      invalidation, and a rebuild is that of the unchanged files and then the changed ones, of which alone
      it reads;
    - cancellation: reference counts are those of the leases in flight; a batch reaches exactly its
      leases; release is idempotent and balanced; shutdown is final; waits are bounded and truthful;
    - progress: a delta brings its reader to the registry's items, cached snapshots are current, an
      update is published exactly if it is visible, writers stop at cancellation and reports are
      throttled;
    - link: at most five wrong proofs are compared per window, each PIN equally likely, requests are
      authenticated exactly by a stored key they show, files reopen to the state they mirror whatever failed on the way;
    - providers: one worker per key, no revived flights, one result for all waiters; shared metadata
      requests end and pass on no cancellation; never more than the permitted calls per window, and a
      bounded cache of unexpired values;
    - USB audio and casting: no input panics the descriptor parser, offered formats are bit-exact,
      connecting never raises the volume, set levels are confirmed, transfers keep the DoP markers
      in phase, cast messages survive the channel.

    ** Conventions, bounds and fuel

    Integers are [Z] with the wrap-around or saturation of the code written out ([wrap_u], [wrap_i],
    [sat_sub]); [usize] is 64 bits wide.  Times are integers, of nanoseconds or, in [LinkStore] and
    [Pairing], milliseconds.  Loops that are not structural take fuel which is shown or chosen to
    suffice: a varint has at most ten bytes, and its loops fuel ten; the parsers of messages and
    descriptors consume a byte per step and have the length as fuel; evictions have the size of the map.
    The loop of download attempts is bounded by the policy's own number of attempts, a chunk's by its
    retries.  Reading, discarding and copying take a byte or more per pass and have the number of bytes
    as fuel; FLAC blocks, MP4 atoms of a level and RIFF chunks of an edit are at most as many as in the
    code (65536 blocks and chunks), Ogg header pages 1024.  A pass over ID3 frames, APE items, atoms, RIFF
    chunks or lines reads at least a byte, mostly a header of six to ten, and the length is the fuel.  Making
    room in the ISRC cache removes an index per pass; the patterns of LRC text read a character per pass.
    Retries of a lock are steps of a schedule and need no fuel.

    Code outside the repository is a parameter: JSON encoding (class [StateJson], with the law that
    decoding inverts encoding), HMAC-SHA256, MD5, random bytes, clocks, writers and the errors of
    the file system; the Unicode case tables ([Unicode], with their values on ASCII), the regular
    expressions that split artists ([Splits]), the image codecs ([Images]), Base64 ([Base64], and
    [Encodings] with its alphabet), the printing of numbers ([Integers]) and the pattern and the powers of
    ReplayGain texts ([GainText]), the operating system under the extensions ([Os], with the
    law that files which exist at the same time have different inode numbers, and [System]) with their
    encryption ([Crypto]) and JSON ([Json], [SegmentJson]), the cookie parser ([CookieLibrary]), the
    builder of request URIs ([Http]), the lower case of hosts ([StrCase]) and the sizes of the memory
    layout ([Layout]).  The fingerprint of a URL is an argument of the engine.  [stream.discard] and temporary files have no effect on what is
    published and are not modelled.

    ** What is not modelled

    Sockets, TLS, HTTP routing and discovery; the libusb transport; the JavaScript runtime; the
    decoding of web services' answers and their requests; the database and the queries over it; audio
    analysis, palettes and covers, which are numeric code over third-party decoders; the bridges to the
    application; Dart and Kotlin: this is input and output, generated tables, or calls of libraries, with
    little state of its own.

    Of the modelled parts: the extraction of covers, which asks the failure log of its reader, the rows that
    the library keeps, the probe of media streams and the AC-4 bit reader ([core/src/tags/file.rs],
    [library.rs], [core/src/media.rs], [tags/write/mp4/ac4.rs]); the classification of native error
    messages; templates of file names; staging and listing of extension files; the walk over directories and
    the direct FLAC reader of ISRCs; the scores of lyrics candidates, whose patterns fold case by the Unicode
    tables.  Panics of callbacks and interrupted reads are not modelled; where a panic of the code itself is
    possible it is a value of the model. *)

From Stdlib Require Export ZArith Lia.
From stdpp Require Export base gmap strings sorting numbers option.
From stdpp Require Export list.

#[global] Open Scope Z_scope.

(** ** Results: Rust's [Result<T, E>] and the [?] operator *)

Inductive result (A E : Type) : Type :=
| Ok (a : A)
| Err (e : E).
Arguments Ok {A E} _.
Arguments Err {A E} _.

#[export] Instance result_eq_dec `{EqDecision A, EqDecision E} : EqDecision (result A E).
Proof. solve_decision. Defined.


Definition bind_result {A B E} (r : result A E) (k : A -> result B E) : result B E :=
  match r with Ok a => k a | Err e => Err e end.

Definition map_err {A E F} (f : E -> F) (r : result A E) : result A F :=
  match r with Ok a => Ok a | Err e => Err (f e) end.

Definition is_ok {A E} (r : result A E) : bool :=
  match r with Ok _ => true | Err _ => false end.

Declare Scope rust_scope.
Delimit Scope rust_scope with rust.
Notation "'let?' x ':=' e 'in' k" := (bind_result e (fun x => k))
  (at level 10, x pattern, e at level 200, k at level 200) : rust_scope.
#[global] Open Scope rust_scope.

Lemma bind_result_ok {A B E} (r : result A E) (k : A -> result B E) b :
  bind_result r k = Ok b <-> exists a, r = Ok a /\ k a = Ok b.
Proof. destruct r; simpl; split; [eauto | intros (? & ? & ?); congruence | done | intros (? & ? & ?); congruence]. Qed.

(** ** Machine integers, as Z with their wrap-around *)

Definition i64_min : Z := -(2 ^ 63).
Definition i64_max : Z := 2 ^ 63 - 1.

Definition wrap_u (w z : Z) : Z := z mod 2 ^ w.
Definition wrap_i (w z : Z) : Z := (z + 2 ^ (w - 1)) mod 2 ^ w - 2 ^ (w - 1).
Definition wrap_i64 : Z -> Z := wrap_i 64.

Definition in_i (w z : Z) : Prop := - 2 ^ (w - 1) <= z < 2 ^ (w - 1).
Definition in_u (w z : Z) : Prop := 0 <= z < 2 ^ w.

(** [saturating_sub] on an unsigned width. *)
Definition sat_sub (a b : Z) : Z := Z.max 0 (a - b).
Definition clamp (z lo hi : Z) : Z := Z.max lo (Z.min z hi).

Lemma wrap_i_small w z : 0 < w -> in_i w z -> wrap_i w z = z.
Proof.
  unfold in_i, wrap_i. intros Hw Hz.
  rewrite Z.mod_small; [lia|].
  replace (2 ^ w) with (2 * 2 ^ (w - 1)); [lia|].
  rewrite <- Z.pow_succ_r by lia. f_equal; lia.
Qed.

Lemma wrap_i_range w z : 0 < w -> in_i w (wrap_i w z).
Proof.
  unfold in_i, wrap_i. intros Hw.
  assert (0 < 2 ^ w) by (apply Z.pow_pos_nonneg; lia).
  assert (2 ^ w = 2 * 2 ^ (w - 1)) as E.
  { rewrite <- Z.pow_succ_r by lia. f_equal; lia. }
  pose proof (Z.mod_pos_bound (z + 2 ^ (w - 1)) (2 ^ w)). lia.
Qed.

Lemma wrap_u_small w z : in_u w z -> wrap_u w z = z.
Proof. unfold in_u, wrap_u. intros. by apply Z.mod_small. Qed.

Lemma wrap_u_range w z : 0 <= w -> in_u w (wrap_u w z).
Proof. intros. apply Z.mod_pos_bound, Z.pow_pos_nonneg; lia. Qed.

(** ** Ordered maps: the iteration order of [BTreeMap<String, V>] *)

Definition btree_keys {V} (m : gmap string V) : list string :=
  merge_sort String.le (elements (dom m)).

Definition btree_iter {V} (m : gmap string V) : list (string * V) :=
  omap (fun k => pair k <$> m !! k) (btree_keys m).

Lemma elem_of_btree_keys {V} (m : gmap string V) k :
  k ∈ btree_keys m <-> is_Some (m !! k).
Proof.
  unfold btree_keys. rewrite merge_sort_Permutation, elem_of_elements.
  apply elem_of_dom.
Qed.

Lemma btree_keys_sorted {V} (m : gmap string V) : Sorted String.le (btree_keys m).
Proof. apply Sorted_merge_sort, _. Qed.

Lemma btree_keys_NoDup {V} (m : gmap string V) : NoDup (btree_keys m).
Proof. unfold btree_keys. rewrite merge_sort_Permutation. apply NoDup_elements. Qed.

Lemma elem_of_btree_iter {V} (m : gmap string V) k v :
  (k, v) ∈ btree_iter m <-> m !! k = Some v.
Proof.
  unfold btree_iter. rewrite list_elem_of_omap. split.
  - intros (k' & _ & H). destruct (m !! k') eqn:E; simplify_eq/=. done.
  - intros H. exists k. rewrite elem_of_btree_keys, H. eauto.
Qed.

Lemma btree_iter_keys {V} (m : gmap string V) : map fst (btree_iter m) = btree_keys m.
Proof.
  unfold btree_iter. assert (Forall (fun k => is_Some (m !! k)) (btree_keys m)) as Hall.
  { apply Forall_forall. intros k. by rewrite elem_of_btree_keys. }
  induction Hall as [|k ks [v Hv] _ IH]; [done|]. simpl. rewrite Hv. simpl. by f_equal.
Qed.

(** Filtering keeps a list sorted and duplicate free along a projection. *)
Lemma sorted_map_filter {A} (f : A -> string) (P : A -> Prop) `{!forall x, Decision (P x)} l :
  Sorted String.le (map f l) -> Sorted String.le (map f (filter P l)).
Proof.
  intros Hs%(Sorted_StronglySorted _). apply StronglySorted_Sorted.
  induction l as [|x l IH]; [done|]. simpl in Hs. inversion Hs as [|? ? Hl Hx]; subst.
  rewrite filter_cons. case_decide; [|by apply IH]. simpl. constructor; [by apply IH|].
  rewrite Forall_fmap in Hx. apply Forall_fmap, Forall_forall.
  intros y [_ Hy]%list_elem_of_filter. by eapply Forall_forall in Hx.
Qed.

Lemma NoDup_map_filter {A B} (f : A -> B) (P : A -> Prop) `{!forall x, Decision (P x)} l :
  NoDup (map f l) -> NoDup (map f (filter P l)).
Proof.
  induction l as [|x l IH]; [done|]. simpl. intros [Hx Hl]%NoDup_cons.
  rewrite filter_cons. case_decide; [|by apply IH]. simpl. apply NoDup_cons. split; [|by apply IH].
  intros (y & Hf & [_ Hy]%list_elem_of_filter)%list_elem_of_fmap. apply Hx. rewrite Hf.
  apply list_elem_of_fmap. eauto.
Qed.

(** Automation shared by the components: split the state projections of a step and finish by
    computation, map lemmas or arithmetic. *)
Create HintDb engine.
#[export] Hint Resolve btree_keys_sorted btree_keys_NoDup : engine.
#[export] Hint Rewrite @elem_of_btree_keys @elem_of_btree_iter : engine.

(** Arithmetic with constant divisors. *)
Ltac divmod_lia := Z.div_mod_to_equations; lia.

(** Splits a conjunction into its conjuncts without unfolding them. *)
Ltac split_conj := repeat match goal with |- _ /\ _ => split end.

Ltac case_bool :=
  match goal with
  | |- context [if ?b then _ else _] => destruct b eqn:?
  | H : context [if ?b then _ else _] |- _ => destruct b eqn:?
  end.

(** ** Strings: Rust's [str] as its UTF-8 bytes *)

Abbreviation ascii := Ascii.ascii.
Abbreviation ascii_of_nat := Ascii.ascii_of_nat.

Definition chars (s : string) : list ascii := String.list_ascii_of_string s.
Definition unchars (l : list ascii) : string := String.string_of_list_ascii l.
Definition is_empty (s : string) : bool := String.eqb s "".

Lemma is_empty_spec s : is_empty s = true <-> s = ""%string.
Proof. apply String.eqb_eq. Qed.
Lemma is_empty_false s : is_empty s = false <-> s <> ""%string.
Proof. apply String.eqb_neq. Qed.

Lemma unchars_chars s : unchars (chars s) = s.
Proof. apply String.string_of_list_ascii_of_string. Qed.

Lemma chars_unchars l : chars (unchars l) = l.
Proof. apply String.list_ascii_of_string_of_list_ascii. Qed.

Lemma chars_app s t : chars (s ++ t) = chars s ++ chars t.
Proof. induction s as [|a s IH]; [done|]. change (a :: chars (s ++ t) = a :: (chars s ++ chars t)). by rewrite IH. Qed.

Lemma chars_inj s t : chars s = chars t -> s = t.
Proof. intros E. by rewrite <- (unchars_chars s), <- (unchars_chars t), E. Qed.

Lemma append_self s t : s = (s ++ t)%string -> t = ""%string.
Proof.
  intros E%(f_equal chars). rewrite chars_app in E. apply chars_inj.
  apply (f_equal length) in E. rewrite length_app in E. destruct (chars t); simpl in *; [done|lia].
Qed.

Definition bytes_str (l : list nat) : list ascii := map ascii_of_nat l.

(** The UTF-8 encodings of the characters with the Unicode property White_Space. *)
Definition white_space : list (list ascii) :=
  map bytes_str
    ([[9]; [10]; [11]; [12]; [13]; [32]; [194; 133]; [194; 160]; [225; 154; 128];
      [226; 128; 128]; [226; 128; 129]; [226; 128; 130]; [226; 128; 131];
      [226; 128; 132]; [226; 128; 133]; [226; 128; 134]; [226; 128; 135];
      [226; 128; 136]; [226; 128; 137]; [226; 128; 138]; [226; 128; 168];
      [226; 128; 169]; [226; 128; 175]; [226; 129; 159]; [227; 128; 128]]%nat).

Fixpoint strip_list (p l : list ascii) : option (list ascii) :=
  match p, l with
  | [], _ => Some l
  | a :: p, b :: l => if Ascii.eqb a b then strip_list p l else None
  | _ :: _, [] => None
  end.

Fixpoint strip_any (ps : list (list ascii)) (l : list ascii) : option (list ascii) :=
  match ps with
  | [] => None
  | p :: ps => match strip_list p l with Some r => Some r | None => strip_any ps l end
  end.

(** Each round removes one whole character, so the length is enough fuel. *)
Fixpoint trim_list (ps : list (list ascii)) (fuel : nat) (l : list ascii) : list ascii :=
  match fuel with
  | O => l
  | S fuel => match strip_any ps l with Some r => trim_list ps fuel r | None => l end
  end.

Definition trim_start (s : string) : string :=
  unchars (trim_list white_space (length (chars s)) (chars s)).
Definition trim_end (s : string) : string :=
  unchars (rev (trim_list (map (@rev ascii) white_space) (length (chars s)) (rev (chars s)))).
Definition trim (s : string) : string := trim_end (trim_start s).

Example trim_ex : trim "  a b  " = "a b"%string.
Proof. reflexivity. Qed.

(** ** Byte slices: [&[u8]] as a list of integers in [0, 256) *)

Abbreviation bytes := (list Z).

Definition byte_ok (b : Z) : Prop := 0 <= b < 256.
Definition len {A} (l : list A) : Z := Z.of_nat (length l).

Lemma len_nonneg {A} (l : list A) : 0 <= len l.
Proof. unfold len. lia. Qed.
Lemma len_app {A} (l k : list A) : len (l ++ k) = len l + len k.
Proof. unfold len. rewrite length_app. lia. Qed.
Lemma len_cons {A} (x : A) l : len (x :: l) = len l + 1.
Proof. unfold len. simpl. lia. Qed.
Lemma len_nil {A} (l : list A) : len l = 0 -> l = [].
Proof. unfold len. destruct l; simpl; [done|lia]. Qed.

Definition str_bytes (s : string) : bytes := map (fun a => Z.of_nat (Ascii.nat_of_ascii a)) (chars s).
Definition bytes_to_str (l : bytes) : string := unchars (map (fun b => ascii_of_nat (Z.to_nat b)) l).

(** [slice.get(..n)] and [slice.get(n..)] at a 64-bit [usize]. *)
Definition get_to (l : bytes) (n : Z) : option bytes :=
  if n <=? len l then Some (take (Z.to_nat n) l) else None.
Definition get_from (l : bytes) (n : Z) : option bytes :=
  if n <=? len l then Some (drop (Z.to_nat n) l) else None.

Fixpoint le_bytes (n : nat) (z : Z) : bytes :=
  match n with O => [] | S n => z mod 256 :: le_bytes n (z / 256) end.
Definition be_bytes (n : nat) (z : Z) : bytes := rev (le_bytes n z).

Fixpoint from_le (l : bytes) : Z :=
  match l with [] => 0 | b :: l => b + 256 * from_le l end.
Definition from_be (l : bytes) : Z := from_le (rev l).

Lemma le_bytes_length n z : length (le_bytes n z) = n.
Proof. revert z. induction n as [|n IH]; intros z; simpl; [done|by rewrite IH]. Qed.

Lemma le_bytes_ok n z : Forall byte_ok (le_bytes n z).
Proof.
  revert z. induction n as [|n IH]; intros z; simpl; constructor; [|done].
  unfold byte_ok. divmod_lia.
Qed.

Lemma from_le_le_bytes n z : from_le (le_bytes n z) = z mod 256 ^ Z.of_nat n.
Proof.
  revert z. induction n as [|n IH]; intros z; [by rewrite Z.mod_1_r|].
  simpl. rewrite IH, Nat2Z.inj_succ, Z.pow_succ_r by lia.
  assert (0 < 256 ^ Z.of_nat n) by (apply Z.pow_pos_nonneg; lia).
  rewrite Z.rem_mul_r by lia. lia.
Qed.

Lemma from_be_be_bytes n z : from_be (be_bytes n z) = z mod 256 ^ Z.of_nat n.
Proof. unfold from_be, be_bytes. by rewrite rev_involutive, from_le_le_bytes. Qed.

Lemma be_bytes_length n z : length (be_bytes n z) = n.
Proof. unfold be_bytes. by rewrite length_rev, le_bytes_length. Qed.

Lemma from_le_bound l : Forall byte_ok l -> 0 <= from_le l < 256 ^ len l.
Proof.
  unfold len. induction 1 as [|b l Hb _ IH]; [simpl; lia|]. simpl length. simpl from_le.
  rewrite Nat2Z.inj_succ, Z.pow_succ_r by lia. unfold byte_ok in Hb. lia.
Qed.

Lemma le_bytes_from_le l : Forall byte_ok l -> le_bytes (length l) (from_le l) = l.
Proof.
  induction 1 as [|b l Hb _ IH]; [done|]. simpl. unfold byte_ok in Hb.
  assert ((b + 256 * from_le l) / 256 = from_le l) as ->.
  { symmetry. apply (Z.div_unique _ _ _ b); lia. }
  assert ((b + 256 * from_le l) mod 256 = b) as ->.
  { symmetry. apply (Z.mod_unique _ _ (from_le l)); lia. }
  by rewrite IH.
Qed.

Lemma str_bytes_ok s : Forall byte_ok (str_bytes s).
Proof.
  unfold str_bytes. apply Forall_fmap, Forall_forall. intros a _. unfold compose, byte_ok.
  pose proof (Ascii.nat_ascii_bounded a). lia.
Qed.

Lemma bytes_to_str_bytes s : bytes_to_str (str_bytes s) = s.
Proof.
  unfold bytes_to_str, str_bytes, unchars, chars. rewrite <- list_fmap_compose.
  rewrite (list_fmap_ext _ id).
  - rewrite list_fmap_id. apply String.string_of_list_ascii_of_string.
  - intros i a _. unfold compose. rewrite Nat2Z.id. apply Ascii.ascii_nat_embedding.
Qed.

Lemma str_bytes_to_str l : Forall byte_ok l -> str_bytes (bytes_to_str l) = l.
Proof.
  intros Hl. unfold bytes_to_str, str_bytes. rewrite chars_unchars, map_map.
  rewrite <- (map_id l) at 2. apply map_ext_in. intros b Hin.
  eapply Forall_forall in Hl; [|by apply list_elem_of_In]. unfold byte_ok in Hl.
  rewrite Ascii.nat_ascii_embedding; lia.
Qed.

Lemma str_bytes_inj s t : str_bytes s = str_bytes t -> s = t.
Proof. intros E. by rewrite <- (bytes_to_str_bytes s), <- (bytes_to_str_bytes t), E. Qed.

(** Induction two elements at a time. *)
Lemma flat_map_Forall {A B} (P : B -> Prop) (f : A -> list B) (l : list A) : (forall x, In x l -> Forall P (f x)) -> Forall P (flat_map f l).
Proof.
  intros Hl. induction l as [|x l IH]; [constructor|]. cbn [flat_map]. apply Forall_app. split; [apply Hl; by left|].
  apply IH. intros y Hy. apply Hl. by right.
Qed.

Lemma list_pair_ind {A} (P : list A -> Prop) :
  P [] -> (forall a, P [a]) -> (forall a b l, P l -> P (a :: b :: l)) -> forall l, P l.
Proof.
  intros H0 H1 H2 l. cut (P l /\ forall a, P (a :: l)); [tauto|].
  induction l as [|b l [IH1 IH2]]; split; auto.
Qed.

(** ** UTF-8: what [String::from_utf8] accepts *)

Definition in_range (lo hi b : Z) : bool := (lo <=? b) && (b <=? hi).
Definition cont (b : Z) : bool := in_range 128 191 b.

Fixpoint utf8_valid (l : bytes) : bool :=
  match l with
  | [] => true
  | a :: l1 =>
    if in_range 0 127 a then utf8_valid l1
    else match l1 with
    | [] => false
    | b :: l2 =>
      if in_range 194 223 a then cont b && utf8_valid l2
      else match l2 with
      | [] => false
      | c :: l3 =>
        if in_range 224 239 a then
          in_range (if a =? 224 then 160 else 128) (if a =? 237 then 159 else 191) b
          && cont c && utf8_valid l3
        else match l3 with
        | [] => false
        | d :: l4 =>
          in_range 240 244 a
          && in_range (if a =? 240 then 144 else 128) (if a =? 244 then 143 else 191) b
          && cont c && cont d && utf8_valid l4
        end
      end
    end
  end.

Definition from_utf8 (l : bytes) : option string :=
  if utf8_valid l then Some (bytes_to_str l) else None.

(** A Rust [str] always holds valid UTF-8. *)
Definition is_str (s : string) : Prop := utf8_valid (str_bytes s) = true.

Lemma from_utf8_str s : is_str s -> from_utf8 (str_bytes s) = Some s.
Proof. unfold is_str, from_utf8. intros ->. by rewrite bytes_to_str_bytes. Qed.

(** ** Bit fields *)

Lemma lor_disjoint a b n : 0 <= n -> 0 <= a < 2 ^ n -> Z.lor a (Z.shiftl b n) = a + b * 2 ^ n.
Proof.
  intros Hn Ha. rewrite <- Z.shiftl_mul_pow2 by done. symmetry. apply Z.add_nocarry_lor.
  apply Z.bits_inj'. intros i Hi. rewrite Z.land_spec, Z.bits_0.
  destruct (decide (i < n)).
  - rewrite Z.shiftl_spec_low by done. apply andb_false_r.
  - by rewrite <- (Z.mod_small a (2 ^ n)), Z.mod_pow2_bits_high by lia.
Qed.

Lemma land_ones_mod a n : 0 <= n -> Z.land a (2 ^ n - 1) = a mod 2 ^ n.
Proof. intros Hn. rewrite <- Z.land_ones by done. by rewrite Z.ones_equiv. Qed.
