(* ===== verification/Float64.v ===== *)
(** * [f64]: IEEE 754 binary64 arithmetic

    The Standard Library's executable specification of floating point at precision 53 and maximal
    exponent 1024, with the conversions and rounding functions of Rust's [f64]. *)

From S2P Require Import Prelude.
From Stdlib Require Export SpecFloat.

Abbreviation f64 := spec_float.

#[export] Instance spec_float_eq_dec : EqDecision spec_float.
Proof. solve_decision. Defined.

Definition f64_add : f64 -> f64 -> f64 := SFadd 53 1024.
Definition f64_sub : f64 -> f64 -> f64 := SFsub 53 1024.
Definition f64_mul : f64 -> f64 -> f64 := SFmul 53 1024.
Definition f64_div : f64 -> f64 -> f64 := SFdiv 53 1024.

(** [z as f64], rounding to nearest even. *)
Definition f64_of (z : Z) : f64 := binary_normalize 53 1024 z 0 false.
(** A decimal literal [n/d], [n] and [d] below 2^53: the division is correctly rounded. *)
Definition f64_ratio (n d : Z) : f64 := f64_div (f64_of n) (f64_of d).

Definition is_nan (x : f64) : bool := match x with S754_nan => true | _ => false end.
Definition is_finite (x : f64) : bool :=
  match x with S754_zero _ | S754_finite _ _ _ => true | _ => false end.

Definition f64_lt (x y : f64) : bool := SFltb x y.
Definition f64_le (x y : f64) : bool := SFleb x y.
Definition f64_ge (x y : f64) : bool := SFleb y x.
Definition f64_gt (x y : f64) : bool := SFltb y x.
Definition f64_abs : f64 -> f64 := SFabs.

Definition f64_min (x y : f64) : f64 :=
  if is_nan x then y else if is_nan y then x else if SFltb y x then y else x.

(** The value of a finite float is [n / d] with [d] a power of two. *)
Definition mantissa (s : bool) (m : positive) : Z := cond_Zopp s (Zpos m).

(** [x as i64] and the like: truncation toward zero, saturating, NaN to zero. *)
Definition f64_trunc (x : f64) : Z :=
  match x with
  | S754_finite s m e =>
    cond_Zopp s (if 0 <=? e then Zpos m * 2 ^ e else Zpos m / 2 ^ (- e))
  | _ => 0
  end.
Definition f64_as (lo hi : Z) (x : f64) : Z :=
  match x with
  | S754_infinity s => if s then lo else hi
  | _ => clamp (f64_trunc x) lo hi
  end.
Definition as_i64 : f64 -> Z := f64_as i64_min i64_max.
Definition as_i32 : f64 -> Z := f64_as (- 2 ^ 31) (2 ^ 31 - 1).
Definition as_u32 : f64 -> Z := f64_as 0 (2 ^ 32 - 1).
Definition as_u64 : f64 -> Z := f64_as 0 (2 ^ 64 - 1).

(** [f64::round]: half away from zero; [f64::floor]: toward minus infinity. *)
Definition f64_round (x : f64) : f64 :=
  match x with
  | S754_finite s m e =>
    if 0 <=? e then x
    else let d := 2 ^ (- e) in
         binary_normalize 53 1024 (cond_Zopp s ((2 * Zpos m + d) / (2 * d))) 0 s
  | _ => x
  end.
Definition f64_floor (x : f64) : f64 :=
  match x with
  | S754_finite s m e =>
    if 0 <=? e then x
    else binary_normalize 53 1024 (mantissa s m / 2 ^ (- e)) 0 false
  | _ => x
  end.

Example round_half_away : map (fun x => as_i64 (f64_round (f64_ratio x 2))) [-3; -1; 0; 1; 3; 5]
  = [-2; -1; 0; 1; 2; 3].
Proof. reflexivity. Qed.
Example floor_down : map (fun x => as_i64 (f64_floor (f64_ratio x 4))) [-5; -4; -1; 0; 3; 5]
  = [-2; -1; -1; 0; 0; 1].
Proof. reflexivity. Qed.
Example exact_sum : f64_add (f64_ratio 1 4) (f64_ratio 3 4) = f64_of 1.
Proof. reflexivity. Qed.
