(* ===== verification/Cancellation.v ===== *)
(** * Request cancellation: [crates/core/src/cancellation.rs]

    The registry of one domain and the leases it hands out.  The [Arc<AtomicBool>] of an entry
    is a cell of a heap, so that the aliasing between an entry and the leases of its request is
    explicit; the [released] flag of a lease is a bit indexed by the lease.  The observers (the
    condition variable, parked threads, the external waker) are modelled by the log of the
    wake-ups they receive. *)

From S2P Require Import Prelude.

Inductive CancellationDomain := Download | ExtensionRequest.

Inductive CancellationError :=
| DownloadCancelled
| ExtensionRequestCancelled
| RegistryClosed
| LeaseReleased.

#[export] Instance CancellationDomain_eq_dec : EqDecision CancellationDomain.
Proof. solve_decision. Defined.
#[export] Instance CancellationError_eq_dec : EqDecision CancellationError.
Proof. solve_decision. Defined.

Definition error_message (e : CancellationError) : string :=
  match e with
  | DownloadCancelled => "download cancelled"
  | ExtensionRequestCancelled => "extension request cancelled"
  | RegistryClosed => "cancellation registry closed"
  | LeaseReleased => "request lease released"
  end.

(** ** Data *)

Record Entry := mkEntry { cancelled : nat; references : Z }.

Record State := mkState { closed : bool; entries : gmap string Entry }.

(** The cells of the [Arc<AtomicBool>]s and the [released] bits of the leases. *)
Record Heap := mkHeap {
  cells : gmap nat bool; next_cell : nat; released : gset nat; next_lease : nat }.

Inductive Wakeup := NotifyAll | Unpark (thread : nat) | Wake.

(** [waker] and [threads] of [Shared]; [retained] are the threads some caller still holds (the
    others can no longer be upgraded), [log] is what the observers were sent. *)
Record Observers := mkObservers {
  waker : bool; threads : list nat; retained : gset nat; log : list Wakeup }.

Record Registry := mkRegistry {
  domain : CancellationDomain; state : State; heap : Heap; observers : Observers }.

Record RequestLease := mkLease {
  lease_index : nat; lease_id : string; lease_domain : CancellationDomain;
  lease_cancelled : nat }.

Definition set_state (r : Registry) (s : State) : Registry :=
  mkRegistry (domain r) s (heap r) (observers r).
Definition set_heap (r : Registry) (h : Heap) : Registry :=
  mkRegistry (domain r) (state r) h (observers r).
Definition set_observers (r : Registry) (o : Observers) : Registry :=
  mkRegistry (domain r) (state r) (heap r) o.

Definition alloc (h : Heap) (b : bool) : nat * Heap :=
  (next_cell h, mkHeap (<[next_cell h := b]> (cells h)) (S (next_cell h)) (released h) (next_lease h)).
Definition store (h : Heap) (c : nat) (b : bool) : Heap :=
  mkHeap (<[c := b]> (cells h)) (next_cell h) (released h) (next_lease h).
Definition load (h : Heap) (c : nat) : bool := default false (cells h !! c).

(** ** [State::check_open] and [Shared::notify] *)

Definition check_open (s : State) : result unit CancellationError :=
  if closed s then Err RegistryClosed else Ok tt.

(** Dead threads are dropped from the list, the others are unparked, and the waker comes last. *)
Definition notify (r : Registry) : Registry :=
  let o := observers r in
  let live := filter (fun t => t ∈ retained o) (threads o) in
  set_observers r
    (mkObservers (waker o) live (retained o)
       (log o ++ [NotifyAll] ++ map Unpark live ++ (if waker o then [Wake] else []))).

(** ** Construction *)

Definition with_observer (d : CancellationDomain) (has_waker : bool) : Registry :=
  mkRegistry d (mkState false ∅) (mkHeap ∅ 0 ∅ 0) (mkObservers has_waker [] ∅ []).
Definition new (d : CancellationDomain) : Registry := with_observer d false.
Definition with_waker (d : CancellationDomain) : Registry := with_observer d true.

(** [entries.entry(id).or_default()] *)
Definition entry_or_default (id : string) (m : gmap string Entry) (h : Heap)
  : Entry * gmap string Entry * Heap :=
  match m !! id with
  | Some e => (e, m, h)
  | None => let '(c, h) := alloc h false in
            let e := mkEntry c 0 in (e, <[id := e]> m, h)
  end.

Definition fresh_lease (r : Registry) (id : string) (cell : nat) : RequestLease * Registry :=
  let h := heap r in
  (mkLease (next_lease h) id (domain r) cell,
   set_heap r (mkHeap (cells h) (next_cell h) (released h) (S (next_lease h)))).

Definition acquire (r : Registry) (id : string)
  : result RequestLease CancellationError * Registry :=
  match check_open (state r) with
  | Err e => (Err e, r)
  | Ok _ =>
    if is_empty id then
      let '(c, h) := alloc (heap r) false in
      let '(l, r) := fresh_lease (set_heap r h) id c in (Ok l, r)
    else
      let '(e, m, h) := entry_or_default id (entries (state r)) (heap r) in
      let m := <[id := mkEntry (cancelled e) (references e + 1)]> m in
      let r := set_heap (set_state r (mkState (closed (state r)) m)) h in
      let '(l, r) := fresh_lease r id (cancelled e) in (Ok l, r)
  end.

(** One iteration of the loop of [cancel_many]. *)
Definition cancel_one (acc : gmap string Entry * Heap) (id : string)
  : gmap string Entry * Heap :=
  let '(e, m, h) := entry_or_default id acc.1 acc.2 in (m, store h (cancelled e) true).

Definition cancel_many (r : Registry) (ids : list string)
  : result unit CancellationError * Registry :=
  match check_open (state r) with
  | Err e => (Err e, r)
  | Ok _ =>
    let ids := filter (fun id => is_empty id = false) ids in
    let '(m, h) := foldl cancel_one (entries (state r), heap r) ids in
    let r' := set_heap (set_state r (mkState (closed (state r)) m)) h in
    (Ok tt, if ids is [] then r' else notify r')
  end.

Definition cancel (r : Registry) (id : string) := cancel_many r [id].

Definition cancel_active (r : Registry) : result (list string) CancellationError * Registry :=
  match check_open (state r) with
  | Err e => (Err e, r)
  | Ok _ =>
    let active := filter (fun p => 0 < references p.2) (btree_iter (entries (state r))) in
    let h := foldl (fun h p => store h (cancelled p.2) true) (heap r) active in
    (Ok (map fst active), notify (set_heap r h))
  end.

Definition is_cancelled (r : Registry) (id : string) : result bool CancellationError :=
  match check_open (state r) with
  | Err e => Err e
  | Ok _ => Ok match entries (state r) !! id with
               | Some e => load (heap r) (cancelled e)
               | None => false
               end
  end.

Definition reset_one (m : gmap string Entry) (id : string) : gmap string Entry :=
  match m !! id with
  | Some e => if references e =? 0 then delete id m else m
  | None => m
  end.

Definition reset_many_if_idle (r : Registry) (ids : list string)
  : result unit CancellationError * Registry :=
  match check_open (state r) with
  | Err e => (Err e, r)
  | Ok _ =>
    (Ok tt, set_state r (mkState (closed (state r)) (foldl reset_one (entries (state r)) ids)))
  end.

Definition reset_if_idle (r : Registry) (id : string) := reset_many_if_idle r [id].

Definition shutdown (r : Registry) : Registry := notify (set_state r (mkState true ∅)).

(** ** Leases *)

Definition observe_thread (r : Registry) (t : nat) : Registry :=
  let o := observers r in
  set_observers r
    (mkObservers (waker o) (filter (fun t => t ∈ retained o) (threads o) ++ [t])
       (retained o) (log o)).

(** A caller takes or gives up its strong reference to a thread. *)
Definition retain_thread (r : Registry) (t : nat) : Registry :=
  let o := observers r in
  set_observers r (mkObservers (waker o) (threads o) ({[t]} ∪ retained o) (log o)).
Definition drop_thread (r : Registry) (t : nat) : Registry :=
  let o := observers r in
  set_observers r (mkObservers (waker o) (threads o) (retained o ∖ {[t]}) (log o)).

Definition is_released (r : Registry) (l : RequestLease) : bool :=
  bool_decide (lease_index l ∈ released (heap r)).

Definition active_request_cancelled (r : Registry) (l : RequestLease) : bool :=
  if negb (bool_decide (lease_domain l = ExtensionRequest)) || is_empty (trim (lease_id l))
  then false
  else match entries (state r) !! trim (lease_id l) with
       | Some e => load (heap r) (cancelled e)
       | None => false
       end.

Definition check_live (r : Registry) (l : RequestLease) : result unit CancellationError :=
  let? _ := check_open (state r) in
  if is_released r l then Err LeaseReleased else Ok tt.

Definition lease_is_cancelled (r : Registry) (l : RequestLease)
  : result bool CancellationError :=
  let? _ := check_live r l in Ok (load (heap r) (lease_cancelled l)).

Definition check_active (r : Registry) (l : RequestLease) : result unit CancellationError :=
  let? b := lease_is_cancelled r l in
  if (b : bool) then
    Err match lease_domain l with
        | Download => DownloadCancelled
        | ExtensionRequest => ExtensionRequestCancelled
        end
  else Ok tt.

(** [wait_timeout], in milliseconds. *)
Definition wait_timeout (timeout_ms : Z) : Z :=
  if timeout_ms <=? 0 then 15000 else Z.min timeout_ms 60000.

(** One pass of the loop of [wait_cancelled] under the lock: [None] goes back to sleep. *)
Definition wait_pass (l : RequestLease) (timeout : Z) (r : Registry) (elapsed : Z)
  : option (result bool CancellationError) :=
  match check_live r l with
  | Err e => Some (Err e)
  | Ok _ =>
    if load (heap r) (lease_cancelled l) then Some (Ok true)
    else if sat_sub timeout elapsed =? 0 then Some (Ok false)
    else None
  end.

(** The loop, over the registry states and elapsed times (in ms) at which the thread holds the
    lock: its first entry and every wake-up.  [None]: still asleep after all of them. *)
Fixpoint wait_loop (l : RequestLease) (timeout : Z) (wakes : list (Registry * Z))
  : option (result bool CancellationError) :=
  match wakes with
  | [] => None
  | (r, elapsed) :: wakes =>
    match wait_pass l timeout r elapsed with
    | Some res => Some res
    | None => wait_loop l timeout wakes
    end
  end.

Definition wait_cancelled (l : RequestLease) (timeout_ms : Z) (wakes : list (Registry * Z)) :=
  wait_loop l (wait_timeout timeout_ms) wakes.

Definition release (r : Registry) (l : RequestLease) : Registry :=
  if is_released r l then r
  else
    let h := heap r in
    let r := set_heap r (mkHeap (cells h) (next_cell h) ({[lease_index l]} ∪ released h)
                           (next_lease h)) in
    let m := entries (state r) in
    let m := match m !! lease_id l with
             | Some e =>
               let e := mkEntry (cancelled e) (references e - 1) in
               if references e =? 0 then delete (lease_id l) m else <[lease_id l := e]> m
             | None => m
             end in
    notify (set_state r (mkState (closed (state r)) m)).

(** ** Invariant

    [issued] collects every lease handed out so far. *)

Abbreviation lease_map := (gmap nat RequestLease).

(** The unreleased leases of one request. *)
Definition active_leases (h : Heap) (issued : lease_map) (id : string) : lease_map :=
  filter (fun p => lease_id p.2 = id /\ p.1 ∉ released h) issued.

Record well_formed (s : State) (h : Heap) (issued : lease_map) : Prop := {
  wf_closed : closed s = true -> entries s = ∅;
  wf_no_empty_id : entries s !! ""%string = None;
  wf_references : forall id e, entries s !! id = Some e ->
    references e = Z.of_nat (size (active_leases h issued id));
  wf_shared : forall u l, closed s = false -> issued !! u = Some l -> u ∉ released h ->
    lease_id l <> ""%string ->
    exists e, entries s !! lease_id l = Some e /\ cancelled e = lease_cancelled l;
  wf_lease_cell : forall u l id e, issued !! u = Some l -> entries s !! id = Some e ->
    cancelled e = lease_cancelled l -> id = lease_id l;
  wf_entry_cell : forall id1 id2 e1 e2, entries s !! id1 = Some e1 -> entries s !! id2 = Some e2 ->
    cancelled e1 = cancelled e2 -> id1 = id2;
  wf_entry_alloc : forall id e, entries s !! id = Some e -> (cancelled e < next_cell h)%nat;
  wf_lease_alloc : forall u l, issued !! u = Some l ->
    lease_index l = u /\ (lease_cancelled l < next_cell h)%nat /\ (u < next_lease h)%nat;
  wf_released : forall u, u ∈ released h -> (u < next_lease h)%nat;
  wf_cells : forall c, is_Some (cells h !! c) -> (c < next_cell h)%nat }.

Definition invariant (r : Registry) (issued : lease_map) : Prop :=
  well_formed (state r) (heap r) issued.

Inductive step : Registry * lease_map -> Registry * lease_map -> Prop :=
| step_acquire r iss id l r' :
    acquire r id = (Ok l, r') -> step (r, iss) (r', <[lease_index l := l]> iss)
| step_cancel_many r iss ids : step (r, iss) ((cancel_many r ids).2, iss)
| step_cancel_active r iss : step (r, iss) ((cancel_active r).2, iss)
| step_reset_many r iss ids : step (r, iss) ((reset_many_if_idle r ids).2, iss)
| step_shutdown r iss : step (r, iss) (shutdown r, iss)
| step_release r iss u l : iss !! u = Some l -> step (r, iss) (release r l, iss)
| step_observe r iss t : step (r, iss) (observe_thread r t, iss)
| step_retain r iss t : step (r, iss) (retain_thread r t, iss)
| step_drop r iss t : step (r, iss) (drop_thread r t, iss).

Definition reachable (d : CancellationDomain) (has_waker : bool) : Registry * lease_map -> Prop :=
  rtc step (with_observer d has_waker, ∅).

(** *** The state projections of the operations *)

Lemma notify_state r : state (notify r) = state r.
Proof. done. Qed.
Lemma notify_heap r : heap (notify r) = heap r.
Proof. done. Qed.

Section preservation.
Context (issued : lease_map).

(** Storing to a cell that is already allocated. *)
Lemma wf_store s h c b :
  (c < next_cell h)%nat -> well_formed s h issued -> well_formed s (store h c b) issued.
Proof.
  intros Hc []. split; try done.
  intros c' [x Hx]. destruct (decide (c' = c)) as [->|Hne]; [done|].
  simpl in Hx. rewrite lookup_insert_ne in Hx by done. eauto.
Qed.

(** A sentinel for an id that has no entry yet. *)
Lemma wf_sentinel s h id :
  closed s = false -> id <> ""%string -> entries s !! id = None ->
  well_formed s h issued ->
  well_formed (mkState false (<[id := mkEntry (next_cell h) 0]> (entries s)))
    (alloc h false).2 issued.
Proof.
  intros Hopen Hid Hnone Hwf. assert (active_leases h issued id = ∅) as Hno.
  { apply map_empty_filter_2. intros u l Hl [Hlid Hrel].
    destruct (wf_shared _ _ _ Hwf u l) as (e & He & _); try done; simpl in *; congruence. }
  destruct Hwf. split; simpl in *; try done.
  - rewrite lookup_insert_ne by done. done.
  - intros id' e [[<- <-]|[_ ?]]%lookup_insert_Some; [|by eauto].
    change (active_leases _ issued id) with (active_leases h issued id). by rewrite Hno.
  - intros u l _ Hl Hu Hlid. destruct (wf_shared0 u l) as (e & He & ?); [done..|].
    exists e. split; [|done]. rewrite lookup_insert_ne; congruence.
  - intros u l id' e Hl [[<- <-]|[_ ?]]%lookup_insert_Some; [|by eauto].
    intros Hc. simpl in Hc. destruct (wf_lease_alloc0 u l) as (_ & ? & _); [done|]. lia.
  - intros id1 id2 e1 e2 [[<- <-]|[_ H1]]%lookup_insert_Some [[<- <-]|[_ H2]]%lookup_insert_Some;
      simpl; intros; try (by eauto).
    + pose proof (wf_entry_alloc0 _ _ H2). lia.
    + pose proof (wf_entry_alloc0 _ _ H1). lia.
  - intros id' e [[<- <-]|[_ H1%wf_entry_alloc0]]%lookup_insert_Some; simpl; lia.
  - intros u l Hl. destruct (wf_lease_alloc0 u l Hl) as (? & ? & ?). split_and!; lia || done.
  - intros c [x Hx]. destruct (decide (c = next_cell h)) as [->|]; [lia|].
    rewrite lookup_insert_ne in Hx by done. apply Nat.lt_lt_succ_r, wf_cells0. eauto.
Qed.

Lemma wf_entry_or_default s h id e m h' :
  closed s = false -> id <> ""%string -> well_formed s h issued ->
  entry_or_default id (entries s) h = (e, m, h') ->
  well_formed (mkState false m) h' issued /\ m !! id = Some e.
Proof.
  intros Hopen Hid Hwf. unfold entry_or_default.
  destruct (entries s !! id) as [e'|] eqn:He; intros [= <- <- <-].
  - split; [|done]. destruct s; simpl in *; by subst.
  - split; [by apply wf_sentinel|]. apply lookup_insert_eq.
Qed.

Lemma wf_cancel_one m h id :
  id <> ""%string -> well_formed (mkState false m) h issued ->
  well_formed (mkState false (cancel_one (m, h) id).1) (cancel_one (m, h) id).2 issued.
Proof.
  intros Hid Hwf. unfold cancel_one; simpl.
  destruct (entry_or_default id m h) as [[e m'] h'] eqn:E.
  destruct (wf_entry_or_default (mkState false m) h id e m' h') as [Hwf' He]; try done.
  simpl. apply wf_store; [|done]. by eapply wf_entry_alloc in Hwf'.
Qed.

Lemma wf_cancel_fold ids m h :
  Forall (fun id => id <> ""%string) ids -> well_formed (mkState false m) h issued ->
  well_formed (mkState false (foldl cancel_one (m, h) ids).1) (foldl cancel_one (m, h) ids).2
    issued.
Proof.
  intros Hids. revert m h.
  induction Hids as [|id ids Hid _ IH]; intros m h Hwf; [done|]. simpl.
  pose proof (wf_cancel_one m h id Hid Hwf) as Hwf'.
  destruct (cancel_one (m, h) id). by apply IH.
Qed.

Lemma wf_reset_one m h id :
  well_formed (mkState false m) h issued -> well_formed (mkState false (reset_one m id)) h issued.
Proof.
  intros Hwf. unfold reset_one. destruct (m !! id) as [e|] eqn:He; [|done].
  destruct (references e =? 0) eqn:Hz; [|done]. apply Z.eqb_eq in Hz.
  pose proof (wf_references _ _ _ Hwf id e He) as Hr.
  assert (active_leases h issued id = ∅) as Hno.
  { apply map_size_empty_iff. lia. }
  destruct Hwf. split; simpl in *; try done.
  - rewrite lookup_delete_None. auto.
  - intros ? ? [? ?]%lookup_delete_Some. eauto.
  - intros u l _ Hl Hu Hlid. destruct (wf_shared0 u l) as (e' & He' & ?); [done..|].
    exists e'. split; [|done]. apply lookup_delete_Some. split; [|done]. intros ->.
    assert (active_leases h issued (lease_id l) !! u = Some l) as Hin.
    { apply map_lookup_filter_Some. done. }
    by rewrite Hno in Hin.
  - intros ? ? ? ? ? [? ?]%lookup_delete_Some. eauto.
  - intros ? ? ? ? [? ?]%lookup_delete_Some [? ?]%lookup_delete_Some. eauto.
  - intros ? ? [? ?]%lookup_delete_Some. eauto.
Qed.
End preservation.

(** The heap after handing out or releasing a lease. *)
Definition issue_heap (h : Heap) : Heap :=
  mkHeap (cells h) (next_cell h) (released h) (S (next_lease h)).
Definition release_heap (h : Heap) (u : nat) : Heap :=
  mkHeap (cells h) (next_cell h) ({[u]} ∪ released h) (next_lease h).

Lemma active_leases_insert h issued u l id :
  issued !! u = None -> u ∉ released h ->
  size (active_leases h (<[u := l]> issued) id)
  = ((if decide (lease_id l = id) then 1 else 0) + size (active_leases h issued id))%nat.
Proof.
  intros Hnew Hu. unfold active_leases. rewrite map_filter_insert.
  repeat case_decide; simpl in *; try tauto.
  - rewrite map_size_insert_None; [done|]. apply map_lookup_filter_None. auto.
  - by rewrite delete_id.
Qed.

Lemma active_leases_release h (issued : lease_map) u l id :
  issued !! u = Some l -> u ∉ released h ->
  size (active_leases h issued id)
  = ((if decide (lease_id l = id) then 1 else 0)
     + size (active_leases (release_heap h u) issued id))%nat.
Proof.
  intros Hl Hu.
  assert (active_leases (release_heap h u) issued id = delete u (active_leases h issued id)) as ->.
  { apply map_eq. intros v. unfold active_leases. rewrite lookup_delete.
    apply option_eq. intros x. case_decide as Hv.
    - subst. rewrite map_lookup_filter_Some. set_solver.
    - rewrite !map_lookup_filter_Some. set_solver. }
  case_decide as Hid.
  - rewrite map_size_delete_Some.
    2: { exists l. by apply map_lookup_filter_Some. }
    assert (size (active_leases h issued id) <> 0%nat); [|lia].
    intros Hz%map_size_empty_iff.
    assert (active_leases h issued id !! u = Some l) as Hin by (by apply map_lookup_filter_Some).
    by rewrite Hz in Hin.
  - rewrite delete_id; [done|]. apply map_lookup_filter_None. right. intros x Hx [? _].
    by simplify_map_eq.
Qed.

Lemma wf_not_issued s h issued : well_formed s h issued -> issued !! next_lease h = None.
Proof.
  intros []. destruct (issued !! next_lease h) as [l|] eqn:E; [|done].
  destruct (wf_lease_alloc0 _ _ E) as (_ & _ & ?). lia.
Qed.

Lemma wf_not_released s h issued : well_formed s h issued -> next_lease h ∉ released h.
Proof. intros [] Hin%wf_released0. lia. Qed.

(** A lease of an anonymous request owns a fresh cell. *)
Lemma wf_issue_anonymous s h issued d :
  well_formed s h issued ->
  well_formed s (issue_heap (alloc h false).2)
    (<[next_lease h := mkLease (next_lease h) "" d (next_cell h)]> issued).
Proof.
  intros Hwf. pose proof (wf_not_issued _ _ _ Hwf) as Hnew.
  pose proof (wf_not_released _ _ _ Hwf) as Hrel. destruct Hwf. split; simpl; try done.
  - intros id e He. rewrite (wf_references0 id e He).
    change (active_leases _ ?i id) with (active_leases h i id).
    rewrite active_leases_insert by done. simpl.
    case_decide; [|done]. subst. congruence.
  - intros u l Ho [[<- <-]|[_ ?]]%lookup_insert_Some ? ?; simpl in *; [done|eauto].
  - intros u l id e [[<- <-]|[_ Hl]]%lookup_insert_Some He; simpl; [|by eauto].
    intros Hc. apply wf_entry_alloc0 in He. lia.
  - intros id e He. apply wf_entry_alloc0 in He. lia.
  - intros u l [[<- <-]|[_ Hl]]%lookup_insert_Some; simpl; [split_and!; lia|].
    destruct (wf_lease_alloc0 _ _ Hl) as (? & ? & ?). split_and!; [done|lia..].
  - intros u Hu%wf_released0. lia.
  - intros c [x [[<- _]|[_ Hx]]%lookup_insert_Some]; [lia|]. apply Nat.lt_lt_succ_r. eauto.
Qed.

(** A lease of a named request shares the cell of its entry. *)
Lemma wf_issue_shared m h issued d id e :
  id <> ""%string -> m !! id = Some e -> well_formed (mkState false m) h issued ->
  well_formed (mkState false (<[id := mkEntry (cancelled e) (references e + 1)]> m)) (issue_heap h)
    (<[next_lease h := mkLease (next_lease h) id d (cancelled e)]> issued).
Proof.
  intros Hid He Hwf. pose proof (wf_not_issued _ _ _ Hwf) as Hnew.
  pose proof (wf_not_released _ _ _ Hwf) as Hrel. destruct Hwf. split; simpl in *; try done.
  - by rewrite lookup_insert_ne.
  - intros id' e'. change (active_leases _ ?i id') with (active_leases h i id').
    rewrite active_leases_insert by done. simpl.
    intros [[<- <-]|[Hne He']]%lookup_insert_Some; simpl.
    + rewrite decide_True, (wf_references0 _ _ He) by done. lia.
    + rewrite decide_False by done. eauto.
  - intros u l _ [[<- <-]|[_ Hl]]%lookup_insert_Some Hu Hlid; simpl in *.
    { rewrite lookup_insert_eq. eauto. }
    destruct (wf_shared0 u l) as (e' & He' & Hc); [done..|].
    destruct (decide (lease_id l = id)) as [Heq|].
    + rewrite Heq in *. rewrite lookup_insert_eq. eexists. split; [done|]. simpl. congruence.
    + rewrite lookup_insert_ne by done. eauto.
  - intros u l id' e' [[<- <-]|[_ Hl]]%lookup_insert_Some
      [[<- <-]|[_ He']]%lookup_insert_Some; simpl; eauto.
  - intros id1 id2 e1 e2 [[<- <-]|[_ H1]]%lookup_insert_Some [[<- <-]|[_ H2]]%lookup_insert_Some;
      simpl; eauto.
  - intros id' e' [[<- <-]|[_ He']]%lookup_insert_Some; simpl; eauto.
  - intros u l [[<- <-]|[_ Hl]]%lookup_insert_Some; simpl; [split_and!; eauto|].
    destruct (wf_lease_alloc0 _ _ Hl) as (? & ? & ?). split_and!; [done|lia..].
  - intros u Hu%wf_released0. lia.
Qed.

Definition release_entries (m : gmap string Entry) (id : string) : gmap string Entry :=
  match m !! id with
  | Some e => let e := mkEntry (cancelled e) (references e - 1) in
              if references e =? 0 then delete id m else <[id := e]> m
  | None => m
  end.

Lemma release_unfold r l :
  release r l =
  if is_released r l then r
  else notify (set_state (set_heap r (release_heap (heap r) (lease_index l)))
                 (mkState (closed (state r)) (release_entries (entries (state r)) (lease_id l)))).
Proof. done. Qed.

(** What [release_entries] leaves: an entry of the same cell, one reference fewer. *)
Lemma release_entries_lookup m id id' e :
  release_entries m id !! id' = Some e ->
  exists e0, m !! id' = Some e0 /\ cancelled e = cancelled e0
    /\ references e = references e0 - (if decide (id = id') then 1 else 0).
Proof.
  unfold release_entries. destruct (m !! id) as [e0|] eqn:E0; simpl.
  - case_bool.
    + intros [Hne He]%lookup_delete_Some. rewrite decide_False by done.
      exists e. split_and!; [done..|lia].
    + intros [[<- <-]|[Hne He]]%lookup_insert_Some.
      * rewrite decide_True by done. eauto.
      * rewrite decide_False by done. exists e. split_and!; [done..|lia].
  - intros He. rewrite decide_False by (intros ->; congruence). exists e. split_and!; [done..|lia].
Qed.

Lemma release_entries_keep m id id' e0 :
  m !! id' = Some e0 -> (id = id' -> references e0 <> 1) ->
  exists e, release_entries m id !! id' = Some e /\ cancelled e = cancelled e0.
Proof.
  intros He Href. unfold release_entries. destruct (decide (id = id')) as [->|Hne].
  - specialize (Href eq_refl). rewrite He. simpl. case_bool; [lia|]. rewrite lookup_insert_eq. eauto.
  - destruct (m !! id); simpl; [case_bool|]; simplify_map_eq; eauto.
Qed.

Lemma wf_release s h issued u l :
  issued !! u = Some l -> u ∉ released h -> well_formed s h issued ->
  well_formed (mkState (closed s) (release_entries (entries s) (lease_id l)))
    (release_heap h u) issued.
Proof.
  intros Hl Hu Hwf.
  pose proof (fun id => active_leases_release h issued u l id Hl Hu) as Hsize.
  destruct Hwf. split; simpl; try done.
  - intros Hc. unfold release_entries. rewrite wf_closed0 by done. by rewrite lookup_empty.
  - destruct (release_entries (entries s) (lease_id l) !! ""%string) as [e|] eqn:E; [|done].
    apply release_entries_lookup in E as (e0 & ? & _). congruence.
  - intros id e (e0 & He0 & _ & Hr)%release_entries_lookup.
    rewrite Hr, (wf_references0 _ _ He0), Hsize. case_decide; lia.
  - intros v l' Ho Hl' Hv Hlid. destruct (wf_shared0 v l') as (e & He & Hc); [done..|set_solver|done|].
    destruct (release_entries_keep (entries s) (lease_id l) (lease_id l') e) as (e' & He' & Hc');
      [done| |by exists e'; split; congruence].
    intros Hid. rewrite (wf_references0 _ _ He), Hsize, decide_True by done.
    assert (size (active_leases (release_heap h u) issued (lease_id l')) <> 0%nat); [|lia].
    intros Hz%map_size_empty_iff.
    assert (active_leases (release_heap h u) issued (lease_id l') !! v = Some l') as Hin
      by (by apply map_lookup_filter_Some).
    by rewrite Hz in Hin.
  - intros v l' id e Hl' (e0 & He0 & Hc & _)%release_entries_lookup ?. apply (wf_lease_cell0 v l' id e0);
      congruence.
  - intros id1 id2 e1 e2 (? & ? & ? & _)%release_entries_lookup (? & ? & ? & _)%release_entries_lookup ?.
    eapply wf_entry_cell0; eauto; congruence.
  - intros id e (e0 & He0 & Hc & _)%release_entries_lookup. rewrite Hc. eauto.
  - intros v. rewrite elem_of_union, elem_of_singleton. intros [->|]; [|eauto].
    by destruct (wf_lease_alloc0 _ _ Hl) as (_ & _ & ?).
Qed.

Lemma wf_store_fold s h issued l :
  Forall (fun p => entries s !! p.1 = Some p.2) l -> well_formed s h issued ->
  well_formed s (foldl (fun h p => store h (cancelled p.2) true) h l) issued.
Proof.
  intros Hl. revert h. induction Hl as [|[id e] l He _ IH]; intros h Hwf; [done|].
  simpl. apply IH, wf_store; [|done]. simpl in He. by eapply wf_entry_alloc.
Qed.

Lemma btree_active_entries m :
  Forall (fun p => m !! p.1 = Some p.2) (filter (fun p => 0 < references p.2) (btree_iter m)).
Proof.
  apply Forall_forall. intros [id e] [_ Hin]%list_elem_of_filter. by apply elem_of_btree_iter.
Qed.

Lemma step_invariant r iss r' iss' :
  step (r, iss) (r', iss') -> invariant r iss -> invariant r' iss'.
Proof.
  unfold invariant. intros Hstep Hwf. inversion Hstep; subst; clear Hstep; try done.
  - match goal with H : acquire _ _ = _ |- _ => revert H end.
    unfold acquire, check_open. destruct (closed (state r)) eqn:Ho; [done|].
    destruct (is_empty id) eqn:Hid.
    + apply is_empty_spec in Hid as ->. simpl. intros [= <- <-]. simpl.
      by apply wf_issue_anonymous.
    + apply is_empty_false in Hid.
      destruct (entry_or_default id (entries (state r)) (heap r)) as [[e m] h] eqn:E.
      intros [= <- <-]. simpl.
      destruct (wf_entry_or_default iss (state r) (heap r) id e m h) as [Hm He]; [done..|].
      by apply wf_issue_shared.
  - unfold cancel_many, check_open. destruct (closed (state r)) eqn:Ho; [done|].
    pose proof (wf_cancel_fold iss' (filter (fun id => is_empty id = false) ids)
                  (entries (state r)) (heap r)) as Hfold.
    destruct (foldl cancel_one _ _) as [m h]. simpl in *.
    assert (well_formed (mkState false m) h iss').
    { apply Hfold.
      - apply Forall_forall. intros id [? _]%list_elem_of_filter. by apply is_empty_false.
      - destruct (state r); simpl in *; by subst. }
    by destruct (filter _ ids).
  - unfold cancel_active, check_open. destruct (closed (state r)) eqn:Ho; [done|]. simpl.
    apply wf_store_fold; [apply btree_active_entries|done].
  - unfold reset_many_if_idle, check_open. destruct (closed (state r)) eqn:Ho; [done|]. simpl.
    assert (well_formed (mkState false (entries (state r))) (heap r) iss') as Hm
      by (destruct (state r); simpl in *; by subst).
    clear Hwf. revert Hm. generalize (entries (state r)) as m.
    induction ids as [|id ids IH]; intros m Hm; [done|]. simpl. by apply IH, wf_reset_one.
  - destruct Hwf. by split.
  - rewrite release_unfold. unfold is_released. case_bool_decide; [done|].
    match goal with H : _ !! u = Some l |- _ =>
      destruct (wf_lease_alloc _ _ _ Hwf _ _ H) as (Hu & _ & _) end.
    rewrite Hu in *. simpl.
    by apply wf_release.
Qed.

Lemma initial_invariant d w : invariant (with_observer d w) ∅.
Proof. split; simpl; try done. intros c [x Hx]. done. Qed.

Lemma steps_invariant x y : rtc step x y -> invariant x.1 x.2 -> invariant y.1 y.2.
Proof.
  induction 1 as [|[r1 i1] [r2 i2] y Hs _ IH]; [done|]. intros Hi. by eapply IH, step_invariant.
Qed.

(** C27: in every reachable state of a registry the bookkeeping is sound: no entry exists after
    shutdown or for the empty id, the reference count of an entry is exactly the number of
    unreleased leases of its id, every unreleased lease of an open registry shares the cancellation
    flag of the current entry of its id, and no flag is shared between two ids (so neither a
    stale nor an anonymous lease can observe somebody else's cancellation). *)
Theorem registry_invariant (d : CancellationDomain) (w : bool) (r : Registry) (issued : lease_map)
  (Hreach : reachable d w (r, issued)) : invariant r issued.
Proof. apply (steps_invariant _ _ Hreach), initial_invariant. Qed.

(** ** The loop of [cancel_many] and the flags *)

Lemma load_store h c b c' : load (store h c b) c' = if decide (c = c') then b else load h c'.
Proof. unfold load; simpl. rewrite lookup_insert. by case_decide. Qed.

Lemma entry_or_default_lookup id m h e m' h' id' e' :
  entry_or_default id m h = (e, m', h') -> m !! id' = Some e' ->
  m' !! id' = Some e' /\ (id = id' -> e = e') /\
  (forall c, (c < next_cell h)%nat -> load h' c = load h c) /\ (next_cell h <= next_cell h')%nat.
Proof.
  unfold entry_or_default. destruct (m !! id) as [e0|] eqn:E; intros [= <- <- <-] He'.
  - split_and!; [done|congruence|done|done].
  - split_and!; [by rewrite lookup_insert_ne by congruence|congruence| |simpl; lia].
    intros c Hc. unfold load; simpl. rewrite lookup_insert_ne by lia. done.
Qed.

Lemma cancel_one_eq m h i e m' h' :
  entry_or_default i m h = (e, m', h') -> cancel_one (m, h) i = (m', store h' (cancelled e) true).
Proof. unfold cancel_one. simpl. by intros ->. Qed.

(** The flag of an existing entry ends up raised exactly when its id was selected. *)
Lemma cancel_fold_selected issued ids m h id e :
  Forall (fun i => i <> ""%string) ids -> well_formed (mkState false m) h issued ->
  m !! id = Some e ->
  (foldl cancel_one (m, h) ids).1 !! id = Some e /\
  load (foldl cancel_one (m, h) ids).2 (cancelled e)
  = load h (cancelled e) || bool_decide (id ∈ ids).
Proof.
  intros Hids. revert m h. induction Hids as [|i ids Hi _ IH]; intros m h Hwf He.
  { rewrite bool_decide_false by (by apply not_elem_of_nil). by rewrite orb_false_r. }
  pose proof (wf_cancel_one _ _ _ i Hi Hwf) as Hwf'. simpl.
  destruct (entry_or_default i m h) as [[e0 m'] h'] eqn:E.
  rewrite (cancel_one_eq _ _ _ _ _ _ E) in *. simpl in *.
  destruct (entry_or_default_lookup _ _ _ _ _ _ _ _ E He) as (He' & Hsame & Hload & _).
  destruct (wf_entry_or_default issued (mkState false m) h i e0 m' h') as [Hwf'' He0]; [done..|].
  destruct (IH _ _ Hwf' He') as [-> ->]. split; [done|].
  rewrite load_store, Hload by (by eapply (wf_entry_alloc _ _ _ Hwf)).
  destruct (decide (cancelled e0 = cancelled e)) as [Hc|Hc]; simpl.
  - assert (i = id) as -> by (by apply (wf_entry_cell _ _ _ Hwf'' i id e0 e)).
    rewrite (bool_decide_true (id ∈ id :: ids)) by set_solver. by rewrite orb_true_r.
  - assert (i <> id) by (intros ->; apply Hc; f_equal; auto).
    f_equal. apply bool_decide_ext. set_solver.
Qed.

(** A flag that no selected entry owns is untouched. *)
Lemma cancel_fold_other issued ids m h c :
  Forall (fun i => i <> ""%string) ids -> well_formed (mkState false m) h issued ->
  (c < next_cell h)%nat -> (forall i e, i ∈ ids -> m !! i = Some e -> cancelled e <> c) ->
  load (foldl cancel_one (m, h) ids).2 c = load h c.
Proof.
  intros Hids. revert m h. induction Hids as [|i ids Hi _ IH]; intros m h Hwf Hc Hother; [done|].
  pose proof (wf_cancel_one _ _ _ i Hi Hwf) as Hwf'. simpl.
  destruct (entry_or_default i m h) as [[e0 m'] h'] eqn:E.
  rewrite (cancel_one_eq _ _ _ _ _ _ E) in *. simpl in *.
  assert (forall j e, j ∈ ids -> m !! j = Some e -> cancelled e <> c) as Hrest
    by (intros j e Hj; apply Hother; by right).
  unfold entry_or_default in E. destruct (m !! i) as [e|] eqn:Hi'; simplify_eq/=.
  - rewrite IH by done. rewrite load_store, decide_False; [done|].
    apply (Hother i e0); [left|done].
  - rewrite IH; [|done|simpl; lia|].
    + rewrite load_store, decide_False by lia. unfold load; simpl.
      by rewrite lookup_insert_ne by lia.
    + intros j ej Hj [[<- <-]|[_ ?]]%lookup_insert_Some; simpl; [lia|eauto].
Qed.

Definition selected (ids : list string) (l : RequestLease) : bool :=
  negb (is_empty (lease_id l)) && bool_decide (lease_id l ∈ ids).

Definition cancelled_error (d : CancellationDomain) : CancellationError :=
  match d with Download => DownloadCancelled | ExtensionRequest => ExtensionRequestCancelled end.

Lemma open_state (r : Registry) : closed (state r) = false -> state r = mkState false (entries (state r)).
Proof. destruct (state r); simpl. by intros ->. Qed.

Lemma cancel_many_flag r issued ids u l :
  invariant r issued -> closed (state r) = false -> issued !! u = Some l -> u ∉ released (heap r) ->
  load (heap (cancel_many r ids).2) (lease_cancelled l)
  = load (heap r) (lease_cancelled l) || selected ids l.
Proof.
  unfold invariant, selected. intros Hwf Ho Hl Hu. unfold cancel_many, check_open. rewrite Ho.
  set (sel := filter _ ids).
  assert (Forall (fun i => i <> ""%string) sel) as Hsel.
  { apply Forall_forall. intros i [? _]%list_elem_of_filter. by apply is_empty_false. }
  assert (forall i, i ∈ sel <-> i <> ""%string /\ i ∈ ids) as Hin.
  { intros i. unfold sel. by rewrite list_elem_of_filter, is_empty_false. }
  pose proof Hwf as Hwf0. rewrite (open_state r Ho) in Hwf.
  assert (load (foldl cancel_one (entries (state r), heap r) sel).2 (lease_cancelled l)
    = load (heap r) (lease_cancelled l) || selected ids l) as Hload.
  { unfold selected. destruct (is_empty (lease_id l)) eqn:Hid; simpl.
    - rewrite orb_false_r. apply is_empty_spec in Hid.
      eapply (cancel_fold_other issued); [done|done|by eapply (wf_lease_alloc _ _ _ Hwf)|].
      intros i e [Hne _]%Hin He Hc. apply Hne. rewrite <- Hid.
      by eapply (wf_lease_cell _ _ _ Hwf).
    - apply is_empty_false in Hid. destruct (wf_shared _ _ _ Hwf u l) as (e & He & <-); [done..|].
      destruct (cancel_fold_selected issued sel _ _ (lease_id l) e Hsel Hwf He) as [_ ->].
      f_equal. apply bool_decide_ext. rewrite Hin. tauto. }
  unfold selected in Hload.
  destruct (foldl cancel_one (entries (state r), heap r) sel) as [m h]. by destruct sel.
Qed.

Lemma cancel_fold_frame ids m h :
  released (foldl cancel_one (m, h) ids).2 = released h.
Proof.
  revert m h. induction ids as [|i ids IH]; intros m h; [done|]. simpl.
  destruct (cancel_one (m, h) i) as [m' h'] eqn:E. rewrite IH.
  revert E. unfold cancel_one, entry_or_default. simpl. by destruct (m !! i); intros [= <- <-].
Qed.

Lemma cancel_many_frame r ids :
  closed (state r) = false ->
  closed (state (cancel_many r ids).2) = false
  /\ released (heap (cancel_many r ids).2) = released (heap r).
Proof.
  intros Ho. unfold cancel_many, check_open. rewrite Ho.
  pose proof (cancel_fold_frame (filter (fun id => is_empty id = false) ids)
                (entries (state r)) (heap r)) as Hf.
  destruct (foldl cancel_one _ _) as [m h]. by destruct (filter _ ids).
Qed.

Lemma reachable_invariant d w r issued : reachable d w (r, issued) -> invariant r issued.
Proof. intros Hreach. apply (steps_invariant _ _ Hreach), initial_invariant. Qed.

(** cancelling a batch of ids on an open registry reaches every unreleased lease of a
    selected id, whose next check reports the cancellation of its domain, and no other lease: the
    check of every unreleased lease that is not selected is unchanged.  When some id is selected
    the waiters are woken. *)
Theorem cancel_many_reaches_leases (d : CancellationDomain) (w : bool) (r : Registry)
  (issued : lease_map) (ids : list string) (u : nat) (l : RequestLease)
  (Hreach : reachable d w (r, issued)) (Hopen : closed (state r) = false)
  (Hl : issued !! u = Some l) (Hlive : u ∉ released (heap r)) :
  let r' := (cancel_many r ids).2 in
  check_active r' l
  = (if selected ids l then Err (cancelled_error (lease_domain l)) else check_active r l)
  /\ ((exists id, id ∈ ids /\ id <> ""%string) ->
      exists rest, log (observers r') = log (observers r) ++ NotifyAll :: rest).
Proof.
  pose proof (reachable_invariant _ _ _ _ Hreach) as Hwf. intros r'.
  destruct (wf_lease_alloc _ _ _ Hwf u l Hl) as (Hu & _ & _). split.
  - pose proof (cancel_many_flag r issued ids u l Hwf Hopen Hl Hlive) as Hflag.
    assert (closed (state r') = false /\ released (heap r') = released (heap r)) as [Ho Hr]
      by apply cancel_many_frame, Hopen.
    unfold check_active, lease_is_cancelled, check_live, check_open, is_released.
    rewrite Ho, Hr, Hopen, Hu, bool_decide_false by done. simpl.
    subst r'. rewrite Hflag. destruct (selected ids l), (load (heap r) (lease_cancelled l)); done.
  - intros (id & Hid & Hne). subst r'. unfold cancel_many, check_open. rewrite Hopen.
    destruct (foldl cancel_one _ _) as [m h].
    destruct (filter (fun id => is_empty id = false) ids) eqn:E; [|by eexists].
    exfalso. apply (not_elem_of_nil id). rewrite <- E. apply list_elem_of_filter.
    by rewrite is_empty_false.
Qed.

(** ** Releasing, resetting, closing, waiting *)

Lemma active_lease_entry r issued u l :
  invariant r issued -> closed (state r) = false -> issued !! u = Some l ->
  u ∉ released (heap r) -> lease_id l <> ""%string ->
  exists e, entries (state r) !! lease_id l = Some e /\ cancelled e = lease_cancelled l
    /\ 1 <= references e.
Proof.
  intros Hwf Ho Hl Hu Hid. destruct (wf_shared _ _ _ Hwf u l) as (e & He & Hc); [done..|].
  exists e. split_and!; [done..|]. rewrite (wf_references _ _ _ Hwf _ _ He).
  assert (size (active_leases (heap r) issued (lease_id l)) <> 0%nat); [|lia].
  intros Hz%map_size_empty_iff.
  assert (active_leases (heap r) issued (lease_id l) !! u = Some l) as Hin
    by (by apply map_lookup_filter_Some).
  by rewrite Hz in Hin.
Qed.

Lemma release_live r l :
  lease_index l ∉ released (heap r) ->
  state (release r l) = mkState (closed (state r)) (release_entries (entries (state r)) (lease_id l))
  /\ heap (release r l) = release_heap (heap r) (lease_index l).
Proof. intros Hu. rewrite release_unfold. unfold is_released. by rewrite bool_decide_false. Qed.

Lemma step_released x y : step x y -> released (heap x.1) ⊆ released (heap y.1).
Proof.
  destruct 1; simpl; try done.
  - match goal with H : acquire _ _ = _ |- _ => revert H end.
    unfold acquire, check_open, entry_or_default. destruct (closed (state r)); [done|].
    destruct (is_empty id); [by intros [= <- <-]|].
    destruct (entries (state r) !! id); intros [= <- <-]; done.
  - destruct (closed (state r)) eqn:Ho.
    + unfold cancel_many, check_open. by rewrite Ho.
    + by destruct (cancel_many_frame r ids Ho) as [_ ->].
  - unfold cancel_active, check_open. destruct (closed (state r)); [done|]. simpl.
    generalize (heap r) as h. induction (filter _ _) as [|p l IH]; intros h; [done|]. simpl.
    etrans; [|apply IH]. done.
  - unfold reset_many_if_idle, check_open. by destruct (closed (state r)).
  - rewrite release_unfold. destruct (is_released r l); [done|]. simpl. set_solver.
Qed.

Lemma released_stable x y u : rtc step x y -> u ∈ released (heap x.1) -> u ∈ released (heap y.1).
Proof. induction 1 as [|? ? ? Hs%step_released _ IH]; [done|]. set_solver. Qed.

(** the first release of a lease of an open registry finds an entry with at least one
    reference (so the decrement cannot underflow), drops exactly one reference, and removes the
    entry precisely when no unreleased lease of the id remains; every further release of the same
    lease changes nothing, whatever happened to the registry in between. *)
Theorem release_balanced (d : CancellationDomain) (w : bool) (r : Registry) (issued : lease_map)
  (u : nat) (l : RequestLease) (Hreach : reachable d w (r, issued))
  (Hopen : closed (state r) = false) (Hl : issued !! u = Some l)
  (Hlive : u ∉ released (heap r)) (Hid : lease_id l <> ""%string) :
  (exists e, entries (state r) !! lease_id l = Some e /\ 1 <= references e
     /\ entries (state (release r l)) !! lease_id l
        = if decide (active_leases (heap (release r l)) issued (lease_id l) = ∅) then None
          else Some (mkEntry (cancelled e) (references e - 1)))
  /\ forall r2 issued2, rtc step (release r l, issued) (r2, issued2) -> release r2 l = r2.
Proof.
  pose proof (reachable_invariant _ _ _ _ Hreach) as Hwf.
  destruct (wf_lease_alloc _ _ _ Hwf u l Hl) as (Hu & _ & _). subst u.
  destruct (release_live r l Hlive) as [Hs Hh]. split.
  - destruct (active_lease_entry r issued (lease_index l) l) as (e & He & Hc & Href); [done..|].
    exists e. split_and!; [done..|]. rewrite Hs, Hh. simpl.
    pose proof (active_leases_release _ _ _ _ (lease_id l) Hl Hlive) as Hsz.
    rewrite decide_True in Hsz by done. pose proof (wf_references _ _ _ Hwf _ _ He) as Hr.
    unfold release_entries. rewrite He. simpl. case_decide as Hempty.
    + rewrite Hempty, map_size_empty in Hsz.
      rewrite (proj2 (Z.eqb_eq _ _)) by lia. apply lookup_delete_eq.
    + rewrite <- map_size_empty_iff in Hempty.
      rewrite (proj2 (Z.eqb_neq _ _)) by lia. apply lookup_insert_eq.
  - intros r2 issued2 Hsteps.
    assert (lease_index l ∈ released (heap r2)) as Hin.
    { eapply (released_stable _ _ _ Hsteps). simpl. rewrite Hh. simpl. set_solver. }
    unfold release, is_released. by rewrite bool_decide_true.
Qed.

Lemma reset_fold_lookup ids m id :
  foldl reset_one m ids !! id
  = match m !! id with
    | Some e => if bool_decide (id ∈ ids) && (references e =? 0) then None else Some e
    | None => None
    end.
Proof.
  revert m. induction ids as [|i ids IH]; intros m; simpl.
  { by destruct (m !! id). }
  rewrite IH. unfold reset_one. destruct (decide (i = id)) as [->|Hne].
  - rewrite (bool_decide_true (id ∈ id :: ids)) by left.
    destruct (m !! id) as [e|] eqn:E; [|by rewrite E]. simpl.
    destruct (references e =? 0) eqn:Hz; [by rewrite lookup_delete_eq|].
    rewrite E, Hz. by rewrite andb_false_r.
  - rewrite (bool_decide_ext (id ∈ i :: ids) (id ∈ ids)) by (rewrite elem_of_cons; naive_solver).
    destruct (m !! i) as [e|] eqn:E; [|done]. destruct (references e =? 0); [|done].
    by rewrite lookup_delete_ne.
Qed.

(** Resetting a batch of ids clears exactly the selected ids without unreleased lease: those
    are no longer cancelled, every other id answers as before, and so does every lease handed out
    so far.  The batch is the sequence of the individual resets. *)
Theorem reset_many_only_idle (d : CancellationDomain) (w : bool) (r : Registry)
  (issued : lease_map) (ids : list string) (Hreach : reachable d w (r, issued))
  (Hopen : closed (state r) = false) :
  let r' := (reset_many_if_idle r ids).2 in
  (forall id, is_cancelled r' id
     = if bool_decide (id ∈ ids) && bool_decide (active_leases (heap r) issued id = ∅)
       then Ok false else is_cancelled r id)
  /\ (forall u l, issued !! u = Some l -> check_active r' l = check_active r l)
  /\ r' = foldl (fun r id => (reset_if_idle r id).2) r ids.
Proof.
  pose proof (reachable_invariant _ _ _ _ Hreach) as Hwf. intros r'.
  assert (r' = set_state r (mkState false (foldl reset_one (entries (state r)) ids))) as Hr'.
  { subst r'. unfold reset_many_if_idle, check_open. by rewrite Hopen. }
  rewrite Hr'. split_and!.
  - intros id. unfold is_cancelled, check_open. simpl. rewrite Hopen, reset_fold_lookup.
    destruct (entries (state r) !! id) as [e|] eqn:He.
    + rewrite (bool_decide_ext (active_leases (heap r) issued id = ∅) (references e = 0)).
      2: { rewrite (wf_references _ _ _ Hwf _ _ He), <- map_size_empty_iff. lia. }
      destruct (Z.eqb_spec (references e) 0) as [Hz|Hz];
        [rewrite (bool_decide_true (references e = 0)) by done
        |rewrite (bool_decide_false (references e = 0)) by done];
        by destruct (bool_decide (id ∈ ids)).
    + by destruct (_ && _).
  - intros u l _. unfold check_active, lease_is_cancelled, check_live, check_open, is_released.
    simpl. by rewrite Hopen.
  - clear Hr' r' Hreach Hwf issued. revert r Hopen.
    induction ids as [|i ids IH]; intros r Hopen; simpl.
    { destruct r as [? [] ? ?]; simpl in *; by subst. }
    assert ((reset_if_idle r i).2 = set_state r (mkState false (reset_one (entries (state r)) i)))
      as ->.
    { unfold reset_if_idle, reset_many_if_idle, check_open. by rewrite Hopen. }
    rewrite <- IH by done. done.
Qed.

Lemma store_fold_load (l : list (string * Entry)) h c :
  load (foldl (fun h p => store h (cancelled p.2) true) h l) c
  = load h c || bool_decide (Exists (fun p => cancelled p.2 = c) l).
Proof.
  revert h. induction l as [|p l IH]; intros h; simpl.
  { by rewrite orb_false_r. }
  rewrite IH, load_store. destruct (decide (cancelled p.2 = c)) as [Hc|Hc].
  - rewrite (bool_decide_true (Exists _ (p :: l))) by (by left). by rewrite orb_true_r.
  - f_equal. apply bool_decide_ext. rewrite Exists_cons. tauto.
Qed.


(** Cancelling the active requests reports, in ascending order and without repetition, exactly
    the named ids that have an unreleased lease; each of those is cancelled, and the idle
    sentinels (and every other id) answer as before. *)
Theorem cancel_active_exact (d : CancellationDomain) (w : bool) (r : Registry)
  (issued : lease_map) (Hreach : reachable d w (r, issued)) (Hopen : closed (state r) = false) :
  exists ids r', cancel_active r = (Ok ids, r')
  /\ Sorted String.le ids /\ NoDup ids
  /\ (forall id, id ∈ ids <->
        id <> ""%string /\ exists u l, issued !! u = Some l /\ lease_id l = id /\ u ∉ released (heap r))
  /\ (forall id, is_cancelled r' id = if decide (id ∈ ids) then Ok true else is_cancelled r id).
Proof.
  pose proof (reachable_invariant _ _ _ _ Hreach) as Hwf.
  unfold cancel_active, check_open. rewrite Hopen. eexists _, _. split; [done|].
  set (active := filter _ _).
  assert (forall id e, (id, e) ∈ active <-> entries (state r) !! id = Some e /\ 0 < references e)
    as Hin.
  { intros id e. unfold active. rewrite list_elem_of_filter, elem_of_btree_iter. simpl. tauto. }
  assert (forall id, id ∈ map fst active <->
    exists e, entries (state r) !! id = Some e /\ 0 < references e) as Hids.
  { intros id. rewrite list_elem_of_fmap. setoid_rewrite <- Hin. split.
    - intros ([i e] & -> & ?). eauto.
    - intros [e ?]. by exists (id, e). }
  split_and!.
  - apply sorted_map_filter. rewrite btree_iter_keys. apply btree_keys_sorted.
  - apply NoDup_map_filter. rewrite btree_iter_keys. apply btree_keys_NoDup.
  - intros id. rewrite Hids. split.
    + intros (e & He & Hpos). split.
      { intros ->. by rewrite (wf_no_empty_id _ _ _ Hwf) in He. }
      rewrite (wf_references _ _ _ Hwf _ _ He) in Hpos.
      destruct (map_choose (active_leases (heap r) issued id)) as (u & l & Hl).
      { intros Hz%map_size_empty_iff. lia. }
      apply map_lookup_filter_Some in Hl as (? & ? & ?). eauto.
    + intros (Hne & u & l & Hl & <- & Hu).
      destruct (active_lease_entry r issued u l) as (e & ? & _ & ?); [done..|].
      exists e. split; [done|lia].
  - intros id. unfold is_cancelled, check_open. simpl. rewrite Hopen.
    destruct (entries (state r) !! id) as [e|] eqn:He.
    + rewrite store_fold_load. case_decide as Hid.
      * apply Hids in Hid as (e' & He' & Hpos). rewrite bool_decide_true; [by rewrite orb_true_r|].
        apply Exists_exists. exists (id, e). split; [|done]. apply Hin. simplify_eq. done.
      * rewrite bool_decide_false; [by rewrite orb_false_r|].
        intros ([i e'] & Hie & Hc)%Exists_exists. apply Hin in Hie as [Hie Hpos]. simpl in Hc.
        assert (i = id) as -> by (by apply (wf_entry_cell _ _ _ Hwf i id e' e)).
        apply Hid, Hids. simplify_eq. eauto.
    + rewrite decide_False; [done|]. intros (e & ? & _)%Hids. congruence.
Qed.

Lemma step_closed x y : step x y -> closed (state x.1) = true -> closed (state y.1) = true.
Proof.
  destruct 1; simpl; intros Hc; try done.
  - match goal with H : acquire _ _ = _ |- _ => revert H end.
    unfold acquire, check_open. by rewrite Hc.
  - unfold cancel_many, check_open. by rewrite Hc.
  - unfold cancel_active, check_open. by rewrite Hc.
  - unfold reset_many_if_idle, check_open. by rewrite Hc.
  - rewrite release_unfold. by destruct (is_released r l).
Qed.

(** Shutdown is terminal.  However the registry and its leases are used afterwards, every call
    is refused with [RegistryClosed] and leaves the registry as it was, every lease check and
    wait reports [RegistryClosed], and no entry ever reappears. *)
Theorem shutdown_terminal (d : CancellationDomain) (w : bool) (r : Registry) (issued : lease_map)
  (r2 : Registry) (issued2 : lease_map) (Hreach : reachable d w (r, issued))
  (Hsteps : rtc step (shutdown r, issued) (r2, issued2)) :
  entries (state r2) = ∅
  /\ (forall id, acquire r2 id = (Err RegistryClosed, r2) /\ is_cancelled r2 id = Err RegistryClosed)
  /\ (forall ids, cancel_many r2 ids = (Err RegistryClosed, r2)
        /\ reset_many_if_idle r2 ids = (Err RegistryClosed, r2))
  /\ cancel_active r2 = (Err RegistryClosed, r2)
  /\ (forall l t elapsed, check_active r2 l = Err RegistryClosed
        /\ wait_cancelled l t [(r2, elapsed)] = Some (Err RegistryClosed)).
Proof.
  assert (closed (state r2) = true) as Hc.
  { enough (forall x y, rtc step x y -> closed (state x.1) = true -> closed (state y.1) = true)
      as Hall by (by apply (Hall _ _ Hsteps)).
    induction 1 as [|x y z Hs _ IH]; [done|]. intros Hx. eapply IH, step_closed; done. }
  assert (invariant r2 issued2) as Hwf.
  { apply (steps_invariant _ _ Hsteps). simpl.
    eapply step_invariant; [apply step_shutdown|by eapply reachable_invariant]. }
  split; [by apply (wf_closed _ _ _ Hwf)|].
  unfold acquire, is_cancelled, cancel_many, reset_many_if_idle, cancel_active, check_active,
    wait_cancelled, lease_is_cancelled, check_open; simpl.
  unfold wait_pass, check_live, check_open. rewrite Hc. done.
Qed.

Lemma wait_loop_some l t wakes res :
  wait_loop l t wakes = Some res -> exists r e, (r, e) ∈ wakes /\ wait_pass l t r e = Some res.
Proof.
  induction wakes as [|[r e] wakes IH]; [done|]. simpl.
  destruct (wait_pass l t r e) eqn:E.
  - intros [= <-]. exists r, e. split; [left|done].
  - intros (r' & e' & ? & ?)%IH. exists r', e'. split; [by right|done].
Qed.

Lemma wait_loop_none l t wakes r e :
  wait_loop l t wakes = None -> (r, e) ∈ wakes -> wait_pass l t r e = None.
Proof.
  induction wakes as [|[r' e'] wakes IH]; [by intros _ ?%not_elem_of_nil|]. simpl.
  destruct (wait_pass l t r' e') eqn:E; [done|]. intros Hn [[= -> ->]|?]%elem_of_cons; auto.
Qed.

(** C32: waiting for a cancellation is bounded and truthful.  The effective timeout is positive and
    at most a minute; a wait that gets the lock once the timeout has elapsed, or in a state where
    the lease is cancelled, released or closed, returns; it returns true only if it saw the lease
    cancelled, false only after the whole timeout, and an error only if the lease or the registry
    was dead. *)
Theorem wait_cancelled_outcome (l : RequestLease) (timeout_ms : Z)
  (wakes : list (Registry * Z)) :
  0 < wait_timeout timeout_ms <= 60000
  /\ (forall r e, (r, e) ∈ wakes -> wait_timeout timeout_ms <= e \/ check_active r l <> Ok tt ->
       is_Some (wait_cancelled l timeout_ms wakes))
  /\ (forall res, wait_cancelled l timeout_ms wakes = Some res -> exists r e, (r, e) ∈ wakes /\
       match res with
       | Ok true => lease_is_cancelled r l = Ok true
       | Ok false => lease_is_cancelled r l = Ok false /\ wait_timeout timeout_ms <= e
       | Err err => lease_is_cancelled r l = Err err
       end).
Proof.
  split; [unfold wait_timeout; case_bool; lia|]. unfold wait_cancelled. split.
  - intros r e Hin Hdone. destruct (wait_loop _ _ _) eqn:E; [done|]. exfalso.
    apply (wait_loop_none _ _ _ r e) in E; [|done].
    revert E Hdone. unfold wait_pass, check_active, lease_is_cancelled, sat_sub.
    destruct (check_live r l) as [[]|]; simpl; [|done].
    destruct (load _ _); [done|]. simpl. case_bool; [done|]. intros _ [?|?]; [lia|done].
  - intros res (r & e & Hin & Hp)%wait_loop_some. exists r, e. split; [done|].
    revert Hp. unfold wait_pass, lease_is_cancelled, sat_sub.
    destruct (check_live r l) as [[]|]; simpl; [|by intros [= <-]].
    destruct (load _ _); [by intros [= <-]|]. case_bool; [|done]. intros [= <-]. split; [done|lia].
Qed.

(** ** A concrete registry: one lease of ["a"], an idle sentinel for ["b"] *)

Section demo.
Let r0 := with_observer Download true.
Definition demo_acquired : Registry := (acquire r0 "a").2.
Definition demo_lease : RequestLease := mkLease 0 "a" Download 0.
Definition demo : Registry := (cancel_many demo_acquired ["b"%string]).2.
Definition demo_issued : lease_map := {[ 0%nat := demo_lease ]}.

Lemma demo_reachable : reachable Download true (demo, demo_issued).
Proof.
  eapply rtc_l; [apply (step_acquire r0 ∅ "a" demo_lease demo_acquired); reflexivity|].
  eapply rtc_l; [apply step_cancel_many|]. apply rtc_refl.
Qed.
End demo.

Lemma registry_invariant_witness : invariant demo demo_issued.
Proof. exact (registry_invariant Download true demo demo_issued demo_reachable). Defined.

Lemma cancel_many_reaches_leases_witness :
  check_active demo demo_lease = Ok tt
  /\ check_active (cancel_many demo ["a"%string; ""%string]).2 demo_lease = Err DownloadCancelled.
Proof.
  split; [reflexivity|].
  exact (proj1 (cancel_many_reaches_leases Download true demo demo_issued ["a"%string; ""%string]
                  0 demo_lease demo_reachable eq_refl eq_refl ltac:(vm_compute; done))).
Defined.

Lemma release_balanced_witness :
  release (release demo demo_lease) demo_lease = release demo demo_lease.
Proof.
  exact (proj2 (release_balanced Download true demo demo_issued 0 demo_lease demo_reachable
                  eq_refl eq_refl ltac:(vm_compute; done) ltac:(done)) _ _ (rtc_refl _ _)).
Defined.

Lemma reset_many_only_idle_witness :
  is_cancelled demo "b" = Ok true
  /\ is_cancelled (reset_many_if_idle demo ["a"%string; "b"%string]).2 "b" = Ok false.
Proof.
  split; [reflexivity|].
  rewrite (proj1 (reset_many_only_idle Download true demo demo_issued ["a"%string; "b"%string]
                    demo_reachable eq_refl)).
  reflexivity.
Defined.

Lemma cancel_active_exact_witness :
  exists ids r', cancel_active demo = (Ok ids, r') /\ Sorted String.le ids.
Proof.
  destruct (cancel_active_exact Download true demo demo_issued demo_reachable eq_refl)
    as (ids & r' & ? & ? & _).
  exists ids, r'. done.
Defined.

Lemma shutdown_terminal_witness : entries (state (shutdown demo)) = ∅.
Proof.
  exact (proj1 (shutdown_terminal Download true demo demo_issued (shutdown demo) demo_issued
                  demo_reachable (rtc_refl _ _))).
Defined.

Example cancel_active_demo : (cancel_active demo).1 = Ok ["a"%string].
Proof. reflexivity. Qed.
Example wait_demo :
  wait_cancelled demo_lease 20 [(demo, 0); (demo, 21)] = Some (Ok false).
Proof. reflexivity. Qed.

Lemma wait_cancelled_outcome_witness :
  is_Some (wait_cancelled demo_lease 20 [(demo, 0); (demo, 21)]).
Proof.
  refine (proj1 (proj2 (wait_cancelled_outcome demo_lease 20 [(demo, 0); (demo, 21)])) demo 21 _ _).
  - right. left.
  - left. vm_compute. discriminate.
Defined.
