(* ===== verification/Progress.v ===== *)
(** * Download progress: [crates/core/src/progress.rs] and [progress/subscription.rs]

    The registry of running items, the revision counter, the tombstones of removed items, and the
    delta protocol its listeners follow.  Serialization to JSON ([serde_json]) is a parameter.
    [notified] counts the wake-ups of the condition variable. *)

From S2P Require Import Prelude Float64 Cancellation.

Definition UPDATE_BYTES : Z := 128 * 1024.

(** The conversion of an out-of-range speed follows the target's instruction set. *)
Inductive Arch := X86 | Arm32 | OtherArch.

Record ItemProgress := mkItem {
  item_id : string; bytes_total : Z; bytes_received : Z; progress : f64; speed_mbps : f64;
  is_downloading : bool; status : string; stage : string; revision : Z }.

Record BridgeState := mkBridge {
  bytes_bucket : Z; total : Z; percent : Z; speed_tenths : Z; downloading_flag : bool;
  bridge_status : string; bridge_stage : string }.

#[export] Instance BridgeState_eq_dec : EqDecision BridgeState.
Proof. solve_decision. Defined.

Definition two63 : f64 := f64_of (2 ^ 63).
Definition two64 : f64 := f64_of (2 ^ 64).

Definition rounded_speed (arch : Arch) (value : f64) : Z :=
  let value := f64_round value in
  match arch with
  | X86 => if f64_ge value two63 then i64_min else as_i64 value
  | Arm32 =>
    if f64_ge value two64 || negb (is_finite value)
    then wrap_i64 (Z.shiftl (as_u32 value) 32)
    else if f64_ge value two63 then wrap_i64 (as_u64 value)
    else as_i64 value
  | OtherArch => as_i64 value
  end.

(** [ItemProgress::bridge]: what the listeners can see of an item. *)
Definition bridge (arch : Arch) (i : ItemProgress) : BridgeState :=
  let p := if is_nan (progress i) || f64_le (progress i) (f64_of 0) then f64_of 0
           else f64_min (progress i) (f64_of 1) in
  let speed := if is_nan (speed_mbps i) || f64_le (speed_mbps i) (f64_of 0) then f64_of 0
               else speed_mbps i in
  mkBridge (Z.quot (bytes_received i) UPDATE_BYTES) (bytes_total i)
    (as_i64 (f64_round (f64_mul p (f64_of 100))))
    (rounded_speed arch (f64_mul speed (f64_of 10)))
    (is_downloading i) (status i) (stage i).

#[global] Arguments bridge : simpl never.

Definition finite (i : ItemProgress) : bool := is_finite (progress i) && is_finite (speed_mbps i).

Inductive ProgressError := Closed | SubscriptionClosed.

(** ** State *)

Record State := mkState {
  items : gmap string ItemProgress; removed : gmap string Z; seq : Z; reset : Z;
  dirty : bool; cached : string; closed : bool; notified : nat }.

(** The text [{"items":{}}], with the double quote by its code. *)
Definition empty_snapshot : string :=
  bytes_to_str [123; 34; 105; 116; 101; 109; 115; 34; 58; 123; 125; 125].

Definition new : State := mkState ∅ ∅ 0 0 true empty_snapshot false 0.

Definition check (s : State) : result unit ProgressError :=
  if closed s then Err Closed else Ok tt.

Definition set_items (s : State) (m : gmap string ItemProgress) : State :=
  mkState m (removed s) (seq s) (reset s) (dirty s) (cached s) (closed s) (notified s).
Definition set_removed (s : State) (m : gmap string Z) (r : Z) : State :=
  mkState (items s) m (seq s) r (dirty s) (cached s) (closed s) (notified s).
Definition set_dirty (s : State) (b : bool) : State :=
  mkState (items s) (removed s) (seq s) (reset s) b (cached s) (closed s) (notified s).
Definition notify (s : State) : State :=
  mkState (items s) (removed s) (seq s) (reset s) (dirty s) (cached s) (closed s) (S (notified s)).

Definition advance (s : State) : State :=
  mkState (items s) (removed s) (wrap_i64 (seq s + 1)) (reset s) true (cached s) (closed s)
    (notified s).
Definition next (s : State) : State := notify (advance s).

(** ** Deltas *)

Record Delta := mkDelta {
  delta_seq : Z; delta_reset : bool; delta_items : gmap string ItemProgress;
  delta_removed : list string }.

(** [State::delta] before serialization; [None] is the empty string. *)
Definition delta_document (s : State) (since : Z) : option Delta :=
  if seq s <=? since then None
  else
    let reset := (since <=? 0) || (since <? reset s) in
    let its := filter (fun p => reset = true \/ since < revision p.2) (items s) in
    if bool_decide (map_Forall (fun _ i => finite i = true) its) then
      Some (mkDelta (seq s) reset its
              (if reset then []
               else btree_keys (filter (fun p => since < p.2) (removed s))))
    else None.

(** ** The items' transitions *)

Definition with_status (i : ItemProgress) (d : bool) (st sg : string) : ItemProgress :=
  mkItem (item_id i) (bytes_total i) (bytes_received i) (progress i) (speed_mbps i) d st sg
    (revision i).
Definition with_progress (i : ItemProgress) (p : f64) : ItemProgress :=
  mkItem (item_id i) (bytes_total i) (bytes_received i) p (speed_mbps i) (is_downloading i)
    (status i) (stage i) (revision i).
Definition with_bytes (i : ItemProgress) (received total : Z) : ItemProgress :=
  mkItem (item_id i) total received (progress i) (speed_mbps i) (is_downloading i)
    (status i) (stage i) (revision i).
Definition with_speed (i : ItemProgress) (speed : f64) : ItemProgress :=
  mkItem (item_id i) (bytes_total i) (bytes_received i) (progress i) speed (is_downloading i)
    (status i) (stage i) (revision i).
Definition with_revision (i : ItemProgress) (r : Z) : ItemProgress :=
  mkItem (item_id i) (bytes_total i) (bytes_received i) (progress i) (speed_mbps i)
    (is_downloading i) (status i) (stage i) r.

Definition mark_downloading (i : ItemProgress) : ItemProgress :=
  with_status i true "downloading" "".

Definition set_received_item (received : Z) (i : ItemProgress) : ItemProgress :=
  let i := with_bytes i received (bytes_total i) in
  let i := if 0 <? bytes_total i
           then with_progress i (f64_div (f64_of received) (f64_of (bytes_total i))) else i in
  if 0 <? received then mark_downloading i else i.

Definition set_progress_item (p : f64) (received total : Z) (i : ItemProgress) : ItemProgress :=
  let has_bytes := (0 <? received) || (0 <? total) in
  let i := with_progress i
             (if negb (String.eqb (status i) "preparing") || has_bytes || f64_ge p (f64_of 1)
              then p else f64_of 0) in
  let i := if 0 <? received then with_bytes i received (bytes_total i) else i in
  let i := if 0 <? total then with_bytes i (bytes_received i) total else i in
  if has_bytes || f64_ge p (f64_of 1) || String.eqb (status i) "downloading"
  then mark_downloading i else i.

Definition preparing_item (sg : string) (i : ItemProgress) : ItemProgress :=
  with_status (with_speed (with_bytes (with_progress i (f64_of 0)) 0 0) (f64_of 0))
    true "preparing" sg.

Definition finalizing_item (i : ItemProgress) : ItemProgress :=
  with_status (with_progress i (f64_of 1)) (is_downloading i) "finalizing" "".
Definition complete_item (i : ItemProgress) : ItemProgress :=
  with_status (with_progress i (f64_of 1)) false "completed" "".

(** ** The registry's operations *)

Section registry.
Context (arch : Arch).

Definition start (s : State) (id : string) : result unit ProgressError * State :=
  match check s with
  | Err e => (Err e, s)
  | Ok _ =>
    let s := next s in
    let s := set_items s (<[id := mkItem id 0 0 (f64_of 0) (f64_of 0) false "preparing" ""
                                    (seq s)]> (items s)) in
    (Ok tt, set_removed s (delete id (removed s)) (reset s))
  end.

Definition update (s : State) (id : string) (f : ItemProgress -> ItemProgress)
  : result unit ProgressError * State :=
  match check s with
  | Err e => (Err e, s)
  | Ok _ =>
    match items s !! id with
    | None => (Ok tt, s)
    | Some i =>
      let i' := f i in
      if bool_decide (bridge arch i' = bridge arch i)
      then (Ok tt, set_items s (<[id := i']> (items s)))
      else let s := next s in
           (Ok tt, set_items s (<[id := with_revision i' (seq s)]> (items s)))
    end
  end.

Definition preparing s id sg := update s id (preparing_item sg).
Definition downloading s id := update s id mark_downloading.
Definition set_received s id received := update s id (set_received_item received).
Definition set_received_with_speed s id received speed :=
  update s id (fun i => set_received_item received (with_speed i speed)).
Definition set_progress s id p received total := update s id (set_progress_item p received total).
Definition finalizing s id := update s id finalizing_item.
Definition complete s id := update s id complete_item.

(** More than 512 tombstones: forget the older half, and move [reset] past it. *)
Definition prune (s : State) : State :=
  if (512 <? Z.of_nat (size (removed s))) then
    let revisions := merge_sort Z.le (map snd (map_to_list (removed s))) in
    let cutoff := default 0 (revisions !! (length revisions / 2)%nat) in
    set_removed s (filter (fun p => cutoff < p.2) (removed s)) (Z.max (reset s) cutoff)
  else s.

Definition remove_one (acc : State * bool) (id : string) : State * bool :=
  let '(s, changed) := acc in
  match items s !! id with
  | None => (set_dirty s true, changed)
  | Some _ =>
    let s := advance (set_items s (delete id (items s))) in
    let s := prune (set_removed s (<[id := seq s]> (removed s)) (reset s)) in
    (set_dirty s true, true)
  end.

Definition remove_many (s : State) (ids : list string) : result unit ProgressError * State :=
  match check s with
  | Err e => (Err e, s)
  | Ok _ =>
    let '(s, changed) := foldl remove_one (s, false) ids in
    (Ok tt, if changed then notify s else s)
  end.

Definition remove s id := remove_many s [id].

Definition shutdown (s : State) : State :=
  mkState ∅ ∅ (seq s) (reset s) (dirty s) "" true (S (notified s)).

End registry.

(** ** Readers *)

Section readers.
Context (json_item : ItemProgress -> option string)
  (json_snapshot : list (string * ItemProgress) -> string)
  (json_delta : Delta -> option string).

Definition delta (s : State) (since : Z) : string :=
  match delta_document s since with
  | None => ""
  | Some d => default ""%string (json_delta d)
  end.

Definition item (s : State) (id : string) : result string ProgressError :=
  let? _ := check s in
  Ok match items s !! id with
     | Some i => if finite i then default ""%string (json_item i) else ""%string
     | None => "{}"%string
     end.

Definition all_finite (m : gmap string ItemProgress) : bool :=
  bool_decide (map_Forall (fun _ i => finite i = true) m).

Definition snapshot (s : State) : result string ProgressError * State :=
  match check s with
  | Err e => (Err e, s)
  | Ok _ =>
    if dirty s then
      if all_finite (items s) then
        let text := json_snapshot (btree_iter (items s)) in
        (Ok text, mkState (items s) (removed s) (seq s) (reset s) false text (closed s) (notified s))
      else (Ok empty_snapshot, s)
    else (Ok (cached s), s)
  end.

(** One pass of [ProgressSubscription::wait_delta] under the lock, at [elapsed] milliseconds. *)
Definition subscription_timeout (timeout_ms : Z) : Z :=
  if timeout_ms <=? 0 then 15000 else Z.min timeout_ms 60000.

Definition wait_delta_pass (since timeout elapsed : Z) (s : State) (sub_closed : bool)
  : option (result string ProgressError) :=
  match check s with
  | Err e => Some (Err e)
  | Ok _ =>
    if sub_closed then Some (Err SubscriptionClosed)
    else if since <? seq s then Some (Ok (delta s since))
    else if sat_sub timeout elapsed =? 0 then Some (Ok ""%string)
    else None
  end.

Fixpoint wait_delta_loop (since timeout : Z) (wakes : list (Z * State * bool))
  : option (result string ProgressError) :=
  match wakes with
  | [] => None
  | (elapsed, s, sub_closed) :: wakes =>
    match wait_delta_pass since timeout elapsed s sub_closed with
    | Some res => Some res
    | None => wait_delta_loop since timeout wakes
    end
  end.

Definition wait_delta (since timeout_ms : Z) (wakes : list (Z * State * bool)) :=
  wait_delta_loop since (subscription_timeout timeout_ms) wakes.

End readers.

(** ** Histories

    A history of operations with the number of revisions it may use, so that the theorems can
    exclude the wrap-around of the 64-bit counter. *)

Inductive op :=
| OStart (id : string)
| OPreparing (id sg : string)
| ODownloading (id : string)
| OReceived (id : string) (received : Z)
| OReceivedSpeed (id : string) (received : Z) (speed : f64)
| OProgress (id : string) (p : f64) (received total : Z)
| OFinalizing (id : string)
| OComplete (id : string)
| ORemove (ids : list string)
| OSnapshot.

Section history.
Context (arch : Arch) (json_snapshot : list (string * ItemProgress) -> string).

Definition run (s : State) (o : op) : State :=
  match o with
  | OStart id => (start s id).2
  | OPreparing id sg => (preparing arch s id sg).2
  | ODownloading id => (downloading arch s id).2
  | OReceived id n => (set_received arch s id n).2
  | OReceivedSpeed id n v => (set_received_with_speed arch s id n v).2
  | OProgress id p n t => (set_progress arch s id p n t).2
  | OFinalizing id => (finalizing arch s id).2
  | OComplete id => (complete arch s id).2
  | ORemove ids => (remove_many s ids).2
  | OSnapshot => (snapshot json_snapshot s).2
  end.

Definition cost (o : op) : Z :=
  match o with ORemove ids => len ids | OSnapshot => 0 | _ => 1 end.

Definition run_all (s : State) (os : list op) : State := foldl run s os.
Definition cost_all (os : list op) : Z := foldr (fun o n => cost o + n) 0 os.

(** The updates of [op] as functions on the item. *)
Definition item_update (o : op) : option (string * (ItemProgress -> ItemProgress)) :=
  match o with
  | OPreparing id sg => Some (id, preparing_item sg)
  | ODownloading id => Some (id, mark_downloading)
  | OReceived id n => Some (id, set_received_item n)
  | OReceivedSpeed id n v => Some (id, fun i => set_received_item n (with_speed i v))
  | OProgress id p n t => Some (id, set_progress_item p n t)
  | OFinalizing id => Some (id, finalizing_item)
  | OComplete id => Some (id, complete_item)
  | _ => None
  end.

Lemma run_update s o id f : item_update o = Some (id, f) -> run s o = (update arch s id f).2.
Proof. by destruct o; simpl; intros [= <- <-]. Qed.

Lemma update_keeps_revision o id f i :
  item_update o = Some (id, f) -> revision (f i) = revision i.
Proof.
  destruct o; simpl; intros [= <- <-]; try done;
    unfold set_received_item, set_progress_item; repeat case_bool; done.
Qed.

(** ** Listeners

    A listener only sees bridge states: two maps are the same view when they have the same ids
    with the same bridge states. *)

Definition same_view (m1 m2 : gmap string ItemProgress) : Prop :=
  forall id, bridge arch <$> m1 !! id = bridge arch <$> m2 !! id.

#[global] Instance same_view_equivalence : Equivalence same_view.
Proof. split; red; unfold same_view; intros; congruence. Qed.

(** What a listener does with a delta. *)
Definition apply_delta (d : Delta) (view : gmap string ItemProgress) : gmap string ItemProgress :=
  if delta_reset d then delta_items d
  else delta_items d ∪ filter (fun p => p.1 ∉ delta_removed d) view.

#[global] Instance apply_delta_proper d : Proper (same_view ==> same_view) (apply_delta d).
Proof.
  intros m1 m2 Hm id. unfold apply_delta. destruct (delta_reset d); [done|].
  rewrite !lookup_union. specialize (Hm id).
  rewrite !map_lookup_filter.
  destruct (delta_items d !! id), (m1 !! id), (m2 !! id); simpl in *; try done;
    by case_guard.
Qed.

(** *** The invariant of the revisions *)

Record well_formed (cap : Z) (s : State) : Prop := {
  wf_seq : 0 <= seq s <= i64_max;
  wf_reset : reset s <= seq s;
  wf_items : forall id i, items s !! id = Some i -> revision i <= seq s;
  wf_removed : forall id r, removed s !! id = Some r -> r <= seq s;
  wf_disjoint : forall id i, items s !! id = Some i -> removed s !! id = None;
  wf_tombstones : Z.of_nat (size (removed s)) <= cap;
  wf_open : closed s = false }.

(** [base] was the registry's content at revision [since]: every difference since then is
    recorded by a revision, a tombstone or the reset mark. *)
Record tracks (base : gmap string ItemProgress) (since : Z) (s : State) : Prop := {
  tr_seq : since <= seq s;
  tr_items : forall id i, items s !! id = Some i ->
    since < revision i \/ exists i0, base !! id = Some i0 /\ bridge arch i0 = bridge arch i;
  tr_removed : forall id, items s !! id = None ->
    base !! id = None \/ since < reset s \/ exists r, removed s !! id = Some r /\ since < r }.

(** The empty registry and the client that has just read everything. *)
Lemma new_well_formed : well_formed 512 new.
Proof. split; simpl; try done. Qed.

Lemma tracks_refl s : tracks (items s) (seq s) s.
Proof. split; [lia|eauto|eauto]. Qed.

Definition sound_cap (cap : Z) (base : gmap string ItemProgress) (since : Z) (s : State) : Prop :=
  well_formed cap s /\ tracks base since s.
Definition sound := sound_cap 512.

Context (base : gmap string ItemProgress) (since : Z).

Lemma seq_next s : seq s + 1 <= i64_max -> 0 <= seq s -> wrap_i64 (seq s + 1) = seq s + 1.
Proof. intros ? ?. apply wrap_i_small; [done|]. unfold in_i, i64_max in *. lia. Qed.

Lemma sound_start s id :
  seq s + 1 <= i64_max -> sound base since s -> sound base since (start s id).2.
Proof.
  intros Hb [[] []]. unfold start, check. rewrite wf_open0. simpl.
  split; split; simpl; rewrite ?seq_next by lia; try done; try lia.
  - intros id' i [[<- <-]|[_ Hi%wf_items0]]%lookup_insert_Some; simpl; lia.
  - intros id' r [_ Hr%wf_removed0]%lookup_delete_Some. lia.
  - intros id' i [[<- <-]|[? Hi]]%lookup_insert_Some; [apply lookup_delete_eq|].
    rewrite lookup_delete_ne by done. eauto.
  - rewrite map_size_delete. destruct (removed s !! id); simpl; lia.
  - intros id' i [[<- <-]|[_ Hi]]%lookup_insert_Some; simpl; [left; lia|eauto].
  - intros id' [Hi ?]%lookup_insert_None. rewrite lookup_delete_ne by done. eauto.
Qed.

Lemma sound_update s id f :
  seq s + 1 <= i64_max -> (forall i, revision (f i) = revision i) ->
  sound base since s -> sound base since (update arch s id f).2.
Proof.
  intros Hb Hf [[] []]. unfold update, check. rewrite wf_open0.
  destruct (items s !! id) as [i|] eqn:Hi; [|by split; split].
  case_bool_decide as Hbr; split; split; simpl; rewrite ?seq_next by lia; try done; try lia.
  - intros id' j [[<- <-]|[_ Hj]]%lookup_insert_Some; [rewrite Hf|]; eauto.
  - intros id' j [[<- <-]|[_ Hj]]%lookup_insert_Some; eauto.
  - intros id' j [[<- <-]|[_ Hj]]%lookup_insert_Some; [rewrite Hf, Hbr|]; eauto.
  - intros id' [Hj ?]%lookup_insert_None. eauto.
  - intros id' j [[<- <-]|[_ Hj%wf_items0]]%lookup_insert_Some; simpl; lia.
  - intros id' r Hr%wf_removed0. lia.
  - intros id' j [[<- <-]|[_ Hj]]%lookup_insert_Some; eauto.
  - intros id' j [[<- <-]|[_ Hj]]%lookup_insert_Some; simpl; [left; lia|eauto].
  - intros id' [Hj ?]%lookup_insert_None. eauto.
Qed.

(** Pruning drops at least the median tombstone, and none that a listener could still need. *)
Lemma sound_prune s : sound_cap 513 base since s -> sound base since (prune s).
Proof.
  intros [[] []]. unfold prune. case_bool.
  2: { split; split; try done. lia. }
  set (revs := merge_sort Z.le (map snd (map_to_list (removed s)))).
  assert (length revs = size (removed s)) as Hlen.
  { unfold revs. rewrite merge_sort_Permutation, length_map. apply length_map_to_list. }
  destruct (lookup_lt_is_Some_2 revs (length revs / 2)) as [cutoff Hc].
  { apply Nat.div_lt; lia. }
  rewrite Hc. simpl default.
  assert (exists id, removed s !! id = Some cutoff) as [idc Hidc].
  { apply list_elem_of_lookup_2 in Hc. unfold revs in Hc.
    rewrite merge_sort_Permutation in Hc. apply list_elem_of_fmap in Hc as ([id r] & -> & Hin).
    exists id. by apply elem_of_map_to_list. }
  split; split; simpl; try done.
  - apply wf_removed0 in Hidc. lia.
  - intros id r [Hr _]%map_lookup_filter_Some. eauto.
  - intros id i Hi. apply map_lookup_filter_None. left. eauto.
  - assert (size (filter (fun p => (cutoff < p.2)%Z) (removed s)) < size (removed s))%nat; [|lia].
    apply map_subset_size. split; [apply map_filter_subseteq|]. intros Hsub.
    eapply lookup_weaken in Hidc; [|exact Hsub].
    apply map_lookup_filter_Some in Hidc as [_ ?]. simpl in *. lia.
  - intros id Hi. destruct (tr_removed0 id Hi) as [?|[?|(r & Hr & ?)]]; [by left|right; left; lia|].
    destruct (decide (cutoff < r)).
    + right; right. exists r. split; [|done]. by apply map_lookup_filter_Some.
    + right; left. lia.
Qed.

Lemma sound_remove_one s id changed :
  seq s + 1 <= i64_max -> sound base since s -> sound base since (remove_one (s, changed) id).1.
Proof.
  intros Hb [[] []]. unfold remove_one. destruct (items s !! id) as [i|] eqn:Hi.
  2: { split; split; done. }
  match goal with |- context [prune ?x] => assert (sound_cap 513 base since x) as Hp end.
  - split; split; simpl; rewrite ?seq_next by lia; try done; try lia.
    + intros id' j [_ Hj%wf_items0]%lookup_delete_Some. lia.
    + intros id' r [[<- <-]|[_ Hr%wf_removed0]]%lookup_insert_Some; lia.
    + intros id' j [? Hj]%lookup_delete_Some. rewrite lookup_insert_ne by done. eauto.
    + rewrite map_size_insert. destruct (removed s !! id); simpl; lia.
    + intros id' j [_ Hj]%lookup_delete_Some. eauto.
    + intros id' Hj. destruct (decide (id = id')) as [<-|Hne].
      * right; right. exists (seq s + 1). rewrite lookup_insert_eq. split; [done|lia].
      * rewrite lookup_delete_ne in Hj by done. destruct (tr_removed0 id' Hj) as [?|[?|(r & Hr & ?)]]; [by left|by right; left|].
        right; right. exists r. by rewrite lookup_insert_ne.
  - apply sound_prune in Hp as [[] []]. by split; split.
Qed.

#[global] Arguments remove_one : simpl never.

Lemma prune_seq s : seq (prune s) = seq s.
Proof. unfold prune. by case_bool. Qed.

Lemma remove_one_seq s id changed : seq s + 1 <= i64_max -> 0 <= seq s ->
  seq s <= seq (remove_one (s, changed) id).1 <= seq s + 1.
Proof.
  intros. unfold remove_one. destruct (items s !! id); simpl; [|lia].
  rewrite prune_seq. simpl. rewrite seq_next; lia.
Qed.

Lemma sound_remove_fold ids s changed :
  seq s + len ids <= i64_max -> sound base since s ->
  sound base since (foldl remove_one (s, changed) ids).1
  /\ seq s <= seq (foldl remove_one (s, changed) ids).1 <= seq s + len ids.
Proof.
  revert s changed. unfold len. induction ids as [|id ids IH]; intros s changed Hb Hs; simpl in *.
  { split; [done|lia]. }
  pose proof (sound_remove_one s id changed ltac:(lia) Hs) as Hs'.
  pose proof (remove_one_seq s id changed ltac:(lia) (proj1 (wf_seq _ _ (proj1 Hs)))) as Hq.
  destruct (remove_one (s, changed) id) as [s' changed']. simpl in *.
  destruct (IH s' changed') as [? ?]; [lia|done|]. split; [done|lia].
Qed.

Lemma update_seq s id f : seq s + 1 <= i64_max -> 0 <= seq s ->
  seq s <= seq (update arch s id f).2 <= seq s + 1.
Proof.
  intros. unfold update. destruct (check s); [|simpl; lia].
  destruct (items s !! id); [|simpl; lia]. case_bool_decide; simpl; [lia|]. rewrite seq_next; lia.
Qed.

Lemma cost_nonneg o : 0 <= cost o.
Proof. destruct o; simpl; unfold len; lia. Qed.

Lemma sound_run s o :
  seq s + cost o <= i64_max -> sound base since s ->
  sound base since (run s o) /\ seq s <= seq (run s o) <= seq s + cost o.
Proof.
  intros Hb Hs. pose proof (wf_seq _ _ (proj1 Hs)) as Hq.
  destruct (item_update o) as [[id f]|] eqn:E.
  - rewrite (run_update _ _ _ _ E).
    assert (cost o = 1) as Hc by (by destruct o). rewrite Hc in *. split.
    + apply sound_update; [done| |done]. intros i. by eapply update_keeps_revision.
    + apply update_seq; lia.
  - destruct o as [id| | | | | | | |ids|]; simplify_eq/=.
    + split; [by apply sound_start|]. unfold start. destruct (check s); simpl; [|lia].
      rewrite seq_next; lia.
    + unfold remove_many. destruct (check s); simpl; [|unfold len; split; [done|lia]].
      destruct (sound_remove_fold ids s false) as [Hs' Hq']; [done..|].
      destruct (foldl remove_one (s, false) ids) as [s' []]; simpl in *; [|done].
      split; [|done]. destruct Hs' as [[] []]. by split; split.
    + unfold snapshot. destruct (check s); simpl; [|split; [done|lia]].
      destruct (dirty s); [|simpl; split; [done|lia]]. destruct (all_finite (items s)); simpl;
        split; try lia; try done. destruct Hs as [[] []]. by split; split.
Qed.

Lemma cost_all_nonneg os : 0 <= cost_all os.
Proof. induction os as [|o os IH]; simpl; [lia|]. pose proof (cost_nonneg o). lia. Qed.

Lemma sound_run_all s os :
  seq s + cost_all os <= i64_max -> sound base since s ->
  sound base since (run_all s os) /\ seq s <= seq (run_all s os) <= seq s + cost_all os.
Proof.
  revert s. induction os as [|o os IH]; intros s Hb Hs; simpl in *; [split; [done|lia]|].
  pose proof (cost_all_nonneg os).
  destruct (sound_run s o) as [Hs' Hq]; [lia|done|].
  destruct (IH (run s o)) as [? ?]; [lia|done|]. split; [done|lia].
Qed.

End history.

(** ** Correctness of the delta protocol *)

Section protocol.
Context (arch : Arch) (json_snapshot : list (string * ItemProgress) -> string).
Local Notation "m1 ≅ m2" := (same_view arch m1 m2) (at level 70).
Local Notation run_all := (run_all arch json_snapshot).

(** The states reached from the empty registry within [n] revisions. *)
Definition history_to (os : list op) (n : Z) (s : State) : Prop :=
  run_all new os = s /\ cost_all os <= n.

Lemma history_sound os n s :
  history_to os n s -> n <= i64_max -> well_formed 512 s /\ 0 <= seq s <= n.
Proof.
  intros [<- Hn] Hmax.
  destruct (sound_run_all arch json_snapshot (items new) (seq new) new os) as [[Hwf _] Hq].
  - simpl. lia.
  - split; [apply new_well_formed|apply tracks_refl].
  - split; [done|]. simpl in Hq. lia.
Qed.

Lemma delta_document_spec base since s :
  sound arch base since s -> 
  match delta_document s since with
  | Some d => delta_seq d = seq s /\ apply_delta d base ≅ items s
  | None => (seq s = since /\ base ≅ items s)
            \/ exists id i, items s !! id = Some i /\ finite i = false
  end.
Proof.
  intros [[] []]. unfold delta_document. case_bool.
  { left. assert (seq s = since) as Heq by lia. split; [done|]. intros id.
    destruct (items s !! id) as [i|] eqn:Hi.
    - destruct (tr_items0 id i Hi) as [?|(i0 & -> & Hbr)]; [|simpl; by rewrite Hbr].
      apply wf_items0 in Hi. lia.
    - destruct (tr_removed0 id Hi) as [->|[?|(r & Hr%wf_removed0 & ?)]]; [done|lia..]. }
  set (rs := (since <=? 0) || (since <? reset s)). case_bool_decide as Hfin.
  2: { right. apply map_not_Forall in Hfin as (id & i & Hi & Hnf); [|apply _].
       apply map_lookup_filter_Some in Hi as [Hi _]. exists id, i. split; [done|].
       by destruct (finite i). }
  split; [done|]. unfold apply_delta. simpl. destruct rs eqn:Hrs.
  { intros id. rewrite map_lookup_filter. by destruct (items s !! id). }
  apply orb_false_iff in Hrs as [Hpos Hreset]. intros id. rewrite lookup_union, !map_lookup_filter.
  destruct (items s !! id) as [i|] eqn:Hi; simpl.
  - assert (id ∉ btree_keys (filter (fun p => since < p.2) (removed s))) as Hnot.
    { rewrite elem_of_btree_keys. intros [r [Hr _]%map_lookup_filter_Some].
      apply wf_disjoint0 in Hi. congruence. }
    case_guard as Hg; simpl; [by rewrite union_Some_l|].
    destruct (tr_items0 id i Hi) as [?|(i0 & -> & Hbr)]; [exfalso; apply Hg; by right|].
    simpl. case_guard; [|done]. simpl. by rewrite Hbr.
  - destruct (base !! id) as [i0|] eqn:Hb; [|done]. simpl.
    assert (id ∈ btree_keys (filter (fun p => since < p.2) (removed s))) as Hin.
    { apply elem_of_btree_keys.
      destruct (tr_removed0 id Hi) as [?|[?|(r & Hr & ?)]]; [congruence|lia|].
      exists r. by apply map_lookup_filter_Some. }
    case_guard; done.
Qed.

(** C28: listeners converge.  Take any listener whose view of the items was right when the registry
    was at revision [seq s0]; let any further operations run.  The delta since that revision, when
    one is produced, carries the current revision and turns the view into the current items, as
    far as a listener can tell; when none is produced, either nothing visible has changed, or some
    item holds a non-finite number. *)
Theorem progress_delta_sync (os0 os : list op) (n : Z) (s0 s1 : State)
  (view : gmap string ItemProgress)
  (H0 : history_to os0 n s0) (H1 : run_all s0 os = s1) (Hn : n + cost_all os <= i64_max)
  (Hview : view ≅ items s0) :
  match delta_document s1 (seq s0) with
  | Some d => delta_seq d = seq s1 /\ apply_delta d view ≅ items s1
  | None => (seq s1 = seq s0 /\ view ≅ items s1)
            \/ exists id i, items s1 !! id = Some i /\ finite i = false
  end.
Proof.
  pose proof (cost_all_nonneg os) as Hc.
  destruct (history_sound os0 n s0 H0) as [Hwf Hq]; [lia|].
  destruct (sound_run_all arch json_snapshot (items s0) (seq s0) s0 os) as [Hs _];
    [lia|split; [done|apply tracks_refl]|].
  rewrite H1 in Hs. pose proof (delta_document_spec _ _ _ Hs) as Hd.
  destruct (delta_document s1 (seq s0)) as [d|].
  - destruct Hd as [? Hd]. split; [done|]. by rewrite Hview.
  - destruct Hd as [[? Hd]|?]; [left|by right]. split; [done|]. by rewrite Hview.
Qed.

(** The cached snapshot, when it is current, shows what a listener would see. *)
Definition cache_ok (s : State) : Prop :=
  dirty s = false -> exists m, cached s = json_snapshot (btree_iter m) /\ m ≅ items s.

Lemma cache_prune s : dirty (prune s) = dirty s.
Proof. unfold prune. by case_bool. Qed.

Lemma remove_one_dirty s id changed : dirty (remove_one (s, changed) id).1 = true.
Proof. unfold remove_one. by destruct (items s !! id). Qed.

Lemma cache_ok_update s id f : cache_ok s -> cache_ok (update arch s id f).2.
Proof.
  unfold update. destruct (check s); [|done]. destruct (items s !! id) as [i|] eqn:Hi; [|done].
  intros Hc. case_bool_decide as Hbr; [|intros Hd; done].
  intros Hd. destruct (Hc Hd) as (m & Hm & Heq). exists m. split; [done|]. etrans; [exact Heq|].
  intros id'. simpl. destruct (decide (id = id')) as [<-|].
  - rewrite lookup_insert_eq, Hi. simpl. by rewrite Hbr.
  - by rewrite lookup_insert_ne.
Qed.

Lemma cache_ok_run s o : cache_ok s -> cache_ok (run arch json_snapshot s o).
Proof.
  intros Hc. destruct (item_update o) as [[id f]|] eqn:E.
  { rewrite (run_update _ _ _ _ _ _ E). by apply cache_ok_update. }
  destruct o as [id| | | | | | | |ids|]; simplify_eq/=.
  - unfold start. destruct (check s); [|done]. intros Hd. done.
  - unfold remove_many. destruct (check s); [|done].
    assert (forall changed, cache_ok s -> cache_ok (foldl remove_one (s, changed) ids).1) as Hf.
    { clear Hc. revert s. induction ids as [|id ids IH]; intros s changed Hc; [done|]. simpl.
      destruct (remove_one (s, changed) id) as [s' changed'] eqn:E. apply IH. intros Hd.
      pose proof (remove_one_dirty s id changed) as Ht. rewrite E in Ht. simpl in Ht. congruence. }
    specialize (Hf false Hc). by destruct (foldl remove_one (s, false) ids) as [s' []].
  - unfold snapshot. destruct (check s); [|done]. destruct (dirty s) eqn:Hd; [|done].
    destruct (all_finite (items s)); [|done]. intros _. exists (items s). done.
Qed.

(** The snapshot text is always current.  After any history, an open registry whose items
    are finite answers with the serialization of a map that no listener can tell from the current
    items, whether or not the text came from the cache. *)
Theorem snapshot_current (os : list op) (n : Z) (s : State)
  (Hs : history_to os n s) (Hn : n <= i64_max) (Hfin : all_finite (items s) = true) :
  exists m, (snapshot json_snapshot s).1 = Ok (json_snapshot (btree_iter m)) /\ m ≅ items s.
Proof.
  destruct (history_sound os n s Hs Hn) as [Hwf _]. destruct Hs as [<- _].
  assert (cache_ok (run_all new os)) as Hc.
  { assert (cache_ok new) as Hnew by (intros Hd; done). revert Hnew. generalize new as s0.
    clear. unfold run_all. induction os as [|o os IH]; intros s0 Hc; [done|].
    simpl. by apply IH, cache_ok_run. }
  unfold snapshot, check. rewrite (wf_open _ _ Hwf). destruct (dirty _) eqn:Hd.
  - rewrite Hfin. exists (items (run_all new os)). done.
  - destruct (Hc Hd) as (m & -> & Hm). eauto.
Qed.

(** An update is published exactly when a listener could notice it.  On a running item the
    update applies [f]; if the bridge state changed the item gets a fresh revision greater than
    every other, the snapshot is invalidated and the listeners are woken, and otherwise neither
    the revision counter, the cache nor the condition variable is touched.  An unknown id is
    ignored. *)
Theorem update_published_iff_visible (os : list op) (n : Z) (s : State) (id : string) (o : op)
  (f : ItemProgress -> ItemProgress) (Hs : history_to os n s) (Hn : n + 1 <= i64_max)
  (Ho : item_update o = Some (id, f)) :
  let s' := run arch json_snapshot s o in
  match items s !! id with
  | None => s' = s
  | Some i =>
    exists i', items s' = <[id := i']> (items s) /\ bridge arch i' = bridge arch (f i)
    /\ if decide (bridge arch (f i) = bridge arch i)
       then seq s' = seq s /\ revision i' = revision i /\ notified s' = notified s
            /\ dirty s' = dirty s
       else seq s' = seq s + 1 /\ revision i' = seq s' /\ notified s' = S (notified s)
            /\ dirty s' = true /\ forall id2 i2, items s !! id2 = Some i2 -> revision i2 < revision i'
  end.
Proof.
  destruct (history_sound os n s Hs) as [Hwf Hq]; [lia|]. intros s'. subst s'.
  rewrite (run_update _ _ _ _ _ _ Ho). unfold update, check. rewrite (wf_open _ _ Hwf).
  destruct (items s !! id) as [i|]; [|done]. case_bool_decide as Hbr; simpl.
  - exists (f i). rewrite decide_True by done. split_and!; try done.
    by eapply update_keeps_revision.
  - exists (with_revision (f i) (wrap_i64 (seq s + 1))). rewrite decide_False by done.
    rewrite seq_next by lia. split_and!; try done.
    intros id2 i2 Hi2%(wf_items _ _ Hwf). simpl. lia.
Qed.

End protocol.

(** ** A concrete history *)

Section demo.
Let js (_ : list (string * ItemProgress)) : string := "snapshot".
Definition demo_before : list op := [OStart "a"; OStart "b"].
Definition demo_after : list op := [OReceived "a" 200000; ORemove ["b"%string; "c"%string]].
Definition demo_s0 : State := run_all OtherArch js new demo_before.
Definition demo_s1 : State := run_all OtherArch js demo_s0 demo_after.

Lemma progress_delta_sync_witness :
  exists d, delta_document demo_s1 (seq demo_s0) = Some d /\ delta_seq d = seq demo_s1
  /\ delta_removed d = ["b"%string]
  /\ same_view OtherArch (apply_delta d (items demo_s0)) (items demo_s1).
Proof.
  eexists. split; [vm_compute; reflexivity|].
  pose proof (progress_delta_sync OtherArch js demo_before demo_after 10 demo_s0 demo_s1
    (items demo_s0)) as H.
  destruct H as [? ?]; [split; [vm_compute; reflexivity|vm_compute; discriminate]|reflexivity|
    vm_compute; discriminate|reflexivity|].
  split; [done|]. split; [reflexivity|done].
Defined.

Lemma snapshot_current_witness :
  exists m, (snapshot js demo_s1).1 = Ok (js (btree_iter m))
  /\ same_view OtherArch m (items demo_s1).
Proof.
  refine (snapshot_current OtherArch js (demo_before ++ demo_after) 10 demo_s1 _ _ _).
  - split; [vm_compute; reflexivity|vm_compute; discriminate].
  - vm_compute; discriminate.
  - vm_compute; reflexivity.
Defined.

Lemma update_published_iff_visible_witness :
  exists i', items (run OtherArch js demo_s0 (OReceived "a" 200000))
             = <["a"%string := i']> (items demo_s0).
Proof.
  pose proof (update_published_iff_visible OtherArch js demo_before 10 demo_s0 "a"
    (OReceived "a" 200000) (set_received_item 200000)) as H.
  destruct H as (i' & H & _); [split; [reflexivity|vm_compute; discriminate]|
    vm_compute; discriminate|reflexivity|].
  exists i'. exact H.
Defined.
End demo.

(** * Progress reporters: [crates/core/src/progress/reporter.rs] and
    [crates/extensions/src/download/progress.rs]

    The throttled reporter of network transfers, the target that owns it, and the writer adapter
    that checks for cancellation before it forwards a write.  Instants are nanoseconds; the inner
    [Write] is a parameter. *)

(** ** [ItemTransferProgressReporter] *)

Record ReportState := mkReport { received : Z; report_total : Z; report_at_time : Z }.

Record ItemTransferProgressReporter := mkReporter { reporter_id : string; report_state : ReportState }.

Section reporter.
Context (arch : Arch).

Definition new_reporter (id : string) (rcv tot now : Z) : ItemTransferProgressReporter :=
  mkReporter id (mkReport rcv tot now).

Definition report_interval : Z := 250 * 1000000.

Definition report_at (r : ItemTransferProgressReporter) (p : State) (rcv tot now : Z)
  : ItemTransferProgressReporter * State :=
  if is_empty (reporter_id r) then (r, p)
  else
    let st := report_state r in
    let delta := wrap_i64 (rcv - received st) in
    if (0 <=? delta) && (delta <? UPDATE_BYTES) && (tot =? report_total st)
       && (sat_sub now (report_at_time st) <? report_interval)
    then (r, p)
    else
      (mkReporter (reporter_id r) (mkReport rcv tot now),
       if 0 <? tot
       then (set_progress arch p (reporter_id r) (f64_div (f64_of rcv) (f64_of tot)) rcv tot).2
       else (set_received arch p (reporter_id r) rcv).2).

(** ** [ItemProgressTarget] *)

Record ItemProgressTarget := mkTarget { target_id : string; track : bool }.

Definition target_start (t : ItemProgressTarget) (p : State) : State :=
  if is_empty (target_id t) then p else (downloading arch p (target_id t)).2.

(** [bytes as i64] wraps. *)
Definition target_set (t : ItemProgressTarget) (p : State) (pr : f64) (bytes tot : Z)
  : State :=
  if track t && negb (is_empty (target_id t))
  then (set_progress arch p (target_id t) pr (wrap_i64 bytes) tot).2 else p.

Definition target_received (t : ItemProgressTarget) (p : State) (bytes : Z)
  : State :=
  if track t && negb (is_empty (target_id t)) && (0 <? bytes)
  then (set_received arch p (target_id t) (wrap_i64 bytes)).2 else p.

Definition target_initial (t : ItemProgressTarget) (p : State) (bytes tot : Z)
  : State :=
  if 0 <? tot then target_set t p (f64_div (f64_of bytes) (f64_of tot)) bytes tot
  else target_received t p bytes.

Definition target_reporter (t : ItemProgressTarget) (bytes tot now : Z)
  : ItemTransferProgressReporter :=
  new_reporter (if track t then target_id t else ""%string) (wrap_i64 bytes) tot now.

(** ** [ItemProgressWriter] *)

Section writer.
Context {W : Type} (inner_write : W -> bytes -> W * result Z string).

Record ItemProgressWriter := mkWriter {
  inner : W; writer_id : string; current : Z; last_reported : Z; last_time : Z; last_bytes : Z }.

Definition new_writer (w : W) (id : string) (now : Z) : ItemProgressWriter :=
  mkWriter w id 0 0 now 0.

(** [Duration::as_secs_f64] of a number of nanoseconds. *)
Definition as_secs_f64 (ns : Z) : f64 :=
  f64_add (f64_of (ns / 1000000000)) (f64_div (f64_of (ns mod 1000000000)) (f64_of 1000000000)).

Definition write_speed (moved elapsed_ns : Z) : f64 :=
  let elapsed := as_secs_f64 elapsed_ns in
  if f64_gt elapsed (f64_of 0)
  then f64_div (f64_div (f64_of moved) (f64_of (1024 * 1024))) elapsed else f64_of 0.

(** Whether the request of [id] may go on: [is_cancelled] of its registry. *)
Definition write_guard (c : Cancellation.Registry) (id : string) : result unit string :=
  if is_empty id then Ok tt
  else match is_cancelled c id with
       | Ok true => Err "download cancelled"%string
       | Err e => Err (error_message e)
       | Ok false => Ok tt
       end.

Definition write (c : Cancellation.Registry) (w : ItemProgressWriter) (p : State)
  (data : bytes) (now : Z) : result Z string * ItemProgressWriter * State :=
  match write_guard c (writer_id w) with
  | Err e => (Err e, w, p)
  | Ok _ =>
    match inner_write (inner w) data with
    | (i, Err e) =>
      (Err e, mkWriter i (writer_id w) (current w) (last_reported w) (last_time w) (last_bytes w), p)
    | (i, Ok count) =>
      let current := wrap_i64 (current w + count) in
      if (last_reported w =? 0) || (UPDATE_BYTES <=? wrap_i64 (current - last_reported w)) then
        let speed := write_speed (wrap_i64 (current - last_bytes w)) (sat_sub now (last_time w)) in
        (Ok count, mkWriter i (writer_id w) current current now current,
         (set_received_with_speed arch p (writer_id w) current speed).2)
      else (Ok count, mkWriter i (writer_id w) current (last_reported w) (last_time w) (last_bytes w), p)
    end
  end.

(** A sequence of writes, at their instants and with the cancellation registry of the moment;
    the writer stops at the first error, as [io::copy] does. *)
Fixpoint write_all (w : ItemProgressWriter) (p : State)
  (chunks : list (Cancellation.Registry * bytes * Z))
  : result unit string * ItemProgressWriter * State :=
  match chunks with
  | [] => (Ok tt, w, p)
  | (c, data, now) :: chunks =>
    match write c w p data now with
    | (Err e, w, p) => (Err e, w, p)
    | (Ok _, w, p) => write_all w p chunks
    end
  end.

End writer.
End reporter.
Arguments ItemProgressWriter : clear implicits.

(** ** Properties *)

Section properties.
Context (arch : Arch) {W : Type} (inner_write : W -> bytes -> W * result Z string).

(** Nothing reaches the inner writer of a cancelled request, nor the progress of its item, from
    the first write after the cancellation on. *)
Lemma write_cancelled c w p data now :
  writer_id w <> ""%string -> is_cancelled c (writer_id w) <> Ok false ->
  exists e, write arch inner_write c w p data now = (Err e, w, p).
Proof.
  intros Hid Hc. unfold write, write_guard. rewrite (proj2 (is_empty_false _)) by done.
  destruct (is_cancelled c (writer_id w)) as [[]|]; [by eexists|done|by eexists].
Qed.

Lemma write_keeps_id c w p data now res w' p' :
  write arch inner_write c w p data now = (res, w', p') -> writer_id w' = writer_id w.
Proof.
  unfold write. destruct (write_guard _ _); [|by intros [= _ <- _]].
  destruct (inner_write _ _) as [i []]; [case_bool|]; by intros [= _ <- _].
Qed.

(** A cancellation stops a download writer for good.  In a sequence of writes where the
    request of the writer's id is cancelled (or the registry is closed) from the [k]-th write on,
    the inner writer receives exactly the first [k] chunks at most: the outcome, the inner
    writer and the progress registry are those of the prefix, and if the prefix succeeded the
    sequence ends in an error. *)
Theorem writer_stops_at_cancellation (w : ItemProgressWriter W) (p : State)
  (before after : list (Cancellation.Registry * bytes * Z))
  (Hid : writer_id w <> ""%string) (Hne : after <> [])
  (Hcancel : Forall (fun x => is_cancelled x.1.1 (writer_id w) <> Ok false) after) :
  let '(r1, w1, p1) := write_all arch inner_write w p before in
  let '(r2, w2, p2) := write_all arch inner_write w p (before ++ after) in
  w2 = w1 /\ p2 = p1 /\ is_ok r2 = false.
Proof.
  revert w p Hid Hcancel. induction before as [|[[c data] now] before IH]; intros w p Hid Hcancel.
  - destruct after as [|[[c data] now] after]; [done|]. inversion Hcancel as [|? ? Hc _]; subst.
    simpl in *. by destruct (write_cancelled c w p data now Hid Hc) as [e ->].
  - simpl. destruct (write arch inner_write c w p data now) as [[[n|e] w'] p'] eqn:E; [|done].
    apply write_keeps_id in E. apply IH; by rewrite E.
Qed.

(** Throttled reports lose at most one window.  After a report for a tracked item, either the
    registry has been told exactly this report, or the numbers it was last told are of the same
    total, less than [UPDATE_BYTES] behind and less than 250 ms old. *)
Theorem report_throttled (r : ItemTransferProgressReporter) (p : State)
  (rcv tot now : Z) (Hid : reporter_id r <> ""%string)
  (Hr : in_i 63 rcv) (Hs : in_i 63 (received (report_state r))) :
  let '(r', p') := report_at arch r p rcv tot now in
  (report_state r' = mkReport rcv tot now
   /\ p' = (if 0 <? tot
            then (set_progress arch p (reporter_id r) (f64_div (f64_of rcv) (f64_of tot)) rcv tot).2
            else (set_received arch p (reporter_id r) rcv).2))
  \/ (r' = r /\ p' = p /\ report_total (report_state r) = tot
      /\ 0 <= rcv - received (report_state r) < UPDATE_BYTES
      /\ now - report_at_time (report_state r) < report_interval).
Proof.
  unfold report_at. rewrite (proj2 (is_empty_false _)) by done.
  rewrite (wrap_i_small 64) by (done || (unfold in_i in *; simpl in *; lia)).
  case_bool; [right|by left]. unfold sat_sub in *.
  split_and!; (done || lia).
Qed.

End properties.

(** ** Concrete runs *)

Definition log_write (w : list bytes) (data : bytes) : list bytes * result Z string :=
  (w ++ [data], Ok (len data)).

Lemma writer_stops_at_cancellation_witness :
  (write_all OtherArch log_write (new_writer [] "a" 0) new
    [(Cancellation.new Download, [1; 2], 5);
     ((cancel (Cancellation.new Download) "a").2, [3], 6)]).1.2
  = mkWriter [[1; 2]] "a" 2 2 5 2.
Proof.
  exact (proj1 (writer_stops_at_cancellation OtherArch log_write (new_writer [] "a" 0) new
    [(Cancellation.new Download, [1; 2], 5)]
    [((cancel (Cancellation.new Download) "a").2, [3], 6)]
    ltac:(done) ltac:(done) ltac:(repeat constructor; vm_compute; discriminate))).
Defined.

Lemma report_throttled_witness :
  (report_at OtherArch (new_reporter "a" 0 1000000 0) new 65536 1000000 1000).1
  = new_reporter "a" 0 1000000 0.
Proof.
  pose proof (report_throttled OtherArch (new_reporter "a" 0 1000000 0) new
    65536 1000000 1000 ltac:(done) ltac:(split; vm_compute; (reflexivity || discriminate))
    ltac:(split; vm_compute; (reflexivity || discriminate))) as H.
  vm_compute in H |- *. destruct H as [[H _]|[H _]]; [discriminate H|reflexivity].
Defined.
