(* ===== verification/CastProto.v ===== *)
(** * Cast v2 channel framing: [crates/cast/src/proto.rs]

    A message is a protobuf with four string fields behind a 4-byte big-endian length.  Encoding
    and decoding are total functions on bytes; [Message::decode] reads with fuel, one unit per
    field, and the length of the input is enough since every field consumes at least one byte. *)

From S2P Require Import Prelude.

Record Message := mkMessage {
  source : string; destination : string; namespace : string; payload : string }.

(** ** Variable-length integers of at most 64 bits *)

(** [while value >= 0x80] runs at most nine times on a [u64]. *)
Fixpoint put_varint_loop (fuel : nat) (value : Z) : bytes :=
  match fuel with
  | O => []
  | S fuel =>
    if 128 <=? value
    then Z.lor (wrap_u 8 value) 128 :: put_varint_loop fuel (Z.shiftr value 7)
    else [wrap_u 8 value]
  end.
Definition put_varint (value : Z) : bytes := put_varint_loop 10 value.

(** The loop over [(0..64).step_by(7)]; [<< shift] drops the bits above 64. *)
Fixpoint varint_loop (shifts : list Z) (value : Z) (l : bytes) : option (Z * bytes) :=
  match shifts with
  | [] => None
  | shift :: shifts =>
    match l with
    | [] => None
    | byte :: rest =>
      let value := Z.lor value (wrap_u 64 (Z.shiftl (Z.land byte 127) shift)) in
      if byte <? 128 then Some (value, rest) else varint_loop shifts value rest
    end
  end.
Definition varint (l : bytes) : option (Z * bytes) :=
  varint_loop [0; 7; 14; 21; 28; 35; 42; 49; 56; 63] 0 l.

(** ** Encoding *)

Definition field (number : Z) (value : bytes) : bytes :=
  put_varint (Z.lor (Z.shiftl number 3) 2) ++ put_varint (len value) ++ value.

Definition encode_body (m : Message) : bytes :=
  [8; 0] ++ field 2 (str_bytes (source m)) ++ field 3 (str_bytes (destination m))
  ++ field 4 (str_bytes (namespace m)) ++ [40; 0] ++ field 6 (str_bytes (payload m)).

Definition encode (m : Message) : bytes :=
  let body := encode_body m in be_bytes 4 (wrap_u 32 (len body)) ++ body.

(** ** Decoding *)

Inductive DecodeError := MalformedCastMessage.

(** The text of a length-delimited field, stored by field number. *)
Definition set_text (m : Message) (number : Z) (value : bytes) : result Message DecodeError :=
  let text := match from_utf8 value with Some s => Ok s | None => Err MalformedCastMessage end in
  if number =? 2 then let? s := text in Ok (mkMessage s (destination m) (namespace m) (payload m))
  else if number =? 3 then let? s := text in Ok (mkMessage (source m) s (namespace m) (payload m))
  else if number =? 4 then let? s := text in Ok (mkMessage (source m) (destination m) s (payload m))
  else if number =? 6 then let? s := text in Ok (mkMessage (source m) (destination m) (namespace m) s)
  else Ok m.

Definition ok_or {A} (o : option A) : result A DecodeError :=
  match o with Some a => Ok a | None => Err MalformedCastMessage end.

(** One pass of the loop of [decode]: one field. *)
Definition decode_field (m : Message) (l : bytes) : result (Message * bytes) DecodeError :=
  let? (key, l) := ok_or (varint l) in
  let wire := Z.land key 7 in
  if wire =? 0 then
    let? (_, l) := ok_or (varint l) in Ok (m, l)
  else if wire =? 2 then
    let? (n, l) := ok_or (varint l) in
    let? value := ok_or (get_to l n) in
    let? m := set_text m (Z.shiftr key 3) value in
    Ok (m, drop (Z.to_nat n) l)
  else if wire =? 5 then let? l := ok_or (get_from l 4) in Ok (m, l)
  else if wire =? 1 then let? l := ok_or (get_from l 8) in Ok (m, l)
  else Err MalformedCastMessage.

(** [None]: out of fuel. *)
Fixpoint decode_loop (fuel : nat) (m : Message) (l : bytes) : option (result Message DecodeError) :=
  match l with
  | [] => Some (Ok m)
  | _ =>
    match fuel with
    | O => None
    | S fuel =>
      match decode_field m l with
      | Ok (m, l) => decode_loop fuel m l
      | Err e => Some (Err e)
      end
    end
  end.

Definition empty_message : Message := mkMessage "" "" "" "".
Definition decode (l : bytes) : option (result Message DecodeError) :=
  decode_loop (length l) empty_message l.

Example heartbeat_frame :
  decode (drop 4 (encode (mkMessage "sender-0" "receiver-0"
    "urn:x-cast:com.google.cast.tp.heartbeat" "{}")))
  = Some (Ok (mkMessage "sender-0" "receiver-0" "urn:x-cast:com.google.cast.tp.heartbeat" "{}")).
Proof. vm_compute. reflexivity. Qed.

(** ** Varints *)

Lemma byte_low7 v : 0 <= v -> Z.land (Z.lor (wrap_u 8 v) 128) 127 = v mod 128.
Proof.
  intros Hv. unfold wrap_u. change 127 with (2 ^ 7 - 1). rewrite land_ones_mod by done.
  change 128 with (2 ^ 7). rewrite <- !Z.land_ones, Z.land_lor_distr_l by done.
  change (Z.land (2 ^ 7) (Z.ones 7)) with 0. rewrite Z.lor_0_r, <- Z.land_assoc. done.
Qed.

Lemma byte_high_bit v : 0 <= v -> 128 <= Z.lor (wrap_u 8 v) 128 < 256.
Proof.
  intros Hv. unfold wrap_u. assert (0 <= v mod 2 ^ 8 < 2 ^ 8) by (apply Z.mod_pos_bound; done).
  change (2 ^ 8) with 256 in *. set (x := v mod 256) in *. clearbody x. split.
  - assert (Z.testbit (Z.lor x 128) 7 = true) as Hb by (rewrite Z.lor_spec; apply orb_true_r).
    destruct (decide (Z.lor x 128 < 128)); [|lia]. exfalso.
    assert (0 <= Z.lor x 128) by (apply Z.lor_nonneg; lia).
    rewrite <- (Z.mod_small (Z.lor x 128) (2 ^ 7)), Z.mod_pow2_bits_high in Hb; [done|lia|].
    change (2 ^ 7) with 128. lia.
  - change 256 with (2 ^ 8). apply Z.log2_lt_cancel.
    rewrite Z.log2_lor, Z.log2_pow2 by lia. apply Z.max_lub_lt; [|done].
    destruct (decide (x = 0)) as [->|]; [done|]. apply Z.log2_lt_pow2; lia.
Qed.

(** The groups still to come, for a value of fewer than [7 * length shifts + 1] bits. *)
Fixpoint steps_of (shift : Z) (n : nat) : list Z :=
  match n with O => [] | S n => shift :: steps_of (shift + 7) n end.

Lemma varint_chunk acc x shift :
  0 <= shift -> 0 <= acc < 2 ^ shift -> 0 <= x -> x * 2 ^ shift < 2 ^ 64 ->
  Z.lor acc (wrap_u 64 (Z.shiftl x shift)) = acc + x * 2 ^ shift.
Proof.
  intros Hs Hacc Hx Hb. rewrite wrap_u_small.
  - by apply lor_disjoint.
  - rewrite Z.shiftl_mul_pow2 by done. unfold in_u. nia.
Qed.

Lemma varint_loop_put n fuel shift acc v rest :
  0 <= shift -> (0 < n <= fuel)%nat -> 0 <= acc < 2 ^ shift -> 0 <= v -> v * 2 ^ shift < 2 ^ 64 ->
  v < 2 ^ (7 * Z.of_nat n) ->
  varint_loop (steps_of shift n) acc (put_varint_loop fuel v ++ rest)
  = Some (acc + v * 2 ^ shift, rest).
Proof.
  revert fuel shift acc v. induction n as [|n IH]; intros fuel shift acc v Hs Hf Hacc Hv H64 Hn; [lia|].
  destruct fuel as [|fuel]; [lia|]. simpl. destruct (128 <=? v) eqn:Hbig.
  - apply Z.leb_le in Hbig. simpl.
    assert (Z.lor (wrap_u 8 v) 128 <? 128 = false) as -> by (pose proof (byte_high_bit v Hv); lia).
    assert (0 < 2 ^ shift) by (apply Z.pow_pos_nonneg; lia).
    assert (v = 128 * (v / 128) + v mod 128) by (apply Z.div_mod; lia).
    assert (0 <= v mod 128 < 128) by (apply Z.mod_pos_bound; lia).
    assert (0 < v / 128) by (apply Z.div_str_pos; lia).
    rewrite byte_low7, varint_chunk by nia.
    change 7 with (7 * 1) at 2. rewrite Z.shiftr_div_pow2 by done. change (2 ^ (7 * 1)) with 128.
    assert (2 ^ (shift + 7) = 2 ^ shift * 128) as E by (rewrite Z.pow_add_r by lia; done).
    assert (2 ^ (7 * Z.of_nat (S n)) = 128 * 2 ^ (7 * Z.of_nat n)) as E'.
    { replace (7 * Z.of_nat (S n)) with (7 + 7 * Z.of_nat n) by lia.
      rewrite Z.pow_add_r by lia. done. }
    rewrite E' in Hn.
    destruct n as [|n]; [exfalso; change (2 ^ (7 * Z.of_nat 0)) with 1 in *; lia|].
    rewrite IH; rewrite ?E; [|nia..|lia]. f_equal. f_equal. nia.
  - apply Z.leb_gt in Hbig. simpl.
    assert (wrap_u 8 v = v) as -> by (apply wrap_u_small; unfold in_u; lia).
    rewrite (proj2 (Z.ltb_lt v 128)) by lia.
    change 127 with (2 ^ 7 - 1). rewrite land_ones_mod, (Z.mod_small v) by (done || lia).
    by rewrite varint_chunk.
Qed.

Lemma varint_put v rest : in_u 64 v -> varint (put_varint v ++ rest) = Some (v, rest).
Proof.
  unfold in_u. intros Hv.
  change (varint (put_varint v ++ rest))
    with (varint_loop (steps_of 0 10) 0 (put_varint_loop 10 v ++ rest)).
  rewrite varint_loop_put by lia. by rewrite Z.mul_1_r.
Qed.

(** ** The decoding loop *)

Lemma varint_loop_shorter shifts acc l v rest :
  varint_loop shifts acc l = Some (v, rest) -> (length rest < length l)%nat.
Proof.
  revert acc l. induction shifts as [|s shifts IH]; intros acc l; simpl; [done|].
  destruct l as [|b l]; [done|]. case_bool; [intros [= _ <-]; simpl; lia|].
  intros H%IH. simpl. lia.
Qed.

Lemma varint_shorter l v rest : varint l = Some (v, rest) -> (length rest < length l)%nat.
Proof. apply varint_loop_shorter. Qed.

#[local] Arguments varint : simpl never.
#[local] Arguments put_varint : simpl never.

Lemma decode_field_shorter m l m' l' :
  decode_field m l = Ok (m', l') -> (length l' < length l)%nat.
Proof.
  unfold decode_field, ok_or, get_to, get_from.
  destruct (varint l) as [[key l1]|] eqn:E1; simpl; [|done].
  apply varint_shorter in E1. repeat case_bool; simpl; try done.
  - destruct (varint l1) as [[v l2]|] eqn:E2; simpl; [|done].
    apply varint_shorter in E2. intros [= _ <-]. lia.
  - destruct (varint l1) as [[n l2]|] eqn:E2; simpl; [|done].
    apply varint_shorter in E2. case_bool; simpl; [|done].
    destruct (set_text _ _ _); simpl; [|done]. intros [= _ <-]. rewrite length_drop. lia.
  - intros [= _ <-]. rewrite length_drop. lia.
  - intros [= _ <-]. rewrite length_drop. lia.
Qed.

(** Any fuel of at least the length of the input gives the same answer. *)
Lemma decode_loop_fuel f1 f2 m l :
  (length l <= f1)%nat -> (length l <= f2)%nat -> decode_loop f1 m l = decode_loop f2 m l.
Proof.
  revert f2 m l. induction f1 as [|f1 IH]; intros f2 m l H1 H2.
  { destruct l; [by destruct f2|simpl in H1; lia]. }
  destruct l as [|b l]; [by destruct f2|]. destruct f2 as [|f2]; [simpl in H2; lia|].
  cbn [decode_loop]. destruct (decode_field m (b :: l)) as [[m' l']|] eqn:E; [|done].
  apply decode_field_shorter in E. simpl in *. apply IH; lia.
Qed.

Definition decode_from (m : Message) (l : bytes) := decode_loop (length l) m l.

Lemma decode_from_eq m l :
  l <> [] ->
  decode_from m l
  = match decode_field m l with
    | Ok (m', l') => decode_from m' l'
    | Err e => Some (Err e)
    end.
Proof.
  intros Hl. unfold decode_from. destruct l as [|b l]; [done|].
  change (length (b :: l)) with (S (length l)). cbn [decode_loop].
  destruct (decode_field m (b :: l)) as [[m' l']|] eqn:E; [|done].
  apply decode_field_shorter in E. simpl in E. apply decode_loop_fuel; lia.
Qed.

Lemma decode_loop_total f m l : (length l <= f)%nat -> is_Some (decode_loop f m l).
Proof.
  revert m l. induction f as [|f IH]; intros m l Hf.
  { destruct l; [eauto|simpl in Hf; lia]. }
  destruct l as [|b l]; [eauto|]. cbn [decode_loop].
  destruct (decode_field m (b :: l)) as [[m' l']|] eqn:E; [|eauto].
  apply decode_field_shorter in E. simpl in *. apply IH. lia.
Qed.

Lemma field_key n : 0 <= n -> n * 8 + 2 < 2 ^ 64 ->
  in_u 64 (Z.lor (Z.shiftl n 3) 2) /\ Z.land (Z.lor (Z.shiftl n 3) 2) 7 = 2
  /\ Z.shiftr (Z.lor (Z.shiftl n 3) 2) 3 = n.
Proof.
  intros Hn Hb. rewrite Z.lor_comm, lor_disjoint by (done || lia). change (2 ^ 3) with 8.
  change 7 with (2 ^ 3 - 1). rewrite land_ones_mod, Z.shiftr_div_pow2 by done.
  change (2 ^ 3) with 8. unfold in_u. split_and!; [lia|lia|divmod_lia|divmod_lia].
Qed.

Lemma put_varint_nonempty v : put_varint v <> [].
Proof. unfold put_varint. cbn [put_varint_loop]. by case_bool. Qed.

Lemma get_to_app (v rest : bytes) : get_to (v ++ rest) (len v) = Some v.
Proof.
  unfold get_to, len. rewrite length_app, (proj2 (Z.leb_le _ _)) by lia.
  by rewrite Nat2Z.id, take_app_length.
Qed.

(** One field, whatever its number. *)
Lemma decode_field_field m n v rest :
  0 <= n -> n * 8 + 2 < 2 ^ 64 -> in_u 64 (len v) ->
  decode_field m (field n v ++ rest) = (let? m' := set_text m n v in Ok (m', rest)).
Proof.
  intros Hn Hb Hv. destruct (field_key n Hn Hb) as (Hk & Hwire & Hnum).
  unfold decode_field, field. rewrite <- !app_assoc, varint_put by done. simpl.
  rewrite Hwire. simpl. rewrite varint_put by done. simpl. rewrite get_to_app. simpl.
  rewrite Hnum. unfold len. by rewrite Nat2Z.id, drop_app_length.
Qed.

Lemma decode_from_field m n v rest :
  0 <= n -> n * 8 + 2 < 2 ^ 64 -> in_u 64 (len v) ->
  decode_from m (field n v ++ rest)
  = match set_text m n v with Ok m' => decode_from m' rest | Err e => Some (Err e) end.
Proof.
  intros Hn Hb Hv. rewrite decode_from_eq.
  - rewrite decode_field_field by done. by destruct (set_text m n v).
  - unfold field. by intros [[Hnil%put_varint_nonempty _]%app_eq_nil _]%app_eq_nil.
Qed.

(** A field of wire type 0 with a one-byte key, as the two enumerations of the header. *)
Lemma decode_from_enum m k rest :
  0 <= k < 128 -> Z.land k 7 = 0 -> decode_from m (k :: 0 :: rest) = decode_from m rest.
Proof.
  intros Hk Hw. rewrite decode_from_eq by done. unfold decode_field.
  assert (varint (k :: 0 :: rest) = Some (k, 0 :: rest)) as ->.
  { assert ([k] = put_varint k) as Hk'.
    { unfold put_varint. cbn [put_varint_loop]. rewrite (proj2 (Z.leb_gt 128 k)) by lia.
      by rewrite wrap_u_small by (unfold in_u; lia). }
    change (k :: 0 :: rest) with ([k] ++ 0 :: rest). rewrite Hk'.
    apply varint_put. unfold in_u. lia. }
  assert (varint (0 :: rest) = Some (0, rest)) as E0 by done.
  cbn [ok_or bind_result]. rewrite Hw, E0. done.
Qed.

Definition message_ok (m : Message) : Prop :=
  Forall (fun s => is_str s /\ in_u 64 (len (str_bytes s)))
    [source m; destination m; namespace m; payload m].

Lemma decode_encode_body m rest :
  message_ok m -> decode_from empty_message (encode_body m ++ rest) = decode_from m rest.
Proof.
  unfold message_ok. rewrite !Forall_cons. intros ([H1 L1] & [H2 L2] & [H3 L3] & [H4 L4] & _).
  unfold encode_body. rewrite <- !app_assoc. cbn [app].
  rewrite decode_from_enum by done.
  rewrite !decode_from_field by done. cbn [set_text Z.eqb Pos.eqb].
  rewrite (from_utf8_str _ H1). cbn [bind_result].
  rewrite !decode_from_field by done. cbn [set_text Z.eqb Pos.eqb].
  rewrite (from_utf8_str _ H2). cbn [bind_result].
  rewrite !decode_from_field by done. cbn [set_text Z.eqb Pos.eqb].
  rewrite (from_utf8_str _ H3). cbn [bind_result].
  rewrite decode_from_enum by done.
  rewrite !decode_from_field by done. cbn [set_text Z.eqb Pos.eqb].
  rewrite (from_utf8_str _ H4). cbn [bind_result]. by destruct m.
Qed.

(** a frame read back is the message that was written, and its 4-byte prefix announces
    exactly the bytes of the body that follow, for every message of Rust strings whose body fits
    a 32-bit length. *)
Theorem cast_round_trip (m : Message) (Hm : message_ok m) (Hlen : len (encode_body m) < 2 ^ 32) :
  decode (drop 4 (encode m)) = Some (Ok m)
  /\ from_be (take 4 (encode m)) = len (drop 4 (encode m)).
Proof.
  unfold encode.
  rewrite (drop_app_length' (be_bytes 4 _)), (take_app_length' (be_bytes 4 _))
    by (by rewrite be_bytes_length).
  split.
  - change (decode (encode_body m)) with (decode_from empty_message (encode_body m)).
    rewrite <- (app_nil_r (encode_body m)). by rewrite decode_encode_body.
  - rewrite from_be_be_bytes. change (256 ^ Z.of_nat 4) with (2 ^ 32).
    unfold wrap_u. rewrite Z.mod_mod by done. apply Z.mod_small. unfold len in *. lia.
Qed.

(** decoding always answers, and appending fields no sender writes (of any number other than
    2, 3, 4 and 6, and any content, valid text or not) to an encoded message changes nothing. *)
Theorem cast_unknown_fields_skipped (m : Message) (unknown : list (Z * bytes))
  (Hm : message_ok m)
  (Hu : Forall (fun f => 0 <= f.1 /\ f.1 * 8 + 2 < 2 ^ 64 /\ f.1 ∉ [2; 3; 4; 6]
                         /\ in_u 64 (len f.2)) unknown) :
  decode (encode_body m ++ concat (map (fun f => field f.1 f.2) unknown)) = Some (Ok m)
  /\ forall l, is_Some (decode l).
Proof.
  split; [|intros l; by apply decode_loop_total].
  change (decode ?l) with (decode_from empty_message l). rewrite decode_encode_body by done.
  clear Hm. induction Hu as [|[n v] unknown (Hn & Hb & Hni & Hv) _ IH]; [done|].
  simpl in *. rewrite decode_from_field by done. unfold set_text.
  repeat (case_bool; [exfalso; apply Hni; set_solver by lia|]). exact IH.
Qed.

(** ** A concrete message *)

Definition demo_message : Message := mkMessage "sender-0" "receiver-0" "urn:x" "{}".

Lemma cast_round_trip_witness : decode (drop 4 (encode demo_message)) = Some (Ok demo_message).
Proof.
  refine (proj1 (cast_round_trip demo_message _ _)); [|vm_compute; reflexivity].
  repeat constructor; vm_compute; (reflexivity || discriminate).
Defined.

Lemma cast_unknown_fields_skipped_witness :
  decode (encode_body demo_message ++ concat [field 7 [255]; field 2048 []]) = Some (Ok demo_message).
Proof.
  refine (proj1 (cast_unknown_fields_skipped demo_message [(7, [255]); (2048, [])] _ _)).
  - repeat constructor; vm_compute; (reflexivity || discriminate).
  - repeat constructor; simpl; try set_solver; vm_compute; (reflexivity || discriminate).
Defined.
