(* ===== verification/UsbFraming.v ===== *)
(** * USB transfer framing: [crates/mobile/src/usb_audio/framing.rs]

    [finish_transfer] completes a partially filled transfer with the silence of its encoding and,
    for DoP, writes the alternating marker into every sample.  A Rust panic (a slice or a chunk
    size out of range) is [None]. *)

From S2P Require Import Prelude.

(** [UsbOutputFormat] of [usb_audio.rs]. *)
Record UsbOutputFormat := mkFormat {
  sample_rate : Z; channels : Z; bits : Z; subslot : Z; encoding : string }.

(** [bytes[real_bytes..].fill(v)] *)
Definition fill_from (l : bytes) (n : Z) (v : Z) : option bytes :=
  if n <=? len l then Some (take (Z.to_nat n) l ++ replicate (length l - Z.to_nat n) v) else None.

(** The body of the inner loop, on one sample of [subslot] bytes. *)
Definition mark_sample (slot : nat) (marker : Z) (sample : bytes) : bytes :=
  let sample := <[(slot - 1)%nat := marker]> sample in
  if (slot =? 4)%nat then <[0%nat := 0]> sample else sample.

(** [chunks_exact_mut(n)], [n > 0]: the first [n] bytes, while there are that many. *)
Fixpoint mark_frame (fuel slot : nat) (marker : Z) (l : bytes) : bytes :=
  match fuel with
  | O => l
  | S fuel =>
    if (slot <=? length l)%nat
    then mark_sample slot marker (take slot l) ++ mark_frame fuel slot marker (drop slot l)
    else l
  end.

Fixpoint mark_frames (fuel slot frame : nat) (marker : Z) (l : bytes) : bytes * Z :=
  match fuel with
  | O => (l, marker)
  | S fuel =>
    if (frame <=? length l)%nat then
      let chunk := take frame l in
      let '(rest, m) := mark_frames fuel slot frame (Z.lxor marker 255) (drop frame l) in
      (mark_frame (length chunk) slot marker chunk ++ rest, m)
    else (l, marker)
  end.

Definition finish_transfer (l : bytes) (real_bytes : Z) (format : UsbOutputFormat) (marker : Z)
  : option (bytes * Z) :=
  match fill_from l real_bytes (if String.eqb (encoding format) "pcm" then 0 else 105) with
  | None => None
  | Some l =>
    if String.eqb (encoding format) "dop" then
      let slot := Z.to_nat (subslot format) in
      let frame := (slot * Z.to_nat (channels format))%nat in
      if (frame =? 0)%nat then None
      else Some (mark_frames (length l) slot frame marker l)
    else Some (l, marker)
  end.

Example markers_alternate :
  let f := mkFormat 176400 2 24 3 "dop" in
  finish_transfer [1; 2; 0; 3; 4; 0] 6 f 5 = Some ([1; 2; 5; 3; 4; 5], 250)
  /\ finish_transfer (replicate 12 0) 0 f 250
     = Some ([105; 105; 250; 105; 105; 250; 105; 105; 5; 105; 105; 5], 250).
Proof. done. Qed.

(** ** What the markers look like *)

(** The marker after [n] frames. *)
Definition marker_after (n : nat) (marker : Z) : Z :=
  if Nat.even n then marker else Z.lxor marker 255.

Lemma marker_after_S n marker : marker_after n (Z.lxor marker 255) = marker_after (S n) marker.
Proof.
  unfold marker_after. rewrite Nat.even_succ, <- Nat.negb_even.
  destruct (Nat.even n); [done|]. simpl. by rewrite Z.lxor_assoc, Z.lxor_nilpotent, Z.lxor_0_r.
Qed.

(** Byte [j] of a sample of [slot] bytes. *)
Definition sample_byte (slot j : nat) (marker b : Z) : Z :=
  if (slot =? 4)%nat && (j =? 0)%nat then 0 else if (j =? slot - 1)%nat then marker else b.

Lemma mark_sample_lookup slot marker s j b :
  s !! j = Some b -> (0 < slot)%nat ->
  mark_sample slot marker s !! j = Some (sample_byte slot j marker b).
Proof.
  intros Hj Hs. assert (j < length s)%nat by (by eapply lookup_lt_Some).
  unfold mark_sample, sample_byte.
  destruct (Nat.eqb_spec slot 4), (Nat.eqb_spec j 0), (Nat.eqb_spec j (slot - 1)); simpl; try lia;
    rewrite ?list_lookup_insert, ?length_insert; repeat case_decide; subst; (done || lia || tauto).
Qed.

Lemma mark_sample_length slot marker s : length (mark_sample slot marker s) = length s.
Proof. unfold mark_sample. case_bool; by rewrite ?length_insert. Qed.

Lemma mark_frame_length fuel slot marker l : length (mark_frame fuel slot marker l) = length l.
Proof.
  revert l. induction fuel as [|fuel IH]; intros l; simpl; [done|].
  destruct (Nat.leb_spec slot (length l)); [|done].
  rewrite length_app, mark_sample_length, IH, length_take, length_drop. lia.
Qed.

(** [i] is beyond the first chunk of [n] bytes: its index in the rest. *)
Lemma chunk_step n i k :
  (0 < n)%nat -> (n <= i < S k * n)%nat ->
  (i - n < k * n)%nat /\ (i / n = S ((i - n) / n))%nat /\ (i mod n = (i - n) mod n)%nat.
Proof.
  intros Hn Hi. replace i with (i - n + 1 * n)%nat by lia.
  rewrite Nat.div_add, Nat.Div0.mod_add by lia.
  replace (i - n + 1 * n - n)%nat with (i - n)%nat by lia. split_and!; lia.
Qed.

Lemma chunks_of_drop n l (x : bytes) :
  (0 < n <= length x)%nat -> l = drop n x -> (length x / n = S (length l / n))%nat.
Proof.
  intros Hn ->. rewrite length_drop.
  replace (length x) with (length x - n + 1 * n)%nat at 1 by lia. rewrite Nat.div_add by lia. lia.
Qed.

Lemma mark_frame_lookup fuel slot marker l i b :
  (0 < slot)%nat -> (length l <= fuel)%nat -> (i < length l / slot * slot)%nat -> l !! i = Some b ->
  mark_frame fuel slot marker l !! i = Some (sample_byte slot (i mod slot) marker b).
Proof.
  intros Hs. revert l i. induction fuel as [|fuel IH]; intros l i Hf Hi Hb.
  { apply lookup_lt_Some in Hb. lia. }
  simpl. destruct (Nat.leb_spec slot (length l)) as [Hle|Hlt].
  2: { rewrite Nat.div_small in Hi by done. lia. }
  assert (length (mark_sample slot marker (take slot l)) = slot) as Hlen
    by (rewrite mark_sample_length, length_take; lia).
  destruct (decide (i < slot)%nat) as [Hsmall|Hbig].
  - rewrite lookup_app_l by lia. rewrite Nat.mod_small by done.
    apply mark_sample_lookup; [|done]. by rewrite lookup_take_lt.
  - rewrite (chunks_of_drop slot (drop slot l) l) in Hi by done.
    destruct (chunk_step slot i (length (drop slot l) / slot)) as (? & _ & ->); [done|lia|].
    rewrite lookup_app_r, Hlen by lia. apply IH; [rewrite length_drop; lia|done|].
    rewrite lookup_drop, <- Hb. f_equal. lia.
Qed.

(** Byte [i] of a transfer of whole frames of [slot * ch] bytes. *)
Definition frame_byte (slot ch total i : nat) (marker b : Z) : Z :=
  if (i <? total / (slot * ch) * (slot * ch))%nat
  then sample_byte slot (i mod slot) (marker_after (i / (slot * ch)) marker) b
  else b.

Lemma mark_frames_spec fuel slot ch marker l :
  (0 < slot * ch)%nat -> (length l <= fuel)%nat ->
  let r := mark_frames fuel slot (slot * ch) marker l in
  length r.1 = length l
  /\ r.2 = marker_after (length l / (slot * ch)) marker
  /\ forall i b, l !! i = Some b -> r.1 !! i = Some (frame_byte slot ch (length l) i marker b).
Proof.
  intros Hf. revert marker l. induction fuel as [|fuel IH]; intros marker l Hl; simpl.
  { destruct l; simpl in *; [|lia]. rewrite Nat.Div0.div_0_l. done. }
  destruct (Nat.leb_spec (slot * ch) (length l)) as [Hle|Hlt].
  2: { simpl. unfold frame_byte. rewrite Nat.div_small by done. done. }
  specialize (IH (Z.lxor marker 255) (drop (slot * ch) l)).
  rewrite length_drop in IH. specialize (IH ltac:(lia)).
  assert (length l / (slot * ch) = S ((length l - slot * ch) / (slot * ch)))%nat as Hdiv.
  { rewrite (chunks_of_drop (slot * ch) (drop (slot * ch) l) l) by (done || lia).
    by rewrite length_drop. }
  destruct (mark_frames fuel slot (slot * ch) (Z.lxor marker 255) (drop (slot * ch) l)) as [rest m].
  simpl in *. destruct IH as (IHlen & -> & IHb).
  assert (length (take (slot * ch) l) = (slot * ch)%nat) as Htake by (rewrite length_take; lia).
  split_and!.
  - rewrite length_app, mark_frame_length, Htake, IHlen. lia.
  - by rewrite marker_after_S, Hdiv.
  - intros i b Hb. unfold frame_byte. rewrite Hdiv.
    destruct (decide (i < slot * ch)%nat) as [Hsmall|Hbig].
    + rewrite lookup_app_l by (rewrite mark_frame_length; lia).
      rewrite (proj2 (Nat.ltb_lt _ _)) by lia. rewrite (Nat.div_small i) by done.
      change (marker_after 0 marker) with marker.
      apply mark_frame_lookup; [lia|done| |by rewrite lookup_take_lt].
      rewrite Htake, (Nat.mul_comm slot ch), Nat.div_mul by lia. lia.
    + rewrite lookup_app_r by (rewrite mark_frame_length; lia). rewrite mark_frame_length, Htake.
      rewrite (IHb (i - slot * ch)%nat b) by (rewrite lookup_drop, <- Hb; f_equal; lia).
      unfold frame_byte. rewrite marker_after_S.
      set (k := ((length l - slot * ch) / (slot * ch))%nat).
      destruct (Nat.ltb_spec (i - slot * ch) (k * (slot * ch))), (Nat.ltb_spec i (S k * (slot * ch)));
        try lia; [|done].
      destruct (chunk_step (slot * ch) i k) as (_ & -> & _); [done|lia|]. 
      assert (i mod slot = (i - slot * ch) mod slot)%nat as ->; [|done].
      rewrite <- (Nat.Div0.mod_add (i - slot * ch) ch slot). f_equal. lia.
Qed.

Definition silence (format : UsbOutputFormat) : Z :=
  if String.eqb (encoding format) "pcm" then 0 else 105.

(** The content of the transfer before framing: received bytes, then silence. *)
Definition filled (l : bytes) (real_bytes : Z) (format : UsbOutputFormat) : bytes :=
  take (Z.to_nat real_bytes) l ++ replicate (length l - Z.to_nat real_bytes) (silence format).

(** A transfer is completed for every encoding without changing its length.  Received bytes
    are kept and the rest is the silence of the encoding (0 for PCM, 0x69 for DSD); under DoP the
    last byte of every sample of every whole frame is the marker, which alternates frame by frame
    through data and silence alike (and a 4-byte sample starts with a zero), and the marker left
    for the next transfer continues the alternation. *)
Theorem finish_transfer_framing (l : bytes) (real_bytes : Z) (format : UsbOutputFormat)
  (marker : Z) (Hreal : 0 <= real_bytes <= len l)
  (Hslot : 0 < subslot format) (Hch : 0 < channels format) :
  let slot := Z.to_nat (subslot format) in
  let ch := Z.to_nat (channels format) in
  exists out m, finish_transfer l real_bytes format marker = Some (out, m)
  /\ length out = length l
  /\ (encoding format <> "dop"%string -> out = filled l real_bytes format /\ m = marker)
  /\ (encoding format = "dop"%string ->
        m = marker_after (length l / (slot * ch)) marker
        /\ forall i b, filled l real_bytes format !! i = Some b ->
             out !! i = Some (frame_byte slot ch (length l) i marker b)).
Proof.
  intros slot ch. unfold finish_transfer, fill_from. rewrite (proj2 (Z.leb_le _ _)) by lia.
  fold (silence format). fold (filled l real_bytes format).
  assert (length (filled l real_bytes format) = length l) as Hlen.
  { unfold filled, len in *. rewrite length_app, length_take, length_replicate. lia. }
  destruct (String.eqb_spec (encoding format) "dop") as [Hd|Hd].
  - assert (0 < slot * ch)%nat as Hf by (subst slot ch; lia).
    fold slot ch. rewrite (proj2 (Nat.eqb_neq _ _)) by lia.
    destruct (mark_frames_spec (length (filled l real_bytes format)) slot ch marker
                (filled l real_bytes format)) as (Hl & Hm & Hb); [done..|].
    rewrite Hlen in *. destruct (mark_frames _ _ _ _ _) as [out m]; simpl in *.
    exists out, m. split_and!; [done|done|done|by intros _].
  - exists (filled l real_bytes format), marker. split_and!; done.
Qed.

Lemma finish_transfer_framing_witness :
  exists out m, finish_transfer [1; 2; 0; 3; 4; 0; 9; 9; 9; 9; 9; 9] 6
    (mkFormat 176400 2 24 3 "dop") 5 = Some (out, m) /\ length out = 12%nat.
Proof.
  destruct (finish_transfer_framing [1; 2; 0; 3; 4; 0; 9; 9; 9; 9; 9; 9] 6
    (mkFormat 176400 2 24 3 "dop") 5) as (out & m & H & Hl & _);
    [vm_compute; split; discriminate|reflexivity|reflexivity|].
  exists out, m. split; [exact H|exact Hl].
Defined.
