(* ===== verification/Coalescer.v ===== *)
(** * Single-flight coalescing: [crates/providers/src/coalescer.rs]

    The flight table a service keeps inside its state mutex.  A flight is a cell of a heap (the
    [Arc<Flight>]); its waiter count changes both under the service lock (joins) and outside it
    (a caller leaving), so the protocol is a step relation whose steps may interleave freely. *)

From S2P Require Import Prelude.

Definition MAX_FLIGHTS : Z := 64.

Section coalescer.
Context {V : Type}.

Record Flight := mkFlight { waiters : Z; flight_result : option V }.

Record Coalescer := mkCoalescer { flights : gmap string nat; active : Z }.

Abbreviation flight_heap := (gmap nat Flight).

Definition no_flight : Flight := mkFlight 0 None.
Definition get (h : flight_heap) (f : nat) : Flight := default no_flight (h !! f).

Definition set_waiters (h : flight_heap) (f : nat) (n : Z) : flight_heap :=
  <[f := mkFlight n (flight_result (get h f))]> h.

(** [Flight::new] at a fresh address, [Flight::join] and the drop of a [Waiter]. *)
Definition new_flight (h : flight_heap) (f : nat) : flight_heap := <[f := no_flight]> h.
Definition join (h : flight_heap) (f : nat) : flight_heap := set_waiters h f (waiters (get h f) + 1).
Definition drop_waiter (h : flight_heap) (f : nat) : flight_heap :=
  set_waiters h f (waiters (get h f) - 1).

(** [Flight::check]: the worker's liveness. *)
Definition flight_check (h : flight_heap) (f : nat) (closed : bool)
  (closed_message cancelled_message : string) : result unit string :=
  if closed then Err closed_message
  else if waiters (get h f) =? 0 then Err cancelled_message
  else Ok tt.

(** One poll of [Flight::wait]: the caller's check before it, the shared result, and the check
    after the result is cloned.  [None]: poll again. *)
Definition wait_poll {E} (check1 : result unit E) (shared : option V) (check2 : result unit E)
  : option (result V E) :=
  match check1 with
  | Err e => Some (Err e)
  | Ok _ =>
    match shared with
    | None => None
    | Some v => Some (match check2 with Err e => Err e | Ok _ => Ok v end)
    end
  end.

Fixpoint wait {E} (polls : list (result unit E * option V * result unit E)) : option (result V E) :=
  match polls with
  | [] => None
  | (c1, v, c2) :: polls =>
    match wait_poll c1 v c2 with Some r => Some r | None => wait polls end
  end.

Definition empty_coalescer : Coalescer := mkCoalescer ∅ 0.

Definition is_full (c : Coalescer) : bool := MAX_FLIGHTS <=? active c.

(** [try_join]: joins only while somebody still waits. *)
Definition try_join (c : Coalescer) (h : flight_heap) (key : string) : option (nat * flight_heap) :=
  match flights c !! key with
  | None => None
  | Some f => if 0 <? waiters (get h f) then Some (f, join h f) else None
  end.

Definition insert_flight (c : Coalescer) (key : string) (f : nat) : Coalescer :=
  mkCoalescer (<[key := f]> (flights c)) (active c + 1).

Definition is_current (c : Coalescer) (key : string) (f : nat) : bool :=
  match flights c !! key with Some g => (g =? f)%nat | None => false end.

Definition finish (c : Coalescer) (h : flight_heap) (key : string) (f : nat) (v : V)
  : Coalescer * flight_heap :=
  let h := <[f := mkFlight (waiters (get h f)) (Some v)]> h in
  let m := if is_current c key f then delete key (flights c) else flights c in
  (mkCoalescer m (active c - 1), h).

(** ** The protocol of the services

    A lookup joins the flight of its key, is refused when the service is full, or starts a flight
    and its worker, all under the service lock; a caller may leave at any time, holding the lock
    or not; a worker finishes its flight once.  [guards] are the [Waiter]s alive, [workers] the
    flights whose worker is running, with their keys. *)

Record Service := mkService {
  table : Coalescer; heap : flight_heap; next_flight : nat;
  guards : gmap nat nat; next_guard : nat; workers : gmap nat string }.

Definition initial : Service := mkService empty_coalescer ∅ 0 ∅ 0 ∅.

Inductive Outcome := Joined (f : nat) | Started (f : nat) | Busy.

Definition lookup_flight (s : Service) (key : string) : Outcome * Service :=
  match try_join (table s) (heap s) key with
  | Some (f, h) =>
    (Joined f, mkService (table s) h (next_flight s) (<[next_guard s := f]> (guards s))
                 (S (next_guard s)) (workers s))
  | None =>
    if is_full (table s) then (Busy, s)
    else
      let f := next_flight s in
      (Started f,
       mkService (insert_flight (table s) key f) (join (new_flight (heap s) f) f) (S f)
         (<[next_guard s := f]> (guards s)) (S (next_guard s)) (<[f := key]> (workers s)))
  end.

Definition leave (s : Service) (g f : nat) : Service :=
  mkService (table s) (drop_waiter (heap s) f) (next_flight s) (delete g (guards s))
    (next_guard s) (workers s).

Definition finish_worker (s : Service) (f : nat) (key : string) (v : V) : Service :=
  let '(t, h) := finish (table s) (heap s) key f v in
  mkService t h (next_flight s) (guards s) (next_guard s) (delete f (workers s)).

Inductive step : Service -> Service -> Prop :=
| step_lookup s key : step s (lookup_flight s key).2
| step_leave s g f : guards s !! g = Some f -> step s (leave s g f)
| step_finish s f key v : workers s !! f = Some key -> step s (finish_worker s f key v).

(** ** Invariant *)

Definition guards_of (s : Service) (f : nat) : gmap nat nat := filter (fun p => p.2 = f) (guards s).

Record invariant (s : Service) : Prop := {
  inv_active : active (table s) = Z.of_nat (size (workers s));
  inv_bound : active (table s) <= MAX_FLIGHTS;
  inv_waiters : forall f, waiters (get (heap s) f) = Z.of_nat (size (guards_of s f));
  inv_table : forall k f, flights (table s) !! k = Some f -> workers s !! f = Some k;
  inv_live : forall k f, workers s !! f = Some k -> 0 < waiters (get (heap s) f) ->
    flights (table s) !! k = Some f;
  inv_result : forall f k, workers s !! f = Some k -> flight_result (get (heap s) f) = None;
  inv_fresh : forall f, (next_flight s <= f)%nat -> heap s !! f = None /\ workers s !! f = None;
  inv_guards : forall g f, guards s !! g = Some f -> (g < next_guard s)%nat /\ (f < next_flight s)%nat }.

Lemma get_set_waiters h f n f' :
  get (set_waiters h f n) f'
  = if decide (f = f') then mkFlight n (flight_result (get h f)) else get h f'.
Proof. unfold set_waiters, get at 1. rewrite lookup_insert. by case_decide. Qed.

Lemma guards_of_insert s g f f' t h n w :
  guards s !! g = None ->
  size (guards_of (mkService t h n (<[g := f]> (guards s)) (S g) w) f')
  = ((if decide (f = f') then 1 else 0) + size (guards_of s f'))%nat.
Proof.
  intros Hg. unfold guards_of; simpl. rewrite map_filter_insert. simpl. case_decide.
  - rewrite map_size_insert_None; [done|]. apply map_lookup_filter_None. auto.
  - by rewrite delete_id.
Qed.

Lemma guards_of_delete s g f f' t h n m w :
  guards s !! g = Some f ->
  size (guards_of s f')
  = ((if decide (f = f') then 1 else 0)
     + size (guards_of (mkService t h n (delete g (guards s)) m w) f'))%nat.
Proof.
  intros Hg. unfold guards_of; simpl. rewrite map_filter_delete. case_decide as Hf.
  - subst. rewrite map_size_delete_Some.
    2: { exists f'. by apply map_lookup_filter_Some. }
    assert (size (filter (fun p : nat * nat => p.2 = f') (guards s)) <> 0%nat); [|lia].
    intros Hz%map_size_empty_iff.
    assert (filter (fun p : nat * nat => p.2 = f') (guards s) !! g = Some f') as Hin
      by (by apply map_lookup_filter_Some).
    by rewrite Hz in Hin.
  - rewrite delete_id; [done|]. apply map_lookup_filter_None. right. intros x Hx. simpl.
    by simplify_eq.
Qed.

Lemma inv_fresh_guard s : invariant s -> guards s !! next_guard s = None.
Proof.
  intros []. destruct (guards s !! next_guard s) eqn:E; [|done]. apply inv_guards0 in E. lia.
Qed.

Lemma invariant_join s key f h :
  invariant s -> try_join (table s) (heap s) key = Some (f, h) ->
  invariant (mkService (table s) h (next_flight s) (<[next_guard s := f]> (guards s))
               (S (next_guard s)) (workers s)).
Proof.
  intros Hi Ht. pose proof (inv_fresh_guard _ Hi) as Hg. unfold try_join in Ht.
  destruct (flights (table s) !! key) as [f0|] eqn:Hf; [|done]. case_bool; [|done].
  injection Ht as <- <-. destruct Hi. unfold join. split; simpl; try done.
  - intros f'. rewrite guards_of_insert, get_set_waiters by done.
    case_decide; subst; simpl; rewrite inv_waiters0; lia.
  - intros k f' Hw. rewrite get_set_waiters. case_decide; simpl; [|by apply inv_live0].
    subst. intros _. apply inv_live0; [done|lia].
  - intros f' k Hw. rewrite get_set_waiters. case_decide; simpl; [subst|]; by eapply inv_result0.
  - intros f' Hf'. destruct (inv_fresh0 f' Hf') as [? Hw]. split; [|done].
    unfold set_waiters. rewrite lookup_insert_ne; [done|]. intros ->.
    apply inv_table0 in Hf. congruence.
  - intros g f' [[<- <-]|[_ ?%inv_guards0]]%lookup_insert_Some; [|lia]. split; [lia|].
    destruct (decide (next_flight s <= f0)%nat) as [Hle|]; [|lia].
    apply inv_table0 in Hf. destruct (inv_fresh0 _ Hle). congruence.
Qed.

Lemma invariant_start s key :
  invariant s -> try_join (table s) (heap s) key = None -> is_full (table s) = false ->
  invariant (mkService (insert_flight (table s) key (next_flight s))
    (join (new_flight (heap s) (next_flight s)) (next_flight s)) (S (next_flight s))
    (<[next_guard s := next_flight s]> (guards s)) (S (next_guard s))
    (<[next_flight s := key]> (workers s))).
Proof.
  intros Hi Ht Hfull. pose proof (inv_fresh_guard _ Hi) as Hg. unfold is_full in Hfull.
  assert (forall f k, workers s !! f = Some k -> f <> next_flight s) as Hne.
  { intros f k Hw ->. destruct (inv_fresh _ Hi (next_flight s)); [done|]. congruence. }
  assert (get (join (new_flight (heap s) (next_flight s)) (next_flight s)) (next_flight s)
          = mkFlight 1 None) as Hnew.
  { unfold join. rewrite get_set_waiters, decide_True by done. unfold get, new_flight.
    by rewrite lookup_insert_eq. }
  assert (forall f, f <> next_flight s ->
    get (join (new_flight (heap s) (next_flight s)) (next_flight s)) f = get (heap s) f) as Hold.
  { intros f Hf. unfold join. rewrite get_set_waiters, decide_False by done. unfold get, new_flight.
    by rewrite lookup_insert_ne. }
  assert (forall k, workers s !! next_flight s = Some k -> False) as Hnone by (intros k Hk; by eapply Hne).
  destruct Hi. split; simpl; try done.
  - rewrite map_size_insert_None; [lia|]. by destruct (inv_fresh0 (next_flight s)).
  - lia.
  - intros f. rewrite guards_of_insert by done. case_decide as Hf.
    + subst. rewrite Hnew. simpl. assert (guards_of s (next_flight s) = ∅) as ->.
      { apply map_empty_filter_2. intros g f Hgf. simpl. intros ->. apply inv_guards0 in Hgf. lia. }
      by rewrite map_size_empty.
    + rewrite Hold by done. by rewrite inv_waiters0.
  - intros k f [[<- <-]|[_ Hf%inv_table0]]%lookup_insert_Some; [apply lookup_insert_eq|].
    rewrite lookup_insert_ne; [done|]. intros <-. by eapply Hne.
  - intros k f [[<- <-]|[? Hw]]%lookup_insert_Some; [intros _; apply lookup_insert_eq|].
    rewrite Hold by done. intros Hpos. pose proof (inv_live0 _ _ Hw Hpos) as Hf.
    rewrite lookup_insert_ne; [done|]. intros <-. unfold try_join in Ht. rewrite Hf in Ht.
    case_bool; [done|lia].
  - intros f k [[<- <-]|[? Hw]]%lookup_insert_Some; [by rewrite Hnew|]. rewrite Hold by done.
    by eapply inv_result0.
  - intros f Hf. destruct (inv_fresh0 f) as [? ?]; [lia|]. unfold join, set_waiters, new_flight.
    rewrite !lookup_insert_ne by lia. done.
  - intros g f [[<- <-]|[_ ?%inv_guards0]]%lookup_insert_Some; lia.
Qed.

Lemma invariant_leave s g f : invariant s -> guards s !! g = Some f -> invariant (leave s g f).
Proof.
  intros Hi Hg. assert (0 < waiters (get (heap s) f)) as Hpos.
  { rewrite (inv_waiters _ Hi), (guards_of_delete s g f f (table s) (heap s) 0 0 (workers s)) by done.
    rewrite decide_True by done. lia. }
  destruct Hi. split; unfold leave, drop_waiter; simpl; try done.
  - intros f'. rewrite get_set_waiters. pose proof (inv_waiters0 f') as Hw.
    rewrite (guards_of_delete s g f f' (table s) (drop_waiter (heap s) f) (next_flight s)
      (next_guard s) (workers s)) in Hw by done.
    unfold leave, drop_waiter in *. destruct (decide (f = f')); subst; simpl; lia.
  - intros k f' Hw. rewrite get_set_waiters. case_decide; simpl; [|by apply inv_live0].
    subst. intros _. by apply inv_live0.
  - intros f' k Hw. rewrite get_set_waiters. case_decide; simpl; [subst|]; by eapply inv_result0.
  - intros f' Hf'. destruct (inv_fresh0 f' Hf'). split; [|done].
    unfold set_waiters. rewrite lookup_insert_ne; [done|]. apply inv_guards0 in Hg. lia.
  - intros g' f' [_ Hg'%inv_guards0]%lookup_delete_Some. done.
Qed.

Lemma invariant_finish s f key v :
  invariant s -> workers s !! f = Some key -> invariant (finish_worker s f key v).
Proof.
  intros Hi Hw. unfold finish_worker, finish.
  set (h := <[f := _]> (heap s)).
  assert (forall f', waiters (get h f') = waiters (get (heap s) f')) as Hsame.
  { intros f'. unfold h, get. rewrite lookup_insert. by case_decide; subst. }
  assert (forall k f', (if is_current (table s) key f then delete key (flights (table s))
                        else flights (table s)) !! k = Some f' <->
                       flights (table s) !! k = Some f' /\ f' <> f) as Htable.
  { intros k f'. assert (forall k, flights (table s) !! k = Some f -> k = key) as Hown.
    { intros k' Hk'. apply (inv_table _ Hi) in Hk'. congruence. }
    unfold is_current. destruct (flights (table s) !! key) as [f0|] eqn:Hk;
      [destruct (Nat.eqb_spec f0 f) as [->|Hne]; [rewrite lookup_delete_Some|]|]; split; intros Hl;
      destruct_and?; repeat split; try done; intros ->; try congruence; naive_solver. }
  destruct Hi. split; simpl.
  - rewrite map_size_delete_Some by eauto. rewrite inv_active0.
    assert (size (workers s) <> 0%nat); [|lia].
    intros Hz%map_size_empty_iff. by rewrite Hz in Hw.
  - lia.
  - intros f'. by rewrite Hsame.
  - intros k f' [Hk Hne]%Htable. rewrite lookup_delete_ne by done. by apply inv_table0.
  - intros k f' [Hne Hk]%lookup_delete_Some. rewrite Hsame. intros Hpos. apply Htable.
    split; [by apply inv_live0|done].
  - intros f' k [Hne Hk]%lookup_delete_Some. unfold h, get. rewrite lookup_insert_ne by done.
    by eapply inv_result0.
  - intros f' Hf'. destruct (inv_fresh0 f' Hf') as [? Hn]. unfold h.
    rewrite lookup_insert_ne by (intros ->; congruence). split; [done|].
    by rewrite lookup_delete_None; right.
  - done.
Qed.

Lemma flight_step_invariant s s' : step s s' -> invariant s -> invariant s'.
Proof.
  destruct 1 as [s key|s g f Hg|s f key v Hw]; intros Hi.
  - unfold lookup_flight. destruct (try_join (table s) (heap s) key) as [[f h]|] eqn:E; simpl.
    + by eapply invariant_join.
    + destruct (is_full (table s)) eqn:Hf; [done|]. by apply invariant_start.
  - by apply invariant_leave.
  - by apply invariant_finish.
Qed.

Lemma flight_initial_invariant : invariant initial.
Proof. split; simpl; try done. Qed.

Lemma flight_steps_invariant s s' : rtc step s s' -> invariant s -> invariant s'.
Proof. induction 1; [done|]. intros. eauto using flight_step_invariant. Qed.

Lemma flight_reachable_invariant s : rtc step initial s -> invariant s.
Proof. intros Hr. eapply flight_steps_invariant; [exact Hr|apply flight_initial_invariant]. Qed.

(** ** What a lookup does *)

(** The flight a lookup of [key] may still join: its worker runs and somebody waits for it. *)
Definition joinable (s : Service) (key : string) (f : nat) : Prop :=
  workers s !! f = Some key /\ 0 < waiters (get (heap s) f).

Lemma try_join_joinable s key f h :
  invariant s -> try_join (table s) (heap s) key = Some (f, h) <->
  joinable s key f /\ h = join (heap s) f.
Proof.
  intros Hi. unfold try_join, joinable. split.
  - destruct (flights (table s) !! key) as [f0|] eqn:Hf; [|done]. case_bool; [|done].
    intros [= <- <-]. apply (inv_table _ Hi) in Hf. repeat split; [done|lia].
  - intros [[Hw Hpos] ->]. rewrite (inv_live _ Hi key f) by done. case_bool; [done|lia].
Qed.

Lemma joinable_unique s key f f' : invariant s -> joinable s key f -> joinable s key f' -> f = f'.
Proof.
  intros Hi [Hw Hp] [Hw' Hp']. apply (inv_live _ Hi) in Hw, Hw'; [|done..]. congruence.
Qed.

Lemma get_join h f f' :
  get (join h f) f' = if decide (f = f') then mkFlight (waiters (get h f) + 1) (flight_result (get h f))
                      else get h f'.
Proof. apply get_set_waiters. Qed.

(** A flight nobody waits for is out of reach of every later lookup. *)
Definition abandoned (s : Service) (f : nat) : Prop :=
  (f < next_flight s)%nat /\ waiters (get (heap s) f) = 0.

Lemma finish_waiters s f key v f' :
  waiters (get (heap (finish_worker s f key v)) f') = waiters (get (heap s) f').
Proof.
  unfold finish_worker, finish. simpl. unfold get. rewrite lookup_insert. by case_decide; subst.
Qed.

Lemma step_abandoned s s' f : step s s' -> invariant s -> abandoned s f -> abandoned s' f.
Proof.
  intros Hs Hi [Hf Hz]. destruct Hs as [s key|s g f0 Hg|s f0 key v Hw]; unfold abandoned.
  - unfold lookup_flight. destruct (try_join (table s) (heap s) key) as [[f0 h]|] eqn:E; simpl.
    + apply try_join_joinable in E as [[Hw Hpos] ->]; [|done]. rewrite get_join.
      case_decide; [subst; lia|done].
    + destruct (is_full (table s)) eqn:?; [done|]. simpl. split; [lia|]. rewrite get_join.
      case_decide; [lia|]. unfold new_flight, get. by rewrite lookup_insert_ne by done.
  - simpl. split; [done|]. unfold drop_waiter. rewrite get_set_waiters. case_decide; [|done]. subst.
    assert (0 < waiters (get (heap s) f)) as Hpos; [|lia].
    rewrite (inv_waiters _ Hi), (guards_of_delete s g f f (table s) (heap s) 0 0 (workers s)) by done.
    rewrite decide_True by done. lia.
  - rewrite finish_waiters. done.
Qed.

Lemma steps_abandoned s s' f : rtc step s s' -> invariant s -> abandoned s f -> abandoned s' f.
Proof.
  induction 1; [done|]. eauto using step_abandoned, flight_step_invariant.
Qed.

(** A flight is finished once, by its worker. *)
Definition finished (s : Service) (f : nat) (v : V) : Prop :=
  (f < next_flight s)%nat /\ flight_result (get (heap s) f) = Some v.

Lemma finish_finished s f key v :
  invariant s -> workers s !! f = Some key -> finished (finish_worker s f key v) f v.
Proof.
  intros Hi Hw. unfold finished, finish_worker, finish. simpl. split.
  - destruct (decide (f < next_flight s)%nat); [done|].
    destruct (inv_fresh _ Hi f); [lia|congruence].
  - unfold get. by rewrite lookup_insert_eq.
Qed.

Lemma step_finished s s' f v : step s s' -> invariant s -> finished s f v -> finished s' f v.
Proof.
  intros Hs Hi [Hf Hv]. destruct Hs as [s key|s g f0 Hg|s f0 key v0 Hw]; unfold finished.
  - unfold lookup_flight. destruct (try_join (table s) (heap s) key) as [[f0 h]|] eqn:E; simpl.
    + apply try_join_joinable in E as [_ ->]; [|done]. rewrite get_join. split; [done|].
      case_decide; [by subst|done].
    + destruct (is_full (table s)) eqn:?; [done|]. simpl. split; [lia|]. rewrite get_join.
      case_decide; [lia|]. unfold new_flight, get. by rewrite lookup_insert_ne by done.
  - simpl. split; [done|]. unfold drop_waiter. rewrite get_set_waiters. case_decide; [by subst|done].
  - unfold finish_worker, finish. simpl. split; [done|]. unfold get. rewrite lookup_insert.
    case_decide; [|done]. subst. by rewrite (inv_result _ Hi f key) in Hv.
Qed.

Lemma steps_finished s s' f v : rtc step s s' -> invariant s -> finished s f v -> finished s' f v.
Proof. induction 1; [done|]. eauto using step_finished, flight_step_invariant. Qed.

(** The polls of one waiter: the states in which it looks at the result, with the answers of its
    own check before and after. *)
Definition polls_in {E} (f : nat) (seen : list (result unit E * Service * result unit E)) :=
  map (fun '(c1, s, c2) => (c1, flight_result (get (heap s) f), c2)) seen.

Lemma wait_app {E} (p q : list (result unit E * option V * result unit E)) :
  wait (p ++ q) = match wait p with Some r => Some r | None => wait q end.
Proof. induction p as [|[[c1 v] c2] p IH]; [done|]. simpl. by destruct (wait_poll c1 v c2). Qed.

(** C31: One lookup of a key in a reachable state does exactly one of three things: it joins the
    running flight of the key that somebody still waits for - there is at most one - without
    starting a worker; it is refused as busy, and then all 64 workers are running and nothing
    changed; or it starts the only joinable flight of the key with itself as its one waiter. The
    running-worker count never leaves 0..64. *)
Theorem lookup_single_flight s key (Hr : rtc step initial s) :
  let '(outcome, s') := lookup_flight s key in
  0 <= active (table s) <= 64 /\ active (table s') = Z.of_nat (size (workers s')) /\
  match outcome with
  | Joined f => joinable s key f /\ (forall f', joinable s key f' -> f' = f) /\
      workers s' = workers s /\ waiters (get (heap s') f) = waiters (get (heap s) f) + 1
  | Busy => (forall f, ~ joinable s key f) /\ size (workers s) = 64%nat /\ s' = s
  | Started f => (forall f, ~ joinable s key f) /\ workers s !! f = None /\
      workers s' = <[f := key]> (workers s) /\ waiters (get (heap s') f) = 1 /\
      (forall f', joinable s' key f' <-> f' = f)
  end.
Proof.
  pose proof (flight_reachable_invariant _ Hr) as Hi. pose proof (inv_active _ Hi). pose proof (inv_bound _ Hi).
  pose proof (flight_step_invariant _ _ (step_lookup s key) Hi) as Hi'. revert Hi'. unfold lookup_flight.
  destruct (try_join (table s) (heap s) key) as [[f h]|] eqn:E.
  - apply try_join_joinable in E as [Hj ->]; [|done]. simpl. intros Hi'. unfold MAX_FLIGHTS in *.
    split_conj; [lia..|apply Hi'|done| |done|by rewrite get_join, decide_True by done].
    intros f' Hj'. exact (joinable_unique _ _ _ _ Hi Hj' Hj).
  - assert (forall f, ~ joinable s key f) as Hnone.
    { intros f Hj. assert (Some (f, join (heap s) f) = None); [|done]. rewrite <- E. symmetry.
      by apply try_join_joinable. }
    unfold MAX_FLIGHTS in *. destruct (is_full (table s)) eqn:Hfull; simpl; intros Hi'.
    + unfold is_full, MAX_FLIGHTS in Hfull. split_conj; try done; lia.
    + assert (joinable (lookup_flight s key).2 key (next_flight s)) as Hj.
      { unfold lookup_flight. rewrite E, Hfull. split; simpl; [apply lookup_insert_eq|].
        rewrite get_join, decide_True by done. unfold new_flight, get. by rewrite lookup_insert_eq. }
      unfold lookup_flight in Hj. rewrite E, Hfull in Hj. simpl in Hj.
      split_conj; [lia..|apply Hi'|done| |done| |].
      * by destruct (inv_fresh _ Hi (next_flight s)).
      * rewrite get_join, decide_True by done. unfold new_flight, get. by rewrite lookup_insert_eq.
      * intros f'. split; [|by intros ->]. intros Hj'. by eapply (joinable_unique _ _ _ _ Hi').
Qed.

(** Abandoned work is never revived: once the last waiter of a flight has left, then in every
    later state its waiter count is still zero, no lookup joins it, and the liveness check of its
    worker answers with the closed or the cancelled error. *)
Theorem abandoned_never_revived s s' f
  (Hr : rtc step initial s) (Hf : (f < next_flight s)%nat) (Hz : waiters (get (heap s) f) = 0)
  (Hs : rtc step s s') :
  waiters (get (heap s') f) = 0 /\
  (forall key s'', lookup_flight s' key <> (Joined f, s'')) /\
  forall closed m1 m2, flight_check (heap s') f closed m1 m2 = Err (if closed then m1 else m2).
Proof.
  pose proof (flight_reachable_invariant _ Hr) as Hi.
  pose proof (flight_steps_invariant _ _ Hs Hi) as Hi'.
  destruct (steps_abandoned _ _ _ Hs Hi (conj Hf Hz)) as [_ Hz']. split_conj; [done| |].
  - intros key s''. unfold lookup_flight.
    destruct (try_join (table s') (heap s') key) as [[f0 h]|] eqn:E.
    + apply try_join_joinable in E as [[_ Hpos] _]; [|done]. intros [= -> _]. lia.
    + by destruct (is_full (table s')).
  - intros closed m1 m2. unfold flight_check. rewrite Hz'. by destruct closed.
Qed.

(** When a worker finishes a flight with a value, every waiter that polls it from then on
    receives that value, whatever else runs in between: a poll in any later state whose own checks
    pass ends the wait with the value, and a failing check ends it with the caller's own error. *)
Theorem waiters_share_the_result {E} s f key v before c1 later c2
  (Hr : rtc step initial s) (Hw : workers s !! f = Some key)
  (Hlater : rtc step (finish_worker s f key v) later)
  (Hbefore : Forall (fun '(c, t, _) => c = Ok tt /\ flight_result (get (heap t) f) = None) before) :
  wait (E := E) (polls_in f (before ++ [(c1, later, c2)]))
  = Some (match c1, c2 with Err e, _ => Err e | _, Err e => Err e | _, _ => Ok v end).
Proof.
  pose proof (flight_reachable_invariant _ Hr) as Hi.
  assert (finished later f v) as [_ Hres].
  { eapply steps_finished; [done| |by eapply finish_finished].
    eapply flight_step_invariant; [|done]. by constructor. }
  unfold polls_in. rewrite map_app, wait_app. simpl. rewrite Hres.
  assert (wait (map (fun '(c1, s, c2) => (c1, flight_result (get (heap s) f), c2)) before) = None) as ->.
  { induction Hbefore as [|[[c t] c'] before [-> Hn] _ IH]; [done|]. simpl. by rewrite Hn. }
  by destruct c1, c2.
Qed.

End coalescer.

(** ** Witnesses: two callers of one key, one worker *)

Definition two_callers : Service (V := Z) :=
  (lookup_flight (lookup_flight initial "isrc").2 "isrc").2.

Lemma two_callers_reachable : rtc step initial two_callers.
Proof. eapply rtc_l; [apply step_lookup|]. eapply rtc_l; [apply step_lookup|]. apply rtc_refl. Qed.

Lemma lookup_single_flight_witness :
  rtc step initial two_callers /\ (lookup_flight two_callers "isrc").1 = Joined 0 /\
  let '(_, s') := lookup_flight two_callers "isrc" in workers s' = workers two_callers.
Proof.
  split; [apply two_callers_reachable|]. split; [vm_compute; reflexivity|].
  pose proof (lookup_single_flight two_callers "isrc" two_callers_reachable) as H.
  assert ((lookup_flight two_callers "isrc").1 = Joined 0) as E by (vm_compute; reflexivity).
  destruct (lookup_flight two_callers "isrc") as [o s']. simpl in E. subst o.
  destruct H as (_ & _ & _ & _ & H & _). exact H.
Defined.

Lemma abandoned_never_revived_witness :
  let s := leave (leave two_callers 0 0) 1 0 in
  rtc step initial s /\ waiters (get (heap s) 0) = 0 /\
  waiters (get (heap (lookup_flight s "isrc").2) 0) = 0.
Proof.
  assert (rtc step initial (leave (leave two_callers 0 0) 1 0)) as Hr.
  { etrans; [apply two_callers_reachable|].
    eapply rtc_l; [apply (step_leave _ 0%nat 0%nat); vm_compute; reflexivity|].
    eapply rtc_l; [apply (step_leave _ 1%nat 0%nat); vm_compute; reflexivity|]. apply rtc_refl. }
  split; [exact Hr|]. split; [vm_compute; reflexivity|].
  apply (abandoned_never_revived _ (lookup_flight (leave (leave two_callers 0 0) 1 0) "isrc").2 0 Hr).
  - vm_compute. lia.
  - vm_compute. reflexivity.
  - eapply rtc_l; [apply step_lookup|]. apply rtc_refl.
Defined.

Lemma waiters_share_the_result_witness :
  workers two_callers !! 0%nat = Some "isrc"%string /\
  wait (E := string) (polls_in 0 ([(Ok tt, two_callers, Ok tt)]
    ++ [(Ok tt, finish_worker two_callers 0 "isrc" 7, Ok tt)])) = Some (Ok 7).
Proof.
  split; [vm_compute; reflexivity|].
  apply (waiters_share_the_result two_callers 0 "isrc" 7 [(Ok tt, two_callers, Ok tt)] (Ok tt)
           (finish_worker two_callers 0 "isrc" 7) (Ok tt)).
  - apply two_callers_reachable.
  - vm_compute. reflexivity.
  - apply rtc_refl.
  - constructor; [|constructor]. split; vm_compute; reflexivity.
Defined.
