(* ===== verification/RateLimiter.v ===== *)
(** * The sliding-window rate limiter: [crates/providers/src/resolver/rate.rs]

    Times are nanoseconds of the monotonic clock, read while the timestamps are locked, so the
    passes of all threads form one sequence with nondecreasing times. *)

From S2P Require Import Prelude.

Section limiter.
Variables (maximum window : Z).

Abbreviation Instants := (list Z) (only parsing).

(** [Instant::duration_since] saturates at zero. *)
Definition duration_since (now stamp : Z) : Z := sat_sub now stamp.

Definition POLL : Z := 25 * 1000000.

(** The [while] that drops the stamps that left the window. *)
Fixpoint drop_expired (now : Z) (timestamps : Instants) : Instants :=
  match timestamps with
  | [] => []
  | stamp :: rest =>
    if window <=? duration_since now stamp then drop_expired now rest else timestamps
  end.

(** One pass of the loop of [RateLimiter::wait] under the lock.  [Panicked] is the [unwrap] of an
    empty queue, which only a limiter of maximum zero reaches. *)
Inductive Pass := Granted (timestamps : Instants) | Sleep (nanos : Z) (timestamps : Instants) | Panicked.

Definition pass (now : Z) (timestamps : Instants) : Pass :=
  let timestamps := drop_expired now timestamps in
  if len timestamps <? maximum then Granted (timestamps ++ [now])
  else match timestamps with
       | [] => Panicked
       | front :: _ => Sleep (Z.min (sat_sub window (duration_since now front)) POLL) timestamps
       end.

(** The whole [wait] of one thread: before each pass its check, then the time of the pass and the
    queue it finds.  [None]: the wait has not returned after these passes. *)
Fixpoint wait {E} (passes : list (result unit E * (Z * Instants))) : option (result Instants E) :=
  match passes with
  | [] => None
  | (check, (now, timestamps)) :: passes =>
    match check with
    | Err e => Some (Err e)
    | Ok _ =>
      match pass now timestamps with
      | Granted t => Some (Ok t)
      | Sleep _ _ => wait passes
      | Panicked => None
      end
    end
  end.

(** The passes of all threads in lock order: the queue and the history of grants. *)
Record Log := mkLog { queue : Instants; grants : list Z; clock : Z }.

Definition next (l : Log) (now : Z) : Log :=
  match pass now (queue l) with
  | Granted t => mkLog t (grants l ++ [now]) now
  | Sleep _ t => mkLog t (grants l) now
  | Panicked => mkLog (drop_expired now (queue l)) (grants l) now
  end.

Inductive step : Log -> Log -> Prop :=
| step_pass l now : clock l <= now -> step l (next l now).

Definition start (now : Z) : Log := mkLog [] [] now.

(** The specification: the grants of the half-open window that ends at [now]. *)
Definition recent (now : Z) (l : list Z) : list Z := filter (fun t => now - window < t) l.

Record invariant (l : Log) : Prop := {
  inv_sorted : StronglySorted Z.le (grants l);
  inv_clock : Forall (fun t => t <= clock l) (grants l);
  inv_queue : queue l = recent (clock l) (grants l);
  inv_full : len (queue l) <= maximum }.

Lemma drop_expired_recent now l :
  StronglySorted Z.le l -> Forall (fun t => t <= now) l -> drop_expired now l = recent now l.
Proof.
  intros Hs Hl. unfold recent. induction Hs as [|t l Hs IH Ht]; [done|]. simpl.
  apply Forall_cons in Hl as [Hle Hl]. unfold duration_since, sat_sub. rewrite filter_cons.
  destruct (Z.leb_spec window (Z.max 0 (now - t))); case_decide; try lia; [by apply IH|].
  f_equal. clear -Ht H. induction Ht as [|x l Hx _ IH]; [done|].
  by rewrite filter_cons_True, <- IH by lia.
Qed.

Lemma recent_recent t now l : t <= now -> recent now (recent t l) = recent now l.
Proof.
  intros Ht. unfold recent. rewrite list_filter_filter. apply list_filter_iff. intros x. lia.
Qed.

Lemma recent_sorted now l : StronglySorted Z.le l -> StronglySorted Z.le (recent now l).
Proof.
  unfold recent. induction 1 as [|t l Hs IH Ht]; [constructor|]. rewrite filter_cons.
  case_decide; [|done]. constructor; [done|]. apply Forall_forall. intros x [_ Hx]%list_elem_of_filter.
  by eapply Forall_forall in Ht.
Qed.

Lemma drop_expired_invariant l now :
  invariant l -> clock l <= now -> drop_expired now (queue l) = recent now (grants l).
Proof.
  intros Hi Hn. destruct Hi. rewrite inv_queue0, drop_expired_recent; [by apply recent_recent| |].
  - by apply recent_sorted.
  - apply Forall_forall. intros t [_ Ht]%list_elem_of_filter.
    eapply Forall_forall in inv_clock0; [|done]. lia.
Qed.

Lemma recent_length now t l : t <= now -> len (recent now l) <= len (recent t l).
Proof.
  intros Ht. rewrite <- (recent_recent t now) by done. unfold len, recent.
  pose proof (length_filter (fun x => now - window < x) (recent t l)). unfold recent in *. lia.
Qed.

Lemma next_invariant l now :
  0 < window -> invariant l -> clock l <= now -> invariant (next l now).
Proof.
  intros Hw Hi Hn. pose proof (drop_expired_invariant _ _ Hi Hn) as Hd.
  pose proof (recent_length now (clock l) (grants l) Hn) as Hlen. destruct Hi.
  rewrite <- inv_queue0 in Hlen.
  assert (Forall (fun t => t <= now) (grants l)) as Hc
    by (eapply Forall_impl; [exact inv_clock0|simpl; lia]).
  unfold next, pass. rewrite Hd. destruct (Z.ltb_spec (len (recent now (grants l))) maximum).
  - split; simpl.
    + clear -inv_sorted0 Hc. induction inv_sorted0 as [|t g Hs IH Ht]; simpl; [by repeat constructor|].
      apply Forall_cons in Hc as [? Hc]. constructor; [by apply IH|].
      apply Forall_app. split; [done|]. by repeat constructor.
    + apply Forall_app. split; [done|]. by repeat constructor.
    + unfold recent. rewrite filter_app. f_equal. simpl. rewrite filter_cons, decide_True by lia. done.
    + unfold len in *. rewrite length_app. simpl. lia.
  - destruct (recent now (grants l)) eqn:E; (split; simpl; [done|done|by rewrite E|]);
      rewrite ?E in *; unfold len in *; simpl in *; lia.
Qed.

Lemma limiter_steps_invariant l l' : 0 < window -> rtc step l l' -> invariant l -> invariant l'.
Proof.
  intros Hw. induction 1 as [|l l1 l2 Hs _ IH]; [done|]. intros Hi. apply IH.
  destruct Hs. by apply next_invariant.
Qed.

Lemma start_invariant now : 0 <= maximum -> invariant (start now).
Proof. split; simpl; try done; try constructor; unfold len; simpl; lia. Qed.

Lemma filter_window_recent now l :
  Forall (fun t => t <= now) l -> filter (fun t => now - window < t <= now) l = recent now l.
Proof.
  intros Hl. unfold recent. induction Hl as [|t l Ht _ IH]; [done|]. rewrite !filter_cons, IH.
  repeat case_decide; (done || lia).
Qed.

Lemma window_count t0 l now :
  0 < maximum -> 0 < window -> rtc step (start t0) l ->
  len (filter (fun t => now - window < t <= now) (grants l)) <= maximum.
Proof.
  intros Hm Hw Hr.
  assert (invariant l /\ len (filter (fun t => now - window < t <= now) (grants l)) <= maximum);
    [|tauto].
  assert (invariant (start t0) /\
    len (filter (fun t => now - window < t <= now) (grants (start t0))) <= maximum) as H0.
  { split; [apply start_invariant; lia|]. unfold len. simpl. lia. }
  revert H0. induction Hr as [|l l1 l2 Hs _ IH]; [done|]. intros [Hi Hn]. apply IH. clear IH.
  destruct Hs as [l t Ht]. pose proof (next_invariant _ _ Hw Hi Ht) as Hi'. split; [done|].
  destruct (decide (t <= now)) as [Hle|Hgt].
  - pose proof (inv_clock _ Hi') as Hc. assert (clock (next l t) = t) as E
      by (unfold next; by destruct (pass t (queue l))).
    rewrite E in Hc. rewrite filter_window_recent; [|eapply Forall_impl; [exact Hc|simpl; lia]].
    pose proof (recent_length now t (grants (next l t)) Hle) as Hlen.
    pose proof (inv_queue _ Hi') as Hq. rewrite E in Hq. rewrite <- Hq in Hlen.
    pose proof (inv_full _ Hi'). lia.
  - unfold next. destruct (pass t (queue l)); simpl; try done.
    rewrite filter_app, filter_cons_False, app_nil_r by lia. done.
Qed.

(** However the threads' passes interleave, the limiter never grants more than [maximum]
    requests within any [window] (any half-open interval of that length), and it is exact: a pass
    is granted precisely when fewer than [maximum] grants lie in the window that ends now; one
    that is not granted leaves the history alone and sleeps a positive time, at most 25 ms and no
    longer than until the oldest grant leaves the window; no pass panics. *)
Theorem window_never_exceeded t0 l
  (Hmax : 0 < maximum) (Hwindow : 0 < window) (Hr : rtc step (start t0) l) :
  (forall now, len (filter (fun t => now - window < t <= now) (grants l)) <= maximum) /\
  forall now, clock l <= now ->
    match pass now (queue l) with
    | Granted q => len (recent now (grants l)) < maximum /\ grants (next l now) = grants l ++ [now]
    | Sleep d q => len (recent now (grants l)) = maximum /\ grants (next l now) = grants l /\
        0 < d <= POLL /\ exists oldest, head (recent now (grants l)) = Some oldest /\
        now + d <= oldest + window
    | Panicked => False
    end.
Proof.
  split.
  - intros now. by apply window_count with t0.
  - intros now Hn. pose proof (limiter_steps_invariant _ _ Hwindow Hr (start_invariant t0 ltac:(lia))) as Hi.
    pose proof (drop_expired_invariant _ _ Hi Hn) as Hd.
    pose proof (recent_length now (clock l) (grants l) Hn) as Hlen.
    rewrite <- (inv_queue _ Hi) in Hlen. pose proof (inv_full _ Hi).
    unfold next, pass. rewrite Hd. destruct (Z.ltb_spec (len (recent now (grants l))) maximum); [done|].
    destruct (recent now (grants l)) as [|oldest q] eqn:E; [unfold len in *; simpl in *; lia|].
    assert (oldest ∈ recent now (grants l)) as [Ho Hin]%list_elem_of_filter by (rewrite E; left).
    pose proof (inv_clock _ Hi) as Hc. eapply Forall_forall in Hc; [|exact Hin]. simpl in Hc.
    unfold duration_since, sat_sub, POLL. cbn [grants]. split_conj; [lia|done|lia..|].
    exists oldest. split; [done|]. lia.
Qed.

End limiter.

Lemma window_never_exceeded_witness :
  let l := next 2 100 (next 2 100 (next 2 100 (start 0) 5) 40) 60 in
  rtc (step 2 100) (start 0) l /\ grants l = [5; 40] /\
  len (filter (fun t => 90 - 100 < t <= 90) (grants l)) <= 2.
Proof.
  assert (rtc (step 2 100) (start 0) (next 2 100 (next 2 100 (next 2 100 (start 0) 5) 40) 60)) as Hr.
  { apply (rtc_l _ _ (next 2 100 (start 0) 5)); [by apply step_pass|].
    apply (rtc_l _ _ (next 2 100 (next 2 100 (start 0) 5) 40)); [by apply step_pass|].
    apply rtc_once. by apply step_pass. }
  split; [exact Hr|]. split; [vm_compute; reflexivity|].
  apply (window_never_exceeded 2 100 0 _ ltac:(lia) ltac:(lia) Hr).
Defined.
