(* ===== verification/LinkCodec.v ===== *)
(** * Hex text and constant-time comparison: [crates/link/src/auth.rs]

    The byte-level helpers of the link server's authentication, pairing and state files. *)

From S2P Require Import Prelude.

Definition DIGITS : bytes := str_bytes "0123456789abcdef".
Definition digit (n : Z) : Z := nth (Z.to_nat n) DIGITS 0.

Definition hex (bs : bytes) : bytes :=
  flat_map (fun b => [digit (Z.shiftr b 4); digit (Z.land b 15)]) bs.

(** [u8::to_ascii_lowercase] on every byte. *)
Definition lower (b : Z) : Z := if in_range 65 90 b then b + 32 else b.
Definition to_ascii_lowercase (bs : bytes) : bytes := map lower bs.

(** [char::to_digit(16)]. *)
Definition to_digit16 (b : Z) : option Z :=
  if in_range 48 57 b then Some (b - 48)
  else if in_range 97 102 b then Some (b - 87)
  else if in_range 65 70 b then Some (b - 55)
  else None.

(** [u8::from_str_radix(_, 16)] on two bytes: a leading plus sign is accepted. *)
Definition from_str_radix16 (a b : Z) : option Z :=
  if a =? 43 then to_digit16 b
  else match to_digit16 a, to_digit16 b with
       | Some x, Some y => Some (16 * x + y)
       | _, _ => None
       end.

(** [decode_hex]: pairs of bytes; a pair that is not on character boundaries holds a byte that is
    not a hex digit, so it is refused either way. *)
Fixpoint decode_pairs (bs : bytes) : option bytes :=
  match bs with
  | [] => Some []
  | [_] => None
  | a :: b :: rest =>
    match from_str_radix16 a b with
    | None => None
    | Some x => match decode_pairs rest with None => None | Some l => Some (x :: l) end
    end
  end.

Definition decode_hex (text : bytes) : option bytes :=
  if negb (len text mod 2 =? 0) then None else decode_pairs text.

Definition constant_time_eq (left right : bytes) : bool :=
  if negb (len left =? len right) then false
  else foldl (fun diff '(a, b) => Z.lor diff (Z.lxor a b)) 0 (zip left right) =? 0.

Lemma fold_lor_zero diff (l : list (Z * Z)) :
  foldl (fun diff '(a, b) => Z.lor diff (Z.lxor a b)) diff l = 0 <->
  diff = 0 /\ Forall (fun '(a, b) => a = b) l.
Proof.
  revert diff. induction l as [|[a b] l IH]; intros diff; simpl.
  - split; [|tauto]. done.
  - rewrite IH, Z.lor_eq_0_iff, Z.lxor_eq_0_iff, Forall_cons. tauto.
Qed.

Lemma constant_time_eq_spec left right : constant_time_eq left right = true <-> left = right.
Proof.
  unfold constant_time_eq, len. destruct (Z.eqb_spec (Z.of_nat (length left)) (Z.of_nat (length right)))
    as [E|E]; simpl; [|split; [done|by intros ->]].
  rewrite Z.eqb_eq, fold_lor_zero. split; [|intros ->; split; [done|]].
  - intros [_ H]. assert (length left = length right) as E' by lia. clear E. revert right E' H.
    induction left as [|a left IH]; intros [|b right]; try done. simpl. intros [= E'].
    rewrite Forall_cons. intros [-> H]. f_equal. by apply IH.
  - clear. induction right; simpl; [done|]. by constructor.
Qed.

Lemma digit_spec n : 0 <= n < 16 ->
  to_digit16 (digit n) = Some n /\ digit n <> 43 /\ lower (digit n) = digit n.
Proof.
  intros Hn. assert (n ∈ seqZ 0 16) as Hin by (apply elem_of_seqZ; lia).
  cut (Forall (fun n => to_digit16 (digit n) = Some n /\ digit n <> 43 /\ lower (digit n) = digit n)
         (seqZ 0 16)); [|repeat constructor; done].
  rewrite Forall_forall. intros H. by apply H.
Qed.

Lemma nibbles b : byte_ok b ->
  0 <= Z.shiftr b 4 < 16 /\ 0 <= Z.land b 15 < 16 /\ 16 * Z.shiftr b 4 + Z.land b 15 = b.
Proof.
  unfold byte_ok. intros Hb. change 15 with (Z.ones 4). rewrite Z.land_ones, Z.shiftr_div_pow2 by lia.
  change (2 ^ 4) with 16. split_conj; divmod_lia.
Qed.

Lemma hex_length bs : len (hex bs) = 2 * len bs.
Proof. unfold len. induction bs as [|b bs IH]; [done|]. simpl length. lia. Qed.

Lemma hex_cons b bs : hex (b :: bs) = digit (Z.shiftr b 4) :: digit (Z.land b 15) :: hex bs.
Proof. done. Qed.

Lemma hex_lowercase bs : Forall byte_ok bs -> to_ascii_lowercase (hex bs) = hex bs.
Proof.
  unfold to_ascii_lowercase. induction 1 as [|b bs Hb _ IH]; [done|].
  rewrite hex_cons. cbn [map]. rewrite IH. destruct (nibbles b Hb) as (H1 & H2 & _).
  destruct (digit_spec _ H1) as (_ & _ & ->). destruct (digit_spec _ H2) as (_ & _ & ->). done.
Qed.

Lemma decode_hex_hex bs : Forall byte_ok bs -> decode_hex (hex bs) = Some bs.
Proof.
  intros H. unfold decode_hex. rewrite hex_length.
  assert (2 * len bs mod 2 = 0) as -> by (rewrite Z.mul_comm; by apply Z.mod_mul). simpl.
  induction H as [|b bs Hb _ IH]; [done|]. rewrite hex_cons. cbn [decode_pairs].
  destruct (nibbles b Hb) as (H1 & H2 & E). unfold from_str_radix16. destruct (digit_spec _ H1) as (-> & Hne & _).
  destruct (digit_spec _ H2) as (-> & _ & _). rewrite (proj2 (Z.eqb_neq _ _) Hne), IH, E. done.
Qed.

Lemma hex_ok bs : Forall byte_ok bs -> Forall byte_ok (hex bs).
Proof.
  assert (forall n, byte_ok (digit n)) as Hd.
  { intros n. unfold digit. destruct (nth_in_or_default (Z.to_nat n) DIGITS 0) as [Hin| ->]; [|done].
    rewrite <- list_elem_of_In in Hin. by apply (proj1 (Forall_forall byte_ok DIGITS) (str_bytes_ok _)). }
  induction 1; [constructor|]. rewrite hex_cons. by apply Forall_cons; split; [|apply Forall_cons; split].
Qed.
