(* ===== verification/LinkStore.v ===== *)
(** * The link server's persistent state and its authentication

    [crates/link/src/store.rs] and the request authentication of [crates/link/src/auth.rs]: the
    in-memory server record and device list, the two state files that mirror them, and the lookup
    of a device by its key.  A file system call that may fail takes the error it would give as an
    argument ([None]: it succeeds); serde's JSON, MD5 and the random bytes are parameters. *)

From S2P Require Import Prelude LinkCodec.

Definition SERVER_FILE : string := "server.json".
Definition DEVICES_FILE : string := "devices.json".
Definition TOUCH_INTERVAL_MS : Z := 60000.

Record ServerFile := mkServerFile { server_id : string; port : Z; server_name : string }.

Record DeviceRecord := mkDevice {
  device_id : string; device_name : string; platform : string; api_key : string;
  paired_ms : Z; last_seen_ms : option Z }.

#[export] Instance DeviceRecord_eq_dec : EqDecision DeviceRecord.
Proof. solve_decision. Defined.

Record Store := mkStore { server : ServerFile; devices : list DeviceRecord }.

Abbreviation Files := (gmap string bytes).

(** What the store relies on from serde: the JSON of a file reads back as what was written. *)
Class StateJson := {
  encode_server : ServerFile -> bytes;
  decode_server : bytes -> option ServerFile;
  encode_devices : list DeviceRecord -> bytes;
  decode_devices : bytes -> option (list DeviceRecord);
  decode_encode_server f : decode_server (encode_server f) = Some f;
  decode_encode_devices l : decode_devices (encode_devices l) = Some l }.

Section store.
Context `{StateJson}.

Definition fails {A} (e : option string) (k : result A string) : result A string :=
  match e with Some m => Err m | None => k end.

(** [read_json]: a missing file is [None]; an unreadable one is moved aside and reads as [None]. *)
Definition read_json {T} (decode : bytes -> option T) (fs : Files) (name : string)
  (read_error rename_error : option string) : result (option T * Files) string :=
  fails read_error
    match fs !! name with
    | None => Ok (None, fs)
    | Some bs =>
      match decode bs with
      | Some v => Ok (Some v, fs)
      | None => fails rename_error
                  (Ok (None, <[(name ++ ".bad")%string := bs]> (delete name fs)))
      end
    end.

(** [new_uuid]: a random version 4 UUID; [random] is what [random_bytes::<16>] gives. *)
Definition new_uuid (random : result bytes string) : result string string :=
  let? bs := random in
  let bs := <[6%nat := Z.lor (Z.land (nth 6 bs 0) 15) 64]> bs in
  let bs := <[8%nat := Z.lor (Z.land (nth 8 bs 0) 63) 128]> bs in
  let h := hex bs in
  let slice a b := bytes_to_str (take (b - a) (drop a h)) in
  Ok (slice 0 8 ++ "-" ++ slice 8 12 ++ "-" ++ slice 12 16 ++ "-" ++ slice 16 20 ++ "-"
      ++ slice 20 32)%nat%string.

(** [write_private] replaces the file as a whole or leaves it. *)
Definition write_private (fs : Files) (name : string) (bs : bytes) (e : option string)
  : result Files string := fails e (Ok (<[name := bs]> fs)).

Definition load_devices (fs : Files) (read_error rename_error : option string)
  : result (list DeviceRecord * Files) string :=
  let? (file, fs) := read_json decode_devices fs DEVICES_FILE read_error rename_error in
  Ok (default [] file, fs).

Definition save_devices (fs : Files) (l : list DeviceRecord) (e : option string)
  : result Files string := write_private fs DEVICES_FILE (encode_devices l) e.

(** The errors the calls of [Store::open] would give. *)
Record OpenErrors := mkOpenErrors {
  dir_error : option string; read_server : option string; aside_server : option string;
  write_server : option string; read_devices : option string; aside_devices : option string }.

Definition open (fs : Files) (e : OpenErrors) (random : result bytes string)
  : result (Store * Files) string :=
  fails (dir_error e)
    (let? (file, fs) := read_json decode_server fs SERVER_FILE (read_server e) (aside_server e) in
     let? (server, fs) :=
       match file with
       | Some server =>
         if negb (is_empty (server_id server)) then Ok (server, fs)
         else let? id := new_uuid random in
              let fresh := mkServerFile id 0 "" in
              let? fs := write_private fs SERVER_FILE (encode_server fresh) (write_server e) in
              Ok (fresh, fs)
       | None =>
         let? id := new_uuid random in
         let fresh := mkServerFile id 0 "" in
         let? fs := write_private fs SERVER_FILE (encode_server fresh) (write_server e) in
         Ok (fresh, fs)
       end in
     let? (devices, fs) := load_devices fs (read_devices e) (aside_devices e) in
     Ok (mkStore server devices, fs)).

(** The operations answer with their result, the store and the files afterwards. *)
Definition State : Type := Store * Files.

Definition set_server (st : State) (p : Z) (name : string) (e : option string)
  : result unit string * State :=
  let '(s, fs) := st in
  if (port (server s) =? p) && String.eqb (server_name (server s)) name then (Ok tt, st)
  else
    let updated := mkServerFile (server_id (server s)) p name in
    match write_private fs SERVER_FILE (encode_server updated) e with
    | Err m => (Err m, st)
    | Ok fs => (Ok tt, (mkStore updated (devices s), fs))
    end.

(** [find]: every key is tested, the first match is kept. *)
Definition find (s : Store) (matches : string -> bool) : option DeviceRecord :=
  foldl (fun found record =>
           if matches (api_key record) && negb (bool_decide (is_Some found))
           then Some record else found) None (devices s).

Definition commit (st : State) (updated : list DeviceRecord) (e : option string)
  : result State string :=
  let '(s, fs) := st in
  let? fs := save_devices fs updated e in Ok (mkStore (server s) updated, fs).

Definition without (id : string) (l : list DeviceRecord) : list DeviceRecord :=
  filter (fun record => device_id record <> id) l.

Definition upsert (st : State) (id name plat : string) (seen : bool) (now : Z)
  (key : result string string) (e : option string) : result DeviceRecord string * State :=
  match key with
  | Err m => (Err m, st)
  | Ok key =>
    let record := mkDevice id name plat key now (if seen then Some now else None) in
    let updated := without id (devices st.1) ++ [record] in
    match commit st updated e with
    | Err m => (Err m, st)
    | Ok st => (Ok record, st)
    end
  end.

Definition remove (st : State) (id : string) (e : option string) : result bool string * State :=
  let before := len (devices st.1) in
  let updated := without id (devices st.1) in
  if len updated =? before then (Ok false, st)
  else match commit st updated e with
       | Err m => (Err m, st)
       | Ok st => (Ok true, st)
       end.

Definition set_seen (now : Z) (r : DeviceRecord) : DeviceRecord :=
  mkDevice (device_id r) (device_name r) (platform r) (api_key r) (paired_ms r) (Some now).

Definition touch (st : State) (id : string) (now : Z) (e : option string) : State :=
  match list_find (fun r => device_id r = id) (devices st.1) with
  | None => st
  | Some (i, r) =>
    let recent := match last_seen_ms r with
                  | Some seen => wrap_i64 (now - seen) <? TOUCH_INTERVAL_MS
                  | None => false
                  end in
    if recent then st
    else match commit st (<[i := set_seen now r]> (devices st.1)) e with
         | Err _ => st
         | Ok st => st
         end
  end.

Definition stored_devices (fs : Files) (read_error rename_error : option string)
  : result (list DeviceRecord * Files) string :=
  match fs !! DEVICES_FILE with
  | None => Ok ([], fs)
  | Some _ => load_devices fs read_error rename_error
  end.

Definition revoke_stored (fs : Files) (id : string)
  (read_error rename_error write_error : option string) : result Files string :=
  let? (l, fs) := stored_devices fs read_error rename_error in
  if existsb (fun r => String.eqb (device_id r) id) l
  then save_devices fs (without id l) write_error
  else Ok fs.

(** ** Request authentication *)

Variable md5 : bytes -> bytes.

Definition MISSING : Z * string := (10, "Required parameter is missing"%string).
Definition WRONG_CREDENTIALS : Z * string := (40, "Wrong username or password"%string).
Definition INVALID_KEY : Z * string := (44, "Invalid API key"%string).

(** The first value of a parameter. *)
Definition param (params : list (string * string)) (name : string) : option string :=
  snd <$> (snd <$> list_find (fun p => p.1 = name) params).

Definition key_eq (candidate : string) (key : string) : bool :=
  constant_time_eq (str_bytes key) (str_bytes candidate).

Definition by_key (s : Store) (candidate : string) : option DeviceRecord :=
  if is_empty candidate then None else find s (key_eq candidate).

Definition token_eq (token salt : string) (key : string) : bool :=
  constant_time_eq (hex (md5 (str_bytes (key ++ salt)))) (to_ascii_lowercase (str_bytes token)).

Definition ok_or {A} (o : option A) (e : Z * string) : result A (Z * string) :=
  match o with Some a => Ok a | None => Err e end.

(** [strip_prefix]. *)
Definition strip_prefix (p s : string) : option string :=
  unchars <$> strip_list (chars p) (chars s).

Definition subsonic (s : Store) (params : list (string * string))
  : result DeviceRecord (Z * string) :=
  match param params "apiKey" with
  | Some key => ok_or (by_key s key) INVALID_KEY
  | None =>
    match param params "t", param params "s" with
    | Some token, Some salt => ok_or (find s (token_eq token salt)) WRONG_CREDENTIALS
    | _, _ =>
      match param params "p" with
      | Some password =>
        let? password :=
          match strip_prefix "enc:" password with
          | Some encoded =>
            ok_or (match decode_hex (str_bytes encoded) with
                   | Some bs => from_utf8 bs
                   | None => None
                   end) WRONG_CREDENTIALS
          | None => Ok password
          end in
        ok_or (by_key s password) WRONG_CREDENTIALS
      | None => Err MISSING
      end
    end
  end.

(** [split_once(' ')]. *)
Fixpoint split_space (l : list ascii) : option (list ascii * list ascii) :=
  match l with
  | [] => None
  | a :: l =>
    if Ascii.eqb a (ascii_of_nat 32) then Some ([], l)
    else match split_space l with Some (x, y) => Some (a :: x, y) | None => None end
  end.

(** [header]: the authorization header as text, when there is one. *)
Definition bearer (s : Store) (header : option string) : option DeviceRecord :=
  match header with
  | None => None
  | Some value =>
    match split_space (chars (trim value)) with
    | None => None
    | Some (scheme, key) =>
      if negb (bool_decide (to_ascii_lowercase (str_bytes (unchars scheme)) = str_bytes "bearer"))
      then None
      else by_key s (trim (unchars key))
    end
  end.

(** ** The store against its files *)

Definition mirrored (st : State) : Prop :=
  (exists bs, st.2 !! SERVER_FILE = Some bs /\ decode_server bs = Some (server st.1)) /\
  server_id (server st.1) <> ""%string /\
  (st.2 !! DEVICES_FILE = None /\ devices st.1 = [] \/
   exists bs, st.2 !! DEVICES_FILE = Some bs /\ decode_devices bs = Some (devices st.1)).

Inductive Op :=
| OpSetServer (p : Z) (name : string) (e : option string)
| OpUpsert (id name plat : string) (seen : bool) (now : Z) (key : result string string) (e : option string)
| OpRemove (id : string) (e : option string)
| OpTouch (id : string) (now : Z) (e : option string).

Definition apply_op (st : State) (op : Op) : State :=
  match op with
  | OpSetServer p name e => (set_server st p name e).2
  | OpUpsert id name plat seen now key e => (upsert st id name plat seen now key e).2
  | OpRemove id e => (remove st id e).2
  | OpTouch id now e => touch st id now e
  end.

Lemma new_uuid_nonempty random id : new_uuid random = Ok id -> id <> ""%string.
Proof.
  unfold new_uuid. destruct random as [bs|]; [|done]. cbn [bind_result].
  generalize (hex (<[8%nat := Z.lor (Z.land (nth 8 (<[6%nat := Z.lor (Z.land (nth 6 bs 0) 15) 64]> bs) 0) 63) 128]>
    (<[6%nat := Z.lor (Z.land (nth 6 bs 0) 15) 64]> bs))).
  intros h [= <-]. change (8 - 0)%nat with 8%nat. by destruct (bytes_to_str (take 8 (drop 0 h))).

Qed.

Lemma commit_mirrored st l e st' :
  mirrored st -> commit st l e = Ok st' ->
  mirrored st' /\ devices st'.1 = l /\ server st'.1 = server st.1.
Proof.
  destruct st as [s fs]. intros ((bs & Hs & Hd) & Hid & _). unfold commit, save_devices, write_private.
  destruct e; simpl; [done|]. intros [= <-]. split; [|done]. split; [|split; [done|]]; simpl.
  - exists bs. by rewrite lookup_insert_ne.
  - right. eexists. split; [apply lookup_insert_eq|]. apply decode_encode_devices.
Qed.

Lemma commit_err st l e m : commit st l e = Err m -> e = Some m.
Proof. destruct st as [s fs]. unfold commit, save_devices, write_private. destruct e; simpl; congruence. Qed.

Lemma apply_op_mirrored st op : mirrored st -> mirrored (apply_op st op).
Proof.
  intros Hm. destruct op as [p name e|id name plat seen now key e|id e|id now e]; simpl.
  - destruct st as [s fs]. unfold set_server. case_bool; [done|].
    destruct e; simpl; [done|]. destruct Hm as (_ & Hid & Hdev). split; [|split; [done|]]; simpl.
    + eexists. split; [apply lookup_insert_eq|]. apply decode_encode_server.
    + by rewrite lookup_insert_ne.
  - unfold upsert. destruct key as [key|]; [|done].
    destruct (commit st _ e) as [st'|] eqn:E; [|done]. simpl. by eapply commit_mirrored in E as [? _].
  - unfold remove. case_bool; [done|].
    destruct (commit st _ e) as [st'|] eqn:E; [|done]. simpl. by eapply commit_mirrored in E as [? _].
  - unfold touch. destruct (list_find _ _) as [[i r]|]; [|done].
    case_bool; [done|]. destruct (commit st _ e) as [st'|] eqn:E; [|done].
    by eapply commit_mirrored in E as [? _].
Qed.

Lemma read_json_spec {T} (decode : bytes -> option T) fs name r q v fs' :
  read_json decode fs name r q = Ok (v, fs') ->
  (forall other, other <> name -> other <> (name ++ ".bad")%string -> fs' !! other = fs !! other) /\
  match v with
  | None => fs' !! name = None
  | Some v => exists bs, fs' !! name = Some bs /\ decode bs = Some v
  end.
Proof.
  assert (name <> name ++ ".bad")%string as Hne.
  { by intros E%append_self. }
  unfold read_json, fails. destruct r; [done|]. destruct (fs !! name) as [bs|] eqn:E.
  - destruct (decode bs) eqn:Ed; [intros [= <- <-]; eauto|]. destruct q; [done|]. intros [= <- <-].
    split; [|by rewrite lookup_insert_ne, lookup_delete_eq by done].
    intros other H1 H2. by rewrite lookup_insert_ne, lookup_delete_ne by done.
  - by intros [= <- <-].
Qed.

Lemma open_mirrored fs e random st : open fs e random = Ok st -> mirrored st.
Proof.
  unfold open, fails. destruct (dir_error e); [done|].
  rewrite bind_result_ok. intros ([file fs1] & H1%read_json_spec & Ho).
  apply bind_result_ok in Ho as ([srv fs2] & H2 & Ho).
  apply bind_result_ok in Ho as ([l fs3] & H3 & [= <-]).
  apply bind_result_ok in H3 as ([devs fs4] & [Hother H3]%read_json_spec & [= <- <-]).
  assert ((exists bs, fs2 !! SERVER_FILE = Some bs /\ decode_server bs = Some srv) /\
          server_id srv <> ""%string) as [Hsrv Hid].
  { assert (forall id fs3, new_uuid random = Ok id ->
      write_private fs1 SERVER_FILE (encode_server (mkServerFile id 0 "")) (write_server e) = Ok fs3 ->
      (exists bs, fs3 !! SERVER_FILE = Some bs /\ decode_server bs = Some (mkServerFile id 0 "")) /\
      id <> ""%string) as Hfresh.
    { intros id fs5 Hu. unfold write_private, fails. destruct (write_server e); [done|]. intros [= <-].
      split; [|by eapply new_uuid_nonempty]. eexists. split; [apply lookup_insert_eq|].
      apply decode_encode_server. }
    destruct H1 as [_ H1]. destruct file as [file|]; [destruct (is_empty (server_id file)) eqn:E|];
      simpl in H2;
      [|apply is_empty_false in E; by injection H2 as <- <-|];
      apply bind_result_ok in H2 as (id & Hu & H2); apply bind_result_ok in H2 as (fs5 & Hw & [= <- <-]);
      simpl; eauto. }
  split; [|split; [done|]]; simpl.
  - destruct Hsrv as (bs & Hb & ?). exists bs. by rewrite Hother.
  - destruct devs; simpl; [right; naive_solver|by left].
Qed.

Lemma ops_mirrored st ops : mirrored st -> mirrored (foldl apply_op st ops).
Proof. revert st. induction ops; [done|]. simpl. eauto using apply_op_mirrored. Qed.

Definition no_errors : OpenErrors := mkOpenErrors None None None None None None.

Lemma open_again s fs random :
  mirrored (s, fs) -> open fs no_errors random = Ok (s, fs).
Proof.
  intros ((bs & Hb & Hd) & Hid & Hdev). simpl in *. unfold open, load_devices, read_json. simpl.
  rewrite Hb, Hd. simpl. rewrite (proj2 (is_empty_false _) Hid). simpl.
  destruct s as [srv devs]. simpl in *.
  destruct Hdev as [[-> ->]|(bs' & -> & ->)]; done.
Qed.

Definition distinct (st : State) : Prop := NoDup (map device_id (devices st.1)).

Lemma without_distinct id l : NoDup (map device_id l) -> NoDup (map device_id (without id l)).
Proof. apply NoDup_map_filter. Qed.

Lemma without_not_in id l : id ∉ map device_id (without id l).
Proof. intros (r & -> & [Hr _]%list_elem_of_filter)%list_elem_of_fmap. done. Qed.

Lemma apply_op_distinct st op : mirrored st -> distinct st -> distinct (apply_op st op).
Proof.
  unfold distinct. intros Hm Hd. destruct op as [p name e|id name plat seen now key e|id e|id now e]; simpl.
  - destruct st as [s fs]. unfold set_server. case_bool; [done|]. destruct e; done.
  - unfold upsert. destruct key as [key|]; [|done].
    destruct (commit st _ e) as [st'|] eqn:E; [|done]. simpl.
    eapply commit_mirrored in E as (_ & -> & _); [|done]. rewrite map_app. apply NoDup_app.
    split; [by apply without_distinct|]. split; [|apply NoDup_singleton].
    intros x Hx ->%list_elem_of_singleton. by eapply without_not_in.
  - unfold remove. case_bool; [done|]. destruct (commit st _ e) as [st'|] eqn:E; [|done]. simpl.
    eapply commit_mirrored in E as (_ & -> & _); [|done]. by apply without_distinct.
  - unfold touch. destruct (list_find _ _) as [[i r]|] eqn:Ef; [|done]. case_bool; [done|].
    destruct (commit st _ e) as [st'|] eqn:E; [|done].
    eapply commit_mirrored in E as (_ & -> & _); [|done].
    apply list_find_Some in Ef as (Hi & _). replace (map device_id _) with (map device_id (devices st.1)); [done|].
    rewrite list_fmap_insert. simpl. symmetry. apply list_insert_id. by rewrite list_lookup_fmap, Hi.
Qed.

Lemma apply_op_server_id st op : server_id (server (apply_op st op).1) = server_id (server st.1).
Proof.
  assert (forall l e st', commit st l e = Ok st' -> server st'.1 = server st.1) as Hc.
  { intros l e st'. destruct st as [s fs]. unfold commit, save_devices, write_private.
    destruct e; simpl; [done|]. by intros [= <-]. }
  destruct op as [p name e|id name plat seen now key e|id e|id now e]; simpl.
  - destruct st as [s fs]. unfold set_server. case_bool; [done|]. by destruct e.
  - unfold upsert. destruct key; [|done]. destruct (commit _ _ _) eqn:E; [|done]. simpl.
    by rewrite (Hc _ _ _ E).
  - unfold remove. case_bool; [done|]. destruct (commit _ _ _) eqn:E; [|done]. simpl.
    by rewrite (Hc _ _ _ E).
  - unfold touch. destruct (list_find _ _) as [[i r]|]; [|done]. case_bool; [done|].
    destruct (commit _ _ _) eqn:E; [|done]. by rewrite (Hc _ _ _ E).
Qed.

(** The state files always hold exactly the store: after a successful open and any operations,
    with any of their file system calls failing, opening again with the same files gives the same
    server record and device list and leaves the files alone; the server id is never empty and never
    changes; and device ids stay pairwise distinct when the file had them so. *)
Theorem store_durable fs e random st ops random'
  (Hopen : open fs e random = Ok st) :
  let st' := foldl apply_op st ops in
  open st'.2 no_errors random' = Ok st' /\
  server_id (server st'.1) = server_id (server st.1) /\ server_id (server st.1) <> ""%string /\
  (distinct st -> distinct st').
Proof.
  apply open_mirrored in Hopen. simpl. split_conj.
  - pose proof (ops_mirrored st ops Hopen). destruct (foldl apply_op st ops). by apply open_again.
  - clear Hopen. revert st. induction ops as [|op ops IH]; [done|]. intros st. simpl. rewrite IH.
    apply apply_op_server_id.
  - apply Hopen.
  - clear -Hopen. revert st Hopen. induction ops as [|op ops IH]; [done|]. intros st Hm Hd. simpl.
    apply IH; [by apply apply_op_mirrored|by apply apply_op_distinct].
Qed.

(** ** Authentication *)

Lemma find_spec s m : find s m = snd <$> list_find (fun r => m (api_key r) = true) (devices s).
Proof.
  unfold find.
  assert (forall l d, foldl (fun found record =>
    if m (api_key record) && negb (bool_decide (is_Some found)) then Some record else found) (Some d) l
    = Some d) as Hsome.
  { induction l as [|r l IH]; intros d; [done|]. simpl. rewrite andb_false_r. apply IH. }
  induction (devices s) as [|r l IH]; [done|]. simpl. rewrite andb_true_r.
  destruct (m (api_key r)) eqn:E.
  - rewrite Hsome. by rewrite decide_True.
  - rewrite decide_False by done. rewrite IH. by destruct (list_find _ l).
Qed.

(** A lookup that answers with the first device whose key fits [P], and with nothing if none fits. *)
Definition first (P : string -> Prop) (l : list DeviceRecord) (d : DeviceRecord) : Prop :=
  exists l1 l2, l = l1 ++ d :: l2 /\ P (api_key d) /\ Forall (fun r => ~ P (api_key r)) l1.

Definition picks (s : Store) (P : string -> Prop) (o : option DeviceRecord) : Prop :=
  match o with
  | Some d => first P (devices s) d
  | None => Forall (fun r => ~ P (api_key r)) (devices s)
  end.

Lemma first_unique P l d d' : first P l d -> first P l d' -> d = d'.
Proof.
  intros (l1 & l2 & -> & Hd & H1) (m1 & m2 & E & Hd' & H2). revert m1 E H2.
  induction l1 as [|a l1 IH]; intros [|b m1] E H2; simpl in E; injection E as -> E; [done| | |].
  - by apply Forall_cons in H2 as [].
  - by apply Forall_cons in H1 as [].
  - apply Forall_cons in H1 as [_ H1], H2 as [_ H2]. by eapply IH.
Qed.

Lemma first_some P l d : first P l d -> ~ Forall (fun r => ~ P (api_key r)) l.
Proof. intros (l1 & l2 & -> & Hd & _) [_ [? _]%Forall_cons]%Forall_app. done. Qed.

Lemma find_picks s m P : (forall k, m k = true <-> P k) -> picks s P (find s m).
Proof.
  intros Hm. rewrite find_spec. destruct (list_find _ _) as [[i r]|] eqn:E; simpl.
  - apply list_find_Some in E as (Hi & Hr & Hfirst). exists (take i (devices s)), (drop (S i) (devices s)).
    split; [by rewrite take_drop_middle|]. split; [by apply Hm|]. apply Forall_lookup. intros j d Hj.
    apply lookup_take_Some in Hj as [Hj Hlt]. intros Hd. by destruct (Hfirst j d Hj Hlt); apply Hm.
  - apply list_find_None in E. eapply Forall_impl; [exact E|]. intros d Hd HP. by apply Hd, Hm.
Qed.

Lemma picks_iff s P Q o : (forall k, P k <-> Q k) -> picks s P o -> picks s Q o.
Proof.
  intros HPQ. destruct o as [d|]; simpl.
  - intros (l1 & l2 & E & Hd & Hl). exists l1, l2. split; [done|]. split; [by apply HPQ|].
    eapply Forall_impl; [exact Hl|]. intros r Hr HQ. by apply Hr, HPQ.
  - intros Hl. eapply Forall_impl; [exact Hl|]. intros r Hr HQ. by apply Hr, HPQ.
Qed.

Lemma key_eq_spec c k : key_eq c k = true <-> k = c.
Proof.
  unfold key_eq. rewrite constant_time_eq_spec. split; [apply str_bytes_inj|by intros ->].
Qed.

Lemma by_key_picks s c : picks s (fun k => c <> ""%string /\ k = c) (by_key s c).
Proof.
  unfold by_key. destruct (is_empty c) eqn:E.
  - apply is_empty_spec in E as ->. simpl. by apply Forall_true; intros r [].
  - apply is_empty_false in E. apply find_picks. intros k. rewrite key_eq_spec. tauto.
Qed.

(** What a request shows: the key, by the first of the schemes of Subsonic whose parameters it has -
    the key itself, the hash of the key and a salt, or the key as a password, plain or in hex. *)
Definition shown (params : list (string * string)) (key : string) : Prop :=
  match param params "apiKey", param params "t", param params "s", param params "p" with
  | Some given, _, _, _ => given <> ""%string /\ key = given
  | None, Some token, Some salt, _ =>
    hex (md5 (str_bytes (key ++ salt))) = to_ascii_lowercase (str_bytes token)
  | None, _, _, Some password =>
    key <> ""%string /\
    match strip_prefix "enc:" password with
    | Some encoded => is_str key /\ decode_hex (str_bytes encoded) = Some (str_bytes key)
    | None => key = password
    end
  | None, _, _, None => False
  end.

(** The error of a request that shows no stored key. *)
Definition refusal (params : list (string * string)) : Z * string :=
  match param params "apiKey", param params "t", param params "s", param params "p" with
  | Some _, _, _, _ => INVALID_KEY
  | None, Some _, Some _, _ | None, _, _, Some _ => WRONG_CREDENTIALS
  | None, _, _, None => MISSING
  end.

Lemma from_utf8_bytes bs s : Forall byte_ok bs -> from_utf8 bs = Some s -> str_bytes s = bs.
Proof. unfold from_utf8. case_bool; [|done]. intros Hb [= <-]. by apply str_bytes_to_str. Qed.

Lemma decode_hex_ok text bs : decode_hex text = Some bs -> Forall byte_ok bs.
Proof.
  unfold decode_hex. case_bool; [done|]. clear. revert bs.
  induction text as [| |a b rest IH] using list_pair_ind; intros bs; simpl; [by intros [= <-]|done|].
  destruct (from_str_radix16 a b) as [x|] eqn:E; [|done].
  destruct (decode_pairs rest) as [l|]; [|done]. intros [= <-]. constructor; [|by apply IH].
  assert (forall c y, to_digit16 c = Some y -> 0 <= y < 16) as Hd.
  { intros c y. unfold to_digit16, in_range. repeat case_bool; intros; simplify_eq; lia. }
  unfold from_str_radix16 in E. unfold byte_ok. case_bool; [apply Hd in E; lia|].
  destruct (to_digit16 a) eqn:Ea; [|done]. destruct (to_digit16 b) eqn:Eb; [|done].
  apply Hd in Ea, Eb. injection E as <-. lia.
Qed.

Lemma from_utf8_is_str bs s : Forall byte_ok bs -> from_utf8 bs = Some s -> is_str s.
Proof.
  intros Hb E. pose proof (from_utf8_bytes _ _ Hb E) as Es. unfold is_str. rewrite Es.
  unfold from_utf8 in E. by destruct (utf8_valid bs).
Qed.

(** The password a hex text stands for. *)
Lemma encoded_password encoded u :
  match decode_hex (str_bytes encoded) with Some bs => from_utf8 bs | None => None end = Some u <->
  is_str u /\ decode_hex (str_bytes encoded) = Some (str_bytes u).
Proof.
  split.
  - destruct (decode_hex _) as [bs|] eqn:Eh; [|done]. intros Eu. apply decode_hex_ok in Eh.
    split; [by eapply from_utf8_is_str|]. by rewrite (from_utf8_bytes _ _ Eh Eu).
  - intros [Hu ->]. by apply from_utf8_str.
Qed.

Lemma ok_or_picks s P o e :
  picks s P o -> match ok_or o e with Ok d => first P (devices s) d
                 | Err e' => Forall (fun r => ~ P (api_key r)) (devices s) /\ e' = e end.
Proof. by destruct o. Qed.

Lemma password_exact s password :
  match (let? password :=
          match strip_prefix "enc:" password with
          | Some encoded =>
            ok_or (match decode_hex (str_bytes encoded) with
                   | Some bs => from_utf8 bs
                   | None => None
                   end) WRONG_CREDENTIALS
          | None => Ok password
          end in
        ok_or (by_key s password) WRONG_CREDENTIALS) with
  | Ok d => first (fun key => key <> ""%string /\
      match strip_prefix "enc:" password with
      | Some encoded => is_str key /\ decode_hex (str_bytes encoded) = Some (str_bytes key)
      | None => key = password
      end) (devices s) d
  | Err e => Forall (fun r => ~ (api_key r <> ""%string /\
      match strip_prefix "enc:" password with
      | Some encoded => is_str (api_key r) /\ decode_hex (str_bytes encoded) = Some (str_bytes (api_key r))
      | None => api_key r = password
      end)) (devices s) /\ e = WRONG_CREDENTIALS
  end.
Proof.
  destruct (strip_prefix "enc:" password) as [encoded|]; cbn [bind_result].
  - destruct (match decode_hex (str_bytes encoded) with Some bs => from_utf8 bs | None => None end)
      as [u|] eqn:E; cbn [ok_or bind_result].
    + apply encoded_password in E as [Hu Eh]. apply (ok_or_picks s (fun key => key <> ""%string /\
        is_str key /\ decode_hex (str_bytes encoded) = Some (str_bytes key))).
      eapply picks_iff; [|apply by_key_picks]. intros k. rewrite Eh. split; [intros [? ->]; done|].
      intros (Hk & _ & [= Ek]). apply str_bytes_inj in Ek. by subst.
    + split; [|done]. apply Forall_true. intros r (_ & Hr). apply encoded_password in Hr. congruence.
  - apply (ok_or_picks s (fun key => key <> ""%string /\ key = password)).
    eapply picks_iff; [|apply by_key_picks]. intros k. simpl. split; [intros [? ->]; done|intros [? ->]; done].
Qed.

Lemma subsonic_exact s params :
  match subsonic s params with
  | Ok d => first (shown params) (devices s) d
  | Err e => Forall (fun r => ~ shown params (api_key r)) (devices s) /\ e = refusal params
  end.
Proof.
  unfold subsonic, shown, refusal. destruct (param params "apiKey") as [key|].
  { apply (ok_or_picks s (fun k => key <> ""%string /\ k = key)), by_key_picks. }
  destruct (param params "t") as [token|]; [destruct (param params "s") as [salt|]|].
  { apply (ok_or_picks s (fun k => hex (md5 (str_bytes (k ++ salt))) = to_ascii_lowercase (str_bytes token))).
    apply find_picks. intros k. apply constant_time_eq_spec. }
  all: destruct (param params "p") as [password|]; [apply password_exact|].
  all: split; [by apply Forall_true; intros r []|done].
Qed.

Lemma subsonic_stored s params d : subsonic s params = Ok d -> d ∈ devices s.
Proof.
  intros E. pose proof (subsonic_exact s params) as Hd. rewrite E in Hd.
  destruct Hd as (l1 & l2 & -> & _). rewrite elem_of_app. right. left.
Qed.

(** The ways of a request to show a key: as itself, as a salted token, as a password, plain or in hex. *)
Lemma schemes_shown key salt :
  key <> ""%string -> is_str key -> strip_prefix "enc:" key = None ->
  Forall byte_ok (md5 (str_bytes (key ++ salt))) ->
  Forall (fun params => shown params key)
    [[("apiKey", key)]; [("u", "any"); ("t", bytes_to_str (hex (md5 (str_bytes (key ++ salt))))); ("s", salt)];
     [("p", key)]; [("p", "enc:" ++ bytes_to_str (hex (str_bytes key)))]]%string.
Proof.
  intros Hne Hs Hplain Hmd. rewrite !Forall_cons, Forall_nil. unfold shown, param. simpl. split_conj; try done.
  - rewrite str_bytes_to_str by by apply hex_ok. by rewrite hex_lowercase.
  - by rewrite Hplain.
  - rewrite unchars_chars. change ("" ++ ?x)%string with x.
    by rewrite str_bytes_to_str, decode_hex_hex by (apply str_bytes_ok || apply hex_ok, str_bytes_ok).
Qed.

(** C30: Subsonic authentication is exact.  A request is accepted as the device [d] exactly when [d]
    is the first stored device whose key it shows, where a request shows a key by the first scheme
    whose parameters it has: the key itself, the hash of the key and the salt, or the key as a
    password, plain or in hex ([shown]); it is refused, with the error of its scheme, exactly when it
    shows no stored key; and every scheme shows the key it is made from.  A removed or re-paired
    device is refused with its old key: after a successful removal no request authenticates as that
    id, after a successful upsert only the new record does. *)
Theorem authentication_exact s params :
  (forall d, subsonic s params = Ok d <-> first (shown params) (devices s) d) /\
  (forall e, subsonic s params = Err e <->
     Forall (fun r => ~ shown params (api_key r)) (devices s) /\ e = refusal params) /\
  (forall key salt, key <> ""%string -> is_str key -> strip_prefix "enc:" key = None ->
     Forall byte_ok (md5 (str_bytes (key ++ salt))) ->
     Forall (fun params => shown params key)
       [[("apiKey", key)]; [("u", "any"); ("t", bytes_to_str (hex (md5 (str_bytes (key ++ salt))))); ("s", salt)];
        [("p", key)]; [("p", "enc:" ++ bytes_to_str (hex (str_bytes key)))]]%string) /\
  (forall fs id e st' params' d', remove (s, fs) id e = (Ok true, st') ->
     subsonic st'.1 params' = Ok d' -> device_id d' <> id) /\
  (forall fs id name plat seen now key e r st' params' d',
     upsert (s, fs) id name plat seen now key e = (Ok r, st') ->
     subsonic st'.1 params' = Ok d' -> device_id d' = id -> d' = r).
Proof.
  pose proof (subsonic_exact s params) as Hexact. split; [|split; [|split; [|split]]].
  - intros d. destruct (subsonic s params) as [d'|e].
    + split; [by intros [= <-]|]. intros Hd. f_equal. by eapply first_unique.
    + destruct Hexact as [Hn _]. split; [done|]. intros Hd. by apply first_some in Hd.
  - intros e. destruct (subsonic s params) as [d|e'].
    + split; [done|]. intros [Hn _]. by apply first_some in Hexact.
    + destruct Hexact as [Hn ->]. split; [by intros [= <-]|by intros [_ ->]].
  - intros. by apply schemes_shown.
  - intros fs id e st' params' d'. unfold remove. case_bool; [done|].
    destruct (commit _ _ _) eqn:E; [|done]. intros [= <-] Hin%subsonic_stored.
    unfold commit, save_devices, write_private in E. destruct e; [done|]. injection E as <-.
    simpl in Hin. by apply list_elem_of_filter in Hin as [? _].
  - intros fs id name plat seen now key e r st' params' d'. unfold upsert. destruct key; [|done].
    destruct (commit _ _ _) eqn:E; [|done]. intros [= <- <-] Hin%subsonic_stored Hid.
    unfold commit, save_devices, write_private in E. destruct e; [done|]. injection E as <-.
    simpl in Hin. apply elem_of_app in Hin as [[? _]%list_elem_of_filter|Hin]; [done|].
    by apply list_elem_of_singleton in Hin.
Qed.
End store.

(** ** Witnesses, with a concrete codec in the place of serde's JSON *)

#[local] Instance ServerFile_eq_dec : EqDecision ServerFile.
Proof. solve_decision. Defined.
#[local] Program Instance ServerFile_countable : Countable ServerFile :=
  inj_countable' (fun f => (server_id f, port f, server_name f))
    (fun '(a, b, c) => mkServerFile a b c) _.
Next Obligation. by intros []. Qed.
#[local] Program Instance DeviceRecord_countable : Countable DeviceRecord :=
  inj_countable' (fun r => (device_id r, device_name r, platform r, api_key r, paired_ms r, last_seen_ms r))
    (fun '(a, b, c, d, e, f) => mkDevice a b c d e f) _.
Next Obligation. by intros []. Qed.

Definition number_code {A} `{Countable A} (a : A) : bytes := [Zpos (encode a)].
Definition number_decode {A} `{Countable A} (l : bytes) : option A :=
  match l with [Zpos p] => decode p | _ => None end.

#[local] Program Instance number_json : StateJson := {
  encode_server := number_code; decode_server := number_decode;
  encode_devices := number_code; decode_devices := number_decode }.
Next Obligation. intros f. apply decode_encode. Qed.
Next Obligation. intros l. apply decode_encode. Qed.

Definition sixteen : bytes := [0; 1; 2; 3; 4; 5; 6; 7; 8; 9; 10; 11; 12; 13; 14; 15].

Definition opened : State :=
  match open ∅ no_errors (Ok sixteen) with Ok st => st | Err _ => (mkStore (mkServerFile "" 0 "") [], ∅) end.

Lemma store_durable_witness :
  open ∅ no_errors (Ok sixteen) = Ok opened /\
  let st := foldl apply_op opened
    [OpUpsert "phone" "Phone" "android" true 1 (Ok "k1"%string) None;
     OpRemove "phone" (Some "disk full"%string)] in
  len (devices st.1) = 1 /\ open st.2 no_errors (Err "no randomness"%string) = Ok st.
Proof.
  assert (open ∅ no_errors (Ok sixteen) = Ok opened) as E by reflexivity.
  split; [exact E|]. split; [vm_compute; reflexivity|].
  apply (store_durable ∅ no_errors (Ok sixteen) opened _ (Err "no randomness"%string) E).
Defined.

Definition phone : DeviceRecord := mkDevice "phone" "Phone" "android" "k1" 1 None.

Lemma authentication_exact_witness :
  let s := mkStore (mkServerFile "id" 0 "") [mkDevice "tablet" "Tablet" "android" "k2" 1 None; phone] in
  subsonic id s [("p", "enc:6b31")]%string = Ok phone /\
  subsonic id s [("u", "any"); ("t", "6B317373"); ("s", "ss")]%string = Ok phone.
Proof.
  cbv zeta. split; [vm_compute; reflexivity|].
  pose proof (authentication_exact id (mkStore (mkServerFile "id" 0 "") [mkDevice "tablet" "Tablet" "android" "k2" 1 None; phone])
    [("u", "any"); ("t", "6B317373"); ("s", "ss")]%string) as H.
  apply (proj1 H). exists [mkDevice "tablet" "Tablet" "android" "k2" 1 None], []. split; [done|].
  split; [vm_compute; reflexivity|]. apply Forall_singleton. by vm_compute.
Defined.
