(* ===== verification/Pairing.v ===== *)
(** * The pairing window: [crates/link/src/pairing.rs]

    The window with its PIN, attempt counter and generation, the per-address rate limit, and the
    draw of a PIN.  The clock readings of [Instant::now] are arguments in milliseconds; HMAC-SHA256
    is a parameter. *)

From S2P Require Import Prelude LinkCodec.

Definition MAX_ATTEMPTS : Z := 5.
Definition PROOF_CONTEXT : string := "mornye-link-pair-v1:".
Definition PAIRED : string := "paired".
Definition EXPIRED : string := "expired".
Definition ATTEMPTS : string := "attempts".

Inductive PairError := RateLimited | Closed | BadProof | Failed (message : string).

Record Window := mkWindow { pin : string; expires_at : Z; attempts : Z; generation : Z }.

Inductive Event := Opened (g : Z) (pin : string) | Guess (g : Z) (good : bool) | Stored (g : Z).

#[export] Instance Event_eq_dec : EqDecision Event.
Proof. solve_decision. Defined.

Section pairing.
Context {Addr : Type} `{Countable Addr}.
Variable hmac_sha256 : bytes -> bytes -> bytes.
Variables (ttl interval : Z).

Record State := mkState { window : option Window; last_generation : Z; recent : gmap Addr Z }.

Definition new : State := mkState None 0 ∅.

Definition proof (pin fingerprint device_id : string) : bytes :=
  hex (hmac_sha256 (str_bytes pin) (str_bytes (PROOF_CONTEXT ++ fingerprint ++ ":" ++ device_id))).

(** [begin]: [fresh] is what [new_pin] gives; the result is the PIN, its expiry on the wall clock
    and the generation. *)
Definition begin (s : State) (fresh : result string string) (now now_ms : Z)
  : result (string * Z * Z) string * State :=
  match fresh with
  | Err e => (Err e, s)
  | Ok pin =>
    let g := wrap_u 64 (last_generation s + 1) in
    (Ok (pin, wrap_i64 (now_ms + wrap_i64 ttl), g),
     mkState (Some (mkWindow pin (now + ttl) 0 g)) g (recent s))
  end.

Definition end_window (s : State) : bool * State :=
  (bool_decide (is_Some (window s)), mkState None (last_generation s) (recent s)).

Definition expire (s : State) (g : Z) : bool * State :=
  match window s with
  | Some w => if generation w =? g then (true, mkState None (last_generation s) (recent s)) else (false, s)
  | None => (false, s)
  end.

Definition is_open (s : State) (now : Z) : bool :=
  match window s with Some w => now <? expires_at w | None => false end.

(** [recent.retain]: addresses seen less than [interval] ago. *)
Definition retain_recent (now : Z) (m : gmap Addr Z) : gmap Addr Z :=
  filter (fun p => sat_sub now p.2 < interval) m.

(** The comparison of an attempt: both sides as lowercase text. *)
Definition proof_matches (w : Window) (fingerprint device_id : string) (given : string) : bool :=
  constant_time_eq (proof (pin w) fingerprint device_id)
    (to_ascii_lowercase (str_bytes (trim given))).

(** [attempt]: [store] is what the closure would answer; it runs only on a matching proof. *)
Definition attempt {T} (s : State) (now : Z) (peer : Addr) (fingerprint device_id given : string)
  (store : unit -> result T string) : (result T PairError * option string) * State :=
  let recent := retain_recent now (recent s) in
  match recent !! peer with
  | Some _ => ((Err RateLimited, None), mkState (window s) (last_generation s) recent)
  | None =>
    let recent := if negb (interval =? 0) then <[peer := now]> recent else recent in
    match window s with
    | None => ((Err Closed, None), mkState None (last_generation s) recent)
    | Some w =>
      if expires_at w <=? now then
        ((Err Closed, Some EXPIRED), mkState None (last_generation s) recent)
      else if negb (proof_matches w fingerprint device_id given) then
        let tried := wrap_u 32 (attempts w + 1) in
        if MAX_ATTEMPTS <=? tried then
          ((Err BadProof, Some ATTEMPTS), mkState None (last_generation s) recent)
        else
          ((Err BadProof, None),
           mkState (Some (mkWindow (pin w) (expires_at w) tried (generation w))) (last_generation s) recent)
      else
        match store tt with
        | Ok value => ((Ok value, Some PAIRED), mkState None (last_generation s) recent)
        | Err error => ((Err (Failed error), None), mkState (Some w) (last_generation s) recent)
        end
    end
  end.

(** ** The draw of a PIN *)

Definition LIMIT : Z := 4294000000.

(** [format!("{:06}", n)] for [n] below ten to the sixth. *)
Fixpoint pad_digits (width : nat) (n : Z) : bytes :=
  match width with
  | O => []
  | S width => pad_digits width (n / 10) ++ [48 + n mod 10]
  end.

(** The loop of [new_pin] over the draws of [random_bytes::<4>]; [None]: still drawing. *)
Fixpoint new_pin (draws : list (result bytes string)) : option (result string string) :=
  match draws with
  | [] => None
  | Err e :: _ => Some (Err e)
  | Ok bs :: draws =>
    let value := from_le bs in
    if value <? LIMIT then Some (Ok (bytes_to_str (pad_digits 6 (value mod 1000000))))
    else new_pin draws
  end.

(** ** Runs of the pairing service

    The log records the windows opened, each comparison of a proof with the PIN of a generation
    ([Guess]) and each device stored. *)

Inductive Call :=
| CallBegin (fresh : result string string) (now now_ms : Z)
| CallEnd
| CallExpire (g : Z)
| CallAttempt (now : Z) (peer : Addr) (fingerprint device_id given : string)
    (store : unit -> result unit string).

(** Whether a text is the proof of the PIN: what a phone that knows the PIN sends, in either case of
    letters and with white space around it. *)
Definition right_proof (w : Window) (fingerprint device_id given : string) : bool :=
  bool_decide (to_ascii_lowercase (str_bytes (trim given)) = proof (pin w) fingerprint device_id).

(** The events of an attempt: a comparison when it got as far, right or wrong by the proof that was
    given and not by the answer, and the device it stored. *)
Definition attempt_events (s : State) (fingerprint device_id given : string) (r : result unit PairError)
  : list Event :=
  match window s with
  | None => []
  | Some w =>
    let guess := Guess (generation w) (right_proof w fingerprint device_id given) in
    match r with
    | Err RateLimited | Err Closed => []
    | Err BadProof | Err (Failed _) => [guess]
    | Ok _ => [guess; Stored (generation w)]
    end
  end.

Definition run_call (c : State * list Event) (call : Call) : State * list Event :=
  let '(s, log) := c in
  match call with
  | CallBegin fresh now now_ms =>
    let '(r, s') := begin s fresh now now_ms in
    (s', log ++ match r with Ok (p, _, g) => [Opened g p] | Err _ => [] end)
  | CallEnd => ((end_window s).2, log)
  | CallExpire g => ((expire s g).2, log)
  | CallAttempt now peer fp dev given store =>
    let '((r, _), s') := attempt s now peer fp dev given store in (s', log ++ attempt_events s fp dev given r)
  end.

Definition run (calls : list Call) : State * list Event := foldl run_call (new, []) calls.

Definition bad_guesses (g : Z) (log : list Event) : Z := len (filter (fun e => e = Guess g false) log).
Definition stores (g : Z) (log : list Event) : Z := len (filter (fun e => e = Stored g) log).

(** ** Bounds on guessing *)

Lemma bad_guesses_app g l l' : bad_guesses g (l ++ l') = bad_guesses g l + bad_guesses g l'.
Proof. unfold bad_guesses, len. rewrite filter_app, length_app. lia. Qed.
Lemma stores_app g l l' : stores g (l ++ l') = stores g l + stores g l'.
Proof. unfold stores, len. rewrite filter_app, length_app. lia. Qed.

Lemma bad_guesses_one g g' : bad_guesses g [Guess g' false] = if decide (g' = g) then 1 else 0.
Proof. unfold bad_guesses, len. rewrite filter_cons. repeat case_decide; simplify_eq; done. Qed.
Lemma bad_guesses_zero g l : (forall g', Guess g' false ∉ l) -> bad_guesses g l = 0.
Proof.
  intros Hl. unfold bad_guesses. replace (filter _ l) with (@nil Event); [done|].
  destruct (filter _ l) as [|e l'] eqn:E; [done|]. assert (e ∈ e :: l') as Hin by left.
  rewrite <- E in Hin. apply list_elem_of_filter in Hin as [-> ?]. by destruct (Hl g).
Qed.
Lemma stores_one g g' b : stores g [Guess g' b; Stored g'] = if decide (g' = g) then 1 else 0.
Proof. unfold stores, len. rewrite !filter_cons. repeat case_decide; simplify_eq; done. Qed.
Lemma stores_zero g l : (forall g', Stored g' ∉ l) -> stores g l = 0.
Proof.
  intros Hl. unfold stores. replace (filter _ l) with (@nil Event); [done|].
  destruct (filter _ l) as [|e l'] eqn:E; [done|]. assert (e ∈ e :: l') as Hin by left.
  rewrite <- E in Hin. apply list_elem_of_filter in Hin as [-> ?]. by destruct (Hl g).
Qed.

(** Devices are stored right after a right proof for the same window. *)
Definition earned (log : list Event) : Prop :=
  forall l1 l2 g, log = l1 ++ Stored g :: l2 -> exists l0, l1 = l0 ++ [Guess g true].

Lemma earned_app log l : earned log -> earned l -> earned (log ++ l).
Proof.
  intros Hlog Hl l1 l2 g E. apply app_eq_inv in E as [(k & E1 & E2)|(k & E1 & E2)].
  - destruct k as [|e k]; simpl in E2.
    + destruct (Hl [] l2 g (eq_sym E2)) as [[|? l0] E0]; discriminate.
    + injection E2 as <- ->. by eapply Hlog.
  - destruct (Hl k l2 g E2) as [l0 ->]. exists (log ++ l0). by rewrite E1, app_assoc.
Qed.

Lemma earned_none l : (forall g, Stored g ∉ l) -> earned l.
Proof. intros Hl l1 l2 g ->. destruct (Hl g). set_solver. Qed.

Lemma earned_pair g : earned [Guess g true; Stored g].
Proof.
  intros l1 l2 g' E. destruct l1 as [|a [|b l1]]; simpl in E; [discriminate| |].
  - injection E as <- <-. by exists [].
  - injection E as _ _ E. by destruct l1.
Qed.

Record invariant (n : Z) (c : State * list Event) : Prop := {
  inv_generation : 0 <= last_generation c.1 <= n;
  inv_window : forall w, window c.1 = Some w ->
    generation w = last_generation c.1 /\ attempts w = bad_guesses (generation w) c.2 /\
    attempts w < MAX_ATTEMPTS /\ stores (generation w) c.2 = 0 /\
    Opened (generation w) (pin w) ∈ c.2;
  inv_bounds : forall g, bad_guesses g c.2 <= MAX_ATTEMPTS /\ stores g c.2 <= 1;
  inv_future : forall g, last_generation c.1 < g -> bad_guesses g c.2 = 0 /\ stores g c.2 = 0 /\
    (forall p, Opened g p ∉ c.2);
  inv_pins : forall g p p', Opened g p ∈ c.2 -> Opened g p' ∈ c.2 -> p = p';
  inv_earned : earned c.2 }.

Lemma bad_guesses_nonneg g l : 0 <= bad_guesses g l.
Proof. unfold bad_guesses, len. lia. Qed.

(** A call that compares nothing and opens nothing: the window may only close. *)
Lemma invariant_quiet n c s' :
  invariant n c -> last_generation s' = last_generation c.1 ->
  (window s' = None \/ window s' = window c.1) -> invariant (n + 1) (s', c.2).
Proof.
  intros [] Hg Hw. split; simpl; rewrite ?Hg; try done; [lia|].
  intros w Hsome. destruct Hw as [Hw|Hw]; rewrite Hw in Hsome; [done|]. by apply inv_window0.
Qed.

Lemma invariant_begin n c fresh now now_ms :
  n + 1 < 2 ^ 64 -> invariant n c -> invariant (n + 1) (run_call c (CallBegin fresh now now_ms)).
Proof.
  intros Hn Hi. destruct c as [s log]. destruct fresh as [p|e]; simpl.
  2: { rewrite app_nil_r. apply (invariant_quiet n (s, log)); auto. }
  destruct Hi. simpl in *. rewrite wrap_u_small by (unfold in_u; lia).
  assert (forall g, bad_guesses g [Opened (last_generation s + 1) p] = 0) as Hb
    by (intros; apply bad_guesses_zero; set_solver).
  assert (forall g, stores g [Opened (last_generation s + 1) p] = 0) as Hs
    by (intros; apply stores_zero; set_solver).
  split; simpl.
  - lia.
  - intros w [= <-]. simpl. rewrite bad_guesses_app, stores_app, Hb, Hs. destruct (inv_future0 (last_generation s + 1)) as (-> & -> & _); [lia|].
    unfold MAX_ATTEMPTS. split_conj; try done; try lia. rewrite elem_of_app. right. left.
  - intros g. rewrite bad_guesses_app, stores_app, Hb, Hs, !Z.add_0_r. apply inv_bounds0.
  - intros g Hg. rewrite bad_guesses_app, stores_app, Hb, Hs.
    destruct (inv_future0 g) as (-> & -> & Ho); [lia|]. split_conj; [done|done|].
    intros p'. rewrite elem_of_app, list_elem_of_singleton. intros [?%Ho|[= -> ->]]; [done|lia].
  - intros g q q'. rewrite !elem_of_app, !list_elem_of_singleton.
    destruct (inv_future0 (last_generation s + 1)) as (_ & _ & Ho); [lia|].
    intros [H1|H1] [H2|H2]; simplify_eq; [by eapply inv_pins0|by apply Ho in H1|by apply Ho in H2|done].
  - apply earned_app; [done|]. apply earned_none. set_solver.
Qed.

(** What an attempt may do to the window and the log: nothing but close the window; one bad guess;
    one good guess, with a device stored exactly when the window closes. *)
Inductive attempt_effect (s s' : State) : list Event -> Prop :=
| effect_quiet : window s' = None \/ window s' = window s -> attempt_effect s s' []
| effect_last w : window s = Some w -> attempts w + 1 <= MAX_ATTEMPTS -> window s' = None ->
    attempt_effect s s' [Guess (generation w) false]
| effect_bad w : window s = Some w -> attempts w + 1 < MAX_ATTEMPTS ->
    window s' = Some (mkWindow (pin w) (expires_at w) (attempts w + 1) (generation w)) ->
    attempt_effect s s' [Guess (generation w) false]
| effect_good w : window s = Some w -> window s' = window s ->
    attempt_effect s s' [Guess (generation w) true]
| effect_stored w : window s = Some w -> window s' = None ->
    attempt_effect s s' [Guess (generation w) true; Stored (generation w)].

Lemma right_proof_matches w fp dev given : right_proof w fp dev given = proof_matches w fp dev given.
Proof.
  unfold right_proof, proof_matches. apply eq_true_iff_eq. rewrite bool_decide_eq_true, constant_time_eq_spec.
  split; congruence.
Qed.

Lemma attempt_effects s now peer fp dev given store :
  (forall w, window s = Some w -> 0 <= attempts w < MAX_ATTEMPTS) ->
  let '((r, _), s') := attempt s now peer fp dev given store in
  last_generation s' = last_generation s /\ attempt_effect s s' (attempt_events s fp dev given r).
Proof.
  unfold attempt, attempt_events, MAX_ATTEMPTS. intros Hw.
  destruct (retain_recent _ _ !! peer).
  { split; [done|]. destruct (window s) eqn:E; apply effect_quiet; right; by rewrite E. }
  destruct (window s) as [w|] eqn:E; [|split; [done|]; constructor; auto].
  specialize (Hw w eq_refl). unfold wrap_u. rewrite Z.mod_small by lia.
  rewrite right_proof_matches.
  case_bool; [split; [done|]; constructor; auto|]. destruct (proof_matches w fp dev given); simpl.
  2: { case_bool; simpl; (split; [done|]); [eapply effect_last|eapply effect_bad]; eauto; unfold MAX_ATTEMPTS; lia. }
  destruct (store tt) as [[]|e]; simpl; (split; [done|]); [by apply effect_stored|].
  apply effect_good; [done|by rewrite E].
Qed.

Lemma attempt_log_elem s s' l : attempt_effect s s' l ->
  forall g p, Opened g p ∉ l.
Proof. destruct 1; intros g p; rewrite ?elem_of_cons; intros Hin; set_solver. Qed.

Lemma stores_guess g g' b : stores g [Guess g' b] = 0.
Proof. apply stores_zero. set_solver. Qed.
Lemma bad_guesses_good g g' : bad_guesses g [Guess g' true] = 0.
Proof. apply bad_guesses_zero. set_solver. Qed.
Lemma bad_guesses_stored g g' : bad_guesses g [Guess g' true; Stored g'] = 0.
Proof. apply bad_guesses_zero. set_solver. Qed.

Lemma invariant_effect n s log s' l :
  invariant n (s, log) -> last_generation s' = last_generation s -> attempt_effect s s' l ->
  invariant (n + 1) (s', log ++ l).
Proof.
  intros Hi Hg He. pose proof (attempt_log_elem _ _ _ He) as Hopen. destruct Hi. simpl in *.
  assert (forall g p, Opened g p ∈ log ++ l <-> Opened g p ∈ log) as Hop.
  { intros g p. rewrite elem_of_app. pose proof (Hopen g p). tauto. }
  assert (forall w, window s = Some w ->
    0 <= attempts w /\ attempts w = bad_guesses (generation w) log) as Hatt.
  { intros w Hw. destruct (inv_window0 w Hw) as (_ & -> & _). split; [apply bad_guesses_nonneg|done]. }
  assert (forall g, (bad_guesses g l = 0 /\ stores g l = 0) \/
    exists w, window s = Some w /\ g = generation w /\
      (bad_guesses g l = 1 /\ stores g l = 0 \/ bad_guesses g l = 0 /\ stores g l = 1)) as Hdelta.
  { intros g. destruct He as [_|w Hw _ _|w Hw _ _|w Hw _|w Hw _];
      rewrite ?bad_guesses_one, ?stores_guess, ?bad_guesses_good, ?bad_guesses_stored, ?stores_one;
      try (left; done); destruct (decide (generation w = g)); eauto 10. }
  split; simpl.
  - lia.
  - intros w Hw. rewrite bad_guesses_app, stores_app, Hg, Hop.
    destruct He as [[Hn|Hs]|w0 Hw0 _ Hn|w0 Hw0 Hlt Hn|w0 Hw0 Hn|w0 Hw0 Hn]; try congruence.
    + unfold bad_guesses at 2, stores at 2, len. simpl. rewrite !Z.add_0_r.
      apply inv_window0. congruence.
    + rewrite Hn in Hw. injection Hw as <-. simpl. destruct (inv_window0 _ Hw0) as (? & ? & ? & ? & ?).
      rewrite bad_guesses_one, stores_guess, decide_True by done. split_conj; (done || lia).
    + rewrite bad_guesses_good, stores_guess, !Z.add_0_r. apply inv_window0. congruence.
  - intros g. rewrite bad_guesses_app, stores_app. pose proof (inv_bounds0 g).
    destruct (Hdelta g) as [[-> ->]|(w & Hw & -> & Hd)]; [lia|].
    destruct (inv_window0 _ Hw) as (_ & ? & ? & ? & _). unfold MAX_ATTEMPTS in *. lia.
  - intros g Hlt. rewrite bad_guesses_app, stores_app. setoid_rewrite Hop. rewrite Hg in Hlt.
    destruct (inv_future0 g Hlt) as (-> & -> & Ho).
    destruct (Hdelta g) as [[-> ->]|(w & Hw & -> & Hd)]; [done|].
    destruct (inv_window0 _ Hw) as (? & _). lia.
  - intros g p p'. rewrite !Hop. apply inv_pins0.
  - apply earned_app; [done|]. destruct He; [apply earned_none; set_solver..|apply earned_pair].
Qed.

Lemma run_call_invariant n c call :
  n + 1 < 2 ^ 64 -> invariant n c -> invariant (n + 1) (run_call c call).
Proof.
  intros Hn Hi. destruct call as [fresh now now_ms| |g|now peer fp dev given store].
  - by apply invariant_begin.
  - destruct c as [s log]. apply (invariant_quiet n (s, log)); auto.
  - destruct c as [s log]. simpl. unfold expire. apply (invariant_quiet n (s, log)); [done| |];
      simpl; destruct (window s) as [w|] eqn:E; simpl; rewrite ?E; auto;
      destruct (generation w =? g); simpl; auto.
  - destruct c as [s log]. simpl. pose proof (attempt_effects s now peer fp dev given store) as He.
    destruct (attempt _ _ _ _ _ _ _) as [[r e] s']. destruct He as [Hg He].
    + intros w Hw. destruct (inv_window _ _ Hi w Hw) as (_ & Ha & ? & _). simpl in *.
      split; [rewrite Ha; apply bad_guesses_nonneg|done].
    + by eapply invariant_effect.
Qed.

Lemma new_invariant : invariant 0 (new, []).
Proof.
  split; simpl.
  - lia.
  - done.
  - done.
  - intros g _. split_conj; [done|done|]. intros p Hp. by apply not_elem_of_nil in Hp.
  - intros g p p' Hp. by apply not_elem_of_nil in Hp.
  - apply earned_none. set_solver.
Qed.

Lemma run_invariant calls : len calls < 2 ^ 64 -> invariant (len calls) (run calls).
Proof.
  unfold run, len. induction calls as [|call calls IH] using rev_ind; [intros _; apply new_invariant|].
  rewrite foldl_app, length_app. simpl. intros Hlt.
  replace (Z.of_nat (length calls + 1)) with (Z.of_nat (length calls) + 1) in * by lia.
  apply run_call_invariant; [lia|]. apply IH. lia.
Qed.

(** C29: A PIN cannot be guessed at leisure: in every run of the service, whatever the calls and
    their order, at most five wrong proofs are ever compared with the PIN of one window - a proof is
    wrong when it is not the proof of the PIN, whatever the attempt answered -, a device is stored
    only right after a right proof and at most once per window, no two windows opened share a generation with different PINs, and
    while a window is open its attempt counter is the number of wrong proofs so far, fewer than five,
    with nothing stored yet. *)
Theorem pairing_guesses_bounded calls (Hcalls : len calls < 2 ^ 64) :
  let '(s, log) := run calls in
  (forall g, bad_guesses g log <= 5 /\ stores g log <= 1) /\
  (forall l1 l2 g, log = l1 ++ Stored g :: l2 -> exists l0, l1 = l0 ++ [Guess g true]) /\
  (forall g p p', Opened g p ∈ log -> Opened g p' ∈ log -> p = p') /\
  (forall w, window s = Some w -> Opened (generation w) (pin w) ∈ log /\
     attempts w = bad_guesses (generation w) log /\ attempts w < 5 /\ stores (generation w) log = 0).
Proof.
  pose proof (run_invariant _ Hcalls) as Hi. destruct (run calls) as [s log]. destruct Hi. simpl in *.
  split; [exact inv_bounds0|]. split; [exact inv_earned0|]. split; [exact inv_pins0|]. intros w Hw.
  destruct (inv_window0 w Hw) as (_ & ? & ? & ? & ?). done.
Qed.

(** ** The digits of a PIN *)

Fixpoint parse_digits (acc : Z) (l : bytes) : Z :=
  match l with [] => acc | d :: l => parse_digits (10 * acc + (d - 48)) l end.

Lemma parse_digits_app acc l l' : parse_digits acc (l ++ l') = parse_digits (parse_digits acc l) l'.
Proof. revert acc. induction l; intros acc; simpl; auto. Qed.

Lemma parse_pad width n : 0 <= n -> parse_digits 0 (pad_digits width n) = n mod 10 ^ Z.of_nat width.
Proof.
  revert n. induction width as [|width IH]; intros n Hn; [by rewrite Z.mod_1_r|].
  cbn [pad_digits]. rewrite parse_digits_app, IH by (apply Z.div_pos; lia). cbn [parse_digits].
  rewrite Nat2Z.inj_succ, Z.pow_succ_r by lia.
  assert (0 < 10 ^ Z.of_nat width) by (apply Z.pow_pos_nonneg; lia).
  rewrite Z.rem_mul_r by lia. lia.
Qed.

Lemma pad_digits_length width n : length (pad_digits width n) = width.
Proof. revert n. induction width; intros n; simpl; [done|]. rewrite length_app, IHwidth. simpl. lia. Qed.

Lemma pad_digits_digit width n : 0 <= n -> Forall (fun d => 48 <= d <= 57) (pad_digits width n).
Proof.
  revert n. induction width as [|width IH]; intros n Hn; simpl; [constructor|].
  apply Forall_app. split; [apply IH; divmod_lia|]. apply Forall_singleton. divmod_lia.
Qed.

Definition pin_text (k : Z) : string := bytes_to_str (pad_digits 6 k).

Lemma pin_text_bytes k : 0 <= k -> str_bytes (pin_text k) = pad_digits 6 k.
Proof.
  intros Hk. apply str_bytes_to_str. eapply Forall_impl; [by apply pad_digits_digit|].
  unfold byte_ok. simpl. lia.
Qed.

Lemma pin_text_inj k k' : 0 <= k < 1000000 -> 0 <= k' < 1000000 -> pin_text k = pin_text k' -> k = k'.
Proof.
  intros Hk Hk' E. assert (pad_digits 6 k = pad_digits 6 k') as E'
    by (rewrite <- !pin_text_bytes by lia; by rewrite E).
  apply (f_equal (parse_digits 0)) in E'. rewrite !parse_pad in E' by lia.
  change (10 ^ Z.of_nat 6) with 1000000 in E'. rewrite !Z.mod_small in E' by lia. done.
Qed.

Lemma new_pin_draw v draws :
  in_u 32 v ->
  new_pin (Ok (le_bytes 4 v) :: draws)
  = if v <? LIMIT then Some (Ok (pin_text (v mod 1000000))) else new_pin draws.
Proof.
  unfold in_u. intros Hv. cbn [new_pin]. rewrite from_le_le_bytes, Z.mod_small by lia. done.
Qed.

(** Every PIN is equally likely: each six-digit text is the PIN of exactly 4294 of the random
    u32 values (so a uniform value gives a uniform PIN), distinct numbers give distinct texts of six
    decimal digits, the values left over are drawn again, and a failure of the random source is
    reported. *)
Theorem new_pin_uniform k (Hk : 0 <= k < 1000000) :
  length (str_bytes (pin_text k)) = 6%nat /\ Forall (fun d => 48 <= d <= 57) (str_bytes (pin_text k)) /\
  (forall v draws, in_u 32 v -> v < LIMIT ->
     (new_pin (Ok (le_bytes 4 v) :: draws) = Some (Ok (pin_text k)) <->
      exists i, 0 <= i < 4294 /\ v = k + 1000000 * i)) /\
  (forall v draws, in_u 32 v -> LIMIT <= v -> new_pin (Ok (le_bytes 4 v) :: draws) = new_pin draws) /\
  (forall e draws, new_pin (Err e :: draws) = Some (Err e)).
Proof.
  rewrite pin_text_bytes by lia. split_conj; try done.
  - apply pad_digits_digit. lia.
  - intros v draws Hv Hl. rewrite new_pin_draw by done. destruct (Z.ltb_spec v LIMIT); [|lia].
    unfold in_u, LIMIT in *. split.
    + intros E. assert (pin_text (v mod 1000000) = pin_text k) as E' by congruence. clear E.
      apply pin_text_inj in E'; [|divmod_lia|lia]. exists (v / 1000000). divmod_lia.
    + intros (i & Hi & ->). do 3 f_equal. rewrite Z.mul_comm, Z.mod_add by lia. by apply Z.mod_small.
  - intros v draws Hv Hl. rewrite new_pin_draw by done. destruct (Z.ltb_spec v LIMIT); [lia|done].
Qed.

End pairing.

(** ** Witnesses: an HMAC that returns its key, five wrong proofs on one window *)

Definition bad_attempt (n : Z) : Call (Addr := nat) :=
  CallAttempt n 7%nat "fp" "phone" "bad" (fun _ => Ok tt).

Definition guessing : list (Call (Addr := nat)) :=
  CallBegin (Ok "123456"%string) 0 0 :: map bad_attempt [1; 2; 3; 4; 5; 6].

Lemma pairing_guesses_bounded_witness :
  len guessing < 2 ^ 64 /\
  bad_guesses 1 (run (fun key _ => key) 60000 0 guessing).2 = 5 /\
  stores 1 (run (fun key _ => key) 60000 0 guessing).2 <= 1.
Proof.
  split; [done|]. split; [vm_compute; reflexivity|].
  pose proof (pairing_guesses_bounded (fun key _ => key) 60000 0 guessing ltac:(done)) as H.
  destruct (run (fun key _ => key) 60000 0 guessing) as [s log]. apply H.
Defined.

Lemma new_pin_uniform_witness :
  0 <= 42 < 1000000 /\ pin_text 42 = "000042"%string /\
  Forall (fun d => 48 <= d <= 57) (str_bytes (pin_text 42)).
Proof. split; [lia|]. split; [vm_compute; reflexivity|]. apply (new_pin_uniform 42 ltac:(lia)). Defined.
