(* ===== verification/DeezerCache.v ===== *)
(** * The response cache: [crates/providers/src/deezer/cache.rs]

    Three buckets of expiring values and the ISRC index, with the periodic sweep and the eviction
    that bounds them.  Times are nanoseconds of the monotonic clock; the payloads are opaque. *)

From S2P Require Import Prelude.

Inductive Bucket := Search | Album | Artist.

#[export] Instance Bucket_eq_dec : EqDecision Bucket.
Proof. solve_decision. Defined.

Section cache.
Context {Value : Type}.

Record Entry := mkEntry { value : Value; expires : Z }.

Abbreviation Entries := (gmap string Entry).

Record Cache := mkCache {
  search : Entries; albums : Entries; artists : Entries;
  isrc : gmap string string; last_cleanup : option Z }.

Definition empty_cache : Cache := mkCache ∅ ∅ ∅ ∅ None.

Definition secs (n : Z) : Z := n * 1000000000.

Definition bucket (c : Cache) (b : Bucket) : Entries :=
  match b with Search => search c | Album => albums c | Artist => artists c end.

Definition set_bucket (c : Cache) (b : Bucket) (m : Entries) : Cache :=
  match b with
  | Search => mkCache m (albums c) (artists c) (isrc c) (last_cleanup c)
  | Album => mkCache (search c) m (artists c) (isrc c) (last_cleanup c)
  | Artist => mkCache (search c) (albums c) m (isrc c) (last_cleanup c)
  end.

Definition limit (b : Bucket) : Z :=
  match b with Search => 300 | Album => 200 | Artist => 200 end.

Definition live (now : Z) (e : Entry) : bool := now <=? expires e.

Definition get (c : Cache) (b : Bucket) (key : string) (now : Z) : option Value :=
  match bucket c b !! key with
  | Some e => if live now e then Some (value e) else None
  | None => None
  end.

(** [iter().min_by_key(expires)]: the first of the least in key order. *)
Definition earlier (best : option (string * Entry)) (p : string * Entry) : option (string * Entry) :=
  match best with
  | None => Some p
  | Some q => if expires p.2 <? expires q.2 then Some p else best
  end.

Definition min_by_expires (m : Entries) : option (string * Entry) :=
  foldl earlier None (btree_iter m).

(** The loop that removes the entry that expires first; each round removes one, so the size of the
    map is enough fuel. *)
Fixpoint evict (fuel : nat) (bound : Z) (m : Entries) : Entries :=
  match fuel with
  | O => m
  | S fuel =>
    if bound <? Z.of_nat (size m) then
      match min_by_expires m with
      | Some (key, _) => evict fuel bound (delete key m)
      | None => m
      end
    else m
  end.

Definition clean_bucket (periodic : bool) (bound now : Z) (m : Entries) : Entries :=
  if periodic || (bound <? Z.of_nat (size m)) then
    let m := filter (fun p => live now p.2 = true) m in evict (size m) bound m
  else m.

(** The loop that removes the first key. *)
Fixpoint pop_first (fuel : nat) (bound : Z) (m : gmap string string) : gmap string string :=
  match fuel with
  | O => m
  | S fuel =>
    if bound <? Z.of_nat (size m) then
      match btree_keys m with
      | key :: _ => pop_first fuel bound (delete key m)
      | [] => m
      end
    else m
  end.

Definition periodic_due (c : Cache) (now : Z) : bool :=
  match last_cleanup c with None => true | Some last => secs 300 <=? sat_sub now last end.

Definition cleanup (c : Cache) (now : Z) : Cache :=
  let periodic := periodic_due c now in
  let clean b := clean_bucket periodic (limit b) now (bucket c b) in
  mkCache (clean Search) (clean Album) (clean Artist)
    (pop_first (size (isrc c)) 4000 (isrc c))
    (if periodic then Some now else last_cleanup c).

Definition put (c : Cache) (b : Bucket) (key : string) (v : Value) (now : Z) : Cache :=
  cleanup (set_bucket c b (<[key := mkEntry v (now + secs 600)]> (bucket c b))) now.

(** ** Eviction *)

Lemma fold_earlier l best p :
  foldl earlier (Some best) l = Some p ->
  (p = best \/ p ∈ l) /\ expires p.2 <= expires best.2 /\ Forall (fun q => expires p.2 <= expires q.2) l.
Proof.
  revert best. induction l as [|q l IH]; intros best; simpl.
  { intros [= <-]. split; [by left|]. split; [lia|constructor]. }
  destruct (Z.ltb_spec (expires q.2) (expires best.2)); intros Hf%IH; destruct Hf as (Hp & He & Hall).
  all: rewrite elem_of_cons, Forall_cons; split; [naive_solver|]; split; [lia|]; split; [lia|done].
Qed.

Lemma min_by_expires_spec m k e :
  min_by_expires m = Some (k, e) ->
  m !! k = Some e /\ forall k' e', m !! k' = Some e' -> expires e <= expires e'.
Proof.
  unfold min_by_expires. destruct (btree_iter m) as [|q l] eqn:E; [done|]. simpl.
  intros (Hp & He & Hall)%fold_earlier. rewrite <- elem_of_btree_iter, E. split.
  - rewrite elem_of_cons. tauto.
  - intros k' e' Hm. rewrite <- elem_of_btree_iter, E in Hm.
    apply elem_of_cons in Hm as [<-|Hm]; [done|]. rewrite Forall_forall in Hall. exact (Hall _ Hm).
Qed.

Lemma btree_iter_nonempty (m : Entries) : m <> ∅ -> exists q l, btree_iter m = q :: l.
Proof.
  intros Hm. destruct (btree_iter m) as [|q l] eqn:E; [|eauto]. destruct Hm. apply map_empty.
  intros k. destruct (m !! k) eqn:Ek; [|done]. rewrite <- elem_of_btree_iter, E in Ek. set_solver.
Qed.

Lemma min_by_expires_some m : m <> ∅ -> exists k e, min_by_expires m = Some (k, e).
Proof.
  intros (q & l & E)%btree_iter_nonempty. unfold min_by_expires. rewrite E. simpl. clear E m.
  revert q. induction l as [|p l IH]; intros q; simpl; [destruct q; eauto|].
  destruct (expires p.2 <? expires q.2); apply IH.
Qed.

Lemma evict_spec fuel bound m :
  0 <= bound -> (size m <= fuel)%nat ->
  let m' := evict fuel bound m in
  Z.of_nat (size m') <= bound /\ m' ⊆ m /\
  (forall k e, m !! k = Some e -> m' !! k = None ->
     bound < Z.of_nat (size m) /\ forall k' e', m' !! k' = Some e' -> expires e <= expires e') /\
  (Z.of_nat (size m) <= bound -> m' = m) /\ (bound <= Z.of_nat (size m) -> Z.of_nat (size m') = bound).
Proof.
  intros Hb. revert m. induction fuel as [|fuel IH]; intros m Hfuel; simpl.
  { split_conj; try done; try lia. congruence. }
  destruct (Z.ltb_spec bound (Z.of_nat (size m))) as [Hlt|Hge].
  2: { split_conj; try done; try lia. congruence. }
  destruct (min_by_expires_some m) as (k0 & e0 & Hmin).
  { intros ->. rewrite map_size_empty in Hlt. lia. }
  rewrite Hmin. apply min_by_expires_spec in Hmin as [Hk0 Hmin].
  assert (size (delete k0 m) = (size m - 1)%nat) as Hsize by (rewrite map_size_delete_Some by eauto; lia).
  destruct (IH (delete k0 m)) as (H1 & H2 & H3 & _ & H5); [lia|]. split_conj; [done| | |lia|intros; apply H5; lia].
  - etrans; [exact H2|]. apply delete_subseteq.
  - intros k e Hk Hk'. split; [done|]. intros k' e' He'. destruct (decide (k = k0)) as [->|Hne].
    + simplify_eq. assert (m !! k' = Some e').
      { eapply lookup_weaken; [exact He'|]. etrans; [exact H2|]. apply delete_subseteq. }
      by eapply Hmin.
    + eapply (H3 k e); [by rewrite lookup_delete_ne|done|done].
Qed.

Lemma clean_bucket_spec periodic bound now m :
  0 <= bound ->
  let m' := clean_bucket periodic bound now m in
  Z.of_nat (size m') <= bound /\ m' ⊆ m /\
  (forall k e, m !! k = Some e -> now <= expires e -> m' !! k = None ->
     Z.of_nat (size m') = bound /\ forall k' e', m' !! k' = Some e' -> expires e <= expires e').
Proof.
  intros Hb. unfold clean_bucket. destruct (periodic || (bound <? Z.of_nat (size m))) eqn:E; simpl.
  - set (m1 := filter _ m). destruct (evict_spec (size m1) bound m1) as (H1 & H2 & H3 & _ & H5); [done..|].
    split_conj; [done|etrans; [exact H2|apply map_filter_subseteq]|].
    intros k e Hk Hl Hn. assert (m1 !! k = Some e) as Hk1.
    { apply map_lookup_filter_Some. split; [done|]. by apply Z.leb_le. }
    destruct (H3 k e Hk1 Hn). split; [|done]. apply H5. lia.
  - apply orb_false_iff in E as [_ E]. split_conj; [lia|done|congruence].
Qed.

Lemma pop_first_spec fuel bound m :
  0 <= bound -> (size m <= fuel)%nat ->
  Z.of_nat (size (pop_first fuel bound m)) <= bound /\ pop_first fuel bound m ⊆ m.
Proof.
  intros Hb. revert m. induction fuel as [|fuel IH]; intros m Hf; simpl; [split; [lia|done]|].
  destruct (Z.ltb_spec bound (Z.of_nat (size m))); [|split; [lia|done]].
  destruct (btree_keys m) as [|k ks] eqn:E.
  - assert (m = ∅) as ->.
    { apply map_empty. intros k. destruct (m !! k) eqn:Ek; [|done].
      assert (k ∈ btree_keys m) as Hin by (apply elem_of_btree_keys; eauto). rewrite E in Hin. set_solver. }
    rewrite map_size_empty in *. lia.
  - assert (is_Some (m !! k)) by (apply elem_of_btree_keys; rewrite E; left).
    destruct (IH (delete k m)) as [? ?]; [rewrite map_size_delete_Some by done; lia|].
    split; [done|]. etrans; [done|]. apply delete_subseteq.
Qed.

Lemma bucket_cleanup c now b :
  bucket (cleanup c now) b = clean_bucket (periodic_due c now) (limit b) now (bucket c b).
Proof. by destruct b. Qed.

Lemma bucket_set c b b' m : bucket (set_bucket c b m) b' = if decide (b = b') then m else bucket c b'.
Proof. by destruct b, b'. Qed.

Lemma limit_nonneg b : 0 <= limit b.
Proof. by destruct b. Qed.

Definition within_limits (c : Cache) : Prop :=
  (forall b, Z.of_nat (size (bucket c b)) <= limit b) /\ Z.of_nat (size (isrc c)) <= 4000.

Lemma cleanup_within c now : within_limits (cleanup c now).
Proof.
  split; [intros b; rewrite bucket_cleanup; apply clean_bucket_spec, limit_nonneg|].
  simpl. by apply pop_first_spec.
Qed.

Lemma bucket_put c b key v now b' :
  bucket (put c b key v now) b'
  = clean_bucket (periodic_due c now) (limit b') now
      (if decide (b = b') then <[key := mkEntry v (now + secs 600)]> (bucket c b) else bucket c b').
Proof.
  unfold put. rewrite bucket_cleanup, bucket_set. f_equal. by destruct b.
Qed.

(** The cache is bounded and never stale. After a put every bucket and the ISRC index are
    within their limits, whatever the cache held. What a later lookup answers was put for that key
    and bucket, either by this put at most 600 s before the lookup or earlier and still unexpired.
    The value just put is answered for the next 600 s at once after the put unless its bucket is full
    of entries that all expire as late, and an older unexpired value is dropped only from a full
    bucket, never before one that expires earlier. *)
Theorem put_bounded_and_fresh c b key v now :
  let c' := put c b key v now in
  within_limits c' /\
  (forall b' k t w, get c' b' k t = Some w ->
     (b' = b /\ k = key /\ w = v /\ t <= now + secs 600) \/
     (~ (b' = b /\ k = key) /\ get c b' k t = Some w)) /\
  (forall t, t <= now + secs 600 -> get c' b key t = Some v \/
     (Z.of_nat (size (bucket c' b)) = limit b /\
      forall k e, bucket c' b !! k = Some e -> now + secs 600 <= expires e)) /\
  (forall b' k e, ~ (b' = b /\ k = key) -> bucket c b' !! k = Some e -> now <= expires e ->
     bucket c' b' !! k = Some e \/
     (Z.of_nat (size (bucket c' b')) = limit b' /\
      forall k' e', bucket c' b' !! k' = Some e' -> expires e <= expires e')).
Proof.
  simpl. set (stored := fun b' => if decide (b = b') then <[key := mkEntry v (now + secs 600)]> (bucket c b)
                                  else bucket c b').
  assert (forall b', bucket (put c b key v now) b' ⊆ stored b' /\
    (forall k e, stored b' !! k = Some e -> now <= expires e -> bucket (put c b key v now) b' !! k = None ->
     Z.of_nat (size (bucket (put c b key v now) b')) = limit b' /\
     forall k' e', bucket (put c b key v now) b' !! k' = Some e' -> expires e <= expires e')) as Hclean.
  { intros b'. rewrite bucket_put. apply clean_bucket_spec, limit_nonneg. }
  assert (forall b' k, stored b' !! k = if decide (b' = b /\ k = key)
      then Some (mkEntry v (now + secs 600)) else bucket c b' !! k) as Hstored.
  { intros b' k. unfold stored. destruct (decide (b = b')) as [<-|Hb].
    - rewrite lookup_insert. repeat case_decide; naive_solver.
    - rewrite decide_False by naive_solver. done. }
  assert (forall b' k e, bucket (put c b key v now) b' !! k = Some e -> stored b' !! k = Some e) as Hsub.
  { intros b' k e He. eapply lookup_weaken; [exact He|apply Hclean]. }
  assert (forall b' k e, stored b' !! k = Some e -> now <= expires e ->
    bucket (put c b key v now) b' !! k = Some e \/
    (Z.of_nat (size (bucket (put c b key v now) b')) = limit b' /\
     forall k' e', bucket (put c b key v now) b' !! k' = Some e' -> expires e <= expires e')) as Hkeep.
  { intros b' k e He Hl. destruct (bucket (put c b key v now) b' !! k) as [e'|] eqn:E.
    - left. apply Hsub in E. congruence.
    - right. by apply (proj2 (Hclean b') k). }
  split_conj.
  - apply cleanup_within.
  - intros b' k t w. unfold get. destruct (bucket (put c b key v now) b' !! k) as [e|] eqn:E; [|done].
    case_bool; [|done]. intros [= <-]. apply Hsub in E. rewrite Hstored in E. unfold live in *.
    case_decide as Hd; [left|right].
    + destruct Hd as [-> ->]. simplify_eq/=. split_conj; (done || lia).
    + rewrite E. split; [done|]. by rewrite Heqb0.
  - intros t Ht. destruct (Hkeep b key (mkEntry v (now + secs 600))) as [E|E].
    + by rewrite Hstored, decide_True by done.
    + unfold secs in *. simpl in *. lia.
    + left. unfold get, live. rewrite E. simpl. by rewrite (proj2 (Z.leb_le _ _) Ht).
    + by right.
  - intros b' k e Hne He Hl. apply Hkeep; [|done]. by rewrite Hstored, decide_False by done.
Qed.

End cache.
