(* ===== verification/DeezerFlights.v ===== *)
(** * Shared metadata requests: [DeezerClient::coalesced] of [crates/providers/src/deezer/cache.rs]

    Callers that ask for the same key share one fetch: the first becomes the owner of a flight, the
    others wait for its result.  Each caller is a state machine whose steps are the locked sections and
    the calls of the code; a schedule says which caller moves next and what the clock, its check and
    its fetch answer.  A check that panics outside the owner's request is not modelled. *)

From S2P Require Import Prelude DeezerCache.

Inductive ResolverError :=
| Failed (message : string)
| Transport (message : string)
| Cancelled (message : string)
| Closed
| Busy.

#[export] Instance ResolverError_eq_dec : EqDecision ResolverError.
Proof. solve_decision. Defined.

Section flights.
Context {Value : Type}.

Abbreviation Outcome := (result Value ResolverError).

(** The client: its cache, the flights by key, and the results of all flights ever begun. *)
Record Client := mkClient { cache : Cache (Value := Value); flights : gmap string nat; results : list (option Outcome) }.

(** Where a caller is in [coalesced]. *)
Inductive Phase :=
| Checking
| Looking
| Joining
| Rechecking (flight : nat)
| Fetching (flight : nat)
| Confirming (flight : nat) (value : Value)
| Storing (flight : nat) (value : Value)
| Removing (flight : nat) (outcome : Outcome)
| Publishing (flight : nat) (outcome : Outcome)
| Waiting (flight : nat)
| Returned (outcome : Outcome).

(** What a step may ask: the caller's check, its fetch, whether these panic, and the clock. *)
Record Answer := mkAnswer { checked : result unit string; fetched : Outcome; panics : bool; now : Z }.

Definition cached (c : Client) (key : string) (now : Z) : option Value := get (cache c) Search key now.

Definition MAX_FLIGHTS : Z := 64.

(** [matches!(value, Err(Cancelled(_)))] *)
Definition is_cancelled (r : Outcome) : bool := match r with Err (Cancelled _) => true | _ => false end.

Definition panicked : Outcome := Err (Failed "metadata request panicked").

Definition step (key : string) (a : Answer) (p : Phase) (c : Client) : Phase * Client :=
  match p with
  | Checking => (match checked a with Ok _ => Looking | Err e => Returned (Err (Cancelled e)) end, c)
  | Looking => (match cached c key (now a) with Some v => Returned (Ok v) | None => Joining end, c)
  | Joining =>
    match flights c !! key with
    | Some f => (Waiting f, c)
    | None =>
      if MAX_FLIGHTS <=? Z.of_nat (size (flights c)) then (Returned (Err Busy), c)
      else
        let f := length (results c) in
        (Rechecking f, mkClient (cache c) (<[key := f]> (flights c)) (results c ++ [None]))
    end
  | Rechecking f => (match cached c key (now a) with Some v => Confirming f v | None => Fetching f end, c)
  | Fetching f =>
    (if panics a then Removing f panicked
     else match fetched a with Ok v => Confirming f v | Err e => Removing f (Err e) end, c)
  | Confirming f v =>
    (if panics a then Removing f panicked
     else match checked a with Ok _ => Storing f v | Err e => Removing f (Err (Cancelled e)) end, c)
  | Storing f v => (Removing f (Ok v), mkClient (put (cache c) Search key v (now a)) (flights c) (results c))
  | Removing f r => (Publishing f r, mkClient (cache c) (delete key (flights c)) (results c))
  | Publishing f r => (Returned r, mkClient (cache c) (flights c) (<[f := Some r]> (results c)))
  | Waiting f =>
    (match checked a with
     | Err e => Returned (Err (Cancelled e))
     | Ok _ =>
       match results c !! f with
       | Some (Some r) => if is_cancelled r then Checking else Returned r
       | _ => Waiting f
       end
     end, c)
  | Returned r => (p, c)
  end.

(** The callers, each with its key. *)
Record System := mkSystem { client : Client; callers : list (string * Phase) }.

Definition move (i : nat) (a : Answer) (s : System) : System :=
  match callers s !! i with
  | Some (key, p) => let '(p, c) := step key a p (client s) in mkSystem c (<[i := (key, p)]> (callers s))
  | None => s
  end.

Definition run (schedule : list (nat * Answer)) (s : System) : System :=
  fold_left (fun s e => move e.1 e.2 s) schedule s.

(** Callers that begin with a client that has no flight yet. *)
Definition start (c : Cache (Value := Value)) (keys : list string) : System :=
  mkSystem (mkClient c ∅ []) (map (fun key => (key, Checking)) keys).

(** The flight a caller owns, and whether it is still in the table. *)
Definition owned (p : Phase) : option (nat * bool) :=
  match p with
  | Rechecking f | Fetching f | Confirming f _ | Storing f _ | Removing f _ => Some (f, true)
  | Publishing f _ => Some (f, false)
  | _ => None
  end.

(** What a caller has in hand. *)
Definition in_hand (p : Phase) : option Outcome :=
  match p with
  | Confirming _ v | Storing _ v => Some (Ok v)
  | Removing _ r | Publishing _ r | Returned r => Some r
  | _ => None
  end.
End flights.

(** * Shared metadata requests: one flight per key, and nobody else's cancellation

    The invariant of the callers of DeezerFlights under every interleaving, and that flights end. *)

(** ** The invariant *)

Section invariant.
Context {Value : Type}.
Implicit Types (s : System (Value := Value)) (c : Client (Value := Value)) (p q : Phase (Value := Value)).

Abbreviation Outcome := (result Value ResolverError).

(** The outcomes that may answer a key, and the cancellations that are a caller's own. *)
Variable answers : string -> Outcome -> Prop.
Variable own : nat -> string -> Prop.

Definition good (i : nat) (key : string) (r : Outcome) : Prop :=
  match r with Err (Cancelled m) => own i m | Err Busy => True | _ => answers key r end.

(** An answer of caller [i] that tells the truth about both. *)
Definition truthful (i : nat) (key : string) (a : Answer (Value := Value)) : Prop :=
  (forall m, checked a = Err m -> own i m) /\ good i key (fetched a) /\ (panics a = true -> answers key panicked).

Definition owner s (i : nat) (key : string) (f : nat) (b : bool) : Prop :=
  exists p, callers s !! i = Some (key, p) /\ owned p = Some (f, b).

(** [keys] are the keys of the flights. *)
Record Inv s (keys : list string) : Prop := {
  inv_keys : length keys = length (results (client s));
  inv_flights : forall key f, flights (client s) !! key = Some f <-> exists i, owner s i key f true;
  inv_owner : forall i j key key' f b b', owner s i key f b -> owner s j key' f b' -> i = j;
  inv_open : forall f, results (client s) !! f = Some None <-> exists i key b, owner s i key f b;
  inv_owner_key : forall i key f b, owner s i key f b -> keys !! f = Some key;
  inv_waiting : forall i key f, callers s !! i = Some (key, Waiting f) -> keys !! f = Some key;
  inv_results : forall f key r, keys !! f = Some key -> results (client s) !! f = Some (Some r) ->
    is_cancelled r = true \/ r = Err Busy \/ answers key r;
  inv_hand : forall i key p r, callers s !! i = Some (key, p) -> in_hand p = Some r -> good i key r;
  inv_cache : forall key now v, get (cache (client s)) Search key now = Some v -> answers key (Ok v);
  inv_size : Z.of_nat (size (flights (client s))) <= MAX_FLIGHTS }.

Lemma lookup_moved {A} (l : list A) i x0 x j y :
  l !! i = Some x0 -> <[i := x]> l !! j = Some y <-> (j = i /\ y = x) \/ (j <> i /\ l !! j = Some y).
Proof.
  intros Hi. destruct (decide (j = i)) as [->|Hne].
  - rewrite list_lookup_insert_eq by (by eapply lookup_lt_Some). split; [intros [= <-]; by left|]. intros [[_ ->]|[? _]]; done.
  - rewrite list_lookup_insert_ne by done. tauto.
Qed.

Section move.
Variables (s : System (Value := Value)) (keys : list string) (i : nat) (key : string) (p p' : Phase (Value := Value)).
Hypothesis Hinv : Inv s keys.
Hypothesis Hi : callers s !! i = Some (key, p).

Definition moved c := mkSystem c (<[i := (key, p')]> (callers s)).

(** The owners after the move. *)
Lemma owner_moved c j k f b :
  owner (moved c) j k f b <-> (j = i /\ k = key /\ owned p' = Some (f, b)) \/ (j <> i /\ owner s j k f b).
Proof.
  unfold owner, moved. cbn [callers]. split.
  - intros (q & [[-> [= <- <-]]|[Hne Hq]]%(lookup_moved _ _ _ _ _ _ Hi) & Ho); [by left|right]. eauto.
  - intros [(-> & -> & Ho)|(Hne & q & Hq & Ho)].
    + exists p'. split; [|done]. apply (lookup_moved _ _ _ _ _ _ Hi). by left.
    + exists q. split; [|done]. apply (lookup_moved _ _ _ _ _ _ Hi). by right.
Qed.

Lemma owner_here f b : owner s i key f b <-> owned p = Some (f, b).
Proof. unfold owner. split; [|eauto]. intros (q & Hq & Ho). congruence. Qed.

Lemma owner_key j k f b : j = i -> owner s j k f b -> k = key.
Proof. intros -> (q & Hq & _). congruence. Qed.

Hypothesis Hwait : forall f, p' = Waiting f -> keys !! f = Some key.
Hypothesis Hhand : forall r, in_hand p' = Some r -> good i key r.

Lemma waiting_moved c j k f : callers (moved c) !! j = Some (k, Waiting f) -> keys !! f = Some k.
Proof.
  unfold moved. cbn [callers]. intros [[-> [= -> Hp]]|[_ Hq]]%(lookup_moved _ _ _ _ _ _ Hi); [by apply Hwait|by eapply inv_waiting].
Qed.

Lemma hand_moved c j k q r : callers (moved c) !! j = Some (k, q) -> in_hand q = Some r -> good j k r.
Proof.
  unfold moved. cbn [callers]. intros [[-> [= -> ->]]|[_ Hq]]%(lookup_moved _ _ _ _ _ _ Hi); [apply Hhand|by eapply inv_hand].
Qed.

(** A move that neither begins nor ends a flight. *)
Lemma Inv_same cache' :
  owned p' = owned p -> (forall k now v, get cache' Search k now = Some v -> answers k (Ok v)) ->
  Inv (moved (mkClient cache' (flights (client s)) (results (client s)))) keys.
Proof.
  intros Ho Hcache. set (s' := moved _).
  assert (forall j k f b, owner s' j k f b <-> owner s j k f b) as Hsame.
  { intros j k f b. unfold s'. rewrite owner_moved, Ho. split.
    - intros [(-> & -> & Hf)|[_ Hq]]; [by apply owner_here|done].
    - intros Hq. destruct (decide (j = i)) as [->|Hne]; [left|by right]. assert (k = key) as -> by (by eapply owner_key).
      split_conj; [done|done|by apply owner_here]. }
  split.
  - apply Hinv.
  - intros k f. setoid_rewrite Hsame. by apply (inv_flights _ _ Hinv).
  - intros j j' k k' f b b'. rewrite !Hsame. by apply (inv_owner _ _ Hinv).
  - intros f. setoid_rewrite Hsame. by apply (inv_open _ _ Hinv).
  - intros j k f b. rewrite Hsame. by apply (inv_owner_key _ _ Hinv).
  - apply waiting_moved.
  - apply (inv_results _ _ Hinv).
  - apply hand_moved.
  - exact Hcache.
  - apply Hinv.
Qed.

Lemma owner_flight j k f b : owner s j k f b -> (f < length (results (client s)))%nat.
Proof. intros Ho. eapply lookup_lt_Some, (inv_open _ _ Hinv). eauto. Qed.

(** A new flight. *)
Lemma Inv_begin :
  owned p = None -> owned p' = Some (length (results (client s)), true) -> flights (client s) !! key = None ->
  Z.of_nat (size (flights (client s))) < MAX_FLIGHTS ->
  Inv (moved (mkClient (cache (client s)) (<[key := length (results (client s))]> (flights (client s))) (results (client s) ++ [None])))
    (keys ++ [key]).
Proof.
  intros Hp Ho Hnone Hsize. set (s' := moved _). set (f0 := length (results (client s))) in *. pose proof (inv_keys _ _ Hinv) as Hlen.
  assert (forall j k f b, owner s' j k f b <-> (j = i /\ k = key /\ f = f0 /\ b = true) \/ owner s j k f b) as Hown.
  { intros j k f b. unfold s'. rewrite owner_moved, Ho. split; [naive_solver|]. intros [(-> & -> & -> & ->)|Hq]; [by left|right].
    split; [|done]. intros ->. assert (k = key) as -> by (by eapply owner_key). apply owner_here in Hq. congruence. }
  assert (forall j k f b, owner s j k f b -> f <> f0) as Hnew by (intros j k f b Hq%owner_flight; lia).
  assert (forall f k, keys !! f = Some k -> (keys ++ [key]) !! f = Some k) as Hold by (intros f k; apply lookup_app_l_Some).
  assert ((keys ++ [key]) !! f0 = Some key) as Hkey by (unfold f0; rewrite <- Hlen; by apply list_lookup_middle).
  split; cbn [s' moved client flights results cache].
  - rewrite !length_app. simpl. lia.
  - intros k f. setoid_rewrite Hown. rewrite lookup_insert_Some. pose proof (inv_flights _ _ Hinv k f) as Hk. split.
    + intros [[<- <-]|[Hne Hf]]; [exists i; by left|]. apply Hk in Hf as [j Hj]. eauto.
    + intros [j [(-> & -> & -> & _)|Hj]]; [by left|]. right. assert (flights (client s) !! k = Some f) by (apply Hk; eauto). split; congruence.
  - intros j j' k k' f b b'. rewrite !Hown.
    intros [(-> & _ & -> & _)|Hj] [(-> & _ & ? & _)|Hj']; subst; try done; try (by exfalso; eapply Hnew).
    by eapply inv_owner.
  - intros f. setoid_rewrite Hown. pose proof (inv_open _ _ Hinv f) as Hf. rewrite lookup_app_Some. split.
    + intros [H1|[H1 H2]]; [apply Hf in H1; naive_solver|]. exists i, key, true. left. split_conj; try done.
      apply list_lookup_singleton_Some in H2 as [? _]. unfold f0. lia.
    + intros (j & k & b & [(-> & -> & -> & ->)|Hj]); [right|left; apply Hf; eauto]. unfold f0. by rewrite Nat.sub_diag.
  - intros j k f b. rewrite Hown. intros [(-> & -> & -> & _)|Hj]; [done|]. by eapply Hold, inv_owner_key.
  - intros j k f Hw. destruct (decide (f = f0)) as [->|Hf].
    + rewrite Hkey. unfold moved in Hw. cbn [callers] in Hw. apply (lookup_moved _ _ _ _ _ _ Hi) in Hw as [[-> [= -> _]]|[_ Hq]]; [done|].
      apply (inv_waiting _ _ Hinv) in Hq. apply lookup_lt_Some in Hq. unfold f0 in Hq. lia.
    + by eapply Hold, waiting_moved.
  - intros f k r Hk. rewrite lookup_app_Some. intros [Hr|[_ Hr]]; [|by apply list_lookup_singleton_Some in Hr as [_ ?]].
    apply (inv_results _ _ Hinv f k r); [|done]. apply lookup_app_Some in Hk as [Hk|[Hge _]]; [done|].
    apply lookup_lt_Some in Hr. lia.
  - apply hand_moved.
  - apply (inv_cache _ _ Hinv).
  - rewrite map_size_insert_None by done. lia.
Qed.

(** The owner takes the flight from the table. *)
Lemma Inv_remove f0 :
  owned p = Some (f0, true) -> owned p' = Some (f0, false) ->
  Inv (moved (mkClient (cache (client s)) (delete key (flights (client s))) (results (client s)))) keys.
Proof.
  intros Hp Ho. set (s' := moved _).
  assert (owner s i key f0 true) as Hmine by (by apply owner_here).
  assert (forall j k f b, owner s' j k f b <-> (j = i /\ k = key /\ f = f0 /\ b = false) \/ (j <> i /\ owner s j k f b)) as Hown.
  { intros j k f b. unfold s'. rewrite owner_moved, Ho. naive_solver. }
  assert (flights (client s) !! key = Some f0) as Hf0 by (apply (inv_flights _ _ Hinv); eauto).
  assert (forall j k f b, owner s j k f b -> exists b', owner s' j k f b' /\ (j <> i -> b' = b)) as Hkeep.
  { intros j k f b Hq. destruct (decide (j = i)) as [->|Hne]; [|exists b; rewrite Hown; naive_solver].
    assert (k = key) as -> by (by eapply owner_key). apply owner_here in Hq. exists false. rewrite Hown. split; [left; naive_solver congruence|done]. }
  split; cbn [s' moved client flights results cache].
  - apply Hinv.
  - intros k f. setoid_rewrite Hown. rewrite lookup_delete_Some, (inv_flights _ _ Hinv). split.
    + intros [Hne [j Hj]]. exists j. right. split; [|done]. intros ->. destruct Hne. symmetry. by eapply owner_key.
    + intros [j [(_ & _ & _ & ?)|[Hne Hj]]]; [done|]. split; [|eauto]. intros <-.
      assert (flights (client s) !! key = Some f) as Hf by (apply (inv_flights _ _ Hinv); eauto).
      assert (f = f0) as -> by congruence. apply Hne. by eapply (inv_owner _ _ Hinv).
  - intros j j' k k' f b b' H1 H2. rewrite Hown in H1, H2.
    assert (forall j k b, (j = i /\ k = key /\ f = f0 /\ b = false) \/ (j <> i /\ owner s j k f b) -> exists k b, owner s j k f b) as Hback.
    { intros ? ? ? [(-> & -> & -> & _)|[_ ?]]; eauto. }
    apply Hback in H1 as (? & ? & H1), H2 as (? & ? & H2). by eapply inv_owner.
  - intros f. rewrite (inv_open _ _ Hinv). split.
    + intros (j & k & b & Hq). destruct (Hkeep _ _ _ _ Hq) as (b' & Hq' & _). eauto.
    + intros (j & k & b & Hq). rewrite Hown in Hq. destruct Hq as [(-> & -> & -> & _)|[_ Hq]]; eauto.
  - intros j k f b. rewrite Hown. intros [(-> & -> & -> & _)|[_ Hq]]; by eapply inv_owner_key.
  - apply waiting_moved.
  - apply (inv_results _ _ Hinv).
  - apply hand_moved.
  - apply (inv_cache _ _ Hinv).
  - pose proof (inv_size _ _ Hinv). rewrite map_size_delete_Some by eauto. lia.
Qed.

(** The owner leaves the result. *)
Lemma Inv_publish f0 r :
  owned p = Some (f0, false) -> in_hand p = Some r -> owned p' = None ->
  Inv (moved (mkClient (cache (client s)) (flights (client s)) (<[f0 := Some r]> (results (client s))))) keys.
Proof.
  intros Hp Hr Ho. set (s' := moved _).
  assert (owner s i key f0 false) as Hmine by (by apply owner_here).
  assert (forall j k f b, owner s' j k f b <-> j <> i /\ owner s j k f b) as Hown.
  { intros j k f b. unfold s'. rewrite owner_moved, Ho. naive_solver. }
  pose proof (owner_flight _ _ _ _ Hmine) as Hlt.
  split; cbn [s' moved client flights results cache].
  - rewrite length_insert. apply Hinv.
  - intros k f. setoid_rewrite Hown. rewrite (inv_flights _ _ Hinv). split; [|naive_solver].
    intros [j Hj]. exists j. split; [|done]. intros ->. assert (k = key) as -> by (by eapply owner_key). apply owner_here in Hj. congruence.
  - intros j j' k k' f b b'. rewrite !Hown. intros [_ ?] [_ ?]. by eapply inv_owner.
  - intros f. setoid_rewrite Hown. destruct (decide (f = f0)) as [->|Hne].
    + rewrite list_lookup_insert_eq by done. split; [done|]. intros (j & k & b & Hj & Hq). destruct Hj. by eapply inv_owner.
    + rewrite list_lookup_insert_ne, (inv_open _ _ Hinv) by done. split; [|naive_solver]. intros (j & k & b & Hq).
      exists j, k, b. split; [|done]. intros ->. assert (k = key) as -> by (by eapply owner_key). apply owner_here in Hq. congruence.
  - intros j k f b. rewrite Hown. intros [_ Hq]. by eapply inv_owner_key.
  - apply waiting_moved.
  - intros f k r' Hk. destruct (decide (f = f0)) as [->|Hne].
    + rewrite list_lookup_insert_eq by done. intros [= <-]. assert (k = key) as ->.
      { pose proof (inv_owner_key _ _ Hinv _ _ _ _ Hmine). congruence. }
      pose proof (inv_hand _ _ Hinv _ _ _ _ Hi Hr) as Hg. unfold good in Hg. destruct r as [v|[m|m|m| |]]; naive_solver.
    + rewrite list_lookup_insert_ne by done. by apply (inv_results _ _ Hinv).
  - apply hand_moved.
  - apply (inv_cache _ _ Hinv).
  - apply Hinv.
Qed.
End move.

(** A lookup after a [put] answers the value put, or what it answered before. *)
Lemma get_put (c : Cache (Value := Value)) b key v now k t w :
  get (put c b key v now) b k t = Some w -> (k = key /\ w = v) \/ get c b k t = Some w.
Proof.
  unfold get. destruct (bucket (put c b key v now) b !! k) as [e|] eqn:E; [|done].
  assert (<[key := mkEntry v (now + secs 600)]> (bucket c b) !! k = Some e) as Hin.
  { rewrite bucket_put, decide_True in E by done. eapply lookup_weaken; [exact E|]. apply clean_bucket_spec, limit_nonneg. }
  apply lookup_insert_Some in Hin as [[<- <-]|[_ ->]]; [|by right]. destruct (live t _); [|done]. intros [= <-]. by left.
Qed.

Lemma step_Inv s keys i key p a :
  Inv s keys -> callers s !! i = Some (key, p) -> truthful i key a -> exists keys', Inv (move i a s) keys'.
Proof.
  intros Hinv Hi (Hcheck & Hfetch & Hpanic). unfold move. rewrite Hi.
  assert (forall v now, cached (client s) key now = Some v -> answers key (Ok v)) as Hcached by (intros v now; apply (inv_cache _ _ Hinv)).
  assert (forall p' cache', owned p' = owned p -> (forall f, p' = Waiting f -> keys !! f = Some key) -> (forall r, in_hand p' = Some r -> good i key r) ->
    (forall k now v, get cache' Search k now = Some v -> answers k (Ok v)) ->
    exists keys', Inv (mkSystem (mkClient cache' (flights (client s)) (results (client s))) (<[i := (key, p')]> (callers s))) keys') as Hsame.
  { intros p' cache' Ho Hw Hh Hc. exists keys. by eapply Inv_same. }
  assert (forall p', owned p' = owned p -> (forall f, p' = Waiting f -> keys !! f = Some key) -> (forall r, in_hand p' = Some r -> good i key r) ->
    exists keys', Inv (mkSystem (client s) (<[i := (key, p')]> (callers s))) keys') as Hstay.
  { intros p' Ho Hw Hh. destruct (client s) as [ca fl re] eqn:E. pose proof (inv_cache _ _ Hinv) as Hc. rewrite E in Hc.
    destruct (Hsame p' ca Ho Hw Hh Hc) as [keys' Hk]. eauto. }
  assert (forall v, in_hand p = Some (Ok v) -> answers key (Ok v)) as Hvalue by (intros v Hv; apply (inv_hand _ _ Hinv _ _ _ _ Hi Hv)).
  destruct p; cbn [step].
  - destruct (checked a) as [[]|e]; apply Hstay; try done. intros r [= <-]. by apply Hcheck.
  - destruct (cached _ _ _) as [v|] eqn:Ec; apply Hstay; try done. intros r [= <-]. by eapply Hcached.
  - destruct (flights (client s) !! key) as [f|] eqn:Ef.
    + apply Hstay; try done. intros f' [= <-]. apply (inv_flights _ _ Hinv) in Ef as [j Hj]. by eapply inv_owner_key.
    + destruct (Z.leb_spec MAX_FLIGHTS (Z.of_nat (size (flights (client s))))); [apply Hstay; try done; by intros r [= <-]|].
      eexists. by eapply Inv_begin.
  - destruct (cached _ _ _) as [v|] eqn:Ec; apply Hstay; try done. intros r [= <-]. by eapply Hcached.
  - destruct (panics a); [apply Hstay; try done; intros r [= <-]; by apply Hpanic|].
    destruct (fetched a) as [v|e]; apply Hstay; try done; by intros r [= <-].
  - destruct (panics a); [apply Hstay; try done; intros r [= <-]; by apply Hpanic|].
    destruct (checked a) as [[]|e]; apply Hstay; try done; intros r [= <-]; [by apply Hvalue|by apply Hcheck].
  - apply Hsame; try done; [intros r [= <-]; by apply Hvalue|]. intros k t w [[-> ->]|Hg]%get_put; [by apply Hvalue|by eapply inv_cache].
  - exists keys. eapply Inv_remove; try done. intros r [= <-]. by eapply inv_hand.
  - exists keys. eapply Inv_publish; try done. intros r [= <-]. by eapply inv_hand.
  - destruct (checked a) as [[]|e]; [|apply Hstay; try done; intros r [= <-]; by apply Hcheck].
    pose proof (inv_waiting _ _ Hinv _ _ _ Hi) as Hk.
    destruct (results (client s) !! flight) as [[r|]|] eqn:Er; [|apply Hstay; try done; by intros f [= <-]..].
    destruct (inv_results _ _ Hinv _ _ _ Hk Er) as [Hc|Hr]; [rewrite Hc; by apply Hstay|].
    destruct (is_cancelled r) eqn:Hc; [by apply Hstay|]. apply Hstay; try done. intros r' [= <-].
    destruct Hr as [->|Hr]; [done|]. unfold good. by destruct r as [v|[m|m|m| |]].
  - apply Hstay; try done. intros r [= <-]. by eapply inv_hand.
Qed.

Lemma move_key i a s j key p : callers (move i a s) !! j = Some (key, p) -> exists q, callers s !! j = Some (key, q).
Proof.
  unfold move. destruct (callers s !! i) as [[k q]|] eqn:Ei; [|eauto]. destruct (step k a q (client s)) as [q' c']. cbn [callers].
  intros [[-> [= -> ->]]|[_ Hj]]%(lookup_moved _ _ _ _ _ _ Ei); eauto.
Qed.

Lemma run_Inv schedule s keys :
  Inv s keys -> (forall i a key p, (i, a) ∈ schedule -> callers s !! i = Some (key, p) -> truthful i key a) ->
  exists keys', Inv (run schedule s) keys'.
Proof.
  revert s keys. induction schedule as [|[i a] schedule IH]; intros s keys Hinv Ht; [by exists keys|].
  assert (exists keys', Inv (move i a s) keys') as [keys' Hinv'].
  { destruct (callers s !! i) as [[key p]|] eqn:Ei.
    - eapply step_Inv; [done|done|]. eapply Ht; [left|done].
    - unfold move. rewrite Ei. by exists keys. }
  apply (IH _ _ Hinv'). intros j b key p Hin Hj. apply move_key in Hj as [q Hj]. eapply Ht; [by right|done].
Qed.

Lemma start_Inv (ca : Cache (Value := Value)) keys :
  (forall key now v, get ca Search key now = Some v -> answers key (Ok v)) -> Inv (start ca keys) [].
Proof.
  intros Hc. assert (forall j k p, callers (start ca keys) !! j = Some (k, p) -> p = Checking) as Hp.
  { intros j k p. unfold start. cbn [callers]. rewrite list_lookup_fmap. by destruct (keys !! j); [intros [= _ <-]|]. }
  assert (forall j k f b, ~ owner (start ca keys) j k f b) as Hown by (intros j k f b (p & Hq%Hp & Ho); by subst).
  split; cbn [start client flights results cache]; try done.
  - intros k f. rewrite lookup_empty. split; [done|]. intros [j Hj]. by destruct (Hown _ _ _ _ Hj).
  - intros j j' k k' f b b' Hj. by destruct (Hown _ _ _ _ Hj).
  - intros f. split; [done|]. intros (j & k & b & Hj). by destruct (Hown _ _ _ _ Hj).
  - intros j k f b Hj. by destruct (Hown _ _ _ _ Hj).
  - intros j k f Hq%Hp. done.
  - intros j k p r Hq%Hp. by subst.
Qed.
End invariant.

(** ** Flights end *)

Section ends.
Context {Value : Type}.
Implicit Types (s : System (Value := Value)) (p q : Phase (Value := Value)).

Abbreviation Sound := (Inv (Value := Value) (fun _ _ => True) (fun _ _ => True)).

Lemma all_good i key (r : result Value ResolverError) : good (fun _ _ => True) (fun _ _ => True) i key r.
Proof. unfold good. by destruct r as [v|[m|m|m| |]]. Qed.

Lemma move_Sound i a s keys : Sound s keys -> exists keys', Sound (move i a s) keys'.
Proof.
  intros Hinv. destruct (run_Inv _ _ [(i, a)] s keys Hinv) as [keys' Hk]; [|by exists keys'].
  intros j b key p _ _. unfold truthful. split_conj; try done. apply all_good.
Qed.

(** How many steps an owner needs to leave the result. *)
Definition rank p : nat :=
  match p with
  | Rechecking _ => 6 | Fetching _ => 5 | Confirming _ _ => 4 | Storing _ _ => 3 | Removing _ _ => 2 | Publishing _ _ => 1
  | _ => 0
  end.

Lemma step_rank key a p (c : Client (Value := Value)) f b :
  owned p = Some (f, b) ->
  (exists b', owned (step key a p c).1 = Some (f, b') /\ (rank (step key a p c).1 < rank p)%nat) \/
  (exists r, results (step key a p c).2 = <[f := Some r]> (results c)).
Proof.
  destruct p; try done; intros [= <- <-]; cbn [step].
  - left. exists true. destruct (cached _ _ _); cbn; split; (done || lia).
  - left. exists true. destruct (panics a); [cbn; split; (done || lia)|]. destruct (fetched a); cbn; split; (done || lia).
  - left. exists true. destruct (panics a); [cbn; split; (done || lia)|]. destruct (checked a); cbn; split; (done || lia).
  - left. exists true. cbn. split; (done || lia).
  - left. exists false. cbn. split; (done || lia).
  - right. exists outcome. done.
Qed.

(** A step leaves the results alone, begins a flight, or publishes that of its caller. *)
Lemma step_results key a p (c : Client (Value := Value)) :
  results (step key a p c).2 = results c \/ results (step key a p c).2 = results c ++ [None] \/
  exists f r, owned p = Some (f, false) /\ results (step key a p c).2 = <[f := Some r]> (results c).
Proof.
  destruct p; cbn [step]; try (by left); try (right; right; by eauto).
  destruct (flights c !! key); [by left|]. destruct (_ <=? _); [by left|]. by right; left.
Qed.

Lemma results_stay i a s keys f r :
  Sound s keys -> results (client s) !! f = Some (Some r) -> results (client (move i a s)) !! f = Some (Some r).
Proof.
  intros Hinv Hr. unfold move. destruct (callers s !! i) as [[key p]|] eqn:Ei; [|done].
  pose proof (step_results key a p (client s)) as Hs. destruct (step key a p (client s)) as [p' c']. cbn [client snd] in *.
  destruct Hs as [->|[->|(f' & r' & Ho & ->)]]; [done|by apply lookup_app_l_Some|].
  destruct (decide (f = f')) as [->|Hne]; [|by rewrite list_lookup_insert_ne].
  assert (results (client s) !! f' = Some None) as Hopen; [|congruence].
  apply (inv_open _ _ _ _ Hinv). exists i, key, false, p. done.
Qed.

Lemma run_stay schedule s keys f r :
  Sound s keys -> results (client s) !! f = Some (Some r) -> results (client (run schedule s)) !! f = Some (Some r).
Proof.
  revert s keys. induction schedule as [|[i a] schedule IH]; intros s keys Hinv Hr; [done|].
  destruct (move_Sound i a s keys Hinv) as [keys' Hinv']. apply (IH _ keys' Hinv'). by eapply results_stay.
Qed.

Definition moves (i : nat) (schedule : list (nat * Answer (Value := Value))) : nat :=
  length (List.filter (fun e => (e.1 =? i)%nat) schedule).

Lemma owner_ends i schedule s keys key p f b :
  Sound s keys -> callers s !! i = Some (key, p) -> owned p = Some (f, b) -> (rank p <= moves i schedule)%nat ->
  exists r, results (client (run schedule s)) !! f = Some (Some r).
Proof.
  revert s keys p b. induction schedule as [|[j a] schedule IH]; intros s keys p b Hinv Hi Ho Hm.
  { exfalso. unfold moves in Hm. destruct p; simpl in Hm; (done || lia). }
  destruct (move_Sound j a s keys Hinv) as [keys' Hinv']. change (run ((j, a) :: schedule) s) with (run schedule (move j a s)).
  unfold moves in Hm. cbn [List.filter fst] in Hm. destruct (Nat.eqb_spec j i) as [->|Hne].
  - cbn [length] in Hm. pose proof (step_rank key a p (client s) f b Ho) as Hs. pose proof Hinv' as Hinv''. unfold move in Hinv'. rewrite Hi in Hinv'.
    destruct (step key a p (client s)) as [p' c'] eqn:Es. cbn [fst snd] in Hs.
    assert (move i a s = mkSystem c' (<[i := (key, p')]> (callers s))) as Hmove by (unfold move; rewrite Hi, Es; done).
    assert (i < length (callers s))%nat as Hlt by (by eapply lookup_lt_Some).
    destruct Hs as [(b' & Ho' & Hr)|[r Hr]].
    + eapply (IH _ keys' p' b' Hinv''); [|done|unfold moves; lia]. rewrite Hmove. cbn [callers]. by apply list_lookup_insert_eq.
    + exists r. eapply run_stay; [exact Hinv''|]. rewrite Hmove. cbn [client]. rewrite Hr. apply list_lookup_insert_eq.
      apply (lookup_lt_Some _ f None). apply (inv_open _ _ _ _ Hinv). exists i, key, b, p. done.
  - eapply (IH _ keys' p b Hinv'); [|done|exact Hm]. unfold move. destruct (callers s !! j) as [[k q]|] eqn:Ej; [|done].
    destruct (step k a q (client s)) as [q' c']. cbn [callers]. by rewrite list_lookup_insert_ne.
Qed.
End ends.

(** ** What the callers get *)

Section results.
Context {Value : Type}.
Abbreviation Outcome := (result Value ResolverError).

(** Outcomes that belong to a key: what the cache had, or what a request for the key answered. *)
Definition belongs (c : Cache (Value := Value)) (keys : list string) (schedule : list (nat * Answer)) (key : string) (r : Outcome) : Prop :=
  (exists now v, get c Search key now = Some v /\ r = Ok v) \/
  (exists i a, (i, a) ∈ schedule /\ keys !! i = Some key /\ (r = fetched a \/ panics a = true /\ r = panicked)).

(** A cancellation that the caller's own check, or its own request, reported. *)
Definition own_cancellation (schedule : list (nat * Answer (Value := Value))) (i : nat) (m : string) : Prop :=
  exists a, (i, a) ∈ schedule /\ (checked a = Err m \/ fetched a = Err (Cancelled m)).

(** C34: Callers for a key share one request, and nobody else's cancellation.  Whatever the
    interleaving, one caller at most holds the flight of a key, and there are at most 64; what a caller
    returns was cached for its key or answered by a request for it, and it reports a cancellation only
    if it was its own; a caller that waits does so for a flight whose result is there, and then takes
    it at its next step or, if the owner was cancelled, begins again, or whose owner leaves a result
    within six steps of its own. *)
Theorem shared_request (c : Cache) (keys : list string) (schedule : list (nat * Answer)) :
  let s := run schedule (start c keys) in
  (forall i j key p q f g, callers s !! i = Some (key, p) -> callers s !! j = Some (key, q) ->
     owned p = Some (f, true) -> owned q = Some (g, true) -> i = j) /\
  Z.of_nat (size (flights (client s))) <= MAX_FLIGHTS /\
  (forall i key r, callers s !! i = Some (key, Returned r) ->
     match r with Err (Cancelled m) => own_cancellation schedule i m | Err Busy => True | _ => belongs c keys schedule key r end) /\
  (forall i key f, callers s !! i = Some (key, Waiting f) ->
     (exists r, results (client s) !! f = Some (Some r) /\ forall a, checked a = Ok tt ->
        callers (move i a s) !! i = Some (key, if is_cancelled r then Checking else Returned r)) \/
     (exists j p b, callers s !! j = Some (key, p) /\ owned p = Some (f, b) /\
        forall more, (6 <= moves j more)%nat -> exists r, results (client (run more s)) !! f = Some (Some r))).
Proof.
  cbv zeta. set (s := run schedule (start c keys)).
  destruct (run_Inv (belongs c keys schedule) (own_cancellation schedule) schedule (start c keys) []) as [labels Hinv].
  { apply start_Inv. intros key now v Hv. left. eauto. }
  { intros i a key p Hin Hi. unfold start in Hi. cbn [callers] in Hi. rewrite list_lookup_fmap in Hi.
    destruct (keys !! i) as [k|] eqn:Ek; [|done]. injection Hi as -> _.
    assert (belongs c keys schedule key (fetched a)) as Hf by (right; exists i, a; auto).
    unfold truthful. split_conj; [intros m Hm; exists a; auto| |intros Hp; right; exists i, a; auto].
    unfold good. destruct (fetched a) as [v|[m|m|m| |]] eqn:E; rewrite <- ?E in *; try done. exists a. auto. }
  destruct (run_Inv (fun _ _ => True) (fun _ _ => True) schedule (start c keys) []) as [labels' Hsound].
  { by apply start_Inv. }
  { intros i a key p _ _. unfold truthful. split_conj; try done. apply all_good. }
  fold s in Hinv, Hsound. split_conj.
  - intros i j key p q f g Hi Hj Hp Hq.
    assert (flights (client s) !! key = Some f) as Hf by (apply (inv_flights _ _ _ _ Hinv); exists i, p; done).
    assert (flights (client s) !! key = Some g) as Hg by (apply (inv_flights _ _ _ _ Hinv); exists j, q; done).
    assert (g = f) as -> by congruence. eapply (inv_owner _ _ _ _ Hinv i j key key f true true); [by exists p|by exists q].
  - apply Hinv.
  - intros i key r Hi. exact (inv_hand _ _ _ _ Hinv _ _ _ r Hi eq_refl).
  - intros i key f Hi. pose proof (inv_waiting _ _ _ _ Hinv _ _ _ Hi) as Hk. apply lookup_lt_Some in Hk as Hlt.
    rewrite (inv_keys _ _ _ _ Hinv) in Hlt. destruct (lookup_lt_is_Some_2 _ _ Hlt) as [[r|] Hr]; [left|right].
    + exists r. split; [done|]. intros a Ha. unfold move. rewrite Hi. cbn [step]. rewrite Ha, Hr. cbn [callers].
      rewrite list_lookup_insert_eq by (by eapply lookup_lt_Some). by destruct (is_cancelled r).
    + apply (inv_open _ _ _ _ Hinv) in Hr as (j & k & b & Hj). pose proof (inv_owner_key _ _ _ _ Hinv _ _ _ _ Hj) as Hk'.
      assert (k = key) as -> by congruence. destruct Hj as (p & Hp & Ho). exists j, p, b. split_conj; [done|done|].
      intros more Hm. eapply owner_ends; [exact Hsound|done|done|]. destruct p; simpl; lia.
Qed.
End results.
