(* ===== verification/UsbDescriptors.v ===== *)
(** * USB audio descriptors: [crates/mobile/src/usb_audio/descriptors.rs]

    Parsing the configuration descriptor of an audio device, choosing the alternate settings that
    carry a stream unchanged, and the packet clock.  An index out of a slice panics in the code; here
    it makes the whole computation [None]. *)

From S2P Require Import Prelude Float64 UsbFraming.

Record Endpoint := mkEndpoint {
  address : Z; attributes : Z; max_packet : Z; interval : Z; sync_address : Z; rate_control : bool }.

Record Alternate := mkAlternate {
  control : Z; interface : Z; alternate : Z; uac2 : bool; terminal : Z; clock : Z;
  alt_channels : Z; alt_bits : Z; alt_subslot : Z; pcm : bool;
  rates : list (Z * Z); endpoints : list Endpoint }.

Record Device := mkDevice {
  vendor : Z; product : Z; revision : Z; alternates : list Alternate }.

Definition empty_device : Device := mkDevice 0 0 0 [].

(** [d[i]]. *)
Definition at_ (d : bytes) (i : nat) : option Z := d !! i.

Definition u16le_at (d : bytes) (i : nat) : option Z :=
  a ← at_ d i; b ← at_ d (i + 1); Some (from_le [a; b]).
Definition u24le_at (d : bytes) (i : nat) : option Z :=
  a ← at_ d i; b ← at_ d (i + 1); c ← at_ d (i + 2); Some (from_le [a; b; c]).
Definition u32le_at (d : bytes) (i : nat) : option Z :=
  a ← at_ d i; b ← at_ d (i + 1); c ← at_ d (i + 2); e ← at_ d (i + 3); Some (from_le [a; b; c; e]).

(** The variables of the loop of [parse]. *)
Record ParseState := mkParse {
  device : Device; current : option Alternate; ctl : Z; is_control : bool;
  clocks : gmap (Z * Z) Z; configurations : Z }.

Definition start_parse : ParseState := mkParse empty_device None 0 false ∅ 0.

Definition push_alternate (dv : Device) (a : Alternate) : Device :=
  mkDevice (vendor dv) (product dv) (revision dv) (alternates dv ++ [a]).

Definition set_current (s : ParseState) (a : option Alternate) : ParseState :=
  mkParse (device s) a (ctl s) (is_control s) (clocks s) (configurations s).

(** [if let Some(a) = current.as_mut()]. *)
Definition update_current (s : ParseState) (f : Alternate -> option Alternate) : option ParseState :=
  match current s with
  | None => Some s
  | Some a => a ← f a; Some (set_current s (Some a))
  end.

(** Descriptor type 4: a new interface closes the alternate being read. *)
Definition on_interface (s : ParseState) (d : bytes) : option ParseState :=
  let dv := match current s with Some a => push_alternate (device s) a | None => device s end in
  d2 ← at_ d 2; d3 ← at_ d 3; d5 ← at_ d 5; d6 ← at_ d 6; d7 ← at_ d 7;
  let ctl := if (d5 =? 1) && (d6 =? 1) then d2 else ctl s in
  let cur := if (d5 =? 1) && (d6 =? 2) && (0 <? d3) && ((d7 =? 0) || (d7 =? 32))
             then Some (mkAlternate ctl d2 d3 (d7 =? 32) 0 0 0 0 0 false [] [])
             else None in
  Some (mkParse dv cur ctl ((d5 =? 1) && (d6 =? 1) && (d7 =? 32)) (clocks s) (configurations s)).

(** The general descriptor of a streaming interface. *)
Definition as_general (a : Alternate) (d : bytes) (length : Z) : option Alternate :=
  if negb (7 <=? length) then Some a else
  d2 ← at_ d 2;
  if d2 =? 1 then
    d3 ← at_ d 3; d5 ← at_ d 5;
    let a := mkAlternate (control a) (interface a) (alternate a) (uac2 a) d3 (clock a)
               (alt_channels a) (alt_bits a) (alt_subslot a) (pcm a) (rates a) (endpoints a) in
    if uac2 a && (16 <=? length) && (d5 =? 1) then
      formats ← u32le_at d 6; d10 ← at_ d 10;
      Some (mkAlternate (control a) (interface a) (alternate a) (uac2 a) (terminal a) (clock a)
              d10 (alt_bits a) (alt_subslot a) (negb (Z.land formats 1 =? 0)) (rates a) (endpoints a))
    else if negb (uac2 a) then
      tag ← u16le_at d 5;
      Some (mkAlternate (control a) (interface a) (alternate a) (uac2 a) (terminal a) (clock a)
              (alt_channels a) (alt_bits a) (alt_subslot a) (tag =? 1) (rates a) (endpoints a))
    else Some a
  else Some a.

(** [d[8..8 + count * 3].as_chunks::<3>()]. *)
Fixpoint discrete_rates (d : bytes) (start count : nat) : option (list (Z * Z)) :=
  match count with
  | O => Some []
  | S count =>
    rate ← u24le_at d start; rest ← discrete_rates d (start + 3) count; Some ((rate, rate) :: rest)
  end.

(** The format descriptor of a streaming interface. *)
Definition as_format (a : Alternate) (d : bytes) (length : Z) : option Alternate :=
  if negb (6 <=? length) then Some a else
  d2 ← at_ d 2;
  if negb (d2 =? 2) then Some a else
  d3 ← at_ d 3;
  if negb (d3 =? 1) then Some a else
  let set ch sub bits more := mkAlternate (control a) (interface a) (alternate a) (uac2 a)
    (terminal a) (clock a) ch bits sub (pcm a) (rates a ++ more) (endpoints a) in
  if uac2 a then d4 ← at_ d 4; d5 ← at_ d 5; Some (set (alt_channels a) d4 d5 [])
  else if 8 <=? length then
    d4 ← at_ d 4; d5 ← at_ d 5; d6 ← at_ d 6; count ← at_ d 7;
    if (count =? 0) && (14 <=? length) then
      low ← u24le_at d 8; high ← u24le_at d 11; Some (set d4 d5 d6 [(low, high)])
    else if 8 + count * 3 <=? length then
      more ← discrete_rates d 8 (Z.to_nat count); Some (set d4 d5 d6 more)
    else Some (set d4 d5 d6 [])
  else Some a.

Definition on_streaming (s : ParseState) (d : bytes) (length : Z) : option ParseState :=
  update_current s (fun a => a ← as_general a d length; as_format a d length).

Definition on_endpoint (s : ParseState) (d : bytes) : option ParseState :=
  update_current s (fun a =>
    packet ← u16le_at d 4; d2 ← at_ d 2; d3 ← at_ d 3; d6 ← at_ d 6;
    Some (mkAlternate (control a) (interface a) (alternate a) (uac2 a) (terminal a) (clock a)
      (alt_channels a) (alt_bits a) (alt_subslot a) (pcm a) (rates a)
      (endpoints a ++ [mkEndpoint d2 d3
         (Z.land packet 2047 * (1 + Z.land (Z.shiftr packet 11) 3)) d6 (default 0 (d !! 8%nat)) false]))).

(** [endpoints.last_mut()]. *)
Definition on_endpoint_control (s : ParseState) (d : bytes) : option ParseState :=
  update_current s (fun a =>
    if uac2 a then Some a else
    match last (endpoints a) with
    | None => Some a
    | Some e =>
      d3 ← at_ d 3;
      Some (mkAlternate (control a) (interface a) (alternate a) (uac2 a) (terminal a) (clock a)
        (alt_channels a) (alt_bits a) (alt_subslot a) (pcm a) (rates a)
        (take (length (endpoints a) - 1) (endpoints a) ++
         [mkEndpoint (address e) (attributes e) (max_packet e) (interval e) (sync_address e)
            (negb (Z.land d3 1 =? 0))]))
    end).

(** One descriptor [d] of [length] bytes: the [match] of the loop. *)
Definition parse_descriptor (s : ParseState) (d : bytes) (length : Z)
  : option (result ParseState string) :=
  kind ← at_ d 1;
  if kind =? 2 then
    if 1 <? configurations s + 1 then Some (Err "Multiple USB configurations are not supported"%string)
    else Some (Ok (mkParse (device s) (current s) (ctl s) (is_control s) (clocks s) (configurations s + 1)))
  else if (kind =? 1) && (18 <=? length) then
    v ← u16le_at d 8; p ← u16le_at d 10; r ← u16le_at d 12;
    Some (Ok (mkParse (mkDevice v p r (alternates (device s))) (current s) (ctl s) (is_control s)
                (clocks s) (configurations s)))
  else if (kind =? 4) && (9 <=? length) then Ok <$> on_interface s d
  else if kind =? 36 then
    clock_source ← (if is_control s && (9 <=? length) then d2 ← at_ d 2; Some (d2 =? 2) else Some false);
    if clock_source : bool then
      d3 ← at_ d 3; d7 ← at_ d 7;
      Some (Ok (mkParse (device s) (current s) (ctl s) (is_control s)
                  (<[(ctl s, d3) := d7]> (clocks s)) (configurations s)))
    else Ok <$> (match current s with Some _ => on_streaming s d length | None => Some s end)
  else if (kind =? 5) && (7 <=? length) then Ok <$> on_endpoint s d
  else if (kind =? 37) && (4 <=? length) then
    d2 ← at_ d 2; if d2 =? 1 then Ok <$> on_endpoint_control s d else Some (Ok s)
  else Some (Ok s).

(** The loop; each round consumes at least two bytes, so the length is enough fuel. *)
Fixpoint parse_loop (fuel : nat) (s : ParseState) (rest : bytes) : option (result ParseState string) :=
  match fuel, rest with
  | _, [] => Some (Ok s)
  | O, _ => None
  | S fuel, length :: _ =>
    if (length <? 2) || (len rest <? length) then Some (Err "malformed USB descriptor"%string)
    else
      r ← parse_descriptor s (take (Z.to_nat length) rest) length;
      match r with
      | Err e => Some (Err e)
      | Ok s => parse_loop fuel s (drop (Z.to_nat length) rest)
      end
  end.

Definition set_clock (clocks : gmap (Z * Z) Z) (a : Alternate) : Alternate :=
  mkAlternate (control a) (interface a) (alternate a) (uac2 a) (terminal a)
    (default 0 (clocks !! (control a, terminal a)))
    (alt_channels a) (alt_bits a) (alt_subslot a) (pcm a) (rates a) (endpoints a).

Definition parse (bs : bytes) : option (result Device string) :=
  r ← parse_loop (length bs) start_parse bs;
  Some (match r with
        | Err e => Err e
        | Ok s =>
          let dv := match current s with Some a => push_alternate (device s) a | None => device s end in
          Ok (mkDevice (vendor dv) (product dv) (revision dv) (map (set_clock (clocks s)) (alternates dv)))
        end).

(** ** Output formats *)

Definition native_encoding (dv : Device) (a : Alternate) : option string :=
  if negb (uac2 a) || negb (alt_subslot a =? 4) then None
  else
    let '(v, p, n, r) := (vendor dv, product dv, alternate a, revision dv) in
    if (v =? 5840) && (p =? 1818) && (n =? 2) && (r =? 409) then Some "dsd_le"%string
    else if (v =? 5840) && (p =? 1818) && (n =? 2) && ((r =? 411) || (r =? 515)) then Some "dsd_be"%string
    else if ((v =? 10098) && (p =? 560) && (n =? 2)) || ((v =? 8369) && (p =? 12425) && (n =? 2))
    then Some "dsd_be"%string
    else None.

(** The wire rate, encoding and precision of the stream on one alternate. *)
Definition wire_format (dv : Device) (rate bits : Z) (dsd dop : bool) (a : Alternate)
  : option (Z * string * Z) :=
  let native := native_encoding dv a in
  if dsd then
    match native with
    | Some encoding => Some (rate / 32, encoding, 1)
    | None =>
      if dop && pcm a && (24 <=? alt_bits a) && (3 <=? alt_subslot a)
      then Some (rate / 16, "dop"%string, 24) else None
    end
  else
    if negb (pcm a) || bool_decide (is_Some native)
       || negb ((bits =? 16) || (bits =? 24) || (bits =? 32)) || (alt_bits a <? bits)
    then None else Some (rate, "pcm"%string, alt_bits a).

(** One round of the loop of [formats]. *)
Definition format_of (dv : Device) (rate channels bits : Z) (dsd dop : bool) (a : Alternate)
  : option (Alternate * UsbOutputFormat) :=
  if negb (alt_channels a =? channels) || negb ((1 <=? channels) && (channels <=? 2))
     || negb ((2 <=? alt_subslot a) && (alt_subslot a <=? 4)) then None
  else
    match wire_format dv rate bits dsd dop a with
    | None => None
    | Some (wire_rate, encoding, precision) =>
      if (wire_rate =? 0) || (wrap_u 8 (alt_subslot a * 8) <? alt_bits a) || (uac2 a && (clock a =? 0)) then None
      else if negb (uac2 a)
              && negb (existsb (fun '(low, high) => (low <=? wire_rate) && (wire_rate <=? high)) (rates a))
      then None
      else Some (a, mkFormat wire_rate channels precision (alt_subslot a) encoding)
    end.

Definition format_key (p : Alternate * UsbOutputFormat) : Z * Z :=
  (if bool_decide (take 4 (chars (encoding p.2)) = chars "dsd_") then 0 else 1, subslot p.2).

Definition key_le (x y : Z * Z) : bool :=
  (x.1 <? y.1) || ((x.1 =? y.1) && (x.2 <=? y.2)).

(** [sort_by_key]: stable; an element goes after those whose key is not greater. *)
Fixpoint insert_sorted (p : Alternate * UsbOutputFormat) (l : list (Alternate * UsbOutputFormat)) :=
  match l with
  | [] => [p]
  | q :: l' => if key_le (format_key p) (format_key q) then p :: q :: l' else q :: insert_sorted p l'
  end.

Definition sort_formats (l : list (Alternate * UsbOutputFormat)) := foldr insert_sorted [] l.

Definition formats (dv : Device) (rate channels bits : Z) (dsd dop : bool)
  : list (Alternate * UsbOutputFormat) :=
  sort_formats (omap (format_of dv rate channels bits dsd dop) (alternates dv)).

(** ** The packet clock *)

Record PacketClock := mkClock { nominal : f64; feedback : option f64; remainder : f64 }.

Definition new_clock (rate interval_us : Z) : PacketClock :=
  mkClock (f64_div (f64_mul (f64_of rate) (f64_of interval_us)) (f64_of 1000000)) None (f64_of 0).

Definition clock_feedback (c : PacketClock) (bs : bytes) (high_speed : bool) (interval_us : Z)
  : bool * PacketClock :=
  let reading :=
    if (len bs =? 3) && negb high_speed then Some (f64_div (f64_of (from_le bs)) (f64_of 16384))
    else if len bs =? 4 then Some (f64_div (f64_of (from_le bs)) (f64_of 65536))
    else None in
  match reading with
  | None => (false, c)
  | Some x =>
    let frames := f64_div (f64_mul x (f64_of interval_us)) (f64_of (if high_speed then 125 else 1000)) in
    if negb (is_finite frames)
       || f64_gt (f64_abs (f64_sub frames (nominal c))) (f64_mul (nominal c) (f64_ratio 2 100))
    then (false, c)
    else (true, mkClock (nominal c) (Some frames) (remainder c))
  end.

Definition clock_next (c : PacketClock) : Z * PacketClock :=
  let r := f64_add (remainder c) (default (nominal c) (feedback c)) in
  let frames := as_u64 (f64_floor r) in
  (frames, mkClock (nominal c) (feedback c) (f64_sub r (f64_of frames))).

Fixpoint clock_frames (n : nat) (c : PacketClock) : Z * PacketClock :=
  match n with
  | O => (0, c)
  | S n => let '(k, c) := clock_next c in let '(total, c) := clock_frames n c in (k + total, c)
  end.

Example fractional_rates_do_not_drift :
  (clock_frames 1000 (new_clock 44100 1000)).1 = 44100.
Proof. vm_compute. reflexivity. Qed.

(** ** Totality of the parser *)

(** [d] is a descriptor of the given length. *)
Definition sized (d : bytes) (n : Z) : Prop := len d = n /\ Forall byte_ok d.

Lemma at_read d n i : sized d n -> Z.of_nat i < n -> exists v, at_ d i = Some v /\ byte_ok v.
Proof.
  intros [Hn Hd] Hi. unfold len, at_ in *. destruct (lookup_lt_is_Some_2 d i) as [v Hv]; [lia|].
  exists v. split; [done|]. by eapply Forall_lookup_1 in Hd.
Qed.

Lemma u16_read d n i : sized d n -> Z.of_nat i + 1 < n ->
  exists v, u16le_at d i = Some v /\ 0 <= v < 2 ^ 16.
Proof.
  intros Hs Hi. unfold u16le_at.
  destruct (at_read d n i Hs) as (a & -> & Ha); [lia|].
  destruct (at_read d n (i + 1) Hs) as (b & -> & Hb); [lia|].
  eexists. split; [reflexivity|]. unfold byte_ok in *. simpl. lia.
Qed.

Lemma u24_read d n i : sized d n -> Z.of_nat i + 2 < n ->
  exists v, u24le_at d i = Some v /\ 0 <= v < 2 ^ 24.
Proof.
  intros Hs Hi. unfold u24le_at.
  destruct (at_read d n i Hs) as (a & -> & Ha); [lia|].
  destruct (at_read d n (i + 1) Hs) as (b & -> & Hb); [lia|].
  destruct (at_read d n (i + 2) Hs) as (c & -> & Hc); [lia|].
  eexists. split; [reflexivity|]. unfold byte_ok in *. simpl. lia.
Qed.

Lemma u32_read d n i : sized d n -> Z.of_nat i + 3 < n -> exists v, u32le_at d i = Some v.
Proof.
  intros Hs Hi. unfold u32le_at.
  destruct (at_read d n i Hs) as (a & -> & Ha); [lia|].
  destruct (at_read d n (i + 1) Hs) as (b & -> & Hb); [lia|].
  destruct (at_read d n (i + 2) Hs) as (c & -> & Hc); [lia|].
  destruct (at_read d n (i + 3) Hs) as (e & -> & He); [lia|]. eexists. reflexivity.
Qed.

(** Evaluates the next read of [d], a descriptor of size [n]. *)
Ltac read Hs :=
  match goal with
  | |- context [mbind _ (at_ ?d ?i)] =>
    destruct (at_read d _ i Hs) as (? & -> & ?); [lia|]
  | |- context [mbind _ (u16le_at ?d ?i)] =>
    destruct (u16_read d _ i Hs) as (? & -> & ?); [lia|]
  | |- context [mbind _ (u24le_at ?d ?i)] =>
    destruct (u24_read d _ i Hs) as (? & -> & ?); [lia|]
  | |- context [mbind _ (u32le_at ?d ?i)] =>
    destruct (u32_read d _ i Hs) as (? & ->); [lia|]
  end; cbn [mbind option_bind fmap option_fmap option_map].

Record wf_endpoint (e : Endpoint) : Prop := {
  wf_address : byte_ok (address e);
  wf_packet : 0 <= max_packet e <= 2047 * 4 }.

(** What every alternate setting the parser builds satisfies. *)
Record wf_alternate (a : Alternate) : Prop := {
  wf_number : 0 < alternate a < 256;
  wf_fields : byte_ok (interface a) /\ byte_ok (alt_channels a) /\ byte_ok (alt_bits a) /\
              byte_ok (alt_subslot a);
  wf_uac2 : uac2 a = true -> rates a = [];
  wf_rates : Forall (fun '(low, high) => 0 <= low < 2 ^ 24 /\ 0 <= high < 2 ^ 24) (rates a);
  wf_endpoints : Forall wf_endpoint (endpoints a) }.

Record wf_parse (s : ParseState) : Prop := {
  wf_device : Forall wf_alternate (alternates (device s));
  wf_current : forall a, current s = Some a -> wf_alternate a;
  wf_configurations : 0 <= configurations s <= 1 }.

Lemma rates_total d n start count :
  sized d n -> Z.of_nat (start + 3 * count) <= n ->
  exists l, discrete_rates d start count = Some l /\
    Forall (fun '(low, high) => 0 <= low < 2 ^ 24 /\ 0 <= high < 2 ^ 24) l.
Proof.
  intros Hs. revert start. induction count as [|count IH]; intros start Hl; [by exists []|].
  cbn [discrete_rates]. read Hs. destruct (IH (start + 3)%nat) as (l & -> & Hf); [lia|].
  eexists. split; [reflexivity|]. by apply Forall_cons.
Qed.

Lemma as_general_total a d n :
  sized d n -> wf_alternate a -> exists a', as_general a d n = Some a' /\ wf_alternate a'.
Proof.
  intros Hs []. destruct wf_fields0 as (? & ? & ? & ?). unfold as_general.
  destruct (Z.leb_spec 7 n); [|by eexists]. simpl. read Hs.
  destruct (_ =? 1); [|by eexists]. do 2 read Hs. cbn [uac2].
  destruct (uac2 a && (16 <=? n) && _) eqn:E1; [do 2 read Hs|destruct (negb (uac2 a)); [read Hs|]];
    (eexists; split; [reflexivity|]); split; simpl; auto.
Qed.

Lemma as_format_total a d n :
  sized d n -> wf_alternate a -> exists a', as_format a d n = Some a' /\ wf_alternate a'.
Proof.
  intros Hs Ha. pose proof Ha as []. destruct wf_fields0 as (? & ? & ? & ?). unfold as_format.
  destruct (Z.leb_spec 6 n); [|by eexists]. simpl. read Hs.
  destruct (negb (_ =? 2)); [by eexists|]. read Hs.
  destruct (negb (_ =? 1)); [by eexists|]. destruct (uac2 a) eqn:Eu.
  { do 2 read Hs. eexists. split; [reflexivity|]. split; simpl; rewrite ?app_nil_r; auto. }
  destruct (Z.leb_spec 8 n); [|by eexists]. do 4 read Hs.
  destruct (_ && (14 <=? n)) eqn:E14; [do 2 read Hs|].
  2: match goal with |- context [8 + ?c * 3 <=? n] => rename c into count; destruct (Z.leb_spec (8 + count * 3) n) end.
  - eexists. split; [reflexivity|]. split; simpl; auto; [congruence|].
    apply Forall_app. split; [done|]. by apply Forall_singleton.
  - destruct (rates_total d n 8 (Z.to_nat count) Hs) as (l & -> & Hf); [unfold byte_ok in *; lia|].
    eexists. split; [reflexivity|]. split; simpl; auto; [congruence|]. by apply Forall_app.
  - eexists. split; [reflexivity|]. split; simpl; rewrite ?app_nil_r; auto.
Qed.

Lemma on_endpoint_total s d n :
  sized d n -> 7 <= n -> wf_parse s -> exists s', on_endpoint s d = Some s' /\ wf_parse s'.
Proof.
  intros Hs Hn Hw. pose proof Hw as []. unfold on_endpoint, update_current.
  destruct (current s) as [a|] eqn:E; [|by exists s].
  do 4 read Hs. eexists. split; [reflexivity|]. split; simpl; [done| |done].
  intros a' [= <-]. destruct (wf_current0 a eq_refl). split; simpl; auto.
  apply Forall_app. split; [done|]. constructor; [|constructor]. split; simpl; [done|].
  rewrite (land_ones_mod _ 11), (land_ones_mod _ 2) by lia. change (2 ^ 11) with 2048. change (2 ^ 2) with 4.
  match goal with |- 0 <= ?p mod 2048 * (1 + ?q mod 4) <= _ =>
    pose proof (Z.mod_pos_bound p 2048 ltac:(lia)); pose proof (Z.mod_pos_bound q 4 ltac:(lia)); nia
  end.
Qed.

Lemma on_endpoint_control_total s d n :
  sized d n -> 4 <= n -> wf_parse s -> exists s', on_endpoint_control s d = Some s' /\ wf_parse s'.
Proof.
  intros Hs Hn Hw. pose proof Hw as []. unfold on_endpoint_control, update_current.
  destruct (current s) as [a|] eqn:E; [|by exists s].
  pose proof (wf_current0 a eq_refl) as Ha.
  assert (wf_parse (set_current s (Some a))) by (split; simpl; auto; by intros a' [= <-]).
  destruct (uac2 a) eqn:Eu; [by eexists|].
  destruct (last (endpoints a)) as [e|] eqn:El; [|by eexists].
  read Hs. eexists. split; [reflexivity|]. split; simpl; [done| |done].
  intros a' [= <-]. destruct Ha. split; simpl; auto; try done.
  apply Forall_app. split; [by apply Forall_take|]. constructor; [|constructor].
  apply last_Some in El as [l' El]. rewrite El in wf_endpoints0.
  rewrite Forall_app, Forall_singleton in wf_endpoints0. destruct wf_endpoints0 as [_ [Ha Hp]].
  split; [exact Ha|exact Hp].
Qed.

Lemma on_interface_total s d n :
  sized d n -> 9 <= n -> wf_parse s -> exists s', on_interface s d = Some s' /\ wf_parse s' /\
    configurations s' = configurations s.
Proof.
  intros Hs Hn []. unfold on_interface. do 5 read Hs. eexists. split; [reflexivity|].
  split; [|done]. split; simpl; [| |done].
  - destruct (current s) as [a|]; [|done]. simpl. apply Forall_app. split; [done|].
    constructor; [by apply wf_current0|constructor].
  - intros a. case_bool; [|done]. intros [= <-]. unfold byte_ok in *.
    split; simpl; unfold byte_ok; auto; lia.
Qed.

Lemma on_streaming_total s d n :
  sized d n -> wf_parse s -> exists s', on_streaming s d n = Some s' /\ wf_parse s' /\
    configurations s' = configurations s.
Proof.
  intros Hs Hw. pose proof Hw as []. unfold on_streaming, update_current.
  destruct (current s) as [a|] eqn:E; [|by exists s].
  destruct (as_general_total a d n) as (a1 & -> & Ha1); [auto..|]. simpl.
  destruct (as_format_total a1 d n) as (a2 & -> & Ha2); [auto..|]. simpl.
  eexists. split; [reflexivity|]. split; [|done]. split; simpl; auto. by intros a' [= <-].
Qed.

Lemma same_configurations s f s' :
  update_current s f = Some s' -> configurations s' = configurations s.
Proof.
  unfold update_current. destruct (current s) as [a|]; [|by intros [= <-]].
  destruct (f a) as [a'|]; [|done]. by intros [= <-].
Qed.

(** One descriptor: never a panic; refused exactly when it is a second configuration. *)
Lemma parse_descriptor_total s d n :
  sized d n -> 2 <= n -> wf_parse s ->
  exists r, parse_descriptor s d n = Some r /\
    let second := bool_decide (d !! 1%nat = Some 2) in
    match r with
    | Ok s' => wf_parse s' /\ configurations s' = configurations s + (if second then 1 else 0)
    | Err e => second = true /\ configurations s = 1 /\ e = "Multiple USB configurations are not supported"%string
    end.
Proof.
  intros Hs Hn Hw. pose proof (wf_configurations _ Hw) as Hc. unfold parse_descriptor.
  destruct (at_read d n 1 Hs) as (kind & Hk & Hkind); [lia|].
  rewrite Hk. cbn [mbind option_bind fmap option_fmap option_map]. unfold at_ in Hk. rewrite Hk. clear Hk.
  destruct (Z.eqb_spec kind 2) as [->|Hne].
  { destruct (Z.ltb_spec 1 (configurations s + 1)); eexists; (split; [reflexivity|]); simpl.
    - split; [done|]. split; [lia|done].
    - split; [|done]. destruct Hw. split; simpl; (done || lia). }
  assert (bool_decide (Some kind = Some 2) = false) as -> by (apply bool_decide_eq_false; congruence).
  cbn zeta. rewrite Z.add_0_r.
  assert (exists r, Some (Ok s : result ParseState string) = Some r /\
    match r with Ok s' => wf_parse s' /\ configurations s' = configurations s
    | Err e => false = true /\ configurations s = 1 /\ e = "Multiple USB configurations are not supported"%string
    end) as Hskip by (by eexists).
  destruct ((kind =? 1) && (18 <=? n)) eqn:E1.
  { do 3 read Hs. eexists. split; [reflexivity|]. split; [|done]. by destruct Hw. }
  destruct ((kind =? 4) && (9 <=? n)) eqn:E4.
  { destruct (on_interface_total s d n) as (s' & -> & ? & ?); [auto|lia|auto|]. by eexists. }
  destruct (kind =? 36) eqn:E24.
  { assert (exists b, (if is_control s && (9 <=? n) then d2 ← at_ d 2; Some (d2 =? 2) else Some false)
      = Some b /\ (b = true -> 9 <= n)) as (b & -> & Hb).
    { destruct (is_control s && (9 <=? n)) eqn:E9; [read Hs; eexists; split; [done|lia]|by eexists]. }
    cbn [mbind option_bind]. destruct b.
    - specialize (Hb eq_refl). do 2 read Hs. eexists. split; [reflexivity|]. split; [|done]. by destruct Hw.
    - destruct (current s) eqn:Ecur; [|done].
      destruct (on_streaming_total s d n) as (s' & -> & ? & ?); [auto..|]. by eexists. }
  destruct ((kind =? 5) && (7 <=? n)) eqn:E5.
  { destruct (on_endpoint_total s d n) as (s' & E & ?); [auto|lia|auto|]. rewrite E. eexists.
    split; [reflexivity|]. split; [done|]. by eapply same_configurations. }
  destruct ((kind =? 37) && (4 <=? n)) eqn:E25; [|done].
  read Hs. case_bool; [|done].
  destruct (on_endpoint_control_total s d n) as (s' & E & ?); [auto|lia|auto|]. rewrite E. eexists.
  split; [reflexivity|]. split; [done|]. by eapply same_configurations.
Qed.

(** The specification: the bytes as a chain of descriptors, each at least two bytes long and within
    the buffer. *)
Fixpoint descriptors (fuel : nat) (rest : bytes) : option (list bytes) :=
  match fuel, rest with
  | _, [] => Some []
  | O, _ => None
  | S fuel, length :: _ =>
    if (2 <=? length) && (length <=? len rest) then
      cons (take (Z.to_nat length) rest) <$> descriptors fuel (drop (Z.to_nat length) rest)
    else None
  end.

Definition count_configurations (ds : list bytes) : Z :=
  len (filter (fun d => d !! 1%nat = Some 2) ds).

Lemma count_configurations_cons d ds :
  count_configurations (d :: ds)
  = (if bool_decide (d !! 1%nat = Some 2) then 1 else 0) + count_configurations ds.
Proof.
  unfold count_configurations, len. rewrite filter_cons. case_decide as E.
  - rewrite bool_decide_true by done. simpl length. lia.
  - by rewrite bool_decide_false.
Qed.

Lemma parse_loop_total fuel s rest :
  (length rest <= fuel)%nat -> Forall byte_ok rest -> wf_parse s ->
  exists r, parse_loop fuel s rest = Some r /\
    match r with
    | Ok s' => wf_parse s' /\
        exists ds, descriptors fuel rest = Some ds /\ configurations s + count_configurations ds <= 1
    | Err _ => forall ds, descriptors fuel rest = Some ds -> 1 < configurations s + count_configurations ds
    end.
Proof.
  revert s rest. induction fuel as [|fuel IH]; intros s rest Hf Hb Hw.
  { destruct rest; [|simpl in Hf; lia]. eexists. split; [reflexivity|]. split; [done|].
    exists []. split; [done|]. unfold count_configurations, len. simpl.
    pose proof (wf_configurations _ Hw). lia. }
  destruct rest as [|n rest'] eqn:E.
  { eexists. split; [reflexivity|]. split; [done|].
    exists []. split; [done|]. unfold count_configurations, len. simpl.
    pose proof (wf_configurations _ Hw). lia. }
  rewrite <- E in *. assert (forall fuel s, parse_loop (S fuel) s rest =
      if (n <? 2) || (len rest <? n) then Some (Err "malformed USB descriptor"%string)
      else r ← parse_descriptor s (take (Z.to_nat n) rest) n;
        match r with Err e => Some (Err e) | Ok s => parse_loop fuel s (drop (Z.to_nat n) rest) end)
    as -> by (by rewrite E).
  assert (forall fuel, descriptors (S fuel) rest =
      if (2 <=? n) && (n <=? len rest) then
        cons (take (Z.to_nat n) rest) <$> descriptors fuel (drop (Z.to_nat n) rest) else None)
    as -> by (by rewrite E).
  clear E rest'. assert ((2 <=? n) && (n <=? len rest) = negb ((n <? 2) || (len rest <? n))) as -> by lia.
  destruct ((n <? 2) || (len rest <? n)) eqn:Ebad; [by eexists|]. simpl.
  assert (sized (take (Z.to_nat n) rest) n) as Hs.
  { split; [unfold len in *; rewrite length_take; lia|by apply Forall_take]. }
  destruct (parse_descriptor_total s _ n Hs) as (r & -> & Hr); [lia|done|]. cbn [mbind option_bind].
  destruct r as [s'|e].
  - destruct Hr as [Hw' Hc]. destruct (IH s' (drop (Z.to_nat n) rest)) as (r & -> & Hr);
      [rewrite length_drop; unfold len in *; lia|by apply Forall_drop|done|].
    exists r. split; [done|]. destruct r as [s''|e].
    + destruct Hr as (? & ds & -> & Hle). split; [done|]. eexists. split; [reflexivity|].
      rewrite count_configurations_cons. cbn zeta in Hc. lia.
    + intros ds Hds. destruct (descriptors fuel _) as [ds'|]; [|done]. injection Hds as <-.
      rewrite count_configurations_cons. specialize (Hr _ eq_refl). cbn zeta in Hc. lia.
  - destruct Hr as (Hsec & Hc & _). eexists. split; [reflexivity|]. simpl. intros ds Hds.
    destruct (descriptors fuel _) as [ds'|]; [|done]. injection Hds as <-.
    rewrite count_configurations_cons, Hsec. unfold count_configurations, len. lia.
Qed.

(** C33: Parsing untrusted descriptor bytes never panics. It succeeds exactly on a chain of
    well-formed descriptors with at most one configuration, and every alternate setting it returns is
    well formed: a nonzero setting number, byte-sized fields, 24-bit rates (none for UAC2, whose
    rates come from its clock), and packet sizes of at most four times 2047 bytes. *)
Theorem parse_total bs (Hb : Forall byte_ok bs) :
  exists r, parse bs = Some r /\
    (is_ok r = true <-> exists ds, descriptors (length bs) bs = Some ds /\ count_configurations ds <= 1) /\
    forall dv, r = Ok dv -> Forall wf_alternate (alternates dv).
Proof.
  unfold parse. assert (wf_parse start_parse) as Hw by (by split).
  destruct (parse_loop_total (length bs) start_parse bs (Nat.le_refl _) Hb Hw) as (r & -> & Hr).
  cbn [mbind option_bind]. eexists. split; [reflexivity|]. destruct r as [s|e]; simpl in *.
  - destruct Hr as (Hs & ds & Hds & Hc). split; [split; [by exists ds|done]|].
    intros dv [= <-]. simpl. apply Forall_fmap. unfold compose.
    assert (Forall wf_alternate (alternates (match current s with
       Some a => push_alternate (device s) a | None => device s end))) as Hall.
    { destruct Hs as [Hd Hcur _]. destruct (current s) as [a|]; [|done]. simpl.
      apply Forall_app. split; [done|]. apply Forall_singleton. by apply Hcur. }
    eapply Forall_impl; [exact Hall|]. intros a [? ? ? ? ?]. by split.
  - split; [|done]. split; [done|]. intros (ds & Hds & Hc). specialize (Hr _ Hds). lia.
Qed.

(** ** Formats *)

Lemma insert_sorted_perm p l : insert_sorted p l ≡ₚ p :: l.
Proof.
  induction l as [|q l IH]; [done|]. simpl. case_bool; [done|]. rewrite IH. by constructor.
Qed.

Lemma sort_formats_perm l : sort_formats l ≡ₚ l.
Proof. induction l as [|p l IH]; [done|]. simpl. by rewrite insert_sorted_perm, IH. Qed.

Definition key_ordered (p q : Alternate * UsbOutputFormat) : Prop :=
  key_le (format_key p) (format_key q) = true.

Lemma insert_sorted_sorted p l :
  StronglySorted key_ordered l -> StronglySorted key_ordered (insert_sorted p l).
Proof.
  induction 1 as [|q l Hs IH Hq]; simpl; [by repeat constructor|]. case_bool.
  - constructor; [by constructor|]. constructor; [done|]. eapply Forall_impl; [exact Hq|].
    intros r. unfold key_ordered, key_le in *. lia.
  - constructor; [done|]. rewrite insert_sorted_perm. constructor; [|done].
    unfold key_ordered, key_le in *. lia.
Qed.

Lemma sort_formats_sorted l : StronglySorted key_ordered (sort_formats l).
Proof. induction l as [|p l IH]; [constructor|]. simpl. by apply insert_sorted_sorted. Qed.

(** The stream can run on the alternate as it stands. *)
Definition carries (a : Alternate) (f : UsbOutputFormat) : Prop :=
  alt_channels a = channels f /\ 1 <= channels f <= 2 /\
  subslot f = alt_subslot a /\ 2 <= subslot f <= 4 /\ alt_bits a <= 8 * subslot f /\
  sample_rate f <> 0 /\
  (if uac2 a then clock a <> 0
   else exists low high, (low, high) ∈ rates a /\ low <= sample_rate f <= high).

Lemma format_of_carries dv rate ch bits dsd dop a f a' :
  format_of dv rate ch bits dsd dop a = Some (a', f) ->
  a' = a /\ carries a f /\ channels f = ch /\
  wire_format dv rate bits dsd dop a = Some (sample_rate f, encoding f, UsbFraming.bits f).
Proof.
  unfold format_of. destruct (_ || _) eqn:E1; [done|].
  destruct (wire_format _ _ _ _ _ _) as [[[wire enc] precision]|] eqn:Ew; [|done].
  destruct (_ || (uac2 a && _)) eqn:E2; [done|]. unfold wrap_u in E2.
  rewrite Z.mod_small in E2 by lia.
  destruct (negb (uac2 a) && _) eqn:E3; [done|]. intros [= <- <-]. split_conj; try done.
  unfold carries. cbn [channels subslot sample_rate]. split_conj; try lia.
  destruct (uac2 a); [lia|]. simpl in E3. apply negb_false_iff, existsb_exists in E3.
  destruct E3 as ([low high] & Hin & Hr). exists low, high. rewrite list_elem_of_In. split; [done|lia].
Qed.

(** Output formats never alter the stream: every format offered runs on an alternate setting
    of the device that carries it as it stands (channels, sample container, a clock or a supported
    rate); PCM keeps its rate and loses no bits and is never sent to a native-DSD setting; DSD is sent
    natively at a 32nd of its rate, or as DoP at a 16th into 24-bit PCM only when DoP is allowed. Each
    qualifying setting appears exactly once, native DSD first, then smaller containers. *)
Theorem formats_bit_exact dv rate ch bits dsd dop :
  (forall a f, (a, f) ∈ formats dv rate ch bits dsd dop ->
     a ∈ alternates dv /\ carries a f /\ channels f = ch /\
     (if dsd then
        (native_encoding dv a = Some (encoding f) /\ sample_rate f = rate / 32 /\ UsbFraming.bits f = 1) \/
        (encoding f = "dop"%string /\ dop = true /\ pcm a = true /\ 24 <= alt_bits a /\
           3 <= subslot f /\ sample_rate f = rate / 16 /\ UsbFraming.bits f = 24)
      else
        encoding f = "pcm"%string /\ pcm a = true /\ native_encoding dv a = None /\
        sample_rate f = rate /\ bits <= UsbFraming.bits f /\ UsbFraming.bits f = alt_bits a)) /\
  formats dv rate ch bits dsd dop ≡ₚ omap (format_of dv rate ch bits dsd dop) (alternates dv) /\
  StronglySorted key_ordered (formats dv rate ch bits dsd dop).
Proof.
  split_conj; [|apply sort_formats_perm|apply sort_formats_sorted].
  intros a f. unfold formats. rewrite sort_formats_perm, list_elem_of_omap.
  intros (a0 & Ha & Hf). pose proof Hf as (-> & Hc & Hch & Hw)%format_of_carries.
  split_conj; [done..|]. unfold wire_format in Hw. destruct Hc as (_ & _ & Hs & _).
  destruct dsd; [destruct (native_encoding dv a0) as [e|]|].
  - left. by simplify_eq.
  - right. destruct (_ && _) eqn:E; [|done]. rewrite !andb_true_iff in E. simplify_eq.
    destruct_and!. split_conj; (done || lia).
  - destruct (_ || _ || _ || _) eqn:E; [done|]. rewrite !orb_false_iff, negb_false_iff in E.
    destruct E as [[[Hp Hn] _] Hb]. apply bool_decide_eq_false in Hn.
    destruct (native_encoding dv a0) as [e|]; [by destruct Hn|]. simplify_eq. split_conj; (done || lia).
Qed.

(** ** Witness: the fixed-rate headset of the unit tests *)

Definition headset : bytes :=
  [9; 4; 0; 0; 0; 1; 1; 0; 0; 9; 4; 1; 1; 1; 1; 2; 0; 0; 7; 36; 1; 1; 1; 1; 0; 11; 36;
   2; 1; 2; 2; 16; 1; 128; 187; 0; 9; 5; 1; 13; 192; 0; 1; 0; 0; 7; 37; 1; 0; 0; 0; 0].

Example headset_formats :
  match parse headset with
  | Some (Ok dv) => (map snd (formats dv 48000 2 16 false false), formats dv 44100 2 16 false false)
  | _ => ([], [])
  end = ([mkFormat 48000 2 16 2 "pcm"], []).
Proof. vm_compute. reflexivity. Qed.

Lemma parse_total_witness :
  Forall byte_ok headset /\
  exists r, parse headset = Some r /\ (forall dv, r = Ok dv -> Forall wf_alternate (alternates dv)).
Proof.
  assert (Forall byte_ok headset) as Hb.
  { apply Forall_forall. intros b Hin. unfold headset in Hin. unfold byte_ok.
    repeat (apply elem_of_cons in Hin as [->|Hin]; [lia|]). by apply not_elem_of_nil in Hin. }
  split; [exact Hb|]. destruct (parse_total headset Hb) as (r & E & _ & Hw). exists r. auto.
Defined.
