(* ===== verification/UsbVolume.v ===== *)
(** * USB hardware volume: [crates/mobile/src/usb_audio/volume.rs]

    The search for the playback Feature Unit and the volume control of the device.  The device is an
    interface: it may answer each control transfer as it likes, depending on the whole history, so
    what is proved here holds for a device that lies, fails or changes its mind. *)

From S2P Require Import Prelude Float64.

(** ** The device *)

(** One control transfer: its direction, setup values and the bytes it carries out or asks for. *)
Record Transfer := mkTransfer {
  input : bool; request : Z; value : Z; index : Z; data : bytes }.

Abbreviation History := (list (Transfer * result bytes string)).

(** The trait [Control]: the bytes of the buffer after the transfer, or an error. *)
Class Control := {
  answer : History -> Transfer -> result bytes string;
  answer_bytes h t bs : answer h t = Ok bs -> length bs = length (data t) /\ Forall byte_ok bs }.

(** [None] is a panic. *)
Definition M (A : Type) : Type := History -> option (result A string) * History.

Definition ret {A} (a : A) : M A := fun h => (Some (Ok a), h).
Definition fail {A} (e : string) : M A := fun h => (Some (Err e), h).
Definition panic {A} : M A := fun h => (None, h).
Definition bind {A B} (m : M A) (k : A -> M B) : M B := fun h =>
  match m h with
  | (Some (Ok a), h) => k a h
  | (Some (Err e), h) => (Some (Err e), h)
  | (None, h) => (None, h)
  end.

Declare Scope volume_scope.
Delimit Scope volume_scope with volume.
Notation "'do' x <- m ; k" := (bind m (fun x => k))
  (at level 100, x pattern, m at next level, k at level 200, right associativity) : volume_scope.
#[local] Open Scope volume_scope.

Definition transfer `{Control} (t : Transfer) : M bytes := fun h =>
  let r := answer h t in (Some r, h ++ [(t, r)]).

(** [i16::from_le_bytes] and [to_le_bytes]. *)
Definition i16_of (a b : Z) : Z := wrap_i 16 (a + 256 * b).
Definition i16_bytes (v : Z) : bytes := le_bytes 2 (wrap_u 16 v).
Definition i16_at (bs : bytes) (i : nat) : Z := i16_of (nth i bs 0) (nth (i + 1) bs 0).
Definition u16_at (bs : bytes) (i : nat) : Z := nth i bs 0 + 256 * nth (i + 1) bs 0.

Definition I16_MIN : Z := -32768.
Definition I16_MAX : Z := 32767.

Record Feature := mkFeature { unit : Z; interface : Z; uac2 : bool; channels : list Z }.

#[export] Instance Feature_eq_dec : EqDecision Feature.
Proof. solve_decision. Defined.

(** ** Finding the Feature Unit *)

Record Topology := mkTopology {
  active : bool; uac2_mode : bool; sources : gmap Z Z; features : gmap Z Feature; outputs : list Z }.

(** The bytes read below are within [d] by the length guards of the code. *)
Definition byte_at (d : bytes) (i : Z) : Z := nth (Z.to_nat i) d 0.

Definition writable (d : bytes) (length start size : Z) (v2 : bool) (channel : Z) : bool :=
  let pos := start + channel * size in
  if length <=? pos + size then false
  else if v2 then Z.land (Z.shiftr (byte_at d pos) 2) 3 =? 3
  else negb (Z.land (byte_at d pos) 2 =? 0).

(** The body of the Feature Unit case; [None]: [continue]. *)
Definition controlled (d : bytes) (length : Z) (v2 : bool) (count : Z) : option (list Z) :=
  let size := if v2 then 4 else byte_at d 5 in
  let start := if v2 then 5 else 6 in
  if (size =? 0) || (4 <? size) || (length <? start + size + 1) then None
  else if writable d length start size v2 0 then Some [0]
  else if forallb (writable d length start size v2) (seqZ 1 count) then Some (seqZ 1 count)
  else None.

Definition scan_descriptor (interface count : Z) (t : Topology) (d : bytes) (length : Z) : Topology :=
  if (byte_at d 1 =? 4) && (9 <=? length) then
    mkTopology ((byte_at d 2 =? interface) && (byte_at d 5 =? 1) && (byte_at d 6 =? 1))
      (byte_at d 7 =? 32) (sources t) (features t) (outputs t)
  else if active t && (byte_at d 1 =? 36) && (4 <=? length) then
    if (byte_at d 2 =? 3) && (9 <=? length) then
      mkTopology (active t) (uac2_mode t) (<[byte_at d 3 := byte_at d 7]> (sources t)) (features t)
        (outputs t ++ [byte_at d 3])
    else if (byte_at d 2 =? 6) && (7 <=? length) then
      let srcs := <[byte_at d 3 := byte_at d 4]> (sources t) in
      let feats := match controlled d length (uac2_mode t) count with
                   | None => features t
                   | Some l => <[byte_at d 3 := mkFeature (byte_at d 3) interface (uac2_mode t) l]> (features t)
                   end in
      mkTopology (active t) (uac2_mode t) srcs feats (outputs t)
    else t
  else t.

(** The scan; each round consumes two bytes or more, so the length is enough fuel.  [None]: a
    malformed chain. *)
Fixpoint scan (interface count : Z) (fuel : nat) (t : Topology) (rest : bytes) : option Topology :=
  match fuel with
  | O => Some t
  | S fuel =>
    if len rest <? 2 then Some t
    else
      let length := nth 0 rest 0 in
      if (length <? 2) || (len rest <? length) then None
      else scan interface count fuel
             (scan_descriptor interface count t (take (Z.to_nat length) rest) length)
             (drop (Z.to_nat length) rest)
  end.

(** The walk from an output terminal towards its sources: ids are bytes and none is visited twice,
    so 257 rounds are enough. *)
Fixpoint walk (t : Topology) (terminal : Z) (fuel : nat) (id : Z) (seen : list Z)
  (candidate : option Feature) : Z * option Feature :=
  match fuel with
  | O => (id, candidate)
  | S fuel =>
    if (id =? terminal) || bool_decide (id ∈ seen) then (id, candidate)
    else
      let candidate := match candidate with None => features t !! id | Some f => Some f end in
      match sources t !! id with
      | Some source => walk t terminal fuel source (id :: seen) candidate
      | None => (id, candidate)
      end
  end.

Fixpoint dedup (l : list Feature) : list Feature :=
  match l with
  | [] => []
  | x :: l' => match dedup l' with
               | y :: r => if decide (x = y) then y :: r else x :: y :: r
               | [] => [x]
               end
  end.

Definition walk_output (t : Topology) (terminal : Z) (output : Z) : option Feature :=
  let '(id, candidate) := walk t terminal 257 output [] None in
  if id =? terminal then candidate else None.

Definition feature (raw : bytes) (interface terminal count : Z) : option Feature :=
  match scan interface count (length raw) (mkTopology false false ∅ ∅ []) raw with
  | None => None
  | Some t =>
    match dedup (omap (walk_output t terminal) (outputs t)) with
    | [f] => Some f
    | _ => None
    end
  end.

(** ** Ranges *)

Record Range := mkRange { range_min : Z; range_max : Z; step : Z }.

Definition parse_range (bs : bytes) : result Range string :=
  let r := mkRange (i16_at bs 0) (i16_at bs 2) (i16_at bs 4) in
  if (range_min r =? I16_MIN) || (range_max r <? range_min r) || (step r <? 0)
  then Err "Invalid USB volume range"%string else Ok r.

Definition floor (r : Range) (v : Z) : Z :=
  let v := clamp v (range_min r) (range_max r) in
  let step := Z.max (step r) 1 in
  wrap_i 16 (range_min r + (v - range_min r) / step * step).

(** [as_chunks::<6>] and [collect]. *)
Fixpoint parse_ranges (count : nat) (bs : bytes) : result (list Range) string :=
  match count with
  | O => Ok []
  | S count =>
    match parse_range (take 6 bs) with
    | Err e => Err e
    | Ok r => match parse_ranges count (drop 6 bs) with Err e => Err e | Ok l => Ok (r :: l) end
    end
  end.

(** ** The volume *)

Record UsbHardwareVolume := mkSnapshot {
  available : bool; min_db : f64; max_db : f64; current_db : f64; restore_limit_db : f64 }.

Record Volume := mkVolume { vol_feature : Feature; ranges : list (list Range); snapshot : UsbHardwareVolume }.

Definition lift {A} (r : result A string) : M A :=
  match r with Ok a => ret a | Err e => fail e end.

Definition unwrap {A} (o : option A) : M A := match o with Some a => ret a | None => panic end.

Definition list_min (l : list Z) : option Z :=
  match l with [] => None | x :: l => Some (foldl Z.min x l) end.
Definition list_max (l : list Z) : option Z :=
  match l with [] => None | x :: l => Some (foldl Z.max x l) end.

Definition STARTUP : Z := -40 * 256.

Section volume.
Context `{Control}.

Definition unit_index (f : Feature) : Z := Z.lor (wrap_u 16 (Z.shiftl (unit f) 8)) (interface f).
Definition selector (channel : Z) : Z := Z.lor 512 channel.

Definition get_current (f : Feature) (channel : Z) : M bytes :=
  transfer (mkTransfer true (if uac2 f then 1 else 129) (selector channel) (unit_index f) [0; 0]).

Definition set_current (f : Feature) (channel v : Z) : M bytes :=
  transfer (mkTransfer false 1 (selector channel) (unit_index f) (i16_bytes v)).

Definition read_ranges (f : Feature) (channel : Z) : M (list Range) :=
  let get request n := transfer (mkTransfer true request (selector channel) (unit_index f) (replicate n 0)) in
  if uac2 f then
    do head <- get 2 2%nat;
    let count := u16_at head 0 in
    if negb ((1 <=? count) && (count <=? 16)) then fail "Unsupported USB volume ranges"
    else
      do all <- get 2 (2 + 6 * Z.to_nat count)%nat;
      if negb (u16_at all 0 =? count) then fail "USB volume range changed"
      else lift (parse_ranges (Z.to_nat count) (drop 2 all))
  else
    do a <- get 130 2%nat; do b <- get 131 2%nat; do c <- get 132 2%nat;
    do r <- lift (parse_range (a ++ b ++ c)); ret [r].

(** The variables of the loop of [open]: ranges, loudest, quietest and the startup targets. *)
Definition open_channel (f : Feature) (acc : list (list Range) * Z * Z * list Z) (channel : Z)
  : M (list (list Range) * Z * Z * list Z) :=
  let '(ranges, current, limit, startup) := acc in
  do bs <- get_current f channel;
  let v := i16_at bs 0 in
  do r <- read_ranges f channel;
  ret (ranges ++ [r], Z.max current v, Z.min limit v, startup ++ [Z.min v STARTUP]).

Fixpoint open_channels (f : Feature) (acc : list (list Range) * Z * Z * list Z) (l : list Z)
  : M (list (list Range) * Z * Z * list Z) :=
  match l with
  | [] => ret acc
  | channel :: l => do acc <- open_channel f acc channel; open_channels f acc l
  end.

(** The value written for a target: silence stays silence, else the loudest supported value that is
    not above the target. *)
Definition supported (rs : list Range) (target : Z) : option Z :=
  if target =? I16_MIN then Some I16_MIN
  else list_max (map (fun r => floor r target) (filter (fun r => range_min r <= target) rs)).

Fixpoint set_channels (f : Feature) (loudest : Z) (l : list (Z * list Range * Z)) : M Z :=
  match l with
  | [] => ret loudest
  | (channel, rs, target) :: l =>
    match supported rs target with
    | None => fail "USB volume below supported range"
    | Some v =>
      do _ <- set_current f channel v;
      do readback <- get_current f channel;
      let actual := i16_at readback 0 in
      if negb (actual =? v) then fail "USB volume read-back mismatch"
      else set_channels f (Z.max loudest actual) l
    end
  end.

Definition db (v : Z) : f64 := f64_div (f64_of v) (f64_of 256).

Definition set_targets (vol : Volume) (targets : list Z) : M Volume :=
  do loudest <- set_channels (vol_feature vol) I16_MIN
    (zip (zip (channels (vol_feature vol)) (ranges vol)) targets);
  let s := snapshot vol in
  ret (mkVolume (vol_feature vol) (ranges vol)
         (mkSnapshot (available s) (min_db s) (max_db s) (db loudest) (restore_limit_db s))).

Definition open (f : Feature) : M Volume :=
  do acc <- open_channels f ([], I16_MIN, I16_MAX, []) (channels f);
  let '(ranges, current, limit, startup) := acc in
  do mins <- unwrap (mapM (fun rs => list_min (map range_min rs)) ranges);
  do min <- unwrap (list_max mins);
  do maxs <- unwrap (mapM (fun rs => list_max (map range_max rs)) ranges);
  do max <- unwrap (list_min maxs);
  let max := Z.min max 0 in
  if (max <=? min) || (STARTUP <? min) then fail "USB volume cannot provide startup attenuation"
  else set_targets
    (mkVolume f ranges (mkSnapshot true (db min) (db max) (db current) (db limit))) startup.

(** [set]: the volume keeps its old snapshot when the change fails. *)
Definition set (vol : Volume) (v : f64) : M Volume :=
  if negb (is_finite v) || f64_gt v (f64_of 0) || f64_lt v (f64_of (-128)) then fail "Invalid USB volume"
  else
    let target := as_i32 (f64_floor (f64_mul (f64_min v (max_db (snapshot vol))) (f64_of 256))) in
    set_targets vol (replicate (length (channels (vol_feature vol))) target).

(** ** What the device sees *)

Definition get_transfer (f : Feature) (c : Z) : Transfer :=
  mkTransfer true (if uac2 f then 1 else 129) (selector c) (unit_index f) [0; 0].
Definition set_transfer (f : Feature) (c v : Z) : Transfer :=
  mkTransfer false 1 (selector c) (unit_index f) (i16_bytes v).

Definition wf_range (r : Range) : Prop :=
  in_i 16 (range_min r) /\ in_i 16 (range_max r) /\ range_min r <= range_max r.

Definition wf_ranges (rs : list Range) : Prop := rs <> [] /\ Forall wf_range rs.

Lemma bind_run {A B} (m : M A) (k : A -> M B) h r h' :
  bind m k h = (r, h') ->
  exists r1 h1, m h = (r1, h1) /\
    match r1 with
    | Some (Ok a) => k a h1 = (r, h')
    | Some (Err e) => r = Some (Err e) /\ h' = h1
    | None => r = None /\ h' = h1
    end.
Proof.
  unfold bind. destruct (m h) as [[[a|e]|] h1]; intros E; eexists _, _; (split; [reflexivity|]); simpl;
    try done; by injection E as <- <-.
Qed.

Lemma transfer_run t h r h' :
  transfer t h = (r, h') -> exists a, r = Some a /\ h' = h ++ [(t, a)].
Proof. intros [= <- <-]. eauto. Qed.

Lemma parse_range_wf bs r : parse_range bs = Ok r -> wf_range r.
Proof.
  unfold parse_range. case_bool; [done|]. intros [= <-]. unfold wf_range. simpl in *.
  split; [by apply wrap_i_range|]. split; [by apply wrap_i_range|]. lia.
Qed.

Lemma parse_ranges_wf n bs l : parse_ranges n bs = Ok l -> length l = n /\ Forall wf_range l.
Proof.
  revert bs l. induction n as [|n IH]; intros bs l; simpl; [by intros [= <-]|].
  destruct (parse_range _) as [r|] eqn:E; [|done]. destruct (parse_ranges n _) eqn:El; [|done].
  intros [= <-]. apply IH in El as [Hl El]. split; [simpl; lia|].
  constructor; [by eapply parse_range_wf|done].
Qed.

(** [floor] never goes above the target. *)
Lemma floor_le r v : wf_range r -> range_min r <= v -> range_min r <= floor r v <= v.
Proof.
  unfold wf_range, floor, clamp. intros (Hi & Hx & Hm) Hv. unfold in_i in Hi, Hx. simpl in Hi, Hx.
  set (w := Z.max (range_min r) (Z.min v (range_max r))). assert (range_min r <= w <= v) as Hw by lia.
  set (s := Z.max (step r) 1). assert (0 < s) by lia.
  assert (0 <= (w - range_min r) / s * s <= w - range_min r) as Hd.
  { split; [apply Z.mul_nonneg_nonneg; [apply Z.div_pos; lia|lia]|].
    rewrite Z.mul_comm. apply Z.mul_div_le. lia. }
  rewrite wrap_i_small; [lia|lia|]. unfold in_i. simpl. lia.
Qed.

Lemma fold_max_spec l x : foldl Z.max x l = x \/ foldl Z.max x l ∈ l.
Proof.
  revert x. induction l as [|y l IH]; intros x; simpl; [by left|]. rewrite elem_of_cons.
  destruct (IH (Z.max x y)) as [->|]; [|auto]. destruct (Z.max_spec x y) as [[_ ->]|[_ ->]]; auto.
Qed.

Lemma list_max_in l m : list_max l = Some m -> m ∈ l.
Proof.
  destruct l as [|x l]; simpl; [done|]. intros [= <-]. rewrite elem_of_cons. apply fold_max_spec.
Qed.

Lemma supported_le rs target v :
  Forall wf_range rs -> supported rs target = Some v -> v <= target /\ in_i 16 v.
Proof.
  intros Hrs. unfold supported. case_bool; [intros [= <-]; unfold in_i, I16_MIN in *; simpl; lia|].
  intros Hm%list_max_in. apply list_elem_of_fmap in Hm as (r & -> & Hr).
  apply list_elem_of_filter in Hr as [Hle Hr]. rewrite Forall_forall in Hrs. specialize (Hrs r Hr).
  pose proof (floor_le r target Hrs Hle). split; [lia|]. by apply wrap_i_range.
Qed.

Definition writes (h : History) : History := filter (fun e => input e.1 = false) h.

Lemma writes_app a b : writes (a ++ b) = writes a ++ writes b.
Proof. apply filter_app. Qed.

Lemma read_ranges_run f c h r h' :
  read_ranges f c h = (r, h') ->
  exists new, h' = h ++ new /\ writes new = [] /\ r <> None /\
    forall rs, r = Some (Ok rs) -> wf_ranges rs.
Proof.
  assert (forall e new, writes new = [] -> exists n, h ++ new = h ++ n /\ writes n = [] /\
    Some (Err e : result (list Range) string) <> None /\
    forall rs, Some (Err e) = Some (Ok rs) -> wf_ranges rs) as Herr by (intros; by eexists).
  unfold read_ranges. destruct (uac2 f); intros Hrun.
  - apply bind_run in Hrun as (r1 & h1 & (a & -> & ->)%transfer_run & Hrun).
    destruct a as [head|e]; [|destruct Hrun as [-> ->]; by apply Herr].
    destruct (negb ((1 <=? _) && _)) eqn:Ec; [injection Hrun as <- <-; by apply Herr|].
    apply bind_run in Hrun as (r1 & h1 & (a & -> & ->)%transfer_run & Hrun). rewrite <- app_assoc in Hrun.
    destruct a as [all|e]; [|destruct Hrun as [-> ->]; by apply Herr].
    destruct (negb (_ =? _)); [injection Hrun as <- <-; by apply Herr|].
    unfold lift, ret, fail in Hrun. destruct (parse_ranges _ _) eqn:E; injection Hrun as <- <-;
      [|by apply Herr]. eexists. split_conj; [reflexivity|done|done|]. intros rs [= <-].
    apply parse_ranges_wf in E as [Hl E]. split; [|done]. intros ->. simpl in Hl. lia.
  - apply bind_run in Hrun as (r1 & h1 & (a & -> & ->)%transfer_run & Hrun).
    destruct a as [ba|e]; [|destruct Hrun as [-> ->]; by apply Herr].
    apply bind_run in Hrun as (r1 & h1 & (b & -> & ->)%transfer_run & Hrun). rewrite <- app_assoc in Hrun.
    destruct b as [bb|e]; [|destruct Hrun as [-> ->]; by apply Herr].
    apply bind_run in Hrun as (r1 & h1 & (c' & -> & ->)%transfer_run & Hrun). rewrite <- app_assoc in Hrun.
    destruct c' as [bc|e]; [|destruct Hrun as [-> ->]; by apply Herr].
    unfold bind, lift, ret, fail in Hrun. destruct (parse_range _) eqn:E; injection Hrun as <- <-;
      [|by apply Herr]. eexists. split_conj; [reflexivity|done|done|]. intros rs [= <-]. split; [done|].
    apply Forall_singleton. by eapply parse_range_wf.
Qed.

(** The level of channel [c] was read as [v]. *)
Definition was_read (f : Feature) (h : History) (c v : Z) : Prop :=
  exists bs, (get_transfer f c, Ok bs) ∈ h /\ i16_at bs 0 = v.

Lemma was_read_app f h h' c v : was_read f h c v -> was_read f (h ++ h') c v.
Proof. intros (bs & Hin & ?). exists bs. rewrite elem_of_app. auto. Qed.

Lemma open_channels_run f l rs cur lim st h r h' :
  open_channels f (rs, cur, lim, st) l h = (r, h') ->
  exists new, h' = h ++ new /\ writes new = [] /\ r <> None /\
    forall rs' cur' lim' st', r = Some (Ok (rs', cur', lim', st')) ->
      exists rs1 st1, rs' = rs ++ rs1 /\ st' = st ++ st1 /\ length rs1 = length l /\
        Forall wf_ranges rs1 /\
        Forall2 (fun c target => exists v, was_read f new c v /\ target = Z.min v STARTUP) l st1.
Proof.
  revert rs cur lim st h. induction l as [|c l IH]; intros rs cur lim st h Hrun.
  { injection Hrun as <- <-. exists []. rewrite app_nil_r. split_conj; [done..|].
    intros ? ? ? ? [= <- <- <- <-]. exists [], []. rewrite !app_nil_r. split_conj; (done || constructor). }
  simpl in Hrun. apply bind_run in Hrun as (r1 & h1 & Hone & Hrun).
  unfold open_channel in Hone. apply bind_run in Hone as (r2 & h2 & (a & -> & ->)%transfer_run & Hone).
  destruct a as [bs|e]; [|destruct Hone as [-> ->]; destruct Hrun as [-> ->]; by eexists].
  apply bind_run in Hone as (r3 & h3 & Hranges & Hone).
  apply read_ranges_run in Hranges as (new & -> & Hw & Hnp & Hwf).
  destruct r3 as [[ranges|e]|]; [| |done].
  2: { destruct Hone as [-> ->]. destruct Hrun as [-> ->]. rewrite <- app_assoc. eexists.
       split; [reflexivity|]. split; [by rewrite writes_app|done]. }
  injection Hone as <- <-. apply IH in Hrun as (more & -> & Hw' & Hnp' & Hok). rewrite <- !app_assoc.
  eexists. split; [reflexivity|]. split; [by rewrite !writes_app, Hw, Hw'|]. split; [done|].
  intros rs' cur' lim' st' E. destruct (Hok _ _ _ _ E) as (rs1 & st1 & -> & -> & Hl & Hr & Hf).
  exists (ranges :: rs1), (Z.min (i16_at bs 0) STARTUP :: st1). rewrite <- !app_assoc.
  split_conj; [done|done|simpl; lia|constructor; [by apply Hwf|done]|].
  constructor.
  - exists (i16_at bs 0). split; [|done]. exists bs. split; [|done]. rewrite !elem_of_app. left. left.
  - eapply Forall2_impl; [exact Hf|]. intros c' t (v & (bs' & Hin & Hv) & ->). exists v. split; [|done].
    exists bs'. rewrite !elem_of_app. auto.
Qed.

(** One write, seen with its verification when the run went on. *)
Lemma set_channels_run f loudest l h r h' :
  Forall (fun '(_, rs, _) => Forall wf_range rs) l ->
  set_channels f loudest l h = (r, h') ->
  exists new, h' = h ++ new /\
    Forall (fun e => exists c rs target v, (c, rs, target) ∈ l /\ e.1 = set_transfer f c v /\
                       v <= target /\ in_i 16 v) (writes new) /\
    forall m, r = Some (Ok m) ->
      Forall (fun '(c, _, target) => exists v a bs b x, v <= target /\ v <= m /\ i16_at bs 0 = v /\
        new = a ++ [(set_transfer f c v, Ok x); (get_transfer f c, Ok bs)] ++ b) l /\
      (m = loudest \/ exists c rs target bs, (c, rs, target) ∈ l /\ m <= target /\
         (get_transfer f c, Ok bs) ∈ new /\ i16_at bs 0 = m) /\ loudest <= m.
Proof.
  intros Hl. revert loudest h. induction Hl as [|[[c rs] target] l Hrs Hl IH]; intros loudest h Hrun.
  { injection Hrun as <- <-. exists []. rewrite app_nil_r. split_conj; [done|constructor|].
    intros m [= <-]. split_conj; [constructor|auto|lia]. }
  simpl in Hrun. destruct (supported rs target) as [v|] eqn:Ev.
  2: { injection Hrun as <- <-. exists []. rewrite app_nil_r. split_conj; [done|constructor|done]. }
  destruct (supported_le _ _ _ Hrs Ev) as [Hvt Hvi].
  assert (forall new, writes new = [] -> Forall (fun e => exists c0 rs0 target0 v0,
     (c0, rs0, target0) ∈ (c, rs, target) :: l /\ e.1 = set_transfer f c0 v0 /\ v0 <= target0 /\
     in_i 16 v0) (writes new)) as Hnone by (by intros new ->).
  assert (forall x, exists c0 rs0 target0 v0,
     (c0, rs0, target0) ∈ (c, rs, target) :: l /\ (set_transfer f c v, x : result bytes string).1 = set_transfer f c0 v0 /\
     v0 <= target0 /\ in_i 16 v0) as Hone.
  { intros x. exists c, rs, target, v. split_conj; try done. left. }
  apply bind_run in Hrun as (r1 & h1 & (x & -> & ->)%transfer_run & Hrun).
  destruct x as [x|e].
  2: { destruct Hrun as [-> ->]. eexists. split; [reflexivity|]. split; [|done]. by apply Forall_singleton. }
  apply bind_run in Hrun as (r1 & h1 & (y & -> & ->)%transfer_run & Hrun). rewrite <- app_assoc in Hrun.
  destruct y as [bs|e].
  2: { destruct Hrun as [-> ->]. eexists. split; [reflexivity|]. split; [|done]. by apply Forall_singleton. }
  destruct (Z.eqb_spec (i16_at bs 0) v) as [Hv|Hv]; simpl in Hrun.
  2: { injection Hrun as <- <-. eexists. split; [reflexivity|]. split; [|done]. by apply Forall_singleton. }
  apply IH in Hrun as (new & -> & Hw & Hok). rewrite <- app_assoc. eexists. split; [reflexivity|]. split.
  - rewrite writes_app. apply Forall_app. split; [by apply Forall_singleton|].
    eapply Forall_impl; [exact Hw|]. intros e (c0 & rs0 & t0 & v0 & Hin & ?). exists c0, rs0, t0, v0.
    split; [by right|done].
  - intros m E. destruct (Hok m E) as (Hall & Hm & Hle). split_conj; [| |lia].
    + constructor.
      * exists v, [], bs, new, x. split_conj; (done || lia).
      * eapply Forall_impl; [exact Hall|]. intros [[c0 rs0] t0] (v0 & a & bs0 & b & x0 & ? & ? & ? & ->).
        exists v0, ([(set_transfer f c v, Ok x); (get_transfer f c, Ok bs)] ++ a), bs0, b, x0.
        rewrite <- app_assoc. done.
    + destruct Hm as [->|(c0 & rs0 & t0 & bs0 & Hin & Ht & Hg & Hm)].
      * destruct (Z.max_spec loudest (i16_at bs 0)) as [[_ ->]|[_ ->]]; [right|by left].
        exists c, rs, target, bs. split_conj; [left|lia| |done]. right. left.
      * right. exists c0, rs0, t0, bs0. split_conj; [by right|done| |done]. rewrite elem_of_app. by right.
Qed.

Lemma set_channels_total f loudest l h r h' : set_channels f loudest l h = (r, h') -> r <> None.
Proof.
  revert loudest h. induction l as [|[[c rs] target] l IH]; intros loudest h; simpl; [by intros [= <- <-]|].
  destruct (supported rs target); [|by intros [= <- <-]].
  intros (r1 & h1 & (x & -> & ->)%transfer_run & Hrun)%bind_run. destruct x; [|by destruct Hrun as [-> _]].
  apply bind_run in Hrun as (r1 & h1 & (y & -> & ->)%transfer_run & Hrun).
  destruct y; [|by destruct Hrun as [-> _]]. case_bool; [by injection Hrun as <- <-|]. by eapply IH.
Qed.

(** The writes of [set_targets], their verification and the level reported. *)
Lemma set_targets_run vol targets h r h' :
  Forall wf_ranges (ranges vol) -> length (ranges vol) = length (channels (vol_feature vol)) ->
  length targets = length (channels (vol_feature vol)) ->
  set_targets vol targets h = (r, h') ->
  let f := vol_feature vol in
  r <> None /\ exists new, h' = h ++ new /\
    Forall (fun e => exists c target v, (c, target) ∈ zip (channels f) targets /\
      e.1 = set_transfer f c v /\ v <= target /\ in_i 16 v) (writes new) /\
    forall vol', r = Some (Ok vol') -> vol_feature vol' = f /\ ranges vol' = ranges vol /\
      exists m, current_db (snapshot vol') = db m /\ (m = I16_MIN \/ exists target, target ∈ targets /\ m <= target) /\
        Forall (fun '(c, target) => exists v a bs b x, v <= target /\ v <= m /\ i16_at bs 0 = v /\
          new = a ++ [(set_transfer f c v, Ok x); (get_transfer f c, Ok bs)] ++ b)
          (zip (channels f) targets).
Proof.
  intros Hwf Hl1 Hl2 Hrun. simpl. unfold set_targets in Hrun.
  apply bind_run in Hrun as (r1 & h1 & Hset & Hrun).
  pose proof (set_channels_total _ _ _ _ _ _ Hset) as Hnp.
  set (l := zip (zip (channels (vol_feature vol)) (ranges vol)) targets) in *.
  assert (forall c rs target, (c, rs, target) ∈ l -> (c, target) ∈ zip (channels (vol_feature vol)) targets
            /\ Forall wf_range rs) as Hin.
  { intros c rs target (i & Hi)%list_elem_of_lookup. unfold l in Hi.
    apply lookup_zip_Some in Hi as [Hcr Ht]. apply lookup_zip_Some in Hcr as [Hc Hr]. simpl in *.
    rewrite Forall_forall in Hwf. split; [|by apply Hwf, (list_elem_of_lookup_2 _ i)].
    apply (list_elem_of_lookup_2 _ i). by apply lookup_zip_Some. }
  assert (Forall (fun '(_, rs, _) => Forall wf_range rs) l) as Hlwf.
  { apply Forall_forall. intros [[c rs] t] Hx. by apply Hin in Hx as [_ ?]. }
  destruct (set_channels_run _ _ _ _ _ _ Hlwf Hset) as (new & -> & Hw & Hok).
  assert (r <> None) as Hr by (destruct r1 as [[m|e]|]; [injection Hrun as <- <-|by destruct Hrun as [-> _]|]; done).
  split; [done|]. exists new. split_conj.
  - destruct r1 as [[m|e]|]; [by injection Hrun as <- <-|by destruct Hrun|done].
  - eapply Forall_impl; [exact Hw|]. intros e (c & rs & t & v & Hx & ? & ? & ?).
    exists c, t, v. apply Hin in Hx as [? _]. done.
  - intros vol' ->. destruct r1 as [[m|e]|]; [|by destruct Hrun|done].
    injection Hrun as <- <-. simpl. split_conj; [done..|]. destruct (Hok m eq_refl) as (Hall & Hm & _).
    exists m. split_conj; [done| |].
    + destruct Hm as [?|(c & rs & t & bs & Hx & ? & _)]; [by left|right]. exists t.
      split; [|done]. apply Hin in Hx as [Hx _]. apply list_elem_of_lookup in Hx as [i Hx].
      apply lookup_zip_Some in Hx as [_ Hx]. by eapply list_elem_of_lookup_2.
    + apply Forall_forall. intros [c t] (i & Hx)%list_elem_of_lookup.
      apply lookup_zip_Some in Hx as [Hc Ht]. simpl in *.
      destruct (lookup_lt_is_Some_2 (ranges vol) i) as [rs Hrs]; [apply lookup_lt_Some in Hc; lia|].
      rewrite Forall_forall in Hall. apply (Hall (c, rs, t)). apply (list_elem_of_lookup_2 _ i).
      apply lookup_zip_Some. split; [|done]. by apply lookup_zip_Some.
Qed.

Lemma bounds_exist (g : list Z -> option Z) (p : Range -> Z) l :
  (forall x xs, is_Some (g (x :: xs))) -> Forall wf_ranges l -> is_Some (mapM (fun rs => g (map p rs)) l).
Proof.
  intros Hg Hl. apply mapM_is_Some_2. eapply Forall_impl; [exact Hl|]. intros [|x rs] [Hne _]; [done|].
  apply Hg.
Qed.

Lemma mapM_nonempty {A B} (g : A -> option B) l k : mapM g l = Some k -> l <> [] -> k <> [].
Proof. intros Hm%length_mapM Hl ->. by destruct l. Qed.

(** What [open] may do to the device: reads, then changes that lower the channels. *)
Definition cautious (f : Feature) (h : History) (r : option (result Volume string)) (h' : History) : Prop :=
  exists reads changes, h' = h ++ reads ++ changes /\ writes reads = [] /\
    Forall (fun e => exists c old v, c ∈ channels f /\ e.1 = set_transfer f c v /\ in_i 16 v /\
      was_read f reads c old /\ v <= old /\ v <= STARTUP) (writes changes) /\
    forall vol, r = Some (Ok vol) -> vol_feature vol = f /\
      exists m, current_db (snapshot vol) = db m /\ m <= STARTUP /\
        Forall (fun c => exists v a bs b x, v <= m /\ i16_at bs 0 = v /\
          changes = a ++ [(set_transfer f c v, Ok x); (get_transfer f c, Ok bs)] ++ b) (channels f).

Lemma cautious_stop f h reads r : writes reads = [] -> (forall v, r <> Some (Ok v)) -> cautious f h r (h ++ reads).
Proof.
  intros Hw He. exists reads, []. rewrite app_nil_r. split_conj; [done|done|constructor|]. intros vol ->. by destruct (He vol).
Qed.

Lemma cautious_changes f h reads changes targets r :
  writes reads = [] ->
  Forall2 (fun c t => exists old, was_read f reads c old /\ t = Z.min old STARTUP) (channels f) targets ->
  Forall (fun e => exists c target v, (c, target) ∈ zip (channels f) targets /\
    e.1 = set_transfer f c v /\ v <= target /\ in_i 16 v) (writes changes) ->
  (forall vol, r = Some (Ok vol) -> vol_feature vol = f /\
    exists m, current_db (snapshot vol) = db m /\ (m = I16_MIN \/ exists target, target ∈ targets /\ m <= target) /\
      Forall (fun '(c, target) => exists v a bs b x, v <= target /\ v <= m /\ i16_at bs 0 = v /\
        changes = a ++ [(set_transfer f c v, Ok x); (get_transfer f c, Ok bs)] ++ b) (zip (channels f) targets)) ->
  cautious f h r ((h ++ reads) ++ changes).
Proof.
  intros Hw Hst Hch Hvol.
  assert (forall c t, (c, t) ∈ zip (channels f) targets -> c ∈ channels f /\
    exists old, was_read f reads c old /\ t = Z.min old STARTUP) as Htarget.
  { intros c t (i & [Hc Ht]%lookup_zip_Some)%list_elem_of_lookup. simpl in *.
    split; [by eapply list_elem_of_lookup_2|]. by eapply Forall2_lookup_lr in Hst. }
  exists reads, changes. rewrite app_assoc. split_conj; [done|done| |].
  - eapply Forall_impl; [exact Hch|]. intros e (c & t & v & Hct & He & Hv & Hi).
    destruct (Htarget _ _ Hct) as (Hc & old & Hold & ->). exists c, old, v. split_conj; (done || lia).
  - intros vol E. destruct (Hvol vol E) as (Hf & m & Hm & Hle & Hall). split; [done|].
    exists m. split_conj; [done| |].
    + destruct Hle as [->|(t & Ht & Hle)]; [unfold I16_MIN, STARTUP; lia|].
      apply list_elem_of_lookup in Ht as [i Ht]. destruct (Forall2_lookup_r _ _ _ _ _ Hst Ht) as (c & _ & old & _ & ->). lia.
    + apply Forall_forall. intros c (i & Hc)%list_elem_of_lookup.
      destruct (Forall2_lookup_l _ _ _ _ _ Hst Hc) as (t & Ht & _). rewrite Forall_forall in Hall.
      destruct (Hall (c, t)) as (v & a & bs & b & x & _ & ? & ? & ?).
      { apply (list_elem_of_lookup_2 _ i). by apply lookup_zip_Some. }
      by exists v, a, bs, b, x.
Qed.

(** Connecting never makes the device louder. Whatever the device answers, every level [open]
    writes goes to a channel of the Feature Unit whose level it had read before, is not above that
    level and not above -40 dB; nothing is written while the channels are being read; and [open]
    succeeds only when the new level of every channel was read back right after the write, the level
    it then reports being at most -40 dB. With at least one channel it never panics. *)
Theorem startup_never_raises f h r h' (Hrun : open f h = (r, h')) :
  (channels f <> [] -> r <> None) /\
  exists reads changes, h' = h ++ reads ++ changes /\ writes reads = [] /\
    Forall (fun e => exists c old v, c ∈ channels f /\ e.1 = set_transfer f c v /\ in_i 16 v /\
      was_read f reads c old /\ v <= old /\ v <= STARTUP) (writes changes) /\
    forall vol, r = Some (Ok vol) -> vol_feature vol = f /\
      exists m, current_db (snapshot vol) = db m /\ m <= STARTUP /\
        Forall (fun c => exists v a bs b x, v <= m /\ i16_at bs 0 = v /\
          changes = a ++ [(set_transfer f c v, Ok x); (get_transfer f c, Ok bs)] ++ b) (channels f).
Proof.
  unfold open in Hrun. apply bind_run in Hrun as (r1 & h1 & Hopen & Hrun).
  apply open_channels_run in Hopen as (reads & -> & Hw & Hnp & Hok).
  fold (cautious f h r h').
  destruct r1 as [[[[[rs cur] lim] st]|e]|]; [| |done].
  2: { destruct Hrun as [-> ->]. split; [done|]. by apply cautious_stop. }
  destruct (Hok _ _ _ _ eq_refl) as (rs1 & st1 & -> & -> & Hlen & Hwf & Hst). simpl in Hrun.
  destruct (bounds_exist list_min range_min rs1) as [mins Hmins]; [eauto|done|].
  destruct (bounds_exist list_max range_max rs1) as [maxs Hmaxs]; [eauto|done|].
  rewrite Hmins, Hmaxs in Hrun. unfold bind at 1, unwrap at 1, ret at 1 in Hrun.
  destruct (decide (channels f = [])) as [Hnil|Hne].
  { split; [done|]. rewrite Hnil in Hlen. destruct rs1; [|done]. injection Hmins as <-. simpl in Hrun.
    injection Hrun as <- <-. by apply cautious_stop. }
  assert (rs1 <> []) as Hrs by (intros ->; by destruct (channels f)).
  pose proof (mapM_nonempty _ _ _ Hmins Hrs) as Hn1. pose proof (mapM_nonempty _ _ _ Hmaxs Hrs) as Hn2.
  destruct mins as [|mn mins]; [done|]. destruct maxs as [|mx maxs]; [done|].
  unfold bind, unwrap, ret, list_max, list_min in Hrun.
  match type of Hrun with (if ?b then _ else _) _ = _ => destruct b end.
  { injection Hrun as <- <-. split; [done|]. by apply cautious_stop. }
  apply set_targets_run in Hrun; [|done|done|by apply Forall2_length in Hst].
  simpl in Hrun. destruct Hrun as (Hr & changes & -> & Hch & Hvol). split; [done|].
  eapply cautious_changes; try done. intros vol E. destruct (Hvol vol E) as (Hf & _ & Hm). by split.
Qed.

(** A volume change is exact or refused. [set] refuses a volume that is not a number between
    -128 and 0 dB without touching the device; otherwise every level it writes is a supported level of
    the channel not above the requested one, the target being the request (capped at the device's
    maximum) rounded down to 1/256 dB, and when it succeeds every channel was read back at the level
    written. *)
Theorem set_never_exceeds vol v h r h'
  (Hwf : Forall wf_ranges (ranges vol)) (Hlen : length (ranges vol) = length (channels (vol_feature vol)))
  (Hrun : set vol v h = (r, h')) :
  let f := vol_feature vol in
  let target := as_i32 (f64_floor (f64_mul (f64_min v (max_db (snapshot vol))) (f64_of 256))) in
  if negb (is_finite v) || f64_gt v (f64_of 0) || f64_lt v (f64_of (-128))
  then r = Some (Err "Invalid USB volume"%string) /\ h' = h
  else r <> None /\ exists changes, h' = h ++ changes /\
    Forall (fun e => exists c level, c ∈ channels f /\ e.1 = set_transfer f c level /\
      in_i 16 level /\ level <= target) (writes changes) /\
    forall vol', r = Some (Ok vol') ->
      vol_feature vol' = f /\ ranges vol' = ranges vol /\
      exists m, current_db (snapshot vol') = db m /\ (m = I16_MIN \/ m <= target) /\
        Forall (fun c => exists level a bs b x, level <= target /\ level <= m /\ i16_at bs 0 = level /\
          changes = a ++ [(set_transfer f c level, Ok x); (get_transfer f c, Ok bs)] ++ b) (channels f).
Proof.
  unfold set in Hrun. cbn zeta. destruct (_ || _ || _); [by injection Hrun as <- <-|].
  set (target := as_i32 _) in *. set (n := length (channels (vol_feature vol))) in *.
  apply set_targets_run in Hrun; [|done|done|apply length_replicate].
  destruct Hrun as (Hr & changes & -> & Hch & Hvol). split; [done|]. exists changes.
  assert (forall c t, (c, t) ∈ zip (channels (vol_feature vol)) (replicate n target) ->
    c ∈ channels (vol_feature vol) /\ t = target) as Htarget.
  { intros c t (i & [Hc Ht]%lookup_zip_Some)%list_elem_of_lookup. simpl in *.
    apply lookup_replicate in Ht as [-> _]. split; [by eapply list_elem_of_lookup_2|done]. }
  split_conj; [done| |].
  - eapply Forall_impl; [exact Hch|]. intros e (c & t & l & Hct & He & Hl & Hi).
    apply Htarget in Hct as [Hc ->]. by exists c, l.
  - intros vol' E. destruct (Hvol vol' E) as (Hf & Hrg & m & Hm & Hle & Hall). split_conj; [done|done|].
    exists m. split_conj; [done| |].
    + destruct Hle as [->|(t & [-> _]%elem_of_replicate & Hle)]; auto.
    + apply Forall_forall. intros c (i & Hc)%list_elem_of_lookup. rewrite Forall_forall in Hall.
      destruct (Hall (c, target)) as (l & a & bs & b & x & ? & ? & ? & ?).
      { apply (list_elem_of_lookup_2 _ i). apply lookup_zip_Some. split; [done|].
        apply lookup_replicate. split; [done|]. by apply lookup_lt_Some in Hc. }
      by exists l, a, bs, b, x.
Qed.

End volume.

(** ** Witnesses: a UAC1 device that keeps its level, at -20 dB, range -100..0 dB in steps of 1 dB *)

Definition kept_level (h : History) : Z :=
  foldl (fun level e => if input e.1 then level else i16_at (data e.1) 0) (-20 * 256) h.

Definition headphone_answer (h : History) (t : Transfer) : result bytes string :=
  if decide (length (data t) = 2%nat /\ Forall byte_ok (data t)) then
    Ok (if input t then
          i16_bytes (if request t =? 130 then -100 * 256 else if request t =? 131 then 0
                     else if request t =? 132 then 256 else kept_level h)
        else data t)
  else Err "stall"%string.

#[local] Program Instance headphone : Control := { answer := headphone_answer }.
Next Obligation.
  unfold headphone_answer. intros h t bs. case_decide as Hd; [|done]. destruct Hd as [Hl Hd].
  intros [= <-]. destruct (input t); [|done]. rewrite Hl. split; [apply le_bytes_length|apply le_bytes_ok].
Qed.

Definition stereo : Feature := mkFeature 5 0 false [1; 2].

Definition opened : Volume :=
  match open stereo [] with
  | (Some (Ok vol), _) => vol
  | _ => mkVolume stereo [] (mkSnapshot false (db 0) (db 0) (db 0) (db 0))
  end.

Lemma startup_never_raises_witness :
  exists vol h', open stereo [] = (Some (Ok vol), h') /\ current_db (snapshot vol) = db (-40 * 256) /\
  exists m, current_db (snapshot vol) = db m /\ m <= STARTUP.
Proof.
  destruct (open stereo []) as [r h'] eqn:E. exists opened, h'.
  assert (r = Some (Ok opened)) as ->.
  { transitivity (open stereo []).1; [by rewrite E|]. vm_compute. reflexivity. }
  split; [reflexivity|]. split; [vm_compute; reflexivity|].
  destruct (startup_never_raises stereo [] _ h' E) as (_ & reads & changes & _ & _ & _ & H).
  destruct (H _ eq_refl) as (_ & m & Hm & Hle & _). exists m. split; [exact Hm|exact Hle].
Defined.

Lemma set_never_exceeds_witness :
  exists vol' h', set opened (f64_of (-50)) [] = (Some (Ok vol'), h') /\
    current_db (snapshot vol') = db (-50 * 256) /\ ranges vol' = ranges opened.
Proof.
  destruct (set opened (f64_of (-50)) []) as [r h'] eqn:E.
  pose (changed := match (set opened (f64_of (-50)) []).1 with Some (Ok v) => v | _ => opened end).
  exists changed, h'. assert (r = Some (Ok changed)) as ->.
  { transitivity (set opened (f64_of (-50)) []).1; [by rewrite E|]. vm_compute. reflexivity. }
  split; [reflexivity|]. split; [vm_compute; reflexivity|].
  pose proof (set_never_exceeds opened (f64_of (-50)) [] (Some (Ok changed)) h') as H. cbn zeta in H.
  replace (negb (is_finite (f64_of (-50))) || f64_gt (f64_of (-50)) (f64_of 0)
           || f64_lt (f64_of (-50)) (f64_of (-128))) with false in H by (vm_compute; reflexivity).
  apply H in E as (_ & changes & _ & _ & Hok).
  - by destruct (Hok _ eq_refl) as (_ & Hr & _).
  - assert (ranges opened = [[mkRange (-25600) 0 256]; [mkRange (-25600) 0 256]]) as ->
      by (vm_compute; reflexivity).
    assert (wf_ranges [mkRange (-25600) 0 256]) as Hw.
    { split; [done|]. constructor; [|constructor]. unfold wf_range, in_i. simpl. lia. }
    apply Forall_cons; split; [exact Hw|apply Forall_cons; split; [exact Hw|constructor]].
  - vm_compute. reflexivity.
Defined.
