(* ===== verification/RustText.v ===== *)
(** * Numbers and searches in text: the parts of Rust's [str] the download engine uses *)

From S2P Require Import Prelude.
From stdpp Require Import pretty.
#[local] Open Scope Z_scope.

(** [format!("{n}")] of an unsigned integer. *)
Definition decimal (n : Z) : string := pretty (Z.to_N n).

Lemma decimal_inj m n : 0 <= m -> 0 <= n -> decimal m = decimal n -> m = n.
Proof. unfold decimal. intros Hm Hn E%(inj pretty). lia. Qed.

Definition signed_decimal (n : Z) : string :=
  if n <? 0 then ("-" ++ decimal (- n))%string else decimal n.

(** [format!("{s:?}")]: in quotes, with the escapes of the quote, the backslash and the control
    characters.  The unprintable characters outside ASCII are left as they are. *)
Definition hex_digit (n : nat) : ascii := nth n (chars "0123456789abcdef") (ascii_of_nat 32).
Definition debug_char (a : ascii) : string :=
  let n := Ascii.nat_of_ascii a in
  match n with
  | 0 => "\0" | 9 => "\t" | 10 => "\n" | 13 => "\r" | 92 => "\\"
  | 34 => unchars [ascii_of_nat 92; ascii_of_nat 34]
  | _ =>
    if (n <? 32)%nat || (n =? 127)%nat then
      "\u{" ++ unchars (if (n <? 16)%nat then [hex_digit n] else [hex_digit (n / 16); hex_digit (n mod 16)]) ++ "}"
    else unchars [a]
  end%nat%string.
Definition debug (s : string) : string :=
  let quote := unchars [ascii_of_nat 34] in
  (quote ++ unchars (flat_map (fun a => chars (debug_char a)) (chars s)) ++ quote)%string.

Example debug_ex : chars (debug (unchars (chars "a\" ++ [ascii_of_nat 27]))) =
  [ascii_of_nat 34] ++ chars "a\\\u{1b}" ++ [ascii_of_nat 34].
Proof. reflexivity. Qed.

Definition digit_value (a : ascii) : option Z :=
  let n := Z.of_nat (Ascii.nat_of_ascii a) in
  if (48 <=? n) && (n <=? 57) then Some (n - 48) else None.

Fixpoint parse_nat (acc : Z) (l : list ascii) : option Z :=
  match l with
  | [] => Some acc
  | a :: l => match digit_value a with Some d => parse_nat (10 * acc + d) l | None => None end
  end.

(** [parse::<i64>] and the like: an optional sign, at least one digit, no overflow. *)
Definition parse_int (lo hi : Z) (s : string) : option Z :=
  let '(negative, l) :=
    match chars s with
    | a :: l =>
      if Ascii.eqb a (ascii_of_nat 45) then (true, l)
      else if Ascii.eqb a (ascii_of_nat 43) then (false, l)
      else (false, a :: l)
    | [] => (false, [])
    end in
  match l with
  | [] => None
  | _ =>
    match parse_nat 0 l with
    | Some n =>
      let z := if negative : bool then - n else n in
      if (lo <=? z) && (z <=? hi) then Some z else None
    | None => None
    end
  end.
Definition parse_i64 : string -> option Z := parse_int i64_min i64_max.

Example parse_i64_ex : map parse_i64 ["12"; "-7"; "+3"; ""; "-"; "1x"; "9223372036854775808"]%string
  = [Some 12; Some (-7); Some 3; None; None; None; None].
Proof. reflexivity. Qed.

Definition starts_with (s p : string) : bool := bool_decide (is_Some (strip_list (chars p) (chars s))).

(** [rsplit_once(sep)]: around the last occurrence. *)
Fixpoint rsplit_list (sep : ascii) (l : list ascii) : option (list ascii * list ascii) :=
  match l with
  | [] => None
  | a :: l =>
    match rsplit_list sep l with
    | Some (x, y) => Some (a :: x, y)
    | None => if Ascii.eqb a sep then Some ([], l) else None
    end
  end.
Definition rsplit_once (sep : ascii) (s : string) : option (string * string) :=
  match rsplit_list sep (chars s) with
  | Some (x, y) => Some (unchars x, unchars y)
  | None => None
  end.

Example rsplit_ex : rsplit_once (ascii_of_nat 47) "bytes 0-1/20" = Some ("bytes 0-1", "20")%string.
Proof. reflexivity. Qed.

Definition ascii_lower (a : ascii) : ascii :=
  let n := Ascii.nat_of_ascii a in
  if (65 <=? n)%nat && (n <=? 90)%nat then ascii_of_nat (n + 32) else a.

Definition eq_ignore_ascii_case (s t : string) : bool :=
  bool_decide (map ascii_lower (chars s) = map ascii_lower (chars t)).

(** [to_ascii_lowercase]. *)
Definition lower (s : string) : string := unchars (map ascii_lower (chars s)).

(** ** Reading a number back *)

Definition is_digit (a : ascii) : Prop := is_Some (digit_value a).
Definition digits_of (acc : Z) (l : list ascii) : Z := fold_left (fun acc a => 10 * acc + default 0 (digit_value a)) l acc.

Lemma digit_value_char (x : N) : (x < 10)%N -> digit_value (pretty_N_char x) = Some (Z.of_N x).
Proof. intros Hx. assert (x = 0 \/ x = 1 \/ x = 2 \/ x = 3 \/ x = 4 \/ x = 5 \/ x = 6 \/ x = 7 \/ x = 8 \/ x = 9)%N by lia. naive_solver. Qed.

Lemma pretty_go_digits x s : exists l, chars (pretty_N_go x s) = l ++ chars s /\ Forall is_digit l /\
  (forall acc, digits_of acc l = acc * 10 ^ len l + Z.of_N x) /\ ((0 < x)%N -> l <> []).
Proof.
  revert s. induction (N.lt_wf_0 x) as [x _ IH]; intros s. destruct (N.eq_dec x 0%N) as [->|Hx].
  { exists []. rewrite pretty_N_go_0. split_conj; [done|done| |lia]. intros acc. change (acc = acc * 1 + 0). lia. }
  rewrite pretty_N_go_step by lia. destruct (IH (x / 10)%N ltac:(apply N.div_lt; [lia|done])
    (String (pretty_N_char (x `mod` 10)%N) s)) as (l & Hl & Hd & Hv & _).
  exists (l ++ [pretty_N_char (x mod 10)%N]). assert (x mod 10 < 10)%N as Hm by (by apply N.mod_lt).
  split_conj.
  - rewrite Hl, <- app_assoc. done.
  - apply Forall_app. split; [done|]. repeat constructor. unfold is_digit. rewrite digit_value_char by done. eauto.
  - intros acc. unfold digits_of in *. rewrite fold_left_app, Hv. cbn [fold_left]. rewrite digit_value_char by done.
    rewrite len_app, Z.pow_add_r by apply len_nonneg. change (10 ^ len [pretty_N_char (x mod 10)%N]) with 10.
    simpl. pose proof (N.div_mod x 10%N ltac:(lia)). nia.
  - intros _ E. by apply app_eq_nil in E as [_ E].
Qed.

Lemma decimal_digits n : 0 < n -> exists l, chars (decimal n) = l /\ l <> [] /\ Forall is_digit l /\ digits_of 0 l = n.
Proof.
  intros Hn. unfold decimal, pretty, pretty_N. rewrite decide_False by lia.
  destruct (pretty_go_digits (Z.to_N n) "") as (l & Hl & Hd & Hv & Hne). exists l. rewrite app_nil_r in Hl.
  split_conj; [done|apply Hne; lia|done|]. rewrite Hv. lia.
Qed.

Lemma parse_nat_digits l acc : Forall is_digit l -> parse_nat acc l = Some (digits_of acc l).
Proof. intros Hl. revert acc. induction Hl as [|a l [d Hd] Hl IH]; intros acc; [done|]. cbn. by rewrite Hd. Qed.

Lemma digit_unsigned a : is_digit a -> Ascii.eqb a (ascii_of_nat 45) = false /\ Ascii.eqb a (ascii_of_nat 43) = false.
Proof. intros [d Hd]. split; apply Ascii.eqb_neq; intros ->; by vm_compute in Hd. Qed.

(** A number in decimal is read as itself, if it is in range. *)
Lemma parse_decimal n m : 0 <= n -> parse_i64 (decimal n) = Some m -> m = n.
Proof.
  intros Hn. destruct (Z.eq_dec n 0) as [->|]; [vm_compute; congruence|].
  destruct (decimal_digits n ltac:(lia)) as (l & Hl & Hne & Hd & Hv). unfold parse_i64, parse_int. rewrite Hl.
  destruct l as [|a l]; [done|]. pose proof Hd as Hda. rewrite Forall_cons in Hda. destruct Hda as [Hda _].
  destruct (digit_unsigned a Hda) as [-> ->]. rewrite parse_nat_digits, Hv by done. case_match; congruence.
Qed.

Lemma decimal_no_slash n : 0 <= n -> ascii_of_nat 47 ∉ chars (decimal n).
Proof.
  intros Hn Hin. destruct (Z.eq_dec n 0) as [->|]; [by vm_compute in Hin; set_solver|].
  destruct (decimal_digits n ltac:(lia)) as (l & Hl & _ & Hd & _). rewrite Hl in Hin.
  rewrite Forall_forall in Hd. destruct (Hd _ Hin) as [d Hdv]. by vm_compute in Hdv.
Qed.

(** [rsplit_once] at a separator the rest does not hold. *)
Lemma rsplit_list_app sep x y : sep ∉ y -> rsplit_list sep (x ++ sep :: y) = Some (x, y).
Proof.
  intros Hy. assert (rsplit_list sep y = None) as Hn.
  { induction y as [|a y IH]; [done|]. apply not_elem_of_cons in Hy as [Ha Hy]. simpl. rewrite IH by done.
    by destruct (Ascii.eqb_spec a sep). }
  induction x as [|a x IH]; simpl; [by rewrite Hn, Ascii.eqb_refl|by rewrite IH].
Qed.

Lemma digits_of_ge l acc : 0 <= acc -> Forall is_digit l -> acc <= digits_of acc l.
Proof.
  intros Ha Hl. revert acc Ha. induction Hl as [|a l [d Hd] Hl IH]; intros acc Ha; [done|]. cbn. rewrite Hd. simpl.
  assert (0 <= d) by (unfold digit_value in Hd; case_match; [|done]; injection Hd as <-; lia).
  etransitivity; [|apply IH]; lia.
Qed.

(** Text that neither begins nor ends with white space is trimmed to itself. *)
Definition solid (ws : list (list ascii)) (a : ascii) : bool :=
  forallb (fun w => match w with b :: _ => negb (Ascii.eqb b a) | [] => false end) ws.

Lemma trim_list_solid ws fuel a l : solid ws a = true -> trim_list ws fuel (a :: l) = a :: l.
Proof.
  intros Ha. assert (strip_any ws (a :: l) = None) as Hs; [|destruct fuel as [|fuel]; [done|]; cbn [trim_list]; by rewrite Hs].
  induction ws as [|w ws IH]; [done|]. simpl in Ha. apply andb_true_iff in Ha as [Hw Ha]. cbn [strip_any].
  destruct w as [|b w]; [done|]. cbn [strip_list]. rewrite negb_true_iff in Hw. rewrite Hw. by apply IH.
Qed.

Lemma solid_digit a : is_digit a -> solid white_space a = true /\ solid (map (@rev ascii) white_space) a = true.
Proof.
  intros [d Hd]. unfold digit_value in Hd. case_match eqn:E; [|done]. apply andb_true_iff in E as [E1 E2].
  assert (exists n, a = ascii_of_nat n /\ (48 <= n <= 57)%nat) as (n & -> & Hn).
  { exists (Ascii.nat_of_ascii a). split; [by rewrite Ascii.ascii_nat_embedding|lia]. }
  assert (n = 48 \/ n = 49 \/ n = 50 \/ n = 51 \/ n = 52 \/ n = 53 \/ n = 54 \/ n = 55 \/ n = 56 \/ n = 57)%nat as Hc by lia.
  repeat destruct Hc as [->|Hc]; [by vm_compute..|]. subst. by vm_compute.
Qed.

Lemma trim_digits l m : l <> [] -> m <> [] -> Forall is_digit l -> Forall is_digit m -> forall r,
  (r = l \/ exists x, r = l ++ x ++ m) -> trim (unchars r) = unchars r.
Proof.
  intros Hl Hm Hdl Hdm r Hr.
  destruct (exists_last Hl) as (l' & b & El), (exists_last Hm) as (m' & b' & Em).
  destruct l as [|a l]; [done|]. pose proof Hdl as Hda. rewrite Forall_cons in Hda. destruct Hda as [Hda _].
  assert (is_digit b /\ is_digit b') as [Hdb Hdb'].
  { rewrite El, Forall_app, Forall_singleton in Hdl. rewrite Em, Forall_app, Forall_singleton in Hdm. tauto. }
  assert (exists c x y, r = a :: x /\ r = y ++ [c] /\ is_digit c) as (c & x & y & Ha & Hc & Hdc).
  { destruct Hr as [->|[z ->]]; [by exists b, l, l'|]. exists b', (l ++ z ++ m), ((a :: l) ++ z ++ m'). split_conj; [done| |done].
    by rewrite Em, !app_assoc. }
  assert (forall fuel, trim_list white_space fuel r = r) as Hstart
    by (intros fuel; rewrite Ha; by apply trim_list_solid, solid_digit).
  assert (forall fuel, trim_list (map (@rev ascii) white_space) fuel (rev r) = rev r) as Hend
    by (intros fuel; rewrite Hc, rev_app_distr; by apply trim_list_solid, solid_digit).
  unfold trim, trim_start, trim_end. by rewrite !chars_unchars, Hstart, Hend, rev_involutive.
Qed.
