(* ===== verification/TransferPolicy.v ===== *)
(** * The manifest's download policy: [crates/extensions/src/transfer_policy.rs]

    Reading [downloadTransfer] from an extension's capabilities.  A JSON number is its [f64]. *)

From S2P Require Import Prelude Float64 RustText.

Inductive Json :=
| JNull
| JBool (b : bool)
| JNumber (x : f64)
| JString (s : string)
| JArray (l : list Json)
| JObject (m : list (string * Json)).

(** Member lookup of an object. *)
Definition member (m : list (string * Json)) (key : string) : option Json :=
  snd <$> (snd <$> list_find (fun p => p.1 = key) m).

Definition as_f64 (v : Json) : option f64 := match v with JNumber x => Some x | _ => None end.
Definition as_str (v : Json) : option string := match v with JString s => Some s | _ => None end.
Definition as_array (v : Json) : option (list Json) := match v with JArray l => Some l | _ => None end.
Definition as_object (v : Json) : option (list (string * Json)) :=
  match v with JObject m => Some m | _ => None end.

Record DownloadTransferPolicy := mkPolicy {
  max_attempts : Z; initial_retry_delay_ms : Z; max_retry_delay_ms : Z;
  resume_policy : string; persistent_checkpoint : bool; refresh_stream_on_status : gset Z;
  max_parallel_segments : Z; max_concurrent_downloads : Z }.

Definition default_policy : DownloadTransferPolicy :=
  mkPolicy 3 500 8000 "none" false {[401; 403]} 3 3.

Section policy.
(** Whether the target is x86 or x86-64, whose conversion of a number out of range differs. *)
Variable x86 : bool.

Definition rounded_int (value : f64) : Z :=
  let rounded := f64_round value in
  if x86 && (f64_ge rounded (f64_of i64_max) || f64_lt rounded (f64_of i64_min)) then i64_min
  else as_i64 rounded.

Definition number (value : option Json) (fallback : Z) : Z :=
  match value with
  | Some v => match as_f64 v with Some x => rounded_int x | None => fallback end
  | None => fallback
  end.

(** [trim().to_lowercase()] is compared with "none" and "validated" only, and no letter outside ASCII
    lowercases to a letter of these two words. *)
Definition from_capabilities (capabilities : list (string * Json)) : DownloadTransferPolicy :=
  match member capabilities "downloadTransfer" with
  | Some (JObject config) =>
    let get := member config in
    let d := default_policy in
    let attempts := clamp (number (get "maxAttempts"%string) (max_attempts d)) 1 8 in
    let initial := clamp (number (get "initialRetryDelayMs"%string) (initial_retry_delay_ms d)) 100 30000 in
    let maximum := clamp (number (get "maxRetryDelayMs"%string) (max_retry_delay_ms d)) initial 120000 in
    let resume :=
      match get "resumePolicy"%string with
      | Some (JString s) =>
        let s := lower (trim s) in
        if bool_decide (s = "none"%string) || bool_decide (s = "validated"%string) then s
        else resume_policy d
      | _ => resume_policy d
      end in
    let persistent :=
      match get "persistentCheckpoint"%string with
      | Some (JBool true) => bool_decide (resume = "validated"%string)
      | _ => false
      end in
    let refresh :=
      match get "refreshStreamOnStatus"%string with
      | Some (JArray l) =>
        let statuses : gset Z :=
          list_to_set (filter (fun s => 400 <= s <= 599) (map (fun v => number (Some v) 0) l)) in
        if decide (statuses = ∅) then refresh_stream_on_status d else statuses
      | _ => refresh_stream_on_status d
      end in
    mkPolicy attempts initial maximum resume persistent refresh
      (clamp (number (get "maxParallelSegments"%string) (max_parallel_segments d)) 1 8)
      (clamp (number (get "maxConcurrentDownloads"%string) (max_concurrent_downloads d)) 1 3)
  | _ => default_policy
  end.

Definition counted_keys : list string :=
  ["maxAttempts"; "initialRetryDelayMs"; "maxRetryDelayMs"; "maxParallelSegments";
   "maxConcurrentDownloads"]%string.

Fixpoint validate_counts (config : list (string * Json)) (keys : list string) : result unit string :=
  match keys with
  | [] => Ok tt
  | key :: keys =>
    match member config key with
    | Some v => if number (Some v) (-1) <? 0 then Err (key ++ " must be a non-negative number")%string
                else validate_counts config keys
    | None => validate_counts config keys
    end
  end.

Definition validate (capabilities : list (string * Json)) : result unit string :=
  match member capabilities "downloadTransfer" with
  | None => Ok tt
  | Some raw =>
    match as_object raw with
    | None => Err "must be an object"%string
    | Some config =>
      let bad_resume :=
        match member config "resumePolicy" with
        | Some (JString s) => negb (bool_decide (s = "none"%string) || bool_decide (s = "validated"%string))
        | Some _ => true
        | None => false
        end in
      if bad_resume then Err "resumePolicy must be 'none' or 'validated'"%string else
      match member config "persistentCheckpoint" with
      | Some (JBool _) | None => validate_counts config counted_keys
      | Some _ => Err "persistentCheckpoint must be a boolean"%string
      end
    end
  end.

Record wf_policy (p : DownloadTransferPolicy) : Prop := {
  wf_attempts : 1 <= max_attempts p <= 8;
  wf_initial : 100 <= initial_retry_delay_ms p <= 30000;
  wf_maximum : initial_retry_delay_ms p <= max_retry_delay_ms p <= 120000;
  wf_resume : resume_policy p = "none"%string \/ resume_policy p = "validated"%string;
  wf_persistent : persistent_checkpoint p = true -> resume_policy p = "validated"%string;
  wf_refresh : refresh_stream_on_status p <> ∅ /\
    forall s, s ∈ refresh_stream_on_status p -> 400 <= s <= 599;
  wf_parallel : 1 <= max_parallel_segments p <= 8;
  wf_concurrent : 1 <= max_concurrent_downloads p <= 3 }.

Lemma clamp_range z lo hi : lo <= hi -> lo <= clamp z lo hi <= hi.
Proof. unfold clamp. lia. Qed.

Lemma default_policy_wf : wf_policy default_policy.
Proof.
  split; simpl; try lia; auto. split; [set_solver|]. intros s.
  rewrite elem_of_union, !elem_of_singleton. lia.
Qed.

(** Whatever an extension's manifest holds - missing, of the wrong type, infinite, not a number
    or out of range, on every target - the policy read from it is within its bounds: 1 to 8 attempts,
    delays ordered and at most two minutes, at least one refresh status and all of them 4xx or 5xx, 1
    to 8 parallel segments, 1 to 3 downloads, and persistent checkpoints only with validated resume. *)
Theorem from_capabilities_wf capabilities : wf_policy (from_capabilities capabilities).
Proof.
  unfold from_capabilities. destruct (member capabilities "downloadTransfer") as [raw|];
    [|apply default_policy_wf].
  destruct raw as [| | | | |config]; try apply default_policy_wf.
  set (resume := match member config "resumePolicy" with Some (JString s) => _ | _ => _ end).
  assert (resume = "none"%string \/ resume = "validated"%string) as Hr.
  { unfold resume. destruct (member config "resumePolicy") as [[]|]; auto.
    repeat case_bool_decide; simpl; auto. }
  pose proof (clamp_range (number (member config "initialRetryDelayMs") 500) 100 30000 ltac:(lia)).
  split; cbn -[clamp resume]; try (apply clamp_range; lia); try done.
  - destruct (member config "persistentCheckpoint") as [[| [] | | | | ]|]; try done.
    apply bool_decide_eq_true.
  - destruct (member config "refreshStreamOnStatus") as [[]|]; try apply default_policy_wf.
    case_decide as E; [apply default_policy_wf|]. split; [done|]. intros s.
    rewrite elem_of_list_to_set, list_elem_of_filter. tauto.
Qed.
End policy.
