(* ===== verification/Monads.v ===== *)
(** * State and early errors

    The monad in which the stateful code of the library is written, and the rules of its weakest
    preconditions. *)

From S2P Require Import Prelude.

(** A computation on a state of type [S] that ends in a value or in an early error. *)
Definition St (S E A : Type) : Type := S -> result A E * S.

Definition ret {S E A} (a : A) : St S E A := fun s => (Ok a, s).
Definition throw {S E A} (e : E) : St S E A := fun s => (Err e, s).
Definition bind {S E A B} (m : St S E A) (k : A -> St S E B) : St S E B := fun s =>
  match m s with (Ok a, s) => k a s | (Err e, s) => (Err e, s) end.
(** The state and the result of a fallible step as a value. *)
Definition attempt {S E F A} (m : St S E A) : St S F (result A E) := fun s => let '(r, s) := m s in (Ok r, s).
Definition gets {S E A} (f : S -> A) : St S E A := fun s => (Ok (f s), s).
Definition modify {S E} (f : S -> S) : St S E unit := fun s => (Ok tt, f s).
Definition mapping {S E F A} (f : E -> F) (m : St S E A) : St S F A := fun s =>
  match m s with (Ok a, s) => (Ok a, s) | (Err e, s) => (Err (f e), s) end.

Declare Scope engine_scope.
Delimit Scope engine_scope with engine.
Notation "'do' x <- m ; k" := (bind m (fun x => k))
  (at level 100, x pattern, m at next level, k at level 200, right associativity) : engine_scope.
Notation "m ;; k" := (bind m (fun _ => k))
  (at level 100, k at level 200, right associativity) : engine_scope.
#[global] Open Scope engine_scope.

(** ** Weakest preconditions

    [wp m Q R s]: running [m] from [s] ends in [Q] with a value or in [R] with an early error. *)

Definition wp {S E A} (m : St S E A) (Q : A -> S -> Prop) (R : E -> S -> Prop) (s : S) : Prop :=
  match m s with (Ok a, s) => Q a s | (Err e, s) => R e s end.

Section wp.
Context {S E A B : Type}.
Implicit Types (Q : A -> S -> Prop) (R : E -> S -> Prop).

Lemma wp_ret (a : A) Q R s : Q a s -> wp (ret a) Q R s.
Proof. done. Qed.
Lemma wp_throw (e : E) Q R s : R e s -> wp (throw e) Q R s.
Proof. done. Qed.
Lemma wp_gets (f : S -> A) Q R s : Q (f s) s -> wp (gets f) Q R s.
Proof. done. Qed.
Lemma wp_modify f (Q : unit -> S -> Prop) R s : Q tt (f s) -> wp (modify f) Q R s.
Proof. done. Qed.

Lemma wp_bind (m : St S E A) (k : A -> St S E B) (Q : B -> S -> Prop) R s :
  wp m (fun a => wp (k a) Q R) R s -> wp (bind m k) Q R s.
Proof. unfold wp, bind. by destruct (m s) as [[a|e] s']. Qed.

Lemma wp_unbind (m : St S E A) (k : A -> St S E B) (Q : B -> S -> Prop) R s :
  wp (bind m k) Q R s -> wp m (fun a => wp (k a) Q R) R s.
Proof. unfold wp, bind. by destruct (m s) as [[a|e] s']. Qed.

Lemma wp_mono (m : St S E A) Q Q' R R' s :
  wp m Q R s -> (forall a s', Q a s' -> Q' a s') -> (forall e s', R e s' -> R' e s') -> wp m Q' R' s.
Proof. unfold wp. destruct (m s) as [[a|e] s']; auto. Qed.
End wp.

Lemma wp_attempt {S E F A} (m : St S E A) (Q : result A E -> S -> Prop) (R : F -> S -> Prop) s :
  wp m (fun a => Q (Ok a)) (fun e => Q (Err e)) s -> wp (attempt m) Q R s.
Proof. unfold wp, attempt. by destruct (m s) as [[a|e] s']. Qed.

Lemma wp_mapping {S E F A} (f : E -> F) (m : St S E A) Q (R : F -> S -> Prop) s :
  wp m Q (fun e => R (f e)) s -> wp (mapping f m) Q R s.
Proof. unfold wp, mapping. by destruct (m s) as [[a|e] s']. Qed.
