(* ===== verification/Download.v ===== *)
(** * The download engine: shared parts and the staged file

    [crates/extensions/src/download.rs] (failures, headers, validators, retry policy) and
    [crates/extensions/src/download/store.rs] (the staged file with its checkpoint).

    Everything outside the engine answers through the class [World]: each call takes the number of
    the call (the [tick]), so the network, the file system, the caller's check, the waits, the clock
    and the random source may answer differently every time. *)

From S2P Require Import Prelude Monads Float64 RustText TransferPolicy.

(** ** HTTP data *)

Record HttpRequest := mkRequest { url : string; req_headers : gmap string string; user_agent : string }.

Record HttpResponse := mkResponse { status : Z; headers : gmap string (list string) }.

(** An open stream: the chunks the reads return and how the last read ends. *)
Record HttpStream := mkStream {
  response : HttpResponse; chunks : list bytes; ended : result unit string }.

Record Failure := mkFailure {
  error : string; error_type : string; attempts : Z; http_status : Z; retry_after_seconds : Z }.

Definition failure (kind message : string) (n : Z) : Failure := mkFailure message kind n 0 0.

Definition set_header (h : gmap string string) (name value : string) : gmap string string :=
  <[name := value]> (filter (fun p => eq_ignore_ascii_case p.1 name = false) h).

Definition header (r : HttpResponse) (name : string) : string :=
  match headers r !! name with Some (v :: _) => v | _ => "" end.

(** [to_uppercase().starts_with("W/")]: only w and W have the uppercase W alone. *)
Definition weak_tag (etag : string) : bool :=
  starts_with (lower etag) "w/".

Definition validator (r : HttpResponse) : string :=
  let etag := trim (header r "Etag") in
  if negb (is_empty etag) && negb (weak_tag etag) then etag else trim (header r "Last-Modified").

Definition retryable (s : Z) : bool := (s =? 408) || (s =? 425) || (s =? 429) || (500 <=? s).

(** ** The world *)

Record Checkpoint := mkCheckpoint {
  version : Z; fingerprint : string; cp_validator : string; cp_bytes : Z; cp_total : Z; updated_at : Z }.

Definition empty_checkpoint : Checkpoint := mkCheckpoint 0 "" "" 0 0 0.

Class World := {
  check_at : nat -> result unit string;
  wait_at : nat -> Z -> result unit string;
  open_stream_at : nat -> HttpRequest -> result HttpStream string;
  io_error_at : nat -> option string;         (** the error of a file system call, if it fails *)
  partial_write_at : nat -> nat;              (** how much a failing write leaves in the file *)
  instant_at : nat -> Z;                      (** the monotonic clock, ns *)
  system_ms_at : nat -> Z;                    (** the wall clock, ms *)
  random_u64_at : nat -> option Z;            (** eight random bytes *)
  http_date_ns : string -> option Z;          (** an HTTP date after the epoch *)
  encode_checkpoint : Checkpoint -> bytes;    (** serde's JSON of a checkpoint *)
  decode_checkpoint : bytes -> option Checkpoint;
  decode_encode_checkpoint c : decode_checkpoint (encode_checkpoint c) = Some c }.

(** The directory entries of one download: the published file, the staged file, its checkpoint. *)
Record Disk := mkDisk { target : option bytes; partial : option bytes; saved : option bytes }.

Record DownloadFile := mkFile {
  state : Checkpoint; restored : bool; keep_partial : bool; promoted : bool;
  saved_bytes : Z; saved_at : Z }.

(** What the engine tells the progress registry and the caller, in order. *)
Inductive Event :=
| ItemStart
| ItemInitial (bytes total : Z)
| ItemReporter (bytes total : Z)
| ItemReport (bytes total : Z)
| ItemSet (progress : f64) (bytes total : Z)
| ItemReceived (bytes : Z)
| Progress (bytes total : Z)
| Enter (charged : bool).

Record Engine := mkEngine {
  tick : nat; disk : Disk; file : DownloadFile; events : list Event }.

(** The engine's monad: its state and an early failure. *)
Abbreviation M := (St Engine).

Section engine.
Context `{World}.

Definition emit {E} (e : Event) : M E unit :=
  modify (fun s => mkEngine (tick s) (disk s) (file s) (events s ++ [e])).
Definition set_disk (d : Disk) (s : Engine) : Engine := mkEngine (tick s) d (file s) (events s).
Definition set_file (f : DownloadFile) (s : Engine) : Engine := mkEngine (tick s) (disk s) f (events s).

(** One call to the world. *)
Definition next_tick {E} : M E nat := fun s => (Ok (tick s), mkEngine (S (tick s)) (disk s) (file s) (events s)).

Definition check : M string unit :=
  do t <- next_tick; match check_at t with Ok _ => ret tt | Err e => throw e end.
Definition wait (ns : Z) : M string unit :=
  do t <- next_tick; match wait_at t ns with Ok _ => ret tt | Err e => throw e end.
Definition open_stream (r : HttpRequest) : M string HttpStream :=
  do t <- next_tick; match open_stream_at t r with Ok x => ret x | Err e => throw e end.
(** A file system call: its effect on the directory happens when it does not fail. *)
Definition io (effect : Disk -> Disk) : M string unit :=
  do t <- next_tick;
  match io_error_at t with
  | Some e => throw e
  | None => modify (fun s => set_disk (effect (disk s)) s)
  end.
Definition now {E} : M E Z := do t <- next_tick; ret (instant_at t).

Definition set_state (f : Checkpoint -> Checkpoint) (d : DownloadFile) : DownloadFile :=
  mkFile (f (state d)) (restored d) (keep_partial d) (promoted d) (saved_bytes d) (saved_at d).
Definition update_state {E} (f : Checkpoint -> Checkpoint) : M E unit :=
  modify (fun s => set_file (set_state f (file s)) s).

Definition with_bytes (n : Z) (c : Checkpoint) : Checkpoint :=
  mkCheckpoint (version c) (fingerprint c) (cp_validator c) n (cp_total c) (updated_at c).
Definition with_total (n : Z) (c : Checkpoint) : Checkpoint :=
  mkCheckpoint (version c) (fingerprint c) (cp_validator c) (cp_bytes c) n (updated_at c).
Definition with_validator (v : string) (c : Checkpoint) : Checkpoint :=
  mkCheckpoint (version c) (fingerprint c) v (cp_bytes c) (cp_total c) (updated_at c).
Definition stamped (ms : Z) (c : Checkpoint) : Checkpoint :=
  mkCheckpoint 1 (fingerprint c) (cp_validator c) (cp_bytes c) (cp_total c) ms.

(** ** The staged file *)

Definition set_len (n : Z) (l : bytes) : bytes :=
  take (Z.to_nat n) l ++ replicate (Z.to_nat n - length l) 0.
Definition resize_partial (n : Z) (d : Disk) : Disk :=
  mkDisk (target d) (set_len n <$> partial d) (saved d).
Definition remove_saved (d : Disk) : Disk := mkDisk (target d) (partial d) None.
Definition remove_partial (d : Disk) : Disk := mkDisk (target d) None (saved d).

(** The checkpoint [open] accepts from the bytes of its file. *)
Definition accept_checkpoint (fp : string) (data : option bytes) : option Checkpoint :=
  match data with
  | None => None
  | Some data =>
    if 2 ^ 20 <? len data then None
    else match decode_checkpoint data with
         | None => None
         | Some c =>
           if (version c =? 1) && negb (is_empty (fingerprint c)) && String.eqb (fingerprint c) fp
              && negb (is_empty (cp_validator c)) && (0 <? cp_bytes c)
           then Some c else None
         end
  end.

(** The [Drop] of the file. *)
Definition drop_file {E} : M E unit :=
  do f <- gets file;
  if promoted f || negb (keep_partial f) then
    do _ <- attempt (io remove_saved);
    if promoted f then ret tt else do _ <- attempt (io remove_partial); ret tt
  else ret tt.

(** The end of [DownloadFile::open], with the file constructed: what the checkpoint claims is cut to
    the length of the staged file, and the file to that. *)
Definition settle_file : M string unit :=
  io (fun d => d);;
  do d <- gets disk;
  update_state (fun c => with_bytes (Z.min (cp_bytes c) (len (default [] (partial d)))) c);;
  do n <- gets (fun s => cp_bytes (state (file s)));
  io (resize_partial n);;
  io (fun d => d);;
  modify (fun s => set_file (mkFile (state (file s)) (restored (file s)) (keep_partial (file s))
    (promoted (file s)) (cp_bytes (state (file s))) (saved_at (file s))) s).

Definition create_partial (d : Disk) : Disk := mkDisk (target d) (Some (default [] (partial d))) (saved d).

Definition with_fingerprint (fp : string) (c : Checkpoint) : Checkpoint :=
  mkCheckpoint (version c) fp (cp_validator c) (cp_bytes c) (cp_total c) (updated_at c).

(** [DownloadFile::open]; [irregular]: a staging path is not a regular file or cannot be inspected.
    Its file system calls, in order: reading the checkpoint (a failure reads as none), removing the
    leftovers, opening the staged file, its metadata twice, resizing it, seeking.  The constructed
    file is dropped when one of the later calls fails. *)
Definition open_file (fp : string) (keep : bool) (irregular : option string) : M string unit :=
  match irregular with
  | Some e => throw e
  | None =>
    do st <- (if keep then
                do r <- attempt (E := string) (io (fun d => d));
                do d <- gets disk;
                ret (if is_ok r then accept_checkpoint fp (saved d) else None)
              else ret None);
    (if bool_decide (is_Some st) then ret tt else (io remove_partial;; io remove_saved));;
    io create_partial;;
    io (fun d => d);;
    do t <- now;
    modify (set_file (mkFile (with_fingerprint fp (default empty_checkpoint st))
                        (bool_decide (is_Some st)) keep false 0 t));;
    do r <- attempt (E := string) settle_file;
    match r with Ok _ => ret tt | Err e => (drop_file;; throw e) end
  end.

Definition rewind (n : Z) : M string unit :=
  io (resize_partial n);; io (fun d => d);; update_state (with_bytes n).

Definition restart : M string unit :=
  rewind 0;; update_state (with_validator "");; io remove_saved.

(** [save]: syncing the data, then replacing the checkpoint file as a whole. *)
Definition save : M string unit :=
  io (fun d => d);;
  do t <- next_tick;
  update_state (stamped (system_ms_at t));;
  do c <- gets (fun s => state (file s));
  io (fun d => mkDisk (target d) (partial d) (Some (encode_checkpoint c))).

Definition checkpoint {E} (force : bool) : M E unit :=
  do f <- gets file;
  let c := state f in
  if negb (keep_partial f) || is_empty (cp_validator c) || (cp_bytes c =? 0) then ret tt
  else
    do t <- now;
    if negb force && (sat_sub (cp_bytes c) (saved_bytes f) <? 8 * 2 ^ 20)
       && (sat_sub t (saved_at f) / 1000000000 <? 5)
    then ret tt
    else
      modify (set_file (mkFile c (restored f) (keep_partial f) (promoted f) (cp_bytes c) t));;
      do _ <- attempt save; ret tt.

Definition publish : M string unit :=
  io (fun d => d);;
  check;;
  io (fun d => mkDisk (partial d) None (saved d));;
  modify (fun s => set_file (mkFile (state (file s)) (restored (file s)) (keep_partial (file s)) true
                               (saved_bytes (file s)) (saved_at (file s))) s);;
  do _ <- attempt (io remove_saved);
  do _ <- attempt (io (fun d => d)); ret tt.

(** [write_all] of the bytes of one read at the end of the staged file. *)
Definition append_to (bs : bytes) (d : Disk) : Disk :=
  mkDisk (target d) ((fun l => l ++ bs) <$> partial d) (saved d).
Definition write_all (bs : bytes) : M string unit :=
  do t <- next_tick;
  match io_error_at t with
  | Some e => modify (fun s => set_disk (append_to (take (partial_write_at t) bs) (disk s)) s);; throw e
  | None => modify (fun s => set_disk (append_to bs (disk s)) s)
  end.

(** ** Retry policy *)

Definition status_failure (r : HttpResponse) (policy : DownloadTransferPolicy) (n : Z) (now_ns : Z) : Failure :=
  let s := status r in
  let kind := if s =? 429 then "rate_limited"
              else if bool_decide (s ∈ refresh_stream_on_status policy) then "expired_stream"
              else if retryable s then "transient_network"
              else "http_error" in
  let value := header r "Retry-After" in
  let nanos := match parse_i64 value with
               | Some seconds => wrap_i64 (seconds * 1000000000)
               | None => match http_date_ns value with Some t => t - now_ns | None => 0 end
               end in
  mkFailure ("HTTP error: " ++ decimal s) kind n s
    (if 0 <? nanos then Z.max ((Z.min nanos 120000000000 + 500000000) / 1000000000) 1 else 0).

Definition millis (n : Z) : Z := n * 1000000.

(** [next_delay]: doubled up to the maximum, with jitter down to the initial delay. *)
Definition next_delay (current : Z) (policy : DownloadTransferPolicy) (random : option Z) : Z :=
  let ceiling := Z.min (2 * current) (millis (max_retry_delay_ms policy)) in
  let floor := millis (initial_retry_delay_ms policy) in
  if ceiling <=? floor then ceiling
  else match random with
       | None => ceiling
       | Some r => floor + as_u64 (f64_mul (f64_div (f64_of r) (f64_of (2 ^ 64 - 1))) (f64_of (ceiling - floor)))
       end.

Definition draw_delay {E} (current : Z) (policy : DownloadTransferPolicy) : M E Z :=
  do t <- next_tick; ret (next_delay current policy (random_u64_at t)).

(** A failing call becomes a failure of the given kind, its message after a prefix. *)
Definition failing {A} (kind prefix : string) (n : Z) (m : M string A) : M Failure A :=
  mapping (fun e => failure kind (prefix ++ e) n) m.
End engine.

(** ** Reasoning about the engine *)

(** What the transfer is about: the published and the staged file and the state that describes the
    latter. *)
Record Core := mkCore {
  c_target : option bytes; c_partial : option bytes; c_validator : string; c_bytes : Z; c_total : Z;
  c_promoted : bool; c_restored : bool }.

Definition core (s : Engine) : Core :=
  let c := state (file s) in
  mkCore (target (disk s)) (partial (disk s)) (cp_validator c) (cp_bytes c) (cp_total c) (promoted (file s))
    (restored (file s)).

#[global] Arguments core : simpl never.

(** A step that leaves the core alone, whatever its outcome. *)
Definition quiet {E A} (m : M E A) : Prop := forall s, core (m s).2 = core s.

Lemma wp_quiet {E A} (m : M E A) (Q : A -> Engine -> Prop) (R : E -> Engine -> Prop) s :
  quiet m -> (forall a s', core s' = core s -> Q a s') -> (forall e s', core s' = core s -> R e s') ->
  wp m Q R s.
Proof. intros Hq HQ HR. specialize (Hq s). unfold wp. destruct (m s) as [[a|e] s']; auto. Qed.

Lemma quiet_bind {E A B} (m : M E A) (k : A -> M E B) :
  quiet m -> (forall a, quiet (k a)) -> quiet (bind m k).
Proof.
  intros Hm Hk s. specialize (Hm s). unfold bind. destruct (m s) as [[a|e] s']; simpl in *; [|done].
  by rewrite Hk.
Qed.

Lemma quiet_ret {E A} (a : A) : quiet (ret (E := E) a).
Proof. done. Qed.
Lemma quiet_throw {E A} (e : E) : quiet (throw (A := A) e).
Proof. done. Qed.
Lemma quiet_gets {E A} (f : Engine -> A) : quiet (gets (E := E) f).
Proof. done. Qed.
Lemma quiet_attempt {E F A} (m : M E A) : quiet m -> quiet (attempt (F := F) m).
Proof. intros Hm s. specialize (Hm s). unfold attempt. by destruct (m s) as [[a|e] s']. Qed.
Lemma quiet_mapping {E F A} (f : E -> F) (m : M E A) : quiet m -> quiet (mapping f m).
Proof. intros Hm s. specialize (Hm s). unfold mapping. by destruct (m s) as [[a|e] s']. Qed.
Lemma quiet_if {E A} (b : bool) (m n : M E A) : quiet m -> quiet n -> quiet (if b then m else n).
Proof. by destruct b. Qed.
Lemma quiet_modify {E} f : (forall s, core (f s) = core s) -> quiet (modify (E := E) f).
Proof. intros Hf s. apply Hf. Qed.

Create HintDb quiet.
#[export] Hint Resolve quiet_bind quiet_ret quiet_throw quiet_gets quiet_attempt quiet_mapping quiet_if
  : quiet.

Section quiet.
Context `{World}.

Lemma quiet_tick {E} : quiet (next_tick (E := E)).
Proof. done. Qed.
Lemma quiet_check : quiet check.
Proof. apply quiet_bind; [done|]. intros t. by destruct (check_at t). Qed.
Lemma quiet_wait ns : quiet (wait ns).
Proof. apply quiet_bind; [done|]. intros t. by destruct (wait_at t ns). Qed.
Lemma quiet_emit {E} e : quiet (emit (E := E) e).
Proof. done. Qed.
Lemma quiet_io f : (forall d, target (f d) = target d /\ partial (f d) = partial d) -> quiet (io f).
Proof.
  intros Hf. apply quiet_bind; [done|]. intros t. destruct (io_error_at t); [done|].
  intros s. unfold modify, core. simpl. by destruct (Hf (disk s)) as [-> ->].
Qed.
Lemma quiet_draw {E} d p : quiet (draw_delay (E := E) d p).
Proof. apply quiet_bind; [done|]. done. Qed.
Lemma quiet_save : quiet save.
Proof.
  apply quiet_bind; [by apply quiet_io|]. intros _. apply quiet_bind; [done|]. intros t.
  apply quiet_bind; [done|]. intros _. apply quiet_bind; [done|]. intros c. by apply quiet_io.
Qed.
Lemma quiet_checkpoint {E} b : quiet (checkpoint (E := E) b).
Proof.
  intros s. unfold checkpoint. unfold bind at 1. cbn [gets].
  destruct (negb (keep_partial (file s)) || _ || _); [done|].
  unfold bind at 1, now, next_tick. unfold bind at 1. cbn [ret].
  destruct (negb b && _ && _); [done|]. unfold bind at 1. cbn [modify].
  match goal with |- context [bind (attempt save) _ ?s1] => set (s0 := s1) end.
  transitivity (core s0); [|done]. clearbody s0. clear s.
  pose proof (quiet_attempt (F := E) save quiet_save s0) as Hq. unfold bind.
  destruct (attempt save s0) as [[r|e] s2]; exact Hq.
Qed.
End quiet.

Section restore.
Context `{World}.

Lemma accept_checkpoint_some fp data c :
  accept_checkpoint fp data = Some c ->
  cp_validator c <> ""%string /\ 0 < cp_bytes c /\ fingerprint c = fp /\ fp <> ""%string.
Proof.
  unfold accept_checkpoint. destruct data as [data|]; [|done]. case_bool; [done|].
  destruct (decode_checkpoint data) as [c0|]; [|done].
  destruct (_ && _) eqn:E; [|done]. intros [= <-].
  rewrite !andb_true_iff, !negb_true_iff, !is_empty_false, String.eqb_eq, Z.ltb_lt in E.
  destruct E as [[[[_ ?] <-] ?] ?]. done.
Qed.
End restore.
