(* ===== verification/DownloadSingle.v ===== *)
(** * One transfer of one file: the function [download] of [crates/extensions/src/download.rs]

    The loop of attempts with resume by range, from opening the staged file to publishing it.  The
    chunked variant is a separate function of the code and is not entered here. *)

From S2P Require Import Prelude Float64 RustText TransferPolicy Monads Download.

Record DownloadOptions := mkOptions {
  opt_headers : gmap string string; opt_user_agent : string; resume : bool; persistent : bool;
  policy : DownloadTransferPolicy; budget : bool }.

Record Success := mkSuccess { size : Z; ok_attempts : Z; resumed : bool }.

(** How an attempt ends: with the file published, or with another attempt after a delay; the second
    component of [Again] is the byte count of the last progress call. *)
Inductive Step := Finished (r : Success) | Again (delay notified : Z).

Section download.
Context `{World}.
Variables (options : DownloadOptions) (address fingerprint : string).

Definition caller_range : bool :=
  bool_decide (Exists (fun p => eq_ignore_ascii_case p.1 "Range" = true) (map_to_list (opt_headers options))).

(** [options.resume] and [options.persistent] once the caller's own range is taken into account. *)
Definition resumes : bool := if caller_range then false else resume options.
Definition persists : bool := if caller_range then false else persistent options.

Definition attempts_allowed : Z := max_attempts (policy options).

Definition enter {E} (charged : bool) : M E unit :=
  if budget options then emit (Enter charged) else ret tt.

Definition range_from (c : Checkpoint) : Z :=
  if resumes && negb (is_empty (cp_validator c)) then cp_bytes c else 0.

(** The request of an attempt that resumes from [from] under the validator [v]. *)
Definition request_headers (from : Z) (v : string) : gmap string string :=
  if 0 <? from then
    set_header (set_header (opt_headers options) "Range" ("bytes=" ++ decimal from ++ "-")) "If-Range" v
  else opt_headers options.

Definition out {E} : M E Checkpoint := gets (fun s => state (file s)).

Definition last_attempt (n : Z) : bool := n =? attempts_allowed.

(** The retry after a failed connection. *)
Definition connection_failed (n delay notified : Z) (e : string) : M Failure Step :=
  failing "cancelled" "" n check;;
  if last_attempt n then throw (failure "transient_network" e n)
  else
    do c <- out;
    (if (0 <? cp_bytes c) && (negb resumes || is_empty (cp_validator c))
     then failing "storage_error" "" n restart else ret tt);;
    failing "cancelled" "" n (wait delay);;
    do d <- draw_delay delay (policy options); ret (Again d notified).

(** The retry after a status outside 2xx. *)
Definition status_refused (n delay notified : Z) (r : HttpResponse) : M Failure Step :=
  do t <- next_tick;
  let f := status_failure r (policy options) n (system_ms_at t * 1000000) in
  if negb (retryable (status r)) || last_attempt n then throw f
  else
    failing "cancelled" "" n
      (wait (if 0 <? retry_after_seconds f then retry_after_seconds f * 1000000000 else delay));;
    do d <- draw_delay delay (policy options); ret (Again d notified).

(** The checks of a resumed 206. *)
Definition check_range (n from : Z) (v : string) (r : HttpResponse) : M Failure unit :=
  if (0 <? from) && (status r =? 206) then
    let range := header r "Content-Range" in
    if negb (starts_with range ("bytes " ++ decimal from ++ "-")) then
      throw (mkFailure ("resume failed: unexpected Content-Range " ++ debug range ++ " at " ++ decimal from ++ " bytes")
               "integrity_failed" n (status r) 0)
    else if negb (is_empty (validator r)) && negb (String.eqb (validator r) v) then
      throw (mkFailure "resume failed: response validator changed" "integrity_failed" n (status r) 0)
    else ret tt
  else ret tt.

Definition content_length (r : HttpResponse) : Z := default (-1) (parse_i64 (header r "Content-Length")).

(** The total size a response announces; the addition saturates. *)
Definition announced_total (from : Z) (r : HttpResponse) : Z :=
  let length := content_length r in
  if (status r =? 206) && negb caller_range then
    let fallback := if 0 <? length then clamp (from + length) i64_min i64_max else 0 in
    match rsplit_once (ascii_of_nat 47) (header r "Content-Range") with
    | Some (_, total) => default fallback (parse_i64 total)
    | None => fallback
    end
  else length.

(** Accepting a 2xx response: an ignored range starts over, the validator and total are kept. *)
Definition accept_response (n from : Z) (r : HttpResponse) : M Failure unit :=
  do from <- (if (0 <? from) && (status r =? 200)
              then failing "storage_error" "" n (rewind 0);; ret 0 else ret from);
  let v := validator r in
  (if negb (is_empty v) then update_state (with_validator v) else ret tt);;
  update_state (with_total (announced_total from r));;
  do c <- out;
  if 0 <? cp_total c then emit (ItemReport (cp_bytes c) (cp_total c)) else ret tt.

(** Progress after a read. *)
Definition notify (notified : Z) : M Failure Z :=
  do c <- out;
  emit (ItemReport (cp_bytes c) (cp_total c));;
  if (0 <? cp_total c)
     && ((128 * 2 ^ 10 <=? sat_sub (cp_bytes c) notified) || (cp_total c <=? cp_bytes c))
  then enter true;; emit (Progress (cp_bytes c) (cp_total c));; ret (cp_bytes c)
  else ret notified.

(** The body loop: write, count, report, checkpoint. *)
Fixpoint read_body (n s notified : Z) (received : bool) (l : list bytes) : M Failure Z :=
  enter (negb received || negb ((s =? 200) || (s =? 206)));;
  match l with
  | [] => ret notified
  | bs :: l =>
    failing "storage_error" "failed to write staged file: " n (write_all bs);;
    update_state (fun c => with_bytes (cp_bytes c + len bs) c);;
    do notified <- notify notified;
    checkpoint false;;
    read_body n s notified true l
  end.

(** The retry after a body that failed or fell short of the total. *)
Definition body_failed (n delay notified : Z) (e : string) : M Failure Step :=
  checkpoint true;;
  failing "cancelled" "" n check;;
  if last_attempt n then throw (failure "transient_network" ("failed to read response: " ++ e) n)
  else
    do c <- out;
    (if negb resumes || is_empty (cp_validator c) then failing "storage_error" "" n restart else ret tt);;
    failing "cancelled" "" n (wait delay);;
    do d <- draw_delay delay (policy options); ret (Again d notified).

(** A complete body is published. *)
Definition complete (n : Z) : M Failure Step :=
  do c <- out;
  if cp_bytes c =? 0 then throw (failure "integrity_failed" "download response was empty" n)
  else
    failing "storage_error" "failed to publish file: " 0 publish;;
    (if 0 <? cp_total c then emit (ItemSet (f64_of 1) (cp_bytes c) (cp_total c))
     else emit (ItemReceived (cp_bytes c)));;
    ret (Finished (mkSuccess (cp_bytes c) n false)).

Definition one_attempt (n delay notified : Z) : M Failure Step :=
  failing "cancelled" "" n check;;
  do c <- out;
  let from := range_from c in
  enter true;;
  do opened <- attempt (open_stream (mkRequest address (request_headers from (cp_validator c))
                                       (opt_user_agent options)));
  match opened with
  | Err e => connection_failed n delay notified e
  | Ok stream =>
    let r := response stream in
    if negb ((200 <=? status r) && (status r <? 300)) then status_refused n delay notified r
    else
      check_range n from (cp_validator c) r;;
      accept_response n from r;;
      do notified <- read_body n (status r) notified false (chunks stream);
      do c <- out;
      match (match ended stream with
             | Err e => Err e
             | Ok _ => if (0 <? cp_total c) && negb (cp_bytes c =? cp_total c)
                       then Err "unexpected EOF"%string else Ok tt
             end) with
      | Err e => body_failed n delay notified e
      | Ok _ => complete n
      end
  end.

(** The loop over the attempts.  A policy allows at least one, so the last case is unreachable. *)
Fixpoint attempt_loop (l : list Z) (delay notified : Z) : M Failure Success :=
  match l with
  | [] => throw (failure "unreachable" "policy has at least one attempt" 0)
  | n :: l =>
    do r <- one_attempt n delay notified;
    match r with
    | Finished ok => ret ok
    | Again delay notified => attempt_loop l delay notified
    end
  end.

(** A restored file that is already whole is published at once. *)
Definition publish_restored (c : Checkpoint) : M Failure Success :=
  failing "storage_error" "failed to publish restored download: " 0 publish;;
  emit (ItemSet (f64_of 1) (cp_bytes c) (cp_total c));;
  ret (mkSuccess (cp_bytes c) 0 true).

(** The transfer once the staged file is open. *)
Definition transfer : M Failure Success :=
  do c <- out;
  emit ItemStart;;
  emit (ItemInitial (cp_bytes c) (cp_total c));;
  emit (ItemReporter (cp_bytes c) (cp_total c));;
  do was_restored <- gets (fun s => restored (file s));
  if was_restored && (0 <? cp_bytes c) && (0 <? cp_total c) && (cp_bytes c =? cp_total c)
  then publish_restored c
  else attempt_loop (seqZ 1 attempts_allowed) (millis (initial_retry_delay_ms (policy options))) 0.

(** [lock]: the outcome of locking the output path. *)
Definition download (lock : result unit string) (irregular : option string) : M Failure Success :=
  match lock with
  | Err e => throw (failure "cancelled" e 0)
  | Ok _ =>
    failing "storage_error" "failed to create staged file: " 0
      (open_file fingerprint (resumes && persists && negb (is_empty fingerprint)) irregular);;
    do r <- attempt transfer;
    drop_file;;
    match r with Ok ok => ret ok | Err e => throw e end
  end.
End download.

(** ** Integrity *)

Section integrity.
Context `{World}.
Variables (options : DownloadOptions) (address fp : string).
(** [content v]: the representation a strong validator [v] names. *)
Variable content : string -> bytes.
(** The disk the download starts on. *)
Variable start : Disk.

Abbreviation resumes := (resumes options).
Abbreviation before := (target start).

(** The request of an attempt that resumes from [from] under [v]; [from] is 0 for the first one. *)
Definition request_of (from : Z) (v : string) : HttpRequest :=
  mkRequest address (request_headers options from v) (opt_user_agent options).

Definition resumed_request (r : HttpRequest) (from : Z) (v : string) : Prop :=
  req_headers r !! "Range"%string = Some ("bytes=" ++ decimal from ++ "-")%string /\
  req_headers r !! "If-Range"%string = Some v.

Definition has_range (r : HttpRequest) : Prop :=
  exists name value, req_headers r !! name = Some value /\ eq_ignore_ascii_case name "Range" = true.

Definition body (st : HttpStream) : bytes := concat (chunks st).
Definition ok_status (st : HttpStream) : Prop := 200 <= status (response st) < 300.

(** What HTTP promises of a server whose validators are strong (RFC 9110, sections 8.8, 13.1.5, 14.2
    and 15.3.7): a 206 answers a request for a range; a 206 to a range with If-Range is the rest of
    the representation the validator names; any other success that carries a validator carries the
    representation it names from its start; a range request that succeeds is answered by 200 or 206.
    Nothing is asked of responses without a validator. *)
Record honest : Prop := {
  honest_partial t r st : open_stream_at t r = Ok st -> status (response st) = 206 -> has_range r;
  honest_range t r st from v : open_stream_at t r = Ok st -> 0 < from -> resumed_request r from v ->
    status (response st) = 206 ->
    body st `prefix_of` drop (Z.to_nat from) (content v) /\
    (ended st = Ok tt -> body st = drop (Z.to_nat from) (content v));
  honest_full t r st : open_stream_at t r = Ok st -> ok_status st -> status (response st) <> 206 ->
    validator (response st) <> ""%string -> body st `prefix_of` content (validator (response st));
  honest_status t r st from v : open_stream_at t r = Ok st -> 0 < from -> resumed_request r from v ->
    ok_status st -> status (response st) = 200 \/ status (response st) = 206 }.

(** A success that answers one of this download's requests with a representation from its start: no
    206, unless the caller's own headers asked for a range. *)
Definition full_response (st : HttpStream) : Prop :=
  (exists t from v, open_stream_at t (request_of from v) = Ok st) /\ ok_status st /\
  (status (response st) = 206 -> caller_range options = true).

(** A file that is one whole representation: what a validator names, or what one full response
    carried to its end. *)
Definition whole (c : bytes) : Prop :=
  (exists v, v <> ""%string /\ c = content v) \/
  (exists st, full_response st /\ ended st = Ok tt /\ c = body st).

(** A validator this download can hold: of a successful response, or of the checkpoint it found. *)
Definition known (v : string) : Prop :=
  (exists t from u st, open_stream_at t (request_of from u) = Ok st /\ ok_status st /\
     validator (response st) = v) \/
  (exists c, accept_checkpoint fp (saved start) = Some c /\ cp_validator c = v).

(** The bytes of a full response without a validator, continued by the representation that an older
    validator names: what a server leaves behind that names a validator once and omits it later
    ([stale_validator_splices] below runs into it). *)
Definition spliced_with (v : string) (P : bytes -> bytes -> Prop) (c : bytes) : Prop :=
  exists st g k, resumes = true /\ known v /\ full_response st /\ validator (response st) = ""%string /\
    g <> [] /\ g `prefix_of` body st /\ P k (drop (length g) (content v)) /\ c = g ++ k.

Definition spliced (c : bytes) : Prop := exists v, v <> ""%string /\ spliced_with v eq c.

Definition safe (c : Core) : Prop := c_target c = before /\ c_promoted c = false.

(** What the staged file is under the validator [v]: a beginning of the representation it names, or
    of a splice. *)
Definition based (v : string) (f : bytes) : Prop :=
  known v /\ (f `prefix_of` content v \/ spliced_with v prefix f).

Definition staged (c : Core) (f : bytes) : Prop :=
  c_partial c = Some f /\ c_bytes c = len f /\
  (resumes = true -> c_validator c <> ""%string -> based (c_validator c) f).

(** Between attempts only a file that can be resumed is kept. *)
Definition ready (c : Core) : Prop :=
  safe c /\ exists f, staged c f /\ (f <> [] -> resumes = true /\ c_validator c <> ""%string).

Definition published (ok : Success) (c : Core) : Prop :=
  exists f, c_target c = Some f /\ (whole f \/ spliced f) /\ size ok = len f /\ c_promoted c = true.

Abbreviation failed := (fun (_ : Failure) s => safe (core s)).

Lemma set_len_prefix n l : (n <= length l)%nat -> set_len (Z.of_nat n) l = take n l.
Proof.
  intros Hn. unfold set_len. rewrite Nat2Z.id. replace (n - length l)%nat with 0%nat by lia.
  apply app_nil_r.
Qed.

Lemma wp_failing {A} kind p n (m : M string A) Q s :
  wp m Q (fun _ s => safe (core s)) s -> wp (failing kind p n m) Q failed s.
Proof. intros Hm. apply wp_mapping. eapply wp_mono; [exact Hm|auto..]. Qed.

(** A quiet step keeps any property of the core. *)
Lemma wp_keep {E A} (m : M E A) (P : Core -> Prop) Q R s :
  quiet m -> P (core s) -> (forall a s', P (core s') -> Q a s') -> (forall e s', P (core s') -> R e s') ->
  wp m Q R s.
Proof. intros Hq HP HQ HR. apply wp_quiet; [done|intros a s' Es; apply HQ; by rewrite Es|intros e s' Es; apply HR; by rewrite Es]. Qed.

Lemma wp_resize n f Q R s :
  c_partial (core s) = Some f -> 
  (forall s', core s' = mkCore (c_target (core s)) (Some (set_len n f)) (c_validator (core s))
     (c_bytes (core s)) (c_total (core s)) (c_promoted (core s)) (c_restored (core s)) -> Q tt s') ->
  (forall e s', core s' = core s -> R e s') -> wp (io (resize_partial n)) Q R s.
Proof.
  intros Hp HQ HR. unfold io. apply wp_bind. unfold next_tick, wp at 1.
  destruct (io_error_at (tick s)); [by apply HR|]. apply HQ. unfold core in *. simpl in *. by rewrite Hp.
Qed.

(** Updates of the state, seen on the core. *)
Definition core_bytes (n : Z) (c : Core) : Core :=
  mkCore (c_target c) (c_partial c) (c_validator c) n (c_total c) (c_promoted c) (c_restored c).
Definition core_validator (v : string) (c : Core) : Core :=
  mkCore (c_target c) (c_partial c) v (c_bytes c) (c_total c) (c_promoted c) (c_restored c).
Definition core_total (n : Z) (c : Core) : Core :=
  mkCore (c_target c) (c_partial c) (c_validator c) (c_bytes c) n (c_promoted c) (c_restored c).

Lemma core_with_bytes g s :
  core (set_file (set_state (fun c => with_bytes (g c) c) (file s)) s) = core_bytes (g (state (file s))) (core s).
Proof. done. Qed.

Lemma wp_update {E} f g (Q : unit -> Engine -> Prop) (R : E -> Engine -> Prop) s :
  (forall s, core (set_file (set_state f (file s)) s) = g (core s)) ->
  (forall s', core s' = g (core s) -> Q tt s') -> wp (update_state f) Q R s.
Proof. intros Hg HQ. apply wp_modify, HQ, Hg. Qed.

(** [rewind 0] empties the staged file. *)
Lemma wp_rewind f Q R s :
  c_partial (core s) = Some f ->
  (forall s', core s' = mkCore (c_target (core s)) (Some []) (c_validator (core s)) 0
     (c_total (core s)) (c_promoted (core s)) (c_restored (core s)) -> Q tt s') ->
  (forall e s', c_target (core s') = c_target (core s) -> c_promoted (core s') = c_promoted (core s) -> R e s') ->
  wp (rewind 0) Q R s.
Proof.
  intros Hp HQ HR. unfold rewind. apply wp_bind, (wp_resize 0 f); [done| |intros e s' Es; apply HR; by rewrite Es].
  intros s' Hs'. apply wp_bind. apply wp_quiet; [by apply quiet_io| |].
  - intros _ s'' Es. rewrite Hs' in Es. apply (wp_update _ (core_bytes 0)); [done|]. intros s3 Hs3.
    apply HQ. by rewrite Hs3, Es.
  - intros e s'' Es. apply HR; by rewrite Es, Hs'.
Qed.

(** The staged file is only ever emptied together with its validator or by a new response. *)
Lemma wp_restart f s :
  safe (core s) -> staged (core s) f ->
  wp restart (fun _ s' => ready (core s')) (fun _ s' => safe (core s')) s.
Proof.
  intros [Ht Hpr] (Hp & Hb & _). unfold restart. apply wp_bind, (wp_rewind f); [done| |].
  2: { intros e s' Ht' Hpr'. split; congruence. }
  intros s' Hs'. apply wp_bind, (wp_update _ (core_validator "")); [done|]. intros s2 Hs2.
  rewrite Hs' in Hs2. apply wp_quiet; [by apply quiet_io| |]; intros x s3 ->; rewrite Hs2; [|done].
  split; [done|]. exists []. split; [|done]. by split_conj.
Qed.

Lemma wp_write_all bs f Q (R : string -> Engine -> Prop) s :
  c_partial (core s) = Some f ->
  (forall s', core s' = mkCore (c_target (core s)) (Some (f ++ bs)) (c_validator (core s))
     (c_bytes (core s)) (c_total (core s)) (c_promoted (core s)) (c_restored (core s)) -> Q tt s') ->
  (forall e s', c_target (core s') = c_target (core s) -> c_promoted (core s') = c_promoted (core s) -> R e s') ->
  wp (write_all bs) Q R s.
Proof.
  intros Hp HQ HR. unfold write_all. apply wp_bind. unfold next_tick, wp at 1.
  destruct (io_error_at (tick s)); [by apply HR|]. apply HQ. unfold core in *. simpl in *. by rewrite Hp.
Qed.

Lemma wp_enter {E} b (Q : unit -> Engine -> Prop) (R : E -> Engine -> Prop) (P : Core -> Prop) s :
  P (core s) -> (forall s', P (core s') -> Q tt s') -> wp (enter options b) Q R s.
Proof. intros HP HQ. unfold enter. destruct (budget options); by apply HQ. Qed.

Lemma wp_notify notified (P : Core -> Prop) R s :
  P (core s) -> wp (notify options notified) (fun _ s' => P (core s')) R s.
Proof.
  intros HP. unfold notify. apply wp_bind, wp_gets. apply wp_bind. apply wp_modify. case_bool; [|done].
  apply wp_bind, (wp_enter _ _ _ P); [done|]. intros s' Hs'. done.
Qed.

(** The body loop appends the chunks and counts them. *)
Lemma wp_read_body n st notified rcv l f s :
  c_partial (core s) = Some f -> c_bytes (core s) = len f -> safe (core s) ->
  wp (read_body options n st notified rcv l)
    (fun _ s' => core s' = mkCore (c_target (core s)) (Some (f ++ concat l)) (c_validator (core s))
       (len (f ++ concat l)) (c_total (core s)) (c_promoted (core s)) (c_restored (core s))) failed s.
Proof.
  remember (core s) as c eqn:Ec. revert f s notified rcv c Ec.
  induction l as [|bs l IH]; intros f s notified rcv c Ec Hp Hb Hs; cbn [read_body].
  { apply wp_bind, (wp_enter _ _ _ (fun c' => c' = c)); [done|]. intros s' Hs'. apply wp_ret.
    rewrite Hs', app_nil_r. destruct c. simpl in *. by subst. }
  apply wp_bind, (wp_enter _ _ _ (fun c' => c' = c)); [done|]. intros s1 Hs1.
  apply wp_bind, wp_failing, (wp_write_all bs f); [by rewrite Hs1| |].
  2: { intros e s' Ht Hpr. rewrite Hs1 in *. destruct Hs. split; congruence. }
  intros s2 Hs2. rewrite Hs1 in Hs2. apply wp_bind.
  apply (wp_update _ (fun c => core_bytes (c_bytes c + len bs) c)); [done|]. intros s2' Hs2'.
  rewrite Hs2 in Hs2'. set (c3 := mkCore (c_target c) (Some (f ++ bs)) (c_validator c) (len (f ++ bs)) (c_total c) (c_promoted c) (c_restored c)).
  apply wp_bind. eapply wp_mono; [apply (wp_notify _ (fun c' => c' = c3) failed)|..]; [| |auto].
  { rewrite Hs2'. unfold core_bytes, c3. simpl. f_equal. rewrite Hb. unfold len. rewrite length_app. lia. }
  intros notified' s3 Hs3. apply wp_bind. apply wp_quiet; [apply quiet_checkpoint| |].
  2: { intros e s' ->. rewrite Hs3. destruct Hs. by split. }
  intros _ s4 Hs4. rewrite Hs3 in Hs4. eapply wp_mono; [apply (IH (f ++ bs) s4 notified' true c3)|..].
  - done.
  - done.
  - done.
  - destruct Hs. by split.
  - intros a s' ->. simpl. by rewrite <- app_assoc.
  - auto.
Qed.

(** ** One attempt *)

Lemma request_resumed from v : 0 < from -> resumed_request (request_of from v) from v.
Proof.
  intros Hf. unfold resumed_request, request_of, request_headers, set_header. simpl.
  destruct (Z.ltb_spec 0 from); [|lia]. split; [|apply lookup_insert_eq].
  rewrite lookup_insert_ne by done. apply map_lookup_filter_Some. split; [apply lookup_insert_eq|].
  reflexivity.
Qed.

Lemma request_unranged v : has_range (request_of 0 v) -> caller_range options = true.
Proof.
  intros (name & value & Hl & Hn). apply bool_decide_eq_true, Exists_exists. exists (name, value).
  split; [by apply elem_of_map_to_list|done].
Qed.

Lemma resumes_own_ranges : resumes = true -> caller_range options = false.
Proof. unfold DownloadSingle.resumes. by destruct (caller_range options). Qed.

(** The staged file once a 2xx response is accepted: kept under the same validator for a resumed
    206, else empty. *)
Definition accepted (c c' : Core) (f : bytes) (from : Z) (r : HttpResponse) : Prop :=
  c_target c' = c_target c /\ c_promoted c' = c_promoted c /\
  c_bytes c' = len (default [] (c_partial c')) /\
  if bool_decide (0 < from /\ status r <> 200)
  then c_partial c' = Some f /\ (status r = 206 -> c_validator c' = c_validator c)
  else c_partial c' = Some [] /\
       c_validator c' = if is_empty (validator r) then c_validator c else validator r.

Lemma wp_check_range n from v r s :
  wp (check_range n from v r)
    (fun _ s' => core s' = core s /\ (0 < from -> status r = 206 -> validator r = ""%string \/ validator r = v))
    (fun _ s' => core s' = core s) s.
Proof.
  unfold check_range. destruct (Z.ltb_spec 0 from); simpl; [|apply wp_ret; split; [done|lia]].
  destruct (Z.eqb_spec (status r) 206); [|apply wp_ret; by split].
  destruct (negb (starts_with _ _)); [by apply wp_throw|].
  destruct (negb (is_empty (validator r)) && _) eqn:E; [by apply wp_throw|]. apply wp_ret. split; [done|].
  intros _ _. apply andb_false_iff in E as [E|E]; apply negb_false_iff in E;
    [left; by apply is_empty_spec|right; by apply String.eqb_eq].
Qed.

Lemma wp_accept n f from v r s :
  safe (core s) -> staged (core s) f -> (0 < from -> from = len f /\ v = c_validator (core s)) ->
  (from <= 0 -> f = []) ->
  (0 < from -> status r = 206 -> validator r = ""%string \/ validator r = v) ->
  wp (accept_response options n from r)
    (fun _ s' => accepted (core s) (core s') f from r) failed s.
Proof.
  intros Hs (Hp & Hb & _) Hfrom Hzero Hv. unfold accept_response. apply wp_bind.
  set (kept := bool_decide (0 < from /\ status r <> 200)).
  set (c1 := mkCore (c_target (core s)) (Some (if kept then f else [])) (c_validator (core s))
               (if kept then len f else 0) (c_total (core s)) (c_promoted (core s)) (c_restored (core s))).
  eapply (wp_mono _ (fun _ s' => core s' = c1) _ failed); [| |auto].
  - destruct (Z.ltb_spec 0 from) as [Hlt|Hge]; simpl; [destruct (Z.eqb_spec (status r) 200) as [H200|H200]|].
    + apply wp_bind, wp_failing, (wp_rewind f); [done| |].
      * intros s' Hs'. apply wp_ret. rewrite Hs'. unfold c1, kept. rewrite bool_decide_false by tauto. done.
      * intros e s' Ht Hpr. destruct Hs. split; congruence.
    + apply wp_ret. unfold c1, kept. rewrite bool_decide_true by tauto. rewrite <- Hb, <- Hp.
      by destruct (core s).
    + apply wp_ret. unfold c1, kept. rewrite bool_decide_false by lia. rewrite (Hzero Hge) in *.
      destruct (core s). simpl in *. by subst.
  - intros from' s1 Hs1. apply wp_bind.
    set (v' := if is_empty (validator r) then c_validator c1 else validator r).
    apply (wp_mono _ (fun _ s' => core s' = core_validator v' c1) _ failed failed); [| |auto].
    { unfold v'. destruct (is_empty (validator r)); simpl; [apply wp_ret; rewrite Hs1; done|].
      apply (wp_update _ (core_validator (validator r))); [done|]. intros s2 ->. by rewrite Hs1. }
    intros _ s2 Hs2. apply wp_bind, (wp_update _ (core_total (announced_total options from' r))); [done|].
    intros s3 Hs3. apply wp_bind, wp_gets.
    match goal with |- wp (if ?b then _ else _) _ _ _ => destruct b end; (apply wp_modify || apply wp_ret);
      change (accepted (core s) (core s3) f from r); rewrite Hs3, Hs2; unfold accepted, c1; simpl;
      fold kept; (split; [done|]; split; [done|]); destruct kept eqn:Ek; (split; [done|]); (split; [done|]).
    all: unfold v'; simpl; try done.
    all: intros H206; apply bool_decide_eq_true in Ek as [Hlt _];
      destruct (Hv Hlt H206) as [->| ->]; [done|]; destruct (Hfrom Hlt) as [_ ->];
      by destruct (is_empty (c_validator (core s))).
Qed.

Definition with_body (c : Core) (f : bytes) : Core :=
  mkCore (c_target c) (Some f) (c_validator c) (len f) (c_total c) (c_promoted c) (c_restored c).

(** A prefix goes on with the rest of the whole. *)
Lemma prefix_continue (k b x : bytes) :
  k `prefix_of` x -> b `prefix_of` drop (length k) x -> k ++ b `prefix_of` x.
Proof. intros [y ->]. rewrite drop_app_length. apply prefix_app. Qed.

Lemma prefix_complete (k b x : bytes) : k `prefix_of` x -> b = drop (length k) x -> k ++ b = x.
Proof. intros [y ->] ->. by rewrite drop_app_length. Qed.

(** The rest that a 206 carries continues what is staged, and completes it when it ends well. *)
Lemma based_continue v f b :
  v <> ""%string -> based v f -> b `prefix_of` drop (length f) (content v) ->
  based v (f ++ b) /\ (b = drop (length f) (content v) -> whole (f ++ b) \/ spliced (f ++ b)).
Proof.
  intros Hv [Hk Hf] Hb. destruct Hf as [Hf|(st & g & k & Hres & Hk' & Hst & Hn & Hg & Hgb & Hkp & ->)].
  - split; [split; [done|left; by apply prefix_continue]|]. intros Heq. left. left. exists v.
    split; [done|]. by apply prefix_complete.
  - rewrite length_app, <- drop_drop in Hb |- *. rewrite <- app_assoc.
    split; [split; [done|]; right|intros Heq; right; exists v; split; [done|]]; exists st, g, (k ++ b);
      split_conj; try done; [by apply prefix_continue|by apply prefix_complete].
Qed.

(** A full response gives a staged file from its start. *)
Lemma based_full st v :
  honest -> full_response st -> resumes = true -> known v ->
  (validator (response st) = ""%string \/ validator (response st) = v) -> v <> ""%string ->
  based v (body st).
Proof.
  intros Hh Hst Hres Hk Hv Hne. split; [done|]. pose proof Hst as ((t & from & u & Ho) & Hok & H206).
  destruct (decide (validator (response st) = ""%string)) as [He|He].
  - destruct (decide (body st = [])) as [->|Hb]; [left; apply prefix_nil|]. right.
    exists st, (body st), []. rewrite app_nil_r. split_conj; try done. apply prefix_nil.
  - destruct Hv as [?|<-]; [done|]. left. eapply (honest_full Hh); [exact Ho|done| |done].
    intros Hs. specialize (H206 Hs). by rewrite resumes_own_ranges in H206.
Qed.

Lemma body_staged t st c c' f f' from :
  honest -> staged c f ->
  from = (if resumes && negb (is_empty (c_validator c)) then len f else 0) ->
  open_stream_at t (request_of from (c_validator c)) = Ok st -> ok_status st ->
  accepted c c' f from (response st) -> c_partial c' = Some f' ->
  staged (with_body c' (f' ++ body st)) (f' ++ body st) /\
  (ended st = Ok tt -> whole (f' ++ body st) \/ spliced (f' ++ body st)).
Proof.
  intros Hh (Hp & Hb & Hpre) Hfrom Ho Hok Hacc Hf'.
  destruct Hacc as (_ & _ & _ & Hacc). unfold staged. cbn [c_partial c_bytes c_validator with_body].
  case_bool_decide as Hkept.
  - destruct Hkept as [Hlt Hne]. destruct Hacc as [Hf Hv]. simplify_eq.
    destruct resumes eqn:Hres; [|simpl in Hlt; lia].
    destruct (is_empty (c_validator c)) eqn:Hve; [simpl in Hlt; lia|]. simpl in *. apply is_empty_false in Hve.
    pose proof (request_resumed (len f) (c_validator c) Hlt) as Hreq.
    destruct (honest_status Hh _ _ _ _ _ Ho Hlt Hreq Hok) as [?|H206]; [done|].
    destruct (honest_range Hh _ _ _ _ _ Ho Hlt Hreq H206) as [Hbody Hend].
    unfold len in Hbody, Hend. rewrite Nat2Z.id in Hbody, Hend.
    destruct (based_continue _ _ _ Hve (Hpre eq_refl Hve) Hbody) as [Hcont Hwhole].
    rewrite (Hv H206). split_conj; [done|done|done|]. intros He. by apply Hwhole, Hend.
  - destruct Hacc as [Hf Hv]. rewrite Hf in Hf'. injection Hf' as <-. simpl.
    assert (full_response st) as Hfull.
    { split; [by exists t, from, (c_validator c)|]. split; [done|]. intros H206.
      assert (from = 0) as E by (destruct (decide (0 < from)); [lia|subst from; case_bool; unfold len in *; lia]).
      rewrite E in Ho. eapply request_unranged, (honest_partial Hh); [exact Ho|done]. }
    split_conj; [done|done| |].
    + intros Hres Hne. rewrite Hv in Hne |- *. destruct (is_empty (validator (response st))) eqn:Hve.
      * apply is_empty_spec in Hve. apply based_full; [done..| |by left|done]. by apply (Hpre Hres Hne).
      * apply based_full; [done..| |by right|done]. left. by exists t, from, (c_validator c), st.
    + intros He. left. right. by exists st.
Qed.

(** The core stays safe or the file is published. *)
Lemma wp_publish f s :
  safe (core s) -> c_partial (core s) = Some f ->
  wp publish (fun _ s' => c_target (core s') = Some f /\ c_promoted (core s') = true /\
                cp_bytes (state (file s')) = c_bytes (core s))
    (fun _ s' => safe (core s')) s.
Proof.
  intros Hs Hp. unfold publish. apply wp_bind.
  apply (wp_keep _ (fun c => c = core s)); [by apply quiet_io|done| |by intros e s' ->].
  intros _ s1 H1. apply wp_bind, (wp_keep _ (fun c => c = core s)); [apply quiet_check|done| |by intros e s' ->].
  intros _ s2 H2. apply wp_bind. unfold io at 1. apply wp_bind. unfold next_tick, wp at 1.
  destruct (io_error_at (tick s2)); [change (safe (core s2)); by rewrite H2|].
  apply wp_modify, wp_bind, wp_modify.
  match goal with |- wp _ _ _ ?s' => set (s3 := s') end.
  assert (c_target (core s3) = Some f /\ c_promoted (core s3) = true /\ c_bytes (core s3) = c_bytes (core s)) as H3.
  { change (c_partial (core s2) = Some f /\ true = true /\ c_bytes (core s2) = c_bytes (core s)). by rewrite H2. }
  clearbody s3. apply wp_bind, wp_attempt.
  apply wp_quiet; [by apply quiet_io| |]; intros x s4 H4; apply wp_bind, wp_attempt;
    (apply wp_quiet; [by apply quiet_io| |]); intros y s5 H5; apply wp_ret;
    change (cp_bytes (state (file s5))) with (c_bytes (core s5)); by rewrite H5, H4.
Qed.

Definition step_ok (r : Step) (s : Engine) : Prop :=
  match r with Finished ok => published ok (core s) | Again _ _ => ready (core s) end.

Lemma ready_safe c : ready c -> safe c.
Proof. by intros []. Qed.

(** A call to the caller's check or wait keeps the core. *)
Lemma wp_call {A} (P : Core -> Prop) n (m : M string A) (k : A -> M Failure Step) s :
  quiet m -> (forall c, P c -> safe c) -> P (core s) ->
  (forall a s', P (core s') -> wp (k a) step_ok failed s') ->
  wp (bind (failing "cancelled" "" n m) k) step_ok failed s.
Proof.
  intros Hq HP Hs Hk. apply wp_bind, wp_failing, (wp_keep _ P); [done|done|done|].
  intros e s' Hs'. by apply HP.
Qed.

Lemma wp_again delay notified s :
  ready (core s) ->
  wp (do d <- draw_delay delay (policy options); ret (Again d notified)) step_ok failed s.
Proof.
  intros Hr. apply wp_bind, (wp_keep _ ready); [apply quiet_draw|done| |intros e s' Hs'; by apply ready_safe].
  intros d s' Hs'. by apply wp_ret.
Qed.

(** After a failed transfer: start over unless the staged file can be resumed. *)
Lemma wp_start_over n f (again : bool) s :
  safe (core s) -> staged (core s) f ->
  (again = false -> f <> [] -> resumes = true /\ c_validator (core s) <> ""%string) ->
  wp (if again then failing "storage_error" "" n restart else ret tt)
    (fun _ s' => ready (core s')) failed s.
Proof.
  intros Hs Hf Ha. destruct again; [apply wp_failing; by eapply wp_restart|]. apply wp_ret. split; [done|].
  exists f. split; [done|]. by apply Ha.
Qed.

Lemma wp_connection_failed n delay notified e s :
  ready (core s) -> wp (connection_failed options n delay notified e) step_ok failed s.
Proof.
  intros Hr. unfold connection_failed.
  apply (wp_call ready); [apply quiet_check|apply ready_safe|done|]. intros _ s1 Hr1.
  case_bool; [apply wp_throw; by apply ready_safe|]. apply wp_bind, wp_gets. apply wp_bind.
  pose proof Hr1 as [Hs1 (f & Hf & Hkeep)]. eapply wp_mono; [apply (wp_start_over n f)|..]; [done|done| | |auto].
  { intros Hn Hne. destruct (Hkeep Hne) as [Hres Hv]. done. }
  intros x2 s2 Hr2. apply (wp_call ready); [apply quiet_wait|apply ready_safe|done|].
  intros _ s3 Hr3. by apply wp_again.
Qed.

Lemma wp_status_refused n delay notified r s :
  ready (core s) -> wp (status_refused options n delay notified r) step_ok failed s.
Proof.
  intros Hr. unfold status_refused. apply wp_bind, (wp_keep _ ready); [done|done| |intros e s' Hs'; by apply ready_safe].
  intros t s1 Hr1. case_bool; [apply wp_throw; by apply ready_safe|].
  apply (wp_call ready); [apply quiet_wait|apply ready_safe|done|].
  intros _ s2 Hr2. by apply wp_again.
Qed.

Lemma wp_body_failed n delay notified e f s :
  safe (core s) -> staged (core s) f -> wp (body_failed options n delay notified e) step_ok failed s.
Proof.
  intros Hs Hf. unfold body_failed. set (P := fun c => safe c /\ staged c f).
  apply wp_bind, (wp_keep _ P); [apply quiet_checkpoint|done| |intros ? ? [? ?]; done].
  intros _ s1 HP1. apply (wp_call P); [apply quiet_check|by intros c []|done|]. intros _ s2 [Hs2 Hf2].
  case_bool; [by apply wp_throw|]. apply wp_bind, wp_gets. apply wp_bind.
  eapply wp_mono; [apply (wp_start_over n f)|..]; [done|done| | |auto].
  { intros Ha _. apply orb_false_iff in Ha as [Ha Hv]. apply negb_false_iff in Ha.
    split; [done|]. by apply is_empty_false. }
  intros x3 s3 Hr3. apply (wp_call ready); [apply quiet_wait|apply ready_safe|done|].
  intros _ s4 Hr4. by apply wp_again.
Qed.

Lemma wp_complete n f s :
  safe (core s) -> c_partial (core s) = Some f -> c_bytes (core s) = len f -> whole f \/ spliced f ->
  wp (complete n) step_ok failed s.
Proof.
  intros Hs Hp Hb Hw. unfold complete. apply wp_bind, wp_gets. case_bool; [by apply wp_throw|].
  apply wp_bind, wp_failing. eapply wp_mono; [by apply wp_publish|..]; [|auto].
  intros _ s1 (Ht & Hpr & _). apply wp_bind.
  assert (forall e : Event, wp (emit e) (fun _ => wp (ret (Finished (mkSuccess (cp_bytes (state (file s))) n false)))
    step_ok failed) failed s1) as Hemit.
  { intros e. apply wp_modify, wp_ret. exists f. done. }
  case_bool; apply Hemit.
Qed.

Lemma wp_one_attempt n delay notified s :
  honest -> ready (core s) -> wp (one_attempt options address n delay notified) step_ok failed s.
Proof.
  intros Hh Hr. unfold one_attempt.
  apply (wp_call ready); [apply quiet_check|apply ready_safe|done|]. clear s Hr. intros _ s Hr.
  apply wp_bind, wp_gets. set (v := cp_validator (state (file s))). set (from := range_from options _).
  pose proof Hr as [Hs (f & Hf & Hkeep)].
  apply wp_bind, (wp_enter _ _ _ (fun c => c = core s)); [done|]. intros s1 H1.
  apply wp_bind, wp_attempt. unfold open_stream. apply wp_bind. unfold next_tick, wp at 1.
  set (s2 := mkEngine (S (tick s1)) (disk s1) (file s1) (events s1)).
  assert (core s2 = core s) as H2 by done. clearbody s2.
  fold (request_of from v). destruct (open_stream_at (tick s1) (request_of from v)) as [st|e] eqn:Ho.
  2: { apply wp_throw, wp_connection_failed. by rewrite H2. }
  apply wp_ret. destruct (negb _) eqn:Eok; [apply wp_status_refused; by rewrite H2|].
  assert (ok_status st) as Hok by (unfold ok_status; lia).
  pose proof Hf as (Hp & Hb & Hpre).
  assert (from = if resumes && negb (is_empty v) then len f else 0) as Hfrom.
  { unfold from, range_from. fold v. change (cp_bytes (state (file s))) with (c_bytes (core s)). by rewrite Hb. }
  apply wp_bind. eapply wp_mono; [apply wp_check_range|..].
  2: { intros e s3 ->. rewrite H2. by apply ready_safe. }
  intros _ s3 [H3 Hv]. rewrite H2 in H3. apply wp_bind.
  eapply wp_mono; [apply (wp_accept n f from v)|..]; rewrite ?H3; [done|done| | |done| |auto].
  { intros Hlt. split; [|done]. subst from. case_bool; [done|lia]. }
  { intros Hle. destruct f as [|b f]; [done|]. destruct (Hkeep ltac:(done)) as [Hres Hv'].
    apply is_empty_false in Hv'. change (c_validator (core s)) with v in Hv'.
    rewrite Hfrom, Hres, Hv' in Hle. unfold len in Hle. simpl in Hle. lia. }
  intros x4 s4 Hacc. simpl in Hacc. rewrite ?H3 in Hacc.
  assert (exists f', c_partial (core s4) = Some f') as [f' Hf'].
  { destruct Hacc as (_ & _ & _ & Hacc). case_bool_decide; destruct Hacc; eauto. }
  assert (safe (core s4)) as Hs4 by (destruct Hacc as (Ht & Hpr & _), Hs; split; congruence).
  assert (c_bytes (core s4) = len f') as Hb4.
  { destruct Hacc as (_ & _ & -> & _). by rewrite Hf'. }
  destruct (body_staged _ _ _ _ f f' from Hh Hf Hfrom Ho Hok Hacc Hf') as [Hst Hw].
  apply wp_bind. eapply wp_mono; [by apply (wp_read_body _ _ _ _ _ f')|..]; [|auto].
  intros notified' s5 H5. apply wp_bind, wp_gets.
  assert (core s5 = with_body (core s4) (f' ++ body st)) as H5' by done.
  assert (safe (core s5)) as Hs5 by (rewrite H5'; by destruct Hs4).
  rewrite <- H5' in Hst.
  destruct (ended st) as [[]|e] eqn:He; [|by apply (wp_body_failed _ _ _ _ (f' ++ body st))].
  match goal with |- context [if ?b then Err _ else Ok tt] => destruct b end;
    [by apply (wp_body_failed _ _ _ _ (f' ++ body st))|].
  apply (wp_complete _ (f' ++ body st)); [done|apply Hst|apply Hst|by apply Hw].
Qed.

Lemma wp_attempt_loop l delay notified s :
  honest -> ready (core s) ->
  wp (attempt_loop options address l delay notified) (fun ok s' => published ok (core s')) failed s.
Proof.
  intros Hh. revert delay notified s. induction l as [|n l IH]; intros delay notified s Hr; cbn [attempt_loop].
  { apply wp_throw. by apply ready_safe. }
  apply wp_bind. eapply wp_mono; [by apply wp_one_attempt|..]; [|auto].
  intros [ok|d k] s' Hs'; [by apply wp_ret|by apply IH].
Qed.

(** ** The whole transfer *)

(** What a checkpoint left by an earlier run must say of the staged file. *)
Definition consistent_disk (d : Disk) : Prop := forall c, accept_checkpoint fp (saved d) = Some c ->
  take (Z.to_nat (cp_bytes c)) (default [] (partial d)) `prefix_of` content (cp_validator c) /\
  (0 < cp_total c -> cp_total c = len (content (cp_validator c))).

(** What publishing a restored file at once relies on. *)
Definition restored_total (c : Core) : Prop :=
  c_restored c = true -> c_validator c <> ""%string /\
  (0 < c_total c -> c_total c = len (content (c_validator c))) /\
  forall f, c_partial c = Some f -> f `prefix_of` content (c_validator c).

Lemma wp_drop_file {E} (Q : unit -> Engine -> Prop) (R : E -> Engine -> Prop) s :
  (forall s', target (disk s') = target (disk s) -> Q tt s') -> wp drop_file Q R s.
Proof.
  intros HQ. assert (forall f, (forall d, target (f d) = target d) -> forall s (Q : result unit string -> Engine -> Prop) (R : E -> Engine -> Prop),
    (forall r s', target (disk s') = target (disk s) -> Q r s') -> wp (attempt (io f)) Q R s) as Hio.
  { intros f Hf s0 Q0 R0 H0. apply wp_attempt. unfold io. apply wp_bind. unfold next_tick, wp at 1.
    destruct (io_error_at (tick s0)); [by apply wp_throw, H0|]. apply wp_modify, H0. apply Hf. }
  unfold drop_file. apply wp_bind, wp_gets. case_bool; [|by apply HQ].
  apply wp_bind, Hio; [done|]. intros r s1 H1. case_bool; [by apply HQ|].
  apply wp_bind, Hio; [done|]. intros r' s2 H2. apply HQ. by rewrite H2.
Qed.

(** Cutting the staged file to what the checkpoint claims. *)
Lemma wp_settle f s :
  c_partial (core s) = Some f -> 0 <= c_bytes (core s) ->
  wp settle_file
    (fun _ s' => let g := take (Z.to_nat (c_bytes (core s))) f in
      core s' = mkCore (c_target (core s)) (Some g) (c_validator (core s)) (len g) (c_total (core s))
                  (c_promoted (core s)) (c_restored (core s)))
    (fun _ s' => c_target (core s') = c_target (core s)) s.
Proof.
  intros Hp Hb. unfold settle_file. set (c := core s) in *.
  apply wp_bind, (wp_keep _ (fun c' => c' = c)); [by apply quiet_io|done| |intros e s' Es; cbv beta; by rewrite Es].
  clearbody c. intros _ s1 H1. apply wp_bind, wp_gets. apply wp_bind.
  assert (partial (disk s1) = Some f) as -> by (change (c_partial (core s1) = Some f); by rewrite H1). simpl.
  set (n := Z.min (c_bytes c) (len f)).
  apply (wp_update _ (fun c => core_bytes (Z.min (c_bytes c) (len f)) c)); [done|]. intros s2 H2.
  rewrite H1 in H2. apply wp_bind, wp_gets. change (cp_bytes (state (file s2))) with (c_bytes (core s2)).
  rewrite H2. cbn [c_bytes core_bytes]. fold n.
  assert (set_len n f = take (Z.to_nat (c_bytes c)) f) as Hcut.
  { unfold n, set_len, len. rewrite Z2Nat.inj_min, Nat2Z.id.
    replace (Z.to_nat (c_bytes c) `min` length f - length f)%nat with 0%nat by lia.
    rewrite app_nil_r, Nat.min_comm, <- take_take.
    apply firstn_all2. rewrite length_take. lia. }
  apply wp_bind, (wp_resize n f); [by rewrite H2| |intros e s' Es; change (c_target (core s') = c_target c); by rewrite Es, H2].
  intros s3 H3. rewrite H2 in H3. apply wp_bind.
  apply (wp_keep _ (fun c' => c' = core s3)); [by apply quiet_io|done| |intros e s' Es; change (c_target (core s') = c_target c); by rewrite Es, H3].
  intros _ s4 H4. apply wp_modify.
  transitivity (core s4); [done|]. rewrite H4, H3, Hcut. unfold core_bytes. cbn. f_equal. unfold n, len in *.
  rewrite length_take. lia.
Qed.

(** A step on the disk that leaves the target alone. *)
Lemma wp_io_before g (Q : unit -> Engine -> Prop) s :
  (forall d, target (g d) = target d) -> target (disk s) = before -> (forall s', disk s' = g (disk s) -> Q tt s') ->
  wp (io g) Q (fun _ s' => target (disk s') = before) s.
Proof.
  intros Hg Hs HQ. unfold io. apply wp_bind. unfold next_tick, wp at 1.
  destruct (io_error_at (tick s)); [by apply wp_throw|]. by apply wp_modify, HQ.
Qed.

(** Opening the staged file. *)
Lemma wp_open_file keep irregular s :
  (keep = true -> resumes = true) -> disk s = start -> (keep = true -> consistent_disk (disk s)) ->
  wp (open_file fp keep irregular)
    (fun _ s' => ready (core s') /\ restored_total (core s') /\
      (c_restored (core s') = true -> keep = true /\
         exists c, accept_checkpoint fp (saved start) = Some c /\ cp_validator c = c_validator (core s')) /\
      (c_restored (core s') = false -> c_bytes (core s') = 0))
    (fun _ s' => target (disk s') = before) s.
Proof.
  intros Hkeep Hstart Hd. unfold open_file. destruct irregular as [e|]; [apply wp_throw; by rewrite Hstart|].
  assert (target (disk s) = before) as Ht by by rewrite Hstart.
  assert (saved (disk s) = saved start) as Hsaved by by rewrite Hstart. clear Hstart. set (d0 := disk s) in *.
  apply wp_bind.
  apply (wp_mono _ (fun st s' => target (disk s') = before /\ partial (disk s') = partial d0 /\
      forall c, st = Some c -> keep = true /\ accept_checkpoint fp (saved d0) = Some c)
    _ (fun _ s' => target (disk s') = before)); [| |auto].
  { destruct keep; [|by apply wp_ret]. apply wp_bind, wp_attempt. unfold io. apply wp_bind.
    unfold next_tick, wp at 1. destruct (io_error_at (tick s)).
    - apply wp_throw. apply wp_bind, wp_gets, wp_ret. by split_conj.
    - apply wp_modify. apply wp_bind, wp_gets, wp_ret. by split_conj. }
  intros st s1 (Ht1 & Hp1 & Hst). apply wp_bind.
  apply (wp_mono _ (fun _ s' => target (disk s') = before /\
      partial (disk s') = (if bool_decide (is_Some st) then partial d0 else None)) _ (fun _ s' => target (disk s') = before)); [| |auto].
  { case_bool_decide; [by apply wp_ret|]. apply wp_bind, wp_io_before; [done|done|]. intros s2 H2.
    apply wp_io_before; [done|by rewrite H2|]. intros s3 H3. rewrite H3, H2. done. }
  intros x2 s2 [Ht2 Hp2]. apply wp_bind, wp_io_before; [done|done|]. intros s3 H3.
  apply wp_bind, wp_io_before; [done|by rewrite H3|]. intros s4 H4. apply wp_bind. unfold now. apply wp_bind.
  unfold next_tick, wp at 1. apply wp_ret. apply wp_bind, wp_modify. apply wp_bind, wp_attempt.
  set (g := default [] (if bool_decide (is_Some st) then partial d0 else None)).
  set (c := default empty_checkpoint st).
  assert (0 <= cp_bytes c) as Hc.
  { unfold c. destruct st as [c0|]; [|done]. destruct (Hst c0 eq_refl) as [_ Hacc].
    apply accept_checkpoint_some in Hacc. simpl. lia. }
  match goal with |- wp settle_file _ _ ?s' => set (s5 := s') end.
  assert (core s5 = mkCore before (Some g) (cp_validator c) (cp_bytes c) (cp_total c) false (bool_decide (is_Some st))) as H5.
  { unfold core, s5. simpl. rewrite H4, H3. unfold create_partial. simpl. by rewrite Hp2, Ht2. }
  clearbody s5. eapply wp_mono; [apply (wp_settle g); rewrite H5; done|..].
  2: { intros e s6 H6. rewrite H5 in H6. apply wp_bind, wp_drop_file. intros s7 H7. apply wp_throw.
       rewrite H7. done. }
  intros x6 s6 H6. cbv beta zeta in H6. rewrite H5 in H6. cbn in H6. apply wp_ret. rewrite H6. simpl.
  destruct st as [c0|].
  - destruct (Hst c0 eq_refl) as [Hk Hacc]. destruct (Hd Hk c0 Hacc) as (Hpre & Htot).
    assert (cp_validator c0 <> ""%string) as Hv.
    { by apply accept_checkpoint_some in Hacc as (? & _). }
    split.
    + split; [done|]. exists (take (Z.to_nat (cp_bytes c0)) g). split; [|intros _; split; [by apply Hkeep|done]].
      unfold staged; simpl; split_conj; [done|done|]. intros _ _. split; [|by left].
      right. exists c0. by rewrite <- Hsaved.
    + split; [|split; [|done]]; intros _; simpl.
      * split; [done|]. split; [by apply Htot|]. intros f [= <-]. exact Hpre.
      * split; [done|]. exists c0. by rewrite <- Hsaved.
  - split; [|by split_conj]. split; [done|]. exists []. split; [|done]. unfold g. simpl.
    unfold staged; simpl; by split_conj.
Qed.

Lemma wp_transfer s :
  honest -> ready (core s) -> restored_total (core s) ->
  wp (transfer options address) (fun ok s' => published ok (core s')) failed s.
Proof.
  intros Hh Hr Htot. unfold transfer. apply wp_bind, wp_gets. do 3 (apply wp_bind, wp_modify).
  apply wp_bind, wp_gets. match goal with |- wp _ _ _ ?s' => set (s1 := s') end.
  change (restored (file s1)) with (c_restored (core s)).
  change (cp_bytes (state (file s))) with (c_bytes (core s)).
  change (cp_total (state (file s))) with (c_total (core s)).
  assert (core s1 = core s) as H1 by done. clearbody s1.
  destruct (_ && _) eqn:E; [|by apply wp_attempt_loop; rewrite ?H1].
  rewrite !andb_true_iff in E. destruct E as [[[Hres _] Hpos] Heq].
  apply Z.ltb_lt in Hpos. apply Z.eqb_eq in Heq.
  destruct (Htot Hres) as (Hv & Hlen & Hpre). specialize (Hlen Hpos). pose proof Hr as [Hs (f & (Hp & Hb & _) & _)].
  assert (f = content (c_validator (core s))) as Hf.
  { destruct (Hpre f Hp) as [k Hk]. rewrite Hk in Hlen |- *. rewrite Heq in Hb.
    destruct k; [by rewrite app_nil_r|]. rewrite Hlen in Hb. unfold len in Hb. rewrite length_app in Hb. simpl in Hb. lia. }
  unfold publish_restored. apply wp_bind, wp_failing.
  eapply wp_mono; [apply (wp_publish f); by rewrite H1|..]; [|auto].
  intros x s2 (Ht2 & Hpr2 & _). apply wp_bind, wp_modify, wp_ret. exists f. split_conj; [done| |done|done].
  left. left. by exists (c_validator (core s)).
Qed.

End integrity.

(** ** Worlds: a server of four bytes that breaks the first connection in the middle *)

Definition countable_checkpoint (c : Checkpoint) :=
  (version c, Download.fingerprint c, cp_validator c, cp_bytes c, cp_total c, updated_at c).

Definition encode_number (c : Checkpoint) : bytes := [Zpos (encode (countable_checkpoint c))].
Definition decode_number (l : bytes) : option Checkpoint :=
  match l with
  | [Zpos p] =>
    match decode p with
    | Some (a, b, c, d, e, f) => Some (mkCheckpoint a b c d e f)
    | None => None
    end
  | _ => None
  end.

Lemma decode_encode_number c : decode_number (encode_number c) = Some c.
Proof. unfold decode_number, encode_number. rewrite decode_encode. by destruct c. Qed.

Definition four : bytes := [11; 22; 33; 44].

Definition ranged (r : HttpRequest) : bool :=
  bool_decide (req_headers r !! "Range" = Some "bytes=2-" /\ req_headers r !! "If-Range" = Some "v1")%string.

Definition half_server (r : HttpRequest) : HttpStream :=
  if ranged r then
    mkStream (mkResponse 206 {["Content-Range" := ["bytes 2-3/4"]; "Etag" := ["v1"]]}%string) [[33]; [44]] (Ok tt)
  else
    mkStream (mkResponse 200 {["Content-Length" := ["4"]; "Etag" := ["v1"]]}%string) [[11; 22]] (Err "reset"%string).

Definition world_of (server : nat -> HttpRequest -> HttpStream) : World := {|
  check_at _ := Ok tt; wait_at _ _ := Ok tt; open_stream_at t r := Ok (server t r);
  io_error_at _ := None; partial_write_at _ := 0%nat; instant_at _ := 0; system_ms_at _ := 0;
  random_u64_at _ := None; http_date_ns _ := None;
  encode_checkpoint := encode_number; decode_checkpoint := decode_number;
  decode_encode_checkpoint := decode_encode_number |}.

Definition half_world : World := world_of (fun _ => half_server).

Definition resuming : DownloadOptions :=
  mkOptions ∅ "agent" true true default_policy false.

Definition fresh (d : Disk) : Engine := mkEngine 0 d (mkFile empty_checkpoint false false false 0 0) [].

Definition four_of (v : string) : bytes := four.

Lemma half_world_honest : @honest half_world four_of.
Proof.
  split; simpl.
  - intros _ r st [= <-] H206. unfold half_server in H206.
    destruct (ranged r) eqn:E; [|done]. apply bool_decide_eq_true in E as [Hr _]. by eexists _, _.
  - intros _ r st from v [= <-] Hf [Hr Hv] H206. unfold half_server in *.
    destruct (ranged r) eqn:E; [|done]. apply bool_decide_eq_true in E as [Hr' Hv'].
    assert (from = 2) as ->.
    { rewrite Hr in Hr'. injection Hr' as E2. change (decimal from ++ "-" = "2-")%string in E2.
      apply (f_equal chars) in E2. rewrite chars_app in E2.
      change (chars "2-") with (chars "2" ++ chars "-") in E2. apply app_inj_tail in E2 as [E2 _].
      apply chars_inj in E2. apply decimal_inj; [lia|lia|]. exact E2. }
    unfold body, four_of. simpl. by split.
  - intros _ r st [= <-] _ H206 _. unfold half_server in *. destruct (ranged r); [done|].
    by exists [33; 44].
  - intros _ r st from v [= <-] _ _ _. unfold half_server. destruct (ranged r); auto.
Qed.

(** Every success of this server names its validator, so nothing can be spliced. *)
Lemma half_world_unspliced d options c :
  ~ @spliced half_world options "https://host/song.flac" "fp" four_of d c.
Proof.
  intros (v & _ & st & _ & _ & _ & _ & ((t & from & u & [= <-]) & _) & Hn & _). revert Hn.
  unfold half_server. by destruct (ranged _).
Qed.


(** ** What consistent validators are needed for

    The range of the second attempt is ignored by a server that answers without a validator; the
    engine empties the file but keeps the old validator, and the third attempt continues the new bytes
    with the rest of the old representation. *)

Definition swapping_server (t : nat) (r : HttpRequest) : HttpStream :=
  match req_headers r !! "Range"%string with
  | None =>
    mkStream (mkResponse 200 {["Content-Length" := ["4"]; "Etag" := ["v1"]]}%string) [[11; 22]] (Err "reset"%string)
  | Some range =>
    if bool_decide (range = "bytes=3-"%string /\ req_headers r !! "If-Range" = Some "v1")%string then
      mkStream (mkResponse 206 {["Content-Range" := ["bytes 3-3/4"]; "Etag" := ["v1"]]}%string) [[44]] (Ok tt)
    else
      mkStream (mkResponse 200 {["Content-Length" := ["6"]]}%string) [[91; 92; 93]] (Err "reset"%string)
  end.

(** Every 206 of this server is the rest of the representation its validator names and every
    response with a validator is a prefix of it, yet the published file is neither. *)
Theorem stale_validator_splices :
  let run := @download (world_of swapping_server) resuming "https://host/song.flac" "fp" (Ok tt) None
               (fresh (mkDisk None None None)) in
  run.1 = Ok (mkSuccess 4 3 false) /\ target (disk run.2) = Some [91; 92; 93; 44] /\
  (forall t r, validator (response (swapping_server t r)) = "v1"%string ->
     (status (response (swapping_server t r)) = 206 /\ req_headers r !! "Range" = Some "bytes=3-"%string /\
      body (swapping_server t r) = drop 3 four) \/
     (status (response (swapping_server t r)) = 200 /\ body (swapping_server t r) `prefix_of` four)).
Proof.
  cbv zeta. split; [vm_compute; reflexivity|]. split; [vm_compute; reflexivity|].
  intros t r. unfold swapping_server. destruct (req_headers r !! "Range"%string) as [x|] eqn:E.
  - case_bool_decide as Hr; [|done]. destruct Hr as [-> _]. intros _. left. done.
  - intros _. right. split; [done|]. by exists [33; 44].
Qed.
