(* ===== verification/DownloadChunked.v ===== *)
(** * One transfer in ranges: [crates/extensions/src/download/chunked.rs]

    The probe, the loop over the chunks with their retries, and the publication of the staged file of
    [Download].  The loop over the chunks is not bounded by the code when the total size is unknown,
    so it takes fuel; a transfer that runs out of it fails with [out_of_fuel], which the code never
    returns. *)

From S2P Require Import Prelude Float64 RustText TransferPolicy Monads Download DownloadSingle.

Definition FUEL : string := "fuel".
Definition out_of_fuel (n : Z) : Failure := failure FUEL "" n.

(** The sign and the digits a scan of a number reads. *)
Fixpoint digits_of (l : list ascii) : list ascii :=
  match l with
  | a :: l => if bool_decide (is_Some (digit_value a)) then a :: digits_of l else []
  | [] => []
  end.
Definition scanned (s : string) : string :=
  unchars (match chars (trim_start s) with
           | a :: l =>
             if Ascii.eqb a (ascii_of_nat 45) || Ascii.eqb a (ascii_of_nat 43) then a :: digits_of l
             else digits_of (a :: l)
           | [] => []
           end).

Definition total_length (r : HttpResponse) : Z :=
  let ranged :=
    match rsplit_once (ascii_of_nat 47) (header r "Content-Range") with
    | Some (_, total) => parse_i64 (scanned total)
    | None => None
    end in
  match ranged with
  | Some total => total
  | None => if status r =? 200 then content_length r else 0
  end.

Example total_length_ex :
  map (fun p => total_length (mkResponse p.1 {["Content-Range" := [p.2]]}))
    [(206, "bytes 0-1/20"); (206, "bytes 0-1/ 20;x"); (206, "bytes 0-1/*"); (200, "")]%string
  = [20; 20; 0; -1].
Proof. vm_compute. reflexivity. Qed.

Definition retry_delay (f : Failure) (fallback : Z) : Z :=
  if 0 <? retry_after_seconds f then retry_after_seconds f * 1000000000 else fallback.

Definition with_error (e : string) (f : Failure) : Failure :=
  mkFailure e (error_type f) (attempts f) (http_status f) (retry_after_seconds f).

Definition accepted_status (r : HttpResponse) : bool := (status r =? 200) || (status r =? 206).

(** How the attempts at one chunk end: with its bytes written from [start] on, by a whole response
    or not, after so many attempts in all; or with the failure of the last one. *)
Inductive Chunk := ChunkComplete (start : Z) (full_response : bool) (attempts notified : Z) | ChunkBroken (f : Failure).

(** How one attempt at a chunk ends; the next one starts at [start] after the delay. *)
Inductive ChunkStep := ChunkDone (c : Chunk) | ChunkAgain (start delay notified : Z) (f : Failure).

Section chunked.
Context `{World}.
Variables (options : DownloadOptions) (address fingerprint : string) (chunk_size : Z).

Abbreviation attempts_allowed := (attempts_allowed options).

Definition initial_delay : Z := millis (initial_retry_delay_ms (policy options)).

Definition agent : string :=
  match opt_headers options !! "User-Agent"%string with
  | Some v => if is_empty v then opt_user_agent options else v
  | None => opt_user_agent options
  end.

Definition range_headers (range v : string) : gmap string string :=
  let h := set_header (opt_headers options) "Range" range in
  let h := if negb (is_empty v) then set_header h "If-Range" v else h in
  set_header h "User-Agent" agent.

Definition open (range v : string) (continuation : bool) : M string HttpStream :=
  enter options (negb continuation);; open_stream (mkRequest address (range_headers range v) agent).

(** The failure of a response that is neither 200 nor 206. *)
Definition refused (r : HttpResponse) (message : string) (n : Z) : M Failure Failure :=
  do t <- next_tick;
  ret (with_error message (status_failure r (policy options) n (system_ms_at t * 1000000))).

(** ** The probe *)

Definition probe_failure (n : Z) (opened : result HttpStream string) : M Failure Failure :=
  match opened with
  | Ok stream => refused (response stream) ("chunked probe HTTP " ++ decimal (status (response stream))) n
  | Err e => ret (failure "transient_network" ("chunked probe failed: " ++ e) n)
  end.

(** The loop that ends with the response to the first two bytes and the attempts it took. *)
Fixpoint probe (fuel : nat) (attempts delay : Z) : M Failure (HttpResponse * Z) :=
  match fuel with
  | O => throw (out_of_fuel attempts)
  | S fuel =>
    let attempts := attempts + 1 in
    failing "cancelled" "" attempts check;;
    do opened <- attempt (open "bytes=0-1" "" false);
    match (match opened with
           | Ok stream => if accepted_status (response stream) then Some (response stream) else None
           | Err _ => None
           end) with
    | Some r => ret (r, attempts)
    | None =>
      do f <- probe_failure attempts opened;
      failing "cancelled" "" attempts check;;
      if (attempts_allowed <=? attempts) || ((0 <? http_status f) && negb (retryable (http_status f)))
      then throw f
      else
        failing "cancelled" "" attempts (wait (retry_delay f delay));;
        do d <- draw_delay delay (policy options);
        probe fuel attempts d
    end
  end.

(** ** One attempt at one chunk *)

(** Another attempt after a delay, or the failure when the attempts at the chunk are used up. *)
Definition chunk_retry (n attempts start pause delay notified : Z) (f : Failure) : M Failure ChunkStep :=
  if n =? attempts_allowed then ret (ChunkDone (ChunkBroken f))
  else
    failing "cancelled" "" attempts (wait pause);;
    do d <- draw_delay delay (policy options);
    ret (ChunkAgain start d notified f).

Definition chunk_unopened (n attempts start delay notified : Z) (e : string) : M Failure ChunkStep :=
  failing "cancelled" "" attempts check;;
  chunk_retry n attempts start delay delay notified
    (failure "transient_network" ("chunked request at " ++ decimal start ++ " failed: " ++ e) attempts).

Definition chunk_refused (n attempts start delay notified : Z) (r : HttpResponse) : M Failure ChunkStep :=
  do f <- refused r ("chunked HTTP " ++ decimal (status r) ++ " at offset " ++ decimal start) attempts;
  if negb (retryable (status r)) then ret (ChunkDone (ChunkBroken f))
  else chunk_retry n attempts start (retry_delay f delay) delay notified f.

(** A 206 must be the range asked for, and the validator the one of the probe. *)
Definition check_chunk (attempts start : Z) (v : string) (r : HttpResponse) : M Failure unit :=
  let range := header r "Content-Range" in
  if (status r =? 206) && negb (starts_with range ("bytes " ++ decimal start ++ "-")) then
    throw (mkFailure ("chunked response has unexpected Content-Range " ++ debug range ++ " at " ++ decimal start)
             "integrity_failed" attempts (status r) 0)
  else if negb (is_empty (validator r)) && negb (is_empty v) && negb (String.eqb (validator r) v) then
    throw (failure "integrity_failed" "chunked response validator changed during transfer" attempts)
  else ret tt.

(** A 200 to a range past the start begins the file anew. *)
Definition accept_chunk (attempts start : Z) (v : string) (r : HttpResponse) : M Failure Z :=
  if (status r =? 200) && (0 <? start) then
    failing "storage_error" "failed to restart ignored range: " attempts restart;;
    update_state (with_validator v);;
    (if 0 <? content_length r then update_state (with_total (content_length r)) else ret tt);;
    ret 0
  else ret start.

Fixpoint read_chunk (attempts notified : Z) (received : bool) (l : list bytes) : M Failure Z :=
  enter options (negb received);;
  match l with
  | [] => ret notified
  | bs :: l =>
    failing "storage_error" "failed to write chunked output: " attempts (write_all bs);;
    update_state (fun c => with_bytes (cp_bytes c + len bs) c);;
    do notified <- notify options notified;
    read_chunk attempts notified true l
  end.

(** The number of bytes a response must have carried; nothing is known if it is not positive. *)
Definition expected_bytes (start stop : Z) (r : HttpResponse) : Z :=
  if (status r =? 206) && (content_length r <=? 0)
  then wrap_i64 (Z.min (sat_sub stop start + 1) (2 ^ 64 - 1))
  else content_length r.

(** Giving an incomplete chunk back. *)
Definition roll_back (n attempts start delay notified : Z) (message : string) : M Failure ChunkStep :=
  failing "storage_error" "failed to roll back incomplete chunk: " attempts (rewind start);;
  do c <- out;
  (if 0 <? cp_total c
   then emit (ItemSet (f64_div (f64_of start) (f64_of (cp_total c))) start (cp_total c)) else ret tt);;
  do checked <- attempt check;
  match checked with
  | Err e => checkpoint true;; throw (failure "cancelled" e attempts)
  | Ok _ => chunk_retry n attempts start delay delay notified (failure "transient_network" message attempts)
  end.

Definition finish_chunk (n attempts start stop delay notified : Z) (stream : HttpStream) : M Failure ChunkStep :=
  do c <- out;
  let r := response stream in
  let written := cp_bytes c - start in
  let expected := expected_bytes start stop r in
  let body := match ended stream with
              | Err e => Err e
              | Ok _ => if (0 <? expected) && negb (written =? expected)
                        then Err "unexpected EOF"%string else Ok tt
              end in
  match body with
  | Ok _ =>
    if 0 <? written then ret (ChunkDone (ChunkComplete start (status r =? 200) attempts notified))
    else roll_back n attempts start delay notified ("chunk at " ++ decimal start ++ " was empty")
  | Err e =>
    roll_back n attempts start delay notified ("failed to read chunk at " ++ decimal start ++ ": " ++ e)
  end.

Definition chunk_attempt (v : string) (n attempts start stop delay notified : Z) (continuation : bool)
  : M Failure ChunkStep :=
  failing "cancelled" "" attempts check;;
  do opened <- attempt (open ("bytes=" ++ decimal start ++ "-" ++ decimal stop) v continuation);
  match opened with
  | Err e => chunk_unopened n attempts start delay notified e
  | Ok stream =>
    let r := response stream in
    if negb (accepted_status r) then chunk_refused n attempts start delay notified r
    else
      check_chunk attempts start v r;;
      do start <- accept_chunk attempts start v r;
      do notified <- read_chunk attempts notified continuation (chunks stream);
      finish_chunk n attempts start stop delay notified stream
  end.

(** The attempts at one chunk. *)
Fixpoint chunk_attempts (v : string) (l : list Z) (attempts start stop delay notified : Z)
  (completed : bool) (f : Failure) : M Failure Chunk :=
  match l with
  | [] => ret (ChunkBroken f)
  | n :: l =>
    do r <- chunk_attempt v n (attempts + 1) start stop delay notified ((n =? 1) && completed);
    match r with
    | ChunkDone c => ret c
    | ChunkAgain start delay notified f =>
      chunk_attempts v l (attempts + 1) start stop delay notified completed f
    end
  end.

(** ** The transfer *)

(** The last byte of the chunk at [start]; the additions saturate. *)
Definition chunk_end (start total : Z) : Z :=
  let stop := Z.min (start + (chunk_size - 1)) (2 ^ 64 - 1) in
  if 0 <? total then Z.min stop (total - 1) else stop.

(** The loop over the chunks; the result is the number of attempts. *)
Fixpoint chunk_loop (v : string) (fuel : nat) (attempts notified : Z) (completed : bool) : M Failure Z :=
  do c <- out;
  if (cp_total c <=? 0) || (cp_bytes c <? cp_total c) then
    match fuel with
    | O => throw (out_of_fuel attempts)
    | S fuel =>
      do r <- chunk_attempts v (seqZ 1 attempts_allowed) attempts (cp_bytes c)
                (chunk_end (cp_bytes c) (cp_total c)) initial_delay notified completed
                (failure "transient_network" "chunked transfer failed" attempts);
      match r with
      | ChunkBroken f => checkpoint true;; throw f
      | ChunkComplete start full attempts notified =>
        checkpoint false;;
        do c <- out;
        if full || ((cp_total c <=? 0) && (cp_bytes c - start <? chunk_size))
        then ret attempts else chunk_loop v fuel attempts notified true
      end
    end
  else ret attempts.

(** A restored file of another representation or size is emptied. *)
Definition settle_restored (v : string) (total : Z) : M Failure unit :=
  do f <- gets file;
  let c := state f in
  (if restored f && (negb (String.eqb (cp_validator c) v)
                     || ((0 <? cp_total c) && (0 <? total) && negb (cp_total c =? total)))
   then failing "storage_error" "" 0 restart else ret tt);;
  update_state (with_validator v);;
  update_state (with_total total).

Definition mismatch (c : Checkpoint) (n : Z) : Failure :=
  failure "integrity_failed"
    ("chunked transfer size mismatch: expected " ++ signed_decimal (cp_total c) ++
     " bytes, wrote " ++ decimal (cp_bytes c)) n.

(** The transfer once the staged file is open. *)
Definition transfer (v : string) (total : Z) (fuel : nat) (attempts : Z) : M Failure Success :=
  settle_restored v total;;
  do c <- out;
  emit (ItemInitial (cp_bytes c) total);;
  emit (ItemReporter (cp_bytes c) total);;
  do attempts <- chunk_loop v fuel attempts (cp_bytes c) false;
  do c <- out;
  if (cp_bytes c =? 0) || ((0 <? cp_total c) && negb (cp_bytes c =? cp_total c)) then throw (mismatch c attempts)
  else
    failing "storage_error" "failed to publish file: " attempts publish;;
    emit (ItemSet (f64_of 1) (cp_bytes c) (cp_bytes c));;
    ret (mkSuccess (cp_bytes c) attempts false).

Definition download (fuel : nat) (irregular : option string) : M Failure Success :=
  emit ItemStart;;
  do probed <- probe (Z.to_nat (Z.max 1 attempts_allowed)) 0 initial_delay;
  let '(r, attempts) := probed in
  let v := validator r in
  failing "storage_error" "failed to create chunked staged file: " 0
    (open_file fingerprint (persistent options && negb (is_empty v) && negb (is_empty fingerprint)) irregular);;
  do result <- attempt (transfer v (total_length r) fuel attempts);
  drop_file;;
  match result with Ok ok => ret ok | Err e => throw e end.
End chunked.

(** The engine's entry: [lock] is the outcome of locking the output path, [chunk_size] the option of
    that name. *)
Definition locked_download `{World} (options : DownloadOptions) (address fingerprint : string)
  (chunk_size : option Z) (fuel : nat) (lock : result unit string) (irregular : option string) : M Failure Success :=
  match lock with
  | Err e => throw (failure "cancelled" e 0)
  | Ok _ =>
    match chunk_size with
    | Some n => download options address fingerprint n fuel irregular
    | None => DownloadSingle.download options address fingerprint lock irregular
    end
  end.

(** ** Integrity *)

Section integrity.
Context `{World}.
Variables (options : DownloadOptions) (address fp : string) (chunk_size : Z).
(** [served t]: the representation the address has at tick [t]. *)
Variable served : nat -> bytes.
(** The disk the download starts on. *)
Variable found : Disk.

Abbreviation before := (target found).

Definition asks (r : HttpRequest) (first last : Z) : Prop :=
  req_headers r !! "Range"%string = Some ("bytes=" ++ decimal first ++ "-" ++ decimal last)%string.

(** The address answers a request at tick [t] with success. *)
Definition success (t : nat) (r : HttpRequest) (st : HttpStream) : Prop :=
  url r = address /\ open_stream_at t r = Ok st /\ (status (response st) = 200 \/ status (response st) = 206).

(** What HTTP promises of a server of byte ranges (RFC 9110).  A 200 carries the representation
    (15.3.1) and announces no other length than its own (8.6) and no range (14.4); a 206 is the range
    asked for, and its Content-Range says so with the length of the representation or an asterisk
    (14.4, 15.3.7); a range past the end is refused (15.5.17); equal strong validators mean equal
    representations (8.8.1).  A stream that ends without an error is whole. *)
Record honest : Prop := {
  honest_complete t r st : success t r st -> status (response st) = 200 -> ended st = Ok tt -> body st = served t;
  honest_length t r st : success t r st -> status (response st) = 200 ->
    header (response st) "Content-Length" = ""%string \/
    header (response st) "Content-Length" = decimal (len (served t));
  honest_unranged t r st : success t r st -> status (response st) = 200 ->
    header (response st) "Content-Range" = ""%string;
  honest_range t r st first last : success t r st -> 0 <= first <= last -> asks r first last ->
    status (response st) = 206 -> ended st = Ok tt ->
    body st = take (Z.to_nat (last + 1 - first)) (drop (Z.to_nat first) (served t));
  honest_content_range t r st first last : success t r st -> 0 <= first <= last -> asks r first last ->
    status (response st) = 206 ->
    exists stop size, header (response st) "Content-Range" =
      ("bytes " ++ decimal first ++ "-" ++ decimal stop ++ "/" ++ size)%string /\
      (size = "*"%string \/ size = decimal (len (served t)));
  honest_satisfiable t r st first last : success t r st -> 0 < first <= last -> asks r first last ->
    first < len (served t);
  honest_strong t r st t' r' st' : success t r st -> success t' r' st' ->
    validator (response st) <> ""%string -> validator (response st') = validator (response st) ->
    served t' = served t;
  honest_size t : len (served t) < 2 ^ 64 }.

(** A representation that some success does not name by a validator stays the same throughout the
    download: with neither a validator nor this, no client can tell that two ranges belong together. *)
Definition detectable : Prop := forall t r st t' r' st',
  success t r st -> success t' r' st' -> validator (response st) = ""%string -> served t' = served t.

(** A file that is one whole representation: the one the address had when it answered some request. *)
Definition whole (c : bytes) : Prop := exists t r st, success t r st /\ c = served t.

Abbreviation safe := (safe found).

(** The validator of the probe and the representation it was about. *)
Definition represents (v : string) (x : bytes) : Prop :=
  (exists t r st, success t r st /\ served t = x) /\
  forall t r st, success t r st ->
    validator (response st) = ""%string \/ v = ""%string \/ validator (response st) = v -> served t = x.

Lemma probe_represents t r st :
  honest -> detectable -> success t r st -> represents (validator (response st)) (served t).
Proof.
  intros Hh Hd Hs. split; [by exists t, r, st|]. intros t' r' st' Hs' Hv.
  destruct (decide (validator (response st) = ""%string)) as [He|He]; [by eapply Hd|].
  destruct (decide (validator (response st') = ""%string)) as [He'|He'].
  { symmetry. by eapply Hd. }
  eapply (honest_strong Hh); [exact Hs|exact Hs'|done|]. by destruct Hv as [?|[?|?]].
Qed.

(** The staged file holds the first [n] bytes of the representation [x]. *)
Definition staged_at (x : bytes) (n : Z) (c : Core) : Prop :=
  safe c /\ 0 <= n <= len x /\ c_bytes c = n /\
  c_partial c = Some (take (Z.to_nat n) x) /\
  (0 < c_total c -> c_total c = len x).

(** The failures of the engine: the target is as before and the fuel was not the reason. *)
Definition honest_failure (f : Failure) : Prop := error_type f <> FUEL.
Abbreviation failed := (fun f s => safe (core s) /\ honest_failure f).

Lemma wp_failing_as {A} kind p n (m : M string A) Q s :
  kind <> FUEL -> wp m Q (fun _ s => safe (core s)) s -> wp (failing kind p n m) Q failed s.
Proof. intros Hk Hm. apply wp_mapping. eapply wp_mono; [exact Hm|auto..]. Qed.

(** A fallible call to the outside that keeps the core. *)
Lemma wp_outside {A B} (P : Core -> Prop) kind p n (m : M string A) (k : A -> M Failure B) Q s :
  quiet m -> kind <> FUEL -> P (core s) -> (forall c, P c -> safe c) ->
  (forall a s', P (core s') -> wp (k a) Q failed s') -> wp (bind (failing kind p n m) k) Q failed s.
Proof.
  intros Hq Hkind HP Hsafe Hk. apply wp_bind, wp_failing_as; [done|]. apply (wp_keep _ P); [done|done|done|].
  intros e s' Hs'. by apply Hsafe.
Qed.

Lemma staged_safe x n c : staged_at x n c -> safe c.
Proof. by intros []. Qed.

Lemma status_failure_honest r n t : honest_failure (status_failure r (policy options) n t).
Proof.
  unfold honest_failure, status_failure. cbn [error_type]. destruct (status r =? 429); [done|].
  case_bool_decide; [done|]. by destruct (retryable (status r)).
Qed.

Lemma wp_draw {E A} (P : Core -> Prop) delay (k : Z -> M E A) Q R s :
  P (core s) -> (forall d s', P (core s') -> wp (k d) Q R s') ->
  wp (bind (draw_delay delay (policy options)) k) Q R s.
Proof. intros HP Hk. apply wp_bind, wp_bind. unfold next_tick, wp at 1. by apply wp_ret, Hk. Qed.

Lemma wp_refused r e n (P : Core -> Prop) (R : Failure -> Engine -> Prop) s :
  P (core s) -> wp (refused options r e n) (fun f s' => P (core s') /\ honest_failure f) R s.
Proof.
  intros HP. apply wp_bind. unfold next_tick, wp at 1. apply wp_ret.
  split; [done|]. apply (status_failure_honest r n).
Qed.

(** A checkpoint never fails, whatever its calls do. *)
Lemma wp_checkpoint {E} (P : Core -> Prop) b (Q : unit -> Engine -> Prop) (R : E -> Engine -> Prop) s :
  P (core s) -> (forall s', P (core s') -> Q tt s') -> wp (checkpoint b) Q R s.
Proof.
  intros HP HQ. unfold checkpoint. apply wp_bind, wp_gets. case_bool; [by apply wp_ret, HQ|].
  apply wp_bind, wp_bind. unfold next_tick, wp at 1. apply wp_ret. case_bool; [by apply wp_ret, HQ|].
  apply wp_bind, wp_modify, wp_bind, wp_attempt, (wp_keep _ P); [apply quiet_save|done|..];
    intros ? s' Hs'; by apply wp_ret, HQ.
Qed.

(** *** The probe *)

Definition probed (r : HttpResponse) : Prop :=
  exists t q st, success t q st /\ asks q 0 1 /\ response st = r.

Definition request_for (range v : string) : HttpRequest :=
  mkRequest address (range_headers options range v) (agent options).

Lemma range_kept range v : req_headers (request_for range v) !! "Range"%string = Some range.
Proof.
  assert (forall h name x, eq_ignore_ascii_case "Range" name = false ->
    set_header h name x !! "Range"%string = h !! "Range"%string) as Hother.
  { intros h name x Hn. unfold set_header. rewrite lookup_insert_ne by (intros ->; by vm_compute in Hn).
    destruct (h !! "Range"%string) as [y|] eqn:E; [by apply map_lookup_filter_Some|].
    apply map_lookup_filter_None. by left. }
  unfold request_for, range_headers. cbn [req_headers]. rewrite Hother by reflexivity.
  assert (set_header (opt_headers options) "Range" range !! "Range"%string = Some range) as Hset.
  { unfold set_header. apply lookup_insert_eq. }
  destruct (negb (is_empty v)); [by rewrite Hother by reflexivity|done].
Qed.

Lemma accepted_success t range v st :
  open_stream_at t (request_for range v) = Ok st -> accepted_status (response st) = true ->
  success t (request_for range v) st.
Proof. intros Ho Hok. unfold accepted_status in Hok. split; [done|]. split; [done|]. lia. Qed.

Lemma wp_open range v b (P : Core -> Prop) (Q : HttpStream -> Engine -> Prop) (R : string -> Engine -> Prop) s :
  P (core s) ->
  (forall st t s', open_stream_at t (request_for range v) = Ok st ->
     P (core s') -> Q st s') ->
  (forall e s', P (core s') -> R e s') -> wp (open options address range v b) Q R s.
Proof.
  intros HP HQ HR. unfold open. apply wp_bind, (wp_enter _ _ _ _ P); [done|]. intros s1 H1.
  unfold open_stream. apply wp_bind. unfold next_tick, wp at 1.
  destruct (open_stream_at _ _) eqn:Ho; [apply wp_ret; by eapply HQ|apply wp_throw; by apply HR].
Qed.

Lemma wp_probe_failure n opened (P : Core -> Prop) (R : Failure -> Engine -> Prop) s :
  P (core s) -> wp (probe_failure options n opened) (fun f s' => P (core s') /\ honest_failure f) R s.
Proof. intros HP. unfold probe_failure. destruct opened; [by apply wp_refused|]. by apply wp_ret. Qed.

Lemma wp_probe fuel n delay s :
  attempts_allowed options - n <= Z.of_nat fuel -> 0 < Z.of_nat fuel -> safe (core s) ->
  wp (probe options address fuel n delay) (fun p s' => safe (core s') /\ probed p.1) failed s.
Proof.
  revert n delay s. induction fuel as [|fuel IH]; intros n delay s Hn Hpos Hs; [lia|]. cbn [probe].
  apply (wp_outside safe); [apply quiet_check|done|done|done|]. clear s Hs. intros _ s Hs.
  assert (forall opened s, safe (core s) ->
    wp (do f <- probe_failure options (n + 1) opened;
        failing "cancelled" "" (n + 1) check;;
        if (attempts_allowed options <=? n + 1) || ((0 <? http_status f) && negb (retryable (http_status f)))
        then throw f
        else
          failing "cancelled" "" (n + 1) (wait (retry_delay f delay));;
          do d <- draw_delay delay (policy options); probe options address fuel (n + 1) d)
      (fun p s' => safe (core s') /\ probed p.1) failed s) as Hagain.
  { clear s Hs. intros opened s Hs. apply wp_bind. eapply wp_mono; [by apply (wp_probe_failure _ _ safe failed)| |auto].
    intros f s1 [H1 Hf].
    apply (wp_outside safe); [apply quiet_check|done|done|done|]. intros _ s2 H2.
    destruct (Z.leb_spec (attempts_allowed options) (n + 1)); simpl; [by apply wp_throw|].
    destruct (_ && _); [by apply wp_throw|].
    apply (wp_outside safe); [apply quiet_wait|done|done|done|]. intros _ s3 H3.
    apply (wp_draw safe); [done|]. intros d s4 H4. apply IH; [lia|lia|done]. }
  apply wp_bind, wp_attempt, (wp_open _ _ _ safe); [done|..].
  - intros st t s1 Ho H1. destruct (accepted_status (response st)) eqn:Eok; [|by apply Hagain].
    apply wp_ret. split; [done|]. exists t, (request_for "bytes=0-1" ""), st.
    split; [by apply accepted_success|]. split; [apply range_kept|done].
  - intros e s1 H1. by apply Hagain.
Qed.

(** *** The staged file in one chunk *)

Lemma wp_rewind_to n f Q R s :
  c_partial (core s) = Some f -> 0 <= n <= len f ->
  (forall s', core s' = mkCore (c_target (core s)) (Some (take (Z.to_nat n) f)) (c_validator (core s)) n
     (c_total (core s)) (c_promoted (core s)) (c_restored (core s)) -> Q tt s') ->
  (forall e s', c_target (core s') = c_target (core s) -> c_promoted (core s') = c_promoted (core s) -> R e s') ->
  wp (rewind n) Q R s.
Proof.
  intros Hp Hn HQ HR. unfold rewind. apply wp_bind, (wp_resize n f); [done| |intros e s' Es; apply HR; by rewrite Es].
  intros s' Hs'. apply wp_bind. apply wp_quiet; [by apply quiet_io| |].
  - intros _ s'' Es. rewrite Hs' in Es. apply (wp_update _ (core_bytes n)); [done|]. intros s3 Hs3.
    apply HQ. rewrite Hs3, Es. unfold core_bytes. simpl. do 2 f_equal.
    rewrite <- (Z2Nat.id n) at 1 by lia. apply set_len_prefix. unfold len in Hn. lia.
  - intros e s'' Es. apply HR; by rewrite Es, Hs'.
Qed.

Lemma wp_restart_core f Q R s :
  c_partial (core s) = Some f ->
  (forall s', core s' = mkCore (c_target (core s)) (Some []) "" 0 (c_total (core s)) (c_promoted (core s))
     (c_restored (core s)) -> Q tt s') ->
  (forall e s', c_target (core s') = c_target (core s) -> c_promoted (core s') = c_promoted (core s) -> R e s') ->
  wp restart Q R s.
Proof.
  intros Hp HQ HR. unfold restart. apply wp_bind, (wp_rewind_to 0 f); [done|unfold len; lia| |done].
  intros s1 H1. apply wp_bind, (wp_update _ (core_validator "")); [done|]. intros s2 H2.
  rewrite H1 in H2. apply wp_quiet; [by apply quiet_io| |].
  - intros [] s3 H3. apply HQ. by rewrite H3, H2.
  - intros e s3 H3. apply HR; by rewrite H3, H2.
Qed.

Lemma wp_read_chunk n notified rcv l f s :
  c_partial (core s) = Some f -> c_bytes (core s) = len f -> safe (core s) ->
  wp (read_chunk options n notified rcv l)
    (fun _ s' => core s' = with_body (core s) (f ++ concat l)) failed s.
Proof.
  remember (core s) as c eqn:Ec. revert f s notified rcv c Ec.
  induction l as [|bs l IH]; intros f s notified rcv c Ec Hp Hb Hs; cbn [read_chunk].
  { apply wp_bind, (wp_enter _ _ _ _ (fun c' => c' = c)); [done|]. intros s' Hs'. apply wp_ret.
    rewrite Hs', app_nil_r. destruct c. unfold with_body. simpl in *. by subst. }
  apply wp_bind, (wp_enter _ _ _ _ (fun c' => c' = c)); [done|]. intros s1 H1.
  apply wp_bind, wp_failing_as; [done|]. apply (wp_write_all bs f); [by rewrite H1| |].
  2: { intros e s' Ht Hpr. rewrite H1 in *. destruct Hs. split; congruence. }
  intros s2 H2. rewrite H1 in H2. apply wp_bind.
  apply (wp_update _ (fun c => core_bytes (c_bytes c + len bs) c)); [done|]. intros s3 H3.
  rewrite H2 in H3. assert (core s3 = with_body c (f ++ bs)) as H3'.
  { rewrite H3. unfold core_bytes, with_body. simpl. f_equal. rewrite Hb. unfold len. rewrite length_app. lia. }
  apply wp_bind. eapply wp_mono; [apply (wp_notify _ _ (fun c' => c' = with_body c (f ++ bs)) failed); exact H3'|..]; [|auto].
  intros notified' s4 H4. eapply wp_mono; [apply (IH (f ++ bs) s4 notified' true (with_body c (f ++ bs)))|..].
  - done.
  - done.
  - done.
  - destruct Hs. by split.
  - intros a s' ->. unfold with_body. simpl. by rewrite <- app_assoc.
  - auto.
Qed.

Section chunk.
Variables (v : string) (x : bytes) (s0 total0 : Z).
Hypothesis Hhonest : honest.
Hypothesis Hrep : represents v x.
Hypothesis Hchunk : 1 <= chunk_size.
Hypothesis Hs0 : 0 <= s0 <= len x.
Hypothesis Htotal0 : 0 < total0 -> total0 = len x /\ s0 < total0.

Abbreviation stop := (chunk_end chunk_size s0 total0).

(** Between the attempts at the chunk that starts at [s0]: the file may have been started anew. *)
Definition trying (start : Z) (c : Core) : Prop :=
  staged_at x start c /\ (start = s0 \/ start = 0 /\ s0 < len x) /\ (0 < total0 -> 0 < c_total c).

Definition chunk_ok (r : Chunk) (s : Engine) : Prop :=
  match r with
  | ChunkBroken f => safe (core s) /\ honest_failure f
  | ChunkComplete start full _ _ =>
    safe (core s) /\ exists f, c_partial (core s) = Some f /\ c_bytes (core s) = len f /\
    if full then whole f
    else staged_at x (len f) (core s) /\ s0 < len f /\
         (c_total (core s) <= 0 -> len f - start < chunk_size -> len f = len x)
  end.

Definition chunk_step_ok (r : ChunkStep) (s : Engine) : Prop :=
  match r with
  | ChunkDone c => chunk_ok c s
  | ChunkAgain start _ _ f => trying start (core s) /\ honest_failure f
  end.

Lemma trying_safe start c : trying start c -> safe c.
Proof. by intros [[? _] _]. Qed.

Lemma size_represented : len x < 2 ^ 64.
Proof. destruct Hrep as [(t & _ & _ & _ & <-) _]. apply (honest_size Hhonest). Qed.

Lemma stop_bounds : s0 <= stop < 2 ^ 64.
Proof.
  pose proof size_represented. unfold chunk_end. destruct (Z.ltb_spec 0 total0); [|lia].
  destruct (Htotal0 ltac:(lia)). lia.
Qed.

Lemma wp_chunk_retry n k start pause delay notified f s :
  trying start (core s) -> honest_failure f ->
  wp (chunk_retry options n k start pause delay notified f) chunk_step_ok failed s.
Proof.
  intros Ht Hf. unfold chunk_retry. case_bool; [apply wp_ret; split; [by eapply trying_safe|done]|].
  apply (wp_outside (trying start)); [apply quiet_wait|done|done|apply trying_safe|]. intros _ s1 H1.
  apply (wp_draw (trying start)); [done|]. intros d s2 H2. by apply wp_ret.
Qed.

(** An incomplete chunk is cut off again. *)
Lemma wp_roll_back n k start delay notified m g s :
  safe (core s) -> c_partial (core s) = Some (take (Z.to_nat start) x ++ g) ->
  0 <= start <= len x -> (start = s0 \/ start = 0 /\ s0 < len x) ->
  (0 < total0 -> 0 < c_total (core s)) -> (0 < c_total (core s) -> c_total (core s) = len x) ->
  wp (roll_back options n k start delay notified m) chunk_step_ok failed s.
Proof.
  intros [Ht Hpr] Hp Hstart Hcase Hpos Htot. unfold roll_back.
  assert (length (take (Z.to_nat start) x) = Z.to_nat start) as Hlen.
  { rewrite length_take. unfold len in Hstart. lia. }
  apply wp_bind, wp_failing_as; [done|]. eapply wp_rewind_to; [exact Hp| | |].
  { unfold len. rewrite length_app, Hlen. lia. }
  2: { intros e s' Ht' Hpr'. split; congruence. }
  intros s1 H1. rewrite take_app_le, take_take, Nat.min_id in H1 by lia.
  assert (trying start (core s1)) as H1'.
  { rewrite H1. unfold trying, staged_at, DownloadSingle.safe. simpl. split_conj; auto; lia. }
  clear H1. apply wp_bind, wp_gets, wp_bind.
  apply (wp_mono _ (fun _ s' => trying start (core s')) _ failed failed); [by case_bool| |auto].
  intros _ s2 H2. apply wp_bind, wp_attempt, (wp_keep _ (trying start)); [apply quiet_check|done|..].
  - intros _ s3 H3. by apply wp_chunk_retry.
  - intros e s3 H3. apply wp_bind, (wp_checkpoint (trying start)); [done|]. intros s4 H4.
    apply wp_throw. split; [by eapply trying_safe|done].
Qed.

Lemma wp_check_chunk n start r (P : Core -> Prop) s :
  P (core s) -> (forall c, P c -> safe c) ->
  wp (check_chunk n start v r)
    (fun _ s' => P (core s') /\ (validator r = ""%string \/ v = ""%string \/ validator r = v)) failed s.
Proof.
  intros HP Hsafe. unfold check_chunk. destruct (_ && negb (starts_with _ _)); [apply wp_throw; split; [auto|done]|].
  destruct (negb (is_empty (validator r)) && _ && _) eqn:E; [apply wp_throw; split; [auto|done]|].
  apply wp_ret. split; [done|]. rewrite !andb_false_iff, !negb_false_iff, !is_empty_spec, String.eqb_eq in E. tauto.
Qed.

(** A success about the representation of the probe. *)
Definition answer (start : Z) (st : HttpStream) : Prop :=
  exists t r, success t r st /\ served t = x /\ asks r start stop.

(** The length a 200 announces. *)
Lemma announced_length start st :
  answer start st -> status (response st) = 200 -> 0 < content_length (response st) ->
  content_length (response st) = len x.
Proof.
  intros (t & r & Hs & Ht & _) H200. unfold content_length.
  destruct (honest_length Hhonest _ _ _ Hs H200) as [->| ->]; [done|]. rewrite Ht.
  destruct (parse_i64 (decimal (len x))) eqn:E; [|done]. intros _. simpl.
  by apply parse_decimal in E; [|apply len_nonneg].
Qed.

Lemma wp_accept_chunk n start st s :
  trying start (core s) -> answer start st ->
  wp (accept_chunk n start v (response st))
    (fun start' s' => trying start' (core s') /\
       if status (response st) =? 200 then start' = 0 else start' = start) failed s.
Proof.
  intros Ht Hans. pose proof Hans as (t & r & Hsucc & Hserved & Hask). unfold accept_chunk.
  destruct (Z.eqb_spec (status (response st)) 200) as [H200|]; simpl; [|by apply wp_ret].
  pose proof Ht as [(Hs & Hr & Hb & Hp & Htot) [Hcase Hpos]].
  destruct (Z.ltb_spec 0 start); [|apply wp_ret; split; [done|lia]].
  pose proof (honest_satisfiable Hhonest _ _ _ start stop Hsucc ltac:(pose proof stop_bounds; lia) Hask) as Hlt. rewrite Hserved in Hlt.
  assert (start = s0) as -> by lia.
  apply wp_bind, wp_failing_as; [done|]. eapply wp_restart_core; [done|..].
  2: { intros e s' Ht' Hpr'. destruct Hs. split; congruence. }
  intros s1 H1. apply wp_bind, (wp_update _ (core_validator v)); [done|]. intros s2 H2. apply wp_bind.
  pose proof (announced_length _ _ Hans H200) as Hlength.
  assert (forall c, c = core_validator v (core s1) \/
      (0 < content_length (response st) /\ c = core_total (content_length (response st)) (core_validator v (core s1))) ->
    trying 0 c) as Hfresh.
  { rewrite H1. destruct Hs. unfold trying, staged_at, DownloadSingle.safe.
    intros c [->|[Hc ->]]; simpl; split_conj; auto; lia. }
  case_bool.
  - apply (wp_update _ (core_total (content_length (response st)))); [done|]. intros s3 H3.
    apply wp_ret. split; [|done]. apply Hfresh. right. split; [lia|]. by rewrite H3, H2.
  - apply wp_ret, wp_ret. split; [|done]. apply Hfresh. left. by rewrite H2.
Qed.

Lemma trying_bounds start c : trying start c -> 0 <= start <= stop /\ start <= len x /\ start <= s0.
Proof. intros [(_ & Hr & _) [Hcase _]]. pose proof stop_bounds. lia. Qed.

(** The ranges put together. *)
Lemma range_staged start :
  0 <= start <= stop -> start <= len x ->
  take (Z.to_nat start) x ++ take (Z.to_nat (stop + 1 - start)) (drop (Z.to_nat start) x)
  = take (Z.to_nat (stop + 1)) x.
Proof. intros Hs Hn. rewrite take_take_drop. f_equal. lia. Qed.

Lemma range_complete start c f :
  trying start c -> f = take (Z.to_nat (stop + 1)) x -> start < len f ->
  staged_at x (len f) (with_body c f) /\ s0 < len f /\
  (c_total c <= 0 -> len f - start < chunk_size -> len f = len x).
Proof.
  intros Ht Hf Hlt. pose proof (trying_bounds _ _ Ht) as (Hb & Hn & Hle). pose proof stop_bounds as Hstop.
  pose proof Ht as [(Hs & _ & _ & _ & Htot) [Hcase Hpos]].
  assert (len f = Z.min (stop + 1) (len x)) as Hlen.
  { rewrite Hf. unfold len. rewrite length_take. lia. }
  split_conj; [|lia|].
  - unfold staged_at. destruct Hs. cbn. split_conj; [by split|unfold len in *; lia|unfold len in *; lia|done| |done].
    f_equal. unfold len. rewrite Nat2Z.id, Hf, length_take, <- take_take. by rewrite firstn_all.
  - intros Hc Hshort. unfold chunk_end in *. destruct (Z.ltb_spec 0 total0); [lia|].
    pose proof size_represented. lia.
Qed.

Lemma wp_finish_chunk n k start first delay notified st c s :
  trying start c -> answer first st ->
  (if status (response st) =? 200 then start = 0 else start = first) ->
  core s = with_body c (take (Z.to_nat start) x ++ body st) ->
  wp (finish_chunk options n k start stop delay notified st) chunk_step_ok failed s.
Proof.
  intros Ht (t & r & Hsucc & Hserved & Hask) Hfirst Hcore. pose proof (trying_bounds _ _ Ht) as (Hb & Hn & Hle).
  assert (forall m, wp (roll_back options n k start delay notified m) chunk_step_ok failed s) as Hroll.
  { intros m. pose proof Ht as [(Hs & _ & _ & _ & Htot) [Hcase Hpos]].
    apply (wp_roll_back _ _ _ _ _ _ (body st)); rewrite ?Hcore; cbn; auto. lia. }
  unfold finish_chunk. apply wp_bind, wp_gets.
  change (cp_bytes (state (file s))) with (c_bytes (core s)). rewrite Hcore. cbn [c_bytes with_body].
  destruct (ended st) as [[]|e] eqn:He; [|apply Hroll].
  destruct (_ && _); [apply Hroll|]. destruct (Z.ltb_spec 0 (len (take (Z.to_nat start) x ++ body st) - start)) as [Hw|]; [|apply Hroll].
  apply wp_ret. set (f := take (Z.to_nat start) x ++ body st) in *.
  cbn [chunk_step_ok chunk_ok]. rewrite Hcore. split; [by destruct Ht as [([] & _) _]|].
  exists f. split_conj; [done|done|]. destruct (Z.eqb_spec (status (response st)) 200) as [H200|H200].
  - exists t, r, st. split; [done|]. rewrite <- (honest_complete Hhonest _ _ _ Hsucc H200 He). unfold f. by rewrite Hfirst.
  - apply (range_complete start c f); [done| |lia].
    unfold f. rewrite (honest_range Hhonest _ _ _ start stop Hsucc); [|lia|by rewrite Hfirst|by destruct Hsucc as (_ & _ & [?|?])|done].
    rewrite Hserved. by apply range_staged.
Qed.

Lemma wp_chunk_attempt n k start delay notified b s :
  trying start (core s) ->
  wp (chunk_attempt options address v n k start stop delay notified b) chunk_step_ok failed s.
Proof.
  intros Ht. unfold chunk_attempt. pose proof (trying_safe start) as Hsafe.
  apply (wp_outside (trying start)); [apply quiet_check|done|done|done|]. clear s Ht. intros _ s Ht.
  apply wp_bind, wp_attempt, (wp_open _ _ _ (trying start)); [done|..].
  2: { intros e s1 H1. unfold chunk_unopened.
       apply (wp_outside (trying start)); [apply quiet_check|done|done|done|]. intros _ s2 H2.
       by apply wp_chunk_retry. }
  intros st t s1 Ho H1. destruct (negb (accepted_status (response st))) eqn:Eok.
  { unfold chunk_refused. apply wp_bind. eapply wp_mono; [by apply (wp_refused _ _ _ (trying start) failed)| |auto].
    intros f s2 [H2 Hf]. case_bool; [apply wp_ret; split; auto|]. by apply wp_chunk_retry. }
  apply negb_false_iff in Eok. apply wp_bind.
  pose proof (accepted_success _ _ _ _ Ho Eok) as Hsucc.
  eapply wp_mono; [by apply (wp_check_chunk _ _ _ (trying start))| |auto]. intros _ s2 [H2 Hval].
  assert (answer start st) as Hans.
  { do 2 eexists. split; [exact Hsucc|]. split; [by apply (proj2 Hrep _ _ _ Hsucc)|apply range_kept]. }
  apply wp_bind. eapply wp_mono; [by apply wp_accept_chunk| |auto]. intros start' s3 [H3 Hstart].
  pose proof H3 as [(Hs3 & Hr3 & Hb3 & Hp3 & _) _]. apply wp_bind.
  eapply wp_mono; [apply wp_read_chunk; [exact Hp3| |done]| |auto].
  { rewrite Hb3. unfold len. rewrite length_take. unfold len in Hr3. lia. }
  intros notified' s4 H4. by eapply wp_finish_chunk.
Qed.

Lemma wp_chunk_attempts l k start delay notified b f s :
  trying start (core s) -> honest_failure f ->
  wp (chunk_attempts options address v l k start stop delay notified b f) chunk_ok failed s.
Proof.
  revert k start delay notified f s. induction l as [|n l IH]; intros k start delay notified f s Ht Hf;
    cbn [chunk_attempts].
  { apply wp_ret. split; [by eapply trying_safe|done]. }
  apply wp_bind. eapply wp_mono; [by apply wp_chunk_attempt| |auto].
  intros [c|start' delay' notified' f'] s' Hs'; [by apply wp_ret|]. destruct Hs'. by apply IH.
Qed.
End chunk.

(** *** The whole transfer *)

(** The staged file is whole. *)
Definition complete (c : Core) : Prop :=
  safe c /\ exists f, c_partial c = Some f /\ c_bytes c = len f /\ whole f.

Lemma represents_whole v x : represents v x -> whole x.
Proof. intros [(t & r & st & Hs & <-) _]. by exists t, r, st. Qed.

Lemma staged_complete v x c : represents v x -> staged_at x (len x) c -> complete c.
Proof.
  intros Hr (Hs & _ & Hb & Hp & _). split; [done|]. exists x. split_conj; [|done|by eapply represents_whole].
  rewrite Hp. f_equal. unfold len. by rewrite Nat2Z.id, firstn_all.
Qed.

Lemma wp_chunk_loop v x fuel k notified b s :
  honest -> represents v x -> 1 <= chunk_size ->
  staged_at x (c_bytes (core s)) (core s) -> len x - c_bytes (core s) < Z.of_nat fuel ->
  wp (chunk_loop options address chunk_size v fuel k notified b) (fun _ s' => complete (core s')) failed s.
Proof.
  intros Hh Hv Hc. revert k notified b s. induction fuel as [|fuel IH]; intros k notified b s Hs Hfuel;
    cbn [chunk_loop]; apply wp_bind, wp_gets;
    change (cp_total (state (file s))) with (c_total (core s));
    change (cp_bytes (state (file s))) with (c_bytes (core s));
    pose proof Hs as (Hsafe & Hr & _ & _ & Htot).
  { lia. }
  destruct ((c_total (core s) <=? 0) || (c_bytes (core s) <? c_total (core s))) eqn:E.
  2: { apply wp_ret, (staged_complete v x); [done|]. by replace (len x) with (c_bytes (core s)) by lia. }
  apply wp_bind. eapply wp_mono;
    [apply (wp_chunk_attempts v x (c_bytes (core s)) (c_total (core s))); auto; [lia| |done]| |auto].
  { split; [done|]. by split; [left|]. }
  intros [start full k' notified'|f] s1 H1; cbn [chunk_ok] in H1.
  2: { apply wp_bind, (wp_checkpoint safe); [by destruct H1|]. intros s2 H2. apply wp_throw. by destruct H1. }
  apply wp_bind, (wp_checkpoint (fun c => c = core s1)); [done|]. intros s2 H2. apply wp_bind, wp_gets.
  change (cp_total (state (file s2))) with (c_total (core s2)).
  change (cp_bytes (state (file s2))) with (c_bytes (core s2)). rewrite <- H2 in H1. clear H2.
  destruct H1 as (Hs2 & f & Hp & Hb & Hf). destruct full; cbn [orb]; [by apply wp_ret; split; eauto|].
  destruct Hf as (Hst & Hlt & Hshort). rewrite Hb.
  destruct (_ && _) eqn:E2; [|apply IH; rewrite Hb; [done|lia]].
  apply wp_ret, (staged_complete v x); [done|]. by rewrite <- Hshort by lia.
Qed.

Lemma wp_settle_restored v x total s f :
  safe (core s) -> c_partial (core s) = Some f -> c_bytes (core s) = len f ->
  (c_restored (core s) = true -> c_validator (core s) = v -> f `prefix_of` x) ->
  (c_restored (core s) = false -> f = []) -> (0 < total -> total = len x) ->
  wp (settle_restored v total) (fun _ s' => staged_at x (c_bytes (core s')) (core s')) failed s.
Proof.
  intros Hs Hp Hb Hpre Hfresh Htot. unfold settle_restored. apply wp_bind, wp_gets. apply wp_bind.
  change (restored (file s)) with (c_restored (core s)).
  change (cp_validator (state (file s))) with (c_validator (core s)).
  change (cp_total (state (file s))) with (c_total (core s)).
  apply (wp_mono _ (fun _ s' => safe (core s') /\ exists g, c_partial (core s') = Some g /\
    c_bytes (core s') = len g /\ g `prefix_of` x) _ failed failed); [| |auto].
  - destruct (_ && _) eqn:E.
    + apply wp_failing_as; [done|]. eapply wp_restart_core; [done|..].
      * intros s' ->. destruct Hs. split; [by split|]. exists []. split_conj; [done|done|apply prefix_nil].
      * intros e s' Ht Hpr. destruct Hs. split; congruence.
    + apply wp_ret. split; [done|]. exists f. split_conj; [done|done|].
      destruct (c_restored (core s)); [|rewrite Hfresh by done; apply prefix_nil].
      apply Hpre; [done|]. apply orb_false_iff in E as [E _]. by apply negb_false_iff, String.eqb_eq in E.
  - intros _ s1 (Hs1 & g & Hg & Hgb & [k Hk]). apply wp_bind, (wp_update _ (core_validator v)); [done|].
    intros s2 H2. apply (wp_update _ (core_total total)); [done|]. intros s3 ->. rewrite H2.
    destruct Hs1. unfold staged_at. cbn. rewrite Hgb, Hk.
    split; [by split|]. split; [unfold len; rewrite length_app; lia|]. split; [done|].
    split; [|by rewrite <- Hk]. unfold len. by rewrite Nat2Z.id, take_app_length.
Qed.

Lemma wp_transfer_chunks v x total fuel k f s :
  honest -> represents v x -> 1 <= chunk_size -> len x < Z.of_nat fuel ->
  safe (core s) -> c_partial (core s) = Some f -> c_bytes (core s) = len f ->
  (c_restored (core s) = true -> c_validator (core s) = v -> f `prefix_of` x) ->
  (c_restored (core s) = false -> f = []) -> (0 < total -> total = len x) ->
  wp (transfer options address chunk_size v total fuel k)
    (fun ok s' => exists f, c_target (core s') = Some f /\ whole f /\ size ok = len f) failed s.
Proof.
  intros Hh Hv Hc Hfuel Hs Hp Hb Hpre Hfresh Htot. unfold transfer.
  apply wp_bind. eapply wp_mono; [by apply (wp_settle_restored v x total s f)| |auto]. intros u s1 H1.
  cbv beta in H1. clear u.
  apply wp_bind, wp_gets. do 2 apply wp_bind, wp_modify.
  match goal with |- wp _ _ _ ?s' => assert (core s' = core s1) as H2 by done; set (s2 := s') in * end.
  apply wp_bind. rewrite <- H2 in H1. clearbody s2.
  eapply wp_mono; [apply (wp_chunk_loop v x); auto| |auto]. { destruct H1 as (_ & ? & _). lia. }
  intros k' s3 (Hs3 & g & Hg & Hgb & Hw). apply wp_bind, wp_gets. case_bool; [by apply wp_throw|].
  apply wp_bind, wp_failing_as; [done|]. eapply wp_mono; [by apply (wp_publish found g)| |auto].
  intros _ s4 (Ht & _). apply wp_bind, wp_modify, wp_ret. exists g. by split_conj.
Qed.

(** Nothing touches the directory before the staged file is opened. *)
Definition still {E A} (m : M E A) : Prop := forall s, disk (m s).2 = disk s.

Lemma still_bind {E A B} (m : M E A) (k : A -> M E B) :
  still m -> (forall a, still (k a)) -> still (bind m k).
Proof.
  intros Hm Hk s. specialize (Hm s). unfold bind. destruct (m s) as [[a|e] s']; simpl in *; [|done].
  by rewrite Hk.
Qed.
Lemma still_attempt {E F A} (m : M E A) : still m -> still (attempt (F := F) m).
Proof. intros Hm s. specialize (Hm s). unfold attempt. by destruct (m s) as [[a|e] s']. Qed.
Lemma still_failing {A} kind p n (m : M string A) : still m -> still (failing kind p n m).
Proof. intros Hm s. specialize (Hm s). unfold failing, mapping. by destruct (m s) as [[a|e] s']. Qed.
Lemma still_check : still check.
Proof. apply still_bind; [done|]. intros t. by destruct (check_at t). Qed.
Lemma still_wait ns : still (wait ns).
Proof. apply still_bind; [done|]. intros t. by destruct (wait_at t ns). Qed.
Lemma still_open range v b : still (open options address range v b).
Proof.
  apply still_bind; [unfold enter; by destruct (budget options)|]. intros _.
  apply still_bind; [done|]. intros t. by destruct (open_stream_at _ _).
Qed.

Lemma still_probe fuel n delay : still (probe options address fuel n delay).
Proof.
  revert n delay. induction fuel as [|fuel IH]; intros n delay; cbn [probe]; [done|].
  apply still_bind; [apply still_failing, still_check|]. intros _.
  apply still_bind; [apply still_attempt, still_open|]. intros opened.
  case_match; [done|]. apply still_bind; [by destruct opened|]. intros f.
  apply still_bind; [apply still_failing, still_check|]. intros _. case_bool; [done|].
  apply still_bind; [apply still_failing, still_wait|]. intros _. by apply still_bind.
Qed.

(** The number at the end of a Content-Range. *)
Lemma scanned_decimal n : 0 < n -> scanned (decimal n) = decimal n.
Proof.
  intros Hn. destruct (decimal_digits n Hn) as (l & Hl & Hne & Hd & _). unfold scanned, trim_start.
  rewrite Hl. destruct l as [|a l]; [done|]. rewrite Forall_cons in Hd. destruct Hd as [Ha Hd].
  rewrite trim_list_solid, chars_unchars by by apply solid_digit.
  destruct (digit_unsigned a Ha) as [-> ->]. cbn [orb]. rewrite <- (unchars_chars (decimal n)), Hl.
  f_equal. assert (Forall is_digit (a :: l)) as Hal by by constructor. clear -Hal.
  induction Hal as [|b m Hb Hm IH]; [done|]. simpl. rewrite bool_decide_true by done. by rewrite IH.
Qed.

(** A total size that the probe announces is that of the representation. *)
Lemma total_of_answer t r st :
  honest -> success t r st -> asks r 0 1 -> 0 < total_length (response st) ->
  total_length (response st) = len (served t).
Proof.
  intros Hh Hs Hask. unfold total_length. pose proof Hs as (_ & _ & Hst).
  destruct (Z.eqb_spec (status (response st)) 200) as [H200|H200].
  - rewrite (honest_unranged Hh _ _ _ Hs H200). cbn [rsplit_once chars rsplit_list]. unfold content_length.
    destruct (honest_length Hh _ _ _ Hs H200) as [->| ->]; [done|].
    destruct (parse_i64 (decimal (len (served t)))) eqn:E; [|done]. intros _. simpl.
    by apply parse_decimal in E; [|apply len_nonneg].
  - destruct (honest_content_range Hh _ _ _ 0 1 Hs ltac:(lia) Hask ltac:(lia)) as (stop & size & -> & Hsize).
    unfold rsplit_once. rewrite !chars_app, !app_assoc, <- app_assoc.
    change (chars "/" ++ chars size) with (ascii_of_nat 47 :: chars size).
    rewrite rsplit_list_app, unchars_chars.
    + destruct Hsize as [->| ->]; [done|]. destruct (Z.eq_dec (len (served t)) 0) as [->|Hn]; [done|].
      pose proof (len_nonneg (served t)). rewrite scanned_decimal by lia.
      destruct (parse_i64 (decimal (len (served t)))) eqn:E; [|done]. intros _.
      by apply parse_decimal in E.
    + destruct Hsize as [->| ->]; [|by apply decimal_no_slash, len_nonneg].
      change (chars "*") with [ascii_of_nat 42]. by intros [=]%list_elem_of_singleton.
Qed.

(** What a checkpoint left by an earlier run must say of the staged file: that it begins the
    representation its validator names, if that is still served. *)
Definition consistent_checkpoint (d : Disk) : Prop := forall c, accept_checkpoint fp (saved d) = Some c ->
  exists x, take (Z.to_nat (cp_bytes c)) (default [] (partial d)) `prefix_of` x /\
    (0 < cp_total c -> cp_total c = len x) /\
    forall t r st, success t r st -> validator (response st) = cp_validator c -> served t = x.

(** Opening the staged file restores what its checkpoint names, or nothing. *)
Lemma wp_open_checkpoint b irregular s :
  disk s = found -> (persistent options = true -> consistent_checkpoint found) ->
  wp (open_file fp (persistent options && b && negb (is_empty fp)) irregular)
    (fun _ s' => safe (core s') /\ exists f, c_partial (core s') = Some f /\ c_bytes (core s') = len f /\
       (forall t r st, success t r st -> c_restored (core s') = true ->
          c_validator (core s') = validator (response st) -> f `prefix_of` served t) /\
       (c_restored (core s') = false -> f = []))
    (fun _ s' => target (disk s') = before) s.
Proof.
  intros Hs Hdisk.
  set (resuming := mkOptions ∅ "" true true (policy options) false).
  set (keep := persistent options && b && negb (is_empty fp)).
  assert (exists content, keep = true -> consistent_disk fp content found /\
    forall t r st c, accept_checkpoint fp (saved found) = Some c -> success t r st ->
      validator (response st) = cp_validator c -> content (cp_validator c) = served t) as [content Hc].
  { destruct keep eqn:Ek; [|by exists (fun _ => [])]. unfold keep in Ek. rewrite !andb_true_iff in Ek.
    specialize (Hdisk ltac:(tauto)). unfold consistent_checkpoint in Hdisk. unfold consistent_disk.
    destruct (accept_checkpoint fp (saved found)) as [c|]; [|exists (fun _ => []); by split].
    destruct (Hdisk c eq_refl) as (x & Hpre & Htot & Hx). exists (fun _ => x). intros _.
    split; [by intros c' [= <-]|]. intros t r st c' [= <-] Hsu Hv. symmetry. by eapply Hx. }
  eapply wp_mono; [apply (wp_open_file resuming address fp content found)|..]; [done|done| | |auto].
  { rewrite Hs. intros Hk. by apply Hc. }
  intros u s2 ([Hs2 (f & (Hp & Hb & _) & _)] & Hrest & Hfrom & Hfresh). split; [done|]. exists f.
  split_conj; [done|done| |].
  - intros t r st Hsu Hr Hv. destruct (Hrest Hr) as (_ & _ & Hpre). destruct (Hfrom Hr) as (Hk & c & Hacc & Hcv).
    rewrite <- Hcv in Hpre, Hv. rewrite <- (proj2 (Hc Hk) _ _ _ _ Hacc Hsu (eq_sym Hv)). by apply Hpre.
  - intros Hn. apply Hfresh in Hn. rewrite Hb in Hn. unfold len in Hn. destruct f; [done|]. simpl in Hn. lia.
Qed.

End integrity.

(** ** A server of four bytes in ranges of two that breaks one of them *)

Definition range_text (r : HttpRequest) : string := default ""%string (req_headers r !! "Range"%string).

Definition range_server (t : nat) (r : HttpRequest) : HttpStream :=
  let partial_of (range : string) := mkResponse 206 {["Content-Range" := [range]; "Etag" := ["v1"]]}%string in
  if bool_decide (range_text r = "bytes=0-1"%string) then mkStream (partial_of "bytes 0-1/4"%string) [[11; 22]] (Ok tt)
  else if bool_decide (range_text r = "bytes=2-3"%string) then
    if Nat.ltb t 18 then mkStream (partial_of "bytes 2-3/4"%string) [[33]] (Err "reset"%string)
    else mkStream (partial_of "bytes 2-3/4"%string) [[33]; [44]] (Ok tt)
  else mkStream (mkResponse 416 ∅) [] (Ok tt).

Definition range_world : World := world_of range_server.

Definition ranged_options : DownloadOptions := mkOptions ∅ "agent" true false default_policy false.

Definition four_at (t : nat) : bytes := four.

(** The numbers of a range of one digit each. *)
Lemma range_numbers start stop a b :
  ("bytes=" ++ decimal start ++ "-" ++ decimal stop = "bytes=" ++ unchars [a] ++ "-" ++ unchars [b])%string ->
  a <> ascii_of_nat 45 -> b <> ascii_of_nat 45 -> decimal start = unchars [a] /\ decimal stop = unchars [b].
Proof.
  intros E Ha Hb. apply (f_equal chars) in E. rewrite !chars_app, !chars_unchars in E. simpl in E.
  injection E as E. rewrite <- (unchars_chars (decimal start)), <- (unchars_chars (decimal stop)).
  assert (forall l m, l ++ ascii_of_nat 45 :: m = [a; ascii_of_nat 45; b] -> l = [a] /\ m = [b]) as Hsplit.
  { intros [|x [|y [|z [|w l]]]] m; simpl; intros El; injection El; intros; subst; done. }
  by destruct (Hsplit _ _ E) as [-> ->].
Qed.

Abbreviation song := "https://host/song.flac"%string.

(** The two ranges the server knows. *)
Lemma range_server_cases t r st first last :
  @success range_world song t r st ->
  status (response st) = 206 /\ validator (response st) = "v1"%string /\
  (asks r first last ->
    (first = 0 /\ last = 1 /\ header (response st) "Content-Range" = "bytes 0-1/4"%string /\ body st = [11; 22]) \/
    (first = 2 /\ last = 3 /\ header (response st) "Content-Range" = "bytes 2-3/4"%string /\
     (ended st = Ok tt -> body st = [33; 44])) \/ first < 0 \/ last < 0).
Proof.
  intros (_ & [= <-] & Hst). unfold range_server in *. unfold asks, range_text in *. destruct (bool_decide _) eqn:E1.
  - split_conj; [done|by vm_compute|]. intros Hask. apply bool_decide_eq_true in E1. rewrite Hask in E1.
    destruct (range_numbers first last (ascii_of_nat 48) (ascii_of_nat 49) E1) as [H0 H1]; [done..|].
    destruct (decide (0 <= first /\ 0 <= last)) as [[Hf Hl]|]; [|lia].
    apply (decimal_inj _ 0) in H0; [|lia|lia]. apply (decimal_inj _ 1) in H1; [|lia|lia]. by left.
  - destruct (bool_decide (_ = "bytes=2-3"%string)) eqn:E2; [|simpl in Hst; lia].
    apply bool_decide_eq_true in E2.
    assert (forall st, st = (if Nat.ltb t 18 then mkStream (mkResponse 206 {["Content-Range" := ["bytes 2-3/4"]; "Etag" := ["v1"]]}%string) [[33]] (Err "reset"%string)
      else mkStream (mkResponse 206 {["Content-Range" := ["bytes 2-3/4"]; "Etag" := ["v1"]]}%string) [[33]; [44]] (Ok tt)) ->
      status (response st) = 206 /\ validator (response st) = "v1"%string /\
      header (response st) "Content-Range" = "bytes 2-3/4"%string /\ (ended st = Ok tt -> body st = [33; 44])) as Hall.
    { intros st ->. destruct (Nat.ltb t 18); split_conj; try done; by vm_compute. }
    destruct (Hall _ eq_refl) as (H206 & Hv & Hr & Hb). split_conj; [done|done|]. intros Hask.
    rewrite Hask in E2.
    destruct (range_numbers first last (ascii_of_nat 50) (ascii_of_nat 51) E2) as [H0 H1]; [done..|].
    destruct (decide (0 <= first /\ 0 <= last)) as [[Hf Hl]|]; [|lia].
    apply (decimal_inj _ 2) in H0; [|lia|lia]. apply (decimal_inj _ 3) in H1; [|lia|lia]. right. by left.
Qed.

Lemma range_world_honest : @honest range_world song four_at.
Proof.
  split.
  - intros t r st Hs H200. destruct (range_server_cases _ _ _ 0 0 Hs). congruence.
  - intros t r st Hs H200. destruct (range_server_cases _ _ _ 0 0 Hs). congruence.
  - intros t r st Hs H200. destruct (range_server_cases _ _ _ 0 0 Hs). congruence.
  - intros t r st first last Hs Hr Hask _ He.
    destruct (range_server_cases _ _ _ first last Hs) as (_ & _ & Hc).
    destruct (Hc Hask) as [(-> & -> & _ & ->)|[(-> & -> & _ & Hb)|Hneg]]; [done|by rewrite (Hb He)|lia].
  - intros t r st first last Hs Hr Hask _. destruct (range_server_cases _ _ _ first last Hs) as (_ & _ & Hc).
    destruct (Hc Hask) as [(-> & -> & -> & _)|[(-> & -> & -> & _)|Hneg]].
    + exists 1, "4"%string. split; [by vm_compute|by right].
    + exists 3, "4"%string. split; [by vm_compute|by right].
    + lia.
  - intros t r st first last Hs Hpos Hask. destruct (range_server_cases _ _ _ first last Hs) as (_ & _ & Hc).
    change (first < 4). destruct (Hc Hask) as [Hcase|[Hcase|Hneg]]; lia.
  - done.
  - done.
Qed.

Lemma range_world_detectable : @detectable range_world song four_at.
Proof. done. Qed.


(** ** What naming every change is needed for

    Behind this address are two copies of different lengths, of which one names no validator.  The
    second range is answered by the whole unnamed copy, broken off; its length is kept as the total
    when the engine goes back to the named copy, of which it then publishes the first four bytes. *)

Definition six : bytes := [11; 22; 33; 44; 55; 66].

Definition two_copies (t : nat) (r : HttpRequest) : HttpStream :=
  let named (range : string) := mkResponse 206 {["Content-Range" := [range]; "Etag" := ["v1"]]}%string in
  if bool_decide (range_text r = "bytes=0-1"%string) then mkStream (named "bytes 0-1/6"%string) [[11; 22]] (Ok tt)
  else if bool_decide (range_text r = "bytes=0-3"%string) then
    mkStream (named "bytes 0-3/6"%string) [[11; 22; 33; 44]] (Ok tt)
  else mkStream (mkResponse 200 {["Content-Length" := ["4"]]}%string) [[91; 92]] (Err "reset"%string).

Theorem unnamed_total_truncates :
  let run := @download (world_of two_copies) ranged_options song "fp" 2 10 None (fresh (mkDisk None None None)) in
  run.1 = Ok (mkSuccess 4 4 false) /\ target (disk run.2) = Some (take 4 six) /\
  (forall t r, validator (response (two_copies t r)) = "v1"%string -> body (two_copies t r) `prefix_of` six).
Proof.
  cbv zeta. split; [vm_compute; reflexivity|]. split; [vm_compute; reflexivity|].
  intros t r. unfold two_copies. case_bool_decide; [by exists [33; 44; 55; 66]|].
  case_bool_decide; [by exists [55; 66]|done].
Qed.
