(* ===== verification/SegmentStore.v ===== *)
(** * The output of a segmented download: [crates/extensions/src/download/segment_store.rs]

    The staged file that segments are appended to in order, its checkpoint, and the files the segments
    are received in.  The world of [Download] answers the calls; serde's JSON of the checkpoint is
    the class [SegmentJson]. *)

From S2P Require Import Prelude Monads Float64 RustText TransferPolicy Download.

Record SegmentCheckpoint := mkSegmentCheckpoint {
  version : Z; fingerprint : string; next_index : Z; cp_bytes : Z; updated_at : Z }.

Class SegmentJson := {
  encode_segments : SegmentCheckpoint -> bytes;
  decode_segments : bytes -> option SegmentCheckpoint;
  decode_encode_segments c : decode_segments (encode_segments c) = Some c }.

(** The directory entries of one download: the published file, the staged file, the checkpoint, and
    the file of each segment that is being received or waits for its turn. *)
Record Dir := mkDir {
  target : option bytes; staged : option bytes; saved : option bytes; received_files : gmap Z bytes }.

Record SegmentOutput := mkOutput {
  state : SegmentCheckpoint; keep : bool; promoted : bool; saved_bytes : Z; saved_at : Z; count : Z }.

(** What the engine reports, in order. *)
Inductive Notice :=
| Item (e : Event)
| SegmentProgress (received index total : Z).

(** What all threads of the download share: the directory, the output, and the record of what was
    reported; [R] is what the coordination of the workers adds. *)
Record Shared (R : Type) := mkShared {
  tick : nat; dir : Dir; output : SegmentOutput; notices : list Notice; coordination : R }.
Arguments mkShared {R} _ _ _ _ _.
Arguments tick {R} _.
Arguments dir {R} _.
Arguments output {R} _.
Arguments notices {R} _.
Arguments coordination {R} _.

Section store.
Context `{World} `{SegmentJson} {R : Type}.

Abbreviation P := (St (Shared R)).

Definition set_dir (f : Dir -> Dir) (s : Shared R) : Shared R :=
  mkShared (tick s) (f (dir s)) (output s) (notices s) (coordination s).
Definition set_output (f : SegmentOutput -> SegmentOutput) (s : Shared R) : Shared R :=
  mkShared (tick s) (dir s) (f (output s)) (notices s) (coordination s).
Definition set_coordination (f : R -> R) (s : Shared R) : Shared R :=
  mkShared (tick s) (dir s) (output s) (notices s) (f (coordination s)).
Definition tell {E} (n : Notice) : P E unit :=
  modify (fun s => mkShared (tick s) (dir s) (output s) (notices s ++ [n]) (coordination s)).

(** One call to the world. *)
Definition call {E} : P E nat :=
  fun s => (Ok (tick s), mkShared (S (tick s)) (dir s) (output s) (notices s) (coordination s)).
Definition check : P string unit := do t <- call; match check_at t with Ok _ => ret tt | Err e => throw e end.
Definition clock {E} : P E Z := do t <- call; ret (instant_at t).
(** A file system call: it has its effect when it does not fail. *)
Definition io (effect : Dir -> Dir) : P string unit :=
  do t <- call;
  match io_error_at t with Some e => throw e | None => modify (set_dir effect) end.

Definition with_target (f : option bytes) (d : Dir) : Dir := mkDir f (staged d) (saved d) (received_files d).
Definition with_staged (f : option bytes) (d : Dir) : Dir := mkDir (target d) f (saved d) (received_files d).
Definition with_saved (f : option bytes) (d : Dir) : Dir := mkDir (target d) (staged d) f (received_files d).
Definition with_files (f : gmap Z bytes) (d : Dir) : Dir := mkDir (target d) (staged d) (saved d) f.

Definition cut_staged (n : Z) (d : Dir) : Dir := with_staged (set_len n <$> staged d) d.

Definition set_state (f : SegmentCheckpoint -> SegmentCheckpoint) (o : SegmentOutput) : SegmentOutput :=
  mkOutput (f (state o)) (keep o) (promoted o) (saved_bytes o) (saved_at o) (count o).

(** The checkpoint [open] accepts from the bytes of its file. *)
Definition accept_segments (fp : string) (segments : Z) (data : option bytes) : option SegmentCheckpoint :=
  match data with
  | None => None
  | Some data =>
    if 2 ^ 20 <? len data then None
    else match decode_segments data with
         | None => None
         | Some c =>
           if (version c =? 1) && String.eqb (fingerprint c) fp && (next_index c <=? segments)
              && eqb (next_index c =? 0) (cp_bytes c =? 0)
           then Some c else None
         end
  end.

Definition create_staged (d : Dir) : Dir := with_staged (Some (default [] (staged d))) d.

(** [SegmentOutput::open]; [irregular]: a staging path is not a regular file or cannot be inspected.
    A staged file shorter than its checkpoint says loses everything. *)
Definition open_output (fp : string) (segments : Z) (keep : bool) (irregular : option string) : P string unit :=
  match irregular with
  | Some e => throw e
  | None =>
    do st <- (if keep then
                do r <- attempt (E := string) (io (fun d => d));
                do d <- gets dir;
                ret (if is_ok r then accept_segments fp segments (saved d) else None)
              else ret None);
    (if bool_decide (is_Some st) then ret tt else (io (with_staged None);; io (with_saved None)));;
    io create_staged;;
    io (fun d => d);;
    do d <- gets dir;
    let fresh := mkSegmentCheckpoint 0 fp 0 0 0 in
    let c := match st with
             | Some c => if cp_bytes c <=? len (default [] (staged d)) then c else fresh
             | None => fresh
             end in
    (if next_index c =? 0 then io (with_saved None) else ret tt);;
    io (cut_staged (cp_bytes c));;
    io (fun d => d);;
    do t <- clock;
    modify (set_output (fun _ => mkOutput c keep false (cp_bytes c) t segments))
  end.

(** [self.file.write_all] of the staged file. *)
Definition append_staged (bs : bytes) (d : Dir) : Dir := with_staged ((fun l => l ++ bs) <$> staged d) d.
Definition write_staged (bs : bytes) : P string unit :=
  do t <- call;
  match io_error_at t with
  | Some e => modify (set_dir (append_staged (take (partial_write_at t) bs)));; throw e
  | None => modify (set_dir (append_staged bs))
  end.

(** The reads of a file: blocks of 128 KiB. *)
Definition BLOCK : nat := Z.to_nat (128 * 2 ^ 10).
Fixpoint blocks (fuel : nat) (l : bytes) : list bytes :=
  match fuel with
  | O => []
  | S fuel => match l with [] => [] | _ => take BLOCK l :: blocks fuel (drop BLOCK l) end
  end.
Definition blocks_of (l : bytes) : list bytes := blocks (length l) l.

Lemma concat_blocks l : concat (blocks_of l) = l.
Proof.
  assert (0 < BLOCK)%nat as Hb by (unfold BLOCK; rewrite <- Z2Nat.inj_0; by apply Z2Nat.inj_lt).
  assert (forall fuel l, (length l <= fuel)%nat -> concat (blocks fuel l) = l) as Hall; [|by apply Hall].
  clear l. intros fuel. induction fuel as [|fuel IH]; intros l Hl; [by rewrite (nil_length_inv l) by lia|].
  destruct l as [|x l]; [done|].
  change (take BLOCK (x :: l) ++ concat (blocks fuel (drop BLOCK (x :: l))) = x :: l).
  rewrite IH; [apply take_drop|]. rewrite length_drop. rewrite length_cons in *. lia.
Qed.

(** The copying loop: each pass checks, reads and writes; the last read returns nothing. *)
Fixpoint copy_blocks (l : list bytes) : P string unit :=
  check;;
  io (fun d => d);;
  match l with
  | [] => ret tt
  | b :: l => write_staged b;; copy_blocks l
  end.

Definition appended (n : Z) (c : SegmentCheckpoint) : SegmentCheckpoint :=
  mkSegmentCheckpoint (version c) (fingerprint c) (next_index c + 1) (cp_bytes c + n) (updated_at c).

(** [SegmentOutput::append] of the file of segment [index]; what a failure left behind is cut off,
    unless that fails too. *)
Definition append (index size : Z) : P string unit :=
  io (fun d => d);;
  do d <- gets dir;
  let content := default [] (received_files d !! index) in
  do r <- attempt (E := string) (copy_blocks (blocks_of content);;
                   if len content =? size then ret tt else throw "short segment copy"%string);
  match r with
  | Ok _ => modify (set_output (set_state (appended (len content))))
  | Err e =>
    do c <- gets (fun s => state (output s));
    do _ <- attempt (E := string) (io (cut_staged (cp_bytes c)));
    do _ <- attempt (E := string) (io (fun d => d));
    throw e
  end.

Definition stamped (ms : Z) (c : SegmentCheckpoint) : SegmentCheckpoint :=
  mkSegmentCheckpoint 1 (fingerprint c) (next_index c) (cp_bytes c) ms.

(** [save]: syncing the data, then replacing the checkpoint file as a whole. *)
Definition save : P string unit :=
  io (fun d => d);;
  do t <- call;
  modify (set_output (set_state (stamped (system_ms_at t))));;
  do c <- gets (fun s => state (output s));
  io (with_saved (Some (encode_segments c))).

Definition checkpoint {E} (force : bool) : P E unit :=
  do o <- gets output;
  let c := state o in
  if negb (keep o) || (next_index c =? 0) || (cp_bytes c =? 0) then ret tt
  else
    do skip <- (if negb force && (sat_sub (cp_bytes c) (saved_bytes o) <? 8 * 2 ^ 20)
                then do t <- clock; ret (sat_sub t (saved_at o) / 1000000000 <? 5)
                else ret false);
    if skip : bool then ret tt
    else
      do r <- attempt save;
      if is_ok r then
        do t <- clock;
        modify (set_output (fun o => mkOutput (state o) (keep o) (promoted o) (cp_bytes (state o)) t (count o)))
      else ret tt.

Definition publish : P string unit :=
  io (fun d => d);;
  check;;
  io (fun d => mkDir (staged d) None (saved d) (received_files d));;
  modify (set_output (fun o => mkOutput (state o) (keep o) true (saved_bytes o) (saved_at o) (count o)));;
  do _ <- attempt (E := string) (io (with_saved None));
  do _ <- attempt (E := string) (io (fun d => d)); ret tt.

(** The files of segments. *)
Definition remove_file (index : Z) (d : Dir) : Dir := with_files (delete index (received_files d)) d.
Definition drop_segment {E} (index : Z) : P E unit := do _ <- attempt (E := string) (io (remove_file index)); ret tt.

(** [SegmentFile::open]: a leftover of the name is removed, and the file is new. *)
Definition open_segment (index : Z) : P string unit :=
  io (remove_file index);; io (fun d => with_files (<[index := []]> (received_files d)) d).

Definition append_file (index : Z) (bs : bytes) (d : Dir) : Dir :=
  with_files (alter (fun l => l ++ bs) index (received_files d)) d.
Definition write_segment (index : Z) (bs : bytes) : P string unit :=
  do t <- call;
  match io_error_at t with
  | Some e => modify (set_dir (append_file index (take (partial_write_at t) bs)));; throw e
  | None => modify (set_dir (append_file index bs))
  end.

Fixpoint drop_segments {E} (l : list Z) : P E unit :=
  match l with [] => ret tt | i :: l => drop_segment i;; drop_segments l end.

(** The [Drop] of the output. *)
Definition drop_output {E} : P E unit :=
  do o <- gets output;
  drop_segments (seqZ 0 (count o));;
  if promoted o || negb (keep o) then
    do _ <- attempt (E := string) (io (with_saved None));
    if promoted o then ret tt else do _ <- attempt (E := string) (io (with_staged None)); ret tt
  else ret tt.
End store.
