(* ===== verification/Segments.v ===== *)
(** * A download in segments: [crates/extensions/src/download/segments.rs]

    Workers fetch the segments in parallel; the thread of the call hands out the jobs, collects the
    results and appends the segments to the output in order.  The threads run in steps that interleave
    as a schedule says: a step of a worker or of the coordinator is a function of what they share, and
    the world of [Download] answers its calls, each by its own number, so every schedule meets every
    possible behaviour of the network, the file system, the clock and the caller.  A step is at most
    one access of a thread to what the threads share, except that the coordinator appends a segment
    and a worker opens a file or ends a body in one step.

    The channels are bounded queues; the receiver of the jobs behind its mutex is the head of the
    queue for any worker that waits.  A thread that panics is not modelled. *)

From S2P Require Import Prelude Monads Float64 RustText TransferPolicy LinkCodec Download DownloadSingle SegmentStore.

Record Segment := mkSegment { seg_url : string; seg_headers : gmap string string }.

(** A segment that was received: its file holds [c_size] bytes. *)
Record Completed := mkCompleted { c_size : Z; c_attempts : Z }.

(** The coordination: the channels of jobs and results, the number of the next job, the atomics, the
    results that wait for their turn, and the first failure. *)
Record Coordination := mkCoordination {
  jobs : list Z; jobs_open : bool; next_job : Z;
  results : list (Z * result Completed Failure);
  stop : bool; completed : bool; received : Z;
  pending : gmap Z Completed; first_failure : option Failure }.

Definition with_jobs (l : list Z) (c : Coordination) : Coordination :=
  mkCoordination l (jobs_open c) (next_job c) (results c) (stop c) (completed c) (received c) (pending c) (first_failure c).
Definition close_jobs (c : Coordination) : Coordination :=
  mkCoordination (jobs c) false (next_job c) (results c) (stop c) (completed c) (received c) (pending c) (first_failure c).
Definition with_results (l : list (Z * result Completed Failure)) (c : Coordination) : Coordination :=
  mkCoordination (jobs c) (jobs_open c) (next_job c) l (stop c) (completed c) (received c) (pending c) (first_failure c).
Definition set_completed (c : Coordination) : Coordination :=
  mkCoordination (jobs c) (jobs_open c) (next_job c) (results c) (stop c) true (received c) (pending c) (first_failure c).
Definition add_received (n : Z) (c : Coordination) : Coordination :=
  mkCoordination (jobs c) (jobs_open c) (next_job c) (results c) (stop c) (completed c) (wrap_u 64 (received c + n)) (pending c) (first_failure c).
Definition with_pending (m : gmap Z Completed) (c : Coordination) : Coordination :=
  mkCoordination (jobs c) (jobs_open c) (next_job c) (results c) (stop c) (completed c) (received c) m (first_failure c).

(** [first_failure.get_or_insert(f)], stopping the workers and closing the channel of jobs. *)
Definition fail_with (f : Failure) (c : Coordination) : Coordination :=
  mkCoordination (jobs c) false (next_job c) (results c) true (completed c) (received c) (pending c)
    (Some (default f (first_failure c))).

(** Where a worker is: before its check, waiting for a job, or in attempt [n] at a segment. *)
Inductive Worker :=
| Idle
| Receiving
| Starting (index n delay : Z)
| Opening (index n delay : Z)
| Connecting (index n delay : Z) (continuation : bool)
| Reading (index n delay : Z) (stream : HttpStream) (rest : list bytes) (size : Z) (continuation : bool)
| Broken (index n delay : Z) (f : Failure)
| Waiting (index n delay began retry : Z)
| Sending (index : Z) (r : result Completed Failure)
| Done.

(** Where the coordinator is: starting worker [k], checking, waiting for a result, appending what is
    next, or handing out a job. *)
Inductive Coordinator := Spawning (k : nat) | Polling | Draining | Assembling | Releasing | Finished.

Record Sys := mkSys { shared : Shared Coordination; workers : list Worker; coordinator : Coordinator }.

Inductive Actor := TheCoordinator | TheWorker (k : nat).

#[export] Instance Coordinator_eq_dec : EqDecision Coordinator.
Proof. solve_decision. Defined.
#[export] Instance Actor_eq_dec : EqDecision Actor.
Proof. solve_decision. Defined.

Record SegmentsDone := mkSegmentsDone { done_size : Z; done_segments : Z; done_resumed : bool }.

Section segments.
Context `{World} `{SegmentJson}.
Variables (options : DownloadOptions) (segments : list Segment).
(** SHA-256, and the error of starting a thread, if it fails. *)
Variables (sha256 : bytes -> bytes) (spawn_error : nat -> option string).

Abbreviation P := (St (Shared Coordination)).

Definition total : Z := len segments.
Definition max_attempts : Z := attempts_allowed options.
Definition segment_at (i : Z) : Segment := nth (Z.to_nat i) segments (mkSegment "" ∅).

Definition update {E} (f : Coordination -> Coordination) : P E unit := modify (set_coordination f).
Definition look {E A} (f : Coordination -> A) : P E A := gets (fun s => f (coordination s)).
Definition item {E} (e : Event) : P E unit := tell (Item e).
Definition enter {E} (charged : bool) : P E unit := if budget options then item (Enter charged) else ret tt.

(** ** The workers *)

Definition check_worker : P string unit :=
  check;;
  do s <- look stop;
  if s : bool then throw "download cancelled"%string else ret tt.

Definition request (i : Z) : HttpRequest :=
  mkRequest (seg_url (segment_at i)) (seg_headers (segment_at i)) (opt_user_agent options).

Definition ok_status (r : HttpResponse) : bool := (200 <=? status r) && (status r <? 300).

Definition connect {E} (i n delay : Z) (continuation : bool) : P E Worker :=
  enter (negb continuation);;
  do t <- call;
  match open_stream_at t (request i) with
  | Err e => ret (Broken i n delay (failure "transient_network" e n))
  | Ok stream =>
    let r := response stream in
    if ok_status r then ret (Reading i n delay stream (chunks stream) 0 continuation)
    else
      do t <- call;
      let f := status_failure r (policy options) n (system_ms_at t * 1000000) in
      let f := mkFailure ("segment " ++ decimal i ++ " HTTP error: " ++ decimal (status r))
                 (error_type f) (attempts f) (http_status f) (retry_after_seconds f) in
      if negb (retryable (status r)) || (n =? max_attempts)
      then (drop_segment i;; ret (Sending i (Err f)))
      else ret (Broken i n delay f)
  end.

(** The end of a body: a result, or an attempt that failed. *)
Definition end_body {E} (i n delay size : Z) (stream : HttpStream) (ended : result unit string) : P E Worker :=
  let expected := content_length (response stream) in
  let body := match ended with
              | Err e => Err e
              | Ok _ => if (0 <? expected) && negb (size =? expected) then Err "unexpected EOF"%string else Ok tt
              end in
  if is_ok body && (0 <? size) then
    update set_completed;;
    ret (Sending i (Ok (mkCompleted size n)))
  else
    update (add_received (- size));;
    ret (Broken i n delay (failure "transient_network"
           (match body with
            | Err e => "failed to read segment " ++ decimal i ++ ": " ++ e
            | Ok _ => "segment " ++ decimal i ++ " response was empty"
            end)%string n)).

(** One read, its bytes written and counted. *)
Definition read_once {E} (i n delay : Z) (stream : HttpStream) (rest : list bytes) (size : Z)
  (continuation : bool) : P E Worker :=
  let s := status (response stream) in
  enter (negb ((s =? 200) || (s =? 206)) || ((size =? 0) && negb continuation));;
  match rest with
  | [] => end_body i n delay size stream (ended stream)
  | bs :: rest =>
    do w <- attempt (E := string) (write_segment i bs);
    match w with
    | Err e => end_body i n delay size stream (Err e)
    | Ok _ =>
      update (add_received (len bs));;
      do total <- look received;
      item (ItemReport total 0);;
      ret (Reading i n delay stream rest (size + len bs) continuation)
    end
  end.

Definition cancelled (e : string) (n : Z) : Failure := failure "cancelled" e n.

(** After a failed attempt: its file is removed, and another attempt follows unless it was the last. *)
Definition retry_or_send {E} (i n delay : Z) (f : Failure) : P E Worker :=
  drop_segment i;;
  do r <- attempt check_worker;
  let f := match r with Err e => cancelled e n | Ok _ => f end in
  if (n =? max_attempts) || String.eqb (error_type f) "cancelled" then ret (Sending i (Err f))
  else
    enter true;;
    do t <- clock;
    ret (Waiting i n delay t (if 0 <? retry_after_seconds f then retry_after_seconds f * 1000000000 else delay)).

Definition wait_on {E} (i n delay began retry : Z) : P E Worker :=
  do t <- clock;
  if sat_sub t began <? retry then
    do r <- attempt check_worker;
    match r with
    | Err e => ret (Sending i (Err (cancelled e n)))
    | Ok _ => ret (Waiting i n delay began retry)
    end
  else
    do t <- call;
    ret (Starting i (n + 1) (next_delay delay (policy options) (random_u64_at t))).

Definition initial_delay : Z := millis (initial_retry_delay_ms (policy options)).

(** [worker_count] bounds both channels. *)
Definition worker_step {E} (capacity : Z) (w : Worker) : P E Worker :=
  match w with
  | Idle => do r <- attempt check_worker; ret (if is_ok r then Receiving else Done)
  | Receiving =>
    do l <- look jobs;
    match l with
    | i :: l => update (with_jobs l);; ret (Starting i 1 initial_delay)
    | [] => do o <- look jobs_open; ret (if o : bool then Receiving else Done)
    end
  | Starting i n delay =>
    do r <- attempt check_worker;
    ret (match r with Err e => Sending i (Err (cancelled e n)) | Ok _ => Opening i n delay end)
  | Opening i n delay =>
    do r <- attempt (open_segment i);
    match r with
    | Err e => ret (Sending i (Err (failure "storage_error" ("failed to create segment file: " ++ e) n)))
    | Ok _ => do c <- look completed; ret (Connecting i n delay ((n =? 1) && c))
    end
  | Connecting i n delay continuation => connect i n delay continuation
  | Reading i n delay stream rest size continuation => read_once i n delay stream rest size continuation
  | Broken i n delay f => retry_or_send i n delay f
  | Waiting i n delay began retry => wait_on i n delay began retry
  | Sending i r =>
    do l <- look results;
    if len l <? capacity then
      update (with_results (l ++ [(i, r)]));; ret (if is_ok r then Idle else Done)
    else ret (Sending i r)
  | Done => ret Done
  end.

(** ** The coordinator *)

Definition append_failure (i n : Z) (e : string) : Failure :=
  failure "storage_error" ("failed to append segment " ++ decimal i ++ ": " ++ e) n.

(** Appending the segment that is next, if it is there. *)
Definition assemble {E} : P E Coordinator :=
  do i <- gets (fun s => next_index (state (output s)));
  do m <- look pending;
  match m !! i with
  | None => ret Polling
  | Some ready =>
    update (with_pending (delete i m));;
    do r <- attempt (append i (c_size ready));
    match r with
    | Err e =>
      update (fail_with (append_failure i (c_attempts ready) e));;
      drop_segment i;;
      ret Polling
    | Ok _ =>
      checkpoint false;;
      drop_segment i;;
      do next <- gets (fun s => next_index (state (output s)));
      do n <- look received;
      item (ItemSet (f64_div (f64_of next) (f64_of total)) n 0);;
      enter true;;
      tell (SegmentProgress n next total);;
      do o <- look jobs_open;
      ret (if o : bool then Releasing else Assembling)
    end
  end.

(** Sending the next job. *)
Definition release (c : Coordination) : Coordination :=
  let n := next_job c + 1 in
  mkCoordination (jobs c ++ [next_job c]) (negb (n =? total)) n (results c) (stop c) (completed c) (received c)
    (pending c) (first_failure c).

Definition coordinator_step {E} (capacity : Z) (running : bool) (c : Coordinator) : P E Coordinator :=
  match c with
  | Spawning k => ret (Spawning k)
  | Polling =>
    do r <- attempt check;
    (match r with Err e => update (fail_with (cancelled e 0)) | Ok _ => ret tt end);;
    ret Draining
  | Draining =>
    do l <- look results;
    match l with
    | (i, r) :: l =>
      update (with_results l);;
      (match r with
       | Err f => update (fail_with f)
       | Ok ready => do m <- look pending; update (with_pending (<[i := ready]> m))
       end);;
      ret Assembling
    | [] => ret (if running then Polling else Finished)
    end
  | Assembling => assemble
  | Releasing =>
    do l <- look jobs;
    if len l <? capacity then (update release;; ret Assembling) else ret Releasing
  | Finished => ret Finished
  end.

(** ** The steps of the whole system *)

Definition is_done (w : Worker) : bool := match w with Done => true | _ => false end.

(** The state a step that cannot fail leaves. *)
Definition run {A} (m : P Empty_set A) (s : Shared Coordination) : A * Shared Coordination :=
  match m s with
  | (Ok a, s) => (a, s)
  | (Err e, _) => match e : Empty_set with end
  end.

(** Starting worker [k]; after an error no more are started. *)
Definition spawn (capacity : Z) (k : nat) (s : Sys) : Sys :=
  if Z.of_nat k <? capacity then
    match spawn_error k with
    | None => mkSys (shared s) (workers s ++ [Idle]) (Spawning (S k))
    | Some e =>
      mkSys (set_coordination
               (fail_with (failure "storage_error" ("failed to start segment worker: " ++ e) 0)) (shared s))
        (workers s) Polling
    end
  else mkSys (shared s) (workers s) Polling.

Definition step (capacity : Z) (a : Actor) (s : Sys) : Sys :=
  match a with
  | TheWorker k =>
    match workers s !! k with
    | Some w => let '(w, sh) := run (worker_step capacity w) (shared s) in
                mkSys sh (<[k := w]> (workers s)) (coordinator s)
    | None => s
    end
  | TheCoordinator =>
    match coordinator s with
    | Spawning k => spawn capacity k s
    | c => let '(c, sh) := run (coordinator_step capacity (negb (forallb is_done (workers s))) c) (shared s) in
           mkSys sh (workers s) c
    end
  end.

Definition steps (capacity : Z) : list Actor -> Sys -> Sys := fold_left (fun s a => step capacity a s).

(** ** The whole download *)

Definition fingerprint_of : string :=
  bytes_to_str (hex (sha256 (flat_map (fun s => str_bytes (seg_url s) ++ [0]) segments))).

Definition worker_count (next : Z) : Z := Z.min (max_parallel_segments (policy options)) (total - next).

(** The coordination when the threads start: one job for each worker. *)
Definition started (next received : Z) : Coordination :=
  let n := worker_count next in
  mkCoordination (seqZ next n) (next + n <? total) (next + n) [] false false received ∅ None.

(** The end of the transfer, once all segments are there or the threads have ended. *)
Definition finish (restored : bool) : P Failure SegmentsDone :=
  do f <- (if restored then ret None else look first_failure);
  match f with
  | Some f => checkpoint true;; throw f
  | None =>
    do c <- gets (fun s => state (output s));
    if negb (next_index c =? total) || (cp_bytes c =? 0) then
      throw (failure "integrity_failed"
               ("segmented transfer incomplete: assembled " ++ decimal (next_index c) ++ " of " ++ decimal total ++
                " segments") 0)
    else
      mapping (fun e => failure "storage_error" ("failed to publish segmented output: " ++ e) 0) publish;;
      item (ItemSet (f64_of 1) (cp_bytes c) (cp_bytes c));;
      ret (mkSegmentsDone (cp_bytes c) total restored)
  end.

(** The threads run as the schedule says; [None] if it ends before they do. *)
Definition threads (schedule : list Actor) (next received : Z) (s : Shared Coordination)
  : option (Shared Coordination) :=
  let s := steps (worker_count next) schedule
             (mkSys (set_coordination (fun _ => started next received) s) [] (Spawning 0)) in
  match coordinator s with Finished => Some (shared s) | _ => None end.

Definition transfer (schedule : list Actor) (s : Shared Coordination)
  : option (result SegmentsDone Failure * Shared Coordination) :=
  let c := state (output s) in
  let restored := (next_index c =? total) && (0 <? cp_bytes c) in
  let '(_, s) := run (item ItemStart;;
                      item (ItemSet (f64_div (f64_of (next_index c)) (f64_of total)) (cp_bytes c) 0);;
                      item (ItemReporter (cp_bytes c) 0)) s in
  if restored then Some (finish true s)
  else match threads schedule (next_index c) (cp_bytes c) s with
       | Some s => Some (finish false s)
       | None => None
       end.

(** The function [download]; [lock] is the outcome of locking the output path. *)
Definition download (schedule : list Actor) (lock : result unit string) (irregular : option string)
  (s : Shared Coordination) : option (result SegmentsDone Failure * Shared Coordination) :=
  match lock with
  | Err e => Some (Err (failure "cancelled" e 0), s)
  | Ok _ =>
    match open_output fingerprint_of total (persistent options) irregular s with
    | (Err e, s) => Some (Err (failure "storage_error" ("failed to create segmented output: " ++ e) 0), s)
    | (Ok _, s) =>
      match transfer schedule s with
      | Some (r, s) => Some (r, (run drop_output s).2)
      | None => None
      end
    end
  end.
End segments.
