(* ===== verification/SegmentsInvariant.v ===== *)
(** * What every schedule of a segmented download keeps

    The invariant of the steps of [Segments]: where each segment is between its hand-out and its place
    in the output, what the files hold, and what the output is. *)

From S2P Require Import Prelude Monads Float64 RustText TransferPolicy LinkCodec Download DownloadSingle SegmentStore Segments.

(** The segments a worker is responsible for. *)
Definition holding (w : Worker) : list Z :=
  match w with
  | Starting i _ _ | Opening i _ _ | Connecting i _ _ _ | Reading i _ _ _ _ _ _ | Broken i _ _ _
  | Waiting i _ _ _ _ | Sending i _ => [i]
  | Idle | Receiving | Done => []
  end.

(** The segments between their hand-out and their place in the output. *)
Definition in_flight (c : Coordination) (ws : list Worker) : list Z :=
  jobs c ++ flat_map holding ws ++ map fst (results c) ++ map fst (map_to_list (pending c)).

Section invariant.
Context `{World} `{SegmentJson}.
Variables (options : DownloadOptions) (segments : list Segment).
Variable spawn_error : nat -> option string.
(** [genuine i b]: [b] is the content of segment [i]. *)
Variable genuine : Z -> bytes -> Prop.
Variable before : option bytes.
Variable capacity : Z.

Abbreviation total := (total segments).
Abbreviation request := (request options segments).

(** A body that arrived whole. *)
Definition received_whole (i : Z) (b : bytes) : Prop :=
  b <> [] /\ exists t st, open_stream_at t (request i) = Ok st /\ ok_status (response st) = true /\
    ended st = Ok tt /\ b = body st /\ (0 < content_length (response st) -> content_length (response st) = len b).

Hypothesis genuine_received : forall i b, received_whole i b -> genuine i b.

Definition delivered (i : Z) (c : Completed) (files : gmap Z bytes) : Prop :=
  exists b, files !! i = Some b /\ genuine i b /\ c_size c = len b.

(** What a worker's state says of the file it writes. *)
Definition worker_ok (files : gmap Z bytes) (w : Worker) : Prop :=
  match w with
  | Connecting i _ _ _ => files !! i = Some []
  | Reading i _ _ st rest size _ =>
    exists t b, open_stream_at t (request i) = Ok st /\ ok_status (response st) = true /\
      files !! i = Some b /\ size = len b /\ b ++ concat rest = body st
  | Sending i (Ok c) => delivered i c files
  | _ => True
  end.

Lemma worker_ok_frame files files' w :
  (forall j, j ∈ holding w -> files' !! j = files !! j) -> worker_ok files w -> worker_ok files' w.
Proof.
  intros Hf. destruct w as [| | | |i ? ? ?|i ? ? st rest ? ?| | |i [c|]|]; simpl in *; try done.
  - by rewrite Hf by set_solver.
  - intros (t & b & Hrest). exists t, b. by rewrite Hf by set_solver.
  - intros (b & Hrest). exists b. by rewrite Hf by set_solver.
Qed.

(** The output holds the segments before [next_index] in order; nothing follows them when [clean]. *)
Definition assembled (d : Dir) (o : SegmentOutput) (clean : Prop) : Prop :=
  exists parts rest, len parts = next_index (state o) /\ cp_bytes (state o) = len (concat parts) /\
    staged d = Some (concat parts ++ rest) /\ (clean -> rest = []) /\
    forall i b, parts !! i = Some b -> genuine (Z.of_nat i) b.

Abbreviation coord s := (coordination (shared s)).
Abbreviation next s := (next_index (state (output (shared s)))).
Abbreviation files s := (received_files (dir s)).

Record invariant (s : Sys) : Prop := {
  inv_flight : in_flight (coord s) (workers s) ⊆+
    seqZ (next s)
      (next_job (coord s) - next s);
  inv_exact : stop (coord s) = false ->
    in_flight (coord s) (workers s) ≡ₚ
    seqZ (next s)
      (next_job (coord s) - next s);
  inv_window : 0 <= next s <= next_job (coord s) /\
    next_job (coord s) <= total /\
    next_job (coord s) - next s <= capacity;
  inv_open : jobs_open (coord s) = true ->
    stop (coord s) = false /\ next_job (coord s) < total /\
    next_job (coord s) - next s
      = match coordinator s with Releasing => capacity - 1 | _ => capacity end;
  inv_closed : jobs_open (coord s) = false -> stop (coord s) = false ->
    next_job (coord s) = total;
  inv_releasing : coordinator s = Releasing -> jobs_open (coord s) = true;
  inv_spawning : forall k, coordinator s = Spawning k -> pending (coord s) = ∅;
  inv_assembled_next : stop (coord s) = false ->
    match coordinator s with Polling | Draining | Finished => True | _ => False end ->
    pending (coord s) !! next s = None;
  inv_failed : stop (coord s) = true <-> is_Some (first_failure (coord s));
  inv_target : target (dir (shared s)) = before /\ promoted (output (shared s)) = false;
  inv_output : assembled (dir (shared s)) (output (shared s))
    (stop (coord s) = false \/ next s ∈ in_flight (coord s) (workers s));
  inv_workers : Forall (worker_ok (files (shared s))) (workers s);
  inv_results : forall i c, (i, Ok c) ∈ results (coord s) ->
    delivered i c (files (shared s));
  inv_pending : forall i c, pending (coord s) !! i = Some c ->
    delivered i c (files (shared s)) }.

(** *** The step of a worker *)

(** A step of the worker of segment [i] changes its own file and the counters, nothing else. *)
Record touched (i : Z) (s s' : Shared Coordination) : Prop := {
  touched_output : output s' = output s;
  touched_target : target (dir s') = target (dir s);
  touched_staged : staged (dir s') = staged (dir s);
  touched_files : forall j, j <> i -> received_files (dir s') !! j = received_files (dir s) !! j;
  touched_jobs : jobs (coordination s') = jobs (coordination s);
  touched_open : jobs_open (coordination s') = jobs_open (coordination s);
  touched_next : next_job (coordination s') = next_job (coordination s);
  touched_results : results (coordination s') = results (coordination s);
  touched_stop : stop (coordination s') = stop (coordination s);
  touched_pending : pending (coordination s') = pending (coordination s);
  touched_failure : first_failure (coordination s') = first_failure (coordination s) }.

#[local] Instance touched_preorder i : PreOrder (touched i).
Proof.
  split; [by intros s; split|]. intros s1 s2 s3 H1 H2.
  split; [rewrite (touched_output _ _ _ H2); apply H1|rewrite (touched_target _ _ _ H2); apply H1
    |rewrite (touched_staged _ _ _ H2); apply H1|intros j Hj; rewrite (touched_files _ _ _ H2) by done; by apply H1
    |rewrite (touched_jobs _ _ _ H2); apply H1|rewrite (touched_open _ _ _ H2); apply H1
    |rewrite (touched_next _ _ _ H2); apply H1|rewrite (touched_results _ _ _ H2); apply H1
    |rewrite (touched_stop _ _ _ H2); apply H1|rewrite (touched_pending _ _ _ H2); apply H1
    |rewrite (touched_failure _ _ _ H2); apply H1].
Qed.

(** What the threads share but for the ticks and the notices. *)
Definition same (s s' : Shared Coordination) : Prop :=
  dir s' = dir s /\ output s' = output s /\ coordination s' = coordination s.

Lemma same_touched i s s' : same s s' -> touched i s s'.
Proof. intros (Hd & Ho & Hc). split; by rewrite ?Hd, ?Ho, ?Hc. Qed.

(** A computation that changes nothing, whatever its outcome, and one that also cannot fail. *)
Definition idle {E A} (m : St (Shared Coordination) E A) : Prop := forall s, same s (m s).2.
Definition steady {E A} (m : St (Shared Coordination) E A) : Prop :=
  forall s, (exists a, (m s).1 = Ok a) /\ same s (m s).2.

Lemma idle_bind {E A B} (m : St (Shared Coordination) E A) (k : A -> St (Shared Coordination) E B) :
  idle m -> (forall a, idle (k a)) -> idle (bind m k).
Proof.
  intros Hm Hk s. specialize (Hm s). unfold bind. destruct (m s) as [[a|e] s']; [|done]. simpl in Hm.
  destruct (Hk a s') as (H1 & H2 & H3), Hm as (H4 & H5 & H6). repeat split; congruence.
Qed.
Lemma idle_check : idle (SegmentStore.check (R := Coordination)).
Proof. apply idle_bind; [done|]. intros t. by destruct (check_at t). Qed.
Lemma idle_check_worker : idle check_worker.
Proof. apply idle_bind; [apply idle_check|]. intros _. apply idle_bind; [done|]. by intros []. Qed.
Lemma steady_attempt {E F A} (m : St (Shared Coordination) E A) : idle m -> steady (attempt (F := F) m).
Proof. intros Hm s. specialize (Hm s). unfold attempt. destruct (m s) as [r s']. split; [by exists r|done]. Qed.
Lemma steady_enter {E} b : steady (enter options (E := E) b).
Proof. intros s. unfold enter. destruct (budget options); by split; [eexists|]. Qed.
Lemma steady_item {E} e : steady (item (E := E) e).
Proof. intros s. by split; [eexists|]. Qed.
Lemma steady_call {E} : steady (call (E := E) (R := Coordination)).
Proof. intros s. by split; [eexists|]. Qed.
Lemma steady_clock {E} : steady (clock (E := E) (R := Coordination)).
Proof. intros s. by split; [eexists|]. Qed.
Lemma steady_look {E A} (f : Coordination -> A) : steady (look (E := E) f).
Proof. intros s. by split; [eexists|]. Qed.

(** [worker_wp i m Q s]: [m] cannot fail, touches only what the worker of [i] may and ends in [Q]. *)
Definition worker_wp {A} (i : Z) (m : St (Shared Coordination) Empty_set A)
  (Q : A -> Shared Coordination -> Prop) (s : Shared Coordination) : Prop :=
  wp m (fun a s' => touched i s s' /\ Q a s') (fun _ _ => False) s.

Lemma worker_wp_bind {A B} i (m : St (Shared Coordination) Empty_set A) (k : A -> St _ _ B) Q s :
  worker_wp i m (fun a s' => worker_wp i (k a) Q s') s -> worker_wp i (bind m k) Q s.
Proof.
  intros Hm. apply wp_bind. eapply wp_mono; [exact Hm| |done]. intros a s1 [H1 Hk].
  eapply wp_mono; [exact Hk| |done]. intros b s2 [H2 Hb]. split; [by etransitivity|done].
Qed.
Lemma worker_wp_ret {A} i (a : A) Q s : Q a s -> worker_wp i (ret a) Q s.
Proof. intros HQ. by apply wp_ret. Qed.
Lemma worker_wp_steady {A B} i (m : St (Shared Coordination) Empty_set A) (k : A -> St _ _ B) Q s :
  steady m -> (forall a s', same s s' -> worker_wp i (k a) Q s') -> worker_wp i (bind m k) Q s.
Proof.
  intros Hm HQ. apply worker_wp_bind. destruct (Hm s) as [[a Ha] Hs]. unfold worker_wp, wp in *.
  destruct (m s) as [r s']. simpl in *. subst r. split; [by apply same_touched|by apply HQ].
Qed.
Lemma worker_wp_attempt {E A B} i (m : St (Shared Coordination) E A) (k : result A E -> St _ _ B) Q s :
  wp m (fun a s' => touched i s s' /\ worker_wp i (k (Ok a)) Q s')
       (fun e s' => touched i s s' /\ worker_wp i (k (Err e)) Q s') s ->
  worker_wp i (bind (attempt m) k) Q s.
Proof. intros Hm. apply worker_wp_bind, wp_attempt. exact Hm. Qed.

Lemma worker_wp_update {B} i f (k : unit -> St _ _ B) Q s :
  (forall c, jobs (f c) = jobs c /\ jobs_open (f c) = jobs_open c /\ next_job (f c) = next_job c /\
     results (f c) = results c /\ stop (f c) = stop c /\ pending (f c) = pending c /\
     first_failure (f c) = first_failure c) ->
  (forall s', dir s' = dir s -> worker_wp i (k tt) Q s') ->
  worker_wp i (bind (update f) k) Q s.
Proof.
  intros Hf HQ. apply worker_wp_bind, wp_modify. destruct (Hf (coordination s)) as (?&?&?&?&?&?&?).
  split; [by split|by apply HQ].
Qed.

Lemma wp_io f (Q : unit -> Shared Coordination -> Prop) (R : string -> Shared Coordination -> Prop)
  (s : Shared Coordination) :
  (forall s', dir s' = f (dir s) -> output s' = output s -> coordination s' = coordination s -> Q tt s') ->
  (forall e s', same s s' -> R e s') -> wp (io f) Q R s.
Proof.
  intros HQ HR. unfold io. apply wp_bind. unfold call, wp at 1. destruct (io_error_at (tick s)); [by apply HR|].
  by apply wp_modify, HQ.
Qed.

Lemma touched_by_files i s s' f :
  dir s' = with_files f (dir s) -> output s' = output s -> coordination s' = coordination s ->
  (forall j, j <> i -> f !! j = files s !! j) -> touched i s s'.
Proof. intros Hd Ho Hc Hf. split; rewrite ?Hd, ?Ho, ?Hc; auto. Qed.

Lemma wp_write_segment i bs s :
  wp (write_segment i bs)
    (fun _ s' => touched i s s' /\ files s' !! i = (fun l => l ++ bs) <$> files s !! i)
    (fun _ s' => touched i s s') s.
Proof.
  assert (forall bs s', dir s' = append_file i bs (dir s) -> output s' = output s ->
    coordination s' = coordination s -> touched i s s') as Ht.
  { intros bs' s' Hd Ho Hc. eapply touched_by_files; [exact Hd|done|done|].
    intros j Hj. by apply lookup_alter_ne. }
  unfold write_segment. apply wp_bind. unfold call, wp at 1. destruct (io_error_at (tick s)).
  - apply wp_bind, wp_modify, wp_throw. by eapply Ht.
  - apply wp_modify. split; [by eapply Ht|]. apply lookup_alter_eq.
Qed.

Lemma touched_removed i s s' :
  dir s' = remove_file i (dir s) -> output s' = output s -> coordination s' = coordination s -> touched i s s'.
Proof. intros Hd Ho Hc. eapply touched_by_files; [exact Hd|done|done|]. intros j Hj. by apply lookup_delete_ne. Qed.

Lemma wp_open_segment i s :
  wp (open_segment i) (fun _ s' => touched i s s' /\ files s' !! i = Some []) (fun _ s' => touched i s s') s.
Proof.
  apply wp_bind, wp_io; [|intros e s' Hs; by apply same_touched].
  intros s1 Hd Ho Hc. pose proof (touched_removed i s s1 Hd Ho Hc) as H1.
  apply wp_io; [|intros e s' Hs; etransitivity; [exact H1|by apply same_touched]].
  intros s2 Hd2 Ho2 Hc2. split; [|rewrite Hd2; apply lookup_insert_eq].
  etransitivity; [exact H1|]. eapply touched_by_files; [exact Hd2|done|done|].
  intros j Hj. by apply lookup_insert_ne.
Qed.

Lemma worker_wp_drop {B} i (k : unit -> St _ _ B) Q s :
  (forall s', worker_wp i (k tt) Q s') -> worker_wp i (bind (drop_segment i) k) Q s.
Proof.
  intros HQ. apply worker_wp_bind. unfold drop_segment. apply worker_wp_attempt, wp_io.
  - intros s' Hd Ho Hc. split; [by apply touched_removed|]. apply worker_wp_ret, HQ.
  - intros e s' Hs. split; [by apply same_touched|]. apply worker_wp_ret, HQ.
Qed.

(** Still responsible for the segment, with a state that is true of its file. *)
Definition carries (i : Z) (w : Worker) (s : Shared Coordination) : Prop :=
  holding w = [i] /\ worker_ok (files s) w.

Lemma worker_connect i n delay b s :
  files s !! i = Some [] -> worker_wp i (connect options segments i n delay b) (carries i) s.
Proof.
  intros Hf. unfold connect. apply worker_wp_steady; [apply steady_enter|]. intros _ s1 (Hd & _ & _).
  rewrite <- Hd in Hf. clear Hd. apply worker_wp_bind. unfold call at 1, worker_wp at 1, wp at 1.
  set (s2 := mkShared _ _ _ _ _). split; [by apply same_touched|]. change (files s1) with (files s2) in Hf. clearbody s2.
  destruct (open_stream_at (tick s1) (request i)) as [st|e] eqn:Ho; [|by apply worker_wp_ret].
  destruct (ok_status (response st)) eqn:Hok.
  { apply worker_wp_ret. split; [done|]. exists (tick s1), []. by split_conj. }
  apply worker_wp_steady; [apply steady_call|]. intros t s3 _. case_bool; [|by apply worker_wp_ret].
  apply worker_wp_drop. intros s4. by apply worker_wp_ret.
Qed.

Lemma worker_end_body i n delay size st (r : result unit string) s t b :
  open_stream_at t (request i) = Ok st -> ok_status (response st) = true -> files s !! i = Some b ->
  size = len b -> (r = Ok tt -> ended st = Ok tt /\ b = body st) ->
  worker_wp i (end_body i n delay size st r) (carries i) s.
Proof.
  intros Ho Hok Hf Hsize Hr. unfold end_body.
  match goal with |- context [is_ok ?x] => set (body' := x) end.
  destruct (is_ok body' && (0 <? size)) eqn:E.
  - apply worker_wp_update; [done|]. intros s1 Hd. apply worker_wp_ret. split; [done|].
    apply andb_true_iff in E as [E Hpos]. exists b. rewrite Hd. split_conj; [done| |done].
    apply genuine_received. split; [intros ->; unfold len in *; simpl in *; lia|].
    unfold body' in E. destruct r as [[]|e]; [|done]. destruct (Hr eq_refl) as [He Hb].
    exists t, st. split_conj; try done.
    intros Hc. destruct (Z.ltb_spec 0 (content_length (response st))); [|lia]. simpl in E.
    destruct (Z.eqb_spec size (content_length (response st))); [lia|done].
  - apply worker_wp_update; [done|]. intros s1 Hd. by apply worker_wp_ret.
Qed.

Lemma worker_read i n delay st rest size b s :
  worker_ok (files s) (Reading i n delay st rest size b) ->
  worker_wp i (read_once options i n delay st rest size b) (carries i) s.
Proof.
  intros (t & bs & Ho & Hok & Hf & Hsize & Hrest). unfold read_once.
  apply worker_wp_steady; [apply steady_enter|]. intros _ s1 (Hd & _ & _). rewrite <- Hd in Hf. clear Hd.
  destruct rest as [|x rest].
  { eapply worker_end_body; try done. intros He. by rewrite app_nil_r in Hrest. }
  apply worker_wp_attempt. eapply wp_mono; [apply wp_write_segment|..].
  - intros _ s2 [Ht Hfile]. rewrite Hf in Hfile. split; [done|].
    apply worker_wp_update; [done|]. intros s3 Hd. rewrite <- Hd in Hfile. clear Hd.
    apply worker_wp_steady; [apply steady_look|]. intros m s4 (Hd & _ & _). rewrite <- Hd in Hfile. clear Hd.
    apply worker_wp_steady; [apply steady_item|]. intros _ s5 (Hd & _ & _). rewrite <- Hd in Hfile.
    apply worker_wp_ret. split; [done|]. exists t, (bs ++ x). split_conj; [done|done|done| |].
    + subst size. unfold len. rewrite length_app. lia.
    + by rewrite <- app_assoc.
  - intros e s2 Ht. split; [done|]. unfold end_body. cbn [is_ok andb].
    apply worker_wp_update; [done|]. intros s3 _. by apply worker_wp_ret.
Qed.

Lemma worker_retry i n delay f s : worker_wp i (retry_or_send options i n delay f) (carries i) s.
Proof.
  unfold retry_or_send. apply worker_wp_drop. intros s1.
  apply worker_wp_steady; [apply steady_attempt, idle_check_worker|]. intros r s2 _.
  match goal with |- worker_wp _ (if ?b then _ else _) _ _ => destruct b end; [by apply worker_wp_ret|].
  apply worker_wp_steady; [apply steady_enter|]. intros _ s3 _.
  apply worker_wp_steady; [apply steady_clock|]. intros t s4 _. by apply worker_wp_ret.
Qed.

Lemma worker_wait i n delay began retry s : worker_wp i (wait_on options i n delay began retry) (carries i) s.
Proof.
  unfold wait_on. apply worker_wp_steady; [apply steady_clock|]. intros t s1 _. case_bool.
  - apply worker_wp_steady; [apply steady_attempt, idle_check_worker|]. intros r s2 _.
    by destruct r; apply worker_wp_ret.
  - apply worker_wp_steady; [apply steady_call|]. intros k s2 _. by apply worker_wp_ret.
Qed.

(** What a step does to a worker and to what the threads share. *)
Inductive effect (w : Worker) (s : Shared Coordination) : Worker -> Shared Coordination -> Prop :=
| effect_local w' s' :
    (forall j, j ∉ holding w -> files s' !! j = files s !! j) -> (exists i, touched i s s') ->
    holding w' = holding w -> worker_ok (files s') w' -> effect w s w' s'
| effect_take i l w' s' :
    holding w = [] -> holding w' = [i] -> worker_ok (files s') w' ->
    jobs (coordination s) = i :: l -> dir s' = dir s -> output s' = output s ->
    coordination s' = with_jobs l (coordination s) -> effect w s w' s'
| effect_send i r w' s' :
    w = Sending i r -> holding w' = [] -> len (results (coordination s)) < capacity ->
    dir s' = dir s -> output s' = output s ->
    coordination s' = with_results (results (coordination s) ++ [(i, r)]) (coordination s) -> effect w s w' s'.

Lemma effect_same w w' s s' : same s s' -> holding w' = holding w -> worker_ok (files s') w' -> effect w s w' s'.
Proof.
  intros Hs Hh Hok. apply effect_local; [intros j _; by destruct Hs as [-> _]| |done|done].
  exists 0. by apply same_touched.
Qed.

Lemma effect_carries i w s m :
  holding w = [i] -> worker_wp i m (carries i) s ->
  wp m (fun w' s' => effect w s w' s') (fun _ _ => False) s.
Proof.
  intros Hw Hm. eapply wp_mono; [exact Hm| |done]. intros w' s' (Ht & Hh & Hok).
  apply effect_local; [|by exists i|by rewrite Hh, Hw|done].
  intros j Hj. apply (touched_files _ _ _ Ht). rewrite Hw in Hj. set_solver.
Qed.

Lemma worker_step_effect w s :
  worker_ok (files s) w ->
  wp (worker_step (E := Empty_set) options segments capacity w) (fun w' s' => effect w s w' s') (fun _ _ => False) s.
Proof.
  intros Hok. destruct w as [| |i n delay|i n delay|i n delay b|i n delay st rest size b|i n delay f|i n delay t0 d|i r|];
    cbn [worker_step].
  - pose proof (steady_attempt (F := Empty_set) _ idle_check_worker s) as [[r Hr] Hs]. apply wp_bind.
    unfold wp at 1. destruct (attempt check_worker s) as [x s1]. simpl in *. subst x. apply wp_ret.
    apply effect_same; [done|by destruct r|by destruct r].
  - apply wp_bind, wp_gets. destruct (jobs (coordination s)) as [|i l] eqn:Hj.
    + apply wp_bind, wp_gets, wp_ret. apply effect_same; [done|by destruct (jobs_open _)|by destruct (jobs_open _)].
    + apply wp_bind, wp_modify, wp_ret. by eapply effect_take.
  - apply (effect_carries i); [done|]. apply worker_wp_steady; [apply steady_attempt, idle_check_worker|].
    intros r s1 _. apply worker_wp_ret. by destruct r.
  - apply (effect_carries i); [done|]. apply worker_wp_attempt. eapply wp_mono; [apply wp_open_segment|..].
    + intros _ s1 [Ht Hf]. split; [done|]. apply worker_wp_steady; [apply steady_look|].
      intros c s2 (Hd & _ & _). apply worker_wp_ret. split; [done|]. simpl. by rewrite Hd.
    + intros e s1 Ht. split; [done|]. by apply worker_wp_ret.
  - apply (effect_carries i); [done|]. by apply worker_connect.
  - apply (effect_carries i); [done|]. by apply worker_read.
  - apply (effect_carries i); [done|]. apply worker_retry.
  - apply (effect_carries i); [done|]. apply worker_wait.
  - apply wp_bind, wp_gets. destruct (Z.ltb_spec (len (results (coordination s))) capacity).
    + apply wp_bind, wp_modify, wp_ret. eapply effect_send; [done|by destruct r|done|done|done|done].
    + apply wp_ret. by apply effect_same.
  - apply wp_ret. by apply effect_same.
Qed.

(** *** The invariant under the steps of workers *)

Lemma flat_map_insert k w w' ws :
  ws !! k = Some w ->
  flat_map holding ws = flat_map holding (take k ws) ++ holding w ++ flat_map holding (drop (S k) ws) /\
  flat_map holding (<[k:=w']> ws) = flat_map holding (take k ws) ++ holding w' ++ flat_map holding (drop (S k) ws).
Proof.
  intros Hk. split.
  - rewrite <- (take_drop_middle ws k w Hk) at 1. by rewrite flat_map_app.
  - rewrite insert_take_drop by eauto using lookup_lt_Some. by rewrite flat_map_app.
Qed.

Lemma effect_flight k w w' ws s s' :
  ws !! k = Some w -> effect w s w' s' ->
  in_flight (coordination s') (<[k:=w']> ws) ≡ₚ in_flight (coordination s) ws.
Proof.
  intros Hk He. destruct (flat_map_insert k w w' ws Hk) as [E1 E2]. unfold in_flight. rewrite E1, E2.
  destruct He as [w' s' _ [i Ht] Hh _|i l w' s' Hw Hw' _ Hj _ _ Hc|i r w' s' -> Hw' _ _ _ Hc].
  - by rewrite Hh, (touched_jobs _ _ _ Ht), (touched_results _ _ _ Ht), (touched_pending _ _ _ Ht).
  - rewrite Hc, Hj, Hw, Hw'. simpl. rewrite <- (Permutation_middle _ _ i). simpl. by rewrite <- Permutation_middle.
  - rewrite Hc, Hw'. simpl. rewrite map_app, <- (app_assoc (map fst (results (coordination s)))). simpl. apply Permutation_app_head.
    rewrite <- (Permutation_middle (map fst _) _ i), <- (Permutation_middle (flat_map holding (take k ws)) _ i).
    symmetry. apply Permutation_middle.
Qed.

Lemma flight_NoDup s : invariant s -> NoDup (in_flight (coord s) (workers s)).
Proof.
  intros Hi. destruct (submseteq_Permutation _ _ (inv_flight _ Hi)) as [l Hl].
  pose proof (NoDup_seqZ (next s) (next_job (coord s) - next s)) as Hn. rewrite Hl in Hn.
  by apply NoDup_app in Hn as [? _].
Qed.

Lemma elem_of_holding j k w ws : ws !! k = Some w -> j ∈ holding w -> j ∈ flat_map holding ws.
Proof.
  intros Hk Hj. apply list_elem_of_In, in_flat_map. exists w. split; [|by apply list_elem_of_In].
  by apply list_elem_of_In, list_elem_of_lookup_2 with k.
Qed.

(** A segment has one owner. *)
Lemma flight_owner s k w j :
  invariant s -> workers s !! k = Some w -> j ∈ holding w ->
  (forall k' w', k' <> k -> workers s !! k' = Some w' -> j ∉ holding w') /\
  (forall r, (j, r) ∉ results (coord s)) /\ pending (coord s) !! j = None.
Proof.
  intros Hi Hk Hj. pose proof (flight_NoDup s Hi) as Hn. unfold in_flight in Hn.
  apply NoDup_app in Hn as (_ & _ & Hn). apply NoDup_app in Hn as (Hw & Hdis & _).
  specialize (Hdis j (elem_of_holding j k w _ Hk Hj)). split_conj.
  - intros k' w' Hne Hk' Hj'. destruct (flat_map_insert k w w _ Hk) as [E _]. rewrite E in Hw.
    apply NoDup_app in Hw as (_ & HA & Hw). apply NoDup_app in Hw as (_ & HB & _).
    destruct (decide (k' < k)%nat).
    + apply (HA j); [|by apply elem_of_app; left].
      apply (elem_of_holding j k' w'); [|done]. by rewrite lookup_take_lt by lia.
    + apply (HB j Hj). apply (elem_of_holding j (k' - S k) w'); [|done].
      rewrite lookup_drop. by replace (S k + (k' - S k))%nat with k' by lia.
  - intros r Hr. apply Hdis, elem_of_app. left. apply list_elem_of_In, in_map_iff.
    exists (j, r). split; [done|by apply list_elem_of_In].
  - destruct (pending (coord s) !! j) as [c|] eqn:E; [|done]. destruct Hdis. apply elem_of_app. right.
    apply list_elem_of_In, in_map_iff. exists (j, c). split; [done|]. by apply list_elem_of_In, elem_of_map_to_list.
Qed.

(** What an effect leaves alone. *)
Lemma effect_frame w s w' s' :
  effect w s w' s' ->
  output s' = output s /\ target (dir s') = target (dir s) /\ staged (dir s') = staged (dir s) /\
  jobs_open (coordination s') = jobs_open (coordination s) /\
  next_job (coordination s') = next_job (coordination s) /\ stop (coordination s') = stop (coordination s) /\
  pending (coordination s') = pending (coordination s) /\
  first_failure (coordination s') = first_failure (coordination s) /\
  (forall j, j ∉ holding w -> files s' !! j = files s !! j) /\
  (forall j c, (j, Ok c) ∈ results (coordination s') ->
     (j, Ok c) ∈ results (coordination s) \/ w = Sending j (Ok c) /\ files s' = files s).
Proof.
  intros [w1 s1 Hf [i Ht] _ _|i l w1 s1 _ _ _ _ Hd Ho Hc|i r w1 s1 -> _ _ Hd Ho Hc].
  - destruct Ht as [? ? ? ? ? ? ? Hr ? ? ?]. rewrite Hr. split_conj; auto.
  - rewrite Hc, Hd, Ho. split_conj; auto.
  - rewrite Hc, Hd, Ho. split_conj; auto. intros j c [Hj|Hj]%elem_of_app; [by left|].
    apply list_elem_of_singleton in Hj as [= -> <-]. by right.
Qed.

Lemma effect_worker_ok w s w' s' : effect w s w' s' -> worker_ok (files s') w'.
Proof.
  intros [w1 s1 _ _ _ Hok|i l w1 s1 _ _ Hok|i r w1 s1 _ Hh _ _ _ _]; [done|done|].
  destruct w1; simpl in *; try done.
Qed.

Lemma invariant_worker s k w w' sh :
  invariant s -> workers s !! k = Some w -> effect w (shared s) w' sh ->
  invariant (mkSys sh (<[k:=w']> (workers s)) (coordinator s)).
Proof.
  intros Hi Hk He. pose proof (effect_flight k w w' _ _ _ Hk He) as Hflight.
  destruct (effect_frame _ _ _ _ He) as (Ho & Ht & Hst & Hopen & Hnext & Hstop & Hp & Hff & Hf & Hr).
  assert (forall j c, j ∉ holding w -> delivered j c (files (shared s)) -> delivered j c (files sh)) as Hdel.
  { intros j c Hj (b & Hb). exists b. by rewrite Hf. }
  destruct Hi as [I1 I2 I3 I4 I5 I6 I7 I8 I9 I10 I11 I12 I13 I14] eqn:E. clear E.
  pose proof (flight_owner s k w) as Hown.
  split; cbn [shared workers coordinator]; rewrite ?Hflight, ?Ho, ?Ht, ?Hopen, ?Hnext, ?Hstop, ?Hp, ?Hff; auto.
  - destruct I11 as (parts & rest & Hl & Hb & Hs & Hclean & Hg). exists parts, rest. rewrite Hst. split_conj; auto.
    intros Hc. apply Hclean. by rewrite Hflight in Hc.
  - apply Forall_lookup. intros k' x Hx. destruct (decide (k' = k)) as [->|Hne].
    + rewrite list_lookup_insert_eq in Hx by eauto using lookup_lt_Some. injection Hx as <-.
      by eapply effect_worker_ok.
    + rewrite list_lookup_insert_ne in Hx by done. eapply worker_ok_frame; [|by eapply Forall_lookup_1].
      intros j Hj. apply Hf. intros Hj'. by destruct (Hown j Hi Hk Hj') as (Hothers & _); eapply Hothers.
  - intros j c Hj. destruct (Hr j c Hj) as [Hold|[-> Hfiles]].
    + apply Hdel; [|by apply I13]. intros Hj'. by destruct (Hown j Hi Hk Hj') as (_ & Hres & _); eapply Hres.
    + rewrite Hfiles. by apply (Forall_lookup_1 _ _ _ _ I12 Hk).
  - intros j c Hj. apply Hdel; [|by apply I14]. intros Hj'.
    destruct (Hown j Hi Hk Hj') as (_ & _ & Hnone). congruence.
Qed.

(** *** The invariant under the steps of the coordinator *)

Lemma assembled_weaken d o (P Q : Prop) : (Q -> P) -> assembled d o P -> assembled d o Q.
Proof. intros HQ (parts & rest & ? & ? & ? & Hc & ?). exists parts, rest. split_conj; auto. Qed.

(** The shared state seen by the invariant. *)
Lemma invariant_same s sh :
  invariant s -> same (shared s) sh -> invariant (mkSys sh (workers s) (coordinator s)).
Proof. intros [] (Hd & Ho & Hc). split; cbn [shared workers coordinator]; rewrite ?Hd, ?Ho, ?Hc; auto. Qed.

(** A failure stops the workers and closes the channel of jobs. *)
Lemma invariant_fail s f c :
  invariant s -> (forall k, c <> Spawning k) -> c <> Releasing ->
  invariant (mkSys (set_coordination (fail_with f) (shared s)) (workers s) c).
Proof.
  intros [I1 I2 I3 I4 I5 I6 I7 I8 I9 I10 I11 I12 I13 I14] Hk Hr.
  split; cbn [shared workers coordinator]; unfold set_coordination, fail_with; cbn; auto; try done.
  - intros k ->. by destruct (Hk k).
  - eapply assembled_weaken; [|exact I11]. intros [?|?]; [done|by right].
Qed.

Lemma invariant_move s c :
  invariant s -> (forall k, c <> Spawning k) -> c <> Releasing -> coordinator s <> Releasing ->
  (stop (coord s) = false -> match c with Polling | Draining | Finished => True | _ => False end ->
     pending (coord s) !! next s = None) ->
  invariant (mkSys (shared s) (workers s) c).
Proof.
  intros [I1 I2 I3 I4 I5 I6 I7 I8 I9 I10 I11 I12 I13 I14] Hk Hr Hs Hnext.
  split; cbn [shared workers coordinator]; auto; try done.
  - intros Ho. destruct (I4 Ho) as (? & ? & Hw). split_conj; auto. by destruct c, (coordinator s).
  - intros k ->. by destruct (Hk k).
Qed.

Lemma invariant_spawn k s :
  invariant s -> coordinator s = Spawning k -> invariant (spawn spawn_error capacity k s).
Proof.
  intros Hi Hc. assert (coordinator s <> Releasing) as Hr by congruence. unfold spawn.
  assert (stop (coord s) = false -> True -> pending (coord s) !! next s = None) as Hp.
  { intros _ _. by rewrite (inv_spawning _ Hi k Hc). }
  case_bool; [destruct (spawn_error k)|].
  - by apply invariant_fail.
  - destruct Hi as [I1 I2 I3 I4 I5 I6 I7 I8 I9 I10 I11 I12 I13 I14].
    assert (in_flight (coord s) (workers s ++ [Idle]) = in_flight (coord s) (workers s)) as Hf.
    { unfold in_flight. by rewrite flat_map_app, app_nil_r. }
    split; cbn [shared workers coordinator]; rewrite ?Hf; auto; try done.
    + intros Ho. destruct (I4 Ho) as (? & ? & Hw). by rewrite Hc in Hw.
    + intros _ _. by apply (I7 k).
    + apply Forall_app. by split; [|repeat constructor].
  - by apply invariant_move.
Qed.

Lemma flight_pop s i r l :
  results (coord s) = (i, r) :: l ->
  in_flight (coord s) (workers s) ≡ₚ i :: in_flight (with_results l (coord s)) (workers s).
Proof.
  intros Hl. unfold in_flight. rewrite Hl. simpl.
  rewrite <- (Permutation_middle (flat_map holding (workers s))). by rewrite <- Permutation_middle.
Qed.

(** A failure is received: its segment is lost. *)
Lemma invariant_drain_err s i f l :
  invariant s -> results (coord s) = (i, Err f) :: l ->
  invariant (mkSys (set_coordination (fun c => fail_with f (with_results l c)) (shared s)) (workers s) Assembling).
Proof.
  intros Hi Hl. pose proof (flight_pop s i (Err f) l Hl) as Hp.
  destruct Hi as [I1 I2 I3 I4 I5 I6 I7 I8 I9 I10 I11 I12 I13 I14].
  split; cbn [shared workers coordinator set_coordination coordination output dir]; auto; try done.
  - rewrite Hp in I1. etransitivity; [|exact I1]. by apply submseteq_cons.
  - eapply assembled_weaken; [|exact I11]. intros [?|Hn]; [done|]. right. rewrite Hp. by right.
  - intros j c Hj. apply I13. rewrite Hl. by right.
Qed.

(** A segment is received: it waits for its turn. *)
Lemma invariant_drain_ok s i ready l :
  invariant s -> coordinator s = Draining -> results (coord s) = (i, Ok ready) :: l ->
  invariant (mkSys (set_coordination (fun c => with_pending (<[i:=ready]> (pending c)) (with_results l c)) (shared s))
               (workers s) Assembling).
Proof.
  intros Hi Hc Hl. pose proof (flight_pop s i (Ok ready) l Hl) as Hp. pose proof (flight_NoDup s Hi) as Hn.
  assert (pending (coord s) !! i = None) as Hi0.
  { rewrite Hp in Hn. apply NoDup_cons in Hn as [Hn _]. destruct (pending (coord s) !! i) as [c|] eqn:E; [|done].
    destruct Hn. unfold in_flight. rewrite !elem_of_app. do 3 right. simpl.
    apply list_elem_of_In, in_map_iff. exists (i, c). split; [done|].
    by apply list_elem_of_In, elem_of_map_to_list. }
  assert (in_flight (with_pending (<[i:=ready]> (pending (coord s))) (with_results l (coord s))) (workers s)
    ≡ₚ in_flight (coord s) (workers s)) as Hf.
  { rewrite Hp. unfold in_flight. cbn. rewrite map_to_list_insert by done. cbn.
    rewrite !app_assoc. symmetry. apply Permutation_middle. }
  destruct Hi as [I1 I2 I3 I4 I5 I6 I7 I8 I9 I10 I11 I12 I13 I14].
  split; cbn [shared workers coordinator set_coordination coordination output dir]; rewrite ?Hf; auto; try done.
  - intros Ho. destruct (I4 Ho) as (? & ? & Hw). by rewrite Hc in Hw.
  - eapply assembled_weaken; [|exact I11]. intros [?|Hx]; [by left|]. right. by rewrite Hf in Hx.
  - intros j c Hj. apply I13. rewrite Hl. by right.
  - simpl. intros j c Hj. apply lookup_insert_Some in Hj as [[<- <-]|[Hne Hj]]; [|by apply I14].
    apply I13. rewrite Hl. by left.
Qed.

(** The output grows by the segment that was next. *)
Lemma wp_drop_segment {E} i (Q : unit -> Shared Coordination -> Prop) (R : E -> Shared Coordination -> Prop) s :
  (forall s', touched i s s' -> coordination s' = coordination s -> Q tt s') -> wp (drop_segment i) Q R s.
Proof.
  intros HQ. apply wp_bind, wp_attempt, wp_io.
  - intros s' Hd Ho Hc. apply wp_ret, HQ; [by apply touched_removed|done].
  - intros e s' Hs. apply wp_ret, HQ; [by apply same_touched|apply Hs].
Qed.

Lemma wp_idle {E A} (m : St (Shared Coordination) E A) Q R s :
  idle m -> (forall a s', same s s' -> Q a s') -> (forall e s', same s s' -> R e s') -> wp m Q R s.
Proof. intros Hm HQ HR. specialize (Hm s). unfold wp. destruct (m s) as [[a|e] s']; auto. Qed.

(** Another content of the staged file, and nothing else. *)
Definition restaged (f : bytes) (s s' : Shared Coordination) : Prop :=
  output s' = output s /\ coordination s' = coordination s /\ received_files (dir s') = received_files (dir s) /\
  target (dir s') = target (dir s) /\ staged (dir s') = Some f.

Lemma restaged_same f s s' : staged (dir s) = Some f -> same s s' -> restaged f s s'.
Proof. intros Hf (Hd & Ho & Hc). unfold restaged. by rewrite Hd. Qed.

Lemma restaged_trans f g s s' s'' : restaged f s s' -> restaged g s' s'' -> restaged g s s''.
Proof. intros (? & ? & ? & ? & ?) (? & ? & ? & ? & ?). repeat split; congruence. Qed.

Lemma wp_write_staged bs f s :
  staged (dir s) = Some f ->
  wp (write_staged bs) (fun _ s' => restaged (f ++ bs) s s') (fun _ s' => exists x, restaged (f ++ x) s s') s.
Proof.
  intros Hf. unfold write_staged. apply wp_bind. unfold call, wp at 1. destruct (io_error_at (tick s)).
  - apply wp_bind, wp_modify, wp_throw. eexists. unfold restaged. simpl. by rewrite Hf.
  - apply wp_modify. unfold restaged. simpl. by rewrite Hf.
Qed.

Lemma wp_copy_blocks l f s :
  staged (dir s) = Some f ->
  wp (copy_blocks l) (fun _ s' => restaged (f ++ concat l) s s') (fun _ s' => exists x, restaged (f ++ x) s s') s.
Proof.
  assert (forall s', same s s' -> staged (dir s) = Some f -> exists x, restaged (f ++ x) s s') as Hstop.
  { intros s' Hs Hf. exists []. rewrite app_nil_r. by apply restaged_same. }
  revert f s Hstop. induction l as [|b l IH]; intros f s Hstop Hf; cbn [copy_blocks];
    (apply wp_bind, wp_idle; [apply idle_check| |auto]); intros _ s1 H1;
    (apply wp_bind, wp_io; [|intros e s2 H2; apply Hstop; [|done];
       destruct H1 as (? & ? & ?), H2 as (? & ? & ?); repeat split; congruence]);
    intros s2 Hd Ho Hc; (assert (same s s2) as H2 by (destruct H1 as (? & ? & ?); repeat split; congruence)).
  { apply wp_ret. simpl. rewrite app_nil_r. by apply restaged_same. }
  assert (staged (dir s2) = Some f) as Hf2 by (destruct H2 as (Hd2 & _); by rewrite Hd2).
  pose proof (restaged_same f s s2 Hf H2) as H2'.
  apply wp_bind. eapply wp_mono; [by apply wp_write_staged|..].
  - intros y s3 H3. assert (staged (dir s3) = Some (f ++ b)) as Hf3 by apply H3.
    eapply wp_mono; [apply (IH (f ++ b)); [|done]|..].
    + intros s' Hs _. exists []. rewrite app_nil_r. by apply restaged_same.
    + intros x s4 H4. simpl. rewrite app_assoc. eapply restaged_trans; [exact H2'|].
      exact (restaged_trans _ _ _ _ _ H3 H4).
    + intros e s4 [x H4]. exists (b ++ x). rewrite app_assoc. eapply restaged_trans; [exact H2'|].
      exact (restaged_trans _ _ _ _ _ H3 H4).
  - intros e s3 [x H3]. exists x. by eapply restaged_trans.
Qed.

(** Appending a segment. *)
Lemma wp_append i ready b f s :
  received_files (dir s) !! i = Some b -> c_size ready = len b -> staged (dir s) = Some f ->
  cp_bytes (state (output s)) = len f ->
  wp (append i (c_size ready))
    (fun _ s' => output s' = set_state (appended (len b)) (output s) /\ coordination s' = coordination s /\
       received_files (dir s') = received_files (dir s) /\ target (dir s') = target (dir s) /\
       staged (dir s') = Some (f ++ b))
    (fun _ s' => exists x, restaged (f ++ x) s s') s.
Proof.
  intros Hb Hsize Hf Hbytes. unfold append. rewrite Hsize.
  assert (exists x, restaged (f ++ x) s s) as Hself by (exists []; rewrite app_nil_r; by apply restaged_same).
  apply wp_bind, wp_io; [|intros e s' Hs; exists []; rewrite app_nil_r; by apply restaged_same].
  intros s1 Hd1 Ho1 Hc1. apply wp_bind, wp_gets. rewrite Hd1, Hb. simpl. apply wp_bind, wp_attempt, wp_bind.
  assert (staged (dir s1) = Some f) as Hf1 by (by rewrite Hd1).
  assert (restaged f s s1) as H1 by (by apply restaged_same).
  eapply wp_mono; [by apply wp_copy_blocks|..].
  - intros x s2 H2. rewrite concat_blocks in H2. rewrite Z.eqb_refl. apply wp_ret, wp_modify.
    destruct (restaged_trans _ _ _ _ _ H1 H2) as (Ho & Hc & Hfs & Ht & Hst). simpl. by rewrite Ho.
  - intros e s2 [x H2]. pose proof (restaged_trans _ _ _ _ _ H1 H2) as H3. apply wp_bind, wp_gets.
    destruct H3 as (Ho & Hc & Hfs & Ht & Hst). rewrite Ho, Hbytes. apply wp_bind, wp_attempt, wp_io.
    + intros s3 Hd3 Ho3 Hc3. assert (restaged f s s3) as H4.
      { unfold restaged. rewrite Hd3. simpl. rewrite Hst. simpl. split_conj; try congruence. f_equal.
        unfold len. rewrite set_len_prefix by (rewrite length_app; lia). apply take_app_length. }
      apply wp_bind, wp_attempt, wp_io; [intros s4 Hd4 Ho4 Hc4|intros e' s4 (Hd4 & Ho4 & Hc4)];
        apply wp_throw; exists []; rewrite app_nil_r; (eapply restaged_trans; [exact H4|]);
        by (apply restaged_same; [apply H4|]).
    + intros e' s3 H4. assert (restaged (f ++ x) s s3) as H5.
      { destruct H4 as (Hd & Ho3 & Hc3). unfold restaged. rewrite Hd. split_conj; congruence. }
      apply wp_bind, wp_attempt, wp_io; [intros s4 Hd4 Ho4 Hc4|intros e'' s4 (Hd4 & Ho4 & Hc4)];
        apply wp_throw; exists x; (eapply restaged_trans; [exact H5|]);
        by (apply restaged_same; [apply H5|]).
Qed.

(** A checkpoint changes the output's record of itself only. *)
Lemma wp_checkpoint_segments {E} b (Q : unit -> Shared Coordination -> Prop) (R : E -> Shared Coordination -> Prop) s :
  (forall s', coordination s' = coordination s -> target (dir s') = target (dir s) -> staged (dir s') = staged (dir s) ->
     received_files (dir s') = received_files (dir s) -> next_index (state (output s')) = next_index (state (output s)) ->
     cp_bytes (state (output s')) = cp_bytes (state (output s)) -> promoted (output s') = promoted (output s) ->
     count (output s') = count (output s) -> Q tt s') ->
  wp (checkpoint b) Q R s.
Proof.
  intros HQ. unfold checkpoint. apply wp_bind, wp_gets. case_bool; [by apply wp_ret, HQ|].
  assert (forall s0, same s s0 -> wp (do r <- attempt save;
      if is_ok r then
        do t <- clock;
        modify (set_output (fun o => mkOutput (state o) (keep o) (promoted o) (cp_bytes (state o)) t (count o)))
      else ret tt) Q R s0) as Hsave.
  { intros s0 (Hd & Ho & Hc). apply wp_bind, wp_attempt, wp_bind, wp_io.
    2: { intros e s1 (Hd1 & Ho1 & Hc1). apply wp_ret, HQ; by rewrite ?Hc1, ?Hd1, ?Ho1, ?Hc, ?Hd, ?Ho. }
    intros s1 Hd1 Ho1 Hc1. apply wp_bind. unfold call, wp at 1. apply wp_bind, wp_modify, wp_bind, wp_gets, wp_io.
    - intros s2 Hd2 Ho2 Hc2. cbn [is_ok]. apply wp_bind. unfold clock. apply wp_bind. unfold call, wp at 1.
      apply wp_ret, wp_modify, HQ; simpl; rewrite ?Hc2, ?Hd2, ?Ho2; simpl;
        by rewrite ?Hc1, ?Hd1, ?Ho1, ?Hc, ?Hd, ?Ho.
    - intros e s2 (Hd2 & Ho2 & Hc2). apply wp_ret, HQ; rewrite ?Hc2, ?Hd2, ?Ho2; simpl;
        by rewrite ?Hc1, ?Hd1, ?Ho1, ?Hc, ?Hd, ?Ho. }
  apply wp_bind. case_bool; [apply wp_bind|apply wp_ret, Hsave; done]. unfold clock. apply wp_bind.
  unfold call, wp at 1. apply wp_ret, wp_ret. case_bool; [by apply wp_ret, HQ|by apply Hsave].
Qed.

(** Taking the segment that is next out of those that wait. *)
Lemma flight_take s ready :
  pending (coord s) !! next s = Some ready ->
  in_flight (coord s) (workers s) ≡ₚ
  next s :: in_flight (with_pending (delete (next s) (pending (coord s))) (coord s)) (workers s).
Proof.
  intros Hm. unfold in_flight. cbn. rewrite <- (map_to_list_delete _ _ _ Hm). cbn.
  rewrite !app_assoc. symmetry. apply Permutation_middle.
Qed.

(** What follows from the invariant when the next segment is taken. *)
Lemma take_next s ready :
  invariant s -> pending (coord s) !! next s = Some ready ->
  let flight := in_flight (with_pending (delete (next s) (pending (coord s))) (coord s)) (workers s) in
  next s ∉ flight /\ next s < next_job (coord s) /\
  flight ⊆+ seqZ (next s + 1) (next_job (coord s) - (next s + 1)) /\
  (stop (coord s) = false -> flight ≡ₚ seqZ (next s + 1) (next_job (coord s) - (next s + 1))).
Proof.
  intros Hi Hm flight. pose proof (flight_take s ready Hm) as Hf. fold flight in Hf.
  pose proof (inv_flight _ Hi) as Hsub. pose proof (inv_exact _ Hi) as Hex. pose proof (flight_NoDup s Hi) as Hn.
  rewrite Hf in Hsub, Hex, Hn. apply NoDup_cons in Hn as [Hn _].
  assert (next s ∈ seqZ (next s) (next_job (coord s) - next s)) as Hin.
  { eapply elem_of_submseteq; [|exact Hsub]. by left. }
  apply elem_of_seqZ in Hin. rewrite (seqZ_cons (next s)) in Hsub, Hex by lia.
  replace (Z.succ (next s)) with (next s + 1) in * by lia.
  replace (Z.pred (next_job (coord s) - next s)) with (next_job (coord s) - (next s + 1)) in * by lia.
  split_conj; [done|lia| |].
  - by apply (submseteq_app_inv_l _ _ [next s]).
  - intros Hs. by apply (Permutation_cons_inv (a := next s)), Hex.
Qed.

(** Other threads' files are not that of the segment taken. *)
Lemma untaken_files s ready (sh : Shared Coordination) :
  invariant s -> pending (coord s) !! next s = Some ready ->
  (forall j, j <> next s -> files sh !! j = files (shared s) !! j) ->
  Forall (worker_ok (files sh)) (workers s) /\
  (forall i c, (i, Ok c) ∈ results (coord s) -> delivered i c (files sh)) /\
  (forall i c, delete (next s) (pending (coord s)) !! i = Some c -> delivered i c (files sh)).
Proof.
  intros Hi Hm Hf. destruct (take_next s ready Hi Hm) as [Hn _]. unfold in_flight in Hn. cbn in Hn.
  rewrite !elem_of_app in Hn.
  assert (forall i c, i <> next s -> delivered i c (files (shared s)) -> delivered i c (files sh)) as Hdel.
  { intros i c Hne (b & Hb). exists b. by rewrite Hf. }
  split_conj.
  - apply Forall_lookup. intros k w Hk. eapply worker_ok_frame; [|by apply (Forall_lookup_1 _ _ _ _ (inv_workers _ Hi) Hk)].
    intros j Hj. apply Hf. intros ->. apply Hn. right; left. by eapply elem_of_holding.
  - intros i c Hc. apply Hdel; [|by apply (inv_results _ Hi)]. intros ->. apply Hn. do 2 right; left.
    apply list_elem_of_In, in_map_iff. exists (next s, Ok c). split; [done|by apply list_elem_of_In].
  - intros i c Hc. apply lookup_delete_Some in Hc as [Hne Hc]. by apply Hdel, (inv_pending _ Hi).
Qed.

(** The segment could not be appended: it is lost, and the workers stop. *)
Lemma invariant_append_failed s ready f (sh : Shared Coordination) x :
  invariant s -> pending (coord s) !! next s = Some ready ->
  output sh = output (shared s) -> target (dir sh) = target (dir (shared s)) ->
  (forall g, staged (dir (shared s)) = Some g -> staged (dir sh) = Some (g ++ x)) ->
  (forall j, j <> next s -> files sh !! j = files (shared s) !! j) ->
  coordination sh = fail_with f (with_pending (delete (next s) (pending (coord s))) (coord s)) ->
  invariant (mkSys sh (workers s) Polling).
Proof.
  intros Hi Hm Ho Ht Hst Hf Hc. destruct (take_next s ready Hi Hm) as (Hn & Hlt & Hsub & _).
  destruct (untaken_files s ready sh Hi Hm Hf) as (Hw & Hr & Hp).
  destruct Hi as [I1 I2 I3 I4 I5 I6 I7 I8 I9 I10 I11 I12 I13 I14].
  split; cbn [shared workers coordinator]; rewrite ?Hc, ?Ho, ?Ht; auto; try done.
  - cbn. etransitivity; [exact Hsub|]. rewrite (seqZ_cons (next s)) by lia. apply submseteq_cons.
    replace (Z.succ (next s)) with (next s + 1) by lia.
    by replace (Z.pred (next_job (coord s) - next s)) with (next_job (coord s) - (next s + 1)) by lia.
  - destruct I11 as (parts & rest & Hl & Hb & Hs & _ & Hg). exists parts, (rest ++ x). split_conj; auto.
    + by rewrite (Hst _ Hs), app_assoc.
    + intros [?|Hin]; [done|]. by destruct Hn.
Qed.

(** The segment is appended. *)
Lemma invariant_appended s ready b (sh : Shared Coordination) c :
  invariant s -> coordinator s = Assembling -> pending (coord s) !! next s = Some ready ->
  genuine (next s) b ->
  next_index (state (output sh)) = next s + 1 ->
  cp_bytes (state (output sh)) = cp_bytes (state (output (shared s))) + len b ->
  promoted (output sh) = promoted (output (shared s)) -> target (dir sh) = target (dir (shared s)) ->
  (forall g, staged (dir (shared s)) = Some g -> staged (dir sh) = Some (g ++ b)) ->
  (forall j, j <> next s -> files sh !! j = files (shared s) !! j) ->
  coordination sh = with_pending (delete (next s) (pending (coord s))) (coord s) ->
  c = (if jobs_open (coord s) then Releasing else Assembling) ->
  invariant (mkSys sh (workers s) c).
Proof.
  intros Hi Hco Hm Hgen Hnx Hby Hpr Ht Hst Hf Hc ->. destruct (take_next s ready Hi Hm) as (Hn & Hlt & Hsub & Hex).
  destruct (untaken_files s ready sh Hi Hm Hf) as (Hw & Hr & Hp).
  assert (next s ∈ in_flight (coord s) (workers s)) as Hin by (rewrite (flight_take s ready Hm); by left).
  destruct Hi as [I1 I2 I3 I4 I5 I6 I7 I8 I9 I10 I11 I12 I13 I14]. rewrite Hco in *.
  split; cbn [shared workers coordinator]; rewrite ?Hc, ?Hnx, ?Hpr, ?Ht; auto; try done.
  - cbn. lia.
  - cbn. intros Hopen. destruct (I4 Hopen) as (? & ? & Hw4). cbn in Hw4. rewrite Hopen. split_conj; [done|done|lia].
  - cbn. by destruct (jobs_open (coord s)).
  - intros k. by destruct (jobs_open (coord s)).
  - intros _. by destruct (jobs_open (coord s)).
  - destruct I11 as (parts & rest & Hl & Hb & Hs & Hclean & Hg).
    rewrite (Hclean (or_intror Hin)), app_nil_r in Hs. exists (parts ++ [b]), [].
    rewrite concat_app. cbn. rewrite !app_nil_r. split_conj; [|rewrite Hby, Hb|by apply Hst|done|].
    + rewrite Hnx. unfold len in *. rewrite length_app. simpl. lia.
    + unfold len. rewrite length_app. lia.
    + intros i x [Hx|[Hx Hlx]]%lookup_app_Some; [by apply Hg|].
      destruct (i - length parts)%nat as [|k] eqn:E; [|by destruct k]. injection Hlx as <-.
      replace (Z.of_nat i) with (next s); [done|]. unfold len in Hl. lia.
Qed.

(** A job is handed out. *)
Lemma invariant_release s :
  invariant s -> coordinator s = Releasing ->
  invariant (mkSys (set_coordination (release segments) (shared s)) (workers s) Assembling).
Proof.
  intros Hi Hco. pose proof (inv_releasing _ Hi Hco) as Hopen.
  destruct (inv_open _ Hi Hopen) as (Hstop & Hlt & Hw). rewrite Hco in Hw.
  assert (in_flight (release segments (coord s)) (workers s)
    ≡ₚ in_flight (coord s) (workers s) ++ [next_job (coord s)]) as Hf.
  { unfold in_flight. cbn. rewrite <- !app_assoc. apply Permutation_app_head. simpl.
    rewrite Permutation_cons_append. by rewrite <- !app_assoc. }
  destruct Hi as [I1 I2 I3 I4 I5 I6 I7 I8 I9 I10 I11 I12 I13 I14].
  assert (0 <= next_job (coord s) - next s) as Hpos by lia.
  assert (seqZ (next s) (next_job (coord s) + 1 - next s)
    = seqZ (next s) (next_job (coord s) - next s) ++ [next_job (coord s)]) as Hseq.
  { replace (next_job (coord s) + 1 - next s) with (next_job (coord s) - next s + 1) by lia.
    rewrite seqZ_app by lia. f_equal.
    by replace (next s + (next_job (coord s) - next s)) with (next_job (coord s)) by lia. }
  split; cbn [shared workers coordinator set_coordination coordination output dir]; auto; try done.
  - rewrite Hf. cbn. rewrite Hseq. by apply submseteq_skips_r.
  - intros _. rewrite Hf. cbn. rewrite Hseq. by rewrite I2.
  - cbn. lia.
  - cbn. intros Ho. apply negb_true_iff, Z.eqb_neq in Ho. split_conj; [done|lia|lia].
  - cbn. intros Ho. by apply negb_false_iff, Z.eqb_eq in Ho.
  - eapply assembled_weaken; [|exact I11]. intros _. by left.
Qed.

Lemma wp_steady {E A B} (m : St (Shared Coordination) E A) (k : A -> St _ E B) Q (R : E -> _ -> Prop) s :
  steady m -> (forall a s', same s s' -> wp (k a) Q R s') -> wp (bind m k) Q R s.
Proof.
  intros Hm HQ. apply wp_bind. destruct (Hm s) as [[a Ha] Hs]. unfold wp at 1.
  destruct (m s) as [r s']. simpl in *. subst r. by apply HQ.
Qed.

Lemma steady_tell {E} n : steady (tell (E := E) (R := Coordination) n).
Proof. intros s. by split; [eexists|]. Qed.

Lemma invariant_assemble s :
  invariant s -> coordinator s = Assembling ->
  wp (assemble (E := Empty_set) options segments) (fun c sh => invariant (mkSys sh (workers s) c)) (fun _ _ => False) (shared s).
Proof.
  intros Hi Hco. unfold assemble. apply wp_bind, wp_gets. apply wp_bind, wp_gets.
  destruct (pending (coord s) !! next s) as [ready|] eqn:Hm.
  2: { apply wp_ret. apply invariant_move; try done; by rewrite Hco. }
  destruct (inv_pending _ Hi _ _ Hm) as (b & Hfile & Hgen & Hsize).
  pose proof (inv_output _ Hi) as (parts & rest & Hl & Hb & Hs & Hclean & _).
  rewrite Hclean, app_nil_r in Hs by (right; rewrite (flight_take s ready Hm); by left).
  apply wp_bind, wp_modify, wp_bind, wp_attempt. eapply wp_mono; [by apply (wp_append _ ready b (concat parts))|..].
  - intros _ s1 (Ho1 & Hc1 & Hf1 & Ht1 & Hs1). cbn in Ho1, Hc1, Hf1, Ht1.
    apply wp_bind, wp_checkpoint_segments. intros s2 Hc2 Ht2 Hs2 Hf2 Hn2 Hb2 Hp2 _.
    apply wp_bind, wp_drop_segment. intros s3 H3 Hc3.
    apply wp_steady; [by intros ?; split; [eexists|]|]. intros n s4 H4.
    apply wp_steady; [apply steady_look|]. intros k s5 H5.
    apply wp_steady; [apply steady_item|]. intros _ s6 H6.
    apply wp_steady; [apply steady_enter|]. intros _ s7 H7.
    apply wp_steady; [apply steady_tell|]. intros _ s8 H8. apply wp_bind, wp_gets, wp_ret.
    assert (same s3 s8) as (Hd & Ho & Hc) by (unfold same in *; split_conj; intuition congruence).
    eapply (invariant_appended s ready b); try done; rewrite ?Hd, ?Ho, ?Hc.
    + by rewrite (touched_output _ _ _ H3), Hn2, Ho1.
    + by rewrite (touched_output _ _ _ H3), Hb2, Ho1.
    + by rewrite (touched_output _ _ _ H3), Hp2, Ho1.
    + by rewrite (touched_target _ _ _ H3), Ht2, Ht1.
    + intros g Hg. rewrite (touched_staged _ _ _ H3), Hs2, Hs1. congruence.
    + intros j Hj. by rewrite (touched_files _ _ _ H3), Hf2, Hf1.
    + by rewrite Hc3, Hc2, Hc1.
    + by rewrite Hc3, Hc2, Hc1.
  - intros e s1 [x (Ho1 & Hc1 & Hf1 & Ht1 & Hs1)]. cbn in Ho1, Hc1, Hf1, Ht1.
    apply wp_bind, wp_modify, wp_bind, wp_drop_segment. intros s2 H2 Hc2. apply wp_ret.
    eapply (invariant_append_failed s ready _ _ x); try done.
    + by rewrite (touched_output _ _ _ H2).
    + by rewrite (touched_target _ _ _ H2).
    + intros g Hg. rewrite (touched_staged _ _ _ H2). cbn. rewrite Hs1. congruence.
    + intros j Hj. rewrite (touched_files _ _ _ H2) by done. cbn. by rewrite Hf1.
    + rewrite Hc2. cbn. by rewrite Hc1.
Qed.

Lemma invariant_coordinator_step s running :
  invariant s -> (forall k, coordinator s <> Spawning k) ->
  wp (coordinator_step (E := Empty_set) options segments capacity running (coordinator s))
    (fun c sh => invariant (mkSys sh (workers s) c)) (fun _ _ => False) (shared s).
Proof.
  intros Hi Hk. destruct (coordinator s) as [k| | | | |] eqn:Hco; cbn [coordinator_step].
  - by destruct (Hk k).
  - apply wp_steady; [apply steady_attempt, idle_check|]. intros r s1 H1.
    pose proof (invariant_same s s1 Hi H1) as Hi1. rewrite Hco in Hi1. destruct r as [[]|e].
    + apply wp_bind, wp_ret, wp_ret.
      apply (invariant_move (mkSys s1 (workers s) Polling)); try done.
      intros Hs _. by apply (inv_assembled_next _ Hi1).
    + apply wp_bind, wp_modify, wp_ret. by apply (invariant_fail (mkSys s1 (workers s) Polling)).
  - apply wp_bind, wp_gets. destruct (results (coord s)) as [|[i [ready|f]] l] eqn:Hl.
    + apply wp_ret. apply invariant_move; try done; try (by destruct running); try (by rewrite Hco).
      intros Hs _. apply (inv_assembled_next _ Hi Hs). by rewrite Hco.
    + apply wp_bind, wp_modify, wp_bind, wp_bind, wp_gets, wp_modify, wp_ret.
      by apply (invariant_drain_ok s i ready l).
    + apply wp_bind, wp_modify, wp_bind, wp_modify, wp_ret. by apply (invariant_drain_err s i f l).
  - by apply invariant_assemble.
  - apply wp_bind, wp_gets. case_bool.
    + apply wp_bind, wp_modify, wp_ret. by apply invariant_release.
    + apply wp_ret. by rewrite <- Hco; destruct s.
  - apply wp_ret. by rewrite <- Hco; destruct s.
Qed.

Lemma run_wp {A} (m : St (Shared Coordination) Empty_set A) Q s :
  wp m Q (fun _ _ => False) s -> Q (run m s).1 (run m s).2.
Proof. unfold wp, run. by destruct (m s) as [[a|[]] s']. Qed.

Lemma invariant_step a s :
  invariant s -> invariant (step options segments spawn_error capacity a s).
Proof.
  intros Hi. destruct a as [|k]; unfold step.
  - destruct (coordinator s) as [k| | | | |] eqn:Hco; [by apply invariant_spawn|..];
      (pose proof (run_wp _ _ _ (invariant_coordinator_step s (negb (forallb is_done (workers s))) Hi
        ltac:(rewrite Hco; done))) as Hr; rewrite Hco in Hr; by destruct (run _ (shared s))).
  - destruct (workers s !! k) as [w|] eqn:Hk; [|done].
    pose proof (run_wp _ _ _ (worker_step_effect w (shared s) (Forall_lookup_1 _ _ _ _ (inv_workers _ Hi) Hk))) as He.
    destruct (run _ (shared s)) as [w' sh]. by eapply invariant_worker.
Qed.

Lemma invariant_steps l s :
  invariant s -> invariant (steps options segments spawn_error capacity l s).
Proof. revert s. induction l as [|a l IH]; intros s Hi; [done|]. apply IH. by apply invariant_step. Qed.
End invariant.
