(* ===== verification/SegmentsSpec.v ===== *)
(** * What a segmented download promises

    The theorems about [Segments]: what is published, and how much is in flight. *)

From S2P Require Import Prelude Monads Float64 RustText TransferPolicy LinkCodec Download DownloadSingle SegmentStore Segments.
From S2P Require Import SegmentsInvariant.

Section promises.
Context `{World} `{SegmentJson}.
Variables (options : DownloadOptions) (segments : list Segment).
Variables (sha256 : bytes -> bytes) (spawn_error : nat -> option string).
Variable genuine : Z -> bytes -> Prop.
Hypothesis genuine_received : forall i b, received_whole options segments i b -> genuine i b.

Implicit Types (s : Shared Coordination).

Abbreviation total := (total segments).
Abbreviation fp := (fingerprint_of segments sha256).
Abbreviation next s := (next_index (state (output s))).

(** What a checkpoint left by an earlier run must say of the staged file. *)
Definition consistent_segments (d : Dir) : Prop := forall c,
  accept_segments fp total (saved d) = Some c -> cp_bytes c <= len (default [] (staged d)) ->
  exists parts, len parts = next_index c /\ cp_bytes c = len (concat parts) /\
    take (Z.to_nat (cp_bytes c)) (default [] (staged d)) = concat parts /\
    forall i b, parts !! i = Some b -> genuine (Z.of_nat i) b.

(** An output that is open: nothing is published, the staged file holds whole segments and nothing else. *)
Definition opened (before : option bytes) (s : Shared Coordination) : Prop :=
  target (dir s) = before /\ promoted (output s) = false /\ next s <= total /\
  assembled genuine (dir s) (output s) True.

Lemma accept_segments_next data c : accept_segments fp total data = Some c -> next_index c <= total.
Proof.
  unfold accept_segments. destruct data as [data|]; [|done]. case_bool; [done|].
  destruct (decode_segments data); [|done]. destruct (_ && _) eqn:E; [|done]. intros [= <-].
  rewrite !andb_true_iff in E. lia.
Qed.

(** A call that fails leaves the directory as it was. *)
Lemma wp_io_target f before (Q : unit -> Shared Coordination -> Prop) s :
  target (dir s) = before -> (forall s', dir s' = f (dir s) -> Q tt s') ->
  wp (io f) Q (fun _ s' => target (dir s') = before) s.
Proof. intros Ht HQ. apply wp_io; [auto|]. intros e s' (Hd & _). by rewrite Hd. Qed.

(** The checkpoint an output begins with covers a prefix of the staged file. *)
Definition covered (f : bytes) (c : SegmentCheckpoint) : Prop :=
  0 <= cp_bytes c <= len f /\ next_index c <= total /\ exists parts, len parts = next_index c /\
    cp_bytes c = len (concat parts) /\ take (Z.to_nat (cp_bytes c)) f = concat parts /\
    forall i b, parts !! i = Some b -> genuine (Z.of_nat i) b.

Lemma fresh_covered f : covered f (mkSegmentCheckpoint 0 fp 0 0 0).
Proof.
  assert (0 <= total) by (unfold Segments.total, len; lia). split; [unfold len; simpl; lia|]. split; [done|]. exists [].
  split_conj; [done|done|done|]. intros i b Hib. by rewrite lookup_nil in Hib.
Qed.

Lemma checkpoint_covered (keep : bool) d0 st f :
  (keep = true -> consistent_segments d0) ->
  (forall c, st = Some c -> keep = true /\ accept_segments fp total (saved d0) = Some c) ->
  f = default [] (if bool_decide (is_Some st) then staged d0 else None) ->
  covered f (match st with
             | Some c => if cp_bytes c <=? len f then c else mkSegmentCheckpoint 0 fp 0 0 0
             | None => mkSegmentCheckpoint 0 fp 0 0 0
             end).
Proof.
  intros Hkeep Hst Hf. destruct st as [c0|]; [|apply fresh_covered]. destruct (Hst c0 eq_refl) as [Hk Hacc].
  destruct (Z.leb_spec (cp_bytes c0) (len f)) as [Hle|]; [|apply fresh_covered].
  rewrite bool_decide_eq_true_2 in Hf by eauto. subst f.
  destruct (Hkeep Hk c0 Hacc Hle) as (parts & Hl & Hb & Hp & Hg). split; [split; [rewrite Hb; unfold len; lia|done]|].
  split; [by eapply accept_segments_next|]. exists parts. by split_conj.
Qed.

Lemma wp_open_output keep irregular before s :
  target (dir s) = before -> (keep = true -> consistent_segments (dir s)) ->
  wp (open_output fp total keep irregular) (fun _ s' => opened before s') (fun _ s' => target (dir s') = before) s.
Proof.
  intros Ht Hkeep. unfold open_output. destruct irregular as [e|]; [by apply wp_throw|].
  set (d0 := dir s) in *. apply wp_bind.
  apply (wp_mono _ (fun st s' => dir s' = d0 /\
      forall c, st = Some c -> keep = true /\ accept_segments fp total (saved d0) = Some c)
    _ (fun _ s' => target (dir s') = before)); [| |auto].
  { destruct keep; [|by apply wp_ret]. apply wp_bind, wp_attempt, wp_io.
    - intros s1 Hd1 _ _. apply wp_bind, wp_gets, wp_ret. rewrite Hd1. by split.
    - intros e s1 (Hd1 & _). apply wp_bind, wp_gets, wp_ret. by split. }
  intros st s1 [Hd1 Hst]. apply wp_bind.
  apply (wp_mono _ (fun _ s' => target (dir s') = before /\
      staged (dir s') = if bool_decide (is_Some st) then staged d0 else None)
    _ (fun _ s' => target (dir s') = before)); [| |auto].
  { case_bool_decide; [apply wp_ret; by rewrite Hd1|]. apply wp_bind, wp_io_target; [by rewrite Hd1|].
    intros s2 Hd2. apply wp_io_target; [rewrite Hd2; cbn; by rewrite Hd1|]. intros s3 Hd3.
    rewrite Hd3, Hd2. cbn. by rewrite Hd1. }
  intros x2 s2 [Ht2 Hs2]. apply wp_bind, wp_io_target; [done|]. intros s3 Hd3.
  apply wp_bind, wp_io_target; [by rewrite Hd3|]. intros s4 Hd4. apply wp_bind, wp_gets.
  set (f := default [] (if bool_decide (is_Some st) then staged d0 else None)).
  assert (target (dir s4) = before /\ staged (dir s4) = Some f) as [Ht4 Hs4].
  { rewrite Hd4, Hd3. cbn. by rewrite Hs2. }
  rewrite Hs4. change (default [] (Some f)) with f. set (c := match st with Some c => _ | None => _ end).
  destruct (checkpoint_covered keep d0 st f Hkeep Hst eq_refl) as (Hc & Hn & parts & Hl & Hb & Hp & Hg).
  fold c in Hc, Hn, Hl, Hb, Hp.
  clearbody c. apply wp_bind.
  apply (wp_mono _ (fun _ s' => target (dir s') = before /\ staged (dir s') = Some f)
    _ (fun _ s' => target (dir s') = before)); [| |auto].
  { case_bool; [|by apply wp_ret]. apply wp_io_target; [done|]. intros s5 Hd5. by rewrite Hd5. }
  intros x5 s5 [Ht5 Hs5]. apply wp_bind, wp_io_target; [done|]. intros s6 Hd6.
  apply wp_bind, wp_io_target; [by rewrite Hd6|]. intros s7 Hd7.
  apply wp_bind. unfold clock. apply wp_bind. unfold call, wp at 1. apply wp_ret, wp_modify.
  unfold opened, assembled. cbn. rewrite Hd7, Hd6. cbn. rewrite Hs5. split_conj; [done|done|done|].
  exists parts, []. rewrite app_nil_r. split_conj; [done|done| |done|done]. cbn. f_equal. rewrite <- Hp.
  rewrite <- (Z2Nat.id (cp_bytes c)) at 1 by lia. apply set_len_prefix. unfold len in Hc. lia.
Qed.

(** ** The threads *)

Abbreviation capacity n := (worker_count options segments n).

Lemma invariant_started before s r :
  opened before s -> 1 <= max_parallel_segments (policy options) ->
  invariant options segments genuine before (capacity (next s))
    (mkSys (set_coordination (fun _ => started options segments (next s) r) s) [] (Spawning 0)).
Proof.
  intros (Ht & Hp & Hn & parts & rest & Hl & Hb & Hs & Hc & Hg) Hmax.
  unfold started, worker_count. set (n := Z.min _ _). assert (0 <= len parts) by (unfold len; lia).
  match goal with |- context [set_coordination (fun _ => ?c)] => assert (in_flight c [] = seqZ (next s) n) as Hf end.
  { unfold in_flight. cbn. rewrite map_to_list_empty. cbn. by rewrite app_nil_r. }
  assert (next s + n - next s = n) as Hlen by lia.
  split; cbn [shared workers coordinator set_coordination coordination output dir next_job stop jobs_open results pending
    first_failure]; rewrite ?Hf, ?Hlen; auto; try done; try lia.
  - exists parts, rest. split_conj; auto.
  - intros i c Hic. by apply elem_of_nil in Hic.
Qed.

(** Every state the threads reach. *)
Definition reachable (next received : Z) (s0 : Shared Coordination) (s : Sys) : Prop :=
  exists schedule, s = steps options segments spawn_error (capacity next) schedule
    (mkSys (set_coordination (fun _ => started options segments next received) s0) [] (Spawning 0)).

Lemma reachable_segments before s0 r (s : Sys) :
  opened before s0 -> 1 <= max_parallel_segments (policy options) -> reachable (next s0) r s0 s ->
  invariant options segments genuine before (capacity (next s0)) s.
Proof.
  intros Ho Hmax [l ->]. apply invariant_steps; [done|]. by apply invariant_started.
Qed.

(** ** Publication *)

(** A whole file in order. *)
Definition joined (c : bytes) : Prop :=
  exists parts, len parts = total /\ c = concat parts /\ forall i b, parts !! i = Some b -> genuine (Z.of_nat i) b.

Lemma wp_publish_segments before f s :
  target (dir s) = before -> staged (dir s) = Some f ->
  wp publish (fun _ s' => target (dir s') = Some f /\ promoted (output s') = true)
    (fun _ s' => target (dir s') = before) s.
Proof.
  intros Ht Hs. unfold publish. apply wp_bind, wp_io_target; [done|]. intros s1 Hd1.
  apply wp_bind, wp_idle; [apply idle_check| |intros e s2 (Hd2 & _); by rewrite Hd2, Hd1].
  intros _ s2 (Hd2 & _). apply wp_bind, wp_io_target; [by rewrite Hd2, Hd1|]. intros s3 Hd3.
  apply wp_bind, wp_modify, wp_bind, wp_attempt.
  assert (target (dir s3) = Some f) as Ht3 by (rewrite Hd3; cbn; by rewrite Hd2, Hd1).
  apply wp_io; [intros s4 Hd4 Ho4 _|intros e s4 (Hd4 & Ho4 & _)];
    (apply wp_bind, wp_attempt, wp_io; [intros s5 Hd5 Ho5 _|intros e' s5 (Hd5 & Ho5 & _)]);
    apply wp_ret; by rewrite Hd5, Hd4, Ho5, Ho4.
Qed.

Lemma wp_finish before restored s :
  target (dir s) = before -> promoted (output s) = false ->
  (restored = true \/ first_failure (coordination s) = None -> assembled genuine (dir s) (output s) True) ->
  wp (finish segments restored)
    (fun ok s' => promoted (output s') = true /\
       exists f, target (dir s') = Some f /\ joined f /\ done_size ok = len f)
    (fun _ s' => target (dir s') = before) s.
Proof.
  intros Ht Hp Hout. unfold finish. apply wp_bind.
  apply (wp_mono _ (fun f s' => s' = s /\ (f = None -> restored = true \/ first_failure (coordination s) = None))
    _ (fun _ s' => target (dir s') = before)); [| |auto].
  { destruct restored; [apply wp_ret; by auto|apply wp_gets; by auto]. }
  intros f s1 [-> Hf]. destruct f as [f|].
  { apply wp_bind, wp_checkpoint_segments. intros s2 _ Ht2 _ _ _ _ _ _. apply wp_throw. by rewrite Ht2. }
  destruct (Hout (Hf eq_refl)) as (parts & rest & Hl & Hb & Hs & Hc & Hg).
  rewrite Hc, app_nil_r in Hs by done. apply wp_bind, wp_gets.
  destruct (negb (next_index (state (output s)) =? total) || _) eqn:E; [by apply wp_throw|].
  apply orb_false_iff in E as [E _]. apply negb_false_iff, Z.eqb_eq in E.
  apply wp_bind, wp_mapping. eapply wp_mono; [by apply (wp_publish_segments before (concat parts))| |auto].
  intros _ s2 [Ht2 Hp2]. apply wp_bind, wp_modify, wp_ret. split; [done|].
  exists (concat parts). split_conj; [done| |done]. exists parts. split_conj; [congruence|done|done].
Qed.

Lemma wp_drop_segments {E} l (Q : unit -> Shared Coordination -> Prop) (R : E -> Shared Coordination -> Prop) s :
  (forall s', target (dir s') = target (dir s) -> output s' = output s -> Q tt s') -> wp (drop_segments l) Q R s.
Proof.
  revert s. induction l as [|i l IH]; intros s HQ; cbn [drop_segments]; [by apply wp_ret, HQ|].
  apply wp_bind, wp_drop_segment. intros s1 H1 _. apply IH. intros s2 Ht2 Ho2.
  apply HQ; [by rewrite Ht2, (touched_target _ _ _ H1)|by rewrite Ho2, (touched_output _ _ _ H1)].
Qed.

Lemma wp_drop_output {E} (Q : unit -> Shared Coordination -> Prop) (R : E -> Shared Coordination -> Prop) s :
  (forall s', target (dir s') = target (dir s) -> Q tt s') -> wp drop_output Q R s.
Proof.
  intros HQ. unfold drop_output. apply wp_bind, wp_gets, wp_bind, wp_drop_segments. intros s1 Ht1 _.
  case_bool; [|by apply wp_ret, HQ].
  apply wp_bind, wp_attempt, wp_io; [intros s2 Hd2 _ _|intros e s2 (Hd2 & _)];
    (destruct (promoted (output s)); [apply wp_ret, HQ; by rewrite Hd2|]);
    (apply wp_bind, wp_attempt, wp_io; [intros s3 Hd3 _ _|intros e' s3 (Hd3 & _)]);
    apply wp_ret, HQ; by rewrite Hd3, Hd2.
Qed.

Lemma opened_same before s s' : same s s' -> opened before s -> opened before s'.
Proof. intros (Hd & Ho & _) Hs. unfold opened, assembled in *. by rewrite Hd, Ho. Qed.

Lemma transfer_outcome before schedule s r s' :
  opened before s -> 1 <= max_parallel_segments (policy options) ->
  transfer options segments spawn_error schedule s = Some (r, s') ->
  match r with
  | Ok ok => exists f, target (dir s') = Some f /\ joined f /\ done_size ok = len f
  | Err _ => target (dir s') = before
  end.
Proof.
  intros Ho Hmax. unfold transfer.
  set (pre := (item ItemStart;; _)). assert (same s (run pre s).2) as Hsame by done.
  destruct (run pre s) as [x s1]. simpl in Hsame. pose proof (opened_same _ _ _ Hsame Ho) as Ho1.
  assert (forall restored s2, target (dir s2) = before -> promoted (output s2) = false ->
    (restored = true \/ first_failure (coordination s2) = None -> assembled genuine (dir s2) (output s2) True) ->
    finish segments restored s2 = (r, s') ->
    match r with
    | Ok ok => exists f, target (dir s') = Some f /\ joined f /\ done_size ok = len f
    | Err _ => target (dir s') = before
    end) as Hfin.
  { intros b s2 Ht2 Hp2 Ha2 E. pose proof (wp_finish before b s2 Ht2 Hp2 Ha2) as Hw. unfold wp in Hw.
    rewrite E in Hw. destruct r; [by destruct Hw|done]. }
  case_bool; [intros [= E]; eapply Hfin; [apply Ho1|apply Ho1|intros _; apply Ho1|exact E]|].
  unfold threads. set (s2 := steps _ _ _ _ _ _). destruct (coordinator s2) eqn:Ec; try done.
  intros [= E]. assert (next s1 = next s) as Hn1 by (destruct Hsame as (_ & Hout & _); by rewrite Hout).
  assert (invariant options segments genuine before (capacity (next s1)) s2) as Hi.
  { eapply reachable_segments; [exact Ho1|done|]. eexists. unfold s2. by rewrite Hn1. }
  apply (Hfin false (shared s2)); [apply (inv_target _ _ _ _ _ _ Hi)|apply (inv_target _ _ _ _ _ _ Hi)| |exact E].
  intros [?|Hff]; [done|]. eapply assembled_weaken; [|exact (inv_output _ _ _ _ _ _ Hi)]. intros _. left.
  destruct (stop (coordination (shared s2))) eqn:Est; [|done].
  apply (inv_failed _ _ _ _ _ _ Hi) in Est. rewrite Hff in Est. by destruct Est.
Qed.

(** C3: Segments are published whole, complete and in order.  However the workers and the coordinator
    interleave, and whatever breaks, is retried, resumed or cancelled on the way, a segmented download
    that succeeds leaves at the target exactly the concatenation, in the order of the list, of one
    whole body for each segment, and reports its size; one that fails leaves the target as it was. *)
Theorem segments_integrity schedule lock irregular s r s'
  (Hparallel : 1 <= max_parallel_segments (policy options))
  (Hdisk : persistent options = true -> consistent_segments (dir s))
  (Hrun : download options segments sha256 spawn_error schedule lock irregular s = Some (r, s')) :
  match r with
  | Ok ok => exists f, target (dir s') = Some f /\ joined f /\ done_size ok = len f
  | Err _ => target (dir s') = target (dir s)
  end.
Proof.
  unfold download in Hrun. destruct lock as [[]|e]; [|by injection Hrun as <- <-].
  pose proof (wp_open_output (persistent options) irregular (target (dir s)) s eq_refl Hdisk) as Hopen.
  unfold wp in Hopen. destruct (open_output _ _ _ _ s) as [[[]|e] s1]; [|by injection Hrun as <- <-].
  destruct (transfer options segments spawn_error schedule s1) as [[r1 s2]|] eqn:Et; [|done].
  injection Hrun as <- <-. pose proof (transfer_outcome _ _ _ _ _ Hopen Hparallel Et) as Ht.
  assert (target (dir (run drop_output s2).2) = target (dir s2)) as Hdrop.
  { apply (run_wp drop_output (fun _ s' => target (dir s') = target (dir s2))). by apply wp_drop_output. }
  by destruct r1; rewrite Hdrop.
Qed.
End promises.
