(* ===== verification/SegmentsLiveness.v ===== *)
(** * The threads of a segmented download end

    A measure that no step increases, and the steps that leave it alone: a thread that waits.  In a
    fair schedule, where every thread moves again and again, something is always left to do, so the
    measure falls until the threads have ended. *)

From S2P Require Import Prelude Float64 LinkCodec RustText TransferPolicy Monads Download DownloadSingle SegmentStore Segments SegmentsInvariant.
From S2P Require Import SegmentsSpec.

(** ** The number of calls never falls *)

Section ticks.
Context `{World} `{SegmentJson}.

(** Computations that only advance the number of calls, as far as the coordination is concerned, and
    those that may also change it. *)
Definition advances {E A} (m : St (Shared Coordination) E A) : Prop :=
  forall s, (tick s <= tick (m s).2)%nat /\ coordination (m s).2 = coordination s.
Definition ticking {E A} (m : St (Shared Coordination) E A) : Prop := forall s, (tick s <= tick (m s).2)%nat.

Lemma advances_ticking {E A} (m : St (Shared Coordination) E A) : advances m -> ticking m.
Proof. intros Hm s. apply Hm. Qed.

Lemma advances_bind {E A B} (m : St (Shared Coordination) E A) (k : A -> St (Shared Coordination) E B) :
  advances m -> (forall a, advances (k a)) -> advances (bind m k).
Proof.
  intros Hm Hk s. specialize (Hm s). unfold bind. destruct (m s) as [[a|e] s']; [|done].
  destruct (Hk a s') as [? Hc], Hm as [? Hc']. simpl in *. rewrite Hc, Hc'. split; [lia|done].
Qed.
Lemma ticking_bind {E A B} (m : St (Shared Coordination) E A) (k : A -> St (Shared Coordination) E B) :
  ticking m -> (forall a, ticking (k a)) -> ticking (bind m k).
Proof.
  intros Hm Hk s. specialize (Hm s). unfold bind. destruct (m s) as [[a|e] s']; [|done].
  specialize (Hk a s'). simpl in *. lia.
Qed.
Lemma advances_attempt {E F A} (m : St (Shared Coordination) E A) : advances m -> advances (attempt (F := F) m).
Proof. intros Hm s. specialize (Hm s). unfold attempt. by destruct (m s). Qed.
Lemma advances_ret {E A} (a : A) : advances (ret (E := E) a).
Proof. intros s. by split. Qed.
Lemma advances_throw {E A} (e : E) : advances (throw (A := A) e).
Proof. intros s. by split. Qed.
Lemma advances_gets {E A} (f : Shared Coordination -> A) : advances (gets (E := E) f).
Proof. intros s. by split. Qed.
Lemma advances_call {E} : advances (call (E := E)).
Proof. intros s. split; simpl; [lia|done]. Qed.
Lemma advances_dir {E} f : advances (modify (E := E) (set_dir f)).
Proof. intros s. by split. Qed.
Lemma advances_output {E} f : advances (modify (E := E) (set_output f)).
Proof. intros s. by split. Qed.
Lemma advances_tell {E} n : advances (tell (E := E) n).
Proof. intros s. by split. Qed.
Lemma ticking_update {E} f : ticking (update (E := E) f).
Proof. intros s. simpl. lia. Qed.
End ticks.

Create HintDb ticks.
#[export] Hint Resolve advances_bind advances_attempt advances_ret advances_throw advances_gets advances_call advances_dir
  advances_output advances_tell : ticks.

Ltac ticks := repeat (eauto with ticks; first [apply advances_bind; [|intros ?] | case_match | case_bool]).

Section operations.
Context `{World} `{SegmentJson}.

Lemma advances_check : advances check.
Proof. unfold check. ticks. Qed.
Lemma advances_clock {E} : advances (clock (E := E)).
Proof. unfold clock. ticks. Qed.
Lemma advances_io f : advances (io f).
Proof. unfold io. ticks. Qed.
#[local] Hint Resolve advances_check advances_clock advances_io : ticks.
Lemma advances_copy l : advances (copy_blocks l).
Proof. induction l; cbn [copy_blocks]; unfold write_staged; ticks. Qed.
#[local] Hint Resolve advances_copy : ticks.
Lemma advances_append i n : advances (append i n).
Proof. unfold append. ticks. Qed.
Lemma advances_save : advances save.
Proof. unfold save. ticks. Qed.
#[local] Hint Resolve advances_save : ticks.
Lemma advances_checkpoint {E} b : advances (checkpoint (E := E) b).
Proof. unfold checkpoint. ticks. Qed.
Lemma advances_drop_segment {E} i : advances (drop_segment (E := E) i).
Proof. unfold drop_segment. ticks. Qed.
Lemma advances_open_segment i : advances (open_segment i).
Proof. unfold open_segment. ticks. Qed.
Lemma advances_write_segment i bs : advances (write_segment i bs).
Proof. unfold write_segment. ticks. Qed.
Lemma advances_look {E A} (f : Coordination -> A) : advances (look (E := E) f).
Proof. unfold look. ticks. Qed.
Lemma advances_enter {E} options b : advances (enter options (E := E) b).
Proof. unfold enter, item. ticks. Qed.
#[local] Hint Resolve advances_look : ticks.
Lemma advances_check_worker : advances check_worker.
Proof. unfold check_worker. ticks. Qed.
End operations.

#[export] Hint Resolve advances_check advances_clock advances_io advances_append advances_checkpoint advances_drop_segment
  advances_open_segment advances_write_segment advances_look advances_enter advances_check_worker ticking_update
  advances_ticking : ticks.

Ltac tocks := repeat (eauto with ticks; first [apply ticking_bind; [|intros ?] | case_match | case_bool]).

Section steps_tick.
Context `{World} `{SegmentJson}.
Variables (options : DownloadOptions) (segments : list Segment).

Lemma ticking_end_body {E} i n d size st r : ticking (end_body (E := E) i n d size st r).
Proof. unfold end_body. tocks. Qed.
#[local] Hint Resolve ticking_end_body : ticks.

Lemma ticking_worker capacity w : ticking (worker_step (E := Empty_set) options segments capacity w).
Proof.
  destruct w; cbn [worker_step]; unfold connect, read_once, retry_or_send, wait_on, item; tocks.
Qed.

Lemma ticking_coordinator capacity running c :
  ticking (coordinator_step (E := Empty_set) options segments capacity running c).
Proof. destruct c; cbn [coordinator_step]; unfold assemble, item; tocks. Qed.
End steps_tick.

(** ** The measure *)

Section measure.
Context `{World} `{SegmentJson}.
Variables (options : DownloadOptions) (segments : list Segment).
Variable spawn_error : nat -> option string.
Variable genuine : Z -> bytes -> Prop.
Hypothesis genuine_received : forall i b, received_whole options segments i b -> genuine i b.
Variable before : option bytes.
Variable capacity : Z.
(** A bound on the reads of one body. *)
Variable most_reads : Z.

Abbreviation allowed := (max_attempts options).
Abbreviation coord s := (coordination (shared s)).
Abbreviation next s := (next_index (state (output (shared s)))).

Hypothesis allowed_pos : 1 <= allowed.
Hypothesis reads_nonneg : 0 <= most_reads.
Hypothesis reads_bounded : forall t r st, open_stream_at t r = Ok st -> len (chunks st) <= most_reads.

Definition per_attempt : Z := most_reads + 40.
Definition left_after (n : Z) : Z := (allowed - n) * per_attempt.

(** What a worker still has to do. *)
Definition work (w : Worker) : Z :=
  match w with
  | Done => 0
  | Receiving => 1
  | Idle => 2
  | Sending _ _ => 20
  | Waiting _ n _ _ _ => left_after n + 21
  | Broken _ n _ _ => left_after n + 22
  | Reading _ n _ _ rest _ _ => left_after n + 23 + len rest
  | Connecting _ n _ _ => left_after n + most_reads + 24
  | Opening _ n _ => left_after n + most_reads + 25
  | Starting _ n _ => left_after n + most_reads + 26
  end.

(** The attempt of a worker is one of those allowed. *)
Definition within (w : Worker) : Prop :=
  match w with
  | Starting _ n _ | Opening _ n _ | Connecting _ n _ _ | Broken _ n _ _ => 1 <= n <= allowed
  | Reading _ n _ _ rest _ _ => 1 <= n <= allowed /\ len rest <= most_reads
  | Waiting _ n _ _ _ => 1 <= n < allowed
  | Idle | Receiving | Sending _ _ | Done => True
  end.

(** A worker that waits: for the next step to leave it as it is. *)
Definition waits (w : Worker) (s : Shared Coordination) : Prop :=
  match w with
  | Receiving => jobs (coordination s) = [] /\ jobs_open (coordination s) = true
  | Waiting _ _ _ began retry => sat_sub (instant_at (tick s)) began < retry
  | Sending _ _ => capacity <= len (results (coordination s))
  | Done => True
  | _ => False
  end.

Definition per_job : Z := (allowed + 1) * per_attempt + 60.

(** The work that is left for the jobs, the worker and the results. *)
Definition load (w : Worker) (c : Coordination) : Z := per_job * len (jobs c) + work w + 10 * len (results c).

(** The step of a worker: it gets on with its work, or it waits. *)
Definition gets_on (w : Worker) (s : Shared Coordination) (w' : Worker) (s' : Shared Coordination) : Prop :=
  within w' /\
  (load w' (coordination s') < load w (coordination s) \/
   (w' = w /\ coordination s' = coordination s /\ waits w s /\ (w <> Done -> w <> Receiving ->
     (forall i r, w <> Sending i r) -> (tick s < tick s')%nat))).

Lemma worker_wp_gets_on i m w s :
  worker_wp i m (fun w' _ => within w' /\ work w' < work w) s -> wp m (fun w' s' => gets_on w s w' s') (fun _ _ => False) s.
Proof.
  intros Hm. eapply wp_mono; [exact Hm| |done]. intros w' s' (Ht & Hw & Hlt). split; [done|]. left.
  unfold load. rewrite (touched_jobs _ _ _ Ht), (touched_results _ _ _ Ht). lia.
Qed.

Ltac step_on := first [apply worker_wp_steady; [first [apply steady_enter|apply steady_item|apply steady_look|apply steady_call
  |apply steady_clock|apply steady_attempt, idle_check_worker]|intros ? ? _]|apply worker_wp_drop; intros ?
  |apply worker_wp_update; [done|intros ? _]|case_bool|case_match|apply worker_wp_ret].

Lemma work_end_body i n d size st r s (w : Worker) :
  1 <= n <= allowed -> left_after n + 22 < work w ->
  worker_wp i (end_body i n d size st r) (fun w' _ => within w' /\ work w' < work w) s.
Proof.
  intros Hn Hw. assert (0 <= left_after n) by (unfold left_after, per_attempt; nia).
  unfold end_body. case_bool; repeat step_on; (split; [done|simpl; lia]).
Qed.

Lemma left_nonneg n : n <= allowed -> 0 <= left_after n.
Proof. unfold left_after, per_attempt. nia. Qed.
Lemma left_next n : n < allowed -> left_after n = left_after (n + 1) + most_reads + 40.
Proof. unfold left_after, per_attempt. nia. Qed.

Lemma worker_step_gets_on w s :
  within w -> wp (worker_step (E := Empty_set) options segments capacity w) (fun w' s' => gets_on w s w' s') (fun _ _ => False) s.
Proof.
  intros Hw. destruct w as [| |i n d|i n d|i n d b|i n d st rest size b|i n d f|i n d t0 r|i r|];
    cbn [worker_step]; try pose proof (left_nonneg n ltac:(simpl in Hw; lia)) as Hleft.
  - apply (worker_wp_gets_on 0). repeat step_on; done.
  - apply wp_bind, wp_gets. destruct (jobs (coordination s)) as [|i l] eqn:Hj.
    + apply wp_bind, wp_gets, wp_ret. destruct (jobs_open (coordination s)) eqn:Ho; (split; [done|]).
      * right. by split_conj.
      * left. unfold load. simpl. lia.
    + apply wp_bind, wp_modify, wp_ret. split; [simpl; lia|]. left. unfold load. rewrite Hj. simpl.
      unfold len, per_job, left_after, per_attempt. simpl. nia.
  - apply (worker_wp_gets_on i). repeat step_on; (split; [done|simpl; lia]).
  - apply (worker_wp_gets_on i), worker_wp_attempt. eapply wp_mono; [apply wp_open_segment|..].
    + intros _ s1 [Ht _]. split; [done|]. repeat step_on; (split; [done|simpl; lia]).
    + intros e s1 Ht. split; [done|]. repeat step_on; (split; [done|simpl; lia]).
  - apply (worker_wp_gets_on i). unfold connect. step_on. apply worker_wp_bind. unfold call at 1, worker_wp at 1, wp at 1.
    split; [by apply same_touched|]. destruct (open_stream_at _ _) as [st|e] eqn:Ho.
    + pose proof (reads_bounded _ _ _ Ho). repeat step_on; (split; [done|simpl; lia]).
    + repeat step_on. split; [done|simpl; lia].
  - destruct Hw as [Hn Hr]. apply (worker_wp_gets_on i). unfold read_once. step_on.
    destruct rest as [|x rest]; [apply work_end_body; [done|cbn [work]; unfold len; simpl; lia]|].
    apply worker_wp_attempt. eapply wp_mono; [apply wp_write_segment|..].
    + intros _ s2 [Ht _]. split; [done|]. repeat step_on. split; [|cbn [work]; unfold len; simpl; lia].
      split; [done|]. unfold len in *. simpl in Hr. lia.
    + intros e s2 Ht. split; [done|]. apply work_end_body; [done|]. cbn [work]. unfold len. simpl. lia.
  - apply (worker_wp_gets_on i). unfold retry_or_send. repeat step_on; (split; [|simpl; lia]); simpl in *; lia.
  - unfold wait_on. apply wp_bind. unfold clock. apply wp_bind. unfold call at 1, wp at 1. apply wp_ret.
    destruct (Z.ltb_spec (sat_sub (instant_at (tick s)) t0) r) as [Hlt|Hge].
    + apply wp_bind. pose proof (advances_attempt (F := Empty_set) _ advances_check_worker) as Hadv.
      match goal with |- wp (attempt check_worker) _ _ ?s1 => destruct (Hadv s1) as [Htick Hc];
        destruct (steady_attempt (F := Empty_set) _ idle_check_worker s1) as [[x Hx] _] end.
      unfold wp. destruct (attempt check_worker _) as [y s2]. simpl in *. subst y.
      destruct x as [[]|e]; (split; [done|]).
      * right. split_conj; [done|done|done|]. intros _ _ _. lia.
      * left. unfold load. rewrite Hc. simpl. lia.
    + apply wp_bind. unfold call at 1, wp at 1. apply wp_ret. split; [simpl in *; lia|]. left.
      unfold load. simpl in *. rewrite (left_next n) in * by lia. lia.
  - apply wp_bind, wp_gets. destruct (Z.ltb_spec (len (results (coordination s))) capacity) as [Hlt|Hge].
    + apply wp_bind, wp_modify, wp_ret. split; [by destruct r|]. left. unfold load. simpl.
      unfold len. rewrite length_app. simpl. destruct r; simpl; lia.
    + apply wp_ret. split; [done|]. right. split_conj; [done|done|done|]. by intros _ _ Hs; destruct (Hs i r).
  - apply wp_ret. split; [done|]. right. by split_conj.
Qed.

(** What the coordinator still has to do. *)
Definition errands (c : Coordinator) : Z :=
  match c with
  | Spawning k => 3 * Z.max 0 (capacity - Z.of_nat k) + 1
  | Releasing => 2
  | Assembling => 1
  | Polling | Draining | Finished => 0
  end.

Definition burden (c : Coordination) : Z :=
  per_job * (len (jobs c) + (total segments - next_job c)) + 10 * len (results c) + 5 * Z.of_nat (base.size (pending c)).

(** A step of the coordinator that gets nothing done: it checks, or looks for a result in vain. *)
Definition looks_around (s : Sys) (running : bool) (c : Coordinator) (sh : Shared Coordination) : Prop :=
  jobs (coordination sh) = jobs (coord s) /\ results (coordination sh) = results (coord s) /\
  pending (coordination sh) = pending (coord s) /\ next_job (coordination sh) = next_job (coord s) /\
  (jobs_open (coordination sh) = true -> jobs_open (coord s) = true) /\
  match coordinator s with
  | Polling => c = Draining
  | Draining => results (coord s) = [] /\ c = (if running then Polling else Finished)
  | Finished => c = Finished
  | Releasing => capacity <= len (jobs (coord s)) /\ c = Releasing
  | _ => False
  end.

Definition coordinates (s : Sys) (running : bool) (c : Coordinator) (sh : Shared Coordination) : Prop :=
  (forall k, c <> Spawning k) /\
  (burden (coordination sh) + errands c < burden (coord s) + errands (coordinator s) \/ looks_around s running c sh).

Lemma wp_advances {A B} (m : St (Shared Coordination) Empty_set A) (k : A -> St _ _ B) Q s :
  advances m -> (forall a s', coordination s' = coordination s -> wp (k a) Q (fun _ _ => False) s') ->
  wp (bind m k) Q (fun _ _ => False) s.
Proof.
  intros Hm Hk. apply wp_bind. specialize (Hm s). unfold wp at 1. destruct (m s) as [[a|[]] s']. apply Hk, Hm.
Qed.

Lemma size_delete_pending (m : gmap Z Completed) i ready :
  m !! i = Some ready -> Z.of_nat (base.size (delete i m)) = Z.of_nat (base.size m) - 1.
Proof. intros Hm. rewrite <- (insert_delete_id _ _ _ Hm) at 2. rewrite map_size_insert_None by apply lookup_delete_eq. lia. Qed.

Lemma assemble_coordinates s :
  coordinator s = Assembling ->
  wp (assemble (E := Empty_set) options segments) (fun c sh => forall running, coordinates s running c sh) (fun _ _ => False) (shared s).
Proof.
  intros Hco. unfold assemble. apply wp_bind, wp_gets, wp_bind, wp_gets.
  destruct (pending (coord s) !! next s) as [ready|] eqn:Hm.
  2: { apply wp_ret. intros running. split; [done|]. left. rewrite Hco. simpl. lia. }
  pose proof (size_delete_pending _ _ _ Hm) as Hsize.
  apply wp_bind, wp_modify. apply wp_advances; [apply advances_attempt, advances_append|]. intros [[]|e] s1 Hc1.
  - apply wp_advances; [apply advances_checkpoint|]. intros _ s2 Hc2.
    apply wp_advances; [apply advances_drop_segment|]. intros _ s3 Hc3.
    apply wp_advances; [apply advances_gets|]. intros n s4 Hc4.
    apply wp_advances; [apply advances_look|]. intros k s5 Hc5.
    apply wp_advances; [apply advances_tell|]. intros _ s6 Hc6.
    apply wp_advances; [apply advances_enter|]. intros _ s7 Hc7.
    apply wp_advances; [apply advances_tell|]. intros _ s8 Hc8. apply wp_bind, wp_gets, wp_ret.
    assert (coordination s8 = with_pending (delete (next s) (pending (coord s))) (coord s)) as Hc
      by (rewrite Hc8, Hc7, Hc6, Hc5, Hc4, Hc3, Hc2, Hc1; done).
    intros running. split; [by destruct (jobs_open _)|]. left. rewrite Hco. unfold burden. rewrite Hc. cbn.
    destruct (jobs_open (coord s)); simpl; lia.
  - apply wp_bind, wp_modify. apply wp_advances; [apply advances_drop_segment|]. intros _ s2 Hc2. apply wp_ret.
    intros running. split; [done|]. left. rewrite Hco. unfold burden. rewrite Hc2. cbn. rewrite Hc1. cbn. lia.
Qed.

Lemma coordinator_step_coordinates s running :
  (forall k, coordinator s <> Spawning k) ->
  wp (coordinator_step (E := Empty_set) options segments capacity running (coordinator s))
    (fun c sh => coordinates s running c sh) (fun _ _ => False) (shared s).
Proof.
  intros Hk. destruct (coordinator s) as [k| | | | |] eqn:Hco; cbn [coordinator_step].
  - by destruct (Hk k).
  - apply wp_advances; [apply advances_attempt, advances_check|]. intros r s1 Hc1.
    destruct r as [[]|e]; [apply wp_bind, wp_ret, wp_ret|apply wp_bind, wp_modify, wp_ret];
      (split; [done|]); right; unfold looks_around; rewrite Hco; cbn; rewrite ?Hc1; by split_conj.
  - apply wp_bind, wp_gets. destruct (results (coord s)) as [|[i [ready|f]] l] eqn:Hl.
    + apply wp_ret. split; [by destruct running|]. right. unfold looks_around. rewrite Hco. by split_conj.
    + apply wp_bind, wp_modify, wp_bind, wp_bind, wp_gets, wp_modify, wp_ret. split; [done|]. left. rewrite Hco. unfold burden. cbn.
      rewrite Hl. unfold len. simpl. rewrite map_size_insert. destruct (pending (coord s) !! i); simpl; lia.
    + apply wp_bind, wp_modify, wp_bind, wp_modify, wp_ret. split; [done|]. left. rewrite Hco. unfold burden. cbn.
      rewrite Hl. unfold len. simpl. lia.
  - eapply wp_mono; [by apply assemble_coordinates| |done]. intros c sh Hc. apply Hc.
  - apply wp_bind, wp_gets. destruct (Z.ltb_spec (len (jobs (coord s))) capacity).
    + apply wp_bind, wp_modify, wp_ret. split; [done|]. left. rewrite Hco. unfold burden, len. cbn. rewrite length_app. simpl. lia.
    + apply wp_ret. split; [by destruct running|]. right. unfold looks_around. rewrite Hco. by split_conj.
  - apply wp_ret. split; [by destruct running|]. right. unfold looks_around. rewrite Hco. by split_conj.
Qed.

Definition all_work (ws : list Worker) : Z := foldr (fun w n => work w + n) 0 ws.

Lemma all_work_insert k w w' ws :
  ws !! k = Some w -> all_work (<[k:=w']> ws) = all_work ws - work w + work w'.
Proof.
  revert k. induction ws as [|x ws IH]; intros [|k] Hk; [done|done|injection Hk as ->; simpl; lia|].
  simpl. rewrite (IH k Hk). lia.
Qed.

Lemma all_work_app ws w : all_work (ws ++ [w]) = all_work ws + work w.
Proof. induction ws; simpl; lia. Qed.

Definition weight (s : Sys) : Z := burden (coord s) + all_work (workers s) + errands (coordinator s).

Abbreviation step_of := (step options segments spawn_error capacity).
Abbreviation kept := (invariant options segments genuine before capacity).

(** The invariant and what the measure needs. *)
Definition alive (s : Sys) : Prop :=
  kept s /\ Forall within (workers s) /\ len (workers s) <= capacity /\
  (forall k, coordinator s = Spawning k -> len (workers s) = Z.of_nat k).

Lemma work_nonneg w : within w -> 0 <= work w.
Proof.
  destruct w as [| |i n d|i n d|i n d b|i n d st rest size b|i n d f|i n d t0 r|i r|]; simpl; try lia; intros Hw;
    pose proof (left_nonneg n ltac:(lia)); unfold len in *; lia.
Qed.

Lemma weight_nonneg s : alive s -> 0 <= weight s.
Proof.
  intros (Hi & Hw & _). assert (0 <= all_work (workers s)).
  { induction Hw as [|w ws Hx Hws IH]; [done|]. pose proof (work_nonneg w Hx). simpl. lia. }
  pose proof (inv_window _ _ _ _ _ _ Hi) as (_ & Hn & _).
  assert (0 <= errands (coordinator s)) by (destruct (coordinator s); simpl; lia).
  assert (0 <= per_job * (len (jobs (coord s)) + (total segments - next_job (coord s)))).
  { apply Z.mul_nonneg_nonneg; [unfold per_job, per_attempt; nia|unfold len; lia]. }
  unfold weight, burden, len in *. lia.
Qed.

(** Channels are never full when a thread sends. *)
Lemma channels_have_room s :
  kept s -> len (jobs (coord s)) <= capacity /\ len (results (coord s)) <= capacity /\
  (coordinator s = Releasing -> len (jobs (coord s)) < capacity) /\
  (forall k i r, workers s !! k = Some (Sending i r) -> len (results (coord s)) < capacity).
Proof.
  intros Hi. pose proof (submseteq_length _ _ (inv_flight _ _ _ _ _ _ Hi)) as Hl.
  pose proof (inv_window _ _ _ _ _ _ Hi) as (Hn & _ & Hw). rewrite length_seqZ in Hl.
  unfold in_flight in Hl. rewrite !length_app, !length_map in Hl. unfold len. split_conj; [lia|lia| |].
  - intros Hco. destruct (inv_open _ _ _ _ _ _ Hi) as (_ & _ & Hr); [by apply (inv_releasing _ _ _ _ _ _ Hi)|].
    rewrite Hco in Hr. lia.
  - intros k i r Hk. assert (0 < length (flat_map holding (workers s)))%nat; [|lia].
    pose proof (elem_of_holding i k _ _ Hk) as Hin. destruct (flat_map holding (workers s)); [|simpl; lia].
    exfalso. apply (not_elem_of_nil i), Hin. simpl. by left.
Qed.

(** A step that leaves the work as it is. *)
Record still (s s' : Sys) : Prop := {
  still_workers : workers s' = workers s;
  still_jobs : jobs (coord s') = jobs (coord s);
  still_results : results (coord s') = results (coord s);
  still_pending : pending (coord s') = pending (coord s);
  still_next : next_job (coord s') = next_job (coord s);
  still_open : jobs_open (coord s') = true -> jobs_open (coord s) = true;
  still_tick : (tick (shared s) <= tick (shared s'))%nat;
  still_coordinator : coordinator s' = coordinator s \/
    (coordinator s = Polling \/ coordinator s = Draining) /\ (coordinator s' = Polling \/ coordinator s' = Draining) }.

#[local] Instance still_preorder : PreOrder still.
Proof.
  split; [intros s; split; auto|]. intros s1 s2 s3 [A1 A2 A3 A4 A5 A6 A7 A8] [B1 B2 B3 B4 B5 B6 B7 B8].
  split; [congruence..|auto|lia|]. destruct A8 as [E|[? ?]], B8 as [E'|[? ?]]; intuition congruence.
Qed.

Lemma still_weight s s' : still s s' -> weight s' = weight s.
Proof.
  intros [A1 A2 A3 A4 A5 _ _ A8]. unfold weight, burden. rewrite A1, A2, A3, A4, A5.
  destruct A8 as [->|[[->| ->] [->| ->]]]; done.
Qed.

(** What an actor waits for when its step changes nothing. *)
Definition waiting (a : Actor) (s s' : Sys) : Prop :=
  match a with
  | TheWorker k => forall w, workers s !! k = Some w -> waits w (shared s) /\
      (w <> Done -> w <> Receiving -> (forall i r, w <> Sending i r) -> (tick (shared s) < tick (shared s'))%nat)
  | TheCoordinator =>
    match coordinator s with
    | Polling => coordinator s' = Draining
    | Draining => results (coord s) = [] /\ forallb is_done (workers s) = false
    | Releasing => capacity <= len (jobs (coord s))
    | _ => False
    end
  end.

Lemma step_weight a s :
  alive s -> coordinator s <> Finished ->
  weight (step_of a s) < weight s \/ coordinator (step_of a s) = Finished \/
  still s (step_of a s) /\ waiting a s (step_of a s).
Proof.
  intros (Hi & Hw & Hlen & Hspawn) Hfin. destruct a as [|k]; cbn [step waiting].
  - destruct (coordinator s) as [k| | | | |] eqn:Hco; try done.
    { left. unfold spawn, weight. rewrite Hco. cbn [errands]. destruct (Z.ltb_spec (Z.of_nat k) capacity).
      - destruct (spawn_error k); cbn [shared workers coordinator]; unfold burden; cbn; [lia|].
        rewrite all_work_app. simpl. lia.
      - cbn [shared workers coordinator errands]. lia. }
    all: pose proof (run_wp _ _ _ (coordinator_step_coordinates s (negb (forallb is_done (workers s))) ltac:(by rewrite Hco))) as Hr;
      pose proof (ticking_coordinator options segments capacity (negb (forallb is_done (workers s))) (coordinator s) (shared s)) as Ht;
      rewrite Hco in Hr, Ht; unfold run in *; destruct (coordinator_step _ _ _ _ _ (shared s)) as [[c|[]] sh]; cbn in Hr, Ht.
    all: destruct Hr as [_ [Hlt|(H1 & H2 & H3 & H4 & H5 & H6)]]; [left; rewrite Hco in Hlt; unfold weight; rewrite Hco; cbn [shared workers coordinator]; lia|].
    all: rewrite Hco in H6; try done.
    + right; right. subst c. split; [|done]. split; auto.
    + destruct H6 as [Hnil ->]. destruct (forallb is_done (workers s)) eqn:Hd; [by right; left|]. simpl.
      right; right. split; [|done]. split; auto.
    + destruct H6 as [Hfull ->]. right; right. split; [|done]. split; auto.
  - destruct (workers s !! k) as [w|] eqn:Hk; [|right; right; by split].
    pose proof (run_wp _ _ _ (worker_step_gets_on w (shared s) (Forall_lookup_1 _ _ _ _ Hw Hk))) as Hr.
    pose proof (run_wp _ _ _ (worker_step_effect options segments genuine capacity genuine_received w (shared s)
      (Forall_lookup_1 _ _ _ _ (inv_workers _ _ _ _ _ _ Hi) Hk))) as He.
    pose proof (ticking_worker options segments capacity w (shared s)) as Ht.
    unfold run in *. destruct (worker_step _ _ _ w (shared s)) as [[w'|[]] sh]. cbn in Hr, He, Ht.
    destruct (effect_frame _ _ _ _ _ _ _ _ He) as (_ & _ & _ & Hopen & Hnext & _ & Hp & _).
    destruct Hr as [_ [Hlt|(-> & Hc & Hwaits & Htick)]].
    + left. unfold weight, burden, load in *. cbn [shared workers coordinator]. rewrite (all_work_insert _ _ _ _ Hk), Hnext, Hp. lia.
    + right; right. split.
      * split; cbn; rewrite ?Hc; auto. by rewrite list_insert_id.
      * intros w0 [= <-]. by split.
Qed.

Lemma alive_step a s : alive s -> alive (step_of a s).
Proof.
  intros (Hi & Hw & Hlen & Hspawn). split; [by apply invariant_step|]. destruct a as [|k]; cbn [step].
  - destruct (coordinator s) as [k| | | | |] eqn:Hco.
    { unfold spawn. destruct (Z.ltb_spec (Z.of_nat k) capacity); [destruct (spawn_error k)|]; cbn; try by split_conj.
      specialize (Hspawn k eq_refl). unfold len in *. rewrite length_app. simpl. split_conj.
      - apply Forall_app. by split; [|repeat constructor].
      - lia.
      - intros k' [= <-]. lia. }
    all: pose proof (run_wp _ _ _ (coordinator_step_coordinates s (negb (forallb is_done (workers s))) ltac:(by rewrite Hco))) as Hr;
      rewrite Hco in Hr; destruct (run _ (shared s)) as [c sh]; cbn in *; destruct Hr as [Hr _]; split_conj; auto; intros k ->; by destruct (Hr k).
  - destruct (workers s !! k) as [w|] eqn:Hk; [|by split_conj].
    pose proof (run_wp _ _ _ (worker_step_gets_on w (shared s) (Forall_lookup_1 _ _ _ _ Hw Hk))) as [Hw' _].
    destruct (run _ (shared s)) as [w' sh]. cbn in *. split_conj; [by apply Forall_insert| |];
      unfold len in *; by rewrite length_insert.
Qed.

(** ** Fair schedules *)

(** Every thread moves again and again. *)
Variable schedule : nat -> Actor.
Definition a_thread (a : Actor) : Prop :=
  match a with TheCoordinator => True | TheWorker k => Z.of_nat k < capacity end.
Hypothesis fair : forall a n, a_thread a -> exists m, (n <= m)%nat /\ schedule m = a.
(** The clock passes every instant. *)
Hypothesis clock_runs : forall x, exists t0, forall t, (t0 <= t)%nat -> x <= instant_at t.

Variable start : Sys.
Hypothesis start_alive : alive start.

Definition at_step (n : nat) : Sys := steps options segments spawn_error capacity (map schedule (seq 0 n)) start.

Lemma at_step_S n : at_step (S n) = step_of (schedule n) (at_step n).
Proof. unfold at_step, steps. rewrite seq_S, map_app, fold_left_app. done. Qed.

Lemma at_step_alive n : alive (at_step n).
Proof. induction n as [|n IH]; [done|]. rewrite at_step_S. by apply alive_step. Qed.

Lemma ticks_grow n m : (n <= m)%nat -> (tick (shared (at_step n)) <= tick (shared (at_step m)))%nat.
Proof.
  induction 1 as [|m Hm IH]; [done|]. rewrite at_step_S. etransitivity; [exact IH|]. generalize (at_step m) as s. intros s.
  destruct (schedule m) as [|k]; cbn [step].
  - destruct (coordinator s) as [k| | | | |] eqn:Hco; [unfold spawn; case_bool; [case_match|]; done|..];
      pose proof (ticking_coordinator options segments capacity (negb (forallb is_done (workers s))) (coordinator s) (shared s)) as Ht;
      rewrite Hco in Ht; unfold run; by destruct (coordinator_step _ _ _ _ _ (shared s)) as [[c|[]] sh].
  - destruct (workers s !! k) as [w|]; [|done].
    pose proof (ticking_worker options segments capacity w (shared s)) as Ht. unfold run.
    by destruct (worker_step _ _ _ w (shared s)) as [[w'|[]] sh].
Qed.

Lemma worker_thread n k w : workers (at_step n) !! k = Some w -> a_thread (TheWorker k).
Proof.
  intros Hk. apply lookup_lt_Some in Hk. destruct (at_step_alive n) as (_ & _ & Hlen & _). unfold len in Hlen. simpl. lia.
Qed.

(** Some work was done between two steps, or the threads have ended. *)
Definition better (n m : nat) : Prop := weight (at_step m) < weight (at_step n) \/ coordinator (at_step m) = Finished.
Definition gets_better (n : nat) : Prop := exists m, (n <= m)%nat /\ better n m.

Lemma carry n m : (n <= m)%nat -> gets_better n \/ still (at_step n) (at_step m).
Proof.
  induction 1 as [|m Hm IH]; [by right|]. destruct IH as [?|IH]; [by left|].
  destruct (decide (coordinator (at_step m) = Finished)) as [Hf|Hf]; [left; exists m; split; [done|by right]|].
  destruct (step_weight (schedule m) (at_step m) (at_step_alive m) Hf) as [Hlt|[Hfin|[Hst _]]]; rewrite <- at_step_S in *.
  - left. exists (S m). split; [lia|]. left. by rewrite <- (still_weight _ _ IH).
  - left. exists (S m). split; [lia|by right].
  - right. by etransitivity.
Qed.

(** The next step of a thread that does not wait. *)
Lemma act n m :
  (n <= m)%nat -> ~ waiting (schedule m) (at_step m) (at_step (S m)) -> gets_better n.
Proof.
  intros Hm Hnot. destruct (carry n m Hm) as [?|Hst]; [done|].
  destruct (decide (coordinator (at_step m) = Finished)) as [Hf|Hf]; [exists m; split; [done|by right]|].
  destruct (step_weight (schedule m) (at_step m) (at_step_alive m) Hf) as [Hlt|[Hfin|[_ Hw]]]; rewrite <- at_step_S in *.
  - exists (S m). split; [lia|]. left. by rewrite <- (still_weight _ _ Hst).
  - exists (S m). split; [lia|by right].
  - by destruct Hnot.
Qed.

(** A worker that can move in every state like this one. *)
Lemma worker_moves n k w :
  workers (at_step n) !! k = Some w ->
  (forall s, alive s -> still (at_step n) s -> ~ waits w (shared s)) -> gets_better n.
Proof.
  intros Hk Hmoves. destruct (fair (TheWorker k) n (worker_thread n k w Hk)) as (m & Hm & Ha).
  destruct (carry n m Hm) as [?|Hst]; [done|]. apply (act n m Hm). rewrite Ha. intros Hw.
  apply (Hmoves (at_step m) (at_step_alive m) Hst). apply (Hw w). by rewrite (still_workers _ _ Hst).
Qed.

(** A worker that waits for the clock. *)
Lemma waiting_moves n k i a d began retry :
  workers (at_step n) !! k = Some (Waiting i a d began retry) -> gets_better n.
Proof.
  intros Hk. pose proof (worker_thread _ _ _ Hk) as Hthread. destruct (clock_runs (began + retry)) as [t0 Ht0].
  assert (forall g, gets_better n \/ exists m, (n <= m)%nat /\ (g <= tick (shared (at_step m)))%nat) as Hlater.
  { induction g as [|g [?|(m & Hm & Hg)]]; [right; exists n; lia|by left|].
    destruct (fair (TheWorker k) m Hthread) as (m' & Hm' & Ha). destruct (carry n m' ltac:(lia)) as [?|Hst]; [by left|].
    destruct (decide (coordinator (at_step m') = Finished)) as [Hf|Hf]; [left; exists m'; split; [lia|by right]|].
    destruct (step_weight (schedule m') (at_step m') (at_step_alive m') Hf) as [Hlt|[Hfin|[_ Hw]]]; rewrite <- at_step_S in *.
    - left. exists (S m'). split; [lia|]. left. by rewrite <- (still_weight _ _ Hst).
    - left. exists (S m'). split; [lia|by right].
    - right. exists (S m'). split; [lia|]. rewrite Ha in Hw.
      destruct (Hw (Waiting i a d began retry)) as [_ Htick]; [by rewrite (still_workers _ _ Hst)|].
      specialize (Htick ltac:(done) ltac:(done) ltac:(done)).
      destruct (carry m m' Hm') as [Hb|Hst']; [|pose proof (still_tick _ _ Hst'); lia].
      pose proof (ticks_grow m m' Hm'). lia. }
  destruct (Hlater t0) as [?|(m & Hm & Ht)]; [done|]. destruct (carry n m Hm) as [?|Hst]; [done|].
  destruct (fair (TheWorker k) m Hthread) as (m' & Hm' & Ha). destruct (carry n m' ltac:(lia)) as [?|Hst']; [done|].
  apply (act n m' ltac:(lia)). rewrite Ha. intros Hw.
  destruct (Hw (Waiting i a d began retry)) as [Hwait _]; [by rewrite (still_workers _ _ Hst')|].
  simpl in Hwait. pose proof (ticks_grow m m' Hm'). specialize (Ht0 (tick (shared (at_step m'))) ltac:(lia)).
  unfold sat_sub in Hwait. lia.
Qed.

(** The first step of the coordinator from [n] on. *)
Lemma coordinator_next n :
  exists m, (n <= m)%nat /\ schedule m = TheCoordinator /\ coordinator (at_step m) = coordinator (at_step n).
Proof.
  destruct (fair TheCoordinator n I) as (m & Hm & Ha). remember (m - n)%nat as d eqn:Ed.
  revert n m Hm Ha Ed. induction d as [|d IH]; intros n m Hm Ha Ed.
  { exists n. replace n with m by lia. done. }
  destruct (schedule n) as [|k] eqn:En; [by exists n|].
  destruct (IH (S n) m ltac:(lia) Ha ltac:(lia)) as (m' & Hm' & Ha' & Hc). exists m'. split_conj; [lia|done|].
  rewrite Hc, at_step_S, En. cbn [step]. destruct (workers (at_step n) !! k); [|done]. by destruct (run _ _).
Qed.

Lemma assembling_moves n :
  coordinator (at_step n) = Assembling \/ coordinator (at_step n) = Releasing \/
  (exists k, coordinator (at_step n) = Spawning k) -> gets_better n.
Proof.
  intros Hc. destruct (coordinator_next n) as (m & Hm & Ha & Hco). apply (act n m Hm). rewrite Ha. simpl.
  rewrite Hco. destruct Hc as [->|[Hc|[k ->]]]; [auto| |auto]. rewrite Hc in *.
  destruct (channels_have_room _ (proj1 (at_step_alive m))) as (_ & _ & Hroom & _). specialize (Hroom Hco). lia.
Qed.

(** The coordinator that drains finds what there is. *)
Lemma draining_moves n :
  coordinator (at_step n) = Draining ->
  results (coord (at_step n)) <> [] \/ forallb is_done (workers (at_step n)) = true -> gets_better n.
Proof.
  intros Hc Hr. destruct (coordinator_next n) as (m & Hm & Ha & Hco). destruct (carry n m Hm) as [?|Hst]; [done|].
  apply (act n m Hm). rewrite Ha. simpl. rewrite Hco, Hc, (still_results _ _ Hst), (still_workers _ _ Hst).
  intros [? ?]. destruct Hr; congruence.
Qed.

Lemma polling_moves n :
  coordinator (at_step n) = Polling ->
  results (coord (at_step n)) <> [] \/ forallb is_done (workers (at_step n)) = true -> gets_better n.
Proof.
  intros Hc Hr. destruct (coordinator_next n) as (m & Hm & Ha & Hco). destruct (carry n (S m) ltac:(lia)) as [?|Hst]; [done|].
  destruct (decide (coordinator (at_step (S m)) = Draining)) as [Hd|Hd].
  - destruct (draining_moves (S m) Hd) as (m' & Hm' & Hb).
    { by rewrite (still_results _ _ Hst), (still_workers _ _ Hst). }
    exists m'. split; [lia|]. destruct Hb as [Hlt|?]; [left|by right]. by rewrite <- (still_weight _ _ Hst).
  - apply (act n m Hm). rewrite Ha. simpl. by rewrite Hco, Hc.
Qed.

(** A worker that has ended or waits for a job. *)
Definition rests (w : Worker) : bool := match w with Done | Receiving => true | _ => false end.

Lemma resting_flight ws : forallb rests ws = true -> flat_map holding ws = [].
Proof. induction ws as [|w ws IH]; [done|]. simpl. intros [Hw Hws]%andb_true_iff. rewrite IH by done. by destruct w. Qed.

(** If all workers rest and no job is there, the next segment cannot be missing. *)
Lemma nobody_waits_in_vain n :
  forallb rests (workers (at_step n)) = true -> jobs (coord (at_step n)) = [] ->
  jobs_open (coord (at_step n)) = true -> results (coord (at_step n)) = [] -> workers (at_step n) <> [] ->
  coordinator (at_step n) = Polling \/ coordinator (at_step n) = Draining -> False.
Proof.
  intros Hrest Hj Ho Hr Hw Hc. destruct (at_step_alive n) as (Hi & _ & Hlen & _). set (s := at_step n) in *.
  destruct (inv_open _ _ _ _ _ _ Hi Ho) as (Hstop & _ & Hwindow).
  pose proof (inv_exact _ _ _ _ _ _ Hi Hstop) as Hex. unfold in_flight in Hex.
  rewrite Hj, Hr, (resting_flight _ Hrest) in Hex. simpl in Hex.
  assert (0 < capacity) as Hcap.
  { destruct (workers s); [done|]. unfold len in Hlen. simpl in Hlen. lia. }
  assert (next_job (coord s) - next s = capacity) as Hd by (by destruct Hc as [E|E]; rewrite E in Hwindow).
  assert (next s ∈ map fst (map_to_list (pending (coord s)))) as Hin.
  { rewrite Hex. apply elem_of_seqZ. lia. }
  assert (pending (coord s) !! next s = None) as Hnone.
  { apply (inv_assembled_next _ _ _ _ _ _ Hi Hstop). by destruct Hc as [E|E]; rewrite E. }
  apply list_elem_of_In, in_map_iff in Hin as ([i c] & Hi' & Hin). simpl in Hi'. subst i.
  apply list_elem_of_In, elem_of_map_to_list in Hin. congruence.
Qed.

(** Some worker does not rest. *)
Lemma restless n : forallb rests (workers (at_step n)) = false -> gets_better n.
Proof.
  intros Hw. assert (exists k w, workers (at_step n) !! k = Some w /\ rests w = false) as (k & w & Hk & Hr).
  { revert Hw. induction (workers (at_step n)) as [|w ws IH]; [done|]. simpl. intros [Hw|Hw]%andb_false_iff.
    - by exists 0%nat, w.
    - destruct (IH Hw) as (k & x & Hk & Hx). by exists (S k), x. }
  destruct w as [| |i a d|i a d|i a d b|i a d st rest size b|i a d f|i a d t0 r|i r|]; try done;
    try (apply (worker_moves n k _ Hk); intros s Hs Hst; simpl; by auto).
  - by apply (waiting_moves n k i a d t0 r).
  - apply (worker_moves n k _ Hk). intros s (Hi & _) Hst. simpl. rewrite <- (still_workers _ _ Hst) in Hk.
    destruct (channels_have_room s Hi) as (_ & _ & _ & Hroom). specialize (Hroom k i r Hk). lia.
Qed.

Lemma waiting_for_jobs n :
  forallb rests (workers (at_step n)) = true -> results (coord (at_step n)) = [] ->
  forallb is_done (workers (at_step n)) = false ->
  coordinator (at_step n) = Polling \/ coordinator (at_step n) = Draining -> gets_better n.
Proof.
  intros Hrest Hr Hd Hc.
  assert (exists k, workers (at_step n) !! k = Some Receiving) as [k Hk].
  { revert Hrest Hd. induction (workers (at_step n)) as [|w ws IH]; [done|]. simpl.
    intros [Hw Hws]%andb_true_iff Hd. destruct w; try done; [by exists 0%nat|].
    destruct (IH Hws Hd) as [k Hk]. by exists (S k). }
  apply (worker_moves n k _ Hk). intros s Hs Hst [Hj Ho]. rewrite (still_jobs _ _ Hst) in Hj.
  apply (still_open _ _ Hst) in Ho. apply (nobody_waits_in_vain n); auto. by intros E; rewrite E in Hk.
Qed.

(** There is always something left to do. *)
Lemma something_moves n : coordinator (at_step n) <> Finished -> gets_better n.
Proof.
  intros Hf. destruct (forallb rests (workers (at_step n))) eqn:Hrest; [|by apply restless].
  assert (coordinator (at_step n) = Polling \/ coordinator (at_step n) = Draining ->
    results (coord (at_step n)) <> [] \/ forallb is_done (workers (at_step n)) = true \/ gets_better n) as Hcase.
  { intros Hc. destruct (results (coord (at_step n))) eqn:Hr; [right|by left].
    destruct (forallb is_done (workers (at_step n))) eqn:Hd; [by left|right]. by apply waiting_for_jobs. }
  destruct (coordinator (at_step n)) as [k| | | | |] eqn:Hc; try done; try (apply assembling_moves; rewrite Hc; by eauto).
  - destruct (Hcase ltac:(by left)) as [?|[?|?]]; [| |done]; apply polling_moves; auto.
  - destruct (Hcase ltac:(by right)) as [?|[?|?]]; [| |done]; apply draining_moves; auto.
Qed.

(** The threads end. *)
Theorem threads_end : exists n, forall m, (n <= m)%nat -> coordinator (at_step m) = Finished.
Proof.
  assert (forall w n, weight (at_step n) <= w -> 0 <= w -> exists m, coordinator (at_step m) = Finished) as Hend.
  { intros w n Hw Hpos. revert n Hw. pattern w. revert w Hpos. apply natlike_ind.
    - intros n Hw. destruct (decide (coordinator (at_step n) = Finished)) as [?|Hf]; [by exists n|].
      destruct (something_moves n Hf) as (m & _ & [Hlt|?]); [|by exists m].
      pose proof (weight_nonneg _ (at_step_alive m)). lia.
    - intros w Hpos IH n Hw. destruct (decide (coordinator (at_step n) = Finished)) as [?|Hf]; [by exists n|].
      destruct (something_moves n Hf) as (m & _ & [Hlt|?]); [|by exists m]. apply (IH m). lia. }
  destruct (Hend _ 0%nat ltac:(reflexivity) (weight_nonneg _ (at_step_alive 0))) as [n Hn]. exists n.
  induction 1 as [|m Hm IH]; [done|]. rewrite at_step_S. destruct (schedule m) as [|k]; cbn [step].
  - by rewrite IH.
  - destruct (workers (at_step m) !! k); [|done]. by destruct (run _ _).
Qed.
End measure.

(** ** The promises *)

Section ends.
Context `{World} `{SegmentJson}.
Variables (options : DownloadOptions) (segments : list Segment).
Variables (sha256 : bytes -> bytes) (spawn_error : nat -> option string).
Variable genuine : Z -> bytes -> Prop.
Hypothesis genuine_received : forall i b, received_whole options segments i b -> genuine i b.

Abbreviation fp := (fingerprint_of segments sha256).
Abbreviation next s := (next_index (state (output s))).
Abbreviation capacity n := (worker_count options segments n).

(** The output of [open_output] is open. *)
Lemma opened_by_open irregular s s' :
  (persistent options = true -> consistent_segments segments sha256 genuine (dir s)) ->
  open_output fp (total segments) (persistent options) irregular s = (Ok tt, s') ->
  opened segments genuine (target (dir s)) s'.
Proof.
  intros Hdisk Hopen.
  pose proof (wp_open_output segments sha256 genuine (persistent options) irregular _ s eq_refl Hdisk) as Hw.
  unfold wp in Hw. by rewrite Hopen in Hw.
Qed.

(** C4: What is in flight stays in the window of the workers.  In every state the threads reach, the
    segments handed out and not yet appended are distinct and lie in the window of [worker_count]
    segments that begins with the next one to append; neither channel holds more than its capacity,
    and a worker that sends a result, or the coordinator that sends a job, finds room: no send blocks. *)
Theorem segments_bounded irregular s0 s1 r (s : Sys)
  (Hparallel : 1 <= max_parallel_segments (policy options))
  (Hdisk : persistent options = true -> consistent_segments segments sha256 genuine (dir s0))
  (Hopen : open_output fp (total segments) (persistent options) irregular s0 = (Ok tt, s1))
  (Hreach : reachable options segments spawn_error (next s1) r s1 s) :
  let c := coordination (shared s) in
  NoDup (in_flight c (workers s)) /\
  (forall i, i ∈ in_flight c (workers s) ->
     next (shared s) <= i < Z.min (total segments) (next (shared s) + capacity (next s1))) /\
  len (jobs c) <= capacity (next s1) /\ len (results c) <= capacity (next s1) /\
  (coordinator s = Releasing -> len (jobs c) < capacity (next s1)) /\
  (forall k i x, workers s !! k = Some (Sending i x) -> len (results c) < capacity (next s1)).
Proof.
  cbv zeta. pose proof (opened_by_open _ _ _ Hdisk Hopen) as Ho.
  pose proof (reachable_segments _ _ _ _ genuine_received _ _ _ _ Ho Hparallel Hreach) as Hi.
  split_conj; [by eapply flight_NoDup| |eapply channels_have_room, Hi..].
  intros i Hin. pose proof (inv_window _ _ _ _ _ _ Hi) as (Hn & Ht & Hw).
  eapply elem_of_submseteq in Hin; [|apply (inv_flight _ _ _ _ _ _ Hi)]. apply elem_of_seqZ in Hin. lia.
Qed.

(** Every thread that may be started moves again and again. *)
Definition fair_schedule (schedule : nat -> Actor) : Prop := forall a n,
  match a with TheCoordinator => True | TheWorker k => Z.of_nat k < max_parallel_segments (policy options) end ->
  exists m, (n <= m)%nat /\ schedule m = a.

Lemma started_alive before most_reads s r :
  opened segments genuine before s -> 1 <= max_parallel_segments (policy options) ->
  alive options segments genuine before (capacity (next s)) most_reads
    (mkSys (set_coordination (fun _ => started options segments (next s) r) s) [] (Spawning 0)).
Proof.
  intros Ho Hmax. split; [by apply invariant_started|]. cbn. split_conj; [by constructor| |].
  - unfold worker_count, len. destruct Ho as (_ & _ & Hn & _). simpl. lia.
  - by intros k [= <-].
Qed.

(** C5: A segmented download ends.  Whatever the network, the disk, the clock and the caller do, as
    long as every thread is scheduled again and again, time passes and no body is endless, there is a
    step by which the call has returned. *)
Theorem segments_end schedule lock irregular s most_reads
  (Hparallel : 1 <= max_parallel_segments (policy options))
  (Hattempts : 1 <= max_attempts options)
  (Hdisk : persistent options = true -> consistent_segments segments sha256 genuine (dir s))
  (Hfair : fair_schedule schedule)
  (Hclock : forall x, exists t0, forall t, (t0 <= t)%nat -> x <= instant_at t)
  (Hreads : forall t r st, open_stream_at t r = Ok st -> len (chunks st) <= most_reads) :
  exists n, forall m, (n <= m)%nat ->
    is_Some (download options segments sha256 spawn_error (map schedule (seq 0 m)) lock irregular s).
Proof.
  unfold download. destruct lock as [[]|e]; [|by exists 0%nat].
  destruct (open_output _ _ _ _ s) as [[[]|e] s1] eqn:Eo; [|by exists 0%nat].
  pose proof (opened_by_open _ _ _ Hdisk Eo) as Ho. unfold transfer.
  set (pre := (item ItemStart;; _)). assert (same s1 (run pre s1).2) as Hsame by done.
  destruct (run pre s1) as [x s2]. simpl in Hsame. pose proof (opened_same _ _ _ _ _ Hsame Ho) as Ho2.
  assert (next s2 = next s1) as Hnext by (destruct Hsame as (_ & Hout & _); by rewrite Hout).
  destruct (_ && _); [exists 0%nat; intros m _; by destruct (finish _ _ _)|]. unfold threads. rewrite <- Hnext.
  assert (forall t r st, open_stream_at t r = Ok st -> len (chunks st) <= Z.max 0 most_reads) as Hreads'
    by (intros t r st Hst; specialize (Hreads t r st Hst); lia).
  destruct (threads_end options segments spawn_error genuine genuine_received (target (dir s)) (capacity (next s2))
    (Z.max 0 most_reads) Hattempts ltac:(lia) Hreads' schedule) with (start := mkSys (set_coordination
      (fun _ => started options segments (next s2) (cp_bytes (state (output s1)))) s2) [] (Spawning 0)) as [n Hn].
  - intros a n Ha. apply Hfair. destruct a as [|k]; [done|]. simpl in Ha. unfold worker_count in Ha. lia.
  - exact Hclock.
  - by apply started_alive.
  - exists n. intros m Hm. specialize (Hn m Hm). unfold at_step in Hn. rewrite Hn. by destruct (finish _ _ _).
Qed.
End ends.

(** * A segmented download that runs

    Three segments, a server that breaks the first connection for the second one, a clock that runs,
    and a schedule that gives every thread its turn: the theorems of [SegmentsSpec] and
    [SegmentsLiveness] at a concrete input. *)

(** ** The JSON of a checkpoint, as one number *)

Definition encode_segment_number (c : SegmentCheckpoint) : bytes :=
  [Zpos (encode (version c, SegmentStore.fingerprint c, next_index c, cp_bytes c, updated_at c))].
Definition decode_segment_number (l : bytes) : option SegmentCheckpoint :=
  match l with
  | [Zpos p] =>
    match decode p with
    | Some (a, b, c, d, e) => Some (mkSegmentCheckpoint a b c d e)
    | None => None
    end
  | _ => None
  end.

#[local] Program Instance number_json : SegmentJson :=
  {| encode_segments := encode_segment_number; decode_segments := decode_segment_number |}.
Next Obligation. intros c. unfold decode_segment_number, encode_segment_number. rewrite decode_encode. by destruct c. Qed.

(** ** The server and the schedule *)

Definition one_of (s : string) : bytes :=
  if bool_decide (s = "a"%string) then [1; 2] else if bool_decide (s = "b"%string) then [3] else [4; 5; 6].

Definition segment_server (t : nat) (r : HttpRequest) : HttpStream :=
  if bool_decide (url r = "b"%string) && Nat.ltb t 40 then mkStream (mkResponse 200 ∅) [[3]] (Err "reset"%string)
  else mkStream (mkResponse 200 ∅) [take 1 (one_of (url r)); drop 1 (one_of (url r))] (Ok tt).

Definition segment_world : World := {|
  check_at _ := Ok tt; wait_at _ _ := Ok tt; open_stream_at t r := Ok (segment_server t r);
  io_error_at _ := None; partial_write_at _ := 0%nat; instant_at t := Z.of_nat t * 100000000; system_ms_at _ := 0;
  random_u64_at _ := None; http_date_ns _ := None;
  encode_checkpoint := encode_number; decode_checkpoint := decode_number;
  decode_encode_checkpoint := decode_encode_number |}.

Definition abc : list Segment := [mkSegment "a" ∅; mkSegment "b" ∅; mkSegment "c" ∅].

Definition in_turn (n : nat) : Actor :=
  match (n mod 4)%nat with 0%nat => TheCoordinator | S k => TheWorker k end.

Definition blank (d : SegmentStore.Dir) : Shared Coordination :=
  mkShared 0 d (mkOutput (mkSegmentCheckpoint 0 "" 0 0 0) false false 0 0 0) [] (started resuming abc 0 0).

Definition no_hash (b : bytes) : bytes := [].
Definition never (k : nat) : option string := None.

Definition nine : SegmentStore.Dir := mkDir (Some [9]) None None ∅.

Abbreviation small_run m :=
  (@download segment_world number_json resuming abc no_hash never (map in_turn (seq 0 m)) (Ok tt) None (blank nine)).

(** The first connection for the second segment breaks; its retry succeeds. *)
Lemma segments_integrity_witness :
  exists s', small_run 200 = Some (Ok (mkSegmentsDone 6 3 false), s') /\
    exists f, SegmentStore.target (dir s') = Some f /\
      @joined abc (@received_whole segment_world resuming abc) f /\ 6 = len f.
Proof.
  pose proof (fun r s' => @segments_integrity segment_world number_json resuming abc no_hash never
    (@received_whole segment_world resuming abc) (fun i b Hb => Hb) (map in_turn (seq 0 200)) (Ok tt) None (blank nine) r s'
    ltac:(vm_compute; discriminate) ltac:(discriminate)) as H.
  assert (fst <$> small_run 200 = Some (Ok (mkSegmentsDone 6 3 false))) as E by (vm_compute; reflexivity).
  destruct (small_run 200) as [[r s']|]; [|done]. simpl in E. injection E as ->.
  exists s'. split; [done|]. exact (H _ _ eq_refl).
Defined.

(** The state after 60 steps, with all threads at work. *)
Definition opened_blank : Shared Coordination :=
  snd (@open_output segment_world number_json _ (fingerprint_of abc no_hash) (total abc) true None (blank nine)).
Definition amid (m : nat) : Sys :=
  @steps segment_world number_json resuming abc never 3 (map in_turn (seq 0 m))
    (mkSys (set_coordination (fun _ => started resuming abc 0 0) opened_blank) [] (Spawning 0)).

Lemma segments_bounded_witness :
  in_flight (coordination (shared (amid 40))) (workers (amid 40)) = [1; 2; 0] /\
  forall i, i ∈ in_flight (coordination (shared (amid 40))) (workers (amid 40)) -> 0 <= i < 3.
Proof.
  split; [vm_compute; reflexivity|]. intros i Hi.
  destruct (@segments_bounded segment_world number_json resuming abc no_hash never
    (@received_whole segment_world resuming abc) (fun i b Hb => Hb) None (blank nine) opened_blank 0 (amid 40))
    as (_ & Hw & _); [vm_compute; discriminate|discriminate|vm_compute; reflexivity| |].
  - exists (map in_turn (seq 0 40)). unfold amid.
    assert (worker_count resuming abc (next_index (SegmentStore.state (output opened_blank))) = 3) as -> by (vm_compute; reflexivity).
    assert (next_index (SegmentStore.state (output opened_blank)) = 0) as -> by (vm_compute; reflexivity). reflexivity.
  - specialize (Hw i Hi). change (next_index (SegmentStore.state (output (shared (amid 40))))) with 0 in Hw.
    vm_compute in Hw. exact Hw.
Defined.

Lemma in_turn_fair : fair_schedule resuming in_turn.
Proof.
  intros a n Ha. destruct a as [|k].
  - exists (4 * n)%nat. split; [lia|]. unfold in_turn. by rewrite Nat.mul_comm, Nat.Div0.mod_mul.
  - change (Z.of_nat k < 3) in Ha. exists (S k + n * 4)%nat. split; [lia|]. unfold in_turn.
    rewrite Nat.Div0.mod_add, Nat.mod_small by lia. done.
Qed.

Lemma segments_end_witness :
  (exists n, forall m, (n <= m)%nat -> is_Some (small_run m)) /\ small_run 40 = None.
Proof.
  split; [|vm_compute; reflexivity].
  apply (@segments_end segment_world number_json resuming abc no_hash never
    (@received_whole segment_world resuming abc) (fun i b Hb => Hb) in_turn (Ok tt) None (blank nine) 2);
    [vm_compute; discriminate|vm_compute; discriminate|discriminate|exact in_turn_fair| |].
  - intros x. exists (Z.to_nat x). intros t Ht. change (x <= Z.of_nat t * 100000000). lia.
  - intros t r st [= <-]. unfold segment_server. by destruct (_ && _).
Defined.
