(* ===== verification/UnicodeText.v ===== *)
(** * Characters of text: UTF-8 decoding, and case mappings of single characters

    A Rust [String] is the [string] of its UTF-8 bytes.  The tables of the Unicode Character Database
    behind [char::to_uppercase] and [char::to_lowercase] are the class [Unicode], of which only the
    part on ASCII is relied on. *)

From S2P Require Import Prelude.

Class Unicode := {
  to_uppercase : Z -> list Z;
  to_lowercase : Z -> list Z;
  to_uppercase_ascii c : 0 <= c < 128 -> to_uppercase c = [if in_range 97 122 c then c - 32 else c];
  to_lowercase_ascii c : 0 <= c < 128 -> to_lowercase c = [if in_range 65 90 c then c + 32 else c] }.

(** [str::chars] of valid UTF-8. *)
Fixpoint code_points (l : bytes) : list Z :=
  match l with
  | [] => []
  | a :: l1 =>
    if in_range 0 127 a then a :: code_points l1
    else match l1 with
    | [] => []
    | b :: l2 =>
      if in_range 194 223 a then Z.shiftl (a - 192) 6 + (b - 128) :: code_points l2
      else match l2 with
      | [] => []
      | c :: l3 =>
        if in_range 224 239 a then Z.shiftl (a - 224) 12 + Z.shiftl (b - 128) 6 + (c - 128) :: code_points l3
        else match l3 with
        | [] => []
        | d :: l4 =>
          Z.shiftl (a - 240) 18 + Z.shiftl (b - 128) 12 + Z.shiftl (c - 128) 6 + (d - 128) :: code_points l4
        end
      end
    end
  end.

(** [char::encode_utf8]. *)
Definition encode_char (c : Z) : bytes :=
  if c <? 128 then [c]
  else if c <? 2048 then [192 + c / 64; 128 + c mod 64]
  else if c <? 65536 then [224 + c / 4096; 128 + c / 64 mod 64; 128 + c mod 64]
  else [240 + c / 262144; 128 + c / 4096 mod 64; 128 + c / 64 mod 64; 128 + c mod 64].

Definition text_of (l : list Z) : string := bytes_to_str (flat_map encode_char l).
Definition char_list (s : string) : list Z := code_points (str_bytes s).

Definition REPLACEMENT : bytes := [239; 191; 189].

(** [String::from_utf8_lossy]: each longest prefix of a character that does not go on becomes one
    replacement character. *)
Fixpoint lossy (l : bytes) : bytes :=
  match l with
  | [] => []
  | a :: l1 =>
    if in_range 0 127 a then a :: lossy l1
    else match l1 with
    | [] => REPLACEMENT
    | b :: l2 =>
      if in_range 194 223 a then
        if cont b then a :: b :: lossy l2 else REPLACEMENT ++ lossy l1
      else if in_range 224 239 a && in_range (if a =? 224 then 160 else 128) (if a =? 237 then 159 else 191) b then
        match l2 with
        | [] => REPLACEMENT
        | c :: l3 => if cont c then a :: b :: c :: lossy l3 else REPLACEMENT ++ lossy l2
        end
      else if in_range 240 244 a && in_range (if a =? 240 then 144 else 128) (if a =? 244 then 143 else 191) b then
        match l2 with
        | [] => REPLACEMENT
        | c :: l3 =>
          if cont c then
            match l3 with
            | [] => REPLACEMENT
            | d :: l4 => if cont d then a :: b :: c :: d :: lossy l4 else REPLACEMENT ++ lossy l3
            end
          else REPLACEMENT ++ lossy l2
        end
      else REPLACEMENT ++ lossy l1
    end
  end.
Definition from_utf8_lossy (l : bytes) : string := bytes_to_str (lossy l).

Example lossy_ex : lossy [97; 240; 159; 98; 195; 164; 255] = [97] ++ REPLACEMENT ++ [98; 195; 164] ++ REPLACEMENT.
Proof. reflexivity. Qed.
Example code_points_ex : code_points [97; 195; 164; 226; 130; 172; 240; 159; 142; 181] = [97; 228; 8364; 127925].
Proof. reflexivity. Qed.

Definition ascii_byte (b : Z) : Prop := 0 <= b < 128.

Lemma lossy_ascii l : Forall ascii_byte l -> lossy l = l.
Proof.
  induction 1 as [|a l Ha Hl IH]; [done|]. cbn [lossy]. unfold in_range, ascii_byte in *.
  destruct (Z.leb_spec 0 a), (Z.leb_spec a 127); try lia. simpl. by rewrite IH.
Qed.

Lemma code_points_ascii l : Forall ascii_byte l -> code_points l = l.
Proof.
  induction 1 as [|a l Ha Hl IH]; [done|]. cbn [code_points]. unfold in_range, ascii_byte in *.
  destruct (Z.leb_spec 0 a), (Z.leb_spec a 127); try lia. simpl. by rewrite IH.
Qed.

Lemma encode_ascii l : Forall ascii_byte l -> flat_map encode_char l = l.
Proof.
  induction 1 as [|a l Ha Hl IH]; [done|]. simpl. unfold encode_char at 1. unfold ascii_byte in *.
  destruct (Z.ltb_spec a 128); [|lia]. simpl. by rewrite IH.
Qed.
