(* ===== verification/Matching.v ===== *)
(** * Comparing titles and artists: [crates/core/src/matching.rs]

    The case mappings of Go, the normal form of a title, and the similarity of two strings: one minus
    their edit distance over the longer length, computed on a single row after common prefixes and
    suffixes are dropped.  The caller's check may end a comparison at each row. *)

From S2P Require Import Prelude Monads Float64 RustText UnicodeText.

Section case.
Context `{Unicode}.

Definition lower_char (c : Z) : Z :=
  if bool_decide (c ∈ [7305; 42955; 42956; 42958; 42962; 42964; 42970; 42972])
     || in_range 68944 68965 c || in_range 93856 93880 c
  then c else nth 0 (to_lowercase c) c.

Definition lowercase (s : string) : string := text_of (map lower_char (char_list s)).

Definition upper_char (c : Z) : Z :=
  if bool_decide (c ∈ [411; 612; 7306; 42957; 42959; 42963; 42965; 42971])
     || in_range 68976 68997 c || in_range 93883 93907 c then c
  else if in_range 8064 8071 c || in_range 8080 8087 c || in_range 8096 8103 c then c + 8
  else if c =? 8115 then 8124
  else if c =? 8131 then 8140
  else if c =? 8179 then 8188
  else match to_uppercase c with [first] => first | _ => c end.

Definition uppercase (s : string) : string := text_of (map upper_char (char_list s)).

(** [str::find]: where the pattern first occurs. *)
Fixpoint find_list (p l : list ascii) : option nat :=
  match strip_list p l with
  | Some _ => Some 0%nat
  | None => match l with [] => None | _ :: l => S <$> find_list p l end
  end.

Definition suffixes : list string :=
  [" (remastered)"; " (remaster)"; " - remastered"; " - remaster"; " (deluxe)"; " (deluxe edition)"; " - deluxe";
   " - deluxe edition"; " (explicit)"; " (clean)"; " [explicit]"; " [clean]"; " (album version)"; " (single version)";
   " (radio edit)"; " (feat."; " (ft."; " feat."; " ft."]%string.

Definition truncate_at (value : list ascii) (suffix : string) : list ascii :=
  match find_list (chars suffix) value with Some index => take index value | None => value end.

Definition kept_char (a : ascii) : bool :=
  let n := Z.of_nat (Ascii.nat_of_ascii a) in in_range 97 122 n || in_range 48 57 n || (n =? 32).

(** The words between spaces. *)
Fixpoint words (word : list ascii) (l : list ascii) : list (list ascii) :=
  match l with
  | [] => match word with [] => [] | _ => [word] end
  | a :: l =>
    if Ascii.eqb a (ascii_of_nat 32)
    then match word with [] => words [] l | _ => word :: words [] l end
    else words (word ++ [a]) l
  end.

Definition normalize (value : string) : string :=
  let value := fold_left truncate_at suffixes (chars (lowercase value)) in
  String.concat " " (map unchars (words [] (List.filter kept_char value))).

(** ** [compare_strings] *)

(** The check of the caller, by the number of the call. *)
Variable check_at : nat -> result unit string.
Abbreviation P := (St nat string).

Definition check : P unit := fun t => (check_at t, S t).

Fixpoint common_prefix (a b : bytes) : nat :=
  match a, b with
  | x :: a, y :: b => if x =? y then S (common_prefix a b) else O
  | _, _ => O
  end.

(** The columns of one row: [diagonal] is the old value of the column before. *)
Fixpoint columns (a : Z) (second : bytes) (j : nat) (diagonal : Z) (row : list Z) : P (list Z) :=
  match second with
  | [] => ret row
  | b :: second =>
    (if Z.of_nat j mod 4096 =? 0 then check else ret tt);;
    let old := nth (S j) row 0 in
    let value := Z.min (Z.min (old + 1) (nth j row 0 + 1)) (diagonal + if a =? b then 0 else 1) in
    columns a second (S j) old (<[S j := value]> row)
  end.

Fixpoint rows (first second : bytes) (i : nat) (row : list Z) : P (list Z) :=
  match first with
  | [] => ret row
  | a :: first =>
    check;;
    do row <- columns a second 0 (nth 0 row 0) (<[0%nat := Z.of_nat i + 1]> row);
    rows first second (S i) row
  end.

Definition compare_strings (first second : string) : P f64 :=
  check;;
  let first := str_bytes (lowercase (trim first)) in
  let second := str_bytes (lowercase (trim second)) in
  if bool_decide (first = second) then ret (f64_of 1)
  else
    let maximum := Z.max (len first) (len second) in
    if bool_decide (first = []) || bool_decide (second = []) then ret (f64_of 0)
    else
      let prefix := common_prefix first second in
      let first := drop prefix first in
      let second := drop prefix second in
      let suffix := common_prefix (rev first) (rev second) in
      let first := take (length first - suffix) first in
      let second := take (length second - suffix) second in
      let '(first, second) := if len first <? len second then (second, first) else (first, second) in
      do row <- rows first second 0 (map Z.of_nat (seq 0 (S (length second))));
      ret (f64_sub (f64_of 1) (f64_div (f64_of (nth (length second) row 0)) (f64_of maximum))).
End case.

(** [isize] is 64 bits wide. *)
Definition wrapping_abs (z : Z) : Z := wrap_i64 (Z.abs z).
Definition compare_duration (first second tolerance : Z) : bool :=
  wrapping_abs (wrap_i64 (first - second)) <=? tolerance.

Example normalize_words : words [] (chars " a  bc ") = [chars "a"; chars "bc"].
Proof. reflexivity. Qed.

(** ** Edit distance *)

(** [Edit a b n]: [n] insertions, deletions and replacements turn [a] into [b]. *)
Inductive Edit : bytes -> bytes -> Z -> Prop :=
| Edit_nil : Edit [] [] 0
| Edit_keep x a b n : Edit a b n -> Edit (x :: a) (x :: b) n
| Edit_replace x y a b n : Edit a b n -> Edit (x :: a) (y :: b) (n + 1)
| Edit_delete x a b n : Edit a b n -> Edit (x :: a) b (n + 1)
| Edit_insert y a b n : Edit a b n -> Edit a (y :: b) (n + 1).
#[local] Hint Constructors Edit : edit.

(** The least number of edits. *)
Definition distance (a b : bytes) (n : Z) : Prop := Edit a b n /\ forall m, Edit a b m -> n <= m.

Lemma Edit_app a b n a' b' m : Edit a b n -> Edit a' b' m -> Edit (a ++ a') (b ++ b') (n + m).
Proof.
  intros He He'. induction He; simpl; [done|auto with edit| | |];
    match goal with |- Edit _ _ (?n + 1 + m) => replace (n + 1 + m) with (n + m + 1) by lia end; auto with edit.
Qed.

Lemma Edit_rev a b n : Edit a b n -> Edit (rev a) (rev b) n.
Proof.
  induction 1; simpl; auto with edit.
  - rewrite <- (Z.add_0_r n). apply Edit_app; auto with edit.
  - apply Edit_app; [done|]. rewrite <- (Z.add_0_l 1). auto with edit.
  - rewrite <- (app_nil_r (rev b)). apply Edit_app; [done|]. rewrite <- (Z.add_0_l 1). auto with edit.
  - rewrite <- (app_nil_r (rev a)). apply Edit_app; [done|]. rewrite <- (Z.add_0_l 1). auto with edit.
Qed.

Lemma Edit_sym a b n : Edit a b n -> Edit b a n.
Proof. induction 1; auto with edit. Qed.

(** *** The textbook recursion *)

Fixpoint lev (a : bytes) : bytes -> Z :=
  match a with
  | [] => fun b => len b
  | x :: a' =>
    fix lev_b (b : bytes) : Z :=
      match b with
      | [] => len (x :: a')
      | y :: b' => Z.min (Z.min (lev a' b + 1) (lev_b b' + 1)) (lev a' b' + if x =? y then 0 else 1)
      end
  end.

Lemma lev_nil_r a : lev a [] = len a.
Proof. by destruct a. Qed.
Lemma lev_cons x a y b :
  lev (x :: a) (y :: b) = Z.min (Z.min (lev a (y :: b) + 1) (lev (x :: a) b + 1)) (lev a b + if x =? y then 0 else 1).
Proof. done. Qed.

Lemma Edit_to_nil a : Edit a [] (len a).
Proof. induction a as [|x a IH]; [constructor|]. rewrite len_cons. by constructor. Qed.

Lemma lev_edit a b : Edit a b (lev a b).
Proof.
  revert b. induction a as [|x a IHa]; intros b; [apply Edit_sym, Edit_to_nil|].
  induction b as [|y b IHb]; [apply Edit_to_nil|]. rewrite lev_cons.
  destruct (Z.min_spec (Z.min (lev a (y :: b) + 1) (lev (x :: a) b + 1)) (lev a b + if x =? y then 0 else 1))
    as [[_ ->]|[_ ->]].
  - destruct (Z.min_spec (lev a (y :: b) + 1) (lev (x :: a) b + 1)) as [[_ ->]|[_ ->]]; by constructor.
  - destruct (Z.eqb_spec x y) as [->|]; [rewrite Z.add_0_r|]; by constructor.
Qed.

Lemma lev_delete x a b : lev (x :: a) b <= lev a b + 1.
Proof.
  destruct b as [|y b]; [rewrite !lev_nil_r, len_cons; lia|]. rewrite lev_cons. lia.
Qed.
Lemma lev_insert a y b : lev a (y :: b) <= lev a b + 1.
Proof. destruct a as [|x a]; [cbn [lev]; rewrite len_cons; lia|]. rewrite lev_cons. lia. Qed.

Lemma lev_least a b n : Edit a b n -> lev a b <= n.
Proof.
  induction 1 as [|x a b n _ IH|x y a b n _ IH|x a b n _ IH|y a b n _ IH]; [done| | | |].
  - rewrite lev_cons, Z.eqb_refl. lia.
  - rewrite lev_cons. destruct (x =? y); lia.
  - pose proof (lev_delete x a b). lia.
  - pose proof (lev_insert a y b). lia.
Qed.

Lemma distance_lev a b : distance a b (lev a b).
Proof. split; [apply lev_edit|apply lev_least]. Qed.

Lemma lev_by_edits a b a' b' : (forall n, Edit a b n <-> Edit a' b' n) -> lev a b = lev a' b'.
Proof. intros He. apply Z.le_antisymm; apply lev_least, He, lev_edit. Qed.

Lemma lev_sym a b : lev a b = lev b a.
Proof. apply lev_by_edits. split; apply Edit_sym. Qed.
Lemma lev_rev a b : lev (rev a) (rev b) = lev a b.
Proof.
  apply lev_by_edits. intros n. split; [|apply Edit_rev]. intros He%Edit_rev. by rewrite !rev_involutive in He.
Qed.

Lemma lev_bounds a b : 0 <= lev a b <= Z.max (len a) (len b).
Proof.
  split.
  - assert (forall n, Edit a b n -> 0 <= n) as Hpos by (induction 1; lia). apply Hpos, lev_edit.
  - revert b. induction a as [|x a IH]; intros [|y b]; [done|cbn [lev]; lia|rewrite lev_nil_r; lia|].
    rewrite lev_cons, !len_cons. specialize (IH b). destruct (x =? y); lia.
Qed.

(** Adding an element to one side changes the distance by at most one. *)
Lemma lev_grow_r a x b : lev a b <= lev a (x :: b) + 1.
Proof.
  revert x b. induction a as [|y a IH]; intros x b.
  { cbn [lev]. rewrite len_cons. lia. }
  revert x. induction b as [|z b IHb]; intros x; rewrite (lev_cons y a x).
  - pose proof (lev_delete y a []). pose proof (IH x []). rewrite !lev_nil_r in *. pose proof (len_nonneg a).
    rewrite len_cons in *. destruct (y =? x); lia.
  - pose proof (IHb z). pose proof (lev_insert (y :: a) z b). pose proof (lev_delete y a (z :: b)).
    pose proof (IH z b). pose proof (IH x (z :: b)). destruct (y =? x); lia.
Qed.

Lemma lev_cons_same x a b : lev (x :: a) (x :: b) = lev a b.
Proof.
  apply Z.le_antisymm; [apply lev_least; constructor; apply lev_edit|]. rewrite lev_cons, Z.eqb_refl.
  pose proof (lev_grow_r a x b). pose proof (lev_grow_r b x a). rewrite (lev_sym b (x :: a)), (lev_sym b a) in *. lia.
Qed.

Lemma lev_prefix a b : lev (drop (common_prefix a b) a) (drop (common_prefix a b) b) = lev a b.
Proof.
  revert b. induction a as [|x a IH]; intros [|y b]; [done..|]. cbn [common_prefix].
  destruct (Z.eqb_spec x y) as [->|]; [|done]. cbn [drop]. by rewrite IH, lev_cons_same.
Qed.

Lemma rev_drop {A} n (l : list A) : rev (drop n (rev l)) = take (length l - n) l.
Proof. by rewrite skipn_rev, rev_involutive. Qed.

Lemma lev_suffix a b :
  let n := common_prefix (rev a) (rev b) in lev (take (length a - n) a) (take (length b - n) b) = lev a b.
Proof. cbv zeta. by rewrite <- !rev_drop, lev_rev, lev_prefix, lev_rev. Qed.

(** ** The single row *)

Lemma insert_map_seq {A} (f : nat -> A) n k v :
  <[k := v]> (map f (seq 0 n)) = map (fun i => if decide (i = k) then v else f i) (seq 0 n).
Proof.
  apply list_eq. intros i. destruct (decide (i < n)%nat) as [Hi|Hi].
  - destruct (decide (i = k)) as [->|Hne].
    + rewrite list_lookup_insert_eq by (by rewrite length_map, length_seq).
      rewrite list_lookup_fmap, lookup_seq_lt by done. simpl. by rewrite decide_True.
    + rewrite list_lookup_insert_ne by done. rewrite !list_lookup_fmap, lookup_seq_lt by done. simpl. by rewrite decide_False.
  - rewrite !lookup_ge_None_2; [done| |]; rewrite ?length_insert, length_map, length_seq; lia.
Qed.

Lemma nth_map_seq {A} (f : nat -> A) n k d : (k < n)%nat -> nth k (map f (seq 0 n)) d = f k.
Proof. intros Hk. rewrite (nth_indep _ d (f 0%nat)) by (by rewrite length_map, length_seq). by rewrite map_nth, seq_nth. Qed.

Section dp.
Context `{Unicode}.
Variable check_at : nat -> result unit string.
Variable second : bytes.

(** The row after the elements [done] of the first string, the last one first. *)
Definition row_of (past : bytes) : list Z := map (fun j => lev past (rev (take j second))) (seq 0 (S (length second))).

(** The row of [a :: past] up to column [j], and of [done] behind it. *)
Definition row_between (a : Z) (past : bytes) (j : nat) : list Z :=
  map (fun k => lev (if (k <=? j)%nat then a :: past else past) (rev (take k second))) (seq 0 (S (length second))).

Lemma take_snoc j b rest : drop j second = b :: rest -> rev (take (S j) second) = b :: rev (take j second).
Proof.
  intros Hd. assert (second !! j = Some b) as Hb by (rewrite <- (Nat.add_0_r j), <- lookup_drop, Hd; done).
  by rewrite (take_S_r _ _ _ Hb), rev_app_distr.
Qed.

Lemma columns_spec a past rest j t :
  drop j second = rest -> (j <= length second)%nat ->
  match columns check_at a rest j (lev past (rev (take j second))) (row_between a past j) t with
  | (Ok row, _) => row = row_of (a :: past)
  | (Err e, _) => exists t, check_at t = Err e
  end.
Proof.
  revert j t. induction rest as [|b rest IH]; intros j t Hd Hj; cbn [columns].
  - change (row_between a past j = row_of (a :: past)). assert (j = length second) as ->.
    { apply (f_equal length) in Hd. rewrite length_drop in Hd. simpl in Hd. lia. }
    unfold row_between, row_of. apply map_ext_in. intros k Hk%in_seq. by rewrite (proj2 (Nat.leb_le _ _)) by lia.
  - assert (S j <= length second)%nat as Hj'.
    { apply (f_equal length) in Hd. rewrite length_drop in Hd. simpl in Hd. lia. }
    pose proof (take_snoc _ _ _ Hd) as Hs.
    assert (drop (S j) second = rest) as Hd' by (rewrite <- Nat.add_1_r, <- drop_drop, Hd; done).
    assert (nth (S j) (row_between a past j) 0 = lev past (rev (take (S j) second))) as Hold.
    { unfold row_between. rewrite nth_map_seq by lia. by rewrite (proj2 (Nat.leb_gt _ _)) by lia. }
    assert (nth j (row_between a past j) 0 = lev (a :: past) (rev (take j second))) as Hleft.
    { unfold row_between. rewrite nth_map_seq by lia. by rewrite Nat.leb_refl. }
    assert (forall v, v = lev (a :: past) (rev (take (S j) second)) ->
      <[S j := v]> (row_between a past j) = row_between a past (S j)) as Hrow.
    { intros v ->. unfold row_between. rewrite insert_map_seq. apply map_ext_in. intros k Hk%in_seq. case_decide as E.
      - subst k. by rewrite Nat.leb_refl.
      - destruct (Nat.leb_spec k j), (Nat.leb_spec k (S j)); try done; lia. }
    unfold bind. destruct ((if _ : bool then check check_at else ret tt) t) as [[[]|e] t'] eqn:Ec.
    + rewrite Hold, Hleft, Hrow by (by rewrite Hs, lev_cons). by apply IH.
    + destruct (_ =? 0); [|done]. unfold check in Ec. exists t. congruence.
Qed.

Lemma rows_spec first past t :
  match rows check_at first second (length past) (row_of past) t with
  | (Ok row, _) => row = row_of (rev first ++ past)
  | (Err e, _) => exists t, check_at t = Err e
  end.
Proof.
  revert past t. induction first as [|a first IH]; intros past t; cbn [rows]; [done|]. unfold bind at 1.
  unfold check at 1. destruct (check_at t) as [[]|e] eqn:Ec; [|by exists t].
  assert (<[0%nat := Z.of_nat (length past) + 1]> (row_of past) = row_between a past 0) as Hrow.
  { unfold row_of, row_between. rewrite insert_map_seq. apply map_ext_in. intros k Hk%in_seq. case_decide as E.
    - subst k. simpl. rewrite len_cons. unfold len. lia.
    - by rewrite (proj2 (Nat.leb_gt _ _)) by lia. }
  assert (nth 0 (row_of past) 0 = lev past (rev (take 0 second))) as Hdiag by done.
  rewrite Hrow, Hdiag. pose proof (columns_spec a past second 0 (S t) eq_refl ltac:(lia)) as Hc.
  unfold bind. destruct (columns _ _ _ _ _ _ (S t)) as [[row|e] t1]; [|done]. subst row.
  specialize (IH (a :: past) t1). cbn [length] in IH. destruct (rows _ _ _ _ _ t1) as [[row|e] t2]; [|done].
  subst row. simpl. by rewrite <- app_assoc.
Qed.

Lemma rows_distance first t :
  match rows check_at first second 0 (map Z.of_nat (seq 0 (S (length second)))) t with
  | (Ok row, _) => nth (length second) row 0 = lev first second
  | (Err e, _) => exists t, check_at t = Err e
  end.
Proof.
  pose proof (rows_spec first [] t) as Hr.
  assert (row_of [] = map Z.of_nat (seq 0 (S (length second)))) as E.
  { unfold row_of. apply map_ext_in. intros k Hk%in_seq. cbn [lev]. unfold len. rewrite length_rev, length_take. lia. }
  rewrite E in Hr. cbn [length] in Hr. destruct (rows _ _ _ _ _ t) as [[row|e] t1]; [|done]. subst row.
  unfold row_of. rewrite nth_map_seq by lia. by rewrite app_nil_r, take_ge, lev_rev by lia.
Qed.
End dp.

Section compare.
Context `{Unicode}.
Variable check_at : nat -> result unit string.

(** What is compared. *)
Definition compared (s : string) : bytes := str_bytes (lowercase (trim s)).

Definition similarity (a b : bytes) (n : Z) : f64 :=
  if bool_decide (a = b) then f64_of 1
  else if bool_decide (a = [] \/ b = []) then f64_of 0
  else f64_sub (f64_of 1) (f64_div (f64_of n) (f64_of (Z.max (len a) (len b)))).

(** C26: The similarity of two strings is computed from their edit distance.  Dropping the common prefix
    and suffix, swapping the strings and keeping a single row lose nothing: the number divided by
    the longer length is the least number of insertions, deletions and replacements that turn one
    string into the other, and at most that length; a comparison fails only with an error of the
    caller's check. *)
Theorem compare_strings_distance first second t :
  match compare_strings check_at first second t with
  | (Ok r, _) => exists n, distance (compared first) (compared second) n /\
      0 <= n <= Z.max (len (compared first)) (len (compared second)) /\
      r = similarity (compared first) (compared second) n
  | (Err e, _) => exists t, check_at t = Err e
  end.
Proof.
  unfold compare_strings, bind at 1, check at 1. destruct (check_at t) as [[]|e] eqn:Ec; [|by exists t].
  unfold compared. set (a := str_bytes (lowercase (trim first))). set (b := str_bytes (lowercase (trim second))).
  assert (0 <= lev a b <= Z.max (len a) (len b)) as Hbound by apply lev_bounds.
  assert (forall r, r = similarity a b (lev a b) -> exists n, distance a b n /\ 0 <= n <= Z.max (len a) (len b) /\
    r = similarity a b n) as Hfound by (intros r ->; exists (lev a b); split; [apply distance_lev|done]).
  unfold similarity in Hfound at 1. case_bool_decide as Eab; [by apply Hfound|].
  destruct (bool_decide (a = []) || bool_decide (b = [])) eqn:En.
  { apply Hfound. rewrite orb_true_iff, !bool_decide_eq_true in En. by rewrite bool_decide_eq_true_2. }
  rewrite orb_false_iff, !bool_decide_eq_false in En. rewrite bool_decide_eq_false_2 in Hfound by tauto.
  pose proof (lev_suffix (drop (common_prefix a b) a) (drop (common_prefix a b) b)) as Hsuffix. cbv zeta in Hsuffix.
  rewrite lev_prefix in Hsuffix. set (a1 := take _ (drop _ a)) in *. set (b1 := take _ (drop _ b)) in *.
  clearbody a1 b1. unfold bind.
  destruct (len a1 <? len b1); cbv beta iota zeta.
  - pose proof (rows_distance check_at a1 b1 (S t)) as Hr.
    destruct (rows check_at b1 a1 _ _ _) as [[row|e] t1]; [|done]. apply Hfound. by rewrite Hr, lev_sym, Hsuffix.
  - pose proof (rows_distance check_at b1 a1 (S t)) as Hr.
    destruct (rows check_at a1 b1 _ _ _) as [[row|e] t1]; [|done]. apply Hfound. by rewrite Hr, Hsuffix.
Qed.
End compare.

Example kitten : lev (str_bytes "kitten") (str_bytes "sitting") = 3.
Proof. reflexivity. Qed.
