(* ===== verification/TagIo.v ===== *)
(** * Reading a source and writing an edited copy: [crates/core/src/tags.rs] and [tags/write.rs]

    Tag editors read a file, decide which of its sections to replace, and write the copy.  The source
    and the output answer through the class [Source]: any read may be short or fail, any check may
    cancel, by the number of the call.  [write_sections] is shown to write the source with the
    sections replaced, and to succeed whenever the outside does. *)

From S2P Require Import Prelude Monads.

Class Source := {
  content : bytes;
  content_bytes : Forall byte_ok content;
  check_at : nat -> result unit string;
  read_at : nat -> result nat string;       (** an error, or how many bytes a read gives at most *)
  seek_error_at : nat -> option string;
  write_error_at : nat -> option string;
  partial_write_at : nat -> nat }.          (** how much a failing write leaves in the output *)

Record Io := mkIo { tick : nat; position : Z; written : bytes }.

Record FileSection := mkSection { start : Z; finish : Z; data : bytes }.

Definition MAX_TAG_BYTES : Z := 64 * 2 ^ 20.

(** The bytes of the list from [i] up to [j]. *)
Definition slice (l : bytes) (i j : Z) : bytes := take (Z.to_nat (j - i)) (drop (Z.to_nat i) l).

Section io.
Context `{Source}.

Abbreviation P := (St Io string).

Definition call : P nat := fun s => (Ok (tick s), mkIo (S (tick s)) (position s) (written s)).
Definition check : P unit := do t <- call; match check_at t with Ok _ => ret tt | Err e => throw e end.

Definition move (p : Z) : P unit := modify (fun s => mkIo (tick s) p (written s)).
Definition put (bs : bytes) : P unit := modify (fun s => mkIo (tick s) (position s) (written s ++ bs)).

(** One [read] into a buffer of [limit] bytes: nothing only at the end of the file, or for an empty
    buffer. *)
Definition read (limit : Z) : P bytes :=
  do t <- call;
  match read_at t with
  | Err e => throw e
  | Ok n =>
    do p <- gets position;
    let l := take (Z.to_nat (Z.min limit (Z.max 1 (Z.of_nat n)))) (drop (Z.to_nat p) content) in
    move (p + len l);;
    ret l
  end.

Definition seek (p : Z) : P Z :=
  do t <- call;
  match seek_error_at t with Some e => throw e | None => move p;; ret p end.

(** [write_all]. *)
Definition write_all (bs : bytes) : P unit :=
  do t <- call;
  match write_error_at t with
  | Some e => put (take (partial_write_at t) bs);; throw e
  | None => put bs
  end.

(** [exact] into a buffer of [need] bytes, of which [acc] are there; each pass reads at least one. *)
Fixpoint exact (fuel : nat) (need : Z) (acc : bytes) : P bytes :=
  match fuel with
  | O => ret acc
  | S fuel =>
    if need =? 0 then ret acc
    else
      do b <- read need;
      match b with
      | [] => throw (match acc with [] => "EOF" | _ => "unexpected EOF" end)%string
      | _ => exact fuel (need - len b) (acc ++ b)
      end
  end.

Definition bytes_of (n : Z) : P bytes := exact (Z.to_nat n) n [].

(** Reading without keeping. *)
Fixpoint discard (fuel : nat) (need : Z) (fresh : bool) : P unit :=
  match fuel with
  | O => ret tt
  | S fuel =>
    if need <=? 0 then ret tt
    else
      check;;
      do b <- read (Z.min need 65536);
      match b with
      | [] => throw (if fresh then "EOF" else "unexpected EOF")%string
      | _ => discard fuel (need - len b) false
      end
  end.
Definition discard_bytes (n : Z) : P unit := discard (Z.to_nat n) n true.

(** [copy]: [remaining] bytes, or all; at most one pass for each byte of the source, and a last one. *)
Fixpoint copy_loop (fuel : nat) (remaining : option Z) : P unit :=
  check;;
  let limit := match remaining with Some n => Z.min n 65536 | None => 65536 end in
  if limit =? 0 then check
  else
    match fuel with
    | O => throw "out of fuel"%string
    | S fuel =>
      do b <- read limit;
      match b with
      | [] => match remaining with
              | Some _ => throw "unexpected EOF while copying audio"%string
              | None => check
              end
      | _ =>
        write_all b;;
        copy_loop fuel (match remaining with Some n => Some (n - len b) | None => None end)
      end
    end.
Definition copy (remaining : option Z) : P unit := copy_loop (S (length content)) remaining.

(** The chunks of [data.chunks(65536)], each preceded by a check. *)
Definition CHUNK : nat := Z.to_nat 65536.
Fixpoint write_chunks (fuel : nat) (l : bytes) : P unit :=
  match fuel with
  | O => ret tt
  | S fuel =>
    match l with
    | [] => ret tt
    | _ => check;; write_all (take CHUNK l);; write_chunks fuel (drop CHUNK l)
    end
  end.

(** [sort_by_key(|section| section.start)]: stable. *)
Fixpoint insert_section (x : FileSection) (l : list FileSection) : list FileSection :=
  match l with
  | [] => [x]
  | y :: l => if start x <=? start y then x :: y :: l else y :: insert_section x l
  end.
Definition sort_sections (l : list FileSection) : list FileSection := foldr insert_section [] l.

Fixpoint disjoint_from (position : Z) (l : list FileSection) : bool :=
  match l with
  | [] => true
  | s :: l => negb ((start s <? position) || (finish s <? start s)) && disjoint_from (finish s) l
  end.

Fixpoint replace_sections (from : Z) (l : list FileSection) : P unit :=
  match l with
  | [] => copy None
  | s :: l =>
    copy (Some (start s - from));;
    write_chunks (length (data s)) (data s);;
    seek (finish s);;
    replace_sections (finish s) l
  end.

Definition write_sections (l : list FileSection) : P unit :=
  let l := sort_sections l in
  if disjoint_from 0 l then (seek 0;; replace_sections 0 l)
  else throw "overlapping or invalid file sections"%string.

Definition write_optional_sections (l : list FileSection) : P bool :=
  match l with
  | [] => check;; ret false
  | _ => write_sections l;; ret true
  end.

(** ** What the copy is *)

(** The source from [from] on with the sections replaced. *)
Fixpoint spliced (from : Z) (l : list FileSection) : bytes :=
  match l with
  | [] => drop (Z.to_nat from) content
  | s :: l => slice content from (start s) ++ data s ++ spliced (finish s) l
  end.

(** The sections do not overlap, and what is copied between them is there. *)
Fixpoint fits (from : Z) (l : list FileSection) : Prop :=
  match l with
  | [] => True
  | s :: l => from <= start s <= finish s /\ (start s = from \/ start s <= len content) /\ fits (finish s) l
  end.

(** Nothing fails. *)
Definition calm : Prop :=
  (forall t, check_at t = Ok tt) /\ (forall t, is_ok (read_at t) = true) /\
  (forall t, seek_error_at t = None) /\ (forall t, write_error_at t = None).
End io.

(** ** Slices *)

Lemma slice_app l i j k : 0 <= i <= j -> j <= k -> slice l i j ++ slice l j k = slice l i k.
Proof.
  intros Hi Hk. unfold slice. replace (Z.to_nat (k - i)) with (Z.to_nat (j - i) + Z.to_nat (k - j))%nat by lia.
  rewrite <- take_take_drop, drop_drop. repeat f_equal. lia.
Qed.

Lemma slice_drop l i j : 0 <= i <= j -> slice l i j ++ drop (Z.to_nat j) l = drop (Z.to_nat i) l.
Proof.
  intros Hi. unfold slice. rewrite <- (take_drop (Z.to_nat (j - i)) (drop (Z.to_nat i) l)) at 2.
  rewrite drop_drop. repeat f_equal. lia.
Qed.

Lemma slice_nil l i : slice l i i = [].
Proof. unfold slice. by rewrite Z.sub_diag. Qed.

Lemma len_slice l i j : 0 <= i <= j -> j <= len l -> len (slice l i j) = j - i.
Proof. intros Hi Hj. unfold slice, len in *. rewrite length_take, length_drop. lia. Qed.

Lemma slice_after l l1 l2 i j : l = l1 ++ l2 -> i = len l1 -> slice l i j = take (Z.to_nat (j - i)) l2.
Proof. intros -> ->. unfold slice. by rewrite drop_app_length' by (unfold len; lia). Qed.

Lemma take_taken {A} n (l : list A) : take (length (take n l)) l = take n l.
Proof.
  rewrite length_take. destruct (Nat.le_ge_cases n (length l)); [by rewrite Nat.min_l|].
  by rewrite Nat.min_r, !take_ge by lia.
Qed.

Section rules.
Context `{Source}.
Implicit Types (s : Io).

(** The rules name what a step leaves and blame its failures on the outside. *)

Lemma wp_check (Q : unit -> Io -> Prop) R s :
  (forall s', position s' = position s -> written s' = written s -> Q tt s') ->
  (forall e s', ~ calm -> written s' = written s -> R e s') -> wp check Q R s.
Proof.
  intros HQ HR. unfold check, call. apply wp_bind. unfold wp at 1. destruct (check_at _) as [[]|e] eqn:E; [by apply wp_ret, HQ|].
  apply wp_throw, HR; [|done]. intros (Hc & _). by rewrite Hc in E.
Qed.

Lemma wp_seek p Q R s :
  (forall s', position s' = p -> written s' = written s -> Q p s') ->
  (forall e s', ~ calm -> written s' = written s -> R e s') -> wp (seek p) Q R s.
Proof.
  intros HQ HR. unfold seek, call. apply wp_bind. unfold wp at 1. destruct (seek_error_at _) as [e|] eqn:E.
  - apply wp_throw, HR; [|done]. intros (_ & _ & Hc & _). by rewrite Hc in E.
  - apply wp_bind, wp_modify, wp_ret. by apply HQ.
Qed.

Lemma wp_write_output bs (Q : unit -> Io -> Prop) R s :
  (forall s', position s' = position s -> written s' = written s ++ bs -> Q tt s') ->
  (forall e s', ~ calm -> R e s') -> wp (write_all bs) Q R s.
Proof.
  intros HQ HR. unfold write_all, call. apply wp_bind. unfold wp at 1. destruct (write_error_at _) as [e|] eqn:E.
  - apply wp_bind, wp_modify, wp_throw, HR. intros (_ & _ & _ & Hc). by rewrite Hc in E.
  - apply wp_modify. by apply HQ.
Qed.

Lemma wp_read limit Q R s :
  0 <= position s -> 0 < limit ->
  (forall b s', len b <= limit -> b = slice content (position s) (position s + len b) ->
     position s + len b <= Z.max (position s) (len content) -> (b = [] -> len content <= position s) ->
     position s' = position s + len b -> written s' = written s -> Q b s') ->
  (forall e s', ~ calm -> written s' = written s -> R e s') -> wp (read limit) Q R s.
Proof.
  intros Hp Hlimit HQ HR. unfold read, call. apply wp_bind. unfold wp at 1. destruct (read_at _) as [n|e] eqn:E.
  2: { apply wp_throw, HR; [|done]. intros (_ & Hc & _). specialize (Hc (tick s)). by rewrite E in Hc. }
  apply wp_bind, wp_gets. set (b := take _ _). apply wp_bind, wp_modify, wp_ret.
  set (k := Z.min limit (Z.max 1 (Z.of_nat n))) in *.
  assert (len b = Z.min k (Z.max 0 (len content - position s))) as Hb.
  { unfold b, len. cbn. rewrite length_take, length_drop. lia. }
  pose proof (len_nonneg content). apply HQ; cbn [position written]; try done.
  - lia.
  - unfold slice. replace (position s + len b - position s) with (len b) by lia. unfold len. rewrite Nat2Z.id.
    symmetry. apply take_taken.
  - lia.
  - intros Hnil. rewrite Hnil in Hb. unfold len at 1 in Hb. simpl in Hb. lia.
Qed.

Lemma wp_exact fuel need acc Q R s :
  0 <= position s -> 0 <= need <= Z.of_nat fuel ->
  (forall s', position s' = position s + need -> written s' = written s ->
     (need = 0 \/ position s + need <= len content) ->
     Q (acc ++ slice content (position s) (position s + need)) s') ->
  (forall e s', (calm -> len content < position s + need) -> written s' = written s -> R e s') ->
  wp (exact fuel need acc) Q R s.
Proof.
  revert need acc s. induction fuel as [|fuel IH]; intros need acc s Hp Hn HQ HR; cbn [exact].
  { apply wp_ret. assert (need = 0) as -> by lia. specialize (HQ s). rewrite Z.add_0_r, slice_nil, app_nil_r in HQ. auto. }
  destruct (Z.eqb_spec need 0) as [->|Hne].
  { apply wp_ret. specialize (HQ s). rewrite Z.add_0_r, slice_nil, app_nil_r in HQ. auto. }
  apply wp_bind, wp_read; [done|lia| |].
  - intros b s1 Hb Heq Hle Hnil Hp1 Hw1. destruct b as [|x b'] eqn:Eb.
    { apply wp_throw, HR; [|done]. intros _. specialize (Hnil eq_refl). lia. }
    rewrite <- Eb in *. assert (0 < len b) by (rewrite Eb; unfold len; simpl; lia). clear Eb x b'.
    apply IH; [lia|lia| |].
    + intros s2 Hp2 Hw2 Hin. rewrite <- app_assoc. rewrite Heq at 1. rewrite Hp1, slice_app by lia.
      replace (position s + len b + (need - len b)) with (position s + need) by lia. apply HQ; [lia|congruence|lia].
    + intros e s2 Hc Hw2. apply HR; [|congruence]. intros Hcalm. specialize (Hc Hcalm). lia.
  - intros e s1 Hc Hw. apply HR; [|done]. intros ?. by destruct Hc.
Qed.

Lemma wp_bytes_of n Q R s :
  0 <= position s -> 0 <= n ->
  (forall s', position s' = position s + n -> written s' = written s -> (n = 0 \/ position s + n <= len content) ->
     Q (slice content (position s) (position s + n)) s') ->
  (forall e s', (calm -> len content < position s + n) -> written s' = written s -> R e s') ->
  wp (bytes_of n) Q R s.
Proof. intros Hp Hn HQ HR. unfold bytes_of. apply wp_exact; [done|lia|exact HQ|exact HR]. Qed.

Lemma wp_discard fuel need fresh (Q : unit -> Io -> Prop) R s :
  0 <= position s -> 0 <= need <= Z.of_nat fuel ->
  (forall s', position s' = position s + need -> written s' = written s ->
     (need = 0 \/ position s + need <= len content) -> Q tt s') ->
  (forall e s', (calm -> len content < position s + need) -> written s' = written s -> R e s') ->
  wp (discard fuel need fresh) Q R s.
Proof.
  revert need fresh s. induction fuel as [|fuel IH]; intros need fresh s Hp Hn HQ HR; cbn [discard].
  { apply wp_ret, HQ; [lia|done|lia]. }
  destruct (Z.leb_spec need 0); [apply wp_ret, HQ; [lia|done|lia]|].
  apply wp_bind, wp_check; [|intros e s1 Hc Hw; apply HR; [|done]; by intros ?; destruct Hc]. intros s0 Hp0 Hw0.
  apply wp_bind, wp_read; [lia|lia| |].
  - intros b s1 Hb Heq Hle Hnil Hp1 Hw1. destruct b as [|x b'] eqn:Eb.
    { apply wp_throw, HR; [|congruence]. intros _. specialize (Hnil eq_refl). lia. }
    rewrite <- Eb in *. assert (0 < len b) by (rewrite Eb; unfold len; simpl; lia). clear Eb x b'.
    apply IH; [lia|lia| |].
    + intros s2 Hp2 Hw2 Hin. apply HQ; [lia|congruence|lia].
    + intros e s2 Hc Hw2. apply HR; [|congruence]. intros Hcalm. specialize (Hc Hcalm). lia.
  - intros e s1 Hc Hw. apply HR; [|congruence]. intros ?. by destruct Hc.
Qed.

(** What a copy leaves: the part of the source that was asked for. *)
Definition asked (p : Z) (remaining : option Z) : bytes :=
  match remaining with Some n => slice content p (p + n) | None => drop (Z.to_nat p) content end.
Definition there (p : Z) (remaining : option Z) : Prop :=
  match remaining with Some n => n = 0 \/ p + n <= len content | None => True end.

Lemma wp_copy_loop fuel remaining (Q : unit -> Io -> Prop) (R : string -> Io -> Prop) s :
  0 <= position s -> Z.max 0 (len content - position s) < Z.of_nat fuel ->
  match remaining with Some n => 0 <= n | None => True end ->
  (forall s', match remaining with Some n => position s' = position s + n | None => True end ->
     written s' = written s ++ asked (position s) remaining -> there (position s) remaining -> Q tt s') ->
  (forall e s', (calm -> ~ there (position s) remaining) -> R e s') ->
  wp (copy_loop fuel remaining) Q R s.
Proof.
  revert remaining s. induction fuel as [|fuel IH]; intros remaining s Hp Hfuel Hr HQ HR; [lia|]. cbn [copy_loop].
  assert (forall e s', ~ calm -> R e s') as HR' by (intros e s' Hc; apply HR; by intros ?; destruct Hc).
  apply wp_bind, wp_check; [intros s0 Hp0 Hw0|by eauto].
  set (limit := match remaining with Some n => Z.min n 65536 | None => 65536 end).
  destruct (Z.eqb_spec limit 0) as [Hlimit|Hlimit].
  { destruct remaining as [n|]; [|done]. assert (n = 0) as -> by lia. apply wp_check; [|by eauto].
    intros s1 Hp1 Hw1. apply HQ; [lia| |by left]. unfold asked. rewrite Z.add_0_r, slice_nil, app_nil_r. congruence. }
  apply wp_bind, wp_read; [lia|destruct remaining; lia| |by eauto].
  intros b s1 Hb Heq Hle Hnil Hp1 Hw1. rewrite Hp0 in *. destruct b as [|x b'] eqn:Eb.
  { specialize (Hnil eq_refl). destruct remaining as [n|].
    - apply wp_throw, HR. intros _ [?|?]; lia.
    - apply wp_check; [|by eauto]. intros s2 Hp2 Hw2. apply HQ; [done| |done].
      unfold asked. rewrite drop_ge, app_nil_r by (unfold len in Hnil; lia). congruence. }
  rewrite <- Eb in *. assert (0 < len b) by (rewrite Eb; unfold len; simpl; lia). clear Eb x b'.
  apply wp_bind, wp_write_output; [|by eauto]. intros s2 Hp2 Hw2. apply IH; [lia|lia|destruct remaining; lia| |].
  - intros s3 Hp3 Hw3 Ht3. apply HQ.
    + destruct remaining; [lia|done].
    + rewrite Hw3, Hw2, Hw1, Hw0, <- app_assoc, Hp2, Hp1. f_equal. rewrite Heq at 1.
      destruct remaining as [n|]; unfold asked.
      * rewrite slice_app by lia. f_equal. lia.
      * apply slice_drop. lia.
    + destruct remaining; [|done]. unfold there in *. lia.
  - intros e s3 Hc. apply HR. intros Hcalm Ht. apply (Hc Hcalm). destruct remaining; [|done]. unfold there in *. lia.
Qed.

Lemma wp_copy remaining (Q : unit -> Io -> Prop) (R : string -> Io -> Prop) s :
  0 <= position s -> match remaining with Some n => 0 <= n | None => True end ->
  (forall s', match remaining with Some n => position s' = position s + n | None => True end ->
     written s' = written s ++ asked (position s) remaining -> there (position s) remaining -> Q tt s') ->
  (forall e s', (calm -> ~ there (position s) remaining) -> R e s') ->
  wp (copy remaining) Q R s.
Proof. intros Hp Hr HQ HR. unfold copy. apply wp_copy_loop; auto. unfold len. lia. Qed.

Lemma wp_write_chunks fuel l (Q : unit -> Io -> Prop) (R : string -> Io -> Prop) s :
  (length l <= fuel)%nat ->
  (forall s', position s' = position s -> written s' = written s ++ l -> Q tt s') ->
  (forall e s', ~ calm -> R e s') -> wp (write_chunks fuel l) Q R s.
Proof.
  revert l s. induction fuel as [|fuel IH]; intros l s Hl HQ HR; cbn [write_chunks].
  { destruct l; [|simpl in Hl; lia]. apply wp_ret, HQ; [done|]. by rewrite app_nil_r. }
  destruct l as [|x l'] eqn:El; [apply wp_ret, HQ; [done|]; by rewrite app_nil_r|]. rewrite <- El in *.
  assert (0 < length l)%nat by (rewrite El; simpl; lia). clear El x l'.
  apply wp_bind, wp_check; [|by auto]. intros s1 Hp1 Hw1. apply wp_bind, wp_write_output; [|by auto]. intros s2 Hp2 Hw2.
  assert (0 < CHUNK)%nat by (apply (Z2Nat.inj_lt 0 65536); lia).
  apply IH; [rewrite length_drop; lia| |by auto]. intros s3 Hp3 Hw3. apply HQ; [congruence|].
  rewrite Hw3, Hw2, Hw1, <- app_assoc. by rewrite take_drop.
Qed.
End rules.

(** ** The copy with its sections replaced *)

Section sections.
Context `{Source}.
Implicit Types (s : Io) (l : list FileSection).

Lemma fits_disjoint from l : fits from l -> disjoint_from from l = true.
Proof.
  revert from. induction l as [|x l IH]; intros from; [done|]. simpl. intros (Ha & _ & Hl). rewrite (IH _ Hl), andb_true_r.
  lia.
Qed.

Lemma wp_replace from l s :
  position s = from -> 0 <= from -> disjoint_from from l = true ->
  wp (replace_sections from l) (fun _ s' => written s' = written s ++ spliced from l /\ fits from l)
    (fun _ _ => calm -> ~ fits from l) s.
Proof.
  revert from s. induction l as [|x l IH]; intros from s Hp Hfrom Hd; cbn [replace_sections].
  { apply wp_copy; [lia|done| |].
    - intros s1 _ Hw _. rewrite Hw, Hp. by split.
    - intros e s1 Hc Hcalm _. by apply (Hc Hcalm). }
  cbn [disjoint_from] in Hd. rewrite andb_true_iff, negb_true_iff, orb_false_iff, !Z.ltb_ge in Hd.
  destruct Hd as [[Ha Hb] Hd]. apply wp_bind, wp_copy; [lia|lia| |].
  2: { intros e s1 Hc Hcalm (_ & Ht & _). apply (Hc Hcalm). unfold there. rewrite Hp. lia. }
  intros s1 Hp1 Hw1 Ht1. apply wp_bind, wp_write_chunks; [done| |by intros e s2 Hc Hcalm].
  intros s2 Hp2 Hw2. apply wp_bind, wp_seek; [|by intros e s3 Hc _ Hcalm]. intros s3 Hp3 Hw3.
  eapply wp_mono; [by apply IH; [|lia|]| |].
  - intros _ s4 [Hw4 Hf]. unfold there in Ht1. split; [|split; [lia|split; [lia|done]]].
    rewrite Hw4, Hw3, Hw2, Hw1, Hp. unfold asked. cbn [spliced]. rewrite <- !app_assoc.
    by replace (from + (start x - from)) with (start x) by lia.
  - intros e s4 Hc Hcalm (_ & _ & Hf). by apply (Hc Hcalm).
Qed.

Lemma insert_section_perm x l : insert_section x l ≡ₚ x :: l.
Proof. induction l as [|y l IH]; [done|]. simpl. destruct (_ <=? _); [done|]. rewrite IH. by constructor. Qed.

Lemma sort_sections_perm l : sort_sections l ≡ₚ l.
Proof. induction l as [|x l IH]; [done|]. cbn. by rewrite insert_section_perm, IH. Qed.

Lemma wp_write_sections l s :
  wp (write_sections l)
    (fun _ s' => fits 0 (sort_sections l) /\ written s' = written s ++ spliced 0 (sort_sections l))
    (fun _ _ => calm -> ~ fits 0 (sort_sections l)) s.
Proof.
  unfold write_sections. destruct (disjoint_from 0 (sort_sections l)) eqn:Hd.
  - apply wp_bind, wp_seek; [|intros e s1 Hc _ Hcalm; by destruct (Hc Hcalm)].
    intros s1 Hp1 Hw1. rewrite <- Hw1. eapply wp_mono; [by apply wp_replace| |done]. by intros _ s2 [? ?].
  - apply wp_throw. intros _ Hf. apply fits_disjoint in Hf. congruence.
Qed.

(** C6: Writing sections copies everything else.  Whatever reads are short and whatever the outside
    answers, a call that succeeds has written the source with exactly the sections replaced by their
    data, in the order of the file; and it can fail only if something outside failed or the sections
    overlap or begin behind the end of the file. *)
Theorem write_sections_splice l s :
  sort_sections l ≡ₚ l /\
  match write_sections l s with
  | (Ok _, s') => fits 0 (sort_sections l) /\ written s' = written s ++ spliced 0 (sort_sections l)
  | (Err _, _) => calm -> ~ fits 0 (sort_sections l)
  end.
Proof.
  split; [apply sort_sections_perm|]. pose proof (wp_write_sections l s) as Hw. unfold wp in Hw.
  by destruct (write_sections l s) as [[[]|e] s'].
Qed.
End sections.
