(* ===== verification/VorbisComments.v ===== *)
(** * Editing Vorbis comments: [crates/core/src/tags/write.rs], [tags/write/artists.rs], [tags/separators.rs]

    A comment block is a vendor string and a list of comments, each a key and a value around the first
    [=]; keys compare without case.  [edit_comments] applies the fields of the editor.  The regular
    expressions that split lists of artists are the class [Splits]. *)

From S2P Require Import Prelude RustText UnicodeText Matching.

Abbreviation Fields := (gmap string string).

(** [SPLIT], [SEPARATOR] and [LIST]: the parts of a text between the matches. *)
Class Splits := { split_credits : string -> list string; split_primary : string -> list string; split_list : string -> list string }.

(** ** Numbers of tracks and discs: [crates/core/src/tags.rs] *)

(** The digits of a number in turn; [None] at a character that is none, and an overflow ends at the
    bound. *)
Fixpoint number_digits (negative : bool) (acc : Z) (l : list ascii) : option Z :=
  match l with
  | [] => Some acc
  | a :: l =>
    match digit_value a with
    | None => None
    | Some d =>
      let acc := if negative then 10 * acc - d else 10 * acc + d in
      if acc <? i64_min then Some i64_min else if i64_max <? acc then Some i64_max else number_digits negative acc l
    end
  end.

Definition number (value : string) : Z :=
  let '(negative, l) :=
    match chars (trim value) with
    | a :: l => if Ascii.eqb a (ascii_of_nat 45) then (true, l) else if Ascii.eqb a (ascii_of_nat 43) then (false, l) else (false, a :: l)
    | [] => (false, [])
    end in
  match l with [] => 0 | _ => default 0 (number_digits negative 0 l) end.

Definition SLASH : ascii := ascii_of_nat 47.

Definition pair (value : string) : Z * Z :=
  let l := chars (trim value) in
  match find_list [SLASH] l with
  | Some (S index) => (number (unchars (take (S index) l)), number (unchars (drop (S (S index)) l)))
  | _ => (number (unchars l), 0)
  end.

(** The number of a field, if it is one. *)
Definition field_number (value : string) : Z := default 0 (parse_i64 (trim value)).

Definition edit_index (current : Z * Z) (fields : Fields) (key total_key : string) : string :=
  let number := match fields !! key with Some v => field_number v | None => current.1 end in
  let total := match fields !! total_key with Some v => field_number v | None => current.2 end in
  if number <=? 0 then ""%string
  else if 0 <? total then (signed_decimal number ++ "/" ++ signed_decimal total)%string
  else signed_decimal number.

(** ** Comments *)

Definition EQUALS : Z := 61.

Section comments.
Context `{Unicode} `{Splits}.

(** [format!("{key}={value}").into_bytes()]. *)
Definition comment (key value : string) : bytes := str_bytes key ++ EQUALS :: str_bytes value.

Fixpoint position_of (b : Z) (l : bytes) : option nat :=
  match l with
  | [] => None
  | x :: l => if x =? b then Some 0%nat else S <$> position_of b l
  end.

Definition comment_key (value : bytes) : string :=
  match position_of EQUALS value with
  | Some (S index) => uppercase (from_utf8_lossy (take (S index) value))
  | _ => ""%string
  end.

Definition has_key (key : string) (c : bytes) : bool := String.eqb (comment_key c) key.

Definition set_comment (comments : list bytes) (key value : string) : list bytes :=
  let comments := List.filter (fun c => negb (has_key key c)) comments in
  if is_empty value then comments else comments ++ [comment key value].

Definition get_comment (comments : list bytes) (key : string) : string :=
  match List.find (has_key key) comments with
  | Some c => from_utf8_lossy (drop (length (chars key) + 1) c)
  | None => ""%string
  end.

(** *** Artists *)

Definition utf16_length (l : list Z) : Z := foldr (fun c n => (if 65536 <=? c then 2 else 1) + n) 0 l.

Definition valid_separator (value : string) : bool :=
  negb (is_empty value) && (utf16_length (char_list value) <=? 16) &&
  negb (existsb (fun c => (c <=? 31) || (c =? 127)) (char_list value)).

Definition nonempty (s : string) : bool := negb (is_empty s).
Definition blank (s : string) : bool := is_empty (trim s).

Definition format_metadata_tag_value (value separator : string) : string :=
  if valid_separator separator then String.concat separator (List.filter nonempty (map trim (split_list value)))
  else value.

Definition separator_key (key : string) : option string :=
  if String.eqb key "ARTIST" || String.eqb key "artist" then Some "artist_separator"%string
  else if String.eqb key "ALBUMARTIST" || String.eqb key "album_artist" then Some "album_artist_separator"%string
  else if String.eqb key "COMPOSER" || String.eqb key "composer" then Some "composer_separator"%string
  else if String.eqb key "GENRE" || String.eqb key "genre" then Some "genre_separator"%string
  else None.

Definition tag_separator (fields : Fields) (key : string) : string :=
  match separator_key key with
  | None => ""%string
  | Some key =>
    match fields !! key with
    | Some v => if valid_separator v then v else ""%string
    | None => ""%string
    end
  end.

Definition primary_artist_mode (mode : string) : bool := eq_ignore_ascii_case (trim mode) "primary".

Definition primary_artist (value : string) : string :=
  let value := trim value in
  default value (List.find nonempty (map trim (split_primary value))).

(** The first of the parts that differ only in case. *)
Fixpoint distinct_parts (seen : list string) (l : list string) : list string :=
  match l with
  | [] => []
  | part :: l =>
    if bool_decide (lowercase part ∈ seen) then distinct_parts seen l
    else part :: distinct_parts (lowercase part :: seen) l
  end.

Definition split_artists (value : string) : list string :=
  let value := trim value in
  if is_empty value then []
  else
    match distinct_parts [] (List.filter nonempty (map trim (split_credits value))) with
    | [] => [value]
    | parts => parts
    end.

Definition ARTIST_FIELDS : list string := ["artist"; "album_artist"; "composer"; "genre"]%string.

(** One field under the artist mode. *)
Definition artist_field (primary : bool) (fields : Fields) (key : string) : Fields :=
  match fields !! key with
  | None => fields
  | Some value =>
    let value := if primary && (String.eqb key "artist" || String.eqb key "album_artist") && negb (blank value)
                 then primary_artist value else value in
    <[key := format_metadata_tag_value value (tag_separator fields key)]> fields
  end.

Definition artist_mode_fields (fields : Fields) : Fields :=
  let primary := match fields !! "artist_tag_mode"%string with Some mode => primary_artist_mode mode | None => false end in
  if negb primary && forallb (fun key => is_empty (tag_separator fields key)) ARTIST_FIELDS then fields
  else fold_left (artist_field primary) ARTIST_FIELDS fields.

(** *** The fields of the editor *)

Definition COMMENT_FIELDS : list (string * string) :=
  [("title", "TITLE"); ("album", "ALBUM"); ("date", "DATE"); ("isrc", "ISRC"); ("genre", "GENRE");
   ("label", "ORGANIZATION"); ("copyright", "COPYRIGHT"); ("composer", "COMPOSER"); ("comment", "COMMENT");
   ("explicit", "ITUNESADVISORY"); ("album_type", "RELEASETYPE"); ("upc", "BARCODE"); ("barcode", "BARCODE");
   ("compilation", "COMPILATION"); ("replaygain_track_gain", "REPLAYGAIN_TRACK_GAIN");
   ("replaygain_track_peak", "REPLAYGAIN_TRACK_PEAK"); ("replaygain_album_gain", "REPLAYGAIN_ALBUM_GAIN");
   ("replaygain_album_peak", "REPLAYGAIN_ALBUM_PEAK")]%string.

Definition ALIAS_FIELDS : list (string * list string) := [("label", ["LABEL"; "PUBLISHER"]); ("date", ["YEAR"])]%string.
Definition CREDIT_FIELDS : list (string * string) := [("artist", "ARTIST"); ("album_artist", "ALBUMARTIST")]%string.
Definition INDEX_FIELDS : list (string * string * string * string) :=
  [("track_number", "track_total", "TRACKNUMBER", "TRACK"); ("disc_number", "disc_total", "DISCNUMBER", "DISC")]%string.

Definition edit_field (fields : Fields) (comments : list bytes) (entry : string * string) : list bytes :=
  match fields !! entry.1 with Some value => set_comment comments entry.2 value | None => comments end.

Definition clear_aliases (fields : Fields) (comments : list bytes) (entry : string * list string) : list bytes :=
  if bool_decide (is_Some (fields !! entry.1)) then fold_left (fun cs key => set_comment cs key "") entry.2 comments
  else comments.

Definition splits_artists (fields : Fields) (field : string) : bool :=
  match fields !! "artist_tag_mode"%string with
  | Some mode => eq_ignore_ascii_case (trim mode) "split_vorbis"
  | None => false
  end && is_empty (tag_separator fields field).

Definition credited (fields : Fields) (field value : string) : list string :=
  List.filter (fun v => negb (blank v)) (if splits_artists fields field then split_artists value else [value]).

Definition edit_credit (fields : Fields) (comments : list bytes) (entry : string * string) : list bytes :=
  let '(field, key) := entry in
  match fields !! field with
  | None => comments
  | Some value =>
    let comments := set_comment comments key "" ++ map (comment key) (credited fields field value) in
    if String.eqb field "album_artist"
    then fold_left (fun cs alias => set_comment cs alias "") ["ALBUM ARTIST"; "ALBUM_ARTIST"]%string comments
    else comments
  end.

(** The numbers a file has. *)
Definition current_index (comments : list bytes) (key alias : string) : Z * Z :=
  let current := pair (get_comment comments key) in
  if bool_decide (current = (0, 0)) then pair (get_comment comments alias) else current.

Definition edit_numbers (fields : Fields) (comments : list bytes) (entry : string * string * string * string) : list bytes :=
  let '(field, total, key, alias) := entry in
  if bool_decide (is_Some (fields !! field) \/ is_Some (fields !! total)) then
    let comments' := set_comment comments key (edit_index (current_index comments key alias) fields field total) in
    set_comment comments' alias ""
  else comments.

Definition edit_lyrics (fields : Fields) (comments : list bytes) : list bytes :=
  match fields !! "lyrics"%string with
  | Some value => set_comment (set_comment (set_comment comments "SYNCEDLYRICS" "") "LYRICS" value) "UNSYNCEDLYRICS" value
  | None => comments
  end.

Definition edit_comments (comments : list bytes) (fields : Fields) : list bytes :=
  let comments := fold_left (edit_field fields) COMMENT_FIELDS comments in
  let comments := fold_left (clear_aliases fields) ALIAS_FIELDS comments in
  let comments := fold_left (edit_credit fields) CREDIT_FIELDS comments in
  let comments := fold_left (edit_numbers fields) INDEX_FIELDS comments in
  edit_lyrics fields comments.
End comments.

(** ** What an edit is: keys that get new values *)

Section edits.
Context `{Unicode} `{Splits}.
Implicit Types (cs : list bytes) (fields : Fields).

Abbreviation Edits := (list (string * list string)).

Definition one (value : string) : list string := if is_empty value then [] else [value].

Definition replace cs (e : string * list string) : list bytes :=
  List.filter (fun c => negb (has_key e.1 c)) cs ++ map (comment e.1) e.2.

Definition given {A} (fields : Fields) (field : string) (f : string -> list A) : list A :=
  match fields !! field with Some v => f v | None => [] end.

Definition field_edits fields : Edits := flat_map (fun '(field, key) => given fields field (fun v => [(key, one v)])) COMMENT_FIELDS.
Definition alias_edits fields : Edits :=
  flat_map (fun '(field, keys) => given fields field (fun _ => map (fun key => (key, [])) keys)) ALIAS_FIELDS.
Definition credit_edits fields : Edits :=
  given fields "artist" (fun v => [("ARTIST", credited fields "artist" v)]) ++
  given fields "album_artist" (fun v =>
    [("ALBUMARTIST", credited fields "album_artist" v); ("ALBUM ARTIST", []); ("ALBUM_ARTIST", [])])%string.
Definition number_edit fields cs (entry : string * string * string * string) : Edits :=
  let '(field, total, key, alias) := entry in
  if bool_decide (is_Some (fields !! field) \/ is_Some (fields !! total))
  then [(key, one (edit_index (current_index cs key alias) fields field total)); (alias, [])] else [].
Definition number_edits fields cs : Edits := flat_map (number_edit fields cs) INDEX_FIELDS.
Definition lyric_edits fields : Edits :=
  given fields "lyrics" (fun v => [("SYNCEDLYRICS", []); ("LYRICS", one v); ("UNSYNCEDLYRICS", one v)])%string.

(** The keys a set of fields gives new values, for a file with the comments [cs]. *)
Definition tag_edits fields cs : Edits :=
  field_edits fields ++ alias_edits fields ++ credit_edits fields ++ number_edits fields cs ++ lyric_edits fields.

Definition edited (es : Edits) (c : bytes) : bool := existsb (fun e => has_key e.1 c) es.

(** The new comments: for a key that is edited twice, the last values. *)
Fixpoint new_comments (es : Edits) : list bytes :=
  match es with
  | [] => []
  | (key, values) :: es => (if bool_decide (key ∈ map fst es) then [] else map (comment key) values) ++ new_comments es
  end.

Definition apply_edits (es : Edits) cs : list bytes := List.filter (fun c => negb (edited es c)) cs ++ new_comments es.

(** *** Keys the editor uses: capital letters, spaces and underscores *)

Definition plain_char (b : Z) : bool := in_range 65 90 b || (b =? 32) || (b =? 95).
Definition plain (key : string) : bool := nonempty key && forallb plain_char (str_bytes key).

Lemma position_of_app b l r : ~ In b l -> position_of b (l ++ b :: r) = Some (length l).
Proof.
  induction l as [|x l IH]; intros Hb; simpl; [by rewrite Z.eqb_refl|].
  simpl in Hb. destruct (Z.eqb_spec x b); [tauto|]. rewrite IH by tauto. done.
Qed.

Lemma uppercase_plain key : plain key = true -> uppercase (from_utf8_lossy (str_bytes key)) = key.
Proof.
  unfold plain. intros [_ Hp]%andb_true_iff. rewrite forallb_forall in Hp.
  assert (Forall ascii_byte (str_bytes key)) as Ha.
  { apply List.Forall_forall. intros x Hx%Hp. unfold plain_char, in_range, ascii_byte in *. lia. }
  unfold uppercase, char_list, from_utf8_lossy, text_of. rewrite lossy_ascii, bytes_to_str_bytes, code_points_ascii by done.
  assert (map upper_char (str_bytes key) = str_bytes key) as ->.
  { rewrite <- (map_id (str_bytes key)) at 2. apply map_ext_in. intros x Hx. pose proof (Hp x Hx) as Hx'.
    unfold plain_char, in_range in Hx'. assert (0 <= x < 96) as Hr by lia. unfold upper_char.
    rewrite bool_decide_eq_false_2 by (rewrite !elem_of_cons, elem_of_nil; lia).
    unfold in_range. rewrite to_uppercase_ascii by lia. unfold in_range.
    repeat case_bool; lia. }
  by rewrite encode_ascii, bytes_to_str_bytes.
Qed.

Lemma comment_key_comment key value : plain key = true -> comment_key (comment key value) = key.
Proof.
  intros Hp. pose proof Hp as Hplain. unfold plain, nonempty in Hp. rewrite andb_true_iff, negb_true_iff, is_empty_false in Hp.
  destruct Hp as [Hne Hc]. rewrite forallb_forall in Hc. unfold comment_key, comment.
  rewrite position_of_app by (intros Hin; specialize (Hc _ Hin); done).
  destruct (length (str_bytes key)) as [|n] eqn:El.
  { destruct Hne. apply str_bytes_inj. by destruct (str_bytes key). }
  rewrite take_app_le, take_ge by lia. by apply uppercase_plain.
Qed.

Lemma has_key_comment key key' value : plain key = true -> has_key key' (comment key value) = String.eqb key key'.
Proof. intros Hp. unfold has_key. by rewrite comment_key_comment. Qed.

(** *** Edits in sequence *)

Definition plain_edits (es : Edits) : Prop := Forall (fun e => plain e.1 = true) es.

Lemma filter_comments (f : bytes -> bool) key values :
  (forall v, f (comment key v) = false) -> List.filter f (map (comment key) values) = [].
Proof. intros Hf. induction values as [|v values IH]; [done|]. simpl. by rewrite Hf. Qed.
Lemma keep_comments (f : bytes -> bool) key values :
  (forall v, f (comment key v) = true) -> List.filter f (map (comment key) values) = map (comment key) values.
Proof. intros Hf. induction values as [|v values IH]; [done|]. simpl. by rewrite Hf, IH. Qed.

Lemma filter_filter {A} (f g : A -> bool) l : List.filter f (List.filter g l) = List.filter (fun x => g x && f x) l.
Proof. induction l as [|x l IH]; [done|]. simpl. destruct (g x); simpl; [destruct (f x); by rewrite IH|done]. Qed.

Lemma edited_comment es key value : plain key = true -> edited es (comment key value) = bool_decide (key ∈ map fst es).
Proof.
  intros Hp. unfold edited. induction es as [|[k vs] es IH]; [done|]. simpl. rewrite has_key_comment, IH by done.
  destruct (String.eqb_spec key k) as [->|Hne]; simpl.
  - symmetry. apply bool_decide_eq_true. by left.
  - apply bool_decide_ext. rewrite elem_of_cons. naive_solver.
Qed.

Lemma replace_all es cs : plain_edits es -> fold_left replace es cs = apply_edits es cs.
Proof.
  intros Hp. revert cs. induction Hp as [|[key values] es Hkey Hes IH]; intros cs; cbn [fold_left].
  { unfold apply_edits. simpl. rewrite app_nil_r. symmetry. induction cs as [|c cs IH]; [done|]. simpl. by f_equal. }
  rewrite IH. unfold apply_edits, replace. cbn [fst snd new_comments]. rewrite List.filter_app, filter_filter, <- app_assoc.
  f_equal.
  - apply List.filter_ext. intros c. unfold edited at 2. simpl. by rewrite negb_orb.
  - f_equal. simpl in Hkey. case_bool_decide as Hin.
    + apply filter_comments. intros v. by rewrite edited_comment, bool_decide_eq_true_2.
    + apply keep_comments. intros v. by rewrite edited_comment, bool_decide_eq_false_2.
Qed.

Lemma new_comments_edited es : plain_edits es -> Forall (fun c => edited es c = true) (new_comments es).
Proof.
  intros Hp. assert (forall es', (forall k, k ∈ map fst es -> k ∈ map fst es') ->
    Forall (fun c => edited es' c = true) (new_comments es)) as Hall; [|by apply Hall].
  induction Hp as [|[key values] es Hkey Hes IH]; intros es' Hsub; [constructor|]. cbn [new_comments].
  apply Forall_app. split; [|apply IH; intros k Hk; apply Hsub; by right].
  case_bool_decide; [constructor|]. apply Forall_map, Forall_true. intros v. rewrite edited_comment by done.
  apply bool_decide_eq_true, Hsub. by left.
Qed.

Lemma filter_none {A} (f : A -> bool) l : Forall (fun x => f x = false) l -> List.filter f l = [].
Proof. induction 1 as [|x l Hx _ IH]; [done|]. simpl. by rewrite Hx. Qed.

Lemma apply_edits_again es cs : plain_edits es -> apply_edits es (apply_edits es cs) = apply_edits es cs.
Proof.
  intros Hp. unfold apply_edits. rewrite List.filter_app, filter_filter, (filter_none _ (new_comments es)).
  - rewrite app_nil_r. f_equal. apply List.filter_ext. intros c. apply andb_diag.
  - eapply Forall_impl; [by apply new_comments_edited|]. intros c Hc. cbn. by rewrite Hc.
Qed.

(** The values a key has after the edits. *)
Fixpoint last_values (es : Edits) (key : string) : option (list string) :=
  match es with
  | [] => None
  | (k, vs) :: es => match last_values es key with Some vs => Some vs | None => if String.eqb k key then Some vs else None end
  end.

Lemma last_values_none es key : last_values es key = None <-> key ∉ map fst es.
Proof.
  induction es as [|[k vs] es IH]; simpl; [by split; [intros _ ?%elem_of_nil|]|]. rewrite elem_of_cons.
  destruct (last_values es key); [split; [done|]; intros Hk; destruct IH as [_ IH]; destruct IH; naive_solver|].
  destruct (String.eqb_spec k key) as [->|]; naive_solver.
Qed.

Lemma comments_with_key es cs key :
  plain_edits es ->
  List.filter (has_key key) (apply_edits es cs) =
    match last_values es key with Some vs => map (comment key) vs | None => List.filter (has_key key) cs end.
Proof.
  intros Hp. unfold apply_edits. rewrite List.filter_app, filter_filter.
  assert (List.filter (fun c => negb (edited es c) && has_key key c) cs =
    if bool_decide (key ∈ map fst es) then [] else List.filter (has_key key) cs) as ->.
  { induction cs as [|c cs IH]; [by case_bool_decide|]. simpl. rewrite IH. clear IH.
    destruct (has_key key c) eqn:Hc; [|rewrite andb_false_r; done]. rewrite andb_true_r.
    assert (edited es c = bool_decide (key ∈ map fst es)) as ->; [|by case_bool_decide].
    unfold has_key in Hc. apply String.eqb_eq in Hc. unfold edited, has_key. rewrite Hc.
    clear. induction es as [|[k vs] es IH]; [done|]. simpl. rewrite IH. destruct (String.eqb_spec key k) as [->|]; simpl.
    - symmetry. apply bool_decide_eq_true. by left.
    - apply bool_decide_ext. rewrite elem_of_cons. naive_solver. }
  pose proof (last_values_none es key) as Hnone.
  assert (List.filter (has_key key) (new_comments es) =
    match last_values es key with Some vs => map (comment key) vs | None => [] end) as ->.
  { clear Hnone. induction Hp as [|[k vs] es Hk Hes IH]; [done|]. cbn [new_comments last_values]. rewrite List.filter_app, IH.
    simpl in Hk. pose proof (last_values_none es k) as Hl. case_bool_decide as Hin.
    - destruct (last_values es key) eqn:E; [done|]. destruct (String.eqb_spec k key) as [->|]; [|done]. tauto.
    - destruct (String.eqb_spec k key) as [->|Hne].
      + rewrite keep_comments by (intros v; by rewrite has_key_comment, String.eqb_refl).
        rewrite (proj2 Hl Hin). apply app_nil_r.
      + rewrite filter_comments; [by destruct (last_values es key)|]. intros v. rewrite has_key_comment by done.
        by apply String.eqb_neq. }
  case_bool_decide as Hin; destruct (last_values es key); try done; [tauto| |apply app_nil_r].
  exfalso. destruct Hnone as [_ Hnone]. specialize (Hnone Hin). done.
Qed.

(** *** The editor as a sequence of edits *)

Lemma set_comment_replace cs key value : set_comment cs key value = replace cs (key, one value).
Proof. unfold set_comment, replace, one. destruct (is_empty value); [by rewrite app_nil_r|done]. Qed.

Lemma clear_replace cs keys : fold_left (fun cs key => set_comment cs key "") keys cs = fold_left replace (map (fun key => (key, [])) keys) cs.
Proof. revert cs. induction keys as [|key keys IH]; intros cs; [done|]. simpl. by rewrite IH, set_comment_replace. Qed.

Lemma edit_field_edits fields table cs :
  fold_left (edit_field fields) table cs =
  fold_left replace (flat_map (fun '(field, key) => given fields field (fun v => [(key, one v)])) table) cs.
Proof.
  revert cs. induction table as [|[field key] table IH]; intros cs; [done|]. cbn [fold_left flat_map].
  rewrite fold_left_app, IH. f_equal. unfold edit_field, given. simpl. destruct (fields !! field); [|done].
  by rewrite set_comment_replace.
Qed.

Lemma clear_alias_edits fields table cs :
  fold_left (clear_aliases fields) table cs =
  fold_left replace (flat_map (fun '(field, keys) => given fields field (fun _ => map (fun key => (key, [])) keys)) table) cs.
Proof.
  revert cs. induction table as [|[field keys] table IH]; intros cs; [done|]. cbn [fold_left flat_map].
  rewrite fold_left_app, IH. f_equal. unfold clear_aliases, given. simpl. destruct (fields !! field).
  - rewrite bool_decide_eq_true_2 by eauto. apply clear_replace.
  - by rewrite bool_decide_eq_false_2 by (by intros [? ?]).
Qed.

Lemma credit_replace cs key values : set_comment cs key "" ++ map (comment key) values = replace cs (key, values).
Proof. by rewrite set_comment_replace; unfold replace; simpl; rewrite app_nil_r. Qed.

Lemma edit_credit_edits fields cs : fold_left (edit_credit fields) CREDIT_FIELDS cs = fold_left replace (credit_edits fields) cs.
Proof.
  unfold credit_edits, CREDIT_FIELDS, given. cbn [fold_left]. rewrite fold_left_app. unfold edit_credit at 1 2.
  destruct (fields !! "artist"%string); destruct (fields !! "album_artist"%string); simpl;
    by rewrite ?credit_replace, ?set_comment_replace.
Qed.

Lemma edit_lyrics_edits fields cs : edit_lyrics fields cs = fold_left replace (lyric_edits fields) cs.
Proof.
  unfold edit_lyrics, lyric_edits, given. destruct (fields !! "lyrics"%string); [|done]. simpl. by rewrite !set_comment_replace.
Qed.

(** *** Numbers *)

Lemma find_filter {A} (f : A -> bool) l : List.find f l = head (List.filter f l).
Proof. induction l as [|x l IH]; [done|]. simpl. by destruct (f x). Qed.

Lemma get_comment_same cs cs' key :
  List.filter (has_key key) cs = List.filter (has_key key) cs' -> get_comment cs key = get_comment cs' key.
Proof. intros E. unfold get_comment. by rewrite !find_filter, E. Qed.

Lemma current_index_same es cs key alias :
  plain_edits es -> key ∉ map fst es -> alias ∉ map fst es ->
  current_index (fold_left replace es cs) key alias = current_index cs key alias.
Proof.
  intros Hp Hk Ha. rewrite replace_all by done. unfold current_index.
  rewrite (get_comment_same _ cs key), (get_comment_same _ cs alias); [done| |];
    rewrite comments_with_key by done; by rewrite (proj2 (last_values_none _ _)).
Qed.

Definition FRONT_KEYS : list string :=
  map snd COMMENT_FIELDS ++ flat_map snd ALIAS_FIELDS ++ ["ARTIST"; "ALBUMARTIST"; "ALBUM ARTIST"; "ALBUM_ARTIST"]%string.
Definition LYRIC_KEYS : list string := ["SYNCEDLYRICS"; "LYRICS"; "UNSYNCEDLYRICS"]%string.
Definition NUMBER_KEYS : list string := ["TRACKNUMBER"; "TRACK"; "DISCNUMBER"; "DISC"]%string.

Definition front_edits fields : Edits := field_edits fields ++ alias_edits fields ++ credit_edits fields.
Definition keys_in (keys : list string) (es : Edits) : Prop := Forall (fun e => e.1 ∈ keys) es.

Lemma keys_in_given keys {B} (fields : gmap string B) field (f : B -> Edits) :
  (forall v, keys_in keys (f v)) -> keys_in keys (match fields !! field with Some v => f v | None => [] end).
Proof. intros Hf. destruct (fields !! field); [apply Hf|constructor]. Qed.

Lemma keys_in_flat_map {A} keys (f : A -> Edits) table :
  (forall x, x ∈ table -> keys_in keys (f x)) -> keys_in keys (flat_map f table).
Proof.
  intros Hf. induction table as [|x table IH]; [constructor|]. simpl. apply Forall_app. split.
  - apply Hf. by left.
  - apply IH. intros y Hy. apply Hf. by right.
Qed.

Lemma front_keys fields : keys_in FRONT_KEYS (front_edits fields).
Proof.
  unfold front_edits, FRONT_KEYS. apply Forall_app. split; [|apply Forall_app; split].
  - apply keys_in_flat_map. intros [field key] Hin. apply keys_in_given. intros v. unfold keys_in. rewrite Forall_singleton.
    cbn [fst]. apply elem_of_app. left. apply list_elem_of_In, (in_map snd _ (field, key)). by apply list_elem_of_In.
  - apply keys_in_flat_map. intros [field keys] Hin. apply keys_in_given. intros _. apply Forall_map, List.Forall_forall.
    intros key Hkey%list_elem_of_In. cbn [fst]. apply elem_of_app. right. apply elem_of_app. left.
    apply list_elem_of_In, in_flat_map. exists (field, keys). split; by apply list_elem_of_In.
  - apply Forall_app. split; apply keys_in_given; intros v; unfold keys_in; rewrite !Forall_cons; cbn [fst];
      split_conj; (apply Forall_nil_2 || (apply elem_of_app; right; apply elem_of_app; right; set_solver)).
Qed.

Lemma lyric_keys fields : keys_in LYRIC_KEYS (lyric_edits fields).
Proof. apply keys_in_given. intros v. unfold keys_in, LYRIC_KEYS. rewrite !Forall_cons. cbn [fst]. split_conj; set_solver. Qed.

Lemma number_keys fields cs : keys_in NUMBER_KEYS (number_edits fields cs).
Proof.
  unfold number_edits, number_edit, INDEX_FIELDS, NUMBER_KEYS. cbn [flat_map]. rewrite app_nil_r. apply Forall_app.
  split; case_bool_decide; rewrite ?Forall_cons; cbn [fst]; split_conj; set_solver.
Qed.

Lemma keys_plain keys es : forallb plain keys = true -> keys_in keys es -> plain_edits es.
Proof. intros Hk He. rewrite forallb_forall in Hk. eapply Forall_impl; [exact He|]. intros e He'. by apply Hk, list_elem_of_In. Qed.

Lemma keys_apart keys es key : keys_in keys es -> key ∉ keys -> key ∉ map fst es.
Proof. intros He Hk Hin. apply list_elem_of_fmap in Hin as (e & -> & Hin). by apply Hk, (proj1 (Forall_forall _ _) He). Qed.

Lemma edit_numbers_edits fields cs entry : edit_numbers fields cs entry = fold_left replace (number_edit fields cs entry) cs.
Proof.
  destruct entry as [[[field total] key] alias]. unfold edit_numbers, number_edit. case_bool_decide; [|done].
  cbn [fold_left]. by rewrite !set_comment_replace.
Qed.

Lemma number_edit_same fields cs es field total key alias :
  plain_edits es -> key ∉ map fst es -> alias ∉ map fst es ->
  number_edit fields (fold_left replace es cs) (field, total, key, alias) = number_edit fields cs (field, total, key, alias).
Proof. intros Hp Hk Ha. unfold number_edit. by rewrite current_index_same. Qed.

Lemma front_plain fields : plain_edits (front_edits fields).
Proof. eapply keys_plain; [|apply front_keys]. by vm_compute. Qed.
Lemma number_plain fields cs : plain_edits (number_edits fields cs).
Proof. eapply keys_plain; [|apply number_keys]. by vm_compute. Qed.
Lemma lyric_plain fields : plain_edits (lyric_edits fields).
Proof. eapply keys_plain; [|apply lyric_keys]. by vm_compute. Qed.

Lemma tag_edits_front fields cs : tag_edits fields cs = front_edits fields ++ number_edits fields cs ++ lyric_edits fields.
Proof. unfold tag_edits, front_edits. by rewrite <- !app_assoc. Qed.

Lemma tag_plain fields cs : plain_edits (tag_edits fields cs).
Proof.
  rewrite tag_edits_front. apply Forall_app. split; [apply front_plain|]. apply Forall_app.
  split; [apply number_plain|apply lyric_plain].
Qed.

Lemma number_not_front fields key : key ∈ NUMBER_KEYS -> key ∉ map fst (front_edits fields).
Proof.
  intros Hk. apply (keys_apart FRONT_KEYS); [apply front_keys|].
  assert (forallb (fun key => negb (bool_decide (key ∈ FRONT_KEYS))) NUMBER_KEYS = true) as Hall by (by vm_compute).
  rewrite forallb_forall in Hall. apply list_elem_of_In in Hk. specialize (Hall _ Hk). by case_bool_decide.
Qed.

Lemma edit_comments_apply fields cs : edit_comments cs fields = apply_edits (tag_edits fields cs) cs.
Proof.
  rewrite <- replace_all by apply tag_plain. rewrite tag_edits_front, !fold_left_app.
  unfold edit_comments. rewrite edit_lyrics_edits, edit_credit_edits. unfold COMMENT_FIELDS at 1.
  rewrite edit_field_edits, clear_alias_edits, <- !fold_left_app. fold COMMENT_FIELDS.
  change (flat_map _ COMMENT_FIELDS) with (field_edits fields). change (flat_map _ ALIAS_FIELDS) with (alias_edits fields).
  fold (front_edits fields). rewrite !fold_left_app. set (cs1 := fold_left replace (front_edits fields) cs). f_equal.
  unfold number_edits, INDEX_FIELDS. cbn [flat_map fold_left]. rewrite app_nil_r, fold_left_app, !edit_numbers_edits.
  unfold cs1 at 3. rewrite (number_edit_same fields cs (front_edits fields)) by
    (first [apply front_plain|apply number_not_front; set_solver]). f_equal.
  unfold cs1. rewrite <- fold_left_app. apply number_edit_same.
  - apply Forall_app. split; [apply front_plain|]. eapply (keys_plain ["TRACKNUMBER"; "TRACK"]%string); [by vm_compute|].
    unfold number_edit. case_bool_decide; unfold keys_in; rewrite ?Forall_cons; cbn [fst]; split_conj; set_solver.
  - rewrite map_app, elem_of_app. intros [Hin|Hin]; [by eapply number_not_front in Hin; [|set_solver]|].
    unfold number_edit in Hin. case_bool_decide; set_solver.
  - rewrite map_app, elem_of_app. intros [Hin|Hin]; [by eapply number_not_front in Hin; [|set_solver]|].
    unfold number_edit in Hin. case_bool_decide; set_solver.
  - f_equal. apply number_edit_same; [apply front_plain|apply number_not_front; set_solver..].
Qed.
End edits.

(** ** Reading a number back *)

Lemma number_digits_of l acc :
  0 <= acc -> Forall is_digit l -> digits_of acc l <= i64_max -> number_digits false acc l = Some (digits_of acc l).
Proof.
  intros Ha Hl. revert acc Ha. induction Hl as [|a l [d Hd] Hl IH]; intros acc Ha Hmax; [done|]. cbn [number_digits]. rewrite Hd.
  assert (0 <= d) by (unfold digit_value in Hd; case_match; [|done]; injection Hd as <-; lia).
  cbn in Hmax. rewrite Hd in Hmax. cbn [default from_option id] in Hmax. fold (digits_of (10 * acc + d) l) in Hmax.
  pose proof (digits_of_ge l (10 * acc + d) ltac:(lia) Hl).
  destruct (Z.ltb_spec (10 * acc + d) i64_min); [unfold i64_min in *; lia|].
  destruct (Z.ltb_spec i64_max (10 * acc + d)); [lia|]. rewrite IH by lia. cbn. by rewrite Hd.
Qed.

Lemma number_decimal n : 0 < n <= i64_max -> number (decimal n) = n.
Proof.
  intros Hn. destruct (decimal_digits n) as (l & Hl & Hne & Hd & Hv); [lia|]. unfold number.
  rewrite <- (unchars_chars (decimal n)), Hl, (trim_digits l l) by auto. rewrite chars_unchars.
  destruct l as [|a l1] eqn:El; [done|]. rewrite <- El in *.
  assert (Ascii.eqb a (ascii_of_nat 45) = false /\ Ascii.eqb a (ascii_of_nat 43) = false) as [-> ->].
  { rewrite El, Forall_cons in Hd. destruct Hd as [[d Hd] _].
    split; apply Ascii.eqb_neq; intros ->; by vm_compute in Hd. }
  rewrite number_digits_of by (try lia; done). rewrite Hv. by rewrite El.
Qed.

Lemma find_slash l m : Forall is_digit l -> find_list [SLASH] (l ++ SLASH :: m) = Some (length l).
Proof.
  induction 1 as [|a l [d Hd] _ IH]; [done|]. cbn [app find_list length strip_list].
  destruct (Ascii.eqb_spec SLASH a) as [<-|]; [by vm_compute in Hd|]. by rewrite IH.
Qed.
Lemma no_slash l : Forall is_digit l -> find_list [SLASH] l = None.
Proof.
  induction 1 as [|a l [d Hd] _ IH]; [done|]. cbn [find_list strip_list].
  destruct (Ascii.eqb_spec SLASH a) as [<-|]; [by vm_compute in Hd|]. by rewrite IH.
Qed.

(** The numbers of an index that was written are read back. *)
Definition index_text (n t : Z) : string :=
  if n <=? 0 then ""%string else if 0 <? t then (signed_decimal n ++ "/" ++ signed_decimal t)%string else signed_decimal n.

Lemma signed_decimal_pos n : 0 < n -> signed_decimal n = decimal n.
Proof. intros Hn. unfold signed_decimal. by destruct (Z.ltb_spec n 0); [lia|]. Qed.

Lemma pair_index n t : n <= i64_max -> t <= i64_max ->
  pair (index_text n t) = (Z.max 0 n, if n <=? 0 then 0 else Z.max 0 t).
Proof.
  intros Hn Ht. unfold index_text. destruct (Z.leb_spec n 0) as [Hn0|Hn0]; [by rewrite Z.max_l by lia|].
  destruct (decimal_digits n Hn0) as (l & Hl & Hne & Hd & Hv). pose proof (number_decimal n ltac:(lia)) as Hnum.
  rewrite (Z.max_r 0 n) by lia. rewrite <- (unchars_chars (decimal n)), Hl in Hnum.
  destruct (Z.ltb_spec 0 t) as [Ht0|Ht0].
  - destruct (decimal_digits t Ht0) as (m & Hm & Hne' & Hd' & Hv'). pose proof (number_decimal t ltac:(lia)) as Hnum'.
    rewrite (Z.max_r 0 t) by lia. rewrite <- (unchars_chars (decimal t)), Hm in Hnum'.
    rewrite !signed_decimal_pos by done. set (s := (_ ++ _)%string).
    assert (chars s = l ++ SLASH :: m) as Hs by (unfold s; rewrite !chars_app, Hl, Hm; done).
    unfold pair. rewrite <- (unchars_chars s), Hs, (trim_digits l m) by (auto; right; by exists [SLASH]).
    assert (drop (S (length l)) (l ++ SLASH :: m) = m) as Hdrop
      by (rewrite cons_middle, app_assoc; apply drop_app_length'; rewrite length_app; simpl; lia).
    rewrite chars_unchars, find_slash by done. destruct (length l) as [|k] eqn:Ek; [by destruct l|]. rewrite <- Ek in *.
    by rewrite take_app_length, Hdrop, Hnum, Hnum'.
  - rewrite signed_decimal_pos, (Z.max_l 0 t) by lia. unfold pair. rewrite <- (unchars_chars (decimal n)), Hl.
    rewrite (trim_digits l l) by auto. by rewrite chars_unchars, no_slash, Hnum.
Qed.

Lemma index_ascii n t : Forall ascii_byte (str_bytes (index_text n t)).
Proof.
  assert (forall n, 0 < n -> Forall ascii_byte (str_bytes (signed_decimal n))) as Hdec.
  { clear. intros n Hn. rewrite signed_decimal_pos by done. destruct (decimal_digits n Hn) as (l & Hl & _ & Hd & _).
    unfold str_bytes. rewrite Hl. apply Forall_map. eapply Forall_impl; [exact Hd|]. intros a [d Ha].
    unfold digit_value in Ha. case_match eqn:E; [|done]. unfold ascii_byte. lia. }
  assert (forall s u, str_bytes (s ++ u) = str_bytes s ++ str_bytes u) as Happ
    by (intros s u; unfold str_bytes; by rewrite chars_app, map_app).
  unfold index_text. destruct (Z.leb_spec n 0); [constructor|]. destruct (Z.ltb_spec 0 t); [|by apply Hdec].
  rewrite !Happ, !Forall_app. split_conj; [by apply Hdec| |by apply Hdec].
  change (Forall ascii_byte [47]). repeat constructor; done.
Qed.

(** ** The editor changes what it was asked to, once *)

Section editor.
Context `{Unicode} `{Splits}.
Implicit Types (cs : list bytes) (fields : Fields).

Lemma number_range v : i64_min <= number v <= i64_max.
Proof.
  assert (forall neg l acc z, i64_min <= acc <= i64_max -> number_digits neg acc l = Some z -> i64_min <= z <= i64_max) as Hd.
  { intros neg l. induction l as [|a l IH]; intros acc z Ha; cbn [number_digits]; [congruence|].
    destruct (digit_value a) as [d|]; [|done]. destruct (Z.ltb_spec (if neg then 10 * acc - d else 10 * acc + d) i64_min);
      [intros [= <-]; by vm_compute|]. destruct (Z.ltb_spec i64_max (if neg then 10 * acc - d else 10 * acc + d));
      [intros [= <-]; by vm_compute|]. apply IH. lia. }
  assert (forall neg l, i64_min <= default 0 (number_digits neg 0 l) <= i64_max) as Hdef.
  { intros neg l. destruct (number_digits neg 0 l) eqn:E; [|by vm_compute]. eapply Hd; [|exact E]. by vm_compute. }
  unfold number. destruct (match chars (trim v) with [] => _ | _ => _ end) as [neg [|a l]]; [by vm_compute|apply Hdef].
Qed.

Lemma pair_range v : (pair v).1 <= i64_max /\ (pair v).2 <= i64_max.
Proof.
  unfold pair. destruct (find_list _ _) as [[|k]|]; cbn [fst snd];
    repeat match goal with |- context [number ?x] => pose proof (number_range x); generalize dependent (number x); intros end;
    unfold i64_max in *; lia.
Qed.

Lemma field_number_range v : field_number v <= i64_max.
Proof.
  unfold field_number, parse_i64, parse_int. destruct (match chars (trim v) with [] => _ | _ => _ end) as [neg [|a l]];
    [by vm_compute|]. destruct (parse_nat 0 (a :: l)) as [n|]; [|by vm_compute].
  destruct ((i64_min <=? _) && _) eqn:E; [|by vm_compute]. cbn. lia.
Qed.

Lemma edit_index_text current fields key total_key :
  edit_index current fields key total_key =
  index_text (match fields !! key with Some v => field_number v | None => current.1 end)
    (match fields !! total_key with Some v => field_number v | None => current.2 end).
Proof. done. Qed.

Lemma get_comment_one cs key value :
  Forall ascii_byte (str_bytes value) -> List.filter (has_key key) cs = map (comment key) (one value) ->
  get_comment cs key = value.
Proof.
  intros Ha E. unfold get_comment. rewrite find_filter, E. unfold one. destruct (is_empty value) eqn:Ev; simpl.
  - symmetry. by apply is_empty_spec.
  - unfold comment. rewrite cons_middle, app_assoc.
    rewrite drop_app_length' by (unfold str_bytes; rewrite length_app, length_map; simpl; lia).
    unfold from_utf8_lossy. rewrite lossy_ascii by done. apply bytes_to_str_bytes.
Qed.

(** Once written, an index is what the same fields write again. *)
Lemma index_again cs cs' fields field total key alias :
  let v := edit_index (current_index cs key alias) fields field total in
  List.filter (has_key key) cs' = map (comment key) (one v) -> List.filter (has_key alias) cs' = [] ->
  edit_index (current_index cs' key alias) fields field total = v.
Proof.
  cbv zeta. intros Hk Ha. rewrite !edit_index_text in *. destruct (current_index cs key alias) as [n0 t0] eqn:Ec.
  set (n := match fields !! field with Some v => field_number v | None => (n0, t0).1 end) in *.
  set (t := match fields !! total with Some v => field_number v | None => (n0, t0).2 end) in *.
  assert (n0 <= i64_max /\ t0 <= i64_max) as [Hn0 Ht0].
  { unfold current_index in Ec. pose proof (pair_range (get_comment cs key)). pose proof (pair_range (get_comment cs alias)).
    case_bool_decide; rewrite Ec in *; done. }
  assert (n <= i64_max /\ t <= i64_max) as [Hn Ht].
  { unfold n, t. split; case_match; (apply field_number_range || done). }
  assert (current_index cs' key alias = (Z.max 0 n, if n <=? 0 then 0 else Z.max 0 t)) as ->.
  { unfold current_index. rewrite (get_comment_one _ _ _ (index_ascii n t) Hk), pair_index by done.
    case_bool_decide as E0; [|done]. rewrite (get_comment_one cs' alias ""); [|constructor|done].
    rewrite E0. by vm_compute. }
  unfold n, t. destruct (fields !! field), (fields !! total); cbn [fst snd]; unfold index_text;
    repeat case_bool; try done; try lia; repeat f_equal; lia.
Qed.

Lemma last_values_app es es' key :
  last_values (es ++ es') key = match last_values es' key with Some vs => Some vs | None => last_values es key end.
Proof. induction es as [|[k vs] es IH]; simpl; [by destruct (last_values es' key)|]. rewrite IH. by destruct (last_values es' key). Qed.

Lemma last_values_apart keys es key : keys_in keys es -> key ∉ keys -> last_values es key = None.
Proof. intros He Hk. apply last_values_none. by eapply keys_apart. Qed.

Lemma last_values_number fields cs key :
  key ∈ NUMBER_KEYS -> last_values (tag_edits fields cs) key = last_values (number_edits fields cs) key.
Proof.
  intros Hk. rewrite tag_edits_front, !last_values_app. rewrite (proj2 (last_values_none _ _) (number_not_front _ _ Hk)).
  rewrite (last_values_apart LYRIC_KEYS); [by destruct (last_values _ key)|apply lyric_keys|].
  unfold NUMBER_KEYS, LYRIC_KEYS in *. set_solver.
Qed.

Lemma filter_number fields cs key vs :
  key ∈ NUMBER_KEYS -> last_values (number_edits fields cs) key = Some vs ->
  List.filter (has_key key) (edit_comments cs fields) = map (comment key) vs.
Proof.
  intros Hk Hl. rewrite edit_comments_apply, comments_with_key by apply tag_plain. by rewrite last_values_number, Hl.
Qed.

Lemma number_edit_again fields cs field total key alias :
  key ∈ NUMBER_KEYS -> alias ∈ NUMBER_KEYS ->
  (is_Some (fields !! field) \/ is_Some (fields !! total) ->
   last_values (number_edits fields cs) key = Some (one (edit_index (current_index cs key alias) fields field total)) /\
   last_values (number_edits fields cs) alias = Some []) ->
  number_edit fields (edit_comments cs fields) (field, total, key, alias) = number_edit fields cs (field, total, key, alias).
Proof.
  intros Hk Ha Hl. unfold number_edit. case_bool_decide as E; [|done]. destruct (Hl E) as [Hlk Hla].
  do 3 f_equal. apply index_again; [by apply filter_number|]. by rewrite (filter_number _ _ _ _ Ha Hla).
Qed.

Lemma number_edits_again fields cs : number_edits fields (edit_comments cs fields) = number_edits fields cs.
Proof.
  assert (forall e, e ∈ INDEX_FIELDS -> number_edit fields (edit_comments cs fields) e = number_edit fields cs e) as Hall.
  { intros e He. unfold INDEX_FIELDS in He. rewrite !elem_of_cons, elem_of_nil in He.
    destruct He as [->|[->|[]]]; (apply number_edit_again; [unfold NUMBER_KEYS; set_solver..|]); intros E;
      unfold number_edits, INDEX_FIELDS; cbn [flat_map]; rewrite app_nil_r, !last_values_app; unfold number_edit;
      rewrite (bool_decide_eq_true_2 _ E); by case_bool_decide. }
  unfold number_edits, INDEX_FIELDS in *. cbn [flat_map]. rewrite !Hall by set_solver. done.
Qed.

Lemma edit_comments_once fields cs : edit_comments (edit_comments cs fields) fields = edit_comments cs fields.
Proof.
  rewrite (edit_comments_apply fields (edit_comments cs fields)).
  assert (tag_edits fields (edit_comments cs fields) = tag_edits fields cs) as ->.
  { rewrite !tag_edits_front. by rewrite number_edits_again. }
  rewrite edit_comments_apply. apply apply_edits_again, tag_plain.
Qed.

(** The editor changes exactly what it was asked to.  The comments whose keys no given field names
    stay as they are, in their order; a key that a field names has afterwards exactly the comments
    its last edit gives it, and every other key those it had; editing again changes nothing. *)
Theorem edit_comments_exact fields cs :
  let es := tag_edits fields cs in
  List.filter (fun c => negb (edited es c)) (edit_comments cs fields) = List.filter (fun c => negb (edited es c)) cs /\
  (forall key, List.filter (has_key key) (edit_comments cs fields) =
     match last_values es key with Some vs => map (comment key) vs | None => List.filter (has_key key) cs end) /\
  edit_comments (edit_comments cs fields) fields = edit_comments cs fields.
Proof.
  cbv zeta. rewrite edit_comments_once. split_conj; [| |done].
  - rewrite edit_comments_apply. unfold apply_edits. rewrite List.filter_app, filter_filter, (filter_none _ (new_comments _)).
    + rewrite app_nil_r. apply List.filter_ext. intros c. apply andb_diag.
    + eapply Forall_impl; [apply new_comments_edited, tag_plain|]. intros c Hc. cbv beta in *. by rewrite Hc.
  - intros key. rewrite edit_comments_apply. apply comments_with_key, tag_plain.
Qed.
End editor.
