(* ===== verification/FlacTags.v ===== *)
(** * Editing the metadata of a FLAC file: [crates/core/src/tags/write.rs] and [tags/containers.rs]

    A FLAC file, behind an ID3 tag or not, begins with metadata blocks, each a kind, a 24-bit length
    and its data; the audio follows the last.  An edit replaces the comment block, and the pictures if
    there is a new cover.  The image codec is the class [Images]. *)

From S2P Require Import Prelude Monads RustText UnicodeText Matching TagIo VorbisComments.

(** The [image] crate: the formats it guesses, decodes and encodes, and the JPEG of a scaled image. *)
Class Images := {
  Image : Type;
  guess_error : bytes -> option string;
  decode_image : bytes -> option Image;
  encode_jpeg : Z -> Image -> option bytes;
  resized_jpeg : Z -> Image -> option bytes;
  dimensions : bytes -> option (Z * Z) }.

Abbreviation Block := (Z * bytes)%type.

(** ** ID3v2 headers: [tags/id3.rs] *)

Definition byte_at (l : bytes) (i : nat) : Z := nth i l 0.

Definition syncsafe (l : bytes) : Z :=
  Z.lor (Z.lor (Z.lor (Z.shiftl (byte_at l 0) 21) (Z.shiftl (byte_at l 1) 14)) (Z.shiftl (byte_at l 2) 7)) (byte_at l 3).

Definition v2_tag_length (header : bytes) : option Z :=
  if (len header <? 10) || negb (bool_decide (take 3 header = str_bytes "ID3"))
     || existsb (fun b => 128 <=? b) (take 4 (drop 6 header))
  then None
  else Some (10 + syncsafe (take 4 (drop 6 header)) + if Z.land (byte_at header 5) 16 =? 0 then 0 else 10).

(** ** Comment blocks *)

Definition put_string (data : bytes) : bytes := le_bytes 4 (len data) ++ data.

(** A length and as many bytes. *)
Definition take_string (l : bytes) : result (bytes * bytes) string :=
  if len l <? 4 then Err (match l with [] => "EOF" | _ => "unexpected EOF" end)%string
  else
    let n := from_le (take 4 l) in
    let rest := drop 4 l in
    if len rest <? n then Err "truncated Vorbis comment"%string
    else Ok (take (Z.to_nat n) rest, drop (Z.to_nat n) rest).

(** The strings that [count] announces; each takes four bytes or more. *)
Fixpoint take_strings (fuel : nat) (count : Z) (l : bytes) : result (list bytes) string :=
  if count =? 0 then Ok []
  else
    match fuel with
    | O => Err "EOF"%string
    | S fuel =>
      let? (s, l) := take_string l in
      let? ss := take_strings fuel (count - 1) l in
      Ok (s :: ss)
    end.

Definition parse_comments (data : bytes) : result (bytes * list bytes) string :=
  let? (vendor, l) := take_string data in
  if len l <? 4 then Err (match l with [] => "EOF" | _ => "unexpected EOF" end)%string
  else
    let? comments := take_strings (length data) (from_le (take 4 l)) (drop 4 l) in
    Ok (vendor, comments).

Definition put_comments (vendor : bytes) (comments : list bytes) : bytes :=
  put_string vendor ++ le_bytes 4 (len comments) ++ flat_map put_string comments.

Section flac.
Context `{Source} `{Unicode} `{Splits} `{Images}.

Abbreviation P := (St Io string).

(** ** Pictures *)

Definition FLAC : bytes := str_bytes "fLaC".
Definition PNG_MAGIC : bytes := [137; 80; 78; 71; 13; 10; 26; 10].

Definition begins (p l : bytes) : bool := bool_decide (take (length p) l = p).

Definition cover_mime (data : bytes) : string :=
  if begins PNG_MAGIC data then "image/png"
  else if begins [255; 216; 255] data then "image/jpeg"
  else if begins (str_bytes "GIF87a") data || begins (str_bytes "GIF89a") data then "image/gif"
  else if (12 <=? len data) && begins (str_bytes "RIFF") data && begins (str_bytes "WEBP") (drop 8 data) then "image/webp"
  else "image/jpeg".

(** The first of the encodings that is small enough. *)
Fixpoint first_small (l : list Z) (encode : Z -> option bytes) : P (option bytes) :=
  match l with
  | [] => ret None
  | x :: l =>
    check;;
    match encode x with
    | Some data => if len data <=? 16000000 then ret (Some data) else first_small l encode
    | None => first_small l encode
    end
  end.

Definition guess (data : bytes) : P unit := match guess_error data with Some e => throw e | None => ret tt end.

(** The data a picture block holds: the cover, or a smaller JPEG of a large one, if it can be had. *)
Definition picture_data (original : bytes) : P (option bytes) :=
  if 16000000 <? len original then
    guess original;;
    match decode_image original with
    | None => ret None
    | Some image =>
      do r <- first_small [90; 80; 70; 60] (fun quality => encode_jpeg quality image);
      match r with
      | Some data => ret (Some data)
      | None => first_small [1500; 1200; 1000; 800] (fun dimension => resized_jpeg dimension image)
      end
    end
  else ret (Some original).

Definition picture_block (data : bytes) : bytes :=
  let mime := cover_mime data in
  let '(width, height, depth) :=
    match dimensions data with
    | None => (0, 0, 0)
    | Some (w, h) => (w, h, if String.eqb mime "image/png" then 32 else if String.eqb mime "image/jpeg" then 24 else 0)
    end in
  be_bytes 4 3 ++
  flat_map (fun value => be_bytes 4 (len value) ++ value) [str_bytes mime; str_bytes "Front Cover"] ++
  flat_map (be_bytes 4) [width; height; depth; 0; len data] ++ data.

Definition picture (original : bytes) : P (option bytes) :=
  do data <- picture_data original;
  match data with
  | None => ret None
  | Some data => check;; guess data;; ret (Some (picture_block data))
  end.

(** ** The header *)

Definition flac_start : P Z :=
  do signature <- bytes_of 4;
  do found <- (if bool_decide (take 3 signature = str_bytes "ID3") then
                 do rest <- bytes_of 6;
                 match v2_tag_length (signature ++ rest) with
                 | None => throw "invalid ID3v2 header before fLaC"%string
                 | Some start => seek start;; do signature <- bytes_of 4; ret (start, signature)
                 end
               else ret (0, signature));
  if bool_decide (found.2 = FLAC) then ret found.1 else throw "fLaC head incorrect"%string.

Definition MAX_BLOCKS : nat := Z.to_nat 65536.

Fixpoint read_blocks (fuel : nat) (total : Z) (drop_pictures : bool) (blocks : list Block) : P (list Block) :=
  check;;
  match fuel with
  | O => throw "FLAC metadata block count exceeds 65536"%string
  | S fuel =>
    do h <- bytes_of 4;
    let length := from_be (drop 1 h) in
    let total := total + (length + 4) in
    if MAX_TAG_BYTES <? total then throw "FLAC metadata exceeds 64 MiB"%string
    else
      let kind := Z.land (byte_at h 0) 127 in
      do data <- (if (kind =? 6) && drop_pictures then (discard_bytes length;; ret []) else bytes_of length);
      let blocks := blocks ++ [(kind, data)] in
      if Z.land (byte_at h 0) 128 =? 0 then read_blocks fuel total drop_pictures blocks else ret blocks
  end.

Definition ends_with (s suffix : string) : bool :=
  bool_decide (is_Some (strip_list (rev (chars suffix)) (rev (chars s)))).

(** One field of the enrichment: its values replace those of its key. *)
Definition embed_field (mode : string) (fields : Fields) (comments : list bytes) (entry : string * string) : list bytes :=
  let '(key, value) := entry in
  if is_empty value || ends_with key "_separator" then comments
  else
    let separator := tag_separator fields key in
    if String.eqb key "ARTIST" || String.eqb key "ALBUMARTIST" then
      let values :=
        if eq_ignore_ascii_case (trim mode) "split_vorbis" && is_empty separator then split_artists value
        else if primary_artist_mode mode then [primary_artist value]
        else [format_metadata_tag_value value separator] in
      match values with
      | [] => comments
      | _ => set_comment comments key "" ++ map (comment key) (List.filter (fun v => negb (blank v)) values)
      end
    else set_comment comments key (format_metadata_tag_value value separator).

Definition change_comments (embed_mode : option string) (fields : Fields) (comments : list bytes) : list bytes :=
  match embed_mode with
  | Some mode => fold_left (embed_field mode fields) (btree_iter fields) comments
  | None => edit_comments comments fields
  end.

Definition is_kind (kind : Z) (b : Block) : bool := b.1 =? kind.

(** The first comment block gets new data; without one there is a new block at the end. *)
Fixpoint set_first (data : bytes) (blocks : list Block) : list Block :=
  match blocks with
  | [] => [(4, data)]
  | b :: blocks => if is_kind 4 b then (4, data) :: blocks else b :: set_first data blocks
  end.

Definition VENDOR : bytes := str_bytes "Mornye".

Definition change_blocks (embed_mode : option string) (fields : Fields) (blocks : list Block)
  : result (list Block) string :=
  let? (vendor, comments) := match List.find (is_kind 4) blocks with
                             | Some b => parse_comments b.2
                             | None => Ok (VENDOR, [])
                             end in
  Ok (set_first (put_comments vendor (change_comments embed_mode fields comments)) blocks).

Definition change_pictures (picture : option bytes) (blocks : list Block) : list Block :=
  List.filter (fun b => negb (is_kind 6 b)) blocks ++ match picture with Some data => [(6, data)] | None => [] end.

(** The blocks behind [head]; the last one is marked. *)
Fixpoint put_blocks (head : bytes) (blocks : list Block) : result bytes string :=
  match blocks with
  | [] => Ok head
  | (kind, data) :: blocks =>
    if MAX_TAG_BYTES <? len head + len data + 4 then Err "FLAC metadata exceeds 64 MiB"%string
    else if 16777215 <? len data then Err "FLAC metadata block exceeds 24-bit size"%string
    else put_blocks (head ++ [Z.lor kind (match blocks with [] => 128 | _ => 0 end)] ++ drop 1 (be_bytes 4 (len data)) ++ data)
           blocks
  end.

Definition lift {A} (r : result A string) : P A := match r with Ok a => ret a | Err e => throw e end.

Definition synced (sync : bytes) : bool := (byte_at sync 0 =? 255) && (Z.shiftr (byte_at sync 1) 2 =? 62).

Definition flac_header (fields : Fields) (cover : option bytes) (embed_mode : option string) : P FileSection :=
  do start <- flac_start;
  do blocks <- read_blocks MAX_BLOCKS 0 (bool_decide (is_Some cover)) [];
  do p <- gets position;
  do audio_start <- seek p;
  do sync <- bytes_of 2;
  if negb (synced sync) then throw "frames do not begin with sync code"%string
  else
    do blocks <- lift (change_blocks embed_mode fields blocks);
    do blocks <- match cover with
                 | None => ret blocks
                 | Some cover => do p <- picture cover; ret (change_pictures p blocks)
                 end;
    do head <- lift (put_blocks FLAC blocks);
    ret (mkSection start audio_start head).

(** ** The entry points *)

Definition validate_fields (fields : Fields) : P unit :=
  if MAX_TAG_BYTES <? foldr (fun e n => len (chars e.1) + len (chars e.2) + n) 0 (btree_iter fields)
  then throw "tag edit fields exceed 64 MiB"%string else ret tt.

Definition not_empty (cover : option bytes) : option bytes :=
  match cover with Some [] => None | _ => cover end.

(** The branch of [rewrite_audio_tags] for FLAC files. *)
Definition rewrite_audio_tags (fields : Fields) (cover : option bytes) : P unit :=
  check;;
  validate_fields fields;;
  let fields := artist_mode_fields fields in
  seek 0;;
  do section <- flac_header fields (not_empty cover) None;
  write_sections [section].

(** The header is compared with the source by chunks. *)
Fixpoint same_as_source (fuel : nat) (expected : bytes) : P bool :=
  match fuel with
  | O => ret true
  | S fuel =>
    match expected with
    | [] => ret true
    | _ =>
      do b <- bytes_of (len (take CHUNK expected));
      if bool_decide (b = take CHUNK expected) then same_as_source fuel (drop CHUNK expected) else ret false
    end
  end.

Definition rewrite_flac_tags_if_changed (fields : Fields) (cover : option bytes) : P bool :=
  check;;
  validate_fields fields;;
  let fields := artist_mode_fields fields in
  seek 0;;
  do section <- flac_header fields (not_empty cover) None;
  do unchanged <- (if len (data section) =? finish section - start section then
                     seek (start section);;
                     do same <- same_as_source (length (data section)) (data section);
                     check;;
                     ret same
                   else ret false);
  if unchanged : bool then ret false else (write_sections [section];; ret true).

Definition embed_flac_metadata (fields : Fields) (artist_tag_mode : string) (cover : option bytes) : P unit :=
  check;;
  validate_fields fields;;
  seek 0;;
  do section <- flac_header fields (not_empty cover) (Some artist_tag_mode);
  write_sections [section].
End flac.
