(* ===== verification/FlacHeader.v ===== *)
(** * What the header of a FLAC file is: a specification of [flac_header]

    [parse_blocks] and [encode_blocks] are the block format as functions of bytes; [flac_edit] says which
    section an edit replaces and by what.  [wp_flac_header] relates the reader of FlacTags to it. *)

From S2P Require Import Prelude Monads RustText UnicodeText Matching TagIo VorbisComments FlacTags.


(** ** The header as a function of the bytes *)

(** Blocks, the last of them marked. *)
Fixpoint encode_blocks (blocks : list Block) : bytes :=
  match blocks with
  | [] => []
  | (kind, data) :: blocks =>
    Z.lor kind (match blocks with [] => 128 | _ => 0 end) :: be_bytes 3 (len data) ++ data ++ encode_blocks blocks
  end.

Fixpoint parse_blocks (fuel : nat) (total : Z) (l : bytes) : option (list Block * bytes) :=
  match fuel with
  | O => None
  | S fuel =>
    if len l <? 4 then None
    else
      let n := from_be (drop 1 (take 4 l)) in
      let total := total + (n + 4) in
      if (MAX_TAG_BYTES <? total) || (len (drop 4 l) <? n) then None
      else
        let b := (Z.land (byte_at l 0) 127, take (Z.to_nat n) (drop 4 l)) in
        let l' := drop (Z.to_nat n) (drop 4 l) in
        if Z.land (byte_at l 0) 128 =? 0 then
          match parse_blocks fuel total l' with Some (bs, rest) => Some (b :: bs, rest) | None => None end
        else Some ([b], l')
  end.

Definition wf_block (b : Block) : Prop := 0 <= b.1 < 128 /\ len b.2 < 2 ^ 24.

Lemma from_be_bound l : Forall byte_ok l -> 0 <= from_be l < 256 ^ len l.
Proof. intros Hl. unfold from_be. pose proof (from_le_bound (rev l)) as Hb. unfold len in *. rewrite length_rev in Hb. apply Hb. by apply Forall_rev. Qed.

Lemma be_bytes_from_be l : Forall byte_ok l -> be_bytes (length l) (from_be l) = l.
Proof.
  intros Hl. unfold be_bytes, from_be. rewrite <- (length_rev l). rewrite le_bytes_from_le by (by apply Forall_rev).
  apply rev_involutive.
Qed.

Lemma marked_byte h : byte_ok h ->
  h = Z.lor (Z.land h 127) (Z.land h 128) /\ 0 <= Z.land h 127 < 128 /\ (Z.land h 128 = 0 \/ Z.land h 128 = 128).
Proof.
  intros Hh. split; [|split].
  - rewrite <- Z.land_lor_distr_r. change (Z.lor 127 128) with (2 ^ 8 - 1). rewrite land_ones_mod by lia.
    rewrite Z.mod_small; [done|exact Hh].
  - change 127 with (2 ^ 7 - 1). rewrite land_ones_mod by lia. apply Z.mod_pos_bound. lia.
  - assert (forallb (fun h => (Z.land h 128 =? 0) || (Z.land h 128 =? 128)) (seqZ 0 256) = true) as Hall by (by vm_compute).
    rewrite forallb_forall in Hall. specialize (Hall h). rewrite <- list_elem_of_In, elem_of_seqZ in Hall.
    specialize (Hall ltac:(unfold byte_ok in Hh; lia)). lia.
Qed.

(** What was parsed is what was there. *)
Lemma parse_blocks_sound fuel total l bs rest :
  Forall byte_ok l -> parse_blocks fuel total l = Some (bs, rest) ->
  l = encode_blocks bs ++ rest /\ bs <> [] /\ Forall wf_block bs.
Proof.
  revert total l bs. induction fuel as [|fuel IH]; intros total l bs Hl; cbn [parse_blocks]; [done|].
  destruct (Z.ltb_spec (len l) 4) as [|H4]; [done|].
  destruct l as [|h [|a [|b [|c l]]]]; try (unfold len in H4; simpl in H4; lia).
  pose proof Hl as Hbytes. rewrite !Forall_cons in Hbytes. destruct Hbytes as (Hh & Ha & Hb & Hc & Hrest).
  change (drop 1 (take 4 (h :: a :: b :: c :: l))) with [a; b; c]. change (drop 4 (h :: a :: b :: c :: l)) with l.
  change (byte_at (h :: a :: b :: c :: l) 0) with h. set (n := from_be [a; b; c]).
  assert (Forall byte_ok [a; b; c]) as H3 by auto.
  pose proof (from_be_bound _ H3) as Hn. pose proof (be_bytes_from_be _ H3) as Hbe. fold n in Hn, Hbe.
  destruct (_ || _) eqn:E; [done|]. apply orb_false_iff in E as [_ E%Z.ltb_ge].
  destruct (marked_byte h Hh) as (Hor & Hkind & Hflag).
  assert (len (take (Z.to_nat n) l) = n) as Hlen by (unfold len in *; rewrite length_take; lia).
  assert (wf_block (Z.land h 127, take (Z.to_nat n) l)) as Hwf.
  { unfold wf_block. split_conj; cbn [fst snd]; [lia|lia|rewrite Hlen; apply Hn]. }
  assert (forall x, h :: a :: b :: c :: l = (h :: be_bytes 3 (len (take (Z.to_nat n) l)) ++ take (Z.to_nat n) l ++ x) ++ rest <->
    drop (Z.to_nat n) l = x ++ rest) as Hsplit.
  { intros x. rewrite Hlen. change 3%nat with (length [a; b; c]). rewrite Hbe. cbn [app]. rewrite <- app_assoc.
    rewrite <- (take_drop (Z.to_nat n) l) at 1. split; [intros [= E'%app_inv_head]|intros ->]; done. }
  destruct (Z.eqb_spec (Z.land h 128) 0) as [H0|H0].
  - destruct (parse_blocks fuel _ _) as [[bs' rest']|] eqn:Ep; [|done]. intros [= <- <-].
    assert (Forall byte_ok (drop (Z.to_nat n) l)) as Hdrop by (by apply Forall_drop).
    destruct (IH _ _ _ Hdrop Ep) as (Hrest' & Hne & Hwfs). split_conj; [|done|by constructor].
    cbn [encode_blocks]. destruct bs' as [|b' bs']; [done|]. rewrite <- H0, <- Hor. by apply Hsplit.
  - intros [= <- Hx]. destruct Hflag as [|Hflag]; [done|]. split_conj; [|done|by constructor]. cbn [encode_blocks].
    rewrite <- Hflag, <- Hor. apply Hsplit. by rewrite Hx.
Qed.

(** Blocks within the limits are parsed back. *)
Definition blocks_size (bs : list Block) : Z := foldr (fun b n => len b.2 + 4 + n) 0 bs.

Lemma blocks_size_nonneg bs : 0 <= blocks_size bs.
Proof. induction bs as [|b bs IH]; simpl; [done|]. pose proof (len_nonneg b.2). lia. Qed.

Lemma parse_encode_blocks fuel total bs rest :
  bs <> [] -> Forall wf_block bs -> (length bs <= fuel)%nat -> total + blocks_size bs <= MAX_TAG_BYTES ->
  parse_blocks fuel total (encode_blocks bs ++ rest) = Some (bs, rest).
Proof.
  revert total bs. induction fuel as [|fuel IH]; intros total bs Hne Hwf Hfuel Htotal;
    (destruct bs as [|[kind data] bs]; [done|]; try (simpl in Hfuel; lia)).
  rewrite Forall_cons in Hwf. destruct Hwf as [(Hk & Hlen) Hwf]. cbn [fst snd] in *.
  cbn [parse_blocks encode_blocks]. set (mark := match bs with [] => 128 | _ => 0 end).
  destruct (be_bytes 3 (len data)) as [|a [|b [|c [|]]]] eqn:Ebe;
    try (apply (f_equal length) in Ebe; rewrite be_bytes_length in Ebe; simpl in Ebe; lia).
  cbn [app]. set (l := a :: b :: c :: _).
  assert (from_be [a; b; c] = len data) as Hn.
  { rewrite <- Ebe, from_be_be_bytes. apply Z.mod_small. pose proof (len_nonneg data). change (256 ^ Z.of_nat 3) with (2 ^ 24). lia. }
  change (drop 1 (take 4 (Z.lor kind mark :: l))) with [a; b; c].
  change (byte_at (Z.lor kind mark :: l) 0) with (Z.lor kind mark).
  change (drop 4 (Z.lor kind mark :: l)) with ((data ++ encode_blocks bs) ++ rest). rewrite Hn, <- app_assoc.
  cbn [blocks_size foldr snd] in Htotal. fold (blocks_size bs) in Htotal. pose proof (blocks_size_nonneg bs).
  destruct (Z.ltb_spec (len (Z.lor kind mark :: l)) 4) as [H4|_].
  { exfalso. unfold l in H4. rewrite !len_cons in H4. pose proof (len_nonneg ((data ++ encode_blocks bs) ++ rest)). lia. }
  destruct (Z.ltb_spec MAX_TAG_BYTES (total + (len data + 4))); [lia|].
  destruct (Z.ltb_spec (len (data ++ encode_blocks bs ++ rest)) (len data)) as [Hl|_].
  { rewrite len_app in Hl. pose proof (len_nonneg (encode_blocks bs ++ rest)). lia. }
  cbn [orb]. assert (Z.to_nat (len data) = length data) as -> by (unfold len; lia).
  rewrite take_app_length, drop_app_length.
  assert (Z.land (Z.lor kind mark) 127 = kind /\ Z.land (Z.lor kind mark) 128 = mark) as [-> ->].
  { rewrite !(Z.land_lor_distr_l kind mark). unfold mark.
    assert (Z.land kind 127 = kind) as -> by (change 127 with (2 ^ 7 - 1); rewrite land_ones_mod by lia; by apply Z.mod_small).
    assert (Z.land kind 128 = 0) as -> by (apply (Z.bits_inj'); intros i Hi; rewrite Z.land_spec, Z.bits_0;
      change 128 with (2 ^ 7); rewrite Z.pow2_bits_eqb by lia; destruct (Z.eqb_spec 7 i) as [<-|];
      [rewrite Z.testbit_eqb by lia; by rewrite Z.div_small|apply andb_false_r]).
    destruct bs; by rewrite ?Z.lor_0_r. }
  unfold mark. destruct bs as [|b' bs]; [done|]. cbn [Z.eqb]. rewrite IH; [done|done|done|simpl in *; lia|lia].
Qed.

Section header.
Context `{Source} `{Unicode} `{Splits} `{Images}.
Implicit Types (s : Io).

(** The source from a position on. *)
Definition tail_at (p : Z) : bytes := drop (Z.to_nat p) content.

Lemma slice_tail p n : 0 <= n -> slice content p (p + n) = take (Z.to_nat n) (tail_at p).
Proof. intros Hn. unfold slice, tail_at. by replace (p + n - p) with n by lia. Qed.
Lemma tail_tail p n : 0 <= p -> 0 <= n -> drop (Z.to_nat n) (tail_at p) = tail_at (p + n).
Proof. intros Hp Hn. unfold tail_at. rewrite drop_drop. f_equal. lia. Qed.
Lemma len_tail p : 0 <= p <= len content -> len (tail_at p) = len content - p.
Proof. intros Hp. unfold tail_at, len in *. rewrite length_drop. lia. Qed.

(** [bytes_of] over the rest of the source. *)
Lemma wp_take n Q R s :
  0 <= position s <= len content -> 0 <= n ->
  (forall s', position s' = position s + n -> written s' = written s -> n <= len (tail_at (position s)) ->
     Q (take (Z.to_nat n) (tail_at (position s))) s') ->
  (forall e s', (calm -> len (tail_at (position s)) < n) -> written s' = written s -> R e s') ->
  wp (bytes_of n) Q R s.
Proof.
  intros Hp Hn HQ HR. apply wp_bytes_of; [lia|done| |].
  - intros s' Hp' Hw Hin. rewrite slice_tail by done. apply HQ; auto. rewrite len_tail by done. lia.
  - intros e s' Hc Hw. apply HR; [|done]. intros Hcalm. rewrite len_tail by done. specialize (Hc Hcalm). lia.
Qed.

(** A picture that is to be replaced is not kept. *)
Definition blanked (drop_pictures : bool) (b : Block) : Block :=
  (b.1, if (b.1 =? 6) && drop_pictures then [] else b.2).

Lemma wp_read_blocks fuel total dp acc s :
  0 <= position s <= len content ->
  wp (read_blocks fuel total dp acc)
    (fun blocks s' => exists bs, parse_blocks fuel total (tail_at (position s)) = Some (bs, tail_at (position s')) /\
       blocks = acc ++ map (blanked dp) bs /\ position s <= position s' <= len content /\ written s' = written s)
    (fun _ s' => written s' = written s /\ (calm -> parse_blocks fuel total (tail_at (position s)) = None)) s.
Proof.
  revert total acc s. induction fuel as [|fuel IH]; intros total acc s Hp; cbn [read_blocks].
  { apply wp_bind, wp_check; [intros s0 _ Hw0; by apply wp_throw|intros e s0 Hc Hw; split; [done|by intros ?; destruct Hc]]. }
  apply wp_bind, wp_check; [|intros e s0 Hc Hw; split; [done|by intros ?; destruct Hc]]. intros s0 Hp0 Hw0.
  rewrite <- Hp0 in *. apply wp_bind, wp_take; [done|done| |].
  2: { intros e s1 Hc Hw1. split; [congruence|]. intros Hcalm. cbn [parse_blocks].
       destruct (Z.ltb_spec (len (tail_at (position s0))) 4); [done|]. specialize (Hc Hcalm). lia. }
  intros s1 Hp1 Hw1 H4. change (Z.to_nat 4) with 4%nat. set (l := tail_at (position s0)) in *.
  assert (drop 4 l = tail_at (position s1)) as Hl4.
  { unfold l. rewrite Hp1, <- tail_tail by lia. done. }
  assert (byte_at (take 4 l) 0 = byte_at l 0) as Hb0 by (by destruct l).
  assert (len (tail_at (position s1)) = len content - position s1) as Hlen1.
  { unfold l in H4. rewrite len_tail in H4 by lia. apply len_tail. lia. }
  assert (position s1 <= len content) as Hin1.
  { unfold l in H4. rewrite len_tail in H4 by lia. lia. }
  assert (Forall byte_ok (drop 1 (take 4 l))) as Hbytes.
  { apply Forall_drop, Forall_take, Forall_drop, content_bytes. }
  pose proof (from_be_bound _ Hbytes) as Hn. cbn [parse_blocks]. rewrite (proj2 (Z.ltb_ge (len l) 4) H4).
  set (n := from_be (drop 1 (take 4 l))) in *. rewrite Hb0, Hl4. cbv zeta.
  destruct (MAX_TAG_BYTES <? total + (n + 4)) eqn:Etotal; [apply wp_throw; split; [congruence|done]|]. cbn [orb].
  apply wp_bind. set (kind := Z.land (byte_at l 0) 127).
  apply (wp_mono _ (fun data s2 => n <= len (tail_at (position s1)) /\ position s2 = position s1 + n /\ written s2 = written s1 /\
      data = (blanked dp (kind, take (Z.to_nat n) (tail_at (position s1)))).2)
    _ (fun _ s2 => written s2 = written s1 /\ (calm -> len (tail_at (position s1)) < n))).
  { unfold blanked. cbn [fst snd]. destruct ((kind =? 6) && dp).
    - apply wp_bind. unfold discard_bytes. apply wp_discard; [lia|lia| |].
      + intros s2 Hp2 Hw2 Hin. apply wp_ret. rewrite Hlen1. split_conj; [lia|done|done|done].
      + intros e s2 Hc Hw2. split; [done|]. intros Hcalm. specialize (Hc Hcalm). lia.
    - apply wp_take; [lia|lia| |].
      + intros s2 Hp2 Hw2 Hin. by split_conj.
      + intros e s2 Hc Hw2. by split. }
  2: { intros e s2 [Hw2 Hc]. split; [congruence|]. intros Hcalm. by rewrite (proj2 (Z.ltb_lt _ _) (Hc Hcalm)). }
  intros data s2 (Hfit & Hp2 & Hw2 & ->). rewrite (proj2 (Z.ltb_ge _ _) Hfit).
  rewrite tail_tail, <- Hp2 by lia. fold kind.
  assert (acc ++ [(kind, (blanked dp (kind, take (Z.to_nat n) (tail_at (position s1)))).2)] =
    acc ++ map (blanked dp) [(kind, take (Z.to_nat n) (tail_at (position s1)))]) as -> by done.
  destruct (Z.land (byte_at l 0) 128 =? 0).
  - eapply wp_mono; [apply IH; lia| |].
    + intros blocks s3 (bs & -> & -> & Hp3 & Hw3). eexists. split; [done|]. rewrite <- app_assoc. split; [done|]. split; [lia|congruence].
    + intros e s3 [Hw3 Hc]. split; [congruence|]. intros Hcalm. by rewrite (Hc Hcalm).
  - apply wp_ret. eexists. split; [done|]. split; [done|]. split; [lia|congruence].
Qed.

(** Where the blocks begin. *)
Definition flac_offset (l : bytes) : option Z :=
  if len l <? 4 then None
  else
    let found :=
      if bool_decide (take 3 l = str_bytes "ID3") then
        if len l <? 10 then None
        else match v2_tag_length (take 10 l) with
             | None => None
             | Some start => if len (drop (Z.to_nat start) l) <? 4 then None else Some start
             end
      else Some 0 in
    match found with
    | Some start => if bool_decide (take 4 (drop (Z.to_nat start) l) = FLAC) then Some start else None
    | None => None
    end.

Lemma v2_tag_length_nonneg l n : Forall byte_ok l -> v2_tag_length l = Some n -> 10 <= n.
Proof.
  intros Hl. unfold v2_tag_length. destruct (_ || _ || _); [done|]. intros [= <-].
  assert (0 <= syncsafe (take 4 (drop 6 l))); [|destruct (_ =? 0); lia].
  assert (forall i, 0 <= byte_at (take 4 (drop 6 l)) i) as Hb.
  { intros i. unfold byte_at. destruct (nth_in_or_default i (take 4 (drop 6 l)) 0) as [Hin| ->]; [|done].
    assert (Forall byte_ok (take 4 (drop 6 l))) as Hf by (by apply Forall_take, Forall_drop).
    rewrite List.Forall_forall in Hf. by apply Hf in Hin as [? _]. }
  unfold syncsafe. rewrite !Z.lor_nonneg, !Z.shiftl_nonneg. by split_conj.
Qed.

Lemma wp_flac_start s :
  position s = 0 ->
  wp flac_start (fun start s' => flac_offset content = Some start /\ position s' = start + 4 /\
       0 <= start /\ start + 4 <= len content /\ written s' = written s)
    (fun _ s' => written s' = written s /\ (calm -> flac_offset content = None)) s.
Proof.
  intros Hp. pose proof (len_nonneg content) as Hlen. assert (tail_at 0 = content) as Ht0 by done. unfold flac_start, flac_offset.
  apply wp_bind, wp_take; [lia|done| |]; rewrite Hp, Ht0.
  2: { intros e s1 Hc Hw. split; [done|]. intros Hcalm. by rewrite (proj2 (Z.ltb_lt _ _) (Hc Hcalm)). }
  intros s1 Hp1 Hw1 H4. rewrite (proj2 (Z.ltb_ge _ _) H4). change (Z.to_nat 4) with 4%nat. rewrite take_take.
  change (3 `min` 4)%nat with 3%nat. apply wp_bind. case_bool_decide as Hid3.
  - apply wp_bind, wp_take; [lia|done| |]; rewrite Hp1, <- (tail_tail 0 4), Ht0 by done; change (Z.to_nat 4) with 4%nat.
    2: { intros e s2 Hc Hw2. split; [congruence|]. intros Hcalm. specialize (Hc Hcalm).
         rewrite (proj2 (Z.ltb_lt (len content) 10)); [done|]. unfold len in *. rewrite length_drop in Hc. lia. }
    intros s2 Hp2 Hw2 H10. change (Z.to_nat 6) with 6%nat. rewrite take_take_drop. change (4 + 6)%nat with 10%nat.
    rewrite (proj2 (Z.ltb_ge (len content) 10)) by (unfold len in *; rewrite length_drop in H10; lia).
    destruct (v2_tag_length (take 10 content)) as [start|] eqn:Ev; [|apply wp_throw; split; [congruence|done]].
    apply v2_tag_length_nonneg in Ev as Hs; [|apply Forall_take, content_bytes].
    apply wp_bind, wp_seek; [|intros e s3 Hc Hw3; split; [congruence|by intros ?; destruct Hc]]. intros s3 Hp3 Hw3.
    apply wp_bind, wp_bytes_of; [lia|done| |].
    2: { intros e s4 Hc Hw4. split; [congruence|]. intros Hcalm. specialize (Hc Hcalm). rewrite Hp3 in Hc.
         rewrite (proj2 (Z.ltb_lt _ 4)); [done|]. unfold len in *. rewrite length_drop. lia. }
    intros s4 Hp4 Hw4 Hin. rewrite Hp3 in *. apply wp_ret. cbn [fst snd].
    rewrite (proj2 (Z.ltb_ge _ 4)) by (unfold len in *; rewrite length_drop; lia). rewrite slice_tail by lia.
    unfold tail_at. change (Z.to_nat 4) with 4%nat. case_bool_decide.
    + apply wp_ret. split_conj; [done|lia|lia|lia|congruence].
    + apply wp_throw. split; [congruence|done].
  - apply wp_ret. cbn [fst snd]. change (drop (Z.to_nat 0) content) with content. case_bool_decide.
    + apply wp_ret. split_conj; [done|lia|lia|lia|congruence].
    + apply wp_throw. split; [congruence|done].
Qed.

(** *** Pictures *)

Fixpoint first_of (l : list Z) (encode : Z -> option bytes) : option bytes :=
  match l with
  | [] => None
  | x :: l => match encode x with Some data => if len data <=? 16000000 then Some data else first_of l encode | None => first_of l encode end
  end.

(** The picture block of a cover, when the checks let it be made. *)
Definition picture_of (original : bytes) : result (option bytes) string :=
  let finish data := match guess_error data with Some e => Err e | None => Ok (Some (picture_block data)) end in
  if 16000000 <? len original then
    match guess_error original with
    | Some e => Err e
    | None =>
      match decode_image original with
      | None => Ok None
      | Some image =>
        match first_of [90; 80; 70; 60] (fun quality => encode_jpeg quality image) with
        | Some data => finish data
        | None => match first_of [1500; 1200; 1000; 800] (fun dimension => resized_jpeg dimension image) with
                  | Some data => finish data
                  | None => Ok None
                  end
        end
      end
    end
  else finish original.

Definition quietly {A} (Q : A -> Prop) (m : St Io string A) (R : string -> Prop) : Prop := forall s,
  wp m (fun a s' => Q a /\ position s' = position s /\ written s' = written s)
    (fun e s' => written s' = written s /\ (calm -> R e)) s.

Lemma quietly_first_small l encode : quietly (fun r => r = first_of l encode) (first_small l encode) (fun _ => False).
Proof.
  induction l as [|x l IH]; intros s; cbn [first_small first_of]; [by apply wp_ret|].
  apply wp_bind, wp_check; [|intros e s1 Hc Hw; split; [done|by intros ?; destruct Hc]]. intros s1 Hp1 Hw1.
  assert (wp (first_small l encode) (fun r s' => r = first_of l encode /\ position s' = position s /\ written s' = written s)
    (fun e s' => written s' = written s /\ (calm -> False)) s1) as Hrest.
  { eapply wp_mono; [apply IH| |]; cbv beta; intros a s2; rewrite ?Hp1, ?Hw1; done. }
  destruct (encode x) as [data|]; [|done]. destruct (_ <=? _); [by apply wp_ret|done].
Qed.

Lemma quietly_bind {A B} (Q : A -> Prop) (Q' : B -> Prop) (R : string -> Prop) m k :
  quietly Q m R -> (forall a, Q a -> quietly Q' (k a) R) -> quietly Q' (bind m k) R.
Proof.
  intros Hm Hk s. apply wp_bind. eapply wp_mono; [apply Hm| |done]. intros a s1 (Ha & Hp1 & Hw1).
  eapply wp_mono; [by apply Hk| |]; cbv beta; intros b s2; by rewrite ?Hp1, ?Hw1.
Qed.
Lemma quietly_mono {A} (Q Q' : A -> Prop) (R R' : string -> Prop) m :
  quietly Q m R -> (forall a, Q a -> Q' a) -> (forall e, R e -> R' e) -> quietly Q' m R'.
Proof. intros Hm HQ HR s. eapply wp_mono; [apply Hm| |]; cbv beta; intros ? ?; naive_solver. Qed.
Lemma quietly_ret {A} (Q : A -> Prop) R a : Q a -> quietly Q (ret a) R.
Proof. intros Ha s. by apply wp_ret. Qed.
Lemma quietly_throw {A} (Q : A -> Prop) (R : string -> Prop) e : R e -> quietly Q (throw e) R.
Proof. intros He s. by apply wp_throw. Qed.
Lemma quietly_check R : quietly (fun _ => True) check R.
Proof. intros s. apply wp_check; [done|]. intros e s1 Hc Hw. split; [done|by intros ?; destruct Hc]. Qed.

Lemma quietly_picture original :
  quietly (fun p => picture_of original = Ok p) (picture original) (fun _ => is_ok (picture_of original) = false).
Proof.
  assert (forall data (Q : option bytes -> Prop) (R : string -> Prop),
    match guess_error data with Some e => R e | None => Q (Some (picture_block data)) end ->
    quietly Q (check;; guess data;; ret (Some (picture_block data))) R) as Hfinish.
  { intros data Q R Hd. eapply quietly_bind; [apply quietly_check|]. intros _ _. unfold guess.
    destruct (guess_error data); [eapply (quietly_bind (fun _ => False)); [by apply quietly_throw|done]|].
    eapply (quietly_bind (fun _ => True)); [by apply quietly_ret|]. intros _ _. by apply quietly_ret. }
  unfold picture, picture_data, picture_of. destruct (16000000 <? len original).
  2: { eapply (quietly_bind (fun r => r = Some original)); [by apply quietly_ret|]. intros ? ->. apply Hfinish. by destruct (guess_error original). }
  unfold guess at 1. destruct (guess_error original) as [e|].
  { eapply (quietly_bind (fun _ => False)); [|done]. eapply (quietly_bind (fun _ => False)); [by apply quietly_throw|done]. }
  destruct (decode_image original) as [image|].
  2: { eapply (quietly_bind (fun r => r = None)); [|intros ? ->; by apply quietly_ret].
       eapply (quietly_bind (fun _ => True)); [by apply quietly_ret|]. intros _ _. by apply quietly_ret. }
  set (first := first_of [90; 80; 70; 60] _). set (second := first_of [1500; 1200; 1000; 800] _).
  eapply (quietly_bind (fun r => r = match first with Some data => Some data | None => second end)).
  - eapply (quietly_bind (fun _ => True)); [by apply quietly_ret|]. intros _ _.
    eapply quietly_bind; [eapply quietly_mono; [apply quietly_first_small|done|done]|]. intros r ->. fold first.
    destruct first; [by apply quietly_ret|]. eapply quietly_mono; [apply quietly_first_small|done|done].
  - intros r ->. destruct first as [data|]; [apply Hfinish; by destruct (guess_error data)|].
    destruct second as [data|]; [apply Hfinish; by destruct (guess_error data)|by apply quietly_ret].
Qed.

(** *** The whole header *)

Definition new_blocks (fields : Fields) (cover : option bytes) (embed_mode : option string) (old : list Block) : option (list Block) :=
  match change_blocks embed_mode fields old with
  | Err _ => None
  | Ok blocks =>
    match cover with
    | None => Some blocks
    | Some cover => match picture_of cover with Ok p => Some (change_pictures p blocks) | Err _ => None end
    end
  end.

Definition flac_edit (fields : Fields) (cover : option bytes) (embed_mode : option string) (l : bytes) : option FileSection :=
  match flac_offset l with
  | None => None
  | Some start =>
    match parse_blocks MAX_BLOCKS 0 (drop (Z.to_nat (start + 4)) l) with
    | None => None
    | Some (old, audio) =>
      if (len audio <? 2) || negb (synced (take 2 audio)) then None
      else
        match new_blocks fields cover embed_mode (map (blanked (bool_decide (is_Some cover))) old) with
        | None => None
        | Some new => match put_blocks FLAC new with
                      | Ok head => Some (mkSection start (len l - len audio) head)
                      | Err _ => None
                      end
        end
    end
  end.

Lemma quietly_lift {A} (r : result A string) : quietly (fun a => r = Ok a) (lift r) (fun _ => is_ok r = false).
Proof. unfold lift. destruct r; [by apply quietly_ret|by apply quietly_throw]. Qed.

Lemma wp_flac_header fields cover embed_mode s :
  position s = 0 ->
  wp (flac_header fields cover embed_mode)
    (fun section s' => flac_edit fields cover embed_mode content = Some section /\ written s' = written s)
    (fun _ s' => written s' = written s /\ (calm -> flac_edit fields cover embed_mode content = None)) s.
Proof.
  intros Hp. unfold flac_header, flac_edit. apply wp_bind. eapply wp_mono; [by apply wp_flac_start| |].
  2: { intros e s1 [Hw Hc]. split; [done|]. intros Hcalm. by rewrite (Hc Hcalm). }
  intros start s1 (-> & Hp1 & Hs0 & Hs1 & Hw1). apply wp_bind. eapply wp_mono; [apply wp_read_blocks; lia| |].
  2: { intros e s2 [Hw2 Hc]. split; [congruence|]. intros Hcalm. rewrite <- Hp1.
       specialize (Hc Hcalm). unfold tail_at in Hc. by rewrite Hc. }
  intros blocks s2 (old & Hold & -> & Hp2 & Hw2). rewrite <- Hp1. unfold tail_at in Hold at 1. rewrite Hold. cbn [app].
  apply wp_bind, wp_gets, wp_bind, wp_seek; [|intros e s3 Hc Hw3; split; [congruence|by intros ?; destruct Hc]].
  intros s3 Hp3 Hw3. apply wp_bind, wp_take; [lia|lia| |].
  2: { intros e s4 Hc Hw4. split; [congruence|]. intros Hcalm. rewrite <- Hp3. by rewrite (proj2 (Z.ltb_lt _ _) (Hc Hcalm)). }
  intros s4 Hp4 Hw4 Haudio. rewrite <- Hp3. rewrite (proj2 (Z.ltb_ge _ _) Haudio). cbn [orb]. change (Z.to_nat 2) with 2%nat.
  destruct (synced (take 2 (tail_at (position s3)))); cbn [negb]; [|apply wp_throw; split; [congruence|done]].
  set (bs := map _ old). unfold new_blocks.
  assert (len content - len (tail_at (position s3)) = position s3) as Hfinish by (rewrite len_tail by lia; lia).
  assert (written s4 = written s) as Hw by congruence.
  rewrite Hfinish. rewrite <- Hw. set (mine := position s3) in *. clearbody mine. clear - Hw.
  apply wp_bind. eapply wp_mono; [apply quietly_lift| |].
  2: { intros e s5 [Hw5 Hc]. split; [done|]. intros Hcalm. specialize (Hc Hcalm). by destruct (change_blocks _ _ _). }
  intros blocks s5 (-> & _ & Hw5). apply wp_bind.
  apply (wp_mono _ (fun bs2 s6 => match cover with None => Some blocks | Some c => match picture_of c with
      Ok p => Some (change_pictures p blocks) | Err _ => None end end = Some bs2 /\ written s6 = written s5)
    _ (fun e s6 => written s6 = written s5 /\ (calm -> match cover with None => Some blocks | Some c => match picture_of c with
      Ok p => Some (change_pictures p blocks) | Err _ => None end end = None))).
  { destruct cover as [c|]; [|by apply wp_ret]. apply wp_bind. eapply wp_mono; [apply quietly_picture| |].
    - intros p s6 (-> & _ & Hw6). by apply wp_ret.
    - intros e s6 [Hw6 Hc]. split; [done|]. intros Hcalm. specialize (Hc Hcalm). by destruct (picture_of c). }
  2: { intros e s6 [Hw6 Hc]. split; [congruence|]. intros Hcalm. by rewrite (Hc Hcalm). }
  intros bs2 s6 [-> Hw6]. apply wp_bind. eapply wp_mono; [apply quietly_lift| |].
  - intros head s7 (-> & _ & Hw7). apply wp_ret. split; [done|congruence].
  - intros e s7 [Hw7 Hc]. split; [congruence|]. intros Hcalm. specialize (Hc Hcalm). by destruct (put_blocks _ _).
Qed.
End header.
