(* ===== verification/FlacTagsSpec.v ===== *)
(** * Edits of FLAC files keep the audio, and a second edit changes nothing

    The comment blocks round trip, the blocks an edit leaves alone are kept, and the file that was
    written parses again: [rewrite_keeps_audio] and [edit_twice]. *)

From S2P Require Import Prelude Monads RustText UnicodeText Matching TagIo VorbisComments FlacTags FlacHeader.

Section header.
Context `{Source} `{Unicode} `{Splits} `{Images}.
Implicit Types (s : Io).


(** ** Comment blocks are read back *)

Definition fits32 (l : bytes) : Prop := len l < 2 ^ 32.

Lemma take_put_string l rest : fits32 l -> take_string (put_string l ++ rest) = Ok (l, rest).
Proof.
  unfold fits32. intros Hl. pose proof (len_nonneg l). pose proof (len_nonneg rest). unfold take_string, put_string.
  assert (len (le_bytes 4 (len l)) = 4) as Hlen4 by (unfold len; by rewrite le_bytes_length).
  rewrite <- app_assoc. rewrite (proj2 (Z.ltb_ge _ 4)) by (rewrite len_app; rewrite Hlen4; pose proof (len_nonneg (l ++ rest)); lia).
  rewrite take_app_length', drop_app_length' by (by rewrite le_bytes_length).
  rewrite from_le_le_bytes, Z.mod_small by (change (256 ^ Z.of_nat 4) with (2 ^ 32); lia).
  rewrite (proj2 (Z.ltb_ge _ (len l))) by (rewrite len_app; lia).
  assert (Z.to_nat (len l) = length l) as -> by (unfold len; lia). by rewrite take_app_length, drop_app_length.
Qed.

Lemma take_put_strings fuel ss rest :
  (length ss <= fuel)%nat -> Forall fits32 ss -> take_strings fuel (len ss) (flat_map put_string ss ++ rest) = Ok ss.
Proof.
  revert fuel. induction ss as [|x ss IH]; intros fuel Hfuel Hss; [by destruct fuel|].
  destruct fuel as [|fuel]; [simpl in Hfuel; lia|]. rewrite Forall_cons in Hss. destruct Hss as [Hx Hss].
  cbn [take_strings flat_map]. rewrite len_cons. pose proof (len_nonneg ss).
  destruct (Z.eqb_spec (len ss + 1) 0); [lia|]. rewrite <- app_assoc, take_put_string by done. cbn [bind_result].
  replace (len ss + 1 - 1) with (len ss) by lia. rewrite IH; [done|simpl in Hfuel; lia|done].
Qed.

Lemma length_put_strings ss : (length ss <= length (flat_map put_string ss))%nat.
Proof.
  induction ss as [|x ss IH]; [done|]. cbn [flat_map length]. rewrite length_app. unfold put_string at 1. rewrite length_app, le_bytes_length. lia.
Qed.

Lemma len_put_comments vendor comments :
  len (put_comments vendor comments) = len vendor + 8 + foldr (fun c n => len c + 4 + n) 0 comments.
Proof.
  assert (forall z, len (le_bytes 4 z) = 4) as Hfour by (intros z; unfold len; by rewrite le_bytes_length).
  unfold put_comments, put_string. rewrite !len_app, !Hfour.
  assert (len (flat_map (fun data => le_bytes 4 (len data) ++ data) comments) = foldr (fun c n => len c + 4 + n) 0 comments) as ->; [|lia].
  induction comments as [|c comments IH]; [done|]. cbn [flat_map foldr]. rewrite !len_app, IH, Hfour. lia.
Qed.

Lemma parse_put_comments vendor comments rest :
  len (put_comments vendor comments) < 2 ^ 32 -> parse_comments (put_comments vendor comments ++ rest) = Ok (vendor, comments).
Proof.
  intros Hlen. rewrite len_put_comments in Hlen.
  assert (len vendor < 2 ^ 32 /\ len comments < 2 ^ 32 /\ Forall fits32 comments) as (Hv & Hc & Hcs).
  { pose proof (len_nonneg vendor) as Hv. assert (forall l, 0 <= foldr (fun (c : bytes) n => len c + 4 + n) 0 l /\
      len l <= foldr (fun (c : bytes) n => len c + 4 + n) 0 l) as Hpos.
    { intros l. induction l as [|c l IH]; [done|]. cbn [foldr]. rewrite len_cons. pose proof (len_nonneg c). lia. }
    destruct (Hpos comments) as [Hp0 Hp1]. split; [lia|]. split; [lia|]. clear - Hlen Hv Hpos. revert Hv Hlen.
    generalize (len vendor). induction comments as [|c l IH]; intros v Hv Hlen; [constructor|]. cbn [foldr] in Hlen.
    pose proof (len_nonneg c). destruct (Hpos l). constructor; [unfold fits32; lia|]. apply (IH (v + len c + 4)); lia. }
  unfold parse_comments. unfold put_comments at 1. rewrite <- !app_assoc, take_put_string by done. cbn [bind_result].
  assert (len (le_bytes 4 (len comments)) = 4) as Hlen4 by (unfold len; by rewrite le_bytes_length).
  rewrite len_app, Hlen4. pose proof (len_nonneg (flat_map put_string comments ++ rest)).
  rewrite (proj2 (Z.ltb_ge _ 4)) by lia. rewrite take_app_length', drop_app_length' by (by rewrite le_bytes_length).
  pose proof (len_nonneg comments).
  rewrite from_le_le_bytes, Z.mod_small by (change (256 ^ Z.of_nat 4) with (2 ^ 32); lia).
  rewrite take_put_strings; [done| |done].
  pose proof (length_put_strings comments). unfold put_comments. rewrite !length_app. lia.
Qed.

(** ** The new header *)

Lemma be_bytes_tail z : drop 1 (be_bytes 4 z) = be_bytes 3 z.
Proof.
  unfold be_bytes. change (le_bytes 4 z) with (le_bytes 3 z ++ [z / 256 / 256 / 256 mod 256]). by rewrite rev_app_distr.
Qed.

Lemma put_blocks_spec bs head out :
  put_blocks head bs = Ok out ->
  out = head ++ encode_blocks bs /\ len head + blocks_size bs <= Z.max (len head) MAX_TAG_BYTES /\ Forall (fun b => len b.2 < 2 ^ 24) bs.
Proof.
  revert head. induction bs as [|[kind data] bs IH]; intros head; cbn [put_blocks encode_blocks].
  { intros [= <-]. rewrite app_nil_r. split_conj; [done|simpl; lia|constructor]. }
  destruct (Z.ltb_spec MAX_TAG_BYTES (len head + len data + 4)) as [|Hmax]; [done|].
  destruct (Z.ltb_spec 16777215 (len data)) as [|Hdata]; [done|].
  set (mark := match bs with [] => 128 | _ => 0 end). intros Hp. destruct (IH _ Hp) as (-> & Hsize & Hlens).
  rewrite be_bytes_tail in *. split_conj.
  - rewrite <- !app_assoc. done.
  - assert (len (be_bytes 3 (len data)) = 3) as Hthree by (unfold len; by rewrite be_bytes_length).
    rewrite !len_app, Hthree in Hsize. change (len [Z.lor kind mark]) with 1 in Hsize.
    cbn [blocks_size foldr snd]. fold (blocks_size bs). lia.
  - constructor; [cbn; lia|done].
Qed.

Lemma put_blocks_fits bs head :
  len head + blocks_size bs <= MAX_TAG_BYTES -> Forall (fun b => len b.2 < 2 ^ 24) bs ->
  put_blocks head bs = Ok (head ++ encode_blocks bs).
Proof.
  revert head. induction bs as [|[kind data] bs IH]; intros head Hsize Hlens; cbn [put_blocks encode_blocks].
  { by rewrite app_nil_r. }
  rewrite Forall_cons in Hlens. destruct Hlens as [Hdata Hlens]. cbn [snd] in Hdata.
  cbn [blocks_size foldr snd] in Hsize. fold (blocks_size bs) in Hsize. pose proof (blocks_size_nonneg bs).
  rewrite (proj2 (Z.ltb_ge MAX_TAG_BYTES _)) by lia. rewrite (proj2 (Z.ltb_ge 16777215 _)) by lia.
  set (mark := match bs with [] => 128 | _ => 0 end).
  rewrite be_bytes_tail. rewrite IH; [by rewrite <- !app_assoc| |done].
  assert (len (be_bytes 3 (len data)) = 3) as Hthree by (unfold len; by rewrite be_bytes_length).
  rewrite !len_app, Hthree. change (len [Z.lor kind mark]) with 1. lia.
Qed.

(** *** What an edit does to the blocks *)

(** The vendor and the comments of a header. *)
Definition tags_of (blocks : list Block) : result (bytes * list bytes) string :=
  match List.find (is_kind 4) blocks with Some b => parse_comments b.2 | None => Ok (VENDOR, []) end.

(** The blocks an edit leaves alone. *)
Definition untouched (cover : option bytes) (b : Block) : bool :=
  negb (is_kind 4 b) && negb (bool_decide (is_Some cover) && is_kind 6 b).

Lemma find_set_first data bs : List.find (is_kind 4) (set_first data bs) = Some (4, data).
Proof. induction bs as [|b bs IH]; [done|]. cbn [set_first]. destruct (is_kind 4 b) eqn:E; [done|]. cbn [List.find]. by rewrite E. Qed.

Lemma set_first_again data data' bs : set_first data' (set_first data bs) = set_first data' bs.
Proof. induction bs as [|b bs IH]; [done|]. cbn [set_first]. destruct (is_kind 4 b) eqn:E; [done|]. cbn [set_first]. by rewrite E, IH. Qed.

Lemma filter_set_first (f : Block -> bool) data bs :
  (forall b, is_kind 4 b = true -> f b = false) -> List.filter f (set_first data bs) = List.filter f bs.
Proof.
  intros Hf. induction bs as [|b bs IH]; cbn [set_first List.filter]; [by rewrite Hf|].
  destruct (is_kind 4 b) eqn:E; cbn [List.filter]; [by rewrite !Hf|by rewrite IH].
Qed.

Lemma find_change_pictures p bs data :
  List.find (is_kind 4) bs = Some (4, data) -> List.find (is_kind 4) (change_pictures p bs) = Some (4, data).
Proof.
  unfold change_pictures. induction bs as [|b bs IH]; [done|]. cbn [List.find List.filter].
  destruct (is_kind 4 b) eqn:E; [by intros [= ->]|].
  destruct (negb (is_kind 6 b)); cbn [app List.find]; rewrite ?E; apply IH.
Qed.

Lemma find_blanked dp bs :
  match List.find (is_kind 4) (map (blanked dp) bs) with Some b => parse_comments b.2 | None => Ok (VENDOR, []) end = tags_of bs.
Proof.
  unfold tags_of. induction bs as [|b bs IH]; [done|]. cbn [map List.find]. change (is_kind 4 (blanked dp b)) with (is_kind 4 b).
  destruct (is_kind 4 b) eqn:E; [|done]. unfold blanked, is_kind in *. cbn [snd]. apply Z.eqb_eq in E. by rewrite E.
Qed.

Lemma filter_blanked data dp bs :
  List.filter (fun b => negb (is_kind 6 b)) (set_first data (map (blanked dp) bs)) =
  List.filter (fun b => negb (is_kind 6 b)) (set_first data bs).
Proof.
  assert (forall b, is_kind 6 b = false -> blanked dp b = b) as Hb.
  { intros [k d] E. unfold blanked, is_kind in *. cbn in *. by rewrite E. }
  assert (List.filter (fun b => negb (is_kind 6 b)) (map (blanked dp) bs) = List.filter (fun b => negb (is_kind 6 b)) bs) as Hmap.
  { induction bs as [|b bs IH]; [done|]. cbn [map List.filter]. change (is_kind 6 (blanked dp b)) with (is_kind 6 b).
    destruct (is_kind 6 b) eqn:E; cbn [negb]; [done|]. by rewrite IH, Hb. }
  induction bs as [|b bs IH]; [done|]. cbn [map set_first]. change (is_kind 4 (blanked dp b)) with (is_kind 4 b).
  cbn [map List.filter] in Hmap. change (is_kind 6 (blanked dp b)) with (is_kind 6 b) in Hmap.
  destruct (is_kind 4 b); cbn [List.filter].
  - cbn. f_equal. destruct (negb (is_kind 6 b)); [by injection Hmap|done].
  - change (is_kind 6 (blanked dp b)) with (is_kind 6 b). destruct (is_kind 6 b) eqn:E; cbn [negb] in *; [by apply IH|].
    rewrite Hb by done. f_equal. apply IH. by injection Hmap.
Qed.

Lemma new_blocks_blanked fields cover m bs :
  new_blocks fields cover m (map (blanked (bool_decide (is_Some cover))) bs) = new_blocks fields cover m bs.
Proof.
  unfold new_blocks, change_blocks. rewrite find_blanked. change (match List.find (is_kind 4) bs with Some b => _ | None => _ end) with (tags_of bs).
  destruct (tags_of bs) as [[vendor comments]|e]; [|done]. cbn [bind_result]. destruct cover as [c|].
  - destruct (picture_of c); [|done]. unfold change_pictures. by rewrite filter_blanked.
  - rewrite bool_decide_eq_false_2 by (by intros [? ?]). assert (map (blanked false) bs = bs) as ->; [|done].
    rewrite <- (map_id bs) at 2. apply map_ext. intros [k d]. unfold blanked. by rewrite andb_false_r.
Qed.

Lemma new_blocks_tags fields cover m old new :
  new_blocks fields cover m old = Some new -> Forall (fun b => len b.2 < 2 ^ 24) new ->
  exists vendor comments, tags_of old = Ok (vendor, comments) /\
    tags_of new = Ok (vendor, change_comments m fields comments) /\
    List.filter (untouched cover) new = List.filter (untouched cover) old.
Proof.
  unfold new_blocks, change_blocks. change (match List.find (is_kind 4) old with Some b => _ | None => _ end) with (tags_of old).
  destruct (tags_of old) as [[vendor comments]|e]; [|done]. cbn [bind_result].
  set (data := put_comments vendor (change_comments m fields comments)). intros Hnew Hlens.
  exists vendor, comments. split; [done|].
  assert (len data < 2 ^ 24 -> parse_comments data = Ok (vendor, change_comments m fields comments)) as Hparse.
  { intros Hd. rewrite <- (app_nil_r data). apply parse_put_comments. unfold data in Hd. lia. }
  destruct cover as [c|]; [destruct (picture_of c) as [p|]; [|done]|]; injection Hnew as <-.
  - assert (List.find (is_kind 4) (change_pictures p (set_first data old)) = Some (4, data)) as Hfind by (by apply find_change_pictures, find_set_first).
    split.
    + unfold tags_of. rewrite Hfind. apply Hparse. apply find_some in Hfind as [Hin _].
      rewrite List.Forall_forall in Hlens. apply (Hlens _ Hin).
    + unfold change_pictures. rewrite List.filter_app, filter_filter.
      assert (List.filter (untouched (Some c)) (match p with Some data => [(6, data)] | None => [] end) = []) as -> by (by destruct p).
      rewrite app_nil_r, <- (filter_set_first (untouched (Some c)) data old).
      * apply List.filter_ext. intros b. unfold untouched. simpl. by destruct (is_kind 4 b), (is_kind 6 b).
      * intros b Hb. unfold untouched. by rewrite Hb.
  - split.
    + unfold tags_of. rewrite find_set_first. apply Hparse. pose proof (find_set_first data old) as Hf. apply find_some in Hf as [Hin _].
      rewrite List.Forall_forall in Hlens. apply (Hlens _ Hin).
    + apply filter_set_first. intros b Hb. unfold untouched. by rewrite Hb.
Qed.

(** *** The edited file *)

Record edits_flac (fields : Fields) (cover : option bytes) (m : option string) (l : bytes) (section : FileSection)
  (old new : list Block) (audio : bytes) : Prop := {
  edit_source : l = take (Z.to_nat (start section)) l ++ FLAC ++ encode_blocks old ++ audio;
  edit_start : 0 <= start section <= len l;
  edit_finish : drop (Z.to_nat (finish section)) l = audio /\ start section <= finish section <= len l;
  edit_synced : 2 <= len audio /\ synced (take 2 audio) = true;
  edit_old : old <> [] /\ Forall wf_block old;
  edit_new : new_blocks fields cover m old = Some new;
  edit_data : data section = FLAC ++ encode_blocks new;
  edit_size : 4 + blocks_size new <= MAX_TAG_BYTES /\ Forall (fun b => len b.2 < 2 ^ 24) new;
  edit_offset : flac_offset l = Some (start section);
  edit_parsed : parse_blocks MAX_BLOCKS 0 (drop (Z.to_nat (start section + 4)) l) = Some (old, audio) }.

Lemma flac_offset_magic l start : flac_offset l = Some start -> take 4 (drop (Z.to_nat start) l) = FLAC.
Proof.
  unfold flac_offset. destruct (_ <? 4); [done|]. destruct (if bool_decide _ then _ else _); [|done].
  case_bool_decide; [|done]. by intros [= ->].
Qed.

Lemma flac_offset_nonneg l start : Forall byte_ok l -> flac_offset l = Some start -> 0 <= start.
Proof.
  intros Hl. unfold flac_offset. destruct (_ <? 4); [done|]. case_bool_decide.
  - destruct (_ <? 10); [done|]. destruct (v2_tag_length _) as [n|] eqn:E; [|done].
    apply v2_tag_length_nonneg in E; [|by apply Forall_take]. destruct (_ <? 4); [done|]. case_bool_decide; [|done]. intros [= <-]. lia.
  - case_bool_decide; [|done]. by intros [= <-].
Qed.

Lemma flac_edit_spec fields cover m l section :
  Forall byte_ok l -> flac_edit fields cover m l = Some section ->
  exists old new audio, edits_flac fields cover m l section old new audio.
Proof.
  intros Hl. unfold flac_edit. destruct (flac_offset l) as [from|] eqn:Eo; [|done].
  destruct (parse_blocks _ _ _) as [[old audio]|] eqn:Ep; [|done]. destruct (_ || _) eqn:Es; [done|].
  rewrite new_blocks_blanked. destruct (new_blocks _ _ _ _) as [new|] eqn:En; [|done].
  destruct (put_blocks FLAC new) as [head|] eqn:Eh; [|done]. intros [= <-]. exists old, new, audio.
  apply orb_false_iff in Es as [Ha%Z.ltb_ge Hsync%negb_false_iff].
  pose proof (flac_offset_nonneg _ _ Hl Eo) as Hfrom. pose proof (flac_offset_magic _ _ Eo) as Hmagic.
  destruct (parse_blocks_sound _ _ _ _ _ ltac:(by apply Forall_drop) Ep) as (Hsplit & Hne & Hwf).
  destruct (put_blocks_spec _ _ _ Eh) as (-> & Hsize & Hlens). change (len FLAC) with 4 in Hsize.
  assert (drop (Z.to_nat from) l = FLAC ++ encode_blocks old ++ audio) as Hrest.
  { rewrite <- Hsplit, <- Hmagic. replace (Z.to_nat (from + 4)) with (Z.to_nat from + 4)%nat by lia.
    by rewrite <- drop_drop, take_drop. }
  assert (l = take (Z.to_nat from) l ++ FLAC ++ encode_blocks old ++ audio) as Hsource by (by rewrite <- Hrest, take_drop).
  assert (len l = len (take (Z.to_nat from) l) + 4 + len (encode_blocks old) + len audio) as Hlen.
  { rewrite Hsource at 1. rewrite !len_app. change (len FLAC) with 4. lia. }
  assert (len (take (Z.to_nat from) l) = from) as Htake.
  { unfold len in *. rewrite length_take in *. apply (f_equal length) in Hrest. rewrite length_drop, !length_app in Hrest.
    change (length FLAC) with 4%nat in Hrest. lia. }
  pose proof (len_nonneg (encode_blocks old)). pose proof (len_nonneg audio).
  split; cbn [start finish data]; try done; try lia.
  split; [|lia]. rewrite Hsource at 2. rewrite !app_assoc. apply drop_app_length'.
  rewrite !length_app. unfold len in *. change (length FLAC) with 4%nat. lia.
Qed.

(** The file an edit writes. *)
Definition edited_file (l : bytes) (section : FileSection) : bytes :=
  take (Z.to_nat (start section)) l ++ data section ++ drop (Z.to_nat (finish section)) l.

Lemma wp_write_section fields cover m section s :
  flac_edit fields cover m content = Some section ->
  wp (write_sections [section]) (fun _ s' => written s' = written s ++ edited_file content section) (fun _ _ => ~ calm) s.
Proof.
  intros He. destruct (flac_edit_spec _ _ _ _ _ content_bytes He) as (old & new & audio & Hedit).
  pose proof (edit_start _ _ _ _ _ _ _ _ Hedit) as Hs. destruct (edit_finish _ _ _ _ _ _ _ _ Hedit) as [_ Hf].
  eapply wp_mono; [apply wp_write_sections| |].
  - intros _ s' [_ ->]. cbn. unfold edited_file, slice. by rewrite Z.sub_0_r.
  - intros e s' Hc Hcalm. apply (Hc Hcalm). cbn. split; [lia|]. split; [lia|done].
Qed.

Lemma wp_validate fields (Q : unit -> Io -> Prop) (R : string -> Io -> Prop) s :
  Q tt s -> (forall e, R e s) -> wp (validate_fields fields) Q R s.
Proof. intros HQ HR. unfold validate_fields. case_bool; [apply wp_throw, HR|by apply wp_ret]. Qed.


(** *** Editing again *)

Lemma set_first_same data bs : List.find (is_kind 4) bs = Some (4, data) -> set_first data bs = bs.
Proof.
  induction bs as [|b bs IH]; [done|]. cbn [List.find set_first]. destruct (is_kind 4 b); [by intros [= ->]|].
  intros Hf. by rewrite IH.
Qed.

Lemma find_new fields cover old new :
  new_blocks fields cover None old = Some new -> exists data, List.find (is_kind 4) new = Some (4, data).
Proof.
  unfold new_blocks. destruct (change_blocks None fields old) as [bs|] eqn:E; [|done].
  assert (exists data, List.find (is_kind 4) bs = Some (4, data)) as [data Hd].
  { unfold change_blocks in E. destruct (match List.find _ _ with Some b => _ | None => _ end) as [[vendor comments]|]; [|done].
    injection E as <-. eexists. apply find_set_first. }
  destruct cover as [c|]; [|intros [= <-]; eauto]. destruct (picture_of c) as [p|]; [|done]. intros [= <-]. exists data.
  by apply find_change_pictures.
Qed.

Lemma new_blocks_again fields cover old new :
  new_blocks fields cover None old = Some new -> Forall (fun b => len b.2 < 2 ^ 24) new ->
  new_blocks fields cover None new = Some new.
Proof.
  intros Hnew Hlens. destruct (find_new _ _ _ _ Hnew) as [data Hfind].
  destruct (new_blocks_tags _ _ _ _ _ Hnew Hlens) as (vendor & comments & Hold & Htags & _).
  assert (data = put_comments vendor (edit_comments comments fields) /\
    match cover with None => True | Some c => exists p, picture_of c = Ok p /\ change_pictures p new = new end) as [Hdata Hpic].
  { unfold new_blocks, change_blocks in Hnew.
    change (match List.find (is_kind 4) old with Some b => _ | None => _ end) with (tags_of old) in Hnew.
    rewrite Hold in Hnew. cbn [bind_result change_comments] in Hnew.
    set (d := put_comments vendor (edit_comments comments fields)) in *.
    destruct cover as [c|].
    - destruct (picture_of c) as [p|] eqn:Ec; [|done]. injection Hnew as <-. split.
      + rewrite (find_change_pictures p _ d) in Hfind by apply find_set_first. congruence.
      + exists p. split; [done|]. unfold change_pictures. rewrite List.filter_app, filter_filter.
        assert (List.filter (fun b => negb (is_kind 6 b)) (match p with Some data => [(6, data)] | None => [] end) = []) as -> by (by destruct p).
        rewrite app_nil_r. f_equal. apply List.filter_ext. intros b. apply andb_diag.
    - injection Hnew as <-. rewrite find_set_first in Hfind. split; [congruence|done]. }
  unfold new_blocks, change_blocks.
  change (match List.find (is_kind 4) new with Some b => _ | None => _ end) with (tags_of new).
  rewrite Htags. cbn [bind_result change_comments]. rewrite edit_comments_once, <- Hdata, set_first_same by done.
  destruct cover as [c|]; [|done]. destruct Hpic as (p & -> & ->). done.
Qed.

Lemma set_first_in data bs b : b ∈ set_first data bs -> b = (4, data) \/ b ∈ bs.
Proof.
  induction bs as [|x bs IH]; cbn [set_first]; [rewrite list_elem_of_singleton; auto|].
  destruct (is_kind 4 x); rewrite !elem_of_cons; tauto.
Qed.

Lemma set_first_length data bs : (length (set_first data bs) <= S (length bs))%nat.
Proof. induction bs as [|x bs IH]; [done|]. cbn [set_first]. destruct (is_kind 4 x); simpl in *; lia. Qed.

(** The new blocks are kinds of blocks, and at most two more. *)
Lemma new_blocks_shape fields cover m old new :
  new_blocks fields cover m old = Some new -> Forall wf_block old ->
  Forall (fun b => 0 <= b.1 < 128) new /\ (length new <= length old + 2)%nat.
Proof.
  intros Hnew Hold. unfold new_blocks in Hnew. destruct (change_blocks m fields old) as [bs|] eqn:E; [|done].
  assert (Forall (fun b => 0 <= b.1 < 128) bs /\ (length bs <= S (length old))%nat) as [Hbs Hlen].
  { unfold change_blocks in E. destruct (match List.find _ _ with Some b => _ | None => _ end) as [[vendor comments]|]; [|done].
    injection E as <-. split; [|apply set_first_length]. apply Forall_forall. intros b Hb.
    apply set_first_in in Hb as [->|Hb]; [done|]. rewrite Forall_forall in Hold. by destruct (Hold b Hb). }
  destruct cover as [c|]; [destruct (picture_of c) as [p|]; [|done]|]; injection Hnew as <-; [|split; [done|lia]].
  unfold change_pictures. split.
  - apply Forall_app. split; [|by destruct p; repeat constructor]. apply List.Forall_forall. intros b [Hin _]%filter_In.
    rewrite List.Forall_forall in Hbs. by apply Hbs.
  - rewrite length_app. pose proof (List.filter_length_le (fun b => negb (is_kind 6 b)) bs). destruct p; simpl; lia.
Qed.

(** The number of blocks of a file. *)
Definition block_count (l : bytes) : nat :=
  match flac_offset l with
  | Some start => match parse_blocks MAX_BLOCKS 0 (drop (Z.to_nat (start + 4)) l) with Some (bs, _) => length bs | None => O end
  | None => O
  end.

Lemma take_prefix {A} n (l r x : list A) : (n <= length l)%nat -> take n (l ++ r) = take n (l ++ x).
Proof. intros Hn. by rewrite !take_app_le. Qed.

Lemma flac_offset_again l start r :
  Forall byte_ok l -> flac_offset l = Some start -> 0 <= start <= len l ->
  flac_offset (take (Z.to_nat start) l ++ FLAC ++ r) = Some start.
Proof.
  intros Hl Ho Hs. set (pre := take (Z.to_nat start) l).
  assert (length pre = Z.to_nat start) as Hpre by (unfold pre, len in *; rewrite length_take; lia).
  assert (drop (Z.to_nat start) (pre ++ FLAC ++ r) = FLAC ++ r) as Hdrop by (by apply drop_app_length').
  assert (4 <= len (FLAC ++ r)) as Hrest by (rewrite len_app; pose proof (len_nonneg r); change (len FLAC) with 4; lia).
  unfold flac_offset in *. rewrite len_app. pose proof (len_nonneg pre).
  rewrite (proj2 (Z.ltb_ge _ 4)) by lia. destruct (len l <? 4); [done|].
  case_bool_decide as Hid3.
  - destruct (Z.ltb_spec (len l) 10) as [|H10]; [done|]. destruct (v2_tag_length (take 10 l)) as [n|] eqn:Ev; [|done].
    destruct (_ <? 4); [done|]. case_bool_decide as Hmagic; [|done]. injection Ho as ->.
    assert (10 <= start) as Hge by (eapply (v2_tag_length_nonneg (take 10 l)); [by apply Forall_take|exact Ev]).
    assert (take 10 (pre ++ FLAC ++ r) = take 10 l) as Hten.
    { rewrite take_app_le by lia. unfold pre. rewrite take_take. f_equal. lia. }
    assert (take 3 (pre ++ FLAC ++ r) = take 3 l) as Hthree.
    { apply (f_equal (take 3)) in Hten. by rewrite !take_take in Hten. }
    rewrite Hthree, bool_decide_eq_true_2, Hten, Ev by done.
    assert (len pre = start) as -> by (unfold len; lia). destruct (Z.ltb_spec (start + len (FLAC ++ r)) 10) as [|_]; [lia|].
    rewrite Hdrop, (proj2 (Z.ltb_ge _ 4)) by done. rewrite Hdrop. by rewrite bool_decide_eq_true_2.
  - case_bool_decide as Hmagic; [|done]. injection Ho as <-. change (Z.to_nat 0) with 0%nat in *. destruct pre; [|done].
    cbn [app]. rewrite bool_decide_eq_false_2 by done. change (drop 0 (FLAC ++ r)) with (FLAC ++ r).
    by rewrite bool_decide_eq_true_2.
Qed.

Lemma flac_edit_again fields cover l section old new audio :
  Forall byte_ok l -> edits_flac fields cover None l section old new audio -> (length new <= MAX_BLOCKS)%nat ->
  flac_edit fields cover None (edited_file l section) =
    Some (mkSection (start section) (start section + len (data section)) (data section)).
Proof.
  intros Hl Hedit Hcount. destruct Hedit as [Hsource Hstart [Hdrop _] [Haudio Hsync] [Hne Hwf] Hnew Hdata [Hsize Hlens] Ho _].
  destruct (new_blocks_shape _ _ _ _ _ Hnew Hwf) as [Hkinds _]. unfold edited_file, flac_edit. rewrite Hdrop, Hdata, <- app_assoc.
  rewrite (flac_offset_again l) by done. set (pre := take (Z.to_nat (start section)) l).
  assert (len pre = start section) as Hpre by (unfold pre, len in *; rewrite length_take; lia).
  assert (drop (Z.to_nat (start section + 4)) (pre ++ FLAC ++ encode_blocks new ++ audio) = encode_blocks new ++ audio) as ->.
  { rewrite app_assoc. apply drop_app_length'. rewrite length_app. change (length FLAC) with 4%nat. unfold len in *. lia. }
  rewrite parse_encode_blocks; [| | |done|lia].
  - rewrite (proj2 (Z.ltb_ge _ 2)) by done. rewrite Hsync. cbn [orb negb].
    rewrite new_blocks_blanked, (new_blocks_again _ _ old) by done.
    assert (put_blocks FLAC new = Ok (FLAC ++ encode_blocks new)) as ->.
    { apply put_blocks_fits; [change (len FLAC) with 4; lia|done]. }
    f_equal. f_equal. rewrite !len_app, Hpre. lia.
  - destruct (find_new _ _ _ _ Hnew) as [d Hd]. by intros ->.
  - apply Forall_forall. intros b Hb. rewrite Forall_forall in Hkinds, Hlens. unfold wf_block. auto.
Qed.

Lemma slice_skip l i j k : 0 <= i <= j -> j <= k -> k <= len l -> drop (Z.to_nat (j - i)) (slice l i k) = slice l j k.
Proof.
  intros Hi Hj Hk. rewrite <- (slice_app l i j k) by lia. apply drop_app_length'.
  pose proof (len_slice l i j). unfold len in *. lia.
Qed.

#[local] Opaque CHUNK.
Lemma wp_same_as_source fuel expected s :
  0 <= position s -> position s + len expected <= len content ->
  slice content (position s) (position s + len expected) = expected ->
  wp (same_as_source fuel expected) (fun same s' => same = true /\ written s' = written s) (fun _ _ => ~ calm) s.
Proof.
  revert expected s. induction fuel as [|fuel IH]; intros expected s Hp Hin Hs; cbn [same_as_source]; [by apply wp_ret|].
  destruct expected as [|x expected'] eqn:E; [by apply wp_ret|]. rewrite <- E in *. clear x expected' E.
  assert (len expected = len (take CHUNK expected) + len (drop CHUNK expected)) as Hsum.
  { rewrite <- (take_drop CHUNK expected) at 1. apply len_app. }
  pose proof (len_nonneg (take CHUNK expected)). pose proof (len_nonneg (drop CHUNK expected)).
  remember (position s) as here eqn:Hhere. remember (here + len (take CHUNK expected)) as there eqn:Hthere.
  assert (slice content here there ++ slice content there (here + len expected) = expected) as Hsplit.
  { rewrite slice_app; [done|lia|lia]. }
  assert (slice content here there = take CHUNK expected /\ slice content there (here + len expected) = drop CHUNK expected)
    as [Hfirst Hrest].
  { apply app_inj_1; [|by rewrite Hsplit, take_drop]. pose proof (len_slice content here there). unfold len in *. lia. }
  apply wp_bind, wp_bytes_of; rewrite <- ?Hhere; [done|done| |].
  - intros s1 Hp1 Hw1 _. rewrite <- Hthere, Hfirst, bool_decide_eq_true_2 by done. eapply wp_mono; [apply IH; [lia|lia|]| |done].
    + rewrite Hp1. etransitivity; [|exact Hrest]. f_equal; lia.
    + cbv beta. intros same s2 [-> Hw2]. split; [done|congruence].
  - intros e s1 Hc _ Hcalm. specialize (Hc Hcalm). lia.
Qed.

Lemma wp_rewrite_audio fields cover s :
  let given := artist_mode_fields fields in
  wp (rewrite_audio_tags fields cover)
    (fun _ s' => exists section, flac_edit given (not_empty cover) None content = Some section /\
       written s' = written s ++ edited_file content section)
    (fun _ s' => calm -> written s' = written s) s.
Proof.
  cbv zeta. set (given := artist_mode_fields fields).
  unfold rewrite_audio_tags. apply wp_bind, wp_check; [|by intros e s1 Hc _ Hcalm]. intros s1 Hp1 Hw1.
  apply wp_bind, wp_validate; [|done]. apply wp_bind, wp_seek; [|by intros e s2 Hc _ Hcalm]. intros s2 Hp2 Hw2.
  apply wp_bind. eapply wp_mono; [by apply wp_flac_header| |].
  - intros section s3 [He Hw3]. eapply wp_mono; [by eapply wp_write_section| |by intros e s4 Hc Hcalm].
    intros x s4 Hw4. exists section. split; [done|congruence].
  - intros e s3 [Hw3 _] _. congruence.
Qed.

Definition too_long (fields : Fields) : bool :=
  MAX_TAG_BYTES <? foldr (fun e n => len (chars e.1) + len (chars e.2) + n) 0 (btree_iter fields).

(** A file that has what the edit would give it is left alone. *)
Lemma wp_unchanged fields cover section s :
  too_long fields = false ->
  flac_edit (artist_mode_fields fields) (not_empty cover) None content = Some section ->
  0 <= start section -> finish section = start section + len (data section) -> finish section <= len content ->
  slice content (start section) (finish section) = data section ->
  wp (rewrite_flac_tags_if_changed fields cover) (fun changed s' => changed = false /\ written s' = written s)
    (fun _ _ => ~ calm) s.
Proof.
  intros Hfields He Hs Hf Hin Hsame. unfold rewrite_flac_tags_if_changed.
  apply wp_bind, wp_check; [|done]. intros s1 Hp1 Hw1. apply wp_bind. unfold validate_fields, too_long in *. rewrite Hfields.
  apply wp_ret, wp_bind, wp_seek; [|done]. intros s2 Hp2 Hw2. apply wp_bind. eapply wp_mono; [by apply wp_flac_header| |].
  2: { intros e s3 [_ Hc] Hcalm. specialize (Hc Hcalm). congruence. }
  intros section' s3 [He' Hw3]. rewrite He in He'. injection He' as <-.
  rewrite (proj2 (Z.eqb_eq (len (data section)) _)) by lia. apply wp_bind, wp_bind, wp_seek; [|done]. intros s4 Hp4 Hw4.
  apply wp_bind. eapply wp_mono; [apply wp_same_as_source; rewrite ?Hp4; try done; try lia; by rewrite <- Hf| |done].
  intros same s5 [-> Hw5]. apply wp_bind, wp_check; [|done]. intros s6 Hp6 Hw6. apply wp_ret, wp_ret. split; [done|congruence].
Qed.

(** C7: Editing the tags of a FLAC file keeps everything else.  An edit that succeeds writes the file
    with its prefix and its audio byte for byte, and blocks that differ from the old ones only as
    asked: the vendor stays, the comments are the edited ones, every other block, and every picture
    unless there is a new cover, is kept in its order.  One that fails, when nothing outside failed,
    has written nothing. *)
Theorem rewrite_keeps_audio fields cover s :
  let given := artist_mode_fields fields in
  match rewrite_audio_tags fields cover s with
  | (Ok _, s') => exists prefix old new audio vendor comments,
      content = prefix ++ FLAC ++ encode_blocks old ++ audio /\
      written s' = written s ++ prefix ++ FLAC ++ encode_blocks new ++ audio /\
      synced (take 2 audio) = true /\
      tags_of old = Ok (vendor, comments) /\ tags_of new = Ok (vendor, edit_comments comments given) /\
      List.filter (untouched (not_empty cover)) new = List.filter (untouched (not_empty cover)) old
  | (Err _, s') => calm -> written s' = written s
  end.
Proof.
  cbv zeta. set (given := artist_mode_fields fields).
  pose proof (wp_rewrite_audio fields cover s) as Hwp. cbv zeta in Hwp. fold given in Hwp.
  unfold wp in Hwp. destruct (rewrite_audio_tags fields cover s) as [[[]|e] s']; [|done].
  destruct Hwp as (section & He & Hw). destruct (flac_edit_spec _ _ _ _ _ content_bytes He) as (old & new & audio & Hedit).
  destruct Hedit as [Hsource _ [Hdrop _] [_ Hsync] _ Hnew Hdata [_ Hlens] _ _].
  destruct (new_blocks_tags _ _ _ _ _ Hnew Hlens) as (vendor & comments & Hold & Htags & Hkept).
  exists (take (Z.to_nat (start section)) content), old, new, audio, vendor, comments. split_conj; try done.
  rewrite Hw. unfold edited_file. by rewrite Hdata, Hdrop, <- !app_assoc.
Qed.
End header.

Section twice.
Context `{Unicode} `{Splits} `{Images}.

(** Editing twice is editing once.  A second edit with the same fields and cover, of the file the
    first one wrote, finds nothing to change: it reports so, writes nothing, and fails only if
    something outside does.  (There must be room for the two blocks an edit can add.) *)
Theorem edit_twice (before after : Source) fields cover s s' t :
  @rewrite_audio_tags before _ _ _ fields cover (mkIo s 0 []) = (Ok tt, s') ->
  @content after = written s' ->
  Z.of_nat (block_count (@content before)) + 2 <= 65536 ->
  match @rewrite_flac_tags_if_changed after _ _ _ fields cover t with
  | (Ok changed, t') => changed = false /\ written t' = written t
  | (Err _, _) => ~ @calm after
  end.
Proof.
  intros Hrun Hafter Hcount.
  assert (too_long fields = false) as Hfields.
  { destruct (too_long fields) eqn:E; [|done]. exfalso. unfold rewrite_audio_tags, validate_fields, too_long in *. rewrite E in Hrun.
    unfold bind, check, call, throw in Hrun. unfold bind, ret in Hrun. cbn [tick] in Hrun. by destruct (check_at s). }
  pose proof (@wp_rewrite_audio before _ _ _ fields cover (mkIo s 0 [])) as Hw. cbv zeta in Hw. unfold wp in Hw.
  rewrite Hrun in Hw. destruct Hw as (section & He & Hw). cbn [written app] in Hw.
  pose proof (@content_bytes before) as Hbytes.
  destruct (flac_edit_spec _ _ _ _ _ Hbytes He) as (old & new & audio & Hedit).
  assert (length new <= MAX_BLOCKS)%nat as Hnew.
  { unfold block_count in Hcount. rewrite (edit_offset _ _ _ _ _ _ _ _ Hedit) in Hcount.
    rewrite (edit_parsed _ _ _ _ _ _ _ _ Hedit) in Hcount.
    destruct (new_blocks_shape _ _ _ _ _ (edit_new _ _ _ _ _ _ _ _ Hedit) (proj2 (edit_old _ _ _ _ _ _ _ _ Hedit))) as [_ Hl].
    unfold MAX_BLOCKS. lia. }
  pose proof (flac_edit_again _ _ _ _ _ _ _ Hbytes Hedit Hnew) as Hagain. rewrite <- Hw, <- Hafter in Hagain.
  pose proof (edit_start _ _ _ _ _ _ _ _ Hedit) as Hstart.
  assert (length (take (Z.to_nat (start section)) (@content before)) = Z.to_nat (start section)) as Hprefix.
  { rewrite length_take. unfold len in Hstart. lia. }
  assert (len (@content after) = start section + len (data section) + len (drop (Z.to_nat (finish section)) (@content before))) as Hlen.
  { rewrite Hafter, Hw. unfold edited_file. rewrite !len_app. unfold len in *. lia. }
  pose proof (len_nonneg (drop (Z.to_nat (finish section)) (@content before))).
  pose proof (@wp_unchanged after _ _ _ fields cover _ t Hfields Hagain) as Hwp. cbn [start finish data] in Hwp.
  unfold wp in Hwp. destruct (rewrite_flac_tags_if_changed fields cover t) as [[changed|e] t']; apply Hwp; try done; try lia;
    unfold slice; replace (start section + len (data section) - start section) with (len (data section)) by lia;
    rewrite Hafter, Hw; unfold edited_file; rewrite drop_app_length' by done; apply take_app_length'; unfold len; lia.
Qed.
End twice.

(** ** An example *)

Module FlacExample.
#[refine] Instance ascii_unicode : Unicode := {
  to_uppercase c := [if in_range 97 122 c then c - 32 else c];
  to_lowercase c := [if in_range 65 90 c then c + 32 else c] }.
Proof. all: done. Defined.
Instance no_splits : Splits := { split_credits s := [s]; split_primary s := [s]; split_list s := [s] }.
Instance no_images : Images :=
  { Image := unit; guess_error _ := None; decode_image _ := None; encode_jpeg _ _ := None; resized_jpeg _ _ := None; dimensions _ := None }.

(** A file that reads at most three bytes at a time. *)
Definition file_of (l : bytes) (Hl : Forall byte_ok l) : Source :=
  Build_Source l Hl (fun _ => Ok tt) (fun _ => Ok 3%nat) (fun _ => None) (fun _ => None) (fun _ => 0%nat).

Definition song : bytes := FLAC ++ encode_blocks [(0, [1; 2])] ++ [255; 248; 9].
Definition song_edited : bytes :=
  FLAC ++ encode_blocks [(0, [1; 2]); (4, put_comments VENDOR [comment "TITLE" "Song"])] ++ [255; 248; 9].

Lemma song_bytes : Forall byte_ok song.
Proof. repeat constructor; done. Qed.
Lemma song_edited_bytes : Forall byte_ok song_edited.
Proof. vm_compute. repeat constructor; done. Qed.

Definition title : Fields := {["title" := "Song"]}%string.

Lemma edit_twice_witness :
  @written (@rewrite_audio_tags (file_of song song_bytes) _ _ _ title None (mkIo 0 0 [])).2 = song_edited /\
  match @rewrite_flac_tags_if_changed (file_of song_edited song_edited_bytes) _ _ _ title None (mkIo 0 0 []) with
  | (Ok changed, t') => changed = false /\ written t' = []
  | (Err _, _) => ~ @calm (file_of song_edited song_edited_bytes)
  end.
Proof.
  split; [vm_compute; reflexivity|].
  eapply (edit_twice (file_of song song_bytes) (file_of song_edited song_edited_bytes) title None 0 _ (mkIo 0 0 [])).
  - vm_compute. reflexivity.
  - vm_compute. reflexivity.
  - vm_compute. discriminate.
Defined.
End FlacExample.
