(* ===== verification/FloatText.v ===== *)
(** * Floating-point numbers from text: Rust's [str::parse::<f64>]

    The number a text denotes, correctly rounded to the nearest [f64]. *)

From S2P Require Import Prelude Float64 RustText.

(** [m * 10 ^ e], or its opposite, rounded to nearest even. *)
Definition f64_decimal (negative : bool) (m e : Z) : f64 :=
  if m =? 0 then S754_zero negative
  else if 0 <=? e then binary_normalize 53 1024 (cond_Zopp negative (m * 10 ^ e)) 0 negative
  else let '(q, e', loc) := SFdiv_core_binary 53 1024 m 0 (10 ^ (- e)) 0 in binary_round_aux 53 1024 negative q e' loc.

Definition is_char (n : nat) (a : ascii) : bool := Ascii.eqb a (ascii_of_nat n).

(** A sign, if there is one. *)
Definition take_sign (l : list ascii) : bool * list ascii :=
  match l with
  | a :: l' => if is_char 45 a then (true, l') else if is_char 43 a then (false, l') else (false, l)
  | [] => (false, l)
  end.

(** Leading digits: the number they continue, how many there are, and what follows. *)
Fixpoint take_digits (acc n : Z) (l : list ascii) : Z * Z * list ascii :=
  match l with
  | a :: l' => match digit_value a with Some d => take_digits (10 * acc + d) (n + 1) l' | None => (acc, n, l) end
  | [] => (acc, n, l)
  end.

(** The digits of an exponent; beyond 65536 no more of them count. *)
Fixpoint exponent_digits (acc : Z) (l : list ascii) : option Z :=
  match l with
  | [] => Some acc
  | a :: l => match digit_value a with
              | Some d => exponent_digits (if acc <? 65536 then 10 * acc + d else acc) l
              | None => None
              end
  end.

Definition parse_exponent (l : list ascii) : option Z :=
  match l with
  | [] => Some 0
  | a :: l =>
    if is_char 101 a || is_char 69 a then
      let '(negative, l) := take_sign l in
      match l with [] => None | _ => (fun e => if negative then - e else e) <$> exponent_digits 0 l end
    else None
  end.

Definition parse_f64 (s : string) : option f64 :=
  let '(negative, l) := take_sign (chars s) in
  let '(whole, n, rest) := take_digits 0 0 l in
  let '(m, k, rest) := match rest with
                       | a :: rest' => if is_char 46 a then take_digits whole 0 rest' else (whole, 0, rest)
                       | [] => (whole, 0, rest)
                       end in
  match (if n + k =? 0 then None else parse_exponent rest) with
  | Some e => Some (f64_decimal negative m (e - k))
  | None =>
    let word := unchars l in
    if eq_ignore_ascii_case word "inf" || eq_ignore_ascii_case word "infinity" then Some (S754_infinity negative)
    else if eq_ignore_ascii_case word "nan" then Some S754_nan
    else None
  end.

Example parse_f64_ex : map parse_f64 ["-1.5"; ".25"; "1e2"; "+3."; "e5"; "."; "-inf"; "1.5x"; ""]%string =
  [Some (f64_ratio (-3) 2); Some (f64_ratio 1 4); Some (f64_of 100); Some (f64_of 3); None; None;
   Some (S754_infinity true); None; None].
Proof. reflexivity. Qed.
Example parse_f64_tenth : parse_f64 "0.1" = Some (f64_ratio 1 10).
Proof. reflexivity. Qed.
