(* ===== verification/Ogg.v ===== *)
(** * Editing the tags of Ogg files: [crates/core/src/tags/write/ogg.rs] and [tags/containers.rs]

    An Ogg file is a sequence of pages, each a header of 27 bytes, the lengths of its segments and
    their data; a packet is cut into segments of 255 bytes, the last of them shorter, and may go on
    over pages.  Opus and Vorbis begin with two or three header packets, the second of which holds
    the comments.  An edit writes the first page, new pages for the header packets, and the audio
    pages, renumbered if the header takes another number of pages.  Base64 is the parameter
    [base64]. *)

From S2P Require Import Prelude Monads Float64 RustText FloatText UnicodeText Matching TagIo VorbisComments FlacTags.

Record OggPage := mkPage { header : bytes; segments : bytes; page_data : bytes }.

Definition page_len (p : OggPage) : Z := 27 + len (segments p) + len (page_data p).

(** [l[i..].copy_from_slice(new)]. *)
Definition splice (i : nat) (new l : bytes) : bytes := take i l ++ new ++ drop (i + length new) l.

Definition serial_of (p : OggPage) : bytes := take 4 (drop 14 (header p)).

(** ** The checksum *)

Definition POLYNOMIAL : Z := 79764919.

(** One bit of the division, in 32 bits. *)
Definition crc_bit (value : Z) : Z :=
  Z.lxor (wrap_u 32 (Z.shiftl value 1)) (if Z.land value (2 ^ 31) =? 0 then 0 else POLYNOMIAL).

Definition CRC : list Z := map (fun index => Nat.iter 8 crc_bit (Z.shiftl (Z.of_nat index) 24)) (seq 0 256).

Definition crc_byte (crc byte : Z) : Z :=
  Z.lxor (wrap_u 32 (Z.shiftl crc 8)) (nth (Z.to_nat (Z.lxor (Z.shiftr crc 24) byte)) CRC 0).

Definition crc (l : bytes) : Z := fold_left crc_byte l 0.

(** The bytes of a page with its checksum. *)
Definition seal (p : OggPage) : bytes :=
  let l := splice 26 [len (segments p) mod 256] (splice 22 [0; 0; 0; 0] (header p)) ++ segments p ++ page_data p in
  splice 22 (le_bytes 4 (crc l)) l.

Definition numbered (sequence : Z) (p : OggPage) : OggPage :=
  mkPage (splice 18 (le_bytes 4 sequence) (header p)) (segments p) (page_data p).

(** ** Comments of Opus *)

Section ogg.
Context `{Source} `{Unicode} `{Splits} `{Images}.
Variable base64 : bytes -> string.

Abbreviation P := (St Io string).

Definition scopes : list (string * string) := [("track", "TRACK"); ("album", "ALBUM")]%string.

Definition strip_suffix (s suffix : string) : option string :=
  (fun l => unchars (rev l)) <$> strip_list (rev (chars suffix)) (rev (chars s)).

Definition gain_value (scope raw : string) : result string string :=
  if is_empty raw then Ok ""%string
  else
    let failed := Err ("invalid Opus " ++ scope ++ " ReplayGain: " ++ debug raw)%string in
    match parse_f64 (trim (default raw (strip_suffix raw "dB"))) with
    | Some db =>
      let q := f64_round (f64_mul (f64_sub db (f64_of 5)) (f64_of 256)) in
      if is_finite q && (f64_le (f64_of (-32768)) q && f64_le q (f64_of 32767)) then Ok (signed_decimal (as_i32 q)) else failed
    | None => failed
    end.

Definition gain_scope (fields : Fields) (comments : list bytes) (entry : string * string) : result (list bytes) string :=
  let '(scope, upper) := entry in
  match fields !! ("replaygain_" ++ scope ++ "_gain")%string with
  | None => Ok comments
  | Some raw =>
    let? value := gain_value scope (trim raw) in
    let comments := set_comment comments ("R128_" ++ upper ++ "_GAIN") value in
    let comments := set_comment comments ("REPLAYGAIN_" ++ upper ++ "_GAIN") "" in
    Ok (set_comment comments ("REPLAYGAIN_" ++ upper ++ "_PEAK") "")
  end.

Definition opus_gain (comments : list bytes) (fields : Fields) : result (list bytes) string :=
  fold_left (fun r entry => let? comments := r in gain_scope fields comments entry) scopes (Ok comments).

(** ** Pages *)

(** The bytes of a header: [None] at the end of the file. *)
Fixpoint header_bytes (fuel : nat) (acc : bytes) : P (option bytes) :=
  match fuel with
  | O => ret (Some acc)
  | S fuel =>
    if 27 <=? len acc then ret (Some acc)
    else
      do b <- read (27 - len acc);
      match b with
      | [] => match acc with [] => ret None | _ => throw "unexpected EOF"%string end
      | _ => header_bytes fuel (acc ++ b)
      end
  end.

(** [OggPage::read]. *)
Definition page_read : P (option OggPage) :=
  do h <- header_bytes 27 [];
  match h with
  | None => ret None
  | Some h =>
    if bool_decide (take 4 h = str_bytes "OggS") then
      do segments <- bytes_of (byte_at h 26);
      do data <- bytes_of (foldr Z.add 0 segments);
      ret (Some (mkPage h segments data))
    else throw "not an Ogg page"%string
  end.

Definition read_page : P (option OggPage) :=
  do page <- page_read;
  match page with
  | Some p => if byte_at (header p) 4 =? 0 then ret page else throw "invalid ogg page"%string
  | None => ret None
  end.

Definition write_page (p : OggPage) : P unit := check;; write_all (seal p).

(** ** The header packets *)

(** The packets the segments of a page complete, up to [count] of them; the last of these must end
    the page. *)
Fixpoint page_packets (count : nat) (segments data : bytes) (packets : list bytes) (current : bytes)
  : result (list bytes * bytes) string :=
  match segments with
  | [] => Ok (packets, current)
  | n :: segments =>
    let current := current ++ take (Z.to_nat n) data in
    let data := drop (Z.to_nat n) data in
    if n <? 255 then
      let packets := packets ++ [current] in
      if (length packets =? count)%nat then
        match segments with [] => Ok (packets, []) | _ => Err "header packet shares a page with audio"%string end
      else page_packets count segments data packets []
    else page_packets count segments data packets current
  end.

Definition need_page (message : string) : P OggPage :=
  do page <- read_page;
  match page with Some p => ret p | None => throw message end.

Definition raise {A} (r : result A string) : P A := match r with Ok a => ret a | Err e => throw e end.

(** The pages of the header from [page] on; [fuel] more pages are permitted. *)
Fixpoint header_pages (fuel : nat) (count : nat) (serial : bytes) (page : OggPage) (bytes_read pages : Z)
  (packets : list bytes) (current : bytes) : P (list bytes * Z * Z) :=
  check;;
  let pages := pages + 1 in
  let bytes_read := bytes_read + page_len page in
  if MAX_TAG_BYTES <? bytes_read then throw "Ogg headers exceed 64 MiB"%string
  else if negb (bool_decide (serial_of page = serial)) then throw "multiplexed ogg streams are not supported"%string
  else
    do r <- raise (page_packets count (segments page) (page_data page) packets current);
    let '(packets, current) := r in
    if (length packets =? count)%nat then ret (packets, bytes_read, pages)
    else
      match fuel with
      | O => throw "ogg header spans too many pages"%string
      | S fuel =>
        do page <- need_page "incomplete ogg header packets";
        header_pages fuel count serial page bytes_read pages packets current
      end.

(** *** Writing them *)

Definition empty_page (serial : bytes) : OggPage :=
  mkPage (splice 14 serial (splice 0 (str_bytes "OggS") (repeat 0 27))) [] [].

(** The segments of a packet; a full page is written, and the next one says whether it continues. *)
Fixpoint write_packet (fuel : nat) (rest : bytes) (page : OggPage) (sequence : Z) : P (OggPage * Z) :=
  match fuel with
  | O => ret (page, sequence)
  | S fuel =>
    let count := Z.min (len rest) 255 in
    let page := mkPage (header page) (segments page ++ [count]) (page_data page ++ take (Z.to_nat count) rest) in
    let rest := drop (Z.to_nat count) rest in
    do r <- (if len (segments page) =? 255 then
               let page := numbered sequence page in
               write_page page;;
               ret (mkPage (splice 5 [if count =? 255 then 1 else 0] (header page)) [] [], wrap_u 32 (sequence + 1))
             else ret (page, sequence));
    if count <? 255 then ret r else write_packet fuel rest r.1 r.2
  end.

Fixpoint write_packets (packets : list bytes) (page : OggPage) (sequence : Z) : P Z :=
  match packets with
  | [] =>
    match segments page with
    | [] => ret sequence
    | _ => write_page (numbered sequence page);; ret (wrap_u 32 (sequence + 1))
    end
  | packet :: packets =>
    do r <- write_packet (S (length packet)) packet page sequence;
    write_packets packets r.1 r.2
  end.

Definition write_headers (packets : list bytes) (serial : bytes) : P Z := write_packets packets (empty_page serial) 1.

(** ** The whole file *)

Fixpoint renumber_pages (fuel : nat) (serial : bytes) (sequence : Z) : P unit :=
  match fuel with
  | O => throw "out of fuel"%string
  | S fuel =>
    do page <- read_page;
    match page with
    | None => check
    | Some page =>
      check;;
      if negb (bool_decide (serial_of page = serial)) then throw "multiplexed ogg streams are not supported"%string
      else (write_page (numbered sequence page);; renumber_pages fuel serial (wrap_u 32 (sequence + 1)))
    end
  end.

Definition strip_prefix (p l : bytes) : option bytes := if begins p l then Some (drop (length p) l) else None.

(** The comments after the edit, but for the cover. *)
Definition ogg_comments (opus : bool) (fields : Fields) (comments : list bytes) : result (list bytes) string :=
  let comments := edit_comments comments fields in
  if opus then opus_gain comments fields else Ok comments.

Definition comment_packet (opus : bool) (vendor : bytes) (comments : list bytes) : bytes :=
  (if opus then str_bytes "OpusTags" else 3 :: str_bytes "vorbis") ++ put_comments vendor comments ++ if opus then [] else [1].

(** The new comment packet. *)
Definition edit_packet (opus : bool) (fields : Fields) (cover : option bytes) (packet : bytes) : P bytes :=
  match strip_prefix (if opus then str_bytes "OpusTags" else 3 :: str_bytes "vorbis") packet with
  | None => throw "comment header not found"%string
  | Some body =>
    do parsed <- raise (parse_comments body);
    let '(vendor, comments) := parsed in
    do comments <- raise (ogg_comments opus fields comments);
    do comments <- match cover with
                   | None => ret comments
                   | Some cover =>
                     do p <- picture cover;
                     ret match p with
                         | Some p => set_comment comments "METADATA_BLOCK_PICTURE" (base64 p)
                         | None => comments
                         end
                   end;
    let packet := comment_packet opus vendor comments in
    if MAX_TAG_BYTES <? len packet then throw "Ogg comments exceed 64 MiB"%string else ret packet
  end.

Definition MAX_PAGES : nat := Z.to_nat 1023.

Definition codec (data : bytes) : option (bool * nat) :=
  if begins (str_bytes "OpusHead") data then Some (true, 2%nat)
  else if begins (1 :: str_bytes "vorbis") data then Some (false, 3%nat)
  else None.

Definition rewrite_ogg (fields : Fields) (cover : option bytes) : P unit :=
  do first <- need_page "ogg stream too short";
  match codec (page_data first) with
  | None => throw "unsupported ogg codec"%string
  | Some (opus, count) =>
    let serial := serial_of first in
    do r <- header_pages MAX_PAGES count serial first 0 0 [] [];
    let '(packets, bytes_read, pages) := r in
    do comment <- edit_packet opus fields cover (nth 1 packets []);
    let packets := <[1%nat := comment]> packets in
    write_page first;;
    do next_sequence <- write_headers (drop 1 packets) serial;
    if next_sequence =? pages then (seek bytes_read;; copy None)
    else renumber_pages (S (length content)) serial next_sequence
  end.

(** The branch of [rewrite_audio_tags] for Ogg files. *)
Definition rewrite_ogg_tags (fields : Fields) (cover : option bytes) : P unit :=
  check;;
  validate_fields fields;;
  let fields := artist_mode_fields fields in
  seek 0;;
  rewrite_ogg fields (not_empty cover).
End ogg.
