(* ===== verification/OggPages.v ===== *)
(** * Ogg pages and packets: what a sequence of pages carries

    Packets are cut into segments and put together again; a page that is written reads back, with its
    number and the right checksum.  [pages_of] lays segments out on pages as [write_headers] does. *)

From S2P Require Import Prelude Float64 RustText Monads UnicodeText Matching TagIo VorbisComments FlacTags FlacHeader FlacTagsSpec FloatText Ogg.

(** ** Pages as bytes *)

Definition page_raw (p : OggPage) : bytes := header p ++ segments p ++ page_data p.
Definition sequence_of (p : OggPage) : Z := from_le (take 4 (drop 18 (header p))).
Definition continued (p : OggPage) : bool := negb (byte_at (header p) 5 =? 0).

Record wf_page (p : OggPage) : Prop := {
  wf_header : length (header p) = 27%nat /\ Forall byte_ok (header p) /\ take 4 (header p) = str_bytes "OggS" /\ byte_at (header p) 4 = 0;
  wf_segments : len (segments p) = byte_at (header p) 26 /\ Forall byte_ok (segments p);
  wf_data : len (page_data p) = foldr Z.add 0 (segments p) }.

(** The checksum is that of the page with zeros in its place. *)
Definition checksum_ok (p : OggPage) : Prop :=
  take 4 (drop 22 (header p)) = le_bytes 4 (crc (splice 22 [0; 0; 0; 0] (page_raw p))).

(** Equal but for the sequence number and the checksum. *)
Definition same_page (p q : OggPage) : Prop :=
  segments p = segments q /\ page_data p = page_data q /\
  take 18 (header p) = take 18 (header q) /\ drop 26 (header p) = drop 26 (header q).

(** A page as it is written. *)
Definition sealed (p : OggPage) : OggPage :=
  mkPage (take 22 (header p) ++
          le_bytes 4 (crc ((take 22 (header p) ++ [0; 0; 0; 0; len (segments p) mod 256]) ++ segments p ++ page_data p)) ++
          [len (segments p) mod 256]) (segments p) (page_data p).

Ltac header_cases h :=
  do 27 (destruct h as [|? h]; [done|]); destruct h; [|done].

Lemma seal_sealed p : length (header p) = 27%nat -> seal p = page_raw (sealed p).
Proof.
  destruct p as [h segs d]. unfold seal, sealed, page_raw. cbn [header segments page_data]. intros Hl.
  generalize crc. intros f. header_cases h. reflexivity.
Qed.

Lemma le_bytes_four z : exists a b c d, le_bytes 4 z = [a; b; c; d].
Proof. cbn [le_bytes]. eauto. Qed.

Lemma sealed_header p : length (header p) = 27%nat -> exists c, le_bytes 4 c = take 4 (drop 22 (header (sealed p))) /\
  header (sealed p) = take 22 (header p) ++ le_bytes 4 c ++ [len (segments p) mod 256].
Proof.
  destruct p as [h segs d]. intros Hl. unfold sealed. cbn [header segments page_data] in *. eexists. split; [|reflexivity].
  generalize (crc ((take 22 h ++ [0; 0; 0; 0; len segs mod 256]) ++ segs ++ d)). intros z.
  destruct (le_bytes_four z) as (a & b & c & e & ->). header_cases h. reflexivity.
Qed.

Lemma sealed_checksum p : length (header p) = 27%nat -> checksum_ok (sealed p).
Proof.
  destruct p as [h segs d]. unfold checksum_ok, sealed, page_raw. cbn [header segments page_data]. intros Hl.
  generalize crc. intros f. destruct (le_bytes_four (f ((take 22 h ++ [0; 0; 0; 0; len segs mod 256]) ++ segs ++ d))) as (a & b & c & e & E).
  rewrite E. rewrite <- E. clear E. header_cases h. reflexivity.
Qed.

Lemma numbered_length seq p : length (header p) = 27%nat -> length (header (numbered seq p)) = 27%nat.
Proof.
  destruct p as [h segs d]. unfold numbered. cbn [header]. intros Hl. destruct (le_bytes_four seq) as (a & b & c & e & ->).
  header_cases h. reflexivity.
Qed.

Lemma Forall_splice i new l : Forall byte_ok new -> Forall byte_ok l -> Forall byte_ok (splice i new l).
Proof. intros Hn Hl. unfold splice. rewrite !Forall_app. split_conj; [by apply Forall_take|done|by apply Forall_drop]. Qed.

Lemma sealed_bytes p : length (header p) = 27%nat -> Forall byte_ok (header p) -> Forall byte_ok (header (sealed p)).
Proof.
  intros Hl Hb. destruct (sealed_header p Hl) as (z & _ & ->). rewrite !Forall_app. split_conj; [by apply Forall_take|apply le_bytes_ok|].
  constructor; [|done]. unfold byte_ok. apply Z.mod_pos_bound. lia.
Qed.

(** What a page needs to be written. *)
Record sound_page (p : OggPage) : Prop := {
  sound_header : length (header p) = 27%nat /\ Forall byte_ok (header p) /\ take 4 (header p) = str_bytes "OggS" /\ byte_at (header p) 4 = 0;
  sound_segments : len (segments p) <= 255 /\ Forall byte_ok (segments p);
  sound_data : len (page_data p) = foldr Z.add 0 (segments p) }.

Lemma byte_at_ok l i : Forall byte_ok l -> (i < length l)%nat -> byte_ok (byte_at l i).
Proof. intros Hl Hi. rewrite List.Forall_forall in Hl. apply Hl, nth_In, Hi. Qed.

Lemma wf_sound p : wf_page p -> sound_page p.
Proof.
  intros [(Hl & Hb & Hm & Hv) [Hn Hs] Hd]. split; [done| |done]. split; [|done].
  rewrite Hn. pose proof (byte_at_ok (header p) 26 Hb ltac:(lia)) as H. unfold byte_ok in H. lia.
Qed.

(** A page as [write_page] leaves it, with the number [seq]. *)
Lemma sealed_numbered p seq :
  sound_page p ->
  let q := sealed (numbered seq p) in
  wf_page q /\ checksum_ok q /\ sequence_of q = seq mod 2 ^ 32 /\ serial_of q = serial_of p /\ continued q = continued p.
Proof.
  intros [(Hl & Hb & Hm & Hv) [Hn Hs] Hd] q. pose proof (len_nonneg (segments p)) as H0.
  destruct (sealed_header (numbered seq p) (numbered_length seq p Hl)) as (z & _ & E).
  assert (checksum_ok q) as Hc by (by apply sealed_checksum, numbered_length).
  assert (Forall byte_ok (header q)) as Hq0.
  { apply sealed_bytes; [by apply numbered_length|]. apply Forall_splice; [apply le_bytes_ok|done]. }
  assert (sequence_of q = from_le (le_bytes 4 seq) /\ serial_of q = serial_of p /\ continued q = continued p /\
    length (header q) = 27%nat /\ take 4 (header q) = take 4 (header p) /\ byte_at (header q) 4 = byte_at (header p) 4 /\
    byte_at (header q) 26 = len (segments p) mod 256) as (Hseq & Hser & Hcont & Hq1 & Hq2 & Hq3 & Hq4).
  { unfold sequence_of, serial_of, continued. fold q in E. rewrite E. unfold numbered. cbn [header segments].
    destruct (le_bytes_four z) as (a & b & c & e & ->). destruct (le_bytes_four seq) as (a' & b' & c' & e' & ->).
    generalize (len (segments p) mod 256). intros n. destruct p as [h segs d]. cbn [header] in *. clear Hm Hv E Hc Hb Hq0.
    header_cases h. split_conj; reflexivity. }
  split_conj; try done.
  - split; [split_conj; congruence| |exact Hd]. split; [|exact Hs]. change (segments q) with (segments p). rewrite Hq4, Z.mod_small; lia.
  - by rewrite Hseq, from_le_le_bytes.
Qed.

Lemma same_numbered p seq : wf_page p -> same_page p (sealed (numbered seq p)).
Proof.
  intros Hw. destruct (wf_sound p Hw) as [_ [Hn _] _]. destruct Hw as [(Hl & _) [Hsegs _] _]. unfold same_page.
  destruct (sealed_header (numbered seq p) (numbered_length seq p Hl)) as (z & _ & E). rewrite E. clear E.
  change (segments (numbered seq p)) with (segments p). pose proof (len_nonneg (segments p)).
  rewrite Z.mod_small, Hsegs by lia. unfold numbered. cbn [header]. destruct (le_bytes_four z) as (a & b & c & e & ->).
  destruct (le_bytes_four seq) as (a' & b' & c' & e' & ->). destruct p as [h segs d]. cbn [header segments] in *.
  clear Hn Hsegs. header_cases h. split_conj; reflexivity.
Qed.

Lemma numbered_own p : length (header p) = 27%nat -> Forall byte_ok (header p) -> numbered (sequence_of p) p = p.
Proof.
  destruct p as [h segs d]. unfold numbered, sequence_of. cbn [header segments page_data]. intros Hl Hb.
  assert (le_bytes 4 (from_le (take 4 (drop 18 h))) = take 4 (drop 18 h)) as ->.
  { rewrite <- (le_bytes_from_le (take 4 (drop 18 h))) at 2 by (by apply Forall_take, Forall_drop).
    rewrite length_take, length_drop, Hl. done. }
  f_equal. clear Hb. header_cases h. reflexivity.
Qed.

Lemma sealed_own p :
  wf_page p -> let q := sealed p in
  wf_page q /\ checksum_ok q /\ same_page p q /\ sequence_of q = sequence_of p /\ serial_of q = serial_of p.
Proof.
  intros Hw q. pose proof Hw as [(Hl & Hb & _) _ _]. assert (q = sealed (numbered (sequence_of p) p)) as E by (by rewrite numbered_own).
  destruct (sealed_numbered p (sequence_of p) (wf_sound p Hw)) as (Hq & Hc & Hs & Hser & _). rewrite <- E in *.
  split_conj; try done; [rewrite E; by apply same_numbered|].
  rewrite Hs. apply Z.mod_small. unfold sequence_of.
  pose proof (from_le_bound (take 4 (drop 18 (header p))) ltac:(by apply Forall_take, Forall_drop)) as Hr.
  unfold len in Hr. rewrite length_take, length_drop, Hl in Hr. exact Hr.
Qed.

(** ** Reading pages *)

(** The next page of some bytes: [None] if it is malformed. *)
Definition next_page (l : bytes) : option (option (OggPage * bytes)) :=
  match l with
  | [] => Some None
  | _ =>
    if len l <? 27 then None
    else
      let h := take 27 l in
      let l := drop 27 l in
      if bool_decide (take 4 h = str_bytes "OggS") then
        let n := byte_at h 26 in
        if len l <? n then None
        else
          let segs := take (Z.to_nat n) l in
          let l := drop (Z.to_nat n) l in
          let size := foldr Z.add 0 segs in
          if len l <? size then None
          else if byte_at h 4 =? 0 then Some (Some (mkPage h segs (take (Z.to_nat size) l), drop (Z.to_nat size) l))
          else None
      else None
  end.

Lemma sum_nonneg l : Forall byte_ok l -> 0 <= foldr Z.add 0 l.
Proof. induction 1 as [|b l Hb _ IH]; simpl; [done|]. unfold byte_ok in Hb. lia. Qed.

Lemma next_page_sound l p rest :
  Forall byte_ok l -> next_page l = Some (Some (p, rest)) -> l = page_raw p ++ rest /\ wf_page p.
Proof.
  intros Hl. unfold next_page. destruct l as [|b l'] eqn:El; [done|]. rewrite <- El in *. clear b l' El.
  destruct (Z.ltb_spec (len l) 27) as [|H27]; [done|]. case_bool_decide as Hm; [|done].
  set (h := take 27 l) in *. set (l1 := drop 27 l) in *. destruct (Z.ltb_spec (len l1) (byte_at h 26)) as [|Hn]; [done|].
  set (segs := take _ l1) in *. set (l2 := drop _ l1) in *. destruct (Z.ltb_spec (len l2) (foldr Z.add 0 segs)) as [|Hd]; [done|].
  destruct (Z.eqb_spec (byte_at h 4) 0) as [Hv|]; [|done]. intros [= <- <-].
  assert (length h = 27%nat) as Hh by (unfold h, len in *; rewrite length_take; lia).
  assert (Forall byte_ok h) as Hb by (by apply Forall_take).
  assert (Forall byte_ok segs) as Hs by (by apply Forall_take, Forall_drop).
  pose proof (byte_at_ok h 26 Hb ltac:(lia)) as H26. pose proof (sum_nonneg segs Hs). unfold byte_ok in H26. split.
  - unfold page_raw. cbn [header segments page_data]. rewrite <- !app_assoc, take_drop. unfold segs, l2. rewrite take_drop.
    unfold h, l1. by rewrite take_drop.
  - split; cbn [header segments page_data]; [done| |].
    + split; [|done]. unfold segs, len in *. rewrite length_take. lia.
    + unfold len in *. rewrite length_take. lia.
Qed.

Lemma next_page_raw p rest : wf_page p -> next_page (page_raw p ++ rest) = Some (Some (p, rest)).
Proof.
  intros [(Hl & Hb & Hm & Hv) [Hn Hs] Hd]. pose proof (sum_nonneg _ Hs) as Hsum. destruct p as [h segs d].
  cbn [header segments page_data] in *. unfold page_raw. cbn [header segments page_data].
  unfold next_page. destruct ((h ++ segs ++ d) ++ rest) as [|b l'] eqn:El; [by destruct h|]. rewrite <- El. clear b l' El.
  rewrite <- !app_assoc. rewrite take_app_length', drop_app_length' by done.
  rewrite (proj2 (Z.ltb_ge _ 27)) by (rewrite len_app; pose proof (len_nonneg (segs ++ d ++ rest)); unfold len at 1; lia).
  rewrite bool_decide_eq_true_2, <- Hn by done. rewrite (proj2 (Z.ltb_ge _ _)) by (rewrite len_app; pose proof (len_nonneg (d ++ rest)); lia).
  assert (Z.to_nat (len segs) = length segs) as -> by (unfold len; lia). rewrite take_app_length, drop_app_length, <- Hd.
  rewrite (proj2 (Z.ltb_ge _ _)) by (rewrite len_app; pose proof (len_nonneg rest); lia).
  assert (Z.to_nat (len d) = length d) as -> by (unfold len; lia). rewrite take_app_length, drop_app_length.
  by rewrite Hv.
Qed.

(** ** Packets and segments *)

(** Data cut by the lengths of its segments. *)
Fixpoint cut (segs d : bytes) : list bytes :=
  match segs with [] => [] | n :: segs => take (Z.to_nat n) d :: cut segs (drop (Z.to_nat n) d) end.
Definition chunks_of (p : OggPage) : list bytes := cut (segments p) (page_data p).

(** The packets chunks complete, and the beginning of the next. *)
Fixpoint assemble (current : bytes) (chunks : list bytes) : list bytes * bytes :=
  match chunks with
  | [] => ([], current)
  | c :: chunks =>
    if len c <? 255 then let r := assemble [] chunks in ((current ++ c) :: r.1, r.2) else assemble (current ++ c) chunks
  end.

(** The packets of pages that end with the last of them. *)
Definition carry (pages : list OggPage) (packets : list bytes) : Prop :=
  assemble [] (flat_map chunks_of pages) = (packets, []).

Lemma assemble_app current cs ds :
  assemble current (cs ++ ds) =
    ((assemble current cs).1 ++ (assemble (assemble current cs).2 ds).1, (assemble (assemble current cs).2 ds).2).
Proof.
  revert current. induction cs as [|c cs IH]; intros current; [simpl; by destruct (assemble current ds)|].
  cbn [app assemble]. destruct (len c <? 255); [|apply IH]. rewrite IH. done.
Qed.

Lemma page_packets_spec count segs d packets current r :
  Forall byte_ok segs -> foldr Z.add 0 segs <= len d -> (length packets < count)%nat ->
  page_packets count segs d packets current = Ok r ->
  exists added, assemble current (cut segs d) = (added, r.2) /\ r.1 = packets ++ added /\ (length r.1 <= count)%nat /\
    (length r.1 = count -> r.2 = []).
Proof.
  revert d packets current. induction segs as [|n segs IH]; intros d packets current Hs Hd Hp; cbn [page_packets cut assemble].
  { intros [= <-]. exists []. cbn [fst snd]. rewrite app_nil_r. split_conj; [done|done|lia|]. intros Hc. lia. }
  rewrite Forall_cons in Hs. destruct Hs as [Hn Hs]. cbn [foldr] in Hd. unfold byte_ok in Hn. pose proof (sum_nonneg _ Hs).
  assert (len (take (Z.to_nat n) d) = n) as Htake by (unfold len in *; rewrite length_take; lia).
  assert (foldr Z.add 0 segs <= len (drop (Z.to_nat n) d)) as Hd' by (unfold len in *; rewrite length_drop; lia).
  rewrite Htake. destruct (n <? 255).
  - set (packet := current ++ take (Z.to_nat n) d).
    assert (length (packets ++ [packet]) = S (length packets)) as Hlen by (rewrite length_app; simpl; lia).
    destruct (Nat.eqb_spec (length (packets ++ [packet])) count) as [Hc|Hc].
    + destruct segs; [|done]. intros [= <-]. exists [packet]. cbn [assemble cut fst snd]. rewrite Hc. by split_conj.
    + intros Hr. destruct (IH _ (packets ++ [packet]) [] Hs Hd' ltac:(lia) Hr) as (added & Ha & Hr1 & Hle & Hend).
      exists (packet :: added). rewrite Ha, Hr1, <- app_assoc. cbn [fst snd]. rewrite <- app_assoc, <- Hr1 in *. cbn [app] in *.
      split_conj; done.
  - intros Hr. destruct (IH _ _ _ Hs Hd' Hp Hr) as (added & Ha & Hr1). exists added. by rewrite Ha.
Qed.

(** The chunks of a packet: full ones, and a shorter one. *)
Fixpoint lace (fuel : nat) (rest : bytes) : list bytes :=
  match fuel with
  | O => []
  | S fuel => let c := take 255 rest in if len c <? 255 then [c] else c :: lace fuel (drop 255 rest)
  end.
Definition laced (packet : bytes) : list bytes := lace (S (length packet)) packet.

Lemma assemble_lace fuel current rest cs :
  (length rest < fuel)%nat -> assemble current (lace fuel rest ++ cs) = ((current ++ rest) :: (assemble [] cs).1, (assemble [] cs).2).
Proof.
  revert current rest. induction fuel as [|fuel IH]; intros current rest Hf; [lia|]. cbn [lace].
  destruct (Z.ltb_spec (len (take 255 rest)) 255) as [Hc|Hc]; cbn [app assemble].
  - rewrite (proj2 (Z.ltb_lt _ _) Hc). rewrite take_ge; [done|]. unfold len in Hc. rewrite length_take in Hc. lia.
  - rewrite (proj2 (Z.ltb_ge _ _) Hc). rewrite IH, <- app_assoc, take_drop; [done|].
    unfold len in Hc. rewrite length_take in Hc. rewrite length_drop. lia.
Qed.

Lemma assemble_laced packets : assemble [] (flat_map laced packets) = (packets, []).
Proof.
  induction packets as [|p packets IH]; [done|]. cbn [flat_map]. unfold laced at 1. rewrite assemble_lace by lia. by rewrite IH.
Qed.

Lemma lace_small fuel rest : Forall (fun c => len c <= 255) (lace fuel rest).
Proof.
  revert rest. induction fuel as [|fuel IH]; intros rest; cbn [lace]; [constructor|].
  assert (len (take 255 rest) <= 255) by (unfold len; rewrite length_take; lia).
  destruct (_ <? 255); constructor; auto.
Qed.

Lemma cut_concat cs : cut (map len cs) (concat cs) = cs.
Proof.
  induction cs as [|c cs IH]; [done|]. cbn [map concat cut].
  assert (Z.to_nat (len c) = length c) as -> by (unfold len; lia). by rewrite take_app_length, drop_app_length, IH.
Qed.

(** ** Pages of the header *)

Section layout.
Variable serial : bytes.
Hypothesis serial_four : length serial = 4%nat.
Hypothesis serial_bytes : Forall byte_ok serial.

(** The page under construction: the flag and the last number in its header, and its chunks. *)
Definition running (cont : bool) (seq : Z) (chunks : list bytes) : OggPage :=
  mkPage (splice 5 [if cont then 1 else 0] (splice 18 (le_bytes 4 seq) (header (empty_page serial)))) (map len chunks) (concat chunks).

(** Full pages of 255 chunks, and a last one; a page says whether it continues a packet. *)
Fixpoint pages_of (cont : bool) (seq : Z) (page : list bytes) (chunks : list bytes) : list OggPage :=
  match chunks with
  | [] => match page with [] => [] | _ => [running cont seq page] end
  | c :: chunks =>
    let page := page ++ [c] in
    if len page =? 255 then running cont seq page :: pages_of (len c =? 255) (wrap_u 32 (seq + 1)) [] chunks
    else pages_of cont seq page chunks
  end.

Ltac serial_cases :=
  let s := fresh "s" in
  generalize serial serial_four; intros s ?; do 4 (destruct s as [|? s]; [done|]); destruct s; [|done].

Lemma running_empty : empty_page serial = running false 0 [].
Proof. unfold running, empty_page. cbn [header]. serial_cases. reflexivity. Qed.

Lemma numbered_running cont seq0 seq chunks : numbered seq (running cont seq0 chunks) = running cont seq chunks.
Proof.
  unfold running, numbered, empty_page. cbn [header segments page_data]. apply (f_equal (fun h => mkPage h _ _)).
  destruct (le_bytes_four seq) as (a & b & c & e & ->), (le_bytes_four seq0) as (a' & b' & c' & e' & ->).
  serial_cases. reflexivity.
Qed.

Lemma continue_running cont cont' seq chunks :
  mkPage (splice 5 [if cont' : bool then 1 else 0] (header (running cont seq chunks))) [] [] = running cont' seq [].
Proof.
  unfold running, empty_page. cbn [header segments page_data]. apply (f_equal (fun h => mkPage h [] [])).
  destruct (le_bytes_four seq) as (a & b & c & e & ->). serial_cases. reflexivity.
Qed.

Lemma running_header cont seq chunks :
  let p := running cont seq chunks in
  length (header p) = 27%nat /\ take 4 (header p) = str_bytes "OggS" /\ byte_at (header p) 4 = 0 /\
  serial_of p = serial /\ continued p = cont.
Proof.
  unfold running, empty_page, serial_of, continued. cbn [header]. destruct (le_bytes_four seq) as (a & b & c & e & ->).
  serial_cases. destruct cont; split_conj; reflexivity.
Qed.

Lemma running_sound cont seq chunks :
  len chunks <= 255 -> Forall (fun c => len c <= 255) chunks -> sound_page (running cont seq chunks).
Proof.
  intros Hl Hc. destruct (running_header cont seq chunks) as (H27 & Hm & Hv & _). split.
  - split_conj; [done| |done|done]. unfold running. cbn [header]. apply Forall_splice; [destruct cont; repeat constructor; done|].
    apply Forall_splice; [apply le_bytes_ok|]. unfold empty_page. cbn [header]. apply Forall_splice; [done|].
    apply Forall_splice; [apply str_bytes_ok|]. by repeat constructor.
  - cbn [running segments]. split; [unfold len; rewrite length_map; exact Hl|]. apply Forall_map.
    eapply Forall_impl; [exact Hc|]. intros c Hb. pose proof (len_nonneg c). unfold compose, byte_ok. cbv beta in *. lia.
  - cbn [running segments page_data]. clear. induction chunks as [|c cs IH]; [done|]. cbn [concat map foldr]. rewrite len_app, IH. done.
Qed.

Lemma chunks_running cont seq chunks : chunks_of (running cont seq chunks) = chunks.
Proof. apply cut_concat. Qed.

Lemma pages_of_chunks cont seq page chunks : flat_map chunks_of (pages_of cont seq page chunks) = page ++ chunks.
Proof.
  revert cont seq page. induction chunks as [|c chunks IH]; intros cont seq page; cbn [pages_of].
  - destruct page; [done|]. cbn [flat_map]. by rewrite chunks_running.
  - destruct (_ =? 255); cbn [flat_map]; rewrite ?chunks_running, IH, ?app_nil_l, <- app_assoc; done.
Qed.

(** Header pages: sound, numbered from one on, and marked when they continue a packet. *)
Lemma pages_of_wf cont seq page chunks i p :
  0 <= seq < 2 ^ 32 -> len page < 255 -> Forall (fun c => len c <= 255) (page ++ chunks) ->
  pages_of cont seq page chunks !! i = Some p ->
  sound_page p /\ serial_of p = serial /\ numbered ((seq + Z.of_nat i) mod 2 ^ 32) p = p.
Proof.
  revert cont seq page i. induction chunks as [|c chunks IH]; intros cont seq page i Hseq Hp Hc; cbn [pages_of].
  - destruct page as [|c page]; [done|]. destruct i as [|i]; [|done]. intros [= <-]. rewrite app_nil_r in Hc.
    rewrite Z.add_0_r, Z.mod_small, numbered_running by done.
    split_conj; [apply running_sound; [lia|done]|apply running_header|done].
  - rewrite cons_middle, app_assoc in Hc. rewrite Forall_app in Hc. destruct Hc as [Hpage Hrest].
    assert (len (page ++ [c]) <= 255) as Hlen by (rewrite len_app; change (len [c]) with 1; lia).
    destruct (Z.eqb_spec (len (page ++ [c])) 255) as [Hfull|Hfull].
    + destruct i as [|i]; cbn [lookup list_lookup].
      * intros [= <-]. rewrite Z.add_0_r, Z.mod_small, numbered_running by done.
        split_conj; [by apply running_sound|apply running_header|done].
      * intros Hi. apply IH in Hi; [|unfold wrap_u; apply Z.mod_pos_bound; lia|done|by rewrite app_nil_l].
        unfold wrap_u in Hi. rewrite Zplus_mod_idemp_l in Hi. replace (seq + Z.of_nat (S i)) with (seq + 1 + Z.of_nat i) by lia. exact Hi.
    + apply IH; [done|lia|]. by apply Forall_app.
Qed.
End layout.

(** * The Ogg editor as a function of the bytes

    [ogg_edit] says what an edit writes for the bytes of a file; [wp_rewrite_ogg] shows that the editor
    of Ogg writes exactly that, or fails where there is no such output or something outside failed. *)

(** ** The steps of the editor *)

Section steps.
Context `{Source} `{Unicode} `{Splits} `{Images}.
Implicit Types (s : Io).

Lemma wp_header_bytes fuel acc Q R s :
  0 <= position s <= len content -> len acc <= 27 -> 27 - len acc <= Z.of_nat fuel ->
  (forall s', position s <= position s' <= len content -> written s' = written s ->
     27 <= len (acc ++ tail_at (position s)) -> position s' = position s + (27 - len acc) ->
     Q (Some (take 27 (acc ++ tail_at (position s)))) s') ->
  (forall s', written s' = written s -> position s' = position s -> acc = [] -> tail_at (position s) = [] -> Q None s') ->
  (forall e s', (calm -> acc ++ tail_at (position s) <> [] /\ len (acc ++ tail_at (position s)) < 27) ->
     written s' = written s -> R e s') ->
  wp (header_bytes fuel acc) Q R s.
Proof.
  revert acc s. induction fuel as [|fuel IH]; intros acc s Hp Hacc Hfuel HQ HN HR; cbn [header_bytes].
  - assert (len acc = 27) as E by lia. apply wp_ret. assert (take 27 (acc ++ tail_at (position s)) = acc) as Ht.
    { apply take_app_length'. unfold len in E. lia. }
    rewrite <- Ht. apply HQ; [lia|done| |lia]. rewrite len_app. pose proof (len_nonneg (tail_at (position s))). lia.
  - destruct (Z.leb_spec 27 (len acc)).
    { assert (len acc = 27) as E by lia. apply wp_ret. assert (take 27 (acc ++ tail_at (position s)) = acc) as Ht.
      { apply take_app_length'. unfold len in E. lia. }
      rewrite <- Ht. apply HQ; [lia|done| |lia]. rewrite len_app. pose proof (len_nonneg (tail_at (position s))). lia. }
    apply wp_bind, wp_read; [lia|lia| |].
    2: { intros e s1 Hc Hw. apply HR; [|done]. by intros ?; destruct Hc. }
    intros b s1 Hb Heq Hle Hnil Hp1 Hw1. destruct b as [|x b'] eqn:Eb.
    { specialize (Hnil eq_refl). assert (tail_at (position s) = []) as Ht by (apply drop_ge; unfold len in *; lia).
      destruct acc as [|a acc'] eqn:Ea; [apply wp_ret, HN; [done|unfold len in Hp1; simpl in Hp1; lia|done|done]|].
      apply wp_throw, HR; [|done]. intros _. rewrite Ht, app_nil_r. split; [done|lia]. }
    rewrite <- Eb in *. assert (0 < len b) by (rewrite Eb; unfold len; simpl; lia). clear Eb x b'.
    assert (b ++ tail_at (position s1) = tail_at (position s)) as Htail.
    { rewrite Heq at 1. rewrite Hp1. unfold tail_at. apply slice_drop. lia. }
    rewrite <- Htail, app_assoc in HQ, HR. apply IH; [lia|rewrite len_app; lia|rewrite len_app; lia| | |].
    + intros s2 Hp2 Hw2 Hl2 He2. apply HQ; [lia|congruence|done|]. rewrite len_app in He2. lia.
    + intros s2 _ _ Hnil2 _. apply app_eq_nil in Hnil2 as [_ ->]. unfold len in *. simpl in *. lia.
    + intros e s2 Hc Hw2. apply HR; [done|congruence].
Qed.

(** What a step that reads leaves. *)
Lemma wp_read_page s :
  0 <= position s <= len content ->
  wp read_page
    (fun r s' => next_page (tail_at (position s)) = Some (match r with Some p => Some (p, tail_at (position s')) | None => None end) /\
       position s <= position s' <= len content /\ (is_Some r -> position s + 27 <= position s') /\ written s' = written s)
    (fun _ s' => written s' = written s /\ (calm -> next_page (tail_at (position s)) = None)) s.
Proof.
  intros Hp. unfold read_page, page_read, next_page. set (l := tail_at (position s)).
  apply wp_bind, wp_bind, wp_header_bytes; [done|unfold len; simpl; lia|unfold len; simpl; lia| | |].
  2: { intros s1 Hw1 Hp1 _ Ht. fold l in Ht. rewrite Ht. apply wp_ret, wp_ret. split_conj; (done || lia). }
  2: { intros e s1 Hc Hw1. split; [done|]. intros Hcalm. destruct (Hc Hcalm) as [Hne Hlt]. rewrite app_nil_l in *. fold l in Hne, Hlt.
       destruct l eqn:El; [done|]. rewrite <- El in *. by rewrite (proj2 (Z.ltb_lt _ _) Hlt). }
  intros s1 Hb1 Hw1 H27 Hp1. rewrite app_nil_l in *. fold l in H27 |- *. change (len []) with 0 in Hp1.
  destruct l as [|x l'] eqn:El; [unfold len in H27; simpl in H27; lia|]. rewrite <- El in *. clear x l' El.
  rewrite (proj2 (Z.ltb_ge _ _) H27). set (h := take 27 l). case_bool_decide as Hm; [|apply wp_throw; split; [done|done]].
  assert (drop 27 l = tail_at (position s1)) as Hl1.
  { rewrite Hp1. unfold l. change 27%nat with (Z.to_nat 27). rewrite tail_tail by lia. f_equal; lia. }
  rewrite Hl1. assert (Forall byte_ok l) as Hbytes by apply Forall_drop, content_bytes.
  assert (byte_ok (byte_at h 26)) as H26.
  { apply byte_at_ok; [by apply Forall_take|]. unfold h, len in *. rewrite length_take. lia. }
  unfold byte_ok in H26. apply wp_bind, wp_take; [lia|lia| |].
  2: { intros e s2 Hc Hw2. split; [congruence|]. intros Hcalm. by rewrite (proj2 (Z.ltb_lt _ _) (Hc Hcalm)). }
  intros s2 Hp2 Hw2 Hn. rewrite (proj2 (Z.ltb_ge _ _) Hn). set (segs := take _ (tail_at (position s1))).
  rewrite tail_tail, <- Hp2 by lia.
  assert (0 <= foldr Z.add 0 segs) as Hsum by (by apply sum_nonneg, Forall_take, Forall_drop, content_bytes).
  rewrite len_tail in Hn by lia. apply wp_bind, wp_take; [lia|done| |].
  2: { intros e s3 Hc Hw3. split; [congruence|]. intros Hcalm. by rewrite (proj2 (Z.ltb_lt _ _) (Hc Hcalm)). }
  intros s3 Hp3 Hw3 Hd. rewrite (proj2 (Z.ltb_ge _ _) Hd). rewrite tail_tail, <- Hp3 by lia. rewrite len_tail in Hd by lia.
  apply wp_ret. cbn [header]. destruct (byte_at h 4 =? 0); [|apply wp_throw; split; [congruence|done]].
  apply wp_ret. split_conj; [done|lia|lia|intros _; lia|congruence].
Qed.

Lemma wp_need_page message s :
  0 <= position s <= len content ->
  wp (need_page message)
    (fun p s' => next_page (tail_at (position s)) = Some (Some (p, tail_at (position s'))) /\
       position s <= position s' <= len content /\ written s' = written s)
    (fun _ s' => written s' = written s /\ (calm -> forall p rest, next_page (tail_at (position s)) <> Some (Some (p, rest)))) s.
Proof.
  intros Hp. unfold need_page. apply wp_bind. eapply wp_mono; [by apply wp_read_page| |].
  - intros [p|] s1 (Hn & Hp1 & _ & Hw1); [by apply wp_ret|]. apply wp_throw. split; [done|]. intros _ p rest E. congruence.
  - intros e s1 [Hw1 Hc]. split; [done|]. intros Hcalm p rest E. rewrite (Hc Hcalm) in E. done.
Qed.

(** ** The edit as a function of the bytes *)

Variable base64 : bytes -> string.

(** What [header_pages] reads of the pages from [page] on, and the bytes behind them. *)
Fixpoint parse_header (fuel count : nat) (serial : bytes) (page : OggPage) (bytes_read pages : Z)
  (packets : list bytes) (current rest : bytes) : option (list bytes * Z * Z * bytes) :=
  let pages := pages + 1 in
  let bytes_read := bytes_read + page_len page in
  if MAX_TAG_BYTES <? bytes_read then None
  else if negb (bool_decide (serial_of page = serial)) then None
  else
    match page_packets count (segments page) (page_data page) packets current with
    | Err _ => None
    | Ok (packets, current) =>
      if (length packets =? count)%nat then Some (packets, bytes_read, pages, rest)
      else
        match fuel with
        | O => None
        | S fuel =>
          match next_page rest with
          | Some (Some (page, rest)) => parse_header fuel count serial page bytes_read pages packets current rest
          | _ => None
          end
        end
    end.

(** The new comments, with the cover that can be made. *)
Definition with_cover (cover : option bytes) (comments : list bytes) : option (list bytes) :=
  match cover with
  | None => Some comments
  | Some cover =>
    match picture_of cover with
    | Ok (Some p) => Some (set_comment comments "METADATA_BLOCK_PICTURE" (base64 p))
    | Ok None => Some comments
    | Err _ => None
    end
  end.

Definition comment_prefix (opus : bool) : bytes := if opus then str_bytes "OpusTags" else 3 :: str_bytes "vorbis".

Definition edited_packet (opus : bool) (fields : Fields) (cover : option bytes) (packet : bytes) : option bytes :=
  match strip_prefix (comment_prefix opus) packet with
  | None => None
  | Some body =>
    match parse_comments body with
    | Err _ => None
    | Ok (vendor, comments) =>
      match ogg_comments opus fields comments with
      | Err _ => None
      | Ok comments =>
        match with_cover cover comments with
        | None => None
        | Some comments =>
          let packet := comment_packet opus vendor comments in
          if MAX_TAG_BYTES <? len packet then None else Some packet
        end
      end
    end
  end.

Fixpoint renumbered (fuel : nat) (serial : bytes) (sequence : Z) (l : bytes) : option bytes :=
  match fuel with
  | O => None
  | S fuel =>
    match next_page l with
    | None => None
    | Some None => Some []
    | Some (Some (page, rest)) =>
      if negb (bool_decide (serial_of page = serial)) then None
      else (fun out => seal (numbered sequence page) ++ out) <$> renumbered fuel serial (wrap_u 32 (sequence + 1)) rest
    end
  end.

(** The number the audio begins with, after the header pages. *)
Definition next_number (n : nat) : Z := wrap_u 32 (1 + Z.of_nat n).

Definition ogg_edit (fields : Fields) (cover : option bytes) (l : bytes) : option bytes :=
  match next_page l with
  | Some (Some (first, rest)) =>
    match codec (page_data first) with
    | None => None
    | Some (opus, count) =>
      let serial := serial_of first in
      match parse_header MAX_PAGES count serial first 0 0 [] [] rest with
      | None => None
      | Some (packets, bytes_read, pages, rest) =>
        match edited_packet opus fields cover (nth 1 packets []) with
        | None => None
        | Some comment =>
          let new := pages_of serial false 1 [] (flat_map laced (comment :: drop 2 packets)) in
          let number := next_number (length new) in
          (fun tail => seal first ++ flat_map seal new ++ tail) <$>
            (if number =? pages then Some (drop (Z.to_nat bytes_read) l)
             else renumbered (S (length l)) serial number rest)
        end
      end
    end
  | _ => None
  end.

Lemma wp_raise {A} (r : result A string) (Q : A -> Io -> Prop) R s :
  (forall a, r = Ok a -> Q a s) -> (forall e, r = Err e -> R e s) -> wp (raise r) Q R s.
Proof. intros HQ HR. unfold raise. destruct r; [by apply wp_ret, HQ|by apply wp_throw, HR]. Qed.

Lemma wp_header_pages fuel count serial page bytes_read pages packets current s :
  0 <= position s <= len content ->
  wp (header_pages fuel count serial page bytes_read pages packets current)
    (fun r s' => parse_header fuel count serial page bytes_read pages packets current (tail_at (position s)) =
         Some (r, tail_at (position s')) /\ position s <= position s' <= len content /\ written s' = written s)
    (fun _ s' => written s' = written s /\
       (calm -> parse_header fuel count serial page bytes_read pages packets current (tail_at (position s)) = None)) s.
Proof.
  revert page bytes_read pages packets current s.
  induction fuel as [|fuel IH]; intros page bytes_read pages packets current s Hp; cbn [header_pages parse_header];
    (apply wp_bind, wp_check; [|intros e s1 Hc Hw1; split; [done|by intros ?; destruct Hc]]); intros s1 Hp1 Hw1;
    (destruct (_ <? _); [apply wp_throw; by split|]); (destruct (negb _); [apply wp_throw; by split|]);
    (apply wp_bind, wp_raise; [|intros e Ee; rewrite Ee; by split]); intros [packets' current'] Er; rewrite Er;
    (destruct (length packets' =? count)%nat eqn:Ec; [apply wp_ret; rewrite Hp1; split_conj; (done || lia)|]).
  - apply wp_throw. by split.
  - apply wp_bind. eapply wp_mono; [apply wp_need_page; lia| |].
    + intros next s2 (Hn & Hp2 & Hw2). rewrite Hp1 in Hn. rewrite Hn. eapply wp_mono; [apply IH; lia| |].
      * intros r s3 (Hr & Hp3 & Hw3). split_conj; (done || lia || congruence).
      * intros e s3 [Hw3 Hc]. split; [congruence|done].
    + intros e s2 [Hw2 Hc]. split; [congruence|]. intros Hcalm. specialize (Hc Hcalm). rewrite Hp1 in Hc.
      destruct (next_page _) as [[[q rest]|]|]; [by destruct (Hc q rest)|done|done].
Qed.

Lemma wp_edit_packet opus fields cover packet s :
  wp (edit_packet base64 opus fields cover packet)
    (fun r s' => edited_packet opus fields cover packet = Some r /\ position s' = position s /\ written s' = written s)
    (fun _ s' => written s' = written s /\ (calm -> edited_packet opus fields cover packet = None)) s.
Proof.
  unfold edit_packet, edited_packet. change (if opus then str_bytes "OpusTags" else 3 :: str_bytes "vorbis") with (comment_prefix opus).
  destruct (strip_prefix _ packet) as [body|]; [|apply wp_throw; by split].
  apply wp_bind, wp_raise; [|intros e ->; by split]. intros [vendor comments] ->.
  apply wp_bind, wp_raise; [|intros e ->; by split]. intros comments' ->.
  assert (forall r s1, with_cover cover comments' = Some r -> position s1 = position s -> written s1 = written s ->
    wp (let packet := comment_packet opus vendor r in if MAX_TAG_BYTES <? len packet then throw "Ogg comments exceed 64 MiB"%string else ret packet)
      (fun r s' => match with_cover cover comments' with Some comments => if MAX_TAG_BYTES <? len (comment_packet opus vendor comments)
           then None else Some (comment_packet opus vendor comments) | None => None end = Some r /\ position s' = position s /\ written s' = written s)
      (fun _ s' => written s' = written s /\ (calm -> match with_cover cover comments' with Some comments => if MAX_TAG_BYTES <? len (comment_packet opus vendor comments)
           then None else Some (comment_packet opus vendor comments) | None => None end = None)) s1) as Hend.
  { intros r s1 -> Hp1 Hw1. cbv zeta. destruct (_ <? _); [by apply wp_throw|by apply wp_ret]. }
  destruct cover as [c|].
  - apply wp_bind, wp_bind. eapply wp_mono; [apply quietly_picture| |].
    + intros p s1 (Hpic & Hp1 & Hw1). apply wp_ret, Hend; [|done|done]. unfold with_cover. rewrite Hpic. by destruct p.
    + intros e s1 [Hw1 Hc]. split; [done|]. intros Hcalm. specialize (Hc Hcalm). unfold with_cover. by destruct (picture_of c).
  - apply wp_bind, wp_ret, Hend; done.
Qed.

Lemma wp_write_page p s :
  wp (write_page p) (fun _ s' => position s' = position s /\ written s' = written s ++ seal p) (fun _ _ => ~ calm) s.
Proof.
  unfold write_page. apply wp_bind, wp_check; [|done]. intros s1 Hp1 Hw1. apply wp_write_output; [|done].
  intros s2 Hp2 Hw2. split; congruence.
Qed.

Abbreviation advance := (fun n => wrap_u 32 (n + 1)).

(** Laying out chunks behind those of the page under construction: the pages [out] are written, and
    [page'] is begun. *)
Definition lays (serial : bytes) (cont : bool) (seq : Z) (page chunks : list bytes) (s : Io)
  (out : list OggPage) (cont' : bool) (seq' : Z) (page' : list bytes) (s' : Io) : Prop :=
  len page' < 255 /\ position s' = position s /\ written s' = written s ++ flat_map seal out /\
  (forall cs, pages_of serial cont seq page (chunks ++ cs) = out ++ pages_of serial cont' seq' page' cs) /\
  seq' = Nat.iter (length out) advance seq.

Lemma lays_trans serial cont seq page chunks s out cont1 seq1 page1 s1 chunks' out' cont2 seq2 page2 s2 :
  lays serial cont seq page chunks s out cont1 seq1 page1 s1 -> lays serial cont1 seq1 page1 chunks' s1 out' cont2 seq2 page2 s2 ->
  lays serial cont seq page (chunks ++ chunks') s (out ++ out') cont2 seq2 page2 s2.
Proof.
  intros (_ & Hp1 & Hw1 & Hpages1 & Hseq1) (Hpage2 & Hp2 & Hw2 & Hpages2 & Hseq2). unfold lays.
  split_conj; [done|congruence|by rewrite Hw2, Hw1, flat_map_app, app_assoc| |].
  - intros cs. by rewrite <- !app_assoc, Hpages1, Hpages2.
  - rewrite Hseq2, Hseq1, length_app, Nat.add_comm. by rewrite Nat.iter_add.
Qed.

Lemma running_add serial cont seq page c :
  mkPage (header (running serial cont seq page)) (segments (running serial cont seq page) ++ [len c])
    (page_data (running serial cont seq page) ++ c) = running serial cont seq (page ++ [c]).
Proof. unfold running. cbn [header segments page_data]. rewrite map_app, concat_app. cbn [concat map]. by rewrite app_nil_r. Qed.

(** One more chunk; a full page is written. *)
Lemma wp_write_chunk serial cont seq0 seq page c s :
  length serial = 4%nat -> len page < 255 ->
  wp (if len (segments (running serial cont seq0 (page ++ [c]))) =? 255 then
        let page := numbered seq (running serial cont seq0 (page ++ [c])) in
        write_page page;;
        ret (mkPage (splice 5 [if len c =? 255 then 1 else 0] (header page)) [] [], wrap_u 32 (seq + 1))
      else ret (running serial cont seq0 (page ++ [c]), seq))
    (fun r s' => exists out cont' seq0' page', r.1 = running serial cont' seq0' page' /\
       lays serial cont seq page [c] s out cont' r.2 page' s')
    (fun _ _ => ~ calm) s.
Proof.
  intros Hserial Hpage. unfold lays.
  assert (len (segments (running serial cont seq0 (page ++ [c]))) = len (page ++ [c])) as -> by (unfold running, len; cbn [segments]; by rewrite length_map).
  pose proof (len_app page [c]) as Hlen. change (len [c]) with 1 in Hlen.
  destruct (Z.eqb_spec (len (page ++ [c])) 255) as [Hfull|Hfull].
  - rewrite numbered_running by done. apply wp_bind. eapply wp_mono; [apply wp_write_page| |done]. intros _ s1 [Hp1 Hw1].
    apply wp_ret. rewrite continue_running by done.
    exists [running serial cont seq (page ++ [c])], (len c =? 255), seq, []. cbn [fst snd flat_map]. rewrite app_nil_r.
    split_conj; try done. intros cs. cbn [app pages_of]. by rewrite (proj2 (Z.eqb_eq _ _) Hfull).
  - apply wp_ret. exists [], cont, seq0, (page ++ [c]). cbn [fst snd flat_map]. rewrite app_nil_r.
    split_conj; try done; [lia|]. intros cs. cbn [app pages_of]. by rewrite (proj2 (Z.eqb_neq _ _) Hfull).
Qed.

Lemma wp_write_packet serial fuel rest cont seq0 seq page s :
  length serial = 4%nat -> len page < 255 ->
  wp (write_packet fuel rest (running serial cont seq0 page) seq)
    (fun r s' => exists out cont' seq0' page', r.1 = running serial cont' seq0' page' /\
       lays serial cont seq page (lace fuel rest) s out cont' r.2 page' s')
    (fun _ _ => ~ calm) s.
Proof.
  intros Hserial. revert rest cont seq0 seq page s. induction fuel as [|fuel IH]; intros rest cont seq0 seq page s Hpage; cbn [write_packet lace].
  { apply wp_ret. exists [], cont, seq0, page. split; [done|]. unfold lays. cbn [flat_map]. rewrite app_nil_r. by split_conj. }
  set (c := take 255 rest). assert (Z.min (len rest) 255 = len c) as -> by (unfold c, len; rewrite length_take; lia).
  assert (take (Z.to_nat (len c)) rest = c) as -> by (unfold c, len; rewrite Nat2Z.id; apply take_taken).
  rewrite running_add. apply wp_bind. eapply wp_mono; [by apply wp_write_chunk| |done].
  intros [page1 seq1] s1 (out & cont1 & seq0' & p1 & Hr & Hlays). cbn [fst snd] in *. subst page1.
  destruct (Z.ltb_spec (len c) 255) as [Hshort|Hshort]; [apply wp_ret; exists out, cont1, seq0', p1; by split|].
  assert (drop (Z.to_nat (len c)) rest = drop 255 rest) as ->.
  { f_equal. unfold c, len in *. rewrite length_take in *. lia. }
  eapply wp_mono; [apply IH, Hlays| |done]. intros r s2 (out' & cont2 & seq0'' & p2 & Hr & Hlays').
  exists (out ++ out'), cont2, seq0'', p2. split; [done|]. by eapply (lays_trans _ _ _ _ [c]).
Qed.

Lemma wp_write_packets serial packets cont seq0 seq page s :
  length serial = 4%nat -> len page < 255 ->
  wp (write_packets packets (running serial cont seq0 page) seq)
    (fun r s' => let out := pages_of serial cont seq page (flat_map laced packets) in
       position s' = position s /\ written s' = written s ++ flat_map seal out /\ r = Nat.iter (length out) advance seq)
    (fun _ _ => ~ calm) s.
Proof.
  intros Hserial. revert cont seq0 seq page s. induction packets as [|packet packets IH]; intros cont seq0 seq page s Hpage; cbn [write_packets].
  - cbn [flat_map pages_of]. destruct page as [|c page]; [apply wp_ret; cbn [flat_map]; by rewrite app_nil_r|].
    change (segments (running serial cont seq0 (c :: page))) with (len c :: map len page). cbv beta iota.
    rewrite numbered_running by done. apply wp_bind. eapply wp_mono; [apply wp_write_page| |done]. intros _ s1 [Hp1 Hw1].
    apply wp_ret. cbn [flat_map]. rewrite app_nil_r. by split_conj.
  - apply wp_bind. eapply wp_mono; [by apply wp_write_packet| |done].
    intros r s1 (out & cont' & seq' & page' & Hr & Hpage' & Hp1 & Hw1 & Hpages & Hseq). rewrite Hr.
    eapply wp_mono; [by apply IH| |done]. cbv zeta. intros n s2 (Hp2 & Hw2 & Hn).
    cbn [flat_map]. unfold laced at 1 3. rewrite Hpages. split_conj; [congruence| |].
    + by rewrite Hw2, Hw1, flat_map_app, app_assoc.
    + rewrite Hn, Hseq, length_app, Nat.add_comm. by rewrite Nat.iter_add.
Qed.

Lemma iter_advance n seq : 0 <= seq < 2 ^ 32 -> Nat.iter n advance seq = wrap_u 32 (seq + Z.of_nat n).
Proof.
  intros Hseq. induction n as [|n IH]; [unfold wrap_u; rewrite Z.add_0_r, Z.mod_small; done|].
  cbn [Nat.iter nat_rect]. change (nat_rect _ _ _ n) with (Nat.iter n advance seq). rewrite IH. unfold wrap_u.
  rewrite Zplus_mod_idemp_l. f_equal. lia.
Qed.

Lemma wp_write_headers packets serial s :
  length serial = 4%nat ->
  wp (write_headers packets serial)
    (fun r s' => let out := pages_of serial false 1 [] (flat_map laced packets) in
       position s' = position s /\ written s' = written s ++ flat_map seal out /\ r = next_number (length out))
    (fun _ _ => ~ calm) s.
Proof.
  intros Hserial. unfold write_headers. rewrite running_empty by done.
  eapply wp_mono; [by apply wp_write_packets| |done]. cbv zeta. intros r s1 (Hp1 & Hw1 & Hr).
  split_conj; [done|done|]. by rewrite Hr, iter_advance.
Qed.

Lemma wp_renumber fuel serial seq s :
  0 <= position s <= len content -> len content - position s < Z.of_nat fuel ->
  wp (renumber_pages fuel serial seq)
    (fun _ s' => exists out, renumbered fuel serial seq (tail_at (position s)) = Some out /\ written s' = written s ++ out)
    (fun _ _ => calm -> renumbered fuel serial seq (tail_at (position s)) = None) s.
Proof.
  revert seq s. induction fuel as [|fuel IH]; intros seq s Hp Hfuel; cbn [renumber_pages renumbered]; [lia|].
  apply wp_bind. eapply wp_mono; [by apply wp_read_page| |].
  2: { intros e s1 [_ Hc] Hcalm. by rewrite (Hc Hcalm). }
  intros [page|] s1 (Hn & Hp1 & Hmore & Hw1); rewrite Hn.
  2: { apply wp_check; [|by intros e s2 Hc]. intros s2 _ Hw2. exists []. rewrite app_nil_r. split; [done|congruence]. }
  apply wp_bind, wp_check; [|by intros e s2 Hc]. intros s2 Hp2 Hw2.
  destruct (negb _); [by apply wp_throw|]. apply wp_bind. eapply wp_mono; [apply wp_write_page| |by intros e s3 Hc]. intros _ s3 [Hp3 Hw3].
  specialize (Hmore ltac:(eauto)). rewrite Hp2 in Hp3. rewrite <- Hp3. eapply wp_mono; [apply IH; lia| |].
  - intros _ s4 (out & Ho & Hw4). rewrite Ho. eexists. split; [reflexivity|]. rewrite Hw4, Hw3, Hw2, Hw1. by rewrite app_assoc.
  - intros e s4 Hc Hcalm. by rewrite (Hc Hcalm).
Qed.

Lemma next_page_len l p rest : Forall byte_ok l -> next_page l = Some (Some (p, rest)) -> len l = page_len p + len rest.
Proof.
  intros Hl Hn. destruct (next_page_sound _ _ _ Hl Hn) as [-> [(H27 & _) _ _]]. unfold page_raw, page_len. rewrite !len_app.
  unfold len at 1. lia.
Qed.

Definition pages_len (pages : list OggPage) : Z := foldr (fun p n => page_len p + n) 0 pages.

Lemma parse_header_spec fuel count serial page bytes_read pages packets current rest packets' bytes_read' pages' rest' :
  Forall byte_ok rest -> wf_page page -> (length packets < count)%nat ->
  parse_header fuel count serial page bytes_read pages packets current rest = Some (packets', bytes_read', pages', rest') ->
  exists more added, rest = flat_map page_raw more ++ rest' /\ Forall wf_page more /\
    Forall (fun p => serial_of p = serial) (page :: more) /\ pages' = pages + 1 + len more /\
    bytes_read' = bytes_read + pages_len (page :: more) /\ bytes_read' <= MAX_TAG_BYTES /\
    assemble current (flat_map chunks_of (page :: more)) = (added, []) /\ packets' = packets ++ added /\ length packets' = count.
Proof.
  revert page bytes_read pages packets current rest.
  induction fuel as [|fuel IH]; intros page bytes_read pages packets current rest Hb Hw Hc; cbn [parse_header];
    (destruct (Z.ltb_spec MAX_TAG_BYTES (bytes_read + page_len page)) as [|Hmax]; [done|]);
    (case_bool_decide as Hs; [|done]); cbn [negb];
    pose proof (wf_segments page Hw) as [_ Hsegs]; pose proof (wf_data page Hw) as Hdata;
    (destruct (page_packets _ _ _ _ _) as [[ps cur]|] eqn:Ep; [|done]);
    (destruct (page_packets_spec count (segments page) (page_data page) _ _ _ Hsegs ltac:(lia) Hc Ep) as (added & Ha & Hps0 & Hle & Hend)); cbn [fst snd] in *; subst ps;
    (destruct (Nat.eqb_spec (length (packets ++ added)) count) as [Heq|Hne];
      [intros E; injection E as <- <- <- <-; exists [], added; rewrite (Hend Heq) in Ha; cbn [flat_map pages_len foldr]; rewrite app_nil_r;
       unfold chunks_of; split_conj; try done; try (by repeat constructor); try (unfold len; simpl; lia)|]).
  - done.
  - destruct (next_page rest) as [[[p rest1]|]|] eqn:En; [|done|done]. intros Hr.
    destruct (next_page_sound _ _ _ Hb En) as [-> Hwp]. rewrite Forall_app in Hb. destruct Hb as [_ Hb1].
    destruct (IH p _ _ (packets ++ added) _ _ Hb1 Hwp ltac:(lia) Hr) as (more & added2 & -> & Hm & Hserials & Hpages & Hread & Hmax' & Ha2 & Hps & Hlen).
    exists (p :: more), (added ++ added2). cbn [flat_map pages_len foldr] in *. rewrite <- app_assoc in *. rewrite len_cons.
    split_conj; try done; try (by constructor); try lia.
    unfold chunks_of at 1. rewrite assemble_app, Ha. cbn [fst snd]. by rewrite Ha2.
Qed.

(** Pages with the numbers from [seq] on. *)
Fixpoint number_from (seq : Z) (pages : list OggPage) : list OggPage :=
  match pages with [] => [] | p :: pages => numbered seq p :: number_from (wrap_u 32 (seq + 1)) pages end.

Lemma renumbered_spec fuel serial seq l out :
  Forall byte_ok l -> renumbered fuel serial seq l = Some out ->
  exists pages, l = flat_map page_raw pages /\ Forall wf_page pages /\ Forall (fun p => serial_of p = serial) pages /\
    out = flat_map seal (number_from seq pages).
Proof.
  revert seq l out. induction fuel as [|fuel IH]; intros seq l out Hl; cbn [renumbered]; [done|].
  destruct (next_page l) as [[[p rest]|]|] eqn:En; [| |done].
  - case_bool_decide as Hs; [|done]. cbn [negb]. destruct (renumbered fuel _ _ rest) as [out'|] eqn:Er; [|done]. intros [= <-].
    destruct (next_page_sound _ _ _ Hl En) as [-> Hw]. rewrite Forall_app in Hl. destruct Hl as [_ Hl].
    destruct (IH _ _ _ Hl Er) as (pages & -> & Hwf & Hserials & ->). exists (p :: pages). split_conj; by try constructor.
  - intros [= <-]. exists []. split_conj; try done. destruct l; [done|]. unfold next_page in En.
    destruct (_ <? 27); [done|]. destruct (bool_decide _); [|done]. destruct (_ <? _); [done|].
    destruct (_ <? _); [done|]. by destruct (_ =? 0).
Qed.

Lemma codec_count d opus count : codec d = Some (opus, count) -> (2 <= count)%nat.
Proof. unfold codec. destruct (begins _ d); [intros [= <- <-]; lia|]. destruct (begins _ d); [intros [= <- <-]; lia|done]. Qed.

Lemma pages_len_nonneg pages : 0 <= pages_len pages.
Proof.
  induction pages as [|p pages IH]; [done|]. change (0 <= page_len p + pages_len pages). unfold page_len.
  pose proof (len_nonneg (segments p)). pose proof (len_nonneg (page_data p)). lia.
Qed.

Lemma wp_rewrite_ogg fields cover s :
  position s = 0 ->
  wp (rewrite_ogg base64 fields cover)
    (fun _ s' => exists out, ogg_edit fields cover content = Some out /\ written s' = written s ++ out)
    (fun _ _ => calm -> ogg_edit fields cover content = None) s.
Proof.
  intros Hp. pose proof (len_nonneg content) as Hlen. unfold rewrite_ogg, ogg_edit.
  apply wp_bind. eapply wp_mono; [apply wp_need_page; lia| |].
  2: { intros e s1 [_ Hc] Hcalm. specialize (Hc Hcalm). rewrite Hp in Hc. change (tail_at 0) with content in Hc.
       destruct (next_page content) as [[[q rest]|]|]; [by destruct (Hc q rest)|done|done]. }
  intros first s1 (Hn & Hp1 & Hw1). rewrite Hp in Hn. change (tail_at 0) with content in Hn. rewrite Hn.
  destruct (next_page_sound _ _ _ content_bytes Hn) as [_ Hwf]. pose proof (proj1 (wf_header _ Hwf)) as H27.
  destruct (codec _) as [[opus count]|] eqn:Ec; [|by apply wp_throw]. cbv zeta.
  apply wp_bind. eapply wp_mono; [apply wp_header_pages; lia| |].
  2: { intros e s2 [_ Hc] Hcalm. by rewrite (Hc Hcalm). }
  intros [[packets bytes_read] pages] s2 (Hh & Hp2 & Hw2). rewrite Hh.
  apply wp_bind. eapply wp_mono; [apply wp_edit_packet| |].
  2: { intros e s3 [_ Hc] Hcalm. by rewrite (Hc Hcalm). }
  intros comment s3 (He & Hp3 & Hw3). rewrite He.
  apply wp_bind. eapply wp_mono; [apply wp_write_page| |by intros e s4 Hc]. intros _ s4 [Hp4 Hw4].
  assert (length (serial_of first) = 4%nat) as Hserial by (unfold serial_of; rewrite length_take, length_drop; lia).
  apply wp_bind. eapply wp_mono; [by apply wp_write_headers| |by intros e s5 Hc]. cbv zeta. intros n s5 (Hp5 & Hw5 & Hnum).
  assert (Forall byte_ok (tail_at (position s1))) as Hrest by apply Forall_drop, content_bytes.
  pose proof (codec_count _ _ _ Ec) as Hcount.
  destruct (parse_header_spec _ count _ _ _ _ [] _ _ _ _ _ _ Hrest Hwf ltac:(simpl; lia) Hh)
    as (more & added & _ & _ & _ & _ & Hread & _ & _ & -> & Hlength). cbn [app] in *.
  assert (drop 1 (<[1%nat:=comment]> added) = comment :: drop 2 added) as Hdrop.
  { destruct added as [|a [|b added]]; [simpl in Hlength; lia|simpl in Hlength; lia|done]. }
  rewrite Hdrop in *. rewrite <- Hnum.
  pose proof (pages_len_nonneg (first :: more)) as Hpos. destruct (n =? pages).
  - apply wp_bind, wp_seek; [|by intros e s6 Hc]. intros s6 Hp6 Hw6.
    apply wp_copy; [lia|done| |by intros e s7 Hc Hcalm; destruct (Hc Hcalm)].
    intros s7 _ Hw7 _. eexists. split; [reflexivity|]. rewrite Hw7, Hw6, Hw5, Hw4, Hw3, Hw2, Hw1, Hp6. by rewrite <- !app_assoc.
  - assert (position s5 = position s2) as Hp52 by congruence. rewrite <- Hp52.
    eapply wp_mono; [apply wp_renumber; [lia|unfold len; lia]| |].
    + intros _ s6 (out & Ho & Hw6). rewrite Ho. eexists. split; [reflexivity|].
      rewrite Hw6, Hw5, Hw4, Hw3, Hw2, Hw1. by rewrite <- !app_assoc.
    + intros e s6 Hc Hcalm. by rewrite (Hc Hcalm).
Qed.
End steps.
