(* ===== verification/OggSpec.v ===== *)
(** * What an edit of an Ogg file keeps

    The pages that are written are well formed and carry the packets of the file, the comments edited;
    the audio is copied or renumbered. *)

From S2P Require Import Prelude Monads Float64 RustText FloatText UnicodeText Matching TagIo VorbisComments FlacTags FlacHeader.
From S2P Require Import FlacTagsSpec Ogg OggPages.

Section steps.
Context `{Source} `{Unicode} `{Splits} `{Images}.
Variable base64 : bytes -> string.
Implicit Types (s : Io).

(** ** What the edit writes *)

(** The comments of a comment packet. *)
Definition tags_in (opus : bool) (packet : bytes) : option (bytes * list bytes) :=
  match strip_prefix (comment_prefix opus) packet with
  | Some body => match parse_comments body with Ok r => Some r | Err _ => None end
  | None => None
  end.

(** [comment'] has the comments of [comment] after the edit. *)
Definition edited_tags (opus : bool) (fields : Fields) (cover : option bytes) (comment comment' : bytes) : Prop :=
  exists vendor comments edited final, tags_in opus comment = Some (vendor, comments) /\
    ogg_comments opus fields comments = Ok edited /\ with_cover base64 cover edited = Some final /\
    tags_in opus comment' = Some (vendor, final).

(** Pages that were written: numbered from [from] on, with their checksums. *)
Definition well_written (serial : bytes) (from : Z) (pages : list OggPage) : Prop :=
  forall i p, pages !! i = Some p -> wf_page p /\ checksum_ok p /\ serial_of p = serial /\ sequence_of p = (from + Z.of_nat i) mod 2 ^ 32.

(** A page is marked if it goes on with a packet of the page before. *)
Fixpoint marked (open : bool) (pages : list OggPage) : Prop :=
  match pages with
  | [] => True
  | p :: pages => continued p = open /\ marked (bool_decide (last (segments p) = Some 255)) pages
  end.

Lemma begins_app p l : begins p (p ++ l) = true.
Proof. unfold begins. apply bool_decide_eq_true_2. apply take_app_length. Qed.

Lemma edited_packet_spec opus fields cover packet packet' :
  edited_packet base64 opus fields cover packet = Some packet' -> edited_tags opus fields cover packet packet' /\ len packet' <= MAX_TAG_BYTES.
Proof.
  unfold edited_packet, edited_tags, tags_in. destruct (strip_prefix _ packet) as [body|]; [|done].
  destruct (parse_comments body) as [[vendor comments]|]; [|done]. destruct (ogg_comments _ _ _) as [edited|] eqn:Eo; [|done].
  destruct (with_cover base64 cover edited) as [final|] eqn:Ec; [|done]. destruct (Z.ltb_spec MAX_TAG_BYTES (len (comment_packet opus vendor final))) as [|Hmax]; [done|].
  intros [= <-]. split; [|done]. exists vendor, comments, edited, final. split_conj; [done|done|done|].
  unfold comment_packet in *. fold (comment_prefix opus) in *. unfold strip_prefix. rewrite begins_app, drop_app_length.
  rewrite parse_put_comments; [done|]. rewrite !len_app in Hmax.
  pose proof (len_nonneg (comment_prefix opus)). pose proof (len_nonneg (if opus then [] else [1])).
  unfold MAX_TAG_BYTES in Hmax. lia.
Qed.

Lemma concat_cut segs d : Forall byte_ok segs -> len d = foldr Z.add 0 segs -> concat (cut segs d) = d.
Proof.
  revert d. induction segs as [|n segs IH]; intros d Hs Hd; cbn [cut concat foldr] in *; [symmetry; by apply len_nil|].
  rewrite Forall_cons in Hs. destruct Hs as [Hn Hs]. pose proof (sum_nonneg _ Hs). unfold byte_ok in Hn.
  rewrite IH, take_drop; [done|done|]. unfold len in *. rewrite length_drop. lia.
Qed.

Lemma assemble_concat current cs : concat (assemble current cs).1 ++ (assemble current cs).2 = current ++ concat cs.
Proof.
  revert current. induction cs as [|c cs IH]; intros current; cbn [assemble concat]; [by rewrite app_nil_r|].
  destruct (len c <? 255); cbn [fst snd concat]; [by rewrite <- !app_assoc, IH|by rewrite IH, app_assoc].
Qed.

Lemma chunks_length pages : Forall wf_page pages -> len (concat (flat_map chunks_of pages)) <= pages_len pages.
Proof.
  induction 1 as [|p pages Hp _ IH]; [done|]. cbn [flat_map]. change (pages_len (p :: pages)) with (page_len p + pages_len pages).
  rewrite concat_app, len_app. unfold chunks_of at 1. rewrite concat_cut; [|apply Hp..].
  unfold page_len. pose proof (len_nonneg (segments p)). lia.
Qed.

Lemma lace_length fuel rest : (length (lace fuel rest) <= S (length rest))%nat.
Proof.
  revert rest. induction fuel as [|fuel IH]; intros rest; cbn [lace]; [simpl; lia|].
  destruct (Z.ltb_spec (len (take 255 rest)) 255) as [|Hc]; [simpl; lia|]. cbn [length]. specialize (IH (drop 255 rest)).
  unfold len in Hc. rewrite length_take in Hc. rewrite length_drop in IH. lia.
Qed.

Lemma laced_length packets : (length (flat_map laced packets) <= length packets + length (concat packets))%nat.
Proof.
  induction packets as [|p packets IH]; [done|]. cbn [flat_map concat length]. rewrite !length_app.
  pose proof (lace_length (S (length p)) p). unfold laced at 1. lia.
Qed.

Lemma pages_of_length serial cont seq page chunks : (length (pages_of serial cont seq page chunks) <= length page + length chunks)%nat.
Proof.
  revert cont seq page. induction chunks as [|c chunks IH]; intros cont seq page; cbn [pages_of].
  - destruct page; simpl; lia.
  - destruct (_ =? 255); cbn [length]; [specialize (IH (len c =? 255) (wrap_u 32 (seq + 1)) []); simpl in IH; lia|].
    specialize (IH cont seq (page ++ [c])). rewrite length_app in IH. simpl in IH. lia.
Qed.

(** *** The pages that are written *)

Lemma seal_raw pages : Forall sound_page pages -> flat_map seal pages = flat_map page_raw (map sealed pages).
Proof. induction 1 as [|p pages Hp _ IH]; [done|]. cbn [flat_map map]. rewrite IH, seal_sealed; [done|apply Hp]. Qed.

Lemma chunks_sealed pages : flat_map chunks_of (map sealed pages) = flat_map chunks_of pages.
Proof. induction pages as [|p pages IH]; [done|]. cbn [map flat_map]. by rewrite IH. Qed.

Lemma sealed_fixed p seq : sound_page p -> numbered (seq mod 2 ^ 32) p = p ->
  let q := sealed p in wf_page q /\ checksum_ok q /\ serial_of q = serial_of p /\ sequence_of q = seq mod 2 ^ 32 /\ continued q = continued p.
Proof.
  intros Hp Hn. cbv zeta. destruct (sealed_numbered p (seq mod 2 ^ 32) Hp) as (Hw & Hc & Hs & Hser & Hcont). rewrite Hn in *.
  rewrite Z.mod_mod in Hs by lia. done.
Qed.

Lemma pages_of_written serial chunks :
  length serial = 4%nat -> Forall byte_ok serial -> Forall (fun c => len c <= 255) chunks ->
  let pages := pages_of serial false 1 [] chunks in
  Forall sound_page pages /\ well_written serial 1 (map sealed pages).
Proof.
  intros Hl Hb Hc. cbv zeta. assert (forall i p, pages_of serial false 1 [] chunks !! i = Some p ->
    sound_page p /\ serial_of p = serial /\ numbered ((1 + Z.of_nat i) mod 2 ^ 32) p = p) as Hpages.
  { intros i p Hi. by apply (pages_of_wf serial Hl Hb false 1 [] chunks i p). }
  split; [apply Forall_lookup; intros i p Hi; by destruct (Hpages i p Hi)|].
  intros i q Hi. rewrite list_lookup_fmap in Hi. destruct (pages_of _ _ _ _ _ !! i) as [p|] eqn:Ei; [|done]. injection Hi as <-.
  destruct (Hpages i p Ei) as (Hs & Hser & Hn). destruct (sealed_fixed p _ Hs Hn) as (Hw & Hck & Hser' & Hseq & _). split_conj; congruence.
Qed.

Lemma pages_of_marked serial cont seq page chunks :
  length serial = 4%nat -> marked cont (map sealed (pages_of serial cont seq page chunks)).
Proof.
  intros Hl. assert (forall cont seq cs, continued (sealed (running serial cont seq cs)) = cont) as Hcont.
  { intros c n cs. destruct (running_header serial Hl c n cs) as (H27 & _ & _ & _ & Hc). rewrite <- Hc at 2.
    destruct (sealed_header _ H27) as (z & _ & E). unfold continued. rewrite E. generalize H27.
    generalize (header (running serial c n cs)). intros h Hh. f_equal. f_equal. header_cases h. reflexivity. }
  revert cont seq page. induction chunks as [|c chunks IH]; intros cont seq page; cbn [pages_of].
  - destruct page; [done|]. cbn [map marked]. by split.
  - destruct (_ =? 255); [|apply IH]. cbn [map marked]. split; [done|].
    assert (bool_decide (last (segments (sealed (running serial cont seq (page ++ [c])))) = Some 255) = (len c =? 255)) as ->; [|apply IH].
    unfold sealed, running. cbn [segments]. rewrite map_app. cbn [map]. rewrite last_snoc.
    destruct (Z.eqb_spec (len c) 255) as [->|Hne]; [by apply bool_decide_eq_true_2|]. apply bool_decide_eq_false_2. congruence.
Qed.

Lemma number_from_written serial seq pages :
  0 <= seq < 2 ^ 32 -> Forall wf_page pages -> Forall (fun p => serial_of p = serial) pages ->
  Forall sound_page (number_from seq pages) /\ well_written serial seq (map sealed (number_from seq pages)) /\
  Forall2 same_page pages (map sealed (number_from seq pages)).
Proof.
  intros Hseq Hw. revert seq Hseq. induction Hw as [|p pages Hp _ IH]; intros seq Hseq Hs; cbn [number_from map].
  { split_conj; [constructor|by intros i p|constructor]. }
  rewrite Forall_cons in Hs. destruct Hs as [Hser Hs].
  destruct (IH (wrap_u 32 (seq + 1)) (Z.mod_pos_bound (seq + 1) (2 ^ 32) ltac:(lia)) Hs) as (Ha & Hb & Hc).
  destruct (sealed_numbered p seq (wf_sound p Hp)) as (Hq & Hck & Hqs & Hqser & _). split_conj.
  - constructor; [|done]. pose proof Hp as [(H27 & Hbytes & Hm & Hv) _ _]. destruct (wf_sound p Hp) as [_ Hsegs Hdata].
    split; [|done|done]. unfold numbered. cbn [header]. split_conj; [by apply (numbered_length seq p)|by apply Forall_splice; [apply le_bytes_ok|]| |];
      unfold splice; rewrite <- ?Hm, <- ?Hv; destruct p as [h segs d]; cbn [header] in *; clear - H27; header_cases h; reflexivity.
  - intros i q. destruct i as [|i]; cbn [lookup list_lookup].
    + intros [= <-]. rewrite Z.add_0_r. split_conj; (done || congruence).
    + intros Hi. destruct (Hb i q Hi) as (Hiw & Hic & His & Hin). split_conj; [done|done|done|]. rewrite Hin. unfold wrap_u.
      rewrite Zplus_mod_idemp_l. f_equal. lia.
  - constructor; [by apply same_numbered|done].
Qed.

(** Audio pages that were renumbered from [from] on, or copied when [from] is the number they had. *)
Definition renumbering (serial : bytes) (from : Z) (rest tail : bytes) : Prop :=
  exists pages pages', rest = flat_map page_raw pages /\ tail = flat_map page_raw pages' /\
    Forall2 same_page pages pages' /\ well_written serial from pages'.

Lemma few_pages serial pages id comment others comment' :
  Forall wf_page pages -> pages_len pages <= MAX_TAG_BYTES -> carry pages (id :: comment :: others) ->
  (length others <= 1)%nat -> len comment' <= MAX_TAG_BYTES ->
  next_number (length (pages_of serial false 1 [] (flat_map laced (comment' :: others)))) =
    1 + len (pages_of serial false 1 [] (flat_map laced (comment' :: others))).
Proof.
  intros Hw Hmax Hcarry Hothers Hcomment. unfold next_number, wrap_u, len at 1. apply Z.mod_small.
  pose proof (chunks_length pages Hw) as Hc. pose proof (assemble_concat [] (flat_map chunks_of pages)) as Ha.
  unfold carry in Hcarry. rewrite Hcarry in Ha. cbn [fst snd concat app] in Ha. rewrite app_nil_r in Ha. rewrite <- Ha, !len_app in Hc.
  pose proof (pages_of_length serial false 1 [] (flat_map laced (comment' :: others))) as Hp. cbn [length] in Hp.
  pose proof (laced_length (comment' :: others)) as Hl. cbn [length concat] in Hl. rewrite length_app in Hl.
  pose proof (len_nonneg id). pose proof (len_nonneg comment). unfold MAX_TAG_BYTES, len in *. lia.
Qed.

Lemma renumbered_rest fuel serial n l tail :
  Forall byte_ok l -> 0 <= n < 2 ^ 32 -> renumbered fuel serial n l = Some tail -> renumbering serial n l tail.
Proof.
  intros Hl Hn Hr. destruct (renumbered_spec _ _ _ _ _ Hl Hr) as (pages & -> & Hw & Hs & ->).
  destruct (number_from_written serial n pages Hn Hw Hs) as (Hsound & Hwritten & Hsame).
  exists pages, (map sealed (number_from n pages)). split_conj; [done| |done|done]. by apply seal_raw.
Qed.

Lemma pages_raw_len pages : Forall wf_page pages -> len (flat_map page_raw pages) = pages_len pages.
Proof.
  induction 1 as [|p pages [(H27 & _) _ _] _ IH]; [done|]. change (pages_len (p :: pages)) with (page_len p + pages_len pages).
  cbn [flat_map]. unfold page_raw at 1, page_len. rewrite !len_app, IH. unfold len at 1. lia.
Qed.

Lemma ogg_edit_spec fields cover l out :
  Forall byte_ok l -> ogg_edit base64 fields cover l = Some out ->
  exists first old rest new tail opus id comment comment' others,
    l = flat_map page_raw (first :: old) ++ rest /\ Forall wf_page (first :: old) /\
    codec (page_data first) = Some (opus, length (id :: comment :: others)) /\
    carry (first :: old) (id :: comment :: others) /\
    out = page_raw (sealed first) ++ flat_map page_raw new ++ tail /\
    carry new (comment' :: others) /\ well_written (serial_of first) 1 new /\ marked false new /\
    edited_tags opus fields cover comment comment' /\
    (length new = length old /\ tail = rest \/
     length new <> length old /\ renumbering (serial_of first) (1 + len new) rest tail).
Proof.
  intros Hl. unfold ogg_edit. destruct (next_page l) as [[[first rest0]|]|] eqn:En; [|done|done].
  destruct (next_page_sound _ _ _ Hl En) as [El Hwf]. pose proof (proj1 (wf_header _ Hwf)) as H27.
  assert (Forall byte_ok rest0) as Hrest0 by (rewrite El, Forall_app in Hl; apply Hl).
  destruct (codec _) as [[opus count]|] eqn:Ec; [|done]. pose proof (codec_count _ _ _ Ec) as Hcount. cbv zeta.
  destruct (parse_header _ _ _ _ _ _ _ _ _) as [[[[packets bytes_read] pages] rest]|] eqn:Eh; [|done].
  destruct (parse_header_spec _ count _ _ _ _ [] _ _ _ _ _ _ Hrest0 Hwf ltac:(simpl; lia) Eh)
    as (old & added & Erest & Hold & Hserials & Hpages & Hread & Hmax & Hadded & -> & Hlength). cbn [app] in *.
  destruct added as [|id [|comment others]]; [simpl in Hlength; lia|simpl in Hlength; lia|]. cbn [nth drop].
  destruct (edited_packet _ _ _ _ _) as [comment'|] eqn:Ee; [|done]. destruct (edited_packet_spec _ _ _ _ _ Ee) as [Htags Hclen].
  assert (Forall byte_ok rest) as Hrest by (rewrite Erest, Forall_app in Hrest0; apply Hrest0).
  assert (length (serial_of first) = 4%nat) as Hserial by (unfold serial_of; rewrite length_take, length_drop; lia).
  assert (Forall byte_ok (serial_of first)) as Hsb by (apply Forall_take, Forall_drop, (wf_header _ Hwf)).
  assert (Forall (fun c => len c <= 255) (flat_map laced (comment' :: others))) as Hsmall.
  { apply Forall_flat_map. apply Forall_forall. intros p _. apply lace_small. }
  destruct (pages_of_written _ _ Hserial Hsb Hsmall) as [Hsound Hwritten].
  assert (Forall wf_page (first :: old)) as Hall by (by constructor).
  assert (length others <= 1)%nat as Hothers.
  { unfold codec in Ec. simpl in Hlength. destruct (begins _ _); [injection Ec as <- <-; lia|].
    destruct (begins _ _); [injection Ec as <- <-; lia|done]. }
  pose proof (few_pages (serial_of first) _ _ _ _ _ Hall ltac:(lia) Hadded Hothers Hclen) as Hnumber.
  pose proof (pages_of_chunks (serial_of first) false 1 [] (flat_map laced (comment' :: others))) as Hchunks.
  pose proof (pages_of_marked (serial_of first) false 1 [] (flat_map laced (comment' :: others)) Hserial) as Hmarked.
  set (new := pages_of _ false 1 [] _) in *. rewrite Hnumber, (seal_sealed first), seal_raw by done.
  intros (tail & Htail & ->)%fmap_Some.
  exists first, old, rest, (map sealed new), tail, opus, id, comment, comment', others.
  assert (len (map sealed new) = len new) as Hsame by (unfold len; by rewrite length_map).
  split_conj; try done.
  - cbn [flat_map]. by rewrite <- app_assoc, <- Erest.
  - by rewrite Hlength.
  - unfold carry. rewrite chunks_sealed, Hchunks. apply assemble_laced.
  - rewrite Hsame, length_map. unfold len in Hnumber, Hpages, Htail |- *.
    destruct (Z.eqb_spec (1 + Z.of_nat (length new)) pages) as [Heq|Hne]; [left|right; split; [lia|]].
    + split; [lia|]. injection Htail as <-. rewrite El, Erest, app_assoc. apply drop_app_length'.
      pose proof (pages_raw_len _ Hall) as Hraw. cbn [flat_map] in Hraw. unfold len in Hraw. lia.
    + eapply renumbered_rest; [done| |exact Htail]. rewrite <- Hnumber. apply Z.mod_pos_bound. lia.
Qed.

Lemma wp_rewrite_ogg_tags fields cover s :
  wp (rewrite_ogg_tags base64 fields cover)
    (fun _ s' => exists out, ogg_edit base64 (artist_mode_fields fields) (not_empty cover) content = Some out /\ written s' = written s ++ out)
    (fun _ _ => calm -> too_long fields = true \/ ogg_edit base64 (artist_mode_fields fields) (not_empty cover) content = None) s.
Proof.
  unfold rewrite_ogg_tags. apply wp_bind, wp_check; [|by intros e s1 Hc]. intros s1 Hp1 Hw1.
  apply wp_bind. unfold validate_fields, too_long. destruct (MAX_TAG_BYTES <? _); [apply wp_throw; by left|].
  apply wp_ret, wp_bind, wp_seek; [|by intros e s2 Hc]. intros s2 Hp2 Hw2. eapply wp_mono; [by apply wp_rewrite_ogg| |].
  - intros _ s3 (out & Ho & Hw3). exists out. split; [done|congruence].
  - intros e s3 Hc Hcalm. right. auto.
Qed.

(** C8: Editing the tags of an Ogg file keeps its other packets and its audio.  An edit that succeeds
    writes pages that are well formed, with right checksums and consecutive numbers: the first page as
    it was, then the comment packet with the edited comments and the other header packets unchanged,
    laid out on pages that are marked where a packet goes on, then the audio byte for byte, or, when
    the header takes another number of pages, the audio pages with nothing but their numbers and
    checksums changed.  It fails, when nothing outside failed, only where [ogg_edit] refuses the file
    or the fields are too long. *)
Theorem rewrite_ogg_keeps_audio fields cover s :
  let given := artist_mode_fields fields in
  match rewrite_ogg_tags base64 fields cover s with
  | (Ok _, s') => exists first old rest new tail opus id comment comment' others,
      content = flat_map page_raw (first :: old) ++ rest /\ Forall wf_page (first :: old) /\
      codec (page_data first) = Some (opus, length (id :: comment :: others)) /\
      carry (first :: old) (id :: comment :: others) /\
      written s' = written s ++ page_raw (sealed first) ++ flat_map page_raw new ++ tail /\
      (same_page first (sealed first) /\ sequence_of (sealed first) = sequence_of first /\ checksum_ok (sealed first)) /\
      carry new (comment' :: others) /\ well_written (serial_of first) 1 new /\ marked false new /\
      edited_tags opus given (not_empty cover) comment comment' /\
      (length new = length old /\ tail = rest \/
       length new <> length old /\ renumbering (serial_of first) (1 + len new) rest tail)
  | (Err _, _) => calm -> too_long fields = true \/ ogg_edit base64 given (not_empty cover) content = None
  end.
Proof.
  cbv zeta. pose proof (wp_rewrite_ogg_tags fields cover s) as Hwp. unfold wp in Hwp.
  destruct (rewrite_ogg_tags base64 fields cover s) as [[[]|e] s']; [|done]. destruct Hwp as (out & Ho & Hw).
  destruct (ogg_edit_spec _ _ _ _ content_bytes Ho) as
    (first & old & rest & new & tail & opus & id & comment & comment' & others & Hl & Hwf & Hcodec & Hcarry & -> & Hrest).
  exists first, old, rest, new, tail, opus, id, comment, comment', others.
  pose proof Hwf as Hfirst. rewrite Forall_cons in Hfirst. destruct (sealed_own first (proj1 Hfirst)) as (_ & Hck & Hsame & Hseq & _).
  tauto.
Qed.
End steps.

(** ** An example: an Opus file whose comments are edited *)

Module OggExample.
Import FlacExample.

Definition plain_page (flags seq : Z) (chunks : list bytes) : OggPage :=
  mkPage (str_bytes "OggS" ++ [0; flags] ++ repeat 0 8 ++ [7; 0; 0; 0] ++ le_bytes 4 seq ++ [0; 0; 0; 0; len chunks])
    (map len chunks) (concat chunks).

Definition comments_of (comments : list bytes) : bytes := str_bytes "OpusTags" ++ put_comments (str_bytes "enc") comments.

Definition opus_file (comments : list bytes) : bytes :=
  flat_map seal [plain_page 2 0 [str_bytes "OpusHead" ++ [1; 2; 0; 0]]; plain_page 0 1 [comments_of comments];
                 plain_page 4 2 [[11; 12]; [13]]].

Lemma opus_bytes : Forall byte_ok (opus_file [comment "ARTIST" "Somebody"; comment "TITLE" "Old"]).
Proof. vm_compute. repeat constructor; done. Qed.

(** The title is replaced, and the rest is what it was. *)
Example opus_edited :
  (@rewrite_ogg_tags (file_of _ opus_bytes) _ _ _ (fun _ => ""%string) title None (mkIo 0 0 [])) .2.(written) =
    opus_file [comment "ARTIST" "Somebody"; comment "TITLE" "Song"].
Proof. vm_compute. reflexivity. Qed.

(** A first page that holds the comment packet as well is kept, so the old comments stay in front of
    the new ones. *)
Definition shared_page : OggPage :=
  plain_page 2 0 [str_bytes "OpusHead" ++ [1; 2; 0; 0]; comments_of [comment "TITLE" "Old"]].
Definition shared_file : bytes := flat_map seal [shared_page; plain_page 4 1 [[11; 12]]].

Lemma shared_bytes : Forall byte_ok shared_file.
Proof. vm_compute. repeat constructor; done. Qed.

Lemma shared_first_page :
  exists ticks position, @rewrite_ogg_tags (file_of _ shared_bytes) _ _ _ (fun _ => ""%string) title None (mkIo 0 0 []) =
    (Ok tt, mkIo ticks position
      (flat_map seal [shared_page; plain_page 0 1 [comments_of [comment "TITLE" "Song"]]; plain_page 4 2 [[11; 12]]])).
Proof. do 2 eexists. vm_compute. reflexivity. Qed.
End OggExample.
