(* ===== verification/CharText.v ===== *)
(** * Text by characters

    Where the engine walks over the characters of a [str], the text is the list of its Unicode scalar
    values; byte offsets and lengths count the UTF-8 encoding of each.  An offset that is not between two
    characters panics in the code, and is [None] here. *)

From S2P Require Import Prelude.

Abbreviation text := (list Z).

(** The characters of a literal of ASCII characters. *)
Definition lit (s : string) : text := str_bytes s.

Definition char_eqb : Z -> Z -> bool := Z.eqb.
Definition any_of (cs : text) (c : Z) : bool := existsb (Z.eqb c) cs.

Lemma any_of_spec cs c : any_of cs c = true <-> c ∈ cs.
Proof.
  unfold any_of. rewrite existsb_exists. split.
  - intros (x & Hx & E%Z.eqb_eq). subst. by apply list_elem_of_In.
  - intros Hc%list_elem_of_In. exists c. by rewrite Z.eqb_refl.
Qed.

(** [char::is_control] and [char::is_whitespace]. *)
Definition is_control (c : Z) : bool := in_range 0 31 c || in_range 127 159 c.
Definition is_whitespace (c : Z) : bool :=
  in_range 9 13 c || any_of [32; 133; 160; 5760; 8232; 8233; 8239; 8287; 12288] c || in_range 8192 8202 c.

(** ** Lengths and offsets in bytes *)

Definition len_utf8 (c : Z) : Z := if c <? 128 then 1 else if c <? 2048 then 2 else if c <? 65536 then 3 else 4.
Fixpoint text_len (l : text) : Z := match l with [] => 0 | c :: l => len_utf8 c + text_len l end.

Lemma len_utf8_pos c : 1 <= len_utf8 c <= 4.
Proof. unfold len_utf8. repeat case_bool; lia. Qed.
Lemma text_len_nonneg l : 0 <= text_len l.
Proof. induction l as [|c l IH]; simpl; [lia|]. pose proof (len_utf8_pos c). lia. Qed.
Lemma text_len_app l k : text_len (l ++ k) = text_len l + text_len k.
Proof. induction l as [|c l IH]; simpl; lia. Qed.
Lemma text_len_ge l : len l <= text_len l.
Proof. induction l as [|c l IH]; [done|]. rewrite len_cons. simpl. pose proof (len_utf8_pos c). lia. Qed.

Fixpoint is_char_boundary (l : text) (n : Z) : bool :=
  (n =? 0) || match l with [] => false | c :: l => (0 <? n) && is_char_boundary l (n - len_utf8 c) end.

(** [&text[..n]]. *)
Fixpoint slice_to (l : text) (n : Z) : option text :=
  if n =? 0 then Some []
  else match l with
       | [] => None
       | c :: l => if 0 <? n then cons c <$> slice_to l (n - len_utf8 c) else None
       end.

(** [while !text.is_char_boundary(end) { end -= 1 }]; 0 is a boundary, so [end] passes are enough. *)
Fixpoint floor_boundary (fuel : nat) (l : text) (n : Z) : Z :=
  if is_char_boundary l n then n
  else match fuel with O => n | S fuel => floor_boundary fuel l (n - 1) end.

Definition slice_floor (l : text) (n : Z) : option text := slice_to l (floor_boundary (Z.to_nat n) l n).

Lemma slice_boundary l n : is_char_boundary l n = true -> exists x, slice_to l n = Some x /\ x `prefix_of` l /\ text_len x = n.
Proof.
  revert n. induction l as [|c l IH]; intros n Hn; simpl in *; (destruct (Z.eqb_spec n 0) as [E|];
    [exists []; split_conj; [done|apply prefix_nil|done]|]); simpl in *; [done|].
  apply andb_true_iff in Hn as [H0 Hn]. rewrite H0. destruct (IH _ Hn) as (x & -> & Hx & Hl).
  exists (c :: x). split_conj; [done|by apply prefix_cons|]. simpl. lia.
Qed.

Lemma floor_boundary_spec fuel l n : 0 <= n -> n <= Z.of_nat fuel ->
  is_char_boundary l (floor_boundary fuel l n) = true /\ 0 <= floor_boundary fuel l n <= n.
Proof.
  revert n. induction fuel as [|fuel IH]; intros n H0 Hn; cbn [floor_boundary].
  - replace n with 0 by lia. by destruct l.
  - destruct (is_char_boundary l n) eqn:E; [split; [done|lia]|].
    assert (n <> 0) by (intros ->; by destruct l). destruct (IH (n - 1)) as [H1 H2]; [lia..|]. split; [done|lia].
Qed.

(** Cutting at the last boundary never panics and keeps a prefix of at most the given length. *)
Lemma slice_floor_spec l n : 0 <= n -> exists x, slice_floor l n = Some x /\ x `prefix_of` l /\ text_len x <= n.
Proof.
  intros Hn. unfold slice_floor. destruct (floor_boundary_spec (Z.to_nat n) l n) as [Hb Hl]; [lia..|].
  destruct (slice_boundary _ _ Hb) as (x & Hs & Hp & Hx).
  exists x. rewrite Hs. split_conj; [done|done|lia].
Qed.

(** ** Trimming *)

Fixpoint trim_start_matches (p : Z -> bool) (l : text) : text :=
  match l with [] => [] | c :: l' => if p c then trim_start_matches p l' else l end.
Definition trim_end_matches (p : Z -> bool) (l : text) : text := rev (trim_start_matches p (rev l)).
Definition trim_matches (p : Z -> bool) (l : text) : text := trim_end_matches p (trim_start_matches p l).
Definition trim_text : text -> text := trim_matches is_whitespace.

(** A text is a contiguous part of another. *)
Definition part_of (x l : text) : Prop := exists a b, l = a ++ x ++ b.

Lemma part_refl l : part_of l l.
Proof. exists [], []. by rewrite app_nil_r. Qed.
Lemma part_trans x y z : part_of x y -> part_of y z -> part_of x z.
Proof. intros (a & b & ->) (c & d & ->). exists (c ++ a), (b ++ d). by rewrite <- !app_assoc. Qed.
Lemma part_prefix x l : x `prefix_of` l -> part_of x l.
Proof. intros [b ->]. by exists [], b. Qed.
Lemma part_Forall (P : Z -> Prop) x l : part_of x l -> Forall P l -> Forall P x.
Proof. intros (a & b & ->). rewrite !Forall_app. tauto. Qed.
Lemma part_len x l : part_of x l -> text_len x <= text_len l.
Proof. intros (a & b & ->). rewrite !text_len_app. pose proof (text_len_nonneg a). pose proof (text_len_nonneg b). lia. Qed.

Lemma trim_start_suffix p l : exists a, l = a ++ trim_start_matches p l /\ Forall (fun c => p c = true) a.
Proof.
  induction l as [|c l [a [IH Ha]]]; [by exists []|]. simpl. destruct (p c) eqn:E; [|by exists []].
  exists (c :: a). simpl. split; [by f_equal|by constructor].
Qed.

Lemma trim_matches_split p l : exists a b, l = a ++ trim_matches p l ++ b /\
  Forall (fun c => p c = true) a /\ Forall (fun c => p c = true) b.
Proof.
  unfold trim_matches, trim_end_matches. destruct (trim_start_suffix p l) as (a & Ha & Hpa).
  destruct (trim_start_suffix p (rev (trim_start_matches p l))) as (b & Hb & Hpb). exists a, (rev b). split_conj; [|done|by apply Forall_rev].
  rewrite Ha at 1. f_equal. apply (f_equal (@rev Z)) in Hb. by rewrite rev_involutive, rev_app_distr in Hb.
Qed.

Lemma trim_part p l : part_of (trim_matches p l) l.
Proof. destruct (trim_matches_split p l) as (a & b & E & _). by exists a, b. Qed.
Lemma trim_text_part l : part_of (trim_text l) l.
Proof. apply trim_part. Qed.

(** Neither end of a text satisfies a predicate. *)
Definition ends_free (p : Z -> bool) (l : text) : Prop :=
  (forall c, head l = Some c -> p c = false) /\ (forall c, last l = Some c -> p c = false).

Lemma trim_start_head p l c : head (trim_start_matches p l) = Some c -> p c = false.
Proof. induction l as [|d l IH]; simpl; [done|]. destruct (p d) eqn:E; [done|]. simpl. intros [= <-]. done. Qed.

Lemma last_rev (l : text) : last (rev l) = head l.
Proof. destruct l as [|a l]; [done|]. simpl. by rewrite last_snoc. Qed.
Lemma head_rev (l : text) : head (rev l) = last l.
Proof. rewrite <- (rev_involutive l) at 2. by rewrite last_rev. Qed.

Lemma trim_ends p l : ends_free p (trim_matches p l).
Proof.
  split; unfold trim_matches, trim_end_matches.
  - intros c. destruct (trim_start_suffix p (rev (trim_start_matches p l))) as (b & Hb & _).
    rewrite head_rev. intros Hc. apply (trim_start_head p l). rewrite <- last_rev, Hb, last_app, Hc. done.
  - intros c. rewrite last_rev. apply trim_start_head.
Qed.

Lemma trim_start_id p l : (forall c, head l = Some c -> p c = false) -> trim_start_matches p l = l.
Proof. destruct l as [|c l]; [done|]. intros Hc. simpl. by rewrite Hc. Qed.
Lemma trim_id p l : ends_free p l -> trim_matches p l = l.
Proof.
  intros [H1 H2]. unfold trim_matches, trim_end_matches. rewrite (trim_start_id p l) by done.
  rewrite trim_start_id; [apply rev_involutive|]. intros c. rewrite head_rev. apply H2.
Qed.

Lemma ends_free_mono (p q : Z -> bool) l : (forall c, c ∈ l -> q c = true -> p c = true) -> ends_free p l -> ends_free q l.
Proof.
  intros Hpq [Hh Hl]. split; intros c Hc; destruct (q c) eqn:E; try done; exfalso.
  - specialize (Hh c Hc). rewrite Hpq in Hh; [done| |done]. destruct l; [done|]. simpl in Hc. simplify_eq. left.
  - specialize (Hl c Hc). rewrite Hpq in Hl; [done| |done]. by apply last_Some_elem_of in Hc.
Qed.

Lemma ends_free_or p q l : ends_free p l -> ends_free q l -> ends_free (fun c => p c || q c) l.
Proof. intros [Hp1 Hp2] [Hq1 Hq2]. split; intros c Hc; [rewrite Hp1, Hq1|rewrite Hp2, Hq2]; done. Qed.

(** ** Searching and replacing *)

Fixpoint strip_prefix (p l : text) : option text :=
  match p, l with
  | [], _ => Some l
  | a :: p, b :: l => if a =? b then strip_prefix p l else None
  | _ :: _, [] => None
  end.
Definition text_starts_with (l p : text) : bool := bool_decide (is_Some (strip_prefix p l)).
Definition text_ends_with (l p : text) : bool := text_starts_with (rev l) (rev p).

Fixpoint contains (l p : text) : bool :=
  text_starts_with l p || match l with [] => false | _ :: l => contains l p end.

(** [replace] of a pattern that is not empty: each match is skipped, and matches do not overlap. *)
Fixpoint replace_from (skip : nat) (p r l : text) : text :=
  match l with
  | [] => []
  | c :: l' =>
    match skip with
    | S skip => replace_from skip p r l'
    | O => if text_starts_with l p then r ++ replace_from (length p - 1) p r l' else c :: replace_from 0 p r l'
    end
  end.
Definition replace (l p r : text) : text := replace_from 0 p r l.

Lemma strip_prefix_same p r : strip_prefix p (p ++ r) = Some r.
Proof. induction p as [|a p IH]; [done|]. simpl. by rewrite Z.eqb_refl. Qed.
Lemma strip_prefix_spec p l r : strip_prefix p l = Some r <-> l = p ++ r.
Proof.
  split; [|intros ->; apply strip_prefix_same]. revert l. induction p as [|a p IH]; intros l; simpl; [by intros [= ->]|].
  destruct l as [|b l]; [done|]. destruct (Z.eqb_spec a b) as [->|]; [|done]. intros E. by rewrite (IH l).
Qed.
Lemma starts_with_spec l p : text_starts_with l p = true <-> p `prefix_of` l.
Proof.
  unfold text_starts_with. rewrite bool_decide_eq_true. split.
  - intros [r E%strip_prefix_spec]. by exists r.
  - intros [r ->]. rewrite strip_prefix_same. eauto.
Qed.
Lemma contains_spec l p : contains l p = true <-> part_of p l.
Proof.
  split.
  - induction l as [|c l IH]; cbn [contains]; rewrite orb_true_iff, starts_with_spec.
    + intros [Hp|]; [by apply part_prefix|done].
    + intros [Hp|Hp]; [by apply part_prefix|]. destruct (IH Hp) as (a & b & ->). by exists (c :: a), b.
  - intros (a & b & ->). induction a as [|c a IH].
    + simpl. destruct (p ++ b) eqn:E; cbn [contains]; rewrite <- E, orb_true_iff; left; apply starts_with_spec; by exists b.
    + change ((c :: a) ++ p ++ b) with (c :: (a ++ p ++ b)). cbn [contains]. rewrite IH. apply orb_true_r.
Qed.

(** ** Words *)

(** [split_whitespace]: the parts between runs of white space. *)
Fixpoint split_words (word : text) (l : text) : list text :=
  match l with
  | [] => match word with [] => [] | _ => [word] end
  | c :: l =>
    if is_whitespace c then match word with [] => split_words [] l | _ => word :: split_words [] l end
    else split_words (word ++ [c]) l
  end.
Definition split_whitespace : text -> list text := split_words [].

Fixpoint join (sep : text) (ws : list text) : text :=
  match ws with [] => [] | [w] => w | w :: ws => w ++ sep ++ join sep ws end.

Definition is_word (w : text) : Prop := w <> [] /\ Forall (fun c => is_whitespace c = false) w.

Lemma split_words_words word l : Forall (fun c => is_whitespace c = false) word -> Forall is_word (split_words word l).
Proof.
  revert word. induction l as [|c l IH]; intros word Hw; cbn [split_words].
  - destruct word; constructor; [by split|constructor].
  - destruct (is_whitespace c) eqn:E.
    + destruct word; [by apply IH|]. constructor; [by split|by apply IH].
    + apply IH, Forall_app. split; [done|]. by constructor.
Qed.

Lemma split_words_elem word l w c : w ∈ split_words word l -> c ∈ w -> c ∈ word \/ c ∈ l.
Proof.
  revert word. induction l as [|d l IH]; intros word; cbn [split_words].
  - destruct word; [by intros ?%elem_of_nil|]. intros ->%list_elem_of_singleton. tauto.
  - destruct (is_whitespace d).
    + destruct word; [intros Hw Hc; right; apply elem_of_cons; right|].
      * destruct (IH [] Hw Hc) as [?%elem_of_nil|]; done.
      * rewrite elem_of_cons. intros [->|Hw] Hc; [tauto|]. right. apply elem_of_cons. right. by destruct (IH [] Hw Hc) as [?%elem_of_nil|].
    + intros Hw Hc. destruct (IH _ Hw Hc) as [[?|?%list_elem_of_singleton]%elem_of_app|?]; subst; set_solver.
Qed.

(** ** Neighbours *)

(** Every two neighbouring characters are related. *)
Definition adjacent (R : Z -> Z -> Prop) (l : text) : Prop := forall x a b y, l = x ++ a :: b :: y -> R a b.

Lemma adjacent_part R x l : part_of x l -> adjacent R l -> adjacent R x.
Proof. intros (a & b & ->) Hl u c d v ->. apply (Hl (a ++ u) c d (v ++ b)). by rewrite <- !app_assoc. Qed.

Lemma adjacent_nil R : adjacent R [].
Proof. intros x a b y E. by destruct x. Qed.

Lemma adjacent_app R l k : adjacent R l -> adjacent R k ->
  (forall a b, last l = Some a -> head k = Some b -> R a b) -> adjacent R (l ++ k).
Proof.
  intros Hl Hk Hlk x a b y E.
  apply app_eq_inv in E as [(m & -> & E)|(m & -> & E)].
  - destruct m as [|c m]; simpl in E.
    + subst k. apply (Hk [] a b y). done.
    + injection E as <- E. destruct m as [|d m]; simpl in E.
      * subst k. apply Hlk; [by rewrite last_snoc|done].
      * injection E as <- ->. by apply (Hl x a b m).
  - subst k. by apply (Hk m a b y).
Qed.

Lemma adjacent_snoc R l c : adjacent R l -> (forall a, last l = Some a -> R a c) -> adjacent R (l ++ [c]).
Proof.
  intros Hl Hc. apply adjacent_app; [done| |].
  - intros x a b y E. destruct x as [|? [|]]; simplify_eq/=.
  - intros a b Ha [= <-]. by apply Hc.
Qed.

(** [split(c)]: the parts between a character. *)
Fixpoint split_on (c : Z) (part l : text) : list text :=
  match l with
  | [] => [part]
  | b :: l => if b =? c then part :: split_on c [] l else split_on c (part ++ [b]) l
  end.
Definition split_all (c : Z) : text -> list text := split_on c [].

Lemma split_on_app c part l k : split_on c part (l ++ c :: k) = split_on c part l ++ split_all c k.
Proof.
  revert part. induction l as [|b l IH]; intros part; cbn [app split_on]; [by rewrite Z.eqb_refl|].
  destruct (b =? c); [cbn [app]; by rewrite IH|apply IH].
Qed.
Lemma split_all_app c l k : split_all c (l ++ c :: k) = split_all c l ++ split_all c k.
Proof. apply split_on_app. Qed.
Lemma split_all_cons c k : split_all c (c :: k) = [] :: split_all c k.
Proof. apply (split_all_app c [] k). Qed.

Lemma split_on_no_sep c part l : Forall (fun b => b <> c) part -> Forall (Forall (fun b => b <> c)) (split_on c part l).
Proof.
  revert part. induction l as [|b l IH]; intros part Hp; cbn [split_on]; [by constructor|].
  destruct (Z.eqb_spec b c); [constructor; [done|by apply IH]|]. apply IH, Forall_app. split; [done|]. by constructor.
Qed.
Lemma split_all_parts c l : Forall (Forall (fun b => b <> c)) (split_all c l).
Proof. apply split_on_no_sep. constructor. Qed.

Lemma split_on_whole c part l : Forall (fun b => b <> c) l -> split_on c part l = [part ++ l].
Proof.
  intros Hl. revert part. induction Hl as [|b l Hb Hl IH]; intros part; cbn [split_on]; [by rewrite app_nil_r|].
  destruct (Z.eqb_spec b c); [done|]. by rewrite IH, <- app_assoc.
Qed.
Lemma split_all_whole c l : Forall (fun b => b <> c) l -> split_all c l = [l].
Proof. apply split_on_whole. Qed.
