(* ===== verification/FileNames.v ===== *)
(** * File names: [crates/core/src/filename.rs] and the names of downloads
    ([crates/extensions/src/backend/downloads/paths.rs])

    A name made from titles and templates becomes one component of a path.  What a sanitized name may
    hold, how long it may be and where its ends are trimmed is [safe_name]; [None] is a panic, which
    the theorems exclude. *)

From S2P Require Import Prelude CharText.

(** ** [sanitize_filename] *)

Definition MAX_SANITIZED_FILENAME_BYTES : Z := 200.

(** The characters file systems reserve: the angle brackets, the colon, the double quote, both slashes,
    the bar, the question mark and the asterisk. *)
Definition reserved : text := [60; 62; 58; 34; 47; 92; 124; 63; 42].

Definition filter_char (c : Z) : text :=
  if any_of reserved c || (c <=? 31) then [32] else if negb (is_control c) then [c] else [].

Definition push_char (normalized : text) (c : Z) : text :=
  if negb (c =? 95) || negb (bool_decide (last normalized = Some 95)) then normalized ++ [c] else normalized.

Definition push_word (normalized word : text) : text :=
  fold_left push_char word (match normalized with [] => [] | _ => normalized ++ [32] end).

Definition normalize_words (words : list text) : text := fold_left push_word words [].

Definition dot_or_space : Z -> bool := any_of (lit ". ").
Definition underscore_or_space : Z -> bool := any_of (lit "_ ").

Definition sanitize_filename (filename : text) : option text :=
  let filtered := flat_map filter_char filename in
  let trimmed := trim_matches dot_or_space (trim_text filtered) in
  let normalized := normalize_words (split_whitespace trimmed) in
  let sanitized := trim_matches underscore_or_space normalized in
  sanitized ← (if MAX_SANITIZED_FILENAME_BYTES <? text_len sanitized then
                 cut ← slice_floor sanitized MAX_SANITIZED_FILENAME_BYTES;
                 Some (trim_matches underscore_or_space (trim_text (trim_matches dot_or_space cut)))
               else Some sanitized);
  Some (match sanitized with [] => lit "Unknown" | _ => sanitized end).

Definition truncate_utf8_bytes (value : text) (max_bytes : Z) : option text :=
  if text_len value <=? max_bytes then Some value else slice_floor value max_bytes.

Definition sanitize_filename_preserving_token (filename token : text) : option text :=
  sanitized ← sanitize_filename filename;
  let token := trim_text token in
  if bool_decide (token = []) || negb (contains filename token) || contains sanitized token then Some sanitized
  else
    safe_token ← sanitize_filename token;
    let suffix := lit " - " ++ safe_token in
    let prefix_limit := sat_sub MAX_SANITIZED_FILENAME_BYTES (text_len suffix) in
    if prefix_limit =? 0 then truncate_utf8_bytes safe_token MAX_SANITIZED_FILENAME_BYTES
    else
      let raw_prefix := replace filename token [] in
      let raw_prefix := trim_matches (any_of (lit " _-")) raw_prefix in
      prefix ← sanitize_filename raw_prefix;
      prefix ← truncate_utf8_bytes prefix prefix_limit;
      let prefix := trim_text (trim_matches (any_of (lit ". _-")) prefix) in
      if bool_decide (prefix = []) || bool_decide (prefix = lit "Unknown") then Some safe_token
      else Some (prefix ++ suffix).

Example sanitize_ex : sanitize_filename (lit " ../AC:DC__live?  take_ .") = Some (lit "AC DC_live take").
Proof. reflexivity. Qed.
Example sanitize_token_ex :
  sanitize_filename_preserving_token (lit "a: title [24/96]") (lit "24/96") = Some (lit "a title [] - 24 96").
Proof. vm_compute. reflexivity. Qed.

(** ** What a sanitized name is *)

Definition plain_char (c : Z) : Prop := c ∉ reserved /\ 31 < c /\ is_control c = false.
Definition name_char (c : Z) : Prop := plain_char c /\ (is_whitespace c = true -> c = 32).
(** No two neighbouring spaces or underscores. *)
Definition tidy : text -> Prop := adjacent (fun a b => a = b -> a <> 32 /\ a <> 95).

Definition clean (l : text) : Prop := Forall name_char l /\ tidy l.
Definition safe_name (l : text) : Prop :=
  clean l /\ l <> [] /\ text_len l <= MAX_SANITIZED_FILENAME_BYTES /\ ends_free underscore_or_space l.

Lemma clean_part x l : part_of x l -> clean l -> clean x.
Proof. intros Hx [H1 H2]. split; [by eapply part_Forall|by eapply adjacent_part]. Qed.

Lemma clean_trim p l : clean l -> clean (trim_matches p l).
Proof. apply clean_part, trim_part. Qed.

Lemma name_char_space : name_char 32.
Proof. unfold name_char, plain_char. split_conj; [by intros ?%any_of_spec|lia|done|done]. Qed.

Lemma filter_chars l : Forall plain_char (flat_map filter_char l).
Proof.
  induction l as [|c l IH]; [constructor|]. simpl. apply Forall_app. split; [|done]. unfold filter_char.
  destruct (any_of reserved c || (c <=? 31)) eqn:E; [constructor; [apply name_char_space|constructor]|].
  apply orb_false_iff in E as [E1 E3]. destruct (is_control c) eqn:E2; simpl; [constructor|]. constructor; [|constructor].
  unfold plain_char. split_conj; [intros Hc%any_of_spec; congruence|lia|done].
Qed.

Lemma push_char_clean n c : clean n -> name_char c -> (c = 32 -> last n <> Some 32) -> clean (push_char n c).
Proof.
  intros [H1 H2] Hc Hs. unfold push_char. destruct (negb (c =? 95) || _) eqn:E; [|by split]. split.
  - apply Forall_app. split; [done|by constructor].
  - apply adjacent_snoc; [done|]. intros a Ha ->. split; [intros ->; by apply Hs|intros ->].
    rewrite (bool_decide_eq_true_2 _ Ha) in E. done.
Qed.

Lemma push_word_clean n w : clean n -> last n <> Some 32 -> Forall name_char w -> is_word w ->
  clean (push_word n w) /\ last (push_word n w) <> Some 32.
Proof.
  intros Hn Hs Hw [Hne Hns]. unfold push_word.
  set (m := match n with [] => [] | _ => n ++ [32] end).
  assert (clean m) as Hm.
  { unfold m. destruct n as [|a n]; [done|]. split.
    - apply Forall_app. split; [apply Hn|]. constructor; [apply name_char_space|constructor].
    - apply adjacent_snoc; [apply Hn|]. intros c Hc ->. congruence. }
  assert (forall v n', Forall name_char v -> Forall (fun c => is_whitespace c = false) v -> clean n' ->
    clean (fold_left push_char v n') /\ ((v = [] -> last n' <> Some 32) -> last (fold_left push_char v n') <> Some 32)) as Hfold.
  { induction v as [|c v IH]; intros n' Hv Hnv Hn'; simpl; [split; [done|by intros H; apply H]|].
    apply Forall_cons in Hv as [Hc Hv]. apply Forall_cons in Hnv as [Hnc Hnv].
    assert (c <> 32) as H32 by (by intros ->).
    destruct (IH (push_char n' c)) as [IH1 IH2]; [done|done|by apply push_char_clean|]. split; [done|]. intros _. apply IH2.
    intros _. unfold push_char. destruct (negb (c =? 95) || negb (bool_decide (last n' = Some 95))) eqn:E.
    - rewrite last_snoc. congruence.
    - apply orb_false_iff in E as [_ E%negb_false_iff%bool_decide_eq_true]. congruence. }
  destruct (Hfold w m Hw Hns Hm) as [H1 H2]. split; [done|]. by apply H2.
Qed.

Lemma normalize_clean ws : Forall (Forall name_char) ws -> Forall is_word ws ->
  clean (normalize_words ws).
Proof.
  unfold normalize_words. intros Hc Hw.
  assert (forall n, clean n -> last n <> Some 32 -> clean (fold_left push_word ws n)) as H; [|apply H; [|done]; split; [constructor|apply adjacent_nil]].
  induction ws as [|w ws IH]; intros n Hn Hs; simpl; [done|].
  apply Forall_cons in Hc as [Hc Hcs]. apply Forall_cons in Hw as [Hw Hws].
  destruct (push_word_clean n w) as [H1 H2]; [done..|]. by apply IH.
Qed.

Lemma words_name_chars l : Forall plain_char l ->
  Forall (Forall name_char) (split_whitespace l).
Proof.
  intros Hl. apply Forall_forall. intros w Hw. apply Forall_forall. intros c Hc.
  assert (is_whitespace c = false) as Hnc.
  { assert (Forall is_word (split_whitespace l)) as Hws by (apply split_words_words; constructor).
    eapply Forall_forall in Hws as [_ Hws]; [|done]. by eapply Forall_forall in Hws. }
  destruct (split_words_elem [] l w c Hw Hc) as [?%elem_of_nil|Hcl]; [done|].
  eapply Forall_forall in Hl; [|done]. split; [done|congruence].
Qed.

Lemma name_char_plain c : any_of reserved c || (c <=? 31) || is_control c || is_whitespace c = false -> name_char c.
Proof.
  intros [[[Hr Hl]%orb_false_iff Hc]%orb_false_iff Hw]%orb_false_iff. unfold name_char, plain_char.
  split_conj; [intros ?%any_of_spec; congruence|lia|done|congruence].
Qed.

Lemma unknown_safe : safe_name (lit "Unknown").
Proof.
  unfold safe_name, clean, ends_free. split_conj; [| |done|done|by intros c [= <-]|by intros c [= <-]].
  - repeat (constructor; [by apply name_char_plain|]). constructor.
  - repeat (apply (adjacent_app _ [_]); [apply (adjacent_snoc _ []); [apply adjacent_nil|done]| |intros a b [= <-] [= <-]; done]).
    apply adjacent_nil.
Qed.

Lemma sanitize_some f : exists r, sanitize_filename f = Some r /\ safe_name r.
Proof.
  unfold sanitize_filename. set (normalized := normalize_words _).
  assert (clean (trim_matches underscore_or_space normalized)) as Hc.
  { apply clean_trim, normalize_clean; [|apply split_words_words; constructor]. apply words_name_chars.
    eapply part_Forall; [|apply filter_chars]. eapply part_trans; [apply trim_part|apply trim_text_part]. }
  pose proof (trim_ends underscore_or_space normalized) as Hends.
  set (sanitized := trim_matches underscore_or_space normalized) in *.
  assert (exists s, (if MAX_SANITIZED_FILENAME_BYTES <? text_len sanitized then
                 cut ← slice_floor sanitized MAX_SANITIZED_FILENAME_BYTES;
                 Some (trim_matches underscore_or_space (trim_text (trim_matches dot_or_space cut)))
               else Some sanitized) = Some s /\ clean s /\ text_len s <= MAX_SANITIZED_FILENAME_BYTES /\
    ends_free underscore_or_space s) as (s & -> & H1 & H2 & H3).
  { destruct (Z.ltb_spec MAX_SANITIZED_FILENAME_BYTES (text_len sanitized)); [|eauto].
    destruct (slice_floor_spec sanitized MAX_SANITIZED_FILENAME_BYTES) as (cut & -> & Hp%part_prefix & Hl); [done|].
    eexists. split; [done|].
    assert (part_of (trim_matches underscore_or_space (trim_text (trim_matches dot_or_space cut))) cut) as Hpart.
    { eapply part_trans; [apply trim_part|]. eapply part_trans; [apply trim_part|apply trim_part]. }
    split_conj; [eapply clean_part; [|done]; by eapply part_trans| |apply trim_ends]. apply part_len in Hpart. lia. }
  eexists. split; [reflexivity|]. destruct s; [apply unknown_safe|]. by split_conj.
Qed.

Lemma truncate_some value n : 0 <= n -> exists r, truncate_utf8_bytes value n = Some r /\ part_of r value /\ text_len r <= n /\
  (text_len value <= n -> r = value).
Proof.
  intros Hn. unfold truncate_utf8_bytes. destruct (Z.leb_spec (text_len value) n).
  - exists value. split_conj; [done|apply part_refl|done|done].
  - destruct (slice_floor_spec value n Hn) as (r & -> & Hr & Hl). exists r. split_conj; [done|by apply part_prefix|done|lia].
Qed.

Lemma head_app_some (l k : text) c : l <> [] -> head (l ++ k) = Some c -> head l = Some c.
Proof. by destruct l. Qed.
Lemma last_app_some (l k : text) c : k <> [] -> last (l ++ k) = Some c -> last k = Some c.
Proof. rewrite last_app. destruct (last k) eqn:E; [done|]. apply last_None in E. congruence. Qed.

(** A clean prefix that ends in neither a space nor an underscore joins a safe name by a dash. *)
Lemma join_safe prefix token : clean prefix -> prefix <> [] -> ends_free underscore_or_space prefix -> safe_name token ->
  text_len prefix <= sat_sub MAX_SANITIZED_FILENAME_BYTES (text_len (lit " - " ++ token)) ->
  sat_sub MAX_SANITIZED_FILENAME_BYTES (text_len (lit " - " ++ token)) <> 0 ->
  safe_name (prefix ++ lit " - " ++ token).
Proof.
  intros [Hp1 Hp2] Hne [Hpe1 Hpe2] ([Ht1 Ht2] & Htne & Htl & Hte1 & Hte2) Hl Hnz.
  assert (forall c, head token = Some c -> c <> 32) as Hhead by (intros c Hc ->; by apply Hte1 in Hc).
  assert (forall c, last prefix = Some c -> c <> 32) as Hlast by (intros c Hc ->; by apply Hpe2 in Hc).
  assert (tidy (lit " - " ++ token)) as Hmid.
  { apply adjacent_app; [|done|].
    - repeat (apply (adjacent_app _ [_]); [apply (adjacent_snoc _ []); [apply adjacent_nil|done]| |intros a b [= <-] [= <-]; done]).
      apply adjacent_nil.
    - intros a b [= <-] Hb <-. by apply Hhead in Hb. }
  unfold safe_name, ends_free, clean. split_conj.
  - apply Forall_app. split; [done|]. apply Forall_app. split; [|done].
    repeat (constructor; [first [apply name_char_space|by apply name_char_plain]|]). constructor.
  - apply adjacent_app; [done|done|]. intros a b Ha [= <-] ->. by apply Hlast in Ha.
  - by destruct prefix.
  - rewrite text_len_app. unfold sat_sub in *. lia.
  - intros c Hc%head_app_some; [|done]. by apply Hpe1.
  - intros c Hc%last_app_some; [|done]. apply last_app_some in Hc; [|done]. by apply Hte2.
Qed.

Lemma name_prefix_safe r l limit p : r = trim_text (trim_matches (any_of (lit ". _-")) p) -> part_of p l -> safe_name l -> text_len p <= limit ->
  clean r /\ ends_free underscore_or_space r /\ text_len r <= limit.
Proof.
  intros -> Hp (Hl & _) Hlen. set (t := trim_matches (any_of (lit ". _-")) p).
  assert (clean t) as Ht by (by eapply clean_part, clean_part; [apply trim_part|exact Hp|]).
  assert (ends_free underscore_or_space t) as He.
  { eapply ends_free_mono; [|apply trim_ends]. intros c _ Hc. apply any_of_spec in Hc. apply any_of_spec. set_solver. }
  assert (trim_text t = t) as Hid.
  { apply trim_id. eapply ends_free_mono; [|exact He]. intros c Hc Hw. destruct Ht as [Ht _].
    eapply Forall_forall in Ht as [_ Ht]; [|done]. by rewrite (Ht Hw). }
  rewrite Hid. split_conj; [done|done|]. unfold t. etransitivity; [apply part_len, trim_part|done].
Qed.

Lemma preserving_token_safe filename token :
  exists r, sanitize_filename_preserving_token filename token = Some r /\ safe_name r /\
    (contains filename (trim_text token) = true -> trim_text token <> [] ->
     exists t, (t = trim_text token \/ sanitize_filename (trim_text token) = Some t) /\ contains r t = true).
Proof.
  unfold sanitize_filename_preserving_token. destruct (sanitize_some filename) as (s & Hs & Hsafe). rewrite Hs. cbn [mbind option_bind].
  set (tok := trim_text token). destruct (bool_decide_reflect (tok = [])) as [|Htok]; [by exists s|].
  destruct (contains filename tok) eqn:Ec; [|by exists s]. destruct (contains s tok) eqn:Ecs; [exists s; split_conj; [done..|by exists tok; eauto]|]. cbn [orb negb].
  destruct (sanitize_some tok) as (t & Ht & Htsafe). rewrite Ht. cbn [mbind option_bind]. cbv zeta.
  assert (exists r, Some t = Some r /\ safe_name r /\ (true = true -> tok <> [] ->
     exists t', (t' = tok \/ Some t = Some t') /\ contains r t' = true)) as Htoken.
  { exists t. split_conj; [done..|]. intros _ _. exists t. split; [by right|]. apply contains_spec, part_refl. }
  destruct (Z.eqb_spec (sat_sub MAX_SANITIZED_FILENAME_BYTES (text_len (lit " - " ++ t))) 0) as [|Hnz].
  { destruct (truncate_some t MAX_SANITIZED_FILENAME_BYTES) as (r & -> & _ & _ & Hr); [done|]. rewrite Hr; [done|apply Htsafe]. }
  destruct (sanitize_some (trim_matches (any_of (lit " _-")) (replace filename tok []))) as (p & -> & Hp). cbn [mbind option_bind].
  destruct (truncate_some p (sat_sub MAX_SANITIZED_FILENAME_BYTES (text_len (lit " - " ++ t)))) as (q & -> & Hq & Hql & _);
    [unfold sat_sub; lia|]. cbn [mbind option_bind].
  set (prefix := trim_text (trim_matches (any_of (lit ". _-")) q)).
  destruct (name_prefix_safe prefix p _ q eq_refl Hq Hp Hql) as (Hclean & Hends & Hlen).
  destruct (bool_decide_reflect (prefix = [])); [done|]. destruct (bool_decide_reflect (prefix = lit "Unknown")); [done|]. cbn [orb].
  eexists. split; [reflexivity|]. split; [by apply join_safe|]. intros _ _. exists t. split; [by right|].
  apply contains_spec. exists (prefix ++ lit " - "), []. by rewrite app_nil_r, <- app_assoc.
Qed.

(** ** Sanitizing a sanitized name *)

Lemma push_chars_id w n : tidy (n ++ w) -> fold_left push_char w n = n ++ w.
Proof.
  revert n. induction w as [|c w IH]; intros n Ht; simpl; [by rewrite app_nil_r|].
  assert (push_char n c = n ++ [c]) as ->.
  { unfold push_char. destruct (Z.eqb_spec c 95) as [->|]; [|done]. destruct (bool_decide_reflect (last n = Some 95)) as [Hl|]; [|done].
    apply last_Some in Hl as [m ->]. rewrite <- app_assoc in Ht. by destruct (Ht m 95 95 w eq_refl eq_refl). }
  rewrite IH; rewrite <- app_assoc; done.
Qed.

Lemma words_id l : forall word n, let m := match n with [] => [] | _ => n ++ [32] end in
  Forall name_char l -> tidy (m ++ word ++ l) -> Forall (fun c => is_whitespace c = false) word ->
  (word = [] -> head l <> Some 32 /\ l <> []) -> last l <> Some 32 ->
  fold_left push_word (split_words word l) n = m ++ word ++ l.
Proof.
  induction l as [|c l IH]; intros word n m Hl Ht Hw Hne Hlast; cbn [split_words].
  - destruct word; [by destruct Hne|]. cbn [fold_left]. unfold push_word. fold m. rewrite app_nil_r in *. by apply push_chars_id.
  - apply Forall_cons in Hl as [[Hc Hws] Hl]. destruct (is_whitespace c) eqn:E.
    + assert (c = 32) as -> by auto. destruct word as [|d word]; [by destruct Hne|]. cbn [fold_left].
      assert (push_word n (d :: word) = m ++ d :: word) as ->.
      { unfold push_word. fold m. apply push_chars_id. eapply adjacent_part; [|exact Ht]. exists [], (32 :: l). by rewrite <- app_assoc. }
      assert (l <> []) as Hlne by (by intros ->).
      assert ((match m ++ d :: word with [] => [] | _ => (m ++ d :: word) ++ [32] end) = (m ++ d :: word) ++ [32]) as Hm
        by (by destruct m).
      rewrite IH; rewrite ?Hm; rewrite <- ?app_assoc; [done|done|done|by constructor| |by destruct l].
      intros _. split; [|done]. intros Hh. destruct l as [|e l]; [done|]. injection Hh as ->.
      by destruct (Ht (m ++ d :: word) 32 32 l) as [? _]; [rewrite <- app_assoc| |].
    + rewrite IH; fold m; rewrite <- ?app_assoc; [done|done|done| | |].
      * apply Forall_app. split; [done|]. by constructor.
      * intros Hwc. by destruct word.
      * destruct l; [done|]. done.
Qed.

(** A safe name that neither begins nor ends with a dot is kept. *)
Lemma sanitize_safe r : safe_name r -> ends_free (Z.eqb 46) r -> sanitize_filename r = Some r.
Proof.
  intros ([Hr Ht] & Hne & Hlen & Hends) Hdot. unfold sanitize_filename.
  assert (flat_map filter_char r = r) as ->.
  { clear -Hr. induction Hr as [|c l [(Hc1 & Hc2 & Hc3) _] _ IH]; [done|]. simpl. rewrite IH. unfold filter_char.
    assert (any_of reserved c = false) as -> by (by apply not_true_iff_false; rewrite any_of_spec).
    destruct (Z.leb_spec c 31); [lia|]. by rewrite Hc3. }
  assert (trim_text r = r) as ->.
  { apply trim_id. eapply ends_free_mono; [|exact Hends]. intros c Hc Hw.
    eapply Forall_forall in Hr as [_ Hr]; [|done]. by rewrite (Hr Hw). }
  assert (ends_free dot_or_space r) as Hds.
  { apply (ends_free_mono (fun c => (46 =? c) || underscore_or_space c)); [|by apply ends_free_or].
    intros c _ [->|[->|?%elem_of_nil]%elem_of_cons]%any_of_spec%elem_of_cons; done. }
  rewrite (trim_id _ _ Hds). unfold normalize_words, split_whitespace. rewrite (words_id r [] []).
  - cbn [app]. rewrite (trim_id _ _ Hends). destruct (Z.ltb_spec MAX_SANITIZED_FILENAME_BYTES (text_len r)); [lia|]. cbn [mbind option_bind].
    by destruct r.
  - done.
  - done.
  - constructor.
  - intros _. split; [|done]. intros Hh. by apply Hends in Hh.
  - intros Hh. by apply Hends in Hh.
Qed.

(** Sanitizing is stable: a sanitized name that neither begins nor ends with a dot is sanitized to itself. *)
Theorem sanitize_filename_stable f r : sanitize_filename f = Some r -> ends_free (Z.eqb 46) r ->
  sanitize_filename r = Some r.
Proof.
  intros Hf. destruct (sanitize_some f) as (r' & Hr' & Hsafe). assert (r' = r) as -> by congruence. by apply sanitize_safe.
Qed.

Lemma sanitize_filename_stable_witness :
  sanitize_filename (lit "a  b?") = Some (lit "a b") /\ sanitize_filename (lit "a b") = Some (lit "a b").
Proof.
  split; [reflexivity|]. apply (sanitize_filename_stable (lit "a  b?")); [reflexivity|].
  split; intros c Hc; injection Hc as <-; reflexivity.
Defined.

(** Without that, the last trim of underscores can uncover dots. *)
Lemma sanitize_filename_dots : sanitize_filename (lit "_.._") = Some (lit "..") /\ sanitize_filename (lit "_.a._") = Some (lit ".a.") /\
  sanitize_filename (lit ".a.") = Some (lit "a").
Proof. by vm_compute. Qed.

(** ** [album_folder] *)

Definition folder_char (c : Z) : text :=
  if (c <? 32) || (c =? 127) then [] else if any_of reserved c then [32] else [c].

(** [while name.contains("__") { name = name.replace("__", "_") }] *)
Fixpoint collapse (fuel : nat) (name : text) : text :=
  if contains name (lit "__") then
    match fuel with O => name | S fuel => collapse fuel (replace name (lit "__") (lit "_")) end
  else name.

Definition dot_underscore_or_space : Z -> bool := any_of (lit "._ ").

Definition album_folder (album_folder_template album : text) : option text :=
  if negb (contains album_folder_template (lit "{album}")) || bool_decide (trim_text album = []) then Some []
  else
    let name := flat_map folder_char (replace album_folder_template (lit "{album}") album) in
    let name := join (lit " ") (split_whitespace (trim_matches dot_or_space name)) in
    let name := collapse (length name) name in
    let name := trim_matches underscore_or_space name in
    cut ← slice_to name (floor_boundary (Z.to_nat (Z.min (text_len name) 120)) name (Z.min (text_len name) 120));
    Some (trim_matches dot_underscore_or_space cut).

(** The name of a download from the text of its template. *)
Definition filename (artist_name track_name quality_variant name extension : text) : option text :=
  let name := if bool_decide (trim_text name = []) then artist_name ++ lit " - " ++ track_name else name in
  let extension := if bool_decide (trim_text extension = []) then lit ".flac" else trim_text extension in
  stem ← sanitize_filename_preserving_token name quality_variant;
  Some (stem ++ (if text_starts_with extension (lit ".") then [] else lit ".") ++ extension).

Example album_folder_ex : album_folder (lit "__{album}__/.") (lit "Live: 1/2") = Some (lit "Live 1 2").
Proof. by vm_compute. Qed.

Lemma replace_from_len (p r l : text) : length p = 2%nat -> length r = 1%nat -> forall skip, (length (replace_from skip p r l) <= length l)%nat.
Proof.
  intros Hp Hr. induction l as [|c l IH]; intros skip; [done|]. cbn [replace_from]. destruct skip as [|skip].
  - case_bool; simpl; [|specialize (IH 0%nat); lia]. rewrite length_app, Hr, Hp. specialize (IH 1%nat). simpl in *. lia.
  - simpl. specialize (IH skip). lia.
Qed.

Lemma replace_skip_len (p r l : text) : length p = 2%nat -> length r = 1%nat -> l <> [] ->
  (length (replace_from 1 p r l) < length l)%nat.
Proof. intros Hp Hr Hl. destruct l as [|c l]; [done|]. simpl. pose proof (replace_from_len p r l Hp Hr 0). lia. Qed.

Lemma replace_shrinks (p r l : text) : length p = 2%nat -> length r = 1%nat -> contains l p = true ->
  (length (replace l p r) < length l)%nat.
Proof.
  intros Hp Hr. unfold replace. induction l as [|c l IH]; intros Hc.
  - apply contains_spec in Hc as (a & b & E). destruct p; [done|]. by destruct a.
  - cbn [replace_from]. cbn [contains] in Hc. destruct (text_starts_with (c :: l) p) eqn:Es.
    + rewrite length_app, Hr, Hp. simpl. assert (l <> []) as Hne.
      { apply starts_with_spec in Es as [k E]. destruct p as [|? [|]]; [done..|]. by destruct l. }
      pose proof (replace_skip_len p r l Hp Hr Hne). lia.
    + simpl. specialize (IH Hc). lia.
Qed.

(** Each pass shortens the name, so that its length is enough passes. *)
Lemma collapse_done fuel name : (length name <= fuel)%nat -> contains (collapse fuel name) (lit "__") = false.
Proof.
  revert name. induction fuel as [|fuel IH]; intros name Hn; cbn [collapse].
  - destruct name; [done|simpl in Hn; lia].
  - destruct (contains name (lit "__")) eqn:E; [|done]. apply IH.
    pose proof (replace_shrinks (lit "__") (lit "_") name eq_refl eq_refl E). lia.
Qed.

Lemma collapse_Forall (P : Z -> Prop) fuel name : P 95 -> Forall P name -> Forall P (collapse fuel name).
Proof.
  intros H95. revert name. induction fuel as [|fuel IH]; intros name Hn; cbn [collapse]; case_bool; [done|done| |done]. apply IH. clear IH Heqb.
  unfold replace. generalize 0%nat. induction Hn as [|c l Hc Hl IH]; intros [|skip]; cbn [replace_from]; [constructor..| |apply IH].
  case_bool; [constructor; [done|apply IH]|]. constructor; [done|apply IH].
Qed.

Lemma join_Forall (P : Z -> Prop) sep ws : Forall P sep -> Forall (Forall P) ws -> Forall P (join sep ws).
Proof.
  intros Hs. induction 1 as [|w ws Hw Hws IH]; [constructor|]. cbn [join]. destruct ws; [done|].
  apply Forall_app. split; [done|]. by apply Forall_app.
Qed.

Lemma slice_min_spec (name : text) n : 0 <= n ->
  exists cut, slice_to name (floor_boundary (Z.to_nat (Z.min (text_len name) n)) name (Z.min (text_len name) n)) = Some cut /\
    part_of cut name /\ text_len cut <= n.
Proof.
  intros Hn. destruct (slice_floor_spec name (Z.min (text_len name) n)) as (cut & Hc & Hp & Hl); [pose proof (text_len_nonneg name); lia|].
  exists cut. split_conj; [done|by apply part_prefix|lia].
Qed.

Definition folder_ok (c : Z) : Prop := c ∉ reserved /\ 32 <= c /\ c <> 127.

Lemma folder_ok_plain c : any_of reserved c || (c <? 32) || (c =? 127) = false -> folder_ok c.
Proof.
  intros [[Hr Hl]%orb_false_iff Hd]%orb_false_iff. unfold folder_ok. split_conj; [intros ?%any_of_spec; congruence|lia|lia].
Qed.

Lemma folder_chars l : Forall folder_ok (flat_map folder_char l).
Proof.
  induction l as [|c l IH]; [constructor|]. simpl. apply Forall_app. split; [|done]. unfold folder_char.
  destruct ((c <? 32) || (c =? 127)) eqn:E; [constructor|]. apply orb_false_iff in E as [E1 E2].
  destruct (any_of reserved c) eqn:E3; (constructor; [|constructor]); unfold folder_ok; split_conj;
    first [lia|intros ?%any_of_spec; congruence|by intros ?%any_of_spec].
Qed.

(** The folder of an album, whatever its template and the album's name: no character of it is reserved, a
    separator or a control character of ASCII, it is at most 120 bytes long, holds no two underscores in a row,
    and its ends are no dots, so that it is empty or an entry of the directory it is made in, never that directory
    or its parent. *)
Theorem album_folder_safe template album : exists r, album_folder template album = Some r /\
  Forall folder_ok r /\ text_len r <= 120 /\ contains r (lit "__") = false /\ ends_free dot_underscore_or_space r /\
  r <> lit "." /\ r <> lit "..".
Proof.
  assert (forall r, ends_free dot_underscore_or_space r -> r <> lit "." /\ r <> lit "..") as Hdots.
  { intros r [Hh _]. split; intros ->; by specialize (Hh 46 eq_refl). }
  unfold album_folder. case_bool.
  { exists []. split_conj; [done|constructor|done|done|by split|done|done]. }
  set (name := flat_map folder_char _). set (joined := join _ _). set (whole := collapse _ _).
  set (trimmed := trim_matches underscore_or_space whole).
  destruct (slice_min_spec trimmed 120) as (cut & -> & Hp & Hl); [done|]. cbn [mbind option_bind]. eexists. split; [reflexivity|].
  assert (part_of (trim_matches dot_underscore_or_space cut) whole) as Hpart.
  { eapply part_trans; [apply trim_part|]. eapply part_trans; [exact Hp|apply trim_part]. }
  pose proof (trim_ends dot_underscore_or_space cut) as Hends. split_conj; [| | |done|apply Hdots; done|apply Hdots; done].
  - eapply part_Forall; [exact Hpart|]. apply collapse_Forall; [by apply folder_ok_plain|].
    apply join_Forall; [constructor; [by apply folder_ok_plain|constructor]|].
    apply Forall_forall. intros w Hw. apply Forall_forall. intros c Hc.
    destruct (split_words_elem [] _ w c Hw Hc) as [?%elem_of_nil|Hin]; [done|].
    assert (Forall folder_ok (trim_matches dot_or_space name)) as Hall by (eapply part_Forall; [apply trim_part|apply folder_chars]).
    by eapply Forall_forall in Hall.
  - etransitivity; [apply part_len, trim_part|done].
  - apply not_true_iff_false. intros Hc%contains_spec.
    assert (contains whole (lit "__") = true) as Hw by (by eapply contains_spec, part_trans).
    unfold whole in Hw. by rewrite collapse_done in Hw.
Qed.

(** The name a download asks for: its template's text, or the artist and the track when that is blank. *)
Definition wanted (artist track name : text) : text :=
  if decide (trim_text name = []) then artist ++ lit " - " ++ track else name.

(** The extension with its one dot, [.flac] when it is blank. *)
Definition dotted (extension : text) : text :=
  match trim_text extension with
  | [] => lit ".flac"
  | c :: l => if c =? 46 then c :: l else 46 :: c :: l
  end.

Lemma dotted_spec extension :
  let e := if bool_decide (trim_text extension = []) then lit ".flac" else trim_text extension in
  (if text_starts_with e (lit ".") then [] else lit ".") ++ e = dotted extension.
Proof.
  unfold dotted. destruct (trim_text extension) as [|c l]; [done|]. rewrite bool_decide_false by done. cbv zeta.
  destruct (Z.eqb_spec c 46) as [->|Hc].
  - replace (text_starts_with (46 :: l) (lit ".")) with true; [done|]. symmetry. apply starts_with_spec. by exists l.
  - replace (text_starts_with (c :: l) (lit ".")) with false; [done|]. symmetry. apply not_true_iff_false.
    intros [k E]%starts_with_spec. by injection E.
Qed.

(** What is asked for by a safe name, without dots at its ends, is that name. *)
Lemma preserving_token_kept filename token :
  safe_name filename -> ends_free (Z.eqb 46) filename ->
  sanitize_filename_preserving_token filename token = Some filename.
Proof.
  intros Hs Hd. unfold sanitize_filename_preserving_token. rewrite (sanitize_safe filename Hs Hd). cbn [mbind option_bind].
  destruct (contains filename (trim_text token)); by destruct (bool_decide _).
Qed.

(** C25: A download's file name exists for any texts (no cut panics): a stem and the extension with its
    dot, [.flac] for a blank one; the extension is otherwise taken as it is given.  The stem comes from
    the text of the template or, when that is blank, from the artist and the track.  It is not empty,
    is at most 200 bytes long, holds no separator, reserved or control character and no white space but
    single spaces, begins and ends in neither a space nor an underscore, holds the quality variant that
    the wanted name had, as it was or sanitized, and is the wanted name itself if that has all this and no
    dots at its ends. *)
Theorem filename_safe artist track quality name extension : exists stem,
  filename artist track quality name extension = Some (stem ++ dotted extension) /\
  safe_name stem /\
  (contains (wanted artist track name) (trim_text quality) = true -> trim_text quality <> [] ->
   exists t, (t = trim_text quality \/ sanitize_filename (trim_text quality) = Some t) /\ contains stem t = true) /\
  (safe_name (wanted artist track name) -> ends_free (Z.eqb 46) (wanted artist track name) ->
   stem = wanted artist track name).
Proof.
  unfold filename. rewrite <- dotted_spec.
  assert ((if bool_decide (trim_text name = []) then artist ++ lit " - " ++ track else name) = wanted artist track name) as ->
    by (unfold wanted; by do 2 case_decide || case_bool_decide).
  destruct (preserving_token_safe (wanted artist track name) quality) as (stem & Es & Hs & Ht). rewrite Es. cbn [mbind option_bind].
  exists stem. split_conj; [done|done|done|]. intros Hw Hd. rewrite preserving_token_kept in Es by done. congruence.
Qed.

Lemma filename_safe_witness : exists stem,
  filename (lit "A/B") (lit "C [24-bit].") (lit "24-bit") (lit " ") (lit "flac") = Some (stem ++ lit ".flac") /\
  safe_name stem /\ exists t, contains stem t = true.
Proof.
  destruct (filename_safe (lit "A/B") (lit "C [24-bit].") (lit "24-bit") (lit " ") (lit "flac")) as (stem & E & Hs & Hq & _).
  exists stem. split; [exact E|]. split; [exact Hs|].
  destruct Hq as (t & _ & Ht); [vm_compute; reflexivity|vm_compute; discriminate|]. exists t. exact Ht.
Defined.
