(* ===== verification/ExtensionStore.v ===== *)
(** * The persistent storage of extensions: [crates/extensions/src/storage.rs] and [write_atomic] of
    [crates/core/src/fs.rs]

    An extension has three stores in its directory: plain values, credentials and settings, the latter two
    encrypted under keys derived from the platform's master key.  All handles on a directory share one
    snapshot per file; a snapshot is used while the file on disk is the one it was read from and the key is
    the one it was read with.  Calls to the file system may fail at any time: the class [Os] answers each by
    the number of the call.  AES-GCM, HMAC, SHA-256 and JSON are the classes [Crypto] and [Json]. *)

From S2P Require Import Prelude Monads.

Inductive StorageError :=
| Closed | InvalidKey | MissingKey | InvalidExtensionId | InvalidPath | ShortCiphertext | Authentication
| Random (error : string) | Io (error : string) | JsonError (error : string) | InvalidObject.

Inductive StoreKind := Storage | Credentials | Settings.
#[export] Instance StoreKind_eq_dec : EqDecision StoreKind.
Proof. solve_decision. Defined.

Definition store_filename (kind : StoreKind) : string :=
  match kind with Storage => "storage.json" | Credentials => ".credentials.enc" | Settings => "settings.enc" end.
Definition store_purpose (kind : StoreKind) : string :=
  match kind with Storage => "" | Credentials => "credentials" | Settings => "settings" end.

Record Identity := mkIdentity { length_ : Z; modified : option Z; inode : Z }.
#[export] Instance Identity_eq_dec : EqDecision Identity.
Proof. solve_decision. Defined.

(** What a name in the directory refers to: a regular file, or anything else. *)
Inductive Entry := Regular (identity : Identity) (data : bytes) | Special.

(** Calls that may fail answer by the number of the call, on Unix.  A file that is made has an inode number that no
    file of the directory has at that time: POSIX has st_ino identify a file among those that exist
    (sys/stat.h).  Nothing is assumed of the numbers of files that are gone, nor of modification times. *)
Class Os := {
  error_at : nat -> option string;
  stamp : nat -> gmap string Entry -> option Z * Z;
  stamp_apart n files p id data : files !! p = Some (Regular id data) -> (stamp n files).2 <> inode id;
  fill : nat -> nat -> result bytes string;
  fill_length n k bs : fill n k = Ok bs -> length bs = k }.

Class Crypto := {
  aes_gcm_encrypt : bytes -> bytes -> bytes -> option bytes;
  aes_gcm_decrypt : bytes -> bytes -> bytes -> option bytes;
  decrypt_encrypt key nonce m c : aes_gcm_encrypt key nonce m = Some c -> aes_gcm_decrypt key nonce c = Some m;
  hmac_sha256 : bytes -> bytes -> bytes;
  sha256 : bytes -> bytes }.

(** A document as [serde_json] reads it: an object, [null] or another value. *)
Inductive Document (Value : Type) := Object (m : gmap string Value) | Null | Other.
Arguments Object {Value} m. Arguments Null {Value}. Arguments Other {Value}.

Class Json (Value : Type) := {
  to_vec : gmap string Value -> result bytes string;
  from_slice : bytes -> result (Document Value) string;
  from_to_vec m data : to_vec m = Ok data -> from_slice data = Ok (Object m) }.

Section store.
Context {Value : Type} {OS : Os} {CR : Crypto} {JS : Json Value}.
Abbreviation Map := (gmap string Value).

Record FileCache := mkCache { snapshot : option Map; identity : option Identity; key_tag : option bytes }.
Definition no_cache : FileCache := mkCache None None None.

(** One directory: its files, and the snapshots all handles share. *)
Record State := mkState {
  files : gmap string Entry; storage : FileCache; credentials : FileCache; settings : FileCache; calls : nat }.

Abbreviation P := (St State StorageError).

Definition set_files f (s : State) : State := mkState f (storage s) (credentials s) (settings s) (calls s).
Definition tick (s : State) : State := mkState (files s) (storage s) (credentials s) (settings s) (S (calls s)).

Definition shared_file (kind : StoreKind) (s : State) : FileCache :=
  match kind with Storage => storage s | Credentials => credentials s | Settings => settings s end.
Definition set_shared (kind : StoreKind) (c : FileCache) (s : State) : State :=
  match kind with
  | Storage => mkState (files s) c (credentials s) (settings s) (calls s)
  | Credentials => mkState (files s) (storage s) c (settings s) (calls s)
  | Settings => mkState (files s) (storage s) (credentials s) c (calls s)
  end.

(** A call to the operating system that may fail. *)
Definition call : P unit := fun s =>
  (match error_at (calls s) with Some e => Err (Io e) | None => Ok tt end, tick s).

Definition lift {A} (r : result A StorageError) : P A := fun s => (r, s).

(** ** Files *)

Definition file_identity (path : string) : P (option Identity) :=
  call;;
  do entry <- gets (fun s => files s !! path);
  match entry with
  | None => ret None
  | Some Special => throw InvalidPath
  | Some (Regular id _) => ret (Some id)
  end.

Definition read_optional (path : string) : P (option bytes) :=
  do id <- file_identity path;
  match id with
  | None => ret None
  | Some _ =>
    call;;
    do entry <- gets (fun s => files s !! path);
    match entry with Some (Regular _ data) => ret (Some data) | _ => throw (Io "not found") end
  end.

(** The staged file is created, written and synchronized before it replaces the target. *)
Definition persist (path : string) (data : bytes) : P unit := fun s =>
  let '(modified, inode) := stamp (calls s) (files s) in
  match error_at (calls s) with
  | Some e => (Err (Io e), tick s)
  | None => (Ok tt, tick (set_files (<[path := Regular (mkIdentity (len data) modified inode) data]> (files s)) s))
  end.
Definition write_atomic (path : string) (data : bytes) : P unit :=
  call;; call;; call;; persist path data.

Definition atomic_write (path : string) (data : bytes) : P unit :=
  do _ <- file_identity path;
  write_atomic path data.

Definition remove_file (path : string) : P unit :=
  call;; modify (fun s => set_files (delete path (files s)) s).

Definition random_bytes (n : nat) : P bytes := fun s =>
  (match fill (calls s) n with Ok bs => Ok bs | Err e => Err (Random e) end, tick s).

(** ** Encryption: a nonce, then the ciphertext with its tag *)

Definition encrypt (plaintext key : bytes) : P bytes :=
  do nonce <- random_bytes 12;
  match aes_gcm_encrypt key nonce plaintext with
  | Some ciphertext => ret (nonce ++ ciphertext)
  | None => throw Authentication
  end.

Definition decrypt (ciphertext key : bytes) : result bytes StorageError :=
  if len ciphertext <? 12 then Err ShortCiphertext
  else match aes_gcm_decrypt key (take 12 ciphertext) (drop 12 ciphertext) with
       | Some plaintext => Ok plaintext
       | None => Err Authentication
       end.

Definition parse_object (data : bytes) : result Map StorageError :=
  match from_slice data with
  | Err e => Err (JsonError e)
  | Ok (Object value) => Ok value
  | Ok Null => Ok ∅
  | Ok Other => Err InvalidObject
  end.

Definition DOMAIN : bytes := str_bytes "SpotiFLAC Mobile extension storage v2" ++ [0].
Definition key_message (purpose extension_id : string) : bytes := DOMAIN ++ str_bytes purpose ++ [0] ++ str_bytes extension_id.
Definition derive (master : bytes) (extension_id purpose : string) : bytes :=
  hmac_sha256 master (key_message purpose extension_id).

Definition valid_extension_id (id : string) : bool :=
  let bs := str_bytes id in
  in_range 1 128 (len bs)
  && match bs with b :: _ => in_range 97 122 b || in_range 48 57 b | [] => false end
  && forallb (fun b => in_range 97 122 b || in_range 48 57 b || bool_decide (b ∈ str_bytes "._-")) bs.

(** ** A handle on the stores of an extension *)

Record ExtensionStore := mkStore { extension_id : string; master_key : option bytes; closed : bool }.

Definition open (id : string) (master_key : option bytes) : P ExtensionStore :=
  if negb (valid_extension_id id) then throw InvalidExtensionId
  else call;; call;; ret (mkStore id master_key false).

Definition close (h : ExtensionStore) : ExtensionStore := mkStore (extension_id h) (master_key h) true.
Definition access (h : ExtensionStore) : result unit StorageError := if closed h then Err Closed else Ok tt.

Definition key (h : ExtensionStore) (kind : StoreKind) : result bytes StorageError :=
  match master_key h with
  | Some master => Ok (derive master (extension_id h) (store_purpose kind))
  | None => Err MissingKey
  end.

Definition cache_tag (h : ExtensionStore) (kind : StoreKind) : option bytes :=
  match kind with
  | Storage => None
  | _ => (fun master => sha256 (derive master (extension_id h) (store_purpose kind))) <$> master_key h
  end.

Definition SALT : string := ".cred_salt".
Definition LEGACY_SETTINGS : string := "settings.json".

Definition legacy_credentials_key (h : ExtensionStore) : P bytes :=
  do salt <- read_optional SALT;
  do salt <- match salt with
             | Some salt =>
               if len salt =? 32 then ret salt
               else do salt <- random_bytes 32; atomic_write SALT salt;; ret salt
             | None => do salt <- random_bytes 32; atomic_write SALT salt;; ret salt
             end;
  ret (sha256 (str_bytes (extension_id h) ++ salt)).

Definition migrate_settings (h : ExtensionStore) (path : string) : P Map :=
  do data <- read_optional LEGACY_SETTINGS;
  match data with
  | None => ret ∅
  | Some data =>
    do snapshot <- lift (parse_object data);
    do key <- lift (key h Settings);
    do sealed <- encrypt data key;
    atomic_write path sealed;;
    remove_file LEGACY_SETTINGS;;
    ret snapshot
  end.

Definition is_kind (kind other : StoreKind) : bool := bool_decide (kind = other).

(** Decrypted credentials; those under the old key are first written again under the new one. *)
Definition open_data (h : ExtensionStore) (kind : StoreKind) (path : string) (data : bytes) : P bytes :=
  do key <- lift (key h kind);
  match decrypt data key with
  | Ok plaintext => ret plaintext
  | Err error =>
    if is_kind kind Credentials then
      do legacy <- legacy_credentials_key h;
      match decrypt data legacy with
      | Err _ => throw error
      | Ok plaintext =>
        do _ <- lift (parse_object plaintext);
        do sealed <- encrypt plaintext key;
        atomic_write path sealed;;
        ret plaintext
      end
    else throw error
  end.

Definition load (h : ExtensionStore) (kind : StoreKind) : P Map :=
  let path := store_filename kind in
  do data <- read_optional path;
  match data with
  | Some data =>
    if is_kind kind Storage then lift (parse_object data)
    else do plaintext <- open_data h kind path data; lift (parse_object plaintext)
  | None => if is_kind kind Settings then migrate_settings h path else ret ∅
  end.

Definition refresh (h : ExtensionStore) (kind : StoreKind) : P Map :=
  let path := store_filename kind in
  do id <- file_identity path;
  do cache <- gets (shared_file kind);
  let tag := cache_tag h kind in
  let stale := bool_decide (identity cache <> id) || bool_decide (key_tag cache <> tag)
               || (is_kind kind Settings && bool_decide (id = None)) in
  match snapshot cache, stale with
  | Some snapshot, false => ret snapshot
  | _, _ =>
    do snapshot <- load h kind;
    do id <- file_identity path;
    modify (set_shared kind (mkCache (Some snapshot) id tag));;
    ret snapshot
  end.

(** ** Operations *)

Definition get (h : ExtensionStore) (kind : StoreKind) (k : string) : P (option Value) :=
  lift (access h);; do m <- refresh h kind; ret (m !! k).

Definition all (h : ExtensionStore) (kind : StoreKind) : P Map :=
  lift (access h);; refresh h kind.

Definition to_json (m : Map) : result bytes StorageError :=
  match to_vec m with Ok data => Ok data | Err e => Err (JsonError e) end.

Definition mutate (h : ExtensionStore) (kind : StoreKind) (f : Map -> Map * bool) : P unit :=
  lift (access h);;
  do snapshot <- refresh h kind;
  let '(snapshot, changed) := f snapshot in
  if negb changed then ret tt
  else
    do data <- lift (to_json snapshot);
    let path := store_filename kind in
    (if is_kind kind Storage then atomic_write path data
     else do key <- lift (key h kind); do sealed <- encrypt data key; atomic_write path sealed);;
    do id <- file_identity path;
    modify (set_shared kind (mkCache (Some snapshot) id (cache_tag h kind))).

Definition set (h : ExtensionStore) (kind : StoreKind) (k : string) (v : Value) : P unit :=
  mutate h kind (fun m => (<[k := v]> m, true)).
Definition remove (h : ExtensionStore) (kind : StoreKind) (k : string) : P unit :=
  mutate h kind (fun m => (delete k m, bool_decide (is_Some (m !! k)) || negb (is_kind kind Storage))).
Definition replace (h : ExtensionStore) (kind : StoreKind) (value : Map) : P unit :=
  mutate h kind (fun _ => (value, true)).
End store.
Arguments FileCache Value : clear implicits.
Arguments State Value : clear implicits.
