(* ===== verification/ExtensionStoreSpec.v ===== *)
(** * What extension storage promises

    [contents]: what a store holds, as a function of the files of its directory and of a handle's keys.  From any
    files, in every state that operations of the extension's handles can reach while calls to the operating system
    fail at any time, an operation answers from the contents and changes them as the same operation on a map
    would, or fails and leaves them as they were or as if it had succeeded.  The handles of one extension have its
    identifier and the platform's master key, or no key.  Files that other programs change while the process runs
    are not covered: the code notices such a change by the length, the modification time and the inode number of
    the file alone. *)

From S2P Require Import Prelude Monads ExtensionStore.

Section spec.
Context {Value : Type} {OS : Os} {CR : Crypto} {JS : Json Value}.
Abbreviation Map := (gmap string Value).
Abbreviation State := (State Value).
Implicit Types (h : ExtensionStore) (kind : StoreKind) (s : State) (m : Map).

(** ** The contents of a store *)

Definition parsed (data : bytes) : option Map := match parse_object data with Ok m => Some m | Err _ => None end.

(** What a file of the store reads as under the handle's own key. *)
Definition opened h kind (data : bytes) : option Map :=
  match kind with
  | Storage => parsed data
  | _ => match key h kind with
         | Ok k => match decrypt data k with Ok plaintext => parsed plaintext | Err _ => None end
         | Err _ => None
         end
  end.

Definition legacy_key h (salt : bytes) : bytes := sha256 (str_bytes (extension_id h) ++ salt).

Definition data_of (e : option Entry) : option bytes := match e with Some (Regular _ data) => Some data | _ => None end.

(** Credentials that the key does not open may be under the old key. *)
Definition opened_legacy h s (data : bytes) : option Map :=
  match key h Credentials, data_of (files s !! SALT) with
  | Ok _, Some salt =>
    if len salt =? 32 then
      match decrypt data (legacy_key h salt) with Ok plaintext => parsed plaintext | Err _ => None end
    else None
  | _, _ => None
  end.

Definition own_key_opens h kind (data : bytes) : bool :=
  match key h kind with Ok k => is_ok (decrypt data k) | Err _ => false end.

Definition contents h kind s : option Map :=
  match files s !! store_filename kind with
  | Some Special => None
  | Some (Regular _ data) =>
    if is_kind kind Credentials && negb (own_key_opens h kind data) then opened_legacy h s data else opened h kind data
  | None =>
    if is_kind kind Settings then
      match files s !! LEGACY_SETTINGS with Some (Regular _ data) => parsed data | Some Special => None | None => Some ∅ end
    else Some ∅
  end.

(** ** How a directory evolves *)

Definition names kind : list string :=
  match kind with
  | Storage => [store_filename Storage]
  | Credentials => [store_filename Credentials; SALT]
  | Settings => [store_filename Settings; LEGACY_SETTINGS]
  end.

Lemma names_apart k k' p : p ∈ names k -> p ∈ names k' -> k = k'.
Proof.
  destruct k, k'; try done; intros H H';
    repeat (apply elem_of_cons in H as [->|H];
      [repeat (apply elem_of_cons in H' as [H'|H']; [discriminate|]); by apply elem_of_nil in H'|]);
    by apply elem_of_nil in H.
Qed.

Lemma name_in kind : store_filename kind ∈ names kind.
Proof. destruct kind; left. Qed.

(** Only the files of one kind change, and no snapshot. *)
Record evolves kind (s s' : State) : Prop := {
  ev_shared k : shared_file k s' = shared_file k s;
  ev_files p : files s' !! p = files s !! p \/ p ∈ names kind }.

Lemma evolves_same kind s s' : files s' = files s -> (forall k, shared_file k s' = shared_file k s) -> evolves kind s s'.
Proof. intros Hf Hs. split; [done|]. intros p. left. by rewrite Hf. Qed.

#[export] Instance evolves_preorder kind : PreOrder (evolves kind).
Proof.
  split; [intros s; by apply evolves_same|]. intros s1 s2 s3 [S1 F1] [S2 F2]. split; [intros k; by rewrite S2|].
  intros p. destruct (F2 p) as [->|?]; [apply F1|by right].
Qed.

(** A computation that only evolves the directory, whether it fails or not. *)
Definition Evolving {A} kind (m : St State StorageError A) : Prop :=
  forall s, wp m (fun _ s' => evolves kind s s') (fun _ s' => evolves kind s s') s.

Section evolving.
Context (kind : StoreKind).

Lemma ev_ret {A} (a : A) : Evolving kind (ret a).
Proof. intros s. apply wp_ret. reflexivity. Qed.
Lemma ev_throw {A} (e : StorageError) : Evolving kind (throw e : St State StorageError A).
Proof. intros s. apply wp_throw. reflexivity. Qed.
Lemma ev_lift {A} (r : result A StorageError) : Evolving kind (lift r).
Proof. intros s. unfold wp, lift. destruct r; reflexivity. Qed.
Lemma ev_gets {A} (f : State -> A) : Evolving kind (gets f).
Proof. intros s. apply wp_gets. reflexivity. Qed.
Lemma ev_bind {A B} (m : St State StorageError A) (k : A -> St State StorageError B) :
  Evolving kind m -> (forall a, Evolving kind (k a)) -> Evolving kind (bind m k).
Proof.
  intros Hm Hk s. apply wp_bind. eapply wp_mono; [apply Hm| |done]. intros a s1 H1.
  eapply wp_mono; [apply Hk| |]; intros ? s2 H2; (etransitivity; [exact H1|exact H2]).
Qed.

Lemma shared_tick k s : shared_file k (tick s) = shared_file k s.
Proof. by destruct k. Qed.
Lemma ev_ticked s : evolves kind s (tick s).
Proof. apply evolves_same; [done|intros; apply shared_tick]. Qed.

Lemma ev_call : Evolving kind call.
Proof. intros s. unfold wp, call. destruct (error_at (calls s)); apply ev_ticked. Qed.
Lemma ev_random n : Evolving kind (random_bytes n).
Proof. intros s. unfold wp, random_bytes. destruct (fill (calls s) n); apply ev_ticked. Qed.

Lemma ev_persist path data : path ∈ names kind -> Evolving kind (persist path data).
Proof.
  intros Hp s. unfold wp, persist. destruct (stamp (calls s) (files s)) as [t i]. destruct (error_at (calls s)); [apply ev_ticked|].
  split; [intros k; by destruct k|]. intros p. simpl. destruct (decide (p = path)) as [->|Hne]; [by right|].
  left. by rewrite lookup_insert_ne.
Qed.

Lemma ev_remove : kind = Settings -> Evolving kind (remove_file LEGACY_SETTINGS).
Proof.
  intros Hk. apply ev_bind; [apply ev_call|]. intros _ s. apply wp_modify. split; [intros k; by destruct k|].
  intros p. simpl. destruct (decide (p = LEGACY_SETTINGS)) as [->|Hne]; [right; rewrite Hk; right; left|left; by rewrite lookup_delete_ne].
Qed.
End evolving.

(** Computes the comparisons of known kinds. *)
Ltac kinds :=
  repeat match goal with
         | |- context [is_kind ?a ?b] => let v := eval vm_compute in (is_kind a b) in change (is_kind a b) with v
         | H : context [is_kind ?a ?b] |- _ => let v := eval vm_compute in (is_kind a b) in change (is_kind a b) with v in H
         end; cbv iota in *; cbn [negb andb orb] in *.

Create HintDb evolving.
#[local] Hint Resolve ev_ret ev_throw ev_lift ev_gets ev_call ev_random ev_persist ev_remove : evolving.

Ltac evolving := repeat first [ progress eauto with evolving | apply ev_bind; [|intros ?] | case_match | set_solver ].

Lemma ev_file_identity kind path : Evolving kind (file_identity path).
Proof. unfold file_identity. evolving. Qed.
#[local] Hint Resolve ev_file_identity : evolving.
Lemma ev_read_optional kind path : Evolving kind (read_optional path).
Proof. unfold read_optional. evolving. Qed.
Lemma ev_atomic_write kind path data : path ∈ names kind -> Evolving kind (atomic_write path data).
Proof. intros Hp. unfold atomic_write, write_atomic. evolving. Qed.
Lemma ev_encrypt kind plaintext k : Evolving kind (encrypt plaintext k).
Proof. unfold encrypt. evolving. Qed.
#[local] Hint Resolve ev_read_optional ev_atomic_write ev_encrypt : evolving.

Lemma salt_in : SALT ∈ names Credentials.
Proof. right. left. Qed.
#[local] Hint Resolve name_in salt_in : evolving.

Lemma ev_legacy_key h : Evolving Credentials (legacy_credentials_key h).
Proof. unfold legacy_credentials_key. evolving. Qed.
Lemma ev_migrate h : Evolving Settings (migrate_settings h (store_filename Settings)).
Proof. unfold migrate_settings. evolving. Qed.
#[local] Hint Resolve ev_legacy_key ev_migrate : evolving.

Lemma ev_load h kind : Evolving kind (load h kind).
Proof.
  unfold load, open_data. apply ev_bind; [evolving|]. intros [data|]; destruct kind; kinds; evolving.
Qed.

(** ** What each call does to the files *)

Lemma wp_os_call Q R s : (forall s', files s' = files s -> Q tt s') -> (forall e s', files s' = files s -> R e s') -> wp call Q R s.
Proof. intros HQ HR. unfold wp, call. destruct (error_at (calls s)); [by apply HR|by apply HQ]. Qed.

Definition not_special (e : option Entry) : Prop := match e with Some Special => False | _ => True end.
Definition identity_of (e : option Entry) : option Identity := match e with Some (Regular id _) => Some id | _ => None end.

Lemma wp_file_identity path Q R s :
  (forall s', files s' = files s -> not_special (files s !! path) -> Q (identity_of (files s !! path)) s') ->
  (forall e s', files s' = files s -> R e s') -> wp (file_identity path) Q R s.
Proof.
  intros HQ HR. apply wp_bind, wp_os_call; [|done]. intros s1 E1. apply wp_bind, wp_gets. rewrite E1.
  destruct (files s !! path) as [[id data|]|]; [apply wp_ret; by apply HQ|apply wp_throw; by apply HR|apply wp_ret; by apply HQ].
Qed.

Lemma wp_read_optional path Q R s :
  (forall s', files s' = files s -> not_special (files s !! path) -> Q (data_of (files s !! path)) s') ->
  (forall e s', files s' = files s -> R e s') -> wp (read_optional path) Q R s.
Proof.
  intros HQ HR. apply wp_bind, wp_file_identity; [|done]. intros s1 E1 Hn.
  destruct (files s !! path) as [[id data|]|] eqn:E; cbn [identity_of]; [|done|apply wp_ret; by apply HQ].
  apply wp_bind, wp_os_call; [|intros; apply HR; congruence]. intros s2 E2. apply wp_bind, wp_gets. rewrite E2, E1, E.
  apply wp_ret, HQ; [congruence|done].
Qed.

(** A file that is made is another one than those that exist. *)
Definition new_file (id : Identity) (e : option Entry) : Prop :=
  match e with Some (Regular id' _) => inode id <> inode id' | _ => True end.

Lemma wp_persist path data Q R s :
  (forall id s', files s' = <[path := Regular id data]> (files s) -> new_file id (files s !! path) -> Q tt s') ->
  (forall e s', files s' = files s -> R e s') -> wp (persist path data) Q R s.
Proof.
  intros HQ HR. unfold wp, persist. destruct (stamp (calls s) (files s)) as [t i] eqn:Es.
  destruct (error_at (calls s)); [by apply HR|]. eapply HQ; [reflexivity|]. unfold new_file.
  destruct (files s !! path) as [[id' data'|]|] eqn:Ef; [|done|done]. simpl.
  pose proof (stamp_apart (calls s) (files s) path id' data' Ef) as Ha. by rewrite Es in Ha.
Qed.

Lemma wp_atomic_write path data (Q : unit -> State -> Prop) R s :
  (forall id s', files s' = <[path := Regular id data]> (files s) -> new_file id (files s !! path) -> Q tt s') ->
  (forall e s', files s' = files s -> R e s') -> wp (atomic_write path data) Q R s.
Proof.
  intros HQ HR. apply wp_bind, wp_file_identity; [|done]. intros s1 E1 _. unfold write_atomic.
  do 3 (apply wp_bind, wp_os_call; [|intros; apply HR; congruence]; intros ? ?).
  apply wp_persist; [|intros; apply HR; congruence]. intros id s5 E5 Hid.
  repeat match goal with E : files _ = files _ |- _ => rewrite E in E5, Hid; clear E end. by apply (HQ id).
Qed.

Lemma wp_random n Q R s :
  (forall bs s', files s' = files s -> length bs = n -> Q bs s') -> (forall e s', files s' = files s -> R e s') ->
  wp (random_bytes n) Q R s.
Proof. intros HQ HR. unfold wp, random_bytes. destruct (fill (calls s) n) eqn:E; [apply HQ; [done|by eapply fill_length]|by apply HR]. Qed.

Lemma decrypt_sealed k nonce plain c : length nonce = 12%nat -> aes_gcm_encrypt k nonce plain = Some c ->
  decrypt (nonce ++ c) k = Ok plain.
Proof.
  intros Hn Hc. unfold decrypt. rewrite len_app. pose proof (len_nonneg c).
  assert (len nonce = 12) by (unfold len; lia). destruct (Z.ltb_spec (len nonce + len c) 12); [lia|].
  rewrite take_app_length', drop_app_length' by done. by rewrite (decrypt_encrypt _ _ _ _ Hc).
Qed.

Lemma wp_encrypt plaintext k (Q : bytes -> State -> Prop) R s :
  (forall sealed s', files s' = files s -> decrypt sealed k = Ok plaintext -> Q sealed s') ->
  (forall e s', files s' = files s -> R e s') -> wp (encrypt plaintext k) Q R s.
Proof.
  intros HQ HR. apply wp_bind, wp_random; [|done]. intros nonce s1 E1 Hn.
  destruct (aes_gcm_encrypt k nonce plaintext) eqn:E; [|by apply wp_throw, HR]. apply wp_ret, HQ; [done|by apply decrypt_sealed].
Qed.

Lemma wp_lift {A} (r : result A StorageError) Q R s :
  (forall a, r = Ok a -> Q a s) -> (forall e, r = Err e -> R e s) -> wp (lift r : St State StorageError A) Q R s.
Proof. intros HQ HR. unfold wp, lift. destruct r; auto. Qed.

(** ** Reading a store *)

Definition name_entry kind s : option Entry := files s !! store_filename kind.

(** The file of a store reads as the map under the handle's own key. *)
Definition reads h kind s m : Prop :=
  match files s !! store_filename kind with
  | Some (Regular _ data) => opened h kind data = Some m
  | Some Special => False
  | None => m = ∅ /\ (kind = Settings -> files s !! LEGACY_SETTINGS = None)
  end.

Lemma opened_own_key h kind data m : kind <> Storage -> opened h kind data = Some m -> own_key_opens h kind data = true.
Proof.
  intros Hk Ho. unfold opened in Ho. unfold own_key_opens. destruct kind; [done|..];
    (destruct (key h _) as [k|]; [|done]; by destruct (decrypt data k)).
Qed.

Lemma reads_contents h kind s m : reads h kind s m -> contents h kind s = Some m.
Proof.
  unfold reads, contents. destruct (files s !! store_filename kind) as [[id data|]|]; [|done|].
  - intros Ho. destruct kind; kinds; try done. apply opened_own_key in Ho as Hk; [|done]. by rewrite Hk.
  - intros [-> Hl]. destruct kind; kinds; try done. by rewrite Hl.
Qed.

Lemma contents_files h kind s s' : (forall p, p ∈ names kind -> files s' !! p = files s !! p) -> contents h kind s' = contents h kind s.
Proof.
  intros Hf. unfold contents. rewrite (Hf _ (name_in kind)). destruct (files s !! store_filename kind) as [[id data|]|]; [|done|].
  - unfold opened_legacy. destruct kind; kinds; try done. by rewrite (Hf _ salt_in).
  - destruct kind; kinds; try done. rewrite (Hf LEGACY_SETTINGS); [done|]. right. left.
Qed.

(** A run keeps what a store holds. *)
Definition keeps h kind s s' : Prop := forall m, contents h kind s = Some m -> contents h kind s' = Some m.

Lemma keeps_same h kind s s' : files s' = files s -> keeps h kind s s'.
Proof. intros E m Hm. rewrite <- Hm. apply contents_files. intros p _. by rewrite E. Qed.

Lemma parsed_ok data m : parse_object data = Ok m -> parsed data = Some m.
Proof. unfold parsed. by intros ->. Qed.

Lemma reads_written h kind s id data m : files s !! store_filename kind = Some (Regular id data) -> opened h kind data = Some m ->
  reads h kind s m.
Proof. unfold reads. by intros ->. Qed.

Lemma opened_sealed h kind k sealed plaintext m : kind <> Storage -> key h kind = Ok k -> decrypt sealed k = Ok plaintext ->
  parse_object plaintext = Ok m -> opened h kind sealed = Some m.
Proof. intros Hk Ek Ed Ep. unfold opened. destruct kind; [done|..]; rewrite Ek, Ed; by apply parsed_ok. Qed.

(** Loading changes the file of a store only when it is missing or is one that the key does not open, and puts
    a file there that the key opens. *)
Definition reloaded h kind s s' : Prop :=
  name_entry kind s' = name_entry kind s \/
  exists id data, name_entry kind s' = Some (Regular id data) /\ own_key_opens h kind data = true /\
    match name_entry kind s with
    | Some (Regular id' data') => kind = Credentials /\ own_key_opens h kind data' = false /\ inode id <> inode id'
    | Some Special => False
    | None => True
    end.

Definition load_spec h kind s (m : result Map StorageError) s' : Prop :=
  reloaded h kind s s' /\
  match m with
  | Ok m => reads h kind s' m /\ (forall m0, contents h kind s = Some m0 -> m = m0)
  | Err _ => keeps h kind s s'
  end.
Lemma unloaded h kind s e s' : files s' = files s -> load_spec h kind s (Err e) s'.
Proof. intros E. split; [left; unfold name_entry; by rewrite E|by apply keeps_same]. Qed.

Lemma loaded_same h kind s s' m : files s' = files s -> reads h kind s' m ->
  (forall m0, contents h kind s = Some m0 -> m = m0) -> load_spec h kind s (Ok m) s'.
Proof. intros E Hr Hm. split; [left; unfold name_entry; by rewrite E|done]. Qed.

Lemma own_key_sealed h kind k sealed plaintext : key h kind = Ok k -> decrypt sealed k = Ok plaintext -> own_key_opens h kind sealed = true.
Proof. intros Ek Ed. unfold own_key_opens. by rewrite Ek, Ed. Qed.

Definition loads h kind (prog : St State StorageError Map) s0 s : Prop :=
  wp prog (fun m => load_spec h kind s0 (Ok m)) (fun e => load_spec h kind s0 (Err e)) s.

(** The old key is known from the salt, or no old credentials can be read. *)
Definition salted h s0 (salt : bytes) s : Prop :=
  (files s = files s0 /\ len salt = 32 /\ data_of (files s0 !! SALT) = Some salt) \/ (forall data, opened_legacy h s0 data = None).

Lemma wp_legacy_key h s0 s : files s = files s0 ->
  wp (legacy_credentials_key h)
    (fun legacy s' => (exists salt, legacy = legacy_key h salt /\ salted h s0 salt s') /\
       name_entry Credentials s' = name_entry Credentials s0)
    (fun _ s' => files s' = files s0) s.
Proof.
  intros E0. apply wp_bind, wp_read_optional; [|congruence]. intros s1 E1 _. rewrite E0.
  assert ((forall data, opened_legacy h s0 data = None) ->
    wp (bind (do salt <- random_bytes 32; atomic_write SALT salt;; ret salt) (fun salt => ret (sha256 (str_bytes (extension_id h) ++ salt))))
      (fun legacy s' => (exists salt, legacy = legacy_key h salt /\ salted h s0 salt s') /\
         name_entry Credentials s' = name_entry Credentials s0) (fun _ s' => files s' = files s0) s1) as Hnew.
  { intros Hn. apply wp_bind, wp_bind, wp_random; [|congruence]. intros salt s2 E2 _.
    apply wp_bind, wp_atomic_write; [|congruence]. intros id s3 E3 _. apply wp_ret, wp_ret. split; [exists salt; split; [done|by right]|].
    unfold name_entry. rewrite E3, lookup_insert_ne by done. congruence. }
  destruct (data_of (files s0 !! SALT)) as [salt|] eqn:Es; [destruct (Z.eqb_spec (len salt) 32) as [Hl|Hl]|].
  - apply wp_bind, wp_ret, wp_ret. split; [|unfold name_entry; congruence].
    exists salt. split; [done|]. left. split_conj; [congruence|done|done].
  - apply Hnew. intros data. unfold opened_legacy. rewrite Es. destruct (key h _); [|done]. by destruct (Z.eqb_spec (len salt) 32).
  - apply Hnew. intros data. unfold opened_legacy. rewrite Es. by destruct (key h _).
Qed.

Lemma contents_legacy h id data s0 k error : files s0 !! store_filename Credentials = Some (Regular id data) ->
  key h Credentials = Ok k -> decrypt data k = Err error -> contents h Credentials s0 = opened_legacy h s0 data.
Proof.
  intros Ef Ek Ed. unfold contents. rewrite Ef. kinds. unfold own_key_opens. by rewrite Ek, Ed.
Qed.

(** Credentials under the old key are written again under the new one, or stay. *)
Lemma loads_legacy h id data k error salt s0 s : files s0 !! store_filename Credentials = Some (Regular id data) ->
  key h Credentials = Ok k -> decrypt data k = Err error -> salted h s0 salt s ->
  name_entry Credentials s = name_entry Credentials s0 ->
  loads h Credentials
    (bind match decrypt data (legacy_key h salt) with
          | Err _ => throw error
          | Ok plaintext => do _ <- lift (parse_object plaintext); do sealed <- encrypt plaintext k;
                            atomic_write (store_filename Credentials) sealed;; ret plaintext
          end (fun plaintext => lift (parse_object plaintext))) s0 s.
Proof.
  intros Ef Ek Ed Hs Hname. pose proof (contents_legacy _ _ _ _ _ _ Ef Ek Ed) as Ec. apply wp_bind.
  assert (forall e s3, files s3 = files s -> load_spec h Credentials s0 (Err e) s3) as Hkeep.
  { intros e s3 E3. split; [left; rewrite <- Hname; unfold name_entry; by rewrite E3|].
    destruct Hs as [[E2 _]|En]; [apply keeps_same; congruence|]. intros m. by rewrite Ec, En. }
  destruct (decrypt data (legacy_key h salt)) as [plaintext|] eqn:El; [|apply wp_throw; by apply Hkeep].
  apply wp_bind, wp_lift; [|intros e _; by apply Hkeep]. intros m Em.
  apply wp_bind, wp_encrypt; [|intros e s3 E3; by apply Hkeep]. intros sealed s3 E3 Es.
  apply wp_bind, wp_atomic_write; [|intros e s4 E4; apply Hkeep; congruence]. intros id' s4 E4 Hid. apply wp_ret, wp_lift; [|congruence].
  intros m' Em'. assert (m' = m) as -> by congruence.
  assert (name_entry Credentials s4 = Some (Regular id' sealed)) as Hn4 by (unfold name_entry; by rewrite E4, lookup_insert_eq).
  split; [|split].
  - right. exists id', sealed. split; [done|]. split; [by eapply own_key_sealed|]. unfold name_entry in *. rewrite Ef.
    rewrite E3, Hname, Ef in Hid. split; [done|]. split; [|done]. unfold own_key_opens. by rewrite Ek, Ed.
  - eapply reads_written; [exact Hn4|]. by eapply opened_sealed.
  - intros m0 Hm0. rewrite Ec in Hm0. destruct Hs as [(E2 & Hl & Hd)|En]; [|by rewrite En in Hm0]. unfold opened_legacy in Hm0.
    rewrite Ek, Hd, (proj2 (Z.eqb_eq _ _) Hl), El in Hm0. apply parsed_ok in Em. congruence.
Qed.

Lemma loads_open_data h kind data id s0 s : kind <> Storage -> files s = files s0 ->
  files s0 !! store_filename kind = Some (Regular id data) ->
  loads h kind (do plaintext <- open_data h kind (store_filename kind) data; lift (parse_object plaintext)) s0 s.
Proof.
  intros Hk E0 Ef. unfold loads, open_data. apply wp_bind, wp_bind. apply wp_lift; [|intros e Ek; by apply unloaded]. intros k Ek.
  destruct (decrypt data k) as [plaintext|error] eqn:Ed.
  - apply wp_ret, wp_lift; [|intros e _; by apply unloaded]. intros m Em.
    assert (reads h kind s m) as Hr by (eapply reads_written; [by rewrite E0|by eapply opened_sealed]). apply loaded_same; [done|done|].
    intros m0 Hm0. apply reads_contents in Hr. rewrite (contents_files h kind s0 s) in Hr by (intros; by rewrite E0). congruence.
  - destruct kind; [done|kinds|kinds; by apply wp_throw, unloaded].
    apply wp_bind. eapply wp_mono; [by apply wp_legacy_key| |intros e s1 E1; by apply unloaded].
    intros legacy s1 [(salt & -> & Hs) Hn]. pose proof (loads_legacy h id data k error salt s0 s1 Ef Ek Ed Hs Hn) as Hl.
    by apply wp_unbind.
Qed.

Lemma loads_migrate h s0 s : files s = files s0 -> files s0 !! store_filename Settings = None ->
  loads h Settings (migrate_settings h (store_filename Settings)) s0 s.
Proof.
  intros E0 Ef. unfold loads.
  assert (contents h Settings s0 = match files s0 !! LEGACY_SETTINGS with
    Some (Regular _ data) => parsed data | Some Special => None | None => Some ∅ end) as Ec by (unfold contents; by rewrite Ef).
  apply wp_bind, wp_read_optional; [|intros e s1 E1; apply unloaded; congruence]. intros s1 E1 Hn. rewrite E0 in *.
  destruct (files s0 !! LEGACY_SETTINGS) as [[id data|]|] eqn:El; [|done|]; cbn [data_of].
  - apply wp_bind, wp_lift; [|intros e _; by apply unloaded]. intros m Em. apply wp_bind, wp_lift; [|intros e _; by apply unloaded].
    intros k Ek. apply wp_bind, wp_encrypt; [|intros e s2 E2; apply unloaded; congruence]. intros sealed s2 E2 Es.
    apply wp_bind, wp_atomic_write; [|intros e s3 E3; apply unloaded; congruence]. intros id' s3 E3 _.
    assert (opened h Settings sealed = Some m) as Ho by (by eapply opened_sealed).
    assert (forall s4, name_entry Settings s4 = Some (Regular id' sealed) -> reads h Settings s4 m /\ reloaded h Settings s0 s4) as Hr.
    { intros s4 E4. split; [by eapply reads_written|]. right. exists id', sealed. split; [done|].
      split; [by eapply own_key_sealed|]. unfold name_entry. by rewrite Ef. }
    assert (parsed data = Some m) as Hp by (by apply parsed_ok). rewrite Hp in Ec.
    apply wp_bind, wp_bind, wp_os_call.
    + intros s4 E4. apply wp_modify, wp_ret. destruct (Hr (set_files (delete LEGACY_SETTINGS (files s4)) s4)) as [Hr1 Hr2].
      { unfold name_entry. cbn [files set_files]. rewrite lookup_delete_ne by done. by rewrite E4, E3, lookup_insert_eq. }
      split; [done|]. split; [done|]. intros; congruence.
    + intros e s4 E4. destruct (Hr s4) as [Hr1 Hr2]; [unfold name_entry; by rewrite E4, E3, lookup_insert_eq|]. split; [done|].
      intros m0 Hm0. assert (m0 = m) as -> by congruence. by apply reads_contents.
  - apply wp_ret, loaded_same; [done| |intros; congruence]. unfold reads. rewrite E1, Ef. split; [done|]. by intros _.
Qed.

Lemma loads_load h kind s : loads h kind (load h kind) s s.
Proof.
  unfold loads, load. apply wp_bind, wp_read_optional; [|intros e s1 E1; by apply unloaded]. intros s1 E1 Hn.
  destruct (files s !! store_filename kind) as [[id data|]|] eqn:Ef; [|done|]; cbn [data_of].
  - destruct (decide (kind = Storage)) as [->|Hk].
    + kinds. apply wp_lift; [|intros e _; by apply unloaded]. intros m Em%parsed_ok.
      assert (reads h Storage s1 m) as Hr by (eapply reads_written; [by rewrite E1|done]). apply loaded_same; [done|done|]. intros m0 Hm0.
      apply reads_contents in Hr. rewrite (contents_files h Storage s s1) in Hr by (intros; by rewrite E1). congruence.
    + replace (is_kind kind Storage) with false by (by destruct kind). by apply (loads_open_data h kind data id s s1).
  - destruct (is_kind kind Settings) eqn:Ek.
    + apply bool_decide_eq_true in Ek as ->. by apply loads_migrate.
    + apply bool_decide_eq_false in Ek. apply wp_ret, loaded_same; [done|unfold reads; by rewrite E1, Ef|]. intros m0. unfold contents.
      rewrite Ef. unfold is_kind. rewrite (bool_decide_eq_false_2 _ Ek). congruence.
Qed.

(** ** Shared snapshots *)

(** The handles on the directory: those of one extension, with the master key of the platform or with none. *)
Variables (id_in_use : string) (master : bytes).
Definition in_use h : Prop := extension_id h = id_in_use /\ (master_key h = Some master \/ master_key h = None).

Lemma tags_tell h h' kind : in_use h -> in_use h' -> kind <> Storage -> cache_tag h kind = cache_tag h' kind -> key h kind = key h' kind.
Proof.
  unfold cache_tag, key in *. intros [E H1] [E' H2] Hk Ht. rewrite E, E' in *. destruct H1 as [H1|H1], H2 as [H2|H2]; rewrite H1, H2 in *; destruct kind; done.
Qed.

Lemma keys_agree h h' kind k k' : in_use h -> in_use h' -> key h kind = Ok k -> key h' kind = Ok k' -> k = k'.
Proof.
  intros [E H1] [E' H2]. unfold key. rewrite E, E'. destruct H1 as [->| ->]; [|done]. destruct H2 as [->| ->]; [|done]. congruence.
Qed.

Lemma own_key_agrees h h' kind k data : in_use h -> in_use h' -> own_key_opens h kind data = true -> key h' kind = Ok k ->
  own_key_opens h' kind data = true.
Proof.
  intros Hh Hh' Ho Ek. unfold own_key_opens in *. rewrite Ek. destruct (key h kind) as [k'|] eqn:Ek'; [|done].
  by rewrite <- (keys_agree h h' kind k' k).
Qed.

(** A snapshot that a handle may use is what the file of its identity reads as. *)
Definition coherent s : Prop := forall kind h m, in_use h ->
  snapshot (shared_file kind s) = Some m -> key_tag (shared_file kind s) = cache_tag h kind ->
  match identity (shared_file kind s) with
  | None => m = ∅
  | Some id => forall data, name_entry kind s = Some (Regular id data) -> opened h kind data = Some m
  end.

(** The file a snapshot was read from is there or was replaced, and credentials that replaced it are under the key. *)
Definition behind kind s : Prop := forall m id,
  snapshot (shared_file kind s) = Some m -> identity (shared_file kind s) = Some id ->
  exists id' data, name_entry kind s = Some (Regular id' data) /\
    (kind = Credentials -> id' <> id -> forall h k, in_use h -> key h kind = Ok k -> own_key_opens h kind data = true).

Definition inv s : Prop := coherent s /\ forall kind, behind kind s.

Definition current kind s : Prop := identity (shared_file kind s) = identity_of (name_entry kind s).

Lemma inv_same s s' : files s' = files s -> (forall k, shared_file k s' = shared_file k s) -> inv s -> inv s'.
Proof.
  intros Ef Es [Hc Hb]. split.
  - intros kind h m. unfold name_entry. rewrite Es, Ef. apply Hc.
  - intros kind m id. unfold name_entry. rewrite Es, Ef. apply Hb.
Qed.

(** The file of a kind is replaced by one that no usable snapshot can be mistaken for. *)
Lemma inv_replaced kind s s' id data : evolves kind s s' -> inv s -> name_entry kind s' = Some (Regular id data) ->
  (forall m id0, snapshot (shared_file kind s) = Some m -> identity (shared_file kind s) = Some id0 -> id <> id0) ->
  (kind = Credentials -> forall h k, in_use h -> key h kind = Ok k -> own_key_opens h kind data = true) ->
  inv s'.
Proof.
  intros [Hs Hf] [Hc Hb] Hn Hid Hown.
  assert (forall k, k <> kind -> name_entry k s' = name_entry k s) as Hother.
  { intros k Hk. unfold name_entry. destruct (Hf (store_filename k)) as [|Hin]; [done|].
    destruct Hk. eapply names_apart; [apply name_in|exact Hin]. }
  split.
  - intros k h m Hh Hm Ht. rewrite Hs in *. specialize (Hc k h m Hh Hm Ht).
    destruct (identity (shared_file k s)) as [id0|] eqn:Ei; [|done]. intros data' E.
    destruct (decide (k = kind)) as [->|Hk]; [|apply Hc; by rewrite <- Hother].
    rewrite Hn in E. injection E as -> ->. by destruct (Hid _ _ Hm Ei).
  - intros k m id0 Hm Ei. rewrite Hs in *. destruct (decide (k = kind)) as [->|Hk].
    + exists id, data. split; [done|]. intros Hcred _. by apply Hown.
    + destruct (Hb k m id0 Hm Ei) as (id' & data' & E & Hset). exists id', data'. by rewrite Hother.
Qed.

Lemma inv_kept kind s s' : evolves kind s s' -> inv s -> name_entry kind s' = name_entry kind s -> inv s'.
Proof.
  intros [Hs Hf] [Hc Hb] Hn.
  assert (forall k, name_entry k s' = name_entry k s) as Hall.
  { intros k. destruct (decide (k = kind)) as [->|Hk]; [done|]. unfold name_entry.
    destruct (Hf (store_filename k)) as [|Hin]; [done|]. destruct Hk. eapply names_apart; [apply name_in|exact Hin]. }
  split.
  - intros k h m. rewrite Hs, Hall. apply Hc.
  - intros k m id. rewrite Hs, Hall. apply Hb.
Qed.

Lemma inv_loaded h kind s s' : evolves kind s s' -> inv s -> in_use h -> reloaded h kind s s' -> inv s'.
Proof.
  intros He Hi Hh [Hn|(id & data & Hn & Ho & Hold)]; [by eapply inv_kept|].
  assert (forall h' k, in_use h' -> key h' kind = Ok k -> own_key_opens h' kind data = true) as Hown
    by (intros h' k Hh' Ek; by eapply (own_key_agrees h h')).
  apply (inv_replaced kind s s' id data); [done|done|done| |by intros _].
  intros m id0 Hm Ei ->. destruct (proj2 Hi kind m id0 Hm Ei) as (id' & data' & E & Hset). rewrite E in Hold.
  destruct Hold as (Hk & Hno & Hino). destruct (decide (id' = id0)) as [->|Hne]; [done|].
  unfold own_key_opens in Ho. destruct (key h kind) as [k|] eqn:Ek; [|done].
  specialize (Hset Hk Hne h k Hh Ek). congruence.
Qed.

Lemma opened_same_key h h' kind data : in_use h -> in_use h' -> cache_tag h kind = cache_tag h' kind -> opened h kind data = opened h' kind data.
Proof.
  intros Hh Hh' Ht. assert (kind <> Storage -> key h kind = key h' kind) as E by (intros; by apply tags_tell).
  unfold opened. destruct kind; [done|by rewrite E..].
Qed.

Lemma shared_set k kind c s : shared_file k (set_shared kind c s) = if is_kind k kind then c else shared_file k s.
Proof. by destruct k, kind. Qed.
Lemma files_set kind c s : files (set_shared kind c s) = files s.
Proof. by destruct kind. Qed.
Lemma calls_set kind c s : calls (set_shared kind c s) = calls s.
Proof. by destruct kind. Qed.

Lemma inv_record h kind s m : inv s -> in_use h -> reads h kind s m ->
  inv (set_shared kind (mkCache (Some m) (identity_of (name_entry kind s)) (cache_tag h kind)) s).
Proof.
  intros [Hco Hb] Hh Hr. split; unfold coherent, behind, name_entry in *.
  - intros k h' m' Hh'. rewrite shared_set, files_set. unfold is_kind. case_bool_decide as Ek; [subst k|by apply Hco]. cbn [snapshot key_tag identity].
    intros [= ->] Ht. unfold reads in Hr. destruct (files s !! store_filename kind) as [[id data|]|] eqn:E; cbn [identity_of]; [|done|tauto].
    intros data' [= <-]. by rewrite <- (opened_same_key h h').
  - intros k m' id. rewrite shared_set, files_set. unfold is_kind. case_bool_decide as Ek; [subst k|by apply Hb]. cbn [snapshot identity]. intros _ Hid.
    destruct (files s !! store_filename kind) as [[id' data|]|] eqn:E; try done. injection Hid as ->. by exists id, data.
Qed.

(** The stores of the other kinds are what they were. *)
Definition others kind s s' : Prop := forall k, k <> kind -> forall h, contents h k s' = contents h k s.

Lemma evolves_others kind s s' : evolves kind s s' -> others kind s s'.
Proof.
  intros [_ Hf] k Hk h. apply contents_files. intros p Hp. destruct (Hf p) as [|Hp']; [done|].
  destruct Hk. by eapply names_apart.
Qed.

Definition refreshed h kind s0 m s : Prop :=
  inv s /\ current kind s /\ others kind s0 s /\ contents h kind s = Some m /\ (forall m0, contents h kind s0 = Some m0 -> m = m0).
Definition unchanged h kind s0 s : Prop := inv s /\ others kind s0 s /\ keeps h kind s0 s.

Ltac parts := unfold unchanged, refreshed; split_conj.

Lemma wp_and {A} (prog : St State StorageError A) Q1 R1 Q2 R2 s :
  wp prog Q1 R1 s -> wp prog Q2 R2 s -> wp prog (fun a s' => Q1 a s' /\ Q2 a s') (fun e s' => R1 e s' /\ R2 e s') s.
Proof. unfold wp. destruct (prog s) as [[]]; auto. Qed.

Lemma wp_identity kind path s : wp (file_identity path)
  (fun id s' => evolves kind s s' /\ files s' = files s /\ id = identity_of (files s !! path) /\ not_special (files s !! path))
  (fun _ s' => evolves kind s s' /\ files s' = files s) s.
Proof.
  eapply wp_mono; [apply wp_and; [apply (ev_file_identity kind)|]| |].
  - apply (wp_file_identity path (fun id s' => files s' = files s /\ id = identity_of (files s !! path) /\ not_special (files s !! path))
      (fun _ s' => files s' = files s)); [done|done].
  - intros id s' [He Hi]. done.
  - intros e s' [He Hi]. done.
Qed.

Lemma wp_assoc {A B C} (m : St State StorageError A) (f : A -> St State StorageError B) (g : B -> St State StorageError C) Q R s :
  wp (bind (bind m f) g) Q R s -> wp (bind m (fun a => bind (f a) g)) Q R s.
Proof. unfold wp, bind. by destruct (m s) as [[]]. Qed.

(** Remembers a snapshot under the identity the file has now. *)
Lemma wp_record h kind m s (Q : unit -> State -> Prop) R : inv s -> in_use h -> reads h kind s m ->
  (forall s', inv s' -> current kind s' -> files s' = files s -> Q tt s') -> (forall e s', inv s' -> files s' = files s -> R e s') ->
  wp (do id <- file_identity (store_filename kind); modify (set_shared kind (mkCache (Some m) id (cache_tag h kind)))) Q R s.
Proof.
  intros Hi Hh Hr HQ HR. apply wp_bind. eapply wp_mono; [apply (wp_identity kind)| |].
  - intros id s1 (He & E1 & -> & Hn). apply wp_modify.
    assert (inv s1) as Hi1 by (by eapply inv_same; [| apply He|]). replace (files s !! store_filename kind) with (name_entry kind s1) by (unfold name_entry; by rewrite E1).
    apply HQ; [apply inv_record; [done|done|]| |by rewrite files_set]; [unfold reads; by rewrite E1|].
    unfold current, name_entry. rewrite shared_set, files_set. unfold is_kind. by rewrite bool_decide_true.
  - intros e s1 [He E1]. apply HR; [by eapply inv_same; [| apply He|]|done].
Qed.

Lemma contents_same h kind s s' : files s' = files s -> contents h kind s' = contents h kind s.
Proof. intros E. apply contents_files. intros p _. by rewrite E. Qed.

Lemma others_same kind s0 s s' : files s' = files s -> others kind s0 s -> others kind s0 s'.
Proof. intros E Ho k Hk h. rewrite (contents_same _ _ _ _ E). by apply Ho. Qed.

(** ** [refresh] *)

Lemma refreshed_reads h kind s m s' : inv s' -> current kind s' -> others kind s s' -> reads h kind s' m ->
  (forall m0, contents h kind s = Some m0 -> m = m0) -> refreshed h kind s m s'.
Proof. intros Hi Hc Ho Hr%reads_contents Hm. by parts. Qed.

Lemma wp_reload h kind s0 s tag : inv s -> in_use h -> files s = files s0 -> tag = cache_tag h kind ->
  wp (do snapshot <- load h kind;
      do id <- file_identity (store_filename kind);
      modify (set_shared kind (mkCache (Some snapshot) id tag));;
      ret snapshot) (refreshed h kind s0) (fun _ => unchanged h kind s0) s.
Proof.
  intros Hi Hh E0 ->. apply wp_bind. eapply wp_mono; [apply wp_and; [apply ev_load|apply loads_load]| |].
  - intros m s1 [He (Hl & Hr & Hm)]. assert (inv s1) as Hi1 by (by eapply inv_loaded).
    assert (others kind s0 s1) as Ho by (intros k Hk h'; rewrite (evolves_others _ _ _ He k Hk); by apply contents_same).
    rewrite (contents_same h kind s0 s) in Hm by done. apply wp_assoc, wp_bind, wp_record; [done|done|done| |].
    + intros s2 Hi2 Hc2 E2. apply wp_ret. apply refreshed_reads; [done|done|by eapply others_same| |done]. unfold reads. by rewrite E2.
    + intros e s2 Hi2 E2. parts; [done|by eapply others_same|]. intros m0 Hm0. rewrite (contents_same _ _ _ _ E2).
      rewrite <- (Hm _ Hm0). by apply reads_contents.
  - intros e s1 [He [Hl Hk]]. parts; [by eapply inv_loaded| |].
    + intros k Hne h'. rewrite (evolves_others _ _ _ He k Hne). by apply contents_same.
    + intros m0 Hm0. apply Hk. by rewrite (contents_same h kind s0 s).
Qed.

Lemma reads_cached h kind s m id : coherent s -> in_use h -> not_special (name_entry kind s) ->
  snapshot (shared_file kind s) = Some m -> key_tag (shared_file kind s) = cache_tag h kind ->
  identity (shared_file kind s) = id -> id = identity_of (name_entry kind s) -> (kind = Settings -> id <> None) -> reads h kind s m.
Proof.
  intros Hc Hh Hn Hm Ht Ei -> Hk. specialize (Hc kind h m Hh Hm Ht). unfold reads, name_entry in *. rewrite Ei in Hc.
  destruct (files s !! store_filename kind) as [[id data|]|]; cbn [identity_of] in *; [by apply Hc|done|]. split; [done|].
  intros ->. by destruct Hk.
Qed.

(** The contents are what a usable snapshot holds. *)
Lemma cached_reads h kind s m : inv s -> in_use h -> not_special (name_entry kind s) -> snapshot (shared_file kind s) = Some m ->
  bool_decide (identity (shared_file kind s) <> identity_of (name_entry kind s)) || bool_decide (key_tag (shared_file kind s) <> cache_tag h kind)
    || (is_kind kind Settings && bool_decide (identity_of (name_entry kind s) = None)) = false -> reads h kind s m.
Proof.
  intros Hi Hh Hn Em [[E2%bool_decide_eq_false E3%bool_decide_eq_false]%orb_false_iff E4]%orb_false_iff.
  eapply reads_cached; [by apply Hi|done|done|done| |reflexivity| |].
  - destruct (decide (key_tag (shared_file kind s) = cache_tag h kind)); [done|by destruct E3].
  - destruct (decide (identity (shared_file kind s) = identity_of (name_entry kind s))); [done|by destruct E2].
  - intros -> Hnone. kinds. apply bool_decide_eq_false in E4. apply E4.
    destruct (decide (identity (shared_file Settings s) = identity_of (name_entry Settings s))); [congruence|by destruct E2].
Qed.

Lemma wp_refresh h kind s : inv s -> in_use h ->
  wp (refresh h kind) (refreshed h kind s) (fun _ => unchanged h kind s) s.
Proof.
  intros Hi Hh. unfold refresh. apply wp_bind. eapply wp_mono; [apply (wp_identity kind)| |].
  - intros id s1 (He & E1 & -> & Hn). assert (inv s1) as Hi1 by (by eapply inv_same; [| apply He|]). apply wp_bind, wp_gets. cbv zeta.
    destruct (snapshot (shared_file kind s1)) as [m|] eqn:Em; [|by apply wp_reload].
    destruct (_ || _ || _) eqn:Es; [by apply wp_reload|]. apply wp_ret.
    rewrite <- E1 in Es, Hn. assert (reads h kind s1 m) as Hr by (by apply cached_reads).
    apply orb_false_iff in Es as [[Es%bool_decide_eq_false _]%orb_false_iff _].
    apply refreshed_reads; [done|unfold current; by apply dec_stable|intros k _ h'; by apply contents_same|done|]. intros m0 Hm0.
    apply reads_contents in Hr. rewrite (contents_same _ _ _ _ E1) in Hr. congruence.
  - intros e s1 [He E1]. parts; [by eapply inv_same; [|apply He|]|intros k _ h'; by apply contents_same|by apply keeps_same].
Qed.

(** ** Writing a store *)

Definition write h kind (data : bytes) : St State StorageError unit :=
  if is_kind kind Storage then atomic_write (store_filename kind) data
  else do key <- lift (key h kind); do sealed <- encrypt data key; atomic_write (store_filename kind) sealed.

Lemma ev_write h kind data : Evolving kind (write h kind data).
Proof. unfold write. destruct kind; kinds; evolving. Qed.

Lemma to_json_parsed m data : to_json m = Ok data -> parse_object data = Ok m.
Proof. unfold to_json. destruct (to_vec m) eqn:E; [|done]. intros [= <-]. unfold parse_object. by rewrite (from_to_vec _ _ E). Qed.

(** The file that was written is another one than the file before, and under the key. *)
Definition rewritten h kind s s' : Prop := exists id data,
  name_entry kind s' = Some (Regular id data) /\ new_file id (name_entry kind s) /\
  (kind = Credentials -> own_key_opens h kind data = true).

Lemma wp_write h kind m data s : to_json m = Ok data ->
  wp (write h kind data) (fun _ s' => evolves kind s s' /\ reads h kind s' m /\ rewritten h kind s s')
    (fun _ s' => evolves kind s s' /\ files s' = files s) s.
Proof.
  intros Hd%to_json_parsed. apply wp_and; [apply ev_write|]. unfold write. destruct (decide (kind = Storage)) as [->|Hk].
  - kinds. apply wp_atomic_write; [|done]. intros id s1 E1 Hid.
    assert (name_entry Storage s1 = Some (Regular id data)) as Hn by (unfold name_entry; by rewrite E1, lookup_insert_eq).
    split; [eapply reads_written; [exact Hn|by apply parsed_ok]|]. by exists id, data.
  - replace (is_kind kind Storage) with false by (by destruct kind). apply wp_bind, wp_lift; [|done]. intros k Ek.
    apply wp_bind, wp_encrypt; [|done]. intros sealed s1 E1 Es. apply wp_atomic_write; [|congruence].
    intros id s2 E2 Hid. rewrite E1 in E2, Hid.
    assert (name_entry kind s2 = Some (Regular id sealed)) as Hn by (unfold name_entry; by rewrite E2, lookup_insert_eq).
    split; [eapply reads_written; [exact Hn|by eapply opened_sealed]|]. exists id, sealed. split; [done|]. split; [done|].
    intros _. by eapply own_key_sealed.
Qed.

Lemma inv_rewritten h kind s s' : evolves kind s s' -> inv s -> in_use h -> current kind s -> rewritten h kind s s' -> inv s'.
Proof.
  intros He Hi Hh Hc (id & data & Hn & Hnew & Hown). apply (inv_replaced kind s s' id data); [done|done|done| |].
  - intros m id0 _ Ei ->. unfold current in Hc. rewrite Ei in Hc. destruct (name_entry kind s) as [[id' data'|]|]; [|done|done].
    cbn in Hc, Hnew. congruence.
  - intros Hk h' k Hh' Ek. eapply (own_key_agrees h h'); [done|done|by apply Hown|exact Ek].
Qed.

(** A change of a store took effect, or failed before or after it did. *)
Definition stored h kind s0 (old new : Map) s : Prop :=
  inv s /\ others kind s0 s /\ (contents h kind s = Some old \/ contents h kind s = Some new).

Lemma wp_mutate h kind f s m : inv s -> in_use h -> closed h = false -> contents h kind s = Some m ->
  ((f m).2 = false -> (f m).1 = m) ->
  wp (mutate h kind f) (fun _ s' => inv s' /\ others kind s s' /\ contents h kind s' = Some (f m).1)
    (fun _ => stored h kind s m (f m).1) s.
Proof.
  intros Hi Hh Hc Hm Hf. unfold mutate. apply wp_bind, wp_lift; [|unfold access; by rewrite Hc]. intros _ _.
  apply wp_bind. eapply wp_mono; [by apply wp_refresh| |intros e s1 (Hi1 & Ho1 & Hk1); unfold stored; parts; [done|done|left; by apply Hk1]].
  intros m1 s1 (Hi1 & Hcur & Ho1 & Hc1 & Hm1). rewrite (Hm1 m Hm) in *. destruct (f m) as [m' changed]. cbn [fst snd] in *.
  destruct changed; cbn [negb]; [|apply wp_ret; unfold stored; parts; [done|done|by rewrite Hf]].
  apply wp_bind, wp_lift; [|intros e _; unfold stored; parts; [done|done|by left]]. intros data Hd. cbv zeta.
  change (if is_kind kind Storage then _ else _) with (write h kind data). apply wp_bind. eapply wp_mono; [by apply (wp_write h kind m')| |].
  - intros _ s2 (He2 & Hr2 & Hw2). assert (inv s2) as Hi2 by (by eapply inv_rewritten).
    assert (others kind s s2) as Ho2 by (intros k Hk h'; rewrite (evolves_others _ _ _ He2 k Hk); by apply Ho1).
    apply wp_record; [done|done|done| |].
    + intros s3 Hi3 _ E3. unfold stored; parts; [done|by eapply others_same|]. rewrite (contents_same _ _ _ _ E3). by apply reads_contents.
    + intros e s3 Hi3 E3. unfold stored; parts; [done|by eapply others_same|right]. rewrite (contents_same _ _ _ _ E3). by apply reads_contents.
  - intros e s2 [He2 E2]. unfold stored; parts; [by eapply inv_same; [|apply He2|]| |left; by rewrite (contents_same _ _ _ _ E2)].
    intros k Hk h'. rewrite (evolves_others _ _ _ He2 k Hk). by apply Ho1.
Qed.

(** ** Operations as operations on a map *)

Inductive Op := Get (k : string) | All | Set_ (k : string) (v : Value) | Remove (k : string) | Replace (value : Map).
Inductive Answer := AValue (v : option Value) | AMap (m : Map) | ADone.

Definition run h kind (op : Op) : St State StorageError Answer :=
  match op with
  | Get k => do v <- get h kind k; ret (AValue v)
  | All => do m <- all h kind; ret (AMap m)
  | Set_ k v => set h kind k v;; ret ADone
  | Remove k => remove h kind k;; ret ADone
  | Replace value => replace h kind value;; ret ADone
  end.

Definition answer (op : Op) m : Answer := match op with Get k => AValue (m !! k) | All => AMap m | _ => ADone end.
Definition effect (op : Op) m : Map :=
  match op with Get _ | All => m | Set_ k v => <[k := v]> m | Remove k => delete k m | Replace value => value end.

(** What reaches a state: the process starts on any files, and the handles run operations, any of whose calls
    may fail. *)
Inductive reachable : State -> Prop :=
| reach_init s : (forall k, shared_file k s = no_cache) -> reachable s
| reach_op s h kind op : reachable s -> in_use h -> reachable (run h kind op s).2.

Lemma closed_closed h kind op s : closed h = true -> run h kind op s = (Err Closed, s).
Proof.
  intros Hc. destruct op; cbn [run]; unfold get, all, set, remove, replace, mutate, bind, lift, access; by rewrite Hc.
Qed.

(** The run of an operation from contents that are known. *)
Definition serves h kind op s m : Prop :=
  wp (run h kind op) (fun a s' => inv s' /\ others kind s s' /\ a = answer op m /\ contents h kind s' = Some (effect op m))
    (fun _ => stored h kind s m (effect op m)) s.

Lemma serves_mutate h kind f s m op : run h kind op = (mutate h kind f;; ret ADone) -> answer op m = ADone -> effect op m = (f m).1 ->
  ((f m).2 = false -> (f m).1 = m) -> inv s -> in_use h -> closed h = false -> contents h kind s = Some m -> serves h kind op s m.
Proof.
  intros Er Ea Ee Hf Hi Hh Hc Hm. unfold serves. rewrite Er, Ea, Ee. apply wp_bind. eapply wp_mono; [by apply wp_mutate| |done].
  intros [] s1 (Hi1 & Ho1 & Hm1). apply wp_ret. by split_conj.
Qed.

Lemma serves_refresh {A} h kind s m (g : Map -> A) op (wrap : A -> Answer) : 
  run h kind op = (do v <- (lift (access h);; do m <- refresh h kind; ret (g m)); ret (wrap v)) ->
  answer op m = wrap (g m) -> effect op m = m -> inv s -> in_use h -> closed h = false -> contents h kind s = Some m -> serves h kind op s m.
Proof.
  intros Er Ea Ee Hi Hh Hc Hm. unfold serves. rewrite Er, Ea, Ee. apply wp_bind, wp_bind, wp_lift; [|unfold access; by rewrite Hc].
  intros _ _. apply wp_bind. eapply wp_mono; [by apply wp_refresh| |].
  - intros m1 s1 (Hi1 & _ & Ho1 & Hc1 & Hm1). rewrite (Hm1 m Hm) in *. apply wp_ret, wp_ret. by split_conj.
  - intros e s1 (Hi1 & Ho1 & Hk1). unfold stored. split_conj; [done|done|]. left. by apply Hk1.
Qed.

Lemma run_serves h kind op s m : inv s -> in_use h -> closed h = false -> contents h kind s = Some m -> serves h kind op s m.
Proof.
  intros Hi Hh Hc Hm. destruct op as [k| |k v|k|value].
  - by apply (serves_refresh h kind s m (fun m => m !! k) _ AValue).
  - unfold serves. cbn [run answer effect]. unfold all. apply wp_bind, wp_bind, wp_lift; [|unfold access; by rewrite Hc]. intros _ _.
    eapply wp_mono; [by apply wp_refresh| |].
    + intros m1 s1 (Hi1 & _ & Ho1 & Hc1 & Hm1). rewrite (Hm1 m Hm) in *. apply wp_ret. by split_conj.
    + intros e s1 (Hi1 & Ho1 & Hk1). unfold stored. split_conj; [done|done|]. left. by apply Hk1.
  - by eapply serves_mutate.
  - eapply serves_mutate; [reflexivity|done..| |done|done|done|done]. cbn [fst snd]. intros Hr%orb_false_iff.
    destruct Hr as [Hr%bool_decide_eq_false _]. apply delete_id. by apply eq_None_not_Some.
  - by eapply serves_mutate.
Qed.

Lemma inv_mutate h kind f s : inv s -> in_use h -> wp (mutate h kind f) (fun _ s' => inv s') (fun _ s' => inv s') s.
Proof.
  intros Hi Hh. unfold mutate. apply wp_bind, wp_lift; [|done]. intros _ _.
  apply wp_bind. eapply wp_mono; [by apply wp_refresh| |by intros e s1 (Hi1 & _)]. intros m s1 (Hi1 & Hcur & _). destruct (f m) as [m' [|]]; cbn [negb]; [|done].
  apply wp_bind, wp_lift; [|done]. intros data Hd. cbv zeta.
  change (if is_kind kind Storage then _ else _) with (write h kind data). apply wp_bind. eapply wp_mono; [by apply (wp_write h kind m')| |].
  - intros _ s2 (He2 & Hr2 & Hw2). apply wp_record; [by eapply inv_rewritten|done|done|done|done].
  - intros e s2 [He2 E2]. by eapply inv_same; [|apply He2|].
Qed.

Lemma inv_run h kind op s : inv s -> in_use h -> inv (run h kind op s).2.
Proof.
  intros Hi Hh. assert (wp (run h kind op) (fun _ s' => inv s') (fun _ s' => inv s') s) as Hw.
  { assert (forall f, wp (mutate h kind f;; ret ADone) (fun _ s' => inv s') (fun _ s' => inv s') s) as Hm.
    { intros f. apply wp_bind. eapply wp_mono; [by apply inv_mutate|done|done]. }
    destruct op as [k| |k v|k|value]; [| |apply Hm..]; cbn [run]; unfold get, all; apply wp_bind, wp_bind, wp_lift; try done; intros _ _.
    - apply wp_bind. eapply wp_mono; [by apply wp_refresh|by intros m s1 (Hi1 & _)|by intros e s1 (Hi1 & _)].
    - eapply wp_mono; [by apply wp_refresh|by intros m s1 (Hi1 & _)|by intros e s1 (Hi1 & _)]. }
  unfold wp in Hw. by destruct (run h kind op s) as [[]].
Qed.

Lemma reachable_inv s : reachable s -> inv s.
Proof.
  induction 1 as [s Hn|s h kind op _ Hi Hh]; [|by apply inv_run]. split.
  - intros k h m _ Hm. by rewrite Hn in Hm.
  - intros k m id Hm. by rewrite Hn in Hm.
Qed.

(** C9: In every state that the handles of an extension can reach from any files, whatever calls to the operating
    system fail on the way, an operation answers from what the files hold and changes that as the same operation on
    a map would.  If it fails, the store holds what it did or what the operation would have made of it, never
    anything else; the stores of other kinds are untouched either way.  No snapshot that handles share is ever
    stale - handles with the platform's master key and without one share snapshots -, which of the operating
    system needs only that files which exist at the same time differ in their inode numbers.  Other programs do not
    change the files while the process runs. *)
Theorem storage_refines_map h kind op s m : reachable s -> in_use h -> closed h = false -> contents h kind s = Some m ->
  match run h kind op s with
  | (Ok a, s') => a = answer op m /\ contents h kind s' = Some (effect op m) /\ reachable s' /\ others kind s s'
  | (Err _, s') =>
    (contents h kind s' = Some m \/ contents h kind s' = Some (effect op m)) /\ reachable s' /\ others kind s s'
  end.
Proof.
  intros Hr Hh Hc Hm. pose proof (run_serves h kind op s m (reachable_inv s Hr) Hh Hc Hm) as Hs.
  pose proof (reach_op s h kind op Hr Hh) as Hr'. unfold serves, wp, stored in Hs.
  destruct (run h kind op s) as [[a|e] s']; cbn [snd] in *; naive_solver.
Qed.

(** A file of a store that cannot be read: under no key that the store has. *)
Definition unreadable h kind s : Prop :=
  (exists id data, name_entry kind s = Some (Regular id data)) /\ contents h kind s = None /\
  (kind = Credentials -> exists salt, data_of (files s !! SALT) = Some salt /\ len salt = 32).

Lemma wp_legacy_key_salted h s0 s salt : files s = files s0 -> data_of (files s0 !! SALT) = Some salt -> len salt = 32 ->
  wp (legacy_credentials_key h) (fun legacy s' => legacy = legacy_key h salt /\ files s' = files s0) (fun _ s' => files s' = files s0) s.
Proof.
  intros E0 Es Hl. apply wp_bind, wp_read_optional; [|congruence]. intros s1 E1 _. rewrite E0, Es, (proj2 (Z.eqb_eq _ _) Hl).
  apply wp_bind, wp_ret, wp_ret. split; [done|congruence].
Qed.

Lemma open_unreadable h kind s0 s id data : kind <> Storage -> files s = files s0 -> unreadable h kind s0 ->
  name_entry kind s0 = Some (Regular id data) ->
  wp (do plaintext <- open_data h kind (store_filename kind) data; lift (parse_object plaintext))
    (fun _ _ => False) (fun _ s' => files s' = files s0) s.
Proof.
  intros Hk E0 (_ & Hc & Hsalt) Ef. unfold contents in Hc. unfold name_entry in Ef. rewrite Ef in Hc.
  unfold open_data. apply wp_bind, wp_bind, wp_lift; [|congruence]. intros k Ek.
  assert (own_key_opens h kind data = is_ok (decrypt data k)) as Hown by (unfold own_key_opens; by rewrite Ek). rewrite Hown in Hc.
  destruct (decrypt data k) as [plaintext|error] eqn:Ed; cbn [is_ok negb] in Hc.
  - rewrite andb_false_r in Hc. apply wp_ret, wp_lift; [|congruence]. intros m Em.
    rewrite (opened_sealed h kind k data plaintext m) in Hc by done. done.
  - destruct kind; [done|kinds|kinds; by apply wp_throw]. destruct Hsalt as (salt & Es & Hl); [done|].
    apply wp_bind. eapply wp_mono; [by apply (wp_legacy_key_salted h s0 s salt)| |done]. intros legacy s1 [-> E1].
    unfold opened_legacy in Hc. rewrite Ek, Es, (proj2 (Z.eqb_eq _ _) Hl) in Hc.
    destruct (decrypt data (legacy_key h salt)) as [plaintext|]; [|by apply wp_throw]. unfold parsed in Hc.
    apply wp_bind, wp_lift; [|done]. intros m Em. by rewrite Em in Hc.
Qed.

Lemma load_unreadable h kind s0 s : files s = files s0 -> unreadable h kind s0 ->
  wp (load h kind) (fun _ _ => False) (fun _ s' => files s' = files s0) s.
Proof.
  intros E0 Hu. pose proof Hu as ((id & data & Ef) & Hc & _). unfold load. apply wp_bind, wp_read_optional; [|congruence].
  intros s2 E2 _. rewrite E0. unfold name_entry in Ef. rewrite Ef. cbn [data_of].
  destruct (decide (kind = Storage)) as [->|Hk].
  - kinds. unfold contents in Hc. rewrite Ef in Hc. kinds. unfold opened, parsed in Hc. apply wp_lift; [|congruence].
    intros m Em. by rewrite Em in Hc.
  - replace (is_kind kind Storage) with false by (by destruct kind). eapply open_unreadable; [done|congruence|done|exact Ef].
Qed.

(** C23: A store whose file cannot be read, because the key is missing or is not its own, or because the file is
    damaged, is never overwritten: setting, removing or replacing fails and every file keeps its bytes.  Credentials
    that no key opens need the old salt for that; if it is missing or not 32 bytes long a new one is written. *)
Theorem unreadable_kept h kind s f : reachable s -> in_use h -> unreadable h kind s ->
  exists e s', mutate h kind f s = (Err e, s') /\ files s' = files s.
Proof.
  intros Hr%reachable_inv Hh Hu.
  assert (wp (mutate h kind f) (fun _ _ => False) (fun _ s' => files s' = files s) s) as Hw.
  { unfold mutate. apply wp_bind, wp_lift; [|done]. intros _ _. apply wp_bind. unfold refresh.
    apply wp_bind. eapply wp_mono; [apply (wp_identity kind)| |by intros e s1 [_ E1]]. intros i s1 (He & E1 & -> & Hn).
    apply wp_bind, wp_gets. cbv zeta.
    assert (forall k : Map -> St State StorageError unit, forall T, wp (bind (do snapshot <- load h kind; T snapshot) k) (fun _ _ => False) (fun _ s' => files s' = files s) s1) as Hload.
    { intros k T. apply wp_bind, wp_bind. eapply wp_mono; [by apply (load_unreadable h kind s s1)|done|done]. }
    destruct (snapshot (shared_file kind s1)) as [m|] eqn:Em; [|by apply wp_unbind, Hload].
    destruct (_ || _ || _) eqn:Es; [by apply wp_unbind, Hload|]. rewrite <- E1 in Es, Hn.
    assert (inv s1) as Hi1 by (by eapply inv_same; [|apply He|]).
    pose proof (cached_reads h kind s1 m Hi1 Hh Hn Em Es) as Hreads%reads_contents.
    rewrite (contents_same h kind s s1 E1) in Hreads. destruct Hu as (_ & Hc & _). congruence. }
  unfold wp in Hw. destruct (mutate h kind f s) as [[a|e] s']; [done|]. by exists e, s'.
Qed.
End spec.

(** ** Keys *)

Lemma app_zero_inv (p p' r r' : bytes) : 0 ∉ p -> 0 ∉ p' -> p ++ 0 :: r = p' ++ 0 :: r' -> p = p' /\ r = r'.
Proof. intros Hp Hp' E. by apply not_elem_of_app_cons_inv_l in E as (-> & _ & ->). Qed.

Lemma purpose_no_zero kind : 0 ∉ str_bytes (store_purpose kind).
Proof. destruct kind; vm_compute; intros Hin; repeat (apply elem_of_cons in Hin as [?|Hin]; [done|]); by apply elem_of_nil in Hin. Qed.

(** The master key authenticates a different message for every store of every extension, so that no two stores
    are encrypted under keys derived from the same message. *)
Theorem key_messages_apart kind kind' id id' :
  key_message (store_purpose kind) id = key_message (store_purpose kind') id' <-> kind = kind' /\ id = id'.
Proof.
  split; [|by intros [-> ->]]. unfold key_message. intros E%app_inv_head. cbn [app] in E.
  apply app_zero_inv in E as [Ep Ei%str_bytes_inj]; [|apply purpose_no_zero..]. split; [|done].
  apply str_bytes_inj in Ep. by destruct kind, kind'.
Qed.

(** ** An instance: a system without failures, a cipher that marks its text by the key, and JSON as a number *)

Module StoreExample.
Definition inode_of (p : string * Entry) : Z := match p.2 with Regular id _ => inode id | Special => 0 end.

(** The next inode number is beyond all that are there. *)
Definition next_inode (files : gmap string Entry) : Z := 1 + foldr Z.max 0 (map inode_of (map_to_list files)).

Lemma foldr_max_ge l x : x ∈ l -> x <= foldr Z.max 0 l.
Proof. induction 1; simpl; lia. Qed.

(** All modification times are the same. *)
#[export] Program Instance os : Os := {|
  error_at _ := None; stamp n files := (Some 0, next_inode files); fill _ k := Ok (repeat 0 k) |}.
Next Obligation.
  intros n files p id data E. simpl. unfold next_inode.
  assert (inode id <= foldr Z.max 0 (map inode_of (map_to_list files))); [|lia]. apply foldr_max_ge.
  apply list_elem_of_fmap. exists (p, Regular id data). split; [done|]. by apply elem_of_map_to_list.
Qed.
Next Obligation. intros n k bs [= <-]. apply repeat_length. Qed.

Fixpoint unmark (k c : bytes) : option bytes :=
  match k, c with
  | [], _ => Some c
  | a :: k, b :: c => if a =? b then unmark k c else None
  | _ :: _, [] => None
  end.
#[export] Program Instance crypto : Crypto := {|
  aes_gcm_encrypt k _ m := Some (k ++ m); aes_gcm_decrypt k _ c := unmark k c; hmac_sha256 k m := k ++ m; sha256 m := m |}.
Next Obligation. intros k _ m c [= <-]. induction k as [|a k IH]; [done|]. simpl. by rewrite Z.eqb_refl. Qed.

Definition decode_map (data : bytes) : result (Document bool) string :=
  match data with
  | [Z.pos p] => match decode p with Some m => Ok (Object m) | None => Err "syntax"%string end
  | _ => Err "syntax"%string
  end.
Lemma decode_map_encode (m : gmap string bool) data : Ok [Z.pos (encode m)] = Ok (E := string) data -> decode_map data = Ok (Object m).
Proof. intros [= <-]. unfold decode_map. by rewrite decode_encode. Qed.
#[export] Instance json : Json bool := {|
  to_vec m := Ok [Z.pos (encode m)]; from_slice := decode_map; from_to_vec := decode_map_encode |}.

Definition handle : ExtensionStore := mkStore "example.extension" (Some [7]) false.
Definition empty_directory : ExtensionStore.State bool := mkState ∅ no_cache no_cache no_cache 0.

Abbreviation ours := (in_use "example.extension" [7]).

Lemma empty_reachable : reachable "example.extension" [7] empty_directory.
Proof. apply reach_init. by intros []. Qed.
Lemma handle_ours : ours handle.
Proof. split; [done|by left]. Qed.

Definition damaged : ExtensionStore.State bool :=
  mkState {[ "settings.enc"%string := Regular (mkIdentity 3 (Some 0) 0) [1; 2; 3] ]} no_cache no_cache no_cache 1.
Lemma damaged_reachable : reachable "example.extension" [7] damaged.
Proof. apply reach_init. by intros []. Qed.
End StoreExample.
Import StoreExample.

Lemma storage_refines_map_witness :
  contents handle Settings empty_directory = Some ∅ /\
  match run handle Settings (Set_ "theme" true) empty_directory with
  | (Ok a, s') => a = answer (Set_ "theme" true) ∅ /\ contents handle Settings s' = Some (effect (Set_ "theme" true) ∅) /\
                  reachable "example.extension" [7] s' /\ others Settings empty_directory s'
  | (Err _, s') =>
    (contents handle Settings s' = Some ∅ \/ contents handle Settings s' = Some (effect (Set_ "theme" true) ∅)) /\
    reachable "example.extension" [7] s' /\ others Settings empty_directory s'
  end.
Proof.
  split; [reflexivity|].
  apply (storage_refines_map "example.extension" [7] handle Settings (Set_ "theme" true) empty_directory ∅);
    [apply empty_reachable|apply handle_ours|reflexivity..].
Defined.

Lemma unreadable_kept_witness : exists e s', mutate handle Settings (fun m => (<["a"%string := true]> m, true)) damaged = (Err e, s') /\
  files s' = files damaged.
Proof.
  apply (unreadable_kept "example.extension" [7] handle Settings damaged);
    [apply damaged_reachable|apply handle_ours|].
  split; [|split; [reflexivity|discriminate]]. by exists (mkIdentity 3 (Some 0) 0), [1; 2; 3].
Defined.

Example set_runs : exists s', run handle Settings (Set_ "theme" true) empty_directory = (Ok ADone, s').
Proof. eexists. vm_compute. reflexivity. Qed.
