(* ===== verification/IpAddress.v ===== *)
(** * Internet addresses: what the Standard Library reads as one, and which the engine keeps away from

    Rust's [str::parse::<IpAddr>] as a parser over the bytes of the text, and [is_private_ip] of
    [crates/network/src/policy.rs]. *)

From S2P Require Import Prelude.

Inductive IpAddr := V4 (octets : list Z) | V6 (segments : list Z).

(** ** Reading: each parser answers its value and the rest, or nothing *)

Definition to_digit (radix : Z) (b : Z) : option Z :=
  let d := if in_range 48 57 b then Some (b - 48)
           else if in_range 97 122 b then Some (b - 87)
           else if in_range 65 90 b then Some (b - 55) else None in
  match d with Some d => if d <? radix then Some d else None | None => None end.

Fixpoint read_digits (radix acc : Z) (count : nat) (l : bytes) : Z * nat * bytes :=
  match l with
  | b :: l' => match to_digit radix b with Some d => read_digits radix (acc * radix + d) (S count) l' | None => (acc, count, l) end
  | [] => (acc, count, l)
  end.

(** [read_number]: at most [max_digits] digits that fit below [bound]. *)
Definition read_number (radix : Z) (max_digits : nat) (allow_zero_prefix : bool) (bound : Z) (l : bytes) : option (Z * bytes) :=
  let '(n, count, rest) := read_digits radix 0 0 l in
  let zero := match l with b :: _ => b =? 48 | [] => false end in
  if (max_digits <? count)%nat || (count =? 0)%nat || (negb allow_zero_prefix && zero && (1 <? count)%nat) || (bound <=? n)
  then None else Some (n, rest).

Definition read_char (c : Z) (l : bytes) : option bytes :=
  match l with b :: l => if b =? c then Some l else None | [] => None end.

Definition read_separated {A} (c : Z) (index : nat) (inner : bytes -> option (A * bytes)) (l : bytes) : option (A * bytes) :=
  match index with O => inner l | S _ => match read_char c l with Some l => inner l | None => None end end.

Fixpoint read_octets (index n : nat) (l : bytes) : option (list Z * bytes) :=
  match n with
  | O => Some ([], l)
  | S n =>
    match read_separated 46 index (read_number 10 3 false 256) l with
    | Some (o, l) => match read_octets (S index) n l with Some (os, l) => Some (o :: os, l) | None => None end
    | None => None
    end
  end.
Definition read_ipv4 : bytes -> option (list Z * bytes) := read_octets 0 4.

(** [read_groups]: up to [limit] groups, the last two of which may be written as an IPv4 address. *)
Fixpoint read_groups (index limit : nat) (l : bytes) : list Z * bool * bytes :=
  match limit with
  | O => ([], false, l)
  | S limit' =>
    match (match limit' with O => None | S _ => read_separated 58 index read_ipv4 l end) with
    | Some ([a; b; c; d], l) => ([a * 256 + b; c * 256 + d], true, l)
    | _ =>
      match read_separated 58 index (read_number 16 4 true 65536) l with
      | Some (g, l) => let '(gs, v4, l) := read_groups (S index) limit' l in (g :: gs, v4, l)
      | None => ([], false, l)
      end
    end
  end.

Definition read_ipv6 (l : bytes) : option (list Z * bytes) :=
  let '(head, head_ipv4, rest) := read_groups 0 8 l in
  if (length head =? 8)%nat then Some (head, rest)
  else if head_ipv4 : bool then None
  else match read_char 58 rest with
       | Some rest =>
         match read_char 58 rest with
         | Some rest =>
           let '(tail, _, rest) := read_groups 0 (8 - (length head + 1)) rest in
           Some (head ++ repeat 0 (8 - length head - length tail) ++ tail, rest)
         | None => None
         end
       | None => None
       end.

Definition finished {A} (r : option (A * bytes)) : option A := match r with Some (a, []) => Some a | _ => None end.

Definition parse_ipv6 (l : bytes) : option (list Z) := finished (read_ipv6 l).
Definition parse_ip (l : bytes) : option IpAddr :=
  match read_ipv4 l with
  | Some (octets, []) => Some (V4 octets)
  | Some _ => None
  | None => V6 <$> parse_ipv6 l
  end.

Example parse_ip_ex : map (fun s => parse_ip (str_bytes s))
    ["127.0.0.1"; "01.2.3.4"; "1.2.3"; "256.1.1.1"; "::"; "::ffff:10.0.0.1"; "fe80::1:2"; "1:2:3:4:5:6:7:8"; "1::2::3"; "1.2.3.4:"; "::1%"]%string =
  [Some (V4 [127; 0; 0; 1]); None; None; None; Some (V6 [0; 0; 0; 0; 0; 0; 0; 0]);
   Some (V6 [0; 0; 0; 0; 0; 65535; 2560; 1]); Some (V6 [65152; 0; 0; 0; 0; 0; 1; 2]); Some (V6 [1; 2; 3; 4; 5; 6; 7; 8]); None; None; None].
Proof. reflexivity. Qed.

(** ** What is read is an address *)

Definition well_formed (address : IpAddr) : Prop :=
  match address with
  | V4 o => length o = 4%nat /\ Forall (fun b => 0 <= b < 256) o
  | V6 s => length s = 8%nat /\ Forall (fun b => 0 <= b < 65536) s
  end.

Lemma to_digit_nonneg radix b d : to_digit radix b = Some d -> 0 <= d.
Proof. unfold to_digit, in_range. repeat case_match; intros; simplify_eq; lia. Qed.

Lemma read_digits_nonneg radix l acc count : 0 <= radix -> 0 <= acc -> 0 <= (read_digits radix acc count l).1.1.
Proof.
  intros Hr. revert acc count. induction l as [|b l IH]; intros acc count Ha; cbn [read_digits]; [done|].
  destruct (to_digit radix b) as [d|] eqn:E; [|done]. apply IH. apply to_digit_nonneg in E. nia.
Qed.

Lemma read_number_bound radix k z bound l n rest : 0 <= radix -> read_number radix k z bound l = Some (n, rest) -> 0 <= n < bound.
Proof.
  intros Hr. unfold read_number. pose proof (read_digits_nonneg radix l 0 0 Hr ltac:(lia)) as Hn.
  destruct (read_digits radix 0 0 l) as [[m count] rest']. cbn in Hn. destruct (_ || _ || _ || (bound <=? m)) eqn:E; [done|].
  intros [= -> ->]. apply orb_false_iff in E as [_ E]. lia.
Qed.

Lemma read_separated_inner {A} c index inner l (a : A) rest : read_separated c index inner l = Some (a, rest) ->
  exists l', inner l' = Some (a, rest).
Proof. unfold read_separated. destruct index; [eauto|]. destruct (read_char c l); [eauto|done]. Qed.

Lemma read_octets_ok index n l os rest : read_octets index n l = Some (os, rest) -> length os = n /\ Forall (fun b => 0 <= b < 256) os.
Proof.
  revert index l os rest. induction n as [|n IH]; intros index l os rest; cbn [read_octets]; [by intros [= <- <-]|].
  destruct (read_separated _ _ _ l) as [[o l']|] eqn:E; [|done]. destruct (read_octets (S index) n l') as [[os' l'']|] eqn:E'; [|done].
  intros [= <- <-]. apply IH in E' as [Hl Hf]. apply read_separated_inner in E as [l0 E]. apply read_number_bound in E; [|lia].
  split; [simpl; lia|by constructor].
Qed.

Lemma read_ipv4_ok l os rest : read_ipv4 l = Some (os, rest) -> well_formed (V4 os).
Proof. apply read_octets_ok. Qed.

Lemma read_groups_ok limit : forall index l gs v4 rest, read_groups index limit l = (gs, v4, rest) ->
  (length gs <= limit)%nat /\ Forall (fun b => 0 <= b < 65536) gs.
Proof.
  induction limit as [|limit IH]; intros index l gs v4 rest; cbn [read_groups]; [intros [= <- <- <-]; by split|].
  assert (forall r, r = match read_separated 58 index (read_number 16 4 true 65536) l with
      | Some (g, l) => let '(gs, v4, l) := read_groups (S index) limit l in (g :: gs, v4, l)
      | None => ([], false, l)
      end -> r = (gs, v4, rest) -> (length gs <= S limit)%nat /\ Forall (fun b => 0 <= b < 65536) gs) as Hgroup.
  { intros r -> Hr. destruct (read_separated 58 index (read_number 16 4 true 65536) l) as [[g l']|] eqn:E.
    - destruct (read_groups (S index) limit l') as [[gs' v4'] rest'] eqn:E'. injection Hr as <- <- <-. apply IH in E' as [Hl Hf].
      apply read_separated_inner in E as [l0 E]. apply read_number_bound in E; [|lia]. split; [simpl; lia|by constructor].
    - injection Hr as <- <- <-. split; [simpl; lia|constructor]. }
  destruct (match limit with O => None | S _ => read_separated 58 index read_ipv4 l end) as [[os l']|] eqn:Ee; [|by apply Hgroup].
  destruct os as [|a [|b [|c [|d [|]]]]]; try (by apply Hgroup).
  intros [= <- <- <-]. destruct limit as [|limit]; [done|].
  apply read_separated_inner in Ee as [l0 E]. apply read_ipv4_ok in E as [_ E]. rewrite !Forall_cons in E.
  split; [simpl; lia|]. repeat constructor; lia.
Qed.

Lemma read_ipv6_ok l s rest : read_ipv6 l = Some (s, rest) -> well_formed (V6 s).
Proof.
  unfold read_ipv6. destruct (read_groups 0 8 l) as [[head v4] r] eqn:E. apply read_groups_ok in E as [Hl Hf].
  destruct (Nat.eqb_spec (length head) 8) as [H8|H8]; [by intros [= <- <-]|]. destruct v4; [done|].
  destruct (read_char 58 r) as [r1|]; [|done]. destruct (read_char 58 r1) as [r2|]; [|done].
  destruct (read_groups 0 (8 - (length head + 1)) r2) as [[tail v4'] r3] eqn:E'. apply read_groups_ok in E' as [Hl' Hf'].
  intros [= <- <-]. split; [rewrite !length_app, repeat_length; lia|]. apply Forall_app. split; [done|]. apply Forall_app. split; [|done].
  apply Forall_forall. intros b Hb%list_elem_of_In%repeat_spec. subst. lia.
Qed.

Lemma parse_ip_ok l : match parse_ip l with Some address => well_formed address | None => True end.
Proof.
  unfold parse_ip. destruct (read_ipv4 l) as [[o [|]]|] eqn:E; [by apply read_ipv4_ok in E|done|].
  unfold parse_ipv6, finished. destruct (read_ipv6 l) as [[s [|]]|] eqn:E6; [by apply read_ipv6_ok in E6|done|done].
Qed.

(** ** Private addresses *)

Definition is_private_v4 (o : list Z) : bool :=
  match o with
  | [a; b; c; d] =>
    (a =? 127)
    || ((a =? 10) || ((a =? 172) && in_range 16 31 b) || ((a =? 192) && (b =? 168)))
    || ((a =? 169) && (b =? 254))
    || in_range 224 239 a
    || bool_decide (o = [0; 0; 0; 0])
    || bool_decide (o = [255; 255; 255; 255])
  | _ => false
  end.

Definition to_ipv4_mapped (s : list Z) : option (list Z) :=
  match s with
  | [0; 0; 0; 0; 0; 65535; a; b] => Some [a / 256; a mod 256; b / 256; b mod 256]
  | _ => None
  end.

Definition is_private_ip (address : IpAddr) : bool :=
  match address with
  | V4 o => is_private_v4 o
  | V6 s =>
    match to_ipv4_mapped s with
    | Some o => is_private_v4 o
    | None =>
      let first := nth 0 s 0 in
      bool_decide (s = [0; 0; 0; 0; 0; 0; 0; 1])
      || (Z.land first 65024 =? 64512)
      || (Z.land first 65472 =? 65152)
      || (Z.land first 65280 =? 65280)
      || bool_decide (s = [0; 0; 0; 0; 0; 0; 0; 0])
    end
  end.

(** An address as a number: the networks are intervals of numbers. *)
Definition number (width : Z) (parts : list Z) : Z := fold_left (fun n p => n * 2 ^ width + p) parts 0.

(** The network of the addresses that share the first [len] bits of [base]. *)
Definition network (bits base len n : Z) : Prop := n / 2 ^ (bits - len) = base / 2 ^ (bits - len).
#[export] Instance network_dec bits base len n : Decision (network bits base len n).
Proof. unfold network. solve_decision. Defined.
Definition v4 (a b c d : Z) : Z := number 8 [a; b; c; d].
Definition private_networks_v4 : list (Z * Z) :=
  [(v4 127 0 0 0, 8); (v4 10 0 0 0, 8); (v4 172 16 0 0, 12); (v4 192 168 0 0, 16); (v4 169 254 0 0, 16); (v4 224 0 0 0, 4);
   (v4 0 0 0 0, 32); (v4 255 255 255 255, 32)].
Definition v6 (a : Z) (h : Z) : Z := number 16 [a; 0; 0; 0; 0; 0; 0; h].
Definition private_networks_v6 : list (Z * Z) :=
  [(v6 0 1, 128); (v6 64512 0, 7); (v6 65152 0, 10); (v6 65280 0, 8); (v6 0 0, 128)].
Definition mapped_network : Z * Z := (number 16 [0; 0; 0; 0; 0; 65535; 0; 0], 96).

(** What is private, by networks: mapped addresses are the IPv4 addresses they stand for. *)
Definition private (address : IpAddr) : Prop :=
  match address with
  | V4 o => Exists (fun '(base, len) => network 32 base len (number 8 o)) private_networks_v4
  | V6 s =>
    let n := number 16 s in
    if decide (network 128 mapped_network.1 mapped_network.2 n)
    then Exists (fun '(base, len) => network 32 base len (n mod 2 ^ 32)) private_networks_v4
    else Exists (fun '(base, len) => network 128 base len n) private_networks_v6
  end.

Lemma div_eq n k q r : 0 <= r < k -> n = q * k + r -> n / k = q.
Proof. intros Hr ->. symmetry. apply (Z.div_unique _ _ _ r); lia. Qed.

Lemma private_v4_iff a b c d : 0 <= a < 256 -> 0 <= b < 256 -> 0 <= c < 256 -> 0 <= d < 256 ->
  is_private_v4 [a; b; c; d] = true <-> Exists (fun '(base, len) => network 32 base len (number 8 [a; b; c; d])) private_networks_v4.
Proof.
  intros Ha Hb Hc Hd. unfold private_networks_v4, network, is_private_v4.
  rewrite !Exists_cons, Exists_nil. cbn [number fold_left v4]. change (2 ^ 8) with 256. set (n := ((((0 * 256 + a) * 256 + b) * 256 + c) * 256 + d)).
  change (2 ^ (32 - 8)) with 16777216. change (2 ^ (32 - 12)) with 1048576. change (2 ^ (32 - 16)) with 65536.
  change (2 ^ (32 - 4)) with 268435456. change (2 ^ (32 - 32)) with 1. rewrite !Z.div_1_r.
  assert (n / 16777216 = a) as -> by (apply (div_eq _ _ _ (b * 65536 + c * 256 + d)); lia).
  assert (n / 65536 = a * 256 + b) as -> by (apply (div_eq _ _ _ (c * 256 + d)); lia).
  assert (n / 1048576 = a * 16 + b / 16) as ->.
  { apply (div_eq _ _ _ (b mod 16 * 65536 + c * 256 + d)); divmod_lia. }
  assert (n / 268435456 = a / 16) as ->.
  { apply (div_eq _ _ _ (a mod 16 * 16777216 + b * 65536 + c * 256 + d)); divmod_lia. }
  unfold v4, number. cbn [fold_left].
  rewrite !orb_true_iff, !andb_true_iff, !bool_decide_eq_true. unfold in_range. rewrite !andb_true_iff, !Z.eqb_eq, !Z.leb_le.
  assert ([a; b; c; d] = [0; 0; 0; 0] <-> n = 0) as -> by (unfold n; split; [intros [= -> -> -> ->]; lia|intros ?; repeat f_equal; lia]).
  assert ([a; b; c; d] = [255; 255; 255; 255] <-> n = 4294967295) as -> by (unfold n; split; [intros [= -> -> -> ->]; lia|intros ?; repeat f_equal; lia]).
  clearbody n. split.
  - intros Hp. cbn. divmod_lia.
  - intros Hp. cbn in Hp. divmod_lia.
Qed.

(** A mask of the upper bits of a segment compares its quotient. *)
Lemma mask_high a m k c : 0 <= k -> 0 <= m -> 0 <= a < 2 ^ (m + k) ->
  (Z.land a (Z.shiftl (Z.ones m) k) =? c * 2 ^ k) = (a / 2 ^ k =? c).
Proof.
  intros Hk Hm Ha. pose proof (Z.pow_pos_nonneg 2 k ltac:(lia) Hk) as Hp.
  assert (Z.land a (Z.shiftl (Z.ones m) k) = a / 2 ^ k * 2 ^ k) as ->.
  { rewrite <- Z.shiftr_div_pow2, <- Z.shiftl_mul_pow2 by done. apply Z.bits_inj'. intros n Hn. rewrite Z.land_spec, !Z.shiftl_spec by done.
    destruct (Z.le_gt_cases k n); [|by rewrite !(fun a => Z.testbit_neg_r a (n - k)), andb_false_r by lia].
    rewrite Z.shiftr_spec by lia. replace (n - k + k) with n by lia. destruct (Z.le_gt_cases (m + k) n).
    - rewrite <- (Z.mod_small a (2 ^ (m + k))), Z.mod_pow2_bits_high by lia. done.
    - rewrite Z.ones_spec_low by lia. apply andb_true_r. }
  destruct (Z.eqb_spec (a / 2 ^ k) c) as [->|Hne]; [apply Z.eqb_refl|]. apply Z.eqb_neq. nia.
Qed.

Lemma first_masks a : 0 <= a < 65536 ->
  (Z.land a 65024 =? 64512) = (a / 512 =? 126) /\ (Z.land a 65472 =? 65152) = (a / 64 =? 1018) /\
  (Z.land a 65280 =? 65280) = (a / 256 =? 255).
Proof.
  intros Ha. split_conj; [exact (mask_high a 7 9 126 ltac:(done) ltac:(done) Ha)|exact (mask_high a 10 6 1018 ltac:(done) ltac:(done) Ha)
    |exact (mask_high a 8 8 255 ltac:(done) ltac:(done) Ha)].
Qed.

(** The number of an IPv6 address, by its first segment, the next five and the last two. *)
Lemma number_v6 a b c d e f g h : number 16 [a; b; c; d; e; f; g; h] =
  a * 2 ^ 112 + (((b * 65536 + c) * 65536 + d) * 65536 + e) * 2 ^ 48 + f * 2 ^ 32 + (g * 65536 + h).
Proof. unfold number. cbn [fold_left]. change (2 ^ 16) with 65536. lia. Qed.

Definition v6_private (s : list Z) : bool :=
  let first := nth 0 s 0 in
  bool_decide (s = [0; 0; 0; 0; 0; 0; 0; 1]) || (Z.land first 65024 =? 64512) || (Z.land first 65472 =? 65152)
  || (Z.land first 65280 =? 65280) || bool_decide (s = [0; 0; 0; 0; 0; 0; 0; 0]).

Lemma private_v6_iff a rest : length rest = 7%nat -> Forall (fun b => 0 <= b < 65536) (a :: rest) ->
  v6_private (a :: rest) = true <-> Exists (fun '(base, len) => network 128 base len (number 16 (a :: rest))) private_networks_v6.
Proof.
  intros Hl Hs. destruct rest as [|b [|c [|d [|e [|f [|g [|h [|]]]]]]]]; try done.
  rewrite !Forall_cons in Hs. destruct Hs as (Ha & Hb & Hc & Hd & He & Hf & Hg & Hh & _).
  unfold private_networks_v6, network, v6_private. rewrite !Exists_cons, Exists_nil. cbn [nth].
  destruct (first_masks a Ha) as (-> & -> & ->). unfold v6. rewrite !number_v6. set (n := a * 2 ^ 112 + _ + _ + _).
  change (2 ^ (128 - 128)) with 1. rewrite !Z.div_1_r.
  assert (forall k, 0 <= k <= 16 -> n / 2 ^ (128 - k) = a / 2 ^ (16 - k)) as Hn.
  { intros k Hk. replace (2 ^ (128 - k)) with (2 ^ 112 * 2 ^ (16 - k)) by (rewrite <- Z.pow_add_r by lia; f_equal; lia).
    rewrite <- Z.div_div by (try apply Z.pow_pos_nonneg; lia). f_equal.
    apply (div_eq _ _ _ ((((b * 65536 + c) * 65536 + d) * 65536 + e) * 2 ^ 48 + f * 2 ^ 32 + (g * 65536 + h))); unfold n; lia. }
  rewrite !Hn by lia. rewrite !orb_true_iff, !bool_decide_eq_true, !Z.eqb_eq.
  assert ([a; b; c; d; e; f; g; h] = [0; 0; 0; 0; 0; 0; 0; 0] <-> n = 0) as -> by (unfold n; split; [intros [= -> -> -> -> -> -> -> ->]; lia|intros ?; repeat f_equal; lia]).
  assert ([a; b; c; d; e; f; g; h] = [0; 0; 0; 0; 0; 0; 0; 1] <-> n = 1) as -> by (unfold n; split; [intros [= -> -> -> -> -> -> -> ->]; lia|intros ?; repeat f_equal; lia]).
  clearbody n. cbn. tauto.
Qed.

Lemma mapped_iff s : length s = 8%nat -> Forall (fun b => 0 <= b < 65536) s ->
  match to_ipv4_mapped s with
  | Some o => network 128 mapped_network.1 mapped_network.2 (number 16 s) /\ number 16 s mod 2 ^ 32 = number 8 o /\
              exists a b c d, o = [a; b; c; d] /\ 0 <= a < 256 /\ 0 <= b < 256 /\ 0 <= c < 256 /\ 0 <= d < 256
  | None => ~ network 128 mapped_network.1 mapped_network.2 (number 16 s)
  end.
Proof.
  intros Hl Hs. destruct s as [|a [|b [|c [|d [|e [|f [|g [|h [|]]]]]]]]]; try done.
  rewrite !Forall_cons in Hs. destruct Hs as (Ha & Hb & Hc & Hd & He & Hf & Hg & Hh & _).
  assert (network 128 mapped_network.1 mapped_network.2 (number 16 [a; b; c; d; e; f; g; h]) <->
    (a = 0 /\ b = 0 /\ c = 0 /\ d = 0 /\ e = 0 /\ f = 65535)) as Hnet.
  { unfold network, mapped_network. cbn [fst snd]. rewrite !number_v6. change (2 ^ (128 - 96)) with (2 ^ 32).
    rewrite (div_eq _ _ (a * 2 ^ 80 + (((b * 65536 + c) * 65536 + d) * 65536 + e) * 2 ^ 16 + f) (g * 65536 + h)) by lia.
    change ((0 * 2 ^ 112 + (((0 * 65536 + 0) * 65536 + 0) * 65536 + 0) * 2 ^ 48 + 65535 * 2 ^ 32 + (0 * 65536 + 0)) / 2 ^ 32) with 65535. lia. }
  destruct (decide (a = 0 /\ b = 0 /\ c = 0 /\ d = 0 /\ e = 0 /\ f = 65535)) as [(-> & -> & -> & -> & -> & ->)|Hno].
  - cbn [to_ipv4_mapped]. split_conj; [by apply Hnet| |].
    + rewrite number_v6. unfold number. cbn [fold_left]. change (2 ^ 8) with 256.
      rewrite <- (Z.mod_unique_pos _ _ 65535 (g * 65536 + h)) by lia. divmod_lia.
    + eexists _, _, _, _. split_conj; [reflexivity|divmod_lia..].
  - assert (to_ipv4_mapped [a; b; c; d; e; f; g; h] = None) as ->; [|by rewrite Hnet].
    unfold to_ipv4_mapped. destruct (decide (a = 0)) as [->|]; [|by destruct a].
    repeat case_match; try done; subst; exfalso; apply Hno; split_conj; done.
Qed.

Lemma private_ip_iff address : well_formed address -> (is_private_ip address = true <-> private address).
Proof.
  destruct address as [o|s]; intros [Hl Hs].
  - destruct o as [|a [|b [|c [|d [|]]]]]; try done. rewrite !Forall_cons in Hs. apply private_v4_iff; tauto.
  - pose proof (mapped_iff s Hl Hs) as Hm. unfold is_private_ip, private. destruct (to_ipv4_mapped s) as [o|].
    + destruct Hm as (Hn & Ho & a & b & c & d & -> & Ha & Hb & Hc & Hd). rewrite decide_True by done. rewrite Ho. by apply private_v4_iff.
    + rewrite decide_False by done. destruct s as [|a rest]; [done|]. injection Hl as Hl. by apply (private_v6_iff a rest).
Qed.

(** C24: Whatever text is read as an address has four bytes or eight segments of 16 bits, and the addresses kept away
    from are exactly those of the private, loopback, link-local, multicast, unspecified and broadcast networks, by
    the bits of their prefixes; an IPv6 address mapped from IPv4 counts as the IPv4 address. *)
Theorem parsed_private_networks l :
  match parse_ip l with
  | Some address => well_formed address /\ (is_private_ip address = true <-> private address)
  | None => True
  end.
Proof. pose proof (parse_ip_ok l) as Hok. destruct (parse_ip l) as [a|]; [|done]. split; [done|by apply private_ip_iff]. Qed.
