(* ===== verification/Url.v ===== *)
(** * URLs as Go's [net/url] reads them: [crates/network/src/url.rs]

    The host of a URL is checked against permissions, its path goes to the server with its escapes.  A [str] is
    the list of its bytes.  Parsing a domain ([url::Host::parse]) and building an [http::Uri] are the class [Http]. *)

From S2P Require Import Prelude UnicodeText CharText IpAddress.

Class Http := {
  Uri : Type;
  host_parse : bytes -> result bytes string;
  build_uri : bytes -> bytes -> bytes -> result Uri string;
  uri_host : Uri -> option bytes }.

(** ** Bytes of text *)

Definition is_upper (b : Z) : bool := in_range 65 90 b.
Definition is_digit_byte (b : Z) : bool := in_range 48 57 b.
Definition is_alphabetic (b : Z) : bool := is_upper b || in_range 97 122 b.
Definition is_alphanumeric (b : Z) : bool := is_alphabetic b || is_digit_byte b.
Definition ascii_lower_byte (b : Z) : Z := if is_upper b then b + 32 else b.
Definition ascii_lowercase : bytes -> bytes := map ascii_lower_byte.
Definition eq_ignore_case (a b : bytes) : bool := bool_decide (ascii_lowercase a = ascii_lowercase b).

Fixpoint split_once (c : Z) (l : bytes) : option (bytes * bytes) :=
  match l with
  | [] => None
  | b :: l => if b =? c then Some ([], l) else match split_once c l with Some (x, y) => Some (b :: x, y) | None => None end
  end.
Fixpoint rsplit_once (c : Z) (l : bytes) : option (bytes * bytes) :=
  match l with
  | [] => None
  | b :: l => match rsplit_once c l with Some (x, y) => Some (b :: x, y) | None => if b =? c then Some ([], l) else None end
  end.
Definition find_byte (c : Z) (l : bytes) : option nat := (fun p => length p.1) <$> split_once c l.
Definition rfind_byte (c : Z) (l : bytes) : option nat := (fun p => length p.1) <$> rsplit_once c l.
(** The part before the first occurrence: [split(c).next()]. *)
Definition before (c : Z) (l : bytes) : bytes := match split_once c l with Some (x, _) => x | None => l end.

(** The first occurrence of a text. *)
Fixpoint split_text (p l : bytes) : option (bytes * bytes) :=
  match strip_prefix p l with
  | Some rest => Some ([], rest)
  | None => match l with
            | [] => None
            | b :: l => match split_text p l with Some (x, y) => Some (b :: x, y) | None => None end
            end
  end.

(** ** Escapes *)

Inductive Escape := Path | Host | Zone.

Definition valid_host_byte (b : Z) : bool :=
  (128 <=? b) || is_alphanumeric b || any_of (lit "-._~!$&'()*+,;=:[]<>") b || (b =? 34).

Definition refuses (mode : Escape) (value : Z) : bool :=
  match mode with
  | Path => false
  | Host => (value <? 128) && negb (value =? 37)
  | Zone => negb (value =? 37) && negb (value =? 32) && negb (valid_host_byte value)
  end.

Fixpoint decode (mode : Escape) (input : bytes) : option bytes :=
  match input with
  | [] => Some []
  | b :: l =>
    if b =? 37 then
      match l with
      | h :: l' :: rest =>
        match to_digit 16 h, to_digit 16 l' with
        | Some high, Some low =>
          let value := high * 16 + low in
          if refuses mode value then None else cons value <$> decode mode rest
        | _, _ => None
        end
      | _ => None
      end
    else if match mode with Path => false | _ => negb (valid_host_byte b) end then None
    else cons b <$> decode mode l
  end.

(** [format!("%{byte:02X}")] *)
Definition hex_upper (d : Z) : Z := if d <? 10 then 48 + d else 55 + d.
Definition escape_byte (b : Z) : bytes := [37; hex_upper (b / 16); hex_upper (b mod 16)].
Definition escape_except (allowed : Z -> bool) (l : bytes) : bytes :=
  flat_map (fun b => if allowed b then [b] else escape_byte b) l.

Definition unreserved : bytes := lit "-._~".
Definition escape_component (value reserved : bytes) : bytes :=
  escape_except (fun b => is_alphanumeric b || any_of unreserved b || any_of reserved b) value.
Definition escape (value : bytes) (host : bool) : bytes :=
  escape_except (fun b => is_alphanumeric b || any_of (lit "-._~!$&'()*+,;=:[]") b || (negb host && any_of (lit "/%@?") b)) value.
Definition unescape_path : bytes -> option bytes := decode Path.

(** ** Hosts *)

Definition valid_port (port : bytes) : bool :=
  bool_decide (port = []) || match port with b :: digits => (b =? 58) && forallb is_digit_byte digits | [] => false end.

Definition parse_host (host scheme : bytes) : option bytes :=
  match rfind_byte 91 host with
  | Some open =>
    if negb (open =? 0)%nat then None
    else
      close ← rfind_byte 93 host;
      if negb (valid_port (drop (close + 1) host)) then None
      else
        let raw := drop 1 (take close host) in
        decoded ← match split_text (lit "%25") raw with
                  | Some (address, zone) =>
                    bytes ← decode Host address;
                    zone ← decode Zone (lit "%25" ++ zone);
                    Some (bytes ++ zone)
                  | None => decode Host raw
                  end;
        let hostname := lossy decoded in
        address ← match split_once 37 hostname with
                  | Some (address, zone) => if bool_decide (zone = []) then None else Some address
                  | None => Some hostname
                  end;
        _ ← parse_ipv6 address;
        Some hostname
  | None =>
    hostname ← match find_byte 58 host with
               | Some first =>
                 index ← (if eq_ignore_case scheme (lit "http") || eq_ignore_case scheme (lit "https") then Some first
                          else rfind_byte 58 host);
                 if negb (valid_port (drop index host)) then None else Some (take index host)
               | None => Some host
               end;
    lossy <$> decode Host hostname
  end.

(** ** The parts of a URL *)

Record UrlParts := mkUrl {
  scheme : bytes; hostname : bytes; path : bytes; raw_path : bytes; raw_query : bytes; force_query : bool; fragment : bytes;
  port : option bytes; has_credentials : bool; host : bytes; username : bytes; password : option bytes; opaque : bytes; omit_host : bool }.

(** The scheme in front of the first colon: [None] when the colon comes first. *)
Fixpoint scan_scheme (input seen l : bytes) : option (bytes * bytes) :=
  match l with
  | [] => Some ([], input)
  | b :: l =>
    if b =? 58 then match seen with [] => None | _ => Some (seen, l) end
    else if negb (is_alphabetic b) && negb (negb (bool_decide (seen = [])) && (is_digit_byte b || any_of (lit "+-.") b))
    then Some ([], input)
    else scan_scheme input (seen ++ [b]) l
  end.

Definition user_byte (b : Z) : bool := is_alphanumeric b || any_of (lit "-._~!$&'()*+,;=:%@") b.

Record Authority := mkAuthority {
  a_hostname : bytes; a_host : bytes; a_port : option bytes; a_credentials : bool; a_username : bytes; a_password : option bytes }.
Definition no_authority : Authority := mkAuthority [] [] None false [] None.

Definition parse_authority (authority scheme : bytes) : option Authority :=
  '(has_credentials, username, password, host) ←
    match rsplit_once 64 authority with
    | Some (user, host) =>
      if negb (forallb user_byte user) then None
      else
        _ ← decode Path user;
        let '(name, secret) := match split_once 58 user with Some (name, secret) => (name, Some secret) | None => (user, None) end in
        username ← decode Path name;
        password ← match secret with Some secret => Some <$> decode Path secret | None => Some None end;
        Some (true, username, password, host)
    | None => Some (false, [], None, authority)
    end;
  hostname ← parse_host host scheme;
  raw_host ← decode Path host;
  port_part ← (if text_starts_with host (lit "[") then (fun close => drop (close + 1) host) <$> rfind_byte 93 host
               else Some (match rfind_byte 58 host with Some index => drop index host | None => [] end));
  Some (mkAuthority hostname raw_host (strip_prefix (lit ":") port_part) has_credentials username password).

Definition control_byte (b : Z) : bool := (b <? 32) || (b =? 127).

Definition parse (input : bytes) : option UrlParts :=
  let '(input, fragment) := match split_once 35 input with Some p => p | None => (input, []) end in
  _ ← decode Path fragment;
  if existsb control_byte input then None
  else
    '(scheme, rest) ← scan_scheme input [] input;
    let '(path, query) := match split_once 63 rest with Some p => p | None => (rest, []) end in
    let force_query := text_ends_with rest (lit "?") && bool_decide (query = []) in
    let rest := path in
    if negb (text_starts_with rest (lit "/")) && negb (bool_decide (scheme = [])) then
      Some (mkUrl (ascii_lowercase scheme) [] [] rest query force_query fragment None false [] [] None rest false)
    else if negb (text_starts_with rest (lit "/")) && existsb (Z.eqb 58) (before 47 rest) then None
    else
      '(authority, rest) ←
        (if text_starts_with rest (lit "//") && (negb (bool_decide (scheme = [])) || negb (text_starts_with rest (lit "///"))) then
           let authority_and_path := drop 2 rest in
           let end_ := default (length authority_and_path) (find_byte 47 authority_and_path) in
           a ← parse_authority (take end_ authority_and_path) scheme;
           Some (a, drop end_ authority_and_path)
         else Some (no_authority, rest));
      let omit_host := negb (bool_decide (scheme = [])) && text_starts_with path (lit "/") && negb (text_starts_with path (lit "//")) in
      path ← (if bool_decide (rest = []) then Some (lit "/") else decode Path rest);
      Some (mkUrl (ascii_lowercase scheme) (a_hostname authority) path rest query force_query fragment (a_port authority)
        (a_credentials authority) (a_host authority) (a_username authority) (a_password authority) [] omit_host).

Definition path_byte (b : Z) : bool := is_alphanumeric b || any_of (lit "-._~!$&'()*+,;=:[]/%@") b.

Definition escaped_path (u : UrlParts) : bytes :=
  if forallb path_byte (raw_path u) then raw_path u
  else escape_except (fun b => is_alphanumeric b || any_of (lit "-._~$&+,/:;=@") b) (default [] (decode Path (raw_path u))).

Definition reference_fragment (fragment : bytes) : bytes :=
  if forallb (fun b => is_alphanumeric b || any_of (lit "-._~!$&'()*+,;=:[]/%@?") b) fragment then fragment
  else escape_component (default [] (unescape_path fragment)) (lit "!$&()*+,/:;=?@").

Definition query_suffix (u : UrlParts) : bytes :=
  if force_query u || negb (bool_decide (raw_query u = [])) then lit "?" ++ raw_query u else [].

Definition reference_authority (u : UrlParts) : bytes :=
  if (negb (bool_decide (scheme u = [])) || negb (bool_decide (host u = [])) || has_credentials u)
     && negb (omit_host u && bool_decide (host u = []) && negb (has_credentials u))
  then (if negb (bool_decide (host u = [])) || negb (bool_decide (raw_path u = [])) || has_credentials u then lit "//" else [])
       ++ (if has_credentials u then
             escape_component (username u) (lit "$&+,;=")
             ++ match password u with Some password => lit ":" ++ escape_component password (lit "$&+,;=") | None => [] end
             ++ lit "@"
           else [])
       ++ escape_component (host u) (lit "!$&'()*+,;=:[]<>" ++ [34])
  else [].

Definition reference_string (u : UrlParts) : bytes :=
  let result := if bool_decide (scheme u = []) then [] else scheme u ++ lit ":" in
  (if negb (bool_decide (opaque u = [])) then result ++ opaque u
   else
     let result := result ++ reference_authority u in
     let path := escaped_path u in
     let result := if negb (bool_decide (path = [])) && negb (text_starts_with path (lit "/")) && negb (bool_decide (host u = []))
                   then result ++ lit "/" else result in
     let result := if bool_decide (result = []) && existsb (Z.eqb 58) (before 47 path) then result ++ lit "./" else result in
     result ++ path)
  ++ query_suffix u
  ++ (if bool_decide (fragment u = []) then [] else lit "#" ++ reference_fragment (fragment u)).

(** ** Resolving references *)

(** One part between slashes: the result so far, and whether no slash goes before the next part. *)
Definition resolve_part (state : bytes * bool) (part : bytes) : bytes * bool :=
  let '(result, first) := state in
  if bool_decide (part = lit ".") then (result, false)
  else if bool_decide (part = lit "..") then
    let result := take (match rfind_byte 47 (drop 1 result) with Some index => index + 1 | None => 1 end) result in
    (result, bool_decide (length result = 1%nat))
  else ((if first then result else result ++ lit "/") ++ part, false).

Definition full_path (base reference : bytes) : bytes :=
  if bool_decide (reference = []) then base
  else if text_starts_with reference (lit "/") then reference
  else take (match rfind_byte 47 base with Some index => index + 1 | None => 0 end) base ++ reference.

Definition resolve_path (base reference : bytes) : bytes :=
  let full := full_path base reference in
  if bool_decide (full = []) then full
  else
    let parts := split_all 47 full in
    let '(result, _) := fold_left resolve_part parts (lit "/", true) in
    let last_part := default [] (last parts) in
    let result := if bool_decide (last_part = lit ".") || bool_decide (last_part = lit "..") then result ++ lit "/" else result in
    if text_starts_with result (lit "//") then drop 1 result else result.

Definition with_scheme (s : bytes) (u : UrlParts) : UrlParts :=
  mkUrl s (hostname u) (path u) (raw_path u) (raw_query u) (force_query u) (fragment u) (port u) (has_credentials u) (host u)
    (username u) (password u) (opaque u) (omit_host u).
Definition with_raw_path (p : bytes) (u : UrlParts) : UrlParts :=
  mkUrl (scheme u) (hostname u) (path u) p (raw_query u) (force_query u) (fragment u) (port u) (has_credentials u) (host u)
    (username u) (password u) (opaque u) (omit_host u).
Definition with_path (p : bytes) (u : UrlParts) : UrlParts :=
  mkUrl (scheme u) (hostname u) p (raw_path u) (raw_query u) (force_query u) (fragment u) (port u) (has_credentials u) (host u)
    (username u) (password u) (opaque u) (omit_host u).
Definition with_query (q f : bytes) (u : UrlParts) : UrlParts :=
  mkUrl (scheme u) (hostname u) (path u) (raw_path u) q (force_query u) f (port u) (has_credentials u) (host u)
    (username u) (password u) (opaque u) (omit_host u).

(** A reference without a path and query keeps the query of its base, and then without a fragment its fragment. *)
Definition inherit_query (base target : UrlParts) : UrlParts :=
  if bool_decide (raw_path target = []) && negb (force_query target) && bool_decide (raw_query target = []) then
    with_query (raw_query base) (if bool_decide (fragment target = []) then fragment base else fragment target) target
  else target.

Definition inherit_scheme (base target : UrlParts) : UrlParts :=
  if bool_decide (scheme target = []) then with_scheme (scheme base) target else target.

Definition resolve_reference (base : UrlParts) (reference : bytes) : option UrlParts :=
  target ← parse reference;
  let absolute := negb (bool_decide (scheme target = [])) || negb (bool_decide (host target = [])) || has_credentials target in
  let target := inherit_scheme base target in
  let target :=
    if absolute then
      if bool_decide (opaque target = []) then with_raw_path (resolve_path (escaped_path target) []) target else target
    else
      let target := inherit_query base target in
      if bool_decide (raw_path target = []) && negb (bool_decide (opaque base = [])) then
        mkUrl (scheme target) (hostname target) (path target) (raw_path target) (raw_query target) (force_query target)
          (fragment target) (port target) (has_credentials target) (host target) (username target) (password target)
          (opaque base) (omit_host target)
      else
        let base_path := if bool_decide (opaque base = []) then escaped_path base else [] in
        mkUrl (scheme target) (hostname base) (path target) (resolve_path base_path (escaped_path target)) (raw_query target)
          (force_query target) (fragment target) (port base) (has_credentials base) (host base) (username base) (password base)
          (opaque target) (omit_host target) in
  parse (reference_string target).

Definition resolve (base : UrlParts) (location : bytes) : option UrlParts :=
  target ← parse location;
  let absolute := negb (bool_decide (scheme target = [])) || negb (bool_decide (hostname target = [])) || has_credentials target in
  let target := inherit_scheme base target in
  let target :=
    if absolute then with_raw_path (resolve_path (escaped_path target) []) target
    else
      let target := inherit_query base target in
      mkUrl (scheme target) (hostname base) (path target) (resolve_path (escaped_path base) (escaped_path target))
        (raw_query target) (force_query target) (fragment target) (port base) (has_credentials base) (host target)
        (username target) (password target) (opaque target) (omit_host target) in
  path ← decode Path (raw_path target);
  Some (with_path path target).

(** ** Requests *)

Definition bracketed (u : UrlParts) : bytes := if existsb (Z.eqb 58) (hostname u) then lit "[" ++ hostname u ++ lit "]" else hostname u.

Definition with_port (h : bytes) (port : option bytes) : bytes :=
  match port with Some p => if bool_decide (p = []) then h else h ++ lit ":" ++ p | None => h end.

Definition authority (u : UrlParts) : bytes := with_port (bracketed u) (port u).

Definition display_url (u : UrlParts) : bytes :=
  scheme u ++ lit "://" ++ escape (authority u) true ++ escaped_path u
  ++ query_suffix u
  ++ (if bool_decide (fragment u = []) then [] else lit "#" ++ escape (fragment u) false).

(** [parse::<u16>]. *)
Definition parse_u16 (l : bytes) : option Z :=
  let digits := match l with b :: rest => if b =? 43 then rest else l | [] => l end in
  if bool_decide (digits = []) || negb (forallb is_digit_byte digits) then None
  else let n := fold_left (fun n b => 10 * n + (b - 48)) digits 0 in if n <? 65536 then Some n else None.

Definition request_uri `{Http} (u : UrlParts) : result Uri string :=
  let checked := match port u with
                 | Some p => if bool_decide (p = []) then Ok tt
                             else match parse_u16 p with Some _ => Ok tt | None => Err "invalid URL port"%string end
                 | None => Ok tt
                 end in
  let? _ := checked in
  let? hostname := (if existsb (Z.eqb 58) (hostname u) then Ok (bracketed u) else host_parse (hostname u)) in
  let path := (if bool_decide (raw_path u = []) then lit "/" else escaped_path u) ++ query_suffix u in
  build_uri (scheme u) (with_port hostname (port u)) path.

(** The examples of the module's tests. *)
Definition test_base : option UrlParts := parse (lit "https://example.test/a/../b/%2e%2e/x?old#fragment?").
Example escaped_path_ex : escaped_path <$> test_base = Some (lit "/a/../b/%2e%2e/x").
Proof. reflexivity. Qed.
Example resolve_ex : map (fun r => base ← test_base; target ← resolve base (lit r); Some (bytes_to_str (display_url target)))
    ["../z"; "%2e%2e/z"; "/a//b/../c"; "?"; "#new?"]%string =
  map Some ["https://example.test/b/z"; "https://example.test/b/%2e%2e/%2e%2e/z"; "https://example.test/a//c";
    "https://example.test/b/%2e%2e/x?"; "https://example.test/b/%2e%2e/x?old#new?"]%string.
Proof. vm_compute. reflexivity. Qed.

(** * What URLs promise: escapes read back, resolved paths climb nowhere, and hosts hold no delimiters *)

(** ** Splitting *)

Lemma rsplit_once_spec c l x y : rsplit_once c l = Some (x, y) -> l = x ++ c :: y.
Proof.
  revert x y. induction l as [|b l IH]; intros x y; cbn [rsplit_once]; [done|].
  destruct (rsplit_once c l) as [[x' y']|] eqn:E; [intros [= <- <-]; by rewrite (IH x' y')|].
  destruct (Z.eqb_spec b c) as [->|]; [by intros [= <- <-]|done].
Qed.
Lemma split_once_spec c l x y : split_once c l = Some (x, y) -> l = x ++ c :: y.
Proof.
  revert x y. induction l as [|b l IH]; intros x y; cbn [split_once]; [done|].
  destruct (Z.eqb_spec b c) as [->|]; [by intros [= <- <-]|].
  destruct (split_once c l) as [[x' y']|]; [intros [= <- <-]; by rewrite (IH x' y')|done].
Qed.

Lemma rfind_byte_spec c l i : rfind_byte c l = Some i -> exists x y, l = x ++ c :: y /\ i = length x.
Proof.
  unfold rfind_byte. destruct (rsplit_once c l) as [[x y]|] eqn:E; [|done]. apply rsplit_once_spec in E as ->.
  intros [= <-]. by exists x, y.
Qed.

(** ** Paths *)

Definition plain_segment (s : bytes) : Prop := s <> lit "." /\ s <> lit "..".
Definition climbs_nowhere (tail : bytes) : Prop := Forall plain_segment (split_all 47 tail).

Definition resolved (state : bytes * bool) : Prop :=
  exists tail, state.1 = 47 :: tail /\ climbs_nowhere tail /\ (state.2 = true -> tail = []).

Lemma plain_empty : plain_segment [].
Proof. done. Qed.

Lemma resolve_part_resolved state part : resolved state -> Forall (fun b => b <> 47) part -> resolved (resolve_part state part).
Proof.
  destruct state as [result first]. intros (tail & Er & Ht & Hf) Hp. cbn [fst snd] in *. subst result. unfold resolve_part.
  destruct (bool_decide_reflect (part = lit ".")) as [|Hdot]; [by exists tail|].
  destruct (bool_decide_reflect (part = lit "..")) as [|Hdots].
  - change (drop 1 (47 :: tail)) with tail. destruct (rfind_byte 47 tail) as [i|] eqn:E.
    + apply rfind_byte_spec in E as (x & y & -> & ->). exists x. replace (length x + 1)%nat with (S (length x)) by lia. cbn [fst snd take].
      rewrite take_app_length. split_conj; [done| |].
      * unfold climbs_nowhere in *. rewrite split_all_app, Forall_app in Ht. by destruct Ht.
      * rewrite bool_decide_eq_true. simpl. intros Hl. by destruct x.
    + exists []. cbn. split_conj; [done| |done]. repeat constructor; done.
  - exists (if first then tail ++ part else tail ++ 47 :: part). cbn [fst snd]. split_conj; [| |done].
    + destruct first; [done|]. by rewrite <- app_assoc.
    + destruct first; unfold climbs_nowhere in *.
      * rewrite Hf by done. cbn [app]. rewrite split_all_whole by done. by repeat constructor.
      * rewrite split_all_app. apply Forall_app. split; [done|]. rewrite split_all_whole by done. by repeat constructor.
Qed.

(** Whatever the base and the reference, the resolved path is empty or begins at the root, and none of the
    segments between its slashes is a dot or two dots, so that no reference leads above the root. *)
Theorem resolve_path_no_dots base reference : resolve_path base reference = [] \/
  exists tail, resolve_path base reference = 47 :: tail /\ Forall plain_segment (split_all 47 (resolve_path base reference)).
Proof.
  unfold resolve_path. set (full := full_path base reference). destruct (bool_decide_reflect (full = [])) as [|Hne]; [by left|right].
  assert (resolved (fold_left resolve_part (split_all 47 full) (lit "/", true))) as Hr.
  { assert (forall parts state, resolved state -> Forall (Forall (fun b => b <> 47)) parts -> resolved (fold_left resolve_part parts state)) as Hfold.
    { induction parts as [|part parts IH]; intros state Hs Hp; [done|]. apply Forall_cons in Hp as [Hp Hps].
      cbn [fold_left]. apply IH; [by apply resolve_part_resolved|done]. }
    apply Hfold; [|apply split_all_parts]. exists []. split_conj; [done| |done]. repeat constructor; done. }
  destruct (fold_left resolve_part (split_all 47 full) (lit "/", true)) as [result first]. destruct Hr as (tail & Er & Ht & _).
  cbn [fst] in Er. subst result. set (dotted := bool_decide (default [] _ = lit ".") || bool_decide (default [] _ = lit "..")).
  assert (exists tail', (if dotted then (47 :: tail) ++ lit "/" else 47 :: tail) = 47 :: tail' /\ climbs_nowhere tail') as (tail' & -> & Ht').
  { destruct dotted; [|by exists tail]. exists (tail ++ [47]). split; [done|]. unfold climbs_nowhere. rewrite split_all_app.
    apply Forall_app. split; [done|]. repeat constructor; done. }
  unfold climbs_nowhere in Ht'. destruct (text_starts_with (47 :: tail') (lit "//")) eqn:Es.
  - apply starts_with_spec in Es as [k E]. change (lit "//" ++ k) with (47 :: 47 :: k) in E. injection E as ->.
    change (drop 1 (47 :: 47 :: k)) with (47 :: k). eexists. split; [reflexivity|exact Ht'].
  - eexists. split; [reflexivity|]. rewrite split_all_cons. constructor; [apply plain_empty|done].
Qed.

(** ** Escapes *)

Lemma hex_digit_back d : 0 <= d < 16 -> to_digit 16 (hex_upper d) = Some d.
Proof.
  intros Hd. unfold hex_upper, to_digit, in_range. destruct (Z.ltb_spec d 10).
  - destruct (Z.leb_spec 48 (48 + d)), (Z.leb_spec (48 + d) 57); try lia. cbn [andb]. destruct (Z.ltb_spec (48 + d - 48) 16); [f_equal; lia|lia].
  - destruct (Z.leb_spec 48 (55 + d)), (Z.leb_spec (55 + d) 57), (Z.leb_spec 97 (55 + d)), (Z.leb_spec 65 (55 + d)), (Z.leb_spec (55 + d) 90); try lia.
    cbn [andb]. destruct (Z.ltb_spec (55 + d - 55) 16); [f_equal; lia|lia].
Qed.

Lemma decode_escape allowed l rest : Forall byte_ok l -> allowed 37 = false ->
  decode Path (escape_except allowed l ++ rest) = app l <$> decode Path rest.
Proof.
  intros Hl Ha. unfold escape_except.
  induction Hl as [|b l Hb _ IH]; [cbn [flat_map app]; by destruct (decode Path rest)|]. cbn [flat_map]. rewrite <- app_assoc. destruct (allowed b) eqn:E; cbn [app].
  - cbn [decode]. destruct (Z.eqb_spec b 37) as [->|]; [congruence|]. rewrite IH. by destruct (decode Path rest).
  - set (tail := flat_map _ l ++ rest) in *. unfold escape_byte. cbn [app decode]. cbn [Z.eqb Pos.eqb]. unfold byte_ok in Hb.
    rewrite !hex_digit_back by divmod_lia. cbn [refuses]. rewrite IH. replace (b / 16 * 16 + b mod 16) with b by divmod_lia.
    by destruct (decode Path rest).
Qed.

(** Escaping a user name, password, host or fragment and unescaping it gives every byte back, whichever other
    characters are left as they are. *)
Theorem escape_component_roundtrip value reserved : Forall byte_ok value -> any_of reserved 37 = false ->
  unescape_path (escape_component value reserved) = Some value.
Proof.
  intros Hv Hr. unfold unescape_path, escape_component. rewrite <- (app_nil_r (escape_except _ _)).
  rewrite decode_escape; [cbn; by rewrite app_nil_r|done|]. by rewrite Hr.
Qed.

Lemma escape_component_roundtrip_witness : unescape_path (escape_component [97; 32; 255; 37; 64] (lit "$&+,;=")) = Some [97; 32; 255; 37; 64].
Proof. apply escape_component_roundtrip; [repeat constructor; intros ?; discriminate|reflexivity]. Defined.

(** ** Hosts *)

Definition host_ok (b : Z) : Prop := valid_host_byte b = true \/ b = 37 \/ b = 32.

Lemma decode_host_bytes mode l r : mode <> Path -> decode mode l = Some r -> Forall host_ok r.
Proof.
  intros Hm. revert r. induction l as [l IH] using (induction_ltof1 _ (@length Z)). unfold ltof in IH.
  intros r. destruct l as [|b l]; cbn [decode]; [by intros [= <-]; constructor|].
  destruct (b =? 37).
  - destruct l as [|h [|k rest]]; [done..|]. destruct (to_digit 16 h) as [high|] eqn:Eh; [|done]. destruct (to_digit 16 k) as [low|] eqn:Ek; [|done].
    destruct (refuses mode (high * 16 + low)) eqn:Er; [done|]. destruct (decode mode rest) as [r'|] eqn:E; [|done]. intros [= <-].
    constructor; [|eapply IH; [|done]; simpl; lia]. unfold host_ok. unfold refuses in Er. destruct mode; [done|..].
    + apply andb_false_iff in Er as [Er|Er]; [|right; left; lia]. left. unfold valid_host_byte.
      destruct (Z.leb_spec 128 (high * 16 + low)); [done|lia].
    + destruct (valid_host_byte (high * 16 + low)); [by left|]. right. lia.
  - assert ((match mode with Path => false | _ => negb (valid_host_byte b) end) = negb (valid_host_byte b)) as -> by (by destruct mode).
    destruct (valid_host_byte b) eqn:Ev; [|done]. cbn [negb]. destruct (decode mode l) as [r'|] eqn:E; [|done]. intros [= <-].
    constructor; [by left|]. eapply IH; [|done]. simpl. lia.
Qed.

Lemma lossy_Forall (P : Z -> Prop) l : (forall b, 128 <= b < 256 -> P b) -> Forall P l -> Forall P (lossy l).
Proof.
  intros HP. assert (Forall P REPLACEMENT) as Hr by (repeat constructor; apply HP; lia).
  induction l as [l IH] using (induction_ltof1 _ (@length Z)). unfold ltof in IH. intros Hl.
  assert (forall l', (length l' < length l)%nat -> Forall P l' -> Forall P (lossy l')) as IH' by (intros; by apply IH).
  clear IH. destruct Hl as [|a l1 Ha Hl1]; [constructor|]. cbn [lossy].
  destruct (in_range 0 127 a); [constructor; [done|apply IH'; [simpl; lia|done]]|]. destruct Hl1 as [|b l2 Hb Hl2]; [done|].
  assert (Forall P (REPLACEMENT ++ lossy (b :: l2))) as Hskip.
  { apply Forall_app. split; [done|]. apply IH'; [simpl; lia|by constructor]. }
  assert (Forall P (lossy l2)) as H2 by (apply IH'; [simpl; lia|done]).
  destruct (in_range 194 223 a); [destruct (cont b); [by repeat constructor|done]|].
  destruct (in_range 224 239 a && _).
  { destruct Hl2 as [|c l3 Hc Hl3]; [done|]. destruct (cont c); [repeat constructor; try done; apply IH'; [simpl; lia|done]|by apply Forall_app]. }
  destruct (in_range 240 244 a && _); [|done]. destruct Hl2 as [|c l3 Hc Hl3]; [done|].
  destruct (cont c); [|by apply Forall_app]. destruct Hl3 as [|d l4 Hd Hl4]; [done|].
  destruct (cont d); [repeat constructor; try done; apply IH'; [simpl; lia|done]|].
  apply Forall_app. split; [done|]. apply IH'; [simpl; lia|by constructor].
Qed.

Lemma parse_host_bytes h s r : parse_host h s = Some r -> Forall host_ok r.
Proof.
  assert (forall l, Forall host_ok l -> Forall host_ok (lossy l)) as Hlossy.
  { intros l. apply lossy_Forall. intros b Hb. left. unfold valid_host_byte. destruct (Z.leb_spec 128 b); [done|lia]. }
  unfold parse_host. destruct (rfind_byte 91 h) as [open|].
  - destruct (negb (open =? 0)%nat); [done|]. intros (close & _ & Hr)%bind_Some. destruct (negb (valid_port _)); [done|].
    apply bind_Some in Hr as (decoded & Hd & Hr). apply bind_Some in Hr as (address & _ & Hr).
    apply bind_Some in Hr as (numbers & _ & [= <-]). apply Hlossy. destruct (split_text _ _) as [[a z]|].
    + apply bind_Some in Hd as (x & Hx & Hd). apply bind_Some in Hd as (y & Hy & [= <-]).
      apply decode_host_bytes in Hx, Hy; [|done..]. by apply Forall_app.
    + by apply decode_host_bytes in Hd.
  - intros (name & _ & Hr)%bind_Some. apply fmap_Some in Hr as (d & Hd & ->). apply decode_host_bytes in Hd; [|done]. by apply Hlossy.
Qed.

Lemma parse_hostname input u : parse input = Some u -> Forall host_ok (hostname u).
Proof.
  unfold parse. destruct (match split_once 35 input with Some p => p | None => (input, []) end) as [l f].
  destruct (decode Path f); cbn [mbind option_bind]; [|done]. destruct (existsb control_byte l); [done|].
  destruct (scan_scheme l [] l) as [[s rest]|]; cbn [mbind option_bind]; [|done].
  destruct (match split_once 63 rest with Some p => p | None => (rest, []) end) as [p q].
  destruct (negb (text_starts_with p (lit "/")) && _); [intros [= <-]; constructor|].
  destruct (negb (text_starts_with p (lit "/")) && _); [done|].
  destruct (text_starts_with p (lit "//") && _).
  - destruct (parse_authority _ s) as [a|] eqn:Ea; cbn [mbind option_bind]; [|done]. unfold parse_authority in Ea.
    destruct (match rsplit_once 64 _ with Some _ => _ | None => _ end) as [[[[c n] w] h]|]; cbn [mbind option_bind] in Ea; [|done].
    destruct (parse_host h s) as [r|] eqn:Er; cbn [mbind option_bind] in Ea; [|done]. apply parse_host_bytes in Er.
    destruct (decode Path h); cbn [mbind option_bind] in Ea; [|done].
    destruct (if text_starts_with h (lit "[") then _ else _); cbn [mbind option_bind] in Ea; [|done]. injection Ea as <-.
    destruct (if bool_decide _ then Some (lit "/") else _); cbn [mbind option_bind]; [|done]. by intros [= <-].
  - cbn [mbind option_bind]. destruct (if bool_decide _ then Some (lit "/") else _); cbn [mbind option_bind]; [|done].
    intros [= <-]. constructor.
Qed.

(** No slash, backslash, at sign, question mark, number sign or control character. *)
Definition host_text (b : Z) : Prop := b ∉ [47; 92; 64; 63; 35] /\ 32 <= b.

Lemma host_ok_text b : host_ok b -> host_text b.
Proof.
  assert (forallb (fun b => implb (valid_host_byte b || (b =? 37) || (b =? 32)) (negb (any_of [47; 92; 64; 63; 35] b) && (32 <=? b))) (seqZ 0 128) = true) as Hall
    by (vm_compute; reflexivity).
  intros Hb. destruct (decide (0 <= b < 128)) as [Hr|Hr].
  - rewrite forallb_forall in Hall. specialize (Hall b). rewrite <- list_elem_of_In, elem_of_seqZ in Hall. specialize (Hall ltac:(lia)).
    assert (valid_host_byte b || (b =? 37) || (b =? 32) = true) as Ht by (destruct Hb as [->|[->| ->]]; [done|by rewrite orb_true_r|by rewrite orb_true_r]).
    rewrite Ht in Hall. cbn [implb] in Hall. apply andb_true_iff in Hall as [Hn Hl]. split; [|lia]. intros Hin%any_of_spec. by rewrite Hin in Hn.
  - assert (128 <= b) as Hge.
    { destruct Hb as [Hv|[->| ->]]; [|lia|lia]. destruct (decide (b < 0)); [|lia]. exfalso. unfold valid_host_byte in Hv.
      assert (is_alphanumeric b = false) as Hn by (unfold is_alphanumeric, is_alphabetic, is_upper, is_digit_byte, in_range; lia). rewrite Hn in Hv.
      assert (any_of (lit "-._~!$&'()*+,;=:[]<>") b = false) as Ha.
      { apply not_true_iff_false. intros Hin%any_of_spec. pose proof (str_bytes_ok "-._~!$&'()*+,;=:[]<>") as Hok.
        eapply Forall_forall in Hok; [|exact Hin]. unfold byte_ok in Hok. lia. }
      rewrite Ha in Hv. lia. }
    split; [|lia]. intros Hin. repeat (apply elem_of_cons in Hin as [->|Hin]; [lia|]). by apply elem_of_nil in Hin.
Qed.
