(* ===== verification/NetworkPolicy.v ===== *)
(** * Where extensions may connect: [crates/network/src/policy.rs]

    A URL is validated before a request and again after a redirect: its scheme, its host against the granted
    domains, and that neither the host nor what the HTTP library makes of it is a private address.  Lower case
    outside ASCII is the class [StrCase]. *)

From S2P Require Import Prelude CharText IpAddress Url.

Class StrCase := {
  str_lowercase : bytes -> bytes;
  str_lowercase_ascii l : Forall (fun b => 0 <= b < 128) l -> str_lowercase l = ascii_lowercase l }.

(** [str::trim] on bytes. *)
Definition trim_bytes (l : bytes) : bytes := str_bytes (trim (bytes_to_str l)).

Section policy.
Context {HT : Http} {SC : StrCase}.

Record NetworkPermissions := mkPermissions { domains : list bytes; allow_http : bool }.

Definition allows (domain allowed : bytes) : bool :=
  let allowed := str_lowercase (trim_bytes allowed) in
  bool_decide (allowed = lit "*") || bool_decide (allowed = domain)
  || match strip_prefix (lit "*.") allowed with
     | Some suffix => (len suffix + 1 <? len domain) && text_ends_with domain (lit "." ++ suffix)
     | None => false
     end.

Definition allows_domain (p : NetworkPermissions) (domain : bytes) : bool :=
  let domain := str_lowercase (trim_bytes domain) in existsb (allows domain) (domains p).

Definition bare_host (host : bytes) : bytes :=
  str_lowercase (trim_end_matches (Z.eqb 93) (trim_start_matches (Z.eqb 91) (trim_bytes host))).

Definition private_literal_or_local (host : bytes) : bool :=
  let host := bare_host host in
  bool_decide (host = lit "localhost") || text_ends_with host (lit ".local")
  || match parse_ip (before 37 host) with Some address => is_private_ip address | None => false end.

Definition private_error (u : UrlParts) : string :=
  "network access denied: private/local network '" ++ bytes_to_str (hostname u) ++ "' not allowed".

Definition validate (p : NetworkPermissions) (input : bytes) (allow_private redirect : bool) : result UrlParts string :=
  match parse input with
  | None => Err "invalid URL"
  | Some url =>
    if bool_decide (scheme url = []) && negb redirect then Err "invalid URL: scheme is required"
    else if negb (bool_decide (scheme url = lit "https")) && negb (allow_http p && bool_decide (scheme url = lit "http")) then
      Err (if redirect then "redirect blocked: only https is allowed" else "network access denied: only https is allowed")
    else if has_credentials url then Err "invalid URL: embedded credentials are not allowed"
    else if bool_decide (hostname url = []) then
      Err (if redirect then "redirect blocked: hostname is required" else "invalid URL: hostname is required")
    else if negb redirect && negb allow_private && private_literal_or_local (hostname url) then Err (private_error url)
    else if negb (allows_domain p (hostname url)) then
      Err ((if redirect then "redirect blocked" else "network access denied") ++ ": domain '" ++ bytes_to_str (hostname url) ++ "' not in allowed list")
    else if redirect && negb allow_private && private_literal_or_local (hostname url) then
      Err "redirect blocked: private/local network access denied"
    else
      let? uri := request_uri url in
      if negb allow_private && match uri_host uri with Some host => private_literal_or_local host | None => false end
      then Err (private_error url) else Ok url
  end%string.

(** ** What a grant admits *)

(** The host is granted itself, is a proper subdomain of a granted wildcard, or every host is granted. *)
Definition granted (p : NetworkPermissions) (host : bytes) : Prop := exists allowed, allowed ∈ domains p /\
  let allowed := str_lowercase (trim_bytes allowed) in
  let host := str_lowercase (trim_bytes host) in
  allowed = lit "*" \/ allowed = host \/ exists suffix label, allowed = lit "*." ++ suffix /\ label <> [] /\ host = label ++ lit "." ++ suffix.

Lemma ends_with_spec l p : text_ends_with l p = true <-> exists x, l = x ++ p.
Proof.
  unfold text_ends_with. rewrite starts_with_spec. split.
  - intros [k E]. exists (rev k). apply (f_equal (@rev Z)) in E. by rewrite rev_involutive, rev_app_distr, rev_involutive in E.
  - intros [x ->]. exists (rev x). by rewrite rev_app_distr.
Qed.

Lemma allows_domain_granted p host : allows_domain p host = true <-> granted p host.
Proof.
  unfold allows_domain, granted. rewrite existsb_exists. setoid_rewrite <- list_elem_of_In. set (d := str_lowercase (trim_bytes host)).
  apply exist_proper. intros a. apply and_iff_compat_l. unfold allows. set (a' := str_lowercase (trim_bytes a)). cbv zeta.
  rewrite <- orb_assoc, !orb_true_iff, !bool_decide_eq_true. apply or_iff_compat_l, or_iff_compat_l.
  destruct (strip_prefix (lit "*.") a') as [suffix|] eqn:E.
  - apply strip_prefix_spec in E. rewrite andb_true_iff, ends_with_spec. split.
    + intros [Hl [x Hx]]. exists suffix, x. split_conj; [done| |done]. intros ->. rewrite Hx, !len_app in Hl. change (len (lit ".")) with 1 in Hl.
      change (len (@nil Z)) with 0 in Hl. lia.
    + intros (suffix' & label & Ea & Hne & Hd). assert (suffix' = suffix) as -> by (rewrite Ea in E; by apply app_inv_head in E).
      split; [|eauto]. rewrite Hd, !len_app. change (len (lit ".")) with 1. destruct label; [done|]. rewrite len_cons. pose proof (len_nonneg label). lia.
  - split; [done|]. intros (suffix & label & Ea & _). by rewrite Ea, strip_prefix_same in E.
Qed.

(** A host that is this machine, a local name or a private address, with or without brackets and a zone. *)
Definition local_host (host : bytes) : Prop :=
  let host := bare_host host in
  host = lit "localhost" \/ (exists x, host = x ++ lit ".local") \/ exists address, parse_ip (before 37 host) = Some address /\ private address.

Lemma private_literal_spec host : private_literal_or_local host = false <-> ~ local_host host.
Proof.
  rewrite <- not_true_iff_false. apply not_iff_compat. unfold private_literal_or_local, local_host. cbv zeta.
  rewrite <- orb_assoc, !orb_true_iff, bool_decide_eq_true, ends_with_spec. apply or_iff_compat_l, or_iff_compat_l.
  pose proof (parse_ip_ok (before 37 (bare_host host))) as Hok. destruct (parse_ip (before 37 (bare_host host))) as [a|].
  - rewrite (private_ip_iff a Hok). naive_solver.
  - naive_solver.
Qed.

(** C22: A request or redirect is let through only to a host that was granted, over HTTPS or, where that is granted, HTTP,
    without credentials in the URL.  The host holds no delimiter that another reader of the URL could end it at.
    Unless private networks are allowed, neither the host nor the host of the request as it is sent is this
    machine, a local name, or an address of a private network. *)
Theorem validate_admits p input allow_private redirect u : validate p input allow_private redirect = Ok u ->
  parse input = Some u /\ (scheme u = lit "https" \/ allow_http p = true /\ scheme u = lit "http") /\ has_credentials u = false /\
  hostname u <> [] /\ Forall host_text (hostname u) /\ granted p (hostname u) /\
  exists uri, request_uri u = Ok uri /\
    (allow_private = false -> ~ local_host (hostname u) /\ (forall host, uri_host uri = Some host -> ~ local_host host)).
Proof.
  unfold validate. destruct (parse input) as [url|] eqn:Ep; [|done].
  destruct (bool_decide (scheme url = []) && negb redirect); [done|].
  destruct (negb (bool_decide (scheme url = lit "https")) && _) eqn:Es; [done|]. destruct (has_credentials url) eqn:Ec; [done|].
  destruct (bool_decide_reflect (hostname url = [])) as [|Hne]; [done|].
  destruct (negb redirect && negb allow_private && _) eqn:E1; [done|]. destruct (allows_domain p (hostname url)) eqn:Ed; [|done]. cbn [negb].
  destruct (redirect && negb allow_private && _) eqn:E2; [done|]. destruct (request_uri url) as [uri|] eqn:Er; [|done]. cbn [bind_result].
  destruct (negb allow_private && _) eqn:E3; [done|]. intros [= <-]. split_conj; [done| |done|done| |by apply allows_domain_granted|].
  - destruct (bool_decide_reflect (scheme url = lit "https")); [by left|right]. cbn in Es. apply negb_false_iff, andb_true_iff in Es as [? Es].
    by apply bool_decide_eq_true in Es.
  - apply parse_hostname in Ep. eapply Forall_impl; [exact Ep|]. apply host_ok_text.
  - exists uri. split; [done|]. intros ->. cbn [negb] in *. rewrite andb_true_r in E1, E2. cbn [andb] in E3. split.
    + apply private_literal_spec. destruct redirect; cbn [negb andb] in *; congruence.
    + intros h Hh. rewrite Hh in E3. by apply private_literal_spec.
Qed.
End policy.

Module PolicyExample.
#[export] Instance http : Http := {|
  Uri := bytes; host_parse h := Ok h; build_uri _ authority _ := Ok authority; uri_host u := Some u |}.
#[export] Instance ascii_case : StrCase := {| str_lowercase := ascii_lowercase; str_lowercase_ascii _ _ := eq_refl |}.
Definition permissions : NetworkPermissions := mkPermissions [lit "*.Example.test "; lit "localhost"] false.
Definition address : bytes := lit "https://api.example.test/x/../y".
Definition sample : UrlParts :=
  mkUrl (lit "https") (lit "api.example.test") (lit "/x/../y") (lit "/x/../y") [] false [] None false (lit "api.example.test") [] None [] false.
End PolicyExample.
Import PolicyExample.

Lemma validate_admits_witness : validate permissions address false false = Ok sample /\ granted permissions (hostname sample).
Proof.
  assert (validate permissions address false false = Ok sample) as Hok by (vm_compute; reflexivity). split; [exact Hok|].
  destruct (validate_admits permissions address false false sample Hok) as (_ & _ & _ & _ & _ & Hg & _). exact Hg.
Defined.

Example validate_ex : map (fun u => match validate permissions (lit u) false false with Ok _ => ""%string | Err e => e end)
    ["https://example.test/"; "https://badexample.test/"; "https://LOCALHOST/"; "https://[::1]/"; "http://api.example.test/";
     "https://user@api.example.test"; "https://10.0.0.1/"; "https://api.example.test:x/"]%string =
  ["network access denied: domain 'example.test' not in allowed list"; "network access denied: domain 'badexample.test' not in allowed list";
   "network access denied: private/local network 'LOCALHOST' not allowed"; "network access denied: private/local network '::1' not allowed";
   "network access denied: only https is allowed"; "invalid URL: embedded credentials are not allowed";
   "network access denied: private/local network '10.0.0.1' not allowed"; "invalid URL"]%string.
Proof. vm_compute. reflexivity. Qed.
