(* ===== verification/Cookies.v ===== *)
(** * The cookies of an extension: [crates/network/src/cookies.rs]

    A jar keeps each cookie under the partition of the host that set it, its domain, path and name.  The parser of
    [Set-Cookie] values, the names HTTP accepts and the arithmetic of dates are the class [CookieLibrary]; a
    header that is not text is [None]. *)

From S2P Require Import Prelude CharText RustText IpAddress Url NetworkPolicy.

Record Cookie := mkCookie { name : bytes; cookie_path : option bytes; cookie_secure : option bool; expires_datetime : option Z }.

Class CookieLibrary := {
  parse_cookie : bytes -> option Cookie;
  header_name : bytes -> bool;
  (** A date and a number of seconds, when the sum is a date. *)
  checked_add : Z -> Z -> option Z }.

Record Entry := mkEntry { value : bytes; host_only : bool; secure : bool; expires : option Z; sequence : Z }.

(** The partition, domain, path and name. *)
Abbreviation Key := (bytes * bytes * bytes * bytes)%type.
Record CookieJar := mkJar { entries : gmap Key Entry; next_sequence : Z }.
Definition empty_jar : CookieJar := mkJar ∅ 0.

Section jar.
Context {HT : Http} {CL : CookieLibrary}.

Definition canonical_host (u : UrlParts) : bytes :=
  let host := match rsplit_once 46 (hostname u) with Some (x, []) => x | _ => hostname u end in
  match host_parse host with Ok host => host | Err _ => ascii_lowercase host end.

Definition is_address (host : bytes) : bool := bool_decide (is_Some (parse_ip host)) || existsb (Z.eqb 58) host.

(** The last two labels. *)
Definition jar_key (host : bytes) : bytes :=
  if is_address host then host
  else match rsplit_once 46 host with
       | Some (x, last) => match rsplit_once 46 x with Some (_, label) => label ++ lit "." ++ last | None => host end
       | None => host
       end.

Definition default_path (path : bytes) : bytes :=
  let end_ := default 0%nat (rfind_byte 47 path) in
  if negb (text_starts_with path (lit "/")) || (end_ =? 0)%nat then lit "/" else take end_ path.

(** The values of the attributes of a name, in order. *)
Definition attributes (raw attribute : bytes) : list bytes :=
  omap (fun part => match split_once 61 (trim_bytes part) with
                    | Some (n, v) => if eq_ignore_case n attribute then Some (trim_bytes v) else None
                    | None => None
                    end) (drop 1 (split_all 59 raw)).

Definition value_byte (b : Z) : bool := (32 <=? b) && (b <? 127) && negb (any_of [34; 59; 92] b).
Definition is_ascii (l : bytes) : bool := forallb (fun b => b <? 128) l.
Definition in_domain (host domain : bytes) : bool := text_ends_with host (lit "." ++ domain).

(** The domain of a cookie and whether it is for the host alone; [None] when the host may not set it. *)
Definition cookie_domain (host raw : bytes) : option (bytes * bool) :=
  let raw_domain := default [] (last (attributes raw (lit "domain"))) in
  if bool_decide (raw_domain = []) then Some (host, true)
  else if is_address host then if bool_decide (raw_domain = host) then Some (host, true) else None
  else
    let domain := ascii_lowercase (default raw_domain (strip_prefix (lit ".") raw_domain)) in
    if bool_decide (domain = []) || negb (is_ascii domain) || text_starts_with domain (lit ".") || text_ends_with domain (lit ".")
       || (negb (bool_decide (host = domain)) && negb (in_domain host domain))
    then None else Some (domain, false).

Definition max_age (raw : bytes) : option Z :=
  last (omap (fun v => match parse_i64 (bytes_to_str v) with
                       | Some seconds => if negb (seconds =? 0) && text_starts_with v (lit "0") then None else Some seconds
                       | None => None
                       end) (attributes raw (lit "max-age"))).

(** The value between the first equals sign and semicolon, and whether it was quoted. *)
Definition cookie_value (raw : bytes) : option (bytes * bool) :=
  match split_once 61 (before 59 raw) with
  | None => None
  | Some (_, raw_value) =>
    let raw_value := trim_bytes raw_value in
    let quoted := text_starts_with raw_value [34] && text_ends_with raw_value [34] && (2 <=? len raw_value) in
    let value := if quoted then drop 1 (take (length raw_value - 1) raw_value) else raw_value in
    if forallb value_byte value then Some (value, quoted) else None
  end.

Definition quote (value : bytes) (quoted : bool) : bytes :=
  if quoted || existsb (any_of [32; 44]) value then [34] ++ value ++ [34] else value.

Definition store_one (u : UrlParts) (now : Z) (jar : CookieJar) (header : option bytes) : CookieJar :=
  let host := canonical_host u in
  match header with
  | None => jar
  | Some raw =>
    match parse_cookie raw with
    | None => jar
    | Some cookie =>
      if negb (header_name (name cookie)) then jar
      else match cookie_value raw, cookie_domain host raw with
      | Some (value, quoted), Some (domain, host_only) =>
        let path := match cookie_path cookie with
                    | Some path => if text_starts_with path (lit "/") then path else default_path (Url.path u)
                    | None => default_path (Url.path u)
                    end in
        let key := (jar_key host, domain, path, name cookie) in
        let expires := match max_age raw with
                       | Some seconds => if seconds <=? 0 then Some now else checked_add now seconds
                       | None => expires_datetime cookie
                       end in
        if match expires with Some expires => expires <=? now | None => false end
        then mkJar (delete key (entries jar)) (next_sequence jar)
        else
          let '(sequence, next) := match entries jar !! key with
                                   | Some entry => (sequence entry, next_sequence jar)
                                   | None => (next_sequence jar, next_sequence jar + 1)
                                   end in
          mkJar (<[key := mkEntry (quote value quoted) host_only (default false (cookie_secure cookie)) expires sequence]> (entries jar)) next
      | _, _ => jar
      end
    end
  end.

Definition store (u : UrlParts) (now : Z) (headers : list (option bytes)) (jar : CookieJar) : CookieJar :=
  if 3000 <? len headers then jar else fold_left (store_one u now) headers jar.

(** ** Sending *)

Definition path_matches (request path : bytes) : bool :=
  bool_decide (request = path)
  || (text_starts_with request path && (text_ends_with path (lit "/") || bool_decide (request !! length path = Some 47))).

Definition selects (u : UrlParts) (item : Key * Entry) : bool :=
  let '((jar, domain, path, _), entry) := item in
  let host := canonical_host u in
  bool_decide (jar = jar_key host)
  && (negb (secure entry) || bool_decide (scheme u = lit "https"))
  && (bool_decide (host = domain) || (negb (host_only entry) && in_domain host domain))
  && path_matches (Url.path u) path.

(** [Ord] on bytes. *)
Fixpoint bytes_compare (a b : bytes) : comparison :=
  match a, b with
  | [], [] => Eq
  | [], _ :: _ => Lt
  | _ :: _, [] => Gt
  | x :: a, y :: b => match Z.compare x y with Eq => bytes_compare a b | c => c end
  end.

Definition item_path (item : Key * Entry) : bytes := item.1.1.2.
Definition item_order (a b : Key * Entry) : comparison :=
  match bytes_compare (item_path b) (item_path a) with Eq => Z.compare (sequence a.2) (sequence b.2) | c => c end.
Definition item_le (a b : Key * Entry) : Prop := item_order a b <> Gt.
#[export] Instance item_le_dec : RelDecision item_le.
Proof. intros a b. unfold item_le. solve_decision. Defined.

Definition unexpired (now : Z) (entry : Entry) : bool := match expires entry with Some e => now <? e | None => true end.
Definition live (now : Z) (jar : CookieJar) : CookieJar :=
  mkJar (filter (fun item => unexpired now item.2 = true) (entries jar)) (next_sequence jar).

Definition selected (u : UrlParts) (now : Z) (jar : CookieJar) : list (Key * Entry) :=
  merge_sort item_le (List.filter (selects u) (map_to_list (entries (live now jar)))).

Definition pair_text (item : Key * Entry) : bytes := item.1.2 ++ lit "=" ++ value item.2.

Definition header (u : UrlParts) (now : Z) (jar : CookieJar) : bytes * CookieJar :=
  (join (lit "; ") (map pair_text (selected u now jar)), live now jar).

Definition clear (jar : CookieJar) : CookieJar := mkJar ∅ (next_sequence jar).

(** ** Which hosts a cookie is for *)

(** The host is the domain or below it. *)
Definition within (host domain : bytes) : Prop := host = domain \/ exists x, host = x ++ lit "." ++ domain.

(** The Domain attribute of a line, and the domain it stands for. *)
Definition asked_domain (raw : bytes) : bytes := default [] (last (attributes raw (lit "domain"))).
Definition wide_domain (raw : bytes) : bytes :=
  ascii_lowercase (default (asked_domain raw) (strip_prefix (lit ".") (asked_domain raw))).

(** A line that names no domain, or is from an address, is for the host alone. *)
Definition narrow (host raw : bytes) : bool := bool_decide (asked_domain raw = []) || is_address host.

(** The path a line asks for, or else the directory of the request it answers. *)
Definition asked_path (v : UrlParts) (cookie : Cookie) : bytes :=
  match cookie_path cookie with
  | Some path => if text_starts_with path (lit "/") then path else default_path (Url.path v)
  | None => default_path (Url.path v)
  end.

(** What the jar keeps of a cookie is what a line of a response at time [t] from [v] says. *)
Definition set_by (v : UrlParts) (t : Z) (raw : bytes) (cookie : Cookie) (item : Key * Entry) : Prop :=
  let '((jar, domain, p, n), entry) := item in
  let host := canonical_host v in
  jar = jar_key host /\ n = name cookie /\ p = asked_path v cookie /\
  (if narrow host raw then domain = host /\ host_only entry = true
   else domain = wide_domain raw /\ domain <> [] /\ within host domain /\ host_only entry = false) /\
  secure entry = default false (cookie_secure cookie) /\
  match max_age raw with
  | Some seconds => 0 < seconds /\ expires entry = checked_add t seconds
  | None => expires entry = expires_datetime cookie
  end /\
  (exists text quoted, cookie_value raw = Some (text, quoted) /\ value entry = quote text quoted).

Lemma cookie_domain_within host raw d only : cookie_domain host raw = Some (d, only) ->
  if narrow host raw then d = host /\ only = true
  else d = wide_domain raw /\ d <> [] /\ within host d /\ only = false.
Proof.
  unfold cookie_domain, narrow. fold (asked_domain raw). case_bool_decide as Ed; [by intros [= <- <-]|]. cbn [orb].
  destruct (is_address host) eqn:Ea; [case_bool; [by intros [= <- <-]|done]|]. fold (wide_domain raw).
  destruct (_ || _ || _ || _ || _) eqn:E; [done|]. intros [= <- <-].
  apply orb_false_iff in E as [[[[E1%bool_decide_eq_false _]%orb_false_iff _]%orb_false_iff _]%orb_false_iff E5].
  split_conj; [done|done| |done]. apply andb_false_iff in E5 as [E5%negb_false_iff|E5%negb_false_iff].
  - left. by apply bool_decide_eq_true in E5.
  - right. by apply ends_with_spec.
Qed.

Lemma cookie_value_bytes raw v quoted : cookie_value raw = Some (v, quoted) -> Forall (fun b => value_byte b = true) v.
Proof.
  unfold cookie_value. destruct (split_once 61 (before 59 raw)) as [[x y]|]; [|done]. cbv zeta. case_match eqn:E; [|done].
  intros [= <- _]. apply Forall_forall. intros b Hb. rewrite forallb_forall in E. apply E. by apply list_elem_of_In.
Qed.

Lemma quote_bytes v quoted : Forall (fun b => value_byte b = true) v -> Forall (fun b => value_byte b = true \/ b = 34) (quote v quoted).
Proof.
  intros Hv. assert (Forall (fun b => value_byte b = true \/ b = 34) v) as Hv' by (eapply Forall_impl; [exact Hv|by left]).
  unfold quote. case_bool; [|done]. apply Forall_app. split; [by repeat constructor; right|]. apply Forall_app. split; [done|]. by repeat constructor; right.
Qed.

(** ** Every history of a jar *)

(** A response: its URL, the time and its Set-Cookie headers. *)
Abbreviation Response := (UrlParts * Z * list (option bytes))%type.

(** The jar after responses, sent headers and clearing, and the responses since it was cleared. *)
Inductive reachable : list Response -> CookieJar -> Prop :=
| reach_new : reachable [] empty_jar
| reach_store us jar u now headers : reachable us jar -> reachable ((u, now, headers) :: us) (store u now headers jar)
| reach_header us jar u now : reachable us jar -> reachable us (header u now jar).2
| reach_clear us jar : reachable us jar -> reachable [] (clear jar).

(** A line of one of the responses sets the cookie. *)
Definition stems_from (us : list Response) (v : UrlParts) (t : Z) (raw : bytes) (cookie : Cookie) (item : Key * Entry) : Prop :=
  (exists headers, (v, t, headers) ∈ us /\ Some raw ∈ headers) /\ parse_cookie raw = Some cookie /\ set_by v t raw cookie item.

Definition jar_ok (us : list Response) (jar : CookieJar) : Prop :=
  (forall key entry, entries jar !! key = Some entry ->
     (exists v t raw cookie, stems_from us v t raw cookie (key, entry)) /\ 0 <= sequence entry < next_sequence jar) /\
  (forall k1 k2 e1 e2, entries jar !! k1 = Some e1 -> entries jar !! k2 = Some e2 -> sequence e1 = sequence e2 -> k1 = k2) /\
  0 <= next_sequence jar.

Lemma jar_ok_shrink us us' jar m : jar_ok us jar -> m ⊆ entries jar -> (forall u, u ∈ us -> u ∈ us') -> jar_ok us' (mkJar m (next_sequence jar)).
Proof.
  intros (H1 & H2 & H3) Hm Hu. unfold jar_ok. split_conj; [| |done].
  - intros key entry He. cbn in He. destruct (H1 key entry) as [(v & t & raw & cookie & (hs & Hin & Hraw) & Hp & Hs) Hq]; [by eapply lookup_weaken|].
    split; [|done]. exists v, t, raw, cookie. split; [|done]. exists hs. auto.
  - intros k1 k2 e1 e2 E1 E2. apply H2; by eapply lookup_weaken.
Qed.

(** A cookie is replaced under its number or gets the next one. *)
Lemma jar_ok_insert us jar u t raw cookie key v only sec ex : jar_ok us jar ->
  (forall q, stems_from us u t raw cookie (key, mkEntry v only sec ex q)) ->
  let '(q, next) := match entries jar !! key with
                    | Some entry => (sequence entry, next_sequence jar)
                    | None => (next_sequence jar, next_sequence jar + 1)
                    end in
  jar_ok us (mkJar (<[key := mkEntry v only sec ex q]> (entries jar)) next).
Proof.
  intros (Hin & Hq & Hn) Hs.
  assert (exists q next, (match entries jar !! key with
                    | Some entry => (sequence entry, next_sequence jar)
                    | None => (next_sequence jar, next_sequence jar + 1)
                    end) = (q, next) /\ 0 <= q < next /\ next_sequence jar <= next /\
    (forall k e, entries jar !! k = Some e -> sequence e = q -> k = key)) as (q & next & -> & Hqn & Hnext & Huniq).
  { destruct (entries jar !! key) as [old|] eqn:E; eexists _, _; (split; [reflexivity|]).
    - destruct (Hin _ _ E) as [_ Hold]. split_conj; [lia..|]. intros k e Ek Es. by apply (Hq k key e old).
    - split_conj; [lia..|]. intros k e Ek Es. destruct (Hin _ _ Ek) as [_ Hlt]. lia. }
  unfold jar_ok. cbn [entries next_sequence]. split_conj; [| |lia].
  - intros k e [[<- <-]|[Hne He]]%lookup_insert_Some; [split; [by exists u, t, raw, cookie|done]|]. destruct (Hin k e He) as [? ?]. split; [done|lia].
  - intros k1 k2 e1 e2 [[<- <-]|[Hne1 He1]]%lookup_insert_Some [[<- <-]|[Hne2 He2]]%lookup_insert_Some Es; [done| | |by eapply Hq].
    + symmetry. apply (Huniq k2 e2); [done|]. by rewrite <- Es.
    + by apply (Huniq k1 e1).
Qed.

Lemma store_one_ok us jar u now hs header : jar_ok us jar -> (u, now, hs) ∈ us -> header ∈ hs ->
  jar_ok us (store_one u now jar header).
Proof.
  intros Hok Hu Hh. unfold store_one. destruct header as [raw|]; [|done]. destruct (parse_cookie raw) as [cookie|] eqn:Ec; [|done].
  destruct (negb (header_name (name cookie))); [done|]. destruct (cookie_value raw) as [[v quoted]|] eqn:Ev; [|done].
  destruct (cookie_domain (canonical_host u) raw) as [[domain only]|] eqn:Ed; [|done]. cbv zeta. fold (asked_path u cookie).
  set (key := (jar_key (canonical_host u), domain, asked_path u cookie, name cookie)).
  set (ex := match max_age raw with Some _ => _ | None => _ end).
  destruct (match ex with Some _ => _ | None => _ end) eqn:Ex.
  { eapply jar_ok_shrink; [done|apply delete_subseteq|done]. }
  pose proof (jar_ok_insert us jar u now raw cookie key (quote v quoted) only (default false (cookie_secure cookie)) ex Hok) as Hins.
  destruct (match entries jar !! key with Some _ => _ | None => _ end) as [q next]. apply Hins. intros q'. unfold key.
  split; [by exists hs|]. split; [done|]. unfold set_by. cbv zeta. cbn [host_only value secure expires].
  apply cookie_domain_within in Ed. split_conj; [done|done|done| |done| |by exists v, quoted].
  - destruct (narrow _ raw); [by destruct Ed as [-> ->]|]. destruct Ed as (-> & ? & ? & ->). done.
  - unfold ex in *. destruct (max_age raw) as [seconds|]; [|done].
    destruct (Z.leb_spec seconds 0); [rewrite Z.leb_refl in Ex; done|]. split; [lia|done].
Qed.

Lemma jar_ok_empty us n : 0 <= n -> jar_ok us (mkJar ∅ n).
Proof.
  intros Hn. unfold jar_ok. cbn [entries next_sequence]. setoid_rewrite lookup_empty. split_conj; [done|done|done].
Qed.

Lemma reachable_ok us jar : reachable us jar -> jar_ok us jar.
Proof.
  induction 1 as [|us jar u now headers _ IH|us jar u now _ IH|us jar _ IH].
  - apply jar_ok_empty. done.
  - unfold store. assert (jar_ok ((u, now, headers) :: us) jar) as Hok.
    { destruct jar as [m n]. apply (jar_ok_shrink us _ (mkJar m n)); [done|done|]. intros. by right. }
    destruct (3000 <? len headers); [done|]. clear IH.
    assert (forall l j, l ⊆ headers -> jar_ok ((u, now, headers) :: us) j ->
      jar_ok ((u, now, headers) :: us) (fold_left (store_one u now) l j)) as Hfold; [|by apply Hfold].
    induction l as [|h l IH]; intros j Hsub Hj; [done|]. apply IH; [set_solver|].
    apply (store_one_ok _ _ _ _ headers); [done|left|set_solver].
  - cbn [header snd]. eapply jar_ok_shrink; [done|apply map_filter_subseteq|done].
  - apply jar_ok_empty, IH.
Qed.

(** ** The order of cookies *)

Lemma bytes_compare_antisym a b : bytes_compare b a = CompOpp (bytes_compare a b).
Proof.
  revert b. induction a as [|x a IH]; intros [|y b]; try done. cbn [bytes_compare]. rewrite (Z.compare_antisym x y).
  destruct (Z.compare x y); cbn [CompOpp]; auto.
Qed.
Lemma bytes_compare_eq a b : bytes_compare a b = Eq -> a = b.
Proof.
  revert b. induction a as [|x a IH]; intros [|y b]; try done. cbn [bytes_compare].
  destruct (Z.compare_spec x y) as [->|?|?]; [|done|done]. intros E. by rewrite (IH b).
Qed.
Lemma bytes_compare_refl a : bytes_compare a a = Eq.
Proof. induction a as [|x a IH]; [done|]. cbn [bytes_compare]. by rewrite Z.compare_refl. Qed.

Lemma item_order_antisym a b : item_order b a = CompOpp (item_order a b).
Proof.
  unfold item_order. rewrite (bytes_compare_antisym (item_path b) (item_path a)).
  destruct (bytes_compare (item_path b) (item_path a)); cbn [CompOpp]; [apply Z.compare_antisym|done|done].
Qed.
#[export] Instance item_le_total : Total item_le.
Proof. intros a b. unfold item_le. rewrite (item_order_antisym b a). destruct (item_order b a); cbn; auto; by left. Qed.

(** Of two prefixes of one path the longer one compares greater. *)
Lemma prefix_compare a b l : a `prefix_of` l -> b `prefix_of` l -> bytes_compare a b = Nat.compare (length a) (length b).
Proof.
  revert b l. induction a as [|x a IH]; intros [|y b] l [k ->] [k' E]; [done..|]. injection E as <- E. cbn [bytes_compare length].
  rewrite Z.compare_refl. apply (IH b (a ++ k)); [by exists k|by exists k'].
Qed.

(** A longer path first, and of equal paths the cookie that was set first. *)
Definition sent_before (a b : Key * Entry) : Prop :=
  (length (item_path b) < length (item_path a))%nat \/ (item_path a = item_path b /\ sequence a.2 < sequence b.2).

Lemma path_matches_prefix request p : path_matches request p = true -> p `prefix_of` request.
Proof.
  unfold path_matches. rewrite orb_true_iff. intros [->%bool_decide_eq_true|[Hp _]%andb_true_iff]; [done|]. by apply starts_with_spec.
Qed.

Lemma elem_of_selected u now jar item : item ∈ selected u now jar <->
  entries jar !! item.1 = Some item.2 /\ unexpired now item.2 = true /\ selects u item = true.
Proof.
  unfold selected. rewrite merge_sort_Permutation. rewrite list_elem_of_In, filter_In, <- list_elem_of_In. destruct item as [key entry].
  rewrite elem_of_map_to_list. cbn [fst snd live entries]. rewrite map_lookup_filter_Some. cbn. tauto.
Qed.

Lemma selected_NoDup u now jar : NoDup (map fst (selected u now jar)).
Proof.
  unfold selected. rewrite (fmap_Permutation fst _ _ (merge_sort_Permutation _ _)).
  pose proof (NoDup_fst_map_to_list (entries (live now jar))) as Hn. revert Hn. generalize (map_to_list (entries (live now jar))).
  intros l. induction l as [|x l IH]; [done|]. cbn [fmap list_fmap List.filter]. intros [Hx Hl]%NoDup_cons. destruct (selects u x); [|by apply IH].
  cbn [map]. apply NoDup_cons. split; [|by apply IH]. intros (y & Ey & Hy)%list_elem_of_fmap. apply Hx. apply list_elem_of_fmap. exists y.
  split; [done|]. apply list_elem_of_In in Hy. apply filter_In in Hy as [Hy _]. by apply list_elem_of_In.
Qed.

Lemma Sorted_mono (R S : Key * Entry -> Key * Entry -> Prop) l : Sorted R l -> NoDup (map fst l) ->
  (forall a b, a ∈ l -> b ∈ l -> a.1 <> b.1 -> R a b -> S a b) -> Sorted S l.
Proof.
  induction 1 as [|a l Hl IH Ha]; intros Hn HRS; [constructor|]. cbn [map] in Hn. apply NoDup_cons in Hn as [Hna Hn]. constructor.
  - apply IH; [done|]. intros x y Hx Hy. apply HRS; by right.
  - destruct Ha as [|b l Hab]; constructor. apply HRS; [left|right; left| |done]. intros E. apply Hna. rewrite E. cbn [map]. left.
Qed.

(** Of the cookies of a request those with the longer path come first, and of the same path those set first. *)
Theorem cookies_ordered us jar u now : reachable us jar -> Sorted sent_before (selected u now jar).
Proof.
  intros (_ & Hq & _)%reachable_ok. apply (Sorted_mono item_le); [apply (Sorted_merge_sort _)|apply selected_NoDup|].
  intros a b (Ha & _ & Hsa)%elem_of_selected (Hb & _ & Hsb)%elem_of_selected Hne Hle.
  assert (forall i, selects u i = true -> item_path i `prefix_of` path u) as Hpre.
  { intros [[[[d p] q] n] e] Hs. unfold selects in Hs. apply andb_true_iff in Hs as [_ Hs]. by apply path_matches_prefix in Hs. }
  pose proof (prefix_compare _ _ _ (Hpre b Hsb) (Hpre a Hsa)) as Hc. unfold item_le, item_order in Hle. unfold sent_before.
  destruct (bytes_compare (item_path b) (item_path a)) eqn:E; [|left; symmetry in Hc; by apply Nat.compare_lt_iff in Hc|done].
  right. apply bytes_compare_eq in E. split; [done|]. destruct (Z.compare_spec (sequence a.2) (sequence b.2)) as [Es|?|?]; [|done|done].
  destruct Hne. by apply (Hq a.1 b.1 a.2 b.2).
Qed.

(** A path a request may show a cookie of the path [p] to: the path itself, or one below it. *)
Definition below (request p : bytes) : Prop :=
  request = p \/ exists rest, request = p ++ rest /\ (last p = Some 47 \/ head rest = Some 47).

Lemma path_matches_below request p : path_matches request p = true -> below request p.
Proof.
  unfold path_matches. rewrite orb_true_iff. intros [->%bool_decide_eq_true|[Hp Hl]%andb_true_iff]; [by left|].
  apply starts_with_spec in Hp as [rest ->]. right. exists rest. split; [done|].
  apply orb_true_iff in Hl as [[x ->]%ends_with_spec|Hl%bool_decide_eq_true]; [left; by rewrite last_app|right].
  rewrite lookup_app_r, Nat.sub_diag in Hl by done. by destruct rest.
Qed.

(** C21: Through any history of responses, requests and clearing, a cookie goes only where the
    Set-Cookie line that set it says: some line of some response since the jar was cleared has the
    cookie's name, and the request goes to the very host of that response when the line names no
    domain or the host is an address, and otherwise to a host in the line's own domain, in which the
    host of the response lies as well, and which shares its last two labels; it goes over HTTPS if the
    line says Secure, to the line's path or below it, and before the line's Max-Age or else its
    expiry date has passed; and its value is that of the line, of characters that are no control
    character, semicolon or backslash. *)
Theorem cookies_stay_home us jar u now item : reachable us jar -> item ∈ selected u now jar ->
  exists v t headers raw cookie,
    (v, t, headers) ∈ us /\ Some raw ∈ headers /\ parse_cookie raw = Some cookie /\ item.1.2 = name cookie /\
    (if narrow (canonical_host v) raw then canonical_host u = canonical_host v
     else within (canonical_host u) (wide_domain raw) /\ within (canonical_host v) (wide_domain raw) /\
          jar_key (canonical_host u) = jar_key (canonical_host v)) /\
    (cookie_secure cookie = Some true -> scheme u = lit "https") /\
    below (path u) (asked_path v cookie) /\
    match max_age raw with
    | Some seconds => 0 < seconds /\ forall e, checked_add t seconds = Some e -> now < e
    | None => forall e, expires_datetime cookie = Some e -> now < e
    end /\
    (exists text quoted, cookie_value raw = Some (text, quoted) /\ value item.2 = quote text quoted) /\
    Forall (fun b => value_byte b = true \/ b = 34) (value item.2).
Proof.
  intros (Hok & _)%reachable_ok (He & Hx & Hs)%elem_of_selected. destruct item as [[[[partition domain] p] n] entry]. cbn [fst snd] in *.
  destruct (Hok _ _ He) as [(v & t & raw & cookie & (hs & Hv & Hraw) & Hc & Hset) _].
  destruct Hset as (Hpart & -> & -> & Hdom & Hsecure & Hex & text & quoted & Htext & Hval).
  unfold selects in Hs. apply andb_true_iff in Hs as [[[Hj%bool_decide_eq_true Hsec]%andb_true_iff Hd]%andb_true_iff Hp].
  exists v, t, hs, raw, cookie. split_conj; try done.
  - apply orb_true_iff in Hd. destruct (narrow _ raw).
    + destruct Hdom as [-> Ho]. rewrite Ho in Hd. destruct Hd as [Hd|]; [by apply bool_decide_eq_true in Hd|done].
    + destruct Hdom as (-> & _ & Hw & Ho). rewrite Ho in Hd. split_conj; [|done|congruence].
      destruct Hd as [Hd%bool_decide_eq_true|Hd%ends_with_spec]; [by left|by right].
  - intros E. rewrite Hsecure, E in Hsec. cbn in Hsec. by apply bool_decide_eq_true in Hsec.
  - by apply path_matches_below.
  - unfold unexpired in Hx. destruct (max_age raw); [destruct Hex as [? Hex]; split; [done|]|];
      intros e Ee; rewrite Hex, Ee in Hx; by apply Z.ltb_lt in Hx.
  - by exists text, quoted.
  - rewrite Hval. by eapply quote_bytes, cookie_value_bytes.
Qed.
End jar.

Module CookieExample.
#[export] Instance cookie_library : CookieLibrary := {|
  parse_cookie raw := match split_once 61 (before 59 raw) with
                      | Some (n, _) => Some (mkCookie n (Some (lit "/")) None None)
                      | None => None
                      end;
  header_name n := negb (bool_decide (n = []));
  checked_add now s := Some (now + s) |}.
Definition api : UrlParts := mkUrl (lit "https") (lit "api.example.test") (lit "/a") [] [] false [] None false [] [] None [] false.
Definition www : UrlParts := mkUrl (lit "https") (lit "www.example.test") (lit "/b") [] [] false [] None false [] [] None [] false.
Definition lines : list (option bytes) :=
  [Some (lit "a=1"); Some (lit "b=2; Domain=.example.test; Max-Age=10"); Some (lit "c=3; Domain=other.test")].
Definition jar : CookieJar := store (HT := PolicyExample.http) api 5 lines empty_jar.

Lemma jar_reachable : reachable (HT := PolicyExample.http) [(api, 5, lines)] jar.
Proof. apply reach_store, reach_new. Qed.

Definition wide : Key * Entry :=
  ((lit "example.test", lit "example.test", lit "/", lit "b"), mkEntry (lit "2") false false (Some 15) 1).

Example header_ex : map (fun '(u, now) => bytes_to_str (header (HT := PolicyExample.http) u now jar).1) [(api, 5); (www, 5); (www, 15)] =
  ["a=1; b=2"; "b=2"; ""]%string.
Proof. vm_compute. reflexivity. Qed.
Lemma wide_selected : wide ∈ selected (HT := PolicyExample.http) www 5 jar.
Proof. apply elem_of_selected. vm_compute. split; [reflexivity|split; reflexivity]. Qed.
End CookieExample.
Import CookieExample.

Lemma cookies_ordered_witness : Sorted sent_before (selected (HT := PolicyExample.http) api 5 jar).
Proof. apply (cookies_ordered [(api, 5, lines)]). apply jar_reachable. Defined.

Lemma cookies_stay_home_witness : wide ∈ selected (HT := PolicyExample.http) www 5 jar /\
  exists v t headers raw cookie, (v, t, headers) ∈ [(api, 5, lines)] /\ Some raw ∈ headers /\
    parse_cookie raw = Some cookie /\ wide.1.2 = name cookie.
Proof.
  assert (wide ∈ selected (HT := PolicyExample.http) www 5 jar) as Hin by apply wide_selected.
  split; [exact Hin|].
  destruct (cookies_stay_home [(api, 5, lines)] jar www 5 wide jar_reachable Hin)
    as (v & t & headers & raw & cookie & Hv & Hr & Hc & Hn & _).
  exists v, t, headers, raw, cookie. exact (conj Hv (conj Hr (conj Hc Hn))).
Defined.
