(* ===== verification/TagFields.v ===== *)
(** * The fields of an edit over the metadata of a file: [metadata_fields] of [crates/core/src/tags/write.rs]

    The regular expression that finds the number in front of a text is the class [Integers]. *)

From S2P Require Import Prelude RustText UnicodeText VorbisComments.

(** [^[+-]?[0-9]+] finds a part of the text at its beginning. *)
Class Integers := {
  find_integer : string -> option string;
  find_integer_prefix s n : find_integer s = Some n -> exists rest, s = (n ++ rest)%string }.

Record AudioMetadata := mkMetadata {
  title : string; artist : string; album : string; album_artist : string; genre : string; year : string; date : string;
  track_number : Z; total_tracks : Z; disc_number : Z; total_discs : Z;
  isrc : string; lyrics : string; label : string; copyright : string; composer : string; comment : string; album_type : string;
  explicit : bool; upc : string;
  replay_gain_track_gain : string; replay_gain_track_peak : string; replay_gain_album_gain : string; replay_gain_album_peak : string }.

Definition default_metadata : AudioMetadata :=
  mkMetadata "" "" "" "" "" "" "" 0 0 0 0 "" "" "" "" "" "" "" false "" "" "" "" "".

Definition truthy (value : string) : bool :=
  bool_decide (lower (trim value) ∈ ["1"; "true"; "yes"; "explicit"]%string).

Definition clears_replay_gain (fields : Fields) : bool :=
  forallb (fun key => match fields !! key with Some value => is_empty (trim value) | None => false end)
    ["replaygain_track_gain"; "replaygain_track_peak"; "replaygain_album_gain"; "replaygain_album_peak"]%string.

Section fields.
Context {IN : Integers}.

Definition text_fields (m : AudioMetadata) : list (string * string) :=
  [("title", title m); ("artist", artist m); ("album", album m); ("album_artist", album_artist m); ("date", date m);
   ("genre", genre m); ("composer", composer m); ("label", label m); ("copyright", copyright m); ("isrc", isrc m);
   ("lyrics", lyrics m); ("comment", comment m); ("album_type", album_type m); ("upc", upc m);
   ("replaygain_track_gain", replay_gain_track_gain m); ("replaygain_track_peak", replay_gain_track_peak m);
   ("replaygain_album_gain", replay_gain_album_gain m); ("replaygain_album_peak", replay_gain_album_peak m)]%string.

Definition number_fields (m : AudioMetadata) : list (string * Z) :=
  [("track_number", track_number m); ("track_total", total_tracks m); ("disc_number", disc_number m); ("disc_total", total_discs m)]%string.

Definition integer_of (value : string) : Z :=
  match find_integer (trim value) with Some n => default 0 (parse_i64 n) | None => 0 end.

Definition flag (b : bool) : string := if b then "1" else "".

Definition metadata_fields (m : AudioMetadata) (fields : Fields) : Fields :=
  let result := fold_left (fun r '(f, current) => <[f := default current (fields !! f)]> r) (text_fields m) ∅ in
  let result := fold_left (fun r '(f, current) =>
      <[f := signed_decimal (match fields !! f with Some value => integer_of value | None => current end)]> r) (number_fields m) result in
  let explicit := match fields !! "explicit"%string with Some value => truthy value | None => explicit m end in
  let result := <["explicit"%string := flag explicit]> result in
  let compilation := eq_ignore_ascii_case (trim (default ""%string (result !! "album_type"%string))) "compilation" in
  <["compilation"%string := flag compilation]> result.
End fields.
