(* ===== verification/ApeTags.v ===== *)
(** * APE tags: [crates/core/src/tags/write/ape.rs] and [ApeFooter] of [tags/containers.rs]

    An APEv2 tag lies at the end of a file, between a header and a footer of 32 bytes each, or in front of an ID3v1
    tag of 128 bytes.  The editor keeps the items it does not replace. *)

From S2P Require Import Prelude Monads RustText UnicodeText Matching TagIo VorbisComments FlacTags TagFields.

Record Footer := mkFooter { f_version : Z; f_size : Z; f_count : Z; f_flags : Z }.
Record Item := mkItem { key : bytes; value : bytes; item_flags : Z }.

Definition MAGIC : bytes := str_bytes "APETAGEX".

(** [items_start]: where the items before a footer begin. *)
Definition items_start (f : Footer) (offset : Z) : result Z string :=
  if negb ((f_version f =? 1000) || (f_version f =? 2000)) || (f_size f <? 32) || (1000 <? f_count f) then Err "invalid APE footer"%string
  else if offset <? f_size f - 32 then Err "invalid APE items offset"%string
  else Ok (offset - (f_size f - 32)).

(** The little-endian integer at an index of a footer. *)
Definition integer_at (data : bytes) (index : nat) : Z := from_le (take 4 (drop index data)).

Definition footer_of (data : bytes) : option Footer :=
  if negb (bool_decide (take 8 data = MAGIC)) || Z.testbit (integer_at data 20) 29 then None
  else Some (mkFooter (integer_at data 8) (integer_at data 12) (integer_at data 16) (integer_at data 20)).

(** [parse_items]: as many items as there are whole. *)
Fixpoint parse_items (count : nat) (data : bytes) : list Item :=
  match count with
  | O => []
  | S count =>
    if len data <? 8 then []
    else
      let size := from_le (take 4 data) in
      let flags := from_le (take 4 (drop 4 data)) in
      match position_of 0 (drop 8 data) with
      | None => []
      | Some key_size =>
        let key := take key_size (drop 8 data) in
        let rest := drop (key_size + 1) (drop 8 data) in
        if len rest <? size then []
        else mkItem key (take (Z.to_nat size) rest) flags :: parse_items count (drop (Z.to_nat size) rest)
      end
  end.

Section edit.
Context `{Unicode} `{Splits} {IN : Integers} `{Source}.
Abbreviation P := (St Io string).

Definition read_footer (offset : Z) : P (option Footer) :=
  seek offset;;
  do data <- bytes_of 32;
  ret (footer_of data).

(** What the search has found: where the tag starts and ends, and its items. *)
Record Found := mkFound { f_start : Z; f_end : Z; f_items : option (list Item) }.

Definition gain_only (fields : Fields) : bool := (size fields =? 4)%nat && clears_replay_gain fields.

Definition look_at (fields : Fields) (found : Found) (offset : Z) : P Found :=
  check;;
  do footer <- read_footer offset;
  match footer with
  | None => ret found
  | Some footer =>
    do found <-
      (if f_start found =? f_end found then
         let size := f_size footer + (if Z.testbit (f_flags footer) 31 then 32 else 0) in
         if offset + 32 <? size then throw "invalid APE tag size"%string
         else ret (mkFound (offset + 32 - size) (if gain_only fields then offset + 32 else f_end found) (f_items found))
       else ret found);
    match f_items found, items_start footer offset with
    | None, Ok begin =>
      let size := offset - begin in
      if MAX_TAG_BYTES <? size then throw "APE metadata exceeds 64 MiB"%string
      else
        seek begin;;
        do data <- bytes_of size;
        ret (mkFound (f_start found) (f_end found) (Some (parse_items (Z.to_nat (f_count footer)) data)))
    | _, _ => ret found
    end
  end.

(** The footers at the end, and in front of an ID3v1 tag. *)
Definition offsets (end_ : Z) : list Z :=
  (if 32 <=? end_ then [end_ - 32] else []) ++ (if 161 <=? end_ then [end_ - 160] else []).

Fixpoint look (fields : Fields) (found : Found) (l : list Z) : P Found :=
  match l with
  | [] => ret found
  | offset :: l => do found <- look_at fields found offset; look fields found l
  end.

(** ** The items of an edit *)

Definition item_key (i : Item) : string := uppercase (from_utf8_lossy (key i)).
Definition text_item (k v : string) : list Item := if is_empty v then [] else [mkItem (str_bytes k) (str_bytes v) 0].
Definition field (metadata : Fields) (f : string) : string := default ""%string (metadata !! f).

Definition text_keys : list (string * string) :=
  [("title", "Title"); ("artist", "Artist"); ("album", "Album"); ("album_artist", "Album Artist"); ("genre", "Genre"); ("date", "Year");
   ("isrc", "ISRC"); ("lyrics", "Lyrics"); ("label", "Label"); ("copyright", "Copyright"); ("composer", "Composer");
   ("comment", "Comment"); ("explicit", "ITUNESADVISORY"); ("album_type", "RELEASETYPE"); ("upc", "BARCODE");
   ("compilation", "COMPILATION"); ("replaygain_track_gain", "REPLAYGAIN_TRACK_GAIN"); ("replaygain_track_peak", "REPLAYGAIN_TRACK_PEAK");
   ("replaygain_album_gain", "REPLAYGAIN_ALBUM_GAIN"); ("replaygain_album_peak", "REPLAYGAIN_ALBUM_PEAK")]%string.
Definition index_keys : list (string * string * string) :=
  [("track_number", "track_total", "Track"); ("disc_number", "disc_total", "Disc")]%string.
Definition aliases : list (string * list string) :=
  [("album_artist", ["ALBUMARTIST"]); ("label", ["PUBLISHER"]); ("lyrics", ["UNSYNCEDLYRICS"; "SYNCEDLYRICS"])]%string.

Definition has (fields : Fields) (f : string) : bool := bool_decide (is_Some (fields !! f)).
Definition sets_cover (fields : Fields) : bool :=
  match fields !! "cover_path"%string with Some path => negb (is_empty (trim path)) | None => false end.

Definition added_items (fields metadata : Fields) (cover : option bytes) : list Item :=
  flat_map (fun '(f, k) => text_item k (field metadata f)) text_keys
  ++ flat_map (fun '(f, total, k) => text_item k (edit_index (0, 0) metadata f total)) index_keys
  ++ match cover with
     | Some cover => if sets_cover fields then [mkItem (str_bytes "Cover Art (Front)") (str_bytes "cover.jpg" ++ 0 :: cover) 2] else []
     | None => []
     end.

(** The keys whose items go. *)
Definition removed_keys (fields : Fields) (added : list Item) : list string :=
  flat_map (fun '(f, k) => if has fields f then [if String.eqb f "date" then "DATE"%string else uppercase k] else []) text_keys
  ++ flat_map (fun '(f, total, k) =>
       (if has fields f then [uppercase k] else []) ++ (if has fields f || has fields total then [(uppercase k ++ "NUMBER")%string] else [])) index_keys
  ++ flat_map (fun '(f, ks) => if has fields f then ks else []) aliases
  ++ (if sets_cover fields then ["COVER ART (FRONT)"%string] else [])
  ++ map item_key added.

Definition kept (remove : list string) (i : Item) : bool := negb (bool_decide (item_key i ∈ remove)).

Definition edited_items (fields : Fields) (cover : option bytes) (existing : list Item) : list Item :=
  let metadata := metadata_fields default_metadata fields in
  let added := added_items fields metadata cover in
  List.filter (kept (removed_keys fields added)) existing ++ added.

(** ** Writing items *)

Definition item_bytes (i : Item) : bytes :=
  le_bytes 4 (len (value i)) ++ le_bytes 4 (item_flags i) ++ key i ++ 0 :: value i.

Fixpoint put_items (body : bytes) (items : list Item) : P bytes :=
  match items with
  | [] => ret body
  | i :: items =>
    check;;
    if MAX_TAG_BYTES <? len body + 8 + len (key i) + 1 + len (value i) + 64 then throw "APE metadata exceeds 64 MiB"%string
    else put_items (body ++ item_bytes i) items
  end.

Definition tag_header (size count flags : Z) : bytes := MAGIC ++ flat_map (le_bytes 4) [2000; size; count; flags; 0; 0].

(** The tag around its items. *)
Definition tag_bytes (count : Z) (body : bytes) : bytes :=
  let size := wrap_u 32 (wrap_u 32 (len body) + 32) in
  tag_header size count 2684354560 ++ body ++ tag_header size count 2147483648.

Definition edit (fields : Fields) (cover : option bytes) : P FileSection :=
  do end_ <- seek (len content);
  do found <- look fields (mkFound end_ end_ None) (offsets end_);
  match edited_items fields cover (default [] (f_items found)) with
  | [] => if clears_replay_gain fields then ret (mkSection (f_start found) (f_end found) []) else throw "empty APE tag"%string
  | items =>
    let count := wrap_u 32 (len items) in
    do body <- put_items [] items;
    ret (mkSection (f_start found) (f_end found) (tag_bytes count body))
  end.

(** The branch of [rewrite_audio_tags] for APE, WavPack and Musepack files. *)
Definition rewrite_ape_tags (fields : Fields) (cover : option bytes) : P unit :=
  check;;
  validate_fields fields;;
  let fields := artist_mode_fields fields in
  seek 0;;
  do section <- edit fields (not_empty cover);
  write_sections [section].
End edit.
