(* ===== verification/ApeSpec.v ===== *)
(** * What an edit of APE tags keeps: the audio, and the items it does not replace

    [holds]: a file is audio followed by a tag of items, or by none.  An edit writes the same audio followed by the
    edited items, whatever reads are short, and what it writes holds them again. *)

From S2P Require Import Prelude Monads RustText UnicodeText Matching TagIo VorbisComments FlacTags FlacTagsSpec TagFields ApeTags.

(** ** Items *)

Definition body_of (items : list Item) : bytes := concat (map item_bytes items).

Definition item_ok (i : Item) : Prop := Forall (fun b => b <> 0) (key i) /\ in_u 32 (len (value i)) /\ in_u 32 (item_flags i).

Lemma position_of_first (k rest : bytes) : Forall (fun b => b <> 0) k -> position_of 0 (k ++ 0 :: rest) = Some (length k).
Proof. induction 1 as [|b k Hb _ IH]; [done|]. cbn [app position_of length]. destruct (Z.eqb_spec b 0); [done|]. by rewrite IH. Qed.

Lemma from_le_4 z : in_u 32 z -> from_le (le_bytes 4 z) = z.
Proof. intros Hz. rewrite from_le_le_bytes. change (256 ^ Z.of_nat 4) with (2 ^ 32). apply Z.mod_small, Hz. Qed.

Lemma take_le n z l : take n (le_bytes n z ++ l) = le_bytes n z.
Proof. by rewrite take_app_length' by (by rewrite le_bytes_length). Qed.
Lemma drop_le n z l : drop n (le_bytes n z ++ l) = l.
Proof. by rewrite drop_app_length' by (by rewrite le_bytes_length). Qed.

Lemma len_item i : len (item_bytes i) = 9 + len (key i) + len (value i).
Proof. destruct i as [k v f]. unfold item_bytes, len. cbn [key value]. rewrite !length_app, !le_bytes_length. cbn [length]. lia. Qed.

Lemma body_cons i items : len (body_of (i :: items)) = 9 + len (key i) + len (value i) + len (body_of items).
Proof. unfold body_of. cbn [map concat]. by rewrite len_app, len_item. Qed.

Lemma item_bytes_app k v f rest :
  item_bytes (mkItem k v f) ++ rest = le_bytes 4 (len v) ++ le_bytes 4 f ++ k ++ 0 :: v ++ rest.
Proof. unfold item_bytes. cbn [key value item_flags]. by rewrite <- !app_assoc. Qed.

(** Parsing items gives them back. *)
Lemma parse_body items : Forall item_ok items -> parse_items (length items) (body_of items) = items.
Proof.
  induction 1 as [|[k v f] items (Hk & Hv & Hf) _ IH]; [done|]. unfold body_of in *. cbn [length map concat].
  rewrite item_bytes_app. cbn [key value item_flags] in *. set (rest := concat (map item_bytes items)) in *. cbn [parse_items].
  assert (forall l, drop 8 (le_bytes 4 (len v) ++ le_bytes 4 f ++ l) = l) as Hd8.
  { intros l. by rewrite app_assoc, drop_app_length' by (by rewrite length_app, !le_bytes_length). }
  rewrite Hd8, take_le, drop_le, take_le, !from_le_4 by done.
  assert (len (le_bytes 4 (len v) ++ le_bytes 4 f ++ k ++ 0 :: v ++ rest) <? 8 = false) as ->.
  { apply Z.ltb_ge. unfold len. rewrite !length_app, !le_bytes_length. lia. }
  rewrite position_of_first by done.
  replace (drop (length k + 1) (k ++ 0 :: v ++ rest)) with (v ++ rest) by (by rewrite <- drop_drop, drop_app_length).
  rewrite len_app. pose proof (len_nonneg rest). destruct (Z.ltb_spec (len v + len rest) (len v)); [lia|].
  rewrite take_app_length. unfold len. by rewrite Nat2Z.id, take_app_length, drop_app_length, IH.
Qed.

(** ** The tag *)

Definition tag_of (items : list Item) : bytes := tag_bytes (len items) (body_of items).

Lemma flat_le_length l : length (flat_map (le_bytes 4) l) = (4 * length l)%nat.
Proof. induction l as [|z l IH]; [done|]. cbn [flat_map length]. rewrite length_app, le_bytes_length, IH. lia. Qed.
Lemma tag_header_length size count flags : length (tag_header size count flags) = 32%nat.
Proof. unfold tag_header. rewrite length_app, flat_le_length. done. Qed.

(** The integers of a footer, by their place. *)
Lemma integer_at_header l i n z :
  n = (8 + 4 * i)%nat -> l !! i = Some z -> in_u 32 z -> integer_at (MAGIC ++ flat_map (le_bytes 4) l) n = z.
Proof.
  intros -> Hi Hz. unfold integer_at. rewrite <- drop_drop, (drop_app_length' MAGIC) by done.
  revert l Hi. induction i as [|i IH]; intros [|y l] Hi; try done; cbn [flat_map].
  - injection Hi as ->. change (4 * 0)%nat with 0%nat. rewrite drop_0, take_le. by apply from_le_4.
  - replace (4 * S i)%nat with (4 + 4 * i)%nat by lia. rewrite <- drop_drop, drop_le. by apply IH.
Qed.

Lemma footer_of_header size count flags : in_u 32 size -> in_u 32 count -> in_u 32 flags -> Z.testbit flags 29 = false ->
  footer_of (tag_header size count flags) = Some (mkFooter 2000 size count flags).
Proof.
  intros Hs Hc Hf Hb. unfold footer_of, tag_header. set (l := [2000; size; count; flags; 0; 0]).
  rewrite take_app_length' by done. rewrite bool_decide_eq_true_2 by done. cbn [negb orb].
  rewrite (integer_at_header l 0 8 2000), (integer_at_header l 1 12 size), (integer_at_header l 2 16 count),
    (integer_at_header l 3 20 flags) by (done || by unfold in_u).
  by rewrite Hb.
Qed.

(** The items a tag can hold for the reader. *)
Definition items_ok (items : list Item) : Prop :=
  Forall item_ok items /\ len items <= 1000 /\ len (body_of items) <= MAX_TAG_BYTES.

(** A file is [audio] and the tag of [items] at its end, or it is [audio] and no footer is found. *)
Inductive holds (l audio : bytes) : list Item -> Prop :=
| tagged items : items_ok items -> l = audio ++ tag_of items -> holds l audio items
| untagged : l = audio -> (forall o, o ∈ offsets (len l) -> footer_of (slice l o (o + 32)) = None) -> holds l audio [].

Lemma tag_of_parts items : items_ok items ->
  let size := len (body_of items) + 32 in
  tag_of items = tag_header size (len items) 2684354560 ++ body_of items ++ tag_header size (len items) 2147483648 /\
  footer_of (tag_header size (len items) 2147483648) = Some (mkFooter 2000 size (len items) 2147483648).
Proof.
  intros (_ & Hc & Hb). cbv zeta. pose proof (len_nonneg items). pose proof (len_nonneg (body_of items)).
  unfold MAX_TAG_BYTES in Hb. split.
  - unfold tag_of, tag_bytes. rewrite (wrap_u_small 32 (len (body_of items))), wrap_u_small by (unfold in_u; lia). done.
  - apply footer_of_header; unfold in_u; [lia|lia|lia|done].
Qed.

Lemma len_header size count flags : len (tag_header size count flags) = 32.
Proof. unfold len. by rewrite tag_header_length. Qed.

Section edit.
Context `{Unicode} `{Splits} {IN : Integers} {SRC : Source}.
Implicit Types (s : Io) (fields : Fields) (items : list Item).

Lemma wp_read_footer offset (Q : option Footer -> Io -> Prop) (R : string -> Io -> Prop) s :
  0 <= offset -> offset + 32 <= len content ->
  (forall s', written s' = written s -> Q (footer_of (slice content offset (offset + 32))) s') ->
  (forall e s', ~ calm -> written s' = written s -> R e s') -> wp (read_footer offset) Q R s.
Proof.
  intros Ho Hin HQ HR. unfold read_footer. apply wp_bind, wp_seek; [|done]. intros s1 Hp1 Hw1.
  apply wp_bind, wp_bytes_of; [lia|lia| |].
  - intros s2 _ Hw2 _. apply wp_ret. rewrite Hp1. apply HQ. congruence.
  - intros e s2 Hc Hw2. apply HR; [|congruence]. intros Hcalm. specialize (Hc Hcalm). lia.
Qed.

Lemma offsets_in o e : o ∈ offsets e -> 0 <= o /\ o + 32 <= e.
Proof. unfold offsets. do 2 case_bool; set_solver by lia. Qed.

(** What is found stays when nothing more can be. *)
Lemma wp_look_same fields found l (Q : Found -> Io -> Prop) (R : string -> Io -> Prop) s :
  (forall o, o ∈ l -> 0 <= o /\ o + 32 <= len content) ->
  (forall o, o ∈ l -> footer_of (slice content o (o + 32)) = None) \/ (f_start found <> f_end found /\ is_Some (f_items found)) ->
  (forall s', written s' = written s -> Q found s') ->
  (forall e s', ~ calm -> written s' = written s -> R e s') -> wp (look fields found l) Q R s.
Proof.
  revert s. induction l as [|o l IH]; intros s Hl Hsame HQ HR; cbn [look]; [by apply wp_ret, HQ|].
  apply wp_bind. unfold look_at. destruct (Hl o ltac:(left)) as [Ho1 Ho2].
  apply wp_bind, wp_check; [|done]. intros s1 _ Hw1.
  apply wp_bind, wp_read_footer; [done|done| |by intros e s2 ? ?; apply HR; [|congruence]]. intros s2 Hw2.
  assert (forall s3, written s3 = written s2 -> wp (look fields found l) Q R s3) as Hrest.
  { intros s3 Hw3. apply IH; [set_solver| | |].
    - destruct Hsame; [left; set_solver|by right].
    - intros s4 Hw4. apply HQ. congruence.
    - intros e s4 ? Hw4. apply HR; [done|congruence]. }
  destruct Hsame as [Hnone|[Hne [its Hits]]].
  - rewrite Hnone by left. by apply wp_ret, Hrest.
  - destruct (footer_of _) as [f|]; [|by apply wp_ret, Hrest].
    apply wp_bind. rewrite (proj2 (Z.eqb_neq _ _) Hne). apply wp_ret. rewrite Hits. by apply wp_ret, Hrest.
Qed.

(** The tag at the end is found whole. *)
Lemma wp_look_tag fields audio items (Q : Found -> Io -> Prop) (R : string -> Io -> Prop) s :
  items_ok items -> content = audio ++ tag_of items ->
  (forall s', written s' = written s -> Q (mkFound (len audio) (len content) (Some items)) s') ->
  (forall e s', ~ calm -> written s' = written s -> R e s') ->
  wp (look_at fields (mkFound (len content) (len content) None) (len content - 32)) Q R s.
Proof.
  intros Hok Hcontent HQ HR. destruct (tag_of_parts _ Hok) as [Htag Hfooter]. cbv zeta in *.
  destruct Hok as (Hits & Hcount & Hmax). set (body := body_of items) in *.
  set (footer := tag_header (len body + 32) (len items) 2147483648) in *.
  pose proof (len_nonneg audio) as Ha. pose proof (len_nonneg body) as Hb.
  assert (len footer = 32) as Hf32 by apply len_header.
  assert (len content = len audio + len body + 64) as Hlen by (rewrite Hcontent, Htag, !len_app, len_header; lia).
  unfold look_at. apply wp_bind, wp_check; [|done]. intros s1 _ Hw1.
  apply wp_bind, wp_read_footer; [lia|lia| |by intros e s2 ? ?; apply HR; [|congruence]]. intros s2 Hw2.
  assert (slice content (len content - 32) (len content - 32 + 32) = footer) as ->.
  { rewrite slice_after with (l1 := audio ++ tag_header (len body + 32) (len items) 2684354560 ++ body) (l2 := footer);
      [by apply take_ge; unfold len in Hf32; lia| |rewrite !len_app, len_header; lia].
    by rewrite Hcontent, Htag, <- !app_assoc. }
  rewrite Hfooter. cbn [f_start f_end f_items f_size f_flags f_count]. rewrite Z.eqb_refl. change (Z.testbit 2147483648 31) with true.
  apply wp_bind. cbv iota zeta. destruct (Z.ltb_spec (len content - 32 + 32) (len body + 32 + 32)); [lia|]. apply wp_ret.
  cbn [f_start f_end f_items]. unfold items_start. cbn [f_version f_size f_count].
  rewrite (proj2 (Z.ltb_ge (len body + 32) 32)), (proj2 (Z.ltb_ge 1000 (len items))) by lia.
  rewrite (proj2 (Z.ltb_ge (len content - 32) (len body + 32 - 32))) by lia.
  change (negb ((2000 =? 1000) || (2000 =? 2000)) || false || false) with false. cbv iota zeta beta.
  replace (len content - 32 - (len content - 32 - (len body + 32 - 32))) with (len body) by ring.
  rewrite (proj2 (Z.ltb_ge MAX_TAG_BYTES (len body))) by lia.
  replace (len content - 32 - (len body + 32 - 32)) with (len audio + 32) by (clear - Hlen; lia).
  apply wp_bind, wp_seek; [|by intros e s3 ? ?; apply HR; [|congruence]]. intros s3 Hp3 Hw3.
  apply wp_bind, wp_bytes_of; rewrite ?Hp3; [lia|lia| |].
  - intros s4 _ Hw4 _. apply wp_ret. rewrite slice_after with (l1 := audio ++ tag_header (len body + 32) (len items) 2684354560)
      (l2 := body ++ footer); [|by rewrite Hcontent, Htag, <- !app_assoc|rewrite len_app, len_header; lia].
    rewrite take_app_length' by (unfold len in *; lia). replace (Z.to_nat (len items)) with (length items) by (unfold len; lia).
    unfold body. rewrite parse_body by done.
    replace (len content - 32 + 32 - (len body + 32 + 32)) with (len audio) by lia.
    replace (if gain_only fields then len content - 32 + 32 else len content) with (len content) by (destruct (gain_only fields); lia).
    apply HQ. congruence.
  - intros e s4 Hc Hw4. apply HR; [|congruence]. intros Hcalm. specialize (Hc Hcalm). lia.
Qed.

(** The search finds what the file holds. *)
Lemma wp_find fields audio items s :
  holds content audio items ->
  wp (do end_ <- seek (len content); look fields (mkFound end_ end_ None) (offsets end_))
    (fun found s' => written s' = written s /\ f_start found = len audio /\ f_end found = len content /\
       default [] (f_items found) = items)
    (fun _ s' => ~ calm /\ written s' = written s) s.
Proof.
  intros Hholds. apply wp_bind, wp_seek; [|done]. intros s1 _ Hw1.
  destruct Hholds as [items Hok Hcontent|Hcontent Hnone].
  - destruct (tag_of_parts _ Hok) as [Htag _]. cbv zeta in Htag.
    assert (32 <= len content) as Hlen.
    { rewrite Hcontent, Htag, !len_app, !len_header. pose proof (len_nonneg audio). pose proof (len_nonneg (body_of items)). lia. }
    pose proof (offsets_in) as Hin. unfold offsets in *. rewrite (proj2 (Z.leb_le 32 (len content))) by done. cbn [app look].
    apply wp_bind, (wp_look_tag _ audio items); [done|done| |by intros e s2 ? ?; split; [|congruence]]. intros s2 Hw2.
    apply wp_look_same.
    + intros o Ho. apply Hin. apply elem_of_app. by right.
    + right. split; [|done]. cbn. rewrite Hcontent, len_app, Htag, len_app, len_header.
      pose proof (len_nonneg (body_of items ++ tag_header (len (body_of items) + 32) (len items) 2147483648)). lia.
    + intros s3 Hw3. cbn. split_conj; congruence.
    + intros e s3 ? ?. split; [done|congruence].
  - apply wp_look_same; [intros o; apply offsets_in|by left| |by intros e s3 ? ?; split; [|congruence]].
    intros s3 Hw3. cbn. split_conj; congruence.
Qed.

(** Writing the items fails only when they are too large. *)
Lemma wp_put_items body items (Q : bytes -> Io -> Prop) (R : string -> Io -> Prop) s :
  (forall s', written s' = written s -> (items = [] \/ len (body ++ body_of items) + 64 <= MAX_TAG_BYTES) -> Q (body ++ body_of items) s') ->
  (forall e s', (calm -> MAX_TAG_BYTES < len (body ++ body_of items) + 64) -> written s' = written s -> R e s') ->
  wp (put_items body items) Q R s.
Proof.
  revert body s. induction items as [|i items IH]; intros body s HQ HR; cbn [put_items].
  { specialize (HQ s). unfold body_of in HQ. cbn [map concat] in HQ. rewrite app_nil_r in HQ. apply wp_ret, HQ; auto. }
  change (body_of (i :: items)) with (item_bytes i ++ body_of items) in *. rewrite app_assoc in HQ, HR.
  apply wp_bind, wp_check; [|by intros e s1 ? ?; apply HR].
  intros s1 _ Hw1. destruct (Z.ltb_spec MAX_TAG_BYTES (len body + 8 + len (key i) + 1 + len (value i) + 64)) as [Hbig|Hsmall].
  - apply wp_throw, HR; [|done]. intros _. rewrite !len_app, len_item. pose proof (len_nonneg (body_of items)). lia.
  - apply IH.
    + intros s2 Hw2 Hor. apply HQ; [congruence|]. right. destruct Hor as [->|?]; [|done].
      unfold body_of. cbn [map concat]. rewrite app_nil_r, len_app, len_item. lia.
    + intros e s2 Hc Hw2. apply HR; [done|congruence].
Qed.

(** ** The edited items *)

Definition key_ok (k : string) : bool := forallb (fun b => negb (b =? 0)) (str_bytes k).

Lemma key_ok_spec k : key_ok k = true -> Forall (fun b => b <> 0) (str_bytes k).
Proof.
  unfold key_ok. rewrite forallb_forall, List.Forall_forall. intros Hk b Hb. specialize (Hk b Hb).
  rewrite negb_true_iff, Z.eqb_neq in Hk. done.
Qed.

(** What an item needs but for the length of its value. *)
Definition shaped (i : Item) : Prop := Forall (fun b => b <> 0) (key i) /\ in_u 32 (item_flags i).

Lemma text_item_shaped k v : key_ok k = true -> Forall shaped (text_item k v).
Proof. intros Hk. unfold text_item. case_bool; constructor; [|constructor]. split; [by apply key_ok_spec|by unfold in_u]. Qed.

Lemma added_shaped fields metadata cover : Forall shaped (added_items fields metadata cover).
Proof.
  assert (forall f k, In (f, k) text_keys -> key_ok k = true) as Htext.
  { assert (forallb (fun e => key_ok e.2) text_keys = true) as Hall by (vm_compute; done).
    intros f k Hin. by apply (proj1 (forallb_forall _ _) Hall) in Hin. }
  assert (forall f t k, In (f, t, k) index_keys -> key_ok k = true) as Hindex.
  { assert (forallb (fun e => key_ok e.2) index_keys = true) as Hall by (vm_compute; done).
    intros f t k Hin. by apply (proj1 (forallb_forall _ _) Hall) in Hin. }
  unfold added_items. apply Forall_app. split; [|apply Forall_app; split].
  - apply flat_map_Forall. intros [f k] Hin. eapply text_item_shaped, Htext, Hin.
  - apply flat_map_Forall. intros [[f t] k] Hin. eapply text_item_shaped, Hindex, Hin.
  - destruct cover as [c|]; [|constructor]. case_bool; [|constructor]. constructor; [|constructor]. split; [|by unfold in_u]. cbn [key]. by apply key_ok_spec.
Qed.

Lemma value_in_body i items : i ∈ items -> len (value i) <= len (body_of items).
Proof.
  induction 1 as [j l|j y l _ IH]; rewrite body_cons.
  - pose proof (len_nonneg (key j)). pose proof (len_nonneg (body_of l)). lia.
  - pose proof (len_nonneg (key y)). pose proof (len_nonneg (value y)). lia.
Qed.

Lemma count_in_body items : len items <= len (body_of items).
Proof.
  induction items as [|i items IH]; [done|]. rewrite body_cons. pose proof (len_nonneg (key i)). pose proof (len_nonneg (value i)).
  change (len (i :: items)) with (Z.of_nat (S (length items))). change (len items) with (Z.of_nat (length items)) in IH. lia.
Qed.

Lemma edited_ok fields cover items :
  Forall item_ok items -> let edited := edited_items fields cover items in
  len edited <= 1000 -> len (body_of edited) <= MAX_TAG_BYTES -> items_ok edited.
Proof.
  intros Hits edited Hc Hb. unfold items_ok; split_conj; [|done|done]. apply Forall_forall. intros i Hi.
  assert (shaped i) as [Hk Hf].
  { unfold edited, edited_items in Hi. apply elem_of_app in Hi as [Hi|Hi].
    - apply list_elem_of_In, filter_In in Hi as [Hi _]. apply list_elem_of_In in Hi.
      destruct (proj1 (Forall_forall _ _) Hits i Hi) as (? & _ & ?). by split.
    - by apply (proj1 (Forall_forall _ _) (added_shaped _ _ _)) in Hi. }
  unfold item_ok; split_conj; [done| |done]. pose proof (value_in_body i edited Hi). pose proof (len_nonneg (value i)).
  unfold MAX_TAG_BYTES, in_u in *. lia.
Qed.

Definition tag_or_nothing items : bytes := match items with [] => [] | _ => tag_of items end.

Lemma wp_edit fields cover audio items s :
  holds content audio items -> let edited := edited_items fields cover items in
  wp (edit fields cover)
    (fun section s' => written s' = written s /\ section = mkSection (len audio) (len content) (tag_or_nothing edited) /\
       (edited = [] \/ len (body_of edited) + 64 <= MAX_TAG_BYTES))
    (fun _ s' => written s' = written s /\
       (calm -> (edited = [] /\ clears_replay_gain fields = false) \/ MAX_TAG_BYTES < len (body_of edited) + 64)) s.
Proof.
  intros Hholds edited. unfold edit. apply wp_bind.
  pose proof (wp_unbind _ _ _ _ _ (wp_find fields audio items s Hholds)) as Hfind.
  eapply wp_mono; [exact Hfind| |by intros e s1 [? ?]]. intros end_ s1 Hlook. apply wp_bind.
  eapply wp_mono; [exact Hlook| |by intros e s2 [? ?]]. intros found s2 (Hw2 & Hstart & Hend & Hits).
  rewrite Hits, Hstart, Hend. fold edited. destruct edited as [|i l] eqn:E.
  - destruct (clears_replay_gain fields); [apply wp_ret; auto|apply wp_throw; auto].
  - rewrite <- E in *. apply wp_bind, wp_put_items; cbn [app].
    + intros s3 Hw3 [?|Hmax]; [congruence|]. apply wp_ret. split; [congruence|]. split; [|by right].
      rewrite E. cbn [tag_or_nothing]. rewrite <- E. unfold tag_of. rewrite wrap_u_small; [done|].
      pose proof (count_in_body edited). pose proof (len_nonneg edited). unfold MAX_TAG_BYTES, in_u in *. lia.
    + intros e s3 Hc Hw3. split; [congruence|]. auto.
Qed.

Lemma holds_audio l audio items : holds l audio items -> slice l 0 (len audio) = audio /\ len audio <= len l.
Proof.
  assert (forall tail, l = audio ++ tail -> slice l 0 (len audio) = audio /\ len audio <= len l) as Hall.
  { intros tail ->. pose proof (len_nonneg tail). split; [|rewrite len_app; lia]. unfold slice. rewrite drop_0.
    apply take_app_length'. unfold len. lia. }
  intros [its _ Hl|Hl _]; eapply Hall; [exact Hl|]. by rewrite Hl, app_nil_r.
Qed.

Lemma wp_rewrite_ape fields cover audio items s :
  holds content audio items ->
  let given := artist_mode_fields fields in
  let edited := edited_items given (not_empty cover) items in
  wp (rewrite_ape_tags fields cover)
    (fun _ s' => written s' = written s ++ audio ++ tag_or_nothing edited /\ (edited = [] \/ len (body_of edited) + 64 <= MAX_TAG_BYTES))
    (fun _ _ => calm ->
      too_long fields = true \/ (edited = [] /\ clears_replay_gain given = false) \/ MAX_TAG_BYTES < len (body_of edited) + 64) s.
Proof.
  intros Hholds given edited. destruct (holds_audio _ _ _ Hholds) as [Haudio Hlen].
  unfold rewrite_ape_tags. apply wp_bind, wp_check; [|by intros e s1 ? ? ?]. intros s1 _ Hw1.
  apply wp_bind. unfold validate_fields, too_long. case_bool; [apply wp_throw; auto|]. apply wp_ret.
  cbv zeta. apply wp_bind, wp_seek; [|by intros e s2 ? ? ?]. intros s2 _ Hw2.
  apply wp_bind. eapply wp_mono; [apply (wp_edit _ _ audio items), Hholds| |].
  - intros section s3 (Hw3 & -> & Hmax). fold given edited in Hmax |- *. eapply wp_mono; [apply wp_write_sections| |].
    + intros _ s4 [_ Hw4]. split; [|done]. rewrite Hw4. cbn [sort_sections foldr insert_section spliced start finish data].
      rewrite Haudio, drop_ge, app_nil_r by (unfold len; lia). congruence.
    + intros e s4 Hc Hcalm. destruct (Hc Hcalm). cbn. pose proof (len_nonneg audio). split_conj; lia || done || by right.
  - intros e s3 [_ Hc] Hcalm. right. by apply Hc.
Qed.

(** What was written is a tag for the next reader. *)
Lemma edited_holds fields cover audio items l :
  holds l audio items -> let edited := edited_items fields cover items in
  edited = [] \/ len (body_of edited) + 64 <= MAX_TAG_BYTES -> edited <> [] -> len edited <= 1000 ->
  items_ok edited /\ tag_or_nothing edited = tag_of edited.
Proof.
  intros Hholds edited Hmax Hne Hcount. destruct edited as [|i l'] eqn:E; [done|]. rewrite <- E in *. split; [|by rewrite E].
  apply edited_ok; [|done|destruct Hmax; [done|fold edited; lia]]. destruct Hholds as [its (Hits & _) _|]; [done|constructor].
Qed.

(** C10: Editing the tags of an APE, WavPack or Musepack file keeps its audio and the items it does not
    replace.  When the file is audio followed by a tag of at most 1000 items that fit 64 MiB, or by
    none, then an edit that succeeds writes the audio byte for byte and behind it the tag of the edited
    items, or nothing if there are none; and unless there are more than 1000 of them, what it wrote
    holds exactly these items for the next edit.  One that fails, when nothing outside failed, was
    asked for fields that are too long, for a tag without items that is not a removal, or for one of
    more than 64 MiB. *)
Theorem ape_edit_items fields cover audio items s :
  holds content audio items ->
  let given := artist_mode_fields fields in
  let edited := edited_items given (not_empty cover) items in
  match rewrite_ape_tags fields cover s with
  | (Ok _, s') =>
      written s' = written s ++ audio ++ tag_or_nothing edited /\
      (edited <> [] -> len edited <= 1000 -> holds (audio ++ tag_or_nothing edited) audio edited)
  | (Err _, s') => calm ->
      too_long fields = true \/ (edited = [] /\ clears_replay_gain given = false) \/ MAX_TAG_BYTES < len (body_of edited) + 64
  end.
Proof.
  intros Hholds given edited. pose proof (wp_rewrite_ape fields cover audio items s Hholds) as Hwp. cbv zeta in Hwp. fold given edited in Hwp.
  unfold wp in Hwp. destruct (rewrite_ape_tags fields cover s) as [[[]|e] s']; [|done]. destruct Hwp as [Hw Hmax]. split; [done|].
  intros Hne Hcount. destruct (edited_holds _ _ _ _ _ Hholds Hmax Hne Hcount) as [Hok Htag].
  fold edited in Hok, Htag. rewrite Htag. by apply tagged.
Qed.
End edit.

(** A tag of more than 1000 items, which an edit writes without objection, has no items for the next one. *)
Lemma overfull_refused version size count flags offset :
  1000 < count -> items_start (mkFooter version size count flags) offset = Err "invalid APE footer"%string.
Proof. intros Hc. unfold items_start. cbn. rewrite (proj2 (Z.ltb_lt 1000 count)) by done. by rewrite orb_true_r. Qed.

(** ** An example *)

Module ApeExample.
Export FlacExample.

Fixpoint leading_digits (s : string) : string :=
  match s with
  | EmptyString => EmptyString
  | String c s => if in_range 48 57 (Z.of_nat (Ascii.nat_of_ascii c)) then String c (leading_digits s) else EmptyString
  end.
Lemma leading_digits_prefix s : exists rest, s = (leading_digits s ++ rest)%string.
Proof. induction s as [|c s [rest IH]]; cbn; [by exists ""%string|]. case_bool; [exists rest; rewrite IH at 1; done|by eexists]. Qed.

Instance digits : Integers.
Proof.
  refine {| find_integer s := match leading_digits s with EmptyString => None | n => Some n end |}.
  intros s n. destruct (leading_digits_prefix s) as [rest Hrest]. destruct (leading_digits s); [done|]. intros [= <-]. by exists rest.
Defined.

Definition sound : bytes := [1; 2; 3].
Definition old_items : list Item := [mkItem (str_bytes "Title") (str_bytes "Old") 0; mkItem (str_bytes "Mood") (str_bytes "calm") 0].
Definition new_items : list Item := [mkItem (str_bytes "Mood") (str_bytes "calm") 0; mkItem (str_bytes "Title") (str_bytes "Song") 0].
Definition ape_song : bytes := sound ++ tag_of old_items.
Lemma ape_song_bytes : Forall byte_ok ape_song.
Proof. vm_compute. repeat constructor; done. Qed.

Lemma ape_song_holds : holds ape_song sound old_items.
Proof.
  apply tagged; [|done]. split; [|split; [done|vm_compute; discriminate]].
  repeat constructor; done.
Qed.

Lemma ape_edit_items_witness :
  holds ape_song sound old_items /\
  let given := artist_mode_fields title in
  let edited := edited_items given (not_empty None) old_items in
  match @rewrite_ape_tags _ _ digits (file_of ape_song ape_song_bytes) title None (mkIo 0 0 []) with
  | (Ok _, s') => written s' = [] ++ sound ++ tag_or_nothing edited /\
      (edited <> [] -> len edited <= 1000 -> holds (sound ++ tag_or_nothing edited) sound edited)
  | (Err _, s') => @calm (file_of ape_song ape_song_bytes) ->
      too_long title = true \/ (edited = [] /\ clears_replay_gain given = false) \/ MAX_TAG_BYTES < len (body_of edited) + 64
  end.
Proof.
  split; [exact ape_song_holds|].
  exact (@ape_edit_items _ _ digits (file_of ape_song ape_song_bytes) title None sound old_items (mkIo 0 0 []) ape_song_holds).
Defined.

Example ape_edit_runs :
  (@rewrite_ape_tags _ _ digits (file_of ape_song ape_song_bytes) title None (mkIo 0 0 [])).2.(written) = sound ++ tag_of new_items.
Proof. vm_compute. reflexivity. Qed.
End ApeExample.
