(* ===== verification/Id3Text.v ===== *)
(** * Text in ID3 tags: [decode], [separator] and [user_text] of [crates/core/src/tags/id3.rs], [utf8] of [text.rs]

    A text is UTF-8, where each malformed byte becomes a replacement character of its own, or UTF-16, whose
    code units are taken for characters one by one. *)

From S2P Require Import Prelude RustText UnicodeText VorbisComments FlacTags.

(** [crate::text::utf8]. *)
Fixpoint utf8 (l : bytes) : bytes :=
  match l with
  | [] => []
  | a :: l1 =>
    if in_range 0 127 a then a :: utf8 l1
    else
      let malformed := REPLACEMENT ++ utf8 l1 in
      match l1 with
      | [] => malformed
      | b :: l2 =>
        if in_range 194 223 a && cont b then a :: b :: utf8 l2
        else match l2 with
        | [] => malformed
        | c :: l3 =>
          if in_range 224 239 a && in_range (if a =? 224 then 160 else 128) (if a =? 237 then 159 else 191) b && cont c
          then a :: b :: c :: utf8 l3
          else match l3 with
          | [] => malformed
          | d :: l4 =>
            if in_range 240 244 a && in_range (if a =? 240 then 144 else 128) (if a =? 244 then 143 else 191) b && cont c && cont d
            then a :: b :: c :: d :: utf8 l4
            else malformed
          end
        end
      end
  end.

Example utf8_ex : utf8 [97; 240; 159; 98; 195; 164] = [97] ++ REPLACEMENT ++ REPLACEMENT ++ [98; 195; 164].
Proof. reflexivity. Qed.

(** [trim_end_matches('\0')]. *)
Fixpoint drop_zeros (l : bytes) : bytes :=
  match l with [] => [] | b :: l => if b =? 0 then drop_zeros l else b :: l end.
Definition trim_zeros (l : bytes) : bytes := rev (drop_zeros (rev l)).

Fixpoint code_units (little : bool) (l : bytes) : list Z :=
  match l with
  | a :: b :: l => (if little then a + 256 * b else 256 * a + b) :: code_units little l
  | _ => []
  end.

Fixpoint to_zero (l : list Z) : list Z :=
  match l with [] => [] | u :: l => if u =? 0 then [] else u :: to_zero l end.

Definition unit_char (u : Z) : Z := if in_range 55296 57343 u then 65533 else u.

Definition is_utf16 (encoding : Z) : bool := (encoding =? 1) || (encoding =? 2).

Definition decode (encoding : Z) (data : bytes) : string :=
  if negb (is_utf16 encoding) then bytes_to_str (trim_zeros (utf8 data))
  else
    let '(little, data) :=
      if encoding =? 1 then
        if begins [255; 254] data then (true, drop 2 data)
        else if begins [254; 255] data then (false, drop 2 data)
        else (false, data)
      else (false, data) in
    text_of (map unit_char (to_zero (code_units little data))).

Example decode_ex : decode 1 [255; 254; 65; 0; 66; 0; 0; 0; 67; 0] = "AB"%string /\ decode 3 [65; 66; 0; 0] = "AB"%string.
Proof. split; reflexivity. Qed.

Fixpoint zero_pair (l : bytes) : option nat :=
  match l with
  | a :: b :: l => if (a =? 0) && (b =? 0) then Some 0%nat else (fun n => (n + 2)%nat) <$> zero_pair l
  | _ => None
  end.

(** Where a text ends, and how long its end is. *)
Definition separator (data : bytes) (encoding : Z) : option (nat * nat) :=
  if is_utf16 encoding then (fun n => (n, 2%nat)) <$> zero_pair data else (fun n => (n, 1%nat)) <$> position_of 0 data.

(** The description and the value of a user-defined text. *)
Definition user_text (data : bytes) : string * string :=
  match data with
  | [] => (""%string, ""%string)
  | encoding :: body =>
    match separator body encoding with
    | None => (""%string, ""%string)
    | Some (index, size) =>
      if (length body <=? index + size)%nat then (""%string, ""%string)
      else (trim (decode encoding (take index body)), trim (decode encoding (drop (index + size) body)))
    end
  end.

(** [split('\0').next()]. *)
Definition first_value (s : string) : string :=
  match position_of 0 (str_bytes s) with Some n => bytes_to_str (take n (str_bytes s)) | None => s end.

(** A whole text is decoded to itself, without the zeros behind it. *)
Lemma utf8_valid_same l : utf8_valid l = true -> utf8 l = l.
Proof.
  induction l as [l IH] using (induction_ltof1 _ (@length Z)). unfold ltof in IH.
  assert (forall l', (length l' < length l)%nat -> utf8_valid l' = true -> utf8 l' = l') as IH' by (intros; by apply IH). clear IH.
  destruct l as [|a l1]; [done|]. cbn [utf8_valid utf8]. destruct (in_range 0 127 a); [intros ?; f_equal; apply IH'; [simpl; lia|done]|].
  destruct l1 as [|b l2]; [done|]. destruct (in_range 194 223 a); cbn [andb].
  { intros [-> Hv]%andb_true_iff. do 2 f_equal. apply IH'; [simpl; lia|done]. }
  destruct l2 as [|c l3]; [done|]. destruct (in_range 224 239 a); cbn [andb].
  { intros [[-> ->]%andb_true_iff Hv]%andb_true_iff. cbn [andb]. do 3 f_equal. apply IH'; [simpl; lia|done]. }
  destruct l3 as [|d l4]; [done|]. intros [[[[-> ->]%andb_true_iff ->]%andb_true_iff ->]%andb_true_iff Hv]%andb_true_iff. cbn [andb].
  do 4 f_equal. apply IH'; [simpl; lia|done].
Qed.
