(* ===== verification/Id3Tags.v ===== *)
(** * ID3v2 tags: [crates/core/src/tags/write/id3.rs] and the MP3 branch of [tags/write.rs]

    A tag in front of the audio holds frames.  The editor reads the frames of any version, keeps those it does
    not replace, and writes them with the new ones as version 2.4. *)

From S2P Require Import Prelude Monads RustText UnicodeText Matching TagIo VorbisComments FlacTags Id3Text.

Record Frame := mkFrame { frame_id : bytes; frame_data : bytes }.

Definition MAX_FRAMES : Z := 65536.

(** [size]: four bytes of seven bits or of eight. *)
Definition size_of (data : bytes) (safe : bool) : Z := if safe then syncsafe data else from_be (take 4 data).

(** The bit mask is set. *)
Definition flagged (flags mask : Z) : bool := negb (Z.land flags mask =? 0).

(** ** Reading frames *)

Definition header_length (version : Z) : Z := if version =? 2 then 6 else 10.

(** The bytes of a frame that is whole: its id, its flags, its data and what follows. *)
Definition next_frame (version : Z) (data : bytes) : option (bytes * Z * bytes * bytes) :=
  let id := take (if version =? 2 then 3 else 4) data in
  if byte_at id 0 =? 0 then None
  else
    let length := if version =? 2 then from_be (take 3 (drop 3 data)) else size_of (drop 4 data) (version =? 4) in
    if (length =? 0) || (len data - header_length version <? length) then None
    else
      let rest := drop (Z.to_nat (header_length version)) data in
      Some (id, if version =? 2 then 0 else byte_at data 9, take (Z.to_nat length) rest, drop (Z.to_nat length) rest).

(** Undoing the unsynchronization: a zero behind a byte of ones goes. *)
Fixpoint synchronized (l : bytes) : bytes :=
  match l with
  | [] => []
  | a :: l1 =>
    a :: match l1 with
         | b :: l2 => if (a =? 255) && (b =? 0) then synchronized l2 else synchronized l1
         | [] => []
         end
  end.

(** The data behind the fields that the flags of a frame announce; [None] for a compressed or encrypted frame. *)
Definition plain_payload (version frame_flags : Z) (payload : bytes) : option bytes :=
  if version =? 3 then
    if flagged frame_flags 192 then None else Some (if flagged frame_flags 32 then drop 1 payload else payload)
  else if negb (version =? 2) then
    if flagged frame_flags 12 then None
    else
      let payload := if flagged frame_flags 64 then drop 1 payload else payload in
      if flagged frame_flags 1 then if len payload <? 4 then None else Some (drop 4 payload) else Some payload
  else Some payload.

Definition frame_payload (version flags frame_flags : Z) (payload : bytes) : option bytes :=
  payload ← plain_payload version frame_flags payload;
  Some (if flagged flags 128 || (negb (version =? 2) && negb (version =? 3) && flagged frame_flags 2)
        then synchronized payload else payload).

Definition short_ids : list (string * string) :=
  [("TT2", "TIT2"); ("TP1", "TPE1"); ("TP2", "TPE2"); ("TAL", "TALB"); ("TYE", "TDRC"); ("TCO", "TCON"); ("TRK", "TRCK");
   ("TPA", "TPOS"); ("TCM", "TCOM"); ("TPB", "TPUB"); ("TCR", "TCOP"); ("TXX", "TXXX"); ("ULT", "USLT"); ("COM", "COMM")]%string.

(** [eq_ignore_ascii_case]. *)
Definition lower_byte (b : Z) : Z := if in_range 65 90 b then b + 32 else b.
Definition same_letters (l l' : bytes) : bool := bool_decide (map lower_byte l = map lower_byte l').

(** A frame of version 2.2 under its later id, its picture with a whole media type. *)
Definition long_frame (id payload : bytes) : option Frame :=
  match List.find (fun e => bool_decide (str_bytes e.1 = id)) short_ids with
  | Some (_, long) => Some (mkFrame (str_bytes long) payload)
  | None =>
    if bool_decide (id = str_bytes "PIC") then
      if len payload <? 5 then None
      else
        let mime := if same_letters (take 3 (drop 1 payload)) (str_bytes "PNG") then "image/png"%string else "image/jpeg"%string in
        Some (mkFrame (str_bytes "APIC") (byte_at payload 0 :: str_bytes mime ++ 0 :: drop 4 payload))
    else None
  end.

Definition frame_of (version flags frame_flags : Z) (id payload : bytes) : option Frame :=
  payload ← frame_payload version flags frame_flags payload;
  if version =? 2 then long_frame id payload else Some (mkFrame id payload).

(** The extended header in front of the frames. *)
Definition extended_length (version flags : Z) (data : bytes) : Z :=
  if flagged flags 64 && (4 <=? len data) && ((version =? 3) || (version =? 4)) then
    let length := size_of data (version =? 4) in
    if 0 <? length then
      let skip := if length + 4 <=? len data then length + 4 else if length <=? len data then length else 0 in
      if skip <? len data then skip else 0
    else 0
  else 0.

(** The footer that some writers count as part of the tag. *)
Definition without_footer (flags : Z) (data : bytes) : bytes :=
  let size := (length data - 10)%nat in
  if flagged flags 16 && (10 <=? len data) && bool_decide (take 3 (drop size data) = str_bytes "3DI") then take size data else data.

Definition tag_end (length flags : Z) : Z := 10 + length + if flagged flags 16 then 10 else 0.

Section io.
Context `{Source}.
Abbreviation P := (St Io string).

(** Up to [need] bytes, fewer at the end of the file. *)
Fixpoint read_up_to (fuel : nat) (need : Z) (received : bytes) : P bytes :=
  match fuel with
  | O => ret received
  | S fuel =>
    if need =? 0 then ret received
    else
      do b <- read need;
      match b with
      | [] => ret received
      | _ => read_up_to fuel (need - len b) (received ++ b)
      end
  end.

Fixpoint frame_loop (fuel : nat) (version flags : Z) (frames : list Frame) (data : bytes) : P (list Frame) :=
  match fuel with
  | O => ret frames
  | S fuel =>
    if header_length version <? len data then
      check;;
      if MAX_FRAMES <=? len frames then throw "ID3 frame count exceeds 65536"%string
      else
        match next_frame version data with
        | None => ret frames
        | Some (id, frame_flags, payload, rest) =>
          frame_loop fuel version flags
            (match frame_of version flags frame_flags id payload with Some frame => frames ++ [frame] | None => frames end) rest
        end
    else ret frames
  end.

Definition read_frames : P (list Frame * Z) :=
  do header <- read_up_to 10 10 [];
  if (len header <? 10) || negb (bool_decide (take 3 header = str_bytes "ID3")) then ret ([], 0)
  else
    let version := byte_at header 3 in
    let flags := byte_at header 5 in
    let length := size_of (drop 6 header) true in
    if length =? 0 then throw "invalid ID3v2 tag size"%string
    else if MAX_TAG_BYTES <? length then throw "ID3 metadata exceeds 64 MiB"%string
    else
      do end_ <- seek (len content);
      if end_ <? 10 + length then throw "truncated ID3v2 tag"%string
      else
        seek 10;;
        do data <- bytes_of length;
        let data := without_footer flags data in
        let data := drop (Z.to_nat (extended_length version flags data)) data in
        do frames <- frame_loop (List.length data) version flags [] data;
        ret (frames, tag_end length flags).

(** ** The frames of an edit *)

Definition text_frame (value : string) : bytes := 3 :: str_bytes value.

Definition TEXT_FRAMES : list (string * string * list string) :=
  [("title", "TIT2", []); ("artist", "TPE1", []); ("album", "TALB", []); ("album_artist", "TPE2", []);
   ("date", "TDRC", ["TYER"; "TDAT"; "TIME"]); ("genre", "TCON", []); ("label", "TPUB", []); ("copyright", "TCOP", []);
   ("composer", "TCOM", []); ("isrc", "TSRC", []); ("compilation", "TCMP", [])]%string.
Definition LANGUAGE_FRAMES : list (string * string) := [("comment", "COMM"); ("lyrics", "USLT")]%string.
Definition INDEX_FRAMES : list (string * string * string) := [("track_number", "track_total", "TRCK"); ("disc_number", "disc_total", "TPOS")]%string.
Definition USER_FRAMES : list (string * string) :=
  [("replaygain_track_gain", "REPLAYGAIN_TRACK_GAIN"); ("replaygain_track_peak", "REPLAYGAIN_TRACK_PEAK");
   ("replaygain_album_gain", "REPLAYGAIN_ALBUM_GAIN"); ("replaygain_album_peak", "REPLAYGAIN_ALBUM_PEAK");
   ("explicit", "ITUNESADVISORY"); ("album_type", "RELEASETYPE"); ("upc", "BARCODE")]%string.

Definition frame (id : string) (data : bytes) : Frame := mkFrame (str_bytes id) data.
Definition has_id (id : string) (f : Frame) : bool := bool_decide (frame_id f = str_bytes id).

Context `{Unicode}.

(** What an edit drops, by id and by the description of a user-defined text, and what it adds. *)
Definition text_id (fields : Fields) (entry : string * string * list string) : list string :=
  let '(field, id, aliases) := entry in match fields !! field with Some _ => id :: aliases | None => [] end.
Definition added_text (fields : Fields) (entry : string * string * list string) : list Frame :=
  let '(field, id, _) := entry in
  match fields !! field with Some value => if blank value then [] else [frame id (text_frame value)] | None => [] end.

Definition added_language (fields : Fields) (entry : string * string) : list Frame :=
  let '(field, id) := entry in
  match fields !! field with Some value => if blank value then [] else [frame id (3 :: str_bytes "eng" ++ 0 :: str_bytes value)] | None => [] end.

Definition given (fields : Fields) (field : string) : bool := bool_decide (is_Some (fields !! field)).

Definition current_pair (frames : list Frame) (id : string) : Z * Z :=
  match List.find (has_id id) frames with
  | Some f => pair (first_value (match frame_data f with encoding :: data => decode encoding data | [] => ""%string end))
  | None => (0, 0)
  end.
Definition added_index (frames : list Frame) (fields : Fields) (entry : string * string * string) : list Frame :=
  let '(field, total, id) := entry in
  if given fields field || given fields total then
    let value := edit_index (current_pair frames id) fields field total in
    if is_empty value then [] else [frame id (text_frame value)]
  else [].

Definition added_user (fields : Fields) (entry : string * string) : list Frame :=
  let '(field, description) := entry in
  match fields !! field with
  | Some value => if blank value then [] else [frame "TXXX" (text_frame description ++ 0 :: str_bytes value)]
  | None => []
  end.

Definition text_byte (b : Z) : bool :=
  negb (in_range 0 8 b || (b =? 11) || in_range 14 26 b || in_range 28 31 b).
Definition picture_mime (cover : bytes) : string :=
  if negb (String.eqb (cover_mime cover) "image/jpeg") || begins [255; 216; 255] cover then cover_mime cover
  else if begins (str_bytes "BM") cover then "image/bmp"
  else if begins (str_bytes "%PDF-") cover then "application/pdf"
  else if forallb text_byte (take 512 cover) then "text/plain; charset=utf-8"
  else "application/octet-stream".
Definition added_cover (cover : option bytes) (mime_override : option string) : list Frame :=
  match cover with
  | Some cover => [frame "APIC" (text_frame (default (picture_mime cover) mime_override) ++ [0; 3; 0] ++ cover)]
  | None => []
  end.

Definition dropped_ids (fields : Fields) (cover : option bytes) : list string :=
  flat_map (text_id fields) TEXT_FRAMES
  ++ flat_map (fun '(field, id) => if given fields field then [id] else []) LANGUAGE_FRAMES
  ++ flat_map (fun '(field, total, id) => if given fields field || given fields total then [id] else []) INDEX_FRAMES
  ++ match cover with Some _ => ["APIC"%string] | None => [] end.
Definition dropped_descriptions (fields : Fields) : list string :=
  flat_map (fun '(field, description) => if given fields field then [description] else []) USER_FRAMES.

Definition kept_frame (fields : Fields) (cover : option bytes) (f : Frame) : bool :=
  negb (existsb (fun id => has_id id f) (dropped_ids fields cover))
  && negb (has_id "TXXX" f && bool_decide (uppercase (trim (user_text (frame_data f)).1) ∈ dropped_descriptions fields)).

Definition edited_frames (fields : Fields) (cover : option bytes) (mime_override : option string) (frames : list Frame) : list Frame :=
  List.filter (kept_frame fields cover) frames
  ++ flat_map (added_text fields) TEXT_FRAMES ++ flat_map (added_language fields) LANGUAGE_FRAMES
  ++ flat_map (added_index frames fields) INDEX_FRAMES ++ flat_map (added_user fields) USER_FRAMES
  ++ added_cover cover mime_override.

(** ** Writing frames *)

(** [syncsafe] of the writer. *)
Definition put_syncsafe (size : Z) : bytes :=
  [Z.land (Z.shiftr size 21) 127; Z.land (Z.shiftr size 14) 127; Z.land (Z.shiftr size 7) 127; Z.land size 127].

Definition frame_bytes (f : Frame) : bytes := frame_id f ++ put_syncsafe (len (frame_data f)) ++ [0; 0] ++ frame_data f.

Fixpoint put_frames (body : bytes) (padding : Z) (frames : list Frame) : P bytes :=
  match frames with
  | [] => ret body
  | f :: frames =>
    check;;
    if MAX_TAG_BYTES <? len body + len (frame_data f) + 10 + padding then throw "ID3 metadata exceeds 64 MiB"%string
    else put_frames (body ++ frame_bytes f) padding frames
  end.

Definition tag_bytes (body : bytes) (padding : Z) : bytes :=
  let body := body ++ repeat 0 (Z.to_nat padding) in
  str_bytes "ID3" ++ [4; 0; 0] ++ put_syncsafe (len body) ++ body.

Definition edit_header (fields : Fields) (cover : option bytes) (mime_override : option string) (padding : Z) : P (bytes * Z) :=
  do read <- read_frames;
  let '(frames, audio_start) := read in
  do body <- put_frames [] padding (edited_frames fields cover mime_override frames);
  ret (tag_bytes body padding, audio_start).

Definition header (fields : Fields) (cover : option bytes) : P (bytes * Z) := edit_header fields cover None 512.

(** The branch of [rewrite_audio_tags] for MP3 files. *)
Definition rewrite_mp3_tags `{Splits} (fields : Fields) (cover : option bytes) : P unit :=
  check;;
  validate_fields fields;;
  let fields := artist_mode_fields fields in
  seek 0;;
  do written <- header fields (not_empty cover);
  let '(data, end_) := written in
  write_sections [mkSection 0 end_ data].
End io.
