(* ===== verification/Id3Spec.v ===== *)
(** * What an edit of an MP3 file keeps: the audio, and the frames it does not replace

    [read_tag]: the frames at the beginning of a file, and where its audio begins. *)

From S2P Require Import Prelude Monads RustText UnicodeText Matching TagIo VorbisComments FlacTags FlacTagsSpec Id3Text Id3Tags.

(** ** Reading, without the source *)

Fixpoint frames_in (fuel : nat) (version flags : Z) (frames : list Frame) (data : bytes) : result (list Frame) string :=
  match fuel with
  | O => Ok frames
  | S fuel =>
    if header_length version <? len data then
      if MAX_FRAMES <=? len frames then Err "ID3 frame count exceeds 65536"%string
      else
        match next_frame version data with
        | None => Ok frames
        | Some (id, frame_flags, payload, rest) =>
          frames_in fuel version flags
            (match frame_of version flags frame_flags id payload with Some frame => frames ++ [frame] | None => frames end) rest
        end
    else Ok frames
  end.

Definition tag_data (version flags : Z) (data : bytes) : bytes :=
  let data := without_footer flags data in drop (Z.to_nat (extended_length version flags data)) data.

Definition read_tag (l : bytes) : result (list Frame * Z) string :=
  let header := take 10 l in
  if (len header <? 10) || negb (bool_decide (take 3 header = str_bytes "ID3")) then Ok ([], 0)
  else
    let version := byte_at header 3 in
    let flags := byte_at header 5 in
    let length := size_of (drop 6 header) true in
    if length =? 0 then Err "invalid ID3v2 tag size"%string
    else if MAX_TAG_BYTES <? length then Err "ID3 metadata exceeds 64 MiB"%string
    else if len l <? 10 + length then Err "truncated ID3v2 tag"%string
    else
      let data := tag_data version flags (slice l 10 (10 + length)) in
      let? frames := frames_in (List.length data) version flags [] data in
      Ok (frames, tag_end length flags).

Lemma byte_at_nonneg l i : Forall byte_ok l -> 0 <= byte_at l i.
Proof.
  intros Hl. unfold byte_at. destruct (nth_in_or_default i l 0) as [Hin| ->]; [|done].
  apply list_elem_of_In in Hin. apply (proj1 (Forall_forall _ _) Hl) in Hin. apply Hin.
Qed.

Lemma syncsafe_nonneg l : Forall byte_ok l -> 0 <= syncsafe l.
Proof. intros Hl. unfold syncsafe. rewrite !Z.lor_nonneg, !Z.shiftl_nonneg. pose proof (fun i => byte_at_nonneg l i Hl). auto. Qed.

Section reading.
Context {SRC : Source}.
Implicit Types (s : Io).

Lemma wp_read_up_to fuel need received (Q : bytes -> Io -> Prop) (R : string -> Io -> Prop) s :
  0 <= position s -> 0 <= need <= Z.of_nat fuel ->
  (forall s', written s' = written s -> Q (received ++ take (Z.to_nat need) (drop (Z.to_nat (position s)) content)) s') ->
  (forall e s', ~ calm -> written s' = written s -> R e s') -> wp (read_up_to fuel need received) Q R s.
Proof.
  revert need received s. induction fuel as [|fuel IH]; intros need received s Hp Hn HQ HR; cbn [read_up_to].
  { apply wp_ret. assert (need = 0) as -> by lia. specialize (HQ s eq_refl). cbn in HQ. by rewrite app_nil_r in HQ. }
  destruct (Z.eqb_spec need 0) as [->|Hne].
  { apply wp_ret. specialize (HQ s eq_refl). cbn in HQ. by rewrite app_nil_r in HQ. }
  apply wp_bind, wp_read; [done|lia| |done]. intros b s1 Hb Heq Hle Hnil Hp1 Hw1. destruct b as [|x b'] eqn:Eb.
  { apply wp_ret. specialize (Hnil eq_refl). specialize (HQ s1 Hw1). rewrite drop_ge, take_nil, app_nil_r in HQ by (unfold len in Hnil; lia). done. }
  rewrite <- Eb in *. assert (0 < len b) by (rewrite Eb; unfold len; simpl; lia). clear Eb x b'. apply IH; [lia|lia| |].
  - intros s2 Hw2. rewrite Hp1, <- app_assoc. replace (b ++ _) with (take (Z.to_nat need) (drop (Z.to_nat (position s)) content)).
    { apply HQ. congruence. }
    rewrite Heq at 1. unfold slice. replace (position s + len b - position s) with (len b) by lia.
    replace (Z.to_nat (position s + len b)) with (Z.to_nat (position s) + Z.to_nat (len b))%nat by lia.
    rewrite <- drop_drop, take_take_drop. f_equal. lia.
  - intros e s2 Hc Hw2. apply HR; [done|congruence].
Qed.

Lemma wp_frame_loop fuel version flags frames data (Q : list Frame -> Io -> Prop) (R : string -> Io -> Prop) s :
  (forall r s', frames_in fuel version flags frames data = Ok r -> written s' = written s -> Q r s') ->
  (forall e s', (calm -> frames_in fuel version flags frames data = Err e) -> written s' = written s -> R e s') ->
  wp (frame_loop fuel version flags frames data) Q R s.
Proof.
  revert frames data s. induction fuel as [|fuel IH]; intros frames data s HQ HR; cbn [frame_loop frames_in] in *; [by apply wp_ret, HQ|].
  destruct (header_length version <? len data); [|by apply wp_ret, HQ].
  apply wp_bind, wp_check; [|intros e s1 Hc Hw1; apply HR; [by intros ?|done]]. intros s1 _ Hw1.
  destruct (MAX_FRAMES <=? len frames); [by apply wp_throw, HR|].
  destruct (next_frame version data) as [[[[id frame_flags] payload] rest]|]; [|by apply wp_ret, HQ].
  apply IH; [intros r s2 Hr Hw2; apply HQ|intros e s2 Hr Hw2; apply HR]; congruence || done.
Qed.

Lemma wp_read_frames (Q : list Frame * Z -> Io -> Prop) (R : string -> Io -> Prop) s :
  position s = 0 ->
  (forall r s', read_tag content = Ok r -> written s' = written s -> Q r s') ->
  (forall e s', (calm -> read_tag content = Err e) -> written s' = written s -> R e s') -> wp read_frames Q R s.
Proof.
  intros Hp HQ HR. unfold read_frames.
  apply wp_bind, wp_read_up_to; [lia|lia| |by intros e s1 Hc Hw1; apply HR]. intros s1 Hw1. rewrite Hp, drop_0.
  change (Z.to_nat 10) with 10%nat. cbn [app]. unfold read_tag in HQ, HR. set (h := take 10 content) in *.
  destruct ((len h <? 10) || negb _); [by apply wp_ret, HQ|]. set (length := size_of (drop 6 h) true) in *.
  destruct (length =? 0); [by apply wp_throw, HR|]. destruct (MAX_TAG_BYTES <? length); [by apply wp_throw, HR|].
  apply wp_bind, wp_seek; [|intros e s2 Hc Hw2; apply HR; [by intros ?|congruence]]. intros s2 _ Hw2.
  destruct (Z.ltb_spec (len content) (10 + length)); [apply wp_throw, HR; [done|congruence]|].
  assert (0 <= length) as Hlength by (apply syncsafe_nonneg, Forall_drop, Forall_take, content_bytes).
  apply wp_bind, wp_seek; [|intros e s3 Hc Hw3; apply HR; [by intros ?|congruence]]. intros s3 Hp3 Hw3.
  apply wp_bind, wp_bytes_of; [lia|done| |].
  2: { intros e s4 Hc Hw4. apply HR; [|congruence]. intros Hcalm. specialize (Hc Hcalm). lia. }
  intros s4 _ Hw4 _. rewrite Hp3. cbv zeta. fold (tag_data (byte_at h 3) (byte_at h 5) (slice content 10 (10 + length))).
  set (data := tag_data _ _ _) in *. apply wp_bind, wp_frame_loop.
  - intros frames s5 Hf Hw5. apply wp_ret, HQ; [by rewrite Hf|congruence].
  - intros e s5 Hf Hw5. apply HR; [|congruence]. intros Hcalm. by rewrite (Hf Hcalm).
Qed.
End reading.

(** ** Written frames are read back *)

Lemma lor_shifted a b n : 0 <= n -> 0 <= a < 2 ^ n -> Z.lor (Z.shiftl b n) a = a + b * 2 ^ n.
Proof. intros Hn Ha. by rewrite Z.lor_comm, lor_disjoint. Qed.

Lemma syncsafe_sum a b c d : 0 <= b < 128 -> 0 <= c < 128 -> 0 <= d < 128 ->
  syncsafe [a; b; c; d] = ((a * 128 + b) * 128 + c) * 128 + d.
Proof.
  intros Hb Hc Hd. unfold syncsafe, byte_at. cbn [nth]. rewrite <- !Z.lor_assoc.
  rewrite (lor_shifted d c 7) by lia. rewrite (lor_shifted _ b 14) by lia. rewrite (lor_shifted _ a 21) by lia. lia.
Qed.

Lemma syncsafe_put n rest : 0 <= n < 2 ^ 28 -> syncsafe (put_syncsafe n ++ rest) = n.
Proof.
  intros Hn. unfold put_syncsafe. change 127 with (2 ^ 7 - 1). rewrite !land_ones_mod, !Z.shiftr_div_pow2 by lia.
  change (syncsafe (_ ++ rest)) with (syncsafe [n / 2 ^ 21 mod 2 ^ 7; n / 2 ^ 14 mod 2 ^ 7; n / 2 ^ 7 mod 2 ^ 7; n mod 2 ^ 7]).
  rewrite syncsafe_sum by (change (2 ^ 7) with 128; divmod_lia). change (2 ^ 7) with 128. change (2 ^ 14) with (128 * 128).
  change (2 ^ 21) with (128 * 128 * 128). rewrite <- !Z.div_div by lia. divmod_lia.
Qed.

(** A frame that can be found again. *)
Definition frame_ok (f : Frame) : Prop := length (frame_id f) = 4%nat /\ byte_at (frame_id f) 0 <> 0.
Definition found (f : Frame) : Prop := frame_ok f /\ frame_data f <> [] /\ len (frame_data f) < 2 ^ 28.

Lemma next_frame_bytes f rest : found f -> next_frame 4 (frame_bytes f ++ rest) = Some (frame_id f, 0, frame_data f, rest).
Proof.
  intros ([Hid Hhead] & Hne & Hlen). unfold next_frame, frame_bytes. destruct f as [id data]. cbn [frame_id frame_data] in *.
  pose proof (len_nonneg data) as Hn. change (4 =? 2) with false. cbv iota zeta. rewrite <- !app_assoc.
  rewrite take_app_length', drop_app_length' by done. destruct (Z.eqb_spec (byte_at id 0) 0); [done|].
  change (4 =? 4) with true. change (size_of ?l true) with (syncsafe l). rewrite syncsafe_put by done.
  destruct (Z.eqb_spec (len data) 0) as [E|_]; [by apply len_nil in E|]. cbn [orb].
  assert (drop (Z.to_nat (header_length 4)) (id ++ put_syncsafe (len data) ++ [0; 0] ++ data ++ rest) = data ++ rest) as ->.
  { rewrite (app_assoc id), (app_assoc (id ++ _)). apply drop_app_length'. rewrite !length_app, Hid. done. }
  assert (len (id ++ put_syncsafe (len data) ++ [0; 0] ++ data ++ rest) = len data + len rest + 10) as Hl.
  { unfold len. rewrite !length_app, Hid. cbn [length put_syncsafe]. lia. }
  pose proof (len_nonneg rest). change (header_length 4) with 10. rewrite (proj2 (Z.ltb_ge _ _)) by lia.
  do 4 f_equal.
  - unfold byte_at. rewrite app_nth2 by lia. rewrite Hid. cbn. done.
  - apply take_app_length'. unfold len. lia.
  - apply drop_app_length'. unfold len. lia.
Qed.

Lemma frame_bytes_length f : frame_ok f -> length (frame_bytes f) = (10 + length (frame_data f))%nat.
Proof. intros [Hid _]. unfold frame_bytes. rewrite !length_app, Hid. cbn [length put_syncsafe]. lia. Qed.

Definition body_of (frames : list Frame) : bytes := concat (map frame_bytes frames).

Definition zeros (n : nat) : bytes := repeat 0 n.
Lemma zeros_head n i : byte_at (take i (zeros n)) 0 = 0.
Proof. destruct n, i; done. Qed.

Lemma frames_in_body fs acc n fuel :
  Forall found fs -> len acc + len fs < MAX_FRAMES -> (length (body_of fs ++ zeros n) <= fuel)%nat ->
  frames_in fuel 4 0 acc (body_of fs ++ zeros n) = Ok (acc ++ fs).
Proof.
  revert acc fuel. induction fs as [|f fs IH]; intros acc fuel Hf Hc Hl.
  - rewrite app_nil_r. cbn [body_of map concat app] in *. destruct fuel as [|fuel]; [done|]. cbn [frames_in].
    destruct (header_length 4 <? _); [|done]. change (len (@nil Frame)) with 0 in Hc. rewrite (proj2 (Z.leb_gt _ _)) by lia.
    unfold next_frame. change (4 =? 2) with false. cbv iota. by rewrite zeros_head.
  - inversion Hf as [|? ? Hf1 Hfs]; subst. change (body_of (f :: fs)) with (frame_bytes f ++ body_of fs) in *.
    rewrite <- app_assoc in *. set (rest := body_of fs ++ zeros n) in *. rewrite length_app, frame_bytes_length in Hl by apply Hf1.
    destruct fuel as [|fuel]; [lia|]. cbn [frames_in]. rewrite next_frame_bytes by done.
    assert (0 < length (frame_data f))%nat as Hd by (destruct Hf1 as (_ & Hne & _); destruct (frame_data f); [done|cbn; lia]).
    rewrite (proj2 (Z.ltb_lt _ _)) by (unfold len; rewrite length_app, frame_bytes_length by apply Hf1; change (header_length 4) with 10; lia).
    rewrite len_cons in Hc. pose proof (len_nonneg fs). rewrite (proj2 (Z.leb_gt _ _)) by lia.
    change (frame_of 4 0 0 (frame_id f) (frame_data f)) with (Some (mkFrame (frame_id f) (frame_data f))).
    replace (mkFrame (frame_id f) (frame_data f)) with f by (by destruct f).
    unfold rest. rewrite IH; [by rewrite <- app_assoc|done|rewrite len_app; change (len [f]) with 1; lia|fold rest; lia].
Qed.

Lemma read_tag_written frames padding audio :
  Forall found frames -> len frames < MAX_FRAMES -> 0 < padding -> len (body_of frames) + padding <= MAX_TAG_BYTES ->
  read_tag (tag_bytes (body_of frames) padding ++ audio) = Ok (frames, len (tag_bytes (body_of frames) padding)).
Proof.
  intros Hf Hc Hp Hmax. unfold tag_bytes. fold (zeros (Z.to_nat padding)). set (body := body_of frames ++ zeros (Z.to_nat padding)).
  set (h := str_bytes "ID3" ++ [4; 0; 0] ++ put_syncsafe (len body)).
  assert (str_bytes "ID3" ++ [4; 0; 0] ++ put_syncsafe (len body) ++ body = h ++ body) as -> by (unfold h; by rewrite <- !app_assoc).
  assert (length h = 10%nat) as Hh by done. assert (len h = 10) as Hh' by done.
  assert (len body = len (body_of frames) + padding) as Hbody.
  { unfold body. rewrite len_app. unfold zeros. unfold len at 2. rewrite repeat_length. lia. }
  pose proof (len_nonneg (body_of frames)) as Hn. unfold MAX_TAG_BYTES in Hmax. rewrite <- app_assoc. unfold read_tag.
  rewrite take_app_length' by done. change (take 3 h) with (str_bytes "ID3"). rewrite bool_decide_eq_true_2 by done.
  change (len h <? 10) with false. cbn [negb orb]. change (byte_at h 3) with 4. change (byte_at h 5) with 0.
  change (drop 6 h) with (put_syncsafe (len body)). rewrite <- (app_nil_r (put_syncsafe (len body))).
  change (size_of (?l) true) with (syncsafe l). rewrite syncsafe_put by lia. cbv zeta.
  destruct (Z.eqb_spec (len body) 0); [lia|]. unfold MAX_TAG_BYTES. rewrite (proj2 (Z.ltb_ge (64 * 2 ^ 20) (len body))) by lia.
  assert (len (h ++ body ++ audio) = 10 + len body + len audio) as -> by (rewrite !len_app, Hh'; lia).
  pose proof (len_nonneg audio). rewrite (proj2 (Z.ltb_ge _ _)) by lia.
  assert (slice (h ++ body ++ audio) 10 (10 + len body) = body) as ->.
  { unfold slice. rewrite drop_app_length' by done. apply take_app_length'. unfold len. lia. }
  change (tag_data 4 0 body) with body. unfold body. rewrite frames_in_body by done. cbn [bind_result].
  fold body. unfold tag_end. change (flagged 0 16) with false. cbv iota. rewrite len_app, Hh'. do 2 f_equal. lia.
Qed.

(** ** The frames of an edit can be found *)

Lemma next_frame_id version data id flags payload rest :
  header_length version < len data -> next_frame version data = Some (id, flags, payload, rest) ->
  byte_at id 0 <> 0 /\ (version <> 2 -> length id = 4%nat).
Proof.
  intros Hl. unfold next_frame, header_length in *. destruct (Z.eqb_spec (byte_at (take (if version =? 2 then 3%nat else 4%nat) data) 0) 0) as [|Hne]; [done|].
  destruct (_ || _); [done|]. intros [= <- <- <- <-]. split; [done|]. intros Hv. rewrite (proj2 (Z.eqb_neq _ _) Hv) in *.
  rewrite length_take. unfold len in Hl. lia.
Qed.

Definition id_ok (id : string) : bool := (length (str_bytes id) =? 4)%nat && negb (byte_at (str_bytes id) 0 =? 0).
Lemma id_ok_frame id data : id_ok id = true -> frame_ok (mkFrame (str_bytes id) data).
Proof. unfold id_ok. rewrite andb_true_iff, negb_true_iff, Z.eqb_neq, Nat.eqb_eq. done. Qed.

Lemma frame_of_ok version flags frame_flags id payload f :
  byte_at id 0 <> 0 -> (version <> 2 -> length id = 4%nat) -> frame_of version flags frame_flags id payload = Some f -> frame_ok f.
Proof.
  intros Hb Hl (data & _ & Hf)%bind_Some. destruct (Z.eqb_spec version 2) as [->|Hv]; [|injection Hf as <-; by split; [apply Hl|]].
  assert (forallb (fun e => id_ok e.2) short_ids = true) as Hall by (vm_compute; done). unfold long_frame in Hf.
  destruct (List.find _ short_ids) as [[short long]|] eqn:E.
  - injection Hf as <-. apply id_ok_frame. apply find_some in E as [Hin _]. by apply (proj1 (forallb_forall _ _) Hall) in Hin.
  - case_bool_decide; [|done]. destruct (_ <? 5); [done|]. injection Hf as <-. by apply id_ok_frame.
Qed.

Lemma frames_in_ok fuel version flags acc data r :
  Forall frame_ok acc -> frames_in fuel version flags acc data = Ok r -> Forall frame_ok r.
Proof.
  revert acc data. induction fuel as [|fuel IH]; intros acc data Ha; cbn [frames_in]; [by intros [= <-]|].
  destruct (Z.ltb_spec (header_length version) (len data)) as [Hl|_]; [|by intros [= <-]]. destruct (_ <=? _); [done|].
  destruct (next_frame version data) as [[[[id ff] payload] rest]|] eqn:E; [|by intros [= <-]].
  apply IH. destruct (next_frame_id _ _ _ _ _ _ Hl E) as [Hb Hi].
  destruct (frame_of version flags ff id payload) as [f|] eqn:Ef; [|done]. apply Forall_app. split; [done|].
  constructor; [|constructor]. by eapply frame_of_ok.
Qed.

Lemma read_tag_ok l frames start : Forall byte_ok l -> read_tag l = Ok (frames, start) -> Forall frame_ok frames /\ 0 <= start.
Proof.
  intros Hl. unfold read_tag. destruct (_ || _); [intros [= <- <-]; by split|]. cbv zeta.
  pose proof (syncsafe_nonneg (drop 6 (take 10 l)) (Forall_drop _ _ _ (Forall_take _ _ _ Hl))) as Hn.
  change (size_of (drop 6 (take 10 l)) true) with (syncsafe (drop 6 (take 10 l))).
  destruct (_ =? 0); [done|]. destruct (_ <? _); [done|]. destruct (_ <? _); [done|].
  destruct (frames_in _ _ _ _ _) as [r|] eqn:E; [|done]. cbn [bind_result]. intros [= <- <-].
  split; [by eapply frames_in_ok; [|exact E]|]. unfold tag_end. destruct (flagged _ _); lia.
Qed.

Section edit.
Context `{Unicode}.

Lemma added_ok fields cover mime frames :
  Forall frame_ok (flat_map (added_text fields) TEXT_FRAMES ++ flat_map (added_language fields) LANGUAGE_FRAMES
    ++ flat_map (added_index frames fields) INDEX_FRAMES ++ flat_map (added_user fields) USER_FRAMES ++ added_cover cover mime).
Proof.
  assert (forall A (id : A -> string) l, forallb (fun e => id_ok (id e)) l = true -> forall e, In e l -> id_ok (id e) = true) as Hall.
  { intros A id l Hl. by apply forallb_forall. }
  rewrite !Forall_app. split_conj; [apply flat_map_Forall..|].
  - intros [[field id] aliases] Hin. apply (Hall _ (fun e => e.1.2)) in Hin; [|vm_compute; done]. unfold added_text.
    destruct (fields !! field); [|constructor]. case_bool; [constructor|]. apply Forall_singleton. by apply id_ok_frame.
  - intros [field id] Hin. apply (Hall _ snd) in Hin; [|vm_compute; done]. unfold added_language.
    destruct (fields !! field); [|constructor]. case_bool; [constructor|]. apply Forall_singleton. by apply id_ok_frame.
  - intros [[field total] id] Hin. apply (Hall _ snd) in Hin; [|vm_compute; done]. unfold added_index.
    case_bool; [|constructor]. cbv zeta. case_bool; [constructor|]. apply Forall_singleton. by apply id_ok_frame.
  - intros [field description] _. unfold added_user.
    destruct (fields !! field); [|constructor]. case_bool; [constructor|]. apply Forall_singleton. by apply id_ok_frame.
  - destruct cover; [|constructor]. apply Forall_singleton. by apply id_ok_frame.
Qed.

Lemma edited_frames_ok fields cover mime frames : Forall frame_ok frames -> Forall frame_ok (edited_frames fields cover mime frames).
Proof.
  intros Hf. unfold edited_frames. apply Forall_app. split; [|apply added_ok]. apply List.Forall_forall. intros f [Hin _]%filter_In.
  by apply (proj1 (List.Forall_forall _ _) Hf).
Qed.
End edit.

(** ** An edit *)

Lemma frame_size f : frame_ok f -> len (frame_bytes f) = len (frame_data f) + 10.
Proof. intros Hf. unfold len. rewrite frame_bytes_length by done. lia. Qed.

Lemma data_in_body f frames : Forall frame_ok frames -> f ∈ frames -> len (frame_data f) <= len (body_of frames).
Proof.
  intros Hok Hin. induction Hin as [g l|g y l _ IH]; apply Forall_cons in Hok as [Hg Hl]; unfold body_of in *; cbn [map concat];
    rewrite len_app, frame_size by done.
  - pose proof (len_nonneg (concat (map frame_bytes l))). lia.
  - specialize (IH Hl). pose proof (len_nonneg (frame_data y)). lia.
Qed.

Section rewriting.
Context `{Unicode} `{Splits} {SRC : Source}.
Implicit Types (s : Io).

Lemma wp_put_frames body padding frames (Q : bytes -> Io -> Prop) (R : string -> Io -> Prop) s :
  Forall frame_ok frames ->
  (forall s', written s' = written s -> (frames = [] \/ len (body ++ body_of frames) + padding <= MAX_TAG_BYTES) -> Q (body ++ body_of frames) s') ->
  (forall e s', (calm -> MAX_TAG_BYTES < len (body ++ body_of frames) + padding) -> written s' = written s -> R e s') ->
  wp (put_frames body padding frames) Q R s.
Proof.
  intros Hok. revert body s. induction Hok as [|f frames Hf Hok IH]; intros body s HQ HR; cbn [put_frames].
  { specialize (HQ s). unfold body_of in HQ. cbn [map concat] in HQ. rewrite app_nil_r in HQ. apply wp_ret, HQ; auto. }
  change (body_of (f :: frames)) with (frame_bytes f ++ body_of frames) in *. rewrite app_assoc in HQ, HR.
  apply wp_bind, wp_check; [|by intros e s1 ? ?; apply HR]. intros s1 _ Hw1. pose proof (frame_size f Hf) as Hsize.
  destruct (Z.ltb_spec MAX_TAG_BYTES (len body + len (frame_data f) + 10 + padding)) as [Hbig|Hsmall].
  - apply wp_throw, HR; [|done]. intros _. rewrite !len_app. pose proof (len_nonneg (body_of frames)). lia.
  - apply IH.
    + intros s2 Hw2 Hor. apply HQ; [congruence|]. right. destruct Hor as [->|?]; [|done].
      unfold body_of. cbn [map concat]. rewrite app_nil_r, len_app. lia.
    + intros e s2 Hc Hw2. apply HR; [done|congruence].
Qed.

Lemma wp_edit_header fields cover mime padding (Q : bytes * Z -> Io -> Prop) (R : string -> Io -> Prop) s :
  position s = 0 -> padding <= MAX_TAG_BYTES ->
  (forall frames start s', read_tag content = Ok (frames, start) ->
     let body := body_of (edited_frames fields cover mime frames) in
     len body + padding <= MAX_TAG_BYTES -> written s' = written s -> Q (tag_bytes body padding, start) s') ->
  (forall e s', (calm -> (exists e', read_tag content = Err e') \/ exists frames start, read_tag content = Ok (frames, start) /\
     MAX_TAG_BYTES < len (body_of (edited_frames fields cover mime frames)) + padding) -> R e s') ->
  wp (edit_header fields cover mime padding) Q R s.
Proof.
  intros Hp Hpad HQ HR. unfold edit_header. apply wp_bind, wp_read_frames; [done| |intros e s1 Hc _; apply HR; eauto].
  intros [frames start] s1 Hr Hw1. destruct (read_tag_ok _ _ _ content_bytes Hr) as [Hok _].
  apply wp_bind, wp_put_frames; [by apply edited_frames_ok| |intros e s2 Hc _; apply HR; eauto 6]. cbn [app].
  intros s2 Hw2 Hor. apply wp_ret, HQ; [done| |congruence]. destruct Hor as [E|?]; [by rewrite E|done].
Qed.

Lemma wp_rewrite_mp3 fields cover s :
  let edited := edited_frames (artist_mode_fields fields) (not_empty cover) None in
  wp (rewrite_mp3_tags fields cover)
    (fun _ s' => exists frames start, read_tag content = Ok (frames, start) /\ len (body_of (edited frames)) + 512 <= MAX_TAG_BYTES /\
       written s' = written s ++ tag_bytes (body_of (edited frames)) 512 ++ drop (Z.to_nat start) content)
    (fun _ _ => calm -> too_long fields = true \/ (exists e, read_tag content = Err e) \/
      exists frames start, read_tag content = Ok (frames, start) /\ MAX_TAG_BYTES < len (body_of (edited frames)) + 512) s.
Proof.
  intros edited. unfold rewrite_mp3_tags. apply wp_bind, wp_check; [|by intros e s1 ? ? ?]. intros s1 _ Hw1.
  apply wp_bind. unfold validate_fields, too_long. case_bool; [apply wp_throw; auto|]. apply wp_ret.
  cbv zeta. apply wp_bind, wp_seek; [|by intros e s2 ? ? ?]. intros s2 Hp2 Hw2.
  apply wp_bind, wp_edit_header; [done|by vm_compute| |by intros e s3 Hc Hcalm; right; apply Hc]. intros frames start s3 Hr body Hmax Hw3.
  destruct (read_tag_ok _ _ _ content_bytes Hr) as [_ Hstart].
  eapply wp_mono; [apply wp_write_sections| |].
  - intros _ s4 [_ Hw4]. exists frames, start. split; [done|split; [exact Hmax|]].
    rewrite Hw4. cbn [sort_sections foldr insert_section spliced TagIo.start finish data]. rewrite slice_nil. cbn [app]. fold edited. by rewrite Hw3, Hw2, Hw1.
  - intros e s4 Hc Hcalm. destruct (Hc Hcalm). cbn. split_conj; lia || done || by left.
Qed.

(** The frames that were written, if all of them have data. *)
Lemma edited_found fields cover frames start :
  read_tag content = Ok (frames, start) -> let edited := edited_frames fields cover None frames in
  len (body_of edited) + 512 <= MAX_TAG_BYTES -> Forall (fun f => frame_data f <> []) edited -> Forall found edited.
Proof.
  intros Hr edited Hmax Hdata. destruct (read_tag_ok _ _ _ content_bytes Hr) as [Hok _]. pose proof (edited_frames_ok fields cover None _ Hok) as Hok'.
  apply Forall_forall. intros f Hf. split; [by apply (proj1 (Forall_forall _ _) Hok')|].
  split; [by apply (proj1 (Forall_forall _ _) Hdata)|]. pose proof (data_in_body f _ Hok' Hf). unfold edited, MAX_TAG_BYTES in Hmax. lia.
Qed.

(** C11: Editing the tags of an MP3 file keeps its audio and the frames it does not replace.  An edit that
    succeeds has read the frames in front of the audio, writes the kept and the new ones, and behind them the
    audio byte for byte; and if all of them have data and they are fewer than 65536, then the next edit reads
    exactly these frames and the same audio.  One that fails, when nothing outside failed, was asked for fields
    that are too long, or found a tag of a wrong size or one with too many frames, or would have written more
    than 64 MiB. *)
Theorem mp3_edit_frames fields cover s :
  let edited := edited_frames (artist_mode_fields fields) (not_empty cover) None in
  match rewrite_mp3_tags fields cover s with
  | (Ok _, s') => exists frames start tag, read_tag content = Ok (frames, start) /\
      written s' = written s ++ tag ++ drop (Z.to_nat start) content /\
      (Forall (fun f => frame_data f <> []) (edited frames) -> len (edited frames) < MAX_FRAMES ->
       read_tag (tag ++ drop (Z.to_nat start) content) = Ok (edited frames, len tag))
  | (Err _, s') => calm -> too_long fields = true \/ (exists e, read_tag content = Err e) \/
      exists frames start, read_tag content = Ok (frames, start) /\ MAX_TAG_BYTES < len (body_of (edited frames)) + 512
  end.
Proof.
  intros edited. pose proof (wp_rewrite_mp3 fields cover s) as Hwp. cbv zeta in Hwp. fold edited in Hwp. unfold wp in Hwp.
  destruct (rewrite_mp3_tags fields cover s) as [[[]|e] s']; [|done]. destruct Hwp as (frames & start & Hr & Hmax & Hw).
  exists frames, start, (tag_bytes (body_of (edited frames)) 512). split_conj; [done|done|]. intros Hdata Hcount.
  apply read_tag_written; [|done|done|done]. by eapply edited_found.
Qed.
End rewriting.

(** ** Examples *)

Module Id3Example.
Export FlacExample.

(** A tag of version 2.3 with a title, a frame unknown to the editor and padding, in front of three bytes. *)
Definition old_frames : bytes :=
  str_bytes "TIT2" ++ [0; 0; 0; 4; 0; 0] ++ [3] ++ str_bytes "Old" ++ str_bytes "PRIV" ++ [0; 0; 0; 2; 0; 0] ++ [7; 8] ++ zeros 20.
Definition mp3_song : bytes := str_bytes "ID3" ++ [3; 0; 0] ++ put_syncsafe (len old_frames) ++ old_frames ++ [255; 251; 9].
Lemma mp3_song_bytes : Forall byte_ok mp3_song.
Proof. vm_compute. repeat constructor; done. Qed.

Definition new_tag : bytes := tag_bytes (body_of [frame "PRIV" [7; 8]; frame "TIT2" (3 :: str_bytes "Song")]) 512.

Example mp3_edit_runs :
  (@rewrite_mp3_tags (file_of mp3_song mp3_song_bytes) _ _ title None (mkIo 0 0 [])).2.(written) = new_tag ++ [255; 251; 9] /\
  read_tag (new_tag ++ [255; 251; 9]) = Ok ([frame "PRIV" [7; 8]; frame "TIT2" (3 :: str_bytes "Song")], len new_tag).
Proof. split; vm_compute; reflexivity. Qed.

(** A frame that holds nothing but the byte of its group is kept without data, and what is written behind it is not
    found again: the reader stops at a frame of length zero. *)
Definition group_frame : bytes := str_bytes "XGRP" ++ put_syncsafe 1 ++ [0; 64; 9].
Definition grouped : bytes := str_bytes "ID3" ++ [4; 0; 0] ++ put_syncsafe (len (group_frame ++ frame_bytes (frame "TALB" [3; 65])))
  ++ group_frame ++ frame_bytes (frame "TALB" [3; 65]).
Lemma empty_frame_hides_rest :
  read_tag grouped = Ok ([frame "XGRP" []; frame "TALB" [3; 65]], 33) /\
  read_tag (tag_bytes (body_of [frame "XGRP" []; frame "TALB" [3; 65]]) 512) = Ok ([], 544).
Proof. split; vm_compute; reflexivity. Qed.
End Id3Example.
