(* ===== verification/Cue.v ===== *)
(** * CUE sheets: [crates/core/src/cue.rs]

    A sheet is read line by line from a stream whose reads may be short.  Lines are texts by characters; the code
    cuts them in front of ASCII characters only, so bytes and characters count the same places. *)

From S2P Require Import Prelude Monads Float64 RustText UnicodeText TagIo VorbisComments CharText Id3Text Id3Tags.

Definition MAX_SCANNER_BUFFER : Z := 64 * 1024.
Definition READ_BUFFER_SIZE : Z := 8 * 1024.

Record CueTrack := mkTrack {
  number : Z; track_title : text; track_performer : text; isrc : text; track_composer : text; start_time : f64; pre_gap : f64 }.

Record CueSheet := mkSheet {
  performer : text; title : text; file_name : text; file_type : text; genre : text; date : text; comment : text; composer : text;
  tracks : list CueTrack }.

Definition empty_sheet : CueSheet := mkSheet [] [] [] [] [] [] [] [] [].

(** ** Lines *)

(** What is read of the stream and not yet returned, and whether it has ended. *)
Record Lines := mkLines { buffer : bytes; eof : bool }.
Definition no_lines : Lines := mkLines [] false.

Definition strip_carriage_return (line : bytes) : bytes :=
  if bool_decide (last line = Some 13) then removelast line else line.

Section io.
Context `{Source}.
Abbreviation P := (St Io string).

Definition too_long : string := "error reading cue file: bufio.Scanner: token too long".

(** [next], with the pass that reads and the one that takes what was read. *)
Fixpoint next (fuel : nat) (lines : Lines) (raw_length : Z) (line : bytes) : P (option bytes * Lines) :=
  match fuel with
  | O => throw "out of fuel"%string
  | S fuel =>
    check;;
    match buffer lines with
    | [] =>
      if eof lines then ret (match line with [] => None | _ => Some (strip_carriage_return line) end, lines)
      else
        do data <- mapping (fun e => ("error reading cue file: " ++ e)%string) (read READ_BUFFER_SIZE);
        next fuel (mkLines data (match data with [] => true | _ => false end)) raw_length line
    | remaining =>
      match position_of 10 remaining with
      | Some offset =>
        if MAX_SCANNER_BUFFER <? raw_length + Z.of_nat offset + 1 then throw too_long
        else ret (Some (strip_carriage_return (line ++ take offset remaining)), mkLines (drop (S offset) remaining) (eof lines))
      | None =>
        let raw_length := raw_length + len remaining in
        if MAX_SCANNER_BUFFER <=? raw_length then throw too_long
        else next fuel (mkLines [] (eof lines)) raw_length (line ++ remaining)
      end
    end
  end.

(** Each pass reads a byte, takes bytes that were read, or meets the end. *)
Definition next_line (lines : Lines) : P (option bytes * Lines) := next (2 * length content + 4) lines 0 [].
End io.

(** ** A line *)

Definition find_char (c : Z) (l : text) : option nat := position_of c l.

Definition command_rest (line : text) (command : string) : option text :=
  let n := length (lit command) in
  if (n <=? length line)%nat && same_letters (take n line) (lit command) then Some (drop n line) else None.

Definition rem_space : Z -> bool := any_of [32; 9; 13; 10; 12].

Fixpoint take_until (p : Z -> bool) (l : text) : text :=
  match l with [] => [] | c :: l => if p c then [] else c :: take_until p l end.

Definition parse_rem (line : text) : option (text * text) :=
  if negb (text_starts_with line (lit "REM ")) then None
  else
    let rest := trim_start_matches rem_space (drop 3 line) in
    match rest with
    | [] => None
    | _ =>
      let key := take_until rem_space rest in
      let rest := drop (length key) rest in
      match rest with
      | [] => None
      | _ => match trim_start_matches rem_space rest with [] => None | value => Some (key, value) end
      end
    end.

(** [parse::<i64>().unwrap_or(0)]. *)
Definition parse_number (l : text) : Z := default 0 (parse_i64 (text_of l)).

Definition timestamp (value : text) : f64 :=
  match split_all 58 value with
  | [minutes; seconds; frames] =>
    f64_add (f64_add (f64_mul (f64_of (parse_number minutes)) (f64_of 60)) (f64_of (parse_number seconds)))
      (f64_div (f64_of (parse_number frames)) (f64_of 75))
  | _ => f64_of 0
  end.

Definition QUOTE : Z := 34.

Definition unquote (value : text) : text :=
  let value := trim_text value in
  match find_char QUOTE value with
  | None => value
  | Some start =>
    let rest := drop (S start) value in
    match find_char QUOTE rest with None => value | Some e => take e rest end
  end.

Definition parse_file_line (rest : text) : text * text :=
  let rest := trim_text rest in
  match strip_prefix [QUOTE] rest with
  | Some value =>
    match find_char QUOTE value with
    | Some e => (take e value, trim_text (drop (S e) value))
    | None => (rest, [])
    end
  | None =>
    match split_whitespace rest with
    | [] => ([], [])
    | [name] => (name, [])
    | parts => (join (lit " ") (removelast parts), default [] (last parts))
    end
  end.

(** ** The state of a sheet that is read *)

Record State := mkState { sheet : CueSheet; current_track : option CueTrack }.
Definition start : State := mkState empty_sheet None.

(** To the track that was begun last, or to the sheet. *)
Definition apply_to (on_track : CueTrack -> CueTrack) (on_sheet : CueSheet -> CueSheet) (s : State) : State :=
  match current_track s with
  | Some t => mkState (sheet s) (Some (on_track t))
  | None => mkState (on_sheet (sheet s)) None
  end.
Definition same {A} (x : A) : A := x.
Definition on_sheet (f : CueSheet -> CueSheet) (s : State) : State := mkState (f (sheet s)) (current_track s).

Definition set_track_title v t := mkTrack (number t) v (track_performer t) (isrc t) (track_composer t) (start_time t) (pre_gap t).
Definition set_track_performer v t := mkTrack (number t) (track_title t) v (isrc t) (track_composer t) (start_time t) (pre_gap t).
Definition set_isrc v t := mkTrack (number t) (track_title t) (track_performer t) v (track_composer t) (start_time t) (pre_gap t).
Definition set_track_composer v t := mkTrack (number t) (track_title t) (track_performer t) (isrc t) v (start_time t) (pre_gap t).
Definition set_start_time v t := mkTrack (number t) (track_title t) (track_performer t) (isrc t) (track_composer t) v (pre_gap t).
Definition set_pre_gap v t := mkTrack (number t) (track_title t) (track_performer t) (isrc t) (track_composer t) (start_time t) v.

Definition set_performer v s := mkSheet v (title s) (file_name s) (file_type s) (genre s) (date s) (comment s) (composer s) (tracks s).
Definition set_title v s := mkSheet (performer s) v (file_name s) (file_type s) (genre s) (date s) (comment s) (composer s) (tracks s).
Definition set_file (v : text * text) s := mkSheet (performer s) (title s) v.1 v.2 (genre s) (date s) (comment s) (composer s) (tracks s).
Definition set_genre v s := mkSheet (performer s) (title s) (file_name s) (file_type s) v (date s) (comment s) (composer s) (tracks s).
Definition set_date v s := mkSheet (performer s) (title s) (file_name s) (file_type s) (genre s) v (comment s) (composer s) (tracks s).
Definition set_comment v s := mkSheet (performer s) (title s) (file_name s) (file_type s) (genre s) (date s) v (composer s) (tracks s).
Definition set_composer v s := mkSheet (performer s) (title s) (file_name s) (file_type s) (genre s) (date s) (comment s) v (tracks s).
Definition push_track t s :=
  mkSheet (performer s) (title s) (file_name s) (file_type s) (genre s) (date s) (comment s) (composer s) (tracks s ++ [t]).

(** The track that was begun last joins the others. *)
Definition finish_track (s : State) : State :=
  match current_track s with Some t => mkState (push_track t (sheet s)) None | None => s end.

Definition new_track (n : Z) : CueTrack := mkTrack n [] [] [] [] (f64_of 0) (f64_of (-1)).

Section lines.
Context `{Unicode}.

(** [str::to_uppercase]. *)
Definition to_upper (l : text) : text := flat_map to_uppercase l.

Definition rem_line (key value : text) : State -> State :=
  let value := unquote value in
  if bool_decide (to_upper key = lit "GENRE") then on_sheet (set_genre value)
  else if bool_decide (to_upper key = lit "DATE") then on_sheet (set_date value)
  else if bool_decide (to_upper key = lit "COMMENT") then on_sheet (set_comment value)
  else if bool_decide (to_upper key = lit "COMPOSER") then apply_to (set_track_composer value) (set_composer value)
  else same.

Definition index_line (line : text) (t : CueTrack) : CueTrack :=
  match split_whitespace line with
  | _ :: index :: time :: _ =>
    let index := parse_number index in
    if index =? 0 then set_pre_gap (timestamp time) t else if index =? 1 then set_start_time (timestamp time) t else t
  | _ => t
  end.

Definition track_number (line : text) : Z := match nth_error (split_whitespace line) 1 with Some n => parse_number n | None => 0 end.

Definition cue_line (line : text) (s : State) : State :=
  match parse_rem line with
  | Some (key, value) => rem_line key value s
  | None =>
    match command_rest line "PERFORMER " with
    | Some rest => apply_to (set_track_performer (unquote rest)) (set_performer (unquote rest)) s
    | None =>
    match command_rest line "TITLE " with
    | Some rest => apply_to (set_track_title (unquote rest)) (set_title (unquote rest)) s
    | None =>
    match command_rest line "FILE " with
    | Some rest => on_sheet (set_file (parse_file_line rest)) s
    | None =>
    match command_rest line "TRACK " with
    | Some _ => mkState (sheet (finish_track s)) (Some (new_track (track_number line)))
    | None =>
    match command_rest line "INDEX ", current_track s with
    | Some _, Some t => mkState (sheet s) (Some (index_line line t))
    | _, _ =>
    match command_rest line "ISRC " with
    | Some rest => apply_to (set_isrc (trim_text rest)) same s
    | None =>
    match command_rest line "SONGWRITER " with
    | Some rest => apply_to (set_track_composer (unquote rest)) (set_composer (unquote rest)) s
    | None => s
    end end end end end end end
  end.

Definition BOM : text := [65279].

(** A line as it was read. *)
Definition apply_line (s : State) (raw_line : bytes) : State :=
  let line := trim_text (code_points (utf8 raw_line)) in
  match line with
  | [] => s
  | _ =>
    let line := match strip_prefix BOM line with Some without => trim_text without | None => line end in
    match line with [] => s | _ => cue_line line s end
  end.

Definition sheet_of (s : State) : result CueSheet string :=
  let sheet := sheet (finish_track s) in
  match tracks sheet with [] => Err "no tracks found in cue file"%string | _ => Ok sheet end.

Context `{Source}.

Fixpoint parse_loop (fuel : nat) (lines : Lines) (s : State) : St Io string State :=
  match fuel with
  | O => throw "out of fuel"%string
  | S fuel =>
    do read <- next_line lines;
    match read with
    | (Some line, lines) => parse_loop fuel lines (apply_line s line)
    | (None, _) => ret s
    end
  end.

(** Every line but the last holds a byte, its end. *)
Definition parse : St Io string CueSheet :=
  check;;
  do s <- parse_loop (length content + 1) no_lines start;
  match sheet_of s with Ok sheet => ret sheet | Err e => throw e end.
End lines.
