(* ===== verification/CueSpec.v ===== *)
(** * Reading CUE sheets: the sheet does not depend on how the stream is cut, and a printed sheet is read back

    [cue_of]: the sheet of a file by its lines alone. *)

From S2P Require Import Prelude Float64 RustText Monads UnicodeText TagIo VorbisComments CharText Id3Text Id3Tags Cue.

(** ** The lines of a file *)

Fixpoint raw_lines (line l : bytes) : list bytes :=
  match l with
  | [] => match line with [] => [] | _ => [line] end
  | b :: l => if b =? 10 then line :: raw_lines [] l else raw_lines (line ++ [b]) l
  end.

Definition short (line : bytes) : bool := len line <? MAX_SCANNER_BUFFER.

Definition cue_of `{Unicode} (l : bytes) : result CueSheet string :=
  let lines := raw_lines [] l in
  if forallb short lines then sheet_of (fold_left apply_line (map strip_carriage_return lines) start) else Err too_long.

(** The next line of what is left, behind what was read of it. *)
Definition next_of (line rest : bytes) : result (option bytes * bytes) string :=
  match position_of 10 rest with
  | Some n =>
    if short (line ++ take n rest) then Ok (Some (strip_carriage_return (line ++ take n rest)), drop (S n) rest) else Err too_long
  | None =>
    if short (line ++ rest) then Ok (match line ++ rest with [] => None | l => Some (strip_carriage_return l) end, []) else Err too_long
  end.

Lemma position_in c l n : position_of c l = Some n -> (n < length l)%nat /\ forall r, position_of c (l ++ r) = Some n.
Proof.
  revert n. induction l as [|b l IH]; intros n; [done|]. cbn [position_of app length]. destruct (b =? c).
  - intros [= <-]. split; [lia|done].
  - destruct (position_of c l) as [k|]; [|done]. intros [= <-]. destruct (IH k eq_refl) as [Hk Hr]. split; [lia|]. intros r. by rewrite Hr.
Qed.

Lemma position_behind c l r : position_of c l = None -> position_of c (l ++ r) = (fun n => (length l + n)%nat) <$> position_of c r.
Proof.
  induction l as [|b l IH]; [intros _; cbn; by destruct (position_of c r)|]. cbn [position_of app length]. destruct (b =? c); [done|].
  destruct (position_of c l); [done|]. intros _. rewrite IH by done. by destruct (position_of c r).
Qed.

Lemma next_of_cut line l r : position_of 10 l = None -> next_of line (l ++ r) = next_of (line ++ l) r.
Proof.
  intros Hl. unfold next_of. rewrite position_behind by done. destruct (position_of 10 r) as [n|]; cbn [fmap option_fmap option_map].
  - rewrite take_app_add, app_assoc. replace (S (length l + n)) with (length l + S n)%nat by lia. by rewrite drop_app_add.
  - by rewrite app_assoc.
Qed.

Lemma next_of_long line rest : MAX_SCANNER_BUFFER <= len line -> next_of line rest = Err too_long.
Proof.
  intros Hl. unfold next_of. assert (forall k, short (line ++ k) = false) as Hs.
  { intros k. unfold short. rewrite len_app. pose proof (len_nonneg k). apply Z.ltb_ge. lia. }
  destruct (position_of 10 rest); by rewrite Hs.
Qed.

Section reading.
Context {SRC : Source}.
Implicit Types (s : Io).

(** What is left of the stream. *)
Definition left_of (lines : Lines) s : bytes := buffer lines ++ drop (Z.to_nat (position s)) content.
Definition reading (lines : Lines) s : Prop := 0 <= position s /\ (eof lines = true -> len content <= position s).
Definition passes (lines : Lines) s : nat :=
  (2 * length (drop (Z.to_nat (position s)) content) + (match buffer lines with [] => 0 | _ => 1 end) + (if eof lines then 0 else 2))%nat.

Lemma wp_next fuel lines line s :
  reading lines s -> len line < MAX_SCANNER_BUFFER -> (passes lines s < fuel)%nat ->
  wp (next fuel lines (len line) line)
    (fun r s' => reading r.2 s' /\ next_of line (left_of lines s) = Ok (r.1, left_of r.2 s'))
    (fun e _ => calm -> next_of line (left_of lines s) = Err e) s.
Proof.
  revert lines line s. induction fuel as [|fuel IH]; intros [data ended] line s [Hp Heof] Hline Hfuel; [lia|]. cbn [next].
  apply wp_bind, wp_check; [|by intros e s1 Hc _ Hcalm]. intros s1 Hp1 _. unfold left_of, passes in *. cbn [buffer eof] in *.
  destruct data as [|b data].
  - destruct ended.
    + specialize (Heof eq_refl). cbn [app]. apply wp_ret. cbn [fst snd buffer eof]. split; [split; [lia|intros _; lia]|].
      rewrite !drop_ge by (unfold len in Heof; lia). cbn [app]. unfold next_of. cbn [position_of]. rewrite app_nil_r. unfold short.
      rewrite (proj2 (Z.ltb_lt _ _)) by done. by destruct line.
    + apply wp_bind, wp_mapping, wp_read; [lia|done| |by intros e s2 Hc _ Hcalm]. rewrite Hp1.
      intros d s2 Hd Heq Hle Hnil Hp2 _. assert (drop (Z.to_nat (position s)) content = d ++ drop (Z.to_nat (position s2)) content) as Hdrop.
      { rewrite Hp2. rewrite Heq at 1. unfold slice. replace (position s + len d - position s) with (len d) by lia.
        replace (Z.to_nat (position s + len d)) with (Z.to_nat (position s) + Z.to_nat (len d))%nat by (pose proof (len_nonneg d); lia).
        by rewrite <- drop_drop, take_drop. }
      pose proof (len_nonneg d). cbn [app]. rewrite Hdrop. destruct d as [|x d].
      * apply (IH (mkLines [] true)); [split; [cbn; lia|intros _; specialize (Hnil eq_refl); cbn in *; lia]|done|].
        cbn [passes buffer eof] in *. unfold passes. cbn [buffer eof]. rewrite Hdrop in Hfuel. cbn [app] in Hfuel. lia.
      * apply (IH (mkLines (x :: d) false)); [split; [lia|done]|done|].
        unfold passes. cbn [buffer eof]. rewrite Hdrop, length_app in Hfuel. cbn [length] in Hfuel. lia.
  - set (remaining := b :: data) in *. destruct (position_of 10 remaining) as [offset|] eqn:E.
    + destruct (position_in _ _ _ E) as [Ho Hr]. unfold next_of. rewrite Hr, take_app_le by lia.
      assert (len (line ++ take offset remaining) = len line + Z.of_nat offset) as Hlen.
      { rewrite len_app. unfold len at 2. rewrite length_take. lia. }
      unfold short. rewrite Hlen. destruct (Z.ltb_spec MAX_SCANNER_BUFFER (len line + Z.of_nat offset + 1)).
      * apply wp_throw. intros _. by rewrite (proj2 (Z.ltb_ge _ _)) by lia.
      * apply wp_ret. cbn [fst snd buffer eof]. split; [split; [lia|intros ?; cbn in *; rewrite Hp1; auto]|].
        rewrite (proj2 (Z.ltb_lt _ _)) by lia. rewrite drop_app_le by lia. by rewrite Hp1.
    + rewrite next_of_cut by done. rewrite <- len_app. cbv zeta. destruct (Z.leb_spec MAX_SCANNER_BUFFER (len (line ++ remaining))).
      * apply wp_throw. intros _. by apply next_of_long.
      * eapply wp_mono; [apply (IH (mkLines [] ended)); [split; cbn; rewrite Hp1; [done|exact Heof]|done|]| |].
        -- unfold passes. cbn [buffer eof]. rewrite Hp1. destruct ended; lia.
        -- unfold left_of. cbn [buffer app]. by rewrite Hp1.
        -- unfold left_of. cbn [buffer app]. by rewrite Hp1.
Qed.
End reading.

Lemma raw_lines_next line rest :
  match next_of line rest with
  | Ok (Some l, rest') => exists raw, raw_lines line rest = raw :: raw_lines [] rest' /\ l = strip_carriage_return raw /\
      short raw = true /\ (line = [] -> length rest' < length rest)%nat
  | Ok (None, _) => raw_lines line rest = []
  | Err e => e = too_long /\ forallb short (raw_lines line rest) = false
  end.
Proof.
  unfold next_of. destruct (position_of 10 rest) as [n|] eqn:E.
  - assert (raw_lines line rest = (line ++ take n rest) :: raw_lines [] (drop (S n) rest) /\ (n < length rest)%nat) as [-> Hn].
    { revert line n E. induction rest as [|b rest IH]; intros line n; [done|]. cbn [position_of raw_lines].
      destruct (Z.eqb_spec b 10) as [->|Hb]; [intros [= <-]; cbn [take drop]; rewrite app_nil_r; split; [done|cbn; lia]|].
      destruct (position_of 10 rest) as [k|]; [|done]. intros [= <-]. destruct (IH (line ++ [b]) k eq_refl) as [-> Hk].
      rewrite <- app_assoc. split; [done|cbn; lia]. }
    destruct (short (line ++ take n rest)) eqn:Es; [|split; [done|cbn; by rewrite Es]].
    eexists. split_conj; [done|done|done|]. intros _. rewrite length_drop. lia.
  - assert (raw_lines line rest = match line ++ rest with [] => [] | l => [l] end) as ->.
    { revert line E. induction rest as [|b rest IH]; intros line; cbn [position_of raw_lines]; [rewrite app_nil_r; by destruct line|].
      destruct (b =? 10); [done|]. destruct (position_of 10 rest); [done|]. intros _. rewrite IH by done. by rewrite <- app_assoc. }
    destruct (short (line ++ rest)) eqn:Es.
    + destruct (line ++ rest) as [|b l] eqn:El; [done|]. exists (b :: l). split_conj; [done|done|done|].
      intros ->. cbn [app] in El. subst rest. cbn. lia.
    + split; [done|]. destruct (line ++ rest) as [|b l]; [done|]. cbn [forallb]. by rewrite Es.
Qed.

Section parsing.
Context `{Unicode} {SRC : Source}.
Implicit Types (s : Io).

Lemma wp_parse_loop fuel lines st s :
  reading lines s -> (length (left_of lines s) < fuel)%nat -> (length (left_of lines s) <= length content)%nat ->
  let rest := raw_lines [] (left_of lines s) in
  wp (parse_loop fuel lines st) (fun st' _ => forallb short rest = true /\ st' = fold_left apply_line (map strip_carriage_return rest) st)
    (fun e _ => calm -> forallb short rest = false /\ e = too_long) s.
Proof.
  revert lines st s. induction fuel as [|fuel IH]; intros lines st s Hr Hf Hl; cbv zeta; [lia|]. cbn [parse_loop].
  assert (passes lines s < 2 * length content + 4)%nat as Hp.
  { unfold passes, left_of in *. rewrite length_app in Hl. destruct (buffer lines), (eof lines); cbn [length] in Hl; lia. }
  pose proof (raw_lines_next [] (left_of lines s)) as Hn.
  apply wp_bind. eapply wp_mono; [apply (wp_next _ lines []); [done|done|exact Hp]| |].
  - intros [o lines'] s1 [Hr1 Ho]. cbn [fst snd] in *. rewrite Ho in Hn. destruct o as [line|].
    + destruct Hn as (raw & -> & -> & Hs & Hlt). specialize (Hlt eq_refl). cbn [forallb map fold_left]. rewrite Hs. cbn [andb].
      apply IH; [done|lia|lia].
    + rewrite Hn. by apply wp_ret.
  - intros e s1 Hc Hcalm. rewrite (Hc Hcalm) in Hn. by destruct Hn.
Qed.

(** C19: A CUE sheet is read the same however its stream is cut into reads.  What is returned is the sheet of the
    file's lines, each at most 64 KiB with its end and read in order; and when nothing outside fails, reading
    fails exactly for a longer line or a sheet without tracks. *)
Theorem cue_reads_lines t w :
  match parse (mkIo t 0 w) with
  | (Ok sheet, _) => cue_of content = Ok sheet
  | (Err e, _) => calm -> cue_of content = Err e
  end.
Proof.
  enough (wp parse (fun sheet _ => cue_of content = Ok sheet) (fun e _ => calm -> cue_of content = Err e) (mkIo t 0 w)) as Hwp.
  { unfold wp in Hwp. by destruct (parse (mkIo t 0 w)) as [[sheet|e] s']. }
  unfold parse, cue_of. apply wp_bind, wp_check; [|by intros e s1 Hc _ Hcalm]. intros s1 Hp1 _. cbn [position] in Hp1.
  assert (left_of no_lines s1 = content) as Hleft by (unfold left_of; by rewrite Hp1).
  apply wp_bind. eapply wp_mono; [apply wp_parse_loop; [split; [rewrite Hp1; done|done]|rewrite Hleft; lia|by rewrite Hleft]| |]; rewrite Hleft.
  - intros st s2 [-> ->]. destruct (sheet_of _); [by apply wp_ret|by apply wp_throw].
  - intros e s2 Hc Hcalm. by destruct (Hc Hcalm) as [-> ->].
Qed.
End parsing.

(** * A sheet that is written out is read as what it says

    [print]: the lines of a sheet as other programs write them.  Its texts stand in quotes, so they may hold
    anything but a quote and a line feed. *)

(** ** Characters and their bytes *)

(** A Unicode scalar value. *)
Definition scalar (c : Z) : Prop := 0 <= c < 55296 \/ 57344 <= c < 1114112.
Definition encode (l : text) : bytes := flat_map encode_char l.

Lemma in_range_true lo hi b : lo <= b <= hi -> in_range lo hi b = true.
Proof. unfold in_range. lia. Qed.
Lemma in_range_false lo hi b : b < lo \/ hi < b -> in_range lo hi b = false.
Proof. unfold in_range. lia. Qed.

Lemma utf8_char c rest : scalar c -> utf8 (encode_char c ++ rest) = encode_char c ++ utf8 rest.
Proof.
  intros Hc. unfold scalar in Hc. unfold encode_char. destruct (Z.ltb_spec c 128); [|destruct (Z.ltb_spec c 2048); [|destruct (Z.ltb_spec c 65536)]];
    cbn [app utf8]; unfold cont.
  - by rewrite in_range_true by lia.
  - rewrite (in_range_false 0 127 (192 + c / 64)), (in_range_true 194 223 (192 + c / 64)), (in_range_true 128 191) by divmod_lia. done.
  - rewrite (in_range_false 0 127 (224 + c / 4096)), (in_range_false 194 223 (224 + c / 4096)), (in_range_true 224 239 (224 + c / 4096)), (in_range_true 128 191 (128 + c mod 64)) by divmod_lia. cbn [andb].
    destruct (Z.eqb_spec (224 + c / 4096) 224), (Z.eqb_spec (224 + c / 4096) 237); rewrite (in_range_true _ _ (128 + c / 64 mod 64)) by divmod_lia; done.
  - rewrite (in_range_false 0 127 (240 + c / 262144)), (in_range_false 194 223 (240 + c / 262144)), (in_range_false 224 239 (240 + c / 262144)),
      (in_range_true 240 244 (240 + c / 262144)) by divmod_lia. cbn [andb].
    rewrite (in_range_true 128 191 (128 + c mod 64)), (in_range_true 128 191 (128 + c / 64 mod 64)) by divmod_lia.
    destruct (Z.eqb_spec (240 + c / 262144) 240), (Z.eqb_spec (240 + c / 262144) 244);
      rewrite (in_range_true _ _ (128 + c / 4096 mod 64)) by divmod_lia; done.
Qed.

Lemma code_point_char c rest : scalar c -> code_points (encode_char c ++ rest) = c :: code_points rest.
Proof.
  intros Hc. unfold scalar in Hc. unfold encode_char. destruct (Z.ltb_spec c 128); [|destruct (Z.ltb_spec c 2048); [|destruct (Z.ltb_spec c 65536)]];
    cbn [app code_points]; rewrite ?Z.shiftl_mul_pow2 by lia.
  - by rewrite in_range_true by lia.
  - rewrite (in_range_false 0 127 (192 + c / 64)), (in_range_true 194 223 (192 + c / 64)) by divmod_lia. f_equal. change (2 ^ 6) with 64. divmod_lia.
  - rewrite (in_range_false 0 127 (224 + c / 4096)), (in_range_false 194 223 (224 + c / 4096)), (in_range_true 224 239 (224 + c / 4096)) by divmod_lia. f_equal.
    change (2 ^ 12) with 4096. change (2 ^ 6) with 64. divmod_lia.
  - rewrite (in_range_false 0 127 (240 + c / 262144)), (in_range_false 194 223 (240 + c / 262144)), (in_range_false 224 239 (240 + c / 262144)) by divmod_lia. f_equal.
    change (2 ^ 18) with 262144. change (2 ^ 12) with 4096. change (2 ^ 6) with 64. divmod_lia.
Qed.

Lemma decode_encode l : Forall scalar l -> code_points (utf8 (encode l)) = l.
Proof.
  unfold encode. induction 1 as [|c l Hc _ IH]; [done|]. cbn [flat_map]. by rewrite utf8_char, code_point_char, IH.
Qed.

Lemma encode_char_bytes c b : scalar c -> b ∈ encode_char c -> b = c \/ 128 <= b.
Proof.
  intros Hc. unfold scalar in Hc. unfold encode_char. destruct (Z.ltb_spec c 128); [|destruct (Z.ltb_spec c 2048); [|destruct (Z.ltb_spec c 65536)]];
    rewrite !elem_of_cons, elem_of_nil; divmod_lia.
Qed.

Lemma encode_last l : Forall scalar l -> forall b, last (encode l) = Some b -> exists c, last l = Some c /\ (b = c \/ 128 <= b).
Proof.
  intros Hl b Hb. destruct l as [|c l _] using rev_ind; [done|]. apply Forall_app in Hl as [_ Hc]. inversion Hc as [|? ? Hs _]; subst.
  exists c. rewrite last_snoc. split; [done|]. unfold encode in Hb. rewrite flat_map_app in Hb. cbn [flat_map] in Hb. rewrite app_nil_r in Hb.
  rewrite last_app in Hb. apply (encode_char_bytes c b Hs). destruct (last (encode_char c)) as [x|] eqn:E.
  - injection Hb as ->. by apply last_Some_elem_of.
  - apply last_None in E. unfold encode_char in E. by repeat case_bool.
Qed.

(** ** A line that is read as it stands *)

Definition line_ok (line : text) : Prop :=
  Forall scalar line /\ 10 ∉ line /\ line <> [] /\ ends_free is_whitespace line /\ head line <> Some 65279.

Section lines.
Context `{Unicode}.

Lemma apply_line_plain s line : line_ok line -> apply_line s (strip_carriage_return (encode line)) = cue_line line s.
Proof.
  intros (Hs & _ & Hne & Hends & Hbom). unfold strip_carriage_return. rewrite bool_decide_eq_false_2.
  - unfold apply_line. rewrite decode_encode by done. unfold trim_text. rewrite trim_id by done. destruct line as [|c line]; [done|].
    unfold BOM. cbn [strip_prefix]. destruct (Z.eqb_spec 65279 c) as [<-|_]; [by destruct Hbom|done].
  - intros E. destruct (encode_last _ Hs _ E) as (c & Hc & [<-|?]); [|lia]. by specialize (proj2 Hends _ Hc).
Qed.

Lemma raw_lines_cut line l rest : 10 ∉ l -> raw_lines line (l ++ 10 :: rest) = (line ++ l) :: raw_lines [] rest.
Proof.
  revert line. induction l as [|b l IH]; intros line Hl; cbn [app raw_lines]; [by rewrite app_nil_r|].
  apply not_elem_of_cons in Hl as [Hb Hl]. destruct (Z.eqb_spec b 10); [by subst|]. rewrite IH by done. by rewrite <- app_assoc.
Qed.

Definition file_of_lines (lines : list text) : bytes := flat_map (fun line => encode line ++ [10]) lines.

Lemma encode_no_feed line : Forall scalar line -> 10 ∉ line -> 10 ∉ encode line.
Proof.
  intros Hs Hl Hin. unfold encode in Hin. apply list_elem_of_In, in_flat_map in Hin as (c & Hc & Hb).
  apply list_elem_of_In in Hc, Hb. destruct (encode_char_bytes c 10) as [<-|?]; [by apply (proj1 (Forall_forall _ _) Hs)|done|done|lia].
Qed.

Lemma cue_of_lines lines : Forall line_ok lines -> Forall (fun line => len (encode line) < MAX_SCANNER_BUFFER) lines ->
  cue_of (file_of_lines lines) = sheet_of (fold_left (fun s line => cue_line line s) lines start).
Proof.
  intros Hok Hlen. unfold cue_of.
  assert (raw_lines [] (file_of_lines lines) = map encode lines) as ->.
  { clear Hlen. induction Hok as [|line lines (Hs & Hf & _) _ IH]; [done|]. unfold file_of_lines in *. cbn [flat_map map].
    rewrite <- app_assoc. cbn [app]. rewrite raw_lines_cut by by apply encode_no_feed. by rewrite IH. }
  assert (forallb short (map encode lines) = true) as ->.
  { apply forallb_forall. intros l (line & <- & Hin)%in_map_iff. apply list_elem_of_In in Hin. apply Z.ltb_lt.
    by apply (proj1 (Forall_forall _ _) Hlen). }
  f_equal. generalize start. clear Hlen. induction Hok as [|line lines Hl _ IH]; intros s; [done|]. cbn [map fold_left].
  by rewrite apply_line_plain, IH.
Qed.
End lines.

(** ** The parts of a line *)

Definition quote (v : text) : text := QUOTE :: v ++ [QUOTE].
Definition quotable (v : text) : Prop := Forall scalar v /\ 10 ∉ v /\ QUOTE ∉ v.

(** A text that stands without quotes. *)
Definition bare (v : text) : Prop := Forall scalar v /\ 10 ∉ v /\ v <> [] /\ ends_free is_whitespace v.

Lemma quote_ends v : ends_free is_whitespace (quote v).
Proof. split; intros c; unfold quote; [by intros [= <-]|]. change (QUOTE :: v ++ [QUOTE]) with ((QUOTE :: v) ++ [QUOTE]). rewrite last_snoc. by intros [= <-]. Qed.

Lemma find_char_app c l r : c ∉ l -> find_char c (l ++ c :: r) = Some (length l).
Proof. intros Hc. apply position_of_app. by rewrite <- list_elem_of_In. Qed.

Lemma unquote_quote v : QUOTE ∉ v -> unquote (quote v) = v.
Proof.
  intros Hv. unfold unquote, trim_text. rewrite trim_id by apply quote_ends. change (find_char QUOTE (quote v)) with (Some 0%nat). cbv iota.
  change (drop 1 (quote v)) with (v ++ [QUOTE]). rewrite find_char_app by done. by rewrite take_app_length.
Qed.

(** The commands differ within their lengths. *)
Definition clash (a b : string) : bool := existsb (fun e => negb (lower_byte e.1 =? lower_byte e.2)) (zip (lit a) (lit b)).

Lemma command_rest_clash a b x : clash a b = true -> command_rest (lit a ++ x) b = None.
Proof.
  unfold command_rest, clash. generalize (lit a) as la, (lit b) as lb. intros la lb Hc.
  assert (same_letters (take (length lb) (la ++ x)) lb = false) as ->; [|by rewrite andb_false_r].
  apply bool_decide_eq_false_2. revert lb Hc. induction la as [|c la IH]; intros [|d lb]; cbn; try done.
  rewrite orb_true_iff, negb_true_iff, Z.eqb_neq. intros [Hne|Hc] [= Hcd Hrest]; [done|]. by apply (IH lb Hc).
Qed.

Lemma command_rest_same a x : command_rest (lit a ++ x) a = Some x.
Proof.
  unfold command_rest. rewrite length_app, (proj2 (Nat.leb_le _ _)), take_app_length, drop_app_length by lia.
  unfold same_letters. by rewrite bool_decide_eq_true_2.
Qed.

Lemma parse_rem_none line : text_starts_with line (lit "REM ") = false -> parse_rem line = None.
Proof. unfold parse_rem. by intros ->. Qed.

(** *** Words *)

Definition solid_text (w : text) : Prop := w <> [] /\ Forall (fun c => is_whitespace c = false) w.

Lemma split_word word w rest : word ++ w <> [] -> Forall (fun c => is_whitespace c = false) w ->
  split_words word (w ++ 32 :: rest) = (word ++ w) :: split_words [] rest /\ split_words word w = [word ++ w].
Proof.
  intros Hne Hw. revert word Hne. induction Hw as [|c w Hc _ IH]; intros word Hne; cbn [app split_words].
  - rewrite app_nil_r in *. by destruct word.
  - rewrite Hc. replace (word ++ c :: w) with ((word ++ [c]) ++ w) by (by rewrite <- app_assoc). apply IH. by destruct word.
Qed.

Lemma split_three a b c : solid_text a -> solid_text b -> solid_text c ->
  split_whitespace (a ++ 32 :: b ++ 32 :: c) = [a; b; c].
Proof.
  intros [Ha Ha'] [Hb Hb'] [Hc Hc']. unfold split_whitespace. rewrite (proj1 (split_word [] a _ Ha Ha')).
  rewrite (proj1 (split_word [] b _ Hb Hb')). by rewrite (proj2 (split_word [] c [] Hc Hc')).
Qed.

(** *** Numbers *)

Definition two_string (n : Z) : string := if n <? 10 then ("0" ++ decimal n)%string else decimal n.
Definition two (n : Z) : text := lit (two_string n).
Definition in_cue (n : Z) : Prop := 0 <= n <= i64_max.

Lemma two_digits n : 0 <= n -> exists l, chars (two_string n) = l /\ l <> [] /\ Forall is_digit l /\ digits_of 0 l = n.
Proof.
  intros Hn. destruct (Z.eq_dec n 0) as [->|Hne]; [eexists; split_conj; [reflexivity|done|repeat constructor; eexists; reflexivity|reflexivity]|].
  destruct (decimal_digits n) as (l & Hl & Hnil & Hd & Hv); [lia|]. unfold two_string. destruct (n <? 10); [|eauto]. rewrite chars_app, Hl. eexists. split_conj; [done|done| |done].
  constructor; [by eexists|done].
Qed.

Lemma digit_byte a : is_digit a -> 48 <= Z.of_nat (Ascii.nat_of_ascii a) <= 57.
Proof. intros [d Hd]. unfold digit_value in Hd. cbv zeta in Hd. case_match eqn:E; [|done]. lia. Qed.

Lemma two_chars n : 0 <= n -> two n <> [] /\ Forall (fun c => 48 <= c <= 57) (two n).
Proof.
  intros Hn. destruct (two_digits n Hn) as (l & Hl & Hne & Hd & _). unfold two, lit, str_bytes. rewrite Hl. split; [by destruct l|].
  apply Forall_map. eapply Forall_impl; [exact Hd|]. intros a. apply digit_byte.
Qed.

Lemma text_of_lit s : Forall ascii_byte (lit s) -> text_of (lit s) = s.
Proof. intros Hs. unfold text_of, lit in *. by rewrite encode_ascii, bytes_to_str_bytes. Qed.

Lemma parse_two n : in_cue n -> parse_number (two n) = n.
Proof.
  intros [Hn Hmax]. unfold parse_number. unfold two. rewrite text_of_lit.
  - destruct (two_digits n Hn) as (l & Hl & Hne & Hd & Hv). unfold parse_i64, parse_int. rewrite Hl. destruct l as [|a l]; [done|].
    pose proof (digit_byte a (Forall_inv Hd)) as Ha.
    destruct (Ascii.eqb_spec a (ascii_of_nat 45)) as [->|_]; [by destruct Ha|]. destruct (Ascii.eqb_spec a (ascii_of_nat 43)) as [->|_]; [by destruct Ha|].
    rewrite parse_nat_digits, Hv by done. unfold i64_min, i64_max in *. rewrite (proj2 (Z.leb_le _ _)), (proj2 (Z.leb_le _ _)) by lia. done.
  - eapply Forall_impl; [apply (two_chars n Hn)|]. intros c. unfold ascii_byte. lia.
Qed.

Lemma digit_solid c : 48 <= c <= 58 -> is_whitespace c = false.
Proof. intros Hc. unfold is_whitespace, any_of, in_range. cbn [existsb]. lia. Qed.

Lemma two_solid n : 0 <= n -> solid_text (two n).
Proof. intros Hn. destruct (two_chars n Hn) as [Hne Hd]. split; [done|]. eapply Forall_impl; [exact Hd|]. intros c Hc. cbv beta in Hc. apply digit_solid. lia. Qed.

(** *** Times *)

Definition Time : Type := Z * Z * Z.
Definition time_ok (t : Time) : Prop := let '(m, s, f) := t in in_cue m /\ in_cue s /\ in_cue f.
Definition time_text (t : Time) : text := let '(m, s, f) := t in two m ++ 58 :: two s ++ 58 :: two f.
(** Minutes, seconds and frames of a 75th of a second. *)
Definition time_of (t : Time) : f64 :=
  let '(m, s, f) := t in f64_add (f64_add (f64_mul (f64_of m) (f64_of 60)) (f64_of s)) (f64_div (f64_of f) (f64_of 75)).

Lemma two_no_colon n : 0 <= n -> Forall (fun c => c <> 58) (two n).
Proof. intros Hn. eapply Forall_impl; [apply (two_chars n Hn)|]. intros c Hc. cbv beta in Hc. lia. Qed.

Lemma timestamp_text t : time_ok t -> timestamp (time_text t) = time_of t.
Proof.
  destruct t as [[m s] f]. intros (Hm & Hs & Hf). unfold timestamp, time_text, time_of. unfold in_cue in *.
  rewrite !split_all_app, !split_all_whole by (apply two_no_colon; lia). cbn [app]. by rewrite !parse_two.
Qed.

Lemma time_chars t : time_ok t -> time_text t <> [] /\ Forall (fun c => 48 <= c <= 58) (time_text t).
Proof.
  destruct t as [[m s] f]. intros (Hm & Hs & Hf). unfold in_cue in *.
  assert (forall n, 0 <= n -> Forall (fun c => 48 <= c <= 58) (two n)) as Htwo.
  { intros n Hn. eapply Forall_impl; [apply (two_chars n Hn)|]. intros c Hc. cbv beta in Hc. lia. }
  unfold time_text. split; [destruct (two m); done|]. rewrite !Forall_app, !Forall_cons. rewrite !Forall_app, !Forall_cons.
  split_conj; try lia; apply Htwo; lia.
Qed.

(** ** A sheet as it is written *)

Record TrackText := mkTrackText {
  t_number : Z; t_title : text; t_performer : text; t_songwriter : text; t_isrc : option text; t_gap : option Time; t_start : Time }.
Record SheetText := mkSheetText {
  s_performer : text; s_title : text; s_genre : text; s_date : text; s_comment : text; s_composer : text;
  s_file : text; s_type : text; s_tracks : list TrackText }.

Definition index_text (index : Z) (t : Time) : text := lit "INDEX" ++ 32 :: two index ++ 32 :: time_text t.

Definition print_track (t : TrackText) : list text :=
  [lit "TRACK" ++ 32 :: two (t_number t) ++ 32 :: lit "AUDIO"; lit "TITLE " ++ quote (t_title t);
   lit "PERFORMER " ++ quote (t_performer t); lit "SONGWRITER " ++ quote (t_songwriter t)]
  ++ match t_isrc t with Some code => [lit "ISRC " ++ code] | None => [] end
  ++ match t_gap t with Some gap => [index_text 0 gap] | None => [] end
  ++ [index_text 1 (t_start t)].

Definition print (s : SheetText) : list text :=
  [lit "PERFORMER " ++ quote (s_performer s); lit "TITLE " ++ quote (s_title s); lit "REM GENRE " ++ quote (s_genre s);
   lit "REM DATE " ++ quote (s_date s); lit "REM COMMENT " ++ quote (s_comment s); lit "REM COMPOSER " ++ quote (s_composer s);
   lit "FILE " ++ quote (s_file s) ++ 32 :: s_type s]
  ++ flat_map print_track (s_tracks s).

Definition track_of (t : TrackText) : CueTrack :=
  mkTrack (t_number t) (t_title t) (t_performer t) (default [] (t_isrc t)) (t_songwriter t) (time_of (t_start t))
    (match t_gap t with Some gap => time_of gap | None => f64_of (-1) end).
Definition sheet_in (s : SheetText) : CueSheet :=
  mkSheet (s_performer s) (s_title s) (s_file s) (s_type s) (s_genre s) (s_date s) (s_comment s) (s_composer s) (map track_of (s_tracks s)).

Definition track_ok (t : TrackText) : Prop :=
  in_cue (t_number t) /\ quotable (t_title t) /\ quotable (t_performer t) /\ quotable (t_songwriter t) /\
  (forall code, t_isrc t = Some code -> bare code) /\ (forall gap, t_gap t = Some gap -> time_ok gap) /\ time_ok (t_start t).
Definition sheet_ok (s : SheetText) : Prop :=
  quotable (s_performer s) /\ quotable (s_title s) /\ quotable (s_genre s) /\ quotable (s_date s) /\ quotable (s_comment s) /\
  quotable (s_composer s) /\ quotable (s_file s) /\ bare (s_type s) /\ s_tracks s <> [] /\ Forall track_ok (s_tracks s).

(** *** Its lines *)

Definition plain_command (cmd : string) : bool :=
  forallb (in_range 32 126) (lit cmd) && match lit cmd with c :: _ => negb (c =? 32) | [] => false end.

Lemma line_ok_command cmd x : plain_command cmd = true -> Forall scalar x -> 10 ∉ x -> x <> [] ->
  (forall c, last x = Some c -> is_whitespace c = false) -> line_ok (lit cmd ++ x).
Proof.
  unfold plain_command. intros [Hc Hh]%andb_true_iff Hs Hf Hne Hl. rewrite forallb_forall in Hc.
  assert (forall c, c ∈ lit cmd -> 32 <= c <= 126) as Hcmd.
  { intros c Hin. specialize (Hc c ltac:(by apply list_elem_of_In)). unfold in_range in Hc. lia. }
  destruct (lit cmd) as [|b l] eqn:E; [done|]. apply negb_true_iff, Z.eqb_neq in Hh. pose proof (Hcmd b ltac:(left)) as Hb. unfold line_ok. split_conj.
  - apply Forall_app. split; [|done]. apply Forall_forall. intros c Hin. specialize (Hcmd c Hin). unfold scalar. lia.
  - rewrite elem_of_app. intros [Hin|?]; [|done]. specialize (Hcmd 10 Hin). lia.
  - done.
  - split; intros c; [intros [= <-]; unfold is_whitespace, any_of, in_range; cbn [existsb]; lia|].
    rewrite last_app. destruct (last x) as [d|] eqn:Ex; [intros [= <-]; by apply Hl|]. by apply last_None in Ex.
  - cbn [app head]. intros [= ->]. lia.
Qed.

Lemma line_ok_quote cmd v : plain_command cmd = true -> quotable v -> line_ok (lit cmd ++ quote v).
Proof.
  intros Hc (Hs & Hf & _). apply line_ok_command; [done| | |done|apply quote_ends].
  - unfold quote. rewrite Forall_cons, Forall_app, Forall_singleton. unfold scalar, QUOTE. split_conj; [lia|done|lia].
  - unfold quote. rewrite elem_of_cons, elem_of_app, list_elem_of_singleton. unfold QUOTE. intuition lia.
Qed.

Lemma small_scalar lo hi l : 10 < lo -> hi < 55296 -> Forall (fun c => lo <= c <= hi) l -> Forall scalar l /\ 10 ∉ l.
Proof.
  intros Hlo Hhi Hl. split; [eapply Forall_impl; [exact Hl|]; intros c Hc; cbv beta in Hc; unfold scalar; lia|].
  intros Hin. apply (proj1 (Forall_forall _ _) Hl) in Hin. lia.
Qed.

Lemma line_ok_index index t : 0 <= index -> time_ok t -> line_ok (index_text index t).
Proof.
  intros Hi Ht. destruct (time_chars t Ht) as [Hne Htime]. destruct (two_chars index Hi) as [_ Htwo].
  assert (Forall (fun c => 32 <= c <= 58) (32 :: two index ++ 32 :: time_text t)) as Hall.
  { apply Forall_cons; split; [lia|]. apply Forall_app; split; [eapply Forall_impl; [exact Htwo|]; cbv beta; lia|].
    apply Forall_cons; split; [lia|]. eapply Forall_impl; [exact Htime|]; cbv beta; lia. }
  unfold index_text. destruct (small_scalar 32 58 _ ltac:(lia) ltac:(lia) Hall) as [Hs Hf].
  apply line_ok_command; [done|done|done|done|]. intros c Hc. apply digit_solid.
  change (32 :: two index ++ 32 :: time_text t) with ([32] ++ two index ++ [32] ++ time_text t) in Hc. rewrite !app_assoc, last_app in Hc.
  destruct (last (time_text t)) as [d|] eqn:E; [|by apply last_None in E]. injection Hc as ->. apply last_Some_elem_of in E.
  apply (proj1 (Forall_forall _ _) Htime) in E. lia.
Qed.

Lemma track_lines_ok t : track_ok t -> Forall line_ok (print_track t).
Proof.
  intros (Hn & Ht & Hp & Hw & Hi & Hg & Hs). unfold print_track. rewrite !Forall_app, !Forall_cons, Forall_nil. split_conj;
    try done; try by apply line_ok_quote.
  - assert (Forall (fun c => 32 <= c <= 90) (32 :: two (t_number t) ++ 32 :: lit "AUDIO")) as Hall.
    { apply Forall_cons; split; [lia|]. apply Forall_app; split; [eapply Forall_impl; [apply (two_chars _ (proj1 Hn))|]; cbv beta; lia|].
      apply Forall_cons; split; [lia|]. repeat constructor; discriminate. }
    destruct (small_scalar 32 90 _ ltac:(lia) ltac:(lia) Hall) as [Hall1 Hall2]. apply line_ok_command; [done|done|done|done|].
    intros c. change (32 :: two (t_number t) ++ 32 :: lit "AUDIO") with ((32 :: two (t_number t)) ++ 32 :: lit "AUDIO").
    rewrite last_app. by intros [= <-].
  - destruct (t_isrc t) as [code|]; [|constructor]. apply Forall_singleton. destruct (Hi code eq_refl) as (? & ? & ? & Hends).
    apply line_ok_command; try done. apply Hends.
  - destruct (t_gap t) as [gap|]; [|constructor]. apply Forall_singleton. apply line_ok_index; [done|]. by apply Hg.
  - by apply line_ok_index.
Qed.

Lemma sheet_lines_ok s : sheet_ok s -> Forall line_ok (print s).
Proof.
  intros (Hp & Ht & Hg & Hd & Hc & Hco & (Hfs & Hff & Hfq) & (Hys & Hyf & Hyn & Hye) & _ & Htr). unfold print.
  rewrite !Forall_app, !Forall_cons, Forall_nil. split_conj; try done; try by apply line_ok_quote.
  - apply line_ok_command; [done|..|intros c; rewrite last_app].
    + unfold quote. cbn [app]. repeat first [apply Forall_cons; split|apply Forall_app; split|done]; unfold scalar, QUOTE; lia.
    + unfold quote, QUOTE. rewrite elem_of_app, elem_of_cons, elem_of_app, list_elem_of_singleton, elem_of_cons. intuition lia.
    + done.
    + rewrite last_cons. destruct (last (s_type s)) as [d|] eqn:E; [intros [= <-]; by apply Hye|]. by apply last_None in E.
  - apply flat_map_Forall. intros t Hin. apply track_lines_ok. apply list_elem_of_In in Hin. by apply (proj1 (Forall_forall _ _) Htr).
Qed.

(** *** What its lines do *)

Section effects.
Context `{Unicode}.

Ltac cue_command :=
  unfold cue_line; rewrite parse_rem_none by reflexivity; repeat rewrite command_rest_clash by reflexivity; rewrite command_rest_same.

Lemma performer_line v s : quotable v -> cue_line (lit "PERFORMER " ++ quote v) s = apply_to (set_track_performer v) (set_performer v) s.
Proof. intros (_ & _ & Hv). cue_command. by rewrite unquote_quote. Qed.
Lemma title_line v s : quotable v -> cue_line (lit "TITLE " ++ quote v) s = apply_to (set_track_title v) (set_title v) s.
Proof. intros (_ & _ & Hv). cue_command. by rewrite unquote_quote. Qed.
Lemma songwriter_line v s : quotable v -> cue_line (lit "SONGWRITER " ++ quote v) s = apply_to (set_track_composer v) (set_composer v) s.
Proof.
  intros (_ & _ & Hv). cue_command. rewrite unquote_quote by done. by destruct s as [sh [t|]].
Qed.
Lemma isrc_line code s : bare code -> cue_line (lit "ISRC " ++ code) s = apply_to (set_isrc code) same s.
Proof.
  intros (_ & _ & _ & He). cue_command. unfold trim_text. rewrite trim_id by done. by destruct s as [sh [t|]].
Qed.

Lemma file_line name type s : quotable name -> bare type ->
  cue_line (lit "FILE " ++ quote name ++ 32 :: type) s = on_sheet (set_file (name, type)) s.
Proof.
  intros (_ & _ & Hn) (_ & _ & Hne & He). cue_command. do 2 f_equal. unfold parse_file_line.
  assert (trim_text (quote name ++ 32 :: type) = QUOTE :: name ++ QUOTE :: 32 :: type) as ->.
  { unfold trim_text. rewrite trim_id; [unfold quote; cbn [app]; by rewrite <- app_assoc|]. split; intros c; [by intros [= <-]|].
    rewrite last_app, last_cons. destruct (last type) as [d|] eqn:E; [intros [= <-]; by apply He|]. by apply last_None in E. }
  change (strip_prefix [QUOTE] (QUOTE :: ?l)) with (Some l). cbv iota. rewrite find_char_app by done. rewrite take_app_length.
  change (name ++ QUOTE :: 32 :: type) with (name ++ [QUOTE] ++ 32 :: type). rewrite app_assoc.
  rewrite drop_app_length' by (rewrite length_app; cbn [length]; lia). change (trim_text (32 :: type)) with (trim_text type).
  unfold trim_text. by rewrite trim_id.
Qed.

Lemma to_upper_plain key : forallb (in_range 65 90) (lit key) = true -> to_upper (lit key) = lit key.
Proof.
  rewrite forallb_forall. generalize (lit key) as l. intros l Hl. unfold to_upper. induction l as [|c l IH]; [done|]. cbn [flat_map].
  rewrite IH by (intros x Hx; apply Hl; by right). specialize (Hl c ltac:(by left)). unfold in_range in Hl.
  rewrite to_uppercase_ascii by lia. unfold in_range. rewrite (proj2 (Z.leb_gt 97 c)) by lia. done.
Qed.

Lemma rem_lines v s : quotable v ->
  cue_line (lit "REM GENRE " ++ quote v) s = on_sheet (set_genre v) s /\
  cue_line (lit "REM DATE " ++ quote v) s = on_sheet (set_date v) s /\
  cue_line (lit "REM COMMENT " ++ quote v) s = on_sheet (set_comment v) s /\
  cue_line (lit "REM COMPOSER " ++ quote v) s = apply_to (set_track_composer v) (set_composer v) s.
Proof.
  intros (_ & _ & Hv). unfold cue_line.
  change (parse_rem (lit "REM GENRE " ++ quote v)) with (Some (lit "GENRE", quote v)).
  change (parse_rem (lit "REM DATE " ++ quote v)) with (Some (lit "DATE", quote v)).
  change (parse_rem (lit "REM COMMENT " ++ quote v)) with (Some (lit "COMMENT", quote v)).
  change (parse_rem (lit "REM COMPOSER " ++ quote v)) with (Some (lit "COMPOSER", quote v)).
  cbv iota beta. unfold rem_line. rewrite unquote_quote, !to_upper_plain by done. done.
Qed.

Lemma track_line n s : in_cue n ->
  cue_line (lit "TRACK" ++ 32 :: two n ++ 32 :: lit "AUDIO") s = mkState (sheet (finish_track s)) (Some (new_track n)).
Proof.
  intros Hn. assert (track_number (lit "TRACK" ++ 32 :: two n ++ 32 :: lit "AUDIO") = n) as Htrack.
  { unfold track_number. rewrite split_three; [by apply parse_two| |apply two_solid, Hn|]; (split; [done|repeat constructor]). }
  change (lit "TRACK" ++ 32 :: two n ++ 32 :: lit "AUDIO") with (lit "TRACK " ++ two n ++ 32 :: lit "AUDIO") in *.
  cue_command. by rewrite Htrack.
Qed.

Lemma index_line_text index time sh t : 0 <= index <= 1 -> time_ok time ->
  cue_line (index_text index time) (mkState sh (Some t)) =
  mkState sh (Some (if index =? 0 then set_pre_gap (time_of time) t else set_start_time (time_of time) t)).
Proof.
  intros Hi Ht. assert (index_line (index_text index time) t =
    if index =? 0 then set_pre_gap (time_of time) t else set_start_time (time_of time) t) as Hline.
  { unfold index_line, index_text. rewrite split_three; [| |by apply two_solid; lia|].
    - rewrite parse_two, timestamp_text by (done || unfold in_cue, i64_max; lia). destruct (Z.eqb_spec index 0); [done|].
      by replace index with 1 by lia.
    - split; [done|]. by repeat apply Forall_cons_2.
    - destruct (time_chars time Ht) as [Hne Hc]. split; [done|]. eapply Forall_impl; [exact Hc|]. intros c. apply digit_solid. }
  unfold index_text in *. change (lit "INDEX" ++ 32 :: ?l) with (lit "INDEX " ++ l) in *.
  cue_command. cbn [current_track sheet]. by rewrite Hline.
Qed.

Definition run (lines : list text) (s : State) : State := fold_left (fun s line => cue_line line s) lines s.

Lemma run_track t s : track_ok t -> run (print_track t) s = mkState (sheet (finish_track s)) (Some (track_of t)).
Proof.
  intros (Hn & Ht & Hp & Hw & Hi & Hg & Hs). unfold run, print_track. rewrite !fold_left_app. cbn [fold_left].
  rewrite track_line, title_line, performer_line, songwriter_line by done. set (sh := sheet (finish_track s)).
  destruct t as [n title performer songwriter code gap time]. cbn [t_number t_title t_performer t_songwriter t_isrc t_gap t_start] in *.
  destruct code as [code|]; cbn [fold_left]; [rewrite isrc_line by (by apply Hi)|];
    (destruct gap as [gap|]; cbn [fold_left]; cbn [apply_to current_track sheet];
     [rewrite index_line_text by (lia || by apply Hg)|]; by rewrite index_line_text by done).
Qed.

Definition add_tracks (ts : list CueTrack) (sh : CueSheet) : CueSheet :=
  mkSheet (performer sh) (title sh) (file_name sh) (file_type sh) (genre sh) (date sh) (comment sh) (composer sh) (tracks sh ++ ts).

Lemma run_tracks ts s : Forall track_ok ts ->
  sheet (finish_track (run (flat_map print_track ts) s)) = add_tracks (map track_of ts) (sheet (finish_track s)).
Proof.
  intros Hts. revert s. induction Hts as [|t ts Ht _ IH]; intros s.
  - unfold add_tracks. cbn. rewrite app_nil_r. by destruct (sheet (finish_track s)).
  - cbn [flat_map map]. unfold run in *. rewrite fold_left_app, IH. fold (run (print_track t) s). rewrite run_track by done.
    unfold add_tracks. cbn [finish_track current_track sheet push_track tracks performer title file_name file_type genre date comment composer].
    by rewrite <- app_assoc.
Qed.

(** C20: A sheet that is written as other programs write it is read as what it says: its texts, whatever characters
    but quotes and line feeds they hold, its tracks in order with their numbers, texts and codes, and the times
    of their indices in seconds. *)
Theorem cue_print_read s : sheet_ok s -> Forall (fun line => len (encode line) < MAX_SCANNER_BUFFER) (print s) ->
  cue_of (file_of_lines (print s)) = Ok (sheet_in s).
Proof.
  intros Hok Hlen. rewrite cue_of_lines by (done || by apply sheet_lines_ok). fold (run (print s) start).
  destruct Hok as (Hp & Ht & Hg & Hd & Hc & Hco & Hf & Hy & Hne & Htr). unfold sheet_of, print, run. rewrite fold_left_app. cbn [fold_left].
  rewrite performer_line, title_line by done. rewrite (proj1 (rem_lines _ _ Hg)), (proj1 (proj2 (rem_lines _ _ Hd))) by done.
  rewrite (proj1 (proj2 (proj2 (rem_lines _ _ Hc)))), (proj2 (proj2 (proj2 (rem_lines _ _ Hco)))), file_line by done.
  rewrite run_tracks by done. cbn. destruct s as [p t g d c co f y ts]. cbn in *. by destruct ts.
Qed.
End effects.

(** ** An example *)

Module CueExample.
#[refine] Instance ascii_case : Unicode := {
  to_uppercase c := [if in_range 97 122 c then c - 32 else c];
  to_lowercase c := [if in_range 65 90 c then c + 32 else c] }.
Proof. all: done. Defined.

Definition album : SheetText :=
  mkSheetText (lit "Band") (lit "Live") (lit "Jazz") (lit "1999") (lit "") (lit "Writer") (lit "live.flac") (lit "WAVE")
    [mkTrackText 1 [83; 228; 110; 103; 13] (lit "Band") (lit "") (Some (lit "SE1234567890")) None (0, 0, 0);
     mkTrackText 12 (lit "Two words") (lit "Guest") (lit "") None (Some (3, 59, 74)) (4, 0, 30)].

Lemma quotable_ascii v : forallb (fun c => in_range 0 55295 c && negb (c =? 10) && negb (c =? QUOTE)) v = true -> quotable v.
Proof.
  rewrite forallb_forall. intros Hv. unfold quotable, in_range in *. split_conj.
  - apply List.Forall_forall. intros c Hc%Hv. unfold scalar. lia.
  - intros Hin%list_elem_of_In%Hv. lia.
  - intros Hin%list_elem_of_In%Hv. unfold QUOTE in *. lia.
Qed.

Lemma bare_ascii v : forallb (fun c => in_range 33 126 c) v = true -> v <> [] -> bare v.
Proof.
  rewrite forallb_forall. intros Hv Hne. unfold in_range in Hv.
  assert (forall c, c ∈ v -> 33 <= c <= 126) as Hc by (intros c Hin%list_elem_of_In%Hv; lia).
  assert (forall c, c ∈ v -> is_whitespace c = false) as Hw.
  { intros c Hin%Hc. unfold is_whitespace, any_of, in_range. cbn [existsb]. lia. }
  unfold bare. split_conj; [apply Forall_forall; intros c Hin%Hc; unfold scalar; lia|intros Hin%Hc; lia|done|].
  split; intros c E; apply Hw; [destruct v; [done|]; injection E as ->; left|by apply last_Some_elem_of].
Qed.

Lemma album_ok : sheet_ok album.
Proof.
  assert (forall n, 0 <= n <= 100 -> in_cue n) as Hn by (unfold in_cue, i64_max; lia).
  unfold sheet_ok, album. cbn [s_performer s_title s_genre s_date s_comment s_composer s_file s_type s_tracks].
  do 7 (split; [apply quotable_ascii; reflexivity|]). split; [by apply bare_ascii|]. split; [done|].
  repeat apply Forall_cons_2; [..|constructor]; unfold track_ok; cbn [t_number t_title t_performer t_songwriter t_isrc t_gap t_start];
    (split; [apply Hn; lia|]); do 3 (split; [apply quotable_ascii; reflexivity|]); split_conj.
  - intros code [= <-]. by apply bare_ascii.
  - done.
  - unfold time_ok. split_conj; apply Hn; lia.
  - done.
  - intros gap [= <-]. unfold time_ok. split_conj; apply Hn; lia.
  - unfold time_ok. split_conj; apply Hn; lia.
Qed.

Lemma cue_print_read_witness : cue_of (file_of_lines (print album)) = Ok (sheet_in album).
Proof.
  apply cue_print_read; [exact album_ok|]. repeat (apply Forall_cons_2; [vm_compute; reflexivity|]). constructor.
Defined.
End CueExample.
