(* ===== verification/Paths.v ===== *)
(** * Paths: [std::path] of Unix, and [clean] of [crates/core/src/fs.rs]

    A path is its components.  [display] is its text, whose components are the path again. *)

From S2P Require Import Prelude CharText.

Inductive Component := RootDir | CurDir | ParentDir | Normal (name : text).
#[export] Instance component_eq_dec : EqDecision Component.
Proof. solve_decision. Defined.

Abbreviation Path := (list Component).

Definition SLASH : Z := 47.
Definition dot : text := lit ".".
Definition dots : text := lit "..".

(** A part between slashes: empty parts and dots do not count. *)
Definition part_component (part : text) : list Component :=
  if bool_decide (part = []) || bool_decide (part = dot) then []
  else if bool_decide (part = dots) then [ParentDir]
  else [Normal part].

(** [Path::components]: a dot counts where a relative path begins. *)
Definition components (path : text) : Path :=
  let parts := split_all SLASH path in
  if text_starts_with path [SLASH] then RootDir :: flat_map part_component parts
  else match parts with
       | first :: parts => (if bool_decide (first = dot) then [CurDir] else part_component first) ++ flat_map part_component parts
       | [] => []
       end.

Definition has_root (p : Path) : bool := bool_decide (head p = Some RootDir).
Definition file_name (p : Path) : option text := match last p with Some (Normal name) => Some name | _ => None end.

(** [PathBuf::push] of a component, [PathBuf::pop] of a name, [Path::join]. *)
Definition push (p : Path) (c : Component) : Path := if bool_decide (c = RootDir) then [RootDir] else p ++ [c].
Definition pop (p : Path) : Path := removelast p.
Definition join (p q : Path) : Path := if has_root q then q else p ++ q.

(** [Path::strip_prefix] and [Path::starts_with]. *)
Fixpoint strip_path (root p : Path) : option Path :=
  match root, p with
  | [], _ => Some p
  | c :: root, d :: p => if decide (c = d) then strip_path root p else None
  | _, [] => None
  end.
Definition path_starts_with (p root : Path) : bool := bool_decide (is_Some (strip_path root p)).

(** [clean]. *)
Definition clean_step (result : Path) (c : Component) : Path :=
  match c with
  | CurDir => result
  | ParentDir =>
    match file_name result with
    | Some _ => pop result
    | None => if has_root result then result else push result ParentDir
    end
  | _ => push result c
  end.
Definition clean (p : Path) : Path :=
  match fold_left clean_step p [] with [] => [CurDir] | result => result end.

(** The text of a path. *)
Definition component_text (c : Component) : text :=
  match c with RootDir => [] | CurDir => dot | ParentDir => dots | Normal name => name end.
Definition display (p : Path) : text :=
  match p with
  | [RootDir] => [SLASH]
  | _ => CharText.join [SLASH] (map component_text p)
  end.

Example clean_ex : map (fun s => display (clean (components (lit s))))
    [""; "./"; "../.."; "a/.."; "a/b/../../.."; "a//b///c/"; "/.."; "/a/b/../c/./d/"; "//a"; "a/.../.."; "..a/../b"]%string =
  map lit ["."; "."; "../.."; "."; ".."; "a/b/c"; "/"; "/a/c/d"; "/a"; "a"; "b"]%string.
Proof. vm_compute. reflexivity. Qed.

(** ** What a path names *)

(** Where the names lead from a directory, by its names from the root: two dots lead to the parent, and at the root
    stay. *)
Fixpoint walk (at_ : list text) (p : Path) : list text :=
  match p with
  | [] => at_
  | RootDir :: p => walk [] p
  | CurDir :: p => walk at_ p
  | ParentDir :: p => walk (removelast at_) p
  | Normal name :: p => walk (at_ ++ [name]) p
  end.

Definition name_ok (name : text) : Prop := name <> [] /\ name <> dot /\ name <> dots /\ Forall (fun c => c <> SLASH) name.
Definition component_ok (c : Component) : Prop := match c with Normal name => name_ok name | _ => True end.

(** An absolute path in its cleaned form. *)
Definition absolute_path (names : list text) : Path := RootDir :: map Normal names.

Lemma part_component_ok part : Forall (fun c => c <> SLASH) part -> Forall component_ok (part_component part).
Proof.
  intros Hp. unfold part_component. case_bool_decide; [constructor|]. case_bool_decide; [constructor|]. cbn [orb].
  case_bool_decide; constructor; try constructor; done.
Qed.

Lemma components_ok path : Forall component_ok (components path).
Proof.
  unfold components. pose proof (split_all_parts SLASH path) as Hparts.
  assert (forall parts, Forall (Forall (fun c => c <> SLASH)) parts -> Forall component_ok (flat_map part_component parts)) as Hmap.
  { intros parts Hp. apply flat_map_Forall. intros part Hin. apply part_component_ok. apply list_elem_of_In in Hin.
    by apply (proj1 (Forall_forall _ _) Hp). }
  destruct (text_starts_with path [SLASH]); [constructor; [done|by apply Hmap]|].
  destruct (split_all SLASH path) as [|first parts]; [constructor|]. apply Forall_cons in Hparts as [Hf Hp].
  apply Forall_app. split; [|by apply Hmap]. case_bool_decide; [by repeat constructor|by apply part_component_ok].
Qed.

Lemma removelast_map {A B} (f : A -> B) l : removelast (map f l) = map f (removelast l).
Proof. induction l as [|a [|b l] IH]; [done|done|]. cbn [map removelast] in *. by rewrite IH. Qed.

(** Cleaning an absolute path gives the path of the names it leads to. *)
Lemma clean_absolute_from names p : RootDir ∉ p ->
  fold_left clean_step p (absolute_path names) = absolute_path (walk names p).
Proof.
  unfold absolute_path. revert names. induction p as [|c p IH]; intros names Hp; [done|]. apply not_elem_of_cons in Hp as [Hc Hp].
  cbn [fold_left walk]. destruct c as [| | |name]; [done|by apply IH| |].
  - rewrite <- IH by done. f_equal. cbn [clean_step]. unfold file_name, pop. destruct names as [|n names _] using rev_ind; [done|].
    rewrite map_app. cbn [map]. rewrite removelast_last. change (RootDir :: map Normal names ++ [Normal n]) with ((RootDir :: map Normal names) ++ [Normal n]).
    rewrite last_snoc, removelast_last. done.
  - rewrite <- IH by done. f_equal. cbn [clean_step]. unfold push. rewrite bool_decide_eq_false_2 by done. by rewrite map_app.
Qed.

Lemma clean_absolute p : RootDir ∉ p -> clean (RootDir :: p) = absolute_path (walk [] p).
Proof.
  intros Hp. unfold clean. cbn [fold_left]. change (clean_step [] RootDir) with (absolute_path []). by rewrite clean_absolute_from.
Qed.

(** ** Paths and their texts *)

Lemma split_join c names : names <> [] -> Forall (Forall (fun b => b <> c)) names -> split_all c (CharText.join [c] names) = names.
Proof.
  intros Hne Hn. induction Hn as [|n names Hn Hns IH]; [done|]. destruct names as [|m names]; [by apply split_all_whole|].
  change (CharText.join [c] (n :: m :: names)) with (n ++ [c] ++ CharText.join [c] (m :: names)). cbn [app].
  by rewrite split_all_app, split_all_whole, IH by done.
Qed.

Lemma part_component_name name : name_ok name -> part_component name = [Normal name].
Proof. intros (H1 & H2 & H3 & _). unfold part_component. by rewrite !bool_decide_eq_false_2. Qed.

Lemma part_components names : Forall name_ok names -> flat_map part_component names = map Normal names.
Proof. induction 1 as [|n names Hn _ IH]; [done|]. cbn [flat_map map]. by rewrite part_component_name, IH. Qed.

Lemma names_no_slash names : Forall name_ok names -> Forall (Forall (fun c => c <> SLASH)) names.
Proof. intros Hn. eapply Forall_impl; [exact Hn|]. by intros n (_ & _ & _ & ?). Qed.

Lemma components_relative names : Forall name_ok names -> components (display (map Normal names)) = map Normal names.
Proof.
  intros Hn. destruct names as [|n names]; [done|]. assert (display (map Normal (n :: names)) = CharText.join [SLASH] (n :: names)) as ->.
  { unfold display. cbn [map component_text]. rewrite map_map. cbn [component_text]. by rewrite map_id. }
  unfold components. rewrite split_join by (done || by apply names_no_slash). pose proof Hn as Hall. apply Forall_cons in Hn as [Hn Hns].
  assert (text_starts_with (CharText.join [SLASH] (n :: names)) [SLASH] = false) as ->.
  { apply not_true_iff_false. intros [r Hr]%starts_with_spec. destruct Hn as (Hne & _ & _ & Hs). destruct n as [|c n]; [done|].
    apply Forall_cons in Hs as [Hs _]. destruct names; cbn in Hr; injection Hr as E _; by destruct Hs. }
  rewrite bool_decide_eq_false_2 by apply Hn. rewrite part_component_name, part_components by done. done.
Qed.

Lemma components_absolute names : Forall name_ok names -> components (display (absolute_path names)) = absolute_path names.
Proof.
  intros Hn. destruct names as [|n names]; [done|].
  assert (display (absolute_path (n :: names)) = SLASH :: CharText.join [SLASH] (n :: names)) as ->.
  { unfold display, absolute_path. cbn [map component_text]. rewrite map_map. cbn [component_text]. by rewrite map_id. }
  unfold components. change (text_starts_with (SLASH :: ?l) [SLASH]) with true. cbv iota. rewrite split_all_cons.
  rewrite split_join by (done || by apply names_no_slash). cbn [flat_map]. change (part_component []) with (@nil Component). cbn [app].
  change (part_component n ++ flat_map part_component names) with (flat_map part_component (n :: names)). by rewrite part_components.
Qed.

Lemma walk_names names p : Forall name_ok names -> Forall component_ok p -> Forall name_ok (walk names p).
Proof.
  revert names. induction p as [|c p IH]; intros names Hn Hp; [done|]. apply Forall_cons in Hp as [Hc Hp]. destruct c; cbn [walk]; apply IH; try done.
  - destruct names as [|x l _] using rev_ind; [done|]. rewrite removelast_last. by apply Forall_app in Hn as [? _].
  - apply Forall_app. split; [done|]. by constructor.
Qed.

Lemma walk_app at_ p q : walk at_ (p ++ q) = walk (walk at_ p) q.
Proof. revert at_. induction p as [|c p IH]; intros at_; [done|]. destruct c; cbn [app walk]; apply IH. Qed.
Lemma walk_normal at_ names : walk at_ (map Normal names) = at_ ++ names.
Proof. revert at_. induction names as [|n names IH]; intros at_; cbn [map walk]; [by rewrite app_nil_r|]. by rewrite IH, <- app_assoc. Qed.

Lemma strip_path_spec root p q : strip_path root p = Some q <-> p = root ++ q.
Proof.
  revert p. induction root as [|c root IH]; intros p; cbn [strip_path app]; [by split; [intros [= ->]|intros ->]|].
  destruct p as [|d p]; [done|]. destruct (decide (c = d)) as [->|Hne]; [rewrite IH; naive_solver|naive_solver].
Qed.

Lemma strip_absolute base names p : strip_path (absolute_path base) (absolute_path names) = Some p <-> exists rest, names = base ++ rest /\ p = map Normal rest.
Proof.
  rewrite strip_path_spec. unfold absolute_path. cbn [app]. split.
  - intros [= E]. revert names E. induction base as [|b base IH]; intros names E; [exists names; done|].
    destruct names as [|n names]; [done|]. injection E as -> E. destruct (IH _ E) as (rest & -> & ->). by exists rest.
  - intros (rest & -> & ->). by rewrite map_app.
Qed.

(** A root can stand only in front. *)
Lemma components_root path p : components path = RootDir :: p -> RootDir ∉ p.
Proof.
  assert (forall parts, RootDir ∉ flat_map part_component parts) as Hmap.
  { intros parts Hin. apply list_elem_of_In, in_flat_map in Hin as (part & _ & Hin). unfold part_component in Hin.
    destruct (_ || _); [done|]. by case_bool_decide; destruct Hin as [|[]]. }
  unfold components. destruct (text_starts_with _ _); [intros [= <-]; apply Hmap|]. destruct (split_all _ _) as [|first parts]; [done|].
  intros E. exfalso. assert (RootDir ∈ (if bool_decide (first = dot) then [CurDir] else part_component first) ++ flat_map part_component parts) as Hin
    by (rewrite E; left).
  apply elem_of_app in Hin as [Hin|Hin]; [|by apply (Hmap parts)]. case_bool_decide; [by apply list_elem_of_singleton in Hin|].
  apply (Hmap [first]). cbn [flat_map]. by rewrite app_nil_r.
Qed.
Lemma components_no_root path : has_root (components path) = false -> RootDir ∉ components path.
Proof.
  unfold components, has_root. destruct (text_starts_with _ _); [done|]. intros _ Hin. destruct (split_all _ _) as [|first parts]; [by apply elem_of_nil in Hin|].
  assert (forall part, RootDir ∉ part_component part) as Hpart.
  { intros part Hp. unfold part_component in Hp. destruct (_ || _); [by apply elem_of_nil in Hp|].
    by case_bool_decide; apply list_elem_of_singleton in Hp. }
  apply elem_of_app in Hin as [Hin|Hin]; [case_bool_decide; [by apply list_elem_of_singleton in Hin|by apply (Hpart first)]|].
  apply list_elem_of_In, in_flat_map in Hin as (part & _ & Hin). apply (Hpart part). by apply list_elem_of_In.
Qed.

(** ** Cleaning a relative path *)

Lemma clean_step_walk at_ r c : RootDir ∉ r -> c <> RootDir ->
  RootDir ∉ clean_step r c /\ walk at_ (clean_step r c) = walk (walk at_ r) [c].
Proof.
  intros Hr Hc. assert (has_root r = false) as Hroot by (destruct r as [|[] r]; done || (by destruct Hr; left)).
  destruct c as [| | |name]; [done|done| |].
  - cbn [clean_step]. unfold file_name, pop, push. destruct r as [|d r _] using rev_ind; [split; [|done]; by intros Hin%list_elem_of_singleton|].
    rewrite last_snoc, Hroot. assert (RootDir ∉ r) as Hr' by (intros ?; apply Hr, elem_of_app; by left).
    assert (RootDir ∉ (r ++ [d]) ++ [ParentDir]) by (rewrite elem_of_app, list_elem_of_singleton; naive_solver).
    destruct d; cbn [bool_decide]; try (rewrite bool_decide_eq_false_2 by done; split; [done|by rewrite walk_app]).
    rewrite removelast_last. split; [done|]. rewrite walk_app. cbn [walk]. by rewrite removelast_last.
  - cbn [clean_step]. unfold push. rewrite bool_decide_eq_false_2 by done. split; [|by rewrite walk_app].
    rewrite elem_of_app, list_elem_of_singleton. naive_solver.
Qed.

Lemma clean_walk p at_ : RootDir ∉ p -> RootDir ∉ clean p /\ walk at_ (clean p) = walk at_ p.
Proof.
  intros Hp. assert (forall r, RootDir ∉ r -> RootDir ∉ fold_left clean_step p r /\ walk at_ (fold_left clean_step p r) = walk (walk at_ r) p) as Hfold.
  { induction p as [|c p IH]; intros r Hr; [done|]. apply not_elem_of_cons in Hp as [Hc Hp]. cbn [fold_left].
    destruct (clean_step_walk at_ r c Hr) as [Hr' Hw]; [done|]. destruct (IH Hp _ Hr') as [H1 H2]. split; [done|].
    rewrite H2, Hw, <- walk_app. done. }
  destruct (Hfold [] (not_elem_of_nil _)) as [H1 H2]. unfold clean. destruct (fold_left clean_step p []) as [|c r]; [|done].
  cbn [walk] in *. split; [by intros ?%list_elem_of_singleton|done].
Qed.

Lemma clean_ok p : Forall component_ok p -> Forall component_ok (clean p).
Proof.
  intros Hp. assert (forall r, Forall component_ok r -> Forall component_ok (fold_left clean_step p r)) as Hfold.
  { induction Hp as [|c p Hc _ IH]; intros r Hr; [done|]. cbn [fold_left]. apply IH.
    assert (forall d, component_ok d -> Forall component_ok (push r d)) as Hpush.
    { intros d Hd. unfold push. case_bool_decide; [by repeat constructor|]. apply Forall_app. split; [done|by constructor]. }
    destruct c; cbn [clean_step]; [by apply Hpush|done| |by apply Hpush].
    destruct (file_name r); [|destruct (has_root r); [done|by apply Hpush]].
    unfold pop. destruct r as [|d r _] using rev_ind; [done|]. rewrite removelast_last. by apply Forall_app in Hr as [? _]. }
  specialize (Hfold [] (List.Forall_nil _)). unfold clean. destruct (fold_left clean_step p []); [by repeat constructor|done].
Qed.

(** ** The text of a relative path *)

Lemma walk_part at_ c : c <> RootDir -> component_ok c -> walk at_ (part_component (component_text c)) = walk at_ [c].
Proof. intros Hc Ho. destruct c as [| | |name]; [done|done|done|]. cbn [component_text]. by rewrite part_component_name. Qed.

Lemma walk_parts p at_ : RootDir ∉ p -> Forall component_ok p -> walk at_ (flat_map part_component (map component_text p)) = walk at_ p.
Proof.
  revert at_. induction p as [|c p IH]; intros at_ Hr Hp; [done|]. apply not_elem_of_cons in Hr as [Hc Hr].
  apply Forall_cons in Hp as [Ho Hp]. cbn [map flat_map]. rewrite walk_app, walk_part, IH by done. change (c :: p) with ([c] ++ p).
  by rewrite walk_app.
Qed.

Lemma component_text_ok c : c <> RootDir -> component_ok c -> component_text c <> [] /\ Forall (fun b => b <> SLASH) (component_text c).
Proof. intros Hc Ho. destruct c; [done| | |split; apply Ho]; split; try done; by repeat constructor. Qed.

Lemma components_display p at_ : RootDir ∉ p -> Forall component_ok p ->
  has_root (components (display p)) = false /\ walk at_ (components (display p)) = walk at_ p.
Proof.
  intros Hr Hp. destruct p as [|c p]; [done|].
  assert (display (c :: p) = CharText.join [SLASH] (map component_text (c :: p))) as ->.
  { destruct c; [by destruct Hr; left|done..]. }
  pose proof Hr as [Hc Hr']%not_elem_of_cons. pose proof Hp as [Ho Hp']%Forall_cons. destruct (component_text_ok c) as [Hne Hns]; [done..|].
  unfold components. rewrite split_join; [|done|].
  2:{ apply Forall_forall. intros x Hin. apply list_elem_of_In, in_map_iff in Hin as (d & <- & Hin). apply list_elem_of_In in Hin.
      apply component_text_ok; [by intros ->|by apply (proj1 (Forall_forall _ _) Hp)]. }
  cbn [map]. assert (text_starts_with (CharText.join [SLASH] (component_text c :: map component_text p)) [SLASH] = false) as ->.
  { apply not_true_iff_false. intros [r E]%starts_with_spec. destruct (component_text c) as [|b l]; [done|]. apply Forall_cons in Hns as [Hb _].
    destruct (map component_text p); cbn in E; injection E as E _; by destruct Hb. }
  split.
  - assert (forall q, has_root q = false -> has_root (q ++ flat_map part_component (map component_text p)) = false) as Happ.
    { intros q Hq. destruct q as [|d q]; [|done]. cbn [app]. unfold has_root. apply bool_decide_eq_false. intros E.
      assert (RootDir ∈ flat_map part_component (map component_text p)) as Hin by (destruct (flat_map _ _); [done|injection E as ->; left]).
      apply list_elem_of_In, in_flat_map in Hin as (part & _ & Hin). unfold part_component in Hin.
      destruct (_ || _); [done|]. by case_bool_decide; destruct Hin as [|[]]. }
    apply Happ. case_bool_decide; [done|]. unfold part_component. destruct (_ || _); [done|]. by case_bool_decide.
  - rewrite walk_app, walk_parts by done. change (walk at_ (c :: p)) with (walk at_ ([c] ++ p)). rewrite walk_app. f_equal.
    case_bool_decide as Hd; [|by apply walk_part]. destruct c as [| | |name]; [done|done|done|]. by destruct Ho as (_ & Ho & _).
Qed.
