(* ===== verification/ExtensionFiles.v ===== *)
(** * The files of an extension: [crates/extensions/src/files.rs]

    An extension reaches the files of its sandbox by relative paths, and by absolute ones those of directories that
    the host has granted, for good or while a download runs.  A path is resolved by its text alone and opened
    component by component through the directory that was granted, following no link.

    The operating system answers through the class [System]: the file system may be another at every call. *)

From S2P Require Import Prelude Monads UnicodeText CharText Paths.

(** Files are objects, each of one kind.  A directory's entries change as time passes. *)
Inductive FileKind := RegularFile | Directory | Symlink | Special.
#[export] Instance file_kind_eq_dec : EqDecision FileKind.
Proof. solve_decision. Defined.

(** [openat] fails because there is no such entry, or for another reason. *)
Inductive Errno := NoEntry | OtherError (description : string).

Class System := {
  current_dir : nat -> result text string;
  open_ambient : nat -> Path -> result Z string;        (** the directory, created if there is none *)
  canonicalize : nat -> Path -> result Path string;
  kind : Z -> FileKind;
  entry : nat -> Z -> text -> option Z;                 (** the entry of a directory, when it is asked *)
  openat : nat -> Z -> text -> bool -> Errno + Z;       (** without following a link; whether it must be a directory *)
  statat : nat -> Z -> text -> option FileKind;         (** without following a link *)
  fstat_fails : nat -> option string;
  errno_text : Errno -> string;
  current_dir_absolute t d : current_dir t = Ok d -> has_root (components d) = true;
  entry_dot t o : entry t o dot = Some o;
  openat_entry t o name must o' : openat t o name must = inr o' -> entry t o name = Some o';
  openat_no_link t o name must o' : openat t o name must = inr o' -> kind o' <> Symlink;
  openat_directory t o name o' : openat t o name true = inr o' -> kind o' = Directory }.

Record Root := mkRoot { path : Path; directory : Z }.

(** The granted directories; those of running downloads by the number of their grant. *)
Record Registry := mkRegistry { allowed : list Root; temporary : list (nat * Root); grants : nat }.
Definition empty_registry : Registry := mkRegistry [] [] 0.

Record State := mkState { registry : Registry; tick : nat }.

Record FilePath := mkFilePath { root : Root; absolute : text; relative : Path }.

Section files.
Context {SYS : System}.
Abbreviation P := (St State string).

Definition call : P nat := fun s => (Ok (tick s), mkState (registry s) (S (tick s))).
Definition lift {A} (r : result A string) : P A := match r with Ok a => ret a | Err e => throw e end.
Definition update (f : Registry -> Registry) : P unit := modify (fun s => mkState (f (registry s)) (tick s)).

(** [std::path::absolute]. *)
Definition make_absolute (path : text) : P Path :=
  match path with
  | [] => throw "cannot make an empty path absolute"%string
  | _ =>
    let p := components path in
    if has_root p then ret p
    else
      do t <- call;
      do d <- lift (current_dir t);
      ret (components d ++ List.filter (fun c => negb (bool_decide (c = CurDir))) p)
  end.

Definition open_root (path : text) : P Root :=
  do p <- make_absolute path;
  let p := clean p in
  do t <- call;
  do directory <- lift (open_ambient t p);
  ret (mkRoot p directory).

(** ** The registry *)

Fixpoint open_roots (paths : list text) : P (list Root) :=
  match paths with
  | [] => ret []
  | path :: paths => do r <- open_root path; do rs <- open_roots paths; ret (r :: rs)
  end.

Definition set_allowed_directories (paths : list text) : P unit :=
  do roots <- open_roots paths;
  update (fun g => mkRegistry roots (temporary g) (grants g)).

(** A grant stays in the list until it is dropped, so that none of the list is dead. *)
Definition grant_temporary_directory (path : text) : P nat :=
  do r <- open_root path;
  do id <- gets (fun s => grants (registry s));
  update (fun g => mkRegistry (allowed g) (temporary g ++ [(id, r)]) (S id));;
  ret id.

Definition drop_grant (id : nat) : P unit :=
  update (fun g => mkRegistry (allowed g) (List.filter (fun e => negb (e.1 =? id)%nat) (temporary g)) (grants g)).

Record ExtensionFiles := mkFiles { sandbox : Root; legacy_alias : option Path }.

Definition canonical (p : Path) : P Path := do t <- call; lift (canonicalize t p).

Definition extension_with_alias (directory alias : text) : P ExtensionFiles :=
  do r <- open_root directory;
  do a <- make_absolute alias;
  let a := clean a in
  if bool_decide (a = path r) then ret (mkFiles r None)
  else
    do x <- canonical a;
    do y <- canonical (path r);
    if bool_decide (x = y) then ret (mkFiles r (Some a)) else throw "sandbox alias refers to a different directory"%string.
Definition extension (directory : text) : P ExtensionFiles := extension_with_alias directory directory.

(** ** Resolving paths *)

Definition ABSOLUTE_DENIED : string :=
  "file access denied: absolute paths are not allowed. Use relative paths within extension sandbox".

Definition granted (input : Path) (g : Registry) : option Root :=
  match List.find (fun r => path_starts_with input (path r)) (allowed g) with
  | Some r => Some r
  | None => snd <$> List.find (fun e => path_starts_with input (path e.2)) (temporary g)
  end.

(** The part of a path below its root. *)
Definition below (r : Root) (absolute_path : Path) : Path :=
  match strip_path (path r) absolute_path with Some [] | None => [CurDir] | Some p => p end.

Definition resolve (files : ExtensionFiles) (path_text : text) : P FilePath :=
  let input := clean (components path_text) in
  do found <-
    (if has_root input then
       do g <- gets registry;
       match granted input g with Some r => ret (r, input) | None => throw ABSOLUTE_DENIED end
     else
       let a := clean (join (path (sandbox files)) input) in
       if negb (path_starts_with a (path (sandbox files))) then
         throw ("file access denied: path '" ++ text_of path_text ++ "' is outside sandbox")%string
       else ret (sandbox files, a));
  ret (mkFilePath found.1 (display found.2) (below found.1 found.2)).

(** Whether two directories are the same, now. *)
Definition same_directory (p q : Path) : P bool :=
  do x <- attempt (canonical p);
  match x with
  | Err _ => ret false
  | Ok x => do y <- attempt (canonical q); match y with Ok y => ret (bool_decide (x = y)) | Err _ => ret false end
  end.

(** Scripts of before hand absolute paths of their own sandbox back.  The text of the request is what is shown. *)
Fixpoint resolve_through (files : ExtensionFiles) (roots : list Path) (p : Path) : P (option FilePath) :=
  match roots with
  | [] => ret None
  | r :: roots =>
    match strip_path r p with
    | None => resolve_through files roots p
    | Some relative =>
      do same <- (if bool_decide (r = path (sandbox files)) then ret true else same_directory r (path (sandbox files)));
      if negb same then throw "file access denied: sandbox alias refers to a different directory"%string
      else do resolved <- resolve files (display relative); ret (Some resolved)
    end
  end.
Definition shown_as (original : text) (f : FilePath) : FilePath := mkFilePath (root f) original (relative f).

Definition resolve_legacy (files : ExtensionFiles) (original : text) : P FilePath :=
  let p := clean (components original) in
  do resolved <-
    (if has_root p then resolve_through files (path (sandbox files) :: option_list (legacy_alias files)) p
     else ret None);
  match resolved with
  | Some f => ret (shown_as original f)
  | None =>
    do f <- resolve files (display p);
    ret (if has_root (components original) then shown_as original f else f)
  end.

(** ** Opening for native code *)

Definition NO_LINKS : string := "native media path must not contain symlinks or special files".

(** The error of a failed [openat]: links and special files have one of their own. *)
Definition open_error (parent : Z) (name : text) (e : Errno) : P Z :=
  match e with
  | NoEntry => throw (errno_text e)
  | OtherError _ =>
    do t <- call;
    match statat t parent name with
    | Some (Symlink | Special) => throw NO_LINKS
    | _ => throw (errno_text e)
    end
  end.

Definition open_component (parent : Z) (name : text) (is_last : bool) : P Z :=
  do t <- call;
  match openat t parent name (negb is_last) with
  | inr fd => ret fd
  | inl e => open_error parent name e
  end.

Definition require_regular (fd : Z) : P Z :=
  do t <- call;
  match fstat_fails t with
  | Some e => throw e
  | None =>
    match kind fd with
    | RegularFile => ret fd
    | Directory => throw "not a regular file"%string
    | _ => throw NO_LINKS
    end
  end.

Fixpoint open_through (parent : Z) (p : Path) : P Z :=
  match p with
  | [] => throw "empty native path"%string
  | (Normal _ | CurDir) as c :: rest =>
    let is_last := bool_decide (rest = []) in
    do fd <- open_component parent (component_text c) is_last;
    if is_last then require_regular fd else open_through fd rest
  | _ => throw "invalid native path"%string
  end.

Definition open_native_read (f : FilePath) : P Z := open_through (directory (root f)) (relative f).
End files.

(** * Extensions stay within their directories

    Whatever path a script names and whatever happens to the file system meanwhile: the path leads below its sandbox
    or below a directory that is granted now, and what is opened is a regular file that the entries of directories
    below that one lead to, never through a link. *)

(** A root is an absolute path in its cleaned form. *)
Definition root_at (r : Root) (names : list text) : Prop := path r = absolute_path names /\ Forall name_ok names.
Definition root_ok (r : Root) : Prop := exists names, root_at r names.

Definition granted_roots (g : Registry) : list Root := allowed g ++ map snd (temporary g).
Definition registry_ok (g : Registry) : Prop := Forall root_ok (granted_roots g).

(** ** Which root a path is below *)

Lemma starts_with_names r names base : root_at r base ->
  path_starts_with (absolute_path names) (path r) = true <-> base `prefix_of` names.
Proof.
  intros [-> _]. unfold path_starts_with. rewrite bool_decide_eq_true. split.
  - intros [p Hp]. apply strip_absolute in Hp as (rest & -> & _). by exists rest.
  - intros [rest ->]. exists (map Normal rest). apply strip_absolute. by exists rest.
Qed.

Lemma first_found {A} (f : A -> bool) l :
  match List.find f l with Some a => a ∈ l /\ f a = true | None => Forall (fun a => f a = false) l end.
Proof.
  destruct (List.find f l) as [a|] eqn:E; [apply List.find_some in E as [Hin Ha]; split; [by apply list_elem_of_In|done]|].
  apply Forall_forall. intros a Hin. by apply (List.find_none f l E), list_elem_of_In.
Qed.

Lemma granted_spec p g :
  match granted p g with
  | Some r => r ∈ granted_roots g /\ path_starts_with p (path r) = true
  | None => Forall (fun r => path_starts_with p (path r) = false) (granted_roots g)
  end.
Proof.
  unfold granted, granted_roots. pose proof (first_found (fun r => path_starts_with p (path r)) (allowed g)) as Ha.
  destruct (List.find _ (allowed g)) as [r|]; [destruct Ha; split; [apply elem_of_app; by left|done]|].
  pose proof (first_found (fun e : nat * Root => path_starts_with p (path e.2)) (temporary g)) as Ht.
  destruct (List.find _ (temporary g)) as [[id r]|]; cbn [fmap option_map option_fmap snd] in *.
  - destruct Ht as [Hin Hp]. split; [|done]. apply elem_of_app. right. apply list_elem_of_In, in_map_iff. exists (id, r).
    split; [done|by apply list_elem_of_In].
  - apply Forall_app. split; [done|]. apply Forall_forall. intros r Hin. apply list_elem_of_In, in_map_iff in Hin as ([id r'] & <- & Hin).
    apply list_elem_of_In in Hin. by apply (proj1 (Forall_forall _ _) Ht (id, r')).
Qed.

(** ** Paths of a request *)

(** Where a request leads: from the root, or from the names of the sandbox. *)
Definition requested (base : list text) (request : text) : list text := walk base (components request).

Lemma requested_ok base request : Forall name_ok base -> Forall name_ok (requested base request).
Proof. intros Hb. apply walk_names; [done|apply components_ok]. Qed.

Lemma has_root_cons p : has_root p = true -> exists q, p = RootDir :: q.
Proof. unfold has_root. rewrite bool_decide_eq_true. destruct p as [|c p]; [done|]. intros [= ->]. by exists p. Qed.

(** Cleaning keeps whether a path is absolute. *)
Lemma clean_has_root request : has_root (clean (components request)) = has_root (components request).
Proof.
  destruct (has_root (components request)) eqn:E.
  - destruct (has_root_cons _ E) as [q Hq]. rewrite Hq. by rewrite clean_absolute by by eapply components_root.
  - destruct (clean_walk (components request) [] (components_no_root _ E)) as [Hn _].
    unfold has_root. rewrite bool_decide_eq_false. destruct (clean _) as [|c q]; [done|]. intros [= ->]. apply Hn. left.
Qed.

Lemma clean_requested base request : has_root (components request) = true ->
  clean (components request) = absolute_path (requested base request).
Proof.
  intros E. destruct (has_root_cons _ E) as [q Hq]. unfold requested. rewrite Hq. cbn [walk].
  apply clean_absolute. by eapply components_root.
Qed.

Lemma clean_join_requested r base request : root_at r base -> has_root (components request) = false ->
  clean (join (path r) (clean (components request))) = absolute_path (requested base request).
Proof.
  intros [-> _] E. pose proof (components_no_root _ E) as Hn. destruct (clean_walk (components request) base Hn) as [Hc Hw].
  unfold join. rewrite clean_has_root, E. unfold absolute_path. cbn [app]. rewrite clean_absolute.
  - rewrite walk_app, walk_normal. cbn [app]. by rewrite Hw.
  - rewrite elem_of_app. intros [Hin|Hin]; [|done]. by apply list_elem_of_In, in_map_iff in Hin as (? & ? & _).
Qed.

Lemma below_spec r base names : root_at r base -> base `prefix_of` names ->
  exists rest, names = base ++ rest /\ below r (absolute_path names) = match rest with [] => [CurDir] | _ => map Normal rest end.
Proof.
  intros [Hr _] [rest ->]. exists rest. split; [done|]. unfold below. rewrite Hr.
  rewrite (proj2 (strip_absolute base (base ++ rest) (map Normal rest))) by (by exists rest). by destruct rest.
Qed.

(** ** Invariant of the registry *)

Section registry.
Context {SYS : System}.

(** A computation that answers with what is fit, and keeps the registry fit if it was. *)
Definition fit {A} (m : St State string A) (Q : A -> Prop) : Prop :=
  forall s, registry_ok (registry s) -> wp m (fun a s' => Q a /\ registry_ok (registry s')) (fun _ s' => registry_ok (registry s')) s.

Lemma fit_ret {A} (a : A) (Q : A -> Prop) : Q a -> fit (ret a) Q.
Proof. by intros Ha s Hs. Qed.
Lemma fit_throw {A} e (Q : A -> Prop) : fit (throw e) Q.
Proof. by intros s Hs. Qed.
Lemma fit_bind {A B} (m : St State string A) (k : A -> St State string B) Q R :
  fit m Q -> (forall a, Q a -> fit (k a) R) -> fit (bind m k) R.
Proof.
  intros Hm Hk s Hs. apply wp_bind. eapply wp_mono; [by apply Hm| |done]. intros a s' [Ha Hs']. by apply Hk.
Qed.
Lemma fit_mono {A} (m : St State string A) (Q R : A -> Prop) : fit m Q -> (forall a, Q a -> R a) -> fit m R.
Proof. intros Hm HQ s Hs. eapply wp_mono; [by apply Hm| |done]. intros a s' [Ha Hs']. auto. Qed.
Lemma fit_call : fit call (fun _ => True).
Proof. by intros s Hs. Qed.
Lemma fit_gets_grants : fit (gets (fun s => grants (registry s))) (fun _ => True).
Proof. by intros s Hs. Qed.
Lemma fit_lift {A} (r : result A string) (Q : A -> Prop) : (forall a, r = Ok a -> Q a) -> fit (lift r) Q.
Proof. intros Hr. destruct r as [a|e]; [apply fit_ret; by apply Hr|apply fit_throw]. Qed.
Lemma fit_update f : (forall g, registry_ok g -> registry_ok (f g)) -> fit (update f) (fun _ => True).
Proof. intros Hf s Hs. apply wp_modify. split; [done|]. cbn [registry]. by apply Hf. Qed.

Lemma fit_make_absolute p : fit (make_absolute p) (fun q => exists names, clean q = absolute_path names /\ Forall name_ok names).
Proof.
  assert (forall q, RootDir ∉ q -> Forall component_ok q -> exists names, clean (RootDir :: q) = absolute_path names /\ Forall name_ok names) as Hnames.
  { intros q Hq Hok. exists (walk [] q). split; [by apply clean_absolute|by apply walk_names]. }
  unfold make_absolute. destruct p as [|c p]; [apply fit_throw|]. set (request := c :: p).
  destruct (has_root (components request)) eqn:E.
  - apply fit_ret. destruct (has_root_cons _ E) as [q Hq]. pose proof (components_ok request) as Hok. rewrite Hq in *.
    apply Forall_cons in Hok as [_ Hok]. apply Hnames; [by eapply components_root|done].
  - eapply fit_bind; [apply fit_call|]. intros t _. eapply fit_bind; [apply (fit_lift _ (fun d => has_root (components d) = true)); apply current_dir_absolute|].
    intros d Hd. apply fit_ret. destruct (has_root_cons _ Hd) as [q Hq]. pose proof (components_ok d) as Hok. rewrite Hq in *.
    apply Forall_cons in Hok as [_ Hok]. cbn [app]. apply Hnames.
    + rewrite elem_of_app. intros [Hin|Hin]; [by eapply (components_root _ _ Hq)|].
      apply list_elem_of_In, filter_In in Hin as [Hin _]. apply (components_no_root _ E). by apply list_elem_of_In.
    + apply Forall_app. split; [done|]. apply Forall_forall. intros x Hin. apply list_elem_of_In, filter_In in Hin as [Hin _].
      apply (proj1 (Forall_forall _ _) (components_ok request)). by apply list_elem_of_In.
Qed.

Lemma fit_open_root p : fit (open_root p) root_ok.
Proof.
  unfold open_root. eapply fit_bind; [apply fit_make_absolute|]. intros q (names & Hq & Hn). cbv zeta.
  eapply fit_bind; [apply fit_call|]. intros t _. eapply fit_bind; [by apply (fit_lift _ (fun _ => True))|]. intros d _.
  apply fit_ret. exists names. by split.
Qed.

Lemma fit_open_roots ps : fit (open_roots ps) (Forall root_ok).
Proof.
  induction ps as [|p ps IH]; [by apply fit_ret|]. cbn [open_roots]. eapply fit_bind; [apply fit_open_root|]. intros r Hr.
  eapply fit_bind; [exact IH|]. intros rs Hrs. apply fit_ret. by constructor.
Qed.

Lemma fit_set_allowed_directories ps : fit (set_allowed_directories ps) (fun _ => True).
Proof.
  unfold set_allowed_directories. eapply fit_bind; [apply fit_open_roots|]. intros rs Hrs. apply fit_update.
  intros g Hg. apply Forall_app in Hg as [_ Hg]. by apply Forall_app.
Qed.

Lemma fit_grant p : fit (grant_temporary_directory p) (fun _ => True).
Proof.
  unfold grant_temporary_directory. eapply fit_bind; [apply fit_open_root|]. intros r Hr.
  eapply fit_bind; [apply fit_gets_grants|]. intros id _.
  eapply fit_bind; [|intros; by apply fit_ret]. apply fit_update. intros g Hg. apply Forall_app in Hg as [Ha Hg].
  apply Forall_app. split; [done|]. cbn [temporary]. rewrite map_app. apply Forall_app. split; [done|by repeat constructor].
Qed.

Lemma fit_drop_grant id : fit (drop_grant id) (fun _ => True).
Proof.
  apply fit_update. intros g Hg. apply Forall_app in Hg as [Ha Hg]. apply Forall_app. split; [done|]. cbn [temporary].
  apply Forall_forall. intros r Hin. apply list_elem_of_In, in_map_iff in Hin as (e & <- & Hin). apply filter_In in Hin as [Hin _].
  apply (proj1 (Forall_forall _ _) Hg). apply list_elem_of_In, in_map_iff. by exists e.
Qed.

Lemma fit_extension d a : fit (extension_with_alias d a) (fun f => root_ok (sandbox f)).
Proof.
  unfold extension_with_alias. eapply fit_bind; [apply fit_open_root|]. intros r Hr.
  eapply fit_bind; [apply fit_make_absolute|]. intros q _. cbv zeta. case_bool_decide; [by apply fit_ret|].
  assert (forall p, fit (canonical p) (fun _ => True)) as Hcan.
  { intros p. unfold canonical. eapply fit_bind; [apply fit_call|]. intros t _. by apply fit_lift. }
  eapply fit_bind; [apply Hcan|]. intros x _. eapply fit_bind; [apply Hcan|]. intros y _. case_bool_decide; [by apply fit_ret|apply fit_throw].
Qed.

(** What the host does with the registry. *)
Inductive host_step : State -> State -> Prop :=
  | step_allow ps s : host_step s (set_allowed_directories ps s).2
  | step_grant p s : host_step s (grant_temporary_directory p s).2
  | step_drop id s : host_step s (drop_grant id s).2
  | step_extension d a s : host_step s (extension_with_alias d a s).2.
Definition reachable (s : State) : Prop := exists t, rtc host_step (mkState empty_registry t) s.

Lemma fit_after {A} (m : St State string A) Q s : fit m Q -> registry_ok (registry s) -> registry_ok (registry (m s).2).
Proof. intros Hm Hs. specialize (Hm s Hs). unfold wp in Hm. destruct (m s) as [[a|e] s']; naive_solver. Qed.

Lemma host_reachable_ok s : reachable s -> registry_ok (registry s).
Proof.
  intros [t Hs]. assert (registry_ok (registry (mkState empty_registry t))) as H0 by constructor.
  induction Hs as [s|s s1 s2 Hs _ IH]; [done|]. apply IH. destruct Hs.
  - eapply fit_after; [apply fit_set_allowed_directories|done].
  - eapply fit_after; [apply fit_grant|done].
  - eapply fit_after; [apply fit_drop_grant|done].
  - eapply fit_after; [apply fit_extension|done].
Qed.
End registry.

Section resolve.
Context {SYS : System}.

(** What a request may reach, and where its path starts. *)
Definition absolute_request (request : text) : bool := has_root (components request).
Definition start_of (base : list text) (request : text) : list text := if absolute_request request then [] else base.
Definition reachable_roots (files : ExtensionFiles) (g : Registry) (request : text) : list Root :=
  if absolute_request request then granted_roots g else [sandbox files].

(** A file at the given names, below a root. *)
Definition file_at (f : FilePath) (names : list text) : Prop :=
  absolute f = display (absolute_path names) /\
  exists top rest, root_at (root f) top /\ names = top ++ rest /\
    relative f = match rest with [] => [CurDir] | _ => map Normal rest end.

Lemma requested_start base request : requested (start_of base request) request = requested base request.
Proof.
  unfold start_of, absolute_request. destruct (has_root (components request)) eqn:E; [|done].
  destruct (has_root_cons _ E) as [q Hq]. unfold requested. by rewrite Hq.
Qed.

Lemma file_at_below r base names : root_at r base -> base `prefix_of` names ->
  file_at (mkFilePath r (display (absolute_path names)) (below r (absolute_path names))) names.
Proof.
  intros Hr Hp. split; [done|]. destruct (below_spec r base names Hr Hp) as (rest & Hn & Hb). by exists base, rest.
Qed.

(** Resolving one request: a file of a root it may reach, or the request leads below none of them. *)
Lemma resolve_spec files base request s :
  registry_ok (registry s) -> root_at (sandbox files) base ->
  match resolve files request s with
  | (Ok f, s') => s' = s /\ root f ∈ reachable_roots files (registry s) request /\ file_at f (requested base request)
  | (Err _, s') => s' = s /\
      Forall (fun r => forall top, root_at r top -> ~ top `prefix_of` requested base request) (reachable_roots files (registry s) request)
  end.
Proof.
  intros Hg Hs. unfold resolve, reachable_roots, absolute_request. rewrite clean_has_root.
  destruct (has_root (components request)) eqn:E.
  - rewrite (clean_requested base) by done. unfold bind, gets, ret, throw. pose proof (granted_spec (absolute_path (requested base request)) (registry s)) as Hr.
    destruct (granted _ _) as [r|].
    + destruct Hr as [Hin Hp]. cbn [fst snd root]. split; [done|]. split; [done|].
      destruct (proj1 (Forall_forall _ _) Hg r Hin) as [top Htop]. apply (file_at_below r top); [done|]. by apply (starts_with_names r).
    + split; [done|]. eapply Forall_impl; [exact Hr|]. cbv beta. intros r Hp top Htop Hpre.
      apply (starts_with_names r _ _ Htop) in Hpre. congruence.
  - rewrite (clean_join_requested _ base) by done. unfold bind, ret, throw.
    destruct (path_starts_with _ _) eqn:Ep; cbn [negb fst snd root].
    + split; [done|]. split; [by apply list_elem_of_singleton|]. apply (file_at_below _ base); [done|]. by apply (starts_with_names (sandbox files)).
    + split; [done|]. constructor; [|done]. intros top Htop Hpre. apply (starts_with_names (sandbox files) _ _ Htop) in Hpre. congruence.
Qed.

Lemma start_ok base request : Forall name_ok base -> Forall name_ok (start_of base request).
Proof. unfold start_of. by destruct (absolute_request request). Qed.

(** A request that leads below names leads there by the text of its path too. *)
Lemma requested_display base names : Forall name_ok names ->
  requested base (display (map Normal names)) = base ++ names /\ absolute_request (display (map Normal names)) = false.
Proof.
  intros Hn. unfold requested, absolute_request. rewrite components_relative by done. rewrite walk_normal. split; [done|].
  by destruct names.
Qed.

(** [clean] of a request leads where the request does. *)
Lemma requested_clean base request : Forall name_ok base ->
  requested base (display (clean (components request))) = requested base request /\
  absolute_request (display (clean (components request))) = absolute_request request.
Proof.
  intros Hb. destruct (absolute_request request) eqn:E; unfold absolute_request in E.
  - rewrite (clean_requested base) by done. unfold requested at 1, absolute_request.
    rewrite components_absolute by by apply requested_ok. unfold absolute_path. cbn [walk]. by rewrite walk_normal.
  - destruct (clean_walk (components request) base (components_no_root _ E)) as [Hn Hw]. unfold requested at 1, absolute_request.
    assert (Forall component_ok (clean (components request))) as Hok by by apply clean_ok, components_ok.
    destruct (components_display _ base Hn Hok) as [H1 H2]. by rewrite H1, H2, Hw.
Qed.

(** Names at which a request may start: those of the sandbox, or of the alias it has. *)
Definition starts (files : ExtensionFiles) (base : list text) (names : list text) : Prop :=
  names = base \/ legacy_alias files = Some (absolute_path names).

(** What resolving promises: the file is below a root that the script may reach. *)
Definition confined (files : ExtensionFiles) (g : Registry) (f : FilePath) : Prop :=
  root f ∈ sandbox files :: granted_roots g /\
  exists top rest, root_at (root f) top /\ Forall name_ok rest /\ relative f = match rest with [] => [CurDir] | _ => map Normal rest end.

Lemma file_at_confined files g request f names : root f ∈ reachable_roots files g request -> file_at f names -> Forall name_ok names ->
  confined files g f.
Proof.
  intros Hin (_ & top & rest & Hr & -> & Hrel) Hn. split.
  - unfold reachable_roots in Hin. destruct (absolute_request request); [by right|]. apply list_elem_of_singleton in Hin as ->. left.
  - apply Forall_app in Hn as [_ Hn]. by exists top, rest.
Qed.

Lemma registry_same_directory p q s : registry (same_directory p q s).2 = registry s.
Proof. unfold same_directory, canonical, attempt, call, lift, bind, ret, throw. cbn. by repeat case_match; simplify_eq/=. Qed.

Lemma confined_shown files g original f : confined files g f -> confined files g (shown_as original f).
Proof. done. Qed.

(** Resolving keeps the registry, and confines. *)
Definition confines (files : ExtensionFiles) (m : St State string FilePath) : Prop :=
  forall s, registry_ok (registry s) ->
    wp m (fun f s' => registry s' = registry s /\ confined files (registry s) f) (fun _ s' => registry s' = registry s) s.

Lemma resolve_confines files base request : root_at (sandbox files) base -> confines files (resolve files request).
Proof.
  intros Hb s Hg. pose proof (resolve_spec files base request s Hg Hb) as H. unfold wp.
  destruct (resolve files request s) as [[f|e] s']; [|by destruct H as [-> _]]. destruct H as (-> & Hin & Hf). split; [done|].
  apply (file_at_confined _ _ request f (requested base request)); [done|done|]. apply requested_ok, Hb.
Qed.

Lemma resolve_through_confines files base roots p s : root_at (sandbox files) base -> registry_ok (registry s) ->
  wp (resolve_through files roots p)
    (fun f s' => registry s' = registry s /\ match f with Some f => confined files (registry s) f | None => True end)
    (fun _ s' => registry s' = registry s) s.
Proof.
  intros Hb Hg. induction roots as [|r roots IH]; [by apply wp_ret|]. cbn [resolve_through].
  destruct (strip_path r p) as [relative|]; [|exact IH].
  apply wp_bind. apply (wp_mono _ (fun _ s' => registry s' = registry s) _ (fun _ s' => registry s' = registry s)); [|intros same s1 E1|done].
  - case_bool_decide; [by apply wp_ret|]. pose proof (registry_same_directory r (path (sandbox files)) s) as E. unfold wp.
    by destruct (same_directory _ _ s) as [[x|e] s'].
  - destruct (negb same); [by apply wp_throw|]. apply wp_bind. eapply wp_mono; [apply (resolve_confines files base); [done|by rewrite E1]|..].
    + intros f s2 [E2 Hf]. apply wp_ret. rewrite E1 in *. by split.
    + intros e s2 E2. congruence.
Qed.

Lemma resolve_legacy_confines files base original : root_at (sandbox files) base -> confines files (resolve_legacy files original).
Proof.
  intros Hb s Hg. unfold resolve_legacy. cbv zeta. apply wp_bind.
  apply (wp_mono _ (fun f s' => registry s' = registry s /\ match f with Some f => confined files (registry s) f | None => True end)
    _ (fun _ s' => registry s' = registry s)); [|intros f s1 [E1 Hf]|done].
  - destruct (has_root _); [by eapply resolve_through_confines|by apply wp_ret].
  - destruct f as [f|]; [by apply wp_ret|]. apply wp_bind. eapply wp_mono; [apply (resolve_confines files base); [done|by rewrite E1]|..].
    + intros f s2 [E2 Hf']. apply wp_ret. rewrite E1 in *. split; [done|]. by destruct (has_root _).
    + intros e s2 E2. congruence.
Qed.

(** ** Opening *)

(** [led fd names fd' t t']: from one open directory the entries of directories, as they were at moments one after
    another between [t] and [t'], lead through the names to another file, and none of them is a link. *)
Inductive led : Z -> list text -> Z -> nat -> nat -> Prop :=
  | led_here fd t t' : (t <= t')%nat -> led fd [] fd t t'
  | led_entry fd name fd1 names fd' t t1 t' :
      (t <= t1)%nat -> entry t1 fd name = Some fd1 -> kind fd1 <> Symlink -> (names <> [] -> kind fd1 = Directory) ->
      led fd1 names fd' (S t1) t' -> led fd (name :: names) fd' t t'.

Lemma wp_system_call (Q : nat -> State -> Prop) R s : Q (tick s) (mkState (registry s) (S (tick s))) -> wp call Q R s.
Proof. done. Qed.

Lemma wp_open_component fd name is_last s (Q : Z -> State -> Prop) (R : string -> State -> Prop) :
  (forall fd', entry (tick s) fd name = Some fd' -> kind fd' <> Symlink -> (is_last = false -> kind fd' = Directory) ->
    Q fd' (mkState (registry s) (S (tick s)))) ->
  (forall e s', R e s') -> wp (open_component fd name is_last) Q R s.
Proof.
  intros HQ HR. unfold open_component. apply wp_bind, wp_system_call. destruct (openat _ _ _ _) as [e|fd'] eqn:E.
  - unfold open_error. destruct e; [by apply wp_throw|]. apply wp_bind, wp_system_call. case_match; [case_match|]; by apply wp_throw.
  - apply wp_ret. apply HQ; [by eapply openat_entry|by eapply openat_no_link|]. intros ->. by eapply openat_directory.
Qed.

Lemma open_through_spec p fd s : p <> [] ->
  wp (open_through fd p)
    (fun fd' s' => registry s' = registry s /\ kind fd' = RegularFile /\ led fd (map component_text p) fd' (tick s) (tick s')) (fun _ _ => True) s.
Proof.
  revert fd s. induction p as [|c p IH]; intros fd s Hp; [done|]. cbn [open_through map].
  assert (wp (do fd1 <- open_component fd (component_text c) (bool_decide (p = []));
              if bool_decide (p = []) then require_regular fd1 else open_through fd1 p)
    (fun fd' s' => registry s' = registry s /\ kind fd' = RegularFile /\ led fd (component_text c :: map component_text p) fd' (tick s) (tick s')) (fun _ _ => True) s) as Hwp.
  { apply wp_bind, wp_open_component; [|done]. intros fd1 He Hk Hd. case_bool_decide as Ep.
    - unfold require_regular. apply wp_bind, wp_system_call. destruct (fstat_fails _); [by apply wp_throw|]. destruct (kind fd1) eqn:Ek; try by apply wp_throw.
      apply wp_ret. split_and!; [done|done|]. rewrite Ep. cbn [map]. eapply led_entry; [reflexivity|done|congruence|done|]. apply led_here. cbn. lia.
    - eapply wp_mono; [by apply IH| |done]. cbv beta. cbn [registry tick]. intros fd' s' (Er & Ek & Hl). split_and!; [done|done|].
      eapply led_entry; [reflexivity|done|done|by intros _; apply Hd|done]. }
  destruct c; [done|exact Hwp|done|exact Hwp].
Qed.

(** C35: a script that names a file reaches it exactly when its path, cleaned, leads below the sandbox of the extension
    (a relative path) or below a directory that the host has granted and not taken back (an absolute path); the file
    it gets is shown by the absolute path and addressed by the names below the root, none of which is "." or ".." or
    has a slash; and resolving changes nothing. *)
Theorem resolve_confined files base request s : reachable s -> root_at (sandbox files) base ->
  Forall name_ok (requested base request) /\
  match resolve files request s with
  | (Ok f, s') => s' = s /\ root f ∈ reachable_roots files (registry s) request /\ file_at f (requested base request) /\
      components (absolute f) = absolute_path (requested base request)
  | (Err _, s') => s' = s /\
      Forall (fun r => forall top, root_at r top -> ~ top `prefix_of` requested base request) (reachable_roots files (registry s) request)
  end.
Proof.
  intros Hs Hb. assert (Forall name_ok (requested base request)) as Hn by apply requested_ok, Hb. split; [done|].
  pose proof (resolve_spec files base request s (host_reachable_ok s Hs) Hb) as H.
  destruct (resolve files request s) as [[f|e] s']; [|done]. destruct H as (-> & Hin & Hf). split_and!; try done.
  destruct Hf as [-> _]. by apply components_absolute.
Qed.

(** C36: what opening a file for native code yields is a regular file below the root that the path was resolved to, a
    sandbox or a directory granted at that time, whatever other programs do to the file system before and meanwhile:
    the entries of directories lead to it, one for each name of the path, each read after the one before and none of
    them a link. *)
Theorem open_native_confined files base legacy request s f s1 s2 fd s3 : reachable s -> root_at (sandbox files) base ->
  (if legacy : bool then resolve_legacy files request else resolve files request) s = (Ok f, s1) ->
  open_native_read f s2 = (Ok fd, s3) ->
  kind fd = RegularFile /\ root f ∈ sandbox files :: granted_roots (registry s) /\
  exists top names, root_at (root f) top /\ Forall name_ok names /\ led (directory (root f)) names fd (tick s2) (tick s3).
Proof.
  intros Hs Hb Hf Ho. pose proof (host_reachable_ok s Hs) as Hg.
  assert (confined files (registry s) f) as (Hin & top & names & Hr & Hn & Hrel).
  { assert (confines files (if legacy then resolve_legacy files request else resolve files request)) as Hc
      by (destruct legacy; [by eapply resolve_legacy_confines|by eapply resolve_confines]).
    specialize (Hc s Hg). unfold wp in Hc. rewrite Hf in Hc. by destruct Hc. }
  assert (relative f <> []) as Hne by (rewrite Hrel; by destruct names).
  pose proof (open_through_spec (relative f) (directory (root f)) s2 Hne) as H. unfold wp in H. unfold open_native_read in Ho. rewrite Ho in H.
  destruct H as (_ & Hk & Hl). split; [done|]. split; [done|]. exists top, names. split; [done|]. split; [done|].
  destruct names as [|n names]; [|rewrite Hrel, map_map in Hl; cbn [component_text] in Hl; by rewrite map_id in Hl].
  rewrite Hrel in Hl. inversion Hl as [|? ? fd1 ? ? ? t1 ? ? He ? ? Hl']; subst. rewrite entry_dot in He. injection He as ->.
  inversion Hl'; subst. apply led_here. lia.
Qed.
End resolve.

Module FilesExample.
(** A file system that does not change: directories 1 (the sandbox), 2 (granted) and 3 below 1, files 4 and 5, a link 6. *)
Definition entries : list (Z * text * Z) :=
  [(1, lit "cache", 3); (3, lit "a.bin", 4); (2, lit "song.flac", 5); (1, lit "out", 6)].
Definition kind_of (o : Z) : FileKind := if o <=? 3 then Directory else if o <=? 5 then RegularFile else Symlink.
Definition entry_of (o : Z) (name : text) : option Z :=
  if bool_decide (name = dot) then Some o
  else (fun e => e.2) <$> List.find (fun e => bool_decide (e.1 = (o, name))) entries.
Definition open_of (o : Z) (name : text) (must : bool) : Errno + Z :=
  match entry_of o name with
  | None => inl NoEntry
  | Some o' =>
    if bool_decide (kind_of o' = Symlink) || (must && negb (bool_decide (kind_of o' = Directory))) then inl (OtherError "ELOOP")
    else inr o'
  end.

#[local] Program Instance system : System := {|
  current_dir := fun _ => Ok (lit "/home");
  open_ambient := fun _ p => Ok (if bool_decide (p = components (lit "/music")) then 2 else 1);
  canonicalize := fun _ p => Ok p;
  kind := kind_of;
  entry := fun _ => entry_of;
  openat := fun _ => open_of;
  statat := fun _ o name => kind_of <$> entry_of o name;
  fstat_fails := fun _ => None;
  errno_text := fun e => match e with NoEntry => "ENOENT" | OtherError d => d end%string |}.
Next Obligation. by intros t d [= <-]. Qed.
Next Obligation. done. Qed.
Next Obligation.
  intros t o name must o'. unfold open_of. destruct (entry_of o name); [|done]. destruct (_ || _); [done|]. by intros [= ->].
Qed.
Next Obligation.
  intros t o name must o'. unfold open_of. destruct (entry_of o name); [|done]. case_bool_decide; [done|].
  destruct (must && _); [done|]. by intros [= <-].
Qed.
Next Obligation.
  intros t o name o'. unfold open_of. destruct (entry_of o name); [|done]. case_bool_decide; [done|].
  case_bool_decide as E; [|done]. by intros [= <-].
Qed.

Definition start : State := mkState empty_registry 0.
Definition granted_state : State := (set_allowed_directories [lit "/music/"] start).2.
Definition files : ExtensionFiles := mkFiles (mkRoot (components (lit "/home/ext")) 1) (Some (components (lit "/alias"))).

Definition opened (m : St State string FilePath) : result Z string :=
  ((do f <- m; open_native_read f) granted_state).1.

Example open_ex : map (fun p => opened (resolve files (lit p)))
    ["cache/a.bin"; "./x/../cache//a.bin"; "../ext/cache/a.bin"; "/music/song.flac"; "cache"; "."; "none"; "out"; "out/a"; "../a"; "/etc/passwd"; "/music/../etc"]%string =
  [Ok 4; Ok 4; Ok 4; Ok 5; Err "not a regular file"; Err "not a regular file"; Err "ENOENT"; Err NO_LINKS; Err NO_LINKS;
   Err "file access denied: path '../a' is outside sandbox"; Err ABSOLUTE_DENIED; Err ABSOLUTE_DENIED]%string.
Proof. vm_compute. reflexivity. Qed.

Example legacy_ex : map (fun p => opened (resolve_legacy files (lit p)))
    ["/home/ext/cache/a.bin"; "/home/ext"; "/alias/cache/a.bin"; "/music/song.flac"; "/home/other"]%string =
  [Ok 4; Err "not a regular file"; Err "file access denied: sandbox alias refers to a different directory"; Ok 5; Err ABSOLUTE_DENIED]%string.
Proof. vm_compute. reflexivity. Qed.

Lemma start_reachable : reachable granted_state.
Proof. exists 0%nat. apply rtc_once. apply (step_allow [lit "/music/"]). Qed.

Lemma sandbox_root : root_at (sandbox files) [lit "home"; lit "ext"].
Proof. split; [by vm_compute|]. repeat constructor; done. Qed.

Lemma resolve_confined_witness :
  match resolve files (lit "/music/a/../song.flac") granted_state with
  | (Ok f, s') => s' = granted_state /\ root f ∈ granted_roots (registry granted_state) /\ file_at f [lit "music"; lit "song.flac"] /\
      components (absolute f) = absolute_path [lit "music"; lit "song.flac"]
  | (Err _, _) => False
  end.
Proof. exact (proj2 (resolve_confined files [lit "home"; lit "ext"] (lit "/music/a/../song.flac") granted_state start_reachable sandbox_root)). Defined.

Lemma open_native_confined_witness :
  exists f, resolve_legacy files (lit "/home/ext/cache/a.bin") granted_state = (Ok f, granted_state) /\
  kind 4 = RegularFile /\ root f ∈ sandbox files :: granted_roots (registry granted_state) /\
  exists top names, root_at (root f) top /\ Forall name_ok names /\ led (directory (root f)) names 4 1 4.
Proof.
  eexists. split; [reflexivity|].
  by apply (open_native_confined files [lit "home"; lit "ext"] true (lit "/home/ext/cache/a.bin") granted_state _ granted_state granted_state 4 (mkState (registry granted_state) 4) start_reachable sandbox_root).
Defined.
End FilesExample.
