(* ===== verification/OutputLocks.v ===== *)
(** * Output locks: [FileRegistry::lock] of [crates/extensions/src/files.rs]

    One callback at a time writes to one path.  The registry keeps weak references: a lock lives while a caller waits
    for it or holds its guard, and a path whose lock is dead gets another one.

    Threads interleave at every mutex: a call enters the registry, then looks at the owner again and again, and a
    guard gives the ownership up before its reference.  A call is known by a number. *)

From S2P Require Import Prelude CharText.

Inductive Phase := Waiting | Held | Released.
#[export] Instance phase_eq_dec : EqDecision Phase.
Proof. solve_decision. Defined.

(** A call in progress, or its guard: it holds a strong reference to its lock. *)
Record Call := mkCall { thread : Z; path : text; lock_id : nat; phase : Phase }.
#[export] Instance call_eq_dec : EqDecision Call.
Proof. solve_decision. Defined.

Record State := mkState {
  outputs : gmap text nat;        (** weak *)
  owners : gmap nat Z;            (** of the locks that have one *)
  calls : gmap nat Call;
  next_lock : nat;
  next_call : nat }.
Definition empty : State := mkState ∅ ∅ ∅ 0 0.

Definition strong_count (s : State) (l : nat) : nat := length (List.filter (fun e => bool_decide (lock_id e.2 = l)) (map_to_list (calls s))).
Definition is_live (s : State) (l : nat) : bool := (0 <? strong_count s l)%nat.
Definition retained (s : State) : gmap text nat := filter (fun e => is_live s e.2 = true) (outputs s).

Definition with_calls (f : gmap nat Call -> gmap nat Call) (s : State) : State :=
  mkState (outputs s) (owners s) (f (calls s)) (next_lock s) (next_call s).
Definition with_owners (f : gmap nat Z -> gmap nat Z) (s : State) : State :=
  mkState (outputs s) (f (owners s)) (calls s) (next_lock s) (next_call s).
Definition set_phase (c : nat) (p : Phase) : State -> State :=
  with_calls (alter (fun e => mkCall (thread e) (path e) (lock_id e) p) c).
Definition drop_call (c : nat) : State -> State := with_calls (delete c).

(** Entering the registry. *)
Definition enter (t : Z) (p : text) (s : State) : nat * State :=
  let outputs := retained s in
  let l := default (next_lock s) (outputs !! p) in
  (next_call s,
   mkState (<[p := l]> outputs) (owners s) (<[next_call s := mkCall t p l Waiting]> (calls s)) (max (next_lock s) (S l)) (S (next_call s))).

Definition IN_USE : string := "file output is already in use by this callback".

(** One look at the owner.  [check] is what the caller's check says now: an error, or nothing. *)
Definition poll (check : option string) (c : nat) (e : Call) (s : State) : option (result nat string) * State :=
  match owners s !! lock_id e, check with
  | _, Some message => (Some (Err message), drop_call c s)
  | Some id, None =>
    if bool_decide (id = thread e) then (Some (Err IN_USE), drop_call c s)
    else (None, s)
  | None, None => (Some (Ok c), set_phase c Held (with_owners <[lock_id e := thread e]> s))
  end.

(** [OutputGuard::drop], and the reference that goes after it. *)
Definition release (c : nat) (e : Call) (s : State) : State := set_phase c Released (with_owners (delete (lock_id e)) s).

Inductive step : State -> State -> Prop :=
  | step_enter t p s : step s (enter t p s).2
  | step_poll check c e s : calls s !! c = Some e -> phase e = Waiting -> step s (poll check c e s).2
  | step_release c e s : calls s !! c = Some e -> phase e = Held -> step s (release c e s)
  | step_drop c e s : calls s !! c = Some e -> phase e = Released -> step s (drop_call c s).

Definition reachable (s : State) : Prop := rtc step empty s.

(** ** One lock for one path *)

Record Inv (s : State) : Prop := mkInv {
  inv_output c e : calls s !! c = Some e -> outputs s !! path e = Some (lock_id e);
  inv_lock p q l : outputs s !! p = Some l -> outputs s !! q = Some l -> p = q;
  inv_fresh p l : outputs s !! p = Some l -> (l < next_lock s)%nat;
  inv_call c e : calls s !! c = Some e -> (c < next_call s)%nat;
  inv_held c e : calls s !! c = Some e -> phase e = Held -> owners s !! lock_id e = Some (thread e);
  inv_one c d e f : calls s !! c = Some e -> calls s !! d = Some f -> phase e = Held -> phase f = Held -> lock_id e = lock_id f -> c = d;
  inv_owner l t : owners s !! l = Some t -> exists c e, calls s !! c = Some e /\ phase e = Held /\ lock_id e = l /\ thread e = t }.

Lemma is_live_spec s l : is_live s l = true <-> exists c e, calls s !! c = Some e /\ lock_id e = l.
Proof.
  unfold is_live, strong_count. rewrite Nat.ltb_lt. split.
  - destruct (List.filter _ _) as [|[c e] r] eqn:E; [simpl; lia|]. intros _. exists c, e.
    assert (In (c, e) (List.filter (fun e : nat * Call => bool_decide (lock_id e.2 = l)) (map_to_list (calls s)))) as Hin by (rewrite E; by left).
    apply filter_In in Hin as [Hin Hl]. split; [by apply elem_of_map_to_list, list_elem_of_In|by apply bool_decide_eq_true in Hl].
  - intros (c & e & He & <-).
    assert (In (c, e) (List.filter (fun f : nat * Call => bool_decide (lock_id f.2 = lock_id e)) (map_to_list (calls s)))) as Hin.
    { apply filter_In. split; [by apply list_elem_of_In, elem_of_map_to_list|by apply bool_decide_eq_true]. }
    destruct (List.filter _ _); [done|simpl; lia].
Qed.

Lemma retained_spec s p l : retained s !! p = Some l <-> outputs s !! p = Some l /\ is_live s l = true.
Proof. unfold retained. by rewrite map_lookup_filter_Some. Qed.

Lemma inv_empty : Inv empty.
Proof. constructor; intros *; unfold empty; cbn; by rewrite lookup_empty. Qed.

Lemma inv_enter t p s : Inv s -> Inv (enter t p s).2.
Proof.
  intros [Ho Hl Hf Hc Hh H1 Hw]. cbn [enter snd]. set (l := default (next_lock s) (retained s !! p)).
  assert (forall q k, retained s !! q = Some k -> k = l -> q = p) as Hsame.
  { intros q k Hq ->. apply retained_spec in Hq as [Hq _]. destruct (retained s !! p) as [k|] eqn:E; cbn [default] in l.
    - apply retained_spec in E as [E _]. by eapply Hl.
    - apply Hf in Hq. unfold l in Hq. cbn in Hq. lia. }
  assert (forall c e, calls s !! c = Some e -> c <> next_call s) as Hnew by (intros c e He ->; apply Hc in He; lia).
  assert (forall c e, calls s !! c = Some e -> <[p := l]> (retained s) !! path e = Some (lock_id e)) as Hold.
  { intros c e He. assert (retained s !! path e = Some (lock_id e)) as E by (apply retained_spec; split; [by eapply Ho|apply is_live_spec; eauto]).
    destruct (decide (path e = p)) as [<-|Hne]; [rewrite lookup_insert_eq; unfold l; by rewrite E|by rewrite lookup_insert_ne]. }
  constructor; cbn [outputs owners calls next_lock next_call].
  - intros c e [[<- <-]|[_ He]]%lookup_insert_Some; [by rewrite lookup_insert_eq|by eapply Hold].
  - intros q r k [[<- <-]|[Hq Eq]]%lookup_insert_Some [[<- E]|[Hr Er]]%lookup_insert_Some; [done| | |].
    + symmetry. by eapply Hsame.
    + by eapply Hsame.
    + apply retained_spec in Eq as [Eq _], Er as [Er _]. by eapply Hl.
  - intros q k [[<- <-]|[_ Eq]]%lookup_insert_Some; [lia|]. apply retained_spec in Eq as [Eq _]. apply Hf in Eq. lia.
  - intros c e [[<- _]|[_ He]]%lookup_insert_Some; [lia|]. apply Hc in He. lia.
  - intros c e [[<- <-]|[_ He]]%lookup_insert_Some Hp; [done|by eapply Hh].
  - intros c d e f [[<- <-]|[_ He]]%lookup_insert_Some [[<- <-]|[_ Hf']]%lookup_insert_Some; try done. by apply H1.
  - intros k u Hk. destruct (Hw _ _ Hk) as (c & e & He & Hr). exists c, e. split; [|done]. rewrite lookup_insert_ne; [done|].
    intros E. by apply (Hnew _ _ He).
Qed.

(** A call that goes without owning its lock. *)
Lemma inv_drop c e s : Inv s -> calls s !! c = Some e -> phase e <> Held -> Inv (drop_call c s).
Proof.
  intros [Ho Hl Hf Hc Hh H1 Hw] He Hp. constructor; unfold drop_call, with_calls; cbn [outputs owners calls next_lock next_call]; try done.
  - intros d f [_ Hd]%lookup_delete_Some. by eapply Ho.
  - intros d f [_ Hd]%lookup_delete_Some. by eapply Hc.
  - intros d f [_ Hd]%lookup_delete_Some. by eauto.
  - intros d d' f f' [_ Hd]%lookup_delete_Some [_ Hd']%lookup_delete_Some. intros; by eapply (H1 d d').
  - intros k u Hk. destruct (Hw _ _ Hk) as (d & f & Hd & Hr). exists d, f. split; [|done]. rewrite lookup_delete_ne; [done|]. intros ->. naive_solver.
Qed.

(** A call that gets its lock. *)
Lemma inv_acquire c e s : Inv s -> calls s !! c = Some e -> owners s !! lock_id e = None ->
  Inv (set_phase c Held (with_owners <[lock_id e := thread e]> s)).
Proof.
  intros [Ho Hl Hf Hc Hh H1 Hw] He Hn. constructor; unfold set_phase, with_calls, with_owners; cbn [outputs owners calls next_lock next_call]; try done.
  - intros d f [(<- & g & Hg & ->)|[_ Hd]]%lookup_alter_Some; cbn [path lock_id]; by eapply Ho.
  - intros d f [(<- & g & Hg & ->)|[_ Hd]]%lookup_alter_Some; by eapply Hc.
  - intros d f [(<- & g & Hg & ->)|[_ Hd]]%lookup_alter_Some Hp; cbn [lock_id thread].
    + rewrite He in Hg. injection Hg as <-. by rewrite lookup_insert_eq.
    + rewrite lookup_insert_ne; [by apply Hh with d|]. intros E. pose proof (Hh _ _ Hd Hp). congruence.
  - intros d d' f f' [(<- & g & Hg & ->)|[Hne Hd]]%lookup_alter_Some [(<- & g' & Hg' & ->)|[Hne' Hd']]%lookup_alter_Some; cbn [lock_id phase]; intros Hp Hp' E.
    + done.
    + pose proof (Hh _ _ Hd' Hp'). assert (g = e) as -> by congruence. congruence.
    + pose proof (Hh _ _ Hd Hp). assert (g' = e) as -> by congruence. congruence.
    + by eapply H1.
  - intros k u [[<- <-]|[Hne Hk]]%lookup_insert_Some.
    + exists c, (mkCall (thread e) (path e) (lock_id e) Held). rewrite lookup_alter_eq, He. done.
    + destruct (Hw _ _ Hk) as (d & f & Hd & Hr). exists d, f. split; [|done]. rewrite lookup_alter_ne; [done|]. intros <-. naive_solver.
Qed.

(** A guard that gives its lock up. *)
Lemma inv_release c e s : Inv s -> calls s !! c = Some e -> phase e = Held -> Inv (release c e s).
Proof.
  intros [Ho Hl Hf Hc Hh H1 Hw] He Hp.
  constructor; unfold release, set_phase, with_calls, with_owners; cbn [outputs owners calls next_lock next_call]; try done.
  - intros d f [(<- & g & Hg & ->)|[_ Hd]]%lookup_alter_Some; cbn [path lock_id]; by eapply Ho.
  - intros d f [(<- & g & Hg & ->)|[_ Hd]]%lookup_alter_Some; by eapply Hc.
  - intros d f [(<- & g & Hg & ->)|[Hne Hd]]%lookup_alter_Some Hq; [done|]. rewrite lookup_delete_ne; [by apply Hh with d|].
    intros E. apply Hne. by eapply (H1 c d e f).
  - intros d d' f f' [(<- & g & Hg & ->)|[Hne Hd]]%lookup_alter_Some [(<- & g' & Hg' & ->)|[Hne' Hd']]%lookup_alter_Some; try done. by apply H1.
  - intros k u [Hne Hk]%lookup_delete_Some. destruct (Hw _ _ Hk) as (d & f & Hd & Hr). exists d, f. split; [|done].
    rewrite lookup_alter_ne; [done|]. intros <-. naive_solver.
Qed.

Lemma inv_step s s' : Inv s -> step s s' -> Inv s'.
Proof.
  intros Hs Hstep. destruct Hstep as [t p s|check c e s He Hp|c e s He Hp|c e s He Hp];
    [by apply inv_enter| |by apply inv_release|eapply inv_drop; [done..|by rewrite Hp]].
  assert (phase e <> Held) as Hn by by rewrite Hp. unfold poll. destruct (owners s !! lock_id e) as [u|] eqn:E, check as [m|]; cbn [snd].
  - by eapply inv_drop.
  - case_bool_decide; cbn [snd]; [by eapply inv_drop|done].
  - by eapply inv_drop.
  - by apply inv_acquire.
Qed.

Lemma reachable_locks_inv s : reachable s -> Inv s.
Proof. intros Hs. assert (Inv empty) as H by apply inv_empty. induction Hs; [done|]. eauto using inv_step. Qed.

(** of all the callbacks that write to one path, however their calls interleave, one at most holds its lock: two
    guards of one path are the same guard.  Its thread is recorded as the owner as long as it holds it. *)
Theorem output_lock_exclusive s c d e f : reachable s ->
  calls s !! c = Some e -> calls s !! d = Some f -> phase e = Held -> phase f = Held -> path e = path f ->
  c = d /\ owners s !! lock_id e = Some (thread e).
Proof.
  intros Hs He Hf Hpe Hpf Hp. destruct (reachable_locks_inv s Hs) as [Ho _ _ _ Hh H1 _]. split; [|by apply Hh with c].
  apply (H1 c d e f); try done. apply Ho in He, Hf. congruence.
Qed.

(** no call waits for nothing or for itself.  A call whose check is fine gets its lock the moment nobody holds
    one of the path; while another thread holds it, it waits and changes nothing; and a thread that holds it already
    gets an error, not a deadlock. *)
Theorem output_lock_progress s c e : reachable s -> calls s !! c = Some e -> phase e = Waiting ->
  (forall d f, calls s !! d = Some f -> phase f = Held -> path f <> path e) /\ (poll None c e s).1 = Some (Ok c) /\
    calls (poll None c e s).2 !! c = Some (mkCall (thread e) (path e) (lock_id e) Held)
  \/ (exists d f, calls s !! d = Some f /\ phase f = Held /\ path f = path e /\
      if decide (thread f = thread e) then poll None c e s = (Some (Err IN_USE), drop_call c s) else poll None c e s = (None, s)).
Proof.
  intros Hs He Hp. destruct (reachable_locks_inv s Hs) as [Ho Hl _ _ Hh H1 Hw]. unfold poll.
  destruct (owners s !! lock_id e) as [u|] eqn:E.
  - right. destruct (Hw _ _ E) as (d & f & Hf & Hpf & Hlf & Htf). exists d, f. split; [done|]. split; [done|]. split.
    + apply (Hl _ _ (lock_id e)); [rewrite <- Hlf; by apply (Ho d)|by apply (Ho c)].
    + rewrite Htf. case_bool_decide; by destruct (decide _).
  - left. split; [|split; [done|]].
    + intros d f Hf Hpf Hpath. pose proof (Hh _ _ Hf Hpf) as Hheld. apply Ho in He, Hf. congruence.
    + cbn. by rewrite lookup_alter_eq, He.
Qed.

Module LocksExample.
Definition a : text := lit "/music/a.flac".
(** Thread 1 holds the lock, thread 2 and thread 1 itself wait for it. *)
Definition held : State :=
  (poll None 0 (mkCall 1 a 0 Waiting) (enter 1 a (enter 2 a (enter 1 a empty).2).2).2).2.

Lemma held_reachable : reachable held.
Proof.
  eapply rtc_l; [apply (step_enter 1 a)|]. eapply rtc_l; [apply (step_enter 2 a)|]. eapply rtc_l; [apply (step_enter 1 a)|].
  apply rtc_once. by apply step_poll.
Qed.

Example held_calls : map_to_list (owners held) = [(0%nat, 1)] /\
  (poll None 1 (mkCall 2 a 0 Waiting) held).1 = None /\ (poll None 2 (mkCall 1 a 0 Waiting) held).1 = Some (Err IN_USE).
Proof. vm_compute. done. Qed.

Lemma output_lock_exclusive_witness : calls held !! 0%nat = Some (mkCall 1 a 0 Held) /\ owners held !! 0%nat = Some 1.
Proof.
  split; [reflexivity|].
  exact (proj2 (output_lock_exclusive held 0 0 _ _ held_reachable eq_refl eq_refl eq_refl eq_refl eq_refl)).
Defined.

Lemma output_lock_progress_witness : calls held !! 1%nat = Some (mkCall 2 a 0 Waiting) /\
  ((forall d f, calls held !! d = Some f -> phase f = Held -> path f <> a) /\ (poll None 1 (mkCall 2 a 0 Waiting) held).1 = Some (Ok 1%nat) /\
    calls (poll None 1 (mkCall 2 a 0 Waiting) held).2 !! 1%nat = Some (mkCall 2 a 0 Held)
  \/ exists d f, calls held !! d = Some f /\ phase f = Held /\ path f = a /\
      if decide (thread f = 2) then poll None 1 (mkCall 2 a 0 Waiting) held = (Some (Err IN_USE), drop_call 1 held)
      else poll None 1 (mkCall 2 a 0 Waiting) held = (None, held)).
Proof. split; [reflexivity|]. exact (output_lock_progress held 1 (mkCall 2 a 0 Waiting) held_reachable eq_refl eq_refl). Defined.
End LocksExample.
