(* ===== verification/Mp4Atoms.v ===== *)
(** * Atoms of MP4 files: [Reader] of [crates/core/src/media/mp4.rs] and the editing of [tags/write/mp4.rs]

    A file is a sequence of atoms, and so is what some atoms hold.  The editor reads the [moov] atom whole, replaces a
    range of it, gives the atoms around the range their new size, and moves the offsets that tracks keep of their
    chunks in the file.

    What works on the bytes in memory only ends early when the data is broken or when a check cancels it; [locate_meta]
    tells the two apart, so such an error says which it is: [true] for a check. *)

From S2P Require Import Prelude Monads UnicodeText TagIo.

Record Atom := mkAtom { a_start : Z; a_end : Z; a_payload : Z; a_kind : bytes }.

Definition kind_of (s : string) : bytes := str_bytes s.
Definition MAX_ATOMS : Z := 65536.

(** [build]: an atom around a payload. *)
Definition build (kind payload : bytes) : bytes := be_bytes 4 (len payload + 8) ++ kind ++ payload.

(** Bytes put over those at an index. *)
Definition write_at (data : bytes) (index : Z) (bs : bytes) : bytes :=
  take (Z.to_nat index) data ++ bs ++ drop (Z.to_nat (index + len bs)) data.

Section atoms.
Context `{Source}.
Abbreviation P := (St Io string).
Abbreviation M := (St Io (bool * string)).

Definition guard : M unit := mapping (pair true) check.
Definition broken {A} (e : string) : M A := throw (false, e).
Definition in_memory {A} (m : M A) : P A := mapping snd m.

(** What a header says: the size of the atom, the length of the header and the kind.  [long] reads a long size. *)
Definition header_of (b : bytes) (size offset end_ : Z) (long : result Z string) : result (Z * Z * bytes) string :=
  let kind := drop 4 b in
  let n := from_be (take 4 b) in
  let? x := (if n =? 1 then let? n := long in Ok (n, 16) else Ok (if n =? 0 then Z.max 0 (end_ - offset) else n, 8)) in
  let '(n, header) := x in
  if (n <? header) || (2 ^ 64 <=? offset + n) || (i64_max <? n) then
    Err ("invalid atom size for " ++ from_utf8_lossy kind)%string
  else Ok (n, header, kind).
Definition atom_at (offset : Z) (h : Z * Z * bytes) : Atom :=
  let '(n, header, kind) := h in mkAtom offset (offset + n) (offset + header) kind.

(** [media::read_at], and [Reader::atom] on a file. *)
Definition read_at_offset (n offset : Z) : P bytes :=
  seek offset;;
  mapping (fun e => if String.eqb e "unexpected EOF" then "EOF"%string else e) (bytes_of n).
Definition file_atom (size offset end_ : Z) : P Atom :=
  check;;
  if size <? offset + 8 then throw "unexpected EOF"%string
  else
    do b <- read_at_offset 8 offset;
    do long <- (if from_be (take 4 b) =? 1 then
                  if size <? offset + 16 then throw "unexpected EOF"%string
                  else do b <- read_at_offset 8 (offset + 8); ret (from_be b)
                else ret 0);
    match header_of b size offset end_ (Ok long) with Ok h => ret (atom_at offset h) | Err e => throw e end.

(** [atom]: [Reader::atom] on bytes, within its parent. *)
Definition read_header (data : bytes) (offset end_ : Z) : result (Z * Z * bytes) string :=
  let size := len data in
  if size <? offset + 8 then Err "unexpected EOF"%string
  else
    header_of (slice data offset (offset + 8)) size offset end_
      (if size <? offset + 16 then Err "unexpected EOF"%string else Ok (from_be (slice data (offset + 8) (offset + 16)))).
Definition atom (data : bytes) (start end_ : Z) : M Atom :=
  guard;;
  match read_header data start end_ with
  | Err e => broken e
  | Ok h =>
    let a := atom_at start h in
    if (end_ <? a_end a) || (len data <? a_end a) then broken "MP4 atom extends past parent" else ret a
  end.

(** The loops end by themselves: every atom has at least eight bytes. *)
Fixpoint children_loop (fuel : nat) (data : bytes) (start end_ : Z) (found : list Atom) : M (list Atom) :=
  if end_ <? start + 8 then ret found
  else if MAX_ATOMS <=? len found then broken "MP4 atom count exceeds 65536"
  else
    match fuel with
    | O => broken "out of fuel"
    | S fuel => do child <- atom data start end_; children_loop fuel data (a_end child) end_ (found ++ [child])
    end.
Definition children (data : bytes) (start end_ : Z) : M (list Atom) := children_loop (length data) data start end_ [].

Fixpoint find_loop (fuel : nat) (count : Z) (data : bytes) (start end_ : Z) (kind : bytes) : M (option Atom) :=
  if count <=? 0 then broken "MP4 atom count exceeds 65536"
  else if end_ <? start + 8 then ret None
  else
    match fuel with
    | O => broken "out of fuel"
    | S fuel =>
      do child <- atom data start end_;
      if bool_decide (a_kind child = kind) then ret (Some child) else find_loop fuel (count - 1) data (a_end child) end_ kind
    end.
Definition find (data : bytes) (start end_ : Z) (kind : string) : M (option Atom) :=
  find_loop (length data) MAX_ATOMS data start end_ (kind_of kind).

(** [load]: an atom of the file, whole. *)
Fixpoint load_loop (fuel : nat) (count size start : Z) (kind : bytes) : P (option FileSection) :=
  if count <=? 0 then throw "MP4 atom count exceeds 65536"%string
  else if size <? start + 8 then ret None
  else
    match fuel with
    | O => throw "out of fuel"%string
    | S fuel =>
      do a <- file_atom size start size;
      if size <? a_end a then throw "MP4 atom extends past end of file"%string
      else if bool_decide (a_kind a = kind) then
        let length := a_end a - a_start a in
        if MAX_TAG_BYTES <? length then throw "MP4 metadata exceeds 64 MiB"%string
        else
          seek start;;
          do data <- bytes_of length;
          ret (Some (mkSection start (a_end a) data))
      else load_loop fuel (count - 1) size (a_end a) kind
    end.
Definition load (kind : string) : P (option FileSection) :=
  do size <- seek (len content);
  load_loop (length content) MAX_ATOMS size 0 (kind_of kind).

(** ** Replacing a range *)

Definition grow (data : bytes) (a : Atom) (delta : Z) : M bytes :=
  let size := a_end a - a_start a + delta in
  if (size <? 0) || (2 ^ 64 <=? size) then broken "invalid resized MP4 atom"
  else if a_payload a - a_start a =? 16 then
    ret (write_at (write_at data (a_start a) (be_bytes 4 1)) (a_start a + 8) (be_bytes 8 size))
  else if 2 ^ 32 <=? size then broken "MP4 atom too large for 32-bit header"
  else ret (write_at data (a_start a) (be_bytes 4 size)).

Fixpoint grow_all (data : bytes) (ancestors : list Atom) (delta : Z) : M bytes :=
  match ancestors with
  | [] => ret data
  | a :: ancestors => do data <- grow data a delta; grow_all data ancestors delta
  end.

(** The first descendant of each kind in turn. *)
Fixpoint descend (data : bytes) (parent : option Atom) (kinds : list string) : M (option Atom) :=
  match kinds with
  | [] => ret parent
  | kind :: kinds =>
    do child <- match parent with Some p => find data (a_payload p) (a_end p) kind | None => ret None end;
    descend data child kinds
  end.

Definition shift_entry (width value delta : Z) : M bytes :=
  let shifted := value + delta in
  if (shifted <? 0) || (2 ^ 64 <=? shifted) then broken "MP4 chunk offset overflow"
  else if (width =? 4) && (2 ^ 32 <=? shifted) then broken "MP4 stco offset overflow"
  else ret (be_bytes (Z.to_nat width) shifted).

Fixpoint shift_entries (count : nat) (data : bytes) (offset end_ width position delta : Z) : M bytes :=
  match count with
  | O => ret data
  | S count =>
    guard;;
    if end_ <? offset + width then ret data
    else
      let value := from_be (slice data offset (offset + width)) in
      do data <- (if position <=? value then do bs <- shift_entry width value delta; ret (write_at data offset bs)
                  else ret data);
      shift_entries count data (offset + width) end_ width position delta
  end.

Definition TABLES : list (string * Z) := [("stco", 4); ("co64", 8)]%string.

Definition shift_table (data : bytes) (parent : Atom) (kind : string) (width position delta : Z) : M bytes :=
  do table <- find data (a_payload parent) (a_end parent) kind;
  match table with
  | None => ret data
  | Some table =>
    let begin := a_payload table in
    if a_end table <? begin + 8 then ret data
    else
      let count := from_be (slice data (begin + 4) (begin + 8)) in
      let steps := (a_end table - (begin + 8) + width - 1) / width in
      shift_entries (Z.to_nat (Z.min count steps)) data (begin + 8) (a_end table) width position delta
  end.

Fixpoint shift_tables (data : bytes) (parent : Atom) (tables : list (string * Z)) (position delta : Z) : M bytes :=
  match tables with
  | [] => ret data
  | (kind, width) :: tables =>
    do data <- shift_table data parent kind width position delta;
    shift_tables data parent tables position delta
  end.

Definition PATH : list string := ["mdia"; "minf"; "stbl"]%string.

Fixpoint shift_tracks (data : bytes) (tracks : list Atom) (position delta : Z) : M bytes :=
  match tracks with
  | [] => ret data
  | track :: tracks =>
    do parent <- descend data (Some track) PATH;
    do data <- match parent with Some parent => shift_tables data parent TABLES position delta | None => ret data end;
    shift_tracks data tracks position delta
  end.

Definition is_kind (kind : string) (a : Atom) : bool := bool_decide (a_kind a = kind_of kind).

Definition shift_offsets (data : bytes) (position delta : Z) : M bytes :=
  if delta =? 0 then ret data
  else
    do moov <- atom data 0 (len data);
    do atoms <- children data (a_payload moov) (a_end moov);
    shift_tracks data (List.filter (is_kind "trak") atoms) position delta.

Definition replace (data : bytes) (start end_ : Z) (replacement : bytes) (ancestors : list Atom) (base : Z) : M bytes :=
  guard;;
  let delta := len replacement - (end_ - start) in
  if (len data + delta <? 0) || (MAX_TAG_BYTES <? len data + delta) then broken "MP4 metadata exceeds 64 MiB"
  else
    let data := take (Z.to_nat start) data ++ replacement ++ drop (Z.to_nat end_) data in
    do data <- grow_all data ancestors delta;
    shift_offsets data (base + start) delta.

(** ** Where the items are *)

Record Location := mkLocation { ilst : Atom; ancestors : list Atom }.

(** Behind the version of [meta], or without one where QuickTime has none. *)
Definition locate_meta (data : bytes) (meta : Atom) (quicktime : bool) : M (option Atom) :=
  do iso <- attempt (find data (a_payload meta + 4) (a_end meta) "ilst");
  match iso with
  | Ok (Some a) => ret (Some a)
  | Err (true, e) => throw (true, e)
  | Ok None => if quicktime then find data (a_payload meta) (a_end meta) "ilst" else ret None
  | Err (false, e) => if quicktime then find data (a_payload meta) (a_end meta) "ilst" else throw (false, e)
  end.

(** The items below a [meta] atom of a parent. *)
Definition locate_in (data : bytes) (parents : list Atom) (parent : Atom) (quicktime : bool) : M (option Location) :=
  do m <- find data (a_payload parent) (a_end parent) "meta";
  match m with
  | None => ret None
  | Some m =>
    do i <- locate_meta data m quicktime;
    ret (match i with Some i => Some (mkLocation i (parents ++ [m])) | None => None end)
  end.

Definition locate (data : bytes) (quicktime : bool) : M (option Location) :=
  do moov <- atom data 0 (len data);
  if negb (is_kind "moov" moov) then broken "moov not found"
  else
    do udta <- find data (a_payload moov) (a_end moov) "udta";
    do l <- match udta with Some udta => locate_in data [moov; udta] udta quicktime | None => ret None end;
    match l with
    | Some l => ret (Some l)
    | None => locate_in data [moov] moov quicktime
    end.

(** An empty [meta], with the handler of its items. *)
Definition meta_atom (body : bytes) : bytes :=
  let handler := replicate 8 0 ++ kind_of "mdir" ++ kind_of "appl" ++ replicate 9 0 in
  build (kind_of "meta") (replicate 4 0 ++ build (kind_of "hdlr") handler ++ build (kind_of "ilst") body).

(** Where the atoms that are missing go, what they are, and what is around them. *)
Definition missing (data : bytes) : M (Z * bytes * list Atom) :=
  do moov <- atom data 0 (len data);
  do udta <- find data (a_payload moov) (a_end moov) "udta";
  match udta with
  | None => ret (a_end moov, build (kind_of "udta") (meta_atom []), [moov])
  | Some udta =>
    do m <- find data (a_payload udta) (a_end udta) "meta";
    match m with
    | None => ret (a_end udta, meta_atom [], [moov; udta])
    | Some m => ret (a_end m, build (kind_of "ilst") [], [moov; udta; m])
    end
  end.

Definition ensure_ilst (data : bytes) (base : Z) : M (bytes * Location) :=
  do l <- locate data false;
  match l with
  | Some l => ret (data, l)
  | None =>
    do x <- missing data;
    let '(position, inserted, ancestors) := x in
    do data <- replace data position position inserted ancestors base;
    do l <- locate data false;
    match l with Some l => ret (data, l) | None => broken "failed to create ilst" end
  end.
End atoms.
