(* ===== verification/Mp4Tags.v ===== *)
(** * Tags of MP4 files: [edit] and [edit_freeform] of [crates/core/src/tags/write/mp4.rs]

    The items of a file are the children of its [ilst] atom: texts, pairs of numbers, flags and covers by their kind,
    and freeform items by the name they hold.  An edit drops the items it replaces and appends the new ones. *)

From S2P Require Import Prelude Monads Float64 FloatText RustText UnicodeText Matching TagIo VorbisComments FlacTags TagFields Mp4Atoms.

(** What is not in the repository: the number a regular expression finds in a text, and the power function. *)
Class GainText := { find_number : string -> option string; powf : f64 -> f64 -> f64 }.

(** ** Items *)

Definition value_atom (kind : bytes) (data_type : Z) (value : bytes) : bytes :=
  build kind (build (kind_of "data") (be_bytes 4 data_type ++ replicate 4 0 ++ value)).

Definition freeform (name value : string) : bytes :=
  build (kind_of "----")
    (build (kind_of "mean") (replicate 4 0 ++ str_bytes "com.apple.iTunes")
     ++ build (kind_of "name") (replicate 4 0 ++ str_bytes name)
     ++ build (kind_of "data") ([0; 0; 0; 1; 0; 0; 0; 0] ++ str_bytes value)).

(** A kind that begins with the copyright sign. *)
Definition c_kind (s : string) : bytes := 169 :: str_bytes s.

Definition positive (value : string) : Z := Z.max 0 (default 0 (parse_i64 (trim value))).

(** [trim_end_matches('\0')]. *)
Fixpoint drop_nul (l : list ascii) : list ascii :=
  match l with a :: l' => if Ascii.eqb a (ascii_of_nat 0) then drop_nul l' else l | [] => [] end.
Definition trim_end_nul (s : string) : string := unchars (rev (drop_nul (rev (chars s)))).

(** ** Sound Check *)

Section gain.
Context `{GainText}.

Definition GAIN_FIELDS : list string :=
  ["replaygain_track_gain"; "replaygain_track_peak"; "replaygain_album_gain"; "replaygain_album_peak"].

Definition gain_number (value : f64) : Z :=
  let value := f64_round value in
  if negb (is_finite value) || negb (f64_le (f64_of (- 2 ^ 63)) value && f64_lt value (f64_of (2 ^ 63))) then 0
  else clamp (as_i64 value) 0 65534.

Fixpoint hex_digits (n : nat) (z : Z) : string :=
  match n with
  | O => ""
  | S n => hex_digits n (z / 16) ++ unchars [nth (Z.to_nat (z mod 16)) (chars "0123456789ABCDEF") (ascii_of_nat 48)]
  end.

Definition linear (gain : f64) (scale : Z) : Z :=
  gain_number (f64_mul (powf (f64_of 10) (f64_div gain (f64_of (-10)))) (f64_of scale)).
Definition sound_check (gain peak : f64) : string :=
  let g1 := linear gain 1000 in
  let g2 := linear gain 2500 in
  let peak := gain_number (f64_mul peak (f64_of 32768)) in
  String.concat " " (map (hex_digits 8) [g1; g1; g2; g2; 0; 0; peak; peak; 0; 0]).

Definition replay_gain (fields : Fields) : Fields :=
  let result : Fields := list_to_map (omap (fun name => (fun v => (name, trim v)) <$> fields !! name) GAIN_FIELDS) in
  let result := if clears_replay_gain fields then result else filter (fun e => is_empty e.2 = false) result in
  let gain := v ← result !! "replaygain_track_gain"%string; n ← find_number v; parse_f64 n in
  let peak := p ← (v ← result !! "replaygain_track_peak"%string; parse_f64 v);
              if is_nan p || f64_gt p (f64_of 0) then Some p else None in
  match gain, peak with
  | Some gain, Some peak => <["iTunNORM"%string := sound_check gain peak]> result
  | _, _ => result
  end.
End gain.

Definition GAIN_NAMES : list string :=
  ["REPLAYGAIN_TRACK_GAIN"; "REPLAYGAIN_TRACK_PEAK"; "REPLAYGAIN_ALBUM_GAIN"; "REPLAYGAIN_ALBUM_PEAK"; "ITUNNORM"].

(** ** What an edit adds and drops *)

Definition TEXT_KINDS : list (string * bytes) :=
  [("title", c_kind "nam"); ("artist", c_kind "ART"); ("album", c_kind "alb"); ("album_artist", kind_of "aART"); ("date", c_kind "day");
   ("genre", c_kind "gen"); ("composer", c_kind "wrt"); ("comment", c_kind "cmt"); ("copyright", kind_of "cprt"); ("lyrics", c_kind "lyr")]%string.
Definition FREEFORM_NAMES : list (string * string) :=
  [("isrc", "ISRC"); ("label", "LABEL"); ("album_type", "RELEASETYPE"); ("upc", "BARCODE")]%string.
Definition FLAG_KINDS : list (string * bytes * Z) := [("explicit", kind_of "rtng", 21); ("compilation", kind_of "cpil", 22)]%string.
Definition INDEX_KINDS : list (string * string * bytes * nat) :=
  [("track_number", "track_total", kind_of "trkn", 8%nat); ("disc_number", "disc_total", kind_of "disk", 6%nat)]%string.

Definition given (fields : Fields) (f : string) : bool := bool_decide (is_Some (fields !! f)).
Definition is_blank (s : string) : bool := is_empty (trim s).

Section edit.
Context `{Unicode} `{Splits} `{GainText} `{Source}.
Abbreviation P := (St Io string).
Abbreviation M := (St Io (bool * string)).

Definition drop_kinds (fields : Fields) (cover : option bytes) : list bytes :=
  flat_map (fun '(f, kind) => if given fields f then kind :: (if String.eqb f "genre" then [kind_of "gnre"] else []) else []) TEXT_KINDS
  ++ flat_map (fun '(f, kind, _) => if given fields f then [kind] else []) FLAG_KINDS
  ++ match cover with Some _ => [kind_of "covr"] | None => [] end.

Definition remove_names (fields : Fields) : list string :=
  flat_map (fun '(f, name) => if given fields f then [name] else []) FREEFORM_NAMES
  ++ (if given fields "label" then ["ORGANIZATION"%string] else [])
  ++ (if given fields "lyrics" then ["LYRICS"; "UNSYNCEDLYRICS"; "SYNCEDLYRICS"]%string else [])
  ++ (if bool_decide (replay_gain fields = ∅) then [] else GAIN_NAMES).

Definition gain_items (values : Fields) : bytes :=
  flat_map (fun '(name, value) => if is_empty value then [] else freeform name value) (btree_iter values).

(** The new items whatever the file holds. *)
Definition appended (fields : Fields) : bytes :=
  flat_map (fun '(f, kind) => match fields !! f with
                              | Some value => if is_blank value then [] else value_atom kind 1 (str_bytes value)
                              | None => [] end) TEXT_KINDS
  ++ flat_map (fun '(f, name) => match fields !! f with
                                 | Some value => if is_blank value then [] else freeform name (trim value)
                                 | None => [] end) FREEFORM_NAMES
  ++ flat_map (fun '(f, kind, type) => match fields !! f with
                                       | Some value => if truthy value then value_atom kind type [1] else []
                                       | None => [] end) FLAG_KINDS
  ++ gain_items (replay_gain fields).

(** The pair of a kind, over the one the file has. *)
Definition index_item (fields : Fields) (current : Z * Z) (f total : string) (kind : bytes) (length : nat) : bytes :=
  if given fields f || given fields total then
    let number := match fields !! f with Some v => positive v | None => current.1 end in
    let total := match fields !! total with Some v => positive v | None => current.2 end in
    if 0 <? number then
      value_atom kind 0 (take length (replicate 2 0 ++ be_bytes 2 number ++ be_bytes 2 total ++ replicate 2 0))
    else []
  else [].

Definition PNG : bytes := 137 :: str_bytes "PNG".
Definition cover_item (cover : option bytes) : bytes :=
  match cover with
  | Some cover => value_atom (kind_of "covr") (if bool_decide (take 4 cover = PNG) then 14 else 13) cover
  | None => []
  end.

(** ** The items of a file *)

Definition freeform_name (data : bytes) (parent : Atom) : M string :=
  do name <- find data (a_payload parent) (a_end parent) "name";
  match name with
  | None => ret ""%string
  | Some name =>
    if a_end name <=? a_payload name + 4 then ret ""%string
    else ret (trim (trim_end_nul (from_utf8_lossy (slice data (a_payload name + 4) (a_end name)))))
  end.

Definition index_pair (data : bytes) (parent : Atom) : M (Z * Z) :=
  do value <- find data (a_payload parent) (a_end parent) "data";
  match value with
  | None => ret (0, 0)
  | Some value =>
    if a_end value <? a_payload value + 14 then ret (0, 0)
    else
      let start := a_payload value + 8 in
      ret (from_be (slice data (start + 2) (start + 4)), from_be (slice data (start + 4) (start + 6)))
  end.

(** The items that stay, and the pairs of track and disc. *)
Record Kept := mkKept { body : bytes; track : Z * Z; disc : Z * Z }.
Definition keep (data : bytes) (child : Atom) (k : Kept) : Kept :=
  mkKept (body k ++ slice data (a_start child) (a_end child)) (track k) (disc k).

Definition edit_track (fields : Fields) : bool := given fields "track_number" || given fields "track_total".
Definition edit_disc (fields : Fields) : bool := given fields "disc_number" || given fields "disc_total".

Definition keep_child (fields : Fields) (cover : option bytes) (data : bytes) (k : Kept) (child : Atom) : M Kept :=
  if bool_decide (a_kind child ∈ drop_kinds fields cover) then ret k
  else if is_kind "trkn" child then
    do pair <- index_pair data child;
    let k := mkKept (body k) pair (disc k) in
    ret (if edit_track fields then k else keep data child k)
  else if is_kind "disk" child then
    do pair <- index_pair data child;
    let k := mkKept (body k) (track k) pair in
    ret (if edit_disc fields then k else keep data child k)
  else if is_kind "----" child then
    do name <- freeform_name data child;
    ret (if bool_decide (uppercase name ∈ remove_names fields) then k else keep data child k)
  else ret (keep data child k).

Fixpoint keep_children (fields : Fields) (cover : option bytes) (data : bytes) (k : Kept) (l : list Atom) : M Kept :=
  match l with
  | [] => ret k
  | child :: l => do k <- keep_child fields cover data k child; keep_children fields cover data k l
  end.

Definition index_items (fields : Fields) (k : Kept) : bytes :=
  index_item fields (track k) "track_number" "track_total" (kind_of "trkn") 8
  ++ index_item fields (disc k) "disc_number" "disc_total" (kind_of "disk") 6.

Definition edit_section (fields : Fields) (cover : option bytes) (section : FileSection) : M FileSection :=
  do x <- ensure_ilst (data section) (start section);
  let '(data, location) := x in
  do items <- children data (a_payload (ilst location)) (a_end (ilst location));
  do k <- keep_children fields cover data (mkKept [] (0, 0) (0, 0)) items;
  let added := appended fields ++ index_items fields k ++ cover_item cover in
  if MAX_TAG_BYTES <? len (body k) + len added then broken "MP4 metadata exceeds 64 MiB"
  else
    do data <- replace data (a_start (ilst location)) (a_end (ilst location)) (build (kind_of "ilst") (body k ++ added))
                 (ancestors location) (start section);
    ret (mkSection (start section) (finish section) data).

Definition load_moov : P FileSection :=
  do section <- load "moov";
  match section with Some section => ret section | None => throw "moov not found"%string end.

Definition edit (fields : Fields) (cover : option bytes) : P (list FileSection) :=
  do section <- load_moov;
  do section <- in_memory (edit_section fields cover section);
  ret [section].

(** The branch of [rewrite_audio_tags] for MP4 files. *)
Definition rewrite_mp4_tags (fields : Fields) (cover : option bytes) : P unit :=
  check;;
  validate_fields fields;;
  let fields := artist_mode_fields fields in
  seek 0;;
  do sections <- edit fields (not_empty cover);
  write_sections sections.

(** ** Freeform items alone *)

(** The names to remove and the values to write; nothing to do when there are none. *)
Definition freeform_edit (fields : Fields) (replay_gain_only : bool) : option (list string * Fields) :=
  if replay_gain_only then
    let values := replay_gain fields in
    if bool_decide (values = ∅) then None else Some (GAIN_NAMES, values)
  else
    let pairs := [("isrc", "ISRC"); ("label", "LABEL")]%string in
    let values : Fields := list_to_map (omap (fun '(f, name) => (fun v => (name, trim v)) <$> fields !! f) pairs) in
    let names := flat_map (fun '(f, name) => if given fields f then name :: (if String.eqb f "label" then ["ORGANIZATION"%string] else []) else []) pairs in
    if bool_decide (values = ∅) then None else Some (names, values).

Fixpoint keep_unnamed (names : list string) (data : bytes) (body : bytes) (l : list Atom) : M bytes :=
  match l with
  | [] => ret body
  | child :: l =>
    do gone <- (if is_kind "----" child then
                  do name <- freeform_name data child; ret (bool_decide (uppercase name ∈ names))
                else ret false);
    keep_unnamed names data (if gone then body else body ++ slice data (a_start child) (a_end child)) l
  end.

Fixpoint put_values (body : bytes) (values : list (string * string)) : M bytes :=
  match values with
  | [] => ret body
  | (name, value) :: values =>
    let body := if is_empty value then body else body ++ freeform name value in
    if MAX_TAG_BYTES <? len body then broken "MP4 metadata exceeds 64 MiB" else put_values body values
  end.

Definition edit_freeform_section (names : list string) (values : Fields) (section : FileSection) : M (list FileSection) :=
  do location <- locate (data section) true;
  match location with
  | None => ret []
  | Some location =>
    do items <- children (data section) (a_payload (ilst location)) (a_end (ilst location));
    do body <- keep_unnamed names (data section) [] items;
    do body <- put_values body (btree_iter values);
    do data <- replace (data section) (a_start (ilst location)) (a_end (ilst location)) (build (kind_of "ilst") body)
                 (ancestors location) (start section);
    ret [mkSection (start section) (finish section) data]
  end.

Definition edit_freeform (fields : Fields) (replay_gain_only : bool) : P (list FileSection) :=
  match freeform_edit fields replay_gain_only with
  | None => ret []
  | Some (names, values) =>
    do section <- load_moov;
    in_memory (edit_freeform_section names values section)
  end.

Definition rewrite_m4a_freeform (fields : Fields) (replay_gain_only : bool) : P bool :=
  check;;
  validate_fields fields;;
  do sections <- edit_freeform fields replay_gain_only;
  write_optional_sections sections.
End edit.
