(* ===== verification/Mp4Shape.v ===== *)
(** * The shape of atoms

    What the bytes of an MP4 file are, said without positions: a sequence of parts, each a header and a payload.
    The operations of [Mp4Atoms] on bytes in memory are shown to find these parts. *)

From S2P Require Import Prelude Monads UnicodeText TagIo Mp4Atoms.

Record Part := mkPart { p_kind : bytes; p_header : bytes; p_payload : bytes }.
Definition part_bytes (p : Part) : bytes := p_header p ++ p_payload p.
Definition parts_bytes (ps : list Part) : bytes := concat (map part_bytes ps).

(** The first part of some bytes: the length in its header, or all of them. *)
Definition head_part (l : bytes) : option Part :=
  if len l <? 8 then None
  else
    let n := from_be (take 4 l) in
    let header := if n =? 1 then 16 else 8 in
    let size := if n =? 1 then from_be (slice l 8 16) else if n =? 0 then len l else n in
    if (len l <? header) || (size <? header) || (len l <? size) then None
    else Some (mkPart (slice l 4 8) (slice l 0 header) (slice l header size)).

(** As many parts as there are, and what is behind them. *)
Fixpoint parse_loop (fuel : nat) (l : bytes) : list Part * bytes :=
  match fuel with
  | O => ([], l)
  | S fuel =>
    match head_part l with
    | None => ([], l)
    | Some p => let '(ps, rest) := parse_loop fuel (drop (length (part_bytes p)) l) in (p :: ps, rest)
    end
  end.
Definition parse (l : bytes) : list Part * bytes := parse_loop (length l) l.

(** ** Headers *)

(** Its header says how long the part is, so it is one whatever follows. *)
Definition explicit (p : Part) : Prop := forall rest, head_part (part_bytes p ++ rest) = Some p.

Lemma slice_all l : slice l 0 (len l) = l.
Proof. unfold slice. rewrite drop_0. apply take_ge. unfold len. lia. Qed.
Lemma slice_app_l l k i j : 0 <= i -> j <= len l -> slice (l ++ k) i j = slice l i j.
Proof.
  intros Hi Hj. unfold slice, len in *. destruct (Z.le_gt_cases j i); [by replace (Z.to_nat (j - i)) with 0%nat by lia|].
  rewrite drop_app_le by lia. rewrite take_app_le; [done|]. rewrite length_drop. lia.
Qed.

Lemma head_part_spec l p : head_part l = Some p ->
  l = part_bytes p ++ drop (length (part_bytes p)) l /\ 8 <= len (part_bytes p) <= len l /\ (len (p_header p) = 8 \/ len (p_header p) = 16).
Proof.
  unfold head_part. destruct (Z.ltb_spec (len l) 8) as [|H8]; [done|]. set (n := from_be (take 4 l)).
  set (header := if n =? 1 then 16 else 8). set (size := if n =? 1 then _ else _).
  destruct (Z.ltb_spec (len l) header) as [|Hh]; [done|]. destruct (Z.ltb_spec size header) as [|Hs]; [done|].
  destruct (Z.ltb_spec (len l) size) as [|Hl]; [done|]. cbn [orb]. intros [= <-].
  assert (8 <= header /\ (header = 8 \/ header = 16)) as [H8h Hor] by (unfold header; destruct (_ =? _); lia).
  assert (part_bytes (mkPart (slice l 4 8) (slice l 0 header) (slice l header size)) = take (Z.to_nat size) l) as ->.
  { unfold part_bytes. cbn [p_header p_payload]. rewrite slice_app by lia. unfold slice. by rewrite drop_0, Z.sub_0_r. }
  cbn [p_header]. rewrite len_slice by lia. split_and!; try lia.
  - rewrite length_take_le by (unfold len in *; lia). by rewrite take_drop.
  - unfold len in *. rewrite length_take. lia.
  - unfold len in *. rewrite length_take. lia.
Qed.

(** The shape of a part: where its header is from. *)
Lemma head_part_header l p : head_part l = Some p ->
  p_kind p = slice (p_header p) 4 8 /\
  (from_be (take 4 (p_header p)) = 1 /\ len (p_header p) = 16 /\ from_be (drop 8 (p_header p)) = len (part_bytes p) \/
   from_be (take 4 (p_header p)) = 0 /\ len (p_header p) = 8 /\ l = part_bytes p \/
   from_be (take 4 (p_header p)) = len (part_bytes p) /\ len (p_header p) = 8 /\ len (part_bytes p) <> 1).
Proof.
  intros Hp. pose proof (head_part_spec l p Hp) as (Hl & Hsize & _). revert Hp. unfold head_part.
  destruct (Z.ltb_spec (len l) 8) as [|H8]; [done|]. set (n := from_be (take 4 l)).
  set (header := if n =? 1 then 16 else 8). set (size := if n =? 1 then _ else _).
  destruct (Z.ltb_spec (len l) header) as [|Hh]; [done|]. destruct (Z.ltb_spec size header) as [|Hs]; [done|].
  destruct (Z.ltb_spec (len l) size) as [|Hls]; [done|]. cbn [orb]. intros [= Hp].
  assert (8 <= header <= 16) as Hhh by (unfold header; destruct (_ =? _); lia).
  assert (len (part_bytes p) = size) as Elen.
  { rewrite <- Hp. unfold part_bytes. cbn [p_header p_payload]. rewrite slice_app by lia. rewrite len_slice by lia. lia. }
  assert (p_header p = slice l 0 header) as Eh by by rewrite <- Hp.
  assert (len (p_header p) = header) as Elh by (rewrite Eh, len_slice by lia; lia).
  assert (take 4 (p_header p) = take 4 l) as E4.
  { rewrite Eh. unfold slice. rewrite drop_0, take_take. f_equal. lia. }
  rewrite E4, Elen, Elh. fold n. split.
  - rewrite <- Hp. cbn [p_kind p_header]. unfold slice. rewrite drop_0. rewrite <- (take_drop (Z.to_nat header) l) at 1.
    rewrite drop_app_le by (rewrite length_take; unfold len in *; lia). rewrite take_app_le; [by rewrite Z.sub_0_r|].
    rewrite length_drop, length_take. unfold len in *. lia.
  - unfold header, size in *. destruct (Z.eqb_spec n 1) as [E1|E1]; [left|right].
    + split_and!; try done. rewrite Eh. unfold slice. rewrite drop_0. f_equal. change (drop 8 (take 16 l) = take (Z.to_nat 8) (drop 8 l)).
      by rewrite skipn_firstn_comm.
    + destruct (Z.eqb_spec n 0) as [E0|E0]; [left|right]; split_and!; try done; try lia.
      rewrite Hl at 1. rewrite drop_ge, app_nil_r; [done|]. unfold len in *. lia.
Qed.

(** A header of some kind and size makes a part. *)
Definition header_ok (h kind : bytes) (size : Z) : Prop :=
  kind = slice h 4 8 /\
  (from_be (take 4 h) = 1 /\ len h = 16 /\ from_be (drop 8 h) = size \/ from_be (take 4 h) = size /\ len h = 8 /\ size <> 1 /\ size <> 0).

Lemma header_explicit kind h payload : header_ok h kind (len h + len payload) -> explicit (mkPart kind h payload).
Proof.
  intros [Hk Hs] rest. unfold part_bytes. cbn [p_header p_payload]. pose proof (len_nonneg payload). pose proof (len_nonneg rest).
  set (l := (h ++ payload) ++ rest). assert (len l = len h + len payload + len rest) as El by (unfold l; rewrite !len_app; lia).
  assert (8 <= len h) as H8 by lia.
  assert (forall i j, 0 <= i -> j <= len h -> slice l i j = slice h i j) as Hslice.
  { intros i j Hi Hj. unfold l. rewrite <- app_assoc. by apply slice_app_l. }
  assert (take 4 l = take 4 h) as E4 by (pose proof (Hslice 0 4) as E; unfold slice in E; rewrite !drop_0 in E; apply E; lia).
  unfold head_part. rewrite E4. destruct (Z.ltb_spec (len l) 8); [lia|].
  assert (forall size, size = len h + len payload -> slice l (len h) size = payload) as Hpay.
  { intros size ->. rewrite (slice_after l h (payload ++ rest)); [|by unfold l; rewrite app_assoc|done].
    apply take_app_length'. unfold len. lia. }
  destruct Hs as [(E1 & Eh & Es)|(E1 & Eh & Hn1 & Hn0)].
  - rewrite E1. change (1 =? 1) with true. cbv iota. assert (slice l 8 16 = drop 8 h) as ->.
    { rewrite Hslice by lia. unfold slice. apply take_ge. rewrite length_drop. unfold len in Eh. lia. }
    rewrite Es. destruct (Z.ltb_spec (len l) 16); [lia|]. destruct (Z.ltb_spec (len h + len payload) 16); [lia|].
    destruct (Z.ltb_spec (len l) (len h + len payload)); [lia|]. cbn [orb]. rewrite <- Eh at 1 2. rewrite !Hslice, Hpay, slice_all, Hk by lia. done.
  - rewrite E1. destruct (Z.eqb_spec (len h + len payload) 1); [lia|]. destruct (Z.eqb_spec (len h + len payload) 0); [lia|].
    destruct (Z.ltb_spec (len l) 8); [lia|]. destruct (Z.ltb_spec (len h + len payload) 8); [lia|].
    destruct (Z.ltb_spec (len l) (len h + len payload)); [lia|]. cbn [orb]. rewrite <- Eh at 2 3. rewrite !Hslice, Hpay, slice_all, Hk by lia. done.
Qed.

Lemma header_zero h payload : from_be (take 4 h) = 0 -> len h = 8 ->
  head_part (h ++ payload) = Some (mkPart (slice h 4 8) h payload).
Proof.
  intros E0 E8. pose proof (len_nonneg payload). unfold head_part. rewrite !len_app.
  assert (take 4 (h ++ payload) = take 4 h) as -> by (apply take_app_le; unfold len in E8; lia).
  rewrite E0. change (0 =? 1) with false. change (0 =? 0) with true. cbv iota.
  destruct (Z.ltb_spec (len h + len payload) 8); [lia|]. rewrite Z.ltb_irrefl. cbn [orb].
  rewrite !slice_app_l by lia. rewrite <- E8 at 2 3. rewrite slice_all. do 2 f_equal.
  rewrite (slice_after _ h payload) by done. apply take_ge. unfold len. lia.
Qed.

(** A part is one by its header, or it is the last. *)
Lemma head_part_explicit l p : head_part l = Some p ->
  header_ok (p_header p) (p_kind p) (len (part_bytes p)) \/ from_be (take 4 (p_header p)) = 0 /\ len (p_header p) = 8 /\ l = part_bytes p.
Proof.
  intros Hp. pose proof (head_part_spec l p Hp) as (_ & Hsize & _). destruct (head_part_header l p Hp) as [Hk [H1|[H0|H2]]].
  - left. split; [done|by left].
  - by right.
  - left. split; [done|]. right. destruct H2 as (? & ? & ?). split_and!; [done..|lia].
Qed.

Lemma explicit_header p : header_ok (p_header p) (p_kind p) (len (part_bytes p)) -> explicit p.
Proof. destruct p as [k h y]. unfold part_bytes. cbn [p_kind p_header p_payload]. rewrite len_app. apply header_explicit. Qed.

Lemma head_part_followed p rest : head_part (part_bytes p ++ rest) = Some p -> rest <> [] -> explicit p.
Proof.
  intros Hp Hne. destruct (head_part_explicit _ p Hp) as [He|(_ & _ & E)]; [by apply explicit_header|].
  rewrite <- (app_nil_r (part_bytes p)) in E at 2. by apply app_inv_head in E.
Qed.

(** Another payload of the same length. *)
Lemma head_part_payload p rest payload : head_part (part_bytes p ++ rest) = Some p -> len payload = len (p_payload p) ->
  head_part (part_bytes (mkPart (p_kind p) (p_header p) payload) ++ rest) = Some (mkPart (p_kind p) (p_header p) payload).
Proof.
  intros Hp Hlen. destruct (head_part_explicit _ p Hp) as [He|(E0 & E8 & E)].
  - apply header_explicit. unfold part_bytes in He. by rewrite len_app, <- Hlen in He.
  - rewrite <- (app_nil_r (part_bytes p)) in E at 2. apply app_inv_head in E as ->. rewrite app_nil_r.
    destruct (head_part_header _ p Hp) as [Hk _]. rewrite Hk. unfold part_bytes. cbn [p_header p_payload]. by apply header_zero.
Qed.

(** ** Sequences of parts *)

Lemma parse_loop_fuel fuel l : (length l <= fuel)%nat -> parse_loop fuel l = parse l.
Proof.
  unfold parse. remember (length l) as n eqn:En. assert (length l <= n)%nat as Hn by lia. clear En. revert l n Hn.
  induction fuel as [|fuel IH]; intros l n Hn Hf.
  { destruct l; simpl in *; [|lia]. by destruct n. }
  destruct n as [|n]; [by destruct l; simpl in *; [|lia]|]. cbn [parse_loop]. destruct (head_part l) as [p|] eqn:Ep; [|done].
  pose proof (head_part_spec l p Ep) as (_ & H8 & _). assert (length (drop (length (part_bytes p)) l) < length l)%nat as Hlt.
  { rewrite length_drop. unfold len in H8. lia. }
  assert (forall k, (length (drop (length (part_bytes p)) l) <= k)%nat -> (k <= fuel)%nat ->
    parse_loop fuel (drop (length (part_bytes p)) l) = parse_loop k (drop (length (part_bytes p)) l)) as IH' by (intros; by apply IH).
  by rewrite (IH' n) by lia.
Qed.

Lemma parse_cons l p rest : head_part l = Some p -> l = part_bytes p ++ rest -> parse l = (p :: (parse rest).1, (parse rest).2).
Proof.
  intros Hp E. pose proof (head_part_spec l p Hp) as (_ & H8 & _). unfold parse at 1.
  destruct (length l) as [|n] eqn:En; [unfold len in *; lia|]. cbn [parse_loop]. rewrite Hp.
  assert (drop (length (part_bytes p)) l = rest) as -> by by rewrite E, drop_app_length.
  rewrite parse_loop_fuel; [by destruct (parse rest)|]. rewrite E, length_app in En. unfold len in H8. lia.
Qed.

Lemma parse_none l : head_part l = None -> parse l = ([], l).
Proof. intros Hn. unfold parse. destruct (length l); [done|]. cbn [parse_loop]. by rewrite Hn. Qed.

Lemma part_ind (P : bytes -> Prop) :
  (forall l, head_part l = None -> P l) ->
  (forall p rest, head_part (part_bytes p ++ rest) = Some p -> P rest -> P (part_bytes p ++ rest)) -> forall l, P l.
Proof.
  intros Hn Hc l. remember (length l) as n eqn:En. assert (length l <= n)%nat as Hle by lia. clear En. revert l Hle.
  induction n as [|n IH]; intros l Hle; [apply Hn; by destruct l; simpl in *; [|lia]|].
  destruct (head_part l) as [p|] eqn:Ep; [|by apply Hn].
  pose proof (head_part_spec l p Ep) as (E & H8 & _). rewrite E. apply Hc; [by rewrite <- E|]. apply IH.
  rewrite length_drop. unfold len in H8. lia.
Qed.

Lemma parse_bytes l : l = parts_bytes (parse l).1 ++ (parse l).2.
Proof.
  induction l as [l Hn|p rest Hp IH] using part_ind; [by rewrite parse_none|].
  rewrite (parse_cons _ p rest) by done. cbn [fst snd]. unfold parts_bytes in *. cbn [map concat]. by rewrite <- app_assoc, <- IH.
Qed.

Lemma parts_bytes_app ps qs : parts_bytes (ps ++ qs) = parts_bytes ps ++ parts_bytes qs.
Proof. unfold parts_bytes. by rewrite map_app, concat_app. Qed.
Lemma parts_bytes_cons p ps : parts_bytes (p :: ps) = part_bytes p ++ parts_bytes ps.
Proof. done. Qed.

Lemma parse_app bs l : Forall explicit bs -> parse (parts_bytes bs ++ l) = (bs ++ (parse l).1, (parse l).2).
Proof.
  induction 1 as [|b bs Hb _ IH]; [apply surjective_pairing|]. rewrite parts_bytes_cons, <- app_assoc.
  rewrite (parse_cons _ b (parts_bytes bs ++ l)) by (done || apply Hb). by rewrite IH.
Qed.

Lemma parse_rest l : head_part (parse l).2 = None.
Proof. induction l as [l Hn|p rest Hp IH] using part_ind; [by rewrite parse_none|]. by rewrite (parse_cons _ p rest). Qed.

(** What is parsed, cut at one of the parts. *)
Lemma parse_split l bs p tail : (parse l).1 = bs ++ p :: tail ->
  let rest := (parse l).2 in
  l = parts_bytes bs ++ part_bytes p ++ parts_bytes tail ++ rest /\ Forall explicit bs /\
  head_part (part_bytes p ++ parts_bytes tail ++ rest) = Some p /\ parse (parts_bytes tail ++ rest) = (tail, rest).
Proof.
  revert l. induction bs as [|b bs IH]; intros l E.
  - induction l as [l Hn|q rest Hq _] using part_ind; [by rewrite parse_none in E|].
    rewrite (parse_cons _ q rest) in * by done. cbn [fst snd app] in *. injection E as -> E. cbv zeta.
    pose proof (parse_bytes rest) as Hr. rewrite E in Hr. change (parts_bytes []) with (@nil Z). cbn [app]. rewrite <- Hr. split_and!; [done|by constructor|done|].
    rewrite surjective_pairing at 1. by rewrite E.
  - induction l as [l Hn|q rest Hq _] using part_ind; [by rewrite parse_none in E|].
    rewrite (parse_cons _ q rest) in * by done. cbn [fst snd app] in *. injection E as -> E. cbv zeta.
    destruct (IH rest E) as (H1 & H2 & H3 & H4). cbv zeta in *. split_and!; [by rewrite parts_bytes_cons, <- app_assoc, <- H1| |done..].
    constructor; [|done]. eapply head_part_followed; [exact Hq|]. intros ->. pose proof (parse_none [] eq_refl) as En. rewrite En in E. by destruct bs.
Qed.

Lemma parse_replace l bs p tail q : (parse l).1 = bs ++ p :: tail ->
  let rest := (parse l).2 in
  head_part (part_bytes q ++ parts_bytes tail ++ rest) = Some q ->
  parse (parts_bytes bs ++ part_bytes q ++ parts_bytes tail ++ rest) = (bs ++ q :: tail, rest).
Proof.
  intros E rest Hq. destruct (parse_split l bs p tail E) as (_ & Hbs & _ & Ht). cbv zeta in Ht. fold rest in Ht.
  rewrite parse_app by done. rewrite (parse_cons _ q (parts_bytes tail ++ rest)) by done. by rewrite Ht.
Qed.

(** ** The operations find the parts *)

Definition atom_for (offset : Z) (p : Part) : Atom :=
  mkAtom offset (offset + len (part_bytes p)) (offset + len (p_header p)) (p_kind p).

(** The atoms of parts one behind the other. *)
Fixpoint place (offset : Z) (ps : list Part) : list Atom :=
  match ps with [] => [] | p :: ps => atom_for offset p :: place (offset + len (part_bytes p)) ps end.

(** The first part of a kind. *)
Definition first_of (kind : bytes) (ps : list Part) : option Part := List.find (fun p => bool_decide (p_kind p = kind)) ps.

Lemma slice_shift (pre l : bytes) i j : 0 <= i -> slice (pre ++ l) (len pre + i) (len pre + j) = slice l i j.
Proof.
  intros Hi. unfold slice. rewrite drop_app_ge by (unfold len; lia). f_equal; [f_equal; lia|f_equal; unfold len; lia].
Qed.
Lemma slice_take_4 l : len l < 8 \/ take 4 (slice l 0 8) = take 4 l /\ drop 4 (slice l 0 8) = slice l 4 8.
Proof.
  destruct (Z.lt_ge_cases (len l) 8) as [|H8]; [by left|]. right. unfold slice. rewrite drop_0. split; [rewrite take_take; f_equal; lia|].
  change (drop 4 (take 8 l) = take 4 (drop 4 l)). by rewrite skipn_firstn_comm.
Qed.

Section ops.
Context `{Source}.
Implicit Types (s : Io).

(** An error in memory: a check that failed, or a reason. *)
Definition broke (s : Io) (why : Prop) : bool * string -> Io -> Prop := fun e s' =>
  written s' = written s /\ if e.1 then ~ calm else why.

Lemma wp_guard (Q : unit -> Io -> Prop) why s : (forall s', written s' = written s -> Q tt s') -> wp guard Q (broke s why) s.
Proof. intros HQ. apply wp_mapping, wp_check; [by auto|]. intros e s' Hc Hw. by split. Qed.

Lemma read_header_spec data pre l post : data = pre ++ l ++ post -> len data < 2 ^ 63 ->
  match read_header data (len pre) (len pre + len l) with
  | Ok h => head_part l = (if len l <? h.1.1 then None else Some (mkPart h.2 (slice l 0 h.1.2) (slice l h.1.2 h.1.1))) /\
            (h.1.2 = 8 \/ h.1.2 = 16) /\ h.1.2 <= h.1.1
  | Err _ => head_part l = None
  end.
Proof.
  intros -> Hmax. unfold read_header. rewrite !len_app in *. pose proof (len_nonneg pre). pose proof (len_nonneg l). pose proof (len_nonneg post).
  destruct (Z.ltb_spec (len pre + (len l + len post)) (len pre + 8)).
  { unfold head_part. destruct (Z.ltb_spec (len l) 8); [done|lia]. }
  set (b := slice (l ++ post) 0 8). assert (slice (pre ++ l ++ post) (len pre) (len pre + 8) = b) as ->.
  { pose proof (slice_shift pre (l ++ post) 0 8) as E. rewrite Z.add_0_r in E. by apply E. }
  unfold header_of. set (long := if _ <? _ then _ else _).
  assert (8 <= len l -> take 4 b = take 4 l /\ drop 4 b = slice l 4 8) as Hb.
  { intros H8. unfold b. rewrite slice_app_l by lia. destruct (slice_take_4 l); [lia|done]. }
  destruct (Z.eqb_spec (from_be (take 4 b)) 1) as [E1|E1].
  - unfold long. destruct (Z.ltb_spec (len pre + (len l + len post)) (len pre + 16)); cbn [bind_result].
    { destruct (Z.lt_ge_cases (len l) 8) as [Hlt|Hge]; unfold head_part; [by rewrite (proj2 (Z.ltb_lt _ _) Hlt)|]. destruct (Hb Hge) as [<- _].
      rewrite E1. change (1 =? 1) with true. cbv iota. destruct (Z.ltb_spec (len l) 8); [done|]. by rewrite (proj2 (Z.ltb_lt (len l) 16)) by lia. }
    rewrite slice_shift by lia. set (n := from_be _). destruct (Z.ltb_spec n 16); cbn [orb].
    { destruct (Z.lt_ge_cases (len l) 8) as [Hlt|Hge]; unfold head_part; [by rewrite (proj2 (Z.ltb_lt _ _) Hlt)|]. destruct (Hb Hge) as [<- _].
      rewrite E1. change (1 =? 1) with true. cbv iota. destruct (Z.ltb_spec (len l) 8); [done|]. destruct (Z.ltb_spec (len l) 16); [done|].
      unfold n in *. rewrite slice_app_l in * by lia. by rewrite (proj2 (Z.ltb_lt _ 16)) by lia. }
    assert (head_part l = if len l <? n then None else Some (mkPart (drop 4 b) (slice l 0 16) (slice l 16 n))) as Hhead.
    { destruct (Z.lt_ge_cases (len l) 16) as [Hlt|Hge].
      - rewrite (proj2 (Z.ltb_lt (len l) n)) by lia. unfold head_part. destruct (Z.ltb_spec (len l) 8); [done|].
        destruct Hb as [<- _]; [lia|]. rewrite E1. change (1 =? 1) with true. cbv iota. by rewrite (proj2 (Z.ltb_lt (len l) 16)) by lia.
      - unfold head_part. destruct Hb as [<- ->]; [lia|]. rewrite E1. change (1 =? 1) with true. cbv iota.
        destruct (Z.ltb_spec (len l) 8); [lia|]. destruct (Z.ltb_spec (len l) 16); [lia|]. unfold n in *. rewrite slice_app_l in * by lia.
        destruct (Z.ltb_spec (from_be (slice l 8 16)) 16); [lia|]. done. }
    destruct (_ || _) eqn:Eo; cbn [fst snd]; [|split; [done|lia]]. rewrite Hhead. rewrite (proj2 (Z.ltb_lt (len l) n)); [done|].
    unfold i64_max in Eo. lia.
  - cbn [bind_result]. set (n := if _ =? 0 then _ else _). destruct (Z.ltb_spec n 8) as [Hn8|Hn8]; cbn [orb].
    { unfold head_part. destruct (Z.ltb_spec (len l) 8); [done|]. destruct Hb as [E4 _]; [lia|]. rewrite <- E4.
      destruct (Z.eqb_spec (from_be (take 4 b)) 1); [done|]. cbn [orb]. revert Hn8. unfold n.
      destruct (Z.eqb_spec (from_be (take 4 b)) 0); intros Hn8; [lia|]. rewrite (proj2 (Z.ltb_lt _ _) Hn8).
      by rewrite orb_true_r. }
    assert (head_part l = if len l <? n then None else Some (mkPart (drop 4 b) (slice l 0 8) (slice l 8 n))) as Hhead.
    { destruct (Z.lt_ge_cases (len l) 8) as [Hlt|Hge].
      - rewrite (proj2 (Z.ltb_lt (len l) n)) by lia. unfold head_part. by rewrite (proj2 (Z.ltb_lt (len l) 8)) by lia.
      - unfold head_part. destruct Hb as [<- ->]; [lia|]. rewrite (proj2 (Z.eqb_neq _ _) E1). destruct (Z.ltb_spec (len l) 8); [lia|].
        assert ((if from_be (take 4 b) =? 0 then len l else from_be (take 4 b)) = n) as ->.
        { unfold n. destruct (_ =? 0); [lia|done]. }
        destruct (Z.ltb_spec n 8); [lia|]. done. }
    destruct (_ || _) eqn:Eo; cbn [fst snd]; [|split; [done|lia]]. rewrite Hhead. rewrite (proj2 (Z.ltb_lt (len l) n)); [done|].
    unfold i64_max in Eo. lia.
Qed.
Lemma wp_atom data pre l post s : data = pre ++ l ++ post -> len data < 2 ^ 63 ->
  wp (atom data (len pre) (len pre + len l))
    (fun a s' => written s' = written s /\ exists p, head_part l = Some p /\ a = atom_for (len pre) p) (broke s (head_part l = None)) s.
Proof.
  intros Hdata Hmax. unfold atom. apply wp_bind, wp_guard. intros s1 Hw1.
  pose proof (read_header_spec data pre l post Hdata Hmax) as Hh. destruct (read_header _ _ _) as [[[n header] kind]|e]; [|by apply wp_throw].
  cbn [fst snd] in Hh. destruct Hh as (Hh & Hor & Hle). cbn [atom_at a_end].
  assert (len data = len pre + len l + len post) as El by (rewrite Hdata, !len_app; lia). pose proof (len_nonneg post). pose proof (len_nonneg pre).
  destruct (Z.ltb_spec (len l) n) as [Hn|Hn].
  - rewrite (proj2 (Z.ltb_lt (len pre + len l) (len pre + n))) by lia. by apply wp_throw.
  - destruct (Z.ltb_spec (len pre + len l) (len pre + n)); [lia|]. destruct (Z.ltb_spec (len data) (len pre + n)); [lia|]. cbn [orb].
    apply wp_ret. split; [done|]. eexists. split; [exact Hh|]. unfold atom_for, part_bytes. cbn [p_header p_payload p_kind].
    rewrite slice_app by lia. rewrite !len_slice by lia. f_equal; lia.
Qed.

(** What [find] has found behind [pre]. *)
Definition found (pre l kind : bytes) (r : option Atom) : Prop :=
  match r with
  | None => first_of kind (parse l).1 = None /\ len (parse l).2 < 8
  | Some a => exists bs p tail, (parse l).1 = bs ++ p :: tail /\ a = atom_for (len pre + len (parts_bytes bs)) p /\
      p_kind p = kind /\ Forall (fun b => p_kind b <> kind) bs
  end.

Lemma head_part_some_long l p : head_part l = Some p -> 8 <= len l.
Proof. intros Hp. apply head_part_spec in Hp as (_ & ? & _). lia. Qed.

Lemma wp_find_loop fuel count data pre l post kind s : data = pre ++ l ++ post -> len data < 2 ^ 63 -> (length l <= fuel)%nat ->
  wp (find_loop fuel count data (len pre) (len pre + len l) kind)
    (fun r s' => written s' = written s /\ found pre l kind r)
    (broke s (count <= len (parse l).1 \/ first_of kind (parse l).1 = None /\ 8 <= len (parse l).2)) s.
Proof.
  revert fuel count pre s. induction l as [l Hn|p rest Hp IH] using part_ind; intros fuel count pre s Hdata Hmax Hfuel.
  - rewrite (parse_none l) by done. cbn [fst snd]. destruct fuel as [|fuel]; cbn [find_loop];
      (destruct (Z.leb_spec count 0); [apply wp_throw; split; [done|left; unfold len; cbn; lia]|]);
      (destruct (Z.ltb_spec (len pre + len l) (len pre + 8)); [apply wp_ret; split; [done|unfold found; rewrite parse_none by done; split; [done|cbn; lia]]|]).
    + unfold len in *. destruct l; simpl in *; lia.
    + apply wp_bind. eapply wp_mono; [by eapply wp_atom| |].
      * intros a s1 (_ & p & E & _). congruence.
      * intros e s1 [Hw1 Hwhy]. split; [done|]. destruct e as [[] e]; [done|]. right. split; [done|lia].
  - pose proof (head_part_some_long _ _ Hp) as H8. rewrite (parse_cons _ p rest) by done. cbn [fst snd].
    destruct fuel as [|fuel]; [rewrite length_app in Hfuel; unfold len in H8; rewrite length_app in H8; lia|]. cbn [find_loop].
    destruct (Z.leb_spec count 0).
    { apply wp_throw; split; [done|left]. cbn. pose proof (len_nonneg (parse rest).1). unfold len in *. cbn [length]. lia. }
    destruct (Z.ltb_spec (len pre + len (part_bytes p ++ rest)) (len pre + 8)); [lia|]. apply wp_bind. eapply wp_mono; [by eapply wp_atom| |].
    2: { intros e s1 [Hw1 Hwhy]. split; [done|]. destruct e as [[] e]; [done|]. cbn in Hwhy. congruence. }
    intros a s1 (Hw1 & q & E & ->). rewrite Hp in E. injection E as <-. cbn [atom_for a_kind a_end]. case_bool_decide as Ek.
    + apply wp_ret. split; [done|]. exists [], p, (parse rest).1. rewrite (parse_cons _ p rest) by done. cbn [fst app]. split_and!; [done| |done|done].
      f_equal. unfold parts_bytes, len at 3. cbn. lia.
    + replace (len pre + len (part_bytes p)) with (len (pre ++ part_bytes p)) by by rewrite len_app.
      replace (len pre + len (part_bytes p ++ rest)) with (len (pre ++ part_bytes p) + len rest) by (rewrite !len_app; lia).
      eapply wp_mono; [apply IH; [by rewrite Hdata, <- !app_assoc|done|]| |].
      * rewrite length_app in Hfuel. pose proof (head_part_spec _ _ Hp) as (_ & Hs & _). unfold len in Hs. lia.
      * intros r s2 [Hw2 Hf]. split; [congruence|]. destruct r as [a|]; cbn [found] in *; rewrite (parse_cons _ p rest) by done; cbn [fst snd].
        -- destruct Hf as (bs & q & tail & Hb & -> & Hk & Hbs). exists (p :: bs), q, tail. rewrite Hb. split_and!; [done| |done|by constructor].
           f_equal. rewrite parts_bytes_cons, !len_app. lia.
        -- destruct Hf as [Hf Hr]. split; [|done]. cbn [first_of List.find]. by rewrite bool_decide_eq_false_2.
      * intros e s2 [Hw2 Hwhy]. split; [congruence|]. destruct e as [[] e]; [done|]. cbn [fst] in *. destruct Hwhy as [Hwhy|[Hf Hr]].
        -- left. unfold len in *. cbn [length]. lia.
        -- right. split; [|done]. cbn [first_of List.find]. by rewrite bool_decide_eq_false_2.
Qed.

(** Why [find] cannot read what it looks through. *)
Definition unreadable (kind l : bytes) : Prop :=
  MAX_ATOMS <= len (parse l).1 \/ first_of kind (parse l).1 = None /\ 8 <= len (parse l).2.

Lemma wp_find_atom data pre l post kind s : data = pre ++ l ++ post -> len data < 2 ^ 63 ->
  wp (find data (len pre) (len pre + len l) kind)
    (fun r s' => written s' = written s /\ found pre l (kind_of kind) r) (broke s (unreadable (kind_of kind) l)) s.
Proof. intros Hdata Hmax. unfold find. apply (wp_find_loop _ _ _ _ _ post); [done|done|]. rewrite Hdata, !length_app. lia. Qed.

Lemma wp_children_loop fuel data pre l post acc s : data = pre ++ l ++ post -> len data < 2 ^ 63 -> (length l <= fuel)%nat ->
  wp (children_loop fuel data (len pre) (len pre + len l) acc)
    (fun r s' => written s' = written s /\ r = acc ++ place (len pre) (parse l).1 /\ len (parse l).2 < 8)
    (broke s (MAX_ATOMS < len acc + len (parse l).1 \/ 8 <= len (parse l).2)) s.
Proof.
  revert fuel acc pre s. induction l as [l Hn|p rest Hp IH] using part_ind; intros fuel acc pre s Hdata Hmax Hfuel.
  - rewrite (parse_none l) by done. cbn [fst snd place]. destruct fuel as [|fuel]; cbn [children_loop];
      (destruct (Z.ltb_spec (len pre + len l) (len pre + 8)); [apply wp_ret; split; [done|]; split; [by rewrite app_nil_r|lia]|]);
      (destruct (Z.leb_spec MAX_ATOMS (len acc)); [apply wp_throw; split; [done|]; right; lia|]).
    + unfold len in *. destruct l; simpl in *; lia.
    + apply wp_bind. eapply wp_mono; [by eapply wp_atom| |].
      * intros a s1 (_ & p & E & _). congruence.
      * intros e s1 [Hw1 Hwhy]. split; [done|]. destruct e as [[] e]; [done|]. right. lia.
  - pose proof (head_part_some_long _ _ Hp) as H8. rewrite (parse_cons _ p rest) by done. cbn [fst snd place].
    destruct fuel as [|fuel]; [rewrite length_app in Hfuel; unfold len in H8; rewrite length_app in H8; lia|]. cbn [children_loop].
    destruct (Z.ltb_spec (len pre + len (part_bytes p ++ rest)) (len pre + 8)); [lia|].
    destruct (Z.leb_spec MAX_ATOMS (len acc)).
    { apply wp_throw. split; [done|]. left. cbn [fst]. unfold len in *. cbn [length]. lia. }
    apply wp_bind. eapply wp_mono; [by eapply wp_atom| |].
    2: { intros e s1 [Hw1 Hwhy]. split; [done|]. destruct e as [[] e]; [done|]. cbn in Hwhy. congruence. }
    intros a s1 (Hw1 & q & E & ->). rewrite Hp in E. injection E as <-. cbn [atom_for a_end].
    replace (len pre + len (part_bytes p)) with (len (pre ++ part_bytes p)) by by rewrite len_app.
    replace (len pre + len (part_bytes p ++ rest)) with (len (pre ++ part_bytes p) + len rest) by (rewrite !len_app; lia).
    eapply wp_mono; [apply IH; [by rewrite Hdata, <- !app_assoc|done|]| |].
    + rewrite length_app in Hfuel. pose proof (head_part_spec _ _ Hp) as (_ & Hs & _). unfold len in Hs. lia.
    + intros r s2 (Hw2 & -> & Hr). split; [congruence|]. split; [|done]. rewrite <- app_assoc. cbn [app]. unfold atom_for at 1. by rewrite len_app.
    + intros e s2 [Hw2 Hwhy]. split; [congruence|]. destruct e as [[] e]; [done|]. cbn [fst] in *. rewrite len_app in Hwhy.
      destruct Hwhy; [left|by right]. unfold len in *. cbn [length] in *. lia.
Qed.

Lemma wp_children data pre l post s : data = pre ++ l ++ post -> len data < 2 ^ 63 ->
  wp (children data (len pre) (len pre + len l))
    (fun r s' => written s' = written s /\ r = place (len pre) (parse l).1 /\ len (parse l).2 < 8)
    (broke s (MAX_ATOMS < len (parse l).1 \/ 8 <= len (parse l).2)) s.
Proof. intros Hdata Hmax. unfold children. apply (wp_children_loop _ _ _ _ post []); [done|done|]. rewrite Hdata, !length_app. lia. Qed.
End ops.

(** * The offsets of chunks

    Each track of an MP4 file says where its chunks lie in the file, in tables of 32-bit or 64-bit offsets.
    [chunk_offsets] reads them all; [shift_offsets] is shown to add the difference to exactly those from a position on. *)

(** ** Reading them *)

(** The first child of a kind, if the children can be read as far as needed. *)
Definition child (kind : bytes) (l : bytes) : option (option Part) :=
  match first_of kind (parse l).1 with
  | Some p => Some (Some p)
  | None => if len (parse l).2 <? 8 then Some None else None
  end.

(** The payload of the first descendant of each kind in turn. *)
Fixpoint descendant (kinds : list string) (l : bytes) : option (option bytes) :=
  match kinds with
  | [] => Some (Some l)
  | kind :: kinds =>
    match child (kind_of kind) l with
    | Some (Some p) => descendant kinds (p_payload p)
    | Some None => Some None
    | None => None
    end
  end.

Fixpoint entries (n w : nat) (l : bytes) : list Z :=
  match n with
  | O => []
  | S n => if (length l <? w)%nat then [] else from_be (take w l) :: entries n w (drop w l)
  end.
Definition table_offsets (w : Z) (payload : bytes) : list Z :=
  if len payload <? 8 then []
  else entries (Z.to_nat (Z.min (from_be (slice payload 4 8)) (len payload))) (Z.to_nat w) (drop 8 payload).

Fixpoint tables_offsets (tables : list (string * Z)) (l : bytes) : option (list Z) :=
  match tables with
  | [] => Some []
  | (kind, w) :: tables =>
    match child (kind_of kind) l, tables_offsets tables l with
    | Some (Some p), Some vs => Some (table_offsets w (p_payload p) ++ vs)
    | Some None, Some vs => Some vs
    | _, _ => None
    end
  end.

Definition track_offsets (l : bytes) : option (list Z) :=
  match descendant PATH l with
  | Some (Some stbl) => tables_offsets TABLES stbl
  | Some None => Some []
  | None => None
  end.

Fixpoint tracks_offsets (ps : list Part) : option (list Z) :=
  match ps with
  | [] => Some []
  | p :: ps =>
    if bool_decide (p_kind p = kind_of "trak") then
      match track_offsets (p_payload p), tracks_offsets ps with Some vs, Some us => Some (vs ++ us) | _, _ => None end
    else tracks_offsets ps
  end.

(** The offsets in a [moov] atom, track by track. *)
Definition chunk_offsets (data : bytes) : option (list Z) :=
  match head_part data with
  | Some moov => if len (parse (p_payload moov)).2 <? 8 then tracks_offsets (parse (p_payload moov)).1 else None
  | None => None
  end.

(** What becomes of an offset. *)
Definition shift (position delta v : Z) : Z := if position <=? v then v + delta else v.

(** ** Tables *)

Lemma write_at_app pre old post bs : len bs = len old -> write_at (pre ++ old ++ post) (len pre) bs = pre ++ bs ++ post.
Proof.
  intros E. unfold write_at. rewrite E. rewrite take_app_length' by (unfold len; lia). do 2 f_equal.
  rewrite app_assoc. rewrite drop_app_length'; [done|]. rewrite length_app. unfold len. lia.
Qed.

Lemma len_be_bytes n z : len (be_bytes n z) = Z.of_nat n.
Proof. unfold len. by rewrite be_bytes_length. Qed.

Lemma entries_min c a b w l : (0 < w)%nat -> (length l <= w * a)%nat -> (length l <= w * b)%nat ->
  entries (min c a) w l = entries (min c b) w l.
Proof.
  intros Hw. revert a b l. induction c as [|c IH]; intros a b l Ha Hb; [done|].
  destruct a as [|a], b as [|b]; cbn [min entries]; try done.
  - assert (length l = 0)%nat as El by lia. rewrite El. by rewrite (proj2 (Nat.ltb_lt 0 w)) by lia.
  - assert (length l = 0)%nat as El by lia. rewrite El. by rewrite (proj2 (Nat.ltb_lt 0 w)) by lia.
  - destruct (Nat.ltb_spec (length l) w); [done|]. f_equal. apply IH; rewrite length_drop; lia.
Qed.

Section offsets.
Context `{Source}.
Implicit Types (s : Io).

Abbreviation any := (fun _ _ => True) (only parsing).

Lemma wp_any_guard (Q : unit -> Io -> Prop) s : (forall s', written s' = written s -> Q tt s') -> wp guard Q (fun _ _ => True) s.
Proof. intros HQ. eapply wp_mono; [by apply (wp_guard Q True)|done|done]. Qed.

Lemma wp_shift_entry width value delta s : width = 4 \/ width = 8 ->
  wp (shift_entry width value delta) (fun bs s' => s' = s /\ len bs = width /\ from_be bs = value + delta) (fun _ _ => True) s.
Proof.
  intros Hw. unfold shift_entry. destruct (_ || _) eqn:E; [by apply wp_throw|]. destruct (_ && _) eqn:E4; [by apply wp_throw|]. apply wp_ret.
  split; [done|]. rewrite len_be_bytes, from_be_be_bytes. split; [lia|]. apply Z.mod_small. apply orb_false_iff in E as [E0 E8].
  destruct Hw as [-> | ->]; [change (256 ^ Z.of_nat (Z.to_nat 4)) with (2 ^ 32); cbn [andb] in E4|change (256 ^ Z.of_nat (Z.to_nat 8)) with (2 ^ 64)].
  - rewrite Z.eqb_refl in E4. cbn [andb] in E4. lia.
  - lia.
Qed.

Lemma wp_shift_entries n data pre l post width position delta s : width = 4 \/ width = 8 -> data = pre ++ l ++ post ->
  wp (shift_entries n data (len pre) (len pre + len l) width position delta)
    (fun data' s' => written s' = written s /\ exists l', data' = pre ++ l' ++ post /\ len l' = len l /\
       entries n (Z.to_nat width) l' = map (shift position delta) (entries n (Z.to_nat width) l)) (fun _ _ => True) s.
Proof.
  intros Hwidth. revert data pre l s. induction n as [|n IH]; intros data pre l s Hdata; cbn [shift_entries entries].
  { apply wp_ret. split; [done|]. by exists l. }
  apply wp_bind, wp_any_guard. intros s1 Hw1. destruct (Z.ltb_spec (len pre + len l) (len pre + width)) as [Hlt|Hge].
  { apply wp_ret. split; [done|]. exists l. rewrite (proj2 (Nat.ltb_lt (length l) (Z.to_nat width))) by (unfold len in *; lia). done. }
  set (w := Z.to_nat width). assert (w <= length l)%nat as Hwl by (unfold len, w in *; lia).
  rewrite (proj2 (Nat.ltb_ge (length l) w)) by done. set (old := take w l). set (rest := drop w l).
  assert (l = old ++ rest) as El by (symmetry; apply take_drop).
  assert (len old = width) as Eold by (unfold len, old; rewrite length_take; unfold w in *; lia).
  assert (slice data (len pre) (len pre + width) = old) as ->.
  { rewrite (slice_after data pre (l ++ post)) by done. unfold old. rewrite take_app_le by (fold w; lia). f_equal. unfold w. lia. }
  assert (forall bs s2, len bs = width -> written s2 = written s ->
    wp (shift_entries n (pre ++ bs ++ rest ++ post) (len pre + width) (len pre + len l) width position delta)
     (fun data' s' => written s' = written s /\ exists l', data' = pre ++ bs ++ l' ++ post /\ len l' = len rest /\
        entries n w l' = map (shift position delta) (entries n w rest)) (fun _ _ => True) s2) as Hrest.
  { intros bs s2 Ebs Hw2. replace (len pre + width) with (len (pre ++ bs)) by (rewrite len_app; lia).
    replace (len pre + len l) with (len (pre ++ bs) + len rest) by (rewrite El, !len_app; lia).
    eapply wp_mono; [apply (IH (pre ++ bs ++ rest ++ post)); by rewrite <- app_assoc| |done].
    intros data' s3 (Hw3 & l' & -> & Hl). split; [congruence|]. exists l'. by rewrite <- app_assoc. }
  assert (forall bs l', len bs = width -> len l' = len rest -> len (bs ++ l') = len l /\
    entries (S n) w (bs ++ l') = from_be bs :: entries n w l') as Hcons.
  { intros bs l' Ebs Hl'. split; [rewrite El, !len_app; lia|]. cbn [entries].
    assert (length bs = w) as Hbs by (unfold len, w in *; lia). rewrite length_app, Hbs.
    rewrite (proj2 (Nat.ltb_ge _ _)) by lia. by rewrite take_app_length', drop_app_length' by done. }
  apply wp_bind. cbn [map]. unfold shift at 1. destruct (Z.leb_spec position (from_be old)) as [Hp|Hp].
  - apply wp_bind. eapply wp_mono; [by apply wp_shift_entry| |done]. intros bs s2 (-> & Ebs & Hbs). apply wp_ret.
    rewrite Hdata, El, <- app_assoc, (write_at_app pre old (rest ++ post) bs) by lia. rewrite <- El.
    eapply wp_mono; [by apply Hrest| |done]. intros data' s3 (Hw3 & l' & -> & Hl' & He). split; [done|].
    destruct (Hcons bs l' Ebs Hl') as [H1 H2]. exists (bs ++ l'). split; [by rewrite <- app_assoc|]. split; [done|]. cbn [entries] in H2. rewrite H2, He, Hbs. done.
  - apply wp_ret. rewrite Hdata, El, <- app_assoc. rewrite <- El.
    eapply wp_mono; [by apply Hrest| |done]. intros data' s3 (Hw3 & l' & -> & Hl' & He). split; [done|].
    destruct (Hcons old l' Eold Hl') as [H1 H2]. exists (old ++ l'). split; [by rewrite <- app_assoc|]. split; [done|]. cbn [entries] in H2. rewrite H2, He. done.
Qed.
(** ** Children *)

Lemma first_of_found k bs p tail : p_kind p = k -> Forall (fun b => p_kind b <> k) bs -> first_of k (bs ++ p :: tail) = Some p.
Proof.
  intros Hp Hbs. unfold first_of. induction Hbs as [|b bs Hb _ IH]; cbn [app List.find]; [by rewrite bool_decide_eq_true_2|].
  by rewrite bool_decide_eq_false_2.
Qed.
Lemma first_of_other k bs p q tail : p_kind p <> k -> p_kind q <> k -> first_of k (bs ++ p :: tail) = first_of k (bs ++ q :: tail).
Proof.
  intros Hp Hq. unfold first_of. induction bs as [|b bs IH]; cbn [app List.find]; [by rewrite !bool_decide_eq_false_2|]. by rewrite IH.
Qed.

(** Another payload of the same length in one of the parts. *)
Definition with_payload (p : Part) (payload : bytes) : Part := mkPart (p_kind p) (p_header p) payload.

Lemma parse_with_payload l bs p tail payload : (parse l).1 = bs ++ p :: tail -> len payload = len (p_payload p) ->
  exists l', l' = parts_bytes bs ++ part_bytes (with_payload p payload) ++ parts_bytes tail ++ (parse l).2 /\
    parse l' = (bs ++ with_payload p payload :: tail, (parse l).2) /\ len l' = len l.
Proof.
  intros E Hlen. destruct (parse_split l bs p tail E) as (El & _ & Hp & _). cbv zeta in *. eexists. split; [done|]. split.
  - apply (parse_replace l bs p); [done|]. by apply head_part_payload.
  - rewrite El at 2. rewrite !len_app. unfold part_bytes, with_payload. cbn [p_header p_payload]. rewrite !len_app. lia.
Qed.

Lemma child_found pre l k r : found pre l k r ->
  child k l = Some (match r with Some _ => first_of k (parse l).1 | None => None end).
Proof.
  unfold child. destruct r as [a|]; cbn [found].
  - intros (bs & p & tail & E & _ & Hk & Hbs). by rewrite E, (first_of_found k).
  - intros [-> Hr]. by rewrite (proj2 (Z.ltb_lt _ _) Hr).
Qed.

(** A child that is found, where it lies, and what its payload may become. *)
Lemma found_child pre l post k a : found pre l k (Some a) ->
  exists p before after, child k l = Some (Some p) /\ a = atom_for (len before) p /\ p_kind p = k /\
    pre ++ l ++ post = before ++ part_bytes p ++ after /\
    forall payload, len payload = len (p_payload p) -> exists l',
      before ++ part_bytes (with_payload p payload) ++ after = pre ++ l' ++ post /\ len l' = len l /\
      child k l' = Some (Some (with_payload p payload)) /\ forall k', k' <> k -> child k' l' = child k' l.
Proof.
  intros Hf. pose proof (child_found _ _ _ _ Hf) as Hc. destruct Hf as (bs & p & tail & E & -> & Hk & Hbs).
  rewrite E, (first_of_found k) in Hc by done. destruct (parse_split l bs p tail E) as (El & _). cbv zeta in El.
  exists p, (pre ++ parts_bytes bs), (parts_bytes tail ++ (parse l).2 ++ post). split_and!; [done| |done| |].
  - by rewrite len_app.
  - rewrite El at 1. by rewrite <- !app_assoc.
  - intros payload Hlen. destruct (parse_with_payload l bs p tail payload E Hlen) as (l' & El' & Ep & Elen). exists l'. split_and!; [|done| |].
    + rewrite El'. by rewrite <- !app_assoc.
    + unfold child. rewrite Ep. cbn [fst snd]. by rewrite (first_of_found k).
    + intros k' Hne. unfold child. rewrite Ep, E. cbn [fst snd]. rewrite (first_of_other k' bs (with_payload p payload) p) by (cbn; congruence). done.
Qed.

Definition KINDS_OF (tables : list (string * Z)) : list bytes := map (fun e => kind_of e.1) tables.

(** The payload of a table, as the loop walks through it. *)
Lemma wp_shift_payload data pre y post width position delta s :
  width = 4 \/ width = 8 -> data = pre ++ y ++ post -> 8 <= len y ->
  let end_ := len pre + len y in
  wp (shift_entries (Z.to_nat (Z.min (from_be (slice data (len pre + 4) (len pre + 8))) ((end_ - (len pre + 8) + width - 1) / width)))
        data (len pre + 8) end_ width position delta)
    (fun data' s' => written s' = written s /\ exists y', data' = pre ++ y' ++ post /\ len y' = len y /\
       table_offsets width y' = map (shift position delta) (table_offsets width y)) (fun _ _ => True) s.
Proof.
  intros Hwidth Hdata Hge end_.
  set (y1 := take 8 y). set (y2 := drop 8 y). assert (y = y1 ++ y2) as Ey by (symmetry; apply take_drop).
  assert (len y1 = 8) as Ey1 by (unfold len, y1; rewrite length_take; unfold len in *; lia).
  assert (len y = 8 + len y2) as Ely by (rewrite Ey, len_app; lia). pose proof (len_nonneg y2) as Hy2.
  assert (slice data (len pre + 4) (len pre + 8) = slice y1 4 8) as ->.
  { rewrite Hdata, slice_shift, Ey, <- app_assoc by lia. apply slice_app_l; lia. }
  set (count := from_be (slice y1 4 8)).
  assert (forall z, len z = len y2 -> table_offsets width (y1 ++ z) = entries (Z.to_nat (Z.min count (len y))) (Z.to_nat width) z) as Htab.
  { intros z Hz. unfold table_offsets. rewrite len_app, Hz, Ey1. rewrite (proj2 (Z.ltb_ge _ _)) by lia.
    rewrite slice_app_l by lia. rewrite drop_app_length' by (unfold len in Ey1; lia). by rewrite <- Ely. }
  set (steps := (end_ - (len pre + 8) + width - 1) / width).
  assert (len y2 <= width * steps) as Hsteps.
  { unfold steps, end_. pose proof (Z.mod_pos_bound (len y2 + width - 1) width). pose proof (Z.div_mod (len y2 + width - 1) width).
    replace (len pre + len y - (len pre + 8) + width - 1) with (len y2 + width - 1) by lia. lia. }
  assert (forall z, len z = len y2 -> table_offsets width (y1 ++ z) = entries (Z.to_nat (Z.min count steps)) (Z.to_nat width) z) as Hsame.
  { intros z Hz. rewrite Htab by done. rewrite !Z2Nat.inj_min. apply entries_min; [lia|unfold len in *; nia|]. unfold len in *. nia. }
  replace (len pre + 8) with (len (pre ++ y1)) by (rewrite !len_app; lia).
  replace end_ with (len (pre ++ y1) + len y2) by (unfold end_; rewrite !len_app; lia).
  eapply wp_mono; [apply (wp_shift_entries _ _ _ _ post); [done|by rewrite Hdata, Ey, <- !app_assoc]| |done].
  intros data' s2 (Hw2 & z & -> & Hz & He). split; [done|]. exists (y1 ++ z). split; [by rewrite <- !app_assoc|]. split; [rewrite len_app; lia|].
  rewrite Hsame, He by done. f_equal. rewrite Ey. symmetry. by apply Hsame.
Qed.

(** One table: its offsets are shifted, the other children are as they were. *)
Lemma wp_shift_table data pre l post parent kind width position delta s :
  width = 4 \/ width = 8 -> data = pre ++ l ++ post -> len data < 2 ^ 63 -> a_payload parent = len pre -> a_end parent = len pre + len l ->
  wp (shift_table data parent kind width position delta)
    (fun data' s' => written s' = written s /\ exists l', data' = pre ++ l' ++ post /\ len l' = len l /\
       (forall k', k' <> kind_of kind -> child k' l' = child k' l) /\
       (child (kind_of kind) l = Some None /\ child (kind_of kind) l' = Some None \/
        exists p q, child (kind_of kind) l = Some (Some p) /\ child (kind_of kind) l' = Some (Some q) /\
          table_offsets width (p_payload q) = map (shift position delta) (table_offsets width (p_payload p)))) (fun _ _ => True) s.
Proof.
  intros Hwidth Hdata Hmax Hpay Hend. unfold shift_table. rewrite Hpay, Hend. apply wp_bind.
  eapply wp_mono; [by eapply wp_find_atom| |done]. intros r s1 [Hw1 Hf]. destruct r as [a|].
  2: { apply wp_ret. split; [done|]. exists l. pose proof (child_found _ _ _ _ Hf). split_and!; [done..|]. by left. }
  destruct (found_child pre l post _ a Hf) as (p & before & after & Hc & -> & Hk & El & Hnew). rewrite Hdata, El.
  cbn [atom_for a_payload a_end]. unfold part_bytes. rewrite <- !app_assoc, !len_app. set (h := p_header p) in *. set (y := p_payload p) in *.
  pose proof (len_nonneg h). pose proof (len_nonneg y).
  assert (forall y', len y' = len y -> table_offsets width y' = map (shift position delta) (table_offsets width y) ->
    exists l', before ++ (h ++ y') ++ after = pre ++ l' ++ post /\ len l' = len l /\ (forall k', k' <> kind_of kind -> child k' l' = child k' l) /\
     (child (kind_of kind) l = Some None /\ child (kind_of kind) l' = Some None \/
      exists p q, child (kind_of kind) l = Some (Some p) /\ child (kind_of kind) l' = Some (Some q) /\
          table_offsets width (p_payload q) = map (shift position delta) (table_offsets width (p_payload p)))) as Hdone.
  { intros y' Hy' Ht. destruct (Hnew y' Hy') as (l' & E1 & E2 & E3 & E4). exists l'. split_and!; [exact E1|done|done|].
    right. exists p, (with_payload p y'). by split_and!. }
  destruct (Z.ltb_spec (len before + (len h + len y)) (len before + len h + 8)) as [Hlt|Hge].
  { apply wp_ret. split; [done|]. destruct (Hdone y) as (l' & E1 & Hl'); [done| |exists l'; by rewrite <- E1, <- app_assoc].
    unfold table_offsets. by rewrite (proj2 (Z.ltb_lt _ _)) by lia. }
  rewrite app_assoc. replace (len before + len h) with (len (before ++ h)) by by rewrite len_app.
  replace (len before + (len h + len y)) with (len (before ++ h) + len y) by (rewrite len_app; lia).
  eapply wp_mono; [apply (wp_shift_payload _ _ _ after); [done|done|lia]| |done]. intros data' s2 (Hw2 & z & -> & Hz & He). split; [congruence|].
  destruct (Hdone z Hz He) as (l' & E1 & Hl'). exists l'. by rewrite <- E1, <- !app_assoc.
Qed.
(** Its tables: the offsets of all of them. *)
Lemma wp_shift_tables tables data pre l post parent position delta s :
  Forall (fun e => e.2 = 4 \/ e.2 = 8) tables -> NoDup (KINDS_OF tables) ->
  data = pre ++ l ++ post -> len data < 2 ^ 63 -> a_payload parent = len pre -> a_end parent = len pre + len l ->
  wp (shift_tables data parent tables position delta)
    (fun data' s' => written s' = written s /\ exists l', data' = pre ++ l' ++ post /\ len l' = len l /\
       (forall k, k ∉ KINDS_OF tables -> child k l' = child k l) /\
       exists vs, tables_offsets tables l = Some vs /\ tables_offsets tables l' = Some (map (shift position delta) vs)) (fun _ _ => True) s.
Proof.
  intros Hw. revert data l s. induction Hw as [|[kind width] tables Hwidth _ IH]; intros data l s Hnd Hdata Hmax Hpay Hend; cbn [shift_tables].
  { apply wp_ret. split; [done|]. exists l. split_and!; [done..|]. by exists []. }
  unfold KINDS_OF in Hnd. cbn [map fst] in Hnd. apply NoDup_cons in Hnd as [Hnew Hnd]. cbn [snd] in Hwidth.
  apply wp_bind. eapply wp_mono; [by eapply wp_shift_table| |done]. intros data1 s1 (Hw1 & l1 & Hdata1 & Hl1 & Hother1 & Hchild).
  assert (len data1 = len data) as Edata by (rewrite Hdata, Hdata1, !len_app; lia).
  eapply wp_mono; [apply (IH data1 l1); [done|done|lia|done|lia]| |done]. intros data2 s2 (Hw2 & l2 & Hdata2 & Hl2 & Hother2 & us & Hus & Hus').
  split; [congruence|]. exists l2. split; [done|]. split; [lia|].
  assert (forall k, k ∈ KINDS_OF tables -> k <> kind_of kind) as Hkinds by (intros k Hk ->; by apply Hnew).
  assert (forall ts, Forall (fun e => kind_of e.1 <> kind_of kind) ts -> tables_offsets ts l1 = tables_offsets ts l) as Hsame.
  { induction 1 as [|[k w] ts Hk _ IHts]; [done|]. cbn [tables_offsets]. cbn [fst] in Hk. by rewrite IHts, (Hother1 (kind_of k)). }
  rewrite Hsame in Hus.
  2: { apply Forall_forall. intros e He E. apply Hnew. rewrite <- E. by apply (list_elem_of_fmap_2 (fun e => kind_of e.1)). }
  split.
  - intros k Hk. unfold KINDS_OF in Hk. cbn [map fst] in Hk. apply not_elem_of_cons in Hk as [Hk1 Hk2]. by rewrite Hother2, Hother1.
  - cbn [tables_offsets]. rewrite Hus, Hus', (Hother2 (kind_of kind)) by done.
    destruct Hchild as [[-> ->]|(p & q & -> & -> & E)]; [by exists us|]. eexists. split; [done|]. by rewrite map_app, E.
Qed.

(** ** The way to the tables *)

Lemma wp_descend_none data kinds (Q : option Atom -> Io -> Prop) R s : Q None s -> wp (descend data None kinds) Q R s.
Proof. intros HQ. induction kinds as [|kind kinds IH]; cbn [descend]; [by apply wp_ret|]. by apply wp_bind, wp_ret. Qed.

Lemma wp_descend kinds data pre l post a s :
  data = pre ++ l ++ post -> len data < 2 ^ 63 -> a_payload a = len pre -> a_end a = len pre + len l ->
  wp (descend data (Some a) kinds)
    (fun r s' => written s' = written s /\ match r with
       | None => descendant kinds l = Some None
       | Some b => exists pre' l' post', data = pre' ++ l' ++ post' /\ a_payload b = len pre' /\ a_end b = len pre' + len l' /\
           descendant kinds l = Some (Some l') /\
           forall m', len m' = len l' -> exists m, pre' ++ m' ++ post' = pre ++ m ++ post /\ len m = len l /\ descendant kinds m = Some (Some m')
       end) (fun _ _ => True) s.
Proof.
  revert pre l post a s. induction kinds as [|kind kinds IH]; intros pre l post a s Hdata Hmax Hpay Hend; cbn [descend].
  { apply wp_ret. split; [done|]. exists pre, l, post. split_and!; [done..|]. intros m Hm. by exists m. }
  rewrite Hpay, Hend. apply wp_bind. eapply wp_mono; [by eapply wp_find_atom| |done]. intros r s1 [Hw1 Hf]. cbn [descendant]. destruct r as [b|].
  2: { apply wp_descend_none. split; [done|]. by rewrite (child_found _ _ _ _ Hf). }
  destruct (found_child pre l post _ b Hf) as (p & before & after & Hc & -> & Hk & El & Hnew). rewrite Hc.
  eapply wp_mono; [apply (IH (before ++ p_header p) (p_payload p) after)| |done].
  - rewrite Hdata, El. unfold part_bytes. by rewrite <- !app_assoc.
  - done.
  - cbn [atom_for a_payload]. by rewrite len_app.
  - cbn [atom_for a_end]. unfold part_bytes. rewrite !len_app. lia.
  - intros r s2 [Hw2 Hr]. split; [congruence|]. destruct r as [b|]; [|done].
    destruct Hr as (pre' & l' & post' & H1 & H2 & H3 & H4 & H5). exists pre', l', post'. split_and!; [done..|].
    intros m' Hm'. destruct (H5 m' Hm') as (y & Ey & Hy & Hd). destruct (Hnew y Hy) as (m & Em & Hm & Hcm & _). exists m.
    split; [|split; [done|by rewrite Hcm]]. rewrite <- Em, Ey. unfold part_bytes. cbn [with_payload p_header p_payload]. by rewrite <- !app_assoc.
Qed.

(** ** Tracks *)

(** A part whose payload is another of the same length, if it is a track. *)
Definition alike (p q : Part) : Prop :=
  q = with_payload p (p_payload q) /\ len (p_payload q) = len (p_payload p) /\ (p_kind p <> kind_of "trak" -> q = p).

Lemma alike_refl p : alike p p.
Proof. by destruct p. Qed.
Lemma alike_len p q : alike p q -> len (part_bytes q) = len (part_bytes p).
Proof. intros (Hq & Hl & _). rewrite Hq. unfold part_bytes. cbn [with_payload p_header p_payload]. rewrite !len_app. lia. Qed.
Lemma alike_parts_len ps qs : Forall2 alike ps qs -> len (parts_bytes qs) = len (parts_bytes ps).
Proof. induction 1 as [|p q ps qs Hq _ IH]; [done|]. by rewrite !parts_bytes_cons, !len_app, IH, (alike_len p q). Qed.

Lemma parse_alike l qs : Forall2 alike (parse l).1 qs -> parse (parts_bytes qs ++ (parse l).2) = (qs, (parse l).2).
Proof.
  revert qs. induction l as [l Hn|p rest Hp IH] using part_ind; intros qs Hqs.
  - rewrite (parse_none l) in * by done. apply Forall2_nil_inv_l in Hqs as ->. change (parse l = ([], l)); by apply parse_none.
  - rewrite (parse_cons (part_bytes p ++ rest) p rest) in * by done. cbn [fst snd] in *. apply Forall2_cons_inv_l in Hqs as (q & qs' & (Hq & Hl & _) & Hqs & ->).
    specialize (IH qs' Hqs). rewrite parts_bytes_cons, <- app_assoc.
    assert (len (parts_bytes qs' ++ (parse rest).2) = len rest) as Elen.
    { rewrite (parse_bytes rest) at 2. rewrite !len_app. f_equal. by apply alike_parts_len. }
    assert (head_part (part_bytes q ++ parts_bytes qs' ++ (parse rest).2) = Some q) as Hhead.
    { rewrite Hq. unfold with_payload. destruct (head_part_explicit _ _ Hp) as [He|(E0 & E8 & E)].
      - apply header_explicit. unfold part_bytes in He. by rewrite len_app, <- Hl in He.
      - rewrite <- (app_nil_r (part_bytes p)) in E at 2. apply app_inv_head in E as ->. change (len []) with 0 in Elen.
        assert (parts_bytes qs' ++ (parse []).2 = []) as -> by (apply length_zero_iff_nil; unfold len in Elen; cbn [length] in Elen; lia).
        apply (head_part_payload p []); [done|done]. }
    rewrite (parse_cons _ q (parts_bytes qs' ++ (parse rest).2)) by done. by rewrite IH.
Qed.

Lemma wp_shift_tracks ps data pre post position delta s : data = pre ++ parts_bytes ps ++ post -> len data < 2 ^ 63 ->
  wp (shift_tracks data (List.filter (is_kind "trak") (place (len pre) ps)) position delta)
    (fun data' s' => written s' = written s /\ exists qs, data' = pre ++ parts_bytes qs ++ post /\ Forall2 alike ps qs /\
       exists vs, tracks_offsets ps = Some vs /\ tracks_offsets qs = Some (map (shift position delta) vs)) (fun _ _ => True) s.
Proof.
  revert data pre s. induction ps as [|p ps IH]; intros data pre s Hdata Hmax.
  { apply wp_ret. split; [done|]. exists []. split_and!; [done|done|by exists []]. }
  assert (forall q data1 s1, data1 = pre ++ part_bytes q ++ parts_bytes ps ++ post -> alike p q -> written s1 = written s ->
    wp (shift_tracks data1 (List.filter (is_kind "trak") (place (len pre + len (part_bytes p)) ps)) position delta)
      (fun data' s' => written s' = written s /\ exists qs, data' = pre ++ parts_bytes (q :: qs) ++ post /\ Forall2 alike (p :: ps) (q :: qs) /\
         exists vs, tracks_offsets ps = Some vs /\ tracks_offsets qs = Some (map (shift position delta) vs)) (fun _ _ => True) s1) as Hrest.
  { intros q data1 s1 Hdata1 Hq Hw1. assert (len (part_bytes q) = len (part_bytes p)) as Elen. by by apply alike_len.
    rewrite <- Elen, <- len_app. eapply wp_mono; [apply IH| |done].
    - by rewrite Hdata1, <- app_assoc.
    - assert (len data1 = len data) as ->; [|done]. rewrite Hdata, Hdata1, parts_bytes_cons, <- app_assoc, !len_app. lia.
    - intros data' s2 (Hw2 & qs & -> & Hqs & Hvs). split; [congruence|]. exists qs. split_and!; [|by constructor|done].
      by rewrite parts_bytes_cons, <- !app_assoc. }
  rewrite parts_bytes_cons, <- app_assoc in Hdata. cbn [place List.filter]. change (is_kind "trak" (atom_for (len pre) p)) with (bool_decide (p_kind p = kind_of "trak")).
  case_bool_decide as Ek.
  2: { eapply wp_mono; [apply (Hrest p data s); [done|apply alike_refl|done]| |done]. intros data' s1 (Hw1 & qs & -> & Hqs & Hvs).
       split; [done|]. exists (p :: qs). cbn [tracks_offsets]. rewrite bool_decide_eq_false_2 by done. done. }
  cbn [shift_tracks]. apply wp_bind.
  assert (data = (pre ++ p_header p) ++ p_payload p ++ (parts_bytes ps ++ post)) as Hpay by (rewrite Hdata; unfold part_bytes; by rewrite <- !app_assoc).
  eapply wp_mono; [apply (wp_descend PATH data (pre ++ p_header p) (p_payload p)); [exact Hpay|done|cbn [atom_for a_payload]; by rewrite len_app|
    cbn [atom_for a_end]; unfold part_bytes; rewrite !len_app; lia]| |done].
  intros r s1 [Hw1 Hr]. destruct r as [parent|].
  2: { apply wp_bind, wp_ret. eapply wp_mono; [apply (Hrest p data s1); [done|apply alike_refl|done]| |done].
       intros data' s2 (Hw2 & qs & -> & Hqs & vs & Hvs & Hus). split; [congruence|]. exists (p :: qs). split_and!; [done..|].
       cbn [tracks_offsets]. rewrite bool_decide_eq_true_2 by done. unfold track_offsets. rewrite Hr, Hvs, Hus. by exists vs. }
  destruct Hr as (pre' & l' & post' & Hd' & Hp' & He' & Hdesc & Hnew). apply wp_bind.
  eapply wp_mono; [apply (wp_shift_tables TABLES data pre' l' post'); [by repeat constructor; left || (constructor; right)| |done..]| |done].
  { apply (bool_decide_unpack _). by vm_compute. }
  intros data1 s2 (Hw2 & m' & -> & Hm' & _ & vs & Hvs & Hvs'). destruct (Hnew m' Hm') as (m & Em & Hm & Hdm).
  eapply wp_mono; [apply (Hrest (with_payload p m))| |done]; [|by split_and!|congruence|].
  - rewrite Em. unfold part_bytes. cbn [with_payload p_header p_payload]. by rewrite <- !app_assoc.
  - intros data' s3 (Hw3 & qs & -> & Hqs & us & Hus & Hus'). split; [congruence|]. exists (with_payload p m :: qs). split_and!; [done..|].
    exists (vs ++ us). cbn [tracks_offsets with_payload p_kind p_payload]. rewrite bool_decide_eq_true_2 by done. unfold track_offsets.
    by rewrite Hdesc, Hdm, Hvs, Hvs', Hus, Hus', map_app.
Qed.

(** The whole: the file keeps its shape, and its offsets are shifted. *)
Lemma wp_shift_offsets data position delta s : delta <> 0 -> len data < 2 ^ 63 ->
  wp (shift_offsets data position delta)
    (fun data' s' => written s' = written s /\ exists moov qs tail, head_part data = Some moov /\ data = part_bytes moov ++ tail /\
       Forall2 alike (parse (p_payload moov)).1 qs /\
       data' = part_bytes (with_payload moov (parts_bytes qs ++ (parse (p_payload moov)).2)) ++ tail /\
       exists vs, chunk_offsets data = Some vs /\ chunk_offsets data' = Some (map (shift position delta) vs)) (fun _ _ => True) s.
Proof.
  intros Hdelta Hmax. unfold shift_offsets. rewrite (proj2 (Z.eqb_neq delta 0)) by done. apply wp_bind.
  change (atom data 0 (len data)) with (atom data (len (@nil Z)) (len (@nil Z) + len data)).
  eapply wp_mono; [apply (wp_atom data [] data []); [by rewrite app_nil_r|done]| |done]. intros a s1 (Hw1 & moov & Hhead & ->).
  apply wp_bind. pose proof (head_part_spec _ _ Hhead) as (Edata & _). set (tail := drop _ data) in Edata. cbn [atom_for a_payload a_end].
  assert (data = p_header moov ++ p_payload moov ++ tail) as Hsplit by (rewrite Edata; unfold part_bytes; by rewrite <- app_assoc).
  change (len (@nil Z)) with 0. replace (0 + len (p_header moov)) with (len (p_header moov)) by lia.
  replace (0 + len (part_bytes moov)) with (len (p_header moov) + len (p_payload moov)) by (unfold part_bytes; rewrite len_app; lia).
  eapply wp_mono; [by eapply wp_children| |done]. intros atoms s2 (Hw2 & -> & Hrest).
  pose proof (parse_bytes (p_payload moov)) as Epay. set (ps := (parse (p_payload moov)).1) in *. set (rest := (parse (p_payload moov)).2) in *.
  eapply wp_mono; [apply (wp_shift_tracks ps data (p_header moov) (rest ++ tail)); [|done]| |done].
  { rewrite Hsplit, Epay at 1. by rewrite <- app_assoc. }
  intros data' s3 (Hw3 & qs & Hdata' & Hqs & vs & Hvs & Hvs'). split; [congruence|]. exists moov, qs, tail.
  assert (data' = part_bytes (with_payload moov (parts_bytes qs ++ rest)) ++ tail) as Enew.
  { rewrite Hdata'. unfold part_bytes. cbn [with_payload p_header p_payload]. by rewrite <- !app_assoc. }
  split_and!; [done..|]. exists vs.
  assert (len (parts_bytes qs ++ rest) = len (p_payload moov)) as Elen.
  { assert (len data' = len data) as E.
    { pose proof (alike_parts_len _ _ Hqs) as E.
      rewrite Hdata', Hsplit, Epay, !len_app. lia. }
    rewrite Enew, Edata, !len_app in E. unfold part_bytes in E. cbn [with_payload p_header p_payload] in E. rewrite !len_app in E. rewrite len_app. lia. }
  unfold chunk_offsets. rewrite Hhead, Enew. rewrite Edata in Hhead. unfold with_payload. rewrite (head_part_payload moov tail) by done. cbn [p_payload].
  assert (parse (parts_bytes qs ++ rest) = (qs, rest)) as -> by (unfold rest; by apply parse_alike). fold ps rest. cbn [fst snd]. by rewrite (proj2 (Z.ltb_lt (len rest) 8)), Hvs, Hvs'.
Qed.
End offsets.
