(* ===== verification/Mp4Items.v ===== *)
(** * Replacing a range of an atom

    A range within nested atoms is replaced, and each atom around it is given its new size: every atom outside the
    range is a part as before, and the offsets of chunks are those of before. *)

From S2P Require Import Prelude Monads UnicodeText TagIo Mp4Atoms Mp4Shape.

(** ** One part among others *)

(** [cut k l b p a]: [p] is the first part of kind [k] in [l], between [b] and [a]. *)
Definition cut (k l b : bytes) (p : Part) (a : bytes) : Prop :=
  exists bs tail, (parse l).1 = bs ++ p :: tail /\ Forall (fun q => p_kind q <> k) bs /\ p_kind p = k /\
    b = parts_bytes bs /\ a = parts_bytes tail ++ (parse l).2.

Lemma found_cut pre l k at_ : found pre l k (Some at_) -> exists b p a, cut k l b p a /\ at_ = atom_for (len pre + len b) p.
Proof.
  intros (bs & p & tail & E & -> & Hk & Hbs). exists (parts_bytes bs), p, (parts_bytes tail ++ (parse l).2).
  split; [|done]. by exists bs, tail.
Qed.

Lemma cut_eq k l b p a : cut k l b p a -> l = b ++ part_bytes p ++ a /\ child k l = Some (Some p) /\ head_part (part_bytes p ++ a) = Some p.
Proof.
  intros (bs & tail & E & Hbs & Hk & -> & ->). destruct (parse_split l bs p tail E) as (El & _ & Hh & _). cbv zeta in *.
  split_and!; [done| |done]. unfold child. by rewrite E, (first_of_found k).
Qed.

Lemma tracks_offsets_other bs p q tail : p_kind p <> kind_of "trak" -> p_kind q <> kind_of "trak" ->
  tracks_offsets (bs ++ p :: tail) = tracks_offsets (bs ++ q :: tail).
Proof.
  intros Hp Hq. induction bs as [|b bs IH]; cbn [app tracks_offsets]; [by rewrite !bool_decide_eq_false_2|]. by rewrite IH.
Qed.

(** Another part of the same kind in its place. *)
Lemma cut_put k l b p a q : cut k l b p a -> explicit q -> p_kind q = k ->
  cut k (b ++ part_bytes q ++ a) b q a /\
  (forall k', k' <> k -> child k' (b ++ part_bytes q ++ a) = child k' l) /\
  (parse (b ++ part_bytes q ++ a)).2 = (parse l).2 /\
  (k <> kind_of "trak" -> tracks_offsets (parse (b ++ part_bytes q ++ a)).1 = tracks_offsets (parse l).1).
Proof.
  intros (bs & tail & E & Hbs & Hk & -> & ->) Hq Hqk.
  assert (parse (parts_bytes bs ++ part_bytes q ++ parts_bytes tail ++ (parse l).2) = (bs ++ q :: tail, (parse l).2)) as Ep
    by (apply (parse_replace l bs p tail q E); apply Hq).
  split_and!.
  - exists bs, tail. by rewrite Ep.
  - intros k' Hne. unfold child. rewrite Ep, E. cbn [fst snd]. by rewrite (first_of_other k' bs q p) by congruence.
  - by rewrite Ep.
  - intros Ht. rewrite Ep, E. cbn [fst]. apply tracks_offsets_other; congruence.
Qed.

(** ** Headers of another size *)

Definition grown_header (h : bytes) (size : Z) : bytes :=
  if len h =? 16 then be_bytes 4 1 ++ slice h 4 8 ++ be_bytes 8 size else be_bytes 4 size ++ slice h 4 8.
Definition resized (p : Part) (payload : bytes) : Part :=
  mkPart (p_kind p) (grown_header (p_header p) (len (p_header p) + len payload)) payload.

(** A part with a header: the kind is in it. *)
Definition shaped (p : Part) : Prop := p_kind p = slice (p_header p) 4 8 /\ (len (p_header p) = 8 \/ len (p_header p) = 16).

Lemma head_part_shaped l p : head_part l = Some p -> shaped p.
Proof. intros Hp. split; [by apply head_part_header in Hp as [? _]|by apply head_part_spec in Hp as (_ & _ & ?)]. Qed.

Lemma len_grown h size : len h = 8 \/ len h = 16 -> len (grown_header h size) = len h.
Proof.
  intros Hh. unfold grown_header. destruct (Z.eqb_spec (len h) 16) as [E|E]; rewrite !len_app, ?len_be_bytes, len_slice by lia; lia.
Qed.

Lemma len_resized p payload : shaped p -> len (part_bytes (resized p payload)) = len (p_header p) + len payload.
Proof. intros [_ Hh]. unfold part_bytes, resized. cbn [p_header p_payload]. by rewrite len_app, len_grown. Qed.

Lemma take_be n z l : take n (be_bytes n z ++ l) = be_bytes n z.
Proof. by rewrite take_app_length' by by rewrite be_bytes_length. Qed.
Lemma drop_be n z l : drop n (be_bytes n z ++ l) = l.
Proof. by rewrite drop_app_length' by by rewrite be_bytes_length. Qed.
Lemma from_be_small n z : 0 <= z < 256 ^ Z.of_nat n -> from_be (be_bytes n z) = z.
Proof. intros Hz. rewrite from_be_be_bytes. by apply Z.mod_small. Qed.

Lemma resized_explicit p payload : shaped p -> len (p_header p) + len payload < 2 ^ 32 -> explicit (resized p payload).
Proof.
  intros [Hk Hh] Hsize. pose proof (len_nonneg payload). apply header_explicit. rewrite len_grown by done. split.
  - rewrite Hk. symmetry. unfold grown_header. destruct (_ =? 16).
    + rewrite app_assoc. unfold slice at 1. change (Z.to_nat 4) with 4%nat. rewrite <- app_assoc, drop_be. apply take_app_length'.
      pose proof (len_slice (p_header p) 4 8). unfold len in *. lia.
    + unfold slice at 1. change (Z.to_nat 4) with 4%nat. rewrite drop_be. apply take_ge.
      pose proof (len_slice (p_header p) 4 8). unfold len in *. lia.
  - unfold grown_header. destruct (Z.eqb_spec (len (p_header p)) 16) as [E|E].
    + left. rewrite take_be, from_be_small by (cbn; lia). split_and!; [done|by rewrite !len_app, !len_be_bytes, len_slice by lia|].
      rewrite app_assoc, drop_app_length', from_be_small; [done|cbn; lia|].
      rewrite length_app, be_bytes_length. pose proof (len_slice (p_header p) 4 8). unfold len in *. lia.
    + right. rewrite take_be, from_be_small by (cbn; lia). split_and!; [done|by rewrite len_app, len_be_bytes, len_slice by lia|lia|lia].
Qed.

(** ** A range within nested parts *)

(** [spot p offset ancestors s e f]: the range from [s] to [e] lies in [p], which begins at [offset], within the
    ancestors and between the parts of each of them; [f] is [p] with other bytes there and the sizes of all ancestors. *)
Inductive spot : Part -> Z -> list Atom -> Z -> Z -> (bytes -> Part) -> Prop :=
  | spot_here p off x mid y : shaped p -> p_payload p = x ++ mid ++ y ->
      spot p off [atom_for off p] (off + len (p_header p) + len x) (off + len (p_header p) + len x + len mid)
        (fun r => resized p (x ++ r ++ y))
  | spot_in p off k b q a ancs s e f : shaped p -> cut k (p_payload p) b q a -> spot q (off + len (p_header p) + len b) ancs s e f ->
      spot p off (atom_for off p :: ancs) s e (fun r => resized p (b ++ part_bytes (f r) ++ a)).

Lemma spot_shaped p off ancs s e f : spot p off ancs s e f -> shaped p.
Proof. by destruct 1. Qed.
Lemma spot_kind p off ancs s e f r : spot p off ancs s e f -> p_kind (f r) = p_kind p.
Proof. by destruct 1. Qed.

Lemma spot_len p off ancs s e f r : spot p off ancs s e f ->
  len (part_bytes (f r)) = len (part_bytes p) + (len r - (e - s)) /\ off + len (p_header p) <= s <= e /\ e <= off + len (part_bytes p).
Proof.
  induction 1 as [p off x mid y Hp E|p off k b q a ancs s e f Hp Hc Hs (IH1 & IH2 & IH3)].
  - rewrite len_resized by done. unfold part_bytes. rewrite len_app, E, !len_app.
    pose proof (len_nonneg x). pose proof (len_nonneg mid). pose proof (len_nonneg y). lia.
  - apply cut_eq in Hc as (E & _). rewrite len_resized by done. assert (len (part_bytes p) = len (p_header p) + (len b + (len (part_bytes q) + len a))) as -> by (unfold part_bytes at 1; by rewrite len_app, E, !len_app). rewrite !len_app.
    pose proof (len_nonneg b). pose proof (len_nonneg a). pose proof (len_nonneg (p_header q)). lia.
Qed.

Lemma spot_explicit p off ancs s e f r : spot p off ancs s e f -> len (part_bytes (f r)) < 2 ^ 32 -> explicit (f r).
Proof.
  destruct 1 as [p off x mid y Hp E|p off k b q a ancs s e f Hp Hc Hs]; intros Hlen; rewrite len_resized in Hlen by done; by apply resized_explicit.
Qed.

(** The bytes with the range replaced, before the headers are. *)
Inductive spliced_part (r : bytes) : Part -> Z -> list Atom -> Z -> Z -> bytes -> (bytes -> Part) -> Prop :=
  | spliced_here p off x mid y : shaped p -> p_payload p = x ++ mid ++ y ->
      spliced_part r p off [atom_for off p] (off + len (p_header p) + len x) (off + len (p_header p) + len x + len mid)
        (p_header p ++ x ++ r ++ y) (fun r => resized p (x ++ r ++ y))
  | spliced_in p off k b q a ancs s e sq f : shaped p -> cut k (p_payload p) b q a ->
      spliced_part r q (off + len (p_header p) + len b) ancs s e sq f ->
      spliced_part r p off (atom_for off p :: ancs) s e (p_header p ++ b ++ sq ++ a) (fun r => resized p (b ++ part_bytes (f r) ++ a)).

Lemma spot_spliced r p off ancs s e f : spot p off ancs s e f -> exists sp, spliced_part r p off ancs s e sp f.
Proof.
  induction 1 as [p off x mid y Hp E|p off k b q a ancs s e f Hp Hc Hs [sq IH]].
  - eexists. by apply spliced_here.
  - eexists. by eapply spliced_in.
Qed.
Lemma spliced_spot r p off ancs s e sp f : spliced_part r p off ancs s e sp f -> spot p off ancs s e f.
Proof. induction 1; [by apply spot_here|by eapply spot_in]. Qed.

Lemma splice_app (pre x mid y r : bytes) s e : s = len pre + len x -> e = s + len mid ->
  take (Z.to_nat s) (pre ++ x ++ mid ++ y) ++ r ++ drop (Z.to_nat e) (pre ++ x ++ mid ++ y) = pre ++ x ++ r ++ y.
Proof.
  intros -> ->. rewrite (app_assoc pre x (mid ++ y)). rewrite take_app_length' by (rewrite length_app; unfold len; lia).
  rewrite (app_assoc (pre ++ x) mid y). rewrite (drop_app_length' ((pre ++ x) ++ mid)) by (rewrite !length_app; unfold len; lia).
  by rewrite <- app_assoc.
Qed.

Lemma spliced_bytes r p off ancs s e sp f pre post : spliced_part r p off ancs s e sp f -> off = len pre ->
  let data := pre ++ part_bytes p ++ post in
  take (Z.to_nat s) data ++ r ++ drop (Z.to_nat e) data = pre ++ sp ++ post.
Proof.
  intros Hs. revert pre post. induction Hs as [p off x mid y Hp E|p off k b q a ancs s e sq f Hp Hc Hs IH]; intros pre post Hoff; cbv zeta.
  - unfold part_bytes. rewrite E. replace (pre ++ (p_header p ++ x ++ mid ++ y) ++ post) with ((pre ++ p_header p) ++ x ++ mid ++ (y ++ post))
      by (by rewrite <- !app_assoc).
    rewrite splice_app; [by rewrite <- !app_assoc|rewrite len_app; lia|lia].
  - apply cut_eq in Hc as (E & _). unfold part_bytes at 1 2. rewrite E.
    replace (pre ++ (p_header p ++ b ++ part_bytes q ++ a) ++ post) with ((pre ++ p_header p ++ b) ++ part_bytes q ++ (a ++ post))
      by (by rewrite <- !app_assoc).
    rewrite IH by (rewrite !len_app; lia). by rewrite <- !app_assoc.
Qed.

Section replace.
Context `{Source}.
Implicit Types (s : Io).

Lemma wp_grow pre h rest size a delta (s : Io) (Q : bytes -> Io -> Prop) R :
  len h = 8 \/ len h = 16 -> a_start a = len pre -> a_payload a - a_start a = len h -> size = a_end a - a_start a + delta ->
  0 <= size < 2 ^ 32 -> Q (pre ++ grown_header h size ++ rest) s -> wp (grow (pre ++ h ++ rest) a delta) Q R s.
Proof.
  intros Hh Hstart Hpay -> Hsize HQ. unfold grow. rewrite (proj2 (Z.ltb_ge _ 0)), (proj2 (Z.leb_gt (2 ^ 64) _)) by lia. cbn [orb].
  rewrite Hpay, Hstart. rewrite Hstart in HQ, Hsize. set (z := a_end a - len pre + delta) in *. unfold grown_header in HQ.
  destruct (Z.eqb_spec (len h) 16) as [E|E].
  - apply wp_ret. set (h1 := take 4 h). set (h2 := slice h 4 8). set (h3 := drop 8 h).
    assert (h = h1 ++ h2 ++ h3) as Eh.
    { unfold h1, h2, h3, slice. change (Z.to_nat 4) with 4%nat. change (Z.to_nat (8 - 4)) with 4%nat.
      change (drop 8 h) with (drop (4 + 4) h). rewrite <- drop_drop, take_drop. by rewrite take_drop. }
    assert (len h1 = 4 /\ len h2 = 4 /\ len h3 = 8) as (E1 & E2 & E3).
    { unfold h1, h2, h3, slice, len in *. rewrite !length_take, !length_drop. lia. }
    rewrite Eh at 1. rewrite <- !app_assoc. rewrite (write_at_app pre h1) by (rewrite len_be_bytes; lia).
    replace (pre ++ be_bytes 4 1 ++ h2 ++ h3 ++ rest) with ((pre ++ be_bytes 4 1 ++ h2) ++ h3 ++ rest) by (by rewrite <- !app_assoc).
    replace (len pre + 8) with (len (pre ++ be_bytes 4 1 ++ h2)) by (rewrite !len_app, len_be_bytes; lia).
    rewrite write_at_app by (rewrite len_be_bytes; lia). rewrite <- !app_assoc in *. exact HQ.
  - rewrite (proj2 (Z.leb_gt (2 ^ 32) _)) by lia. apply wp_ret. set (h1 := take 4 h). set (h2 := slice h 4 8).
    assert (len h = 8) as E8 by lia. assert (h = h1 ++ h2) as Eh.
    { unfold h1, h2, slice. change (Z.to_nat 4) with 4%nat. rewrite (take_ge (drop 4 h)) by (rewrite length_drop; unfold len in *; lia). by rewrite take_drop. }
    assert (len h1 = 4) as E1 by (unfold h1, len in *; rewrite length_take; lia).
    rewrite Eh at 1. rewrite <- app_assoc, (write_at_app pre h1) by (rewrite len_be_bytes; lia). by rewrite <- !app_assoc in HQ.
Qed.

Lemma wp_grow_all r p off ancs a b sp f pre post (s : Io) :
  spliced_part r p off ancs a b sp f -> off = len pre -> len (part_bytes (f r)) < 2 ^ 32 ->
  wp (grow_all (pre ++ sp ++ post) ancs (len r - (b - a)))
    (fun data s' => s' = s /\ data = pre ++ part_bytes (f r) ++ post) (fun _ _ => True) s.
Proof.
  intros Hs. revert pre post. induction Hs as [p off x mid y Hp E|p off k u q v ancs a b sq f Hp Hc Hs IH]; intros pre post Hoff Hlen; cbn [grow_all].
  - rewrite len_resized in Hlen by done. apply wp_bind. rewrite <- !app_assoc.
    apply (wp_grow _ _ _ (len (p_header p) + len (x ++ r ++ y))); [apply Hp|done|cbn; lia| | |].
    + cbn [atom_for a_end a_start]. unfold part_bytes. rewrite len_app, E, !len_app. lia.
    + pose proof (len_nonneg (p_header p)). pose proof (len_nonneg (x ++ r ++ y)). lia.
    + apply wp_ret. split; [done|]. unfold part_bytes, resized. cbn [p_header p_payload]. by rewrite <- !app_assoc.
  - pose proof (spliced_spot _ _ _ _ _ _ _ _ Hs) as Hspot. destruct (spot_len _ _ _ _ _ _ r Hspot) as (Elen & _).
    rewrite len_resized in Hlen by done. apply cut_eq in Hc as (E & _). apply wp_bind. rewrite <- !app_assoc.
    pose proof (len_nonneg (p_header p)). pose proof (len_nonneg u). pose proof (len_nonneg v). rewrite !len_app in Hlen. pose proof (len_nonneg (part_bytes (f r))).
    apply (wp_grow _ _ _ (len (p_header p) + len (u ++ part_bytes (f r) ++ v))); [apply Hp|done|cbn; lia| | |].
    + cbn [atom_for a_end a_start]. unfold part_bytes at 2. rewrite (len_app (p_header p)), E, !len_app. lia.
    + rewrite !len_app. lia.
    + set (h := grown_header _ _). assert (len h = len (p_header p)) as Eh by (apply len_grown, Hp).
      replace (pre ++ h ++ u ++ sq ++ v ++ post) with ((pre ++ h ++ u) ++ sq ++ (v ++ post)) by (by rewrite <- !app_assoc).
      eapply wp_mono; [apply IH; [rewrite !len_app; lia|lia]| |done]. intros data s1 [-> ->]. split; [done|].
      unfold part_bytes at 2. cbn [resized p_header p_payload]. fold h. by rewrite <- !app_assoc.
Qed.
End replace.

(** * The items of an MP4 file, and room for them

    Where the items are, that a replacement keeps everything else, and that the atoms which are added when there are
    none then hold none. *)

Section replace.
Context `{Source}.
Implicit Types (s : Io).

(** The offsets of the whole, when a child that is no track has changed. *)
Lemma chunk_offsets_child moov tail k b q a q' :
  head_part (part_bytes moov ++ tail) = Some moov -> cut k (p_payload moov) b q a -> k <> kind_of "trak" ->
  explicit q' -> p_kind q' = k -> explicit (resized moov (b ++ part_bytes q' ++ a)) ->
  chunk_offsets (part_bytes (resized moov (b ++ part_bytes q' ++ a)) ++ tail) = chunk_offsets (part_bytes moov ++ tail).
Proof.
  intros Hm Hc Hk Hq Hqk He. unfold chunk_offsets. rewrite Hm, He. cbn [resized p_payload].
  destruct (cut_put k _ b q a q' Hc Hq Hqk) as (_ & _ & -> & Ht). by rewrite Ht.
Qed.

(** [replace] puts the bytes at the spot and gives the atoms around it their size; then it shifts the offsets. *)
Lemma wp_replace_spot moov tail ancs a b f r base s :
  head_part (part_bytes moov ++ tail) = Some moov -> spot moov 0 ancs a b f ->
  wp (replace (part_bytes moov ++ tail) a b r ancs base)
    (fun data s' => written s' = written s /\ explicit (f r) /\ len (part_bytes (f r) ++ tail) <= MAX_TAG_BYTES /\
       (len r = b - a /\ data = part_bytes (f r) ++ tail \/
        len r <> b - a /\ exists qs, Forall2 alike (parse (p_payload (f r))).1 qs /\
          data = part_bytes (with_payload (f r) (parts_bytes qs ++ (parse (p_payload (f r))).2)) ++ tail /\
          exists vs, chunk_offsets (part_bytes (f r) ++ tail) = Some vs /\
            chunk_offsets data = Some (map (shift (base + a) (len r - (b - a))) vs))) (fun _ _ => True) s.
Proof.
  intros Hm Hs. unfold replace. apply wp_bind, wp_any_guard. intros s1 Hw1.
  destruct (_ || _) eqn:E; [by apply wp_throw|]. apply orb_false_iff in E as [_ Emax]. apply Z.ltb_ge in Emax.
  destruct (spot_len _ _ _ _ _ _ r Hs) as (Elen & _ & _). destruct (spot_spliced r _ _ _ _ _ _ Hs) as [sp Hsp].
  pose proof (spliced_bytes _ _ _ _ _ _ _ _ [] tail Hsp eq_refl) as Esp. cbn [app] in Esp. rewrite Esp.
  assert (len (part_bytes (f r) ++ tail) <= MAX_TAG_BYTES) as Hmax by (rewrite len_app in *; lia).
  assert (len (part_bytes (f r)) < 2 ^ 32) as Hsmall by (rewrite len_app in Hmax; pose proof (len_nonneg tail); unfold MAX_TAG_BYTES in Hmax; lia).
  pose proof (spot_explicit _ _ _ _ _ _ _ Hs Hsmall) as He.
  apply wp_bind. eapply wp_mono; [by apply (wp_grow_all r moov 0 ancs a b sp f [] tail)| |done]. intros data s2 (-> & ->). cbn [app].
  destruct (decide (len r = b - a)) as [E0|E0].
  - unfold shift_offsets. rewrite (proj2 (Z.eqb_eq _ 0)) by lia. apply wp_ret. split_and!; [done..|]. by left.
  - eapply wp_mono; [apply wp_shift_offsets; [lia|unfold MAX_TAG_BYTES in Hmax; lia]| |done].
    intros data s3 (Hw3 & m & qs & tl & Hh & Et & Hqs & -> & Hvs). split_and!; [congruence|done|done|]. right. split; [done|].
    rewrite (He tail) in Hh. injection Hh as <-. apply app_inv_head in Et as <-. by exists qs.
Qed.
End replace.

(** ** The items of a file *)

(** The first [ilst] behind the version of a [meta]. *)
Definition meta_items (m : bytes) : option (option bytes) :=
  match child (kind_of "ilst") (drop 4 m) with
  | Some (Some i) => Some (Some (p_payload i))
  | Some None => Some None
  | None => None
  end.
Definition items_below (l : bytes) : option (option bytes) :=
  match child (kind_of "meta") l with
  | Some (Some m) => meta_items (p_payload m)
  | Some None => Some None
  | None => None
  end.
(** Those of [udta], or of [moov] itself. *)
Definition items_in (l : bytes) : option (option bytes) :=
  match child (kind_of "udta") l with
  | Some (Some u) => match items_below (p_payload u) with Some None => items_below l | r => r end
  | Some None => items_below l
  | None => None
  end.
Definition items_of (data : bytes) : option (option bytes) :=
  match head_part data with Some moov => items_in (p_payload moov) | None => None end.

Lemma alike_child l qs k : Forall2 alike (parse l).1 qs -> k <> kind_of "trak" -> child k (parts_bytes qs ++ (parse l).2) = child k l.
Proof.
  intros Hqs Hk. unfold child. rewrite (parse_alike l qs Hqs). cbn [fst snd]. f_equal. unfold first_of.
  assert (List.find (fun p => bool_decide (p_kind p = k)) qs = List.find (fun p => bool_decide (p_kind p = k)) (parse l).1) as ->; [|done].
  induction Hqs as [|p q ps qs (Hq & _ & Hn) _ IH]; [done|]. cbn [List.find]. assert (p_kind q = p_kind p) as Ek by by rewrite Hq.
  rewrite Ek. case_bool_decide as Ep; [|exact IH]. rewrite Hn; [done|congruence].
Qed.

Lemma alike_items l qs : Forall2 alike (parse l).1 qs -> items_in (parts_bytes qs ++ (parse l).2) = items_in l.
Proof. intros Hqs. unfold items_in, items_below. by rewrite !(alike_child l qs) by done. Qed.

Definition ilst_part (body : bytes) : Part := mkPart (kind_of "ilst") (be_bytes 4 (len body + 8) ++ kind_of "ilst") body.

Lemma build_bytes k body : build (kind_of k) body = part_bytes (mkPart (kind_of k) (be_bytes 4 (len body + 8) ++ kind_of k) body).
Proof. unfold build, part_bytes. cbn [p_header p_payload]. by rewrite <- app_assoc. Qed.

Lemma build_explicit k body : len (kind_of k) = 4 -> len body + 8 < 2 ^ 32 -> explicit (mkPart (kind_of k) (be_bytes 4 (len body + 8) ++ kind_of k) body).
Proof.
  intros Hk Hlen. pose proof (len_nonneg body). apply header_explicit. split.
  - unfold slice. change (Z.to_nat 4) with 4%nat. rewrite drop_be. symmetry. apply take_ge. unfold len in Hk. lia.
  - right. rewrite take_be, from_be_small by (cbn; lia). rewrite !len_app, len_be_bytes, Hk. split_and!; lia.
Qed.

Lemma ilst_explicit body : len body + 8 < 2 ^ 32 -> explicit (ilst_part body).
Proof. by apply build_explicit. Qed.

(** [in_meta m x i y]: the items [i] lie in a [meta] between [x], which holds its version, and [y]. *)
Definition in_meta (m x : bytes) (i : Part) (y : bytes) : Prop :=
  exists v l b, m = v ++ l /\ len v = 4 /\ cut (kind_of "ilst") l b i y /\ x = v ++ b.

Lemma in_meta_eq m x i y : in_meta m x i y -> m = x ++ part_bytes i ++ y /\ meta_items m = Some (Some (p_payload i)).
Proof.
  intros (v & l & b & -> & Hv & Hc & ->). apply cut_eq in Hc as (E & Hc & _). split; [rewrite E at 1; by rewrite <- app_assoc|].
  unfold meta_items. rewrite drop_app_length' by (unfold len in Hv; lia). by rewrite Hc.
Qed.

Lemma in_meta_put m x i y q : in_meta m x i y -> explicit q -> p_kind q = kind_of "ilst" -> in_meta (x ++ part_bytes q ++ y) x q y.
Proof.
  intros (v & l & b & -> & Hv & Hc & ->) Hq Hk. destruct (cut_put _ _ _ _ _ q Hc Hq Hk) as (Hc' & _). exists v, (b ++ part_bytes q ++ y), b.
  split_and!; [by rewrite <- app_assoc|done|done|done].
Qed.

(** Where [locate] finds the items: the range of an [ilst] at a spot of [moov] that is no track's, so that whatever
    items are put there are the items of the file. *)
Record located (moov : Part) (l : Location) (i : Part) (pre post : bytes) (f : bytes -> Part) : Prop := mkLocated {
  located_spot : spot moov 0 (ancestors l) (a_start (ilst l)) (a_end (ilst l)) f;
  located_at : part_bytes moov = pre ++ part_bytes i ++ post /\ ilst l = atom_for (len pre) i;
  located_items : items_in (p_payload moov) = Some (Some (p_payload i));
  located_put body : len (part_bytes (f (part_bytes (ilst_part body)))) < 2 ^ 32 ->
    items_in (p_payload (f (part_bytes (ilst_part body)))) = Some (Some body);
  located_child : exists k b q a g, k <> kind_of "trak" /\ cut k (p_payload moov) b q a /\
    f = (fun r => resized moov (b ++ part_bytes (g r) ++ a)) /\
    forall r, len (part_bytes (f r)) < 2 ^ 32 -> explicit (g r) /\ p_kind (g r) = k }.

(** Items below a [meta] of a parent. *)
Lemma items_below_put l b m a x i y body : cut (kind_of "meta") l b m a -> in_meta (p_payload m) x i y ->
  let m' := resized m (x ++ part_bytes (ilst_part body) ++ y) in
  len body + 8 < 2 ^ 32 -> explicit m' ->
  items_below l = Some (Some (p_payload i)) /\ items_below (b ++ part_bytes m' ++ a) = Some (Some body).
Proof.
  intros Hc Hm m' Hbody He. pose proof (cut_eq _ _ _ _ _ Hc) as (_ & Hl & _). pose proof Hc as (_ & _ & _ & _ & Hk & _).
  destruct (cut_put _ _ _ _ _ m' Hc He Hk) as (Hc' & _). apply cut_eq in Hc' as (_ & Hl' & _).
  unfold items_below. rewrite Hl, Hl'. split; [by apply (in_meta_eq _ x i y)|]. cbn [m' resized p_payload].
  by apply (in_meta_eq _ x (ilst_part body) y), (in_meta_put (p_payload m) x i y); [done|apply ilst_explicit|].
Qed.

(** The spot of the items in a [meta], and its parts' lengths. *)
Lemma meta_spot m off x i y : shaped m -> in_meta (p_payload m) x i y ->
  spot m off [atom_for off m] (off + len (p_header m) + len x) (off + len (p_header m) + len x + len (part_bytes i)) (fun r => resized m (x ++ r ++ y)).
Proof. intros Hm Hi. apply spot_here; [done|]. by apply in_meta_eq in Hi as [-> _]. Qed.

Lemma ilst_small body n : len (part_bytes (ilst_part body)) <= n -> n < 2 ^ 32 -> len body + 8 < 2 ^ 32.
Proof. unfold part_bytes, ilst_part. cbn [p_header p_payload]. rewrite !len_app, len_be_bytes. change (len (kind_of "ilst")) with 4. lia. Qed.

Lemma resized_inner p b q a : shaped p -> len (part_bytes q) <= len (part_bytes (resized p (b ++ part_bytes q ++ a))).
Proof.
  intros Hp. rewrite len_resized, !len_app by done. pose proof (len_nonneg (p_header p)). pose proof (len_nonneg b). pose proof (len_nonneg a). lia.
Qed.

(** In a [meta] of [moov] itself. *)
Lemma located_direct moov b m a x i y : shaped moov -> cut (kind_of "meta") (p_payload moov) b m a -> in_meta (p_payload m) x i y ->
  (forall l, child (kind_of "udta") l = child (kind_of "udta") (p_payload moov) -> items_in l = items_below l) ->
  let off := len (p_header moov) + len b in
  located moov (mkLocation (atom_for (off + len (p_header m) + len x) i) [atom_for 0 moov; atom_for off m]) i
    (p_header moov ++ b ++ p_header m ++ x) (y ++ a) (fun r => resized moov (b ++ part_bytes (resized m (x ++ r ++ y)) ++ a)).
Proof.
  intros Hmoov Hc Hi Hno off. pose proof (cut_eq _ _ _ _ _ Hc) as (El & _ & Hh). pose proof (head_part_shaped _ _ Hh) as Hm.
  pose proof Hc as (_ & _ & _ & _ & Hk & _). pose proof (in_meta_eq _ _ _ _ Hi) as [Em _].
  constructor; cbn [ancestors ilst].
  - eapply spot_in; [done|exact Hc|]. replace (0 + len (p_header moov) + len b) with off by (unfold off; lia). by apply meta_spot.
  - split; [|by rewrite !len_app; unfold off; f_equal; lia]. unfold part_bytes at 1. rewrite El. unfold part_bytes at 1. rewrite Em. by rewrite <- !app_assoc.
  - rewrite Hno by done. unfold items_below. apply cut_eq in Hc as (_ & -> & _). by apply (in_meta_eq _ x i y).
  - intros body. cbv beta. intros Hlen. set (m' := resized m _) in *. pose proof (resized_inner moov b m' a Hmoov). pose proof (resized_inner m x (ilst_part body) y Hm).
    assert (explicit m') as He by (apply resized_explicit; [done|]; rewrite <- len_resized by done; fold m'; lia).
    cbn [resized p_payload]. destruct (cut_put _ _ _ _ _ m' Hc He Hk) as (_ & Hother & _). rewrite Hno by (by apply Hother).
    eapply (items_below_put (p_payload moov) b m a x i y); [done..| |done]. eapply ilst_small; [done|]. fold m'. lia.
  - exists (kind_of "meta"), b, m, a, (fun r => resized m (x ++ r ++ y)). split_and!; [done|done|done|]. intros r. cbv beta. intros Hlen.
    pose proof (resized_inner moov b (resized m (x ++ r ++ y)) a Hmoov). split; [|done]. apply resized_explicit; [done|].
    rewrite <- len_resized by done. lia.
Qed.

(** In a [meta] of [udta]. *)
Lemma located_user moov b0 u a0 b m a x i y : shaped moov -> cut (kind_of "udta") (p_payload moov) b0 u a0 ->
  cut (kind_of "meta") (p_payload u) b m a -> in_meta (p_payload m) x i y ->
  let off0 := len (p_header moov) + len b0 in
  let off := off0 + len (p_header u) + len b in
  located moov (mkLocation (atom_for (off + len (p_header m) + len x) i) [atom_for 0 moov; atom_for off0 u; atom_for off m]) i
    (p_header moov ++ b0 ++ p_header u ++ b ++ p_header m ++ x) (y ++ a ++ a0)
    (fun r => resized moov (b0 ++ part_bytes (resized u (b ++ part_bytes (resized m (x ++ r ++ y)) ++ a)) ++ a0)).
Proof.
  intros Hmoov Hc0 Hc Hi off0 off. pose proof (cut_eq _ _ _ _ _ Hc0) as (El0 & Hl0 & Hh0). pose proof (head_part_shaped _ _ Hh0) as Hu.
  pose proof (cut_eq _ _ _ _ _ Hc) as (El & Hl & Hh). pose proof (head_part_shaped _ _ Hh) as Hm.
  pose proof Hc0 as (_ & _ & _ & _ & Hk0 & _). pose proof Hc as (_ & _ & _ & _ & Hk & _). pose proof (in_meta_eq _ _ _ _ Hi) as [Em Him].
  assert (items_below (p_payload u) = Some (Some (p_payload i))) as Hold by (unfold items_below; by rewrite Hl).
  constructor; cbn [ancestors ilst].
  - eapply spot_in; [done|exact Hc0|]. replace (0 + len (p_header moov) + len b0) with off0 by (unfold off0; lia).
    eapply spot_in; [done|exact Hc|]. by apply meta_spot.
  - split; [|by rewrite !len_app; unfold off, off0; f_equal; lia]. unfold part_bytes at 1. rewrite El0. unfold part_bytes at 1. rewrite El.
    unfold part_bytes at 1. rewrite Em. by rewrite <- !app_assoc.
  - unfold items_in. by rewrite Hl0, Hold.
  - intros body. cbv beta. intros Hlen. set (m' := resized m _) in *. set (u' := resized u _) in *.
    pose proof (resized_inner moov b0 u' a0 Hmoov). pose proof (resized_inner u b m' a Hu : len (part_bytes m') <= len (part_bytes u')).
    pose proof (resized_inner m x (ilst_part body) y Hm : _ <= len (part_bytes m')).
    assert (explicit m') as He by (apply resized_explicit; [done|]; rewrite <- len_resized by done; fold m'; lia).
    assert (explicit u') as He0 by (apply resized_explicit; [done|]; rewrite <- len_resized by done; fold u'; lia).
    cbn [resized p_payload]. destruct (cut_put _ _ _ _ _ u' Hc0 He0 Hk0) as (Hc0' & _). apply cut_eq in Hc0' as (_ & Hl0' & _).
    unfold items_in. rewrite Hl0'. cbn [u' resized p_payload].
    assert (items_below (b ++ part_bytes m' ++ a) = Some (Some body)) as ->; [|done].
    eapply (items_below_put (p_payload u) b m a x i y); [done..| |done]. eapply ilst_small; [done|]. fold m'. lia.
  - exists (kind_of "udta"), b0, u, a0, (fun r => resized u (b ++ part_bytes (resized m (x ++ r ++ y)) ++ a)). split_and!; [done|done|done|]. intros r. cbv beta. intros Hlen.
    pose proof (resized_inner moov b0 (resized u (b ++ part_bytes (resized m (x ++ r ++ y)) ++ a)) a0 Hmoov). split; [|done]. apply resized_explicit; [done|].
    rewrite <- len_resized by done. lia.
Qed.

(** ** Finding them *)

Section locate.
Context `{Source}.
Implicit Types (s : Io).

Lemma wp_find_cut data pre l post k s : data = pre ++ l ++ post -> len data < 2 ^ 63 ->
  wp (find data (len pre) (len pre + len l) k)
    (fun r s' => written s' = written s /\ match r with
       | None => child (kind_of k) l = Some None
       | Some at_ => exists b p a, cut (kind_of k) l b p a /\ at_ = atom_for (len pre + len b) p end) (fun _ _ => True) s.
Proof.
  intros Hdata Hmax. eapply wp_mono; [by eapply wp_find_atom| |done]. intros r s1 [Hw Hf]. split; [done|]. destruct r as [at_|].
  - by apply found_cut in Hf.
  - by rewrite (child_found _ _ _ _ Hf).
Qed.

(** The same in the payload of a part. *)
Lemma wp_find_payload data pre p post k s : data = pre ++ part_bytes p ++ post -> len data < 2 ^ 63 ->
  wp (find data (a_payload (atom_for (len pre) p)) (a_end (atom_for (len pre) p)) k)
    (fun r s' => written s' = written s /\ match r with
       | None => child (kind_of k) (p_payload p) = Some None
       | Some at_ => exists b q a, cut (kind_of k) (p_payload p) b q a /\ at_ = atom_for (len pre + len (p_header p) + len b) q end) (fun _ _ => True) s.
Proof.
  intros Hdata Hmax. cbn [atom_for a_payload a_end]. unfold part_bytes. rewrite len_app. rewrite Z.add_assoc. rewrite <- (len_app pre (p_header p)).
  apply (wp_find_cut _ _ _ post); [|done]. rewrite Hdata. unfold part_bytes. by rewrite <- !app_assoc.
Qed.

Lemma wp_locate_meta data pre m post s : data = pre ++ part_bytes m ++ post -> len data < 2 ^ 63 ->
  wp (locate_meta data (atom_for (len pre) m) false)
    (fun r s' => written s' = written s /\ match r with
       | None => meta_items (p_payload m) = Some None
       | Some at_ => exists x i y, in_meta (p_payload m) x i y /\ at_ = atom_for (len pre + len (p_header m) + len x) i end) (fun _ _ => True) s.
Proof.
  intros Hdata Hmax. unfold locate_meta.
  enough (wp (find data (a_payload (atom_for (len pre) m) + 4) (a_end (atom_for (len pre) m)) "ilst")
    (fun r s' => written s' = written s /\ match r with
       | None => meta_items (p_payload m) = Some None
       | Some at_ => exists x i y, in_meta (p_payload m) x i y /\ at_ = atom_for (len pre + len (p_header m) + len x) i end) (fun _ _ => True) s) as Hfind.
  { apply wp_bind, wp_attempt. eapply wp_mono; [exact Hfind| |].
    - intros r s1 [Hw Hr]. destruct r; by apply wp_ret.
    - intros [c e] s1 _. destruct c; by apply wp_throw. }
  cbn [atom_for a_payload a_end]. set (v := take 4 (p_payload m)). set (l := drop 4 (p_payload m)).
  assert (p_payload m = v ++ l) as Em by (symmetry; apply take_drop).
  destruct (Z.lt_ge_cases (len (p_payload m)) 4) as [Hlt|Hge].
  - assert (l = []) as El by (apply drop_ge; unfold len in Hlt; lia).
    assert (len pre + len (part_bytes m) < len pre + len (p_header m) + 4 + 8) as Hend by (unfold part_bytes; rewrite len_app; lia).
    unfold find, MAX_ATOMS. destruct (length data); cbn [find_loop]; rewrite (proj2 (Z.leb_gt 65536 0)), (proj2 (Z.ltb_lt _ _) Hend) by lia;
      (apply wp_ret; split; [done|]; unfold meta_items; fold l; by rewrite El).
  - assert (len v = 4) as Ev by (unfold v, len in *; rewrite length_take; lia).
    replace (len pre + len (p_header m) + 4) with (len (pre ++ p_header m ++ v)) by (rewrite !len_app; lia).
    replace (len pre + len (part_bytes m)) with (len (pre ++ p_header m ++ v) + len l) by (unfold part_bytes; rewrite Em, !len_app; lia).
    eapply wp_mono; [apply (wp_find_cut _ _ _ post); [|done]| |done].
    + rewrite Hdata. unfold part_bytes. rewrite Em at 1. by rewrite <- !app_assoc.
    + intros r s1 [Hw Hr]. split; [done|]. destruct r as [at_|]; [|unfold meta_items; fold l; by rewrite Hr].
      destruct Hr as (b & i & y & Hc & ->). exists (v ++ b), i, y. split; [by exists v, l, b|]. f_equal. rewrite !len_app. lia.
Qed.

Lemma wp_locate_in data pre p post parents s : data = pre ++ part_bytes p ++ post -> len data < 2 ^ 63 ->
  wp (locate_in data parents (atom_for (len pre) p) false)
    (fun r s' => written s' = written s /\ match r with
       | None => items_below (p_payload p) = Some None
       | Some l => exists b m a x i y, cut (kind_of "meta") (p_payload p) b m a /\ in_meta (p_payload m) x i y /\
           let off := len pre + len (p_header p) + len b in
           l = mkLocation (atom_for (off + len (p_header m) + len x) i) (parents ++ [atom_for off m]) end) (fun _ _ => True) s.
Proof.
  intros Hdata Hmax. unfold locate_in. apply wp_bind. eapply wp_mono; [by apply (wp_find_payload _ _ _ post)| |done].
  intros r s1 [Hw1 Hr]. destruct r as [at_|].
  2: { apply wp_ret. split; [done|]. unfold items_below. by rewrite Hr. }
  destruct Hr as (b & m & a & Hc & ->). pose proof (cut_eq _ _ _ _ _ Hc) as (El & Hl & _).
  replace (len pre + len (p_header p) + len b) with (len (pre ++ p_header p ++ b)) by (rewrite !len_app; lia).
  apply wp_bind. eapply wp_mono; [apply (wp_locate_meta _ _ _ (a ++ post)); [|done]| |done].
  { rewrite Hdata. unfold part_bytes at 1. rewrite El. by rewrite <- !app_assoc. }
  intros r s2 [Hw2 Hr]. apply wp_ret. split; [congruence|]. destruct r as [at_|]; [|unfold items_below; by rewrite Hl].
  destruct Hr as (x & i & y & Hi & ->). exists b, m, a, x, i, y. split_and!; [done..|]. cbv zeta.
  replace (len pre + len (p_header p) + len b) with (len (pre ++ p_header p ++ b)) by (rewrite !len_app; lia). done.
Qed.

Lemma wp_locate moov tail s : head_part (part_bytes moov ++ tail) = Some moov -> len (part_bytes moov ++ tail) < 2 ^ 63 ->
  wp (locate (part_bytes moov ++ tail) false)
    (fun r s' => written s' = written s /\ match r with
       | None => items_in (p_payload moov) = Some None
       | Some l => exists i pre post f, located moov l i pre post f end) (fun _ _ => True) s.
Proof.
  intros Hhead Hmax. pose proof (head_part_shaped _ _ Hhead) as Hmoov. unfold locate. apply wp_bind.
  change (atom (part_bytes moov ++ tail) 0 (len (part_bytes moov ++ tail))) with
    (atom (part_bytes moov ++ tail) (len (@nil Z)) (len (@nil Z) + len (part_bytes moov ++ tail))).
  eapply wp_mono; [apply (wp_atom _ [] _ []); [by rewrite app_nil_r|done]| |done]. intros at_ s1 (Hw1 & p & Hp & ->).
  rewrite Hhead in Hp. injection Hp as <-. destruct (negb _); [by apply wp_throw|].
  apply wp_bind. eapply wp_mono; [by apply (wp_find_payload _ [] moov tail)| |done]. intros udta s2 [Hw2 Hudta].
  assert (forall l, child (kind_of "udta") l = child (kind_of "udta") (p_payload moov) ->
    match child (kind_of "udta") (p_payload moov) with Some (Some u) => items_below (p_payload u) = Some None | Some None => True | None => False end ->
    items_in l = items_below l) as Hno.
  { intros l El Hc. unfold items_in. rewrite El. destruct (child _ (p_payload moov)) as [[u|]|]; [by rewrite Hc|done|done]. }
  assert (forall s3, written s3 = written s ->
    match child (kind_of "udta") (p_payload moov) with Some (Some u) => items_below (p_payload u) = Some None | Some None => True | None => False end ->
    wp (locate_in (part_bytes moov ++ tail) [atom_for (len (@nil Z)) moov] (atom_for (len (@nil Z)) moov) false)
      (fun r s' => written s' = written s /\ match r with
         | None => items_in (p_payload moov) = Some None
         | Some l => exists i pre post f, located moov l i pre post f end) (fun _ _ => True) s3) as Hdirect.
  { intros s3 Hw3 Hc. eapply wp_mono; [by apply (wp_locate_in _ [] moov tail)| |done]. intros r s4 [Hw4 Hr]. split; [congruence|].
    destruct r as [l|]; [|by rewrite Hno]. destruct Hr as (b & m & a & x & i & y & Hcut & Hi & ->). cbv zeta. change (len (@nil Z)) with 0. rewrite Z.add_0_l.
    do 4 eexists. apply (located_direct moov b m a x i y Hmoov Hcut Hi). intros l El. by apply Hno. }
  apply wp_bind. destruct udta as [at_|].
  - destruct Hudta as (b0 & u & a0 & Hc0 & ->). pose proof (cut_eq _ _ _ _ _ Hc0) as (El & Hl & _).
    replace (len [] + len (p_header moov) + len b0) with (len (p_header moov ++ b0)) by (rewrite len_app; done).
    eapply wp_mono; [apply (wp_locate_in _ _ u (a0 ++ tail)); [|done]| |done].
    { unfold part_bytes at 1. rewrite El. by rewrite <- !app_assoc. }
    intros r s3 [Hw3 Hr]. destruct r as [l|].
    + destruct Hr as (b & m & a & x & i & y & Hcut & Hi & ->). apply wp_ret. split; [congruence|]. cbv zeta. rewrite len_app. change (len (@nil Z)) with 0.
      do 4 eexists. by apply (located_user moov b0 u a0 b m a x i y).
    + apply Hdirect; [congruence|]. by rewrite Hl.
  - apply wp_ret. apply Hdirect; [congruence|]. by rewrite Hudta.
Qed.
End locate.

(** ** Offsets that follow *)

(** What an edit of the [n] bytes at [base] into [n'] makes of an offset outside of them. *)
Definition moved (base n n' v v' : Z) : Prop := (v < base -> v' = v) /\ (base + n <= v -> v' = v + (n' - n)).

Lemma moved_trans base n0 n1 n2 v0 v1 v2 : moved base n0 n1 v0 v1 -> moved base n1 n2 v1 v2 -> moved base n0 n2 v0 v2.
Proof.
  intros [A1 A2] [B1 B2]. split; intros Hv; [specialize (A1 Hv) as ->; by apply B1|]. specialize (A2 Hv). specialize (B2 ltac:(lia)). lia.
Qed.
Lemma moved_refl base n v : moved base n n v v.
Proof. unfold moved. lia. Qed.

(** [d'] is [d] with another [moov] in front of [tail], whose offsets have moved. *)
Definition follows (base : Z) (moov moov' : Part) (tail : bytes) : Prop :=
  forall vs, chunk_offsets (part_bytes moov ++ tail) = Some vs ->
    exists vs', chunk_offsets (part_bytes moov' ++ tail) = Some vs' /\ Forall2 (moved base (len (part_bytes moov)) (len (part_bytes moov'))) vs vs'.

Lemma follows_trans base m0 m1 m2 tail : follows base m0 m1 tail -> follows base m1 m2 tail -> follows base m0 m2 tail.
Proof.
  intros H1 H2 vs Hvs. destruct (H1 vs Hvs) as (vs1 & Hvs1 & HF1). destruct (H2 vs1 Hvs1) as (vs2 & Hvs2 & HF2). exists vs2. split; [done|].
  clear -HF1 HF2. revert vs2 HF2. induction HF1 as [|v v1 vs vs1 Hv _ IH]; intros vs2 HF2; [by apply Forall2_nil_inv_l in HF2 as ->|].
  apply Forall2_cons_inv_l in HF2 as (v2 & vs2' & Hv2 & HF2 & ->). constructor; [by eapply moved_trans|by apply IH].
Qed.
Lemma follows_refl base m tail : follows base m m tail.
Proof. intros vs Hvs. exists vs. split; [done|]. clear Hvs. induction vs; constructor; [apply moved_refl|done]. Qed.

Section edit.
Context `{Source}.
Implicit Types (s : Io).

(** One replacement, on the whole. *)
Lemma wp_replace_follows moov tail ancs a b f r base s :
  head_part (part_bytes moov ++ tail) = Some moov -> spot moov 0 ancs a b f ->
  (len (part_bytes (f r)) < 2 ^ 32 -> chunk_offsets (part_bytes (f r) ++ tail) = chunk_offsets (part_bytes moov ++ tail)) ->
  wp (replace (part_bytes moov ++ tail) a b r ancs base)
    (fun data s' => written s' = written s /\ exists moov', data = part_bytes moov' ++ tail /\ head_part data = Some moov' /\
       p_kind moov' = p_kind moov /\ len data <= MAX_TAG_BYTES /\ len (part_bytes (f r)) < 2 ^ 32 /\ items_in (p_payload moov') = items_in (p_payload (f r)) /\
       follows base moov moov' tail) (fun _ _ => True) s.
Proof.
  intros Hm Hs Hoff. destruct (spot_len _ _ _ _ _ _ r Hs) as (Elen & Ha & Hb). pose proof (spot_kind _ _ _ _ _ _ r Hs) as Ek.
  pose proof (len_nonneg (p_header moov)).
  eapply wp_mono; [by apply wp_replace_spot| |done]. intros data s1 (Hw & He & Hmax & Hdata). split; [done|].
  assert (len (part_bytes (f r)) < 2 ^ 32) as Hsmall by (rewrite len_app in Hmax; pose proof (len_nonneg tail); unfold MAX_TAG_BYTES in Hmax; lia).
  destruct Hdata as [[E0 ->]|(E0 & qs & Hqs & -> & vs & Hvs & Hvs')].
  - exists (f r). split_and!; try done. intros vs Hvs. rewrite Hoff by done. exists vs. split; [done|].
    replace (len (part_bytes (f r))) with (len (part_bytes moov)) by lia. clear. induction vs; constructor; [apply moved_refl|done].
  - set (payload := parts_bytes qs ++ (parse (p_payload (f r))).2) in *. exists (with_payload (f r) payload).
    assert (len payload = len (p_payload (f r))) as Epay.
    { unfold payload. rewrite (parse_bytes (p_payload (f r))) at 2. by rewrite !len_app, (alike_parts_len _ _ Hqs). }
    assert (len (part_bytes (with_payload (f r) payload)) = len (part_bytes (f r))) as Epart
      by (unfold part_bytes; cbn [with_payload p_header p_payload]; rewrite !len_app; lia).
    split_and!; try done.
    + apply head_part_payload; [apply He|done].
    + rewrite len_app in *. lia.
    + by apply alike_items.
    + intros us Hus. rewrite Hoff, Hus in Hvs by done. injection Hvs as <-. eexists. split; [exact Hvs'|]. rewrite Epart, Elen.
      assert (0 <= a <= b) as Ha0 by lia. clear -Ha0 Hb. induction us as [|v us IH]; constructor; [|done]. unfold moved, shift. destruct (Z.leb_spec (base + a) v); lia.
Qed.

Lemma located_offsets moov l i pre post f tail r :
  head_part (part_bytes moov ++ tail) = Some moov -> located moov l i pre post f -> len (part_bytes (f r)) < 2 ^ 32 ->
  chunk_offsets (part_bytes (f r) ++ tail) = chunk_offsets (part_bytes moov ++ tail).
Proof.
  intros Hm [Hs _ _ _ (k & b & q & a & g & Hk & Hc & -> & Hg)] Hlen. destruct (Hg r Hlen) as [He Hgk].
  apply (chunk_offsets_child moov tail k b q a (g r)); try done. by apply (spot_explicit _ _ _ _ _ _ _ Hs).
Qed.
End edit.

(** ** Making room for items *)

(** Every child says its size, and nothing is behind the last: another can be added. *)
Definition sized (l : bytes) : Prop := (parse l).2 = [] /\ Forall explicit (parse l).1.

(** There are items, or the atom that is to hold them can be added. *)
Definition editable (moov : bytes) : Prop :=
  match items_in moov with
  | Some (Some _) => True
  | Some None =>
    match child (kind_of "udta") moov with
    | Some None => sized moov
    | Some (Some u) =>
      match child (kind_of "meta") (p_payload u) with
      | Some None => sized (p_payload u)
      | Some (Some m) => 4 <= len (p_payload m) /\ sized (drop 4 (p_payload m))
      | None => True
      end
    | None => True
    end
  | None => True
  end.

Lemma sized_parse l q : sized l -> explicit q -> parse (l ++ part_bytes q) = ((parse l).1 ++ [q], []).
Proof.
  intros [Hr Hs] Hq. rewrite (parse_bytes l) at 1. rewrite Hr, app_nil_r, parse_app by done.
  rewrite <- (app_nil_r (part_bytes q)). rewrite (parse_cons (part_bytes q ++ []) q []); [done|apply Hq|done].
Qed.

Lemma first_of_snoc k ps q : first_of k ps = None -> first_of k (ps ++ [q]) = if bool_decide (p_kind q = k) then Some q else None.
Proof.
  unfold first_of. induction ps as [|p ps IH]; cbn [app List.find]; [done|]. by destruct (bool_decide (p_kind p = k)).
Qed.

Lemma sized_child l q : sized l -> explicit q -> child (p_kind q) l = Some None -> child (p_kind q) (l ++ part_bytes q) = Some (Some q).
Proof.
  intros Hs Hq Hc. unfold child in *. rewrite (sized_parse l q Hs Hq). cbn [fst snd]. destruct (first_of _ (parse l).1) eqn:E; [done|].
  by rewrite first_of_snoc, bool_decide_eq_true_2.
Qed.

Lemma tracks_offsets_snoc ps q : p_kind q <> kind_of "trak" -> tracks_offsets (ps ++ [q]) = tracks_offsets ps.
Proof.
  intros Hq. induction ps as [|p ps IH]; cbn [app tracks_offsets]; [by rewrite bool_decide_eq_false_2|]. by rewrite IH.
Qed.

Definition part_of_build (k : string) (body : bytes) : Part := mkPart (kind_of k) (be_bytes 4 (len body + 8) ++ kind_of k) body.
Definition meta_body : bytes := drop 8 (meta_atom []).

Lemma meta_atom_part : meta_atom [] = part_bytes (part_of_build "meta" meta_body) /\ explicit (part_of_build "meta" meta_body) /\
  meta_items meta_body = Some (Some []).
Proof. split_and!; [by vm_compute|by apply build_explicit|by vm_compute]. Qed.

(** What [missing] answers: a spot whose atoms then hold no items. *)
Definition roomy (moov : Part) (f : bytes -> Part) (r : bytes) (tail : bytes) : Prop :=
  len (part_bytes (f r)) < 2 ^ 32 ->
  items_in (p_payload (f r)) = Some (Some []) /\ chunk_offsets (part_bytes (f r) ++ tail) = chunk_offsets (part_bytes moov ++ tail).

Section room.
Context `{Source}.
Implicit Types (s : Io).

(** The end of a part's payload. *)
Definition behind (p : Part) (r : bytes) : Part := resized p (p_payload p ++ r ++ []).

Lemma end_spot p off : shaped p -> spot p off [atom_for off p] (off + len (part_bytes p)) (off + len (part_bytes p)) (behind p).
Proof.
  intros Hp. pose proof (spot_here p off (p_payload p) [] [] Hp) as H0. cbn [app] in H0. rewrite app_nil_r in H0. specialize (H0 eq_refl).
  change (len (@nil Z)) with 0 in H0. rewrite Z.add_0_r, <- Z.add_assoc, <- len_app in H0. exact H0.
Qed.

Lemma behind_small p r : shaped p -> len (part_bytes (behind p r)) < 2 ^ 32 -> explicit (behind p r) /\ len r <= len (part_bytes (behind p r)).
Proof.
  intros Hp Hlen. unfold behind in *. rewrite len_resized in * by done. split; [by apply resized_explicit|].
  rewrite !len_app. pose proof (len_nonneg (p_payload p)). pose proof (len_nonneg (p_header p)). change (len (@nil Z)) with 0. lia.
Qed.

(** A new [udta] behind the children of [moov]. *)
Lemma roomy_moov moov tail : head_part (part_bytes moov ++ tail) = Some moov -> items_in (p_payload moov) = Some None ->
  child (kind_of "udta") (p_payload moov) = Some None -> sized (p_payload moov) ->
  roomy moov (behind moov) (build (kind_of "udta") (meta_atom [])) tail.
Proof.
  intros Hm Hi Hu Hs Hlen. pose proof (head_part_shaped _ _ Hm) as Hmoov. destruct (behind_small _ _ Hmoov Hlen) as [He Hr].
  rewrite build_bytes in *. set (u := mkPart _ _ (meta_atom [])) in *. assert (explicit u) as Heu by (apply build_explicit; by vm_compute).
  unfold chunk_offsets. rewrite Hm, He. unfold behind. cbn [resized p_payload]. rewrite app_nil_r. rewrite (sized_parse _ u Hs Heu). cbn [fst snd].
  rewrite tracks_offsets_snoc by done. destruct Hs as [Hrest Hs]. rewrite Hrest. split; [|done].
  unfold items_in. pose proof (sized_child _ u (conj Hrest Hs) Heu Hu) as Hc. change (p_kind u) with (kind_of "udta") in Hc. rewrite Hc. by vm_compute.
Qed.

(** A new [meta] behind the children of [udta]. *)
Lemma roomy_user moov tail b u a : head_part (part_bytes moov ++ tail) = Some moov ->
  cut (kind_of "udta") (p_payload moov) b u a -> child (kind_of "meta") (p_payload u) = Some None -> sized (p_payload u) ->
  roomy moov (fun r => resized moov (b ++ part_bytes (behind u r) ++ a)) (meta_atom []) tail.
Proof.
  intros Hm Hc Hnone Hs Hlen. pose proof (head_part_shaped _ _ Hm) as Hmoov. pose proof (cut_eq _ _ _ _ _ Hc) as (_ & _ & Hh).
  pose proof (head_part_shaped _ _ Hh) as Hu. pose proof Hc as (_ & _ & _ & _ & Hk & _). cbv beta in Hlen.
  pose proof (resized_inner moov b (behind u (meta_atom [])) a Hmoov). destruct (behind_small u (meta_atom []) Hu) as [He _]; [lia|].
  assert (explicit (resized moov (b ++ part_bytes (behind u (meta_atom [])) ++ a))) as Hem by (apply resized_explicit; [done|]; by rewrite <- len_resized by done).
  split; [|by apply (chunk_offsets_child _ _ (kind_of "udta") b u a (behind u (meta_atom [])))].
  cbn [resized p_payload]. destruct (cut_put _ _ _ _ _ (behind u (meta_atom [])) Hc He Hk) as (Hc' & _). apply cut_eq in Hc' as (_ & Hc' & _).
  destruct meta_atom_part as (Eq & Hq & Hitems). set (q := part_of_build "meta" meta_body) in *.
  unfold items_in. rewrite Hc'. unfold behind, items_below. cbn [resized p_payload]. rewrite app_nil_r, Eq.
  pose proof (sized_child _ q Hs Hq Hnone) as Hcq. change (p_kind q) with (kind_of "meta") in Hcq. rewrite Hcq. change (p_payload q) with meta_body. by rewrite Hitems.
Qed.

(** A new [ilst] behind the children of [meta]. *)
Lemma roomy_meta moov tail b u a b' m a' : head_part (part_bytes moov ++ tail) = Some moov ->
  cut (kind_of "udta") (p_payload moov) b u a -> cut (kind_of "meta") (p_payload u) b' m a' ->
  4 <= len (p_payload m) -> sized (drop 4 (p_payload m)) -> child (kind_of "ilst") (drop 4 (p_payload m)) = Some None ->
  roomy moov (fun r => resized moov (b ++ part_bytes (resized u (b' ++ part_bytes (behind m r) ++ a')) ++ a)) (build (kind_of "ilst") []) tail.
Proof.
  intros Hm Hc Hc2 H4 Hs Hnone Hlen. pose proof (head_part_shaped _ _ Hm) as Hmoov. pose proof (cut_eq _ _ _ _ _ Hc) as (_ & _ & Hh).
  pose proof (head_part_shaped _ _ Hh) as Hu. pose proof (cut_eq _ _ _ _ _ Hc2) as (_ & _ & Hh2). pose proof (head_part_shaped _ _ Hh2) as Hmeta.
  pose proof Hc as (_ & _ & _ & _ & Hk & _). pose proof Hc2 as (_ & _ & _ & _ & Hk2 & _). cbv beta in Hlen.
  set (r := build (kind_of "ilst") []) in *. set (m' := behind m r) in *. set (u' := resized u (b' ++ part_bytes m' ++ a')) in *.
  pose proof (resized_inner moov b u' a Hmoov). pose proof (resized_inner u b' m' a' Hu : _ <= len (part_bytes u')).
  destruct (behind_small m r Hmeta) as [He2 _]; [fold m'; lia|]. fold m' in He2.
  assert (explicit u') as He by (apply resized_explicit; [done|]; rewrite <- len_resized by done; fold u'; lia).
  assert (explicit (resized moov (b ++ part_bytes u' ++ a))) as Hem by (apply resized_explicit; [done|]; by rewrite <- len_resized by done).
  split; [|by apply (chunk_offsets_child _ _ (kind_of "udta") b u a u')].
  cbn [resized p_payload]. destruct (cut_put _ _ _ _ _ u' Hc He Hk) as (Hc' & _). apply cut_eq in Hc' as (_ & Hc' & _).
  destruct (cut_put _ _ _ _ _ m' Hc2 He2 Hk2) as (Hc2' & _). apply cut_eq in Hc2' as (_ & Hc2' & _).
  assert (explicit (ilst_part [])) as Hq by by apply ilst_explicit.
  unfold items_in. rewrite Hc'. unfold items_below. cbn [u' resized p_payload]. rewrite Hc2'. cbn [m' behind resized p_payload].
  unfold meta_items. rewrite app_nil_r. rewrite drop_app_le by (unfold len in H4; lia). unfold r. rewrite build_bytes.
  pose proof (sized_child _ (ilst_part []) Hs Hq Hnone) as Hcq. change (p_kind (ilst_part [])) with (kind_of "ilst") in Hcq. unfold ilst_part in Hcq. by rewrite Hcq.
Qed.
End room.

Section ensure.
Context `{Source}.
Implicit Types (s : Io).

Lemma wp_moov_atom moov tail s : head_part (part_bytes moov ++ tail) = Some moov -> len (part_bytes moov ++ tail) < 2 ^ 63 ->
  wp (atom (part_bytes moov ++ tail) 0 (len (part_bytes moov ++ tail)))
    (fun a s' => written s' = written s /\ a = atom_for (len (@nil Z)) moov) (fun _ _ => True) s.
Proof.
  intros Hhead Hmax. change (atom (part_bytes moov ++ tail) 0 (len (part_bytes moov ++ tail))) with
    (atom (part_bytes moov ++ tail) (len (@nil Z)) (len (@nil Z) + len (part_bytes moov ++ tail))).
  eapply wp_mono; [apply (wp_atom _ [] _ []); [by rewrite app_nil_r|done]| |done]. intros at_ s1 (Hw1 & p & Hp & ->).
  rewrite Hhead in Hp. by injection Hp as <-.
Qed.

Lemma wp_missing moov tail s : head_part (part_bytes moov ++ tail) = Some moov -> len (part_bytes moov ++ tail) < 2 ^ 63 ->
  items_in (p_payload moov) = Some None -> editable (p_payload moov) ->
  wp (missing (part_bytes moov ++ tail))
    (fun x s' => written s' = written s /\ exists f, spot moov 0 x.2 x.1.1 x.1.1 f /\ roomy moov f x.1.2 tail) (fun _ _ => True) s.
Proof.
  intros Hhead Hmax Hitems Hroom. unfold editable in Hroom. rewrite Hitems in Hroom. pose proof (head_part_shaped _ _ Hhead) as Hmoov.
  unfold missing. apply wp_bind. eapply wp_mono; [by apply wp_moov_atom| |done]. intros a s1 [Hw1 ->].
  apply wp_bind. eapply wp_mono; [by apply (wp_find_payload _ [] moov tail)| |done]. intros udta s2 [Hw2 Hudta]. change (len (@nil Z)) with 0 in *.
  destruct udta as [at_|].
  2: { apply wp_ret. split; [congruence|]. rewrite Hudta in Hroom. exists (behind moov). split; [|by apply roomy_moov].
       pose proof (end_spot moov 0 Hmoov). cbn [fst snd atom_for a_end]. done. }
  destruct Hudta as (b & u & a & Hc & ->). pose proof (cut_eq _ _ _ _ _ Hc) as (El & Hl & Hh). pose proof (head_part_shaped _ _ Hh) as Hu.
  rewrite Hl in Hroom. rewrite Z.add_0_l. set (off := len (p_header moov) + len b).
  assert (off = len (p_header moov ++ b)) as Eoff by by rewrite len_app.
  assert (part_bytes moov ++ tail = (p_header moov ++ b) ++ part_bytes u ++ (a ++ tail)) as Edata
    by (unfold part_bytes at 1; rewrite El; by rewrite <- !app_assoc).
  apply wp_bind. rewrite Eoff. eapply wp_mono; [by apply (wp_find_payload _ _ u (a ++ tail))| |done]. rewrite <- Eoff. intros m s3 [Hw3 Hmeta].
  assert (forall ancs e f, spot u off ancs e e f -> spot moov 0 (atom_for 0 moov :: ancs) e e (fun r => resized moov (b ++ part_bytes (f r) ++ a))) as Hin
    by (intros ancs e f Hs; by eapply spot_in).
  destruct m as [at_|].
  2: { apply wp_ret. split; [congruence|]. rewrite Hmeta in Hroom. eexists. cbn [fst snd]. split; [by apply Hin, end_spot|].
       by apply roomy_user. }
  destruct Hmeta as (b' & m & a' & Hc2 & ->). pose proof (cut_eq _ _ _ _ _ Hc2) as (_ & Hl2 & Hh2). pose proof (head_part_shaped _ _ Hh2) as Hm.
  rewrite Hl2 in Hroom. destruct Hroom as [H4 Hs]. apply wp_ret. split; [congruence|]. cbn [fst snd]. eexists. split.
  - apply Hin. eapply spot_in; [done|exact Hc2|]. by apply end_spot.
  - apply roomy_meta; try done. revert Hitems. unfold items_in, items_below. rewrite Hl, Hl2. unfold meta_items.
    by destruct (child (kind_of "ilst") (drop 4 (p_payload m))) as [[i|]|].
Qed.

(** Then there are items, the old ones or none, at a spot of the data. *)
Lemma wp_ensure_ilst moov tail base s : head_part (part_bytes moov ++ tail) = Some moov -> len (part_bytes moov ++ tail) < 2 ^ 63 ->
  editable (p_payload moov) ->
  wp (ensure_ilst (part_bytes moov ++ tail) base)
    (fun x s' => written s' = written s /\ exists moov' i pre post f, x.1 = part_bytes moov' ++ tail /\ head_part x.1 = Some moov' /\
       p_kind moov' = p_kind moov /\ len x.1 < 2 ^ 63 /\ located moov' x.2 i pre post f /\ follows base moov moov' tail /\
       match items_in (p_payload moov) with Some (Some l) => p_payload i = l | _ => p_payload i = [] end) (fun _ _ => True) s.
Proof.
  intros Hhead Hmax Hroom. unfold ensure_ilst. apply wp_bind. eapply wp_mono; [by apply wp_locate| |done]. intros r s1 [Hw1 Hr].
  destruct r as [l|].
  { apply wp_ret. split; [done|]. destruct Hr as (i & pre & post & f & Hl). exists moov, i, pre, post, f. split_and!; try done; [apply follows_refl|].
    by rewrite (located_items _ _ _ _ _ _ Hl). }
  rewrite Hr. apply wp_bind. eapply wp_mono; [by apply wp_missing| |done]. intros [[position inserted] ancs] s2 (Hw2 & f & Hs & Hf). cbn [fst snd] in *.
  apply wp_bind. eapply wp_mono; [by apply (wp_replace_follows moov tail ancs position position f); [..|intros; by apply Hf]| |done].
  intros data s3 (Hw3 & moov' & -> & Hhead' & Hk & Hmax' & Hsmall & Hitems & Hfollows). rewrite (proj1 (Hf Hsmall)) in Hitems.
  assert (len (part_bytes moov' ++ tail) < 2 ^ 63) as Hmax2 by (unfold MAX_TAG_BYTES in Hmax'; lia).
  apply wp_bind. eapply wp_mono; [by apply wp_locate| |done]. intros r s4 [Hw4 Hr2]. destruct r as [l|]; [|by apply wp_throw].
  apply wp_ret. split; [congruence|]. destruct Hr2 as (i & pre & post & g & Hl). exists moov', i, pre, post, g. split_and!; try done.
  pose proof (located_items _ _ _ _ _ _ Hl) as E. rewrite Hitems in E. by injection E as <-.
Qed.
End ensure.
