(* ===== verification/Mp4Spec.v ===== *)
(** * What an edit of MP4 tags keeps

    The edit replaces one atom of the file, [moov], by another whose chunk offsets follow the audio to its new place:
    what an offset outside of [moov] pointed to is what its successor points to. *)

From S2P Require Import Prelude Monads Float64 RustText UnicodeText Matching TagIo VorbisComments FlacTags FlacTagsSpec TagFields Mp4Atoms Mp4Tags Mp4Shape Mp4Items.

(** ** The items that stay *)

Section items.
Context `{Unicode} `{Splits} `{GainText} {SRC : Source}.
Implicit Types (s : Io).

(** The name of a freeform item, and the pair of a track or disc. *)
Definition name_of (p : Part) : string :=
  match child (kind_of "name") (p_payload p) with
  | Some (Some n) => if len (p_payload n) <=? 4 then ""%string else trim (trim_end_nul (from_utf8_lossy (drop 4 (p_payload n))))
  | _ => ""%string
  end.
Definition pair_of (p : Part) : Z * Z :=
  match child (kind_of "data") (p_payload p) with
  | Some (Some d) => if len (p_payload d) <? 14 then (0, 0) else (from_be (slice (p_payload d) 10 12), from_be (slice (p_payload d) 12 14))
  | _ => (0, 0)
  end.

(** Whether an edit keeps an item. *)
Definition stays (fields : Fields) (cover : option bytes) (p : Part) : bool :=
  let k := p_kind p in
  negb (bool_decide (k ∈ drop_kinds fields cover)) &&
  (if bool_decide (k = kind_of "trkn") then negb (edit_track fields)
   else if bool_decide (k = kind_of "disk") then negb (edit_disc fields)
   else if bool_decide (k = kind_of "----") then negb (bool_decide (uppercase (name_of p) ∈ remove_names fields))
   else true).
(** The last pair of a kind. *)
Definition last_pair (fields : Fields) (cover : option bytes) (k : bytes) (from : Z * Z) (ps : list Part) : Z * Z :=
  fold_left (fun pair p => if bool_decide (p_kind p = k) && negb (bool_decide (k ∈ drop_kinds fields cover)) then pair_of p else pair) ps from.

(** The items of the edited file. *)
Definition edited_items (fields : Fields) (cover : option bytes) (items : bytes) : bytes :=
  let ps := (parse items).1 in
  parts_bytes (List.filter (stays fields cover) ps) ++ appended fields ++
  index_item fields (last_pair fields cover (kind_of "trkn") (0, 0) ps) "track_number" "track_total" (kind_of "trkn") 8 ++
  index_item fields (last_pair fields cover (kind_of "disk") (0, 0) ps) "disc_number" "disc_total" (kind_of "disk") 6 ++
  cover_item cover.

Lemma payload_slice data pre p post i j : data = pre ++ part_bytes p ++ post -> 0 <= i -> j <= len (p_payload p) ->
  slice data (a_payload (atom_for (len pre) p) + i) (a_payload (atom_for (len pre) p) + j) = slice (p_payload p) i j.
Proof.
  intros -> Hi Hj. cbn [atom_for a_payload]. rewrite <- len_app. unfold part_bytes. rewrite <- app_assoc, app_assoc, slice_shift by done.
  by apply slice_app_l.
Qed.

Lemma atom_payload_end off p : a_end (atom_for off p) = a_payload (atom_for off p) + len (p_payload p).
Proof. cbn [atom_for a_end a_payload]. unfold part_bytes. rewrite len_app. lia. Qed.

Lemma wp_freeform_name data pre p post s : data = pre ++ part_bytes p ++ post -> len data < 2 ^ 63 ->
  wp (freeform_name data (atom_for (len pre) p)) (fun n s' => written s' = written s /\ n = name_of p) (fun _ _ => True) s.
Proof.
  intros Hdata Hmax. unfold freeform_name, name_of. apply wp_bind. eapply wp_mono; [by apply (wp_find_payload _ _ _ post)| |done].
  intros r s1 [Hw1 Hr]. destruct r as [at_|]; [|apply wp_ret; by rewrite Hr]. destruct Hr as (b & n & a & Hc & ->).
  apply cut_eq in Hc as (El & -> & _). replace (len pre + len (p_header p) + len b) with (len (pre ++ p_header p ++ b)) by (rewrite !len_app; lia).
  assert (data = (pre ++ p_header p ++ b) ++ part_bytes n ++ (a ++ post)) as Edata
    by (rewrite Hdata; unfold part_bytes at 1; rewrite El; by rewrite <- !app_assoc).
  rewrite atom_payload_end. destruct (Z.leb_spec (a_payload (atom_for (len (pre ++ p_header p ++ b)) n) + len (p_payload n))
    (a_payload (atom_for (len (pre ++ p_header p ++ b)) n) + 4)) as [Hle|Hgt].
  - apply wp_ret. by rewrite (proj2 (Z.leb_le _ _)) by lia.
  - apply wp_ret. rewrite (proj2 (Z.leb_gt _ _)) by lia. split; [done|]. rewrite (payload_slice _ _ _ _ 4 _ Edata) by lia.
    do 3 f_equal. unfold slice. apply take_ge. rewrite length_drop. unfold len. lia.
Qed.

Lemma wp_index_pair data pre p post s : data = pre ++ part_bytes p ++ post -> len data < 2 ^ 63 ->
  wp (index_pair data (atom_for (len pre) p)) (fun x s' => written s' = written s /\ x = pair_of p) (fun _ _ => True) s.
Proof.
  intros Hdata Hmax. unfold index_pair, pair_of. apply wp_bind. eapply wp_mono; [by apply (wp_find_payload _ _ _ post)| |done].
  intros r s1 [Hw1 Hr]. destruct r as [at_|]; [|apply wp_ret; by rewrite Hr]. destruct Hr as (b & n & a & Hc & ->).
  apply cut_eq in Hc as (El & -> & _). replace (len pre + len (p_header p) + len b) with (len (pre ++ p_header p ++ b)) by (rewrite !len_app; lia).
  assert (data = (pre ++ p_header p ++ b) ++ part_bytes n ++ (a ++ post)) as Edata
    by (rewrite Hdata; unfold part_bytes at 1; rewrite El; by rewrite <- !app_assoc).
  rewrite atom_payload_end. set (o := a_payload _).
  destruct (Z.ltb_spec (o + len (p_payload n)) (o + 14)); apply wp_ret.
  - by rewrite (proj2 (Z.ltb_lt _ _)) by lia.
  - rewrite (proj2 (Z.ltb_ge _ _)) by lia. split; [done|]. rewrite <- !Z.add_assoc. unfold o. by rewrite !(payload_slice _ _ _ _ _ _ Edata) by lia.
Qed.

Lemma wp_keep_child fields cover data pre p post k s : data = pre ++ part_bytes p ++ post -> len data < 2 ^ 63 ->
  wp (keep_child fields cover data k (atom_for (len pre) p))
    (fun k' s' => written s' = written s /\
       k' = mkKept (body k ++ (if stays fields cover p then part_bytes p else []))
         (last_pair fields cover (kind_of "trkn") (track k) [p]) (last_pair fields cover (kind_of "disk") (disc k) [p])) (fun _ _ => True) s.
Proof.
  intros Hdata Hmax. unfold keep_child, stays, last_pair, is_kind. cbn [atom_for a_kind fold_left].
  change (mkAtom (len pre) _ _ _) with (atom_for (len pre) p).
  assert (forall k, keep data (atom_for (len pre) p) k = mkKept (body k ++ part_bytes p) (track k) (disc k)) as Hkeep.
  { intros k'. unfold keep. cbn [atom_for a_start a_end]. rewrite (slice_after data pre (part_bytes p ++ post)) by done.
    rewrite take_app_length' by (unfold len; lia). done. }
  destruct (bool_decide (p_kind p ∈ drop_kinds fields cover)) eqn:Ed; cbn [negb andb].
  { assert (forall kind (x : Z * Z), (if bool_decide (p_kind p = kind) && negb (bool_decide (kind ∈ drop_kinds fields cover)) then pair_of p else x) = x) as Hsame.
    { intros kind x. destruct (bool_decide (p_kind p = kind)) eqn:Ek; [|done]. apply bool_decide_eq_true in Ek as <-. by rewrite Ed. }
    apply wp_ret. split; [done|]. rewrite app_nil_r, !Hsame. by destruct k. }
  assert (forall kind, kind = p_kind p -> bool_decide (kind ∈ drop_kinds fields cover) = false) as Hd by (intros ? ->; done).
  destruct (bool_decide (p_kind p = kind_of "trkn")) eqn:Et.
  { apply bool_decide_eq_true in Et. apply wp_bind. eapply wp_mono; [by apply (wp_index_pair _ _ _ post)| |done]. intros x s1 [Hw1 ->].
    rewrite (bool_decide_eq_false_2 (p_kind p = kind_of "disk")) by (rewrite Et; by vm_compute). rewrite (Hd (kind_of "trkn")) by (by symmetry). cbn [negb andb].
    apply wp_ret. split; [done|]. destruct (edit_track fields); [by rewrite app_nil_r|]. by rewrite Hkeep. }
  destruct (bool_decide (p_kind p = kind_of "disk")) eqn:Ek.
  { apply bool_decide_eq_true in Ek. apply wp_bind. eapply wp_mono; [by apply (wp_index_pair _ _ _ post)| |done]. intros x s1 [Hw1 ->].
    rewrite (Hd (kind_of "disk")) by (by symmetry). cbn [negb andb]. apply wp_ret. split; [done|]. destruct (edit_disc fields); [by rewrite app_nil_r|]. by rewrite Hkeep. }
  cbn [andb]. destruct (bool_decide (p_kind p = kind_of "----")).
  - apply wp_bind. eapply wp_mono; [by apply (wp_freeform_name _ _ _ post)| |done]. intros n s1 [Hw1 ->]. apply wp_ret. split; [done|].
    destruct (bool_decide (uppercase _ ∈ _)); cbn [negb]; [by destruct k; rewrite app_nil_r|]. by rewrite Hkeep.
  - apply wp_ret. split; [done|]. by rewrite Hkeep.
Qed.

Lemma wp_keep_children fields cover data pre ps post k s : data = pre ++ parts_bytes ps ++ post -> len data < 2 ^ 63 ->
  wp (keep_children fields cover data k (place (len pre) ps))
    (fun k' s' => written s' = written s /\
       k' = mkKept (body k ++ parts_bytes (List.filter (stays fields cover) ps))
         (last_pair fields cover (kind_of "trkn") (track k) ps) (last_pair fields cover (kind_of "disk") (disc k) ps)) (fun _ _ => True) s.
Proof.
  revert pre k s. induction ps as [|p ps IH]; intros pre k s Hdata Hmax; cbn [place keep_children].
  { apply wp_ret. split; [done|]. destruct k as [kb kt kd]. cbn [List.filter last_pair fold_left body track disc]. by rewrite app_nil_r. }
  rewrite parts_bytes_cons, <- app_assoc in Hdata. apply wp_bind.
  eapply wp_mono; [by apply (wp_keep_child _ _ _ _ _ (parts_bytes ps ++ post))| |done]. intros k1 s1 [Hw1 ->].
  rewrite <- len_app. eapply wp_mono; [apply IH; [by rewrite Hdata, <- app_assoc|done]| |done]. intros k2 s2 [Hw2 ->]. split; [congruence|].
  cbn [body track disc List.filter]. f_equal. destruct (stays fields cover p); [by rewrite <- app_assoc|by rewrite app_nil_r].
Qed.
End items.

(** ** The atom in the file *)

Section load.
Context {SRC : Source}.
Implicit Types (s : Io).

Lemma wp_read_at_offset n offset (Q : bytes -> Io -> Prop) s : 0 <= offset -> 0 <= n ->
  (forall s', written s' = written s -> Q (slice content offset (offset + n)) s') -> wp (read_at_offset n offset) Q (fun _ _ => True) s.
Proof.
  intros Ho Hn HQ. unfold read_at_offset. apply wp_bind, wp_seek; [|done]. intros s1 Hp1 Hw1. apply wp_mapping, wp_bytes_of; [lia|lia| |done].
  intros s2 _ Hw2 _. rewrite Hp1. apply HQ. congruence.
Qed.

(** An atom of the file is what its bytes say. *)
Lemma wp_file_atom offset end_ s : 0 <= offset ->
  wp (file_atom (len content) offset end_)
    (fun a s' => written s' = written s /\ exists h, read_header content offset end_ = Ok h /\ a = atom_at offset h) (fun _ _ => True) s.
Proof.
  intros Ho. unfold file_atom, read_header. apply wp_bind, wp_check; [|done]. intros s1 _ Hw1.
  destruct (len content <? offset + 8); [by apply wp_throw|]. apply wp_bind, wp_read_at_offset; [done|lia|]. intros s2 Hw2.
  set (b := slice content offset (offset + 8)). apply wp_bind. unfold header_of. destruct (Z.eqb_spec (from_be (take 4 b)) 1) as [E1|E1].
  - destruct (len content <? offset + 16); [by apply wp_throw|]. apply wp_bind, wp_read_at_offset; [lia|lia|]. intros s3 Hw3. apply wp_ret.
    cbn [bind_result]. replace (offset + 8 + 8) with (offset + 16) by lia.
    destruct (_ || _); [by apply wp_throw|apply wp_ret; split; [congruence|by eexists]].
  - apply wp_ret. cbn [bind_result]. destruct (_ || _); [by apply wp_throw|apply wp_ret; split; [congruence|by eexists]].
Qed.

Lemma wp_load_loop fuel count l pre k s : content = pre ++ l -> len content < 2 ^ 63 ->
  wp (load_loop fuel count (len content) (len pre) k)
    (fun r s' => written s' = written s /\ match r with
       | Some section => exists b p a, cut k l b p a /\ len (part_bytes p) <= MAX_TAG_BYTES /\
           section = mkSection (len pre + len b) (len pre + len b + len (part_bytes p)) (part_bytes p)
       | None => True end) (fun _ _ => True) s.
Proof.
  intros Hcontent Hmax. revert fuel count pre s Hcontent. induction l as [l Hn|p rest Hp IH] using part_ind; intros fuel count pre s Hcontent.
  all: destruct fuel as [|fuel]; cbn [load_loop]; (destruct (count <=? 0); [by apply wp_throw|]);
    (destruct (_ <? _); [by apply wp_ret|]); [by apply wp_throw|]; apply wp_bind.
  all: eapply wp_mono; [by apply wp_file_atom, len_nonneg| |done]; intros at_ s1 (Hw1 & h & Hh & ->).
  - pose proof (read_header_spec content pre l [] ltac:(by rewrite app_nil_r) Hmax) as Hspec.
    replace (len pre + len l) with (len content) in Hspec by (rewrite Hcontent, len_app; lia). rewrite Hh in Hspec. destruct Hspec as (Hspec & _).
    rewrite Hn in Hspec. destruct h as [[n header] kind]. cbn [fst snd atom_at a_end] in *. destruct (Z.ltb_spec (len l) n) as [Hl|Hl]; [|done].
    rewrite (proj2 (Z.ltb_lt (len content) (len pre + n))); [by apply wp_throw|]. rewrite Hcontent, len_app. lia.
  - pose proof (read_header_spec content pre (part_bytes p ++ rest) [] ltac:(by rewrite app_nil_r) Hmax) as Hspec.
    replace (len pre + len (part_bytes p ++ rest)) with (len content) in Hspec by (rewrite Hcontent, len_app; lia).
    rewrite Hh in Hspec. destruct Hspec as (Hspec & Hheader & Hle). rewrite Hp in Hspec. destruct h as [[n header] kind]. cbn [fst snd] in *.
    destruct (Z.ltb_spec (len (part_bytes p ++ rest)) n) as [Hl|Hl]; [done|]. injection Hspec as Ep. cbn [atom_at a_end a_kind a_start].
    assert (len (part_bytes p) = n) as Elen.
    { rewrite Ep. unfold part_bytes at 1. cbn [p_header p_payload]. rewrite slice_app by lia. rewrite len_slice by lia. lia. }
    assert (kind = p_kind p) as -> by by rewrite Ep. rewrite <- Elen.
    destruct (Z.ltb_spec (len content) (len pre + len (part_bytes p))) as [|Hin]; [by apply wp_throw|].
    case_bool_decide as Ek.
    + replace (len pre + len (part_bytes p) - len pre) with (len (part_bytes p)) by lia.
      destruct (Z.ltb_spec MAX_TAG_BYTES (len (part_bytes p))) as [|Hsize]; [by apply wp_throw|].
      apply wp_bind, wp_seek; [|done]. intros s2 Hp2 Hw2. apply wp_bind, wp_bytes_of; [pose proof (len_nonneg pre); lia|apply len_nonneg| |done].
      intros s3 _ Hw3 _. apply wp_ret. split; [congruence|]. exists [], p, rest. rewrite Hp2. split.
      { exists [], (parse rest).1. rewrite (parse_cons _ p rest) by done. cbn [fst snd app]. split_and!; try done. apply parse_bytes. }
      split; [done|]. change (len []) with 0. rewrite Z.add_0_r. f_equal. rewrite (slice_after content pre (part_bytes p ++ rest)) by done.
      apply take_app_length'. unfold len. lia.
    + replace (len pre + len (part_bytes p)) with (len (pre ++ part_bytes p)) by by rewrite len_app.
      eapply wp_mono; [apply IH; by rewrite Hcontent, <- app_assoc| |done]. intros r s2 [Hw2 Hr]. split; [congruence|].
      destruct r as [section|]; [|done]. destruct Hr as (b & q & a & (bs & tail & E & Hbs & Hk & -> & ->) & Hsize & ->).
      exists (part_bytes p ++ parts_bytes bs), q, (parts_bytes tail ++ (parse rest).2). split.
      { exists (p :: bs), tail. rewrite (parse_cons _ p rest) by done. cbn [fst snd]. rewrite E. split_and!; try done. by constructor. }
      split; [done|]. rewrite !len_app. f_equal; lia.
Qed.

Lemma wp_load_moov s : len content < 2 ^ 63 ->
  wp load_moov
    (fun section s' => written s' = written s /\ exists b moov a, cut (kind_of "moov") content b moov a /\ len (part_bytes moov) <= MAX_TAG_BYTES /\
       section = mkSection (len b) (len b + len (part_bytes moov)) (part_bytes moov)) (fun _ _ => True) s.
Proof.
  intros Hmax. unfold load_moov, load. apply wp_bind, wp_bind, wp_seek; [|done]. intros s1 _ Hw1.
  eapply wp_mono; [by apply (wp_load_loop _ _ content [])| |done]. intros r s2 [Hw2 Hr]. destruct r as [section|]; [|by apply wp_throw].
  apply wp_ret. split; [congruence|]. destruct Hr as (b & moov & a & Hc & Hs & ->). by exists b, moov, a.
Qed.
End load.

(** ** The whole edit *)

Definition old_items (moov : bytes) : bytes := match items_in moov with Some (Some l) => l | _ => [] end.

Section whole.
Context `{Unicode} `{Splits} `{GainText} {SRC : Source}.
Implicit Types (s : Io) (fields : Fields).

Lemma located_children moov l i pre post f tail s :
  located moov l i pre post f -> len (part_bytes moov ++ tail) < 2 ^ 63 ->
  wp (children (part_bytes moov ++ tail) (a_payload (ilst l)) (a_end (ilst l)))
    (fun r s' => written s' = written s /\ r = place (len (pre ++ p_header i)) (parse (p_payload i)).1 /\
       part_bytes moov ++ tail = (pre ++ p_header i) ++ parts_bytes (parse (p_payload i)).1 ++ ((parse (p_payload i)).2 ++ post ++ tail)) (fun _ _ => True) s.
Proof.
  intros [_ [Eat ->] _ _ _] Hmax. rewrite atom_payload_end. cbn [atom_for a_payload]. rewrite <- len_app.
  assert (part_bytes moov ++ tail = (pre ++ p_header i) ++ p_payload i ++ (post ++ tail)) as Edata
    by (rewrite Eat; unfold part_bytes; by rewrite <- !app_assoc).
  eapply wp_mono; [by apply (wp_children _ _ _ (post ++ tail))| |done]. intros r s1 (Hw1 & -> & _). split; [done|]. split; [done|].
  rewrite Edata. rewrite (parse_bytes (p_payload i)) at 1. by rewrite <- !app_assoc.
Qed.

Lemma wp_edit_section fields cover moov base e s : head_part (part_bytes moov) = Some moov -> len (part_bytes moov) < 2 ^ 63 -> editable (p_payload moov) ->
  wp (edit_section fields cover (mkSection base e (part_bytes moov)))
    (fun section s' => written s' = written s /\ exists moov', section = mkSection base e (part_bytes moov') /\
       items_in (p_payload moov') = Some (Some (edited_items fields cover (old_items (p_payload moov)))) /\
       p_kind moov' = p_kind moov /\ follows base moov moov' []) (fun _ _ => True) s.
Proof.
  intros Hhead Hmax Hroom. unfold edit_section. cbn [data start finish]. rewrite <- (app_nil_r (part_bytes moov)) in *.
  apply wp_bind. eapply wp_mono; [by apply wp_ensure_ilst| |done].
  intros [data0 l] s1 (Hw1 & moov1 & i & pre & post & f & Hdata & Hhead1 & Hk1 & Hmax1 & Hl & Hfollow1 & Hold). cbn [fst snd] in *. subst data0.
  assert (p_payload i = old_items (p_payload moov)) as Ei by (unfold old_items; by destruct (items_in _) as [[x|]|]).
  apply wp_bind. eapply wp_mono; [by eapply located_children| |done]. intros atoms s2 (Hw2 & -> & Edata).
  apply wp_bind. eapply wp_mono; [by apply (wp_keep_children _ _ _ _ _ _ _ _ Edata)| |done]. intros k s3 [Hw3 ->]. cbn [body track disc app].
  unfold index_items. cbn [track disc]. rewrite <- !app_assoc.
  change (parts_bytes _ ++ appended fields ++ _) with (edited_items fields cover (p_payload i)). set (new := edited_items _ _ _).
  destruct (_ <? _); [by apply wp_throw|]. rewrite build_bytes. change (part_bytes (mkPart (kind_of "ilst") _ new)) with (part_bytes (ilst_part new)).
  apply wp_bind. eapply wp_mono; [apply (wp_replace_follows moov1 [] (ancestors l) _ _ f); [done|by eapply located_spot|by eapply located_offsets]| |done].
  intros data s4 (Hw4 & moov' & -> & Hhead' & Hk' & _ & Hsmall & Hitems & Hfollow). apply wp_ret. split; [congruence|]. exists moov'. rewrite app_nil_r.
  split_and!; [done| |congruence|by eapply follows_trans]. rewrite Hitems, (located_put _ _ _ _ _ _ Hl) by done. unfold new. by rewrite Ei.
Qed.

(** What is written, in the terms of parts. *)
Definition edited (fields : Fields) (cover : option bytes) (s : Io) (s' : Io) : Prop :=
  exists b moov a moov', cut (kind_of "moov") content b moov a /\ written s' = written s ++ b ++ part_bytes moov' ++ a /\ p_kind moov' = kind_of "moov" /\
    items_in (p_payload moov') = Some (Some (edited_items fields cover (old_items (p_payload moov)))) /\ follows (len b) moov moov' [].

Lemma wp_rewrite_mp4 fields cover s : len content < 2 ^ 63 ->
  (forall b moov a, cut (kind_of "moov") content b moov a -> editable (p_payload moov)) ->
  wp (rewrite_mp4_tags fields cover) (fun _ s' => edited (artist_mode_fields fields) (not_empty cover) s s') (fun _ _ => True) s.
Proof.
  intros Hmax Hroom. unfold rewrite_mp4_tags. apply wp_bind, wp_check; [|done]. intros s1 _ Hw1.
  apply wp_bind. unfold validate_fields. case_bool; [by apply wp_throw|]. apply wp_ret. cbv zeta.
  apply wp_bind, wp_seek; [|done]. intros s2 _ Hw2. unfold edit. apply wp_bind, wp_bind. eapply wp_mono; [by apply wp_load_moov| |done].
  intros section s3 (Hw3 & b & moov & a & Hc & Hsize & ->). pose proof (cut_eq _ _ _ _ _ Hc) as (El & _ & Hhead).
  assert (head_part (part_bytes moov) = Some moov) as Hhead0.
  { destruct (head_part_explicit _ _ Hhead) as [He|(E0 & E8 & E)].
    - rewrite <- (app_nil_r (part_bytes moov)). by apply explicit_header.
    - rewrite <- (app_nil_r (part_bytes moov)) in E at 2. apply app_inv_head in E as ->. by rewrite app_nil_r in Hhead. }
  apply wp_bind, wp_mapping. eapply wp_mono; [apply (wp_edit_section _ _ moov); [done|unfold MAX_TAG_BYTES in Hsize; lia|by eapply Hroom]| |done].
  intros section s4 (Hw4 & moov' & -> & Hitems & Hk & Hfollow). apply wp_ret.
  eapply wp_mono; [apply wp_write_sections| |done]. intros _ s5 [_ Hw5]. exists b, moov, a, moov'. split_and!; try done.
  - rewrite Hw5. cbn [sort_sections foldr insert_section spliced start finish data].
    assert (slice content 0 (len b) = b) as -> by (rewrite El, slice_app_l by lia; apply slice_all).
    assert (drop (Z.to_nat (len b + len (part_bytes moov))) content = a) as ->; [|congruence].
    rewrite El, app_assoc. apply drop_app_length'. rewrite length_app. unfold len. lia.
  - destruct Hc as (_ & _ & _ & _ & Ek & _). congruence.
Qed.

(** C13: an edit of MP4 tags leaves the file as it is but for its first [moov] atom, and the items of the new one are
    the old ones that it does not replace, in their order, and behind them the new ones, for every file whose [moov]
    has items or room for them. *)
Theorem mp4_edit_items fields cover s : len content < 2 ^ 63 ->
  (forall b moov a, cut (kind_of "moov") content b moov a -> editable (p_payload moov)) ->
  match rewrite_mp4_tags fields cover s with
  | (Ok _, s') => exists b moov a moov', content = b ++ part_bytes moov ++ a /\ cut (kind_of "moov") content b moov a /\
      written s' = written s ++ b ++ part_bytes moov' ++ a /\ p_kind moov' = kind_of "moov" /\
      items_in (p_payload moov') = Some (Some (edited_items (artist_mode_fields fields) (not_empty cover) (old_items (p_payload moov))))
  | (Err _, _) => True
  end.
Proof.
  intros Hmax Hroom. pose proof (wp_rewrite_mp4 fields cover s Hmax Hroom) as Hwp. unfold wp in Hwp.
  destruct (rewrite_mp4_tags fields cover s) as [[[]|e] s']; [|done]. destruct Hwp as (b & moov & a & moov' & Hc & Hw & Hk & Hi & _).
  exists b, moov, a, moov'. split_and!; try done. by apply cut_eq in Hc as (? & _).
Qed.

(** C12: after an edit of MP4 tags every chunk offset points to the audio it pointed to: one behind the [moov] atom
    leads to the same bytes up to the end of the file, wherever the edit has moved them, and one in front of it is the
    same offset of the same bytes. *)
Theorem mp4_offsets_follow fields cover s : len content < 2 ^ 63 ->
  (forall b moov a, cut (kind_of "moov") content b moov a -> editable (p_payload moov)) ->
  match rewrite_mp4_tags fields cover s with
  | (Ok _, s') => exists b moov a moov', cut (kind_of "moov") content b moov a /\
      let file := b ++ part_bytes moov' ++ a in
      written s' = written s ++ file /\
      forall vs, chunk_offsets (part_bytes moov) = Some vs ->
        exists vs', chunk_offsets (part_bytes moov') = Some vs' /\
          Forall2 (fun v v' => (len b + len (part_bytes moov) <= v -> drop (Z.to_nat v') file = drop (Z.to_nat v) content) /\
            (v < len b -> v' = v /\ take (length b) file = take (length b) content)) vs vs'
  | (Err _, _) => True
  end.
Proof.
  intros Hmax Hroom. pose proof (wp_rewrite_mp4 fields cover s Hmax Hroom) as Hwp. unfold wp in Hwp.
  destruct (rewrite_mp4_tags fields cover s) as [[[]|e] s']; [|done]. destruct Hwp as (b & moov & a & moov' & Hc & Hw & Hk & Hi & Hfollow).
  exists b, moov, a, moov'. split; [done|]. cbv zeta. split; [done|]. intros vs Hvs. specialize (Hfollow vs). rewrite !app_nil_r in Hfollow.
  destruct (Hfollow Hvs) as (vs' & Hvs' & HF). exists vs'. split; [done|]. apply cut_eq in Hc as (El & _).
  eapply Forall2_impl; [exact HF|]. intros v v' [Hbefore Hbehind]. split.
  - intros Hv. rewrite (Hbehind Hv), El, !app_assoc. rewrite !drop_app_ge by (rewrite !length_app; unfold len in *; lia). f_equal.
    rewrite !length_app. unfold len in *. lia.
  - intros Hv. split; [by apply Hbefore|]. rewrite El. by rewrite !take_app_length.
Qed.
End whole.

(** ** An example *)

Module Mp4Example.
Export FlacExample.

Instance no_gain : GainText := { find_number _ := None; powf x _ := x }.

Definition atom_of (kind : string) (payload : bytes) : bytes := build (kind_of kind) payload.

(** A track whose table holds these offsets. *)
Definition track_of (offsets : list Z) : bytes :=
  atom_of "trak" (atom_of "mdia" (atom_of "minf" (atom_of "stbl"
    (atom_of "stco" (replicate 4 0 ++ be_bytes 4 (len offsets) ++ flat_map (be_bytes 4) offsets))))).

Definition samples : bytes := [1; 2; 3; 4; 5].
Definition old_title : bytes := value_atom (c_kind "nam") 1 (str_bytes "Old").
Definition old_mood : bytes := freeform "MOOD" "calm".
Definition user_data : bytes := atom_of "udta" (meta_atom (old_title ++ old_mood)).
Definition ftyp : bytes := atom_of "ftyp" (str_bytes "M4A ").

(** The tracks lie in front of the tags, the audio behind them; one offset points into [ftyp]. *)
Definition mp4_file (tags : bytes) : bytes :=
  let audio := len (ftyp ++ atom_of "moov" (track_of [0; 0; 0] ++ tags)) + 8 in
  ftyp ++ atom_of "moov" (track_of [audio; audio + 3; 8] ++ tags) ++ atom_of "mdat" samples.
Definition mp4_song : bytes := mp4_file user_data.
Definition mp4_bare : bytes := mp4_file [].

Lemma mp4_song_bytes : Forall byte_ok mp4_song.
Proof. vm_compute. repeat constructor; done. Qed.
Lemma mp4_bare_bytes : Forall byte_ok mp4_bare.
Proof. vm_compute. repeat constructor; done. Qed.

Definition mp4_edited (file : bytes) (Hfile : Forall byte_ok file) : bytes :=
  (@rewrite_mp4_tags _ _ _ (file_of file Hfile) title None (mkIo 0 0 [])).2.(written).

Example mp4_edit_runs :
  mp4_edited mp4_song mp4_song_bytes = mp4_file (atom_of "udta" (meta_atom (old_mood ++ value_atom (c_kind "nam") 1 (str_bytes "Song")))) /\
  mp4_edited mp4_bare mp4_bare_bytes = mp4_file (atom_of "udta" (meta_atom (value_atom (c_kind "nam") 1 (str_bytes "Song")))).
Proof. split; vm_compute; reflexivity. Qed.

(** What QuickTime writes behind the last child of [udta], a zero size, keeps a [meta] from being added there. *)
Example terminated_udta_refused :
  let file := mp4_file (atom_of "udta" (replicate 4 0)) in
  (ensure_ilst (H := file_of mp4_bare mp4_bare_bytes) (drop 12 (take (length file - 13) file)) 12 (mkIo 0 0 [])).1 =
    Err (false, "failed to create ilst"%string).
Proof. vm_compute. reflexivity. Qed.

Definition song_source : Source := file_of mp4_song mp4_song_bytes.

Lemma song_editable : forall b moov a, cut (kind_of "moov") (@content song_source) b moov a -> editable (p_payload moov).
Proof.
  intros b moov a (bs & tail & E & _ & Hk & _). change (@content song_source) with mp4_song in E.
  assert (Forall (fun p => bool_decide (p_kind p = kind_of "moov") = false \/ is_Some (l ← items_in (p_payload p); l)) (parse mp4_song).1) as Hall.
  { apply (bool_decide_unpack _). by vm_compute. }
  rewrite E in Hall. apply Forall_app in Hall as [_ [[Hp|[l Hp]] _]%Forall_cons].
  - by rewrite bool_decide_eq_true_2 in Hp.
  - unfold editable. by destruct (items_in _) as [[x|]|].
Qed.

Lemma song_short : len (@content song_source) < 2 ^ 63.
Proof. by vm_compute. Qed.

Lemma mp4_edit_items_witness :
  match @rewrite_mp4_tags _ _ _ song_source title None (mkIo 0 0 []) with
  | (Ok _, s') => exists b moov a moov', @content song_source = b ++ part_bytes moov ++ a /\ cut (kind_of "moov") (@content song_source) b moov a /\
      written s' = written (mkIo 0 0 []) ++ b ++ part_bytes moov' ++ a /\ p_kind moov' = kind_of "moov" /\
      items_in (p_payload moov') = Some (Some (edited_items (artist_mode_fields title) (not_empty None) (old_items (p_payload moov))))
  | (Err _, _) => True
  end.
Proof. pose proof (@mp4_edit_items _ _ _ song_source title None (mkIo 0 0 []) song_short song_editable) as Hsong. exact Hsong. Defined.

Lemma mp4_offsets_follow_witness :
  match @rewrite_mp4_tags _ _ _ song_source title None (mkIo 0 0 []) with
  | (Ok _, s') => exists b moov a moov', cut (kind_of "moov") (@content song_source) b moov a /\
      let file := b ++ part_bytes moov' ++ a in
      written s' = written (mkIo 0 0 []) ++ file /\
      forall vs, chunk_offsets (part_bytes moov) = Some vs ->
        exists vs', chunk_offsets (part_bytes moov') = Some vs' /\
          Forall2 (fun v v' => (len b + len (part_bytes moov) <= v -> drop (Z.to_nat v') file = drop (Z.to_nat v) (@content song_source)) /\
            (v < len b -> v' = v /\ take (length b) file = take (length b) (@content song_source))) vs vs'
  | (Err _, _) => True
  end.
Proof. pose proof (@mp4_offsets_follow _ _ _ song_source title None (mkIo 0 0 []) song_short song_editable) as Hsong. exact Hsong. Defined.
End Mp4Example.
