(* ===== verification/TagComments.v ===== *)
(** * Reading comments into metadata: [crates/core/src/tags/comments.rs]

    The comments of FLAC, Ogg and APE files by their keys.  FLAC takes the first value of a key and joins artists;
    Ogg and APE apply their comments one after the other. *)

From S2P Require Import Prelude RustText UnicodeText Matching VorbisComments FlacTags TagFields Id3Text.

(** ** Assigning the fields of the metadata *)

Definition set_title (z : string) '(mkMetadata _ b c d e f g h i j k l m n o p q r s t u v w x) :=
  mkMetadata z b c d e f g h i j k l m n o p q r s t u v w x.
Definition set_artist (z : string) '(mkMetadata a _ c d e f g h i j k l m n o p q r s t u v w x) :=
  mkMetadata a z c d e f g h i j k l m n o p q r s t u v w x.
Definition set_album (z : string) '(mkMetadata a b _ d e f g h i j k l m n o p q r s t u v w x) :=
  mkMetadata a b z d e f g h i j k l m n o p q r s t u v w x.
Definition set_album_artist (z : string) '(mkMetadata a b c _ e f g h i j k l m n o p q r s t u v w x) :=
  mkMetadata a b c z e f g h i j k l m n o p q r s t u v w x.
Definition set_genre (z : string) '(mkMetadata a b c d _ f g h i j k l m n o p q r s t u v w x) :=
  mkMetadata a b c d z f g h i j k l m n o p q r s t u v w x.
Definition set_year (z : string) '(mkMetadata a b c d e _ g h i j k l m n o p q r s t u v w x) :=
  mkMetadata a b c d e z g h i j k l m n o p q r s t u v w x.
Definition set_date (z : string) '(mkMetadata a b c d e f _ h i j k l m n o p q r s t u v w x) :=
  mkMetadata a b c d e f z h i j k l m n o p q r s t u v w x.
Definition set_isrc (z : string) '(mkMetadata a b c d e f g h i j k _ m n o p q r s t u v w x) :=
  mkMetadata a b c d e f g h i j k z m n o p q r s t u v w x.
Definition set_lyrics (z : string) '(mkMetadata a b c d e f g h i j k l _ n o p q r s t u v w x) :=
  mkMetadata a b c d e f g h i j k l z n o p q r s t u v w x.
Definition set_label (z : string) '(mkMetadata a b c d e f g h i j k l m _ o p q r s t u v w x) :=
  mkMetadata a b c d e f g h i j k l m z o p q r s t u v w x.
Definition set_copyright (z : string) '(mkMetadata a b c d e f g h i j k l m n _ p q r s t u v w x) :=
  mkMetadata a b c d e f g h i j k l m n z p q r s t u v w x.
Definition set_composer (z : string) '(mkMetadata a b c d e f g h i j k l m n o _ q r s t u v w x) :=
  mkMetadata a b c d e f g h i j k l m n o z q r s t u v w x.
Definition set_comment (z : string) '(mkMetadata a b c d e f g h i j k l m n o p _ r s t u v w x) :=
  mkMetadata a b c d e f g h i j k l m n o p z r s t u v w x.
Definition set_album_type (z : string) '(mkMetadata a b c d e f g h i j k l m n o p q _ s t u v w x) :=
  mkMetadata a b c d e f g h i j k l m n o p q z s t u v w x.
Definition set_explicit (z : bool) '(mkMetadata a b c d e f g h i j k l m n o p q r _ t u v w x) :=
  mkMetadata a b c d e f g h i j k l m n o p q r z t u v w x.
Definition set_upc (z : string) '(mkMetadata a b c d e f g h i j k l m n o p q r s _ u v w x) :=
  mkMetadata a b c d e f g h i j k l m n o p q r s z u v w x.
Definition set_replay_gain_track_gain (z : string) '(mkMetadata a b c d e f g h i j k l m n o p q r s t _ v w x) :=
  mkMetadata a b c d e f g h i j k l m n o p q r s t z v w x.
Definition set_replay_gain_track_peak (z : string) '(mkMetadata a b c d e f g h i j k l m n o p q r s t u _ w x) :=
  mkMetadata a b c d e f g h i j k l m n o p q r s t u z w x.
Definition set_replay_gain_album_gain (z : string) '(mkMetadata a b c d e f g h i j k l m n o p q r s t u v _ x) :=
  mkMetadata a b c d e f g h i j k l m n o p q r s t u v z x.
Definition set_replay_gain_album_peak (z : string) '(mkMetadata a b c d e f g h i j k l m n o p q r s t u v w _) :=
  mkMetadata a b c d e f g h i j k l m n o p q r s t u v w z.
Definition set_track (z : Z * Z) '(mkMetadata a b c d e f g _ _ j k l m n o p q r s t u v w x) :=
  mkMetadata a b c d e f g z.1 z.2 j k l m n o p q r s t u v w x.
Definition set_disc (z : Z * Z) '(mkMetadata a b c d e f g h i _ _ l m n o p q r s t u v w x) :=
  mkMetadata a b c d e f g h i z.1 z.2 l m n o p q r s t u v w x.

(** [crate::text::utf8] of bytes, as a text. *)
Definition text_utf8 (l : bytes) : string := bytes_to_str (utf8 l).

Definition USIZE_MAX : Z := 2 ^ 64 - 1.

(** [parse] behind its header: [count] comments are left in [l].  Each takes four bytes or more. *)
Fixpoint parse_from (fuel : nat) (max_comment count : Z) (l : bytes) : list (string * string) :=
  match fuel with
  | O => []
  | S fuel =>
    if count =? 0 then []
    else if len l <? 4 then []
    else
      let length := from_le (take 4 l) in
      let l := drop 4 l in
      if len l <? length then []
      else
        let value := take (Z.to_nat length) l in
        let more := parse_from fuel max_comment (count - 1) (drop (Z.to_nat length) l) in
        if length <=? max_comment then
          match position_of EQUALS value with
          | Some index => (text_utf8 (take index value), text_utf8 (drop (S index) value)) :: more
          | None => more
          end
        else more
  end.

Definition parse (data : bytes) (max_comment : Z) : list (string * string) :=
  if len data <? 4 then []
  else
    let vendor := from_le (take 4 data) in
    if len data <? vendor + 8 then []
    else
      let count := from_le (take 4 (drop (Z.to_nat (vendor + 4)) data)) in
      parse_from (length data) max_comment count (drop (Z.to_nat (vendor + 8)) data).

Section comments.
Context `{Unicode}.

(** The values that are not blank, each once up to its case. *)
Fixpoint distinct_values (seen : list string) (l : list string) : list string :=
  match l with
  | [] => []
  | value :: l =>
    let value := trim value in
    if is_empty value || bool_decide (lowercase value ∈ seen) then distinct_values seen l
    else value :: distinct_values (lowercase value :: seen) l
  end.

Definition joined (l : list string) : string := String.concat ", " (distinct_values [] l).

(** ** FLAC *)

Definition all (items : list (string * string)) (name : string) : list string :=
  map snd (List.filter (fun item => (len (chars item.1) =? len (chars name)) && String.eqb (uppercase item.1) name) items).

Definition get (items : list (string * string)) (name : string) : string :=
  match all items name with value :: _ => value | [] => "" end.

Definition first_nonempty (l : list string) : string := default ""%string (List.find nonempty l).
Definition first_nonblank (l : list string) : string := default ""%string (List.find (fun v => negb (blank v)) l).

(** A number and a total, from the first key if it has a number and from the second if not. *)
Definition read_numbers (items : list (string * string)) (current : Z * Z) (first second : string) : Z * Z :=
  let take_from current name := match get items name with "" => current | value => pair value end%string in
  let current := take_from current first in
  if current.1 =? 0 then take_from current second else current.

Definition flac_comments (m : AudioMetadata) (items : list (string * string)) : AudioMetadata :=
  let get := get items in
  let track := read_numbers items (track_number m, total_tracks m) "TRACKNUMBER" "TRACK" in
  let disc := read_numbers items (disc_number m, total_discs m) "DISCNUMBER" "DISC" in
  {| title := get "TITLE";
     artist := joined (all items "ARTIST");
     album := get "ALBUM";
     album_artist := first_nonempty (map (fun name => joined (all items name)) ["ALBUMARTIST"; "ALBUM ARTIST"; "ALBUM_ARTIST"]);
     genre := get "GENRE";
     year := year m;
     date := (let date := get "DATE" in if is_empty date then get "YEAR" else date);
     track_number := track.1; total_tracks := track.2; disc_number := disc.1; total_discs := disc.2;
     isrc := get "ISRC";
     lyrics := first_nonblank (map get ["LYRICS"; "UNSYNCEDLYRICS"; "SYNCEDLYRICS"]);
     label := first_nonempty (map get ["ORGANIZATION"; "LABEL"; "PUBLISHER"]);
     copyright := get "COPYRIGHT";
     composer := get "COMPOSER";
     comment := get "COMMENT";
     album_type := (let kind := get "RELEASETYPE" in if is_empty kind && truthy (get "COMPILATION") then "compilation" else kind);
     explicit := truthy (get "ITUNESADVISORY");
     upc := (let upc := get "BARCODE" in if is_empty upc then get "UPC" else upc);
     replay_gain_track_gain := get "REPLAYGAIN_TRACK_GAIN";
     replay_gain_track_peak := get "REPLAYGAIN_TRACK_PEAK";
     replay_gain_album_gain := get "REPLAYGAIN_ALBUM_GAIN";
     replay_gain_album_peak := get "REPLAYGAIN_ALBUM_PEAK" |}%string.

(** ** APE and Ogg *)

(** [{:.2}] of a number of 256ths: a tie goes to the even hundredth, and a negative number keeps its sign. *)
Definition hundredths (n : Z) : Z :=
  let q := (25 * n) / 64 in
  let r := (25 * n) mod 64 in
  if (32 <? r) || ((r =? 32) && Z.odd q) then q + 1 else q.
Definition two_digits (n : Z) : string := ((if (n <? 10)%Z then "0" else "") ++ decimal n)%string.
Definition fixed_2 (n : Z) : string :=
  let h := hundredths (Z.abs n) in
  ((if (n <? 0)%Z then "-" else "") ++ decimal (h / 100)%Z ++ "." ++ two_digits (h mod 100)%Z)%string.

Definition r128_gain (value : string) : option string :=
  (fun n => (fixed_2 (n + 1280)%Z ++ " dB")%string) <$> parse_int (- 32768) 32767 (trim value).

Definition apply_r128 (current value : string) : string :=
  if is_empty current then default current (r128_gain value) else current.

Definition apply (m : AudioMetadata) (key value : string) (ape : bool) : AudioMetadata :=
  let key := uppercase (if ape then trim key else key) in
  let value := if ape then trim value else value in
  let named name := String.eqb key name in
  let first_lyrics := if is_empty (lyrics m) then set_lyrics value m else m in
  if ape && is_empty value then m
  else if named "TITLE" then set_title value m
  else if named "ARTIST" then set_artist value m
  else if named "ALBUM" then set_album value m
  else if named "ALBUMARTIST" || named "ALBUM ARTIST" || (named "ALBUM_ARTIST" && negb ape) then set_album_artist value m
  else if named "DATE" || named "YEAR" then
    if ape then (if named "YEAR" then set_year value m else set_date value m)
    else
      let m := set_date value m in
      if 4 <=? len (str_bytes value) then set_year (text_utf8 (take 4 (str_bytes value))) m else m
  else if named "GENRE" then set_genre value m
  else if named "TRACK" || named "TRACKNUMBER" then set_track (pair value) m
  else if named "DISC" || named "DISCNUMBER" then set_disc (pair value) m
  else if named "ISRC" then set_isrc value m
  else if named "COMPOSER" then set_composer value m
  else if named "COMMENT" || (named "DESCRIPTION" && negb ape) then set_comment value m
  else if named "LYRICS" || named "UNSYNCEDLYRICS" || named "SYNCEDLYRICS" then first_lyrics
  else if named "LABEL" || named "PUBLISHER" || (named "ORGANIZATION" && negb ape) then set_label value m
  else if named "COPYRIGHT" then set_copyright value m
  else if named "ITUNESADVISORY" then set_explicit (truthy value) m
  else if named "RELEASETYPE" then set_album_type value m
  else if named "BARCODE" || named "UPC" then set_upc value m
  else if named "COMPILATION" then (if truthy value && is_empty (album_type m) then set_album_type "compilation" m else m)
  else if named "REPLAYGAIN_TRACK_GAIN" then set_replay_gain_track_gain value m
  else if named "REPLAYGAIN_TRACK_PEAK" then set_replay_gain_track_peak value m
  else if named "REPLAYGAIN_ALBUM_GAIN" then set_replay_gain_album_gain value m
  else if named "REPLAYGAIN_ALBUM_PEAK" then set_replay_gain_album_peak value m
  else if named "R128_TRACK_GAIN" && negb ape then set_replay_gain_track_gain (apply_r128 (replay_gain_track_gain m) value) m
  else if named "R128_ALBUM_GAIN" && negb ape then set_replay_gain_album_gain (apply_r128 (replay_gain_album_gain m) value) m
  else m.

Definition APE_KEYS : list string :=
  ["TITLE"; "ARTIST"; "ALBUM"; "ALBUMARTIST"; "ALBUM ARTIST"; "GENRE"; "YEAR"; "DATE"; "TRACK"; "TRACKNUMBER"; "DISC"; "DISCNUMBER";
   "ISRC"; "LYRICS"; "UNSYNCEDLYRICS"; "SYNCEDLYRICS"; "LABEL"; "PUBLISHER"; "COPYRIGHT"; "COMPOSER"; "COMMENT"; "ITUNESADVISORY";
   "RELEASETYPE"; "BARCODE"; "UPC"; "COMPILATION"; "REPLAYGAIN_TRACK_GAIN"; "REPLAYGAIN_TRACK_PEAK"; "REPLAYGAIN_ALBUM_GAIN";
   "REPLAYGAIN_ALBUM_PEAK"]%string.
Definition ape_key (key : string) : bool := bool_decide (uppercase (trim key) ∈ APE_KEYS).

(** What the comments read so far amount to. *)
Record OggState := mkOgg {
  o_metadata : AudioMetadata; artists : list string; album_artists : list string; track_gain : option string; album_gain : option string }.

Definition ogg_comment (opus : bool) (o : OggState) (item : string * string) : OggState :=
  let '(mkOgg m artists album_artists track_gain album_gain) := o in
  let '(key, value) := item in
  let named name := String.eqb (uppercase key) name in
  let or_else (gain : option string) := match gain with Some _ => gain | None => r128_gain value end in
  if named "ARTIST" then mkOgg m (artists ++ [value]) album_artists track_gain album_gain
  else if named "ALBUMARTIST" || named "ALBUM_ARTIST" || named "ALBUM ARTIST" then mkOgg m artists (album_artists ++ [value]) track_gain album_gain
  else if named "R128_TRACK_GAIN" && opus then mkOgg m artists album_artists (or_else track_gain) album_gain
  else if named "R128_ALBUM_GAIN" && opus then mkOgg m artists album_artists track_gain (or_else album_gain)
  else mkOgg (apply m key value false) artists album_artists track_gain album_gain.

Definition ogg_comments (items : list (string * string)) (opus : bool) : AudioMetadata :=
  let '(mkOgg m artists album_artists track_gain album_gain) :=
    fold_left (ogg_comment opus) items (mkOgg default_metadata [] [] None None) in
  let m := match artists with [] => m | _ => set_artist (joined artists) m end in
  let m := match album_artists with [] => m | _ => set_album_artist (joined album_artists) m end in
  if opus then
    let m := match track_gain with Some gain => set_replay_gain_track_gain gain m | None => m end in
    match album_gain with Some gain => set_replay_gain_album_gain gain m | None => m end
  else m.
End comments.

Example r128_ex : map r128_gain ["0"; "-1281"; "+32"; "-32768"; "32768"; " 13 "]%string
  = [Some "5.00 dB"; Some "-0.00 dB"; Some "5.12 dB"; Some "-123.00 dB"; None; Some "5.05 dB"]%string.
Proof. vm_compute. reflexivity. Qed.
