(* ===== verification/FlacReader.v ===== *)
(** * Reading FLAC files: [flac_inner] of [crates/core/src/tags/containers.rs]

    The reader walks over the blocks once: the first comment block that is whole gives the metadata, and if a cover
    is wanted the front cover, or else the first picture. *)

From S2P Require Import Prelude Monads RustText UnicodeText Matching TagIo VorbisComments FlacTags FlacHeader TagFields Id3Text TagComments.

Record CoverArt := mkCover { cover_data : bytes; mime : string }.

(** [valid_comments] behind the header: [count] comments are left in [l].  Each takes four bytes or more. *)
Fixpoint valid_from (fuel : nat) (count : Z) (l : bytes) : bool :=
  if count =? 0 then true
  else
    match fuel with
    | O => false
    | S fuel =>
      if len l <? 4 then false
      else
        let length := from_le (take 4 l) in
        let l := drop 4 l in
        if (len l <? length) || ((length =? 0) && (len l =? 0)) then false
        else valid_from fuel (count - 1) (drop (Z.to_nat length) l)
    end.

Definition valid_comments (data : bytes) : bool :=
  if len data <? 4 then false
  else
    let vendor := from_le (take 4 data) in
    if len data <? vendor + 8 then false
    else valid_from (length data) (from_le (take 4 (drop (Z.to_nat (vendor + 4)) data))) (drop (Z.to_nat (vendor + 8)) data).

(** [picture_block]: the kind of a picture, its type and its data. *)
Definition picture_block (data : bytes) (ogg_limits : bool) : option (Z * CoverArt) :=
  let get p n := if len data <? p + n then None else Some (slice data p (p + n)) in
  kind ← get 0 4;
  mime_length ← from_be <$> get 4 4;
  if (sat_sub (len data) 8 <? mime_length) || (ogg_limits && (256 <? mime_length)) then None
  else
    mime ← get 8 mime_length;
    description ← from_be <$> get (8 + mime_length) 4;
    if ogg_limits && (10000 <? description) then None
    else
      let p := 12 + mime_length + description + 16 in
      length ← from_be <$> get p 4;
      if (length =? 0) || (sat_sub (len data) (p + 4) <? length) || (ogg_limits && (MAX_TAG_BYTES <? length)) then None
      else image ← get (p + 4) length; Some (from_be kind, mkCover image (text_utf8 mime)).

(** What the walk has found so far. *)
Record Walk := mkWalk { w_metadata : AudioMetadata; w_found : bool; w_front : bool; w_cover : option CoverArt }.

Section reader.
Context `{Source} `{Unicode}.
Abbreviation P := (St Io string).

Definition take_comments (w : Walk) (data : bytes) : Walk :=
  if valid_comments data then mkWalk (flac_comments (w_metadata w) (parse data USIZE_MAX)) true (w_front w) (w_cover w) else w.

(** A front cover replaces any other picture. *)
Definition take_picture (w : Walk) (data : bytes) : Walk :=
  match picture_block data false with
  | Some (kind, picture) =>
    if (kind =? 3) || bool_decide (w_cover w = None) then mkWalk (w_metadata w) (w_found w) (kind =? 3) (Some picture) else w
  | None => w
  end.

(** The data of a block is read if it is needed, and skipped if not. *)
Definition read_block (want : bool) (w : Walk) (kind length : Z) : P Walk :=
  if (kind =? 4) && negb (w_found w) then do data <- bytes_of length; ret (take_comments w data)
  else if (kind =? 6) && negb (w_front w) && want then do data <- bytes_of length; ret (take_picture w data)
  else do p <- gets position; seek (p + length);; ret w.

(** Each pass reads the four bytes of a header. *)
Fixpoint walk_blocks (fuel : nat) (want : bool) (end_ : Z) (w : Walk) : P Walk :=
  match fuel with
  | O => throw "out of fuel"%string
  | S fuel =>
    do h <- bytes_of 4;
    let length := from_be (drop 1 h) in
    do p <- gets position;
    do p <- seek p;
    if end_ <? p + length then throw (if (p =? end_)%Z then "EOF" else "unexpected EOF")%string
    else
      do w <- read_block want w (Z.land (byte_at h 0) 127) length;
      if Z.land (byte_at h 0) 128 =? 0 then walk_blocks fuel want end_ w
      else
        do sync <- bytes_of 2;
        if synced sync then ret w else throw "frames do not begin with sync code"%string
  end.

(** [flac_inner]: [cover] is [None] if none is wanted, and else what there is before. *)
Definition flac_inner (cover : option (option CoverArt)) : P Walk :=
  do start <- flac_start;
  do end_ <- seek (len content);
  seek (start + 4);;
  walk_blocks (S (length content)) (bool_decide (is_Some cover)) end_ (mkWalk default_metadata false false (default None cover)).

Definition failed (error : string) : string := ("failed to parse FLAC file: " ++ error)%string.

Definition flac : P AudioMetadata := do w <- mapping failed (flac_inner None); ret (w_metadata w).

(** The type of a cover is told by its data. *)
Definition flac_mime (cover : CoverArt) : CoverArt :=
  mkCover (cover_data cover)
    (if (8 <? len (cover_data cover)) && bool_decide (slice (cover_data cover) 1 4 = str_bytes "PNG") then "image/png" else "image/jpeg").

Definition flac_with_cover (cover : option CoverArt) : P (AudioMetadata * option CoverArt) :=
  do w <- mapping failed (flac_inner (Some cover)); ret (w_metadata w, flac_mime <$> w_cover w).

Definition flac_cover : P CoverArt :=
  do found <- flac_with_cover None;
  match found.2 with Some cover => ret cover | None => throw "no cover art found in file"%string end.
End reader.
