(* ===== verification/TagCommentsSpec.v ===== *)
(** * What is read of the comments that are written

    The values of a key, as the reader sees them, are those of the comments with that key, as the editor sees them:
    after an edit the reader finds the values it was given under the keys it names, and the old ones elsewhere. *)

From S2P Require Import Prelude RustText UnicodeText Matching VorbisComments FlacTags FlacHeader FlacTagsSpec TagFields Id3Text TagComments FlacReader.

(** ** A comment as it is read *)

Definition item_of (c : bytes) : option (string * string) :=
  (fun index => (text_utf8 (take index c), text_utf8 (drop (S index) c))) <$> position_of EQUALS c.
Definition items_of (cs : list bytes) : list (string * string) := omap item_of cs.

Lemma items_of_cons c cs : items_of (c :: cs) = match item_of c with Some item => item :: items_of cs | None => items_of cs end.
Proof. done. Qed.

(** The reader takes a block whose last comment is empty for a broken one. *)
Definition last_whole (cs : list bytes) : bool := match reverse cs with [] :: _ => false | _ => true end.

Lemma from_le_len n : 0 <= n < 2 ^ 32 -> from_le (le_bytes 4 n) = n.
Proof. intros Hn. rewrite from_le_le_bytes. apply Z.mod_small. done. Qed.

Lemma put_string_app c rest : fits32 c ->
  (len (put_string c ++ rest) <? 4) = false /\ from_le (take 4 (put_string c ++ rest)) = len c /\ drop 4 (put_string c ++ rest) = c ++ rest.
Proof.
  intros Hc. pose proof (len_nonneg c). pose proof (len_nonneg rest). unfold put_string. rewrite <- app_assoc.
  rewrite take_app_length', drop_app_length' by (by rewrite le_bytes_length). split_conj; [|by apply from_le_len|done].
  apply Z.ltb_ge. rewrite !len_app. unfold len at 1. rewrite le_bytes_length. lia.
Qed.

Lemma fits_app (c rest : bytes) : (len (c ++ rest) <? len c) = false /\
  take (Z.to_nat (len c)) (c ++ rest) = c /\ drop (Z.to_nat (len c)) (c ++ rest) = rest.
Proof.
  pose proof (len_nonneg rest). split; [apply Z.ltb_ge; rewrite len_app; lia|].
  assert (Z.to_nat (len c) = length c) as -> by (unfold len; lia). by rewrite take_app_length, drop_app_length.
Qed.

Lemma parse_from_strings fuel cs :
  (length cs <= fuel)%nat -> Forall fits32 cs -> parse_from fuel USIZE_MAX (len cs) (flat_map put_string cs) = items_of cs.
Proof.
  revert cs. induction fuel as [|fuel IH]; intros cs Hfuel Hcs; destruct cs as [|c cs]; try done; try (exfalso; simpl in Hfuel; lia).
  rewrite Forall_cons in Hcs. destruct Hcs as [Hc Hcs]. cbn [parse_from flat_map]. rewrite len_cons. pose proof (len_nonneg cs).
  destruct (Z.eqb_spec (len cs + 1) 0); [lia|]. destruct (put_string_app c (flat_map put_string cs) Hc) as (-> & -> & ->).
  destruct (fits_app c (flat_map put_string cs)) as (-> & -> & ->). cbv zeta.
  replace (len cs + 1 - 1) with (len cs) by lia. rewrite IH by (done || (simpl in Hfuel; lia)).
  unfold fits32 in Hc. rewrite (proj2 (Z.leb_le (len c) USIZE_MAX)) by (unfold USIZE_MAX; lia).
  rewrite items_of_cons. unfold item_of. by destruct (position_of EQUALS c).
Qed.

Lemma last_whole_cons c cs : cs <> [] -> last_whole (c :: cs) = last_whole cs.
Proof.
  intros Hne. unfold last_whole. rewrite reverse_cons. destruct (reverse cs) as [|x l] eqn:E; [|done].
  apply (f_equal reverse) in E. by rewrite reverse_involutive in E.
Qed.

Lemma valid_from_strings fuel cs :
  (length cs <= fuel)%nat -> Forall fits32 cs -> valid_from fuel (len cs) (flat_map put_string cs) = last_whole cs.
Proof.
  revert cs. induction fuel as [|fuel IH]; intros cs Hfuel Hcs; destruct cs as [|c cs]; try done; try (exfalso; simpl in Hfuel; lia).
  rewrite Forall_cons in Hcs. destruct Hcs as [Hc Hcs]. cbn [valid_from flat_map]. rewrite len_cons. pose proof (len_nonneg cs).
  destruct (Z.eqb_spec (len cs + 1) 0); [lia|]. destruct (put_string_app c (flat_map put_string cs) Hc) as (-> & -> & ->).
  destruct (fits_app c (flat_map put_string cs)) as (-> & _ & ->). cbv zeta. cbn [orb].
  replace (len cs + 1 - 1) with (len cs) by lia. rewrite IH by (done || (simpl in Hfuel; lia)).
  destruct cs as [|c2 cs].
  - cbn [flat_map]. rewrite app_nil_r. unfold last_whole. cbn. destruct c; [done|]. rewrite len_cons. pose proof (len_nonneg c).
    by destruct (Z.eqb_spec (len c + 1) 0); [lia|].
  - rewrite (last_whole_cons c) by done. assert (len (c ++ flat_map put_string (c2 :: cs)) =? 0 = false) as ->; [|by rewrite andb_false_r].
    apply Z.eqb_neq. rewrite len_app. cbn [flat_map]. unfold put_string at 1. rewrite !len_app. unfold len at 2. rewrite le_bytes_length.
    pose proof (len_nonneg c). pose proof (len_nonneg c2). pose proof (len_nonneg (flat_map put_string cs)). lia.
Qed.

Lemma read_put_comments vendor cs :
  len (put_comments vendor cs) < 2 ^ 32 ->
  parse (put_comments vendor cs) USIZE_MAX = items_of cs /\ valid_comments (put_comments vendor cs) = last_whole cs.
Proof.
  intros Hlen. pose proof Hlen as Hsize. rewrite len_put_comments in Hsize.
  assert (len vendor < 2 ^ 32 /\ len cs < 2 ^ 32 /\ Forall fits32 cs) as (Hv & Hc & Hcs).
  { assert (parse_comments (put_comments vendor cs ++ []) = Ok (vendor, cs)) as _ by (by apply parse_put_comments).
    pose proof (len_nonneg vendor) as Hv. assert (forall l, 0 <= foldr (fun (c : bytes) n => len c + 4 + n) 0 l /\
      len l <= foldr (fun (c : bytes) n => len c + 4 + n) 0 l /\
      (foldr (fun (c : bytes) n => len c + 4 + n) 0 l < 2 ^ 32 -> Forall fits32 l)) as Hpos.
    { intros l. induction l as [|c l (IH1 & IH2 & IH3)]; [by split_conj|]. cbn [foldr]. rewrite len_cons. pose proof (len_nonneg c).
      split_conj; [lia|lia|]. intros Hl. constructor; [unfold fits32; lia|]. apply IH3. lia. }
    destruct (Hpos cs) as (Hp0 & Hp1 & Hp2). split_conj; [lia|lia|]. apply Hp2. lia. }
  unfold parse, valid_comments. set (data := put_comments vendor cs) in *.
  assert (data = put_string vendor ++ le_bytes 4 (len cs) ++ flat_map put_string cs) as Hdata by done.
  destruct (put_string_app vendor (le_bytes 4 (len cs) ++ flat_map put_string cs) Hv) as (H4 & Hn & Hd). rewrite <- Hdata in H4, Hn, Hd.
  assert (length data = length vendor + 8 + length (flat_map put_string cs))%nat as Hlength.
  { rewrite Hdata. unfold put_string at 1. rewrite !length_app, !le_bytes_length. lia. }
  rewrite H4, Hn. rewrite (proj2 (Z.ltb_ge (len data) _)) by (unfold len; lia). cbv zeta.
  assert (drop (Z.to_nat (len vendor + 4)) data = le_bytes 4 (len cs) ++ flat_map put_string cs) as E1.
  { replace (Z.to_nat (len vendor + 4)) with (4 + length vendor)%nat by (unfold len; lia). rewrite <- drop_drop, Hd. apply drop_app_length. }
  assert (drop (Z.to_nat (len vendor + 8)) data = flat_map put_string cs) as E2.
  { replace (Z.to_nat (len vendor + 8)) with (Z.to_nat (len vendor + 4) + 4)%nat by (unfold len; lia). rewrite <- drop_drop, E1.
    apply drop_app_length'. by rewrite le_bytes_length. }
  rewrite E1, E2, take_app_length' by (by rewrite le_bytes_length). rewrite from_le_len by (pose proof (len_nonneg cs); lia).
  pose proof (length_put_strings cs). split; [apply parse_from_strings|apply valid_from_strings]; lia || done.
Qed.

(** ** Keys *)

Lemma utf8_bytes l : Forall byte_ok l -> Forall byte_ok (utf8 l).
Proof.
  assert (Forall byte_ok REPLACEMENT) as Hrep by (repeat constructor; unfold byte_ok; lia).
  induction l as [l IH] using (induction_ltof1 _ (@length Z)). unfold ltof in IH.
  assert (forall l', (length l' < length l)%nat -> Forall byte_ok l' -> Forall byte_ok (utf8 l')) as IH' by (intros; by apply IH). clear IH.
  intros Hl. destruct l as [|a l1]; [done|]. cbn [utf8]. inversion Hl as [|? ? Ha Hl1]; subst.
  assert (Forall byte_ok (REPLACEMENT ++ utf8 l1)) as Hmal by (apply Forall_app; split; [done|apply IH'; [simpl; lia|done]]).
  case_bool; [constructor; [done|apply IH'; [simpl; lia|done]]|]. destruct l1 as [|b l2]; [done|]. inversion Hl1 as [|? ? Hb Hl2]; subst.
  case_bool; [repeat (apply Forall_cons; split; [assumption|]); apply IH'; [simpl; lia|done]|]. destruct l2 as [|c l3]; [done|]. inversion Hl2 as [|? ? Hc Hl3]; subst.
  case_bool; [repeat (apply Forall_cons; split; [assumption|]); apply IH'; [simpl; lia|done]|]. destruct l3 as [|d l4]; [done|]. inversion Hl3 as [|? ? Hd Hl4]; subst.
  case_bool; [|done]. repeat (apply Forall_cons; split; [assumption|]). apply IH'; [simpl; lia|done].
Qed.

Lemma str_bytes_utf8 l : Forall byte_ok l -> str_bytes (text_utf8 l) = utf8 l.
Proof. intros Hl. unfold text_utf8. by apply str_bytes_to_str, utf8_bytes. Qed.

Lemma text_utf8_str v : is_str v -> text_utf8 (str_bytes v) = v.
Proof. intros Hv. unfold text_utf8. rewrite utf8_valid_same by done. apply bytes_to_str_bytes. Qed.

(** A text that is read as ASCII is it. *)
Lemma utf8_ascii_same l : Forall ascii_byte (utf8 l) -> utf8 l = l.
Proof.
  assert (forall r, Forall ascii_byte (REPLACEMENT ++ r) -> False) as Hrep.
  { intros r Hr. inversion Hr as [|? ? Hb _]. unfold ascii_byte in Hb. lia. }
  induction l as [l IH] using (induction_ltof1 _ (@length Z)). unfold ltof in IH.
  destruct l as [|a l1]; [done|]. cbn [utf8]. destruct (in_range 0 127 a) eqn:Ea.
  { intros Hl. inversion Hl; subst. f_equal. apply IH; [simpl; lia|done]. }
  assert (forall r, Forall ascii_byte (a :: r) -> False) as Hfirst.
  { intros r Hr. inversion Hr as [|? ? Hb _]. unfold ascii_byte, in_range in *. lia. }
  destruct l1 as [|b l2]; [intros Hl; by destruct (Hrep _ Hl)|]. case_bool; [intros Hl; by destruct (Hfirst _ Hl)|].
  destruct l2 as [|c l3]; [intros Hl; by destruct (Hrep _ Hl)|]. case_bool; [intros Hl; by destruct (Hfirst _ Hl)|].
  destruct l3 as [|d l4]; [intros Hl; by destruct (Hrep _ Hl)|]. case_bool; intros Hl; [by destruct (Hfirst _ Hl)|by destruct (Hrep _ Hl)].
Qed.

Lemma code_points_short l : (length (code_points l) <= length l)%nat /\ (length (code_points l) = length l -> Forall ascii_byte l).
Proof.
  induction l as [l IH] using (induction_ltof1 _ (@length Z)). unfold ltof in IH.
  destruct l as [|a l1]; [split; [done|constructor]|]. cbn [code_points]. destruct (in_range 0 127 a) eqn:Ea.
  { destruct (IH l1 ltac:(simpl; lia)) as [Hle Heq]. cbn [length]. split; [lia|]. intros Hl. constructor; [|apply Heq; lia].
    unfold in_range, ascii_byte in *. lia. }
  destruct l1 as [|b l2]; [cbn; split; lia|]. case_bool; [destruct (IH l2 ltac:(simpl; lia)); cbn [length]; split; lia|].
  destruct l2 as [|c l3]; [cbn; split; lia|]. case_bool; [destruct (IH l3 ltac:(simpl; lia)); cbn [length]; split; lia|].
  destruct l3 as [|d l4]; [cbn; split; lia|]. destruct (IH l4 ltac:(simpl; lia)). cbn [length]. split; lia.
Qed.

Lemma encode_char_ascii c : Forall (fun a => ascii_byte (Z.of_nat (Ascii.nat_of_ascii a))) (chars (bytes_to_str (encode_char c))) ->
  length (encode_char c) = 1%nat.
Proof.
  assert (forall x, 128 <= 128 + x mod 64 < 192) as Hx by (intros x; pose proof (Z.mod_pos_bound x 64); lia).
  assert (forall x, ascii_byte (Z.of_nat (Ascii.nat_of_ascii (ascii_of_nat (Z.to_nat (128 + x mod 64))))) -> False) as Hno.
  { intros x Hb. rewrite Ascii.nat_ascii_embedding in Hb by (specialize (Hx x); lia). unfold ascii_byte in Hb. specialize (Hx x). lia. }
  unfold bytes_to_str. rewrite String.list_ascii_of_string_of_list_ascii. unfold encode_char. case_bool; [done|].
  repeat case_bool; cbn [map]; intros Hf; inversion Hf as [|? ? _ Hf2]; inversion Hf2 as [|? ? Hb _]; by destruct (Hno _ Hb).
Qed.

Section keys.
Context `{Unicode}.

Lemma uppercase_length s name : Forall ascii_byte (str_bytes name) -> uppercase s = name -> length (chars name) = length (char_list s).
Proof.
  intros Ha <-. unfold uppercase in *. rewrite <- (length_map upper_char (char_list s)). revert Ha. generalize (map upper_char (char_list s)). clear s.
  intros l. unfold text_of, bytes_to_str, str_bytes, chars, unchars. rewrite String.list_ascii_of_string_of_list_ascii.
  induction l as [|c l IH]; [done|]. cbn [flat_map]. rewrite !map_app, length_app. intros [Hc Hl]%Forall_app. rewrite IH by done.
  cbn [length]. rewrite length_map. rewrite encode_char_ascii; [done|]. unfold bytes_to_str. rewrite String.list_ascii_of_string_of_list_ascii.
  rewrite Forall_fmap in Hc. exact Hc.
Qed.

Lemma plain_ascii name : plain name = true -> Forall ascii_byte (str_bytes name) /\ ~ In EQUALS (str_bytes name) /\ name <> ""%string.
Proof.
  unfold plain, nonempty. rewrite andb_true_iff, negb_true_iff, is_empty_false, forallb_forall. intros [Hne Hp].
  split_conj; [|intros Hin; by specialize (Hp _ Hin)|done]. apply List.Forall_forall. intros x Hx%Hp.
  unfold plain_char, in_range, ascii_byte in *. lia.
Qed.

(** A key of the reader is one of the editor. *)
Lemma reads_as_key name c k v :
  plain name = true -> Forall byte_ok c -> item_of c = Some (k, v) -> len (chars k) = len (chars name) -> uppercase k = name -> has_key name c = true.
Proof.
  intros Hp Hc Hi Hlen Hup. destruct (plain_ascii name Hp) as (Ha & _ & Hne). unfold item_of in Hi.
  destruct (position_of EQUALS c) as [index|] eqn:Ei; [|done]. injection Hi as <- <-.
  set (l := take index c) in *. assert (Forall byte_ok l) as Hl by (by apply Forall_take).
  pose proof (uppercase_length _ _ Ha Hup) as Hcount. unfold char_list in Hcount. rewrite str_bytes_utf8 in Hcount by done.
  assert (length (chars (text_utf8 l)) = length (utf8 l)) as Hk.
  { rewrite <- str_bytes_utf8 by done. unfold str_bytes. by rewrite length_map. }
  assert (utf8 l = l) as Hsame.
  { apply utf8_ascii_same, code_points_short. unfold len in Hlen. lia. }
  assert (Forall ascii_byte l) as Hascii.
  { rewrite <- Hsame. apply code_points_short. unfold len in Hlen. lia. }
  unfold has_key, comment_key. rewrite Ei. destruct index as [|index].
  { destruct Hne. rewrite Hsame in Hk. unfold l in Hk. unfold len in Hlen. destruct name; [done|]. simpl in *. lia. }
  change (take (S index) c) with l. unfold from_utf8_lossy. rewrite lossy_ascii by done. unfold text_utf8 in Hup. rewrite Hsame in Hup.
  rewrite Hup. apply String.eqb_refl.
Qed.

(** What the reader takes for a value of a key is the value of a comment with that key. *)
Lemma all_with_key name cs :
  plain name = true -> Forall (Forall byte_ok) cs -> all (items_of cs) name = all (items_of (List.filter (has_key name) cs)) name.
Proof.
  intros Hp Hcs. induction Hcs as [|c cs Hc _ IH]; [done|]. rewrite items_of_cons. cbn [List.filter].
  destruct (item_of c) as [[k v]|] eqn:Ei.
  - destruct (has_key name c) eqn:E.
    + rewrite items_of_cons, Ei. unfold all in *. cbn [List.filter map]. case_bool; cbn [map]; by rewrite IH.
    + unfold all in *. cbn [List.filter map fst]. destruct (_ && _) eqn:Em; [|done]. exfalso.
      apply andb_true_iff in Em as [Hl%Z.eqb_eq Hu%String.eqb_eq]. rewrite (reads_as_key name c k v) in E; done.
  - destruct (has_key name c); [|done]. by rewrite items_of_cons, Ei.
Qed.

Lemma item_of_comment name v : plain name = true -> is_str v -> item_of (VorbisComments.comment name v) = Some (name, v).
Proof.
  intros Hp Hv. destruct (plain_ascii name Hp) as (Ha & Hno & _). unfold item_of, VorbisComments.comment. rewrite position_of_app by done.
  cbn [fmap option_fmap option_map]. rewrite take_app_length, cons_middle, app_assoc, drop_app_length' by (rewrite length_app; simpl; lia).
  rewrite (text_utf8_str v) by done. unfold text_utf8. rewrite utf8_valid_same; [by rewrite bytes_to_str_bytes|].
  induction Ha as [|x l Hx Hl IH]; [done|]. cbn [utf8_valid]. unfold in_range, ascii_byte in *.
  rewrite (proj2 (Z.leb_le 0 x)), (proj2 (Z.leb_le x 127)) by lia. cbn [andb]. apply IH. intros Hin. apply Hno. by right.
Qed.

Lemma all_comments name vs : plain name = true -> Forall is_str vs -> all (items_of (map (VorbisComments.comment name) vs)) name = vs.
Proof.
  intros Hp Hvs. induction Hvs as [|v vs Hv _ IH]; [done|]. cbn [map]. rewrite items_of_cons, item_of_comment by done.
  unfold all in *. cbn [List.filter map fst]. rewrite Z.eqb_refl.
  assert (uppercase name = name) as Hup.
  { destruct (plain_ascii name Hp) as (Ha & _). pose proof (uppercase_plain name Hp) as Hu. unfold from_utf8_lossy in Hu.
    rewrite lossy_ascii, bytes_to_str_bytes in Hu by done. done. }
  rewrite Hup, String.eqb_refl. cbn [andb map snd]. by rewrite IH.
Qed.
End keys.

(** ** After an edit *)

Section edited.
Context `{Unicode} `{Splits}.
Implicit Types (fields : Fields).

Lemma comment_bytes key v : Forall byte_ok (VorbisComments.comment key v).
Proof.
  unfold VorbisComments.comment. apply Forall_app. split; [apply str_bytes_ok|]. apply Forall_cons. split; [done|apply str_bytes_ok].
Qed.

Lemma edited_bytes cs fields : Forall (Forall byte_ok) cs -> Forall (Forall byte_ok) (edit_comments cs fields).
Proof.
  intros Hcs. rewrite edit_comments_apply. unfold apply_edits. apply Forall_app. split.
  - apply List.Forall_forall. intros c [Hc _]%filter_In. rewrite List.Forall_forall in Hcs. by apply Hcs.
  - generalize (tag_edits fields cs). intros es. induction es as [|[key vs] es IH]; [constructor|]. cbn [new_comments]. apply Forall_app.
    split; [|done]. case_bool_decide; [constructor|]. apply List.Forall_forall. intros c (v & <- & _)%in_map_iff. apply comment_bytes.
Qed.

(** The values of a key after an edit are those it was given, or the old ones if it was given none. *)
Lemma all_edited cs fields name :
  plain name = true -> Forall (Forall byte_ok) cs ->
  match last_values (tag_edits fields cs) name with
  | Some vs => Forall is_str vs -> all (items_of (edit_comments cs fields)) name = vs
  | None => all (items_of (edit_comments cs fields)) name = all (items_of cs) name
  end.
Proof.
  intros Hp Hcs. rewrite (all_with_key name (edit_comments cs fields)) by (done || by apply edited_bytes).
  rewrite edit_comments_apply, comments_with_key by apply tag_plain. destruct (last_values _ name) as [vs|].
  - intros Hvs. by apply all_comments.
  - symmetry. by apply all_with_key.
Qed.

(** The keys that one field of the editor each names. *)
Definition PLAIN_FIELDS : list (string * string) :=
  [("title", "TITLE"); ("album", "ALBUM"); ("date", "DATE"); ("isrc", "ISRC"); ("genre", "GENRE"); ("copyright", "COPYRIGHT");
   ("composer", "COMPOSER"); ("comment", "COMMENT"); ("replaygain_track_gain", "REPLAYGAIN_TRACK_GAIN");
   ("replaygain_track_peak", "REPLAYGAIN_TRACK_PEAK"); ("replaygain_album_gain", "REPLAYGAIN_ALBUM_GAIN");
   ("replaygain_album_peak", "REPLAYGAIN_ALBUM_PEAK")]%string.

Lemma last_values_given fields f k key :
  last_values (given fields f (fun v => [(k, one v)])) key = if String.eqb k key then one <$> fields !! f else None.
Proof. unfold given. destruct (fields !! f); simpl; by destruct (String.eqb k key). Qed.

Lemma behind_keys fields :
  keys_in (flat_map snd ALIAS_FIELDS ++ ["ARTIST"; "ALBUMARTIST"; "ALBUM ARTIST"; "ALBUM_ARTIST"]%string) (alias_edits fields ++ credit_edits fields).
Proof.
  apply Forall_app. split; [|apply Forall_app; split].
  - apply keys_in_flat_map. intros [field keys] Hin. apply keys_in_given. intros _. apply Forall_map, List.Forall_forall.
    intros key Hkey%list_elem_of_In. cbn [fst]. apply elem_of_app. left. apply list_elem_of_In, in_flat_map. exists (field, keys).
    split; by apply list_elem_of_In.
  - apply keys_in_given. intros v. unfold keys_in. rewrite !Forall_cons. cbn [fst]. split_conj; [set_solver|apply Forall_nil_2].
  - apply keys_in_given. intros v. unfold keys_in. rewrite !Forall_cons. cbn [fst]. split_conj; (apply Forall_nil_2 || set_solver).
Qed.

Lemma last_values_plain fields cs f key : (f, key) ∈ PLAIN_FIELDS -> last_values (tag_edits fields cs) key = one <$> fields !! f.
Proof.
  intros Hin. rewrite tag_edits_front, !last_values_app.
  assert (key ∉ LYRIC_KEYS /\ key ∉ NUMBER_KEYS /\ key ∉ flat_map snd ALIAS_FIELDS ++ ["ARTIST"; "ALBUMARTIST"; "ALBUM ARTIST"; "ALBUM_ARTIST"]%string)
    as (Hl & Hn & Ha).
  { unfold PLAIN_FIELDS in Hin. rewrite !elem_of_cons, elem_of_nil in Hin.
    decompose [or] Hin; simplify_eq; split_conj; by apply (bool_decide_eq_false_1 _). }
  rewrite (last_values_apart LYRIC_KEYS), (last_values_apart NUMBER_KEYS) by (apply lyric_keys || apply number_keys || done).
  unfold front_edits. rewrite last_values_app, (last_values_apart _ _ _ (behind_keys fields) Ha). unfold field_edits, COMMENT_FIELDS. cbn [flat_map].
  rewrite !last_values_app, !last_values_given. unfold PLAIN_FIELDS in Hin. rewrite !elem_of_cons, elem_of_nil in Hin.
  decompose [or] Hin; simplify_eq; cbn [String.eqb Ascii.eqb Bool.eqb last_values]; by destruct (fields !! _).
Qed.
End edited.
