(* ===== verification/FlacReaderSpec.v ===== *)
(** * What is read of a FLAC file, and of one that was edited

    [flac_metadata]: the metadata of a list of blocks.  [flac_read_back]: after an edit the reader finds the values
    the edit was given, and what was there before for everything else. *)

From S2P Require Import Prelude Monads RustText UnicodeText Matching TagIo VorbisComments FlacTags FlacHeader FlacTagsSpec TagFields Id3Text TagComments FlacReader TagCommentsSpec.

Section reader.
Context `{Source} `{Unicode}.
Implicit Types (s : Io) (w : Walk).

(** One block of the walk, as a function of its data. *)
Definition walk (want : bool) w (b : Block) : Walk :=
  if is_kind 4 b && negb (w_found w) then take_comments w b.2
  else if is_kind 6 b && negb (w_front w) && want then take_picture w b.2
  else w.

(** What a list of blocks says: the first comment block that is whole. *)
Definition flac_metadata (blocks : list Block) : AudioMetadata :=
  match List.find (fun b => is_kind 4 b && valid_comments b.2) blocks with
  | Some b => flac_comments default_metadata (parse b.2 USIZE_MAX)
  | None => default_metadata
  end.

Lemma take_picture_metadata w data : w_metadata (take_picture w data) = w_metadata w /\ w_found (take_picture w data) = w_found w.
Proof. unfold take_picture. destruct (picture_block data false) as [[kind p]|]; [|done]. by case_bool. Qed.

Lemma walk_metadata want bs w :
  w_metadata (fold_left (walk want) bs w) =
    if w_found w then w_metadata w
    else match List.find (fun b => is_kind 4 b && valid_comments b.2) bs with
         | Some b => flac_comments (w_metadata w) (parse b.2 USIZE_MAX)
         | None => w_metadata w
         end.
Proof.
  revert w. induction bs as [|b bs IH]; intros w; [by destruct (w_found w)|]. cbn [fold_left List.find]. rewrite IH. unfold walk.
  destruct (is_kind 4 b); cbn [andb].
  - destruct (w_found w) eqn:Ef; cbn [negb].
    + destruct (_ && want); [|by rewrite Ef]. destruct (take_picture_metadata w b.2) as [-> ->]. by rewrite Ef.
    + unfold take_comments. destruct (valid_comments b.2); [done|]. by rewrite Ef.
  - destruct (_ && want); [|done]. by destruct (take_picture_metadata w b.2) as [-> ->].
Qed.

Lemma wp_read_block want w kind length Q R s :
  0 <= position s -> 0 <= length -> position s + length <= len content ->
  (forall s', position s' = position s + length -> Q (walk want w (kind, slice content (position s) (position s + length))) s') ->
  (forall e s', ~ calm -> R e s') -> wp (read_block want w kind length) Q R s.
Proof.
  intros Hp Hl Hin HQ HR. unfold read_block. unfold walk, is_kind in HQ. cbn [fst snd] in HQ.
  destruct ((kind =? 4) && negb (w_found w)); [|destruct ((kind =? 6) && negb (w_front w) && want)].
  1,2: apply wp_bind, wp_bytes_of; [done|done|intros s' Hp' _ _; by apply wp_ret, HQ|].
  1,2: intros e s' Hc _; apply HR; intros Hcalm; specialize (Hc Hcalm); lia.
  apply wp_bind, wp_gets, wp_bind, wp_seek; [intros s' Hp' _; by apply wp_ret, HQ|]. intros e s' Hc _. by apply HR.
Qed.

Lemma encode_blocks_head b bs r : wf_block b -> exists rest,
  encode_blocks (b :: bs) ++ r = Z.lor b.1 (match bs with [] => 128 | _ => 0 end) :: rest /\
  from_be (take 3 rest) = len b.2 /\ drop 3 rest = b.2 ++ encode_blocks bs ++ r /\ 3 <= len rest /\
  Z.land (Z.lor b.1 (match bs with [] => 128 | _ => 0 end)) 127 = b.1 /\
  Z.land (Z.lor b.1 (match bs with [] => 128 | _ => 0 end)) 128 = match bs with [] => 128 | _ => 0 end.
Proof.
  destruct b as [kind data]. intros [Hk Hlen]. cbn [fst snd] in *. cbn [encode_blocks].
  exists (be_bytes 3 (len data) ++ data ++ encode_blocks bs ++ r). rewrite take_app_length', drop_app_length' by (by rewrite be_bytes_length).
  split_conj.
  - cbn [app]. by rewrite <- !app_assoc.
  - rewrite from_be_be_bytes. apply Z.mod_small. pose proof (len_nonneg data). change (256 ^ Z.of_nat 3) with (2 ^ 24). lia.
  - done.
  - rewrite len_app. unfold len at 1. rewrite be_bytes_length. pose proof (len_nonneg (data ++ encode_blocks bs ++ r)). lia.
  - rewrite Z.land_lor_distr_l. assert (Z.land kind 127 = kind) as -> by (change 127 with (2 ^ 7 - 1); rewrite land_ones_mod by lia; by apply Z.mod_small).
    destruct bs; by rewrite Z.lor_0_r.
  - rewrite Z.land_lor_distr_l. assert (Z.land kind 128 = 0) as -> by (apply (Z.bits_inj'); intros i Hi; rewrite Z.land_spec, Z.bits_0;
      change 128 with (2 ^ 7); rewrite Z.pow2_bits_eqb by lia; destruct (Z.eqb_spec 7 i) as [<-|];
      [rewrite Z.testbit_eqb by lia; by rewrite Z.div_small|apply andb_false_r]).
    by destruct bs.
Qed.

Lemma wp_walk_blocks fuel want w bs audio s :
  0 <= position s -> tail_at (position s) = encode_blocks bs ++ audio -> bs <> [] -> Forall wf_block bs -> (length bs <= fuel)%nat ->
  2 <= len audio -> synced (take 2 audio) = true ->
  wp (walk_blocks fuel want (len content) w) (fun w' _ => w' = fold_left (walk want) bs w) (fun _ _ => ~ calm) s.
Proof.
  revert w bs s. induction fuel as [|fuel IH]; intros w bs s Hp Htail Hne Hwf Hfuel Haudio Hsync; (destruct bs as [|b bs]; [done|]).
  { exfalso. simpl in Hfuel. lia. }
  rewrite Forall_cons in Hwf. destruct Hwf as [Hb Hwf]. pose proof Hb as [_ Hlen]. cbn [walk_blocks fold_left].
  destruct (encode_blocks_head b bs audio Hb) as (rest & E & Hn & Hd & H3 & Hkind & Hmark). rewrite E in Htail.
  set (h := Z.lor b.1 (match bs with [] => 128 | _ => 0 end)) in *.
  assert (position s + 4 + len b.2 + len (encode_blocks bs ++ audio) = len content) as Hsize.
  { apply (f_equal len) in Htail. apply (f_equal len) in Hd. rewrite len_cons in Htail. rewrite len_app in Hd.
    unfold tail_at, len in *. rewrite length_drop in Htail, Hd. lia. }
  pose proof (len_nonneg (encode_blocks bs ++ audio)). pose proof (len_nonneg b.2).
  apply wp_bind, wp_take; [lia|lia| |].
  2: { intros e s1 Hc _ Hcalm. specialize (Hc Hcalm). rewrite Htail, len_cons in Hc. lia. }
  intros s1 Hp1 _ _. rewrite Htail. change (Z.to_nat 4) with 4%nat.
  change (drop 1 (take 4 (h :: rest))) with (take 3 rest). change (byte_at (take 4 (h :: rest)) 0) with h. rewrite Hn. cbv zeta.
  apply wp_bind, wp_gets, wp_bind, wp_seek; [|by intros e s2 Hc _]. intros s2 Hp2 _.
  rewrite (proj2 (Z.ltb_ge (len content) _)) by lia.
  assert (tail_at (position s2) = b.2 ++ encode_blocks bs ++ audio) as Htail2.
  { rewrite Hp2, Hp1, <- tail_tail by lia. rewrite Htail. done. }
  apply wp_bind, wp_read_block; [lia|lia|lia| |done]. intros s3 Hp3.
  assert (slice content (position s2) (position s2 + len b.2) = b.2) as Hdata.
  { rewrite slice_tail, Htail2 by lia. apply take_app_length'. unfold len. lia. }
  assert (tail_at (position s3) = encode_blocks bs ++ audio) as Htail3.
  { rewrite Hp3, <- tail_tail, Htail2 by lia. apply drop_app_length'. unfold len. lia. }
  rewrite Hdata, Hkind, Hmark, <- surjective_pairing. destruct bs as [|b' bs].
  - cbn [Z.eqb]. cbn [encode_blocks app] in Htail3. apply wp_bind, wp_take; [|lia| |].
    + change (encode_blocks [] ++ audio) with audio in *. lia.
    + intros s4 _ _ _. rewrite Htail3. change (Z.to_nat 2) with 2%nat. rewrite Hsync. by apply wp_ret.
    + intros e s4 Hc _ Hcalm. specialize (Hc Hcalm). rewrite Htail3 in Hc. lia.
  - rewrite Z.eqb_refl. apply IH; try done; [lia|simpl in *; lia].
Qed.

Lemma length_encode_blocks bs : (length bs <= length (encode_blocks bs))%nat.
Proof. induction bs as [|[kind data] bs IH]; [done|]. cbn [encode_blocks length]. rewrite !length_app. lia. Qed.

Lemma wp_flac_inner cover start bs audio s :
  position s = 0 -> flac_offset content = Some start -> drop (Z.to_nat (start + 4)) content = encode_blocks bs ++ audio ->
  bs <> [] -> Forall wf_block bs -> 2 <= len audio -> synced (take 2 audio) = true ->
  wp (flac_inner cover)
    (fun w _ => w = fold_left (walk (bool_decide (is_Some cover))) bs (mkWalk default_metadata false false (default None cover)))
    (fun _ _ => ~ calm) s.
Proof.
  intros Hp Ho Hdrop Hne Hwf Haudio Hsync. unfold flac_inner. apply wp_bind. eapply wp_mono; [by apply wp_flac_start| |].
  2: { intros e s1 [_ Hc] Hcalm. specialize (Hc Hcalm). congruence. }
  intros start' s1 (Ho' & Hp1 & Hs0 & Hs1 & _). rewrite Ho in Ho'. injection Ho' as <-.
  apply wp_bind, wp_seek; [|by intros e s2 Hc _]. intros s2 _ _. apply wp_bind, wp_seek; [|by intros e s3 Hc _]. intros s3 Hp3 _.
  eapply wp_mono; [apply (wp_walk_blocks _ _ _ bs audio)| |]; try done; [lia|by rewrite Hp3|].
  pose proof (length_encode_blocks bs). apply (f_equal length) in Hdrop. rewrite length_drop, length_app in Hdrop. lia.
Qed.

Lemma wp_flac start bs audio s :
  position s = 0 -> flac_offset content = Some start -> drop (Z.to_nat (start + 4)) content = encode_blocks bs ++ audio ->
  bs <> [] -> Forall wf_block bs -> 2 <= len audio -> synced (take 2 audio) = true ->
  wp flac (fun m _ => m = flac_metadata bs) (fun _ _ => ~ calm) s.
Proof.
  intros. unfold flac. apply wp_bind, wp_mapping. eapply wp_mono; [by eapply wp_flac_inner| |done].
  cbv beta. intros w s' ->. apply wp_ret. by rewrite walk_metadata.
Qed.
End reader.

(** ** After an edit *)

Section read_back.
Context `{Unicode} `{Splits} `{Images}.

Lemma metadata_of_comments blocks vendor cs :
  List.find (is_kind 4) blocks = Some (4, put_comments vendor cs) -> len (put_comments vendor cs) < 2 ^ 32 -> last_whole cs = true ->
  flac_metadata blocks = flac_comments default_metadata (items_of cs).
Proof.
  intros Hfind Hlen Hwhole. destruct (read_put_comments vendor cs Hlen) as [Hparse Hvalid]. unfold flac_metadata.
  induction blocks as [|b blocks IH]; [done|]. cbn [List.find] in *. destruct (is_kind 4 b) eqn:Ek; [|by apply IH].
  injection Hfind as ->. cbn [snd andb]. rewrite Hvalid, Hwhole. cbn [snd]. by rewrite Hparse.
Qed.

(** The file that was written, for a reader. *)
Lemma edited_for_reader l fields cover section old new audio :
  Forall byte_ok l -> edits_flac fields cover None l section old new audio ->
  flac_offset (edited_file l section) = Some (start section) /\
  drop (Z.to_nat (start section + 4)) (edited_file l section) = encode_blocks new ++ audio /\ new <> [] /\ Forall wf_block new.
Proof.
  intros Hl [Hsource Hstart [Hdrop _] _ [_ Hwf] Hnew Hdata [Hsize Hlens] Ho _].
  destruct (new_blocks_shape _ _ _ _ _ Hnew Hwf) as [Hkinds _]. unfold edited_file. rewrite Hdrop, Hdata, <- app_assoc.
  rewrite (flac_offset_again l) by done. set (pre := take (Z.to_nat (start section)) l).
  assert (len pre = start section) as Hpre by (unfold pre, len in *; rewrite length_take; lia).
  split_conj; [done| | |].
  - rewrite app_assoc. apply drop_app_length'. rewrite length_app. change (length FLAC) with 4%nat. unfold len in *. lia.
  - destruct (find_new _ _ _ _ Hnew) as [d Hd]. by intros ->.
  - apply Forall_forall. intros b Hb. rewrite Forall_forall in Hkinds, Hlens. unfold wf_block. auto.
Qed.

(** The comment block that an edit writes. *)
Lemma edited_block fields cover old new :
  new_blocks fields cover None old = Some new -> Forall (fun b => len b.2 < 2 ^ 24) new ->
  exists vendor comments, tags_of old = Ok (vendor, comments) /\
    List.find (is_kind 4) new = Some (4, put_comments vendor (edit_comments comments fields)) /\
    len (put_comments vendor (edit_comments comments fields)) < 2 ^ 32.
Proof.
  intros Hnew Hlens. destruct (new_blocks_tags _ _ _ _ _ Hnew Hlens) as (vendor & comments & Hold & _).
  exists vendor, comments. split; [done|]. unfold new_blocks, change_blocks in Hnew.
  change (match List.find (is_kind 4) old with Some b => _ | None => _ end) with (tags_of old) in Hnew.
  rewrite Hold in Hnew. cbn [bind_result change_comments] in Hnew. set (data := put_comments vendor (edit_comments comments fields)) in *.
  assert (List.find (is_kind 4) new = Some (4, data)) as Hfind.
  { destruct cover as [c|]; [destruct (picture_of c) as [p|]; [|done]|]; injection Hnew as <-; [apply find_change_pictures|]; apply find_set_first. }
  split; [done|]. apply find_some in Hfind as [Hin _]. rewrite List.Forall_forall in Hlens. specialize (Hlens _ Hin). cbn [snd] in Hlens. lia.
Qed.

Lemma comments_bytes data vendor comments : Forall byte_ok data -> parse_comments data = Ok (vendor, comments) -> Forall (Forall byte_ok) comments.
Proof.
  assert (forall l s r, Forall byte_ok l -> take_string l = Ok (s, r) -> Forall byte_ok s /\ Forall byte_ok r) as Htake.
  { intros l s r Hl. unfold take_string. destruct (_ <? _); [done|]. cbv zeta. destruct (_ <? _); [done|]. intros [= <- <-].
    split; [by apply Forall_take, Forall_drop|by apply Forall_drop, Forall_drop]. }
  intros Hd. unfold parse_comments. destruct (take_string data) as [[v l]|e] eqn:Et; [|done]. cbn [bind_result].
  destruct (Htake _ _ _ Hd Et) as [_ Hl]. destruct (_ <? _); [done|].
  enough (forall fuel n l cs, Forall byte_ok l -> take_strings fuel n l = Ok cs -> Forall (Forall byte_ok) cs) as Hall.
  { destruct (take_strings _ _ _) as [cs|e] eqn:Es; [|done]. intros [= _ <-]. eapply Hall; [|exact Es]. by apply Forall_drop. }
  clear - Htake. intros fuel. induction fuel as [|fuel IH]; intros n l cs Hl; cbn [take_strings].
  - case_bool; [|done]. intros [= <-]. constructor.
  - case_bool; [intros [= <-]; constructor|]. destruct (take_string l) as [[s r]|e] eqn:Et; [|done]. cbn [bind_result].
    destruct (Htake _ _ _ Hl Et) as [Hs Hr]. destruct (take_strings fuel (n - 1) r) as [ss|e] eqn:Es; [|done]. intros [= <-].
    constructor; [done|]. by eapply IH.
Qed.

Lemma tags_bytes old vendor comments : Forall (fun b : Block => Forall byte_ok b.2) old -> tags_of old = Ok (vendor, comments) -> Forall (Forall byte_ok) comments.
Proof.
  intros Hold. unfold tags_of. destruct (List.find (is_kind 4) old) as [b|] eqn:E.
  - apply find_some in E as [Hin _]. rewrite List.Forall_forall in Hold. apply comments_bytes, (Hold _ Hin).
  - intros [= _ <-]. constructor.
Qed.

Lemma blocks_bytes bs r : Forall byte_ok (encode_blocks bs ++ r) -> Forall (fun b : Block => Forall byte_ok b.2) bs.
Proof.
  rewrite Forall_app. intros [Hbs _]. induction bs as [|[kind data] bs IH]; [constructor|]. cbn [encode_blocks] in Hbs.
  apply Forall_cons in Hbs as [_ [_ [Hd Hrest]%Forall_app]%Forall_app]. constructor; [done|by apply IH].
Qed.

(** C14: What an edit of a FLAC file sets is what is read of the file it wrote.  The metadata read is that of the
    edited comments: under a key that the edit named stand the values it was given, each of the plain fields has the
    value of its field, and under every other key stand the values that were read before.  (The reader takes no
    comment block whose last comment is empty.)  It fails only if something outside does. *)
Theorem flac_read_back (before after : Source) fields cover tick s' t :
  let given := artist_mode_fields fields in
  @rewrite_audio_tags before _ _ _ fields cover (mkIo tick 0 []) = (Ok tt, s') -> @content after = written s' -> position t = 0 ->
  exists prefix old audio vendor comments,
    @content before = prefix ++ FLAC ++ encode_blocks old ++ audio /\ tags_of old = Ok (vendor, comments) /\
    let items := items_of (edit_comments comments given) in
    (last_whole (edit_comments comments given) = true ->
     match @flac after _ t with
     | (Ok m, _) => m = flac_comments default_metadata items
     | (Err _, _) => ~ @calm after
     end) /\
    (forall f key v, (f, key) ∈ PLAIN_FIELDS -> given !! f = Some v -> is_str v -> get items key = v) /\
    (forall key, plain key = true ->
     match last_values (tag_edits given comments) key with
     | Some vs => Forall is_str vs -> all items key = vs
     | None => all items key = all (items_of comments) key
     end).
Proof.
  intros given Hrun Hafter Ht. pose proof (@wp_rewrite_audio before _ _ _ fields cover (mkIo tick 0 [])) as Hw.
  cbv zeta in Hw. fold given in Hw. unfold wp in Hw. rewrite Hrun in Hw. destruct Hw as (section & He & Hw). cbn [written app] in Hw.
  pose proof (@content_bytes before) as Hbytes. destruct (flac_edit_spec _ _ _ _ _ Hbytes He) as (old & new & audio & Hedit).
  pose proof Hedit as [Hsource _ _ [Haudio Hsync] _ Hnew _ [_ Hlens] _ _].
  destruct (edited_block _ _ _ _ Hnew Hlens) as (vendor & comments & Htags & Hfind & Hlen).
  destruct (edited_for_reader _ _ _ _ _ _ _ Hbytes Hedit) as (Ho & Hdrop & Hne & Hwf). rewrite <- Hw, <- Hafter in Ho, Hdrop.
  assert (Forall (Forall byte_ok) comments) as Hcomments.
  { eapply tags_bytes; [|exact Htags]. apply (blocks_bytes old audio). rewrite Hsource, !Forall_app in Hbytes. apply Forall_app. tauto. }
  exists (take (Z.to_nat (start section)) (@content before)), old, audio, vendor, comments. split; [done|]. split; [done|]. cbv zeta. split_conj.
  - intros Hwhole. pose proof (@wp_flac after _ _ _ _ t Ht Ho Hdrop Hne Hwf Haudio Hsync) as Hread. unfold wp in Hread.
    destruct (@flac after _ t) as [[m|e] t']; [|exact Hread]. by rewrite Hread, (metadata_of_comments _ _ _ Hfind Hlen Hwhole).
  - intros f key v Hin Hf Hv. pose proof (last_values_plain given comments f key Hin) as Hl.
    assert (plain key = true) as Hp.
    { unfold PLAIN_FIELDS in Hin. rewrite !elem_of_cons, elem_of_nil in Hin. by decompose [or] Hin; simplify_eq. }
    pose proof (all_edited comments given key Hp Hcomments) as Hall. rewrite Hl, Hf in Hall. cbn [fmap option_fmap option_map] in Hall.
    unfold get. unfold one in Hall. destruct (is_empty v) eqn:Ev.
    + rewrite Hall by constructor. by apply String.eqb_eq in Ev as ->.
    + by rewrite Hall by (apply Forall_singleton, Hv).
  - intros key Hp. by apply all_edited.
Qed.
End read_back.

(** ** An example *)

Module ReadExample.
Import FlacExample.

(** Deleting the comment behind an empty one leaves a block that is not read any more. *)
Definition gap : bytes :=
  FLAC ++ encode_blocks [(0, [1; 2]); (4, put_comments VENDOR [VorbisComments.comment "ARTIST" "Ann"; []; VorbisComments.comment "TITLE" "Song"])] ++ [255; 248; 9].
Definition gap_edited : bytes :=
  FLAC ++ encode_blocks [(0, [1; 2]); (4, put_comments VENDOR [VorbisComments.comment "ARTIST" "Ann"; []])] ++ [255; 248; 9].
Lemma gap_bytes : Forall byte_ok gap.
Proof. vm_compute. repeat constructor; done. Qed.
Lemma gap_edited_bytes : Forall byte_ok gap_edited.
Proof. vm_compute. repeat constructor; done. Qed.

Lemma empty_last_comment_unread :
  (@flac (file_of gap gap_bytes) _ (mkIo 0 0 [])).1 = Ok (set_title "Song" (set_artist "Ann" default_metadata)) /\
  @written (@rewrite_audio_tags (file_of gap gap_bytes) _ _ _ {["title" := ""]}%string None (mkIo 0 0 [])).2 = gap_edited /\
  (@flac (file_of gap_edited gap_edited_bytes) _ (mkIo 0 0 [])).1 = Ok default_metadata.
Proof. split_conj; vm_compute; reflexivity. Qed.

Lemma flac_read_back_witness :
  exists prefix old audio vendor comments,
    song = prefix ++ FLAC ++ encode_blocks old ++ audio /\ tags_of old = Ok (vendor, comments) /\
    let items := items_of (edit_comments comments (artist_mode_fields FlacExample.title)) in
    (last_whole (edit_comments comments (artist_mode_fields FlacExample.title)) = true ->
     match @flac (file_of song_edited song_edited_bytes) _ (mkIo 0 0 []) with
     | (Ok m, _) => m = flac_comments default_metadata items
     | (Err _, _) => ~ @calm (file_of song_edited song_edited_bytes)
     end) /\
    (forall f key v, (f, key) ∈ PLAIN_FIELDS -> artist_mode_fields FlacExample.title !! f = Some v -> is_str v -> get items key = v) /\
    (forall key, plain key = true ->
     match last_values (tag_edits (artist_mode_fields FlacExample.title) comments) key with
     | Some vs => Forall is_str vs -> all items key = vs
     | None => all items key = all (items_of comments) key
     end).
Proof.
  pose proof (flac_read_back (file_of song song_bytes) (file_of song_edited song_edited_bytes) FlacExample.title None 0
    (@rewrite_audio_tags (file_of song song_bytes) _ _ _ FlacExample.title None (mkIo 0 0 [])).2 (mkIo 0 0 [])
    ltac:(vm_compute; reflexivity) ltac:(vm_compute; reflexivity) eq_refl) as Hx.
  exact Hx.
Defined.
End ReadExample.
