(* ===== verification/OggReader.v ===== *)
(** * Reading Ogg files: [ogg_packets_until], [ogg] and [ogg_cover] of [crates/core/src/tags/containers.rs]

    The packets of the first pages up to the one with the comments.  A packet that is too long is skipped, and one that
    a page does not go on with is dropped.  Base64 is the class [Base64]. *)

From S2P Require Import Prelude Monads RustText UnicodeText Matching TagIo VorbisComments FlacTags TagFields Id3Text TagComments FlacReader Ogg.

(** The standard alphabet, with padding and without. *)
Class Base64 := { decode_padded : bytes -> option bytes; decode_unpadded : bytes -> option bytes }.

(** The whole packets, the beginning of the next, and whether it is skipped. *)
Record Packets := mkPackets { whole : list bytes; current : bytes; skip_packet : bool }.

Section reader.
Context `{Source} `{Unicode} `{Base64}.
Abbreviation P := (St Io string).

Section limits.
Variables (max_packets : Z) (max_bytes max_packet_bytes : Z) (done : bytes -> bool).

(** The segments of a page, up to the packet that is [done]; whether there was one. *)
Fixpoint take_segments (segments data : bytes) (p : Packets) : bool * Packets :=
  match segments with
  | [] => (false, p)
  | length :: segments =>
    let p := if negb (skip_packet p) && (max_packet_bytes <? len (current p) + length) then mkPackets (whole p) [] true else p in
    let p := if skip_packet p then p else mkPackets (whole p) (current p ++ take (Z.to_nat length) data) false in
    let data := drop (Z.to_nat length) data in
    if length <? 255 then
      let finished := match current p with [] => false | packet => done packet end in
      let whole := match current p with [] => whole p | packet => whole p ++ [packet] end in
      if finished then (true, mkPackets whole [] (skip_packet p))
      else if max_packets <=? len whole then (false, mkPackets whole [] false)
      else take_segments segments data (mkPackets whole [] false)
    else take_segments segments data p
  end.

(** A page that does not go on with a packet drops it. *)
Definition begin_page (page : OggPage) (p : Packets) : Packets :=
  if (Z.land (byte_at (header page) 5) 1 =? 0) && negb (bool_decide (current p = [])) then mkPackets (whole p) [] false else p.

(** Each pass reads the header of a page. *)
Fixpoint packets_loop (fuel : nat) (max_pages consumed : Z) (p : Packets) : P (list bytes) :=
  match fuel with
  | O => throw "out of fuel"%string
  | S fuel =>
    if (max_pages =? 0) || (max_bytes <=? consumed) then ret (whole p)
    else
      do page <- attempt page_read;
      match page with
      | Ok (Some page) =>
        let '(finished, p) := take_segments (segments page) (page_data page) (begin_page page p) in
        if finished || (max_packets <=? len (whole p)) then ret (whole p)
        else packets_loop fuel (max_pages - 1) (consumed + page_len page) p
      | Ok None => match whole p with [] => throw "EOF"%string | packets => ret packets end
      | Err error => match whole p with [] => throw error | packets => ret packets end
      end
  end.

Definition ogg_packets_until (max_pages : Z) : P (list bytes) := packets_loop (S (length content)) max_pages 0 (mkPackets [] [] false).
End limits.

Definition ogg_packets (max_packets max_pages : Z) : P (list bytes) :=
  ogg_packets_until max_packets USIZE_MAX (10 * 2 ^ 20) (fun _ => false) max_pages.

Definition OGG_COMMENT_BYTES : Z := MAX_TAG_BYTES + 2 ^ 20.

Definition OPUS_TAGS : bytes := str_bytes "OpusTags".
Definition VORBIS_COMMENTS : bytes := 3 :: str_bytes "vorbis".

Definition ogg_comment_packets : P (list bytes) :=
  ogg_packets_until 30 OGG_COMMENT_BYTES MAX_TAG_BYTES (fun packet => begins OPUS_TAGS packet || begins VORBIS_COMMENTS packet) USIZE_MAX.

(** Whether the stream is Opus, if a packet tells. *)
Fixpoint ogg_stream_is_opus (packets : list bytes) : option bool :=
  match packets with
  | [] => None
  | packet :: packets =>
    if begins (str_bytes "OpusHead") packet then Some true
    else if (7 <? len packet) && begins (1 :: str_bytes "vorbis") packet then Some false
    else ogg_stream_is_opus packets
  end.

(** The comments of a packet, if it is one of the stream. *)
Definition comment_body (stream : option bool) (packet : bytes) : option bytes :=
  if negb (bool_decide (stream = Some false)) && (8 <? len packet) && begins OPUS_TAGS packet then Some (drop 8 packet)
  else if negb (bool_decide (stream = Some true)) && (7 <? len packet) && begins VORBIS_COMMENTS packet then Some (drop 7 packet)
  else None.

Definition first_some {A B} (f : A -> option B) : list A -> option B :=
  fix go l := match l with [] => None | x :: l => match f x with Some y => Some y | None => go l end end.

Definition ogg : P AudioMetadata :=
  do packets <- ogg_comment_packets;
  let stream := ogg_stream_is_opus packets in
  match first_some (comment_body stream) packets with
  | Some data => ret (TagComments.ogg_comments (parse data (512 * 1024)) (bool_decide (stream = Some true)))
  | None => throw "no Vorbis comments found"%string
  end.

(** ** Covers *)

Definition is_blank_byte (b : Z) : bool := (b =? 32) || (b =? 9) || (b =? 13) || (b =? 10).

(** The cover of a comment, if it holds one. *)
Definition comment_cover (item : string * string) : option CoverArt :=
  if eq_ignore_ascii_case item.1 "METADATA_BLOCK_PICTURE" then
    let value := List.filter (fun b => negb (is_blank_byte b)) (str_bytes item.2) in
    decoded ← match decode_padded value with Some d => Some d | None => decode_unpadded value end;
    snd <$> FlacReader.picture_block decoded true
  else None.

(** The bytes of a packet that may be comments. *)
Definition cover_body (stream : option bool) (packet : bytes) : option bytes :=
  if negb (bool_decide (stream = Some false)) && begins OPUS_TAGS packet then Some (drop 8 packet)
  else if negb (bool_decide (stream = Some true)) && begins VORBIS_COMMENTS packet then Some (drop 7 packet)
  else None.

Definition ogg_cover : P CoverArt :=
  do packets <- ogg_comment_packets;
  let stream := ogg_stream_is_opus packets in
  let covers packet := body ← cover_body stream packet; first_some comment_cover (parse body MAX_TAG_BYTES) in
  match first_some covers packets with
  | Some cover => ret cover
  | None => throw "no cover art found"%string
  end.
End reader.
