(* ===== verification/ApeReader.v ===== *)
(** * Reading APE tags: [ape] of [crates/core/src/tags/containers.rs]

    The reader looks at the two footers where the editor does.  It takes the items as they come, reads the values of
    the keys it knows, and skips the others. *)

From S2P Require Import Prelude RustText Monads UnicodeText Matching TagIo VorbisComments FlacTags FlacHeader FlacTagsSpec TagFields ApeTags ApeSpec.
From S2P Require Import Id3Text TagComments TagCommentsSpec.

Section reader.
Context `{Source} `{Unicode}.
Abbreviation P := (St Io string).

(** The bytes of a key up to its end, or up to the end of the tag: what is kept of it, whether it ended, and how many
    bytes remain.  Nothing behind the first 1025 bytes is kept. *)
Fixpoint read_key (fuel : nat) (remaining : Z) (key : bytes) : P (bytes * bool * Z) :=
  match fuel with
  | O => ret (key, false, remaining)
  | S fuel =>
    if remaining <=? 0 then ret (key, false, remaining)
    else
      do value <- bytes_of 1;
      let b := byte_at value 0 in
      if b =? 0 then ret (key, true, remaining - 1)
      else read_key fuel (remaining - 1) (if len key <=? 1024 then key ++ [b] else key)
  end.

Definition MAX_VALUE : Z := 32 * 2 ^ 20.

(** The items in front of a footer. *)
Fixpoint read_items (count : nat) (remaining : Z) (m : AudioMetadata) : P AudioMetadata :=
  match count with
  | O => ret m
  | S count =>
    if remaining <? 8 then ret m
    else
      do header <- bytes_of 8;
      let length := from_le (take 4 header) in
      do r <- read_key (Z.to_nat (remaining - 8)) (remaining - 8) [];
      let '(key, terminated, remaining) := r in
      if negb terminated || (remaining <? length) then ret m
      else
        do m <- (if (length <=? MAX_VALUE) && (len key <=? 1024) && ape_key (text_utf8 key) then
                   do value <- bytes_of length;
                   ret (apply m (text_utf8 key) (text_utf8 value) true)
                 else (do p <- gets position; seek (p + length);; ret m));
        read_items count (remaining - length) m
  end.

Definition ape_at (footer : Z) : P AudioMetadata :=
  do f <- read_footer footer;
  match f with
  | None => throw "invalid APE footer"%string
  | Some f =>
    match items_start f footer with
    | Err e => throw e
    | Ok start =>
      seek start;;
      read_items (Z.to_nat (f_count f)) (footer - start) default_metadata
    end
  end.

(** The first of the footers with a tag. *)
Fixpoint first_tag (l : list Z) : P AudioMetadata :=
  match l with
  | [] => throw "no APEv2 tag found"%string
  | offset :: l =>
    do r <- attempt (ape_at offset);
    match r with Ok m => ret m | Err _ => first_tag l end
  end.

Definition ape : P AudioMetadata :=
  do end_ <- seek (len content);
  if end_ <? 32 then throw "file too small for APE tag"%string else first_tag (offsets end_).

(** ** What the items of a tag say *)

(** The key as it is kept, and the item if it is read. *)
Definition apply_item (m : AudioMetadata) (i : Item) : AudioMetadata :=
  if (len (value i) <=? MAX_VALUE) && (len (key i) <=? 1024) then apply m (text_utf8 (key i)) (text_utf8 (value i)) true else m.
Definition ape_metadata (items : list Item) : AudioMetadata := fold_left apply_item items default_metadata.
End reader.

(** * What is read of an APE tag, and of one that was edited *)

Section reader.
Context `{Source} `{Unicode}.
Implicit Types (s : Io) (m : AudioMetadata).

(** The reader may skip the keys it does not know. *)
Lemma apply_unknown m k v : ape_key k = false -> apply m k v true = m.
Proof.
  intros Hk. apply bool_decide_eq_false_1 in Hk. unfold apply. cbv zeta. cbn [andb negb]. destruct (is_empty (trim v)); [done|].
  assert (Forall (fun name => String.eqb (uppercase (trim k)) name = false) APE_KEYS) as Hno.
  { apply Forall_forall. intros name Hn. apply String.eqb_neq. intros E. by rewrite E in Hk. }
  unfold APE_KEYS in Hno. rewrite !Forall_cons in Hno. decompose [and] Hno.
  repeat match goal with E : String.eqb _ _ = false |- _ => rewrite !E; clear E end. by rewrite !andb_false_r.
Qed.

Lemma wp_read_key fuel k rest remaining acc Q R s :
  0 <= position s -> tail_at (position s) = k ++ 0 :: rest -> Forall (fun b => b <> 0) k ->
  len k < remaining -> (length k < fuel)%nat ->
  (forall s', position s' = position s + len k + 1 ->
     (forall key, (len acc + len k <= 1025 -> key = acc ++ k) -> (1024 < len acc + len k -> 1024 < len key) ->
        Q (key, true, remaining - len k - 1) s')) ->
  (forall e s', ~ calm -> R e s') -> wp (read_key fuel remaining acc) Q R s.
Proof.
  revert k remaining acc s. induction fuel as [|fuel IH]; intros k remaining acc s Hp Htail Hk Hlen Hfuel HQ HR; [lia|].
  cbn [read_key]. pose proof (len_nonneg k). rewrite (proj2 (Z.leb_gt remaining 0)) by lia.
  assert (position s + len k + 1 <= len content) as Hin.
  { apply (f_equal length) in Htail. unfold tail_at, len in *. rewrite length_drop, length_app in Htail. simpl in Htail. lia. }
  apply wp_bind, wp_take; [lia|lia| |].
  2: { intros e s1 Hc _. apply HR. intros Hcalm. specialize (Hc Hcalm). rewrite len_tail in Hc by lia. lia. }
  intros s1 Hp1 _ _. rewrite Htail. change (Z.to_nat 1) with 1%nat. destruct k as [|b k].
  - cbn [app take byte_at nth Z.eqb]. apply wp_ret. change (len []) with 0 in *. replace (remaining - 1) with (remaining - 0 - 1) by lia.
    apply (HQ s1); [lia| |]; [by rewrite app_nil_r|lia].
  - cbn [app]. change (byte_at (take 1 (b :: k ++ 0 :: rest)) 0) with b. rewrite Forall_cons in Hk. destruct Hk as [Hb Hk].
    destruct (Z.eqb_spec b 0); [done|]. rewrite len_cons in *. pose proof (len_nonneg k). apply (IH k); [lia| |done|lia|simpl in Hfuel; lia| |done].
    { rewrite Hp1, <- tail_tail, Htail by lia. done. }
    intros s2 Hp2 key Hshort Hlong. replace (remaining - 1 - len k - 1) with (remaining - (len k + 1) - 1) by lia. apply (HQ s2); [lia| |].
    + intros Hle. rewrite (proj2 (Z.leb_le (len acc) 1024)) in Hshort by lia. rewrite Hshort; [by rewrite <- app_assoc|].
      rewrite len_app. unfold len at 2. simpl. lia.
    + intros Hgt. apply Hlong. destruct (Z.leb_spec (len acc) 1024); [rewrite len_app; unfold len at 2; simpl; lia|lia].
Qed.

Lemma wp_read_items items m rest s :
  0 <= position s -> tail_at (position s) = body_of items ++ rest -> Forall item_ok items ->
  wp (read_items (length items) (len (body_of items)) m) (fun m' _ => m' = fold_left apply_item items m) (fun _ _ => ~ calm) s.
Proof.
  revert m s. induction items as [|i items IH]; intros m s Hp Htail Hok; [by apply wp_ret|].
  rewrite Forall_cons in Hok. destruct Hok as [(Hkey & Hvalue & Hflags) Hok]. cbn [length read_items fold_left].
  pose proof (body_cons i items) as Hbody. pose proof (len_nonneg (key i)). pose proof (len_nonneg (value i)). pose proof (len_nonneg (body_of items)).
  rewrite (proj2 (Z.ltb_ge _ 8)) by lia.
  assert (tail_at (position s) = le_bytes 4 (len (value i)) ++ le_bytes 4 (item_flags i) ++ key i ++ 0 :: value i ++ body_of items ++ rest) as E.
  { rewrite Htail. destruct i as [k v f]. cbn [key value item_flags]. unfold body_of at 1. cbn [map concat]. rewrite <- app_assoc, item_bytes_app. done. }
  assert (position s + len (body_of (i :: items)) <= len content) as Hin.
  { apply (f_equal length) in Htail. unfold tail_at, len in *. rewrite length_drop, length_app in Htail. lia. }
  apply wp_bind, wp_take; [lia|lia| |].
  2: { intros e s1 Hc _ Hcalm. specialize (Hc Hcalm). rewrite len_tail in Hc by lia. lia. }
  intros s1 Hp1 _ _. change (Z.to_nat 8) with 8%nat.
  assert (from_le (take 4 (take 8 (tail_at (position s)))) = len (value i)) as ->.
  { rewrite take_take. change (4 `min` 8)%nat with 4%nat. rewrite E, take_le. by apply from_le_4. }
  assert (tail_at (position s1) = key i ++ 0 :: value i ++ body_of items ++ rest) as E1.
  { rewrite Hp1, <- tail_tail, E by lia. change (Z.to_nat 8) with (4 + 4)%nat. by rewrite <- drop_drop, !drop_le. }
  apply wp_bind, (wp_read_key _ (key i) (value i ++ body_of items ++ rest)); [lia|done|done|lia| | |done].
  { rewrite Hbody. unfold len. lia. }
  intros s2 Hp2 k Hshort Hlong. change (len []) with 0 in *. cbn [app] in Hshort. cbn [negb orb].
  replace (len (body_of (i :: items)) - 8 - len (key i) - 1) with (len (value i) + len (body_of items)) by lia.
  rewrite (proj2 (Z.ltb_ge _ _)) by lia.
  assert (tail_at (position s2) = value i ++ body_of items ++ rest) as E2.
  { rewrite Hp2. replace (position s1 + len (key i) + 1) with (position s1 + (len (key i) + 1)) by lia.
    rewrite <- tail_tail, E1 by lia. replace (Z.to_nat (len (key i) + 1)) with (length (key i) + 1)%nat by (unfold len; lia).
    by rewrite <- drop_drop, drop_app_length. }
  apply wp_bind, (wp_mono _ (fun m' s3 => m' = apply_item m i /\ position s3 = position s2 + len (value i)) _ (fun _ _ => ~ calm)); [| |done].
  - unfold apply_item. destruct (Z.leb_spec (len (value i)) MAX_VALUE); cbn [andb].
    2: { apply wp_bind, wp_gets, wp_bind, wp_seek; [intros s3 Hp3 _; by apply wp_ret|by intros e s3 Hc _]. }
    destruct (Z.leb_spec (len (key i)) 1024) as [Hk|Hk].
    + rewrite Hshort by lia. rewrite (proj2 (Z.leb_le (len (key i)) 1024)) by done. cbn [andb]. destruct (ape_key (text_utf8 (key i))) eqn:Ek.
      * apply wp_bind, wp_take; [lia|lia| |].
        -- intros s3 Hp3 _ _. apply wp_ret. rewrite E2. split; [|done]. by rewrite take_app_length' by (unfold len; lia).
        -- intros e s3 Hc _ Hcalm. specialize (Hc Hcalm). rewrite len_tail in Hc by lia. lia.
      * apply wp_bind, wp_gets, wp_bind, wp_seek; [|by intros e s3 Hc _]. intros s3 Hp3 _. apply wp_ret. split; [|done]. by rewrite apply_unknown.
    + rewrite (proj2 (Z.leb_gt (len k) 1024)) by (apply Hlong; lia). cbn [andb].
      apply wp_bind, wp_gets, wp_bind, wp_seek; [intros s3 Hp3 _; by apply wp_ret|by intros e s3 Hc _].
  - intros m' s3 [-> Hp3]. replace (len (value i) + len (body_of items) - len (value i)) with (len (body_of items)) by lia.
    apply IH; [lia| |done]. rewrite Hp3, <- tail_tail, E2 by lia. apply drop_app_length'. unfold len. lia.
Qed.

(** The reader of a file with a tag. *)
Lemma wp_ape audio items s :
  items_ok items -> content = audio ++ tag_of items ->
  wp ape (fun m _ => calm -> m = ape_metadata items) (fun _ _ => ~ calm) s.
Proof.
  intros Hok Hcontent. destruct (tag_of_parts items Hok) as [Htag Hfooter]. pose proof Hok as (Hitems & Hcount & Hbody).
  set (size := len (body_of items) + 32) in *. pose proof (len_nonneg audio). pose proof (len_nonneg (body_of items)).
  assert (len content = len audio + 32 + len (body_of items) + 32) as Hlen.
  { rewrite Hcontent, Htag, !len_app, !len_header. lia. }
  unfold ape. apply wp_bind, wp_seek; [|by intros e s1 Hc _]. intros s1 _ _. rewrite (proj2 (Z.ltb_ge (len content) 32)) by lia.
  unfold offsets. rewrite (proj2 (Z.leb_le 32 (len content))) by lia. cbn [app first_tag].
  apply wp_bind, wp_attempt. set (footer := len content - 32).
  enough (wp (ape_at footer) (fun m _ => m = ape_metadata items) (fun _ _ => ~ calm) s1) as Hat.
  { eapply wp_mono; [exact Hat| |].
    - intros m s2 ->. by apply wp_ret.
    - intros e s2 Hc. unfold wp. destruct (first_tag _ s2) as [[m|e'] s3]; [by intros Hcalm|done]. }
  unfold ape_at. apply wp_bind, wp_read_footer; [lia|lia| |by intros e s2 Hc _]. intros s2 _.
  assert (slice content footer (footer + 32) = tag_header size (len items) 2147483648) as ->.
  { rewrite Hcontent, Htag, !app_assoc. unfold slice. rewrite drop_app_length'.
    - apply take_ge. rewrite tag_header_length. lia.
    - unfold footer, len in *. rewrite Hcontent, Htag, !length_app, !tag_header_length in *. lia. }
  rewrite Hfooter. unfold items_start. cbn [f_version f_size f_count]. change (2000 =? 1000) with false. cbn [orb negb Z.eqb Pos.eqb].
  rewrite (proj2 (Z.ltb_ge size 32)), (proj2 (Z.ltb_ge 1000 (len items))) by lia. cbn [orb].
  rewrite (proj2 (Z.ltb_ge footer (size - 32))) by lia. apply wp_bind, wp_seek; [|by intros e s3 Hc _]. intros s3 Hp3 _.
  replace (footer - (footer - (size - 32))) with (len (body_of items)) by lia.
  replace (Z.to_nat (len items)) with (length items) by (unfold len; lia).
  apply (wp_read_items _ _ (tag_header size (len items) 2147483648)); [lia| |done].
  assert (position s3 = len audio + 32) as -> by lia. unfold tail_at. rewrite Hcontent, Htag. rewrite app_assoc. apply drop_app_length'.
  rewrite length_app, tag_header_length. unfold len. lia.
Qed.
End reader.

(** ** Keys in capitals *)

Definition upper_ascii (s : string) : string := bytes_to_str (map (fun b => if in_range 97 122 b then b - 32 else b) (str_bytes s)).

Section upper.
Context `{Unicode}.

Lemma uppercase_ascii s : Forall ascii_byte (str_bytes s) -> uppercase s = upper_ascii s.
Proof.
  intros Ha. unfold uppercase, upper_ascii, char_list, text_of. rewrite code_points_ascii by done. f_equal.
  assert (map upper_char (str_bytes s) = map (fun b => if in_range 97 122 b then b - 32 else b) (str_bytes s)) as ->.
  { apply map_ext_in. intros x Hx. rewrite List.Forall_forall in Ha. specialize (Ha x Hx). unfold ascii_byte in Ha. unfold upper_char.
    rewrite bool_decide_eq_false_2 by (rewrite !elem_of_cons, elem_of_nil; lia).
    unfold in_range at 1 2 3 4 5. rewrite to_uppercase_ascii by lia. repeat case_bool; lia || done. }
  apply encode_ascii, Forall_map, (Forall_impl _ _ _ Ha). intros x Hx. unfold ascii_byte, in_range in *. cbn. repeat case_bool; lia.
Qed.

(** The text fields of the editor that have a field of their own in the metadata, with the keys that set it. *)
Definition APE_FIELDS : list (string * (AudioMetadata -> string) * list string) :=
  [("title", title, ["TITLE"]); ("artist", artist, ["ARTIST"]); ("album", album, ["ALBUM"]);
   ("album_artist", album_artist, ["ALBUMARTIST"; "ALBUM ARTIST"]); ("genre", genre, ["GENRE"]); ("date", year, ["YEAR"]);
   ("isrc", isrc, ["ISRC"]); ("label", label, ["LABEL"; "PUBLISHER"]); ("copyright", copyright, ["COPYRIGHT"]);
   ("composer", composer, ["COMPOSER"]); ("comment", comment, ["COMMENT"]); ("upc", upc, ["BARCODE"; "UPC"]);
   ("replaygain_track_gain", replay_gain_track_gain, ["REPLAYGAIN_TRACK_GAIN"]);
   ("replaygain_track_peak", replay_gain_track_peak, ["REPLAYGAIN_TRACK_PEAK"]);
   ("replaygain_album_gain", replay_gain_album_gain, ["REPLAYGAIN_ALBUM_GAIN"]);
   ("replaygain_album_peak", replay_gain_album_peak, ["REPLAYGAIN_ALBUM_PEAK"])]%string.

Definition one_of (names : list string) (name : string) : bool := existsb (String.eqb name) names.

(** A comment sets a field if it has one of its keys and a value. *)
Lemma apply_field f proj names m k v : (f, proj, names) ∈ APE_FIELDS ->
  proj (apply m k v true) = if one_of names (uppercase (trim k)) && negb (blank v) then trim v else proj m.
Proof.
  intros Hin. unfold apply, blank. cbv zeta. cbn [andb negb]. destruct (is_empty (trim v)); [by rewrite andb_false_r|]. rewrite andb_true_r.
  unfold APE_FIELDS in Hin. rewrite !elem_of_cons, elem_of_nil in Hin. generalize (uppercase (trim k)). intros name.
  repeat (destruct Hin as [[= -> -> ->]|Hin]); [..|done]; unfold one_of; cbn [existsb];
    repeat (match goal with |- context [String.eqb name ?n] => destruct (String.eqb_spec name n) as [->|_] end;
            [cbn; repeat case_bool; destruct m; reflexivity|cbn [orb andb negb]]); reflexivity.
Qed.

(** The values of an item that set a field. *)
Definition sets (names : list string) (i : Item) : bool :=
  (len (value i) <=? MAX_VALUE) && (len (key i) <=? 1024) && one_of names (uppercase (trim (text_utf8 (key i)))) && negb (blank (text_utf8 (value i))).

Lemma field_of_items f proj names items m : (f, proj, names) ∈ APE_FIELDS ->
  proj (fold_left apply_item items m) =
    default (proj m) (last (map (fun i => trim (text_utf8 (value i))) (List.filter (sets names) items))).
Proof.
  intros Hin. revert m. induction items as [|i items IH]; intros m; [done|]. cbn [fold_left List.filter]. rewrite IH.
  assert (proj (apply_item m i) = if sets names i then trim (text_utf8 (value i)) else proj m) as ->.
  { unfold apply_item, sets. destruct ((len (value i) <=? MAX_VALUE) && (len (key i) <=? 1024)); cbn [andb]; [|done].
    by apply (apply_field f proj names). }
  destruct (sets names i); [|done]. cbn [map]. rewrite last_cons. by destruct (last _).
Qed.

(** ** The items an edit adds *)

Definition plain_key (k : string) : bool :=
  String.eqb (trim k) k && utf8_valid (str_bytes k) && forallb (in_range 0 127) (str_bytes k) && (len (str_bytes k) <=? 1024).

Lemma plain_key_read k : plain_key k = true ->
  len (str_bytes k) <= 1024 /\ uppercase (trim (text_utf8 (str_bytes k))) = upper_ascii k.
Proof.
  unfold plain_key. rewrite !andb_true_iff. intros [[[Ht%String.eqb_eq Hvalid] Ha] Hk%Z.leb_le]. split; [done|].
  rewrite text_utf8_str, Ht by done. apply uppercase_ascii, List.Forall_forall. intros x Hx.
  rewrite forallb_forall in Ha. specialize (Ha x Hx). unfold in_range, ascii_byte in *. lia.
Qed.

Lemma sets_yes names k v :
  plain_key k = true -> one_of names (upper_ascii k) = true -> is_empty v = false -> negb (blank v) = true -> len (str_bytes v) <= MAX_VALUE -> is_str v ->
  List.filter (sets names) (text_item k v) = [mkItem (str_bytes k) (str_bytes v) 0].
Proof.
  intros Hp Hone Ev Hblank Hlen Hv. destruct (plain_key_read k Hp) as (Hk & Hu). unfold text_item. rewrite Ev. cbn [List.filter].
  unfold sets. cbn [key value]. rewrite (proj2 (Z.leb_le _ MAX_VALUE)), (proj2 (Z.leb_le _ 1024)) by done. cbn [andb].
  by rewrite (text_utf8_str v), Hu, Hone, Hblank.
Qed.

Lemma sets_no names k v : plain_key k = true -> one_of names (upper_ascii k) = false -> List.filter (sets names) (text_item k v) = [].
Proof.
  intros Hp Hone. destruct (plain_key_read k Hp) as (Hk & Hu). unfold text_item. destruct (is_empty v); [done|]. cbn [List.filter].
  unfold sets. cbn [key value]. by rewrite Hu, Hone, andb_false_r.
Qed.

(** The cover of an edit sets no text. *)
Lemma sets_cover_no names fields cover :
  one_of names "COVER ART (FRONT)" = false ->
  List.filter (sets names) match cover with
    | Some cover => if sets_cover fields then [mkItem (str_bytes "Cover Art (Front)") (str_bytes "cover.jpg" ++ 0 :: cover) 2] else []
    | None => [] end = [].
Proof.
  intros Hone. destruct cover as [c|]; [|done]. destruct (sets_cover fields); [|done]. cbn [List.filter]. unfold sets. cbn [key value].
  destruct (plain_key_read "Cover Art (Front)" ltac:(by vm_compute)) as (_ & ->). change (upper_ascii "Cover Art (Front)") with "COVER ART (FRONT)"%string.
  by rewrite Hone, andb_false_r.
Qed.

Context `{Splits} {IN : Integers}.

Lemma metadata_text fields f :
  f ∈ map fst (text_fields default_metadata) -> metadata_fields default_metadata fields !! f = Some (default ""%string (fields !! f)).
Proof.
  unfold metadata_fields. cbn [text_fields number_fields fold_left default_metadata title artist album album_artist date genre composer label
    copyright isrc lyrics comment album_type upc replay_gain_track_gain replay_gain_track_peak replay_gain_album_gain replay_gain_album_peak map fst].
  rewrite !elem_of_cons, elem_of_nil. intros Hin.
  repeat (destruct Hin as [->|Hin]; [rewrite !lookup_insert_ne by done; apply lookup_insert_eq|]); done.
Qed.

(** A field that the edit names is read as its value, without the space around it. *)
Lemma edited_field fields cover items f proj names v :
  (f, proj, names) ∈ APE_FIELDS -> fields !! f = Some v -> is_str v -> blank v = false -> len (str_bytes v) <= MAX_VALUE ->
  proj (ape_metadata (edited_items fields cover items)) = trim v.
Proof.
  intros Hin Hf Hv Hblank Hlen. unfold ape_metadata. rewrite (field_of_items f proj names) by done.
  unfold edited_items. rewrite List.filter_app, map_app, last_app.
  enough (exists k, List.filter (sets names) (added_items fields (metadata_fields default_metadata fields) cover) =
    [mkItem (str_bytes k) (str_bytes v) 0]) as [k ->] by (cbn [map value last]; by rewrite text_utf8_str).
  assert (field (metadata_fields default_metadata fields) f = v) as Hvalue.
  { unfold field. rewrite metadata_text, Hf; [done|]. unfold APE_FIELDS in Hin. rewrite !elem_of_cons, elem_of_nil in Hin.
    repeat (destruct Hin as [[= -> _ _]|Hin]; [cbn; set_solver|]); done. }
  assert (is_empty v = false) as Hne by (unfold blank in Hblank; destruct v; [done|reflexivity]).
  generalize dependent (metadata_fields default_metadata fields). intros metadata Hvalue. unfold added_items, text_keys, index_keys. cbn [flat_map].
  rewrite !List.filter_app. unfold APE_FIELDS in Hin. rewrite !elem_of_cons, elem_of_nil in Hin.
  repeat (destruct Hin as [[= -> -> ->]|Hin]; [|]); [..|done].
  all: rewrite sets_cover_no by reflexivity.
  all: repeat match goal with
    | |- context [List.filter (sets ?ns) (text_item ?k ?x)] =>
      first [rewrite (sets_no ns k x) by (vm_compute; reflexivity)
            |rewrite (sets_yes ns k x) by (rewrite ?Hvalue; first [done|by vm_compute|by rewrite Hblank])]
    end.
  all: rewrite Hvalue; eexists; reflexivity.
Qed.
End upper.

Section read_back.
Context `{Unicode} `{Splits} {IN : Integers}.

(** C15: What an edit of an APE, WavPack or Musepack file sets is what is read of the file it wrote.  If reading does not
    fail from outside, the reader finds the tag, applies exactly the items the edit kept and added, and each text
    field that the edit named has the value it was given, without the space around it.  (The value may take 32 MiB,
    and the tag 1000 items.) *)
Theorem ape_read_back (before after : Source) fields cover audio items tick s' t :
  let given := artist_mode_fields fields in
  let edited := edited_items given (not_empty cover) items in
  holds (@content before) audio items ->
  @rewrite_ape_tags _ _ _ before fields cover (mkIo tick 0 []) = (Ok tt, s') -> @content after = written s' ->
  edited <> [] -> len edited <= 1000 -> @calm after ->
  (@ape after _ t).1 = Ok (ape_metadata edited) /\
  (forall f proj names v, (f, proj, names) ∈ APE_FIELDS -> given !! f = Some v -> is_str v -> blank v = false ->
     len (str_bytes v) <= MAX_VALUE -> proj (ape_metadata edited) = trim v).
Proof.
  intros given edited Hholds Hrun Hafter Hne Hcount Hcalm. split; [|intros; by eapply edited_field].
  pose proof (@wp_rewrite_ape _ _ _ before fields cover audio items (mkIo tick 0 []) Hholds) as Hw. cbv zeta in Hw. fold given edited in Hw.
  unfold wp in Hw. rewrite Hrun in Hw. destruct Hw as [Hw Hmax]. cbn [written app] in Hw.
  destruct (edited_holds _ _ _ _ _ Hholds Hmax Hne Hcount) as [Hok Htag]. fold edited in Hok, Htag. rewrite Htag in Hw.
  pose proof (@wp_ape after _ audio edited t Hok ltac:(by rewrite Hafter)) as Hread. unfold wp in Hread.
  destruct (@ape after _ t) as [[m|e] t']; [by rewrite Hread|by destruct Hread].
Qed.
End read_back.

(** ** An example *)

Module ApeReadExample.
Import ApeExample.

Definition ape_edited : bytes := sound ++ tag_of new_items.
Lemma ape_edited_bytes : Forall byte_ok ape_edited.
Proof. vm_compute. repeat constructor; done. Qed.

Lemma ape_read_back_witness :
  (@ape (file_of ape_edited ape_edited_bytes) _ (mkIo 0 0 [])).1 =
    Ok (ape_metadata (edited_items (artist_mode_fields FlacTagsSpec.FlacExample.title) (not_empty None) old_items)) /\
  (forall f proj names v, (f, proj, names) ∈ APE_FIELDS -> artist_mode_fields FlacTagsSpec.FlacExample.title !! f = Some v -> is_str v -> blank v = false ->
     len (str_bytes v) <= MAX_VALUE ->
     proj (ape_metadata (edited_items (artist_mode_fields FlacTagsSpec.FlacExample.title) (not_empty None) old_items)) = trim v).
Proof.
  eapply (@ape_read_back _ _ digits (file_of ape_song ape_song_bytes) (file_of ape_edited ape_edited_bytes) FlacTagsSpec.FlacExample.title None sound old_items 0
    (@rewrite_ape_tags _ _ digits (file_of ape_song ape_song_bytes) FlacTagsSpec.FlacExample.title None (mkIo 0 0 [])).2 (mkIo 0 0 []) ape_song_holds).
  - vm_compute. reflexivity.
  - vm_compute. reflexivity.
  - vm_compute. discriminate.
  - vm_compute. discriminate.
  - split_conj; done.
Defined.
End ApeReadExample.
