(* ===== verification/Id3Reader.v ===== *)
(** * Reading ID3 tags: [crates/core/src/tags/id3.rs]

    The tag in front of an MP3 file, of any version, the tag of 128 bytes at its end, and a tag within another file.
    Frames that were read before a broken one are kept.  The formats the [image] crate guesses are those of the class
    [Images]. *)

From S2P Require Import Prelude Monads RustText UnicodeText Matching TagIo VorbisComments FlacTags TagFields Id3Text Id3Tags TagComments FlacReader.

#[export] Instance metadata_eq_dec : EqDecision AudioMetadata.
Proof. solve_decision. Defined.

(** ** Genres *)

Definition GENRES : list string :=
  ["Blues"; "Classic Rock"; "Country"; "Dance"; "Disco"; "Funk"; "Grunge"; "Hip-Hop"; "Jazz"; "Metal"; "New Age"; "Oldies";
   "Other"; "Pop"; "R&B"; "Rap"; "Reggae"; "Rock"; "Techno"; "Industrial"; "Alternative"; "Ska"; "Death Metal"; "Pranks";
   "Soundtrack"; "Euro-Techno"; "Ambient"; "Trip-Hop"; "Vocal"; "Jazz+Funk"; "Fusion"; "Trance"; "Classical"; "Instrumental";
   "Acid"; "House"; "Game"; "Sound Clip"; "Gospel"; "Noise"; "AlternRock"; "Bass"; "Soul"; "Punk"; "Space"; "Meditative";
   "Instrumental Pop"; "Instrumental Rock"; "Ethnic"; "Gothic"; "Darkwave"; "Techno-Industrial"; "Electronic"; "Pop-Folk";
   "Eurodance"; "Dream"; "Southern Rock"; "Comedy"; "Cult"; "Gangsta"; "Top 40"; "Christian Rap"; "Pop/Funk"; "Jungle";
   "Native American"; "Cabaret"; "New Wave"; "Psychedelic"; "Rave"; "Showtunes"; "Trailer"; "Lo-Fi"; "Tribal"; "Acid Punk";
   "Acid Jazz"; "Polka"; "Retro"; "Musical"; "Rock & Roll"; "Hard Rock"; "Folk"; "Folk-Rock"; "National Folk"; "Swing";
   "Fast Fusion"; "Bebop"; "Latin"; "Revival"; "Celtic"; "Bluegrass"; "Avantgarde"; "Gothic Rock"; "Progressive Rock";
   "Psychedelic Rock"; "Symphonic Rock"; "Slow Rock"; "Big Band"; "Chorus"; "Easy Listening"; "Acoustic"; "Humour"; "Speech";
   "Chanson"; "Opera"; "Chamber Music"; "Sonata"; "Symphony"; "Booty Bass"; "Primus"; "Porn Groove"; "Satire"; "Slow Jam";
   "Club"; "Tango"; "Samba"; "Folklore"; "Ballad"; "Power Ballad"; "Rhythmic Soul"; "Freestyle"; "Duet"; "Punk Rock";
   "Drum Solo"; "A capella"; "Euro-House"; "Dance Hall"; "Goa"; "Drum & Bass"; "Club-House"; "Hardcore"; "Terror"; "Indie";
   "BritPop"; "Negerpunk"; "Polsk Punk"; "Beat"; "Christian Gangsta Rap"; "Heavy Metal"; "Black Metal"; "Crossover";
   "Contemporary Christian"; "Christian Rock"; "Merengue"; "Salsa"; "Thrash Metal"; "Anime"; "J-Pop"; "Synthpop"]%string.

(** [parse::<usize>]: a sign of minus is no part of it. *)
Definition parse_usize (s : string) : option Z := if starts_with s "-" then None else parse_int 0 USIZE_MAX s.

Definition genre_name (value : string) : string :=
  if starts_with value "(" then
    match find_list (chars ")") (chars value) with
    | None => value
    | Some end_ =>
      match parse_usize (unchars (take (end_ - 1) (drop 1 (chars value)))) with
      | None => value
      | Some index =>
        match nth_error GENRES (Z.to_nat index) with
        | None => value
        | Some name => match drop (S end_) (chars value) with [] => name | rest => unchars rest end
        end
      end
    end
  else value.

Example genre_ex : map genre_name ["(17)"; "(17)Hard"; "(999)"; "17"; "(+1)"; "(-0)"; "()"]%string = ["Rock"; "Hard"; "(999)"; "17"; "Classic Rock"; "(-0)"; "()"]%string.
Proof. vm_compute. reflexivity. Qed.

(** ** The text of frames *)

(** The text behind the language and the description of a comment. *)
Definition language (data : bytes) : string :=
  if len data <? 5 then ""%string
  else
    let encoding := byte_at data 0 in
    let rest := drop 4 data in
    let text := match separator rest encoding with
                | Some (index, size) =>
                  if is_utf16 encoding || (index + size <? length rest)%nat then drop (index + size) rest else rest
                | None => if is_utf16 encoding then [] else rest
                end in
    decode encoding text.

Definition LYRIC_NAMES : list string :=
  ["lyrics"; "lyric"; "unsyncedlyrics"; "unsynced lyrics"; "syncedlyrics"; "synced lyrics"; "uslt"; "sylt"; "lrc"]%string.

(** The ids of version 2.2 under which a frame is read. *)
Definition READ_SHORT : list (string * string) :=
  [("TT2", "TIT2"); ("TP1", "TPE1"); ("TP2", "TPE2"); ("TAL", "TALB"); ("TYE", "TYE"); ("TCO", "TCON"); ("TRK", "TRCK"); ("TPA", "TPOS");
   ("TCM", "TCOM"); ("TPB", "TPUB"); ("TCR", "TCOP"); ("ULT", "USLT"); ("TXX", "TXXX")]%string.

Section text.
Context `{Unicode}.

(** A user-defined text. *)
Definition apply_user (m : AudioMetadata) (version : Z) (data : bytes) : AudioMetadata :=
  let '(description, value) := user_text data in
  let m := if bool_decide (lowercase (trim description) ∈ LYRIC_NAMES) && is_empty (lyrics m) && negb (is_empty value) then set_lyrics value m else m in
  let named name := String.eqb (uppercase description) name in
  let gain := negb (version =? 2) in
  if named "ITUNESADVISORY" then set_explicit (truthy value) m
  else if named "RELEASETYPE" then set_album_type value m
  else if named "BARCODE" || named "UPC" then set_upc value m
  else if named "REPLAYGAIN_TRACK_GAIN" && gain then set_replay_gain_track_gain value m
  else if named "REPLAYGAIN_TRACK_PEAK" && gain then set_replay_gain_track_peak value m
  else if named "REPLAYGAIN_ALBUM_GAIN" && gain then set_replay_gain_album_gain value m
  else if named "REPLAYGAIN_ALBUM_PEAK" && gain then set_replay_gain_album_peak value m
  else m.

(** A frame under its id of four letters.  An id is the text of its bytes, one character each. *)
Definition apply_long (m : AudioMetadata) (version : Z) (id : string) (data : bytes) (value : string) : AudioMetadata :=
  let named name := String.eqb id name in
  if named "TIT2" then set_title value m
  else if named "TPE1" then set_artist value m
  else if named "TPE2" then set_album_artist value m
  else if named "TALB" then set_album value m
  else if named "TYER" || named "TDRC" then
    let m := set_year value m in if 4 <=? len (str_bytes value) then set_date value m else m
  else if named "TCON" then set_genre (genre_name value) m
  else if named "TRCK" then set_track (pair value) m
  else if named "TPOS" then set_disc (pair value) m
  else if named "TSRC" then set_isrc value m
  else if named "TCOM" then set_composer value m
  else if named "TPUB" then set_label value m
  else if named "TCOP" then set_copyright value m
  else if named "TCMP" then (if truthy value && is_empty (album_type m) then set_album_type "compilation" m else m)
  else if named "COMM" || named "USLT" then
    let value := language data in
    if is_empty value then m
    else if named "COMM" then set_comment value m
    else if is_empty (lyrics m) then set_lyrics value m else m
  else if named "TXXX" then apply_user m version data
  else m.

(** [apply]. *)
Definition apply_frame (m : AudioMetadata) (version : Z) (id : string) (data : bytes) : AudioMetadata :=
  let text := match data with encoding :: body => decode encoding body | [] => ""%string end in
  let value := first_value text in
  if version =? 2 then
    match List.find (fun e => String.eqb id e.1) READ_SHORT with
    | None => m
    | Some ("TYE"%string, _) => set_year value m
    | Some (_, long) => apply_long m version long data value
    end
  else apply_long m version id data value.
End text.

(** ** Pictures *)

Section picture.
Context `{Images}.

(** The zeros between a description and a picture that is recognized go. *)
Definition without_zeros (image : bytes) : bytes :=
  match image with
  | 0 :: _ =>
    match drop_zeros image with
    | [] => image
    | rest => match guess_error rest with None => rest | Some _ => image end
    end
  | _ => image
  end.

Definition picture_frame (data : bytes) (version : Z) : option CoverArt :=
  match data with
  | [] => None
  | encoding :: rest =>
    '(mime, start) ← (if version =? 2 then
        if len data <? 4 then None
        else Some (if bool_decide (take 3 rest = str_bytes "PNG") then "image/png" else "image/jpeg", 5%nat)%string
      else
        end_ ← position_of 0 rest;
        Some (text_utf8 (take end_ rest), (end_ + 3)%nat));
    if (length data <? start)%nat then None
    else
      let description := drop start data in
      '(end_, terminator) ← separator description encoding;
      if (length description <? end_ + terminator)%nat then None
      else
        match without_zeros (drop (end_ + terminator) description) with
        | [] => None
        | image => Some (mkCover image mime)
        end
  end.
End picture.

(** ** Frames *)

(** What is left of a tag, and whether the last byte was all ones. *)
Record Input := mkInput { remaining : Z; after_ff : bool }.

Section reader.
Context `{Source} `{Unicode} `{Images}.
Abbreviation P := (St Io string).

(** One [read] of an unsynchronized tag: byte by byte, without the zeros behind bytes of ones. *)
Fixpoint read_unsync (fuel : nat) (limit : Z) (acc : bytes) (i : Input) : P (bytes * Input) :=
  match fuel with
  | O => ret (acc, i)
  | S fuel =>
    if (len acc <? limit) && (0 <? remaining i) then
      do value <- read 1;
      match value with
      | [] => ret (acc, i)
      | b :: _ =>
        if after_ff i && (b =? 0) then read_unsync fuel limit acc (mkInput (remaining i - 1) false)
        else read_unsync fuel limit (acc ++ [b]) (mkInput (remaining i - 1) (b =? 255))
      end
    else ret (acc, i)
  end.

Definition input_read (unsync : bool) (limit : Z) (i : Input) : P (bytes * Input) :=
  if unsync then read_unsync (Z.to_nat (remaining i)) limit [] i
  else do b <- read (Z.min limit (remaining i)); ret (b, mkInput (remaining i - len b) (after_ff i)).

(** [exact] on a tag. *)
Fixpoint input_exact (fuel : nat) (unsync : bool) (need : Z) (acc : bytes) (i : Input) : P (bytes * Input) :=
  match fuel with
  | O => ret (acc, i)
  | S fuel =>
    if need =? 0 then ret (acc, i)
    else
      do r <- input_read unsync need i;
      match r.1 with
      | [] => throw (match acc with [] => "EOF" | _ => "unexpected EOF" end)%string
      | b => input_exact fuel unsync (need - len b) (acc ++ b) r.2
      end
  end.
Definition input_bytes (unsync : bool) (n : Z) (i : Input) : P (bytes * Input) := input_exact (Z.to_nat n) unsync n [] i.

(** Skipping in pieces of 8192 bytes where bytes have to be looked at. *)
Fixpoint skip_loop (fuel : nat) (size_left : Z) (i : Input) : P Input :=
  match fuel with
  | O => ret i
  | S fuel =>
    if size_left <=? 0 then ret i
    else
      let count := Z.min size_left 8192 in
      do r <- input_bytes true count i;
      skip_loop fuel (size_left - count) r.2
  end.
Definition input_skip (unsync : bool) (n : Z) (i : Input) : P Input :=
  if unsync then skip_loop (Z.to_nat n) n i
  else do p <- gets position; seek (p + n);; ret (mkInput (sat_sub (remaining i) n) (after_ff i)).

#[export] Instance cover_eq_dec : EqDecision CoverArt.
Proof. solve_decision. Defined.

(** What the frames have said so far; [None] if no cover is wanted. *)
Record Found := mkFound { f_metadata : AudioMetadata; f_cover : option (option CoverArt) }.

(** The length of a frame. *)
Definition frame_length (version : Z) (header : bytes) : result Z string :=
  if version =? 2 then Ok (from_be (take 3 (drop 3 header)))
  else if version =? 4 then
    if existsb (fun b => 128 <=? b) (take 4 (drop 4 header)) then Err "invalid ID3 frame size"%string else Ok (syncsafe (take 4 (drop 4 header)))
  else Ok (from_be (take 4 (drop 4 header))).

(** The data of a frame behind the fields that its flags announce. *)
Definition frame_body (version flags : Z) (unsync : bool) (data : bytes) : option bytes :=
  let group := if ((version =? 3) && flagged flags 32) || ((version =? 4) && flagged flags 64) then 1%nat else 0%nat in
  let offset := (group + if ((version =? 4) && flagged flags 1)%Z then 4 else 0)%nat in
  if (length data <? offset)%nat then None
  else
    let body := drop offset data in
    Some (if unsync || ((version =? 4) && flagged flags 2) then synchronized body else body).

Definition is_picture (id : string) : bool := String.eqb id "APIC" || String.eqb id "PIC".
Definition wanted (id : string) (f : Found) : bool :=
  if is_picture id then bool_decide (f_cover f = Some None)
  else starts_with id "T" || String.eqb id "COMM" || String.eqb id "USLT" || String.eqb id "ULT".

Definition take_frame (version : Z) (id : string) (body : bytes) (f : Found) : Found :=
  if is_picture id then
    match f_cover f with Some _ => mkFound (f_metadata f) (Some (picture_frame body version)) | None => f end
  else mkFound (apply_frame (f_metadata f) version id body) (f_cover f).

(** One frame: [None] where they end. *)
Definition read_frame (version : Z) (input_unsync unsync : bool) (size_left : Z) (f : Found) (i : Input) : P (option (Z * Found * Input)) :=
  let header_size := header_length version in
  do r <- input_bytes input_unsync header_size i;
  let '(header, i) := r in
  let size_left := size_left - header_size in
  if (byte_at header 0 =? 0) || begins (str_bytes "3DI") header then ret None
  else
    match frame_length version header with
    | Err e => throw e
    | Ok size =>
      if (size =? 0) || (size_left <? size) then throw "invalid ID3 frame bounds"%string
      else
        let size_left := size_left - size in
        let id := bytes_to_str (take (if version =? 2 then 3 else 4) header) in
        let flags := if version =? 2 then 0 else byte_at header 9 in
        let unsupported := ((version =? 3) && flagged flags 192) || ((version =? 4) && flagged flags 12) in
        if negb (wanted id f) || unsupported || (32 * 2 ^ 20 <? size) then
          do i <- input_skip input_unsync size i;
          ret (Some (size_left, f, i))
        else
          do r <- input_bytes input_unsync size i;
          let '(data, i) := r in
          ret (Some (size_left, match frame_body version flags unsync data with Some body => take_frame version id body f | None => f end, i))
    end.

(** [frames]: what was found, and the error the frames end with, if they do.  Each pass takes six bytes or more. *)
Fixpoint frames (fuel : nat) (version : Z) (input_unsync unsync : bool) (size_left : Z) (f : Found) (i : Input) : P (Found * option string) :=
  match fuel with
  | O => ret (f, Some "out of fuel"%string)
  | S fuel =>
    if size_left <? header_length version then ret (f, None)
    else
      do r <- attempt (read_frame version input_unsync unsync size_left f i);
      match r with
      | Err e => ret (f, Some e)
      | Ok None => ret (f, None)
      | Ok (Some (size_left, f, i)) => frames fuel version input_unsync unsync size_left f i
      end
  end.
Definition all_frames (version : Z) (input_unsync unsync : bool) (size : Z) (f : Found) (i : Input) : P (Found * option string) :=
  frames (S (Z.to_nat size)) version input_unsync unsync size f i.

(** ** Tags *)

(** The extended header is skipped; what is left of the tag. *)
Definition skip_extended (version flags : Z) (input_unsync : bool) (size : Z) (i : Input) : P (Z * Input) :=
  if flagged flags 64 then
    if version =? 2 then throw "compressed ID3v2.2 tag unsupported"%string
    else
      do r <- input_bytes input_unsync 4 i;
      let '(extended, i) := r in
      let invalid := "invalid ID3 extended header"%string in
      match (if version =? 4 then if syncsafe extended <? 4 then None else Some (syncsafe extended - 4) else Some (from_be extended)) with
      | None => throw invalid
      | Some length =>
        if (size <? 4) || (size - 4 <? length) then throw invalid
        else
          do i <- input_skip input_unsync length i;
          ret (size - (length + 4), i)
      end
  else ret (size, i).

Definition v2_with_cover (include_cover : bool) : P Found :=
  do header <- bytes_of 10;
  if negb (begins (str_bytes "ID3") header) then throw "no ID3v2 header"%string
  else
    let version := byte_at header 3 in
    let flags := byte_at header 5 in
    if negb (in_range 2 4 version) || existsb (fun b => 128 <=? b) (drop 6 header) then throw "invalid ID3 version or tag size"%string
    else
      let size := syncsafe (drop 6 header) in
      do end_ <- seek (len content);
      if sat_sub end_ 10 <? size then throw "unexpected EOF"%string
      else
        seek 10;;
        let input_unsync := (version <? 4) && flagged flags 128 in
        do r <- skip_extended version flags input_unsync size (mkInput size false);
        let '(size, i) := r in
        do r <- all_frames version input_unsync ((version =? 4) && flagged flags 128) size
                  (mkFound default_metadata (if include_cover then Some None else None)) i;
        let '(found, error) := r in
        match error with
        | Some e => if include_cover && bool_decide (f_cover found = Some None) then throw e else ret found
        | None => ret found
        end.

Definition v2 : P AudioMetadata := do found <- v2_with_cover false; ret (f_metadata found).

Definition id3_cover : P CoverArt :=
  do found <- v2_with_cover true;
  match f_cover found with Some (Some cover) => ret cover | _ => throw "no cover art found"%string end.

(** The tag of 128 bytes at the end. *)
Definition is_padding (b : Z) : bool := (b =? 32) || (b =? 0).
Fixpoint drop_padding (l : bytes) : bytes := match l with [] => [] | b :: l => if is_padding b then drop_padding l else b :: l end.
Definition fixed_text (data : bytes) (start end_ : Z) : string := bytes_to_str (rev (drop_padding (rev (utf8 (slice data start end_))))).

Definition v1 : P AudioMetadata :=
  do end_ <- seek (len content);
  if end_ <? 128 then throw "no ID3v1 tag found"%string
  else
    seek (end_ - 128);;
    do data <- bytes_of 128;
    if negb (begins (str_bytes "TAG") data) then throw "no ID3v1 tag"%string
    else
      let m := set_title (fixed_text data 3 33) default_metadata in
      let m := set_artist (fixed_text data 33 63) m in
      let m := set_album (fixed_text data 63 93) m in
      let m := set_year (fixed_text data 93 97) m in
      ret (set_genre (nth (Z.to_nat (byte_at data 127)) GENRES ""%string) m).

(** The texts that are missing, from the old tag. *)
Definition fill (m old : AudioMetadata) : AudioMetadata :=
  let fill_in (get : AudioMetadata -> string) (set : string -> AudioMetadata -> AudioMetadata) m := if is_empty (get m) then set (get old) m else m in
  fill_in genre set_genre (fill_in year set_year (fill_in album set_album (fill_in artist set_artist (fill_in title set_title m)))).

Definition id3_read : P AudioMetadata :=
  do r <- attempt v2;
  let m := match r with Ok m => m | Err _ => default_metadata end in
  do m <- (if is_empty (title m) || is_empty (artist m) then
             do old <- attempt v1;
             ret (match old with Ok old => fill m old | Err _ => m end)
           else ret m);
  if bool_decide (m = default_metadata) then throw "no ID3 tags found"%string else ret m.
End reader.
