(* ===== verification/Id3ReaderSpec.v ===== *)
(** * What is read of a tag that the editor of MP3 files wrote *)

From S2P Require Import Prelude Monads RustText UnicodeText Matching TagIo VorbisComments FlacTags FlacHeader FlacTagsSpec TagFields Id3Text Id3Tags Id3Spec TagComments TagCommentsSpec.
From S2P Require Import FlacReader Id3Reader.

Section reader.
Context `{Source} `{Unicode} `{Images}.
Implicit Types (s : Io) (f : Found).

Lemma wp_input_exact fuel need acc i (Q : bytes * Input -> Io -> Prop) (R : string -> Io -> Prop) s :
  0 <= position s -> 0 <= need <= Z.of_nat fuel -> need <= remaining i -> position s + need <= len content ->
  (forall s', position s' = position s + need ->
     Q (acc ++ slice content (position s) (position s + need), mkInput (remaining i - need) (after_ff i)) s') ->
  (forall e s', ~ calm -> R e s') -> wp (input_exact fuel false need acc i) Q R s.
Proof.
  revert need acc i s. induction fuel as [|fuel IH]; intros need acc i s Hp Hn Hr Hin HQ HR; cbn [input_exact].
  { apply wp_ret. assert (need = 0) as -> by lia. specialize (HQ s). rewrite !Z.add_0_r, slice_nil, app_nil_r, Z.sub_0_r in HQ. destruct i. by apply HQ. }
  destruct (Z.eqb_spec need 0) as [->|Hne].
  { apply wp_ret. specialize (HQ s). rewrite !Z.add_0_r, slice_nil, app_nil_r, Z.sub_0_r in HQ. destruct i. by apply HQ. }
  unfold input_read. rewrite Z.min_l by lia. apply wp_bind, wp_bind, wp_read; [done|lia| |by intros e s1 Hc _; apply HR].
  intros b s1 Hb Heq Hle Hnil Hp1 _. apply wp_ret. cbn [fst snd]. destruct b as [|x b'] eqn:Eb.
  { specialize (Hnil eq_refl). lia. }
  rewrite <- Eb in *. assert (0 < len b) by (rewrite Eb; unfold len; simpl; lia). rewrite Eb at 1. rewrite <- Eb.
  assert (wp (input_exact fuel false (need - len b) (acc ++ b) (mkInput (remaining i - len b) (after_ff i))) Q R s1) as Hrec.
  { apply IH; [lia|lia|cbn; lia|lia| |done]. cbn [remaining after_ff]. intros s2 Hp2. rewrite <- app_assoc. rewrite Heq at 1.
    rewrite Hp1, slice_app by lia. replace (position s + len b + (need - len b)) with (position s + need) by lia.
    replace (remaining i - len b - (need - len b)) with (remaining i - need) by lia. apply HQ. lia. }
  subst b. exact Hrec.
Qed.

Lemma wp_input_bytes n i (Q : bytes * Input -> Io -> Prop) (R : string -> Io -> Prop) s :
  0 <= position s -> 0 <= n -> n <= remaining i -> position s + n <= len content ->
  (forall s', position s' = position s + n -> Q (take (Z.to_nat n) (tail_at (position s)), mkInput (remaining i - n) (after_ff i)) s') ->
  (forall e s', ~ calm -> R e s') -> wp (input_bytes false n i) Q R s.
Proof.
  intros Hp Hn Hr Hin HQ HR. unfold input_bytes. apply wp_input_exact; [done|lia|done|done| |done].
  intros s' Hp'. cbn [app]. rewrite slice_tail by done. by apply HQ.
Qed.

(** ** Frames *)

(** One frame of a tag that the editor wrote. *)
Definition read_one f (fr : Frame) : Found :=
  let id := bytes_to_str (frame_id fr) in
  if wanted id f && (len (frame_data fr) <=? 32 * 2 ^ 20) then take_frame 4 id (frame_data fr) f else f.

(** An id that the reader takes for one. *)
Definition readable (fr : Frame) : Prop := found fr /\ begins (str_bytes "3DI") (frame_id fr) = false.

Lemma begins_take (p l l' : bytes) : (length p <= length l)%nat -> begins p (l ++ l') = begins p l.
Proof. intros Hl. unfold begins. by rewrite take_app_le. Qed.

Lemma syncsafe_safe n : 0 <= n < 2 ^ 28 -> existsb (fun b => 128 <=? b) (put_syncsafe n) = false.
Proof.
  intros Hn. unfold put_syncsafe. change 127 with (2 ^ 7 - 1). cbn [existsb]. rewrite !land_ones_mod by lia. change (2 ^ 7) with 128.
  rewrite !orb_false_iff. split_conj; try done; apply Z.leb_gt; apply Z.mod_pos_bound; lia.
Qed.

Lemma wp_read_frame fr rest n f i s :
  0 <= position s -> tail_at (position s) = frame_bytes fr ++ rest -> readable fr -> len (frame_bytes fr) <= n <= remaining i ->
  wp (read_frame 4 false false n f i)
    (fun r s' => position s' = position s + len (frame_bytes fr) /\ exists i', r = Some (n - len (frame_bytes fr), read_one f fr, i') /\
       remaining i' = remaining i - len (frame_bytes fr))
    (fun _ _ => ~ calm) s.
Proof.
  intros Hp Htail [([Hid Hhead] & Hne & Hlen) H3] Hn. destruct fr as [id data]. cbn [frame_id frame_data] in *.
  assert (len (frame_bytes (mkFrame id data)) = 10 + len data) as Hsize.
  { pose proof (frame_bytes_length (mkFrame id data) (conj Hid Hhead)) as E. unfold len. rewrite E. cbn [frame_data]. lia. }
  rewrite Hsize in *. pose proof (len_nonneg data).
  assert (position s + 10 + len data <= len content) as Hin.
  { apply (f_equal length) in Htail. unfold tail_at, len in *. rewrite length_drop, length_app in Htail. lia. }
  set (header := id ++ put_syncsafe (len data) ++ [0; 0]). assert (length header = 10%nat) as Hh by (unfold header; rewrite length_app, Hid; done).
  assert (tail_at (position s) = header ++ data ++ rest) as E.
  { rewrite Htail. unfold frame_bytes, header. cbn [frame_id frame_data]. by rewrite <- !app_assoc. }
  unfold read_frame. change (header_length 4) with 10. apply wp_bind, wp_input_bytes; [done|done|lia|lia| |done].
  intros s1 Hp1. rewrite E, take_app_length' by (by rewrite Hh). cbv zeta.
  assert (byte_at header 0 = byte_at id 0) as -> by (unfold header; by destruct id). rewrite (proj2 (Z.eqb_neq _ 0)) by done. cbn [orb].
  unfold header at 1. rewrite begins_take, H3 by (rewrite Hid; simpl; lia). unfold frame_length. change (4 =? 2) with false. change (4 =? 4) with true. cbv iota.
  assert (drop 4 header = put_syncsafe (len data) ++ [0; 0]) as -> by (unfold header; by apply drop_app_length').
  rewrite take_app_length' by done. rewrite syncsafe_safe, <- (app_nil_r (put_syncsafe _)), syncsafe_put by lia.
  destruct (Z.eqb_spec (len data) 0) as [E0|_]; [by apply len_nil in E0|]. rewrite (proj2 (Z.ltb_ge _ (len data))) by lia. cbn [orb].
  assert (take 4 header = id) as -> by (unfold header; by apply take_app_length').
  assert (byte_at header 9 = 0) as -> by (unfold header, byte_at; rewrite app_nth2 by lia; by rewrite Hid).
  assert (tail_at (position s1) = data ++ rest) as E1 by (rewrite Hp1, <- tail_tail, E by lia; by apply drop_app_length').
  change (4 =? 3) with false. cbn [andb orb]. change (flagged 0 12) with false. rewrite orb_false_r. unfold read_one. cbv zeta. cbn [frame_id frame_data].
  destruct (wanted (bytes_to_str id) f); cbn [negb orb andb]; [destruct (Z.leb_spec (len data) (32 * 2 ^ 20)) as [H32|H32]|].
  - rewrite (proj2 (Z.ltb_ge (32 * 2 ^ 20) _)) by done. apply wp_bind, wp_input_bytes; [lia|lia|cbn; lia|lia| |done].
    intros s2 Hp2. apply wp_ret. split; [lia|]. rewrite E1, take_app_length' by (unfold len; lia). eexists.
    change (frame_body 4 0 false data) with (Some data). cbv iota.
    split; [by replace (n - 10 - len data) with (n - (10 + len data)) by lia|cbn [remaining]; lia].
  - rewrite (proj2 (Z.ltb_lt (32 * 2 ^ 20) _)) by lia. unfold input_skip. apply wp_bind, wp_bind, wp_gets, wp_bind, wp_seek; [|by intros e s2 Hc _].
    intros s2 Hp2 _. apply wp_ret, wp_ret. split; [lia|]. eexists.
    split; [by replace (n - 10 - len data) with (n - (10 + len data)) by lia|cbn [remaining]; unfold sat_sub; lia].
  - unfold input_skip. apply wp_bind, wp_bind, wp_gets, wp_bind, wp_seek; [|by intros e s2 Hc _].
    intros s2 Hp2 _. apply wp_ret, wp_ret. split; [lia|]. eexists.
    split; [by replace (n - 10 - len data) with (n - (10 + len data)) by lia|cbn [remaining]; unfold sat_sub; lia].
Qed.

(** The frames up to the padding. *)
Lemma wp_frames fuel frs pad rest f i s :
  0 <= position s -> tail_at (position s) = body_of frs ++ zeros (Z.to_nat pad) ++ rest -> Forall readable frs -> pad = 0 \/ 10 <= pad ->
  len (body_of frs) + pad <= remaining i -> len (body_of frs) + pad < Z.of_nat fuel ->
  wp (frames fuel 4 false false (len (body_of frs) + pad) f i)
    (fun r _ => calm -> r = (fold_left read_one frs f, None)) (fun _ _ => False) s.
Proof.
  revert frs f i s. induction fuel as [|fuel IH]; intros frs f i s Hp Htail Hfrs Hpad Hrem Hfuel.
  { pose proof (len_nonneg (body_of frs)). lia. }
  cbn [frames]. change (header_length 4) with 10. pose proof (len_nonneg (body_of frs)).
  destruct (Z.ltb_spec (len (body_of frs) + pad) 10) as [Hshort|Hlong].
  { apply wp_ret. intros _. destruct Hfrs as [|fr frs [(Hok & _) _] _]; [done|]. exfalso. change (body_of (fr :: frs)) with (frame_bytes fr ++ body_of frs) in *.
    rewrite len_app in *. pose proof (len_nonneg (body_of frs)). pose proof (frame_bytes_length fr Hok) as E. unfold len in *. lia. }
  assert (position s + len (body_of frs) + pad <= len content) as Hin.
  { apply (f_equal length) in Htail. unfold tail_at, len in *. rewrite length_drop, !length_app in Htail. unfold zeros in Htail. rewrite repeat_length in Htail. lia. }
  apply wp_bind, wp_attempt. destruct frs as [|fr frs].
  - change (body_of []) with (@nil Z) in *. change (len (@nil Z)) with 0 in *. cbn [app] in Htail. unfold read_frame. change (header_length 4) with 10.
    apply wp_bind, wp_input_bytes; [done|done|lia|lia| |].
    + intros s1 _. rewrite Htail. change (Z.to_nat 10) with 10%nat.
      assert (byte_at (take 10 (zeros (Z.to_nat pad) ++ rest)) 0 = 0) as ->.
      { destruct (Z.to_nat pad) eqn:Epad; [lia|]. done. }
      rewrite Z.eqb_refl. cbn [orb]. by apply wp_ret, wp_ret.
    + intros e s1 Hc. apply wp_ret. intros Hcalm. by destruct Hc.
  - inversion Hfrs as [|? ? Hfr Hfrs']; subst. change (body_of (fr :: frs)) with (frame_bytes fr ++ body_of frs) in *. rewrite <- app_assoc in Htail.
    rewrite len_app in *. pose proof (len_nonneg (frame_bytes fr)). pose proof (len_nonneg (body_of frs)).
    eapply wp_mono; [apply (wp_read_frame fr (body_of frs ++ zeros (Z.to_nat pad) ++ rest)); [done|exact Htail|done|lia]| |].
    + intros r s1 (Hp1 & i' & -> & Hi'). cbn [fold_left]. replace (len (frame_bytes fr) + len (body_of frs) + pad - len (frame_bytes fr)) with (len (body_of frs) + pad) by lia.
      assert (0 < len (frame_bytes fr)).
      { destruct Hfr as [(Hok & _) _]. pose proof (frame_bytes_length fr Hok) as E. unfold len. lia. }
      apply IH; [lia| |done|done|lia|lia].
      rewrite Hp1, <- tail_tail, Htail by lia. apply drop_app_length'. unfold len. lia.
    + intros e s1 Hc. apply wp_ret. intros Hcalm. by destruct Hc.
Qed.

(** The tag in front of a file. *)
Lemma wp_v2 include frs pad audio s :
  position s = 0 -> content = tag_bytes (body_of frs) pad ++ audio -> Forall readable frs -> 10 <= pad -> len (body_of frs) + pad < 2 ^ 28 ->
  let found := fold_left read_one frs (mkFound default_metadata (if include : bool then Some None else None)) in
  wp (v2_with_cover include) (fun r _ => calm -> r = found) (fun _ _ => ~ calm) s.
Proof.
  intros Hp Hcontent Hfrs Hpad Hmax found. set (body := body_of frs ++ zeros (Z.to_nat pad)). pose proof (len_nonneg (body_of frs)).
  assert (len body = len (body_of frs) + pad) as Hbody.
  { unfold body. rewrite len_app. unfold zeros. unfold len at 2. rewrite repeat_length. lia. }
  set (h := str_bytes "ID3" ++ [4; 0; 0] ++ put_syncsafe (len body)). assert (length h = 10%nat) as Hh by done.
  assert (content = h ++ body ++ audio) as Hc by (rewrite Hcontent; unfold tag_bytes; fold (zeros (Z.to_nat pad)) body h; by rewrite <- !app_assoc).
  pose proof (len_nonneg audio). assert (len content = 10 + len body + len audio) as Hlen by (rewrite Hc, !len_app; unfold len at 1; rewrite Hh; lia).
  unfold v2_with_cover. apply wp_bind, wp_take; [lia|done| |].
  2: { intros e s1 Hcalm _ Hx. specialize (Hcalm Hx). rewrite len_tail in Hcalm by lia. lia. }
  intros s1 Hp1 _ _. assert (take (Z.to_nat 10) (tail_at (position s)) = h) as ->.
  { rewrite Hp. unfold tail_at. rewrite drop_0, Hc. by apply take_app_length'. }
  change (begins (str_bytes "ID3") h) with true. change (byte_at h 3) with 4. change (byte_at h 5) with 0. change (drop 6 h) with (put_syncsafe (len body)).
  cbn [negb]. change (in_range 2 4 4) with true. cbn [negb orb]. rewrite syncsafe_safe, <- (app_nil_r (put_syncsafe _)), syncsafe_put by lia.
  apply wp_bind, wp_seek; [|by intros e s2 Hx _]. intros s2 _ _. unfold sat_sub. rewrite (proj2 (Z.ltb_ge _ (len body))) by lia.
  apply wp_bind, wp_seek; [|by intros e s3 Hx _]. intros s3 Hp3 _. cbv zeta. change (4 <? 4) with false. cbn [andb].
  unfold skip_extended. change (flagged 0 64) with false. change (flagged 0 128) with false. rewrite andb_false_r. apply wp_bind, wp_ret.
  rewrite Hbody. apply wp_bind. eapply wp_mono; [apply (wp_frames _ frs pad audio)| |done]; [lia| |done|lia|cbn [remaining]; lia|lia| ].
  { rewrite Hp3. unfold tail_at. rewrite Hc, drop_app_length' by done. unfold body. by rewrite <- app_assoc. }
  intros r s4 Hr. destruct r as [f error]. destruct error as [e|]; [|apply wp_ret; intros Hcalm; by injection (Hr Hcalm) as ->].
  destruct (_ && _); [apply wp_throw; intros Hcalm; by specialize (Hr Hcalm)|apply wp_ret; intros Hcalm; by specialize (Hr Hcalm)].
Qed.
End reader.

(** ** The fields of an edit *)

Section fields.
Context `{Unicode} `{Images}.

(** The text fields of the editor that have a frame and a field of their own, with the ids that set it. *)
Definition ID3_FIELDS : list (string * (AudioMetadata -> string) * list string) :=
  [("title", title, ["TIT2"]); ("artist", artist, ["TPE1"]); ("album", album, ["TALB"]); ("album_artist", album_artist, ["TPE2"]);
   ("date", year, ["TYER"; "TDRC"]); ("label", label, ["TPUB"]); ("copyright", copyright, ["TCOP"]); ("composer", composer, ["TCOM"]);
   ("isrc", isrc, ["TSRC"])]%string.

Definition id_of (names : list string) (id : string) : bool := existsb (String.eqb id) names.
Definition text_value (data : bytes) : string := first_value match data with encoding :: body => decode encoding body | [] => ""%string end.

Lemma apply_user_field f proj names m data : (f, proj, names) ∈ ID3_FIELDS -> proj (apply_user m 4 data) = proj m.
Proof.
  intros Hin. unfold apply_user. destruct (user_text data) as [description value]. cbv zeta. change (4 =? 2) with false. cbn [negb].
  unfold ID3_FIELDS in Hin. rewrite !elem_of_cons, elem_of_nil in Hin. destruct m.
  repeat (destruct Hin as [[= -> -> ->]|Hin]; [repeat case_bool; reflexivity|]). done.
Qed.

Lemma apply_id3_field f proj names m id data : (f, proj, names) ∈ ID3_FIELDS ->
  proj (apply_frame m 4 id data) = if id_of names id then text_value data else proj m.
Proof.
  intros Hin. unfold apply_frame. change (4 =? 2) with false. cbv iota. fold (text_value data). generalize (text_value data). intros value.
  pose proof (apply_user_field f proj names m data Hin) as Huser. unfold apply_long, id_of. cbv zeta. rename id into name.
  unfold ID3_FIELDS in Hin. rewrite !elem_of_cons, elem_of_nil in Hin.
  repeat (destruct Hin as [[= -> -> ->]|Hin]); [..|done]; cbn [existsb];
    repeat (match goal with |- context [String.eqb name ?n] => destruct (String.eqb_spec name n) as [->|_] end;
            [cbn; repeat case_bool; first [exact Huser|destruct m; reflexivity]|cbn [orb andb negb]]); reflexivity.
Qed.

(** The frames that set a field. *)
Definition frame_sets (names : list string) (fr : Frame) : bool := id_of names (bytes_to_str (frame_id fr)) && (len (frame_data fr) <=? 32 * 2 ^ 20).

Lemma read_one_field f proj names found fr : (f, proj, names) ∈ ID3_FIELDS -> f_cover found = None ->
  f_cover (read_one found fr) = None /\
  proj (f_metadata (read_one found fr)) = if frame_sets names fr then text_value (frame_data fr) else proj (f_metadata found).
Proof.
  intros Hin Hcover. unfold read_one, frame_sets. cbv zeta. generalize (bytes_to_str (frame_id fr)). intros id.
  assert (id_of names id = true -> is_picture id = false /\ wanted id found = true) as Hwanted.
  { unfold id_of. intros (name & Hname & ->%String.eqb_eq)%existsb_exists. unfold ID3_FIELDS in Hin. rewrite !elem_of_cons, elem_of_nil in Hin.
    repeat (destruct Hin as [[= -> -> ->]|Hin]; [cbn [In] in Hname; destruct_or? Hname; subst; done|]). done. }
  pose proof (fun m data => apply_id3_field f proj names m id data Hin) as Hfield.
  destruct (wanted id found) eqn:Ew; cbn [andb].
  - destruct (len (frame_data fr) <=? 32 * 2 ^ 20); [|by rewrite andb_false_r]. rewrite andb_true_r. unfold take_frame.
    destruct (is_picture id) eqn:Ep.
    + rewrite Hcover. split; [done|]. destruct (id_of names id); [by destruct Hwanted|done].
    + cbn [f_cover f_metadata]. split; [done|]. apply Hfield.
  - split; [done|]. destruct (id_of names id); [by destruct Hwanted|done].
Qed.

Lemma field_of_frames f proj names found frs : (f, proj, names) ∈ ID3_FIELDS -> f_cover found = None ->
  proj (f_metadata (fold_left read_one frs found)) =
    default (proj (f_metadata found)) (last (map (fun fr => text_value (frame_data fr)) (List.filter (frame_sets names) frs))).
Proof.
  intros Hin. revert found. induction frs as [|fr frs IH]; intros found Hcover; [done|]. cbn [fold_left List.filter].
  destruct (read_one_field f proj names found fr Hin Hcover) as [Hc Hproj]. rewrite IH, Hproj by done.
  destruct (frame_sets names fr); [|done]. cbn [map]. rewrite last_cons. by destruct (last _).
Qed.

(** ** The frames of an edit that set a field *)

Definition id_bytes (fr : Frame) : Prop := Forall byte_ok (frame_id fr).

Lemma frames_in_bytes fuel version flags acc data r :
  Forall byte_ok data -> Forall id_bytes acc -> frames_in fuel version flags acc data = Ok r -> Forall id_bytes r.
Proof.
  revert acc data. induction fuel as [|fuel IH]; intros acc data Hd Ha; cbn [frames_in]; [by intros [= <-]|].
  destruct (_ <? _); [|by intros [= <-]]. destruct (_ <=? _); [done|].
  destruct (next_frame version data) as [[[[id ff] payload] rest]|] eqn:E; [|by intros [= <-]].
  unfold next_frame in E. cbv zeta in E. destruct (_ =? 0); [done|]. destruct (_ || _); [done|]. injection E as <- <- <- <-.
  apply IH; [by apply Forall_drop, Forall_drop|]. destruct (frame_of _ _ _ _ _) as [f|] eqn:Ef; [|done]. apply Forall_app. split; [done|].
  apply Forall_singleton. unfold frame_of in Ef. apply bind_Some in Ef as (body & _ & Ef).
  destruct (version =? 2); [|injection Ef as <-; by apply Forall_take]. unfold long_frame in Ef.
  destruct (List.find _ short_ids) as [[short long]|]; [injection Ef as <-; apply str_bytes_ok|].
  case_bool_decide; [|done]. destruct (_ <? 5); [done|]. injection Ef as <-. apply str_bytes_ok.
Qed.

Lemma read_tag_bytes l frames start : Forall byte_ok l -> read_tag l = Ok (frames, start) -> Forall id_bytes frames.
Proof.
  intros Hl. unfold read_tag. destruct (_ || _); [intros [= <- <-]; constructor|]. cbv zeta.
  destruct (_ =? 0); [done|]. destruct (_ <? _); [done|]. destruct (_ <? _); [done|].
  destruct (frames_in _ _ _ _ _) as [r|] eqn:E; [|done]. cbn [bind_result]. intros [= <- <-].
  eapply frames_in_bytes; [|constructor|exact E]. unfold tag_data, without_footer, slice. apply Forall_drop.
  case_bool; [apply Forall_take|]; by apply Forall_take, Forall_drop.
Qed.

Lemma field_entry f proj names : (f, proj, names) ∈ ID3_FIELDS ->
  exists id aliases, In (f, id, aliases) TEXT_FRAMES /\ forall name, In name names -> In name (id :: aliases).
Proof.
  unfold ID3_FIELDS. rewrite !elem_of_cons, elem_of_nil. intros Hin.
  repeat (destruct Hin as [[= -> -> ->]|Hin];
    [eexists _, _; split; [unfold TEXT_FRAMES; repeat (first [left; reflexivity|right])|intros name; cbn [In]; tauto]|]). done.
Qed.

(** Every id that sets a field is dropped with the field. *)
Lemma kept_sets_no f proj names fields cover fr :
  (f, proj, names) ∈ ID3_FIELDS -> is_Some (fields !! f) -> id_bytes fr -> kept_frame fields cover fr = true -> frame_sets names fr = false.
Proof.
  intros Hin [v Hv] Hb Hkept. unfold kept_frame in Hkept. apply andb_true_iff in Hkept as [Hkept%negb_true_iff _].
  unfold frame_sets. destruct (id_of names (bytes_to_str (frame_id fr))) eqn:E; [|done]. exfalso.
  unfold id_of in E. apply existsb_exists in E as (name & Hname & Hid%String.eqb_eq).
  assert (frame_id fr = str_bytes name) as Hfr by (by rewrite <- Hid, str_bytes_to_str).
  enough (existsb (fun id => has_id id fr) (dropped_ids fields cover) = true) by congruence.
  apply existsb_exists. exists name. split; [|unfold has_id; by apply bool_decide_eq_true_2].
  unfold dropped_ids. apply in_or_app. left. destruct (field_entry f proj names Hin) as (id & aliases & He & Hall).
  apply in_flat_map. exists (f, id, aliases). split; [done|]. unfold text_id. rewrite Hv. by apply Hall.
Qed.

Lemma sets_frame names id data : frame_sets names (frame id data) = id_of names id && (len data <=? 32 * 2 ^ 20).
Proof. unfold frame_sets, frame. cbn [frame_id frame_data]. by rewrite bytes_to_str_bytes. Qed.

Lemma sets_none names l : (forall fr, In fr l -> frame_sets names fr = false) -> List.filter (frame_sets names) l = [].
Proof.
  intros Hl. induction l as [|fr l IH]; [done|]. cbn [List.filter]. rewrite (Hl fr) by (by left). apply IH. intros x Hx. apply Hl. by right.
Qed.

(** What an edit adds besides texts sets no field of these. *)
Lemma other_added_no f proj names frames fields cover mime : (f, proj, names) ∈ ID3_FIELDS ->
  List.filter (frame_sets names) (flat_map (added_language fields) LANGUAGE_FRAMES ++ flat_map (added_index frames fields) INDEX_FRAMES
    ++ flat_map (added_user fields) USER_FRAMES ++ added_cover cover mime) = [].
Proof.
  intros Hin. assert (forallb (fun id => negb (id_of names id)) ["COMM"; "USLT"; "TRCK"; "TPOS"; "TXXX"; "APIC"]%string = true) as Hno.
  { unfold ID3_FIELDS in Hin. rewrite !elem_of_cons, elem_of_nil in Hin. by repeat (destruct Hin as [[= -> -> ->]|Hin]; [reflexivity|]). }
  cbn [forallb] in Hno. rewrite !andb_true_iff, !negb_true_iff in Hno. destruct Hno as (H1 & H2 & H3 & H4 & H5 & H6 & _).
  apply sets_none. intros fr Hfr. rewrite !in_app_iff, !in_flat_map in Hfr.
  destruct Hfr as [([field id] & He & Hfr)|[([[field total] id] & He & Hfr)|[([field d] & He & Hfr)|Hfr]]].
  - unfold added_language in Hfr. destruct (fields !! field); [|done]. destruct (blank _); [done|]. destruct Hfr as [<-|[]]. rewrite sets_frame.
    unfold LANGUAGE_FRAMES in He. cbn [In] in He. destruct_or? He; simplify_eq; by rewrite ?H1, ?H2.
  - unfold added_index in Hfr. destruct (_ || _); [|done]. cbv zeta in Hfr. destruct (is_empty _); [done|]. destruct Hfr as [<-|[]]. rewrite sets_frame.
    unfold INDEX_FRAMES in He. cbn [In] in He. destruct_or? He; simplify_eq; by rewrite ?H3, ?H4.
  - unfold added_user in Hfr. destruct (fields !! field); [|done]. destruct (blank _); [done|]. destruct Hfr as [<-|[]]. by rewrite sets_frame, H5.
  - unfold added_cover in Hfr. destruct cover; [|done]. destruct Hfr as [<-|[]]. by rewrite sets_frame, H6.
Qed.

Lemma edited_sets f proj names fields cover mime frames v :
  (f, proj, names) ∈ ID3_FIELDS -> fields !! f = Some v -> blank v = false -> len (str_bytes v) < 32 * 2 ^ 20 -> Forall id_bytes frames ->
  exists id, List.filter (frame_sets names) (edited_frames fields cover mime frames) = [frame id (text_frame v)].
Proof.
  intros Hin Hv Hblank Hlen Hids. unfold edited_frames. rewrite List.filter_app, (sets_none names).
  2: { intros fr [Hfr Hkept]%filter_In. eapply (kept_sets_no f proj names fields cover); [done|by rewrite Hv| |done].
       by apply (proj1 (List.Forall_forall _ _) Hids). }
  cbn [app]. rewrite List.filter_app. rewrite (other_added_no f proj), app_nil_r by done.
  assert (forall e, id_of names e.1.2 = false -> List.filter (frame_sets names) (added_text fields e) = []) as Hno.
  { intros [[f' id] aliases] Hid. cbn [fst snd] in Hid. unfold added_text. destruct (fields !! f') as [value|]; [|done]. destruct (blank value); [done|].
    cbn [List.filter]. by rewrite sets_frame, Hid. }
  assert (forall e, e.1.1 = f -> id_of names e.1.2 = true -> List.filter (frame_sets names) (added_text fields e) = [frame e.1.2 (text_frame v)]) as Hyes.
  { intros [[f' id] aliases] Hf Hid. cbn [fst snd] in *. subst f'. unfold added_text. rewrite Hv, Hblank. cbn [List.filter]. rewrite sets_frame, Hid.
    unfold text_frame. rewrite len_cons. by rewrite (proj2 (Z.leb_le _ (32 * 2 ^ 20))) by lia. }
  unfold TEXT_FRAMES. cbn [flat_map]. rewrite !List.filter_app. unfold ID3_FIELDS in Hin. rewrite !elem_of_cons, elem_of_nil in Hin.
  repeat (destruct Hin as [[= -> -> ->]|Hin]); [..|done].
  all: repeat match goal with |- context [List.filter (frame_sets ?ns) (added_text _ ?e)] =>
         first [rewrite (Hno e eq_refl)|rewrite (Hyes e eq_refl eq_refl)] end; eexists; reflexivity.
Qed.

End fields.

(** ** Texts *)

Lemma drop_zeros_none l : Forall (fun b => b <> 0) l -> drop_zeros l = l.
Proof. intros Hl. destruct Hl as [|b l Hb _]; [done|]. cbn [drop_zeros]. by destruct (Z.eqb_spec b 0). Qed.

Lemma position_none l : Forall (fun b => b <> 0) l -> position_of 0 l = None.
Proof. induction 1 as [|b l Hb _ IH]; [done|]. cbn [position_of]. rewrite IH. by destruct (Z.eqb_spec b 0). Qed.

(** A text without zeros is read back as it was written. *)
Lemma text_value_frame v : is_str v -> Forall (fun b => b <> 0) (str_bytes v) -> text_value (text_frame v) = v.
Proof.
  intros Hs Hz. unfold text_value, text_frame, decode. change (negb (is_utf16 3)) with true. cbv iota.
  rewrite utf8_valid_same by done. unfold trim_zeros. rewrite drop_zeros_none by (by apply Forall_rev). rewrite rev_involutive, bytes_to_str_bytes.
  unfold first_value. by rewrite position_none.
Qed.

(** The old tag fills in only what is missing. *)
Lemma fill_keeps f proj names m old : (f, proj, names) ∈ ID3_FIELDS -> is_empty (proj m) = false -> proj (fill m old) = proj m.
Proof.
  intros Hin Hm. unfold ID3_FIELDS in Hin. rewrite !elem_of_cons, elem_of_nil in Hin. unfold fill.
  destruct m. repeat (destruct Hin as [[= -> -> ->]|Hin]; [repeat (cbn -[is_empty] in *; case_bool); cbn -[is_empty] in *; first [reflexivity|congruence]|]). done.
Qed.

Section read_back.
Context `{Unicode} `{Splits} `{Images}.

Lemma id3_read_field {S0 : Source} f proj names m t :
  (f, proj, names) ∈ ID3_FIELDS -> is_empty (proj m) = false -> (v2 t).1 = Ok m -> exists m', (id3_read t).1 = Ok m' /\ proj m' = proj m.
Proof.
  intros Hin Hm Hv2. unfold id3_read, bind at 1, attempt at 1. destruct (v2 t) as [r s1]. cbn [fst] in Hv2. subst r.
  assert (forall m' s', is_empty (proj m') = false ->
    (if bool_decide (m' = default_metadata) then throw "no ID3 tags found"%string else ret m' : St Io string AudioMetadata) s' = (Ok m', s')) as Hend.
  { intros m' s' Hm'. rewrite bool_decide_eq_false_2; [done|]. intros ->. unfold ID3_FIELDS in Hin. rewrite !elem_of_cons, elem_of_nil in Hin.
    repeat (destruct Hin as [[= -> -> ->]|Hin]; [done|]). done. }
  destruct (is_empty (title m) || is_empty (artist m)).
  - unfold bind, attempt. destruct (v1 s1) as [[old|e] s2]; unfold ret at 1.
    + exists (fill m old). pose proof (fill_keeps f proj names m old Hin Hm) as Hf. by rewrite Hend by (by rewrite Hf).
    + exists m. by rewrite Hend.
  - unfold bind. unfold ret at 1. exists m. by rewrite Hend.
Qed.

(** C16: What an edit of an MP3 file sets is what is read of the file it wrote.  If reading does not fail from outside,
    the frames read are exactly those the edit kept and added, and each text field that the edit named has the value
    it was given, also after the tag at the end of the file has filled in what is missing.  (Every frame has data,
    no id begins with the name of a footer, and the value has no zero in it and takes less than 32 MiB.) *)
Theorem mp3_read_back (before after : Source) fields cover frames start tick s' t :
  let given := artist_mode_fields fields in
  let edited := edited_frames given (not_empty cover) None frames in
  let read := f_metadata (fold_left read_one edited (mkFound default_metadata None)) in
  read_tag (@content before) = Ok (frames, start) ->
  @rewrite_mp3_tags before _ _ fields cover (mkIo tick 0 []) = (Ok tt, s') -> @content after = written s' -> position t = 0 ->
  Forall (fun fr => frame_data fr <> [] /\ begins (str_bytes "3DI") (frame_id fr) = false) edited -> @calm after ->
  (@v2 after _ _ t).1 = Ok read /\
  (forall f proj names v, (f, proj, names) ∈ ID3_FIELDS -> given !! f = Some v -> is_str v -> Forall (fun b => b <> 0) (str_bytes v) ->
     blank v = false -> len (str_bytes v) < 32 * 2 ^ 20 ->
     exists m, (@id3_read after _ _ t).1 = Ok m /\ proj m = v).
Proof.
  intros given edited read Htag Hrun Hafter Ht Hedited Hcalm. rewrite Forall_and in Hedited. destruct Hedited as [Hdata H3].
  pose proof (@wp_rewrite_mp3 _ _ before fields cover (mkIo tick 0 [])) as Hw. cbv zeta in Hw. fold given in Hw. unfold wp in Hw. rewrite Hrun in Hw.
  destruct Hw as (frames' & start' & Htag' & Hmax & Hw). rewrite Htag in Htag'. injection Htag' as <- <-. fold edited in Hmax, Hw. cbn [written app] in Hw.
  pose proof (@edited_found _ before given (not_empty cover) frames start Htag Hmax Hdata) as Hfound. fold edited in Hfound.
  assert (@v2 after _ _ t = (Ok read, (@v2 after _ _ t).2)) as Hv2.
  { pose proof (@wp_v2 after _ _ false edited 512 (drop (Z.to_nat start) (@content before)) t Ht) as Hread. cbv zeta in Hread. unfold wp in Hread.
    unfold v2, bind. destruct (@v2_with_cover after _ _ false t) as [[r|e] t']; cbn [fst snd ret] in *.
    - rewrite Hread; [done|by rewrite Hafter, Hw|by apply Forall_and|lia|unfold MAX_TAG_BYTES in Hmax; lia|done].
    - exfalso. apply Hread; [by rewrite Hafter, Hw|by apply Forall_and|lia|unfold MAX_TAG_BYTES in Hmax; lia|done]. }
  rewrite Hv2. split; [done|]. intros f proj names v Hin Hf Hs Hz Hblank Hlen.
  assert (proj read = v) as Hproj.
  { unfold read, edited. rewrite (field_of_frames f proj names) by done.
    destruct (edited_sets f proj names given (not_empty cover) None frames v Hin Hf Hblank Hlen) as [id ->].
    - eapply read_tag_bytes; [|exact Htag]. apply content_bytes.
    - cbn [map last default frame frame_data]. by apply text_value_frame. }
  rewrite <- Hproj. apply (id3_read_field f proj names read t Hin); [|by rewrite Hv2]. rewrite Hproj. by destruct v.
Qed.
End read_back.

(** ** An example *)

Module Mp3ReadExample.
Import Id3Example.

Definition song_frames : list Frame := [frame "TIT2" (3 :: str_bytes "Old"); frame "PRIV" [7; 8]].
Definition mp3_edited : bytes := new_tag ++ [255; 251; 9].
Lemma mp3_edited_bytes : Forall byte_ok mp3_edited.
Proof. vm_compute. repeat constructor; done. Qed.

Lemma mp3_read_back_witness :
  (@v2 (file_of mp3_edited mp3_edited_bytes) _ _ (mkIo 0 0 [])).1 =
    Ok (f_metadata (fold_left read_one (edited_frames (artist_mode_fields FlacExample.title) (not_empty None) None song_frames) (mkFound default_metadata None))) /\
  (forall f proj names v, (f, proj, names) ∈ ID3_FIELDS -> artist_mode_fields FlacExample.title !! f = Some v -> is_str v ->
     Forall (fun b => b <> 0) (str_bytes v) -> blank v = false -> len (str_bytes v) < 32 * 2 ^ 20 ->
     exists m, (@id3_read (file_of mp3_edited mp3_edited_bytes) _ _ (mkIo 0 0 [])).1 = Ok m /\ proj m = v).
Proof.
  eapply (mp3_read_back (file_of mp3_song mp3_song_bytes) (file_of mp3_edited mp3_edited_bytes) FlacExample.title None song_frames (10 + len old_frames) 0
    (@rewrite_mp3_tags (file_of mp3_song mp3_song_bytes) _ _ FlacExample.title None (mkIo 0 0 [])).2 (mkIo 0 0 [])).
  - vm_compute. reflexivity.
  - vm_compute. reflexivity.
  - vm_compute. reflexivity.
  - reflexivity.
  - vm_compute. repeat constructor; discriminate.
  - split_conj; done.
Defined.
End Mp3ReadExample.
