(* ===== verification/RiffReader.v ===== *)
(** * Reading RIFF and AIFF files: [riff] of [crates/core/src/tags/containers.rs], [embedded] of [id3.rs], [cover] of [write/id3.rs]

    The chunks of a WAVE or AIFF file are walked over once.  An ID3 tag within counts if it has a title, an artist or
    an album, and else the texts of the format itself do.

    A file is read plainly, or through an [ObservedReader], whose first failure is the result of all that follows:
    the errors of reads and seeks are told apart from those of a short or broken file. *)

From S2P Require Import Prelude Monads RustText UnicodeText Matching TagIo VorbisComments FlacTags TagFields Id3Text Id3Tags Mp4Tags TagComments FlacReader Id3Reader.

(** ** A cursor over bytes in memory *)

#[refine] Instance cursor (l : bytes) (checks : nat -> result unit string) : Source | 100 := {
  content := map (fun b => b mod 256) l;
  check_at := checks;
  read_at _ := Ok (length l);
  seek_error_at _ := None;
  write_error_at _ := None;
  partial_write_at _ := 0%nat }.
Proof. apply Forall_forall. intros b (b' & -> & _)%list_elem_of_fmap. unfold byte_ok. apply Z.mod_pos_bound. lia. Defined.

Definition no_checks (t : nat) : result unit string := Ok tt.

(** What a computation on a cursor gives; nothing outside is asked. *)
Definition in_memory {A} (l : bytes) (m : Source -> St Io string A) : result A string := (m (cursor l no_checks) (mkIo 0 0 [])).1.

(** ** The tag within a file *)

Section embedded.
Context `{Unicode} `{Images}.

(** The extended header goes where there is more behind it. *)
Definition embedded_body (data : bytes) : bytes :=
  let version := byte_at data 3 in
  let flags := byte_at data 5 in
  let size := syncsafe (take 4 (drop 6 data)) in
  let size := if (size =? 0) || (len data - 10 <? size) then len data - 10 else size in
  let body := slice data 10 (10 + size) in
  let body := if flagged flags 16 && (10 <=? len body) && begins (str_bytes "3DI") (drop (length body - 10) body)
              then take (length body - 10) body else body in
  if flagged flags 64 && (4 <=? len body) then
    let size := if version =? 3 then from_be (take 4 body) else if version =? 4 then syncsafe (take 4 body) else 0 in
    let skip := if size + 4 <=? len body then size + 4 else size in
    if (0 <? size) && (skip <? len body) then drop (Z.to_nat skip) body else body
  else body.

Definition embedded (data : bytes) : result AudioMetadata string :=
  if (len data <? 10) || negb (begins (str_bytes "ID3") data) then Err "no ID3v2 header"%string
  else
    let body := embedded_body data in
    match in_memory body (fun src => all_frames (byte_at data 3) false (flagged (byte_at data 5) 128) (len body)
                                      (mkFound default_metadata None) (mkInput (len body) false)) with
    | Ok (found, _) => Ok (f_metadata found)
    | Err _ => Ok default_metadata
    end.

(** [write::embedded_cover]: the first picture. *)
Definition embedded_cover (tag : bytes) : option (bytes * string) :=
  match in_memory tag (fun src => read_frames) with
  | Ok (frames, _) =>
    f ← List.find (has_id "APIC") frames;
    picture ← picture_frame (frame_data f) 4;
    Some (cover_data picture, mime picture)
  | Err _ => None
  end.
End embedded.

(** ** The texts of the format *)

Definition Info : Type := gmap string string.

Fixpoint info_loop (fuel : nat) (data : bytes) (info : Info) : Info :=
  match fuel with
  | O => info
  | S fuel =>
    if len data <? 8 then info
    else
      let length := from_le (take 4 (drop 4 data)) in
      let rest := drop 8 data in
      if (length =? 0) || (len rest <? length) then info
      else
        info_loop fuel (drop (Z.to_nat (length + length mod 2)) rest)
          (<[text_utf8 (take 4 data) := trim (trim_end_nul (text_utf8 (take (Z.to_nat length) rest)))]> info)
  end.

(** [riff_info]; each entry takes eight bytes and more. *)
Definition riff_info (data : bytes) (info : Info) : Info :=
  if begins (str_bytes "INFO") data then info_loop (length data) (drop 4 data) info else info.

(** ** The chunks *)

Inductive Fault := Outside (e : string) | Broken (e : string).
Definition fault_text (f : Fault) : string := match f with Outside e => e | Broken e => e end.

Definition is_tag_kind (kind : bytes) : bool := bool_decide (kind = str_bytes "ID3 ") || bool_decide (kind = str_bytes "id3 ").
Definition one_of_kinds (kinds : list string) (kind : bytes) : bool := existsb (fun k => bool_decide (kind = str_bytes k)) kinds.
Definition chunk_size (aiff : bool) (field : bytes) : Z := if aiff then from_be field else from_le field.

Section chunks.
Context `{Source} (observed : bool).
Abbreviation P := (St Io Fault).

(** [exact] with the reason of its failure. *)
Fixpoint exact_fault (fuel : nat) (need : Z) (acc : bytes) : P bytes :=
  match fuel with
  | O => ret acc
  | S fuel =>
    if need =? 0 then ret acc
    else
      do b <- mapping Outside (read need);
      match b with
      | [] => throw (Broken (match acc with [] => "EOF" | _ => "unexpected EOF" end)%string)
      | _ => exact_fault fuel (need - len b) (acc ++ b)
      end
  end.
Definition bytes_fault (n : Z) : P bytes := exact_fault (Z.to_nat n) n [].
Definition seek_fault (p : Z) : P Z := mapping Outside (seek p).

(** A failure that the reader passes over, unless it is observed. *)
Definition tolerated {A} (m : P A) : P (option A) :=
  do r <- attempt m;
  match r with
  | Ok a => ret (Some a)
  | Err (Outside e) => if observed then throw (Outside e) else ret None
  | Err (Broken _) => ret None
  end.

(** What the walk has found: the last ID3 tag and the texts. *)
Abbreviation Chunks := (bytes * Info)%type.

Definition wanted_chunk (aiff : bool) (kind : bytes) : bool :=
  is_tag_kind kind || if aiff then one_of_kinds ["NAME"; "AUTH"; "ANNO"; "(c) "]%string kind else bool_decide (kind = str_bytes "LIST").

Definition take_chunk (aiff : bool) (kind data : bytes) (c : Chunks) : Chunks :=
  if is_tag_kind kind then (data, c.2)
  else if aiff then (c.1, <[text_utf8 kind := trim_end_nul (trim (text_utf8 data))]> c.2)
  else (c.1, riff_info data c.2).

Definition read_chunk (aiff : bool) (header : bytes) (c : Chunks) : P Chunks :=
  let kind := take 4 header in
  let length := chunk_size aiff (drop 4 header) in
  if wanted_chunk aiff kind && (0 <? length) && (length <=? 16 * 2 ^ 20) then
    do data <- tolerated (bytes_fault length);
    do p <- gets position;
    seek_fault (p + length mod 2);;
    ret (match data with Some data => take_chunk aiff kind data c | None => c end)
  else
    do p <- gets position;
    seek_fault (p + length + length mod 2);;
    ret c.

(** Each pass reads eight bytes. *)
Fixpoint chunks_loop (fuel : nat) (aiff : bool) (c : Chunks) : P Chunks :=
  match fuel with
  | O => throw (Broken "out of fuel")
  | S fuel =>
    do header <- tolerated (bytes_fault 8);
    match header with
    | None => ret c
    | Some header => do c <- read_chunk aiff header c; chunks_loop fuel aiff c
    end
  end.

Definition riff_magic (aiff : bool) (header : bytes) : bool :=
  if aiff then begins (str_bytes "FORM") header && one_of_kinds ["AIFF"; "AIFC"]%string (drop 8 header)
  else begins (str_bytes "RIFF") header && bool_decide (drop 8 header = str_bytes "WAVE").

Definition riff_chunks (aiff : bool) : P Chunks :=
  do header <- bytes_fault 12;
  if negb (riff_magic aiff header) then throw (Broken (if aiff then "not an AIFF file" else "not a WAVE file")%string)
  else chunks_loop (S (length content)) aiff ([], ∅).
End chunks.

(** ** Metadata *)

Definition has_tags (m : AudioMetadata) : bool := negb (is_empty (title m)) || negb (is_empty (artist m)) || negb (is_empty (album m)).

Definition text_metadata (info : Info) (aiff : bool) : AudioMetadata :=
  let get key := default ""%string (info !! key) in
  if aiff then
    set_copyright (get "(c) "%string) (set_comment (get "ANNO"%string) (set_artist (get "AUTH"%string) (set_title (get "NAME"%string) default_metadata)))
  else
    let date := get "ICRD"%string in
    let year := if 4 <=? len (str_bytes date) then text_utf8 (take 4 (str_bytes date)) else ""%string in
    let number := default 0 (parse_i64 (trim (get "ITRK"%string))) in
    set_track (number, 0) (set_composer (get "IMUS"%string) (set_copyright (get "ICOP"%string) (set_comment (get "ICMT"%string)
      (set_date date (set_year year (set_genre (genre_name (get "IGNR"%string)) (set_album (get "IPRD"%string)
        (set_artist (get "IART"%string) (set_title (get "INAM"%string) default_metadata))))))))).

Section riff.
Context `{Unicode} `{Images}.

Definition riff_metadata (tag : bytes) (info : Info) (aiff : bool) : result AudioMetadata string :=
  let texts := text_metadata info aiff in
  let of_texts := if has_tags texts then Ok texts else Err (if aiff then "no AIFF tags found" else "no WAV tags found")%string in
  match embedded tag with
  | Ok m => if has_tags m then Ok m else of_texts
  | Err _ => of_texts
  end.

Definition riff `{Source} (observed aiff : bool) : St Io Fault AudioMetadata :=
  do c <- riff_chunks observed aiff;
  match riff_metadata c.1 c.2 aiff with Ok m => ret m | Err e => throw (Broken e) end.

Definition riff_cover `{Source} (observed aiff : bool) : St Io Fault CoverArt :=
  do r <- attempt (riff_chunks observed aiff);
  match r with
  | Ok c => match embedded_cover c.1 with Some (data, mime) => ret (mkCover data mime) | None => throw (Broken "no embedded cover") end
  | Err (Outside e) => if observed then throw (Outside e) else throw (Broken "no embedded cover")
  | Err (Broken _) => throw (Broken "no embedded cover")
  end.
End riff.
