(* ===== verification/RiffTags.v ===== *)
(** * Editing the tags of RIFF and AIFF files: [crates/core/src/tags/write/riff.rs]

    The editor reads the metadata of the file, drops its ID3 chunks, edits its INFO texts, and puts a new ID3 chunk
    behind the last chunk; the size of the whole follows.  An edit that only clears the ReplayGain fields edits the
    frames of the ID3 chunks where they are. *)

From S2P Require Import Prelude Monads RustText UnicodeText Matching TagIo VorbisComments FlacTags TagFields Id3Text Id3Tags CharText Paths FlacReader Id3Reader RiffReader.

(** ** INFO texts *)

Definition INFO_KINDS : list (string * string) :=
  [("title", "INAM"); ("artist", "IART"); ("album", "IPRD"); ("date", "ICRD"); ("genre", "IGNR"); ("comment", "ICMT");
   ("copyright", "ICOP"); ("composer", "IMUS")]%string.

(** [info_fields]: the texts of the edited fields under their kinds. *)
Definition info_fields (edited current : Fields) : Fields :=
  let result := fold_left (fun r '(f, kind) => if given edited f then <[kind := default ""%string (current !! f)]> r else r) INFO_KINDS ∅ in
  if given edited "track_number" || given edited "track_total"
  then <["ITRK"%string := edit_index (0, 0) current "track_number" "track_total"]> result
  else result.

Definition info_alias (kind : bytes) : bytes :=
  if bool_decide (kind = str_bytes "IPRT") then str_bytes "ITRK" else if bool_decide (kind = str_bytes "IWRI") then str_bytes "IMUS" else kind.
Definition info_given (fields : Fields) (kind : bytes) : bool := given fields (bytes_to_str (info_alias kind)).

Definition info_bytes (kind value : string) : bytes :=
  let size := len (str_bytes value) + 1 in
  str_bytes kind ++ le_bytes 4 size ++ str_bytes value ++ [0] ++ if size mod 2 =? 1 then [0] else [].

Section edit_info.
Context `{Source}.
Abbreviation P := (St Io string).

(** The entries that stay; each takes eight bytes or more. *)
Fixpoint kept_info (fuel : nat) (fields : Fields) (body data : bytes) : P bytes :=
  match fuel with
  | O => ret body
  | S fuel =>
    match data with
    | [] => ret body
    | _ =>
      check;;
      if len data <? 8 then throw "invalid RIFF INFO header"%string
      else
        let kind := take 4 data in
        let size := from_le (take 4 (drop 4 data)) in
        let end_ := 8 + size + size mod 2 in
        if len data <? end_ then throw "invalid RIFF INFO chunk size"%string
        else kept_info fuel fields (if info_given fields kind then body else body ++ take (Z.to_nat end_) data) (drop (Z.to_nat end_) data)
    end
  end.

Fixpoint put_info (entries : list (string * string)) (body : bytes) : P bytes :=
  match entries with
  | [] => ret body
  | (kind, value) :: entries =>
    check;;
    if is_empty (trim value) then put_info entries body
    else
      let size := len (str_bytes value) + 1 in
      if MAX_TAG_BYTES <? len body + 8 + size + size mod 2 then throw "RIFF INFO chunk exceeds 64 MiB"%string
      else put_info entries (body ++ info_bytes kind value)
  end.

(** [edit_info], of the data behind the name INFO. *)
Definition edit_info (entries : bytes) (fields : Fields) : P bytes :=
  do body <- kept_info (length entries) fields (str_bytes "INFO") entries;
  do body <- put_info (btree_iter fields) body;
  ret (str_bytes "LIST" ++ le_bytes 4 (len body) ++ body).
End edit_info.

(** ** Tags within the file *)

Section tags.
Context `{Unicode} `{Images}.

(** A computation on a cursor that asks the checks of the outside. *)
Definition on_cursor `{Source} {A} (l : bytes) (m : Source -> St Io string A) : St Io string A :=
  fun s => let '(r, s') := m (cursor l check_at) (mkIo (tick s) 0 []) in (r, mkIo (tick s') (position s) (written s)).

Definition embedded_header `{Source} (tag : bytes) (fields : Fields) (cover : option (bytes * string)) : St Io string bytes :=
  on_cursor tag (fun src => do r <- edit_header fields (fst <$> cover) (snd <$> cover) 0; ret r.1).

Definition fresh `{Source} (fields : Fields) (cover : option (bytes * string)) : St Io string bytes := embedded_header [] fields cover.
End tags.

Definition size_bytes (aiff : bool) (n : Z) : bytes := if aiff then be_bytes 4 n else le_bytes 4 n.
Definition tag_chunk (aiff : bool) (kind tag : bytes) : bytes :=
  kind ++ size_bytes aiff (len tag) ++ tag ++ if len tag mod 2 =? 1 then [0] else [].

(** [Path::extension], in lower case. *)
Definition extension (path : string) : string :=
  match file_name (components (str_bytes path)) with
  | Some name =>
    match position_of 46 (rev name) with
    | Some n => if (S n <? length name)%nat then lower (bytes_to_str (drop (length name - n) name)) else ""%string
    | None => ""%string
    end
  | None => ""%string
  end.

Example extension_ex : map extension ["/a/b.PNG"; "b.tar.webp"; ".gif"; "a.gif/"; ".."; "x"]%string = ["png"; "webp"; ""; "gif"; ""; ""]%string.
Proof. vm_compute. reflexivity. Qed.

Definition riff_cover_mime (path : string) (cover : bytes) : string :=
  if (8 <=? len cover) && begins (137 :: str_bytes "PNG") cover then "image/png"
  else if (12 <=? len cover) && begins (str_bytes "RIFF") cover && begins (str_bytes "WEBP") (drop 8 cover) then "image/webp"
  else if begins (str_bytes "GIF87a") cover || begins (str_bytes "GIF89a") cover then "image/gif"
  else
    let ext := extension path in
    if String.eqb ext "png" then "image/png" else if String.eqb ext "webp" then "image/webp" else if String.eqb ext "gif" then "image/gif"
    else "image/jpeg".

(** ** The edit *)

Section edit.
Context `{Unicode} `{Splits} `{Images} {IN : Integers} `{Source}.
Abbreviation P := (St Io string).

(** What the walk over the chunks has found: the sections to replace, where the next chunk starts, the size of what
    stays, the old picture and the old tag of a WAVE file. *)
Record Walk := mkWalk {
  w_sections : list FileSection; w_start : Z; w_size : Z; w_cover : option (bytes * string); w_tag : option bytes }.

Definition gain_only (fields : Fields) : bool := (size fields =? 4)%nat && clears_replay_gain fields.

Section walk.
Context (aiff : bool) (fields info : Fields) (cover : option bytes) (length : Z).

(** An ID3 chunk whose frames are edited in place. *)
Definition edit_tag_chunk (kind : bytes) (size end_ : Z) (w : Walk) : P Walk :=
  if (MAX_TAG_BYTES <? size) || (length <? end_) then throw "invalid RIFF ID3 chunk size"%string
  else
    do data <- bytes_of size;
    do r <- on_cursor data (fun src => Id3Tags.header fields None);
    let chunk := tag_chunk aiff kind r.1 in
    ret (mkWalk (w_sections w ++ [mkSection (w_start w) end_ chunk]) end_ (w_size w + len chunk) (w_cover w) (w_tag w)).

(** An ID3 chunk that goes. *)
Definition drop_tag_chunk (kind : bytes) (size end_ : Z) (w : Walk) : P Walk :=
  do found <- (if (0 <? size) && (size <=? 16 * 2 ^ 20) && (end_ <=? length) && is_tag_kind kind then
                 do tag <- bytes_of size;
                 ret (if bool_decide (cover = None) then embedded_cover tag else w_cover w, if aiff then w_tag w else Some tag)
               else ret (w_cover w, w_tag w));
  ret (mkWalk (w_sections w ++ [mkSection (w_start w) (Z.min end_ length) []]) end_ (w_size w) found.1 found.2).

Definition other_chunk (kind : bytes) (size end_ : Z) (w : Walk) : P Walk :=
  if length <? end_ then throw "unexpected EOF while copying audio"%string
  else
    let keep := mkWalk (w_sections w) end_ (w_size w + (end_ - w_start w)) (w_cover w) (w_tag w) in
    if negb aiff && negb (bool_decide (info = ∅)) && bool_decide (kind = str_bytes "LIST") && (4 <=? size) then
      do name <- bytes_of 4;
      if bool_decide (name = str_bytes "INFO") then
        if MAX_TAG_BYTES <? size then throw "RIFF INFO chunk exceeds 64 MiB"%string
        else
          do entries <- bytes_of (size - 4);
          do data <- edit_info entries info;
          ret (mkWalk (w_sections w ++ [mkSection (w_start w) end_ data]) end_ (w_size w + len data) (w_cover w) (w_tag w))
      else ret keep
    else ret keep.

Definition edit_chunk (w : Walk) : P Walk :=
  seek (w_start w);;
  do header <- bytes_of 8;
  let kind := take 4 header in
  let size := chunk_size aiff (drop 4 header) in
  let end_ := w_start w + 8 + size + size mod 2 in
  if same_letters kind (str_bytes "id3 ") then
    if gain_only fields then edit_tag_chunk kind size end_ w else drop_tag_chunk kind size end_ w
  else other_chunk kind size end_ w.

Definition MAX_CHUNKS : nat := Z.to_nat 65536.

Fixpoint edit_chunks (fuel : nat) (w : Walk) : P Walk :=
  match fuel with
  | O => ret w
  | S fuel =>
    check;;
    if length <? w_start w + 8 then ret w else do w <- edit_chunk w; edit_chunks fuel w
  end.
End walk.

(** The metadata that an edit starts from: none if the file has no tags. *)
Definition old_metadata (aiff : bool) : P AudioMetadata :=
  do r <- attempt (seek_fault 0;; riff true aiff);
  match r with
  | Ok m => ret m
  | Err (Outside e) => throw e
  | Err (Broken _) => ret default_metadata
  end.

Definition size_section (aiff : bool) (body_size : Z) : P FileSection :=
  if 2 ^ 32 <=? body_size then throw "RIFF container exceeds 32-bit size"%string else ret (mkSection 4 8 (size_bytes aiff body_size)).

Definition cover_path (fields : Fields) : string := trim (default ""%string (fields !! "cover_path"%string)).

(** The picture of the new tag: the given one, or else the old one. *)
Definition new_cover (fields : Fields) (cover : option bytes) (old : option (bytes * string)) : P (option (bytes * string)) :=
  match cover with
  | None => if is_empty (cover_path fields) then ret old else throw "read cover art: file not found"%string
  | Some [] => throw "cover art is empty"%string
  | Some data => ret (Some (data, riff_cover_mime (cover_path fields) data))
  end.

Definition new_tag (tag_fields : Fields) (replace : bool) (cover : option (bytes * string)) (old : option bytes) : P bytes :=
  match old with
  | Some tag =>
    do r <- attempt (embedded_header tag tag_fields (if replace then cover else None));
    match r with Ok tag => ret tag | Err _ => fresh tag_fields cover end
  | None => fresh tag_fields cover
  end.

Definition edit (aiff : bool) (fields : Fields) (cover : option bytes) : P (list FileSection) :=
  do metadata <- old_metadata aiff;
  do length <- seek (len content);
  seek 0;;
  do header <- bytes_of 12;
  if negb (begins (str_bytes (if aiff then "FORM" else "RIFF")) header) then throw "unexpected container magic"%string
  else
    let tag_fields := metadata_fields metadata fields in
    let info := info_fields fields tag_fields in
    do w <- edit_chunks aiff fields info cover length MAX_CHUNKS (mkWalk [] 12 4 None None);
    if w_start w + 8 <=? length then throw "RIFF chunk count exceeds 65536"%string
    else if gain_only fields then
      do size <- size_section aiff (w_size w);
      ret (w_sections w ++ [size])
    else
      do cover' <- new_cover fields cover (w_cover w);
      do tag <- new_tag tag_fields (bool_decide (is_Some cover)) cover' (w_tag w);
      let chunk := tag_chunk aiff (str_bytes (if aiff then "ID3 " else "id3 ")) tag in
      do size <- size_section aiff (w_size w + len chunk);
      ret (w_sections w ++ [size; mkSection (Z.min (w_start w) length) length chunk]).

(** The branch of [rewrite_audio_tags] for WAVE and AIFF files. *)
Definition rewrite_riff_tags (aiff : bool) (fields : Fields) (cover : option bytes) : P unit :=
  check;;
  validate_fields fields;;
  let fields := artist_mode_fields fields in
  seek 0;;
  do sections <- edit aiff fields cover;
  write_sections sections.
End edit.
