(* ===== verification/RiffReaderSpec.v ===== *)
(** * Chunks and sections of RIFF files

    A file is a sequence of chunks.  An edit lists sections in the order of the file and one in front of them for the
    size; what it writes is the content between two places with the sections in it replaced. *)

From S2P Require Import Prelude RustText Monads UnicodeText TagIo VorbisComments FlacTags FlacHeader TagFields Id3Text TagComments FlacReader Id3Reader.
From S2P Require Import RiffReader RiffTags.

(** A chunk: its kind, the field of its size, and its data with the byte that pads it. *)
Record Chunk := mkChunk { ck_kind : bytes; ck_field : bytes; ck_data : bytes }.

Definition chunk_bytes (c : Chunk) : bytes := ck_kind c ++ ck_field c ++ ck_data c.
Definition chunks_bytes (cs : list Chunk) : bytes := concat (map chunk_bytes cs).
Definition ck_size (aiff : bool) (c : Chunk) : Z := chunk_size aiff (ck_field c).
Definition chunk_ok (aiff : bool) (c : Chunk) : Prop :=
  len (ck_kind c) = 4 /\ len (ck_field c) = 4 /\ 0 <= ck_size aiff c /\ len (ck_data c) = ck_size aiff c + ck_size aiff c mod 2.
(** The data without the padding. *)
Definition ck_body (aiff : bool) (c : Chunk) : bytes := take (Z.to_nat (ck_size aiff c)) (ck_data c).

Lemma chunks_bytes_app cs cs' : chunks_bytes (cs ++ cs') = chunks_bytes cs ++ chunks_bytes cs'.
Proof. unfold chunks_bytes. by rewrite map_app, concat_app. Qed.

Lemma chunks_bytes_one c : chunks_bytes [c] = chunk_bytes c.
Proof. unfold chunks_bytes. cbn. by rewrite app_nil_r. Qed.

Lemma mod_2 n : 0 <= n mod 2 < 2.
Proof. apply Z.mod_pos_bound. lia. Qed.

Lemma len_chunk aiff c : chunk_ok aiff c -> len (chunk_bytes c) = 8 + ck_size aiff c + ck_size aiff c mod 2.
Proof. intros (Hk & Hf & _ & Hd). unfold chunk_bytes. rewrite !len_app. lia. Qed.

Lemma chunk_size_nonneg aiff field : Forall byte_ok field -> 0 <= chunk_size aiff field.
Proof.
  intros Hf. unfold chunk_size, from_be. destruct aiff; [|apply from_le_bound, Hf]. apply from_le_bound. by apply Forall_rev.
Qed.

(** The chunk at a place of the content. *)
Definition chunk_at (aiff : bool) (l : bytes) (p : Z) : Chunk :=
  let header := slice l p (p + 8) in
  let n := chunk_size aiff (drop 4 header) in
  mkChunk (take 4 header) (drop 4 header) (slice l (p + 8) (p + 8 + n + n mod 2)).

Lemma header_bytes l p : Forall byte_ok l -> Forall byte_ok (drop 4 (slice l p (p + 8))).
Proof. intros Hl. unfold slice. by apply Forall_drop, Forall_take, Forall_drop. Qed.

Lemma chunk_at_ok aiff l p : Forall byte_ok l -> 0 <= p ->
  let c := chunk_at aiff l p in
  let end_ := p + 8 + ck_size aiff c + ck_size aiff c mod 2 in
  end_ <= len l -> chunk_ok aiff c /\ chunk_bytes c = slice l p end_ /\ ck_body aiff c = slice l (p + 8) (p + 8 + ck_size aiff c).
Proof.
  intros Hl Hp. unfold chunk_at. cbv zeta. pose proof (chunk_size_nonneg aiff _ (header_bytes l p Hl)) as Hn.
  pose proof (len_slice l p (p + 8)) as Hlen. pose proof (slice_app l p (p + 8)) as Happ.
  generalize dependent (slice l p (p + 8)). intros h Hn Hlen Happ. unfold chunk_ok, ck_size, chunk_bytes, ck_body, ck_size.
  cbn [ck_kind ck_field ck_data]. generalize dependent (chunk_size aiff (drop 4 h)). intros n Hn Hend. pose proof (mod_2 n).
  specialize (Hlen ltac:(lia) ltac:(lia)). split_conj.
  - unfold len in Hlen |- *. rewrite length_take. lia.
  - unfold len in Hlen |- *. rewrite length_drop. lia.
  - done.
  - rewrite len_slice; lia.
  - rewrite app_assoc, take_drop. apply Happ; lia.
  - unfold slice. rewrite take_take. f_equal. lia.
Qed.

(** A sequence of whole chunks is read back chunk by chunk. *)
Lemma chunk_at_app aiff c pre post : chunk_ok aiff c -> chunk_at aiff (pre ++ chunk_bytes c ++ post) (len pre) = c.
Proof.
  intros (Hk & Hf & Hn & Hd). destruct c as [k f d]. unfold chunk_at, ck_size, chunk_bytes in *. cbn [ck_kind ck_field ck_data] in *.
  assert (slice (pre ++ (k ++ f ++ d) ++ post) (len pre) (len pre + 8) = k ++ f) as ->.
  { erewrite slice_after by done. rewrite <- !app_assoc, app_assoc. apply take_app_length'. rewrite length_app. unfold len in *. lia. }
  rewrite drop_app_length', take_app_length' by (unfold len in *; lia). f_equal.
  rewrite (slice_after _ (pre ++ k ++ f) (d ++ post)); [|by rewrite <- !app_assoc|rewrite !len_app; lia].
  apply take_app_length'. unfold len in *. lia.
Qed.

(** ** Replaced sections *)

Fixpoint within (from : Z) (l : list FileSection) (to : Z) : Prop :=
  match l with
  | [] => from <= to
  | s :: l => from <= start s <= finish s /\ within (finish s) l to
  end.

Lemma within_le from l to : within from l to -> from <= to.
Proof. revert from. induction l as [|s l IH]; intros from; [done|]. intros (? & ?%IH). lia. Qed.

Lemma within_app from l s to to' : within from l to -> to <= start s <= finish s -> finish s <= to' -> within from (l ++ [s]) to'.
Proof.
  revert from. induction l as [|x l IH]; intros from; cbn [within app]; [lia|]. intros [? ?] ? ?. split; [done|]. by apply IH.
Qed.

Lemma within_weaken from l to to' : within from l to -> to <= to' -> within from l to'.
Proof. revert from. induction l as [|x l IH]; intros from; cbn [within]; [lia|]. intros [? ?] ?. split; [done|]. by apply IH. Qed.

(** The new section of the size comes first, and the last section last. *)
Lemma sort_within from l to a k : within from l to -> start a < from -> (k = [] \/ exists z, k = [z] /\ to <= start z) ->
  sort_sections (l ++ a :: k) = a :: l ++ k.
Proof.
  revert from. induction l as [|s l IH]; intros from Hl Ha Hk.
  { cbn [app]. destruct Hk as [->|(z & -> & Hz)]; [done|]. cbn in Hl |- *. by rewrite (proj2 (Z.leb_le _ _)) by lia. }
  cbn [within] in Hl. destruct Hl as [Hs Hl]. cbn [app sort_sections foldr] in *. fold (sort_sections (l ++ a :: k)). rewrite (IH (finish s)) by (done || lia).
  cbn [insert_section]. rewrite (proj2 (Z.leb_gt _ _)) by lia. f_equal. apply within_le in Hl as Hto.
  destruct l as [|x l]; cbn [app within] in *.
  - destruct Hk as [->|(z & -> & Hz)]; [done|]. cbn. by rewrite (proj2 (Z.leb_le _ _)) by lia.
  - cbn. by rewrite (proj2 (Z.leb_le _ _)) by lia.
Qed.

Section patched.
Context `{Source}.

(** The content between two places with the sections replaced. *)
Fixpoint patched (from : Z) (l : list FileSection) (to : Z) : bytes :=
  match l with
  | [] => slice content from to
  | s :: l => slice content from (start s) ++ data s ++ patched (finish s) l to
  end.

Lemma patched_extend from l m to : 0 <= from -> within from l m -> m <= to -> patched from l to = patched from l m ++ slice content m to.
Proof.
  revert from. induction l as [|s l IH]; intros from Hf Hl Hm; cbn [patched within] in *; [by rewrite slice_app|].
  destruct Hl. rewrite IH by (done || lia). by rewrite <- !app_assoc.
Qed.

Lemma patched_app from l s to : patched from (l ++ [s]) to = patched from l (start s) ++ data s ++ slice content (finish s) to.
Proof. revert from. induction l as [|x l IH]; intros from; cbn [patched app]; [done|]. rewrite IH. by rewrite <- !app_assoc. Qed.

Lemma spliced_patched from l m : 0 <= from -> within from l m -> spliced from l = patched from l m ++ drop (Z.to_nat m) content.
Proof.
  revert from. induction l as [|s l IH]; intros from Hf Hl; cbn [patched within spliced] in *; [by rewrite slice_drop|].
  destruct Hl. rewrite IH by (done || lia). by rewrite <- !app_assoc.
Qed.

Lemma spliced_last from l z : spliced from (l ++ [z]) = patched from l (start z) ++ data z ++ drop (Z.to_nat (finish z)) content.
Proof. revert from. induction l as [|s l IH]; intros from; cbn [patched app spliced]; [done|]. rewrite IH. by rewrite <- !app_assoc. Qed.

Lemma fits_within from l to : within from l to -> to <= len content -> fits from l.
Proof.
  revert from. induction l as [|s l IH]; intros from; cbn [within fits]; [done|]. intros [Hs Hl] Hto. apply within_le in Hl as Hle.
  split; [done|]. split; [right; lia|]. by apply IH.
Qed.

End patched.

(** * What is read of a sequence of whole chunks *)

(** What the reader takes of a chunk. *)
Definition read_one_chunk (aiff : bool) (found : bytes * Info) (c : Chunk) : bytes * Info :=
  if wanted_chunk aiff (ck_kind c) && (0 <? ck_size aiff c) && (ck_size aiff c <=? 16 * 2 ^ 20)
  then take_chunk aiff (ck_kind c) (ck_body aiff c) found else found.

Section reader.
Context `{SRC : Source} (observed aiff : bool).
Implicit Types (s : Io).

(** A failure is of the outside, or of a file that ends too early. *)
Lemma wp_exact_fault fuel need acc (Q : bytes -> Io -> Prop) (R : Fault -> Io -> Prop) s :
  0 <= position s -> 0 <= need <= Z.of_nat fuel ->
  (forall s', position s' = position s + need -> (need = 0 \/ position s + need <= len content) ->
     Q (acc ++ slice content (position s) (position s + need)) s') ->
  (forall e s', ~ calm -> R (Outside e) s') ->
  (forall e s', len content < position s + need -> R (Broken e) s') ->
  wp (exact_fault fuel need acc) Q R s.
Proof.
  revert need acc s. induction fuel as [|fuel IH]; intros need acc s Hp Hn HQ HO HB; cbn [exact_fault].
  { assert (need = 0) as -> by lia. specialize (HQ s). rewrite Z.add_0_r, slice_nil, app_nil_r in HQ. apply wp_ret, HQ; auto. }
  destruct (Z.eqb_spec need 0) as [->|Hne].
  { specialize (HQ s). rewrite Z.add_0_r, slice_nil, app_nil_r in HQ. apply wp_ret, HQ; auto. }
  apply wp_bind, wp_mapping, wp_read; [done|lia| |by intros e s1 Hc _; apply HO].
  intros b s1 Hb Heq Hle Hnil Hp1 _. destruct b as [|x b'] eqn:Eb; [apply wp_throw, HB; specialize (Hnil eq_refl); lia|]. rewrite <- Eb in *.
  assert (0 < len b) by (rewrite Eb; unfold len; simpl; lia). clear Eb x b' Hnil.
  apply IH; [lia|lia| |done|intros e s2 Hl; apply HB; lia].
  intros s2 Hp2 Hin. rewrite <- app_assoc. rewrite Heq at 1. rewrite Hp1, slice_app by lia.
  replace (position s + len b + (need - len b)) with (position s + need) by lia. apply HQ; lia.
Qed.

Lemma wp_bytes_fault n (Q : bytes -> Io -> Prop) (R : Fault -> Io -> Prop) s :
  0 <= position s -> 0 <= n ->
  (forall s', position s' = position s + n -> (n = 0 \/ position s + n <= len content) -> Q (slice content (position s) (position s + n)) s') ->
  (forall e s', ~ calm -> R (Outside e) s') ->
  (forall e s', len content < position s + n -> R (Broken e) s') -> wp (bytes_fault n) Q R s.
Proof. intros Hp Hn HQ HO HB. unfold bytes_fault. apply wp_exact_fault; auto; lia. Qed.

Lemma wp_seek_fault p (Q : Z -> Io -> Prop) (R : Fault -> Io -> Prop) s :
  (forall s', position s' = p -> Q p s') -> (forall e s', ~ calm -> R (Outside e) s') -> wp (seek_fault p) Q R s.
Proof. intros HQ HR. apply wp_mapping, wp_seek; [by intros s1 ? _; apply HQ|by intros e s1 ? _; apply HR]. Qed.

(** Reading is as it should be unless the outside fails; an observer is told so. *)
Definition sound : Prop := observed = true \/ calm.
Definition blamed (f : Fault) (s : Io) : Prop := ~ calm /\ (observed = true -> exists e, f = Outside e).

Lemma not_sound : observed = false -> ~ calm -> ~ sound.
Proof. intros Ho Hc [Ho'|Hc']; [congruence|by apply Hc]. Qed.

Lemma wp_unsound {A} (m : St Io Fault A) (Q : A -> Io -> Prop) s : ~ sound -> (forall a s', ~ sound -> Q a s') -> wp m Q blamed s.
Proof.
  intros Hs HQ. unfold wp. destruct (m s) as [[a|e] s1]; [by apply HQ|]. split; [intros Hc; apply Hs; by right|].
  intros Ho. destruct Hs. by left.
Qed.

Lemma wp_assume_sound {A} (m : St Io Fault A) (Q : A -> Io -> Prop) s :
  (sound -> wp m (fun a s' => sound -> Q a s') blamed s) -> wp m (fun a s' => sound -> Q a s') blamed s.
Proof.
  intros Hm. unfold wp in *. destruct (m s) as [[a|f] s1]; [intros Hs; by apply Hm|]. split.
  - intros Hc. by destruct (Hm (or_intror Hc)) as [[] _].
  - intros Ho. by apply (Hm (or_introl Ho)).
Qed.

Lemma outside_blamed e s : ~ calm -> blamed (Outside e) s.
Proof. intros Hc. split; [done|]. by exists e. Qed.

(** A read of bytes that are there, and one of bytes that are not. *)
Lemma wp_tolerated_there n (Q : option bytes -> Io -> Prop) s :
  0 <= position s -> 0 <= n -> position s + n <= len content ->
  (forall s', position s' = position s + n -> Q (Some (slice content (position s) (position s + n))) s') ->
  (forall r s', ~ sound -> Q r s') -> wp (tolerated observed (bytes_fault n)) Q blamed s.
Proof.
  intros Hp Hn Hin HQ Hno. unfold tolerated. apply wp_bind, wp_attempt, wp_bytes_fault; [done|done| | |].
  - intros s1 Hp1 _. by apply wp_ret, HQ.
  - intros e s1 Hc. destruct observed eqn:Eo; [by apply wp_throw, outside_blamed|]. by apply wp_ret, Hno, not_sound.
  - intros e s1 Hl. lia.
Qed.

Lemma wp_tolerated_short n (Q : option bytes -> Io -> Prop) s :
  0 <= position s -> 0 < n -> len content < position s + n ->
  (forall s', Q None s') -> (forall r s', ~ sound -> Q r s') -> wp (tolerated observed (bytes_fault n)) Q blamed s.
Proof.
  intros Hp Hn Hin HQ Hno. unfold tolerated. apply wp_bind, wp_attempt, wp_bytes_fault; [done|lia| | |].
  - intros s1 Hp1 Hor. lia.
  - intros e s1 Hc. destruct observed eqn:Eo; [by apply wp_throw, outside_blamed|]. by apply wp_ret, Hno, not_sound.
  - intros e s1 Hl. apply wp_ret, HQ.
Qed.

(** One chunk behind its header. *)
Lemma wp_riff_chunk p found s :
  let c := chunk_at aiff content p in
  0 <= p -> position s = p + 8 -> p + len (chunk_bytes c) <= len content -> chunk_ok aiff c ->
  wp (read_chunk observed aiff (slice content p (p + 8)) found)
    (fun r s' => sound -> r = read_one_chunk aiff found c /\ position s' = p + len (chunk_bytes c)) blamed s.
Proof.
  intros c H0 Hp Hin Hok. rewrite (len_chunk _ _ Hok) in *. pose proof (mod_2 (ck_size aiff c)).
  assert (0 <= ck_size aiff c) by apply Hok.
  assert (ck_body aiff c = slice content (p + 8) (p + 8 + ck_size aiff c)) as Hbody.
  { apply (chunk_at_ok aiff content p content_bytes H0). fold c. lia. }
  unfold read_chunk. cbv zeta. change (take 4 (slice content p (p + 8))) with (ck_kind c).
  change (chunk_size aiff (drop 4 (slice content p (p + 8)))) with (ck_size aiff c). unfold read_one_chunk.
  destruct (wanted_chunk aiff (ck_kind c) && (0 <? ck_size aiff c) && (ck_size aiff c <=? 16 * 2 ^ 20)).
  - apply wp_bind, wp_tolerated_there; [lia|lia|lia| |].
    + intros s1 Hp1. apply wp_bind, wp_gets, wp_bind, wp_seek_fault; [|intros e s2; apply outside_blamed].
      intros s2 Hp2. apply wp_ret. intros _. rewrite Hp, <- Hbody. split; [done|lia].
    + intros r s1 Hs. apply wp_unsound; [done|]. by intros a s2 ? ?.
  - apply wp_bind, wp_gets, wp_bind, wp_seek_fault; [|intros e s2; apply outside_blamed].
    intros s2 Hp2. apply wp_ret. intros _. split; [done|lia].
Qed.

(** The chunks from a place on. *)
Lemma wp_chunks_loop fuel pre chunks rest found s :
  content = pre ++ chunks_bytes chunks ++ rest -> position s = len pre -> len rest < 8 -> Forall (chunk_ok aiff) chunks ->
  len (chunks_bytes chunks) < Z.of_nat fuel ->
  wp (chunks_loop observed fuel aiff found) (fun r _ => sound -> r = fold_left (read_one_chunk aiff) chunks found) blamed s.
Proof.
  revert pre chunks found s. induction fuel as [|fuel IH]; intros pre chunks found s Hc Hp Hrest Hok Hf; [pose proof (len_nonneg (chunks_bytes chunks)); lia|].
  cbn [chunks_loop]. apply wp_bind. pose proof (len_nonneg pre). destruct chunks as [|c chunks].
  { apply wp_tolerated_short; [lia|done| |by intros s1; apply wp_ret|].
    - rewrite Hc, !len_app. change (len (chunks_bytes [])) with 0. lia.
    - intros r s1 Hs. apply wp_unsound; [done|]. by intros a s2 ? ?. }
  inversion Hok as [|? ? Hcok Hok']; subst. change (chunks_bytes (c :: chunks)) with (chunk_bytes c ++ chunks_bytes chunks) in *. rewrite <- app_assoc in Hc.
  pose proof (chunk_at_app aiff c pre (chunks_bytes chunks ++ rest) Hcok) as Hat. rewrite <- Hc in Hat.
  rewrite len_app in Hf. pose proof (len_nonneg rest). pose proof (len_nonneg (chunks_bytes chunks)).
  assert (len pre + len (chunk_bytes c) <= len content) as Hin by (rewrite Hc, !len_app; lia).
  assert (8 <= len (chunk_bytes c)) as H8 by (rewrite (len_chunk _ _ Hcok); destruct Hcok as (_ & _ & ? & _); pose proof (mod_2 (ck_size aiff c)); lia).
  apply wp_tolerated_there; [lia|done|lia| |].
  - intros s1 Hp1. rewrite Hp in *. apply wp_bind. eapply wp_mono; [apply wp_riff_chunk; rewrite ?Hat; done| |done]. rewrite Hat.
    intros r s2 Hr. apply wp_assume_sound. intros Hs. destruct (Hr Hs) as [-> Hp2].
    change (fold_left (read_one_chunk aiff) (c :: chunks) found) with (fold_left (read_one_chunk aiff) chunks (read_one_chunk aiff found c)).
    apply (IH (pre ++ chunk_bytes c)); [by rewrite <- app_assoc|by rewrite len_app|done|done|lia].
  - intros r s1 Hs. apply wp_unsound; [done|]. by intros a s2 ? ?.
Qed.

(** A file of whole chunks. *)
Lemma wp_riff_chunks head chunks rest s :
  content = head ++ chunks_bytes chunks ++ rest -> len head = 12 -> len rest < 8 -> Forall (chunk_ok aiff) chunks -> position s = 0 ->
  wp (riff_chunks observed aiff)
    (fun r _ => sound -> riff_magic aiff head = true /\ r = fold_left (read_one_chunk aiff) chunks ([], ∅))
    (fun f _ => blamed f s \/ riff_magic aiff head = false) s.
Proof.
  intros Hc Hh Hrest Hok Hp. unfold riff_chunks. pose proof (len_nonneg rest). pose proof (len_nonneg (chunks_bytes chunks)).
  apply wp_bind, wp_bytes_fault; [lia|done| |by intros e s1 Hcalm; left; apply outside_blamed|].
  2: { intros e s1 Hl. rewrite Hc, !len_app in Hl. lia. }
  intros s1 Hp1 _. assert (slice content (position s) (position s + 12) = head) as ->.
  { rewrite Hp, Hc. unfold slice. rewrite drop_0. apply take_app_length'. unfold len in *. lia. }
  destruct (riff_magic aiff head) eqn:Em; [|by apply wp_throw; right]. cbn [negb].
  eapply wp_mono; [apply (wp_chunks_loop _ head chunks rest); [done|lia|done|done|]| |].
  - assert (len (chunks_bytes chunks) <= len content) by (rewrite Hc, !len_app; lia). unfold len in *. lia.
  - intros r s2 Hr Hs. split; [done|by apply Hr].
  - intros f s2 Hf. by left.
Qed.
End reader.

(** ** The metadata of the file *)

Section metadata.
Context `{Unicode} `{Images} `{SRC : Source}.

Definition riff_value (aiff : bool) (chunks : list Chunk) : result AudioMetadata string :=
  let found := fold_left (read_one_chunk aiff) chunks ([], ∅) in riff_metadata found.1 found.2 aiff.

(** What an edit starts from. *)
Definition old_value (aiff : bool) (head : bytes) (chunks : list Chunk) : AudioMetadata :=
  if riff_magic aiff head then match riff_value aiff chunks with Ok m => m | Err _ => default_metadata end else default_metadata.

Lemma wp_riff observed aiff head chunks rest s :
  content = head ++ chunks_bytes chunks ++ rest -> len head = 12 -> len rest < 8 -> Forall (chunk_ok aiff) chunks -> position s = 0 ->
  wp (riff observed aiff)
    (fun m _ => sound observed -> riff_magic aiff head = true /\ riff_value aiff chunks = Ok m)
    (fun f s' => blamed observed f s' \/ riff_magic aiff head = false \/ is_ok (riff_value aiff chunks) = false \/ ~ sound observed) s.
Proof.
  intros Hc Hh Hrest Hok Hp. unfold riff. apply wp_bind. eapply wp_mono; [by eapply wp_riff_chunks| |].
  - intros r s1 Hr. destruct (riff_metadata r.1 r.2 aiff) as [m|e] eqn:E.
    + apply wp_ret. intros Hs. destruct (Hr Hs) as [Hm ->]. by split.
    + apply wp_throw. destruct (riff_value aiff chunks) as [m|e'] eqn:E'; [|by right; right; left]. right. right. right.
      intros Hs. destruct (Hr Hs) as [_ ->]. unfold riff_value in E'. congruence.
  - intros f s1 [Hf|Hf]; auto.
Qed.
End metadata.
