(* ===== verification/RiffSpec.v ===== *)
(** * What an edit of a RIFF or AIFF file does *)

From S2P Require Import Prelude Monads RustText UnicodeText Matching TagIo VorbisComments FlacTags FlacHeader FlacTagsSpec TagFields ApeTags ApeSpec Id3Text Id3Tags Id3Spec TagComments FlacReader Id3Reader RiffReader RiffTags RiffReaderSpec.

(** ** Steps that write nothing *)

Section quiet.
Context `{SRC : Source}.

Definition quiet {E A} (m : St Io E A) : Prop := forall s, written (m s).2 = written s.

Lemma unwritten_ret {E A} (a : A) : quiet (ret a : St Io E A). Proof. done. Qed.
Lemma unwritten_throw {E A} (e : E) : quiet (throw e : St Io E A). Proof. done. Qed.
Lemma unwritten_gets {E A} (f : Io -> A) : quiet (gets f : St Io E A). Proof. done. Qed.
Lemma unwritten_bind {E A B} (m : St Io E A) (k : A -> St Io E B) : quiet m -> (forall a, quiet (k a)) -> quiet (bind m k).
Proof. intros Hm Hk s. unfold bind. specialize (Hm s). destruct (m s) as [[a|e] s1]; cbn [snd] in *; [rewrite <- Hm; apply Hk|done]. Qed.
Lemma unwritten_attempt {E F A} (m : St Io E A) : quiet m -> quiet (attempt m : St Io F (result A E)).
Proof. intros Hm s. unfold attempt. specialize (Hm s). by destruct (m s) as [[a|e] s1]. Qed.
Lemma unwritten_mapping {E F A} (f : E -> F) (m : St Io E A) : quiet m -> quiet (mapping f m).
Proof. intros Hm s. unfold mapping. specialize (Hm s). by destruct (m s) as [[a|e] s1]. Qed.

Lemma unwritten_check : quiet TagIo.check.
Proof. intros s. unfold TagIo.check, bind, call. cbn. by destruct (check_at _). Qed.
Lemma unwritten_seek p : quiet (TagIo.seek p).
Proof. intros s. unfold TagIo.seek, bind, call. cbn. by destruct (seek_error_at _). Qed.
Lemma unwritten_read n : quiet (TagIo.read n).
Proof. intros s. unfold TagIo.read, bind, call. cbn. by destruct (read_at _). Qed.
Lemma unwritten_on_cursor {A} l (m : Source -> St Io string A) : quiet (on_cursor l m).
Proof. intros s. unfold on_cursor. by destruct (m _ _). Qed.
End quiet.

Create HintDb quiet.
#[export] Hint Resolve unwritten_ret unwritten_throw unwritten_gets unwritten_bind unwritten_attempt unwritten_mapping unwritten_check unwritten_seek unwritten_read unwritten_on_cursor : quiet.

Lemma unwritten_tolerated `{Source} {A} observed (m : St Io Fault A) : quiet m -> quiet (tolerated observed m).
Proof. intros Hm. apply unwritten_bind; [by apply unwritten_attempt|]. intros [a|[e|e]]; [|destruct observed|]; done. Qed.

Ltac quiet_step :=
  match goal with
  | |- forall _, _ => intros ?
  | |- quiet (if ?b then _ else _) => destruct b
  | |- quiet (match ?x with _ => _ end) => destruct x
  | |- quiet (let _ := _ in _) => cbv zeta
  | |- quiet (bind _ _) => apply unwritten_bind
  | |- quiet (attempt _) => apply unwritten_attempt
  | |- quiet (mapping _ _) => apply unwritten_mapping
  | |- quiet (tolerated _ _) => apply unwritten_tolerated
  | |- quiet _ => progress auto with quiet nocore
  end.
Ltac quiet := repeat quiet_step.

Section quiet_parts.
Context `{SRC : Source}.

Lemma unwritten_exact fuel n acc : quiet (exact fuel n acc).
Proof. revert n acc. induction fuel as [|fuel IH]; intros n acc; cbn [exact]; quiet. Qed.
Lemma unwritten_bytes n : quiet (bytes_of n).
Proof. apply unwritten_exact. Qed.
Lemma unwritten_exact_fault fuel n acc : quiet (exact_fault fuel n acc).
Proof. revert n acc. induction fuel as [|fuel IH]; intros n acc; cbn [exact_fault]; quiet. Qed.
Hint Resolve unwritten_bytes unwritten_exact_fault : quiet.

Lemma unwritten_chunks fuel observed aiff c : quiet (chunks_loop observed fuel aiff c).
Proof.
  revert c. induction fuel as [|fuel IH]; intros c; cbn [chunks_loop]; unfold read_chunk, bytes_fault, seek_fault; quiet.
Qed.
Hint Resolve unwritten_chunks : quiet.

Lemma unwritten_info fuel fields body data : quiet (kept_info fuel fields body data).
Proof. revert body data. induction fuel as [|fuel IH]; intros body data; cbn [kept_info]; quiet. Qed.
Lemma unwritten_put_info entries body : quiet (put_info entries body).
Proof. revert body. induction entries as [|[k v] entries IH]; intros body; cbn [put_info]; quiet. Qed.
Hint Resolve unwritten_info unwritten_put_info : quiet.

Lemma unwritten_edit_info entries fields : quiet (edit_info entries fields).
Proof. unfold edit_info. quiet. Qed.
Hint Resolve unwritten_edit_info : quiet.

Lemma unwritten_edit `{Unicode} `{Splits} `{Images} {IN : Integers} aiff fields cover : quiet (edit aiff fields cover).
Proof.
  assert (forall info length fuel w, quiet (edit_chunks aiff fields info cover length fuel w)) as Hloop.
  { intros info length fuel. induction fuel as [|fuel IH]; intros w; cbn [edit_chunks];
      unfold edit_chunk, edit_tag_chunk, drop_tag_chunk, other_chunk; quiet. }
  unfold edit, old_metadata, riff, riff_chunks, bytes_fault, seek_fault, size_section, new_cover, new_tag, fresh, embedded_header. quiet.
Qed.
End quiet_parts.

(** ** Chunks that an edit makes *)

Definition as_chunk (aiff : bool) (kind data : bytes) : Chunk :=
  mkChunk kind (size_bytes aiff (len data)) (data ++ if len data mod 2 =? 1 then [0] else []).

Lemma tag_chunk_bytes aiff kind tag : tag_chunk aiff kind tag = chunk_bytes (as_chunk aiff kind tag).
Proof. done. Qed.

Lemma size_of_bytes aiff n : 0 <= n < 2 ^ 32 -> chunk_size aiff (size_bytes aiff n) = n.
Proof.
  intros Hn. unfold chunk_size, size_bytes. destruct aiff; rewrite ?from_be_be_bytes, ?from_le_le_bytes; by apply Z.mod_small.
Qed.

Lemma as_chunk_ok aiff kind data : len kind = 4 -> len data < 2 ^ 32 ->
  chunk_ok aiff (as_chunk aiff kind data) /\ ck_size aiff (as_chunk aiff kind data) = len data /\ ck_body aiff (as_chunk aiff kind data) = data.
Proof.
  intros Hk Hd. pose proof (len_nonneg data). pose proof (mod_2 (len data)).
  assert (ck_size aiff (as_chunk aiff kind data) = len data) as Hs by (unfold ck_size; apply size_of_bytes; lia).
  unfold chunk_ok, ck_body. rewrite Hs. cbn [as_chunk ck_kind ck_field ck_data]. split_conj; try done.
  - unfold size_bytes, len. destruct aiff; by rewrite ?be_bytes_length, ?le_bytes_length.
  - rewrite len_app. destruct (Z.eqb_spec (len data mod 2) 1) as [->|]; [done|]. change (len (@nil Z)) with 0. lia.
  - apply take_app_length'. unfold len. lia.
Qed.

(** The INFO texts of an edit, as entries. *)
Definition info_entry (e : string * string) : list Chunk :=
  if is_empty (trim e.2) then [] else [as_chunk false (str_bytes e.1) (str_bytes e.2 ++ [0])].
Definition info_body (info : Fields) (es : list Chunk) : bytes :=
  str_bytes "INFO" ++ chunks_bytes (List.filter (fun c => negb (info_given info (ck_kind c))) es ++ flat_map info_entry (btree_iter info)).

Lemma info_bytes_entry kind value : is_empty (trim value) = false -> info_bytes kind value = chunks_bytes (info_entry (kind, value)).
Proof.
  intros Hv. unfold info_entry. cbn [fst snd]. rewrite Hv. unfold chunks_bytes, chunk_bytes, as_chunk, info_bytes. cbn [map concat ck_kind ck_field ck_data].
  rewrite app_nil_r, len_app. change (len [0]) with 1. unfold size_bytes. by rewrite <- !app_assoc.
Qed.

Section info.
Context `{SRC : Source}.

Lemma wp_kept_info fuel fields body entries (Q : bytes -> Io -> Prop) (R : string -> Io -> Prop) s :
  Forall byte_ok entries -> len entries <= Z.of_nat fuel ->
  (forall es s', entries = chunks_bytes es -> Forall (chunk_ok false) es ->
     Q (body ++ chunks_bytes (List.filter (fun c => negb (info_given fields (ck_kind c))) es)) s') ->
  (forall e s', R e s') -> wp (kept_info fuel fields body entries) Q R s.
Proof.
  revert body entries s Q. induction fuel as [|fuel IH]; intros body entries s Q Hb Hf HQ HR; cbn [kept_info].
  { assert (entries = []) as -> by (apply len_nil; pose proof (len_nonneg entries); lia). apply wp_ret.
    specialize (HQ [] s eq_refl (Forall_nil_2 _)). cbn in HQ. by rewrite app_nil_r in HQ. }
  destruct entries as [|x entries'] eqn:E.
  { apply wp_ret. specialize (HQ [] s eq_refl (Forall_nil_2 _)). cbn in HQ. by rewrite app_nil_r in HQ. }
  rewrite <- E in *. clear E x entries'. apply wp_bind, wp_check; [|done]. intros s1 _ _.
  destruct (Z.ltb_spec (len entries) 8); [by apply wp_throw|]. cbv zeta.
  pose proof (chunk_at_ok false entries 0 Hb ltac:(lia)) as Hc. cbv zeta in Hc.
  assert (ck_size false (chunk_at false entries 0) = from_le (take 4 (drop 4 entries))) as Hsize.
  { unfold chunk_at, ck_size, chunk_size, slice. cbn [ck_field]. rewrite drop_0. change (Z.to_nat (0 + 8 - 0)) with 8%nat. f_equal.
    rewrite <- (take_take_drop entries 4 4) at 1. by rewrite drop_app_length' by (rewrite length_take; unfold len in *; lia). }
  assert (ck_kind (chunk_at false entries 0) = take 4 entries) as Hkind.
  { unfold chunk_at, slice. cbn [ck_kind]. rewrite drop_0, take_take. f_equal. }
  rewrite Hsize in Hc. set (size := from_le _) in *. destruct (Z.ltb_spec (len entries) (8 + size + size mod 2)); [by apply wp_throw|].
  destruct (Hc ltac:(lia)) as (Hok & Hbytes & _). set (c := chunk_at false entries 0) in *.
  assert (take (Z.to_nat (8 + size + size mod 2)) entries = chunk_bytes c) as Htake by (rewrite Hbytes; unfold slice; rewrite drop_0; f_equal; lia).
  pose proof (len_chunk _ _ Hok) as Hlc. rewrite Hsize in Hlc. assert (0 <= size + size mod 2) by (destruct Hok as (_ & _ & ? & _); pose proof (mod_2 size); lia).
  apply IH; [by apply Forall_drop| | |done].
  - unfold len in *. rewrite length_drop. lia.
  - intros es s2 Hes Hes'. specialize (HQ (c :: es) s2). cbn [List.filter] in HQ. rewrite Hkind in HQ.
    destruct (info_given fields (take 4 entries)); cbn [negb] in HQ.
    + apply HQ; [|by constructor]. unfold chunks_bytes. cbn [map concat]. fold (chunks_bytes es). by rewrite <- Hes, <- Htake, take_drop.
    + rewrite <- app_assoc, Htake. apply HQ; [|by constructor]. unfold chunks_bytes. cbn [map concat]. fold (chunks_bytes es). by rewrite <- Hes, <- Htake, take_drop.
Qed.

Definition kinds_ok (entries : list (string * string)) : Prop := Forall (fun e => len (str_bytes e.1) = 4) entries.

Lemma wp_put_info entries body (Q : bytes -> Io -> Prop) (R : string -> Io -> Prop) s :
  kinds_ok entries ->
  (forall s', len (body ++ chunks_bytes (flat_map info_entry entries)) <= Z.max (len body) MAX_TAG_BYTES ->
     Q (body ++ chunks_bytes (flat_map info_entry entries)) s') ->
  (forall e s', R e s') -> wp (put_info entries body) Q R s.
Proof.
  intros Hk. revert body s. induction Hk as [|[kind value] entries Hkind _ IH]; intros body s HQ HR; cbn [put_info].
  { apply wp_ret. specialize (HQ s). cbn in HQ. rewrite app_nil_r in HQ. apply HQ. lia. }
  apply wp_bind, wp_check; [|done]. intros s1 _ _. cbn [flat_map] in HQ. rewrite chunks_bytes_app in HQ. cbn [fst] in Hkind.
  destruct (is_empty (trim value)) eqn:Ev.
  { assert (info_entry (kind, value) = []) as Hnil by (unfold info_entry; cbn [snd]; by rewrite Ev). rewrite Hnil in HQ. by apply IH. }
  cbv zeta. destruct (Z.ltb_spec MAX_TAG_BYTES (len body + 8 + (len (str_bytes value) + 1) + (len (str_bytes value) + 1) mod 2)); [by apply wp_throw|].
  rewrite <- (info_bytes_entry kind value) in HQ by done.
  apply IH; [|done]. intros s2 Hle. rewrite <- app_assoc in *. apply HQ.
  assert (len (info_bytes kind value) <= 8 + (len (str_bytes value) + 1) + (len (str_bytes value) + 1) mod 2) as Hsize.
  { unfold info_bytes. rewrite !len_app, Hkind. change (len [0]) with 1. unfold len at 1. rewrite le_bytes_length.
    pose proof (mod_2 (len (str_bytes value) + 1)). destruct (Z.eqb_spec ((len (str_bytes value) + 1) mod 2) 1) as [->|]; [change (len [0]) with 1|change (len (@nil Z)) with 0]; lia. }
  rewrite (len_app body (info_bytes _ _)) in Hle. lia.
Qed.

(** The entries of a list that is edited, and what it becomes. *)
Lemma wp_edit_info entries info (Q : bytes -> Io -> Prop) (R : string -> Io -> Prop) s :
  Forall byte_ok entries -> len entries <= MAX_TAG_BYTES -> kinds_ok (btree_iter info) ->
  (forall es s', entries = chunks_bytes es -> Forall (chunk_ok false) es -> len (info_body info es) < 2 ^ 32 ->
     Q (str_bytes "LIST" ++ le_bytes 4 (len (info_body info es)) ++ info_body info es) s') ->
  (forall e s', R e s') -> wp (edit_info entries info) Q R s.
Proof.
  intros Hb Hmax Hk HQ HR. unfold edit_info. apply wp_bind, wp_kept_info; [done|unfold len; lia| |done]. intros es s1 Hes Hok.
  apply wp_bind, wp_put_info; [done| |done]. intros s2 Hle. apply wp_ret.
  assert (forall l, (str_bytes "INFO" ++ chunks_bytes (List.filter (fun c => negb (info_given info (ck_kind c))) es)) ++ l = str_bytes "INFO" ++
    chunks_bytes (List.filter (fun c => negb (info_given info (ck_kind c))) es) ++ l) as Happ by (intros l; by rewrite <- app_assoc).
  rewrite Happ, <- chunks_bytes_app in Hle |- *. fold (info_body info es) in Hle |- *. apply HQ; [done|done|].
  assert (len (chunks_bytes (List.filter (fun c => negb (info_given info (ck_kind c))) es)) <= len entries) as Hfilter.
  { rewrite Hes. clear. induction es as [|c es IH]; [done|]. cbn [List.filter]. unfold chunks_bytes in *. destruct (negb _); cbn [map concat]; rewrite !len_app;
      pose proof (len_nonneg (chunk_bytes c)); lia. }
  rewrite len_app in Hle. change (len (str_bytes "INFO")) with 4 in Hle. unfold MAX_TAG_BYTES in *. lia.
Qed.
End info.

Lemma info_fields_kinds fields current : kinds_ok (btree_iter (info_fields fields current)).
Proof.
  set (good := fun r : Fields => forall k v, r !! k = Some v -> len (str_bytes k) = 4).
  assert (forall r k v, good r -> len (str_bytes k) = 4 -> good (<[k := v]> r)) as Hinsert.
  { intros r k v Hr Hk k' v'. destruct (decide (k = k')) as [->|]; [done|]. rewrite lookup_insert_ne by done. apply Hr. }
  assert (good (info_fields fields current)) as Hall.
  { unfold info_fields. assert (forall (l : list (string * string)) r, Forall (fun e => len (str_bytes e.2) = 4) l -> good r ->
      good (fold_left (fun r '(f, kind) => if given fields f then <[kind := default ""%string (current !! f)]> r else r) l r)) as Hfold.
    { intros l r Hl. revert r. induction Hl as [|[f kind] l Hk _ IH]; intros r Hr; [done|]. cbn [fold_left]. apply IH. destruct (given _ _); [by apply Hinsert|done]. }
    assert (Forall (fun e : string * string => len (str_bytes e.2) = 4) INFO_KINDS) as Hkinds by (unfold INFO_KINDS; repeat constructor).
    specialize (Hfold INFO_KINDS ∅ Hkinds ltac:(intros k v; by rewrite lookup_empty)). destruct (_ || _); [by apply Hinsert|done]. }
  apply Forall_forall. intros [k v] Hin%elem_of_btree_iter. exact (Hall k v Hin).
Qed.

(** An INFO list stays a whole chunk. *)
Lemma info_body_even info es : Forall (chunk_ok false) es -> kinds_ok (btree_iter info) -> len (info_body info es) < 2 ^ 32 ->
  len (info_body info es) mod 2 = 0.
Proof.
  intros Hes Hk Hmax. assert (Forall (fun c => len (chunk_bytes c) mod 2 = 0) (List.filter (fun c => negb (info_given info (ck_kind c))) es ++ flat_map info_entry (btree_iter info))) as Hall.
  { assert (forall c, chunk_ok false c -> len (chunk_bytes c) mod 2 = 0) as Hev by (intros c Hc; rewrite (len_chunk _ _ Hc); divmod_lia).
    apply Forall_app. split.
    - apply Forall_forall. intros c [Hin _]%list_elem_of_In%filter_In. apply Hev. by apply (proj1 (List.Forall_forall _ _) Hes).
    - apply Forall_forall. intros c ([k v] & Hin & Hc)%list_elem_of_In%in_flat_map. apply Hev.
      assert (info_entry (k, v) = [] \/ info_entry (k, v) = [as_chunk false (str_bytes k) (str_bytes v ++ [0])]) as [He|He];
        [unfold info_entry; destruct (is_empty _); auto|by rewrite He in Hc|]. rewrite He in Hc. destruct Hc as [<-|[]]. apply as_chunk_ok.
      + apply list_elem_of_In in Hin. exact (proj1 (Forall_forall _ _) Hk _ Hin).
      + unfold info_body in Hmax. rewrite len_app, chunks_bytes_app, len_app in Hmax.
        apply in_split in Hin as (l1 & l2 & E). rewrite E, flat_map_app in Hmax. cbn [flat_map] in Hmax. rewrite He, !chunks_bytes_app, !len_app in Hmax.
        unfold chunks_bytes at 3, chunk_bytes in Hmax. cbn [map concat ck_kind ck_field ck_data as_chunk] in Hmax. rewrite app_nil_r, !len_app in Hmax.
        rewrite !len_app. repeat match goal with H : context [len ?l] |- _ => lazymatch goal with H : 0 <= len l |- _ => fail | _ => pose proof (len_nonneg l) end end. lia. }
  unfold info_body. rewrite len_app. change (len (str_bytes "INFO")) with 4. generalize dependent (List.filter (fun c => negb (info_given info (ck_kind c))) es ++ flat_map info_entry (btree_iter info)).
  clear. intros l Hl. enough (len (chunks_bytes l) mod 2 = 0) by divmod_lia. induction Hl as [|c l Hc _ IH]; [done|]. unfold chunks_bytes in *. cbn [map concat]. rewrite len_app. divmod_lia.
Qed.

(** ** What becomes of each chunk *)

Definition tag_kind (kind : bytes) : bool := same_letters kind (str_bytes "id3 ").

Section walk.
Context `{Unicode} `{Splits} `{Images} {IN : Integers} `{SRC : Source}.
Context (aiff : bool) (fields info : Fields).

(** A list of texts that is edited. *)
Definition is_info (c : Chunk) : bool :=
  negb aiff && negb (bool_decide (info = ∅)) && bool_decide (ck_kind c = str_bytes "LIST") && (4 <=? ck_size aiff c)
  && bool_decide (take 4 (ck_body aiff c) = str_bytes "INFO").

Inductive edited_chunk : Chunk -> list Chunk -> Prop :=
| tag_edited c frames start :
    tag_kind (ck_kind c) = true -> gain_only fields = true -> read_tag (ck_body aiff c) = Ok (frames, start) ->
    edited_chunk c [as_chunk aiff (ck_kind c) (tag_bytes (body_of (edited_frames fields None None frames)) 512)]
| tag_dropped c : tag_kind (ck_kind c) = true -> gain_only fields = false -> edited_chunk c []
| info_edited c es :
    is_info c = true -> ck_body aiff c = str_bytes "INFO" ++ chunks_bytes es -> Forall (chunk_ok false) es ->
    edited_chunk c [as_chunk aiff (str_bytes "LIST") (info_body info es)]
| chunk_kept c : tag_kind (ck_kind c) = false -> is_info c = false -> edited_chunk c [c].

(** The walk so far: the chunks up to a place, what became of them, and the sections that say so.  A tag that the
    file cuts off ends the walk behind the file. *)
Record Walked (w : RiffTags.Walk) (chunks : list Chunk) (news : list (list Chunk)) (p : Z) : Prop := {
  wk_place : 12 <= p <= len content;
  wk_chunks : slice content 12 p = chunks_bytes chunks;
  wk_ok : Forall (chunk_ok aiff) chunks;
  wk_news : Forall2 edited_chunk chunks news;
  wk_news_ok : Forall (chunk_ok aiff) (concat news);
  wk_within : within 12 (w_sections w) (Z.min (w_start w) (len content));
  wk_patched : patched 12 (w_sections w) (Z.min (w_start w) (len content)) = chunks_bytes (concat news);
  wk_size : w_size w = 4 + len (chunks_bytes (concat news));
  wk_start : w_start w = p \/ (len content < w_start w /\ gain_only fields = false /\ tag_kind (slice content p (p + 4)) = true) }.

Lemma walked_step w chunks news p c new w' :
  Walked w chunks news p -> w_start w = p -> c = chunk_at aiff content p -> w_start w' <= len content ->
  w_start w' = p + 8 + ck_size aiff c + ck_size aiff c mod 2 ->
  edited_chunk c new -> Forall (chunk_ok aiff) new -> w_size w' = w_size w + len (chunks_bytes new) ->
  (w_sections w' = w_sections w /\ new = [c] \/ w_sections w' = w_sections w ++ [mkSection p (w_start w') (chunks_bytes new)]) ->
  Walked w' (chunks ++ [c]) (news ++ [new]) (w_start w').
Proof.
  intros [Hp Hc Hok Hn Hnok Hw Hpa Hs Hst] Hstart -> Hlen Hend Hnew Hnewok Hsize Hsec.
  pose proof (chunk_at_ok aiff content p content_bytes ltac:(lia)) as Hat. cbv zeta in Hat. rewrite <- Hend in Hat. destruct (Hat Hlen) as (Hcok & Hcb & _).
  set (c := chunk_at aiff content p) in *. pose proof (len_chunk _ _ Hcok) as Hlc. assert (p <= w_start w') by (pose proof (len_nonneg (chunk_bytes c)); lia).
  rewrite Hstart, Z.min_l in Hw, Hpa by lia. constructor; rewrite ?Z.min_l by lia.
  - lia.
  - rewrite <- (slice_app content 12 p), Hc, <- Hcb, chunks_bytes_app by lia. unfold chunks_bytes at 3. cbn [map concat]. by rewrite app_nil_r.
  - apply Forall_app. split; [done|]. by apply Forall_singleton.
  - apply Forall2_app; [done|]. by repeat constructor.
  - rewrite concat_app, Forall_app. split; [done|]. cbn [concat]. by rewrite app_nil_r.
  - destruct Hsec as [[-> _]| ->]; [by apply (within_weaken _ _ p)|]. apply (within_app _ _ _ p); [done|cbn; lia|cbn; lia].
  - rewrite concat_app, chunks_bytes_app. cbn [concat]. rewrite app_nil_r, <- Hpa. destruct Hsec as [[-> ->]| ->].
    + rewrite (patched_extend 12 _ p) by (done || lia). rewrite <- Hcb. unfold chunks_bytes. cbn [map concat]. by rewrite app_nil_r.
    + rewrite patched_app. cbn [TagIo.start finish data]. by rewrite slice_nil, app_nil_r.
  - rewrite concat_app, chunks_bytes_app, len_app. cbn [concat]. rewrite app_nil_r. lia.
  - by left.
Qed.

Lemma walked_cut w chunks news p w' :
  Walked w chunks news p -> w_start w = p -> len content < w_start w' -> gain_only fields = false -> tag_kind (slice content p (p + 4)) = true ->
  w_sections w' = w_sections w ++ [mkSection p (len content) []] -> w_size w' = w_size w -> Walked w' chunks news p.
Proof.
  intros [Hp Hc Hok Hn Hnok Hw Hpa Hs Hst] Hstart Hlen Hg Hk Hsec Hsize. rewrite Hstart, Z.min_l in Hw, Hpa by lia.
  constructor; rewrite ?Z.min_r by lia; try done.
  - rewrite Hsec. apply (within_app _ _ _ p); [done|cbn; lia|cbn; lia].
  - rewrite Hsec, patched_app. cbn [TagIo.start finish data]. by rewrite slice_nil, !app_nil_r.
  - by rewrite Hsize.
  - by right.
Qed.

Definition any {E} (e : E) (s : Io) : Prop := True.

Lemma wp_on_cursor {A} l (m : Source -> St Io string A) (Q : A -> Io -> Prop) s :
  wp (m (cursor l check_at)) (fun a _ => forall s', Q a s') any (mkIo (tick s) 0 []) -> wp (on_cursor l m) Q any s.
Proof. unfold wp, on_cursor. destruct (m _ _) as [[a|e] s1]; auto. Qed.

Lemma cursor_content l checks : Forall byte_ok l -> @content (cursor l checks) = l.
Proof. intros Hl. cbn. induction Hl as [|b l Hb _ IH]; [done|]. cbn. rewrite IH. f_equal. by apply Z.mod_small. Qed.

Lemma wp_tag_header l given cover mime padding (Q : bytes * Z -> Io -> Prop) s :
  Forall byte_ok l -> padding <= MAX_TAG_BYTES ->
  (forall frames start s', read_tag l = Ok (frames, start) -> let body := body_of (edited_frames given cover mime frames) in
     len body + padding <= MAX_TAG_BYTES -> Q (tag_bytes body padding, start) s') ->
  wp (on_cursor l (fun src => edit_header given cover mime padding)) Q any s.
Proof.
  intros Hl Hpad HQ. apply wp_on_cursor, wp_edit_header; [done|done| |done]. rewrite cursor_content by done.
  intros frames start s1 Hr body Hmax _ s2. by apply HQ.
Qed.

(** The old tag is that of a chunk. *)
Definition tag_ok (w : RiffTags.Walk) (chunks : list Chunk) : Prop :=
  forall tag, w_tag w = Some tag -> exists c, c ∈ chunks /\ tag_kind (ck_kind c) = true /\ tag = ck_body aiff c.
Definition walked (w : RiffTags.Walk) : Prop := exists chunks news p, Walked w chunks news p /\ tag_ok w chunks.

Lemma tag_ok_more w chunks c : tag_ok w chunks -> tag_ok w (chunks ++ [c]).
Proof. intros Hw tag Htag. destruct (Hw tag Htag) as (c' & Hin & ?). exists c'. split; [by apply elem_of_app; left|done]. Qed.

Lemma tag_bytes_len body padding : 0 <= padding -> len (tag_bytes body padding) = 10 + len body + padding.
Proof. intros Hp. unfold tag_bytes, put_syncsafe. rewrite !len_app. unfold len. cbn [length str_bytes]. rewrite repeat_length. simpl. lia. Qed.

(** One chunk, whose header has been read. *)
Section step.
Context (cover : option bytes) (w : RiffTags.Walk) (chunks : list Chunk) (news : list (list Chunk)) (p : Z).
Context (Hw : Walked w chunks news p) (Hstart : w_start w = p) (Htag : tag_ok w chunks).
Let c := chunk_at aiff content p.
Let end_ := p + 8 + ck_size aiff c + ck_size aiff c mod 2.

Lemma chunk_place : 12 <= p <= len content.
Proof. exact (wk_place _ _ _ _ Hw). Qed.
Lemma size_there : 0 <= ck_size aiff c /\ 0 <= ck_size aiff c mod 2.
Proof. split; [apply chunk_size_nonneg, header_bytes, content_bytes|apply mod_2]. Qed.
Lemma chunk_there : end_ <= len content ->
  chunk_ok aiff c /\ chunk_bytes c = slice content p end_ /\ ck_body aiff c = slice content (p + 8) (p + 8 + ck_size aiff c).
Proof. pose proof chunk_place. apply chunk_at_ok; [apply content_bytes|lia]. Qed.

Lemma wp_edit_tag s : position s = p + 8 -> tag_kind (ck_kind c) = true -> gain_only fields = true ->
  wp (edit_tag_chunk aiff fields (len content) (ck_kind c) (ck_size aiff c) end_ w) (fun w' _ => walked w') any s.
Proof.
  intros Hp2 Hkind Hgain. pose proof chunk_place as Hp. destruct size_there as [Hsize Hmod]. pose proof chunk_there as Hat.
  unfold edit_tag_chunk. destruct (_ || _) eqn:Eor; [by apply wp_throw|]. apply orb_false_iff in Eor as [Hmax%Z.ltb_ge Hend%Z.ltb_ge].
  apply wp_bind, wp_bytes_of; [lia|done| |done]. intros s3 _ _ _. rewrite Hp2. destruct (Hat Hend) as (Hcok & _ & Hbody). rewrite <- Hbody.
  assert (Forall byte_ok (ck_body aiff c)) as Hok by (rewrite Hbody; unfold slice; apply Forall_take, Forall_drop, content_bytes).
  apply wp_bind, wp_tag_header; [exact Hok|by vm_compute|].
  intros frames start s4 Hr body Hb. apply wp_ret. cbn [fst].
  eexists _, _, _. split; [|exact (tag_ok_more w chunks c Htag)]. eapply (walked_step _ _ _ _ c [as_chunk aiff (ck_kind c) (tag_bytes body 512)]); [done|done|done|exact Hend|reflexivity|exact (tag_edited c frames start Hkind Hgain Hr)| | |by right; rewrite chunks_bytes_one, <- tag_chunk_bytes, <- Hstart].
  + apply Forall_singleton, as_chunk_ok; [apply Hcok|]. rewrite tag_bytes_len by lia. unfold MAX_TAG_BYTES in Hb. lia.
  + by rewrite chunks_bytes_one.
Qed.

Lemma wp_drop_tag s : position s = p + 8 -> tag_kind (ck_kind c) = true -> gain_only fields = false ->
  wp (drop_tag_chunk aiff cover (len content) (ck_kind c) (ck_size aiff c) end_ w) (fun w' _ => walked w') any s.
Proof.
  intros Hp2 Hkind Hgain. pose proof chunk_place as Hp. destruct size_there as [Hsize Hmod]. pose proof chunk_there as Hat.
  unfold drop_tag_chunk. apply wp_bind.
  assert (wp (if (0 <? ck_size aiff c) && (ck_size aiff c <=? 16 * 2 ^ 20) && (end_ <=? len content) && is_tag_kind (ck_kind c)
    then do tag <- bytes_of (ck_size aiff c); ret (if bool_decide (cover = None) then embedded_cover tag else w_cover w, if aiff then w_tag w else Some tag)
    else ret (w_cover w, w_tag w)) (fun found _ => found.2 = w_tag w \/ (found.2 = Some (ck_body aiff c) /\ end_ <= len content)) any s) as Hfound.
  { destruct (_ && _) eqn:Econd; [|apply wp_ret; by left]. rewrite !andb_true_iff, (Z.leb_le end_) in Econd. destruct Econd as [[[_ _] Hend] _].
    destruct (Hat Hend) as (_ & _ & Hbody). apply wp_bind, wp_bytes_of; [lia|done| |done]. intros s3 _ _ _. apply wp_ret. cbn [snd].
    rewrite Hp2, <- Hbody. destruct aiff; [by left|by right]. }
  eapply wp_mono; [exact Hfound| |done]. intros found s3 Hf. apply wp_ret.
  destruct (Z.le_gt_cases end_ (len content)) as [Hend|Hend].
  + rewrite Z.min_l by done. eexists _, _, _. split.
    2: { intros tag Htag'. cbn [w_tag] in Htag'. destruct Hf as [Hf|[Hf _]]; rewrite Hf in Htag'; [by apply (tag_ok_more w chunks c Htag)|].
         injection Htag' as <-. exists c. split; [apply elem_of_app; right; by apply list_elem_of_singleton|done]. }
    eapply (walked_step _ _ _ _ c []); [done|done|done|exact Hend|reflexivity|by apply tag_dropped|done|cbn; unfold len; simpl; lia|by right; rewrite <- Hstart].
  + rewrite Z.min_r by lia. exists chunks, news, p. split.
    2: { intros tag Htag'. cbn [w_tag] in Htag'. destruct Hf as [Hf|[Hf ?]]; [|lia]. rewrite Hf in Htag'. by apply Htag. }
    eapply walked_cut; [exact Hw|exact Hstart|exact Hend|exact Hgain| |by rewrite <- Hstart|reflexivity].
    rewrite <- Hkind. f_equal. unfold c, chunk_at, slice. cbn [ck_kind]. rewrite take_take. f_equal. lia.
Qed.

Lemma wp_other s : position s = p + 8 -> tag_kind (ck_kind c) = false -> kinds_ok (btree_iter info) ->
  wp (other_chunk aiff info (len content) (ck_kind c) (ck_size aiff c) end_ w) (fun w' _ => walked w') any s.
Proof.
  intros Hp2 Hkind Hkinds. pose proof chunk_place as Hp. destruct size_there as [Hsize Hmod]. pose proof chunk_there as Hat.
  unfold other_chunk. destruct (Z.ltb_spec (len content) end_) as [|Hend]; [by apply wp_throw|]. destruct (Hat Hend) as (Hcok & Hcb & Hbody).
  assert (is_info c = false -> walked (mkWalk (w_sections w) end_ (w_size w + (end_ - w_start w)) (w_cover w) (w_tag w))) as Hkeep.
  { intros Hno. eexists _, _, _. split; [|exact (tag_ok_more w chunks c Htag)]. eapply (walked_step _ _ _ _ c [c]); [done|done|done|exact Hend|reflexivity|by apply chunk_kept|by apply Forall_singleton| |left; by split].
    rewrite chunks_bytes_one, (len_chunk _ _ Hcok). cbn [w_size]. rewrite Hstart. lia. }
  unfold is_info in Hkeep. destruct (negb aiff && negb (bool_decide (info = ∅)) && bool_decide (ck_kind c = str_bytes "LIST") && (4 <=? ck_size aiff c)) eqn:Einfo; [|by apply wp_ret, Hkeep].
  assert (aiff = false) as Haiff by (destruct aiff; [by rewrite !andb_false_l in Einfo|done]).
  apply wp_bind, wp_bytes_of; [lia|lia| |done]. intros s3 Hp3 _ _. rewrite Hp2.
  assert (4 <= ck_size aiff c) as H4 by (rewrite !andb_true_iff, Z.leb_le in Einfo; tauto).
  assert (take 4 (ck_body aiff c) = slice content (p + 8) (p + 8 + 4)) as Hname.
  { rewrite Hbody. unfold slice. rewrite take_take. f_equal. lia. }
  rewrite <- Hname. cbn [andb] in Hkeep. case_bool_decide as Ename; [|by apply wp_ret, Hkeep].
  destruct (Z.ltb_spec MAX_TAG_BYTES (ck_size aiff c)) as [|Hmax]; [by apply wp_throw|].
  apply wp_bind, wp_bytes_of; [lia|lia| |done]. intros s4 _ _ _. rewrite Hp3, Hp2.
  assert (Forall byte_ok (slice content (p + 8 + 4) (p + 8 + 4 + (ck_size aiff c - 4)))) as Hok by (unfold slice; apply Forall_take, Forall_drop, content_bytes).
  apply wp_bind, wp_edit_info; [exact Hok|rewrite len_slice; lia|done| |done]. intros es s5 Hes Hesok Hlen. apply wp_ret.
  assert (str_bytes "LIST" ++ le_bytes 4 (len (info_body info es)) ++ info_body info es = chunk_bytes (as_chunk aiff (str_bytes "LIST") (info_body info es))) as Hdata.
  { unfold chunk_bytes, as_chunk. cbn [ck_kind ck_field ck_data]. rewrite (info_body_even info es) by done. by rewrite Haiff, app_nil_r. }
  eexists _, _, _. split; [|exact (tag_ok_more w chunks c Htag)]. eapply (walked_step _ _ _ _ c [as_chunk aiff (str_bytes "LIST") (info_body info es)]); [done|done|done|exact Hend|reflexivity| | | |].
  + apply info_edited; [unfold is_info; rewrite Einfo; by apply bool_decide_eq_true_2| |done].
    rewrite <- Hes, <- Ename, Hname, Hbody. rewrite slice_app by lia. f_equal. lia.
  + by apply Forall_singleton, as_chunk_ok.
  + by rewrite chunks_bytes_one, <- Hdata.
  + right. by rewrite chunks_bytes_one, <- Hdata, <- Hstart.
Qed.
End step.

Lemma wp_edit_chunk cover w chunks news p s :
  Walked w chunks news p -> w_start w = p -> p + 8 <= len content -> kinds_ok (btree_iter info) -> tag_ok w chunks ->
  wp (edit_chunk aiff fields info cover (len content) w) (fun w' _ => walked w') any s.
Proof.
  intros Hw Hstart Hin Hkinds Htag. pose proof (chunk_place _ _ _ _ Hw) as Hp. unfold edit_chunk. rewrite Hstart.
  apply wp_bind, wp_seek; [|done]. intros s1 Hp1 _. apply wp_bind, wp_bytes_of; [lia|lia| |done]. intros s2 Hp2 _ _. rewrite Hp1 in *. cbv zeta.
  change (take 4 (slice content p (p + 8))) with (ck_kind (chunk_at aiff content p)).
  change (chunk_size aiff (drop 4 (slice content p (p + 8)))) with (ck_size aiff (chunk_at aiff content p)).
  destruct (same_letters _ _) eqn:Hkind; [destruct (gain_only fields) eqn:Hgain|].
  - by eapply wp_edit_tag.
  - by eapply wp_drop_tag.
  - by eapply wp_other.
Qed.

Lemma wp_edit_chunks cover fuel w s :
  walked w -> kinds_ok (btree_iter info) -> wp (edit_chunks aiff fields info cover (len content) fuel w) (fun w' _ => walked w') any s.
Proof.
  intros Hw Hkinds. revert w s Hw. induction fuel as [|fuel IH]; intros w s Hw; cbn [edit_chunks]; [by apply wp_ret|].
  apply wp_bind, wp_check; [|done]. intros s1 _ _. destruct (Z.ltb_spec (len content) (w_start w + 8)); [by apply wp_ret|].
  destruct Hw as (chunks & news & p & Hw & Htag). destruct (wk_start _ _ _ _ Hw) as [Hstart|[? _]]; [|lia].
  apply wp_bind. eapply wp_mono; [eapply (wp_edit_chunk cover w chunks news p); [done|done|lia|done|done]| |done].
  intros w' s2 Hw'. by apply IH.
Qed.

Lemma walked_first : 12 <= len content -> walked (mkWalk [] 12 4 None None).
Proof.
  intros Hlen. exists [], [], 12. split; [|by intros tag]. constructor; cbn [w_start w_sections w_size within patched concat]; rewrite ?Z.min_l, ?slice_nil by lia; try done; try lia; auto.
Qed.
End walk.

(** ** The whole edit *)

Definition magic (aiff : bool) : bytes := str_bytes (if aiff then "FORM" else "RIFF").
Definition tag_name (aiff : bool) : bytes := str_bytes (if aiff then "ID3 " else "id3 ").

Section whole.
Context `{Unicode} `{Splits} `{Images} {IN : Integers} `{SRC : Source}.

(** The new tag has the kept frames of the old one, and the fields of the file with those of the edit. *)
Definition new_tag_of (aiff : bool) (tag_fields : Fields) (chunks : list Chunk) (tag : bytes) : Prop :=
  exists old frames start cover mime,
    (old = [] \/ exists c, c ∈ chunks /\ tag_kind (ck_kind c) = true /\ old = ck_body aiff c) /\ read_tag old = Ok (frames, start) /\
    tag = tag_bytes (body_of (edited_frames tag_fields cover mime frames)) 0 /\ len tag <= MAX_TAG_BYTES + 10.

(** What an edit makes of a file. *)
Definition edited_riff (aiff : bool) (given : Fields) (out : bytes) : Prop :=
  exists form chunks rest m news added tail,
    let head := magic aiff ++ form in
    let tag_fields := metadata_fields m given in
    let body := drop 4 form ++ chunks_bytes (concat news ++ added) in
    content = head ++ chunks_bytes chunks ++ rest /\ len form = 8 /\ Forall (chunk_ok aiff) chunks /\
    (len rest < 8 \/ gain_only given = false /\ tag_kind (take 4 rest) = true) /\
    (len rest < 8 -> m = old_value aiff head chunks) /\
    Forall2 (edited_chunk aiff given (info_fields given tag_fields)) chunks news /\ Forall (chunk_ok aiff) (concat news ++ added) /\
    len body < 2 ^ 32 /\ out = magic aiff ++ size_bytes aiff (len body) ++ body ++ tail /\
    if gain_only given then added = [] /\ tail = rest
    else tail = [] /\ exists tag, added = [as_chunk aiff (tag_name aiff) tag] /\ new_tag_of aiff tag_fields chunks tag.

Lemma chunk_bytes_ok aiff chunks c : Forall byte_ok (chunks_bytes chunks) -> c ∈ chunks -> Forall byte_ok (ck_body aiff c).
Proof.
  intros Hb Hin. apply list_elem_of_split in Hin as (l1 & l2 & ->). rewrite chunks_bytes_app in Hb. apply Forall_app in Hb as [_ Hb].
  change (chunks_bytes (c :: l2)) with (chunk_bytes c ++ chunks_bytes l2) in Hb. apply Forall_app in Hb as [Hb _]. unfold chunk_bytes in Hb.
  rewrite !Forall_app in Hb. unfold ck_body. apply Forall_take, Hb.
Qed.

(** The new tag is made from the old one, or else afresh. *)
Lemma wp_new_tag aiff tag_fields replace cover old chunks s :
  Forall byte_ok (chunks_bytes chunks) ->
  (forall tag, old = Some tag -> exists c, c ∈ chunks /\ tag_kind (ck_kind c) = true /\ tag = ck_body aiff c) ->
  wp (new_tag tag_fields replace cover old) (fun tag _ => new_tag_of aiff tag_fields chunks tag) any s.
Proof.
  intros Hb Hold.
  assert (forall l c' s, (l = [] \/ exists c, c ∈ chunks /\ tag_kind (ck_kind c) = true /\ l = ck_body aiff c) ->
    wp (embedded_header l tag_fields c') (fun tag _ => new_tag_of aiff tag_fields chunks tag) any s) as Hheader.
  { intros l c' s1 Hl. assert (Forall byte_ok l) as Hlb by (destruct Hl as [->|(c & Hin & _ & ->)]; [constructor|by eapply chunk_bytes_ok]).
    unfold embedded_header. apply wp_on_cursor, wp_bind, wp_edit_header; [done|done| |done]. rewrite cursor_content by done.
    intros frames start s2 Hr body Hmax _. apply wp_ret. intros s3. exists l, frames, start, (fst <$> c'), (snd <$> c'). split_conj; try done.
    cbn [fst]. rewrite tag_bytes_len by lia. subst body. lia. }
  unfold new_tag, fresh. destruct old as [tag|]; [|apply Hheader; by left].
  apply wp_bind, wp_attempt. eapply wp_mono; [apply Hheader; right; by apply Hold|by intros tag' s1 ?|].
  intros e s1 _. apply Hheader. by left.
Qed.

(** The metadata that an edit starts from is that of the file. *)
Lemma wp_old_metadata aiff s : wp (old_metadata aiff) (fun m _ => forall head chunks rest, content = head ++ chunks_bytes chunks ++ rest ->
  len head = 12 -> len rest < 8 -> Forall (chunk_ok aiff) chunks -> m = old_value aiff head chunks) any s.
Proof.
  assert (forall head chunks rest, content = head ++ chunks_bytes chunks ++ rest -> len head = 12 -> len rest < 8 -> Forall (chunk_ok aiff) chunks ->
    wp (old_metadata aiff) (fun m _ => m = old_value aiff head chunks) any s) as Hone.
  { intros head chunks rest Hc Hh Hrest Hok. unfold old_metadata. apply wp_bind, wp_attempt, wp_bind, wp_seek_fault; [|intros e s1 _; by apply wp_throw].
    intros s1 Hp1. eapply wp_mono; [by eapply (wp_riff true aiff head chunks rest)| |].
    - intros m s2 Hm. apply wp_ret. destruct (Hm (or_introl eq_refl)) as [Hmagic Hv]. unfold old_value. by rewrite Hmagic, Hv.
    - intros f s2 Hf. destruct f as [e|e]; [by apply wp_throw|]. apply wp_ret. unfold old_value.
      destruct Hf as [[_ Hf]|[->|[Hv|Hs]]]; [by destruct (Hf eq_refl)|done| |by destruct Hs; left].
      destruct (riff_magic aiff head); [|done]. by destruct (riff_value aiff chunks). }
  unfold wp in *. destruct (old_metadata aiff s) as [[m|e] s1] eqn:E; [|done]. intros head chunks rest Hc Hh Hrest Hok. exact (Hone head chunks rest Hc Hh Hrest Hok).
Qed.

Lemma spliced_before from m l to : 0 <= from <= m -> within m l to -> spliced from l = slice content from m ++ spliced m l.
Proof.
  intros Hf Hl. destruct l as [|x l]; cbn [spliced within] in *; [by rewrite slice_drop|]. destruct Hl as [Hx _].
  by rewrite <- (slice_app content from m (start x)), <- app_assoc by lia.
Qed.

(** The sections of a walk with those of the size and of the new tag. *)
Lemma finished aiff given m w chunks news p k size added :
  Walked aiff given (info_fields given (metadata_fields m given)) w chunks news p -> len content < w_start w + 8 ->
  begins (magic aiff) (slice content 0 12) = true ->
  (k = [] /\ gain_only given = true \/ k = [mkSection (Z.min (w_start w) (len content)) (len content) (chunks_bytes added)] /\ gain_only given = false) ->
  let sections := sort_sections (w_sections w ++ mkSection 4 8 size :: k) in
  let rest := drop (Z.to_nat p) content in
  fits 0 sections /\ content = (magic aiff ++ slice content 4 12) ++ chunks_bytes chunks ++ rest /\
  (len rest < 8 \/ gain_only given = false /\ tag_kind (take 4 rest) = true) /\
  spliced 0 sections = magic aiff ++ size ++ slice content 8 12 ++
    (if gain_only given then chunks_bytes (concat news) ++ rest else chunks_bytes (concat news ++ added)).
Proof.
  intros [Hp Hc _ _ _ Hw Hpa _ Hst] Hend Hmagic Hk. cbv zeta. set (reach := Z.min (w_start w) (len content)) in *.
  apply within_le in Hw as Hreach.
  rewrite (sort_within 12 _ reach); [|done|cbn; lia|destruct Hk as [[-> _]|[-> _]]; [by left|right; eexists; split; [done|cbn; lia]]].
  assert (magic aiff = slice content 0 4) as Hm.
  { unfold begins in Hmagic. apply bool_decide_eq_true in Hmagic. rewrite <- Hmagic. unfold slice, magic. rewrite take_take. by destruct aiff. }
  assert (slice content p (p + 4) = take 4 (drop (Z.to_nat p) content)) as Hkind by (unfold slice; f_equal; lia).
  split_conj.
  - cbn [app fits TagIo.start finish]. split; [lia|]. split; [right; lia|]. apply (fits_within _ _ (len content)); [|done].
    assert (within 8 (w_sections w) reach) as Hw8.
    { destruct (w_sections w) as [|x l]; cbn [within] in *; [lia|]. destruct Hw. split; [lia|done]. }
    destruct Hk as [[-> _]|[-> _]]; [rewrite app_nil_r; apply (within_weaken _ _ reach); [done|unfold reach; lia]|].
    apply (within_app _ _ _ reach); [done|cbn; unfold reach; lia|cbn; lia].
  - rewrite <- Hc, Hm, slice_app, slice_drop, slice_drop by lia. by rewrite drop_0.
  - rewrite <- Hkind. destruct Hst as [Hs|(_ & Hg & Ht)]; [left|by right].
    unfold len in *. rewrite length_drop. lia.
  - cbn [app spliced TagIo.start finish data]. rewrite Hm. f_equal. f_equal.
    assert (within 12 (w_sections w ++ k) (len content)) as Hwk.
    { destruct Hk as [[-> _]|[-> _]]; [rewrite app_nil_r; apply (within_weaken _ _ reach); [done|unfold reach; lia]|].
      apply (within_app _ _ _ reach); [done|cbn; unfold reach; lia|cbn; lia]. }
    rewrite (spliced_before 8 12 _ (len content)) by (done || lia). f_equal. destruct Hk as [[-> Hg]|[-> Hg]]; rewrite Hg.
    + rewrite app_nil_r, (spliced_patched 12 _ reach) by (done || lia). rewrite Hpa.
      destruct Hst as [Hs|(_ & Hg' & _)]; [|congruence]. by replace reach with p by (unfold reach; lia).
    + rewrite spliced_last. cbn [TagIo.start finish data]. fold reach. rewrite Hpa, chunks_bytes_app, drop_ge by (unfold len; lia). by rewrite app_nil_r.
Qed.

Lemma wp_size_section aiff n (Q : FileSection -> Io -> Prop) s : (n < 2 ^ 32 -> Q (mkSection 4 8 (size_bytes aiff n)) s) -> wp (size_section aiff n) Q any s.
Proof. intros HQ. unfold size_section. destruct (Z.leb_spec (2 ^ 32) n); [by apply wp_throw|by apply wp_ret, HQ]. Qed.

(** The whole edit from a finished walk. *)
Lemma assembled aiff given m w chunks news p k added :
  let sections := sort_sections (w_sections w ++ mkSection 4 8 (size_bytes aiff (w_size w + len (chunks_bytes added))) :: k) in
  (forall head chunks rest, content = head ++ chunks_bytes chunks ++ rest -> len head = 12 -> len rest < 8 -> Forall (chunk_ok aiff) chunks ->
     m = old_value aiff head chunks) ->
  Walked aiff given (info_fields given (metadata_fields m given)) w chunks news p -> len content < w_start w + 8 ->
  begins (magic aiff) (slice content 0 12) = true -> Forall (chunk_ok aiff) added -> w_size w + len (chunks_bytes added) < 2 ^ 32 ->
  (gain_only given = true /\ k = [] /\ added = [] \/
   gain_only given = false /\ k = [mkSection (Z.min (w_start w) (len content)) (len content) (chunks_bytes added)] /\
   exists tag, added = [as_chunk aiff (tag_name aiff) tag] /\ new_tag_of aiff (metadata_fields m given) chunks tag) ->
  fits 0 sections /\ edited_riff aiff given (spliced 0 sections).
Proof.
  intros sections Hm Hw Hend Hmagic Hadded Hsmall Hk. pose proof (wk_place _ _ _ _ _ _ _ Hw) as Hp. pose proof (wk_size _ _ _ _ _ _ _ Hw) as Hsize.
  assert (len (slice content 4 12) = 8) as Hform by (rewrite len_slice; lia).
  assert (drop 4 (slice content 4 12) = slice content 8 12) as Hdrop by (apply (slice_skip content 4 8 12); lia).
  assert (len (slice content 8 12) = 4) as Hlen4 by (rewrite len_slice; lia).
  assert (len (slice content 8 12 ++ chunks_bytes (concat news ++ added)) = w_size w + len (chunks_bytes added)) as Hbody.
  { rewrite chunks_bytes_app, !len_app, Hlen4. lia. }
  destruct (finished aiff given m w chunks news p k (size_bytes aiff (w_size w + len (chunks_bytes added))) added) as (Hfits & Hc & Hrest & Hout);
    [done|done|done|by destruct Hk as [(? & ? & _)|(? & ? & _)]; [left|right]|].
  fold sections in Hfits, Hout. split; [done|].
  exists (slice content 4 12), chunks, (drop (Z.to_nat p) content), m, news, added, (if gain_only given then drop (Z.to_nat p) content else []). cbv zeta.
  rewrite Hdrop. split_conj; try done; try apply Hw.
  - intros Hr. apply (Hm _ _ _ Hc); [by rewrite len_app, Hform; destruct aiff|done|apply Hw].
  - apply Forall_app. split; [apply Hw|done].
  - by rewrite Hbody.
  - rewrite Hbody, Hout. destruct Hk as [(Hg & _ & Ha)|(Hg & _)]; rewrite Hg; rewrite ?Ha, <- ?app_assoc; [by rewrite app_nil_r|by rewrite app_nil_r].
  - destruct Hk as [(Hg & _ & Ha)|(Hg & _ & Ht)]; by rewrite Hg.
Qed.

Lemma wp_riff_edit aiff given cover s :
  wp (edit aiff given cover) (fun sections _ => fits 0 (sort_sections sections) /\ edited_riff aiff given (spliced 0 (sort_sections sections))) any s.
Proof.
  unfold edit. apply wp_bind. eapply wp_mono; [apply wp_old_metadata| |done]. intros m s1 Hm.
  apply wp_bind, wp_seek; [|done]. intros s2 _ _. apply wp_bind, wp_seek; [|done]. intros s3 Hp3 _.
  apply wp_bind, wp_bytes_of; [lia|done| |done]. intros s4 _ _ Hlen. rewrite Hp3. change (0 + 12) with 12.
  fold (magic aiff). destruct (begins (magic aiff) (slice content 0 12)) eqn:Hmagic; [|by apply wp_throw]. cbn [negb]. cbv zeta.
  apply wp_bind. eapply wp_mono; [apply wp_edit_chunks; [apply walked_first; lia|apply info_fields_kinds]| |done].
  intros w s5 (chunks & news & p & Hw & Htag). destruct (Z.leb_spec (w_start w + 8) (len content)) as [|Hend]; [by apply wp_throw|].
  destruct (gain_only given) eqn:Hgain.
  - apply wp_bind, wp_size_section. intros Hn. apply wp_ret.
    replace (w_size w) with (w_size w + len (chunks_bytes [])) in Hn |- * by (cbn; unfold len; simpl; lia).
    apply (assembled aiff given m w chunks news p [] []); try done; by left.
  - apply wp_bind. assert (forall s, wp (new_cover given cover (w_cover w)) (fun _ _ => True) any s) as Hcover.
    { intros s6. unfold new_cover. destruct cover as [[|b l]|]; [by apply wp_throw|by apply wp_ret|]. destruct (is_empty _); [by apply wp_ret|by apply wp_throw]. }
    eapply wp_mono; [apply Hcover| |done]. intros cover' s6 _. apply wp_bind.
    eapply wp_mono; [apply (wp_new_tag aiff _ _ _ _ chunks); [|exact Htag]| |done].
    { rewrite <- (wk_chunks _ _ _ _ _ _ _ Hw). unfold slice. apply Forall_take, Forall_drop, content_bytes. }
    intros tag s7 Hnew. cbv zeta. rewrite tag_chunk_bytes, <- chunks_bytes_one. apply wp_bind, wp_size_section. intros Hn. apply wp_ret.
    apply (assembled aiff given m w chunks news p); try done; [|right; split_conj; [done|done|by exists tag]].
    apply Forall_singleton, as_chunk_ok; [by destruct aiff|]. destruct Hnew as (? & ? & ? & ? & ? & _ & _ & _ & ?). unfold MAX_TAG_BYTES in *. lia.
Qed.

(** A step that writes nothing. *)
Lemma wp_unwritten {A} (m : St Io string A) (Q : A -> Io -> Prop) s :
  quiet m -> wp m Q any s -> wp m (fun a s' => Q a s' /\ written s' = written s) (fun _ s' => written s' = written s) s.
Proof. unfold wp. intros Hq. specialize (Hq s). by destruct (m s) as [[a|e] s1]. Qed.

(** C17: Editing the tags of a RIFF or AIFF file keeps every chunk that is no tag and no edited list of texts, byte for
    byte and in its order.  What an edit that succeeds has written is again a container with the right size of whole
    chunks: the ID3 chunks are gone, or have their frames edited where they are; an edited list has the kept entries
    and the new ones; and, unless only the ReplayGain fields were cleared, the last chunk is an ID3 tag made of the
    old tag, the metadata of the file and the fields of the edit.  An edit that fails, when nothing outside failed,
    has written nothing. *)
Theorem riff_edit_chunks aiff fields cover s :
  match rewrite_riff_tags aiff fields cover s with
  | (Ok _, s') => exists out, written s' = written s ++ out /\ edited_riff aiff (artist_mode_fields fields) out
  | (Err _, s') => calm -> written s' = written s
  end.
Proof.
  enough (wp (rewrite_riff_tags aiff fields cover) (fun _ s' => exists out, written s' = written s ++ out /\ edited_riff aiff (artist_mode_fields fields) out)
    (fun _ s' => calm -> written s' = written s) s) as Hwp.
  { unfold wp in Hwp. by destruct (rewrite_riff_tags aiff fields cover s) as [[[]|e] s']. }
  unfold rewrite_riff_tags. apply wp_bind, wp_check; [|by intros e s1 _ ?]. intros s1 _ Hw1.
  apply wp_bind, wp_validate; [|by intros e ?]. cbv zeta. apply wp_bind, wp_seek; [|by intros e s2 _ ? ?; congruence]. intros s2 _ Hw2.
  apply wp_bind. eapply wp_mono; [apply wp_unwritten; [apply unwritten_edit|apply wp_riff_edit]| |by intros e s3 ? ?; congruence].
  intros sections s3 [[Hfits Hout] Hw3]. eapply wp_mono; [apply wp_write_sections| |].
  - intros [] s4 [_ Hw4]. exists (spliced 0 (sort_sections sections)). split; [congruence|done].
  - intros e s4 Hc Hcalm. by destruct (Hc Hcalm).
Qed.
End whole.
