(* ===== verification/RiffReadSpec.v ===== *)
(** * What is read of a RIFF or AIFF file that the editor wrote *)

From S2P Require Import Prelude Monads RustText UnicodeText Matching TagIo VorbisComments FlacTags FlacHeader FlacTagsSpec TagFields ApeTags ApeSpec Id3Text Id3Tags Id3Spec TagComments FlacReader.
From S2P Require Import Id3Reader Id3ReaderSpec RiffReader RiffTags RiffReaderSpec RiffSpec.

(** ** The tag within the file *)

Section embedded.
Context `{Unicode} `{Images}.

Lemma embedded_tag edited :
  Forall readable edited -> Forall byte_ok (body_of edited) -> len (body_of edited) < 2 ^ 28 ->
  embedded (tag_bytes (body_of edited) 0) = Ok (f_metadata (fold_left read_one edited (mkFound default_metadata None))).
Proof.
  intros Hread Hbytes Hmax. set (body := body_of edited) in *. pose proof (len_nonneg body).
  set (h := str_bytes "ID3" ++ [4; 0; 0] ++ put_syncsafe (len body)). assert (length h = 10%nat) as Hh by done.
  assert (tag_bytes body 0 = h ++ body) as Htag by (unfold tag_bytes; cbn [Z.to_nat repeat]; by rewrite app_nil_r).
  assert (len (tag_bytes body 0) = 10 + len body) as Hlen by (rewrite Htag, len_app; unfold len; lia).
  assert (embedded_body (tag_bytes body 0) = body) as Hbody.
  { unfold embedded_body. rewrite Hlen. rewrite Htag. change (byte_at (h ++ body) 3) with 4. change (byte_at (h ++ body) 5) with 0.
    change (flagged 0 16) with false. change (flagged 0 64) with false. cbn [andb]. cbv zeta.
    assert (take 4 (drop 6 (h ++ body)) = put_syncsafe (len body)) as -> by done.
    rewrite <- (app_nil_r (put_syncsafe _)), syncsafe_put by lia. replace (10 + len body - 10) with (len body) by lia. rewrite Z.ltb_irrefl, orb_false_r.
    assert ((if len body =? 0 then len body else len body) = len body) as -> by (by destruct (len body =? 0)).
    unfold slice. change (Z.to_nat 10) with 10%nat. rewrite drop_app_length' by done. apply take_ge. unfold len. lia. }
  unfold embedded. rewrite Hbody, Hlen. rewrite Htag. rewrite (proj2 (Z.ltb_ge _ 10)) by lia.
  change (begins (str_bytes "ID3") (h ++ body)) with true. change (byte_at (h ++ body) 3) with 4. change (byte_at (h ++ body) 5) with 0.
  change (flagged 0 128) with false. cbn [negb orb]. unfold in_memory, all_frames.
  pose proof (@wp_frames (cursor body no_checks) _ _ (S (Z.to_nat (len body))) edited 0 [] (mkFound default_metadata None) (mkInput (len body) false) (mkIo 0 0 [])) as Hwp.
  unfold wp in Hwp. fold body in Hwp. rewrite Z.add_0_r in Hwp. unfold tail_at in Hwp. rewrite cursor_content in Hwp by done. cbn [position remaining Z.to_nat drop zeros repeat app] in Hwp.
  rewrite app_nil_r in Hwp. specialize (Hwp ltac:(lia) eq_refl Hread ltac:(by left) ltac:(lia) ltac:(lia)).
  destruct (frames _ _ _ _ _ _ _ _) as [[[found e]|e] s1]; cbn [fst]; [|done].
  assert (@calm (cursor body no_checks)) as Hcalm by (split_conj; done). by injection (Hwp Hcalm) as -> _.
Qed.
End embedded.

(** ** The fields of the edit *)

Lemma metadata_given {IN : Integers} m fields f v :
  f ∈ map fst (text_fields default_metadata) -> fields !! f = Some v -> metadata_fields m fields !! f = Some v.
Proof.
  intros Hin Hf. unfold metadata_fields. destruct m. cbn [text_fields number_fields fold_left default_metadata TagFields.title TagFields.artist TagFields.album TagFields.album_artist TagFields.date TagFields.genre TagFields.composer TagFields.label
    TagFields.copyright TagFields.isrc TagFields.lyrics TagFields.comment TagFields.album_type TagFields.upc TagFields.replay_gain_track_gain TagFields.replay_gain_track_peak TagFields.replay_gain_album_gain TagFields.replay_gain_album_peak map fst] in *.
  rewrite !elem_of_cons, elem_of_nil in Hin.
  repeat (destruct Hin as [->|Hin]; [rewrite !lookup_insert_ne by done; rewrite lookup_insert_eq; by rewrite Hf|]). done.
Qed.

(** A value that a text frame holds as it is. *)
Definition plain_value (v : string) : Prop :=
  is_str v /\ Forall (fun b => b <> 0) (str_bytes v) /\ blank v = false /\ len (str_bytes v) < 32 * 2 ^ 20.

Lemma readable_edited `{Unicode} fields cover mime old frames start :
  Forall byte_ok old -> read_tag old = Ok (frames, start) ->
  let edited := edited_frames fields cover mime frames in
  Forall (fun fr => frame_data fr <> [] /\ begins (str_bytes "3DI") (frame_id fr) = false) edited ->
  len (body_of edited) < 2 ^ 28 -> Forall readable edited.
Proof.
  intros Hb Hr edited Hd Hmax. destruct (read_tag_ok _ _ _ Hb Hr) as [Hok _]. pose proof (edited_frames_ok fields cover mime _ Hok) as Hok'. fold edited in Hok'.
  apply Forall_forall. intros f Hf. destruct (proj1 (Forall_forall _ _) Hd f Hf) as [Hdata H3].
  split; [|done]. split; [by apply (proj1 (Forall_forall _ _) Hok')|]. split; [done|]. pose proof (data_in_body f _ Hok' Hf). lia.
Qed.

Section read_back.
Context `{Unicode} `{Splits} `{Images} {IN : Integers}.

(** The metadata of the new tag has the values of the edit. *)
Lemma new_tag_fields m given cover mime old frames start f proj names v :
  Forall byte_ok old -> read_tag old = Ok (frames, start) ->
  (f, proj, names) ∈ ID3_FIELDS -> given !! f = Some v -> plain_value v ->
  proj (f_metadata (fold_left read_one (edited_frames (metadata_fields m given) cover mime frames) (mkFound default_metadata None))) = v.
Proof.
  intros Hb Hr Hin Hf (Hs & Hz & Hblank & Hlen). rewrite (field_of_frames f proj names) by done.
  destruct (edited_sets f proj names (metadata_fields m given) cover mime frames v Hin) as [id ->]; [|done|done| |].
  - apply metadata_given; [|done]. unfold ID3_FIELDS in Hin. rewrite !elem_of_cons, elem_of_nil in Hin.
    repeat (destruct Hin as [[= -> _ _]|Hin]; [cbn; set_solver|]). done.
  - by eapply read_tag_bytes.
  - cbn [map last default frame frame_data]. by apply text_value_frame.
Qed.

(** A file whose last chunk is a tag that counts. *)
Lemma riff_of_tag `{SRC : Source} aiff head cs tag m t :
  content = head ++ chunks_bytes (cs ++ [as_chunk aiff (tag_name aiff) tag]) -> len head = 12 -> riff_magic aiff head = true ->
  Forall (chunk_ok aiff) (cs ++ [as_chunk aiff (tag_name aiff) tag]) -> 0 < len tag <= 16 * 2 ^ 20 ->
  embedded tag = Ok m -> has_tags m = true -> position t = 0 -> calm -> (riff false aiff t).1 = Ok m.
Proof.
  intros Hc Hh Hmagic Hok Hlen Hm Htags Ht Hcalm. set (c := as_chunk aiff (tag_name aiff) tag) in *.
  destruct (as_chunk_ok aiff (tag_name aiff) tag ltac:(by destruct aiff) ltac:(lia)) as (_ & Hsize & Hbody). fold c in Hsize, Hbody.
  pose proof (wp_riff false aiff head (cs ++ [c]) [] t ltac:(by rewrite app_nil_r) Hh ltac:(done) Hok Ht) as Hwp.
  assert (riff_value aiff (cs ++ [c]) = Ok m) as Hv.
  { unfold riff_value. rewrite fold_left_app. cbn [fold_left]. unfold read_one_chunk. rewrite Hsize, Hbody.
    change (ck_kind c) with (tag_name aiff). assert (is_tag_kind (tag_name aiff) = true) as Hk by (by destruct aiff).
    unfold wanted_chunk, take_chunk. rewrite Hk. cbn [orb andb]. rewrite (proj2 (Z.ltb_lt 0 (len tag))), (proj2 (Z.leb_le (len tag) (16 * 2 ^ 20))) by lia.
    cbn [andb fst snd]. unfold riff_metadata. by rewrite Hm, Htags. }
  unfold wp in Hwp. destruct (riff false aiff t) as [[m'|f] t']; cbn [fst].
  - destruct (Hwp (or_intror Hcalm)) as [_ Hm']. congruence.
  - exfalso. destruct Hwp as [[Hno _]|[Hno|[Hno|Hno]]]; [done|congruence|by rewrite Hv in Hno|apply Hno; by right].
Qed.

(** The magic of the new file. *)
Lemma new_magic aiff form size rest : len form = 8 -> length size = 4%nat ->
  riff_magic aiff (take 12 ((magic aiff ++ form) ++ rest)) = true ->
  len (magic aiff ++ size ++ drop 4 form) = 12 /\ riff_magic aiff (magic aiff ++ size ++ drop 4 form) = true.
Proof.
  intros Hf Hs Hm. assert (length (magic aiff) = 4%nat) as Hl by (by destruct aiff).
  rewrite take_app_length' in Hm by (rewrite length_app; unfold len in Hf; lia). split.
  - rewrite !len_app. unfold len in *. rewrite length_drop. lia.
  - assert (drop 8 (magic aiff ++ size ++ drop 4 form) = drop 8 (magic aiff ++ form)) as Hd.
    { rewrite app_assoc, drop_app_length' by (rewrite length_app; lia). rewrite drop_app_ge by lia. by rewrite Hl. }
    unfold riff_magic in *. rewrite Hd. unfold magic, begins in *. destruct aiff; apply andb_true_iff in Hm as [_ ->]; by rewrite andb_true_r, take_app_length'.
Qed.

(** A title, an artist or an album makes tags count. *)
Lemma counted m f v : f ∈ ["title"; "artist"; "album"]%string -> blank v = false ->
  (forall g proj names, (g, proj, names) ∈ ID3_FIELDS -> g = f -> proj m = v) -> has_tags m = true.
Proof.
  intros Hf Hv Hall. assert (is_empty v = false) as He by (by destruct v). unfold has_tags.
  rewrite !elem_of_cons, elem_of_nil in Hf. destruct Hf as [->|[->|[->|[]]]].
  - rewrite (Hall "title" TagFields.title ["TIT2"])%string; [by rewrite He|unfold ID3_FIELDS; set_solver|done].
  - rewrite (Hall "artist" TagFields.artist ["TPE1"])%string; [by rewrite He, orb_true_r|unfold ID3_FIELDS; set_solver|done].
  - rewrite (Hall "album" TagFields.album ["TALB"])%string; [by rewrite He, orb_true_r|unfold ID3_FIELDS; set_solver|done].
Qed.

(** C18: What an edit of a RIFF or AIFF file sets is what is read of the file it wrote, if the edit sets a title, an
    artist or an album that is not blank, the new tag takes at most 16 MiB, every frame of it has data and an id that
    does not begin with that of a footer, 3DI, and reading does not fail from outside.  Then the reader takes exactly the
    frames of the new ID3 chunk, which is the last chunk of the file, and each text field that the edit named has the
    value it was given.  An edit of ReplayGain values alone keeps the old tag and is not meant here.  What happens
    without a title, artist or album is shown below ([untitled_tags_lost], [cleared_title_comes_back]). *)
Theorem riff_read_back (before after : Source) aiff fields cover tick s' t :
  let given := artist_mode_fields fields in
  @rewrite_riff_tags _ _ _ IN before aiff fields cover (mkIo tick 0 []) = (Ok tt, s') -> @content after = written s' -> position t = 0 ->
  gain_only given = false -> riff_magic aiff (take 12 (@content before)) = true -> @calm after ->
  exists m cover' mime frames,
    let edited := edited_frames (metadata_fields m given) cover' mime frames in
    let read := f_metadata (fold_left read_one edited (mkFound default_metadata None)) in
    (exists others, @content after = others ++ chunk_bytes (as_chunk aiff (tag_name aiff) (tag_bytes (body_of edited) 0))) /\
    (Forall (fun fr => frame_data fr <> [] /\ begins (str_bytes "3DI") (frame_id fr) = false) edited ->
     len (body_of edited) + 10 <= 16 * 2 ^ 20 ->
     (exists f v, f ∈ ["title"; "artist"; "album"]%string /\ given !! f = Some v /\ plain_value v) ->
     (@riff _ _ after false aiff t).1 = Ok read /\
     (forall f proj names v, (f, proj, names) ∈ ID3_FIELDS -> given !! f = Some v -> plain_value v -> proj read = v)).
Proof.
  intros given Hrun Hafter Ht Hgain Hmagic Hcalm. pose proof (@riff_edit_chunks _ _ _ IN before aiff fields cover (mkIo tick 0 [])) as Hedit.
  rewrite Hrun in Hedit. destruct Hedit as (out & Hw & form & chunks & rest & m & news & added & tail & Hc & Hform & Hok & _ & _ & _ & Hnews & Hlen & Hout & Hkind).
  fold given in Hout, Hkind. rewrite Hgain in Hkind. destruct Hkind as (-> & tag & -> & old & frames & start & cover' & mime & Hold & Hr & Htag & Hmax).
  exists m, cover', mime, frames. cbv zeta. set (edited := edited_frames (metadata_fields m given) cover' mime frames) in *. cbn [written app] in Hw. rewrite <- Hafter in Hw. split.
  { eexists. rewrite Hw, Hout, app_nil_r, chunks_bytes_app, chunks_bytes_one, <- Htag, !app_assoc. reflexivity. }
  intros Hgood Hsmall (f0 & v0 & Hf0 & Hg0 & Hv0).
  set (read := f_metadata _).
  assert (Forall byte_ok old) as Hob.
  { destruct Hold as [->|(c & Hin & _ & ->)]; [constructor|]. apply (chunk_bytes_ok aiff chunks); [|done].
    pose proof (@content_bytes before) as Hb. rewrite Hc, !Forall_app in Hb. apply Hb. }
  assert (forall f proj names v, (f, proj, names) ∈ ID3_FIELDS -> given !! f = Some v -> plain_value v -> proj read = v) as Hfields.
  { intros f proj names v Hin Hf Hv. unfold read, edited. by eapply new_tag_fields. }
  split; [|exact Hfields].
  assert (len tag = 10 + len (body_of edited)) as Htl by (rewrite Htag, tag_bytes_len by lia; lia).
  assert (Forall byte_ok (body_of edited)) as Hbb.
  { pose proof (@content_bytes after) as Hb. rewrite Hw, Hout, !Forall_app, chunks_bytes_app, Forall_app, chunks_bytes_one in Hb.
    destruct Hb as (_ & _ & [_ [_ Hb]] & _). unfold chunk_bytes, as_chunk in Hb. cbn [ck_kind ck_field ck_data] in Hb. rewrite !Forall_app, Htag in Hb.
    destruct Hb as (_ & _ & Hb & _). unfold tag_bytes in Hb. cbn [Z.to_nat repeat] in Hb. rewrite app_nil_r, !Forall_app in Hb. apply Hb. }
  pose proof (len_nonneg (body_of edited)).
  assert (Forall readable edited) as Hreadable.
  { assert (len (body_of edited) < 2 ^ 28) as H28 by lia. exact (readable_edited _ _ _ old frames start Hob Hr Hgood H28). }
  rewrite Hc, <- app_assoc in Hmagic.
  destruct (new_magic aiff form (size_bytes aiff (len (drop 4 form ++ chunks_bytes (concat news ++ [as_chunk aiff (tag_name aiff) tag])))) (chunks_bytes chunks ++ rest)) as [Hhead Hnew];
    [done|by destruct aiff|by rewrite <- !app_assoc in *|].
  eapply (@riff_of_tag after aiff _ (concat news) tag); [|exact Hhead|exact Hnew|done|lia| | |done|done].
  - rewrite Hw, Hout, app_nil_r. by rewrite <- !app_assoc.
  - rewrite Htag. exact (embedded_tag edited Hreadable Hbb ltac:(lia)).
  - apply (counted read f0 v0 Hf0); [apply Hv0|]. intros g proj names Hin ->. by apply (Hfields f0 proj names).
Qed.
End read_back.

(** ** Examples *)

Module RiffExample.
Import ApeExample.

Definition container (aiff : bool) (form : string) (chunks : bytes) : bytes :=
  magic aiff ++ size_bytes aiff (len chunks + 4) ++ str_bytes form ++ chunks.
Definition chunk (aiff : bool) (kind : string) (data : bytes) : bytes := chunk_bytes (as_chunk aiff (str_bytes kind) data).
Definition edit_of (l : bytes) (Hl : Forall byte_ok l) (aiff : bool) (fields : Fields) : result unit string * Io :=
  @rewrite_riff_tags _ _ _ digits (file_of l Hl) aiff fields None (mkIo 0 0 []).
Definition read_of (l : bytes) (Hl : Forall byte_ok l) (aiff : bool) : result AudioMetadata Fault :=
  (@riff _ _ (file_of l Hl) false aiff (mkIo 0 0 [])).1.

(** A WAVE file without tags. *)
Definition untagged : bytes := container false "WAVE" (chunk false "data" [1; 2; 3]).
Lemma untagged_bytes : Forall byte_ok untagged.
Proof. vm_compute. repeat constructor; done. Qed.

Definition text_tag (id text : string) : bytes := tag_bytes (body_of [frame id (3 :: str_bytes text)]) 0.
Definition tagged_with (id text : string) : bytes := container false "WAVE" (chunk false "data" [1; 2; 3] ++ chunk false "id3 " (text_tag id text)).
Lemma titled_bytes : Forall byte_ok (tagged_with "TIT2" "Song").
Proof. vm_compute. repeat constructor; done. Qed.
Lemma genre_bytes : Forall byte_ok (tagged_with "TCON" "Rock").
Proof. vm_compute. repeat constructor; done. Qed.

(** A tag without a title, an artist and an album is written but not read, and the next edit loses it. *)
Lemma untitled_tags_lost :
  written (edit_of untagged untagged_bytes false {["genre" := "Rock"]}%string).2 = tagged_with "TCON" "Rock" /\
  read_of _ genre_bytes false = Err (Broken "no WAV tags found") /\
  written (edit_of _ genre_bytes false {["composer" := "Ann"]}%string).2 = tagged_with "TCOM" "Ann".
Proof. split_conj; vm_compute; reflexivity. Qed.

(** Clearing the title of an AIFF file brings the name in its own chunk back. *)
Definition named : bytes := container true "AIFF" (chunk true "NAME" (str_bytes "Old")).
Definition cleared : bytes := container true "AIFF" (chunk true "NAME" (str_bytes "Old") ++ chunk true "ID3 " (tag_bytes [] 0)).
Lemma named_bytes : Forall byte_ok named.
Proof. vm_compute. repeat constructor; done. Qed.
Lemma cleared_bytes : Forall byte_ok cleared.
Proof. vm_compute. repeat constructor; done. Qed.
Lemma cleared_title_comes_back :
  written (edit_of named named_bytes true {["title" := ""]}%string).2 = cleared /\
  read_of cleared cleared_bytes true = Ok (set_title "Old" default_metadata).
Proof. split_conj; vm_compute; reflexivity. Qed.

Lemma riff_read_back_witness :
  exists m cover' mime frames,
    let given := artist_mode_fields FlacTagsSpec.FlacExample.title in
    let edited := edited_frames (@metadata_fields digits m given) cover' mime frames in
    let read := f_metadata (fold_left read_one edited (mkFound default_metadata None)) in
    (exists others, tagged_with "TIT2" "Song" = others ++ chunk_bytes (as_chunk false (tag_name false) (tag_bytes (body_of edited) 0))) /\
    (Forall (fun fr => frame_data fr <> [] /\ begins (str_bytes "3DI") (frame_id fr) = false) edited ->
     len (body_of edited) + 10 <= 16 * 2 ^ 20 ->
     (exists f v, f ∈ ["title"; "artist"; "album"]%string /\ given !! f = Some v /\ plain_value v) ->
     read_of _ titled_bytes false = Ok read /\
     (forall f proj names v, (f, proj, names) ∈ ID3_FIELDS -> given !! f = Some v -> plain_value v -> proj read = v)).
Proof.
  pose proof (@riff_read_back _ _ _ digits (file_of untagged untagged_bytes) (file_of (tagged_with "TIT2" "Song") titled_bytes) false
    FlacTagsSpec.FlacExample.title None 0 (edit_of untagged untagged_bytes false FlacTagsSpec.FlacExample.title).2 (mkIo 0 0 [])
    ltac:(vm_compute; reflexivity) ltac:(vm_compute; reflexivity) eq_refl eq_refl ltac:(vm_compute; reflexivity) ltac:(split_conj; done)) as Hx.
  exact Hx.
Defined.
End RiffExample.
