(* ===== verification/Mp4Reader.v ===== *)
(** * Reading the tags of MP4 files: [crates/core/src/tags/mp4.rs]

    The items are found below [moov], with or without a [udta] atom between.  Each item is read on its own: one that
    is broken counts as empty. *)

From S2P Require Import Prelude Monads RustText UnicodeText Matching TagIo VorbisComments FlacTags TagFields Id3Text Mp4Atoms Mp4Tags TagComments FlacReader Id3Reader.

Record TagAtom := mkTagAtom { t_payload : Z; t_end : Z; t_kind : bytes }.

(** [saturating_add] on [u64]. *)
Definition plus_8 (offset : Z) : Z := Z.min (offset + 8) (2 ^ 64 - 1).

(** [text]. *)
Definition item_text (data : bytes) : string := trim (trim_end_nul (text_utf8 data)).

(** The fields behind the names of freeform items. *)
Definition apply_freeform `{Unicode} (m : AudioMetadata) (name value : string) : AudioMetadata :=
  let key := uppercase (trim name) in
  let named n := String.eqb key n in
  let fill (get : AudioMetadata -> string) (set : string -> AudioMetadata -> AudioMetadata) := if is_empty (get m) then set value m else m in
  if named "ISRC" then set_isrc value m
  else if named "LABEL" || named "ORGANIZATION" then set_label value m
  else if named "COMMENT" then fill comment set_comment
  else if named "COMPOSER" then fill composer set_composer
  else if named "COPYRIGHT" then fill copyright set_copyright
  else if named "LYRICS" || named "UNSYNCEDLYRICS" || named "SYNCEDLYRICS" then fill lyrics set_lyrics
  else if named "REPLAYGAIN_TRACK_GAIN" then set_replay_gain_track_gain value m
  else if named "REPLAYGAIN_TRACK_PEAK" then set_replay_gain_track_peak value m
  else if named "REPLAYGAIN_ALBUM_GAIN" then set_replay_gain_album_gain value m
  else if named "REPLAYGAIN_ALBUM_PEAK" then set_replay_gain_album_peak value m
  else if named "ITUNESADVISORY" then set_explicit (truthy value) m
  else if named "RELEASETYPE" then set_album_type value m
  else if named "BARCODE" || named "UPC" then set_upc value m
  else m.

Section reader.
Context `{Source} `{Unicode}.
Abbreviation P := (St Io string).

(** [Reader::atom]. *)
Definition tag_atom (size offset end_ : Z) : P TagAtom :=
  if size <? plus_8 offset then throw "unexpected EOF"%string
  else
    seek offset;;
    do header <- bytes_of 8;
    let kind := drop 4 header in
    let n := from_be (take 4 header) in
    do x <- (if n =? 1 then do b <- bytes_of 8; ret (from_be b, 16)
             else ret (if n =? 0 then Z.max 0 (end_ - offset) else n, 8));
    let '(n, header_size) := x in
    if (n <? header_size) || (i64_max <? n) || (2 ^ 64 <=? offset + n) then throw ("invalid atom size for " ++ text_utf8 kind)%string
    else ret (mkTagAtom (offset + header_size) (offset + n) kind).

(** [Reader::find]; every atom takes eight bytes of the file or more. *)
Fixpoint find_atom (fuel : nat) (size offset end_ : Z) (kind : bytes) : P (option TagAtom) :=
  match fuel with
  | O => throw "out of fuel"%string
  | S fuel =>
    if plus_8 offset <=? end_ then
      do a <- tag_atom size offset end_;
      if bool_decide (t_kind a = kind) then ret (Some a) else find_atom fuel size (t_end a) end_ kind
    else ret None
  end.
Definition FUEL : nat := S (length content).
Definition find_kind (size offset end_ : Z) (kind : string) : P (option TagAtom) := find_atom FUEL size offset end_ (kind_of kind).

(** [.ok().flatten()]. *)
Definition found_or_none {A} (m : P (option A)) : P (option A) :=
  do r <- attempt m;
  ret (match r with Ok x => x | Err _ => None end).

(** [Reader::payload] behind a prefix. *)
Definition payload (size : Z) (a : TagAtom) (prefix : Z) : P bytes :=
  let start := t_payload a + prefix in
  let length := t_end a - start in
  if (length <=? 0) || (32 * 2 ^ 20 <? length) || (size <? t_end a) then throw "invalid atom payload"%string
  else seek start;; bytes_of length.

Definition item_data (size : Z) (parent : TagAtom) : P bytes :=
  do a <- find_kind size (t_payload parent) (t_end parent) "data";
  match a with Some a => payload size a 8 | None => throw "data atom not found"%string end.

Definition text_item (size : Z) (a : TagAtom) : P string :=
  do r <- attempt (item_data size a);
  ret (match r with Ok data => item_text data | Err _ => ""%string end).

Definition pair_item (size : Z) (a : TagAtom) : P (Z * Z) :=
  do r <- attempt (item_data size a);
  ret (match r with
       | Ok data => if 6 <=? len data then (from_be (slice data 2 4), from_be (slice data 4 6)) else (0, 0)
       | Err _ => (0, 0)
       end).

Definition last_byte (size : Z) (a : TagAtom) : P (option Z) :=
  do r <- attempt (item_data size a);
  ret (match r with Ok data => last data | Err _ => None end).

(** [Reader::freeform]: the last name and the last value of an item. *)
Fixpoint freeform_loop (fuel : nat) (size offset end_ : Z) (name value : string) : P (string * string) :=
  match fuel with
  | O => throw "out of fuel"%string
  | S fuel =>
    if plus_8 offset <=? end_ then
      do a <- tag_atom size offset end_;
      do name <- (if bool_decide (t_kind a = kind_of "name") then
                    do r <- attempt (payload size a 4); ret (match r with Ok data => item_text data | Err _ => name end)
                  else ret name);
      do value <- (if bool_decide (t_kind a = kind_of "data") then
                     do r <- attempt (payload size a 8); ret (match r with Ok data => item_text data | Err _ => value end)
                   else ret value);
      freeform_loop fuel size (t_end a) end_ name value
    else if is_empty name || is_empty value then throw "freeform M4A tag incomplete"%string
    else ret (name, value)
  end.
Definition freeform_item (size : Z) (a : TagAtom) : P (option (string * string)) :=
  do r <- attempt (freeform_loop FUEL size (t_payload a) (t_end a) "" "");
  ret (match r with Ok x => Some x | Err _ => None end).

(** One item. *)
Definition read_item (size : Z) (m : AudioMetadata) (a : TagAtom) : P AudioMetadata :=
  let is_kind kind := bool_decide (t_kind a = kind) in
  if is_kind (c_kind "nam") then do v <- text_item size a; ret (set_title v m)
  else if is_kind (c_kind "ART") then do v <- text_item size a; ret (set_artist v m)
  else if is_kind (c_kind "alb") then do v <- text_item size a; ret (set_album v m)
  else if is_kind (kind_of "aART") then do v <- text_item size a; ret (set_album_artist v m)
  else if is_kind (c_kind "day") then do v <- text_item size a; ret (set_year v (set_date v m))
  else if is_kind (c_kind "gen") then do v <- text_item size a; ret (set_genre v m)
  else if is_kind (c_kind "wrt") then do v <- text_item size a; ret (set_composer v m)
  else if is_kind (c_kind "cmt") then do v <- text_item size a; ret (set_comment v m)
  else if is_kind (kind_of "cprt") then do v <- text_item size a; ret (set_copyright v m)
  else if is_kind (c_kind "lyr") then do v <- text_item size a; ret (set_lyrics v m)
  else if is_kind (kind_of "trkn") then do p <- pair_item size a; ret (set_track p m)
  else if is_kind (kind_of "disk") then do p <- pair_item size a; ret (set_disc p m)
  else if is_kind (kind_of "rtng") then
    do b <- last_byte size a; ret (match b with Some b => set_explicit (b =? 1) m | None => m end)
  else if is_kind (kind_of "cpil") then
    do b <- last_byte size a;
    ret (match b with Some b => if negb (b =? 0) && is_empty (album_type m) then set_album_type "compilation" m else m | None => m end)
  else if is_kind (kind_of "----") then
    do r <- freeform_item size a; ret (match r with Some (name, value) => apply_freeform m name value | None => m end)
  else ret m.

Fixpoint read_items (fuel : nat) (size position end_ : Z) (m : AudioMetadata) : P AudioMetadata :=
  match fuel with
  | O => throw "out of fuel"%string
  | S fuel =>
    if plus_8 position <=? end_ then
      do a <- tag_atom size position end_;
      do m <- read_item size m a;
      read_items fuel size (t_end a) end_ m
    else ret m
  end.

(** [Reader::metadata]: the items of a [meta] atom, with or without its version. *)
Definition meta_items (size : Z) (parent : TagAtom) : P (option TagAtom) :=
  do meta <- found_or_none (find_kind size (t_payload parent) (t_end parent) "meta");
  match meta with
  | None => ret None
  | Some meta =>
    do ilst <- found_or_none (find_kind size (t_payload meta + 4) (t_end meta) "ilst");
    match ilst with
    | Some ilst => ret (Some ilst)
    | None => found_or_none (find_kind size (t_payload meta) (t_end meta) "ilst")
    end
  end.

(** [Reader::ilst]. *)
Definition find_ilst (size : Z) : P TagAtom :=
  do moov <- found_or_none (find_kind size 0 size "moov");
  match moov with
  | None => throw "moov not found"%string
  | Some moov =>
    do udta <- found_or_none (find_kind size (t_payload moov) (t_end moov) "udta");
    do ilst <- match udta with Some udta => meta_items size udta | None => ret None end;
    do ilst <- match ilst with Some ilst => ret (Some ilst) | None => meta_items size moov end;
    match ilst with
    | Some ilst => ret ilst
    | None => throw "ilst not found (tried moov>udta>meta>ilst and moov>meta>ilst)"%string
    end
  end.

Definition mp4_read : P AudioMetadata :=
  do size <- seek (len content);
  do ilst <- find_ilst size;
  do m <- read_items FUEL size (t_payload ilst) (t_end ilst) default_metadata;
  if bool_decide (m = default_metadata) then throw "no M4A tags found"%string else ret m.

Definition mp4_cover : P CoverArt :=
  do size <- seek (len content);
  do ilst <- find_ilst size;
  do cover <- found_or_none (find_kind size (t_payload ilst) (t_end ilst) "covr");
  match cover with
  | None => throw "cover atom not found"%string
  | Some cover =>
    do data <- found_or_none (find_kind size (t_payload cover) (t_end cover) "data");
    match data with
    | None => throw "data atom not found in cover"%string
    | Some a =>
      if t_end a <=? t_payload a + 8 then throw "empty cover data"%string
      else
        do data <- payload size a 8;
        ret (mkCover data (if (8 <=? len data) && begins PNG data then "image/png"%string else "image/jpeg"%string))
    end
  end.
End reader.
