(* ===== verification/TagDispatch.v ===== *)
(** * Which reader and which writer a file gets: [crates/core/src/tags.rs] and [rewrite_audio_tags] of [tags/write.rs]

    A format names its container, but for two extensions that name several; the bytes a file begins with tell the
    container of a name that cannot be trusted.  Reads that are interrupted and made again count as one. *)

From S2P Require Import Prelude Monads RustText UnicodeText Matching TagIo VorbisComments FlacTags FlacHeader FlacTagsSpec TagFields Id3Text Id3Spec Mp4Tags TagComments FlacReader.
From S2P Require Ogg ApeTags Id3Tags RiffTags OggReader ApeReader Id3Reader RiffReader Mp4Reader.
Import Id3Tags(read_up_to).

(** [media::is_adts_frame]. *)
Definition is_adts_frame (header : bytes) : bool :=
  (2 <=? len header) && (byte_at header 0 =? 255) && (Z.land (byte_at header 1) 246 =? 240).

Definition is_mp4 (header : bytes) : bool := (8 <=? len header) && bool_decide (take 4 (drop 4 header) = str_bytes "ftyp").

Section dispatch.
Context `{Source}.
Abbreviation P := (St Io string).

(** [read_prefix]: as many bytes as there are. *)
Definition read_prefix (offset need : Z) : P bytes := seek offset;; read_up_to (Z.to_nat need) need [].

Definition read_container_format (format : string) : P string :=
  if negb (String.eqb format "opus" || String.eqb format "aac") then ret format
  else
    do header <- read_prefix 0 10;
    do container <- (if is_mp4 header then ret (if String.eqb format "opus" then "m4a"%string else format)
      else if String.eqb format "aac" then
        do sync <- (match v2_tag_length header with Some tag => read_prefix tag 2 | None => ret (take 2 header) end);
        ret (if is_adts_frame sync then "adts"%string else format)
      else ret format);
    seek 0;;
    ret container.

(** MPEG audio of layer III. *)
Definition is_layer_3 (start : bytes) : bool := (2 <=? len start) && (byte_at start 0 =? 255) && (Z.land (byte_at start 1) 230 =? 226).

Definition sniff_container : P string :=
  do header <- read_prefix 0 10;
  do start <- (match v2_tag_length header with Some tag => read_prefix tag 4 | None => ret (take 4 header) end);
  let container := if bool_decide (start = FLAC) then "flac"%string
                   else if is_mp4 header then "m4a"%string
                   else if is_layer_3 start then "mp3"%string
                   else ""%string in
  seek 0;;
  ret container.
End dispatch.

Section tags.
Context `{Source} `{Unicode} `{Splits} `{Images} `{OggReader.Base64} {IN : Integers} `{Mp4Tags.GainText} (base64 : bytes -> string).
Abbreviation P := (St Io string).
Definition is_one (format : string) (names : list string) : bool := existsb (String.eqb format) names.

(** [read_tags]; with [Some] a cover is wanted. *)
Definition read_tags (format : string) (cover : option (option CoverArt)) : P (AudioMetadata * option (option CoverArt)) :=
  check;;
  seek 0;;
  do format <- read_container_format format;
  let plain (m : P AudioMetadata) : P (AudioMetadata * option (option CoverArt)) := do m <- m; ret (m, cover) in
  do result <- attempt (
    if String.eqb format "flac" then
      match cover with
      | Some cover => do r <- flac_with_cover cover; ret (r.1, Some r.2)
      | None => plain flac
      end
    else if is_one format ["m4a"; "mp4"; "aac"]%string then plain Mp4Reader.mp4_read
    else if String.eqb format "mp3" then plain Id3Reader.id3_read
    else if String.eqb format "adts" then
      plain (do r <- attempt Id3Reader.id3_read; match r with Ok m => ret m | Err _ => ApeReader.ape end)
    else if is_one format ["ogg"; "opus"]%string then plain OggReader.ogg
    else if is_one format ["ape"; "wv"; "mpc"]%string then plain ApeReader.ape
    else if String.eqb format "wav" then plain (mapping RiffReader.fault_text (RiffReader.riff false false))
    else if is_one format ["aiff"; "aif"; "aifc"]%string then plain (mapping RiffReader.fault_text (RiffReader.riff false true))
    else throw "unsupported audio tag format"%string);
  check;;
  match result with Ok r => ret r | Err e => throw e end.
Definition read_audio_tags (format : string) : P AudioMetadata := do r <- read_tags format None; ret r.1.

(** [rewrite_audio_tags]: each branch begins with the same checks. *)
Definition rewrite_tags (format : string) (fields : Fields) (cover : option bytes) : P unit :=
  if is_one format ["wav"; "aiff"; "aif"; "aifc"]%string then RiffTags.rewrite_riff_tags (negb (String.eqb format "wav")) fields cover
  else if is_one format ["ogg"; "opus"]%string then Ogg.rewrite_ogg_tags base64 fields cover
  else if is_one format ["ape"; "wv"; "mpc"]%string then ApeTags.rewrite_ape_tags fields cover
  else if is_one format ["m4a"; "mp4"; "m4b"]%string then rewrite_mp4_tags fields cover
  else if String.eqb format "flac" then FlacTags.rewrite_audio_tags fields cover
  else if String.eqb format "mp3" then Id3Tags.rewrite_mp3_tags fields cover
  else
    check;;
    validate_fields fields;;
    seek 0;;
    throw ("unsupported tag writer: " ++ format)%string.
End tags.

(** ** Sniffing *)

Section sniff.
Context {SRC : Source}.

Lemma wp_read_prefix offset need (Q : bytes -> Io -> Prop) s :
  0 <= offset -> 0 <= need ->
  (forall s', Q (take (Z.to_nat need) (drop (Z.to_nat offset) content)) s') -> wp (read_prefix offset need) Q (fun _ _ => ~ calm) s.
Proof.
  intros Ho Hn HQ. unfold read_prefix. apply wp_bind, wp_seek; [|by intros e s1 Hc _]. intros s1 Hp1 _.
  apply wp_read_up_to; [lia|lia| |by intros e s2 Hc _]. intros s2 _. rewrite Hp1. apply HQ.
Qed.

Lemma v2_tag_magic l n : v2_tag_length l = Some n -> take 3 l = str_bytes "ID3" /\ 10 <= len l.
Proof.
  unfold v2_tag_length. destruct (_ || _) eqn:E; [done|]. intros _. rewrite !orb_false_iff, negb_false_iff, bool_decide_eq_true in E.
  destruct E as [[Hlen%Z.ltb_ge Hid] _]. done.
Qed.

(** The bytes that are looked at. *)
Definition sniffed_start (l : bytes) : bytes :=
  match v2_tag_length (take 10 l) with Some tag => take 4 (drop (Z.to_nat tag) l) | None => take 4 l end.

Lemma sniffed l : sniffed_start l = FLAC <-> is_Some (flac_offset l).
Proof.
  assert (forall l' : bytes, take 4 l' = FLAC -> 4 <= len l') as H4.
  { intros l' E. apply (f_equal length) in E. rewrite length_take in E. change (length FLAC) with 4%nat in E. unfold len. lia. }
  unfold sniffed_start, flac_offset. destruct (v2_tag_length (take 10 l)) as [n|] eqn:E.
  - destruct (v2_tag_magic _ _ E) as [Hid Hlen]. rewrite take_take in Hid. change (Nat.min 3 10) with 3%nat in Hid.
    assert (10 <= len l) by (unfold len in *; rewrite length_take in Hlen; lia).
    rewrite (proj2 (Z.ltb_ge (len l) 4)), (bool_decide_eq_true_2 _ Hid), (proj2 (Z.ltb_ge (len l) 10)) by lia.
    destruct (Z.ltb_spec (len (drop (Z.to_nat n) l)) 4) as [Hs|Hs].
    + split; [intros Hf; specialize (H4 _ Hf); lia|by intros [? ?]].
    + case_bool_decide as Hf; split; try done; by intros [? ?].
  - destruct (Z.ltb_spec (len l) 4) as [Hs|Hs]; [split; [intros Hf; specialize (H4 _ Hf); lia|by intros [? ?]]|].
    case_bool_decide as Hid.
    + assert ((if len l <? 10 then None else None) = @None Z) as -> by (by case_bool). split; [|by intros [? ?]].
      intros Hf. apply (f_equal (take 3)) in Hf. rewrite take_take in Hf. change (Nat.min 3 4) with 3%nat in Hf. rewrite Hid in Hf. done.
    + rewrite drop_0. case_bool_decide as Hf; split; try done; by intros [? ?].
Qed.

(** A file is taken for FLAC exactly when the FLAC editor finds its marker, at the beginning or behind an ID3 tag;
    and the file is left at its beginning.  This fails only if something outside does. *)
Theorem sniff_flac s :
  match sniff_container s with
  | (Ok container, s') => position s' = 0 /\ (container = "flac"%string <-> is_Some (flac_offset content))
  | (Err _, _) => ~ calm
  end.
Proof.
  enough (wp sniff_container (fun c s' => position s' = 0 /\ (c = "flac"%string <-> is_Some (flac_offset content))) (fun _ _ => ~ calm) s) as Hwp.
  { unfold wp in Hwp. by destruct (sniff_container s) as [[c|e] s']. }
  unfold sniff_container. apply wp_bind, wp_read_prefix; [done|done|]. intros s1. rewrite drop_0. change (Z.to_nat 10) with 10%nat.
  apply wp_bind. set (start := sniffed_start content).
  assert ((start = FLAC) <-> is_Some (flac_offset content)) as Hstart.
  { apply sniffed. }
  assert (wp (match v2_tag_length (take 10 content) with Some tag => read_prefix tag 4 | None => ret (take 4 (take 10 content)) end)
    (fun r _ => r = start) (fun _ _ => ~ calm) s1) as Hread.
  { unfold start, sniffed_start. destruct (v2_tag_length (take 10 content)) as [n|] eqn:E.
    - pose proof (v2_tag_length_nonneg _ _ (Forall_take _ 10 _ content_bytes) E). apply wp_read_prefix; [lia|done|done].
    - apply wp_ret. rewrite take_take. done. }
  eapply wp_mono; [exact Hread| |done]. intros r s2 ->. cbv zeta. apply wp_bind, wp_seek; [|by intros e s3 Hc _]. intros s3 Hp3 _. apply wp_ret.
  split; [done|]. rewrite <- Hstart. case_bool_decide as Hflac; [done|]. split; [|done].
  intros Heq. exfalso. revert Heq. destruct (is_mp4 _); [done|]. by destruct (is_layer_3 _).
Qed.
End sniff.
