(* ===== verification/IsrcCache.v ===== *)
(** * The ISRC index cache: [crates/core/src/isrc/cache.rs]

    For each directory the cache has one index: which file has which ISRC, and what was read of each file.  Callers
    look ISRCs up, add the files they have downloaded, and invalidate directories; one caller at a time builds the
    index of a directory.  Each caller is a state machine whose steps are the locked sections of the code and its calls
    of the file system; a schedule says which caller moves next and what the outside answers.

    The reference counts of the builders are counters of the model.  The sizes of the layout and the capacity of a
    collected text are parameters; sums of sizes that are in memory do not wrap, which is what [State_store] and the
    invariants of [IsrcCacheSpec] need of them.  A file access that panics is not modelled. *)

From S2P Require Import Prelude RustText UnicodeText Matching CharText Paths RiffTags.

(** [size_of] of the types that are counted, and the capacity of the text that [uppercase] collects. *)
Class Layout := mkLayout { size_cached : N; size_match : N; size_file : N; size_listed : N; size_index : N; collected : string -> N }.

(** A [String] with the capacity of its allocation.  [clone] and [into] allocate just the text. *)
Record Owned := mkOwned { text : string; capacity : N }.
Definition own (s : string) : Owned := mkOwned s (N.of_nat (String.length s)).
Definition clone (s : Owned) : Owned := own (text s).

Record FileStamp := mkStamp { path : Owned; size : Z; modified_ns : Z; directory : bool }.

(** [==] of stamps. *)
Definition same_stamp (a b : FileStamp) : bool :=
  String.eqb (text (path a)) (text (path b)) && (size a =? size b) && (modified_ns a =? modified_ns b) && Bool.eqb (directory a) (directory b).

Record FileEntry := mkFileEntry { stamp : FileStamp; isrc : Owned }.

Abbreviation Files := (gmap string FileEntry).

(** No code reads [epoch]: how often the directory had been invalidated when the build of the index began. *)
Record IndexOf := mkIndex { entries : gmap string Owned; files : Files; bytes : Z; built_at : Z; epoch : nat }.

Record Builder := mkBuilder { locked : bool; generation : nat; strong : nat }.

Record Cached := mkCached { index : nat; c_bytes : Z; used : Z }.

Record State := mkState { indexes : gmap string Cached; builders : gmap string nat; s_bytes : Z; sequence : Z }.

Definition MAX_DIRECTORIES : Z := 32.
Definition MAX_INDEX_BYTES : Z := 16 * 2 ^ 20.

(** ** The state *)

Definition State_remove (d : string) (s : State) : State :=
  match indexes s !! d with
  | Some entry => mkState (delete d (indexes s)) (builders s) (s_bytes s - c_bytes entry) (sequence s)
  | None => s
  end.

(** [min_by_key(used)]: the first of the least in the order of the directories. *)
Definition older (best : option (string * Cached)) (p : string * Cached) : option (string * Cached) :=
  match best with
  | None => Some p
  | Some q => if used p.2 <? used q.2 then Some p else best
  end.

Definition oldest (m : gmap string Cached) : option string := fst <$> foldl older None (btree_iter m).

(** The loop that makes room; [None] is its panic on an empty cache.  Each round removes an index, so their number is
    enough fuel. *)
Fixpoint make_room (fuel : nat) (needed : Z) (s : State) : option State :=
  if (MAX_DIRECTORIES <=? Z.of_nat (base.size (indexes s))) || (MAX_INDEX_BYTES <? s_bytes s + needed) then
    match oldest (indexes s), fuel with
    | Some d, S fuel => make_room fuel needed (State_remove d s)
    | _, _ => None
    end
  else Some s.

Section cache.
Context `{Unicode} `{Layout} (ttl : Z).

Definition State_store (d : string) (i : nat) (n : Z) (s : State) : option State :=
  let s := State_remove d s in
  let n := Z.min (2 ^ 64 - 1) (n + len (str_bytes d) + Z.of_N size_cached + 64) in
  if MAX_INDEX_BYTES <? n then Some s
  else
    s ← make_room (base.size (indexes s)) n s;
    Some (mkState (<[d := mkCached i n (sequence s + 1)]> (indexes s)) (builders s) (s_bytes s + n) (sequence s + 1)).

(** ** The index *)

Definition insert_match (key p : Owned) (ix : IndexOf) : IndexOf :=
  let n := match entries ix !! text key with
           | Some old => bytes ix - Z.of_N (capacity old) + Z.of_N (capacity p)
           | None => bytes ix + (Z.of_N size_match + 64 + Z.of_N (capacity key) + Z.of_N (capacity p))
           end in
  mkIndex (<[text key := p]> (entries ix)) (files ix) n (built_at ix) (epoch ix).

Definition cost (f : FileEntry) : Z := Z.of_N size_file + 32 + Z.of_N (capacity (path (stamp f))) + Z.of_N (capacity (isrc f)).

Definition insert_file (p : Owned) (f : FileEntry) (ix : IndexOf) : IndexOf :=
  let n := match files ix !! text p with
           | Some old => bytes ix - cost old + cost f
           | None => bytes ix + (Z.of_N size_listed + 64 + Z.of_N (capacity p) + cost f)
           end in
  mkIndex (entries ix) (<[text p := f]> (files ix)) n (built_at ix) (epoch ix).

Definition supported (p : string) : bool := bool_decide (extension p ∈ ["flac"; "mp3"; "m4a"; "ogg"; "opus"]%string).

(** An unchanged file keeps what was read of it; a changed one waits. *)
Definition take_listed (previous : Files) (acc : IndexOf * list FileStamp) (st : FileStamp) : IndexOf * list FileStamp :=
  if directory st || negb (supported (text (path st))) then acc
  else
    match previous !! text (path st) with
    | Some e =>
      if same_stamp (stamp e) st then
        let ix := if is_empty (text (isrc e)) then acc.1 else insert_match (clone (isrc e)) (clone (path st)) acc.1 in
        (insert_file (path st) e ix, acc.2)
      else (acc.1, acc.2 ++ [st])
    | None => (acc.1, acc.2 ++ [st])
    end.

Definition parsed (s : string) : Owned := mkOwned (uppercase s) (collected s).

(** What the four workers leave in the places of the changed files, if no read fails. *)
Fixpoint read_all (read : string -> result string string) (stamps : list FileStamp) : option (list Owned) :=
  match stamps with
  | [] => Some []
  | st :: stamps =>
    match read (text (path st)) with
    | Ok s => cons (parsed s) <$> read_all read stamps
    | Err _ => None
    end
  end.

Definition take_changed (ix : IndexOf) (p : FileStamp * Owned) : IndexOf :=
  let '(st, s) := p in
  let ix := if is_empty (text s) then ix else insert_match (clone s) (clone (path st)) ix in
  insert_file (clone (path st)) (mkFileEntry st s) ix.

Definition new_index (now : Z) (e : nat) : IndexOf := mkIndex ∅ ∅ (Z.of_N size_index + 2048) now e.

(** The index of the listed files.  When reads fail, one of their errors is the result. *)
Definition build (previous : Files) (listed : list FileStamp) (read : string -> result string string) (failure : string)
    (now : Z) (e : nat) : result IndexOf string :=
  let '(ix, changed) := foldl (take_listed previous) (new_index now e, []) listed in
  match read_all read changed with
  | Some values => Ok (foldl take_changed ix (zip changed values))
  | None => Err failure
  end.

(** ** The callers *)

Inductive Call :=
| Index (d : string) (force : bool)
| Check (d isrc : string)
| Add (d isrc p : string)
| Invalidate (d : string)
| Clear.

Inductive Value := Nothing | Path (p : string) | Shared (i : nat).

Inductive Phase :=
| Entering
| Starting
| Seeking (b : option nat)
| Ageing (b : option nat) (i : nat)
| Registering
| Locking (b : nat)
| Loading (b : nat)
| Recalling (b g e : nat)
| Copying (b g e i : nat)
| Building (b g e : nat) (previous : Files)
| Storing (b g : nat) (ix : IndexOf)
| Unlocking (b : nat) (r : result nat string)
| Dropping (b : nat) (r : result nat string)
| Looking (i : nat)
| Stating (i : nat) (key p : string)
| Forgetting (i : nat) (key : string)
| Adding
| Inspecting (i : nat)
| Inserting (i : nat) (st : option FileStamp)
| Restoring (i : nat) (n : Z)
| Dismissing
| Returned (r : result Value string)
| Panicked.

(** What the outside answers: the caller's checks in a step, the clock, and the files. *)
Record Answer := mkAnswer {
  checked : result unit string; now : Z; listed : result (list FileStamp) string; read : string -> result string string;
  failure : string; stat : result (option FileStamp) string }.

(** The state, every index and every builder ever made, and the invalidations so far, of one directory or of all. *)
Record Cache := mkCache { state : State; heap : list IndexOf; pool : list Builder; past : list (option string) }.

Definition concerns (d : string) (o : option string) : bool := match o with Some d' => String.eqb d' d | None => true end.
Definition epoch_of (past : list (option string)) (d : string) : nat := length (List.filter (concerns d) past).

Definition on_state (f : State -> State) (c : Cache) : Cache := mkCache (f (state c)) (heap c) (pool c) (past c).
Definition on_index (i : nat) (f : IndexOf -> IndexOf) (c : Cache) : Cache := mkCache (state c) (alter f i (heap c)) (pool c) (past c).
Definition on_builder (b : nat) (f : Builder -> Builder) (c : Cache) : Cache := mkCache (state c) (heap c) (alter f b (pool c)) (past c).

Definition lock (l : bool) (b : Builder) : Builder := mkBuilder l (generation b) (strong b).
Definition bump (b : Builder) : Builder := mkBuilder (locked b) (S (generation b)) (strong b).
Definition upgrade (b : Builder) : Builder := mkBuilder (locked b) (generation b) (S (strong b)).
Definition release (b : Builder) : Builder := mkBuilder (locked b) (generation b) (pred (strong b)).

Definition alive (pool : list Builder) (b : nat) : bool :=
  match pool !! b with Some b => (0 <? strong b)%nat | None => false end.

(** [builders.retain] *)
Definition retain (c : Cache) : Cache :=
  on_state (fun s => mkState (indexes s) (filter (fun p => alive (pool c) p.2 = true) (builders s)) (s_bytes s) (sequence s)) c.

(** [cached]: the index of a directory, which is the last one used now. *)
Definition cached (d : string) (c : Cache) : option nat * Cache :=
  let s := state c in
  match indexes s !! d with
  | Some entry => (Some (index entry), on_state (fun s => mkState (<[d := mkCached (index entry) (c_bytes entry) (sequence s + 1)]> (indexes s)) (builders s) (s_bytes s) (sequence s + 1)) c)
  | None => (None, on_state (fun s => mkState (indexes s) (builders s) (s_bytes s) (sequence s + 1)) c)
  end.

(** The builder of a directory, which is a new one when nobody has the old one. *)
Definition register (d : string) (c : Cache) : nat * Cache :=
  let c := retain c in
  match builders (state c) !! d with
  | Some b => (b, on_builder b upgrade c)
  | None =>
    let b := length (pool c) in
    (b, mkCache (mkState (indexes (state c)) (<[d := b]> (builders (state c))) (s_bytes (state c)) (sequence (state c)))
          (heap c) (pool c ++ [mkBuilder false 0 1]) (past c))
  end.

Definition invalidate (d : string) (c : Cache) : Cache :=
  let c := on_state (State_remove d) c in
  let c := match builders (state c) !! d with
           | Some b => if alive (pool c) b then on_builder b bump c else c
           | None => c
           end in
  let c := retain c in
  mkCache (state c) (heap c) (pool c) (past c ++ [Some d]).

Definition clear (c : Cache) : Cache :=
  let s := state c in
  let c := mkCache (mkState ∅ (builders s) 0 (sequence s)) (heap c)
             (imap (fun b x => if alive (pool c) b && bool_decide (b ∈ (map_to_list (builders s)).*2) then bump x else x) (pool c))
             (past c ++ [None]) in
  retain c.

Definition directory_of (call : Call) : string :=
  match call with Index d _ | Check d _ | Add d _ _ | Invalidate d => d | Clear => "" end.

Definition forced (call : Call) : bool := match call with Index _ force => force | _ => false end.

(** Where a call goes on when [index] returns. *)
Definition after_index (call : Call) (r : result nat string) : Phase :=
  match r with
  | Err e => Returned (Err e)
  | Ok i => match call with Index _ _ => Returned (Ok (Shared i)) | _ => Looking i end
  end.

(** The first checks of [check] and [add]. *)
Definition enter (call : Call) (a : Answer) : Phase :=
  match checked a with
  | Err e => Returned (Err e)
  | Ok _ =>
    match call with
    | Check d isrc => if is_empty d || is_empty isrc then Returned (Ok (Path "")) else Starting
    | Add d isrc p => if is_empty d || is_empty isrc || is_empty p then Returned (Ok Nothing) else Adding
    | _ => Starting
    end
  end.

Definition missing_index : IndexOf := new_index 0 0.
Definition at_index (c : Cache) (i : nat) : IndexOf := default missing_index (heap c !! i).
Definition at_builder (c : Cache) (b : nat) : Builder := default (mkBuilder false 0 0) (pool c !! b).

(** [fresh] asks for less than the time to live. *)
Definition is_fresh (ix : IndexOf) (now : Z) : bool := sat_sub now (built_at ix) <? ttl.

(** The last part of [index]: the index is shared, and cached unless its directory was invalidated meanwhile. *)
Definition publish (d : string) (b g : nat) (ix : IndexOf) (c : Cache) : Phase * Cache :=
  let i := length (heap c) in
  let c := mkCache (state c) (heap c ++ [ix]) (pool c) (past c) in
  if negb (is_empty d) && (generation (at_builder c b) =? g)%nat then
    match State_store d i (bytes ix) (state c) with
    | Some s => (Unlocking b (Ok i), on_state (fun _ => s) c)
    | None => (Panicked, c)
    end
  else (Unlocking b (Ok i), c).

(** [add] writes to the index it has found. *)
Definition add_file (key p : string) (st : option FileStamp) (now : Z) (ix : IndexOf) : IndexOf :=
  let key := parsed key in
  let ix := insert_match (clone key) (own p) ix in
  let ix := match st with Some st => insert_file (own p) (mkFileEntry st key) ix | None => ix end in
  mkIndex (entries ix) (files ix) (bytes ix) now (epoch ix).

Definition restore (d : string) (i : nat) (n : Z) (c : Cache) : Phase * Cache :=
  match indexes (state c) !! d with
  | Some current =>
    if (index current =? i)%nat then
      match State_store d i n (state c) with
      | Some s => (Returned (Ok Nothing), on_state (fun _ => s) c)
      | None => (Panicked, c)
      end
    else (Returned (Ok Nothing), c)
  | None => (Returned (Ok Nothing), c)
  end.

Definition forget (key : string) (ix : IndexOf) : IndexOf :=
  mkIndex (delete key (entries ix)) (files ix) (bytes ix) (built_at ix) (epoch ix).

(** The steps of [index]. *)
Definition step_index (call : Call) (a : Answer) (p : Phase) (c : Cache) : Phase * Cache :=
  let d := directory_of call in
  match p with
  | Starting =>
    (match checked a with
     | Err e => Returned (Err e)
     | Ok _ => if forced call then Registering else Seeking None
     end, c)
  | Seeking b =>
    let '(found, c) := cached d c in
    (match found, b with Some i, _ => Ageing b i | None, None => Registering | None, Some b => Loading b end, c)
  | Ageing b i =>
    (match is_fresh (at_index c i) (now a), b with
     | true, None => after_index call (Ok i)
     | true, Some b => Unlocking b (Ok i)
     | false, None => Registering
     | false, Some b => Loading b
     end, c)
  | Registering => let '(b, c) := register d c in (Locking b, c)
  | Locking b =>
    match checked a with
    | Err e => (Dropping b (Err e), c)
    | Ok _ =>
      if locked (at_builder c b) then (Locking b, c)
      else (if forced call then Loading b else Seeking (Some b), on_builder b (lock true) c)
    end
  | Loading b => (Recalling b (generation (at_builder c b)) (epoch_of (past c) d), c)
  | Recalling b g e =>
    let '(found, c) := cached d c in (match found with Some i => Copying b g e i | None => Building b g e ∅ end, c)
  | Copying b g e i => (Building b g e (files (at_index c i)), c)
  | Building b g e previous =>
    let listed := if is_empty d then Ok [] else listed a in
    (match checked a, listed with
     | Err e, _ | Ok _, Err e => Unlocking b (Err e)
     | Ok _, Ok listed =>
       match build previous listed (read a) (failure a) (now a) e with
       | Ok ix => Storing b g ix
       | Err e => Unlocking b (Err e)
       end
     end, c)
  | Storing b g ix => publish d b g ix c
  | Unlocking b r => (Dropping b r, on_builder b (lock false) c)
  | Dropping b r => (after_index call r, on_builder b release c)
  | _ => (p, c)
  end.

(** The steps of [check], behind [index]. *)
Definition step_check (key : string) (a : Answer) (p : Phase) (c : Cache) : Phase * Cache :=
  match p with
  | Looking i =>
    (match entries (at_index c i) !! uppercase key with
     | Some p => Stating i (uppercase key) (text p)
     | None => Returned (Ok (Path ""))
     end, c)
  | Stating i key p =>
    (match checked a, stat a with
     | Err e, _ | Ok _, Err e => Returned (Err e)
     | Ok _, Ok st =>
       if match st with Some st => negb (directory st) && (0 <? size st) | None => false end then Returned (Ok (Path p))
       else Forgetting i key
     end, c)
  | Forgetting i key => (Returned (Ok (Path "")), on_index i (forget key) c)
  | _ => (p, c)
  end.

(** The steps of [add]. *)
Definition step_add (d key p : string) (a : Answer) (ph : Phase) (c : Cache) : Phase * Cache :=
  match ph with
  | Adding => let '(found, c) := cached d c in (match found with Some i => Inspecting i | None => Returned (Ok Nothing) end, c)
  | Inspecting i =>
    (match stat a, checked a with
     | Err e, _ | Ok _, Err e => Returned (Err e)
     | Ok st, Ok _ => Inserting i st
     end, c)
  | Inserting i st =>
    let c := on_index i (add_file key p st (now a)) c in (Restoring i (bytes (at_index c i)), c)
  | Restoring i n => restore d i n c
  | _ => (ph, c)
  end.

Definition step (call : Call) (a : Answer) (p : Phase) (c : Cache) : Phase * Cache :=
  match p with
  | Entering => (enter call a, c)
  | Dismissing => (Returned (Ok Nothing), match call with Clear => clear c | _ => invalidate (directory_of call) c end)
  | Looking _ | Stating _ _ _ | Forgetting _ _ => match call with Check _ key => step_check key a p c | _ => (p, c) end
  | Adding | Inspecting _ | Inserting _ _ | Restoring _ _ => match call with Add d key q => step_add d key q a p c | _ => (p, c) end
  | Returned _ | Panicked => (p, c)
  | _ => step_index call a p c
  end.

Definition first_phase (call : Call) : Phase :=
  match call with Index _ _ => Starting | Check _ _ | Add _ _ _ => Entering | Invalidate _ | Clear => Dismissing end.

Record System := mkSystem { cache : Cache; callers : list (Call * Phase) }.

Definition move (i : nat) (a : Answer) (s : System) : System :=
  match callers s !! i with
  | Some (call, p) => let '(p, c) := step call a p (cache s) in mkSystem c (<[i := (call, p)]> (callers s))
  | None => s
  end.

Definition run (schedule : list (nat * Answer)) (s : System) : System := fold_left (fun s e => move e.1 e.2 s) schedule s.

Definition empty_cache : Cache := mkCache (mkState ∅ ∅ 0 0) [] [] [].

(** Callers that begin with an empty cache. *)
Definition start (calls : list Call) : System := mkSystem empty_cache (map (fun call => (call, first_phase call)) calls).
End cache.
