(* ===== verification/IsrcCacheSpec.v ===== *)
(** * What the ISRC index cache guarantees

    The cache stays within its limits and its sums are exact, whatever the callers do; an index that it hands out was
    begun after the last invalidation of its directory; one caller at a time builds the index of a directory; and the
    index of a rebuild, which reads the changed files only, is the one that reading everything gives. *)

From S2P Require Import Prelude RustText UnicodeText Matching CharText Paths RiffTags IsrcCache.
From S2P Require FlacTagsSpec.

(** ** Sums over maps *)

Definition total {V} (f : V -> Z) (m : gmap string V) : Z := map_fold (fun _ v n => f v + n) 0 m.

Lemma total_insert_new {V} (f : V -> Z) m k v : m !! k = None -> total f (<[k:=v]> m) = f v + total f m.
Proof. intros Hk. unfold total. by rewrite map_fold_insert_L by (done || intros; lia). Qed.

Lemma total_delete {V} (f : V -> Z) m k v : m !! k = Some v -> total f (delete k m) = total f m - f v.
Proof. intros Hk. unfold total. rewrite (map_fold_delete_L _ 0 k v m) by (done || intros; lia). lia. Qed.

Lemma total_insert {V} (f : V -> Z) m k old v : m !! k = Some old -> total f (<[k:=v]> m) = total f m - f old + f v.
Proof.
  intros Hk. rewrite <- insert_delete_eq, total_insert_new by apply lookup_delete_eq. rewrite (total_delete _ _ _ _ Hk). lia.
Qed.

Lemma total_nonneg {V} (f : V -> Z) m : (forall k v, m !! k = Some v -> 0 <= f v) -> 0 <= total f m.
Proof.
  unfold total. induction m as [|k v m Hk IH] using map_ind; intros Hf; [rewrite map_fold_empty; lia|].
  rewrite map_fold_insert_L by (done || intros; lia). pose proof (Hf k v (lookup_insert_eq _ _ _)).
  enough (0 <= map_fold (fun _ v n => f v + n) 0 m) by lia. apply IH. intros k' v' Hk'. apply (Hf k').
  rewrite lookup_insert_ne; [done|]. by intros ->; congruence.
Qed.

Lemma total_ge {V} (f : V -> Z) m k v : (forall k v, m !! k = Some v -> 0 <= f v) -> m !! k = Some v -> f v <= total f m.
Proof.
  intros Hf Hk. pose proof (total_delete f m k v Hk). enough (0 <= total f (delete k m)) by lia.
  apply total_nonneg. intros k' v' [_ Hk']%lookup_delete_Some. by apply (Hf k').
Qed.

(** ** The state *)

(** The limits, and the exact sum. *)
Definition state_ok (s : State) : Prop :=
  Z.of_nat (base.size (indexes s)) <= MAX_DIRECTORIES /\ s_bytes s = total c_bytes (indexes s) /\ s_bytes s <= MAX_INDEX_BYTES /\
  forall d e, indexes s !! d = Some e -> 0 <= c_bytes e.

Lemma state_remove_ok d s : state_ok s -> state_ok (State_remove d s).
Proof.
  intros (Hn & Hs & Hm & Hp). unfold State_remove. destruct (indexes s !! d) as [e|] eqn:He; [|done].
  pose proof (Hp _ _ He). unfold state_ok. split_conj; cbn [indexes s_bytes].
  - rewrite map_size_delete_Some by eauto. lia.
  - rewrite (total_delete _ _ _ _ He). lia.
  - lia.
  - intros d' e' [_ He']%lookup_delete_Some. by eapply Hp.
Qed.

Lemma state_remove_indexes d s : indexes (State_remove d s) = delete d (indexes s).
Proof. unfold State_remove. destruct (indexes s !! d) eqn:He; [done|]. by rewrite delete_id. Qed.

Lemma state_remove_builders d s : builders (State_remove d s) = builders s.
Proof. unfold State_remove. by destruct (indexes s !! d). Qed.

Lemma fold_older l best : exists p, foldl older (Some best) l = Some p /\ (p = best \/ p ∈ l).
Proof.
  revert best. induction l as [|q l IH]; intros best; [exists best; split; [done|by left]|]. simpl. case_bool.
  - destruct (IH q) as (p & Hp & Hin). exists p. split; [done|]. right. apply elem_of_cons. tauto.
  - destruct (IH best) as (p & Hp & Hin). exists p. split; [done|]. rewrite elem_of_cons. tauto.
Qed.

Lemma oldest_some m : m <> ∅ -> exists d e, oldest m = Some d /\ m !! d = Some e.
Proof.
  intros Hm. unfold oldest. destruct (btree_iter m) as [|p l] eqn:Hl.
  - destruct Hm. apply map_empty. intros k. destruct (m !! k) as [v|] eqn:Hk; [|done].
    apply elem_of_btree_iter in Hk. rewrite Hl in Hk. by apply not_elem_of_nil in Hk.
  - simpl. destruct (fold_older l p) as ([d e] & Hf & Hin). exists d, e. rewrite Hf. split; [done|].
    apply elem_of_btree_iter. rewrite Hl. apply elem_of_cons. tauto.
Qed.

(** Room can always be made: the loop never panics. *)
Lemma make_room_ok fuel n s : state_ok s -> n <= MAX_INDEX_BYTES -> (base.size (indexes s) <= fuel)%nat ->
  exists s', make_room fuel n s = Some s' /\ state_ok s' /\ indexes s' ⊆ indexes s /\ builders s' = builders s /\
    Z.of_nat (base.size (indexes s')) < MAX_DIRECTORIES /\ s_bytes s' + n <= MAX_INDEX_BYTES.
Proof.
  intros Hs Hn. revert s Hs. induction fuel as [|fuel IH]; intros s Hs Hf; cbn [make_room]; destruct (_ || _) eqn:Hc.
  - assert (indexes s = ∅) as He by (apply map_size_empty_inv; lia). destruct Hs as (_ & Hb & _). rewrite He in *.
    unfold total in Hb. rewrite map_fold_empty in Hb. rewrite map_size_empty in Hc. apply orb_true_iff in Hc as [Hc|Hc]; [done|lia].
  - exists s. apply orb_false_iff in Hc as [? ?]. split_conj; [done|done|done|done|lia|lia].
  - destruct (decide (indexes s = ∅)) as [He|He].
    { destruct Hs as (_ & Hb & _). rewrite He in *. unfold total in Hb. rewrite map_fold_empty in Hb.
      rewrite map_size_empty in Hc. apply orb_true_iff in Hc as [Hc|Hc]; [done|lia]. }
    destruct (oldest_some _ He) as (d & e & -> & Hd). destruct (IH (State_remove d s)) as (s' & Hr & Hok & Hsub & Hb & ? & ?).
    + by apply state_remove_ok.
    + rewrite state_remove_indexes, map_size_delete_Some by eauto. lia.
    + exists s'. rewrite Hr, Hb, state_remove_builders. rewrite state_remove_indexes in Hsub.
      split_conj; [done|done| |done|done|done]. etrans; [exact Hsub|apply delete_subseteq].
  - exists s. apply orb_false_iff in Hc as [? ?]. split_conj; [done|done|done|done|lia|lia].
Qed.

Section spec.
Context `{Unicode} `{Layout} (ttl : Z).

Lemma state_store_ok d i n s : state_ok s -> 0 <= n ->
  exists s', State_store d i n s = Some s' /\ state_ok s' /\ builders s' = builders s /\
    forall d' e, indexes s' !! d' = Some e -> (d' = d /\ index e = i) \/ (d' <> d /\ indexes s !! d' = Some e).
Proof.
  intros Hs Hn. unfold State_store. pose proof (state_remove_ok d s Hs) as Hr. set (k := Z.min _ _).
  assert (0 <= k) as Hk by (pose proof (len_nonneg (str_bytes d)); lia).
  assert (forall d' e, indexes (State_remove d s) !! d' = Some e -> d' <> d /\ indexes s !! d' = Some e) as Hold.
  { intros d' e. rewrite state_remove_indexes. intros [? ?]%lookup_delete_Some. done. }
  case_bool; [eexists; split_conj; [done|done|apply state_remove_builders|]; intros d' e He; right; by apply Hold|].
  destruct (make_room_ok (base.size (indexes (State_remove d s))) k _ Hr ltac:(lia) ltac:(lia)) as (s' & -> & Hok & Hsub & Hb & Hlt & Hroom). simpl.
  assert (indexes s' !! d = None) as Hd.
  { eapply lookup_weaken_None; [|exact Hsub]. rewrite state_remove_indexes. apply lookup_delete_eq. }
  destruct Hok as (_ & Hsum & _ & Hpos). eexists. split; [done|]. split_conj; cbn [indexes builders s_bytes].
  - unfold state_ok. split_conj; cbn [indexes builders s_bytes].
    + rewrite map_size_insert_None by done. lia.
    + rewrite total_insert_new by done. cbn. lia.
    + lia.
    + intros d' e [[<- <-]|[_ He]]%lookup_insert_Some; [done|by eapply Hpos].
  - by rewrite Hb, state_remove_builders.
  - intros d' e [[<- <-]|[Hne He]]%lookup_insert_Some; [by left|right]. apply Hold. by eapply lookup_weaken.
Qed.

(** ** The bytes of an index *)

(** What the values of an index hold is counted, so no subtraction of the accounting is of more than there is. *)
Definition accounted (ix : IndexOf) : Prop :=
  total (fun p => Z.of_N (capacity p)) (entries ix) + total cost (files ix) <= bytes ix.

Lemma file_cost_nonneg f : 0 <= cost f. Proof. unfold cost. lia. Qed.

Lemma accounted_nonneg ix : accounted ix -> 0 <= bytes ix.
Proof.
  unfold accounted. assert (0 <= total (fun p => Z.of_N (capacity p)) (entries ix)) by (apply total_nonneg; intros; lia).
  assert (0 <= total cost (files ix)) by (apply total_nonneg; intros; apply file_cost_nonneg). lia.
Qed.

Lemma insert_match_ok k p ix : accounted ix -> accounted (insert_match k p ix).
Proof.
  unfold accounted, insert_match. cbn [entries files bytes]. intros Ha. destruct (entries ix !! text k) as [old|] eqn:Hk.
  - rewrite (total_insert _ _ _ _ _ Hk). lia.
  - rewrite (total_insert_new _ _ _ _ Hk). lia.
Qed.

Lemma insert_file_ok p f ix : accounted ix -> accounted (insert_file p f ix).
Proof.
  unfold accounted, insert_file. cbn [entries files bytes]. intros Ha. destruct (files ix !! text p) as [old|] eqn:Hk.
  - rewrite (total_insert _ _ _ _ _ Hk). lia.
  - rewrite (total_insert_new _ _ _ _ Hk). lia.
Qed.

Lemma new_index_ok now e : accounted (new_index now e).
Proof. unfold accounted, new_index. cbn [entries files bytes]. unfold total. rewrite !map_fold_empty. lia. Qed.

Lemma forget_ok k ix : accounted ix -> accounted (forget k ix).
Proof.
  unfold accounted, forget. cbn [entries files bytes]. intros Ha. destruct (entries ix !! k) as [old|] eqn:Hk.
  - rewrite (total_delete _ _ _ _ Hk). lia.
  - by rewrite delete_id.
Qed.

Lemma add_file_ok k p st now ix : accounted ix -> accounted (add_file k p st now ix).
Proof.
  intros Ha. unfold add_file. assert (forall ix, accounted ix -> accounted (mkIndex (entries ix) (files ix) (bytes ix) now (epoch ix))) as Hm by done.
  apply Hm. destruct st; [apply insert_file_ok|]; by apply insert_match_ok.
Qed.

Lemma take_listed_ok prev acc st : accounted acc.1 -> accounted (take_listed prev acc st).1.
Proof.
  intros Ha. unfold take_listed. case_bool; [done|]. destruct (prev !! _) as [e|]; [|done]. case_bool; [|done]. cbn.
  apply insert_file_ok. case_bool; [done|by apply insert_match_ok].
Qed.

Lemma take_changed_ok ix p : accounted ix -> accounted (take_changed ix p).
Proof. intros Ha. destruct p as [st s]. cbn. apply insert_file_ok. case_bool; [done|by apply insert_match_ok]. Qed.

Lemma foldl_keeps {A B} (P : A -> Prop) (f : A -> B -> A) l a : (forall a b, P a -> P (f a b)) -> P a -> P (foldl f a l).
Proof. intros Hf. revert a. induction l as [|b l IH]; intros a Ha; [done|]. simpl. apply IH, Hf, Ha. Qed.

Lemma build_ok prev listed read failure now e ix :
  build prev listed read failure now e = Ok ix -> accounted ix /\ epoch ix = e.
Proof.
  unfold build. intros Hb.
  assert (accounted (foldl (take_listed prev) (new_index now e, []) listed).1 /\ epoch (foldl (take_listed prev) (new_index now e, []) listed).1 = e) as [Ha He].
  { apply (foldl_keeps (fun acc => accounted acc.1 /\ epoch acc.1 = e)); [|split; [apply new_index_ok|done]].
    intros acc st [Ha He]. split; [by apply take_listed_ok|]. unfold take_listed. case_bool; [done|]. destruct (prev !! _); [|done].
    case_bool; [|done]. cbn. by case_bool. }
  destruct (foldl _ _ _) as [ix0 changed]. destruct (read_all _ _) as [values|]; [|done]. injection Hb as <-.
  apply (foldl_keeps (fun ix => accounted ix /\ epoch ix = e)); [|done].
  intros ix [st s] [Ha' He']. split; [by apply take_changed_ok|]. cbn. by case_bool.
Qed.
End spec.

(** ** The callers *)

Section callers.
Context `{Unicode} `{Layout} (ttl : Z).

(** The builder a caller has, whether it has locked it, what it has noted of its generation and of the invalidations,
    and the index it has in hand. *)
Definition held (p : Phase) : option nat :=
  match p with
  | Seeking (Some b) | Ageing (Some b) _ | Locking b | Loading b | Recalling b _ _ | Copying b _ _ _ | Building b _ _ _
  | Storing b _ _ | Unlocking b _ | Dropping b _ => Some b
  | _ => None
  end.
Definition owned_lock (p : Phase) : option nat := match p with Locking _ | Dropping _ _ => None | _ => held p end.
Definition recorded (p : Phase) : option (nat * nat * nat) :=
  match p with
  | Recalling b g e | Copying b g e _ | Building b g e _ => Some (b, g, e)
  | Storing b g ix => Some (b, g, epoch ix)
  | _ => None
  end.
Definition in_hand (p : Phase) : option nat :=
  match p with
  | Ageing _ i | Copying _ _ _ i | Unlocking _ (Ok i) | Dropping _ (Ok i) | Looking i | Stating i _ _ | Forgetting i _
  | Inspecting i | Inserting i _ | Restoring i _ | Returned (Ok (Shared i)) => Some i
  | _ => None
  end.

Definition one (o : option nat) (b : nat) : nat := if decide (o = Some b) then 1 else 0.
Definition holders (b : nat) (l : list (Call * Phase)) : nat := sum_list (map (fun q => one (held q.2) b) l).

Lemma holders_insert b l i call p p' : l !! i = Some (call, p) ->
  (holders b (<[i := (call, p')]> l) + one (held p) b = holders b l + one (held p') b)%nat.
Proof.
  unfold holders. revert i. induction l as [|q l IH]; intros [|i] Hi; try done; simpl in *.
  - injection Hi as ->. simpl. lia.
  - specialize (IH i Hi). lia.
Qed.

Lemma holders_ge b l i call p : l !! i = Some (call, p) -> (one (held p) b <= holders b l)%nat.
Proof.
  unfold holders. revert i. induction l as [|q l IH]; intros [|i] Hi; try done; simpl in *; [injection Hi as ->; simpl; lia|].
  specialize (IH i Hi). lia.
Qed.

Lemma holders_two b l i j call p call' q : i <> j -> l !! i = Some (call, p) -> l !! j = Some (call', q) ->
  (one (held p) b + one (held q) b <= holders b l)%nat.
Proof.
  unfold holders. revert i j. induction l as [|x l IH]; intros [|i] [|j] Hne Hi Hj; try done; simpl in *.
  - injection Hi as ->. apply (holders_ge b) in Hj. unfold holders in Hj. simpl. lia.
  - injection Hj as ->. apply (holders_ge b) in Hi. unfold holders in Hi. simpl. lia.
  - specialize (IH i j ltac:(congruence) Hi Hj). lia.
Qed.

Lemma holders_none b l : (forall i call p, l !! i = Some (call, p) -> held p <> Some b) -> holders b l = 0%nat.
Proof.
  unfold holders. induction l as [|[call p] l IH]; intros Hl; [done|]. simpl. rewrite IH.
  - unfold one. rewrite decide_False; [done|]. by apply (Hl 0%nat call).
  - intros i c q Hi. by apply (Hl (S i) c).
Qed.

(** What holds of the cache, and of a caller. *)
Record cache_ok (c : Cache) : Prop := {
  ok_state : state_ok (state c);
  ok_current : forall d e, indexes (state c) !! d = Some e ->
    (index e < length (heap c))%nat /\ epoch (at_index c (index e)) = epoch_of (past c) d;
  ok_heap : Forall accounted (heap c);
  ok_table : forall d b, builders (state c) !! d = Some b -> (b < length (pool c))%nat;
  ok_once : forall d d' b, builders (state c) !! d = Some b -> builders (state c) !! d' = Some b -> d = d' }.

Record tail_ok (c : Cache) (call : Call) (p : Phase) : Prop := {
  ok_recorded : forall b g e, recorded p = Some (b, g, e) ->
    (g + epoch_of (past c) (directory_of call) = generation (at_builder c b) + e)%nat;
  ok_storing : forall b g ix, p = Storing b g ix -> accounted ix;
  ok_restoring : forall i n, p = Restoring i n -> 0 <= n;
  ok_running : p <> Panicked;
  ok_hand : forall i, in_hand p = Some i -> (i < length (heap c))%nat }.

Record phase_ok (c : Cache) (call : Call) (p : Phase) : Prop := {
  ok_held : forall b, held p = Some b -> builders (state c) !! directory_of call = Some b;
  ok_locked : forall b, owned_lock p = Some b -> locked (at_builder c b) = true;
  ok_tail : tail_ok c call p }.

Record inv (s : System) : Prop := {
  inv_cache : cache_ok (cache s);
  inv_phases : forall i call p, callers s !! i = Some (call, p) -> phase_ok (cache s) call p;
  inv_strong : forall b, (b < length (pool (cache s)))%nat -> strong (at_builder (cache s) b) = holders b (callers s);
  inv_exclusive : forall i j call call' p p' b, callers s !! i = Some (call, p) -> callers s !! j = Some (call', p') ->
    owned_lock p = Some b -> owned_lock p' = Some b -> i = j }.

Lemma owned_held p b : owned_lock p = Some b -> held p = Some b.
Proof. by destruct p. Qed.

Lemma recorded_owned p b g e : recorded p = Some (b, g, e) -> owned_lock p = Some b.
Proof. destruct p; cbn; congruence. Qed.

(** A caller that does not move keeps what holds of it. *)
Lemma phase_frame c c' call p : phase_ok c call p ->
  (length (heap c) <= length (heap c'))%nat ->
  (forall b, held p = Some b -> builders (state c') !! directory_of call = Some b /\
    (owned_lock p = Some b -> locked (at_builder c b) = true -> locked (at_builder c' b) = true) /\
    (generation (at_builder c' b) + epoch_of (past c) (directory_of call) = generation (at_builder c b) + epoch_of (past c') (directory_of call))%nat) ->
  phase_ok c' call p.
Proof.
  intros [Hh Hl Ht] Hlen Hb. split.
  - intros b Hp. by apply (Hb b).
  - intros b Hp. apply (Hb b); [by apply owned_held|done|by apply Hl].
  - destruct Ht as [Hr Hs Hre Hrun Hi]. split; try done.
    + intros b g e Hp. specialize (Hr _ _ _ Hp). apply recorded_owned, owned_held in Hp. apply Hb in Hp as (_ & _ & Hg). lia.
    + intros i Hp%Hi. lia.
Qed.

Section move.
Variables (s : System) (i : nat) (call : Call) (p : Phase).
Hypothesis Hinv : inv s.
Hypothesis Hi : callers s !! i = Some (call, p).

Lemma lookup_callers p' j call' q : <[i := (call, p')]> (callers s) !! j = Some (call', q) ->
  (j = i /\ call' = call /\ q = p') \/ (j <> i /\ callers s !! j = Some (call', q)).
Proof.
  destruct (decide (j = i)) as [->|Hne].
  - rewrite list_lookup_insert_eq by (by eapply lookup_lt_Some). intros [= <- <-]. by left.
  - rewrite list_lookup_insert_ne by done. by right.
Qed.

Lemma holder_in_pool b call' q j : callers s !! j = Some (call', q) -> held q = Some b -> (b < length (pool (cache s)))%nat.
Proof. intros Hj Hq. eapply ok_table, ok_held; [apply Hinv|by eapply inv_phases|done]. Qed.

Lemma inv_move p' c' :
  cache_ok c' -> phase_ok c' call p' ->
  (forall j call' q, j <> i -> callers s !! j = Some (call', q) -> phase_ok (cache s) call' q -> phase_ok c' call' q) ->
  (forall b, (b < length (pool c'))%nat -> (strong (at_builder c' b) + one (held p) b = holders b (callers s) + one (held p') b)%nat) ->
  (forall b, owned_lock p' = Some b -> owned_lock p = Some b \/ forall j call' q, callers s !! j = Some (call', q) -> owned_lock q <> Some b) ->
  inv (mkSystem c' (<[i := (call, p')]> (callers s))).
Proof.
  intros Hc Hp Hothers Hstrong Hlock. split; cbn [cache callers]; [done| | |].
  - intros j call' q [(-> & -> & ->)|[Hne Hj]]%lookup_callers; [done|]. apply (Hothers j); [done|done|by eapply inv_phases].
  - intros b Hb. pose proof (holders_insert b _ _ _ _ p' Hi). specialize (Hstrong b Hb). lia.
  - intros j j' call1 call2 q q' b [(-> & -> & ->)|[Hne Hj]]%lookup_callers [(-> & -> & ->)|[Hne' Hj']]%lookup_callers H1 H2; [done| | |].
    + destruct (Hlock b H1) as [Hq|Hno]; [|by destruct (Hno _ _ _ Hj')]. by eapply (inv_exclusive _ Hinv).
    + destruct (Hlock b H2) as [Hq|Hno]; [|by destruct (Hno _ _ _ Hj)]. by eapply (inv_exclusive _ Hinv).
    + by eapply (inv_exclusive _ Hinv).
Qed.

(** A move that leaves the builders alone. *)
Lemma inv_quiet p' c' :
  pool c' = pool (cache s) -> builders (state c') = builders (state (cache s)) -> past c' = past (cache s) ->
  (length (heap (cache s)) <= length (heap c'))%nat -> cache_ok c' -> held p' = held p -> owned_lock p' = owned_lock p ->
  tail_ok c' call p' -> inv (mkSystem c' (<[i := (call, p')]> (callers s))).
Proof.
  intros Hpool Hb Hpast Hlen Hc Hheld Hlock Htail.
  assert (forall b, at_builder c' b = at_builder (cache s) b) as Hat by (intros b; unfold at_builder; by rewrite Hpool).
  pose proof (inv_phases _ Hinv _ _ _ Hi) as [Hh Hl _]. apply inv_move; [done| | | |].
  - split; [by rewrite Hb, Hheld|intros b; rewrite Hlock, Hat; apply Hl|done].
  - intros j call' q _ _ Hq. apply (phase_frame (cache s)); [done|done|]. intros b Hhq.
    rewrite Hb, !Hat, Hpast. split_conj; [by apply Hq|done|lia].
  - intros b Hlt. rewrite Hat, Hheld. rewrite Hpool in Hlt. rewrite (inv_strong _ Hinv) by done. lia.
  - intros b. rewrite Hlock. by left.
Qed.
End move.
End callers.

(** ** The steps *)

Section steps.
Context `{Unicode} `{Layout} (ttl : Z).

Lemma cached_ok d c : cache_ok c ->
  cache_ok (cached d c).2 /\ pool (cached d c).2 = pool c /\ builders (state (cached d c).2) = builders (state c) /\
  past (cached d c).2 = past c /\ heap (cached d c).2 = heap c /\
  forall i, (cached d c).1 = Some i -> (i < length (heap c))%nat /\ epoch (at_index c i) = epoch_of (past c) d.
Proof.
  intros [(Hn & Hs & Hm & Hp) Hc Hh Ht Ho]. unfold cached. destruct (indexes (state c) !! d) as [e|] eqn:He; cbn [fst snd].
  - split; [|split_conj; try done; intros i [= <-]; by apply Hc].
    split; [|intros d' e'; cbn [on_state state indexes]; intros [[<- <-]|[_ He']]%lookup_insert_Some; [exact (Hc d e He)|exact (Hc d' e' He')]|done|done|done].
    unfold state_ok. cbn [on_state state indexes s_bytes]. split_conj; [|rewrite (total_insert _ _ _ _ _ He); cbn [c_bytes]; lia|done|].
    + rewrite map_size_insert_Some by eauto. done.
    + intros d' e' [[<- <-]|[_ He']]%lookup_insert_Some; [exact (Hp d e He)|exact (Hp d' e' He')].
  - split_conj; done.
Qed.

Lemma epoch_on_index i f c j : (forall ix, epoch (f ix) = epoch ix) -> epoch (at_index (on_index i f c) j) = epoch (at_index c j).
Proof.
  intros Hf. unfold at_index, on_index. cbn [heap]. destruct (decide (j = i)) as [->|Hne].
  - rewrite list_lookup_alter_eq. by destruct (heap c !! i); cbn.
  - by rewrite list_lookup_alter_ne.
Qed.

Lemma on_index_ok i f c : (forall ix, accounted ix -> accounted (f ix)) -> (forall ix, epoch (f ix) = epoch ix) ->
  cache_ok c -> cache_ok (on_index i f c).
Proof.
  intros Ha He [Hs Hc Hh Ht Ho]. split; [done| | |done|done].
  - intros d e Hd. rewrite epoch_on_index by done. unfold on_index. cbn [heap]. rewrite length_alter. by apply Hc.
  - apply Forall_alter; [done|]. by intros ix _ ?; apply Ha.
Qed.

Lemma accounted_at c i : cache_ok c -> accounted (at_index c i).
Proof.
  intros [_ _ Hh _ _]. unfold at_index. destruct (heap c !! i) as [ix|] eqn:Hi; cbn; [by eapply Forall_lookup|apply new_index_ok].
Qed.

Lemma store_ok d i n c : cache_ok c -> (i < length (heap c))%nat -> epoch (at_index c i) = epoch_of (past c) d -> 0 <= n ->
  exists s, State_store d i n (state c) = Some s /\ builders s = builders (state c) /\ cache_ok (on_state (fun _ => s) c).
Proof.
  intros [Hs Hc Hh Ht Ho] Hi He Hn. destruct (state_store_ok d i n _ Hs Hn) as (s & Hst & Hok & Hb & Hin).
  exists s. split_conj; [done|done|]. split; cbn [state heap pool past on_state]; [done| |done| |]; try rewrite Hb; try done.
  intros d' e [[-> <-]|[_ Hd]]%Hin; [done|by apply Hc].
Qed.

Lemma append_ok ix c : accounted ix -> cache_ok c -> cache_ok (mkCache (state c) (heap c ++ [ix]) (pool c) (past c)).
Proof.
  intros Ha [Hs Hc Hh Ht Ho]. split; cbn; [done| | |done|done].
  - intros d e Hd. destruct (Hc d e Hd) as [Hlt He]. rewrite length_app. split; [simpl; lia|].
    unfold at_index in *. cbn [heap]. by rewrite lookup_app_l.
  - apply Forall_app. split; [done|by apply Forall_singleton].
Qed.

Lemma lookup_retain c d b : builders (state (retain c)) !! d = Some b <-> builders (state c) !! d = Some b /\ alive (pool c) b = true.
Proof. unfold retain, on_state. cbn [state builders]. rewrite map_lookup_filter_Some. done. Qed.

Lemma retain_ok c : cache_ok c -> cache_ok (retain c).
Proof.
  intros [Hs Hc Hh Ht Ho]. split; [done|done|done| |].
  - intros d b [Hb _]%lookup_retain. by eapply Ht.
  - intros d d' b [Hb _]%lookup_retain [Hb' _]%lookup_retain. by eapply Ho.
Qed.

Lemma at_on_builder b f c b' : (b < length (pool c))%nat ->
  at_builder (on_builder b f c) b' = if decide (b' = b) then f (at_builder c b) else at_builder c b'.
Proof.
  intros Hb. unfold at_builder, on_builder. cbn [pool]. destruct (decide (b' = b)) as [->|Hne].
  - rewrite list_lookup_alter_eq. apply lookup_lt_is_Some in Hb as [x ->]. done.
  - by rewrite list_lookup_alter_ne.
Qed.

Lemma on_builder_ok b f c : cache_ok c -> cache_ok (on_builder b f c).
Proof. intros [Hs Hc Hh Ht Ho]. split; try done. intros d b' Hb. unfold on_builder. cbn [pool]. rewrite length_alter. by eapply Ht. Qed.

Section step.
Variables (s : System) (i : nat) (call : Call) (p : Phase).
Hypothesis Hinv : inv s.
Hypothesis Hi : callers s !! i = Some (call, p).
Abbreviation c := (cache s).
Abbreviation d := (directory_of call).
Abbreviation goes p' c' := (inv (mkSystem c' (<[i := (call, p')]> (callers s)))).

Local Notation phase := (inv_phases _ Hinv _ _ _ Hi).

Lemma here_in_pool b : held p = Some b -> (b < length (pool c))%nat.
Proof. by eapply holder_in_pool. Qed.

Lemma alive_holder j call' q b : callers s !! j = Some (call', q) -> held q = Some b -> alive (pool c) b = true.
Proof.
  intros Hj Hq. pose proof (holder_in_pool _ Hinv _ _ _ _ Hj Hq) as Hlt. pose proof (inv_strong _ Hinv _ Hlt) as Hs.
  pose proof (holders_ge b _ _ _ _ Hj) as Hge. unfold one in Hge. rewrite Hq, decide_True in Hge by done.
  unfold alive, at_builder in *. apply lookup_lt_is_Some in Hlt as [x Hx]. rewrite Hx in *. change (default ?y (Some x)) with x in Hs. apply Nat.ltb_lt. lia.
Qed.

(** Taking a builder. *)
Lemma step_register : held p = None -> goes (Locking (register d c).1) (register d c).2.
Proof.
  intros Hp. unfold register. pose proof (retain_ok _ (inv_cache _ Hinv)) as Hr.
  destruct (builders (state (retain c)) !! d) as [b|] eqn:Hb; cbn [fst snd].
  - pose proof (ok_table _ Hr _ _ Hb) as Hlt. apply (inv_move s i call p Hinv Hi); [by apply on_builder_ok| | | |done].
    + split; [by intros b' [= <-]|done|]. by split.
    + intros j call' q _ Hj Hq. apply (phase_frame c); [done|done|]. intros b' Hhq. split_conj.
      * apply lookup_retain. split; [by apply Hq|by eapply alive_holder].
      * intros _. rewrite at_on_builder by done. change (at_builder (retain c)) with (at_builder c). by case_decide; subst.
      * rewrite at_on_builder by done. change (at_builder (retain c)) with (at_builder c). change (past (on_builder b upgrade (retain c))) with (past c). case_decide; [subst b'; change (generation (upgrade ?x)) with (generation x)|]; lia.
    + intros b' Hlt'. rewrite at_on_builder by done. change (at_builder (retain c)) with (at_builder c). rewrite Hp. unfold one; cbn [held].
      rewrite (decide_False (P := None = Some b')) by done.
      unfold on_builder in Hlt'. cbn in Hlt'. rewrite length_alter in Hlt'. rewrite <- (inv_strong _ Hinv b') by done.
      destruct (decide (b' = b)) as [->|Hne]; [rewrite decide_True by done; change (strong (upgrade ?x)) with (S (strong x)); lia|rewrite decide_False by congruence; lia].
  - set (b := length (pool (retain c))).
    assert (forall j call' q, callers s !! j = Some (call', q) -> held q <> Some b) as Hnone.
    { intros j call' q Hj Hq. pose proof (holder_in_pool _ Hinv _ _ _ _ Hj Hq). unfold b in *. cbn in *. lia. }
    match goal with |- context [mkSystem ?x _] => set (c' := x) end.
    assert (forall b', (b' < b)%nat -> at_builder c' b' = at_builder c b') as Hat.
    { intros b' Hlt. unfold at_builder, c'. cbn [pool]. by rewrite lookup_app_l. }
    apply (inv_move s i call p Hinv Hi).
    + unfold c'. split; cbn [state heap pool past indexes builders]; [apply Hr|apply Hr|apply Hr| |].
      * intros d' b'. rewrite length_app. cbn [length]. intros [[<- <-]|[_ Hd]]%lookup_insert_Some; [unfold b; lia|].
        pose proof (ok_table _ Hr _ _ Hd). lia.
      * intros d1 d2 b'. rewrite !lookup_insert_Some. intros [[<- <-]|[_ H1]] [[<- ?]|[_ H2]]; [done| | |by eapply (ok_once _ Hr)].
        -- pose proof (ok_table _ Hr _ _ H2). unfold b in *. lia.
        -- subst b'. pose proof (ok_table _ Hr _ _ H1). unfold b in *. lia.
    + split; [by intros b' [= <-]; apply lookup_insert_eq|done|]. by split.
    + intros j call' q _ Hj Hq. apply (phase_frame c); [done|done|]. intros b' Hhq.
      pose proof (holder_in_pool _ Hinv _ _ _ _ Hj Hhq) as Hlt. rewrite Hat by done. split_conj; [|done|change (past c') with (past c); lia].
      unfold c'. cbn [state builders]. rewrite lookup_insert_ne; [apply lookup_retain; split; [by apply Hq|by eapply alive_holder]|].
      intros Heq. rewrite Heq in Hb. assert (builders (state (retain c)) !! directory_of call' = Some b') by (apply lookup_retain; split; [by apply Hq|by eapply alive_holder]). congruence.
    + intros b' Hlt. unfold c' in Hlt. cbn [pool] in Hlt. rewrite length_app in Hlt. cbn [length] in Hlt. change (length (pool c)) with b in Hlt. rewrite Hp. unfold one; cbn [held]. rewrite (decide_False (P := None = Some b')) by done.
      destruct (decide (b' = b)) as [->|Hne].
      * unfold at_builder, c'. cbn [pool]. rewrite lookup_app_r, Nat.sub_diag by (unfold b; lia). rewrite decide_True by done. by rewrite (holders_none b).
      * change (length (pool (retain c))) with b in Hlt. rewrite Hat by lia. rewrite decide_False by congruence. rewrite (inv_strong _ Hinv) by (change (length (pool c)) with b; lia). lia.
    + done.
Qed.

(** Taking and leaving the lock, and giving the builder back. *)
Lemma step_builder p' b f :
  held p = Some b -> (held p' = Some b \/ held p' = None) ->
  (forall x, generation (f x) = generation x) ->
  (forall b', owned_lock p' = Some b' -> b' = b /\ forall x, locked (f x) = true) ->
  (strong (f (at_builder c b)) + one (held p) b = strong (at_builder c b) + one (held p') b)%nat ->
  (forall j call' q, j <> i -> callers s !! j = Some (call', q) -> owned_lock q <> Some b \/ forall x, locked x = true -> locked (f x) = true) ->
  (owned_lock p' = Some b -> owned_lock p = Some b \/ locked (at_builder c b) = false) ->
  tail_ok (on_builder b f c) call p' -> goes p' (on_builder b f c).
Proof.
  intros Hp Hp' Hgen Hlock Hstrong Hother Hexcl Htail. pose proof (here_in_pool _ Hp) as Hlt.
  apply (inv_move s i call p Hinv Hi); [apply on_builder_ok, Hinv| | | |].
  - split; [|intros b' Hb'; destruct (Hlock b' Hb') as [-> Hl]; rewrite at_on_builder, decide_True by done; apply Hl|done].
    intros b' Hb'. destruct Hp' as [Hp'|Hp']; [|congruence]. apply phase. congruence.
  - intros j call' q Hne Hj Hq. apply (phase_frame c); [done|done|]. intros b' Hhq. rewrite at_on_builder by done. split_conj.
    + by apply Hq.
    + intros Ho Hl. case_decide as Hb; [|done]. subst b'. destruct (Hother j call' q Hne Hj); [done|by auto].
    + case_decide; subst; cbn [past on_builder]; rewrite ?Hgen; lia.
  - intros b' Hb'. unfold on_builder in Hb'. cbn in Hb'. rewrite length_alter in Hb'. rewrite at_on_builder by done.
    rewrite <- (inv_strong _ Hinv b') by done. case_decide; [subst b'; apply Hstrong|].
    unfold one. rewrite Hp. rewrite (decide_False (P := Some b = Some b')) by congruence. rewrite decide_False; [done|]. destruct Hp'; congruence.
  - intros b' Hb'. destruct (Hlock b' Hb') as [-> _]. destruct (Hexcl Hb') as [?|Hf]; [by left|right].
    intros j call' q Hj Hq. pose proof (ok_locked _ _ _ (inv_phases _ Hinv _ _ _ Hj) _ Hq). congruence.
Qed.

(** Invalidating a directory, or all. *)
Lemma epoch_app l d' o : epoch_of (l ++ [o]) d' = (epoch_of l d' + if concerns d' o then 1 else 0)%nat.
Proof. unfold epoch_of. rewrite List.filter_app, length_app. simpl. by destruct (concerns d' o). Qed.

Lemma inv_dismiss c' :
  held p = None -> cache_ok c' -> heap c' = heap c -> length (pool c') = length (pool c) ->
  (forall b, strong (at_builder c' b) = strong (at_builder c b) /\ locked (at_builder c' b) = locked (at_builder c b)) ->
  (forall d' b, builders (state c) !! d' = Some b -> alive (pool c) b = true -> builders (state c') !! d' = Some b /\
    (generation (at_builder c' b) + epoch_of (past c) d' = generation (at_builder c b) + epoch_of (past c') d')%nat) ->
  goes (Returned (Ok Nothing)) c'.
Proof.
  intros Hp Hc Hheap Hpool Hsame Hgen. apply (inv_move s i call p Hinv Hi); [done| | | |done].
  - split; [done|done|]. by split.
  - intros j call' q _ Hj Hq. apply (phase_frame c); [done|by rewrite Hheap|]. intros b Hhq.
    destruct (Hgen (directory_of call') b) as [Hb Hg]; [by apply Hq|by eapply alive_holder|]. split_conj; [done| |done].
    intros _. by rewrite (proj2 (Hsame b)).
  - intros b Hb. rewrite (proj1 (Hsame b)), (inv_strong _ Hinv) by lia. unfold one. by rewrite Hp.
Qed.

Lemma step_invalidate d' : held p = None -> goes (Returned (Ok Nothing)) (invalidate d' c).
Proof.
  intros Hp. unfold invalidate. pose proof (inv_cache _ Hinv) as [Hs Hc Hh Ht Ho].
  set (c1 := on_state (State_remove d') c). change (pool c1) with (pool c).
  assert (builders (state c1) = builders (state c)) as Hb1 by apply state_remove_builders. rewrite Hb1.
  set (c2 := match builders (state c) !! d' with Some b => _ | None => c1 end).
  assert (heap c2 = heap c /\ past c2 = past c /\ state c2 = state c1 /\ length (pool c2) = length (pool c)) as (Hheap & Hpast & Hstate & Hlen).
  { unfold c2. destruct (builders (state c) !! d') as [b|]; [|done]. case_bool; [|done]. split_conj; try done. cbn. by rewrite length_alter. }
  assert (forall b, at_builder c2 b = if decide (builders (state c) !! d' = Some b /\ alive (pool c) b = true) then bump (at_builder c b) else at_builder c b) as Hat.
  { intros b. unfold c2. destruct (builders (state c) !! d') as [b0|] eqn:Hb0; [|by rewrite decide_False by naive_solver].
    destruct (alive (pool c) b0) eqn:Ha; [|rewrite decide_False; [done|]; intros [[= <-] ?]; congruence].
    rewrite at_on_builder by (by eapply Ht). repeat case_decide; naive_solver. }
  assert (forall b, alive (pool c2) b = alive (pool c) b) as Halive.
  { intros b. pose proof (Hat b) as Hb. assert (strong (at_builder c2 b) = strong (at_builder c b)) as Hsb by (rewrite Hb; by case_decide).
    unfold alive, at_builder in *. destruct (decide (b < length (pool c))%nat) as [Hlt|Hge].
    - destruct (lookup_lt_is_Some_2 (pool c) b Hlt) as [x Hx], (lookup_lt_is_Some_2 (pool c2) b ltac:(lia)) as [y Hy].
      rewrite Hx, Hy in *. change (strong y = strong x) in Hsb. by rewrite Hsb.
    - by rewrite !(proj2 (lookup_ge_None _ b)) by lia. }
  assert (forall d1 b, builders (state (retain c2)) !! d1 = Some b <-> builders (state c) !! d1 = Some b /\ alive (pool c) b = true) as Hretained.
  { intros d1 b. rewrite lookup_retain, Hstate, Hb1, Halive. done. }
  apply inv_dismiss; try done.
  - split; cbn [state heap pool past].
    + change (state (retain c2)) with (mkState (indexes (state c2)) (builders (state (retain c2))) (s_bytes (state c2)) (sequence (state c2))).
      rewrite Hstate. by apply (state_remove_ok d').
    + intros d1 e. change (indexes (state (retain c2))) with (indexes (state c2)). change (heap (retain c2)) with (heap c2). change (past (retain c2)) with (past c2).
      unfold at_index. cbn [heap]. rewrite Hstate, Hheap, Hpast. change (state c1) with (State_remove d' (state c)). rewrite state_remove_indexes, epoch_app.
      intros [Hne He]%lookup_delete_Some. cbn [concerns]. rewrite (proj2 (String.eqb_neq d' d1)) by done. rewrite Nat.add_0_r. by apply Hc.
    + change (heap (retain c2)) with (heap c2). by rewrite Hheap.
    + intros d1 b [Hb _]%Hretained. change (pool (retain c2)) with (pool c2). rewrite Hlen. by eapply Ht.
    + intros d1 d2 b [H1 _]%Hretained [H2 _]%Hretained. by eapply Ho.
  - intros b. change (at_builder _ b) with (at_builder c2 b) at 1 3. rewrite Hat. by case_decide.
  - intros d1 b Hb Ha. cbn [state past]. split; [by apply Hretained|]. change (at_builder _ b) with (at_builder c2 b) at 1.
    change (past (retain c2)) with (past c2). rewrite Hpast, epoch_app, Hat. cbn [concerns]. destruct (String.eqb_spec d' d1) as [<-|Hne].
    + rewrite decide_True by done. change (generation (bump ?x)) with (S (generation x)). lia.
    + rewrite decide_False; [lia|]. intros [Hb' _]. by apply Hne, (Ho _ _ b).
Qed.

Lemma step_clear : held p = None -> goes (Returned (Ok Nothing)) (clear c).
Proof.
  intros Hp. unfold clear. pose proof (inv_cache _ Hinv) as [Hs Hc Hh Ht Ho].
  set (new := imap _ (pool c)). set (c2 := mkCache _ _ new _).
  assert (length new = length (pool c)) as Hlen by apply length_imap.
  assert (forall b, at_builder c2 b = if alive (pool c) b && bool_decide (b ∈ (map_to_list (builders (state c))).*2) then bump (at_builder c b) else at_builder c b) as Hat.
  { intros b. unfold at_builder. change (pool c2) with new. unfold new. rewrite list_lookup_imap. destruct (pool c !! b) eqn:Hb; [done|].
    unfold alive. by rewrite Hb. }
  assert (forall b, alive new b = alive (pool c) b) as Halive.
  { intros b. unfold alive at 1, new. rewrite list_lookup_imap. unfold alive at 2. destruct (pool c !! b); [|done]. cbn. by destruct (_ && _). }
  apply inv_dismiss; try done.
  - split; [|intros d1 e; cbn; by rewrite lookup_empty|done| |].
    + unfold state_ok, c2, retain, total. cbn. rewrite map_fold_empty. split_conj; done.
    + intros d1 b [Hb _]%lookup_retain. change (pool (retain c2)) with new. rewrite Hlen. by eapply Ht.
    + intros d1 d2 b [H1 _]%lookup_retain [H2 _]%lookup_retain. by eapply Ho.
  - intros b. change (at_builder (retain c2) b) with (at_builder c2 b). rewrite Hat. by case_match.
  - intros d1 b Hb Ha. split; [apply lookup_retain; split; [done|]; change (pool c2) with new; by rewrite Halive|].
    change (at_builder (retain c2) b) with (at_builder c2 b). change (past (retain c2)) with (past c ++ [None]). rewrite Hat, Ha, epoch_app.
    rewrite bool_decide_true; [change (generation (bump ?x)) with (S (generation x)); cbn [andb concerns]; cbn; lia|].
    apply list_elem_of_fmap. exists (d1, b). split; [done|]. by apply elem_of_map_to_list.
Qed.

(** The other moves leave the builders alone. *)
Local Notation tail := (ok_tail _ _ _ phase).

Lemma stays p' : held p' = held p -> owned_lock p' = owned_lock p -> tail_ok c call p' -> goes p' c.
Proof. intros. apply (inv_quiet s i call p Hinv Hi); try done. apply Hinv. Qed.

Lemma looks_up p' : held p' = held p -> owned_lock p' = owned_lock p -> tail_ok c call p' -> goes p' (cached d c).2.
Proof.
  intros Hh Ho [Hr Hs Hre Hrun Hi']. destruct (cached_ok d c (inv_cache _ Hinv)) as (Hc & Hp & Hb & Hpa & He & _).
  apply (inv_quiet s i call p Hinv Hi); try done; [by rewrite He|]. split; try done.
  - intros b g e Hq. unfold at_builder. rewrite Hp, Hpa. by apply Hr.
  - intros j Hj. rewrite He. by apply Hi'.
Qed.

Lemma found j : (cached d c).1 = Some j -> (j < length (heap c))%nat.
Proof. destruct (cached_ok d c (inv_cache _ Hinv)) as (_ & _ & _ & _ & _ & Hf). intros Hj. by apply Hf. Qed.

Lemma writes p' k f : (forall ix, accounted ix -> accounted (f ix)) -> (forall ix, epoch (f ix) = epoch ix) ->
  held p' = held p -> owned_lock p' = owned_lock p -> recorded p' = None -> tail_ok (on_index k f c) call p' -> goes p' (on_index k f c).
Proof.
  intros Ha He Hh Ho Hr Ht. apply (inv_quiet s i call p Hinv Hi); try done; [cbn; by rewrite length_alter|]. apply on_index_ok; [done|done|apply Hinv].
Qed.

Ltac tails := split; try done; intros; simplify_eq/=; try done; auto.

Lemma hand_after j : tail_ok c call p -> in_hand p = Some j -> (j < length (heap c))%nat.
Proof. intros [_ _ _ _ Hh]. apply Hh. Qed.

Lemma tail_after c' r : (forall j, r = Ok j -> (j < length (heap c'))%nat) -> tail_ok c' call (after_index call r).
Proof. intros Hr. destruct r as [j|e]; cbn; [destruct call|]; tails; by apply Hr. Qed.

Lemma held_after r : held (after_index call r) = None.
Proof. destruct r; [by destruct call|done]. Qed.

Lemma owned_after r : owned_lock (after_index call r) = None.
Proof. destruct r; [by destruct call|done]. Qed.

Lemma step_publish b g ix : p = Storing b g ix -> goes (publish d b g ix c).1 (publish d b g ix c).2.
Proof.
  intros Hp. pose proof tail as [Hr Hs _ _ _]. rewrite Hp in Hr, Hs. specialize (Hr _ _ _ eq_refl). specialize (Hs _ _ _ eq_refl).
  pose proof (append_ok ix c Hs (inv_cache _ Hinv)) as Hc. unfold publish. set (c1 := mkCache _ _ _ _) in *.
  assert (tail_ok c1 call (Unlocking b (Ok (length (heap c))))) as Ht.
  { tails. rewrite length_app. simpl. lia. }
  assert (goes (Unlocking b (Ok (length (heap c)))) c1) as Hplain.
  { apply (inv_quiet s i call p Hinv Hi); rewrite ?Hp; try done. cbn. rewrite length_app. lia. }
  destruct (_ && _) eqn:Hg; [|done]. apply andb_true_iff in Hg as [_ Hg%Nat.eqb_eq].
  destruct (store_ok d (length (heap c)) (bytes ix) c1 Hc) as (st & Hst & Hb & Hok).
  - cbn. rewrite length_app. simpl. lia.
  - unfold at_index. cbn [heap c1]. rewrite list_lookup_middle by done. change (epoch ix = epoch_of (past c) d). change (generation (at_builder c b) = g) in Hg. lia.
  - by apply accounted_nonneg.
  - change (state c1) with (state c) in Hst. change (state c1) with (state c). rewrite Hst. cbn [fst snd].
    assert (length (heap c) < length (heap (on_state (fun _ => st) c1)))%nat by (cbn; rewrite length_app; simpl; lia).
    apply (inv_quiet s i call p Hinv Hi); rewrite ?Hp; try done; [lia|]. by tails.
Qed.

Lemma step_restore k n : p = Restoring k n -> goes (restore d k n c).1 (restore d k n c).2.
Proof.
  intros Hp. pose proof tail as [_ _ Hn _ Hh]. rewrite Hp in Hn, Hh. specialize (Hn _ _ eq_refl). specialize (Hh _ eq_refl).
  assert (forall c', tail_ok c' call (Returned (Ok Nothing))) as Ht by (intros; tails). unfold restore.
  destruct (indexes (state c) !! d) as [current|] eqn:Hc; [|apply stays; rewrite ?Hp; done].
  destruct (_ =? _)%nat eqn:Hk; [|apply stays; rewrite ?Hp; done]. apply Nat.eqb_eq in Hk as <-.
  destruct (store_ok d (index current) n c (inv_cache _ Hinv)) as (st & -> & Hb & Hok); [done|by apply (ok_current _ (inv_cache _ Hinv))|done|].
  apply (inv_quiet s i call p Hinv Hi); rewrite ?Hp; done.
Qed.

(** Neither the phase before nor the one after has a builder or an index. *)
Ltac settle Heq := rewrite ?Heq; repeat case_match; try done; tails.

Lemma step_index_inv a q : p = q ->
  match q with
  | Starting | Seeking _ | Ageing _ _ | Registering | Locking _ | Loading _ | Recalling _ _ _ | Copying _ _ _ _ | Building _ _ _ _
  | Storing _ _ _ | Unlocking _ _ | Dropping _ _ => True
  | _ => False
  end -> goes (step_index ttl call a q c).1 (step_index ttl call a q c).2.
Proof.
  intros Heq Hq. pose proof tail as Htail. rewrite Heq in Htail. pose proof found as Hf.
  destruct q; try done; cbn [step_index]; clear Hq.
  - apply stays; settle Heq.
  - destruct (cached d c) as [f c'] eqn:Hc. cbn [fst snd] in *. replace c' with (cached d c).2 by (by rewrite Hc).
    apply looks_up; rewrite ?Heq; destruct f as [j|], b as [b|]; try done; tails; by apply Hf.
  - pose proof (ok_hand _ _ _ Htail _ eq_refl) as Hj. destruct (is_fresh _ _ _), b as [b|]; cbn [fst snd]; apply stays; rewrite ?Heq; try done; try (by tails).
    + by apply held_after.
    + by apply owned_after.
    + apply tail_after. by intros j [= <-].
  - pose proof step_register as Hr. destruct (register d c) as [b c']. cbn [fst snd] in *. apply Hr. by rewrite Heq.
  - destruct (checked a) as [u|e]; cbn [fst snd].
    + destruct (locked (at_builder c b)) eqn:Hl; cbn [fst snd]; [apply stays; rewrite ?Heq; done|].
      apply (step_builder _ b); rewrite ?Heq; try done; try (by right).
      * case_bool; by left.
      * case_bool; intros b' [= <-]; done.
      * destruct (at_builder c b). by case_bool.
      * case_bool; by tails.
    + apply stays; by rewrite ?Heq.
  - apply stays; rewrite ?Heq; try done. by tails.
  - destruct (cached d c) as [f c'] eqn:Hc. cbn [fst snd] in *. replace c' with (cached d c).2 by (by rewrite Hc).
    pose proof (ok_recorded _ _ _ Htail _ _ _ eq_refl). apply looks_up; rewrite ?Heq; destruct f as [j|]; try done; tails; by apply Hf.
  - pose proof (ok_recorded _ _ _ Htail _ _ _ eq_refl). apply stays; rewrite ?Heq; try done; by tails.
  - pose proof (ok_recorded _ _ _ Htail _ _ _ eq_refl) as Hr. cbn [fst snd].
    set (listed' := if is_empty _ then _ else _). destruct (checked a) as [u|err], listed' as [l|err']; cbn [fst snd]; try (apply stays; rewrite ?Heq; try done; by tails).
    destruct (build _ _ _ _ _ _) as [ix|err'] eqn:Hb; apply stays; rewrite ?Heq; try done; try (by tails).
    apply build_ok in Hb as [Ha He]. by tails.
  - by apply step_publish.
  - cbn [fst snd]. apply (step_builder _ b); rewrite ?Heq; try done; try (by left).
    + intros j call' q Hne Hj. left. intros Ho. apply Hne. eapply (inv_exclusive _ Hinv); [exact Hj|exact Hi|exact Ho|by rewrite Heq].
    + pose proof (ok_hand _ _ _ Htail) as Hh. by tails.
  - cbn [fst snd]. apply (step_builder _ b); rewrite ?Heq, ?held_after, ?owned_after; try done; try (by right).
    + pose proof (holders_ge b _ _ _ _ Hi) as Hge. rewrite <- (inv_strong _ Hinv b) in Hge by (apply here_in_pool; by rewrite Heq).
      rewrite Heq in Hge. unfold one in *. cbn [held] in *. rewrite decide_True in * by done. rewrite decide_False by done.
      change (strong (release ?x)) with (pred (strong x)). lia.
    + pose proof (ok_hand _ _ _ Htail) as Hh. apply tail_after. intros j ->. by apply Hh.
Qed.

Lemma step_check_inv key a q : p = q -> match q with Looking _ | Stating _ _ _ | Forgetting _ _ => True | _ => False end ->
  goes (step_check key a q c).1 (step_check key a q c).2.
Proof.
  intros Heq Hq. pose proof (ok_hand _ _ _ tail) as Hh. rewrite Heq in Hh. destruct q; try done; cbn [step_check]; clear Hq.
  - cbn [fst snd]. apply stays; rewrite ?Heq; case_match; try done; by tails.
  - cbn [fst snd]. apply stays; rewrite ?Heq; repeat case_match; try done; by tails.
  - cbn [fst snd]. apply writes; rewrite ?Heq; try done. apply forget_ok.
Qed.

Lemma step_add_inv d' key path a q : p = q -> match q with Adding | Inspecting _ | Inserting _ _ => True | Restoring _ _ => d' = d | _ => False end -> d' = d ->
  goes (step_add d' key path a q c).1 (step_add d' key path a q c).2.
Proof.
  intros Heq Hq ->. pose proof (ok_hand _ _ _ tail) as Hh. rewrite Heq in Hh. pose proof found as Hf.
  destruct q; try done; cbn [step_add]; clear Hq.
  - destruct (cached d c) as [f c'] eqn:Hc. cbn [fst snd] in *. replace c' with (cached d c).2 by (by rewrite Hc).
    apply looks_up; rewrite ?Heq; destruct f as [j|]; try done; tails; by apply Hf.
  - cbn [fst snd]. apply stays; rewrite ?Heq; repeat case_match; try done; by tails.
  - specialize (Hh _ eq_refl). apply writes; rewrite ?Heq; try done; [intros ix; apply add_file_ok|by intros ix; destruct st|].
    split; try done; cbn [heap on_index]; intros; simplify_eq/=; rewrite ?length_alter; try done.
    apply accounted_nonneg, accounted_at, on_index_ok; [intros ix; apply add_file_ok|by intros ix; destruct st|apply Hinv].
  - by apply step_restore.
Qed.

Lemma step_inv a : goes (step ttl call a p c).1 (step ttl call a p c).2.
Proof.
  remember p as q eqn:Heq in |- *. symmetry in Heq. unfold step. pose proof step_check_inv as Hcheck. pose proof step_add_inv as Hadd.
  pose proof step_index_inv as Hindex.
  destruct q; try (by apply Hindex); 
    try (destruct call eqn:Hcl in |- *; rewrite <- Hcl;
      first [by apply Hcheck|by apply Hadd; rewrite ?Hcl|apply stays; rewrite ?Heq; try done; rewrite <- Heq; exact tail]).
  - apply stays; rewrite ?Heq; unfold enter; repeat case_match; try done; by tails.
  - cbn [fst snd]. destruct call eqn:Hcl in |- *; rewrite <- Hcl; first [by apply step_invalidate; rewrite Heq|by apply step_clear; rewrite Heq].
Qed.
End step.

Lemma inv_moved i a s : inv s -> inv (move ttl i a s).
Proof.
  intros Hs. unfold move. destruct (callers s !! i) as [[call p]|] eqn:Hi; [|done].
  pose proof (step_inv s i call p Hs Hi a) as Hstep. by destruct (step ttl call a p (cache s)).
Qed.

Lemma inv_reached schedule s : inv s -> inv (run ttl schedule s).
Proof. revert s. induction schedule as [|[i a] schedule IH]; intros s Hs; [done|]. apply IH, inv_moved, Hs. Qed.

Lemma first_phases calls i call p : callers (start calls) !! i = Some (call, p) -> p = first_phase call.
Proof. unfold start. cbn [callers]. rewrite list_lookup_fmap. intros Hi. destruct (calls !! i); simplify_eq/=. done. Qed.

Lemma inv_start calls : inv (start calls).
Proof.
  split.
  - split; cbn; [|intros d e; by rewrite lookup_empty|done|intros d b; by rewrite lookup_empty|intros d d' b; by rewrite lookup_empty].
    unfold state_ok, total. cbn. rewrite map_fold_empty. split_conj; done.
  - intros i call p ->%first_phases. split; [|by destruct call|split]; by destruct call.
  - intros b Hb. cbn in Hb. lia.
  - intros i j call call' p p' b ->%first_phases ->%first_phases. by destruct call.
Qed.
End steps.

(** ** What callers get *)

Section results.
Context `{Unicode} `{Layout} (ttl : Z).

(** Indexes stay, with their epochs, and invalidations are only added. *)
Definition grows (c c' : Cache) : Prop :=
  (forall i, (i < length (heap c))%nat -> (i < length (heap c'))%nat /\ epoch (at_index c' i) = epoch (at_index c i)) /\
  forall d, (epoch_of (past c) d <= epoch_of (past c') d)%nat.

Lemma grows_same c c' : heap c' = heap c -> past c' = past c -> grows c c'.
Proof. intros Hh Hp. unfold grows, at_index. rewrite Hh, Hp. done. Qed.

Lemma grows_past c c' o : heap c' = heap c -> past c' = past c ++ [o] -> grows c c'.
Proof. intros Hh Hp. unfold grows, at_index. rewrite Hh, Hp. split; [done|]. intros d. rewrite epoch_app. lia. Qed.

Lemma grows_heap c c' ix : heap c' = heap c ++ [ix] -> past c' = past c -> grows c c'.
Proof.
  intros Hh Hp. unfold grows, at_index. rewrite Hh, Hp. split; [|done]. intros i Hi. rewrite length_app, lookup_app_l by done. split; [lia|done].
Qed.

Lemma grows_index c i f : (forall ix, epoch (f ix) = epoch ix) -> grows c (on_index i f c).
Proof.
  intros Hf. split; [|done]. intros j Hj. rewrite epoch_on_index by done. unfold on_index. cbn. by rewrite length_alter.
Qed.

Lemma grows_cached d c : grows c (cached d c).2.
Proof. unfold cached. case_match; by apply grows_same. Qed.

Lemma grows_step call a p c : grows c (step ttl call a p c).2.
Proof.
  assert (grows c c) as Hc by (by apply grows_same).
  assert (grows c (cached (directory_of call) c).2) as Hcached by apply grows_cached.
  destruct p; cbn [step step_index]; try done.
  - by destruct (cached _ c).
  - unfold register. cbv zeta. destruct (builders _ !! _); by apply grows_same.
  - destruct (checked a); [destruct (locked _)|]; cbn [snd]; try done; by apply grows_same.
  - by destruct (cached _ c).
  - unfold publish. repeat case_match; cbn; try (by eapply grows_heap).
  - by destruct call.
  - by destruct call.
  - destruct call; try done. cbn [step_check snd]. by apply grows_index.
  - destruct call; try done. cbn [step_add]. cbn [directory_of] in Hcached. by destruct (cached _ c).
  - by destruct call.
  - destruct call; try done. cbn [step_add snd]. apply grows_index. intros ix. by destruct st.
  - destruct call; try done. cbn [step_add]. unfold restore. repeat case_match; try done; by apply grows_same.
  - cbn [snd]. unfold invalidate, clear. destruct call; repeat case_match; by eapply grows_past.
Qed.

(** What a caller has in hand, or has noted, is no older than the call. *)
Definition since (e : nat) (c : Cache) (p : Phase) : Prop :=
  (forall i, in_hand p = Some i -> (e <= epoch (at_index c i))%nat) /\ (forall b g e', recorded p = Some (b, g, e') -> (e <= e')%nat).

Lemma since_grows e c c' call p : phase_ok c call p -> grows c c' -> since e c p -> since e c' p.
Proof.
  intros Hok [Hg _] [Hh Hr]. split; [|done]. intros i Hi. pose proof (ok_hand _ _ _ (ok_tail _ _ _ Hok) _ Hi). rewrite (proj2 (Hg i ltac:(done))). by apply Hh.
Qed.

Lemma since_after e c call r : (forall i, r = Ok i -> (e <= epoch (at_index c i))%nat) -> since e c (after_index call r).
Proof. intros Hr. destruct r as [i|err]; cbn; [|done]. specialize (Hr i eq_refl). destruct call; split; try done; by intros ? [= <-]. Qed.

Lemma since_step s i call p e a : inv s -> callers s !! i = Some (call, p) ->
  (e <= epoch_of (past (cache s)) (directory_of call))%nat -> since e (cache s) p ->
  since e (step ttl call a p (cache s)).2 (step ttl call a p (cache s)).1.
Proof.
  intros Hinv Hi He Hs. set (c := cache s) in *. pose proof (inv_phases _ Hinv _ _ _ Hi) as Hok. fold c in Hok.
  pose proof (grows_step call a p c) as [Hg _].
  destruct (cached_ok (directory_of call) c (inv_cache _ Hinv)) as (_ & _ & _ & _ & Hheap & Hf).
  assert (forall j, (cached (directory_of call) c).1 = Some j -> (e <= epoch (at_index (cached (directory_of call) c).2 j))%nat) as Hcur.
  { intros j Hj. unfold at_index. rewrite Hheap. destruct (Hf j Hj) as [_ Hj']. unfold at_index in Hj'. rewrite Hj'. lia. }
  pose proof (ok_hand _ _ _ (ok_tail _ _ _ Hok)) as Hhand. destruct Hs as [Hh Hr].
  assert (forall j, in_hand p = Some j -> (e <= epoch (at_index (step ttl call a p c).2 j))%nat) as Hh'.
  { intros j Hj. rewrite (proj2 (Hg j (Hhand j Hj))). by apply Hh. }
  assert (forall c' q, in_hand q = None -> recorded q = None -> since e c' q) as Hnone by (intros c' q H1 H2; split; rewrite ?H1, ?H2; done).
  destruct p; cbn [step step_index] in *.
  - apply Hnone; unfold enter; repeat case_match; done.
  - apply Hnone; repeat case_match; done.
  - destruct (cached _ c) as [f c'] eqn:Hc. cbn [fst snd] in *.
    destruct f as [j|], b as [b|]; try (by apply Hnone); split; try done; intros ? [= <-]; by apply Hcur.
  - cbn [fst snd] in *. specialize (Hh' _ eq_refl). destruct (is_fresh _ _ _), b as [b|]; try (by apply Hnone); [|apply since_after; by intros ? [= <-]].
    split; [|done]. by intros ? [= <-].
  - destruct (register _ c). by apply Hnone.
  - apply Hnone; repeat case_match; done.
  - split; [done|]. by intros ? ? ? [= <- <- <-].
  - destruct (cached _ c) as [f c'] eqn:Hc. cbn [fst snd] in *. specialize (Hr _ _ _ eq_refl).
    destruct f as [j|]; split; intros; simplify_eq/=; try done. by apply Hcur.
  - specialize (Hr _ _ _ eq_refl). split; [done|]. by intros ? ? ? [= <- <- <-].
  - specialize (Hr _ _ _ eq_refl). cbn [fst snd]. clear Hg Hh'. set (l := if is_empty _ then _ else _). destruct (checked a), l; try (by apply Hnone).
    destruct (build _ _ _ _ _ _) as [ix|err] eqn:Hb; [|by apply Hnone]. apply build_ok in Hb as [_ He']. split; [done|]. intros ? ? ? [= <- <- <-]. by rewrite He'.
  - specialize (Hr _ _ _ eq_refl). unfold publish.
    assert (forall st, (e <= epoch (at_index (mkCache st (heap c ++ [ix]) (pool c) (past c)) (length (heap c))))%nat) as Hnew.
    { intros st. unfold at_index. cbn [heap]. by rewrite list_lookup_middle. }
    case_bool; [case_match|]; try (by apply Hnone); (split; [|done]); intros ? [= <-]; apply Hnew.
  - split; [|done]. intros j Hj. by apply Hh'.
  - apply since_after. intros j ->. by apply Hh'.
  - destruct call; try done. cbn [step_check fst snd] in *. case_match; [|by apply Hnone]. split; [|done]. intros ? [= <-]. by apply Hh'.
  - destruct call; try done. cbn [step_check fst snd] in *. repeat case_match; try (by apply Hnone); (split; [|done]); intros ? [= <-]; by apply Hh'.
  - by destruct call.
  - destruct call; try done. cbn [step_add directory_of] in *. destruct (cached _ c) as [f c'] eqn:Hc. cbn [fst snd] in *.
    destruct f as [j|]; [|by apply Hnone]. split; [|done]. intros ? [= <-]. by apply Hcur.
  - destruct call; try done. cbn [step_add fst snd] in *. repeat case_match; try (by apply Hnone). split; [|done]. intros ? [= <-]. by apply Hh'.
  - by destruct call.
  - destruct call; try done. cbn [step_add] in *. unfold restore in *. repeat case_match; by apply Hnone.
  - by apply Hnone.
  - done.
  - done.
Qed.

Lemma move_callers i a s j call p : callers (move ttl i a s) !! j = Some (call, p) ->
  (j <> i /\ callers s !! j = Some (call, p)) \/
  (j = i /\ exists q, callers s !! i = Some (call, q) /\ step ttl call a q (cache s) = (p, cache (move ttl i a s))).
Proof.
  unfold move. destruct (callers s !! i) as [[call' q]|] eqn:Hi.
  - destruct (step ttl call' a q (cache s)) as [p' c'] eqn:Hs. cbn [callers cache]. destruct (decide (j = i)) as [->|Hne].
    + rewrite list_lookup_insert_eq by (by eapply lookup_lt_Some). intros [= <- <-]. right. eauto.
    + rewrite list_lookup_insert_ne by done. by left.
  - intros Hj. left. split; [|done]. by intros ->; congruence.
Qed.

Lemma move_grows i a s : grows (cache s) (cache (move ttl i a s)).
Proof.
  unfold move. destruct (callers s !! i) as [[call p]|]; [|by apply grows_same]. pose proof (grows_step call a p (cache s)).
  by destruct (step ttl call a p (cache s)).
Qed.

Lemma since_run e schedule s j call : inv s -> (e <= epoch_of (past (cache s)) (directory_of call))%nat ->
  (forall p, callers s !! j = Some (call, p) -> since e (cache s) p) ->
  forall p, callers (run ttl schedule s) !! j = Some (call, p) -> since e (cache (run ttl schedule s)) p.
Proof.
  revert s. induction schedule as [|[i a] schedule IH]; intros s Hinv He Hs; [done|]. cbn [run fold_left fst snd].
  apply IH; [by apply inv_moved| |].
  - etrans; [exact He|]. apply (move_grows i a s).
  - intros p Hp. apply move_callers in Hp as [[_ Hj]|(-> & q & Hq & Hst)].
    + eapply since_grows; [by eapply inv_phases|apply move_grows|by apply Hs].
    + pose proof (since_step s i call q e a Hinv Hq He (Hs q Hq)) as Hr. by rewrite Hst in Hr.
Qed.

(** C38: Whatever the callers and the outside do, the cache keeps its limits, 32 directories and 16 MiB, and its sum of
    bytes is exact; making room never finds an empty cache, which would be a panic; and every index counts what it
    holds, so its accounting never takes away more than was added. *)
Theorem isrc_cache_bounded calls schedule :
  let s := run ttl schedule (start calls) in
  Z.of_nat (base.size (indexes (state (cache s)))) <= MAX_DIRECTORIES /\
  s_bytes (state (cache s)) = total c_bytes (indexes (state (cache s))) /\ s_bytes (state (cache s)) <= MAX_INDEX_BYTES /\
  Forall (fun q => q.2 <> Panicked) (callers s) /\ Forall accounted (heap (cache s)).
Proof.
  cbv zeta. pose proof (inv_reached ttl schedule _ (inv_start calls)) as Hinv. set (s := run ttl schedule (start calls)) in *.
  destruct (ok_state _ (inv_cache _ Hinv)) as (Hn & Hs & Hm & _). split_conj; [done|done|done| |apply (ok_heap _ (inv_cache _ Hinv))].
  apply Forall_lookup. intros i [call p] Hi. apply (ok_running _ _ _ (ok_tail _ _ _ (inv_phases _ Hinv _ _ _ Hi))).
Qed.

(** C37: An index is not served past an invalidation.  In every state that callers reach, each cached index was begun
    after the last invalidation of its directory, and at most one caller builds the index of a directory; and the
    index that a call has in hand, or returns, was begun after the last invalidation that came before the call. *)
Theorem isrc_never_stale calls before after :
  let s := run ttl before (start calls) in
  let s' := run ttl after s in
  (forall d e, indexes (state (cache s)) !! d = Some e -> epoch (at_index (cache s) (index e)) = epoch_of (past (cache s)) d) /\
  (forall i j call call' p p', callers s !! i = Some (call, p) -> callers s !! j = Some (call', p') ->
    owned_lock p <> None -> owned_lock p' <> None -> directory_of call = directory_of call' -> i = j) /\
  (forall j call p i, callers s !! j = Some (call, first_phase call) -> callers s' !! j = Some (call, p) -> in_hand p = Some i ->
    (epoch_of (past (cache s)) (directory_of call) <= epoch (at_index (cache s') i))%nat).
Proof.
  cbv zeta. pose proof (inv_reached ttl before _ (inv_start calls)) as Hinv. set (s := run ttl before (start calls)) in *. split_conj.
  - intros d e He. by apply (ok_current _ (inv_cache _ Hinv)).
  - intros i j call call' p p' Hi Hj Hp Hp' Hd. destruct (owned_lock p) as [b|] eqn:Hb, (owned_lock p') as [b'|] eqn:Hb'; try done.
    pose proof (ok_held _ _ _ (inv_phases _ Hinv _ _ _ Hi) _ (owned_held _ _ Hb)) as H1.
    pose proof (ok_held _ _ _ (inv_phases _ Hinv _ _ _ Hj) _ (owned_held _ _ Hb')) as H2.
    rewrite Hd, H2 in H1. injection H1 as ->. by eapply (inv_exclusive _ Hinv).
  - intros j call p i Hj Hp Hin.
    assert (since (epoch_of (past (cache s)) (directory_of call)) (cache (run ttl after s)) p) as [Hh _]; [|by apply Hh].
    eapply since_run; [done|done| |exact Hp]. intros q Hq. rewrite Hj in Hq. injection Hq as <-. by destruct call.
Qed.
End results.

(** ** Rebuilding *)

Section build.
Context `{Unicode} `{Layout}.

Definition path_of (st : FileStamp) : string := text (path st).
Definition counts (st : FileStamp) : bool := negb (directory st || negb (supported (path_of st))).

(** What the previous index has of a file whose stamp has not changed. *)
Definition reused (previous : Files) (st : FileStamp) : option FileEntry :=
  match previous !! path_of st with
  | Some e => if same_stamp (stamp e) st then Some e else None
  | None => None
  end.

Definition is_reused (previous : Files) (st : FileStamp) : bool := bool_decide (is_Some (reused previous st)).

(** The audio files that have not changed and those that have, in the order of the walk. *)
Definition unchanged_files (previous : Files) (listed : list FileStamp) : list FileStamp :=
  List.filter (fun st => counts st && is_reused previous st) listed.
Definition changed_files (previous : Files) (listed : list FileStamp) : list FileStamp :=
  List.filter (fun st => counts st && negb (is_reused previous st)) listed.

(** The ISRC of a file: the one that was read before, or what reading it gives. *)
Definition shown (previous : Files) (read : string -> result string string) (st : FileStamp) : string :=
  match reused previous st with
  | Some e => text (isrc e)
  | None => match read (path_of st) with Ok s => uppercase s | Err _ => "" end
  end.

(** The last of the files with a property. *)
Definition last_with (P : FileStamp -> bool) (l : list FileStamp) : option FileStamp := last (List.filter P l).

(** The index that the files [l] give one after the other when each has the ISRC [what]: of each file its stamp and
    its ISRC, and for each ISRC the last file that has it. *)
Record indexes_files (what : FileStamp -> string) (ix : IndexOf) (l : list FileStamp) : Prop := {
  of_files p : match last_with (fun st => String.eqb (path_of st) p) l with
               | Some st => exists f, files ix !! p = Some f /\ same_stamp (stamp f) st = true /\ text (isrc f) = what st
               | None => files ix !! p = None
               end;
  of_entries k : text <$> entries ix !! k =
    if is_empty k then None else path_of <$> last_with (fun st => String.eqb (what st) k) l }.

Lemma last_with_snoc P l st : last_with P (l ++ [st]) = if P st then Some st else last_with P l.
Proof.
  unfold last_with. rewrite List.filter_app. cbn [List.filter]. destruct (P st); [apply last_snoc|by rewrite app_nil_r].
Qed.

Lemma indexes_nil what now e : indexes_files what (new_index now e) [].
Proof. split; [intros p; apply lookup_empty|intros k]. cbn. rewrite lookup_empty. by destruct (is_empty k). Qed.

Lemma indexes_insert what ix l st q f ks qs :
  indexes_files what ix l -> text q = path_of st -> same_stamp (stamp f) st = true -> text (isrc f) = what st ->
  text ks = what st -> text qs = path_of st ->
  indexes_files what (insert_file q f (if is_empty (text (isrc f)) then ix else insert_match ks qs ix)) (l ++ [st]).
Proof.
  intros [Hf He] Hq Hs Hw Hks Hqs. split.
  - intros p. rewrite last_with_snoc. cbn [files insert_file].
    assert (files (if is_empty (text (isrc f)) then ix else insert_match ks qs ix) = files ix) as -> by by case_bool.
    rewrite Hq. destruct (String.eqb_spec (path_of st) p) as [->|Hne]; [rewrite lookup_insert_eq; eauto|].
    rewrite lookup_insert_ne by done. apply Hf.
  - intros k. rewrite last_with_snoc. cbn [entries insert_file]. rewrite Hw.
    destruct (is_empty (what st)) eqn:Hemp.
    + apply is_empty_spec in Hemp. rewrite Hemp. destruct (String.eqb_spec "" k) as [<-|Hne]; [by rewrite He|apply He].
    + cbn [insert_match entries]. rewrite Hks. destruct (String.eqb_spec (what st) k) as [<-|Hne].
      * rewrite lookup_insert_eq, Hemp. cbn. by rewrite Hqs.
      * rewrite lookup_insert_ne by done. apply He.
Qed.

Lemma same_stamp_refl st : same_stamp st st = true.
Proof. unfold same_stamp. by rewrite String.eqb_refl, !Z.eqb_refl, eqb_reflx. Qed.

Section build_files.
Variables (previous : Files) (read : string -> result string string).
Abbreviation what := (shown previous read).

Lemma take_listed_all l : forall ix ch kept, indexes_files what ix kept ->
  exists ix', foldl (take_listed previous) (ix, ch) l = (ix', ch ++ changed_files previous l) /\
    indexes_files what ix' (kept ++ unchanged_files previous l) /\ built_at ix' = built_at ix /\ epoch ix' = epoch ix.
Proof.
  induction l as [|st l IH]; intros ix ch kept Hix; [exists ix; by rewrite !app_nil_r|].
  assert (take_listed previous (ix, ch) st =
    if negb (counts st) then (ix, ch) else match reused previous st with
    | Some e => (insert_file (path st) e (if is_empty (text (isrc e)) then ix else insert_match (clone (isrc e)) (clone (path st)) ix), ch)
    | None => (ix, ch ++ [st]) end) as Hstep.
  { unfold take_listed, counts, reused, path_of. rewrite negb_involutive. destruct (_ || _); [done|].
    destruct (previous !! _) as [e|]; [|done]. by destruct (same_stamp _ _). }
  cbn [foldl]. rewrite Hstep. unfold changed_files, unchanged_files, is_reused. cbn [List.filter].
  destruct (counts st); cbn [negb andb]; [|by apply IH].
  destruct (reused previous st) as [e|] eqn:Hr.
  - rewrite bool_decide_true by done. cbn [negb].
    set (ix1 := insert_file _ _ _). destruct (IH ix1 ch (kept ++ [st])) as (ix' & Hf & Hi & Hb & He).
    + unfold reused in Hr. destruct (previous !! path_of st) as [e'|] eqn:Hp; [|done].
      destruct (same_stamp (stamp e') st) eqn:Hs; [|done]. injection Hr as ->.
      assert (text (isrc e) = what st) as Hw by (unfold shown, reused; by rewrite Hp, Hs).
      by apply indexes_insert.
    + exists ix'. rewrite <- app_assoc in Hi. split_conj; [done|done|rewrite Hb|rewrite He]; unfold ix1; by case_bool.
  - rewrite bool_decide_false by (by intros []). cbn [negb]. destruct (IH ix (ch ++ [st]) kept Hix) as (ix' & Hf & Hi & Hb & He).
    exists ix'. by rewrite <- app_assoc in Hf.
Qed.

Lemma read_all_spec l :
  match read_all read l with
  | Some values => Forall2 (fun st v => exists s, read (path_of st) = Ok s /\ v = parsed s) l values
  | None => exists st er, st ∈ l /\ read (path_of st) = Err er
  end.
Proof.
  induction l as [|st l IH]; cbn [read_all]; [constructor|]. fold (path_of st). destruct (read (path_of st)) as [s|er] eqn:E.
  - destruct (read_all read l) as [values|]; cbn; [by constructor; eauto|]. destruct IH as (st' & er & Hin & Her).
    exists st', er. split; [by right|done].
  - exists st, er. split; [left|done].
Qed.

Lemma take_changed_all l values : Forall2 (fun st v => exists s, read (path_of st) = Ok s /\ v = parsed s) l values ->
  Forall (fun st => reused previous st = None) l -> forall ix kept, indexes_files what ix kept ->
  let ix' := foldl take_changed ix (zip l values) in
  indexes_files what ix' (kept ++ l) /\ built_at ix' = built_at ix /\ epoch ix' = epoch ix.
Proof.
  induction 1 as [|st v l values (s & Hs & ->) Hl IH]; intros Hr ix kept Hix; [by rewrite app_nil_r|].
  apply Forall_cons in Hr as [Hst Hr]. cbn [zip zip_with foldl].
  destruct (IH Hr (take_changed ix (st, parsed s)) (kept ++ [st])) as (Hi & Hb & He).
  - assert (uppercase s = what st) as Hw by (unfold shown; by rewrite Hst, Hs).
    apply (indexes_insert what ix kept st (clone (path st)) (mkFileEntry st (parsed s)) (clone (parsed s)) (clone (path st)));
      [done|done|apply same_stamp_refl|exact Hw|exact Hw|done].
  - rewrite <- app_assoc in Hi. split_conj; [done|rewrite Hb|rewrite He]; unfold take_changed; by case_bool.
Qed.

Lemma changed_not_reused l : Forall (fun st => reused previous st = None) (changed_files previous l).
Proof.
  apply Forall_forall. intros st Hin%list_elem_of_In%filter_In. destruct Hin as [_ [_ Hn]%andb_true_iff].
  apply negb_true_iff, bool_decide_eq_false in Hn. by apply eq_None_not_Some.
Qed.

Lemma read_all_same read' l : (forall st, st ∈ l -> read' (path_of st) = read (path_of st)) -> read_all read' l = read_all read l.
Proof.
  induction l as [|st l IH]; intros Hr; [done|]. cbn [read_all]. fold (path_of st). rewrite Hr by left.
  destruct (read (path_of st)); [|done]. rewrite IH; [done|]. intros st' Hin. apply Hr. by right.
Qed.

(** C39: A rebuild is exact.  Its index is the one that the audio files of the walk give one after the other, the
    unchanged ones first and then the changed ones, each group in the order of the walk: it has of each file the stamp
    that was listed and its ISRC - what the previous index has of a file with the same stamp, else what reading the file
    now gives -, for each ISRC that some file has the last file in that order that has it, and nothing else.  So among
    files of one ISRC a changed one wins over an unchanged one, wherever the walk has them, and the winner can differ
    from that of a build that reads all files.  The build fails exactly when reading some changed file fails; and it
    depends on what reading gives for the changed files only. *)
Theorem isrc_rebuild_exact listed failure now e :
  match build previous listed read failure now e with
  | Ok ix =>
    indexes_files what ix (unchanged_files previous listed ++ changed_files previous listed) /\
    (forall st, st ∈ changed_files previous listed -> exists s, read (path_of st) = Ok s) /\
    built_at ix = now /\ epoch ix = e
  | Err er => er = failure /\ exists st er, st ∈ changed_files previous listed /\ read (path_of st) = Err er
  end /\
  (forall read', (forall st, st ∈ changed_files previous listed -> read' (path_of st) = read (path_of st)) ->
     build previous listed read' failure now e = build previous listed read failure now e).
Proof.
  unfold build. destruct (take_listed_all listed (new_index now e) [] []) as (ix & -> & Hi & Hb & He); [apply indexes_nil|].
  cbn [app] in *. pose proof (read_all_spec (changed_files previous listed)) as Hread. split.
  - destruct (read_all read _) as [values|]; [|done].
    destruct (take_changed_all _ _ Hread (changed_not_reused listed) ix _ Hi) as (Hi' & Hb' & He').
    split_conj; [done| |by rewrite Hb', Hb|by rewrite He', He]. intros st Hin.
    apply list_elem_of_lookup in Hin as [i Hlk]. destruct (Forall2_lookup_l _ _ _ _ _ Hread Hlk) as (v & _ & s & Hs & _). eauto.
  - intros read' Hr. by rewrite (read_all_same read' _ Hr).
Qed.
End build_files.
End build.

(** ** Examples *)

Module IsrcExample.
#[local] Instance layout : Layout := mkLayout 24 48 96 32 56 (fun s => N.of_nat (String.length s)).
#[local] Existing Instance FlacTagsSpec.FlacExample.ascii_unicode.

Definition file (p : string) : FileStamp := mkStamp (own p) 9 1 false.
Definition a_flac : FileStamp := file "d/a.flac".
Definition b_flac : FileStamp := file "d/b.flac".
Definition contents (p : string) : string := if String.eqb p "d/a.flac" then "aa" else "bb".

(** What the outside answers while these files exist. *)
Definition with_files (l : list FileStamp) (st : option FileStamp) : Answer :=
  mkAnswer (Ok tt) 0 (Ok l) (fun p => Ok (contents p)) "" (Ok st).
Definition times (n i : nat) (a : Answer) : list (nat * Answer) := repeat (i, a) n.

Definition ttl : Z := 300 * 1000000000.
Definition outcome (calls : list Call) (schedule : list (nat * Answer)) (i : nat) : option Phase :=
  snd <$> callers (run ttl schedule (start calls)) !! i.

Example check_finds :
  outcome [Check "d" "AA"; Check "d" "bb"] (times 20 0 (with_files [a_flac; b_flac] (Some a_flac)) ++ times 20 1 (with_files [] (Some b_flac))) 1 =
  Some (Returned (Ok (Path "d/b.flac"))).
Proof. vm_compute. reflexivity. Qed.

(** A file that is added while the index of its directory is built, after the walk, is lost. *)
Lemma added_during_build_lost :
  outcome [Check "d" "AA"; Add "d" "BB" "d/b.flac"; Check "d" "BB"]
    (times 7 0 (with_files [a_flac] (Some a_flac)) ++ times 5 1 (with_files [] (Some b_flac)) ++
     times 20 0 (with_files [] (Some a_flac)) ++ times 20 2 (with_files [a_flac; b_flac] (Some b_flac))) 2 =
  Some (Returned (Ok (Path ""))).
Proof. vm_compute. reflexivity. Qed.

(** A file that is added while a check finds that the old file is gone is lost with it. *)
Lemma added_during_check_lost :
  outcome [Check "d" "AA"; Check "d" "AA"; Add "d" "AA" "d/b.flac"; Check "d" "AA"]
    (times 20 0 (with_files [a_flac] (Some a_flac)) ++ times 5 1 (with_files [] None) ++ times 5 2 (with_files [] (Some b_flac)) ++
     times 5 1 (with_files [] None) ++ times 20 3 (with_files [b_flac] (Some b_flac))) 3 =
  Some (Returned (Ok (Path ""))).
Proof. vm_compute. reflexivity. Qed.
Lemma added_is_found :
  outcome [Check "d" "AA"; Check "d" "AA"; Add "d" "AA" "d/b.flac"; Check "d" "AA"]
    (times 20 0 (with_files [a_flac] (Some a_flac)) ++ times 20 1 (with_files [] None) ++ times 5 2 (with_files [] (Some b_flac)) ++
     times 20 3 (with_files [b_flac] (Some b_flac))) 3 =
  Some (Returned (Ok (Path "d/b.flac"))).
Proof. vm_compute. reflexivity. Qed.

Definition calls : list Call := [Invalidate "d"; Index "d" false].
Definition before : list (nat * Answer) := times 1 0 (with_files [] None).
Definition after : list (nat * Answer) := times 20 1 (with_files [a_flac] None).

Lemma isrc_never_stale_witness :
  let s := run ttl before (start calls) in
  let s' := run ttl after s in
  callers s' !! 1%nat = Some (Index "d" false, Returned (Ok (Shared 0))) /\
  (epoch_of (past (cache s)) "d" <= epoch (at_index (cache s') 0))%nat.
Proof.
  split; [vm_compute; reflexivity|].
  destruct (isrc_never_stale ttl calls before after) as (_ & _ & Hx).
  exact (Hx 1%nat (Index "d" false) (Returned (Ok (Shared 0))) 0%nat ltac:(vm_compute; reflexivity) ltac:(vm_compute; reflexivity) eq_refl).
Defined.

(** Two files of one ISRC, of which the later one has not changed: the changed one wins. *)
Definition previous : Files := {["d/b.flac" := mkFileEntry b_flac (own "AA")]}.

Lemma isrc_rebuild_exact_witness :
  exists ix, build previous [a_flac; b_flac] (fun p => if String.eqb p "d/a.flac" then Ok "aa"%string else Err "no"%string) "" 0 0 = Ok ix /\
    text <$> entries ix !! "AA"%string = Some "d/a.flac"%string /\
    (exists f, files ix !! "d/b.flac"%string = Some f /\ same_stamp (stamp f) b_flac = true /\ text (isrc f) = "AA"%string).
Proof.
  destruct (isrc_rebuild_exact previous (fun p => if String.eqb p "d/a.flac" then Ok "aa"%string else Err "no"%string)
    [a_flac; b_flac] "" 0 0) as [Hx _].
  destruct (build _ _ _ _ _ _) as [ix|er] eqn:E; [|by vm_compute in E].
  exists ix. split; [reflexivity|]. destruct Hx as ([Hf He] & _). split.
  - rewrite He. vm_compute. reflexivity.
  - exact (Hf "d/b.flac"%string).
Defined.
End IsrcExample.
