(* ===== verification/Lrc.v ===== *)
(** * LRC lyrics: [crates/core/src/lyrics/lrc.rs] and [LyricsResponse] of [crates/core/src/lyrics.rs]

    Lyrics are read from lines with a time in front, or from plain lines, and written back with a header and the
    credit of their source.  Each regular expression of the code is the function that matches it; all but
    [TIMED_LINE] are anchored or have one way to match, so there is no backtracking to model.  Base64 and the JSON of
    words are parameters, of which only the alphabet of Base64 is relied on. *)

From S2P Require Import Prelude RustText UnicodeText Matching CharText.

Definition NEWLINE : Z := 10.
Definition OPEN : Z := 91.
Definition CLOSE : Z := 93.
Definition COLON : Z := 58.

Record LyricsWord := mkWord { w_text : text; w_start_time_ms : Z; w_end_time_ms : Z }.

Record LyricsLine := mkLine {
  start_time_ms : Z; words : text; end_time_ms : Z; romanization : option text; romanization_words : option (list LyricsWord);
  translation : option text }.

Record LyricsResponse := mkLyrics {
  lines : option (list LyricsLine); sync_type : text; instrumental : bool; plain_lyrics : text; provider : text; source : text }.

Definition base64_char (c : Z) : bool := in_range 65 90 c || in_range 97 122 c || in_range 48 57 c || any_of [43; 47; 61] c.

Class Encodings := {
  words_json : list LyricsWord -> option bytes;
  base64 : bytes -> text;
  base64_alphabet l : Forall (fun c => base64_char c = true) (base64 l) }.

(** ** Patterns *)

Definition digit (c : Z) : bool := in_range 48 57 c.

(** Up to [n] digits. *)
Fixpoint take_digits (n : nat) (l : text) : text * text :=
  match n, l with
  | S n, c :: l' => if digit c then let '(ds, r) := take_digits n l' in (c :: ds, r) else ([], l)
  | _, _ => ([], l)
  end.

(** [[0-9]{1,3}:[0-9]{1,2}(?:[.:][0-9]{1,3})?] and a character: what is left. *)
Definition clock (close : Z) (l : text) : option text :=
  match take_digits 3 l with
  | (_ :: _, c :: l) =>
    if c =? COLON then
      match take_digits 2 l with
      | (_ :: _, c :: l) =>
        if c =? close then Some l
        else if (c =? 46) || (c =? COLON) then
          match take_digits 3 l with
          | (_ :: _, c :: l) => if c =? close then Some l else None
          | _ => None
          end
        else None
      | _ => None
      end
    else None
  | _ => None
  end.

(** [LEADING_TIME] and a match of [INLINE_TIME] here. *)
Definition leading_time (l : text) : option text := match l with c :: l => if c =? OPEN then clock CLOSE l else None | [] => None end.
Definition inline_time (l : text) : option text := match l with c :: l => if c =? 60 then clock 62 l else None | [] => None end.

(** [INLINE_TIME.replace_all(words, "")].  Each pass reads a character. *)
Fixpoint remove_inline_from (fuel : nat) (l : text) : text :=
  match fuel, l with
  | S fuel, c :: l' => match inline_time l with Some r => remove_inline_from fuel r | None => c :: remove_inline_from fuel l' end
  | _, _ => []
  end.
Definition remove_inline (l : text) : text := remove_inline_from (length l) l.

(** [INLINE_TIME.find_iter(words).any(..)]: a time that is not zero. *)
Fixpoint nonzero_inline_from (fuel : nat) (l : text) : bool :=
  match fuel, l with
  | S fuel, _ :: l' =>
    match inline_time l with
    | Some r => existsb (in_range 49 57) (take (length l - length r) l) || nonzero_inline_from fuel r
    | None => nonzero_inline_from fuel l'
    end
  | _, _ => false
  end.
Definition nonzero_inline (l : text) : bool := nonzero_inline_from (length l) l.

(** A match of [TIMED_LINE] here: its minutes, seconds, fraction and words. *)
Definition timed_here (l : text) : option (text * text * text * text) :=
  match l with
  | o :: m1 :: m2 :: c :: s1 :: s2 :: d :: l =>
    if (o =? OPEN) && digit m1 && digit m2 && (c =? COLON) && digit s1 && digit s2 && (d =? 46) then
      match take_digits 3 l with
      | (f1 :: f2 :: f, c :: rest) => if c =? CLOSE then Some ([m1; m2], [s1; s2], f1 :: f2 :: f, rest) else None
      | _ => None
      end
    else None
  | _ => None
  end.

(** The first match.  A line has no line feed, so the words are all that follows. *)
Fixpoint timed_line (l : text) : option (text * text * text * text) :=
  match timed_here l with
  | Some m => Some m
  | None => match l with [] => None | _ :: l => timed_line l end
  end.

(** Case-insensitive matching folds two characters to ASCII letters, the long s and the Kelvin sign. *)
Definition fold_char (c : Z) : Z := if in_range 65 90 c then c + 32 else if c =? 383 then 115 else if c =? 8490 then 107 else c.
Definition letter (c : Z) : bool := in_range 97 122 (fold_char c).
Definition name_char (c : Z) : bool := letter c || digit c || (c =? 95) || (c =? 45).

Fixpoint folded_prefix (p l : text) : option text :=
  match p, l with
  | [], _ => Some l
  | a :: p, b :: l => if a =? fold_char b then folded_prefix p l else None
  | _ :: _, [] => None
  end.

Fixpoint skip_while (p : Z -> bool) (l : text) : text :=
  match l with c :: l' => if p c then skip_while p l' else l | [] => [] end.

(** What is in front of the bracket that ends a line. *)
Definition until_close (l : text) : option text :=
  match rev l with
  | c :: r => if (c =? CLOSE) && forallb (fun c => negb (c =? NEWLINE)) r then Some (rev r) else None
  | [] => None
  end.

(** [METADATA], [BACKGROUND], [VOICE_PREFIX], [INSTRUMENTAL] and [WRITER_CREDIT]. *)
Definition is_metadata (l : text) : bool :=
  match l with
  | o :: c :: l =>
    (o =? OPEN) && letter c &&
    match skip_while name_char l with
    | c :: l => (c =? COLON) && bool_decide (is_Some (until_close l))
    | [] => false
    end
  | _ => false
  end.

Definition background (l : text) : option text := l ← folded_prefix (lit "[bg:") l; until_close l.

Definition voice_prefix (l : text) : option text :=
  match folded_prefix (lit "v") l with
  | Some (c :: l) =>
    if in_range 49 57 c then match skip_while digit l with c :: l => if c =? COLON then Some l else None | [] => None end else None
  | _ => None
  end.

Definition is_instrumental_marker (raw : text) : bool := bool_decide (map fold_char (trim_text raw) = lit "[instrumental:true]").

Definition writer_credit (l : text) : bool :=
  match folded_prefix (lit "written") l with
  | Some (c :: l) =>
    is_whitespace c &&
    match folded_prefix (lit "by") (skip_while is_whitespace l) with
    | Some l =>
      match skip_while is_whitespace l with
      | c :: d :: l => (c =? COLON) && forallb (fun c => negb (c =? NEWLINE)) (d :: l)
      | _ => false
      end
    | None => false
    end
  | _ => false
  end.

(** ** Reading *)

Definition is_nil (l : text) : bool := match l with [] => true | _ => false end.

(** Each pass removes a time. *)
Fixpoint strip_times (fuel : nat) (l : text) : text :=
  match fuel with
  | O => l
  | S fuel => match leading_time l with Some r => strip_times fuel (trim_text r) | None => l end
  end.

Definition usable_text (cleaned : text) : bool :=
  let cleaned := trim_text (remove_inline (strip_times (length cleaned) cleaned)) in
  let cleaned := match voice_prefix cleaned with Some r => trim_text r | None => cleaned end in
  negb (is_nil cleaned).

Definition usable_line (line : text) : bool :=
  let cleaned := trim_text line in
  if is_nil cleaned then false
  else
    match background cleaned with
    | Some b => usable_text (trim_text b)
    | None => if is_metadata cleaned then false else usable_text cleaned
    end.

Definition has_usable_content (raw : text) : bool := is_instrumental_marker raw || existsb usable_line (split_all NEWLINE raw).

Definition number (ds : text) : Z := fold_left (fun n c => 10 * n + (c - 48)) ds 0.

Definition plain_line (start : Z) (w : text) : LyricsLine := mkLine start w 0 None None None.

Definition add_words (l : LyricsLine) (w : text) : LyricsLine :=
  mkLine (start_time_ms l) (words l ++ w) (end_time_ms l) (romanization l) (romanization_words l) (translation l).

Definition read_line (acc : list LyricsLine) (line : text) : list LyricsLine :=
  let timed :=
    match timed_line line with
    | Some (m, s, f, rest) =>
      let w := trim_text rest in
      if is_nil w then acc
      else
        let fraction := if (length f =? 2)%nat then number f * 10 else number f in
        acc ++ [plain_line (number m * 60000 + number s * 1000 + fraction) w]
    | None => acc
    end in
  if is_nil line then acc
  else
    match rev acc with
    | previous :: before =>
      if text_starts_with line (lit "[bg:") then rev before ++ [add_words previous (NEWLINE :: line)] else timed
    | [] => timed
    end.

Definition set_end (l : LyricsLine) (ms : Z) : LyricsLine :=
  mkLine (start_time_ms l) (words l) ms (romanization l) (romanization_words l) (translation l).

(** A line ends where the next begins, the last one after five seconds. *)
Fixpoint with_ends (ls : list LyricsLine) : list LyricsLine :=
  match ls with
  | [] => []
  | [l] => [set_end l (start_time_ms l + 5000)]
  | l :: ((next :: _) as ls) => set_end l (start_time_ms next) :: with_ends ls
  end.

Definition some_lines (ls : list LyricsLine) : option (list LyricsLine) := match ls with [] => None | _ => Some ls end.

Definition parse_synced (raw : text) : option (list LyricsLine) :=
  some_lines (with_ends (foldl read_line [] (map trim_text (split_all NEWLINE raw)))).

Definition plain_text_lines (raw : text) : option (list LyricsLine) :=
  some_lines (map (plain_line 0) (List.filter (fun l => negb (is_nil l)) (map trim_text (split_all NEWLINE raw)))).

Definition plain_from_timed_lines (ls : list LyricsLine) : text :=
  join [NEWLINE] (List.filter (fun w => negb (is_nil w)) (map (fun l => trim_text (words l)) ls)).

Definition usable_timing (last : bool) (l : LyricsLine) : bool :=
  has_usable_content (words l) && negb (last && writer_credit (trim_text (words l))) &&
  ((0 <? start_time_ms l) || nonzero_inline (words l)).

Fixpoint has_usable_timing (ls : list LyricsLine) : bool :=
  match ls with
  | [] => false
  | l :: ls => usable_timing (match ls with [] => true | _ => false end) l || has_usable_timing ls
  end.

Definition untimed_text (ls : list LyricsLine) : text := remove_inline (plain_from_timed_lines ls).

(** ** Responses *)

Definition LINE_SYNCED : text := lit "LINE_SYNCED".
Definition UNSYNCED : text := lit "UNSYNCED".

Definition the_lines (r : LyricsResponse) : list LyricsLine := default [] (lines r).

Definition has_usable_text (r : LyricsResponse) : bool :=
  instrumental r || negb (is_nil (trim_text (plain_lyrics r))) || existsb (fun l => negb (is_nil (trim_text (words l)))) (the_lines r).

Definition is_synced (r : LyricsResponse) : bool := bool_decide (sync_type r = LINE_SYNCED) && has_usable_timing (the_lines r).

Definition normalize_timing (r : LyricsResponse) : LyricsResponse :=
  if bool_decide (sync_type r = LINE_SYNCED) && negb (is_synced r) then
    mkLyrics (lines r) UNSYNCED (instrumental r)
      (match the_lines r with [] => plain_lyrics r | ls => untimed_text ls end) (provider r) (source r)
  else r.

Definition from_text (raw provider source : text) : LyricsResponse :=
  normalize_timing
    match parse_synced raw with
    | Some ls => mkLyrics (Some ls) LINE_SYNCED false (plain_from_timed_lines ls) provider source
    | None =>
      match plain_text_lines raw with
      | Some ls => mkLyrics (Some ls) UNSYNCED false raw provider source
      | None => mkLyrics None [] false [] provider source
      end
    end.

(** ** Writing *)

(** [{:02}] and [{:03}] of a number that is not negative. *)
Definition padded (width : nat) (n : Z) : text :=
  let ds := lit (decimal n) in repeat 48 (width - length ds) ++ ds.

Definition timestamp_inline (ms : Z) : text :=
  let ms := Z.max ms 0 in
  let seconds := ms / 1000 in
  let fraction := if ms mod 10 =? 0 then padded 2 (ms mod 1000 / 10) else padded 3 (ms mod 1000) in
  padded 2 (seconds / 60) ++ [COLON] ++ padded 2 (seconds mod 60) ++ [46] ++ fraction.

Definition timestamp (ms : Z) : text := [OPEN] ++ timestamp_inline ms ++ [CLOSE].

Section write.
Context `{Unicode} `{Encodings}.

Definition lowercase_text : text -> text := map lower_char.

Definition OWN_SOURCES : list text := map lit
  ["lrclib"; "zarz-lrc"; "mornye lyrics"; "spotiflac-mobile lyrics"; "kugou direct"; "qq music direct"; "genius direct"; "lrc.red";
   "betterlyrics"; "extension:"; "heuristic"]%string.

Definition source_uses_proxy (source : text) : bool :=
  let source := lowercase_text (trim_text source) in
  negb (is_nil source) && negb (existsb (text_starts_with source) OWN_SOURCES).

(** [split_once] with a text: what follows its first occurrence. *)
Fixpoint after_text (p l : text) : option text :=
  match strip_prefix p l with
  | Some r => Some r
  | None => match l with [] => None | _ :: l => after_text p l end
  end.

Definition strip_last (c : Z) (l : text) : text := match rev l with d :: r => if d =? c then rev r else l | [] => l end.

Fixpoint extract_source_from (ls : list text) : text :=
  match ls with
  | [] => []
  | line :: ls =>
    if text_starts_with (lowercase_text line) (lit "[by:") then
      match after_text (lit "(source: ") line with
      | Some source => trim_text (strip_last 41 (strip_last CLOSE (trim_text source)))
      | None => []
      end
    else extract_source_from ls
  end.
Definition extract_source (raw : text) : text := extract_source_from (map trim_text (split_all NEWLINE raw)).

(** A line of metadata with Base64. *)
Definition encoded_line (tag : text) (ms : Z) (data : bytes) : text :=
  [OPEN] ++ tag ++ [COLON] ++ lit (signed_decimal ms) ++ [COLON] ++ base64 data ++ [CLOSE; NEWLINE].

Definition utf8 (t : text) : bytes := flat_map encode_char t.

Definition extra_text (tag : string) (ms : Z) (t : option text) : text :=
  match t with
  | Some t => if is_nil (trim_text t) then [] else encoded_line (lit tag) ms (utf8 (trim_text t))
  | None => []
  end.

Definition extras (l : LyricsLine) : text :=
  match romanization_words l with
  | Some (w :: ws) =>
    match words_json (w :: ws) with
    | Some json => encoded_line (lit "x-romaji-words") (start_time_ms l) json
    | None => []
    end
  | _ => []
  end ++ extra_text "x-romaji" (start_time_ms l) (romanization l) ++ extra_text "x-translation" (start_time_ms l) (translation l).

Definition written_line (synced : bool) (l : LyricsLine) : text :=
  match words l with
  | [] => []
  | w => (if synced then timestamp (start_time_ms l) ++ w else remove_inline w) ++ [NEWLINE]
  end.

Definition credited (r : LyricsResponse) : text :=
  if is_nil (trim_text (source r)) then trim_text (provider r) else trim_text (source r).

Definition header (r : LyricsResponse) (track artist : text) : text :=
  let source := credited r in
  let credit := lit (if source_uses_proxy source then "Mornye via Paxsenix API" else "Mornye") in
  lit "[ti:" ++ track ++ [CLOSE; NEWLINE] ++ lit "[ar:" ++ artist ++ [CLOSE; NEWLINE] ++ lit "[by:" ++ credit ++
  (if is_nil source then [] else lit " (source: " ++ source ++ lit ")") ++ [CLOSE; NEWLINE; NEWLINE].

Definition with_metadata (r : LyricsResponse) (track artist : text) : text :=
  match the_lines r with
  | [] => []
  | ls =>
    let synced := is_synced r in
    header r track artist ++ (if synced then flat_map extras ls else []) ++ flat_map (written_line synced) ls
  end.
End write.
