(* ===== verification/LrcSpec.v ===== *)
(** * Lyrics that are saved are read back

    What [with_metadata] writes of synced lyrics is read by [from_text] as lines of the same times and words, and
    [extract_source] finds the source that it credits. *)

From S2P Require Import Prelude RustText UnicodeText Matching CharText Lrc.
From S2P Require FlacTagsSpec.

(** ** Times *)

Lemma padded_two n : 0 <= n < 100 -> padded 2 n = [48 + n / 10; 48 + n mod 10].
Proof.
  intros Hn. assert (Forall (fun k => padded 2 (Z.of_nat k) = [48 + Z.of_nat k / 10; 48 + Z.of_nat k mod 10]) (seq 0 100)) as Hall.
  { apply (bool_decide_unpack _). vm_compute. exact I. }
  rewrite Forall_forall in Hall. rewrite <- (Z2Nat.id n) by lia. apply Hall, elem_of_seq. lia.
Qed.

Lemma padded_three n : 0 <= n < 1000 -> padded 3 n = [48 + n / 100; 48 + n / 10 mod 10; 48 + n mod 10].
Proof.
  intros Hn. assert (Forall (fun k => padded 3 (Z.of_nat k) = [48 + Z.of_nat k / 100; 48 + Z.of_nat k / 10 mod 10; 48 + Z.of_nat k mod 10]) (seq 0 1000)) as Hall.
  { apply (bool_decide_unpack _). vm_compute. exact I. }
  rewrite Forall_forall in Hall. rewrite <- (Z2Nat.id n) by lia. apply Hall, elem_of_seq. lia.
Qed.

Lemma digit_of n : 0 <= n < 10 -> digit (48 + n) = true.
Proof. intros Hn. unfold digit, in_range. lia. Qed.

(** A time of less than a hundred minutes is read as it was written. *)
Lemma timed_timestamp ms w : 0 <= ms < 6000000 ->
  exists m s f, timed_line (timestamp ms ++ w) = Some (m, s, f, w) /\
    number m * 60000 + number s * 1000 + (if (length f =? 2)%nat then number f * 10 else number f) = ms.
Proof.
  intros Hms. unfold timestamp, timestamp_inline. rewrite Z.max_l by lia.
  rewrite (padded_two (ms / 1000 / 60)) by divmod_lia. rewrite (padded_two (ms / 1000 mod 60)) by divmod_lia.
  assert (forall n, 0 <= n < 1000000 -> digit (48 + n mod 10) = true) as Hd by (intros; apply digit_of; divmod_lia).
  case_bool.
  - rewrite padded_two by divmod_lia. eexists _, _, _. split.
    + cbn [app timed_line timed_here take_digits]. rewrite !digit_of by divmod_lia. rewrite !Z.eqb_refl. cbn. reflexivity.
    + cbn [length Nat.eqb number fold_left]. divmod_lia.
  - rewrite padded_three by divmod_lia. eexists _, _, _. split.
    + cbn [app timed_line timed_here take_digits]. rewrite !digit_of by divmod_lia. rewrite !Z.eqb_refl. cbn. reflexivity.
    + cbn [length Nat.eqb number fold_left]. divmod_lia.
Qed.

(** ** Text without times *)

(** No bracket has a digit behind it. *)
Definition harmless : text -> Prop := adjacent (fun a b => a = OPEN -> digit b = false).

Lemma harmless_timed l : harmless l -> timed_line l = None.
Proof.
  induction l as [|c l IH]; intros Hl; [done|]. cbn [timed_line]. assert (timed_here (c :: l) = None) as ->.
  - cbn. destruct l as [|d l]; [done|]. destruct l as [|? [|? [|? [|? [|? l]]]]]; try done.
    destruct (Z.eqb_spec c OPEN) as [->|]; [|done]. rewrite (Hl [] OPEN d (_ :: _) eq_refl eq_refl). done.
  - apply IH. eapply adjacent_part, Hl. exists [c], []. by rewrite app_nil_r.
Qed.

Lemma split_all_part c l x : x ∈ split_all c l -> part_of x l.
Proof.
  unfold split_all. enough (forall part, x ∈ split_on c part l -> part_of x (part ++ l)) as Hx by apply (Hx []).
  induction l as [|b l IH]; intros part; cbn [split_on].
  - intros ->%list_elem_of_singleton. exists [], []. by rewrite !app_nil_r.
  - case_bool.
    + intros [->|Hin]%elem_of_cons; [by exists [], (b :: l)|]. destruct (IH _ Hin) as (u & v & Huv). cbn in Huv.
      exists (part ++ b :: u), v. by rewrite Huv, <- app_assoc.
    + intros Hin%IH. by rewrite <- app_assoc in Hin.
Qed.

Lemma harmless_lines l : harmless l -> foldl read_line [] (map trim_text (split_all NEWLINE l)) = [].
Proof.
  intros Hl. assert (Forall harmless (split_all NEWLINE l)) as Hall.
  { apply Forall_forall. intros x Hx. eapply adjacent_part; [by eapply split_all_part|done]. }
  induction Hall as [|x xs Hx _ IH]; [done|]. cbn [map foldl].
  assert (read_line [] (trim_text x) = []) as ->; [|done].
  unfold read_line. rewrite harmless_timed by (eapply adjacent_part; [apply trim_text_part|done]). cbn. by case_bool.
Qed.

Lemma harmless_free l : Forall (fun c => c <> OPEN) l -> harmless l.
Proof. intros Hl x a b y -> ->. apply Forall_app in Hl as [_ Hl]. by inversion Hl. Qed.

Lemma harmless_app l k : harmless l -> harmless k -> last l <> Some OPEN -> harmless (l ++ k).
Proof. intros Hl Hk Hlast. apply adjacent_app; [done|done|]. intros a b Ha _ ->. congruence. Qed.

(** ** Lines *)

(** One line, without white space at its ends. *)
Definition single (w : text) : Prop := ends_free is_whitespace w /\ Forall (fun c => c <> NEWLINE) w.

(** Lines that LRC can say: a time of less than a hundred minutes, and words on one line, which lines of background
    vocals may follow. *)
Definition written_form (l : LyricsLine) : Prop :=
  0 <= start_time_ms l < 6000000 /\
  exists w bgs, words l = w ++ flat_map (cons NEWLINE) bgs /\ w <> [] /\ single w /\
    Forall (fun b => single b /\ text_starts_with b (lit "[bg:") = true) bgs.

Definition bare (l : LyricsLine) : LyricsLine := plain_line (start_time_ms l) (words l).

Lemma trim_single w : single w -> trim_text w = w.
Proof. intros [Hw _]. by apply trim_id. Qed.

Lemma timestamp_head ms : exists c l, timestamp ms = OPEN :: c :: l /\ digit c = true.
Proof.
  unfold timestamp, timestamp_inline. cbn [app]. set (n := Z.max ms 0 / 1000 / 60). assert (0 <= n) by (unfold n; divmod_lia).
  assert (exists c l, padded 2 n = c :: l /\ digit c = true) as (c & l & -> & Hc); [|by exists c; eexists].
  unfold padded. destruct (decide (n = 0)) as [->|Hn]; [by exists 48, [48]|].
  destruct (decimal_digits n ltac:(lia)) as (ds & Hds & Hne & Hdig & _). unfold lit, str_bytes. rewrite Hds, length_map.
  destruct (2 - length ds)%nat; [|by eexists 48, _]. destruct ds as [|d ds]; [done|]. eexists _, _. split; [done|].
  apply Forall_cons in Hdig as [[v Hv] _]. unfold digit_value in Hv. case_match eqn:E; [|done]. done.
Qed.

Lemma read_words acc l w : 0 <= start_time_ms l < 6000000 -> w <> [] -> single w ->
  read_line acc (timestamp (start_time_ms l) ++ w) = acc ++ [plain_line (start_time_ms l) w].
Proof.
  intros Hms Hw Hs. destruct (timed_timestamp (start_time_ms l) w Hms) as (m & s & f & Ht & Hn).
  destruct (timestamp_head (start_time_ms l)) as (c & k & Hk & Hc).
  assert (text_starts_with (timestamp (start_time_ms l) ++ w) (lit "[bg:") = false) as Hbg.
  { rewrite Hk. cbn [app]. unfold text_starts_with. apply bool_decide_eq_false. intros [r Hr].
    apply strip_prefix_spec in Hr. injection Hr as -> _. done. }
  unfold read_line. rewrite Ht, Hbg. rewrite (trim_single w Hs), Hn.
  assert (is_nil w = false) as -> by (by destruct w). rewrite Hk. cbn [app is_nil]. by destruct (rev acc).
Qed.

Lemma read_background acc l bgs rest :
  Forall (fun b => single b /\ text_starts_with b (lit "[bg:") = true) bgs ->
  foldl read_line (acc ++ [l]) (bgs ++ rest) = foldl read_line (acc ++ [add_words l (flat_map (cons NEWLINE) bgs)]) rest.
Proof.
  intros Hb. revert l. induction Hb as [|b bgs [_ Hbg] _ IH]; intros l.
  - cbn. unfold add_words. rewrite app_nil_r. by destruct l.
  - cbn [app foldl flat_map]. assert (read_line (acc ++ [l]) b = acc ++ [add_words l (NEWLINE :: b)]) as ->.
    + unfold read_line. rewrite rev_app_distr. cbn [rev app]. rewrite rev_involutive, Hbg. by destruct b.
    + rewrite IH. unfold add_words. cbn. by rewrite <- app_assoc.
Qed.

Section write.
Context `{Unicode} `{Encodings}.

Abbreviation read_lines acc t := (foldl read_line acc (map trim_text (split_all NEWLINE t))).

Lemma read_lines_app acc l k : read_lines acc (l ++ NEWLINE :: k) = read_lines (read_lines acc l) k.
Proof. by rewrite split_all_app, map_app, foldl_app. Qed.

Lemma split_flat w bgs k : Forall (fun c => c <> NEWLINE) w -> Forall (Forall (fun c => c <> NEWLINE)) bgs ->
  split_all NEWLINE (w ++ flat_map (cons NEWLINE) bgs ++ NEWLINE :: k) = w :: bgs ++ split_all NEWLINE k.
Proof.
  intros Hw Hb. revert w Hw. induction Hb as [|b bgs Hb _ IH]; intros w Hw; cbn [flat_map app].
  - by rewrite split_all_app, split_all_whole.
  - rewrite <- app_assoc. rewrite split_all_app, split_all_whole by done. cbn [app]. f_equal. by apply IH.
Qed.

Lemma timestamp_line ms : Forall (fun c => c <> NEWLINE) (timestamp ms) /\ is_whitespace OPEN = false.
Proof.
  split; [|done]. unfold timestamp, timestamp_inline.
  assert (forall k n, Forall (fun c => c <> NEWLINE) (padded k n)) as Hp.
  { intros k n. unfold padded. apply Forall_app. split; [by apply List.Forall_forall; intros c ->%repeat_spec|]. unfold lit, str_bytes. rewrite Forall_map.
    destruct (decide (0 < n)) as [Hn|Hn].
    - destruct (decimal_digits n Hn) as (ds & -> & _ & Hd & _). eapply Forall_impl; [exact Hd|]. intros a [v Hv] Ha.
      unfold digit_value in Hv. rewrite Ha in Hv. done.
    - unfold decimal. replace (Z.to_N n) with 0%N by lia. by repeat constructor. }
  rewrite !Forall_app. split_conj; try apply Hp; try (by repeat constructor). case_bool; apply Hp.
Qed.

Lemma ends_free_after ms w : w <> [] -> ends_free is_whitespace w -> ends_free is_whitespace (timestamp ms ++ w).
Proof.
  intros Hne [_ Hl]. split; intros c Hc.
  - unfold timestamp in Hc. cbn in Hc. by injection Hc as <-.
  - rewrite last_app in Hc. destruct (last w) as [d|] eqn:Hd; [by apply Hl|]. by apply last_None in Hd.
Qed.

Lemma read_written acc l k : written_form l ->
  read_lines acc (written_line true l ++ k) = read_lines (acc ++ [bare l]) k.
Proof.
  intros (Hms & w & bgs & Hw & Hne & Hs & Hb).
  assert (written_line true l = (timestamp (start_time_ms l) ++ w) ++ flat_map (cons NEWLINE) bgs ++ [NEWLINE]) as ->.
  { unfold written_line. rewrite Hw. destruct w as [|c w]; [done|]. cbn [app]. rewrite <- !app_assoc. cbn [app]. by rewrite <- !app_assoc. }
  assert (Forall (Forall (fun c => c <> NEWLINE)) bgs) as Hbn by (eapply Forall_impl; [exact Hb|]; intros b [[_ ?] _]; done).
  destruct Hs as [He Hn]. rewrite <- !app_assoc. cbn [app]. rewrite (app_assoc (timestamp _)), split_flat; [|apply Forall_app; split; [apply timestamp_line|done]|done].
  assert (single (timestamp (start_time_ms l) ++ w)) as Hsingle.
  { split; [by apply ends_free_after|]. apply Forall_app. split; [apply timestamp_line|done]. }
  cbn [map foldl]. rewrite map_app, (trim_single _ Hsingle), read_words by done.
  replace (map trim_text bgs) with bgs.
  - rewrite read_background by done. do 3 f_equal. unfold add_words, bare. cbn. by rewrite Hw.
  - rewrite <- (map_id bgs) at 1. apply map_ext_Forall. eapply Forall_impl; [exact Hb|]. intros b [Hbs _]. symmetry. by apply trim_single.
Qed.

Lemma read_all_written acc ls : Forall written_form ls -> read_lines acc (flat_map (written_line true) ls) = acc ++ map bare ls.
Proof.
  intros Hls. revert acc. induction Hls as [|l ls Hl _ IH]; intros acc; [cbn; by rewrite app_nil_r|].
  cbn [flat_map map]. rewrite read_written by done. rewrite IH. by rewrite <- app_assoc.
Qed.

(** Ends do not matter for the timing. *)
Lemma usable_timing_same b l l' : start_time_ms l = start_time_ms l' -> words l = words l' -> usable_timing b l = usable_timing b l'.
Proof. intros H1 H2. unfold usable_timing. by rewrite H1, H2. Qed.

Lemma has_usable_timing_ends ls : has_usable_timing (with_ends (map bare ls)) = has_usable_timing ls.
Proof.
  induction ls as [|l ls IH]; [done|]. destruct ls as [|l' ls]; [done|].
  change (with_ends (map bare (l :: l' :: ls))) with (set_end (bare l) (start_time_ms (bare l')) :: with_ends (map bare (l' :: ls))).
  cbn [has_usable_timing]. rewrite IH. cbn [has_usable_timing]. f_equal.
  destruct (with_ends (map bare (l' :: ls))) eqn:E; [by destruct ls|]. by apply usable_timing_same.
Qed.

(** ** The header *)

(** Text of one line without an opening bracket. *)
Definition flat (t : text) : Prop := Forall (fun c => c <> OPEN /\ c <> NEWLINE) t.

Lemma flat_open t : flat t -> Forall (fun c => c <> OPEN) t.
Proof. intros Ht. eapply Forall_impl; [exact Ht|]. by intros c [? _]. Qed.
Lemma flat_line t : flat t -> Forall (fun c => c <> NEWLINE) t.
Proof. intros Ht. eapply Forall_impl; [exact Ht|]. by intros c [_ ?]. Qed.

Lemma flat_lit s : forallb (fun c => negb (c =? OPEN) && negb (c =? NEWLINE)) (lit s) = true -> flat (lit s).
Proof.
  rewrite forallb_forall. intros Hs. apply Forall_forall. intros c Hc%list_elem_of_In%Hs. apply andb_true_iff in Hc as [H1 H2].
  split; intros ->; by rewrite Z.eqb_refl in *.
Qed.

Lemma flat_decimal n : flat (lit (signed_decimal n)).
Proof.
  assert (forall n, 0 < n -> flat (lit (decimal n))) as Hd.
  { intros k Hk. destruct (decimal_digits k Hk) as (ds & Hds & _ & Hdig & _). unfold flat, lit, str_bytes. rewrite Hds, Forall_map.
    eapply Forall_impl; [exact Hdig|]. intros a [v Hv]. split; intros Ha; unfold digit_value in Hv; rewrite Ha in Hv; done. }
  unfold signed_decimal. case_bool.
  - unfold lit, str_bytes. rewrite chars_app, map_app. apply Forall_app. split; [by repeat constructor|]. apply (Hd (- n)). lia.
  - destruct (decide (n = 0)) as [->|Hn]; [by repeat constructor|]. apply Hd. lia.
Qed.

(** A line that begins with a bracket and a letter. *)
Lemma harmless_bracket c t : digit c = false -> c <> OPEN -> Forall (fun c => c <> OPEN) t -> harmless (OPEN :: c :: t).
Proof.
  intros Hc Hne Ht x a b y E Ha. destruct x as [|z x]; [by injection E as <- <- _|]. injection E as _ E. subst a.
  assert (Forall (fun c => c <> OPEN) (c :: t)) as Hall by (by constructor). rewrite E, Forall_app in Hall. destruct Hall as [_ Hall]. by inversion Hall.
Qed.

Lemma harmless_encoded tag ms data : flat (lit tag) -> digit (default 0 (head (lit tag))) = false -> lit tag <> [] -> harmless (encoded_line (lit tag) ms data).
Proof.
  intros Hf Hd Hne. unfold encoded_line. destruct (lit tag) as [|c t] eqn:Ht; [done|]. cbn [app head default] in *. apply Forall_cons in Hf as [[Hc _] Hf].
  apply harmless_bracket; [done|done|]. apply Forall_app. split; [by apply flat_open|].
  assert (Forall (fun c => c <> OPEN) (base64 data)) as Hb by (eapply Forall_impl; [apply base64_alphabet|]; by intros ? ? ->).
  pose proof (flat_open _ (flat_decimal ms)). constructor; [done|]. apply Forall_app. split; [done|]. constructor; [done|].
  apply Forall_app. split; [done|]. by repeat constructor.
Qed.

(** Text that has no time, and is nothing or ends a line. *)
Definition block (t : text) : Prop := harmless t /\ (t = [] \/ last t = Some NEWLINE).

Lemma block_app a b : block a -> block b -> block (a ++ b).
Proof.
  intros [Ha Hla] [Hb Hlb]. split.
  - apply harmless_app; [done|done|]. destruct Hla as [->| ->]; done.
  - destruct Hlb as [->|Hlb]; [by rewrite app_nil_r|]. right. by rewrite last_app, Hlb.
Qed.

Lemma block_encoded s ms data : flat (lit s) -> digit (default 0 (head (lit s))) = false -> lit s <> [] -> block (encoded_line (lit s) ms data).
Proof.
  intros. split; [by apply harmless_encoded|]. right. unfold encoded_line.
  change [CLOSE; NEWLINE] with ([CLOSE] ++ [NEWLINE]). by rewrite !app_assoc, last_snoc.
Qed.

Lemma block_extras l : block (extras l).
Proof.
  assert (block []) as Hnil by (split; [apply adjacent_nil|by left]).
  assert (forall s ms t, flat (lit s) -> digit (default 0 (head (lit s))) = false -> lit s <> [] -> block (extra_text s ms t)) as Ht.
  { intros s ms t ? ? ?. unfold extra_text. destruct t as [t|]; [|done]. case_bool; [done|by apply block_encoded]. }
  unfold extras. apply block_app; [|apply block_app; apply Ht; (apply flat_lit || idtac); done].
  destruct (romanization_words l) as [ws|]; [|done]. destruct ws as [|w ws]; [done|]. destruct (words_json _); [|done]. apply block_encoded; (apply flat_lit || idtac); done.
Qed.

Lemma block_header r track artist : flat track -> flat artist -> flat (credited r) -> block (header r track artist).
Proof.
  intros Ht Ha Hs. unfold header.
  assert (forall c t u, digit c = false -> c <> OPEN -> Forall (fun c => c <> OPEN) t -> u = [] \/ u = [NEWLINE] -> block (OPEN :: c :: t ++ NEWLINE :: u)) as Hline.
  { intros c t u Hc Hne Hfree Hu. split.
    - apply harmless_bracket; [done|done|]. apply Forall_app. split; [done|]. destruct Hu as [->| ->]; by repeat constructor.
    - right. change (last ((OPEN :: c :: t) ++ NEWLINE :: u) = Some NEWLINE). rewrite last_app. by destruct Hu as [->| ->]. }
  set (tail := lit (if source_uses_proxy _ then _ else _)). set (src := if is_nil _ then [] else _).
  assert (Forall (fun c => c <> OPEN) tail) as Htail by (apply flat_open; unfold tail; case_bool; by apply flat_lit).
  assert (Forall (fun c => c <> OPEN) src) as Hsrc.
  { unfold src. case_bool; [done|]. repeat (apply Forall_app; split); [by repeat constructor|by apply flat_open|by repeat constructor]. }
  replace (lit "[ti:" ++ track ++ [CLOSE; NEWLINE] ++ lit "[ar:" ++ artist ++ [CLOSE; NEWLINE] ++ lit "[by:" ++ tail ++ src ++ [CLOSE; NEWLINE; NEWLINE])
    with ((OPEN :: 116 :: (105 :: COLON :: track ++ [CLOSE]) ++ [NEWLINE]) ++ (OPEN :: 97 :: (114 :: COLON :: artist ++ [CLOSE]) ++ [NEWLINE]) ++
          (OPEN :: 98 :: (121 :: COLON :: tail ++ src ++ [CLOSE]) ++ NEWLINE :: [NEWLINE])) by (cbn; by rewrite <- !app_assoc).
  pose proof (flat_open _ Ht). pose proof (flat_open _ Ha).
  repeat apply block_app; apply Hline; try done; try (by left); try (by right);
    repeat first [apply Forall_cons; split; [done|]|apply Forall_app; split; [done|]]; by repeat constructor.
Qed.

Lemma block_all_extras ls : block (flat_map extras ls).
Proof. induction ls as [|l ls IH]; [split; [apply adjacent_nil|by left]|]. apply block_app; [apply block_extras|done]. Qed.

Lemma read_block t k : block t -> read_lines [] (t ++ k) = read_lines [] k.
Proof.
  intros [Ht [->|Hl]]; [done|]. apply last_Some in Hl as [body ->]. rewrite <- app_assoc. cbn [app]. rewrite read_lines_app, harmless_lines; [done|].
  eapply adjacent_part, Ht. by exists [], [NEWLINE].
Qed.

(** ** The source *)

Lemma bracket_single t : Forall (fun c => c <> NEWLINE) t -> single (OPEN :: t ++ [CLOSE]).
Proof.
  intros Ht. split; [split; intros c Hc|].
  - by injection Hc as <-.
  - change (last ((OPEN :: t) ++ [CLOSE]) = Some c) in Hc. rewrite last_snoc in Hc. by injection Hc as <-.
  - constructor; [done|]. apply Forall_app. split; [done|by repeat constructor].
Qed.

Lemma lower_ascii c : 0 <= c < 128 -> in_range 65 90 c = false -> lower_char c = c.
Proof.
  intros Hc Hl. unfold lower_char. rewrite bool_decide_false by (rewrite !elem_of_cons, elem_of_nil; lia).
  unfold in_range at 1 2. rewrite to_lowercase_ascii, Hl by done. cbn. by repeat case_bool.
Qed.

Lemma extract_header t u rest : flat t -> flat u ->
  extract_source (lit "[ti:" ++ t ++ [CLOSE; NEWLINE] ++ lit "[ar:" ++ u ++ [CLOSE; NEWLINE] ++ rest) = extract_source rest.
Proof.
  intros Ht Hu. unfold extract_source.
  replace (lit "[ti:" ++ t ++ [CLOSE; NEWLINE] ++ lit "[ar:" ++ u ++ [CLOSE; NEWLINE] ++ rest)
    with ((OPEN :: ([116; 105; COLON] ++ t) ++ [CLOSE]) ++ NEWLINE :: (OPEN :: ([97; 114; COLON] ++ u) ++ [CLOSE]) ++ NEWLINE :: rest)
    by (cbn; rewrite <- !app_assoc; reflexivity).
  pose proof (flat_line _ Ht) as Hnt. pose proof (flat_line _ Hu) as Hnu.
  assert (forall a b v, Forall (fun c => c <> NEWLINE) v -> 0 <= a < 128 -> in_range 65 90 a = false -> a <> 98 -> a <> NEWLINE -> b <> NEWLINE ->
    single (OPEN :: ([a; b; COLON] ++ v) ++ [CLOSE]) /\ text_starts_with (lowercase_text (OPEN :: ([a; b; COLON] ++ v) ++ [CLOSE])) (lit "[by:") = false) as Hline.
  { intros a b v Hv Ha Hr Hne Hna Hnb. split; [apply bracket_single; by repeat (constructor; [done|])|].
    unfold text_starts_with. apply bool_decide_eq_false. intros [r Hs]. apply strip_prefix_spec in Hs. cbn in Hs.
    injection Hs as _ Hs _. by rewrite lower_ascii in Hs. }
  destruct (Hline 116 105 t) as [Hs1 Hl1]; try done. destruct (Hline 97 114 u) as [Hs2 Hl2]; try done.
  revert Hs1 Hl1 Hs2 Hl2. generalize (OPEN :: ([116; 105; COLON] ++ t) ++ [CLOSE]) (OPEN :: ([97; 114; COLON] ++ u) ++ [CLOSE]). intros l1 l2 Hs1 Hl1 Hs2 Hl2.
  rewrite split_all_app, split_all_whole by apply Hs1. cbn [app map extract_source_from]. rewrite (trim_single _ Hs1), Hl1.
  rewrite split_all_app, split_all_whole by apply Hs2. cbn [app map extract_source_from]. by rewrite (trim_single _ Hs2), Hl2.
Qed.

Lemma extract_credit (proxy : bool) src rest : flat src -> ends_free is_whitespace src -> (src = [] -> proxy = false) ->
  extract_source (lit "[by:" ++ lit (if proxy then "Mornye via Paxsenix API" else "Mornye") ++
    (if is_nil src then [] else lit " (source: " ++ src ++ lit ")") ++ CLOSE :: NEWLINE :: rest) = src.
Proof.
  intros Hf He Hp. unfold extract_source.
  set (credit := lit (if proxy then _ else _)). set (tail := if is_nil src then [] else _).
  assert (Forall (fun c => c <> NEWLINE) (credit ++ tail)) as Hn.
  { apply Forall_app. split; [unfold credit; by destruct proxy; repeat constructor|]. unfold tail. case_bool; [done|].
    repeat (apply Forall_app; split); [by repeat constructor|by apply flat_line|by repeat constructor]. }
  assert (single (OPEN :: ([98; 121; COLON] ++ credit ++ tail) ++ [CLOSE])) as Hs.
  { apply bracket_single. by repeat (constructor; [done|]). }
  replace (lit "[by:" ++ credit ++ tail ++ CLOSE :: NEWLINE :: rest)
    with ((OPEN :: ([98; 121; COLON] ++ credit ++ tail) ++ [CLOSE]) ++ NEWLINE :: rest) by (cbn; rewrite <- !app_assoc; reflexivity).
  assert (text_starts_with (lowercase_text (OPEN :: ([98; 121; COLON] ++ credit ++ tail) ++ [CLOSE])) (lit "[by:") = true) as Hby.
  { unfold lowercase_text. cbn [map app]. rewrite !lower_ascii by done. done. }
  assert (extract_source_from (map trim_text (split_all NEWLINE ((OPEN :: ([98; 121; COLON] ++ credit ++ tail) ++ [CLOSE]) ++ NEWLINE :: rest))) =
    match after_text (lit "(source: ") (OPEN :: ([98; 121; COLON] ++ credit ++ tail) ++ [CLOSE]) with
    | Some source => trim_text (strip_last 41 (strip_last CLOSE (trim_text source)))
    | None => []
    end) as ->.
  { revert Hs Hby. generalize (OPEN :: ([98; 121; COLON] ++ credit ++ tail) ++ [CLOSE]). intros l Hs Hby.
    rewrite split_all_app, split_all_whole by apply Hs. cbn [app map extract_source_from]. by rewrite (trim_single _ Hs), Hby. }
  destruct src as [|c src].
  - specialize (Hp eq_refl). subst proxy. reflexivity.
  - assert (after_text (lit "(source: ") (OPEN :: ([98; 121; COLON] ++ credit ++ tail) ++ [CLOSE]) = Some ((c :: src) ++ [41; CLOSE])) as ->.
    { unfold tail, credit. destruct proxy; cbn; by rewrite <- app_assoc. }
    assert (trim_text ((c :: src) ++ [41; CLOSE]) = ((c :: src) ++ [41]) ++ [CLOSE]) as ->.
    { rewrite <- app_assoc. apply trim_id. destruct He as [Hh _]. split; [intros d Hd; by apply Hh|].
      intros d Hd. rewrite last_app in Hd. by injection Hd as <-. }
    assert (forall z l, strip_last z (l ++ [z]) = l) as Hstrip by (intros z l; unfold strip_last; rewrite rev_app_distr; cbn; by rewrite Z.eqb_refl, rev_involutive).
    rewrite !Hstrip. by apply trim_id.
Qed.

(** C40: Synced lyrics that are saved are read back.  Of what [with_metadata] writes, [from_text] reads a line for every
    line, with its time to the millisecond, its words and its background vocals, as synced lyrics, and
    [extract_source] reads the source that is credited.  (Every line has a time of less than a hundred minutes and
    trimmed words; title, artist and source are on one line and have no opening bracket.) *)
Theorem lrc_read_back r ls track artist by' from :
  lines r = Some ls -> is_synced r = true -> Forall written_form ls -> flat track -> flat artist -> flat (credited r) ->
  let saved := with_metadata r track artist in
  lines (from_text saved by' from) = Some (with_ends (map bare ls)) /\
  sync_type (from_text saved by' from) = LINE_SYNCED /\
  extract_source saved = credited r.
Proof.
  intros Hr Hsync Hls Ht Ha Hc saved.
  assert (the_lines r = ls) as Hlines by (unfold the_lines; by rewrite Hr).
  assert (has_usable_timing ls = true) as Htiming by (unfold is_synced in Hsync; apply andb_true_iff in Hsync as [_ Hs]; by rewrite Hlines in Hs).
  assert (saved = header r track artist ++ flat_map extras ls ++ flat_map (written_line true) ls) as Hsaved.
  { unfold saved, with_metadata. rewrite Hlines, Hsync. by destruct ls. }
  assert (parse_synced saved = Some (with_ends (map bare ls))) as Hparse.
  { unfold parse_synced. rewrite Hsaved, read_block by by apply block_header. rewrite read_block by apply block_all_extras.
    rewrite read_all_written by done. destruct ls as [|l ls]; [done|]. cbn [app]. by destruct ls. }
  assert (from_text saved by' from = mkLyrics (Some (with_ends (map bare ls))) LINE_SYNCED false (plain_from_timed_lines (with_ends (map bare ls))) by' from) as Hfrom.
  { unfold from_text. rewrite Hparse. unfold normalize_timing, is_synced. cbn [sync_type].
    change (the_lines (mkLyrics (Some ?l) _ _ _ _ _)) with l. rewrite has_usable_timing_ends, Htiming. by rewrite bool_decide_true. }
  rewrite Hfrom. split_conj; [done|done|]. rewrite Hsaved. unfold header. rewrite <- !app_assoc, extract_header by done.
  change ([CLOSE; NEWLINE; NEWLINE] ++ ?x) with (CLOSE :: NEWLINE :: NEWLINE :: x).
  apply extract_credit; [done| |by intros ->].
  unfold credited. case_bool; apply trim_ends.
Qed.
End write.

(** ** Examples *)

Module LrcExample.
#[local] Existing Instance FlacTagsSpec.FlacExample.ascii_unicode.

(** Any encoding into the alphabet will do. *)
#[local, refine] Instance letters : Encodings := { words_json _ := None; base64 l := map (fun b => 65 + b mod 26) l }.
Proof.
  intros l. apply Forall_map, Forall_forall. intros b _. unfold base64_char, in_range.
  assert (0 <= b mod 26 < 26) by (apply Z.mod_pos_bound; lia). apply orb_true_iff. left. apply orb_true_iff. left. apply orb_true_iff. left. lia.
Defined.

Definition NL : text := [NEWLINE].

(** The cases that the app, the native finalizer and the engine share. *)
Example usable_content :
  map has_usable_content
    [[]; [32; 9; 13; 10; 32]; lit "[ar:Artist]" ++ NL ++ lit "[ti:Title]" ++ NL ++ lit "[offset:0]"; lit "[AR:Artist]" ++ NL ++ lit "[BY:SpotiFLAC]";
     lit " [Instrumental:TRUE] "; lit "[00:01.00]" ++ NL ++ lit "<00:01.10>"; lit "[00:01.00][01:02:500] "; lit "v1:" ++ NL ++ lit " V2: ";
     lit "[00:00.00]<00:00.01> v1:"; lit "[00:00.00]<00:00.01>" ++ [9] ++ lit "V2:" ++ [9]; lit "[00:00.00]<00:00.01> <00:00.02> v2: "; lit "[bg: ]";
     lit "[bg:[00:00.00]<00:00.01> v1: ]"; lit "First line" ++ NL ++ lit "Second line"; lit "[00:01.00]First line";
     lit "[00:02:500]<00:02.500> v2: Harmony line"; lit "[bg:Backing vocal]"; lit "[BG:[00:00.00]<00:00.01> v1: Backing vocal]";
     lit "[00:01.00][00:02.00]Repeated line"; lit "[ti:Title]" ++ NL ++ lit "[00:00.00]Actual lyric"]
  = repeat false 4 ++ [true] ++ repeat false 8 ++ repeat true 7.
Proof. vm_compute. reflexivity. Qed.

Definition song (ms : Z) : LyricsResponse :=
  mkLyrics (Some [plain_line 1009 (lit "First" ++ NL ++ lit "[bg:(ooh)]"); plain_line ms (lit "Last <00:02.00>line")]) LINE_SYNCED false []
    (lit "Spotify") (lit " Spotify ").

Definition saved_song : text :=
  lit "[ti:Song]" ++ NL ++ lit "[ar:Ann]" ++ NL ++ lit "[by:Mornye via Paxsenix API (source: Spotify)]" ++ NL ++ NL ++
  lit "[00:01.009]First" ++ NL ++ lit "[bg:(ooh)]" ++ NL ++ lit "[01:02.50]Last <00:02.00>line" ++ NL.

Example saved : with_metadata (song 62500) (lit "Song") (lit "Ann") = saved_song.
Proof. vm_compute. reflexivity. Qed.

(** A line behind a hundred minutes is written with three digits, which are not read: its words are lost. *)
Lemma late_line_lost :
  (words <$> the_lines (from_text (with_metadata (song 6000000) (lit "Song") (lit "Ann")) [] [])) = [lit "First" ++ NL ++ lit "[bg:(ooh)]"].
Proof. vm_compute. reflexivity. Qed.

(** A title with a time in brackets is read as a line of the lyrics. *)
Lemma title_read_as_line :
  (words <$> the_lines (from_text (with_metadata (song 62500) (lit "Song [00:30.00] live") (lit "Ann")) [] [])) =
  [lit "live]"; lit "First" ++ NL ++ lit "[bg:(ooh)]"; lit "Last <00:02.00>line"].
Proof. vm_compute. reflexivity. Qed.

Lemma single_lit s : forallb (fun c => negb (c =? NEWLINE)) (lit s) = true -> negb (is_whitespace (default 0 (head (lit s)))) = true ->
  negb (is_whitespace (default 0 (last (lit s)))) = true -> single (lit s).
Proof.
  intros Hn Hh Hl. split; [split; intros c Hc; rewrite Hc in *; by apply negb_true_iff|].
  rewrite forallb_forall in Hn. apply Forall_forall. intros c Hc%list_elem_of_In%Hn ->. done.
Qed.

Lemma song_form : Forall written_form (the_lines (song 62500)).
Proof.
  apply Forall_cons; split; [|apply Forall_singleton].
  - split; [cbn; lia|]. exists (lit "First"), [lit "[bg:(ooh)]"]. split_conj; [done|done|by apply single_lit|].
    apply Forall_singleton. split; [by apply single_lit|done].
  - split; [cbn; lia|]. exists (lit "Last <00:02.00>line"), []. split_conj; [done|done|by apply single_lit|done].
Qed.

Lemma lrc_read_back_witness :
  lines (from_text saved_song [] []) = Some (with_ends (map bare (the_lines (song 62500)))) /\
  sync_type (from_text saved_song [] []) = LINE_SYNCED /\ extract_source saved_song = lit "Spotify".
Proof.
  assert (forall s, forallb (fun c => negb (c =? OPEN) && negb (c =? NEWLINE)) (lit s) = true -> flat (lit s)) as Hflat by exact flat_lit.
  rewrite <- saved.
  exact (lrc_read_back (song 62500) (the_lines (song 62500)) (lit "Song") (lit "Ann") [] [] eq_refl eq_refl song_form
    (Hflat "Song"%string eq_refl) (Hflat "Ann"%string eq_refl) (Hflat "Spotify"%string eq_refl)).
Defined.
End LrcExample.
